(* ===== verification/_CoqProject ===== *)
-Q . S2P
Prelude.v
PipePartition.v
ThinkingBudget.v
Sampling.v
Sequence.v
PrefillQueue.v
ActiveBatch.v
PrefillCohort.v
Scheduler.v
Bytes.v
Pack3.v
WireHeader.v
WireChunked.v
HalfFloat.v
Quantize.v
WireTensor.v
Mlx.v
PagedPool.v
PagedPoolInv.v
PagedPoolData.v
PagedPrefill.v
PagedGather.v
PagedContract.v
CachePool.v
PagedDetach.v
CachePoolInv.v
CacheSystem.v
PagedBudget.v
PromptKey.v
PromptTrie.v
PromptStore.v
PromptStoreInv.v
PromptLookup.v
PromptSystem.v
PromptServer.v
PromptServerInv.v
PromptServerProps.v
StableSort.v
ClusterConfig.v
ClusterNodes.v
ClusterMonitor.v
ClusterTopology.v
ClusterRouting.v
ClusterTracker.v
ClusterQueues.v
ClusterScheduler.v
ClusterSystem.v
PipeBalance.v
PipeAssembly.v
PipePlans.v
PipeOptimal.v
PipePlanner.v
PipeManual.v
PipeSchedule.v
PipeWorkers.v
PipeStages.v
PipeRun.v
PipeWire.v
PipeLoop.v
PipeLocal.v
StreamFilter.v
TtlStore.v
ResponsesTypes.v
ResponsesTranslate.v
ResponsesStream.v
ResponsesServer.v
ChatStream.v
DenseCache.v
Decode.v
SpecClassic.v
SpecWalk.v
SpecMtp.v
SpecMtpBatch.v
KvSerde.v
KvHandoff.v
KvIngest.v
KvHandoffProps.v
DisaggServe.v
DisaggRouter.v
PipeCache.v
