(* ===== verification/Prelude.v ===== *)
(** * mlxcel: a verification development

    mlxcel serves language models on Apple hardware: requests arrive over HTTP,
    a batch scheduler interleaves their prefill and decode steps, the key/value
    tensors of the running sequences live in caches, and nodes of a cluster
    exchange tensors over a binary protocol. The development covers the parts of
    that program whose correctness is a matter of bookkeeping: who owns which
    block of cache memory, which request runs next, and which bytes mean what.
    Paths below are relative to [src/src/]; [core/] stands for
    [lib/mlxcel-core/src/].

    ** Conventions

    - A Rust function that can fail is a function into [outcome] ([Ok], [Err] or
      [Panic]); one that also changes state is a term of the monad [M] of this
      file. State changes made before an error are kept, as in the code. The
      early return [?] is the monad's bind.
    - Integers are [nat] where the code's [usize] values are bounded by what is
      in memory, and [N] or [Z] with explicit wrap-around or saturation where
      the width matters (wire formats, 3-bit packing, block ids, reference
      counts, tensor coordinates).
    - A [HashMap] is a [gmap]. Where the code iterates over one, the order is a
      list constrained only to be a permutation of the entries.
    - Loops are structural recursions over what they consume, or take fuel that
      is proved sufficient (the [Some] in the conclusions of
      [plan_prefill_cohorts_correct] and [drain_cancelled_partitions], or a lemma
      that says so of the loop).
    - Foreign code is a type class: [Mlx] (array operations of the MLX library),
      [KvHandles] (dense KV tensors), [Lz4] (the compressor), with [MlxLaws] and
      [Lz4Laws] for the documented behaviour theorems rely on. Each class has an
      instance, so the hypotheses can be met and the witnesses compute.

    ** Paged KV cache ([core/cache/paged.rs], [core/cache.rs], [core/cache/paged_detach.rs])

    The K/V tensors of all sequences live in slabs of fixed-size blocks, one set
    of slabs per layer. A sequence has, per layer, a table of block ids; blocks
    have reference counts and may be shared by sequences with a common prefix.

    - [Mlx]: shapes, slices, updates, takes, concatenations of arrays.
    - [PagedPool]: the pool record and each operation of [PagedBlockPool]:
      registry (acquire, retain, release, append, trim, restore) and storage
      (slab growth, row assignment, block writes, copy-on-write,
      [write_prefill], [gather_visible]).
    - [PagedPoolInv]: the invariant [pool_inv p own]: reference counts are the
      multiplicities of [own], the list of all owned references; free lists and
      rows are consistent. Preservation by each registry operation.
    - [PagedPoolData]: the contents of blocks; what each storage operation does
      to the cells of the blocks it names, and that it leaves the others alone.
    - [PagedPrefill], [PagedGather]: [write_prefill] and [gather_visible].
    - [PagedContract]: the contract of the storage. [holds p st l ls own H D dt kv]
      says that layer [l] of the sequence [st] stores the dense buffer [kv];
      writing appends to the buffer, trimming cuts it, gathering reads it, and
      other sequences keep theirs.
    - [CachePool], [PagedDetach]: [CachePool] with its slots, detached and parked
      sets: allocate, release, append, trim, sync, restore, extract, detach,
      adopt, park, clone a prefix, trim a set, discard.
    - [CachePoolInv], [CacheSystem]: the system of all those operations as steps
      on a state with the sets held by callers; reachable states; reference
      counts are the numbers of owners in all of them; detach/adopt and clone.
    - [PagedBudget]: when the block budget can be trusted, and three places where
      the code departs from its documentation.

    ** Batch serving ([server/batch/])

    - [Sequence]: request priority, the lifecycle state machine and the record of a
      request with its sampler and thinking states ([sequence.rs]);
      [lifecycle_correct].
    - [PrefillQueue]: the three-lane queue ([queue.rs]) refines one arrival list.
    - [ActiveBatch]: the bounded map of running sequences ([active.rs]).
    - [PrefillCohort]: the planner of batched prefill ([prefill_cohort.rs]).
    - [Scheduler]: the decisions of [scheduler.rs]: which action a tick takes,
      whom a preemption evicts and what happens to it (and what is not reset),
      how a prompt is cut into chunks, what to do with orphaned and draining work.

    ** Quantized packing and the wire ([core/cache/turbo/pack3.rs], [distributed/tensor_*.rs])

    - [Bytes]: little-endian integers. [Pack3]: 3-bit indices, eight in three
      bytes.
    - [WireHeader]: header and frame codecs, as bijections. [WireChunked]:
      chunked transfer over a network that reorders and repeats.
    - [HalfFloat], [Quantize]: half precision on bit patterns and on the
      Standard Library's IEEE numbers, group quantization.
    - [WireTensor]: serialization of a tensor through quantization, compression
      and header, its inverse, the two combinations of options that do not come
      back, and its safety on bytes from anywhere.

    ** Prompt cache and prefix sharing ([server/prompt_cache/], [server/batch/scheduler.rs])

    Finished sequences are detached from the cache pool and parked in a store
    keyed by their tokens; a request that starts with the same tokens adopts the
    longest prefix.

    - [PromptKey]: keys, digests, session identity, chains of block hashes. The
      hash functions are the parameter [Hashes]; what is proved is that the bytes
      they are given identify the fields.
    - [PromptTrie]: the path-compressed radix trie, as a refinement of a list of
      stored prefixes ([represents]).
    - [PromptStore]: entries, limits, sweeps, eviction, both lookup tiers,
      snapshots, session release. An [Arc] shared with callers is an address in
      the heap [cells]. [PromptStoreInv] has the invariant [store_inv] and a
      specification of every operation, [PromptLookup] the specification of a
      lookup, [PromptSystem] runs of any interleaving of the critical sections
      but [clear], with sets of a nonzero size ([allowed]), and their properties.
    - [PromptServer]: the scheduler's operations on the pool and the store
      together: donate, adopt, drain, reclaim. [PromptServerInv] proves them
      against the invariants of both ([server_inv]); [PromptServerProps] states
      what follows. The fuel of the eviction loops is the number of entries, which
      every round decreases; the specifications hold of the loops that ended.

    ** Cluster control ([distributed/])

    - [StableSort]: the sorts and minima of the Rust standard library.
    - [ClusterConfig]: node roles, configuration and validation ([config.rs]).
      [ClusterNodes]: the registry ([registry.rs]), the failure detector
      ([failure_detector.rs]) and the state of the heartbeat service
      ([heartbeat.rs]). A [HashMap] is iterated in the order of the parameter
      [StringOrder], any permutation.
    - [ClusterTopology]: what validation accepts, and lookups on a mesh.
      [ClusterMonitor]: runs of the heartbeat service detect failures exactly, with
      other tasks writing statuses into the shared registry.
    - [ClusterRouting]: the trait of routing strategies as the class
      [RoutingStrategy], the five strategies as instances, and [RoutingLaws], what
      a client relies on; each instance proves them.
    - [ClusterTracker]: request lifecycles ([request_tracker.rs]).
      [ClusterQueues]: handoff queues ([handoff_queue.rs]), shared by reference and
      dropped with their last handle.
    - [ClusterScheduler]: backpressure and the coordinator ([backpressure.rs],
      [scheduler.rs]); [ClusterSystem] proves submissions correct for every
      strategy with the laws, and follows handoffs through runs in which the steps
      of a handoff interleave with those of other tasks.

    ** Pipeline parallelism ([distributed/pipeline/])

    - [PipePartition]: model profiles, devices, the [--pp-layers] parser and the
      validators ([partition.rs]). [PipeBalance]: the layer balancer
      ([partition_balance.rs]); the fuel of its bisection is the bit length of the
      interval. [PipeAssembly]: automatic and manual plans and their report
      ([partition_assembly.rs], [partition_quality.rs]). [PipeLocal]: the
      in-process resolution of the pipeline flags ([local_runtime.rs]).
    - [PipePlans] says which plans the validators accept; [PipeOptimal] proves the
      sweep sound, and complete when every layer fits every stage, and concludes
      that the plan is optimal. [PipePlanner] states this of
      [auto_partition], with the cases in which it fails; [PipeManual] has the
      round trip of the parser and the manual path.
    - [PipeSchedule]: micro-batches and the GPipe schedule ([micro_batch.rs],
      [schedule.rs]). [PipeWorkers]: stage workers, bounded links and the loop
      ([stage_worker.rs], [activation_transfer.rs]); the links are shared state,
      executors and codec are the interfaces [StageExecutor] and
      [ActivationCodec]. [PipeWire] implements the codec ([wire_tensor.rs]) over the
      tensor wire format and proves what the workers require of it.
    - [PipeStages]: the actions of a step do not depend on the workers; the fuel of
      the loop, two actions per stage and micro-batch and one more, is always
      enough. [PipeStages] and [PipeRun] follow a step round by round to the
      sequential semantics; [PipeLoop] states the claims.
    - [PipeCache]: the cache accounting of a stage and its coordination over the stages
      ([cache_manager.rs]), as a refinement of one map from sequences to prompt lengths.

    ** Request routes ([server/routes/], [server/tool_calls/], [server/])

    - [StreamFilter]: the filter that splits generated text into content and
      reasoning and removes markers ([tool_calls/stream_filter.rs]); [routed] is
      the one-pass reference it is equal to however the text is cut. The fuel of
      its loop is the length of the buffer, of which every round removes a marker.
    - [ChatStream]: the streaming and non-streaming chat routes on top of it
      ([routes/chat.rs]), and the cleaning of the content of the latter
      ([tool_calls/parser.rs]).
    - [ThinkingBudget]: resolution and enforcement of the reasoning budget
      ([thinking_budget.rs] and its callers), against the specification [capped].
    - [TtlStore]: the response and conversation stores ([responses_store.rs],
      [conversation_store.rs]) and the cancellation tokens, shared by index.
    - [ResponsesTypes], [ResponsesTranslate]: requests, items, messages and
      response objects; history lookup and translation
      ([responses_translator.rs]), with the turn-by-turn reference [turn_messages].
      [ResponsesStream]: events and the generation task
      ([streaming_responses.rs], [routes/responses.rs]). [ResponsesServer]: the
      routes over the stores, runs of overlapping requests on both routes, and what
      a conversation or a chain of responses shows the model. Generated ids are drawn from a supply.

    ** Decoding and speculative decoding ([lib/mlxcel-core/src/])

    - [DenseCache]: the half-precision [KVCache] ([cache.rs]), as a refinement of a
      window of rows ([represents]). [Sampling]: token biases, penalties and their
      incremental state ([sampling.rs], [generate.rs], [generation_policy.rs]); the
      arithmetic on logits, the state of the random generator and the draw are the
      interface [LogitOps]; [fused_sample] ([mlx_cxx_bridge.cpp]) draws unless the
      configuration is greedy.
    - [Decode]: models as records with the contract [causal], padded prefill and
      the plain decode loop ([generate.rs], [utils.rs]), equal to [reference],
      decoding one token at a time.
    - [SpecClassic]: the generator with a draft model ([speculative/mod.rs]); its
      fuel is the token budget, since every round adds a token. [SpecWalk]: the
      walks of drafts against the target's choices and the block-size controller
      ([mtp/walk.rs], [mtp/adaptive.rs], [dflash/round_loop.rs] and
      [dflash/round_loop_batched.rs]). [SpecMtp] and [SpecMtpBatch]: the MTP round
      loops for one sequence and for batches ([mtp/generator.rs],
      [mtp/round_loop_batched.rs]) over interfaces for target and drafter. The
      claims are exactness: under greedy decoding drafts never change the output.

    ** Handing a sequence over ([distributed/kv_cache_serde/], [distributed/disaggregated/])

    - [KvSerde]: the payload a prefill node sends for a sequence, its frame, and the
      checks of the decode node ([types.rs], [serialize.rs], [deserialize.rs],
      [serving_protocol.rs]); [payload_ok] is exactly what
      [validate_paged_payload] accepts. The JSON inside the frame is the interface
      [CacheJson].
    - [KvHandoff]: extraction from the cache pool, restore into it and the
      ingestion of a frame ([handoff_impl.rs]), on top of [CachePool]. The bytes of
      an array are the interface [MlxBytes], the fields of a dense cache
      [KvFields].
    - [KvIngest]: restoring block contents onto fresh blocks and what an ingestion
      leaves in every case; [KvHandoffProps]: safety against any bytes,
      preservation of the sequence from node to node, and payloads the checks let
      through.

    ** Serving on two nodes ([distributed/disaggregated/], [server/router_front.rs])

    - [DisaggServe]: the control frames ([serving_protocol.rs]), the stream bridge
      ([stream_bridge.rs]), the loops of the prefill and the decode role
      ([coordinator.rs]) and the router's result driver. The batch scheduler of a
      node is the interface [ServingScheduler], the network the parameter
      [delivered]; the fuel of the decode loop is the number of ticks, and the
      theorem says it is enough when it covers the ticks of every request.
      [disaggregated_stream_exact] composes all of it, [drive_handoff_exact] says what
      the driver does with any frames.
    - [DisaggRouter]: the request router ([request_router.rs]) and the dispatch of the
      front end: selection, tracking, fail-over, re-routing, health cycles. A
      dispatch runs against any network ([accepts]) and any steps of the other tasks
      between its sends ([others]), a health cycle with their steps at every await; its fuel is the number of attempts the code
      allows, which [start_handoff_clean] shows to be enough.

    ** Not modelled

    Numerical code (models, vision and audio towers, logits, attention
    kernels), HTTP itself, JSON and the routes not named above, tool-call
    parsing, transports and other I/O, command lines and downloads. In the modelled files: allocation statistics,
    the fused Metal decode, log messages, [debug_assert!] (absent from release
    builds) and the text of error messages; an error is a constructor that names
    its cause. Also left out: the DFlash round loops, the stand-alone prefill and decode
    schedulers and the KV cache transfer strategies (no caller on the serving
    path). *)

From stdpp Require Export base option list list_numbers gmap strings numbers sorting pretty.
From Stdlib Require Export ZArith Lia.

Create HintDb mlxcel.

(** ** Outcomes

    A Rust function that can fail returns [Ok], returns [Err], or panics
    (a failed [assert!], an index out of range, an [expect] on [None], an
    arithmetic overflow in a checked build). *)
Inductive outcome (E A : Type) : Type :=
  | Ok (a : A)
  | Err (e : E)
  | Panic.
Arguments Ok {_ _} _.
Arguments Err {_ _} _.
Arguments Panic {_ _}.

Definition is_ok {E A} (r : outcome E A) : bool :=
  match r with Ok _ => true | _ => false end.

Global Instance outcome_ret {E} : MRet (outcome E) := λ A a, Ok a.
Global Instance outcome_bind {E} : MBind (outcome E) := λ A B f r,
  match r with Ok a => f a | Err e => Err e | Panic => Panic end.
Global Instance outcome_fmap {E} : FMap (outcome E) := λ A B f r,
  match r with Ok a => Ok (f a) | Err e => Err e | Panic => Panic end.

(** ** Stateful fallible code

    A method [&mut self -> Result<A, E>] keeps the mutations it made before it
    returned an error, so the state is threaded through errors and panics. *)
Definition M (S E A : Type) : Type := S → S * outcome E A.

Global Instance M_ret {S E} : MRet (M S E) := λ A a s, (s, Ok a).
Global Instance M_bind {S E} : MBind (M S E) := λ A B f m s,
  match m s with
  | (s', Ok a) => f a s'
  | (s', Err e) => (s', Err e)
  | (s', Panic) => (s', Panic)
  end.

Definition get {S E} : M S E S := λ s, (s, Ok s).
Definition put {S E} (s' : S) : M S E unit := λ _, (s', Ok tt).
Definition modify {S E} (f : S → S) : M S E unit := λ s, (f s, Ok tt).
Definition throw {S E A} (e : E) : M S E A := λ s, (s, Err e).
Definition panic {S E A} : M S E A := λ s, (s, Panic).
Definition lift {S E A} (r : outcome E A) : M S E A := λ s, (s, r).
Definition guard_m {S E} (b : bool) (e : E) : M S E unit :=
  if b then mret tt else throw e.
(** [v.ok_or(e)?] and an indexing expression [v[i]]. *)
Definition ok_or {S E A} (o : option A) (e : E) : M S E A :=
  match o with Some a => mret a | None => throw e end.
Definition index {S E A} (o : option A) : M S E A :=
  match o with Some a => mret a | None => panic end.

(** [if let Err(e) = m { h(e) }] and [let _ = m]. *)
Definition on_err {S E A} (m : M S E A) (h : E → M S E A) : M S E A := λ s,
  match m s with (s', Err e) => h e s' | r => r end.
Definition ignore {S E A} (m : M S E A) : M S E unit := λ s,
  match m s with (s', Panic) => (s', Panic) | (s', _) => (s', Ok tt) end.

(** ** Machine integers *)
Definition u8_max : N := 255.
Definition u32_max : N := 4294967295.
Definition u64_max : N := 18446744073709551615.
Definition i32_max : Z := 2147483647.
Definition i32_min : Z := -2147483648.

(** [as i32]: keep the low 32 bits, read as two's complement. *)
Definition as_i32 (z : Z) : Z :=
  ((z + 2147483648) mod 4294967296 - 2147483648)%Z.
Definition as_u32 (n : N) : N := (n mod 4294967296)%N.
Definition as_u64 (n : N) : N := (n mod 18446744073709551616)%N.

Definition saturating_add_u32 (a b : N) : N := N.min u32_max (a + b).
Definition saturating_add_u64 (a b : N) : N := N.min u64_max (a + b).

(** [usize::div_ceil]. *)
Definition div_ceil (a b : nat) : nat :=
  let q := a `div` b in if decide (a `mod` b = 0) then q else S q.

Lemma as_i32_small z : (i32_min ≤ z ≤ i32_max)%Z → as_i32 z = z.
Proof.
  unfold i32_min, i32_max, as_i32. intros.
  rewrite Z.mod_small; lia.
Qed.

Lemma div_ceil_spec a b : 0 < b → a ≤ div_ceil a b * b < a + b.
Proof.
  intros Hb. unfold div_ceil.
  pose proof (Nat.div_mod_eq a b). pose proof (Nat.mod_upper_bound a b ltac:(lia)).
  case_decide; nia.
Qed.

Lemma div_ceil_le a b k : 0 < b → a ≤ k * b ↔ div_ceil a b ≤ k.
Proof.
  intros Hb. pose proof (div_ceil_spec a b Hb). split; intros; nia.
Qed.

Lemma div_ceil_mono a a' b : 0 < b → a ≤ a' → div_ceil a b ≤ div_ceil a' b.
Proof.
  intros Hb Ha. apply div_ceil_le; [done|].
  pose proof (div_ceil_spec a' b Hb). lia.
Qed.

Lemma div_ceil_0 b : 0 < b → div_ceil 0 b = 0.
Proof. intros. unfold div_ceil. by rewrite Nat.Div0.mod_0_l, Nat.Div0.div_0_l. Qed.

Lemma div_lt_ceil i a b : 0 < b → i < a → i `div` b < div_ceil a b.
Proof.
  intros Hb Hi. pose proof (div_ceil_spec a b Hb).
  pose proof (Nat.div_mod_eq i b). nia.
Qed.

Global Hint Resolve div_ceil_mono div_lt_ceil : mlxcel.

(** ** Lists *)

Lemma filter_swap {A} (P Q : A → Prop) `{!∀ x, Decision (P x), !∀ x, Decision (Q x)}
    (l : list A) :
  filter P (filter Q l) = filter Q (filter P l).
Proof.
  induction l as [|x l IH]; [done|].
  rewrite !filter_cons. repeat case_decide; rewrite ?filter_cons; repeat case_decide;
    congruence.
Qed.

Lemma filter_split_length {A} (P : A → Prop) `{!∀ x, Decision (P x)} (l : list A) :
  length (filter (λ x, ¬ P x) l) + length (filter P l) = length l.
Proof.
  induction l as [|x l IH]; [done|]. rewrite !filter_cons.
  repeat case_decide; cbn; try tauto; lia.
Qed.

Lemma filter_all {A} (P : A → Prop) `{!∀ x, Decision (P x)} (l : list A) : Forall P l → filter P l = l.
Proof. induction 1; [done|]. rewrite filter_cons, decide_True by done. congruence. Qed.

Lemma filter_none {A} (P : A → Prop) `{!∀ x, Decision (P x)} (l : list A) : Forall (λ x, ¬ P x) l → filter P l = [].
Proof. induction 1; [done|]. by rewrite filter_cons, decide_False. Qed.

Lemma Ok_inj {E A} (a b : A) : @Ok E A a = Ok b → a = b.
Proof. congruence. Qed.

(** Break a successful run of outcome-monad code into its steps. *)
Ltac outcome_step H :=
  lazymatch type of H with
  | mbind _ ?r = Ok _ =>
    let E := fresh "E" in
    destruct r eqn:E; cbn [mbind outcome_bind] in H; [|discriminate H|discriminate H]
  | (if ?b then _ else _) = Ok _ =>
    let E := fresh "C" in destruct b eqn:E; try discriminate H
  | (match ?o with Some _ => _ | None => _ end) = Ok _ =>
    let E := fresh "O" in destruct o eqn:E; try discriminate H
  | (let _ := _ in _) = Ok _ => cbn zeta in H
  | Ok _ = Ok _ => apply Ok_inj in H
  end.
Ltac outcome_inv H := repeat outcome_step H.

(** ** Checks of fallible code: [ensure!], [ok_or_else]? and loops of checks *)
Definition ensure {E} (P : Prop) `{!Decision P} (e : E) : outcome E () := if decide P then Ok tt else Err e.
Definition ok_or_err {E A} (o : option A) (e : E) : outcome E A := match o with Some a => Ok a | None => Err e end.

(** A loop of checks without state. *)
Fixpoint check_all {E A} (f : A → outcome E ()) (l : list A) : outcome E () :=
  match l with [] => Ok tt | x :: l' => _ ← f x; check_all f l' end.

Lemma ensure_ok {E} (P : Prop) `{!Decision P} (e : E) : ensure P e = Ok tt ↔ P.
Proof. unfold ensure. by case_decide. Qed.

Lemma ensure_bind {E B} (P : Prop) `{!Decision P} (e : E) (f : () → outcome E B) b :
  (x ← ensure P e; f x) = Ok b ↔ P ∧ f tt = Ok b.
Proof. unfold ensure. case_decide; simpl; naive_solver. Qed.

Lemma ok_or_err_bind {E A B} (o : option A) (e : E) (f : A → outcome E B) b :
  (x ← ok_or_err o e; f x) = Ok b ↔ ∃ a, o = Some a ∧ f a = Ok b.
Proof. destruct o; simpl; naive_solver. Qed.

Lemma outcome_bind_ok {E A B} (m : outcome E A) (f : A → outcome E B) b :
  (x ← m; f x) = Ok b ↔ ∃ a, m = Ok a ∧ f a = Ok b.
Proof. destruct m; simpl; naive_solver. Qed.

Lemma bind_unit_ok {E B} (m : outcome E ()) (f : () → outcome E B) b :
  (x ← m; f x) = Ok b ↔ m = Ok tt ∧ f tt = Ok b.
Proof. destruct m as [[]| |]; simpl; naive_solver. Qed.

Lemma check_all_ok {E A} (f : A → outcome E ()) l : check_all f l = Ok tt ↔ Forall (λ x, f x = Ok tt) l.
Proof.
  induction l as [|x l IH]; [done|]. simpl. rewrite Forall_cons, <-IH.
  destruct (f x) as [[]| |]; simpl; naive_solver.
Qed.

Lemma as_u64_mod n : as_u64 (as_u64 n) = as_u64 n.
Proof. apply N.Div0.mod_mod. Qed.

Lemma as_u64_plus a b : as_u64 (as_u64 a + b) = as_u64 (a + b).
Proof. unfold as_u64. apply N.Div0.add_mod_idemp_l. Qed.

Lemma check_all_no_panic {E A} (f : A → outcome E ()) l : (∀ x, f x ≠ Panic) → check_all f l ≠ Panic.
Proof. intros Hf. induction l as [|x l IH]; simpl; [done|]. specialize (Hf x). by destruct (f x). Qed.

Lemma bind_no_panic {E A B} (m : outcome E A) (f : A → outcome E B) :
  m ≠ Panic → (∀ a, f a ≠ Panic) → (x ← m; f x) ≠ Panic.
Proof. destruct m; simpl; auto. Qed.

Lemma ensure_no_panic {E} (P : Prop) `{!Decision P} (e : E) : ensure P e ≠ Panic.
Proof. unfold ensure. by case_decide. Qed.

Lemma ensure_bind_no_panic {E B} (P : Prop) `{!Decision P} (e : E) (f : () → outcome E B) :
  (P → f tt ≠ Panic) → (x ← ensure P e; f x) ≠ Panic.
Proof. intros Hf. unfold ensure. case_decide; simpl; auto. Qed.

Lemma ok_or_err_no_panic {E A} (o : option A) (e : E) : ok_or_err o e ≠ Panic.
Proof. by destruct o. Qed.

(** Break a successful run of state-monad code into its steps. *)
Lemma M_bind_Ok {S E A B} (m : M S E A) (f : A → M S E B) s s' b :
  (m ≫= f) s = (s', Ok b) → ∃ s1 a, m s = (s1, Ok a) ∧ f a s1 = (s', Ok b).
Proof. unfold mbind, M_bind. destruct (m s) as [s1 [a|e|]]; naive_solver. Qed.

Lemma M_bind_eq {S E A B} (m : M S E A) (f : A → M S E B) s s1 a :
  m s = (s1, Ok a) → (m ≫= f) s = f a s1.
Proof. unfold mbind, M_bind. by intros ->. Qed.

Lemma M_bind_assoc {S E A B C} (m : M S E A) (f : A → M S E B) (g : B → M S E C) s :
  ((m ≫= f) ≫= g) s = (m ≫= λ a, f a ≫= g) s.
Proof. unfold mbind, M_bind. by destruct (m s) as [s1 [a|e|]]. Qed.

Lemma get_bind {S E A} (f : S → M S E A) s : (get ≫= f) s = f s s.
Proof. done. Qed.

Lemma modify_bind {S E A} (g : S → S) (f : unit → M S E A) s : (modify g ≫= f) s = f tt (g s).
Proof. done. Qed.

Lemma guard_bind {S E A} (b : bool) (e : E) (f : unit → M S E A) s :
  (guard_m b e ≫= f) s = if b then f tt s else (s, Err e).
Proof. by destruct b. Qed.

Lemma ok_or_bind {S E A B} (o : option A) (e : E) (f : A → M S E B) s :
  (ok_or o e ≫= f) s = match o with Some a => f a s | None => (s, Err e) end.
Proof. by destruct o. Qed.

(** Equality of closed terms, by evaluation. *)
Ltac vm_refl := lazymatch goal with |- ?a = ?b => exact (@eq_refl _ b <: a = b) end.

(** A successful run of [m], then of [f]. *)
Ltac run_step H :=
  lazymatch type of H with
  | (_ ≫= _) _ = (_, Ok _) =>
    let s1 := fresh "s" in let a := fresh "a" in let H1 := fresh "R" in
    apply M_bind_Ok in H as (s1 & a & H1 & H); cbn beta in H
  end.
