(* ===== verification/PipePartition.v ===== *)
(** * Pipeline partitions

    [distributed/pipeline/partition.rs]: the byte profile of a model, the devices,
    the stage assignments, the parser of the [--pp-layers] flag and the validators
    every plan goes through. Layer ranges are half open. Byte counts are [u64]
    and add with saturation; text is a list of Unicode scalar values. *)

From S2P Require Import Prelude.

Record Range := mkRange { r_start : nat; r_end : nat }.

#[global] Instance Range_eq_dec : EqDecision Range.
Proof. solve_decision. Defined.

(** [Range::is_empty] *)
Definition range_is_empty (r : Range) : bool := negb (r_start r <? r_end r).

Record LayerAdjacencyGroup := mkGroup { g_layers : Range; g_reason : string }.

Record ModelProfile := mkProfile {
  num_layers : nat;
  layer_param_bytes : N;
  embedding_param_bytes : N;
  lm_head_param_bytes : N;
  layer_bytes : option (list N);
  adjacency : list LayerAdjacencyGroup;
}.

Record DeviceSpec := mkDevice {
  device_id : string;
  available_memory_bytes : N;
  device_compute_units : N;
}.

Record StageAssignment := mkStage {
  stage_index : nat;
  stage_device_id : string;
  layer_range : Range;
  has_embedding : bool;
  has_lm_head : bool;
  estimated_memory_bytes : N;
}.

Inductive PartitionError :=
  | EmptySpec | MissingDash (i : nat) | BadStart (i : nat) | BadEnd (i : nat)
  | StartAfterEnd (s e : N) | LayerBeyondModel (e : N) (n : nat)
  | NoStages | StageIndexMismatch (expected found : nat) | GapOrOverlap (stage expected : nat) | EmptyRange (stage : nat)
  | WrongCoverage (covered layers : nat)
  | NoEmbedding | ExtraEmbedding (stage : nat) | NoLmHead | ExtraLmHead (stage : nat)
  | StageCountMismatch (stages devices : nat) | StageTooLarge (stage : nat) (needed available : N)
  | SplitsGroup (g : LayerAdjacencyGroup)
  | ZeroStages | FewLayers (layers stages : nat) | LoadAboveBudgets (least budget : N) (heavy : nat) (device : string)
  | NoDevices | NoLayers | MoreDevicesThanLayers (devices layers : nat)
  | EmbeddingTooLarge (available needed : N) | LmHeadTooLarge (available needed : N)
  | InsufficientMemory (available needed : N) | RangeCount (ranges devices : nat)
  | EmptyStage (i : nat) | StageOverBudget (i : nat) (needed available : N)
  | ManualCount (ranges devices : nat).

(** ** Model profile *)

Definition uniform (n : nat) (layer emb head : N) : ModelProfile := mkProfile n layer emb head None [].

Definition layer_bytes_at (m : ModelProfile) (idx : nat) : N :=
  match layer_bytes m with
  | Some v => match v !! idx with Some b => b | None => layer_param_bytes m end
  | None => layer_param_bytes m
  end.

Definition effective_layer_bytes (m : ModelProfile) : list N :=
  layer_bytes_at m <$> seq 0 (num_layers m).

(** [fold(0u64, u64::saturating_add)] *)
Definition sat_sum (l : list N) : N := foldl saturating_add_u64 0%N l.

Definition total_param_bytes (m : ModelProfile) : N :=
  saturating_add_u64 (saturating_add_u64 (embedding_param_bytes m) (sat_sum (effective_layer_bytes m)))
    (lm_head_param_bytes m).

(** Insertion into a [BTreeSet<usize>], as its ascending list of elements. *)
Fixpoint btree_insert (x : nat) (l : list nat) : list nat :=
  match l with
  | [] => [x]
  | y :: l' => match Nat.compare x y with Lt => x :: l | Eq => l | Gt => y :: btree_insert x l' end
  end.

(** The boundaries inside a group: [start + 1 .. end], those of the model only. *)
Definition group_interior (g : LayerAdjacencyGroup) : list nat :=
  seq (S (r_start (g_layers g))) (r_end (g_layers g) - S (r_start (g_layers g))).

Definition forbid_group (n : nat) (set : list nat) (g : LayerAdjacencyGroup) : list nat :=
  if range_is_empty (g_layers g) then set
  else foldl (λ s b, if (0 <? b) && (b <? n) then btree_insert b s else s) set (group_interior g).

Definition forbidden_boundaries (m : ModelProfile) : list nat :=
  foldl (forbid_group (num_layers m)) [] (adjacency m).

(** ** The [--pp-layers] flag *)

(** [char::is_whitespace]: the Unicode property White_Space. *)
Definition is_whitespace (c : N) : bool :=
  bool_decide ((9 ≤ c ≤ 13) ∨ c = 32 ∨ c = 133 ∨ c = 160 ∨ c = 5760 ∨ (8192 ≤ c ≤ 8202) ∨
               c = 8232 ∨ c = 8233 ∨ c = 8239 ∨ c = 8287 ∨ c = 12288)%N.

Fixpoint trim_start (s : list N) : list N :=
  match s with
  | c :: s' => if is_whitespace c then trim_start s' else s
  | [] => []
  end.

Definition trim (s : list N) : list N := reverse (trim_start (reverse (trim_start s))).

(** [str::split] on one character: [n] separators give [n + 1] parts. *)
Fixpoint split_on (sep : N) (s : list N) : list (list N) :=
  match s with
  | [] => [[]]
  | c :: s' =>
    if decide (c = sep) then [] :: split_on sep s'
    else match split_on sep s' with p :: ps => (c :: p) :: ps | [] => [[c]] end
  end.

(** [str::find] of one character, and the text on its two sides. *)
Fixpoint cut_at (sep : N) (s : list N) : option (list N * list N) :=
  match s with
  | [] => None
  | c :: s' =>
    if decide (c = sep) then Some ([], s')
    else '(a, b) ← cut_at sep s'; Some (c :: a, b)
  end.

Definition digit_value (c : N) : option N := if decide (48 ≤ c ≤ 57)%N then Some (c - 48)%N else None.

Definition push_digit (acc : option N) (c : N) : option N :=
  v ← acc; d ← digit_value c;
  let v' := (v * 10 + d)%N in if decide (v' ≤ u64_max)%N then Some v' else None.

(** [str::parse::<usize>]: an optional plus sign, then at least one digit. *)
Definition parse_usize (s : list N) : option N :=
  let digits := match s with c :: (_ :: _) as s' => if decide (c = 43%N) then s' else s | _ => s end in
  match digits with [] => None | _ => foldl push_digit (Some 0%N) digits end.

Definition comma : N := 44.
Definition dash : N := 45.

Definition parse_part (n : nat) (i : nat) (part : list N) : outcome PartitionError Range :=
  '(s, e) ← ok_or_err (cut_at dash (trim part)) (MissingDash i);
  start ← ok_or_err (parse_usize (trim s)) (BadStart i);
  end_inclusive ← ok_or_err (parse_usize (trim e)) (BadEnd i);
  _ ← ensure (start ≤ end_inclusive)%N (StartAfterEnd start end_inclusive);
  _ ← ensure (end_inclusive < N.of_nat n)%N (LayerBeyondModel end_inclusive n);
  Ok (mkRange (N.to_nat start) (S (N.to_nat end_inclusive))).

Fixpoint parse_parts (n : nat) (i : nat) (parts : list (list N)) : outcome PartitionError (list Range) :=
  match parts with
  | [] => Ok []
  | p :: ps => r ← parse_part n i p; rs ← parse_parts n (S i) ps; Ok (r :: rs)
  end.

Definition parse_manual_partition (spec : list N) (n : nat) : outcome PartitionError (list Range) :=
  let spec := trim spec in
  _ ← ensure (spec ≠ []) EmptySpec;
  parse_parts n 0 (split_on comma spec).

(** ** Validators *)

(** The loop over [expected_start]. *)
Fixpoint check_tiling (expected : nat) (l : list StageAssignment) : outcome PartitionError nat :=
  match l with
  | [] => Ok expected
  | a :: l' =>
    _ ← ensure (r_start (layer_range a) = expected) (GapOrOverlap (stage_index a) expected);
    _ ← ensure (r_start (layer_range a) < r_end (layer_range a)) (EmptyRange (stage_index a));
    check_tiling (r_end (layer_range a)) l'
  end.

Definition validate_partition (l : list StageAssignment) (n : nat) : outcome PartitionError () :=
  _ ← ensure (l ≠ []) NoStages;
  _ ← check_all (λ '(i, a), ensure (stage_index a = i) (StageIndexMismatch i (stage_index a))) (imap pair l);
  e ← check_tiling 0 l;
  _ ← ensure (e = n) (WrongCoverage e n);
  match l, last l with
  | first :: rest, Some z =>
    _ ← ensure (has_embedding first = true) NoEmbedding;
    _ ← check_all (λ a, ensure (has_embedding a = false) (ExtraEmbedding (stage_index a))) rest;
    _ ← ensure (has_lm_head z = true) NoLmHead;
    check_all (λ a, ensure (has_lm_head a = false) (ExtraLmHead (stage_index a))) (take (length l - 1) l)
  | _, _ => Panic
  end.

Definition validate_memory_fit (l : list StageAssignment) (devices : list DeviceSpec) : outcome PartitionError () :=
  _ ← ensure (length l = length devices) (StageCountMismatch (length l) (length devices));
  check_all (λ '(a, d), ensure (estimated_memory_bytes a ≤ available_memory_bytes d)%N
                          (StageTooLarge (stage_index a) (estimated_memory_bytes a) (available_memory_bytes d)))
    (zip l devices).

Definition validate_adjacency (ranges : list Range) (groups : list LayerAdjacencyGroup) : outcome PartitionError () :=
  check_all (λ g,
    if range_is_empty (g_layers g) then Ok tt
    else check_all (λ r, ensure (¬ (r_start (g_layers g) < r_start r < r_end (g_layers g))) (SplitsGroup g)) ranges)
    groups.
