(* ===== verification/ThinkingBudget.v ===== *)
(** * The thinking-token budget

    [server/thinking_budget.rs], with the code that resolves a request's budget in the
    routes ([server/routes/chat.rs], whose lines the other four routes repeat), builds
    the tracker of a sequence and applies it to every sampled token
    ([server/batch/scheduler.rs], [speculative_burst.rs]).  Token ids and raw budgets
    are [i32]s ([Z]), caps and counters [u32]s ([N]); the text of the environment
    variable is its list of code points. *)

From S2P Require Import Prelude.
From S2P Require Import PipePartition.

(** ** Budgets *)

Inductive ThinkingBudget := ImmediateClose | Limited (n : N).

Inductive ThinkingBudgetError := InvalidNegative (v : Z) | ExceedsMaxTokens (budget max_tokens : N).

Definition cap (b : ThinkingBudget) : N := match b with ImmediateClose => 0 | Limited n => n end.

Definition from_raw_i32 (raw : Z) : outcome ThinkingBudgetError (option ThinkingBudget) :=
  if decide (raw = -1)%Z then Ok None
  else if decide (raw = 0)%Z then Ok (Some ImmediateClose)
  else if decide (0 < raw)%Z then Ok (Some (Limited (Z.to_N raw)))
  else Err (InvalidNegative raw).

(** [str::parse::<i32>]: an optional sign, then at least one digit; a sign alone is not
    a number. *)
Definition parse_i32 (s : list N) : option Z :=
  let '(sign, digits) :=
    match s with
    | c :: (_ :: _) as r => if decide (c = 43%N) then (1%Z, r) else if decide (c = dash) then ((-1)%Z, r) else (1%Z, s)
    | _ => (1%Z, s)
    end in
  match digits with
  | [] => None
  | _ =>
    v ← foldl (λ acc c, v ← acc; d ← digit_value c; Some (v * 10 + Z.of_N d)%Z) (Some 0%Z) digits;
    if decide (i32_min ≤ sign * v ≤ i32_max)%Z then Some (sign * v)%Z else None
  end.

(** [env]: the variable's value, when it is set and is Unicode. *)
Definition resolve_server_default_reasoning_budget (env : option (list N)) (cli_value : Z) : Z :=
  if decide (cli_value ≠ -1)%Z then cli_value
  else match env with
       | Some raw => match parse_i32 (trim raw) with Some v => v | None => (-1)%Z end
       | None => (-1)%Z
       end.

(** [ServerStartupInput::into_startup_config]: an invalid server-wide value is dropped. *)
Definition startup_reasoning_budget (raw : Z) : option ThinkingBudget :=
  match from_raw_i32 raw with Ok b => b | _ => None end.

Definition resolve_request_budget (per_request : option Z) (server_default : option ThinkingBudget) (max_tokens : N) :
    outcome ThinkingBudgetError (option ThinkingBudget) :=
  match per_request with
  | Some raw =>
    parsed ← from_raw_i32 raw;
    match parsed with
    | Some (Limited n) => if (max_tokens <? n)%N then Err (ExceedsMaxTokens n max_tokens) else Ok parsed
    | _ => Ok parsed
    end
  | None => Ok server_default
  end.

Definition pick_budget_alias (thinking_budget_tokens thinking_token_budget thinking_budget : option Z) : option Z :=
  match thinking_budget_tokens with
  | Some v => Some v
  | None => match thinking_token_budget with Some v => Some v | None => thinking_budget end
  end.

Inductive ReasoningBudgetOverride := InheritServerDefault | Explicit (b : option ThinkingBudget).

(** The routes' step: resolve the override of a request, or refuse it. *)
Definition route_budget (raw_budget : option Z) (server_default : option ThinkingBudget) (max_tokens : N) :
    outcome ThinkingBudgetError ReasoningBudgetOverride :=
  effective ← resolve_request_budget raw_budget server_default max_tokens;
  Ok (match raw_budget with Some _ => Explicit effective | None => InheritServerDefault end).

(** ** The tracker *)

Record ThinkingTokenIds := mkIds { open_id : Z; close_id : Z }.

Inductive ThinkingPhase := Pending | InBlock | Closed.

Record ThinkingState := mkThinking {
  th_phase : ThinkingPhase;
  in_block_count : N;
  token_ids : option ThinkingTokenIds;
  th_budget : option ThinkingBudget;
  enter_block_on_start : bool;
}.

Definition new_thinking (ids : option ThinkingTokenIds) (b : option ThinkingBudget) (primed : bool) : ThinkingState :=
  mkThinking Pending 0 ids b primed.

Definition disabled : ThinkingState := mkThinking Closed 0 None None false.

Definition is_disabled (s : ThinkingState) : bool :=
  match th_budget s, token_ids s with Some _, Some _ => false | _, _ => true end.

Inductive ThinkingDecision := NoOverride | ForceClose (id : Z).

Definition decide_override (s : ThinkingState) (sampled : Z) : ThinkingDecision :=
  match token_ids s with
  | None => NoOverride
  | Some ids =>
    match th_budget s with
    | None => NoOverride
    | Some b =>
      match th_phase s with
      | Closed => NoOverride
      | Pending => if enter_block_on_start s && (cap b =? 0)%N then ForceClose (close_id ids) else NoOverride
      | InBlock =>
        if decide (sampled = close_id ids) then NoOverride
        else if (cap b <=? in_block_count s)%N then ForceClose (close_id ids) else NoOverride
      end
    end
  end.

Definition set_phase (s : ThinkingState) (p : ThinkingPhase) (n : N) : ThinkingState :=
  mkThinking p n (token_ids s) (th_budget s) (enter_block_on_start s).

Definition observe (s : ThinkingState) (final_token : Z) : ThinkingState :=
  match token_ids s with
  | None => s
  | Some ids =>
    match th_budget s with
    | None => s
    | Some _ =>
      match th_phase s with
      | Closed => s
      | Pending =>
        if enter_block_on_start s then
          if decide (final_token = close_id ids) then set_phase s Closed (in_block_count s) else set_phase s InBlock 1
        else if decide (final_token = open_id ids) then set_phase s InBlock 0
        else s
      | InBlock =>
        if decide (final_token = close_id ids) then set_phase s Closed (in_block_count s)
        else set_phase s InBlock (saturating_add_u32 (in_block_count s) 1)
      end
    end
  end.

(** [BatchScheduler::apply_thinking_budget] and its speculative twin. *)
Definition apply_thinking_budget (s : ThinkingState) (sampled : Z) : ThinkingState * Z :=
  if is_disabled s then (s, sampled)
  else
    let final_id := match decide_override s sampled with NoOverride => sampled | ForceClose c => c end in
    (observe s final_id, final_id).

Definition apply_burst_thinking_budget (s : ThinkingState) (token : Z) : ThinkingState * (Z * bool) :=
  if is_disabled s then (s, (token, false))
  else
    let final_token := match decide_override s token with NoOverride => token | ForceClose c => c end in
    (observe s final_token, (final_token, bool_decide (final_token ≠ token))).

Definition build_thinking_state (ids : option ThinkingTokenIds) (server_default : option ThinkingBudget)
    (ov : ReasoningBudgetOverride) (primed : bool) : ThinkingState :=
  match ids with
  | None => disabled
  | Some ids =>
    new_thinking (Some ids) (match ov with InheritServerDefault => server_default | Explicit v => v end) primed
  end.

(** The decode loop: one call per sampled token. *)
Fixpoint emitted (s : ThinkingState) (samples : list Z) : list Z :=
  match samples with
  | [] => []
  | t :: ts => let '(s', t') := apply_thinking_budget s t in t' :: emitted s' ts
  end.

(** ** The specification *)

(** At most [c] tokens before the close marker: a block that does not close by itself
    within [c + 1] tokens has its token number [c] replaced by the marker. *)
Definition cap_block (close : Z) (c : nat) (samples : list Z) : list Z :=
  if decide (close ∈ take (S c) samples) then samples else <[c := close]> samples.

(** The block starts at the first token, or after the first open marker. *)
Definition capped (ids : ThinkingTokenIds) (primed : bool) (c : nat) (samples : list Z) : list Z :=
  if primed then cap_block (close_id ids) c samples
  else match list_find (open_id ids =.) samples with
       | Some (i, _) => take (S i) samples ++ cap_block (close_id ids) c (drop (S i) samples)
       | None => samples
       end.

(** The raw value a request runs under. *)
Definition effective_raw (request : option Z) (server : Z) : Z := default server request.

(** ** Proofs *)

Abbreviation tracker p n ids b primed := (mkThinking p n (Some ids) (Some b) primed).

Lemma emitted_closed n ids b primed samples : emitted (tracker Closed n ids b primed) samples = samples.
Proof. induction samples as [|t ts IH]; [done|]. cbn. by rewrite IH. Qed.

Lemma emitted_disabled s samples : is_disabled s = true → emitted s samples = samples.
Proof.
  intros Hd. induction samples as [|t ts IH]; [done|]. cbn. unfold apply_thinking_budget. rewrite Hd. by rewrite IH.
Qed.

Lemma cap_block_cons close c t ts : t ≠ close → cap_block close (S c) (t :: ts) = t :: cap_block close c ts.
Proof.
  intros Hne. unfold cap_block. cbn [take]. change (take (S c) ts) with (take (S c) ts).
  destruct (decide (close ∈ take (S c) ts)) as [Hin|Hin].
  - rewrite decide_True; [done|]. by right.
  - rewrite decide_False; [done|]. rewrite elem_of_cons. naive_solver.
Qed.

Lemma emitted_in_block n ids b primed samples :
  (n ≤ cap b)%N → (cap b ≤ u32_max)%N →
  emitted (tracker InBlock n ids b primed) samples = cap_block (close_id ids) (N.to_nat (cap b - n)) samples.
Proof.
  revert n. induction samples as [|t ts IH]; intros n Hn Hcap; [unfold cap_block; by case_decide|].
  cbn [emitted]. unfold apply_thinking_budget, is_disabled, decide_override, observe. cbn [token_ids th_budget th_phase in_block_count].
  destruct (decide (t = close_id ids)) as [->|Hne].
  - rewrite decide_True by done. unfold set_phase. cbn. rewrite emitted_closed. unfold cap_block.
    rewrite decide_True; [done|]. by left.
  - destruct (N.leb_spec (cap b) n) as [Hle|Hlt].
    + rewrite decide_True by done. unfold set_phase. cbn. rewrite emitted_closed.
      assert (n = cap b) as -> by lia. rewrite N.sub_diag. unfold cap_block.
      rewrite decide_False; [done|]. cbn. by intros ?%list_elem_of_singleton.
    + rewrite decide_False by done. unfold set_phase. cbn. unfold saturating_add_u32. rewrite N.min_r by lia.
      rewrite IH by lia. replace (N.to_nat (cap b - n)) with (S (N.to_nat (cap b - (n + 1)))) by lia. by rewrite cap_block_cons.
Qed.

Lemma emitted_primed ids b samples :
  (cap b ≤ u32_max)%N → emitted (tracker Pending 0 ids b true) samples = cap_block (close_id ids) (N.to_nat (cap b)) samples.
Proof.
  intros Hcap. destruct samples as [|t ts]; [unfold cap_block; by case_decide|].
  cbn [emitted]. unfold apply_thinking_budget, is_disabled, decide_override, observe. cbn [token_ids th_budget th_phase enter_block_on_start andb].
  destruct (N.eqb_spec (cap b) 0) as [H0|H0].
  - rewrite decide_True by done. unfold set_phase. cbn. rewrite emitted_closed, H0. unfold cap_block. cbn.
    destruct (decide _) as [Hin|Hin]; [|done]. by apply list_elem_of_singleton in Hin as ->.
  - destruct (decide (t = close_id ids)) as [->|Hne]; unfold set_phase; cbn.
    + rewrite emitted_closed. unfold cap_block. rewrite decide_True; [done|]. by left.
    + rewrite emitted_in_block by lia. replace (N.to_nat (cap b)) with (S (N.to_nat (cap b - 1))) by lia. by rewrite cap_block_cons.
Qed.

Lemma emitted_waiting ids b samples :
  (cap b ≤ u32_max)%N → emitted (tracker Pending 0 ids b false) samples = capped ids false (N.to_nat (cap b)) samples.
Proof.
  intros Hcap. unfold capped. induction samples as [|t ts IH]; [done|].
  cbn [emitted list_find]. unfold apply_thinking_budget, is_disabled, decide_override, observe. cbn [token_ids th_budget th_phase enter_block_on_start andb].
  destruct (decide (t = open_id ids)) as [->|Hne].
  - rewrite (decide_True _ _ (eq_refl (open_id ids))). unfold set_phase. cbn. rewrite emitted_in_block by lia.
    by rewrite N.sub_0_r, drop_0.
  - rewrite (decide_False _ _ (not_eq_sym Hne)). rewrite IH. destruct (list_find _ ts) as [[i x]|]; done.
Qed.

Lemma from_raw_spec raw :
  match from_raw_i32 raw with
  | Ok None => raw = -1
  | Ok (Some b) => 0 ≤ raw ∧ cap b = Z.to_N raw
  | Err e => raw < -1 ∧ e = InvalidNegative raw
  | Panic => False
  end%Z.
Proof. unfold from_raw_i32. repeat case_decide; subst; cbn; try done; split; try done; lia. Qed.

Lemma emitted_budget ids ob primed raw samples :
  (raw ≤ i32_max)%Z →
  (match ob with None => raw < 0 | Some b => 0 ≤ raw ∧ cap b = Z.to_N raw end)%Z →
  emitted (new_thinking (Some ids) ob primed) samples =
    if decide (0 ≤ raw)%Z then capped ids primed (Z.to_nat raw) samples else samples.
Proof.
  intros Hmax. unfold new_thinking. destruct ob as [b|].
  - intros [Hr Hc]. rewrite decide_True by done.
    assert (cap b ≤ u32_max)%N by (rewrite Hc; unfold i32_max, u32_max in *; lia).
    rewrite <- (Z_N_nat raw), <- Hc. destruct primed; [by apply emitted_primed|by apply emitted_waiting].
  - intros Hr. rewrite decide_False by lia. by apply emitted_disabled.
Qed.

(** C27. The thinking budget, from the request body to the tokens a client sees.  A request
    is refused exactly when its own budget is below -1 or above the token limit, with
    the error that says so; otherwise the stream the scheduler emits for any sampled
    tokens is the sampled one with the reasoning block cut at the budget in force (the
    first alias the body sets, else the server's): a block that would run longer has
    the token after the last allowed one replaced by the close marker, and every other
    token, inside, before or after the block, is the sampled one.  Negative budgets
    and models without thinking tokens leave the stream alone. *)
Theorem thinking_budget_exact a1 a2 a3 server max_tokens ids primed samples :
  let raw := pick_budget_alias a1 a2 a3 in
  let default := startup_reasoning_budget server in
  (effective_raw raw server ≤ i32_max)%Z →
  match route_budget raw default max_tokens with
  | Ok ov =>
    emitted (build_thinking_state ids default ov primed) samples =
      match ids with
      | Some ids => if decide (0 ≤ effective_raw raw server)%Z
                    then capped ids primed (Z.to_nat (effective_raw raw server)) samples else samples
      | None => samples
      end ∧
    (∀ r, raw = Some r → (-1 ≤ r ≤ Z.of_N max_tokens)%Z)
  | Err e =>
    ∃ r, raw = Some r ∧
      ((r < -1)%Z ∧ e = InvalidNegative r ∨ (Z.of_N max_tokens < r)%Z ∧ e = ExceedsMaxTokens (Z.to_N r) max_tokens)
  | Panic => False
  end.
Proof.
  intros raw default. unfold effective_raw, route_budget, resolve_request_budget, build_thinking_state.
  generalize raw. clear raw. intros [r|] Hmax; cbn in Hmax |- *.
  - pose proof (from_raw_spec r) as Hr. destruct (from_raw_i32 r) as [[b|]|e|]; cbn; [| | |done].
    + destruct Hr as [Hr Hc]. destruct b as [|n]; cbn in Hc |- *.
      * assert (r = 0)%Z as -> by lia. split; [destruct ids; [by apply emitted_budget|by apply emitted_disabled]|].
        intros ? [= <-]. lia.
      * destruct (N.ltb_spec max_tokens n) as [Hlt|Hge].
        -- exists r. split; [done|]. right. split; [lia|]. by rewrite Hc.
        -- split; [destruct ids; [by apply emitted_budget|by apply emitted_disabled]|]. intros ? [= <-]. lia.
    + subst r. split; [destruct ids; by apply emitted_disabled|]. intros ? [= <-]. lia.
    + exists r. split; [done|]. by left.
  - split; [|done]. destruct ids as [ids|]; [|by apply emitted_disabled]. apply emitted_budget; [done|].
    unfold default, startup_reasoning_budget. pose proof (from_raw_spec server) as Hs.
    destruct (from_raw_i32 server) as [[b|]|e|]; [done|lia|lia|done].
Qed.

(** The three tokens of budget 2, then the marker. *)
Lemma thinking_budget_exact_witness :
  let samples := [50; 51; 52; 53]%Z in
  let default := startup_reasoning_budget (-1) in
  match route_budget (Some 2%Z) default 100 with
  | Ok ov =>
    emitted (build_thinking_state (Some (mkIds 100 200)) default ov true) samples = [50; 51; 200; 53]%Z ∧
    (∀ r, Some 2%Z = Some r → (-1 ≤ r ≤ 100)%Z)
  | _ => False
  end.
Proof.
  exact (thinking_budget_exact (Some 2%Z) None (Some 7%Z) (-1) 100 (Some (mkIds 100 200)) true [50; 51; 52; 53]%Z ltac:(cbn; unfold i32_max; lia)).
Defined.

(** The speculative path applies the same override and reports whether it fired. *)
Lemma burst_is_classic s t :
  apply_burst_thinking_budget s t =
    let '(s', t') := apply_thinking_budget s t in (s', (t', bool_decide (t' ≠ t))).
Proof.
  unfold apply_burst_thinking_budget, apply_thinking_budget. destruct (is_disabled s); [|done].
  by rewrite bool_decide_false by auto.
Qed.

Example env_budget :
  resolve_server_default_reasoning_budget (Some [32; 43; 54; 52; 10]%N) (-1) = 64%Z.
Proof. reflexivity. Qed.
