(* ===== verification/Sampling.v ===== *)
(** * Sampling configuration and the incremental penalty state

    [core/generate.rs] ([SamplingConfig]), [core/sampling.rs] ([TokenBiasMap],
    [SamplerState], [sample_token_optimized] and its incremental variant) and
    [core/generation_policy.rs].  A [f32] is a [spec_float]; token ids are [i32]s ([Z]).

    The arithmetic on logits belongs to the array library: the interface [LogitOps] has one
    operation per penalty and per filter, the arg-max, and the categorical draw.  The draw
    takes the state of the library's one random generator and returns the next one; every
    sampling function passes it on.  [fused_sample] (the bridge's [fused_sample] in
    [core/cpp/mlx_cxx_bridge.cpp]) draws exactly when the temperature is not zero and
    [top_k] is not one; a configuration that never draws is greedy ([is_greedy]).

    The state kept per sequence answers as if it were rebuilt from the history at every
    token ([sync_in_sync]), under the assumption its comment makes; [stale_after_rewrite]
    is a history for which it is not met. *)

From Stdlib Require Import SpecFloat.
From S2P Require Import Prelude.

Definition f32_zero : spec_float := S754_zero false.
Definition f32_one : spec_float := S754_finite false 8388608 (-23).

(** ** Token bias *)

Record TokenBiasMap := mkBias { bias_entries : gmap Z spec_float; byte_fragment_ids : gset Z }.

Definition bias_empty : TokenBiasMap := mkBias ∅ ∅.
Definition bias_is_empty (m : TokenBiasMap) : bool := bool_decide (bias_entries m = ∅).
Definition bias_insert (t : Z) (b : spec_float) (m : TokenBiasMap) : TokenBiasMap :=
  mkBias (<[t := b]> (bias_entries m)) (byte_fragment_ids m).
Definition insert_byte_fragment (t : Z) (b : spec_float) (m : TokenBiasMap) : TokenBiasMap :=
  mkBias (<[t := b]> (bias_entries m)) ({[t]} ∪ byte_fragment_ids m).
Definition suppress_tokens (ids : list Z) (m : TokenBiasMap) : TokenBiasMap :=
  foldl (λ m t, bias_insert t (S754_infinity true) m) m ids.

(** ** Sampling configuration *)

Record SamplingConfig := mkSampling {
  temperature : spec_float;
  top_k : Z;
  top_p : spec_float;
  min_p : spec_float;
  seed : option N;
  repetition_penalty : spec_float;
  dry_multiplier : spec_float;
  dry_base : spec_float;
  dry_allowed_length : nat;
  dry_penalty_last_n : nat;
  dry_sequence_breakers : list Z;
  frequency_penalty : spec_float;
  presence_penalty : spec_float;
  stop_token_ids : list Z;
  token_bias : TokenBiasMap
}.

(** [SamplingConfig::greedy]; 1.75 is 14680064 * 2^-23. *)
Definition greedy : SamplingConfig :=
  mkSampling f32_zero 1 f32_one f32_zero None f32_one f32_zero (S754_finite false 14680064 (-23)) 2 0 []
             f32_zero f32_zero [] bias_empty.

(** [!=] on floats is true when either side is not a number. *)
Definition f32_ne (a b : spec_float) : bool := negb (SFeqb a b).

Definition needs_token_history (c : SamplingConfig) : bool :=
  f32_ne (repetition_penalty c) f32_one || SFltb f32_zero (dry_multiplier c) ||
  f32_ne (frequency_penalty c) f32_zero || f32_ne (presence_penalty c) f32_zero.

Definition with_bias (m : TokenBiasMap) (c : SamplingConfig) : SamplingConfig :=
  mkSampling (temperature c) (top_k c) (top_p c) (min_p c) (seed c) (repetition_penalty c) (dry_multiplier c)
             (dry_base c) (dry_allowed_length c) (dry_penalty_last_n c) (dry_sequence_breakers c)
             (frequency_penalty c) (presence_penalty c) (stop_token_ids c) m.

(** [compose_sampling] and [compose_target_sampling]: the bias of the generator unless the
    caller has one. *)
Definition compose_sampling (cached : TokenBiasMap) (c : SamplingConfig) : SamplingConfig :=
  if bias_is_empty cached || negb (bias_is_empty (token_bias c)) then c else with_bias cached c.

Definition merged_eos_token_ids (model_eos stop : list Z) : list Z :=
  foldl (λ eos id, if decide (id ∈ eos) then eos else eos ++ [id]) model_eos stop.

Definition initial_token_history (prompt : list Z) (needs_history : bool) : list Z :=
  if needs_history then prompt else [].

Lemma elem_of_merged_eos t eos stop : t ∈ merged_eos_token_ids eos stop ↔ t ∈ eos ∨ t ∈ stop.
Proof.
  unfold merged_eos_token_ids. revert eos. induction stop as [|s stop IH]; intros eos; simpl; [set_solver|].
  rewrite IH. case_decide; set_solver.
Qed.

Lemma compose_history cached c : needs_token_history (compose_sampling cached c) = needs_token_history c.
Proof. unfold compose_sampling. by case_match. Qed.

Lemma compose_stop cached c : stop_token_ids (compose_sampling cached c) = stop_token_ids c.
Proof. unfold compose_sampling. by case_match. Qed.

(** ** The incremental state *)

Record SamplerState := mkState {
  track_seen : bool;
  track_counts : bool;
  seen_sorted : list Z;
  counts : gmap Z nat;
  absorbed_len : nat;
  tip_token : Z
}.

Definition for_config (c : SamplingConfig) : SamplerState :=
  mkState (f32_ne (repetition_penalty c) f32_one)
          (f32_ne (frequency_penalty c) f32_zero || f32_ne (presence_penalty c) f32_zero) [] ∅ 0 0.

(** [slice::binary_search] on a sorted slice: [None] when the value is there, else where
    to insert it. *)
Definition binary_search (t : Z) (l : list Z) : option nat :=
  if decide (t ∈ l) then None else Some (length (filter (λ x, (x < t)%Z) l)).

Definition insert_at (pos : nat) (t : Z) (l : list Z) : list Z := take pos l ++ t :: drop pos l.

Definition insert_seen (t : Z) (l : list Z) : list Z :=
  match binary_search t l with Some pos => insert_at pos t l | None => l end.

Definition count_one (t : Z) (m : gmap Z nat) : gmap Z nat := <[t := default 0 (m !! t) + 1]> m.

Definition absorb_one (s : SamplerState) (t : Z) : SamplerState :=
  mkState (track_seen s) (track_counts s)
          (if track_seen s then insert_seen t (seen_sorted s) else seen_sorted s)
          (if track_counts s then count_one t (counts s) else counts s)
          (absorbed_len s) (tip_token s).

Definition set_tip (n : nat) (t : Z) (s : SamplerState) : SamplerState :=
  mkState (track_seen s) (track_counts s) (seen_sorted s) (counts s) n t.

Definition rebuild (s : SamplerState) (history : list Z) : SamplerState :=
  let s := foldl absorb_one (mkState (track_seen s) (track_counts s) [] ∅ (absorbed_len s) (tip_token s)) history in
  set_tip (length history) (default 0%Z (last history)) s.

Definition sync (s : SamplerState) (history : list Z) : SamplerState :=
  let n := length history in
  let tip_matches :=
    bool_decide (absorbed_len s = 0) ||
    (bool_decide (absorbed_len s ≤ n) && bool_decide (history !! (absorbed_len s - 1) = Some (tip_token s))) in
  if bool_decide (n < absorbed_len s) || negb tip_matches then rebuild s history
  else
    let s := foldl absorb_one s (drop (absorbed_len s) history) in
    match last history with Some t => set_tip n t s | None => set_tip n (tip_token s) s end.

(** ** Sampling *)

(** The rebuild path of the repetition penalty: [sort_unstable], then [dedup]. *)
Fixpoint dedup (l : list Z) : list Z :=
  match l with
  | [] => []
  | x :: l' => match dedup l' with
               | y :: r => if decide (x = y) then y :: r else x :: y :: r
               | [] => [x]
               end
  end.

Definition seen_of (history : list Z) : list Z := dedup (merge_sort (≤)%Z history).

(** The rebuild path of the count-based penalties. *)
Definition counts_of (history : list Z) : gmap Z nat := foldl (λ m t, count_one t m) ∅ history.

(** The operations on the logits of one position.  [penalize_counts] subtracts a dense
    vector built from the counts, [penalize_counts_sparse] touches only the counted ids. *)
Class LogitOps (Logits : Type) := {
  Rng : Type;
  random_seed : N → Rng;
  apply_token_bias : Logits → TokenBiasMap → Logits;
  apply_repetition_penalty_sorted : Logits → list Z → spec_float → Logits;
  apply_dry_penalty : Logits → list Z → SamplingConfig → Logits;
  penalize_counts : Logits → gmap Z nat → spec_float → spec_float → Logits;
  penalize_counts_sparse : Logits → gmap Z nat → spec_float → spec_float → Logits;
  argmax : Logits → Z;
  scale_temperature : Logits → spec_float → Logits;
  top_k_filter : Logits → Z → Logits;
  top_p_filter : Logits → spec_float → Logits;
  min_p_filter : Logits → spec_float → Logits;
  categorical : Logits → Rng → Z * Rng
}.

(** The comment of [apply_frequency_presence]: the sparse form is byte-identical. *)
Class LogitLaws (Logits : Type) `{!LogitOps Logits} : Prop :=
  penalize_sparse_eq : ∀ lg m f p, penalize_counts_sparse lg m f p = penalize_counts lg m f p.

Section sampling.
Context {Logits : Type} `{!LogitOps Logits}.

(** [seed_rng_if_needed]: a configured seed replaces the generator's state. *)
Definition seed_rng_if_needed (c : SamplingConfig) (rng : Rng) : Rng :=
  match seed c with Some n => random_seed n | None => rng end.

Definition in_open_unit (x : spec_float) : bool := SFltb f32_zero x && SFltb x f32_one.

Definition is_greedy (c : SamplingConfig) : bool := SFeqb (temperature c) f32_zero || bool_decide (top_k c = 1%Z).

Definition fused_sample (lg : Logits) (c : SamplingConfig) (rng : Rng) : Z * Rng :=
  if is_greedy c then (argmax lg, rng)
  else
    let x := if SFltb f32_zero (temperature c) && f32_ne (temperature c) f32_one
             then scale_temperature lg (temperature c) else lg in
    let x := if decide (0 < top_k c)%Z then top_k_filter x (top_k c) else x in
    let x := if in_open_unit (top_p c) then top_p_filter x (top_p c) else x in
    let x := if in_open_unit (min_p c) then min_p_filter x (min_p c) else x in
    categorical x rng.

(** The bias and the penalties, in the order of [sample_token_optimized_core]. *)
Definition penalized (lg : Logits) (c : SamplingConfig) (history : list Z) (state : option SamplerState) :
    Logits * option SamplerState :=
  let lg := if bias_is_empty (token_bias c) then lg else apply_token_bias lg (token_bias c) in
  let state := (λ s, sync s history) <$> state in
  let lg :=
    if f32_ne (repetition_penalty c) f32_one && negb (bool_decide (history = []))
    then apply_repetition_penalty_sorted lg
           (match state with Some s => seen_sorted s | None => seen_of history end) (repetition_penalty c)
    else lg in
  let lg :=
    if SFltb f32_zero (dry_multiplier c) && negb (bool_decide (history = []))
    then apply_dry_penalty lg history c else lg in
  let lg :=
    if (f32_ne (frequency_penalty c) f32_zero || f32_ne (presence_penalty c) f32_zero) && negb (bool_decide (history = []))
    then match state with
         | Some s => penalize_counts_sparse lg (counts s) (frequency_penalty c) (presence_penalty c)
         | None => penalize_counts lg (counts_of history) (frequency_penalty c) (presence_penalty c)
         end
    else lg in
  (lg, state).

Definition sample_core (lg : Logits) (c : SamplingConfig) (history : list Z) (state : option SamplerState) (rng : Rng) :
    Z * option SamplerState * Rng :=
  let '(lg, state) := penalized lg c history state in
  let '(t, rng) := fused_sample lg c rng in
  (t, state, rng).

Definition sample_token_optimized (lg : Logits) (c : SamplingConfig) (history : list Z) (rng : Rng) : Z * Rng :=
  let '(t, _, rng) := sample_core lg c history None rng in (t, rng).

Definition sample_token_optimized_with_state (lg : Logits) (c : SamplingConfig) (history : list Z)
    (state : option SamplerState) (rng : Rng) : Z * option SamplerState * Rng :=
  let state :=
    match state with
    | None => if f32_ne (repetition_penalty c) f32_one || f32_ne (frequency_penalty c) f32_zero
                 || f32_ne (presence_penalty c) f32_zero
              then Some (for_config c) else None
    | Some _ => state
    end in
  sample_core lg c history state rng.

(** What a greedy configuration chooses, whatever the generator's state. *)
Definition greedy_choice (lg : Logits) (c : SamplingConfig) (history : list Z) : Z :=
  argmax (penalized lg c history None).1.

Lemma sample_greedy lg c h rng : is_greedy c = true → sample_token_optimized lg c h rng = (greedy_choice lg c h, rng).
Proof.
  intros Hg. unfold sample_token_optimized, sample_core, greedy_choice, fused_sample.
  destruct (penalized lg c h None) as [l st]. by rewrite Hg.
Qed.

Lemma compose_greedy cached c : is_greedy (compose_sampling cached c) = is_greedy c.
Proof. unfold compose_sampling. by case_match. Qed.

Lemma compose_seed cached c rng : seed_rng_if_needed (compose_sampling cached c) rng = seed_rng_if_needed c rng.
Proof. unfold compose_sampling. by case_match. Qed.

End sampling.

(** ** The state against the history *)

Definition in_sync (s : SamplerState) (h : list Z) : Prop :=
  seen_sorted s = (if track_seen s then seen_of h else []) ∧
  counts s = (if track_counts s then counts_of h else ∅) ∧
  absorbed_len s = length h ∧ (h ≠ [] → tip_token s = default 0%Z (last h)).

Lemma dedup_spec l :
  StronglySorted (≤)%Z l →
  StronglySorted (<)%Z (dedup l) ∧ (∀ x, x ∈ dedup l ↔ x ∈ l).
Proof.
  induction 1 as [|x l Hs [IHs IHm] Hx]; simpl; [by split; [constructor|]|].
  destruct (dedup l) as [|y r] eqn:E.
  { split; [repeat constructor|]. intros z. rewrite !elem_of_cons, <-IHm. set_solver. }
  assert (x ≤ y)%Z as Hy.
  { rewrite Forall_forall in Hx. apply Hx. apply IHm. set_solver. }
  assert (Forall (λ z, y < z)%Z r) as Hr by (by inversion IHs).
  case_decide as Hd; [subst y; split; [done|]; intros z; rewrite !elem_of_cons, <-IHm; set_solver|].
  split; [|intros z; rewrite !elem_of_cons, <-IHm; set_solver].
  constructor; [done|]. constructor; [lia|]. eapply Forall_impl; [done|]. simpl. intros. lia.
Qed.

Lemma seen_of_spec h : StronglySorted (<)%Z (seen_of h) ∧ (∀ x, x ∈ seen_of h ↔ x ∈ h).
Proof.
  pose proof (dedup_spec (merge_sort (≤)%Z h)) as [Hs Hm].
  { apply Sorted_StronglySorted; [apply _|]. apply (Sorted_merge_sort _). }
  split; [done|]. intros x. unfold seen_of. rewrite Hm. by rewrite (merge_sort_Permutation (≤)%Z h).
Qed.

(** A strictly sorted list is determined by its elements. *)
Lemma strict_sorted_unique (l l' : list Z) :
  StronglySorted (<)%Z l → StronglySorted (<)%Z l' → (∀ x, x ∈ l ↔ x ∈ l') → l = l'.
Proof.
  intros H1 H2 Hm.
  assert (∀ l : list Z, StronglySorted (<)%Z l → NoDup l) as Hnd.
  { induction 1 as [|x r ? IH Hx]; constructor; [|done]. intros Hin. rewrite Forall_forall in Hx.
    specialize (Hx _ Hin). lia. }
  assert (AntiSymm eq Z.lt) by (intros x y ? ?; lia).
  apply (StronglySorted_unique (<)%Z); [done|done|]. apply NoDup_Permutation; auto.
Qed.

Lemma filter_lt_sorted t l :
  StronglySorted (<)%Z l → t ∉ l →
  take (length (filter (λ x, (x < t)%Z) l)) l = filter (λ x, (x < t)%Z) l ∧
  Forall (λ x, t < x)%Z (drop (length (filter (λ x, (x < t)%Z) l)) l).
Proof.
  induction 1 as [|x l Hs IH Hx]; intros Ht; [by split|].
  rewrite filter_cons. case_decide as Hd; simpl.
  - destruct IH as [-> H2]; [set_solver|]. done.
  - assert (t < x)%Z by (assert (x ≠ t) by set_solver; lia).
    rewrite filter_none; [|eapply Forall_impl; [exact Hx|]; simpl; intros; lia].
    split; [done|]. constructor; [done|]. eapply Forall_impl; [exact Hx|]. simpl. intros. lia.
Qed.

Lemma insert_seen_spec t l :
  StronglySorted (<)%Z l →
  StronglySorted (<)%Z (insert_seen t l) ∧ (∀ x, x ∈ insert_seen t l ↔ x = t ∨ x ∈ l).
Proof.
  intros Hs. unfold insert_seen, binary_search. case_decide as Ht; [split; [done|]; set_solver|].
  destruct (filter_lt_sorted t l Hs Ht) as [Htk Hdr]. unfold insert_at.
  set (n := length _) in *. split.
  - assert (StronglySorted (<)%Z (drop n l)) as Hsd.
    { rewrite <-(take_drop n l) in Hs. clear -Hs. induction (take n l) as [|x r IH]; [done|].
      inversion Hs; auto. }
    assert (Forall (λ x, x < t)%Z (take n l)) as Hlt.
    { rewrite Htk, Forall_forall. intros x Hx. by apply list_elem_of_filter in Hx as [? _]. }
    assert (StronglySorted (<)%Z (t :: drop n l)) as Htl by (by constructor).
    rewrite <-(take_drop n l) in Hs. clear -Hs Hlt Htl Hdr.
    induction (take n l) as [|x r IH]; simpl; [done|]. inversion Hs; subst. inversion Hlt; subst.
    constructor; [by apply IH|]. apply Forall_app. rewrite Forall_app in *. split; [tauto|].
    constructor; [done|]. tauto.
  - intros x. rewrite elem_of_app, elem_of_cons. rewrite <-(take_drop n l) at 3. rewrite elem_of_app. tauto.
Qed.

Lemma insert_seen_of t h : insert_seen t (seen_of h) = seen_of (h ++ [t]).
Proof.
  destruct (seen_of_spec h) as [Hs Hm], (seen_of_spec (h ++ [t])) as [Hs' Hm'].
  destruct (insert_seen_spec t _ Hs) as [Hi Hmi].
  apply strict_sorted_unique; [done|done|]. intros x. rewrite Hmi, Hm, Hm'. set_solver.
Qed.

Lemma counts_of_snoc h t : counts_of (h ++ [t]) = count_one t (counts_of h).
Proof. unfold counts_of. by rewrite foldl_app. Qed.

Definition tracks (s : SamplerState) (h : list Z) : Prop :=
  seen_sorted s = (if track_seen s then seen_of h else []) ∧ counts s = (if track_counts s then counts_of h else ∅).

Lemma absorb_tracks l : ∀ s h,
  tracks s h →
  tracks (foldl absorb_one s l) (h ++ l) ∧ track_seen (foldl absorb_one s l) = track_seen s ∧
  track_counts (foldl absorb_one s l) = track_counts s.
Proof.
  induction l as [|t l IH]; intros s h [H1 H2]; simpl; [by rewrite app_nil_r|].
  rewrite cons_middle, (assoc_L app). apply (IH (absorb_one s t)).
  unfold tracks, absorb_one. simpl. rewrite H1, H2.
  destruct (track_seen s), (track_counts s); by rewrite ?insert_seen_of, ?counts_of_snoc.
Qed.

Lemma rebuild_in_sync s h : in_sync (rebuild s h) h.
Proof.
  unfold rebuild. set (s0 := mkState _ _ _ _ _ _).
  destruct (absorb_tracks h s0 []) as ([H1 H2] & H3 & H4).
  { split; simpl; by case_match. }
  unfold in_sync, set_tip. simpl. by rewrite H1, H2.
Qed.

(** Synchronized with [h0], the state follows any history that extends [h0] or is
    shorter than it. *)
Lemma sync_in_sync s h0 h :
  in_sync s h0 → length h < length h0 ∨ h0 `prefix_of` h → in_sync (sync s h) h.
Proof.
  intros (H1 & H2 & H3 & H4) Hh. unfold sync. rewrite H3.
  destruct (bool_decide (length h < length h0)) eqn:El; [apply rebuild_in_sync|].
  apply bool_decide_eq_false in El. destruct Hh as [|[l ->]]; [lia|].
  lazymatch goal with |- in_sync (if ?b then _ else _) _ => destruct b; [apply rebuild_in_sync|] end.
  rewrite drop_app_length. destruct (absorb_tracks l s h0 (conj H1 H2)) as ([T1 T2] & T3 & T4).
  destruct (last (h0 ++ l)) as [t|] eqn:El'; unfold in_sync, set_tip; simpl; rewrite El'; split_and!; try done.
  intros. by apply last_None in El'.
Qed.

(** What the comment of [sync] excludes: a history of the same length that was cut and
    grown again to the same last token.  The state keeps the old one. *)
Lemma stale_after_rewrite :
  let s := sync (mkState true true [] ∅ 0 0) [1; 2; 3]%Z in
  seen_sorted (sync s [1; 9; 3]%Z) = [1; 2; 3]%Z ∧ seen_of [1; 9; 3]%Z = [1; 3; 9]%Z.
Proof. vm_compute. done. Qed.

Section equal.
Context {Logits : Type} `{!LogitOps Logits, !LogitLaws Logits}.

(** The state a sampler may carry: none yet, or one for this configuration that has
    followed the history so far. *)
Definition state_ok (c : SamplingConfig) (st : option SamplerState) (h : list Z) : Prop :=
  match st with
  | None => True
  | Some s => track_seen s = f32_ne (repetition_penalty c) f32_one ∧
              track_counts s = f32_ne (frequency_penalty c) f32_zero || f32_ne (presence_penalty c) f32_zero ∧
              in_sync s h
  end.

Lemma sync_flags s h : track_seen (sync s h) = track_seen s ∧ track_counts (sync s h) = track_counts s.
Proof.
  assert (∀ l s, track_seen (foldl absorb_one s l) = track_seen s ∧ track_counts (foldl absorb_one s l) = track_counts s)
    as Hf by (induction l; naive_solver).
  unfold sync, rebuild. repeat case_match; simpl; rewrite ?(proj1 (Hf _ _)), ?(proj2 (Hf _ _)); done.
Qed.

Lemma penalized_state lg c h0 h s :
  state_ok c (Some s) h0 → length h < length h0 ∨ h0 `prefix_of` h →
  penalized lg c h (Some s) = ((penalized lg c h None).1, Some (sync s h)) ∧ state_ok c (Some (sync s h)) h.
Proof.
  intros (T1 & T2 & Hs) Hh. pose proof (sync_in_sync s h0 h Hs Hh) as Hs'.
  destruct (sync_flags s h) as [F1 F2]. pose proof Hs' as (E1 & E2 & _).
  rewrite F1, T1 in E1. rewrite F2, T2 in E2.
  split; [|split; [congruence|split; [congruence|done]]].
  unfold penalized. cbn [fmap option_fmap option_map fst snd]. f_equal.
  rewrite E1, E2. destruct (f32_ne (repetition_penalty c) f32_one); cbn [andb orb];
    destruct (f32_ne (frequency_penalty c) f32_zero || f32_ne (presence_penalty c) f32_zero);
    cbn [andb]; repeat case_match; rewrite ?penalize_sparse_eq; done.
Qed.

(** The incremental sampler draws what the rebuilding one draws, from the same state of
    the generator. *)
Lemma sample_with_state lg c st h0 h rng :
  state_ok c st h0 → length h < length h0 ∨ h0 `prefix_of` h →
  ∃ st', sample_token_optimized_with_state lg c h st rng =
           ((sample_token_optimized lg c h rng).1, st', (sample_token_optimized lg c h rng).2) ∧ state_ok c st' h.
Proof.
  intros Hst Hh. unfold sample_token_optimized_with_state, sample_token_optimized.
  assert (∀ s h1, state_ok c (Some s) h1 → length h < length h1 ∨ h1 `prefix_of` h →
          ∃ st', sample_core lg c h (Some s) rng =
            ((let '(t, _, r) := sample_core lg c h None rng in (t, r)).1, st',
             (let '(t, _, r) := sample_core lg c h None rng in (t, r)).2) ∧ state_ok c st' h) as Hgo.
  { intros s h1 Hs Hh1. destruct (penalized_state lg c h1 h s Hs Hh1) as (H1 & H2). exists (Some (sync s h)).
    split; [|done]. unfold sample_core. rewrite H1. destruct (penalized lg c h None) as [l st0]. cbn [fst].
    by destruct (fused_sample l c rng). }
  destruct st as [s|]; [by eapply Hgo|]. lazymatch goal with |- context [if ?b then Some (for_config c) else None] => destruct b end.
  - apply (Hgo (for_config c) []); [|right; apply prefix_nil]. unfold state_ok, for_config, in_sync. simpl.
    split_and!; [done|done|by destruct (f32_ne _ f32_one)|by destruct (_ || _)|done|done].
  - exists None. split; [|done]. unfold sample_core.
    destruct (penalized lg c h None) as [l st0] eqn:E. assert (st0 = None) as -> by (by injection E).
    by destruct (fused_sample l c rng).
Qed.

End equal.
