(* ===== verification/Sequence.v ===== *)
(** * Sequence lifecycle and request context

    [src/src/server/batch/sequence.rs]: the priority of a request, the
    lifecycle state machine of one generation sequence ([transition_to]) and
    the per-request record the queue, the active batch and the scheduler pass
    around. *)

From S2P Require Import Prelude.
From S2P Require Import Sampling.
From S2P Require Import ThinkingBudget.

(** [RequestPriority]; the derived [Ord] is the declaration order
    [Low < Normal < High]. *)
Inductive RequestPriority := Low | Normal | High.

Global Instance RequestPriority_eq_dec : EqDecision RequestPriority.
Proof. solve_decision. Defined.

(** The discriminants [Low = 0], [Normal = 1], [High = 2]. *)
Definition priority_rank (p : RequestPriority) : nat :=
  match p with Low => 0 | Normal => 1 | High => 2 end.

(** [char::is_ascii_whitespace]-like trimming and lower-casing of the ASCII
    header value. *)
Definition is_space (a : Ascii.ascii) : bool :=
  let n := Ascii.nat_of_ascii a in
  bool_decide (n = 32) || (bool_decide (9 ≤ n) && bool_decide (n ≤ 13)).

Fixpoint trim_start (s : string) : string :=
  match s with
  | String a r => if is_space a then trim_start r else s
  | EmptyString => EmptyString
  end.

Fixpoint str_rev_app (s acc : string) : string :=
  match s with
  | String a r => str_rev_app r (String a acc)
  | EmptyString => acc
  end.

Definition str_rev (s : string) : string := str_rev_app s EmptyString.

Definition trim (s : string) : string :=
  str_rev (trim_start (str_rev (trim_start s))).

Definition to_ascii_lowercase_char (a : Ascii.ascii) : Ascii.ascii :=
  let n := Ascii.nat_of_ascii a in
  if bool_decide (65 ≤ n) && bool_decide (n ≤ 90)
  then Ascii.ascii_of_nat (n + 32) else a.

Fixpoint to_ascii_lowercase (s : string) : string :=
  match s with
  | String a r => String (to_ascii_lowercase_char a) (to_ascii_lowercase r)
  | EmptyString => EmptyString
  end.

Definition from_header (value : string) : option RequestPriority :=
  let v := to_ascii_lowercase (trim value) in
  if decide (v = "high") then Some High
  else if decide (v = "normal") then Some Normal
  else if decide (v = "low") then Some Low
  else None.

Inductive FinishReason :=
  | Stop
  | Length
  | Cancelled
  | Error (msg : string).

Global Instance FinishReason_eq_dec : EqDecision FinishReason.
Proof. solve_decision. Defined.

Inductive SequenceState :=
  | Queued
  | Prefilling
  | Decoding
  | Finished (r : FinishReason).

Global Instance SequenceState_eq_dec : EqDecision SequenceState.
Proof. solve_decision. Defined.

Definition is_finished (s : SequenceState) : bool :=
  match s with Finished _ => true | _ => false end.

(** The [match (&*self, &next)] of [transition_to]. *)
Definition transition_valid (s next : SequenceState) : bool :=
  match s, next with
  | Queued, Prefilling => true
  | Prefilling, Decoding => true
  | Prefilling, Finished Stop => true
  | Prefilling, Finished Length => true
  | Decoding, Finished _ => true
  | Decoding, Queued => true
  | _, Finished Cancelled | _, Finished (Error _) => negb (is_finished s)
  | _, _ => false
  end.

Inductive seq_error := InvalidTransition (from to : SequenceState).

Definition transition_to (next : SequenceState) : M SequenceState seq_error unit :=
  s ← get;
  if transition_valid s next then put next
  else throw (InvalidTransition s next).

(** [SequenceInfo]: the fields the queue, the batch and the scheduler read or
    write. [cancelled] is the shared [Arc<AtomicBool>]: the record holds the
    cell, and an operation that loads it is given the value it reads.
    [vlm_embeddings], [structured] and [response_tx] are handles of objects
    owned elsewhere. [sampler_state] and [thinking] are the states of the
    incremental sampler and of the thinking budget. The log-probability
    configuration, the streaming decoder (rebuilt from the prompt when a sequence
    is evicted), the raw media and the timestamps are never inspected by the
    operations modelled here. *)
Record SequenceInfo := mkSequenceInfo {
  seq_id : N;
  state : SequenceState;
  prompt_tokens : list Z;
  sampling : SamplingConfig;
  max_tokens : nat;
  eos_token_ids : list Z;
  priority : RequestPriority;
  vlm_embeddings : option N;
  n_images : nat;
  generated_tokens : list Z;
  generated_text : string;
  token_history : list Z;
  sampler_state : option SamplerState;
  merged_eos : list Z;
  prefill_offset : nat;
  prefill_start_offset : nat;
  already_cached_tokens : nat;
  thinking : ThinkingState;
  structured : option N;
  response_tx : N;
  cancelled : N;
  orphaned : bool;
}.

#[global] Instance spec_float_eq_dec : EqDecision SpecFloat.spec_float.
Proof. solve_decision. Defined.
#[global] Instance TokenBiasMap_eq_dec : EqDecision TokenBiasMap.
Proof. solve_decision. Defined.
#[global] Instance SamplingConfig_eq_dec : EqDecision SamplingConfig.
Proof. solve_decision. Defined.
#[global] Instance SamplerState_eq_dec : EqDecision SamplerState.
Proof. solve_decision. Defined.
#[global] Instance ThinkingTokenIds_eq_dec : EqDecision ThinkingTokenIds.
Proof. solve_decision. Defined.
#[global] Instance ThinkingPhase_eq_dec : EqDecision ThinkingPhase.
Proof. solve_decision. Defined.
#[global] Instance ThinkingBudget_eq_dec : EqDecision ThinkingBudget.
Proof. solve_decision. Defined.
#[global] Instance ThinkingState_eq_dec : EqDecision ThinkingState.
Proof. solve_decision. Defined.

Global Instance SequenceInfo_eq_dec : EqDecision SequenceInfo.
Proof. solve_decision. Defined.

Definition completion_count (s : SequenceInfo) : nat := length (generated_tokens s).
Definition is_vlm_request (s : SequenceInfo) : bool :=
  match vlm_embeddings s with Some _ => true | None => bool_decide (n_images s ≠ 0) end.

Definition set_state (st : SequenceState) (s : SequenceInfo) : SequenceInfo :=
  mkSequenceInfo (seq_id s) st (prompt_tokens s) (sampling s) (max_tokens s) (eos_token_ids s)
    (priority s) (vlm_embeddings s) (n_images s) (generated_tokens s)
    (generated_text s) (token_history s) (sampler_state s) (merged_eos s) (prefill_offset s)
    (prefill_start_offset s) (already_cached_tokens s) (thinking s) (structured s)
    (response_tx s) (cancelled s) (orphaned s).

(** [BatchSchedulerAction]. *)
Inductive BatchSchedulerAction :=
  | Prefill (id : N)
  | Decode (ids : list N)
  | Idle.

(** ** Runs of the state machine *)

(** One accepted call of [transition_to]. *)
Inductive lifecycle_step : SequenceState → SequenceState → Prop :=
  | step_to s next :
      transition_to next s = (next, Ok tt) → lifecycle_step s next.

(** States in the order a run passes through them. *)
Definition lifecycle (s s' : SequenceState) : Prop := rtc lifecycle_step s s'.

Lemma transition_to_spec s next :
  transition_to next s =
    if transition_valid s next then (next, Ok tt)
    else (s, Err (InvalidTransition s next)).
Proof.
  unfold transition_to, mbind, M_bind, get, put, throw.
  by destruct (transition_valid s next).
Qed.

Lemma lifecycle_step_valid s s' : lifecycle_step s s' ↔ transition_valid s s' = true.
Proof.
  split.
  - intros [? ? H]. rewrite transition_to_spec in H.
    by destruct (transition_valid _ _).
  - intros H. constructor. by rewrite transition_to_spec, H.
Qed.

Lemma finished_stuck r s' : ¬ lifecycle_step (Finished r) s'.
Proof.
  rewrite lifecycle_step_valid. by destruct s' as [| | |[| | |]], r.
Qed.

(** A run that leaves [Finished r] has gone nowhere. *)
Lemma finished_terminal r s' : lifecycle (Finished r) s' → s' = Finished r.
Proof.
  intros H. inversion H as [|? y ? Hs]; subst; [done|].
  by destruct (finished_stuck r y).
Qed.

Lemma decoding_pred s : lifecycle_step s Decoding → s = Prefilling.
Proof. rewrite lifecycle_step_valid. by destruct s. Qed.

Lemma prefilling_pred s : lifecycle_step s Prefilling → s = Queued.
Proof. rewrite lifecycle_step_valid. by destruct s. Qed.

Lemma normal_finish_pred s r :
  r = Stop ∨ r = Length → lifecycle_step s (Finished r) → s = Prefilling ∨ s = Decoding.
Proof.
  rewrite lifecycle_step_valid. intros [-> | ->]; destruct s; naive_solver.
Qed.

(** A run from [Queued] that finished normally has been through prefill. *)
Lemma lifecycle_through_prefill s s' :
  lifecycle s s' → s = Queued →
  (s' = Queued ∨ s' = Finished Cancelled ∨ ∃ m, s' = Finished (Error m)) ∨
  lifecycle Queued Prefilling ∧ lifecycle Prefilling s'.
Proof.
  intros H. induction H as [s|x y z Hstep Hrest IH]; intros ->.
  { left. by left. }
  apply lifecycle_step_valid in Hstep as Hv.
  destruct y as [| | |[| | |m]]; try done.
  - right. split; [by apply rtc_once|done].
  - apply finished_terminal in Hrest as ->. eauto.
  - apply finished_terminal in Hrest as ->. eauto 6.
Qed.

(** The lifecycle state machine: [transition_to] accepts exactly the
    documented transitions (and then leaves the requested state), refuses all
    others leaving the state unchanged; [Finished] is terminal in any run; and
    a sequence that entered the system as [Queued] and finished with [Stop] or
    [Length] went through [Prefilling]. *)
Theorem lifecycle_correct :
  (∀ s next,
     transition_to next s = (next, Ok tt) ∨
     (transition_to next s = (s, Err (InvalidTransition s next)) ∧
      ¬ lifecycle_step s next)) ∧
  (∀ s next, lifecycle_step s next ↔
     (s = Queued ∧ next = Prefilling) ∨
     (s = Prefilling ∧ next = Decoding) ∨
     (s = Decoding ∧ next = Queued) ∨
     (∃ r, next = Finished r ∧ is_finished s = false ∧
        (s = Queued → r ≠ Stop ∧ r ≠ Length))) ∧
  (∀ r s', lifecycle (Finished r) s' → s' = Finished r) ∧
  (∀ r, r = Stop ∨ r = Length → lifecycle Queued (Finished r) →
     lifecycle Queued Prefilling ∧ lifecycle Prefilling (Finished r)).
Proof.
  split_and!.
  - intros s next. rewrite transition_to_spec, lifecycle_step_valid.
    destruct (transition_valid s next); naive_solver.
  - intros s next. rewrite lifecycle_step_valid.
    destruct s as [| | |[]], next as [| | |[]]; naive_solver.
  - apply finished_terminal.
  - intros r Hr H. destruct (lifecycle_through_prefill _ _ H eq_refl) as [?|?]; naive_solver.
Qed.
