(* ===== verification/PrefillQueue.v ===== *)
(** * The prefill queue

    [src/src/server/batch/queue.rs]: three FIFO lanes under one capacity. The
    contract ([Spec]) is one list of waiting requests in arrival order, from
    which [dequeue] takes the oldest request of the highest waiting priority;
    [refines] relates the lanes to it. *)

From S2P Require Import Prelude Sequence.

Definition DEFAULT_MAX_QUEUE_SIZE : nat := 1024.

Record PrefillQueue := mkQueue {
  high : list SequenceInfo;
  normal : list SequenceInfo;
  low : list SequenceInfo;
  max_size : nat;
}.

Definition new : PrefillQueue := mkQueue [] [] [] DEFAULT_MAX_QUEUE_SIZE.
Definition with_capacity (max_size : nat) : PrefillQueue := mkQueue [] [] [] max_size.

Definition lane (p : RequestPriority) (q : PrefillQueue) : list SequenceInfo :=
  match p with High => high q | Normal => normal q | Low => low q end.

Definition set_lane (p : RequestPriority) (l : list SequenceInfo) (q : PrefillQueue) :
    PrefillQueue :=
  match p with
  | High => mkQueue l (normal q) (low q) (max_size q)
  | Normal => mkQueue (high q) l (low q) (max_size q)
  | Low => mkQueue (high q) (normal q) l (max_size q)
  end.

Definition len (q : PrefillQueue) : nat :=
  length (high q) + length (normal q) + length (low q).

Definition is_empty (q : PrefillQueue) : bool :=
  bool_decide (high q = []) && bool_decide (normal q = []) && bool_decide (low q = []).

Definition is_full (q : PrefillQueue) : bool := bool_decide (max_size q ≤ len q).

(** [enqueue] hands a rejected sequence back as the error. *)
Definition enqueue (seq : SequenceInfo) : M PrefillQueue SequenceInfo unit :=
  q ← get;
  if bool_decide (max_size q ≤ len q) then throw seq
  else put (set_lane (priority seq) (lane (priority seq) q ++ [seq]) q).

Definition pop_lane (p : RequestPriority) (q : PrefillQueue) :
    option (SequenceInfo * PrefillQueue) :=
  match lane p q with
  | [] => None
  | s :: r => Some (s, set_lane p r q)
  end.

Definition dequeue (q : PrefillQueue) : PrefillQueue * option SequenceInfo :=
  match pop_lane High q with
  | Some (s, q') => (q', Some s)
  | None =>
    match pop_lane Normal q with
    | Some (s, q') => (q', Some s)
    | None =>
      match pop_lane Low q with
      | Some (s, q') => (q', Some s)
      | None => (q, None)
      end
    end
  end.

(** The [while collected.len() < max_extra] loop over one lane; the predicate
    is an [FnMut], so its state is threaded. *)
Fixpoint drain_loop {F : Type} (pred : F → SequenceInfo → F * bool) (f : F)
    (room : nat) (deque : list SequenceInfo) (collected : list SequenceInfo) :
    F * list SequenceInfo * list SequenceInfo :=
  match room with
  | 0 => (f, deque, collected)
  | S room' =>
    match deque with
    | [] => (f, deque, collected)
    | s :: r =>
      let '(f', b) := pred f s in
      if b then drain_loop pred f' room' r (collected ++ [s])
      else (f', deque, collected)
    end
  end.

Definition drain_matching_window {F} (pred : F → SequenceInfo → F * bool) (f : F)
    (p : RequestPriority) (max_extra : nat) (q : PrefillQueue) :
    PrefillQueue * list SequenceInfo :=
  let '(_, deque, collected) := drain_loop pred f max_extra (lane p q) [] in
  (set_lane p deque q, collected).

Definition peek_priority (q : PrefillQueue) : option RequestPriority :=
  if negb (bool_decide (high q = [])) then Some High
  else if negb (bool_decide (normal q = [])) then Some Normal
  else if negb (bool_decide (low q = [])) then Some Low
  else None.

(** [VecDeque::remove(i)] and the index loop of [drain_cancelled_from_lane];
    [load] is the value each [cancelled.load(Relaxed)] returns. The fuel is
    the number of iterations: every iteration either removes an element or
    advances [i]. *)
Definition vec_remove {A} (i : nat) (l : list A) : list A := take i l ++ drop (S i) l.

Fixpoint drain_cancelled_loop (load : N → bool) (fuel : nat) (i : nat)
    (l out : list SequenceInfo) : option (list SequenceInfo * list SequenceInfo) :=
  match fuel with
  | 0 => if decide (i < length l) then None else Some (l, out)
  | S fuel' =>
    match l !! i with
    | None => Some (l, out)
    | Some s =>
      if load (cancelled s)
      then drain_cancelled_loop load fuel' i (vec_remove i l) (out ++ [s])
      else drain_cancelled_loop load fuel' (S i) l out
    end
  end.

Definition drain_cancelled_from_lane (load : N → bool) (l out : list SequenceInfo) :
    option (list SequenceInfo * list SequenceInfo) :=
  drain_cancelled_loop load (length l) 0 l out.

Definition drain_cancelled (load : N → bool) (q : PrefillQueue) :
    option (PrefillQueue * list SequenceInfo) :=
  '(h, out) ← drain_cancelled_from_lane load (high q) [];
  '(n, out) ← drain_cancelled_from_lane load (normal q) out;
  '(l, out) ← drain_cancelled_from_lane load (low q) out;
  Some (mkQueue h n l (max_size q), out).

(** ** Contract *)
Module Spec.

(** The waiting requests in arrival order. *)
Definition has_priority (p : RequestPriority) (s : SequenceInfo) : Prop := priority s = p.

Global Instance has_priority_dec p s : Decision (has_priority p s).
Proof. unfold has_priority. apply _. Defined.

(** The highest waiting priority. *)
Definition top (w : list SequenceInfo) : option RequestPriority :=
  if decide (Exists (has_priority High) w) then Some High
  else if decide (Exists (has_priority Normal) w) then Some Normal
  else if decide (Exists (has_priority Low) w) then Some Low
  else None.

(** Take the oldest request of priority [p] out of the arrival list. *)
Fixpoint take_first (p : RequestPriority) (w : list SequenceInfo) :
    option (SequenceInfo * list SequenceInfo) :=
  match w with
  | [] => None
  | s :: r =>
    if decide (has_priority p s) then Some (s, r)
    else '(s', r') ← take_first p r; Some (s', s :: r')
  end.

Definition enqueue (cap : nat) (s : SequenceInfo) (w : list SequenceInfo) :
    list SequenceInfo * bool :=
  if decide (cap ≤ length w) then (w, false) else (w ++ [s], true).

Definition dequeue (w : list SequenceInfo) : list SequenceInfo * option SequenceInfo :=
  match top w ≫= (λ p, take_first p w) with
  | Some (s, w') => (w', Some s)
  | None => (w, None)
  end.

Definition drain (load : N → bool) (w : list SequenceInfo) : list SequenceInfo :=
  filter (λ s, ¬ load (cancelled s)) w.

End Spec.

(** The lanes hold the arrival list split by priority. *)
Definition refines (q : PrefillQueue) (w : list SequenceInfo) : Prop :=
  ∀ p, lane p q = filter (Spec.has_priority p) w.

(** ** Lanes *)

Lemma lane_set_lane p p' l q :
  lane p (set_lane p' l q) = if decide (p = p') then l else lane p q.
Proof. by destruct p, p'. Qed.

Lemma max_size_set_lane p l q : max_size (set_lane p l q) = max_size q.
Proof. by destruct p. Qed.

Lemma set_lane_id p q : set_lane p (lane p q) q = q.
Proof. by destruct p, q. Qed.

Lemma len_lanes q : len q = length (lane High q) + length (lane Normal q) + length (lane Low q).
Proof. done. Qed.

Lemma length_filter_split w :
  length w = length (filter (Spec.has_priority High) w)
    + length (filter (Spec.has_priority Normal) w)
    + length (filter (Spec.has_priority Low) w).
Proof.
  induction w as [|s w IH]; [done|].
  rewrite !filter_cons. destruct (priority s) eqn:E;
    repeat case_decide; unfold Spec.has_priority in *; cbn; congruence || lia.
Qed.

Lemma refines_len q w : refines q w → len q = length w.
Proof. intros H. rewrite len_lanes, !H. symmetry. apply length_filter_split. Qed.

Lemma refines_new n : refines (with_capacity n) [].
Proof. by intros []. Qed.

Lemma refines_nonempty q w p :
  refines q w → Exists (Spec.has_priority p) w ↔ lane p q ≠ [].
Proof.
  intros H. rewrite (H p). rewrite Exists_exists. split.
  - intros (s & Hs & Hp) Hnil. apply (not_elem_of_nil s). rewrite <- Hnil.
    by apply list_elem_of_filter.
  - destruct (filter _ w) as [|s r] eqn:E; [done|]. intros _.
    exists s. assert (s ∈ filter (Spec.has_priority p) w) as Hs by (rewrite E; left).
    apply list_elem_of_filter in Hs as [??]. done.
Qed.

Lemma take_first_filter p w :
  match Spec.take_first p w with
  | Some (s, w') =>
      filter (Spec.has_priority p) w = s :: filter (Spec.has_priority p) w' ∧
      ∀ p', p' ≠ p → filter (Spec.has_priority p') w' = filter (Spec.has_priority p') w
  | None => filter (Spec.has_priority p) w = []
  end.
Proof.
  induction w as [|s w IH]; [done|]. cbn [Spec.take_first]. case_decide as Hp.
  - rewrite filter_cons_True by done. split; [done|]. intros p' Hne.
    rewrite filter_cons_False; [done|]. unfold Spec.has_priority in *. congruence.
  - destruct (Spec.take_first p w) as [[s' w']|]; cbn [mbind option_bind].
    + destruct IH as [IH1 IH2]. rewrite !filter_cons_False by done. split; [done|].
      intros p' Hne. rewrite !filter_cons. by rewrite IH2.
    + by rewrite filter_cons_False.
Qed.

Lemma top_lanes q w : refines q w → Spec.top w = peek_priority q.
Proof.
  intros H. unfold Spec.top, peek_priority.
  pose proof (refines_nonempty q w High H) as Hh.
  pose proof (refines_nonempty q w Normal H) as Hn.
  pose proof (refines_nonempty q w Low H) as Hl. cbn in *.
  repeat case_decide; repeat case_bool_decide; naive_solver.
Qed.

Lemma dequeue_lanes q :
  dequeue q =
    match peek_priority q with
    | None => (q, None)
    | Some p => match lane p q with
                | [] => (q, None)
                | s :: r => (set_lane p r q, Some s)
                end
    end.
Proof.
  by destruct q as [[|??] [|??] [|??] ?].
Qed.

Lemma refines_dequeue q w :
  refines q w →
  refines (dequeue q).1 (Spec.dequeue w).1 ∧ (dequeue q).2 = (Spec.dequeue w).2 ∧
  max_size (dequeue q).1 = max_size q.
Proof.
  intros H. rewrite dequeue_lanes. unfold Spec.dequeue. rewrite (top_lanes q w H).
  destruct (peek_priority q) as [p|]; cbn; [|done].
  pose proof (take_first_filter p w) as Ht. rewrite (H p).
  destruct (Spec.take_first p w) as [[s w']|].
  - destruct Ht as [Hp Hne]. rewrite Hp. cbn. split_and!; [|done|by rewrite max_size_set_lane].
    intros p'. rewrite lane_set_lane. case_decide; subst; [done|].
    by rewrite (H p'), Hne.
  - by rewrite Ht.
Qed.

Lemma refines_enqueue q w s :
  refines q w →
  refines (enqueue s q).1 (Spec.enqueue (max_size q) s w).1 ∧
  (enqueue s q).2 = (if (Spec.enqueue (max_size q) s w).2 then Ok tt else Err s) ∧
  max_size (enqueue s q).1 = max_size q.
Proof.
  intros H. unfold enqueue, Spec.enqueue, mbind, M_bind, get, put, throw.
  rewrite (refines_len q w H).
  case_bool_decide; case_decide; try done. cbn.
  split_and!; [|done|by rewrite max_size_set_lane].
  intros p. rewrite lane_set_lane, filter_app.
  case_decide as Hp; subst.
  - by rewrite (H (priority s)), filter_cons_True.
  - rewrite (H p), filter_cons_False; [by rewrite app_nil_r|]. unfold Spec.has_priority. congruence.
Qed.

(** ** Draining *)

Lemma drain_cancelled_loop_spec load fuel i l out :
  length l ≤ fuel + i → i ≤ length l →
  drain_cancelled_loop load fuel i l out =
    Some (take i l ++ filter (λ s, ¬ load (cancelled s)) (drop i l),
          out ++ filter (λ s, load (cancelled s)) (drop i l)).
Proof.
  revert i l out. induction fuel as [|fuel IH]; intros i l out Hf Hi.
  - cbn. rewrite decide_False by lia. rewrite drop_ge, take_ge by lia.
    by rewrite !app_nil_r.
  - cbn [drain_cancelled_loop]. destruct (l !! i) as [s|] eqn:E.
    + assert (i < length l) by (by eapply lookup_lt_Some).
      rewrite (drop_S l s i E). rewrite !filter_cons.
      destruct (load (cancelled s)) eqn:Hc.
      * assert (length (vec_remove i l) = pred (length l)) as Hlen.
        { unfold vec_remove. rewrite length_app, length_take, length_drop. lia. }
        rewrite IH by lia. unfold vec_remove.
        rewrite take_app_length', drop_app_length' by (rewrite length_take; lia).
        rewrite decide_False by (cbn; tauto). rewrite decide_True by done.
        by rewrite <- app_assoc.
      * rewrite IH by lia. rewrite (take_S_r l i s E).
        rewrite decide_True by (cbn; tauto). rewrite decide_False by (cbn; tauto).
        by rewrite <- app_assoc.
    + apply lookup_ge_None in E. rewrite drop_ge, take_ge by lia.
      by rewrite !app_nil_r.
Qed.

Lemma drain_cancelled_from_lane_spec load l out :
  drain_cancelled_from_lane load l out =
    Some (filter (λ s, ¬ load (cancelled s)) l, out ++ filter (λ s, load (cancelled s)) l).
Proof.
  unfold drain_cancelled_from_lane.
  rewrite drain_cancelled_loop_spec by lia. by rewrite take_0, drop_0.
Qed.

Lemma drain_cancelled_spec load q :
  drain_cancelled load q =
    Some (mkQueue (filter (λ s, ¬ load (cancelled s)) (high q))
                  (filter (λ s, ¬ load (cancelled s)) (normal q))
                  (filter (λ s, ¬ load (cancelled s)) (low q)) (max_size q),
          filter (λ s, load (cancelled s)) (high q ++ normal q ++ low q)).
Proof.
  unfold drain_cancelled. rewrite !drain_cancelled_from_lane_spec. cbn.
  rewrite drain_cancelled_from_lane_spec. cbn.
  rewrite drain_cancelled_from_lane_spec. cbn.
  by rewrite !filter_app, app_assoc.
Qed.

Lemma drain_loop_spec {F} (pred : F → SequenceInfo → F * bool) f room dq col :
  ∃ f' k, k ≤ room ∧
    drain_loop pred f room dq col = (f', drop k dq, col ++ take k dq) ∧
    (* it stopped because it ran out of room, of sequences, or at a refusal *)
    (k = room ∨ length dq ≤ k ∨ ∃ f0 s, dq !! k = Some s ∧ pred f0 s = (f', false)).
Proof.
  revert f dq col. induction room as [|room IH]; intros f dq col; cbn.
  { exists f, 0. rewrite take_0, drop_0, app_nil_r. auto. }
  destruct dq as [|s dq].
  { exists f, 0. cbn. rewrite app_nil_r. split_and!; auto with lia. }
  destruct (pred f s) as [f' []] eqn:Hp.
  - destruct (IH f' dq (col ++ [s])) as (f2 & k & Hk & -> & Hstop).
    exists f2, (S k). cbn. rewrite <- app_assoc. split_and!; [lia|done|].
    destruct Hstop as [->|[?|?]]; auto with lia.
  - exists f', 0. cbn. rewrite app_nil_r. split_and!; [lia|done|]. right. right. eauto.
Qed.

(** ** Properties *)

(** The operations of the queue, as one labelled transition. *)
Inductive queue_op :=
  | OpEnqueue (s : SequenceInfo)
  | OpDequeue
  | OpDrainCancelled (load : N → bool).

Definition run_op (o : queue_op) (q : PrefillQueue) : PrefillQueue :=
  match o with
  | OpEnqueue s => (enqueue s q).1
  | OpDequeue => (dequeue q).1
  | OpDrainCancelled load => from_option fst q (drain_cancelled load q)
  end.

Definition run_spec (cap : nat) (o : queue_op) (w : list SequenceInfo) : list SequenceInfo :=
  match o with
  | OpEnqueue s => (Spec.enqueue cap s w).1
  | OpDequeue => (Spec.dequeue w).1
  | OpDrainCancelled load => Spec.drain load w
  end.

Lemma refines_drain load q w :
  refines q w →
  ∃ q' out, drain_cancelled load q = Some (q', out) ∧
    refines q' (Spec.drain load w) ∧ max_size q' = max_size q.
Proof.
  intros H. rewrite drain_cancelled_spec. eexists _, _. split_and!; [done| |done].
  intros p. unfold Spec.drain. rewrite filter_swap.
  rewrite <- (H p). by destruct p.
Qed.

Lemma refines_op o q w :
  refines q w →
  refines (run_op o q) (run_spec (max_size q) o w) ∧ max_size (run_op o q) = max_size q.
Proof.
  intros H. destruct o; cbn.
  - destruct (refines_enqueue q w s H) as (?&?&?); done.
  - destruct (refines_dequeue q w H) as (?&?&?); done.
  - destruct (refines_drain load q w H) as (q' & out & -> & ?&?); done.
Qed.

Lemma refines_ops os : ∀ q w,
  refines q w →
  refines (foldl (λ q o, run_op o q) q os)
          (foldl (λ w o, run_spec (max_size q) o w) w os) ∧
  max_size (foldl (λ q o, run_op o q) q os) = max_size q.
Proof.
  induction os as [|o os IH]; intros q w H; [done|]; cbn.
  destruct (refines_op o q w H) as [H1 H2].
  destruct (IH _ _ H1) as [H3 H4]. by rewrite H2 in H3, H4.
Qed.

Lemma take_first_length p w s w' :
  Spec.take_first p w = Some (s, w') → length w = S (length w').
Proof.
  revert s w'. induction w as [|a w IH]; intros s w' E; [done|].
  cbn in E. case_decide; simplify_eq/=; [done|].
  destruct (Spec.take_first p w) as [[s0 w0]|]; simplify_eq/=. by rewrite (IH s w0).
Qed.

(** The number of waiting requests never exceeds the capacity. *)
Lemma spec_bounded cap os : length (foldl (λ w o, run_spec cap o w) [] os) ≤ cap.
Proof.
  induction os as [|o os IH] using rev_ind; [cbn; lia|].
  rewrite foldl_app. cbn. set (w := foldl _ _ _) in *. destruct o; cbn.
  - unfold Spec.enqueue. case_decide; cbn; [done|]. rewrite length_app. cbn. lia.
  - unfold Spec.dequeue. destruct (Spec.top w) as [p|]; cbn; [|done].
    destruct (Spec.take_first p w) as [[s' w']|] eqn:E; cbn; [|done].
    apply take_first_length in E. lia.
  - unfold Spec.drain. pose proof (length_filter (λ s, ¬ load (cancelled s)) w). lia.
Qed.

(** C28. The three-lane queue refines a single arrival list under any sequence
    of enqueue, dequeue and cancellation drains: after the same operations the
    lanes are the arrival list split by priority, a dequeue returns the oldest
    request of the highest waiting priority, an enqueue is refused (handing the
    request back) exactly when the number of waiting requests has reached the
    capacity. *)
Theorem queue_refines_arrival_list cap os s :
  let q := foldl (λ q o, run_op o q) (with_capacity cap) os in
  let w := foldl (λ w o, run_spec cap o w) [] os in
  refines q w ∧
  len q = length w ∧ length w ≤ cap ∧
  (dequeue q).2 = (Spec.dequeue w).2 ∧
  (enqueue s q).2 = (if decide (cap ≤ length w) then Err s else Ok tt).
Proof.
  intros q w.
  destruct (refines_ops os (with_capacity cap) [] (refines_new cap)) as [Hr Hm].
  fold q w in Hr, Hm. cbn in Hm. split_and!; [done|by apply refines_len| | |].
  - apply spec_bounded.
  - by destruct (refines_dequeue q w Hr) as (_&?&_).
  - destruct (refines_enqueue q w s Hr) as (_&->&_). rewrite Hm.
    unfold Spec.enqueue. by case_decide.
Qed.

(** [drain_matching_window] takes at most [max_extra] sequences from the
    front of the named lane only, in order, leaves the rest of that lane in
    order behind them and the other lanes and the capacity untouched, and stops
    before [max_extra] only at the end of the lane or at a sequence the
    predicate refused. *)
Theorem drain_matching_window_correct {F} (pred : F → SequenceInfo → F * bool) f p n q :
  let r := drain_matching_window pred f p n q in
  r.2 ++ lane p r.1 = lane p q ∧
  length r.2 ≤ n ∧
  (∀ p', p' ≠ p → lane p' r.1 = lane p' q) ∧
  max_size r.1 = max_size q ∧
  (length r.2 = n ∨ lane p r.1 = [] ∨
   ∃ f0 s, head (lane p r.1) = Some s ∧ (pred f0 s).2 = false).
Proof.
  unfold drain_matching_window.
  destruct (drain_loop_spec pred f n (lane p q) []) as (f' & k & Hk & -> & Hstop). cbn.
  rewrite max_size_set_lane, lane_set_lane, decide_True by done.
  split_and!; [apply take_drop| | |done|].
  - rewrite length_take. lia.
  - intros p' Hne. by rewrite lane_set_lane, decide_False.
  - rewrite length_take.
    destruct (decide (length (lane p q) ≤ k)) as [Hge|Hlt].
    { right. left. by apply drop_ge. }
    destruct Hstop as [->|[?|(f0 & s & Hs & Hp)]]; [left; lia|lia|].
    right. right. exists f0, s. rewrite Hp. split; [|done].
    by rewrite (drop_S _ s k Hs).
Qed.

(** [drain_cancelled] terminates within one visit per queued sequence,
    returns exactly the sequences whose flag was read as set (high, normal, low
    lane in that order, FIFO within a lane) and keeps the others in order. *)
Theorem drain_cancelled_partitions load q :
  ∃ q' out, drain_cancelled load q = Some (q', out) ∧
    out = filter (λ s, load (cancelled s)) (high q ++ normal q ++ low q) ∧
    (∀ p, lane p q' = filter (λ s, ¬ load (cancelled s)) (lane p q)) ∧
    len q' + length out = len q ∧ max_size q' = max_size q.
Proof.
  rewrite drain_cancelled_spec. eexists _, _. split_and!; [done|done|by intros []| |done].
  unfold len. cbn. rewrite !filter_app, !length_app.
  pose proof (filter_split_length (λ s, load (cancelled s))) as Hl.
  pose proof (Hl (high q)). pose proof (Hl (normal q)). pose proof (Hl (low q)). lia.
Qed.
