(* ===== verification/ActiveBatch.v ===== *)
(** * The active decode batch

    [src/src/server/batch/active.rs]: a map from sequence id to sequence with a
    capacity. *)

From S2P Require Import Prelude Sampling ThinkingBudget Sequence.

Record ActiveBatch := mkBatch {
  sequences : gmap N SequenceInfo;
  batch_max_size : nat;
}.

Inductive batch_error := BatchFull (id : N) (cap : nat) | DuplicateId (id : N).

Definition batch_new (max_size : nat) : ActiveBatch := mkBatch ∅ max_size.

Definition batch_len (b : ActiveBatch) : nat := size (sequences b).
Definition batch_is_full (b : ActiveBatch) : bool :=
  bool_decide (batch_max_size b ≤ size (sequences b)).
Definition batch_is_empty (b : ActiveBatch) : bool := bool_decide (sequences b = ∅).

Definition add (seq : SequenceInfo) : M ActiveBatch batch_error unit :=
  b ← get;
  if bool_decide (batch_max_size b ≤ size (sequences b))
  then throw (BatchFull (seq_id seq) (batch_max_size b))
  else if bool_decide (is_Some (sequences b !! seq_id seq))
  then throw (DuplicateId (seq_id seq))
  else put (mkBatch (<[seq_id seq := seq]> (sequences b)) (batch_max_size b)).

Definition remove (id : N) (b : ActiveBatch) : ActiveBatch * option SequenceInfo :=
  (mkBatch (delete id (sequences b)) (batch_max_size b), sequences b !! id).

Definition batch_get (id : N) (b : ActiveBatch) : option SequenceInfo := sequences b !! id.

(** A mutation through [get_mut]. *)
Definition update (id : N) (f : SequenceInfo → SequenceInfo) (b : ActiveBatch) : ActiveBatch :=
  mkBatch (alter f id (sequences b)) (batch_max_size b).

(** The values of the map in some iteration order of the [HashMap]. *)
Definition iteration (b : ActiveBatch) (vs : list SequenceInfo) : Prop :=
  vs ≡ₚ (map_to_list (sequences b)).*2.

(** [sequence_ids] over an iteration order of the keys. *)
Definition id_iteration (b : ActiveBatch) (ids : list N) : Prop :=
  ids ≡ₚ (map_to_list (sequences b)).*1.

(** [iter().map(|s| s.priority).min()]. *)
Definition min_rank (p q : RequestPriority) : RequestPriority :=
  if decide (priority_rank q < priority_rank p) then q else p.

Definition iter_min_priority (vs : list SequenceInfo) : option RequestPriority :=
  match priority <$> vs with
  | [] => None
  | p :: ps => Some (foldl min_rank p ps)
  end.

(** ** Invariant *)

(** Every sequence is stored under its own id, within the capacity. *)
Definition batch_wf (b : ActiveBatch) : Prop :=
  map_Forall (λ id s, seq_id s = id) (sequences b) ∧
  size (sequences b) ≤ batch_max_size b.

Lemma batch_new_wf n : batch_wf (batch_new n).
Proof. split; [apply map_Forall_empty|]. cbn. rewrite map_size_empty. lia. Qed.

Lemma add_spec seq b :
  add seq b =
    if bool_decide (batch_max_size b ≤ size (sequences b))
    then (b, Err (BatchFull (seq_id seq) (batch_max_size b)))
    else match sequences b !! seq_id seq with
         | Some _ => (b, Err (DuplicateId (seq_id seq)))
         | None => (mkBatch (<[seq_id seq := seq]> (sequences b)) (batch_max_size b), Ok tt)
         end.
Proof.
  unfold add, mbind, M_bind, get, put, throw. case_bool_decide; [done|].
  destruct (sequences b !! seq_id seq) eqn:E; case_bool_decide as H2; naive_solver.
Qed.

Lemma add_wf seq b : batch_wf b → batch_wf (add seq b).1.
Proof.
  intros [Hk Hs]. rewrite add_spec. case_bool_decide; [done|].
  destruct (sequences b !! seq_id seq) eqn:E; [done|]. split; cbn.
  - by apply map_Forall_insert.
  - rewrite map_size_insert_None by done. lia.
Qed.

Lemma remove_wf id b : batch_wf b → batch_wf (remove id b).1.
Proof.
  intros [Hk Hs]. split; cbn.
  - by apply map_Forall_delete.
  - destruct (sequences b !! id) eqn:E.
    + rewrite map_size_delete_Some by eauto. lia.
    + by rewrite delete_id.
Qed.

Lemma update_wf id f b :
  (∀ s, seq_id (f s) = seq_id s) → batch_wf b → batch_wf (update id f b).
Proof.
  intros Hf [Hk Hs]. split; cbn.
  - apply map_Forall_lookup. intros i s. rewrite lookup_alter.
    case_decide; subst; [|by apply Hk].
    destruct (sequences b !! i) eqn:E; cbn; [|done]. intros; simplify_eq.
    rewrite Hf. by apply Hk.
  - replace (size (alter f id (sequences b))) with (size (sequences b)); [done|].
    rewrite <- !size_dom. by rewrite dom_alter_L.
Qed.

Lemma iteration_elem b vs s :
  batch_wf b → iteration b vs → s ∈ vs ↔ sequences b !! seq_id s = Some s.
Proof.
  intros [Hk _] H. rewrite H, list_elem_of_fmap. split.
  - intros ([i s'] & -> & Hm). apply elem_of_map_to_list in Hm. cbn.
    by rewrite (Hk _ _ Hm).
  - intros Hl. exists (seq_id s, s). split; [done|]. by apply elem_of_map_to_list.
Qed.

Lemma min_rank_spec p q :
  (min_rank p q = p ∨ min_rank p q = q) ∧
  priority_rank (min_rank p q) ≤ priority_rank p ∧
  priority_rank (min_rank p q) ≤ priority_rank q.
Proof. unfold min_rank. case_decide; split_and!; auto; lia. Qed.

Lemma foldl_min_rank ps p :
  foldl min_rank p ps ∈ p :: ps ∧
  ∀ q, q ∈ p :: ps → priority_rank (foldl min_rank p ps) ≤ priority_rank q.
Proof.
  revert p. induction ps as [|r ps IH]; intros p; cbn.
  - split; [by left|]. intros q Hq. by apply list_elem_of_singleton in Hq as ->.
  - destruct (IH (min_rank p r)) as [IH1 IH2].
    destruct (min_rank_spec p r) as (Hc & H1 & H2). split.
    + apply elem_of_cons in IH1 as [->|?]; [|set_solver].
      destruct Hc as [->| ->]; set_solver.
    + pose proof (IH2 (min_rank p r) ltac:(left)).
      intros q [->|[->|Hq]%elem_of_cons]%elem_of_cons; [lia|lia|].
      apply IH2. by right.
Qed.

(** The minimum is attained and is a lower bound, whatever the iteration order. *)
Lemma iter_min_priority_spec vs :
  match iter_min_priority vs with
  | None => vs = []
  | Some p => p ∈ priority <$> vs ∧ ∀ s, s ∈ vs → priority_rank p ≤ priority_rank (priority s)
  end.
Proof.
  unfold iter_min_priority. destruct vs as [|s vs]; [done|]. cbn.
  destruct (foldl_min_rank (priority <$> vs) (priority s)) as [H1 H2].
  split; [done|]. intros x Hx. apply H2. rewrite <- fmap_cons.
  apply list_elem_of_fmap. eauto.
Qed.

(** The active batch is a bounded map keyed by sequence id: [add] refuses
    a full batch before it looks for a duplicate, refuses a duplicate id, and
    otherwise makes the sequence (and no other) retrievable under its id;
    [remove] undoes [add]; every operation keeps each sequence under its own id
    and the size within the capacity. *)
Theorem active_batch_correct b seq :
  batch_wf b →
  batch_wf (add seq b).1 ∧ (∀ id, batch_wf (remove id b).1) ∧
  match (add seq b).2 with
  | Ok _ =>
      size (sequences b) < batch_max_size b ∧ batch_get (seq_id seq) b = None ∧
      batch_get (seq_id seq) (add seq b).1 = Some seq ∧
      (∀ id, id ≠ seq_id seq → batch_get id (add seq b).1 = batch_get id b) ∧
      remove (seq_id seq) (add seq b).1 = (b, Some seq)
  | Err (BatchFull id cap) =>
      id = seq_id seq ∧ cap = batch_max_size b ∧
      size (sequences b) = batch_max_size b ∧ (add seq b).1 = b
  | Err (DuplicateId id) =>
      id = seq_id seq ∧ size (sequences b) < batch_max_size b ∧
      is_Some (batch_get (seq_id seq) b) ∧ (add seq b).1 = b
  | Panic => False
  end.
Proof.
  intros Hwf. split; [by apply add_wf|]. split; [intros; by apply remove_wf|].
  destruct Hwf as [Hk Hs]. rewrite add_spec. unfold batch_get.
  case_bool_decide as Hfull; cbn; [split_and!; lia || done|].
  destruct (sequences b !! seq_id seq) eqn:E; cbn; [split_and!; eauto; lia|].
  split_and!; [lia|done|by rewrite lookup_insert_eq| |].
  - intros id Hid. by rewrite lookup_insert_ne.
  - unfold remove. cbn. rewrite lookup_insert_eq, delete_insert_id by done.
    by destruct b.
Qed.

Definition example_seq (id : N) (p : RequestPriority) (n : nat) : SequenceInfo :=
  mkSequenceInfo id Decoding [1; 2; 3]%Z greedy 64 [2]%Z p None 0 (repeat 7%Z n) "" [] None [] 3 0 0
    disabled None id id false.

Lemma active_batch_correct_witness :
  let s := example_seq 5 Normal 1 in
  let b := batch_new 2 in
  batch_wf b ∧
  size (sequences b) < batch_max_size b ∧ batch_get 5 b = None ∧
  batch_get 5 (add s b).1 = Some s ∧
  (∀ id, id ≠ 5%N → batch_get id (add s b).1 = batch_get id b) ∧
  remove 5 (add s b).1 = (b, Some s).
Proof.
  split; [apply batch_new_wf|].
  exact (proj2 (proj2 (active_batch_correct (batch_new 2) (example_seq 5 Normal 1)
    (batch_new_wf 2)))).
Defined.
