(* ===== verification/PrefillCohort.v ===== *)
(** * Cohort planning for batched prefill

    [src/src/server/batch/prefill_cohort.rs]: the planner that splits a
    priority-ordered prefill window into batched and sequential cohorts. The
    two [while] loops carry fuel, one unit per row of the window, which the
    proofs show is enough. *)

From S2P Require Import Prelude.

Inductive PrefillCohortKind := BatchedCold | Sequential.

Global Instance PrefillCohortKind_eq_dec : EqDecision PrefillCohortKind.
Proof. solve_decision. Defined.

Record PrefillCohort := mkCohort { kind : PrefillCohortKind; members : list nat }.

Record PrefillRow := mkRow { is_cold : bool; prompt_len : nat }.

(** [flush_sequential]: emit the pending rows, if any, as one cohort. *)
Definition flush_sequential (cohorts : list PrefillCohort) (pending : list nat) :
    list PrefillCohort :=
  match pending with
  | [] => cohorts
  | _ => cohorts ++ [mkCohort Sequential pending]
  end.

(** [rows[j].prompt_len == len0]; the planner only passes indices in range. *)
Definition row_len_is (rows : list PrefillRow) (len0 j : nat) : bool :=
  match rows !! j with Some r => bool_decide (prompt_len r = len0) | None => false end.

Definition all_equal_len (rows : list PrefillRow) (idx : list nat) : bool :=
  match idx with
  | [] => true
  | first :: _ =>
    match rows !! first with
    | Some r => forallb (row_len_is rows (prompt_len r)) idx
    | None => false
    end
  end.

(** [while i < n && rows[i].is_cold { i += 1 }]. *)
Fixpoint run_end (fuel : nat) (rows : list PrefillRow) (i : nat) : nat :=
  match fuel with
  | 0 => i
  | S fuel' =>
    match rows !! i with
    | Some r => if is_cold r then run_end fuel' rows (S i) else i
    | None => i
    end
  end.

(** The outer loop; [None] when the fuel runs out before the window ends. *)
Fixpoint cohort_loop (fuel : nat) (rows : list PrefillRow) (can_pad : bool) (i : nat)
    (cohorts : list PrefillCohort) (pending : list nat) :
    option (list PrefillCohort * list nat) :=
  match rows !! i with
  | None => Some (cohorts, pending)
  | Some r =>
    match fuel with
    | 0 => None
    | S fuel' =>
      if negb (is_cold r)
      then cohort_loop fuel' rows can_pad (S i) cohorts (pending ++ [i])
      else
        let e := run_end (length rows) rows i in
        let run := seq i (e - i) in
        if bool_decide (2 ≤ length run) && (can_pad || all_equal_len rows run)
        then cohort_loop fuel' rows can_pad e
               (flush_sequential cohorts pending ++ [mkCohort BatchedCold run]) []
        else cohort_loop fuel' rows can_pad e cohorts (pending ++ run)
    end
  end.

Definition plan_prefill_cohorts (rows : list PrefillRow) (can_batch can_pad : bool) :
    option (list PrefillCohort) :=
  match rows with
  | [] => Some []
  | _ =>
    if negb can_batch
    then Some [mkCohort Sequential (seq 0 (length rows))]
    else '(cohorts, pending) ← cohort_loop (length rows) rows can_pad 0 [] [];
         Some (flush_sequential cohorts pending)
  end.

(** ** What a plan must satisfy *)

Definition dispatch_order (cs : list PrefillCohort) : list nat := cs ≫= members.

(** A batched cohort: at least two cold rows, contiguous in the window, of one
    length when the model cannot pad. *)
Definition cohort_ok (rows : list PrefillRow) (can_pad : bool) (c : PrefillCohort) : Prop :=
  kind c = BatchedCold →
  ∃ a k, members c = seq a k ∧ 2 ≤ k ∧
    (∀ j, j ∈ members c → ∃ r, rows !! j = Some r ∧ is_cold r = true) ∧
    (can_pad = false → ∃ n, ∀ j, j ∈ members c → ∃ r, rows !! j = Some r ∧ prompt_len r = n).

Lemma dispatch_flush cs p :
  dispatch_order (flush_sequential cs p) = dispatch_order cs ++ p.
Proof.
  unfold flush_sequential, dispatch_order. destruct p; [by rewrite app_nil_r|].
  by rewrite bind_app; cbn; rewrite app_nil_r.
Qed.

Lemma flush_ok rows cp cs p :
  Forall (cohort_ok rows cp) cs → Forall (cohort_ok rows cp) (flush_sequential cs p).
Proof.
  intros H. unfold flush_sequential. destruct p; [done|].
  apply Forall_app. split; [done|]. constructor; [|done]. by intros ?.
Qed.

Lemma run_end_spec fuel rows i :
  length rows ≤ fuel + i →
  let e := run_end fuel rows i in
  i ≤ e ∧ (∀ j, i ≤ j < e → ∃ r, rows !! j = Some r ∧ is_cold r = true) ∧
  (∀ r, rows !! e = Some r → is_cold r = false).
Proof.
  revert i. induction fuel as [|fuel IH]; intros i Hf; cbn.
  { split_and!; [lia|intros; lia|]. intros r Hr. apply lookup_lt_Some in Hr. lia. }
  destruct (rows !! i) as [r|] eqn:E; [|split_and!; [lia|intros; lia|naive_solver]].
  destruct (is_cold r) eqn:Hc; [|split_and!; [lia|intros; lia|naive_solver]].
  destruct (IH (S i)) as (H1 & H2 & H3); [lia|]. split_and!; [lia| |done].
  intros j Hj. destruct (decide (j = i)) as [->|]; [by eauto|]. apply H2. lia.
Qed.

Lemma run_end_progress fuel rows i r :
  0 < fuel → rows !! i = Some r → is_cold r = true → i < run_end fuel rows i.
Proof.
  destruct fuel as [|fuel]; [lia|]. intros _ E Hc. cbn. rewrite E, Hc.
  assert (∀ f k, k ≤ run_end f rows k) as Hmono; [|specialize (Hmono fuel (S i)); lia].
  induction f as [|f IH]; intros k; cbn; [lia|].
  destruct (rows !! k) as [r'|]; [|lia]. destruct (is_cold r'); [|lia].
  specialize (IH (S k)). lia.
Qed.

Lemma all_equal_len_spec rows idx :
  all_equal_len rows idx = true →
  ∃ n, ∀ j, j ∈ idx → ∃ r, rows !! j = Some r ∧ prompt_len r = n.
Proof.
  destruct idx as [|f idx]; [intros _; exists 0; intros j []%elem_of_nil|].
  cbn [all_equal_len]. destruct (rows !! f) as [r|] eqn:E; [|done].
  intros H. exists (prompt_len r). intros j Hj.
  rewrite forallb_forall in H. specialize (H j). rewrite <- list_elem_of_In in H.
  specialize (H Hj). unfold row_len_is in H.
  destruct (rows !! j) as [r'|]; [|done]. apply bool_decide_eq_true in H. eauto.
Qed.

Lemma batched_run_ok rows cp i e :
  2 ≤ e - i → cp || all_equal_len rows (seq i (e - i)) = true →
  (∀ j, i ≤ j < e → ∃ r, rows !! j = Some r ∧ is_cold r = true) →
  cohort_ok rows cp (mkCohort BatchedCold (seq i (e - i))).
Proof.
  intros H2 Hb Hc _. exists i, (e - i). cbn. split_and!; [done|done| |].
  - intros j Hj. apply elem_of_seq in Hj. apply Hc. lia.
  - intros ->. by apply all_equal_len_spec.
Qed.

Lemma seq_prefix i e : i ≤ e → seq 0 i ++ seq i (e - i) = seq 0 e.
Proof. intros. rewrite <- seq_app. f_equal. lia. Qed.

(** The loop invariant: what has been planned so far is the prefix [0..i). *)
Lemma cohort_loop_spec fuel rows cp i cs pending :
  length rows ≤ fuel + i → i ≤ length rows →
  dispatch_order cs ++ pending = seq 0 i →
  Forall (cohort_ok rows cp) cs →
  ∃ cs' pending', cohort_loop fuel rows cp i cs pending = Some (cs', pending') ∧
    dispatch_order cs' ++ pending' = seq 0 (length rows) ∧
    Forall (cohort_ok rows cp) cs'.
Proof.
  revert i cs pending. induction fuel as [|fuel IH]; intros i cs pending Hf Hi Ho Hok; cbn.
  { rewrite lookup_ge_None_2 by lia. replace (length rows) with i by lia. eauto. }
  destruct (rows !! i) as [r|] eqn:E.
  2:{ apply lookup_ge_None in E. replace (length rows) with i by lia. eauto. }
  pose proof (lookup_lt_Some _ _ _ E) as Hlt.
  destruct (is_cold r) eqn:Hc; cbn.
  2:{ apply IH; [lia|lia| |done]. by rewrite app_assoc, Ho, seq_S. }
  pose proof (run_end_spec (length rows) rows i ltac:(lia)) as (H1 & H2 & H3).
  pose proof (run_end_progress (length rows) rows i r ltac:(lia) E Hc) as Hp.
  set (e := run_end (length rows) rows i) in *.
  assert (e ≤ length rows) as He.
  { destruct (decide (e ≤ length rows)); [done|].
    destruct (H2 (length rows)) as (? & Hbad & _); [lia|].
    apply lookup_lt_Some in Hbad. lia. }
  rewrite length_seq. case_bool_decide; cbn; [destruct (cp || _) eqn:Hb|]; apply IH; try lia; try done.
  - unfold dispatch_order. rewrite bind_app. cbn. rewrite !app_nil_r.
    pose proof (dispatch_flush cs pending) as Hfl. unfold dispatch_order in Hfl, Ho.
    by rewrite Hfl, Ho, seq_prefix.
  - apply Forall_app. split; [by apply flush_ok|]. constructor; [|done].
    by apply batched_run_ok.
  - by rewrite app_assoc, Ho, seq_prefix.
  - by rewrite app_assoc, Ho, seq_prefix.
Qed.

(** Cohort planning for batched prefill: the planner terminates with a plan
    whose dispatch order is exactly the window order (no row dropped, repeated
    or hoisted ahead of another), and every batched cohort is a contiguous run
    of at least two cold rows, of one common prompt length on a model that
    cannot pad; a model without batched prefill gets one sequential cohort. *)
Theorem plan_prefill_cohorts_correct rows can_batch can_pad :
  ∃ cs, plan_prefill_cohorts rows can_batch can_pad = Some cs ∧
    dispatch_order cs = seq 0 (length rows) ∧
    Forall (cohort_ok rows can_pad) cs ∧
    (can_batch = false → Forall (λ c, kind c = Sequential) cs).
Proof.
  unfold plan_prefill_cohorts. destruct rows as [|r rows]; [exists []; by split_and!|].
  destruct can_batch; cbn [negb].
  - destruct (cohort_loop_spec (length (r :: rows)) (r :: rows) can_pad 0 [] [])
      as (cs & p & -> & Ho & Hok); [lia|cbn; lia|done|constructor|].
    eexists. split; [done|]. rewrite dispatch_flush. split_and!; [done| |done].
    by apply flush_ok.
  - eexists. split; [done|]. cbn. rewrite app_nil_r. split_and!; [done| |].
    + constructor; [by intros ?|constructor].
    + intros _. by repeat constructor.
Qed.
