(* ===== verification/Scheduler.v ===== *)
(** * Scheduling decisions

    [src/src/server/batch/scheduler.rs]: what the batch scheduler does with the
    queue and the active batch on each tick: the action it picks
    ([decide_action], [should_preempt]), the preemption victim and its eviction
    ([select_eviction_victim], [try_evict_for_preemption]), the chunk cursor of
    a chunked prefill ([next_chunked_prefill_range]) and the decode storage it
    selects. Allocation of a sequence's caches is the environment's answer to
    the eviction step; the model-side per-sequence tensors (MRoPE entries,
    per-layer inputs) that the step saves and re-installs are not part of the
    state. A [HashMap] iteration is an argument: any permutation of the map. *)

From S2P Require Import Prelude Sequence PrefillQueue ActiveBatch.

Inductive PreemptionPolicy := LongestFirst | LowestPriority.

(** [DecodeStorageBackend]. *)
Inductive DecodeStorageBackend := Auto | Dense | Paged.

Definition effective_decode_storage_backend (requested : DecodeStorageBackend)
    (max_batch_size : nat) (supports_batching supports_paged_decode_backend : bool) :
    DecodeStorageBackend :=
  let paged_available :=
    bool_decide (1 < max_batch_size) && supports_batching && supports_paged_decode_backend in
  match requested with
  | Auto | Paged => if paged_available then Paged else Dense
  | Dense => Dense
  end.

(** The text of the error event sent to a request's channel. *)
Inductive evict_event :=
  | EvictStateError (e : seq_error)
  | RequeueAllocFailed
  | RequeueQueueFull.

(** The part of [BatchScheduler] these operations use, with a log of the cache
    releases and of the error events they emit. *)
Record Sched := mkSched {
  active_batch : ActiveBatch;
  prefill_queue : PrefillQueue;
  chunked_prefill_seq : option SequenceInfo;
  enable_preemption : bool;
  preemption_policy : PreemptionPolicy;
  released : list N;
  errors : list (N * evict_event);
  preemptions : nat;
}.

Definition should_preempt (vs : list SequenceInfo) (s : Sched) : bool :=
  if negb (enable_preemption s) || negb (batch_is_full (active_batch s)) then false
  else
    match peek_priority (prefill_queue s) with
    | None => false
    | Some waiting_priority =>
      let min_active_priority := default High (iter_min_priority vs) in
      bool_decide (priority_rank min_active_priority < priority_rank waiting_priority)
    end.

Definition decide_action (ids : list N) (vs : list SequenceInfo) (s : Sched) :
    BatchSchedulerAction :=
  match chunked_prefill_seq s with
  | Some _ =>
    if negb (batch_is_empty (active_batch s)) then Decode ids else Prefill 0
  | None =>
    if batch_is_empty (active_batch s) && is_empty (prefill_queue s) then Idle
    else if negb (batch_is_empty (active_batch s)) then
      if should_preempt vs s then Prefill 0
      else if negb (batch_is_full (active_batch s)) && negb (is_empty (prefill_queue s))
      then Prefill 0
      else Decode ids
    else Prefill 0
  end.

(** [Iterator::max_by_key] keeps the last of several maxima, [min_by] the
    first of several minima. *)
Definition max_by_len (a b : SequenceInfo) : SequenceInfo :=
  if decide (length (generated_tokens b) < length (generated_tokens a)) then a else b.

(** [a.priority.cmp(&b.priority).then_with(|| b.len.cmp(&a.len)) == Greater]. *)
Definition evict_after (a b : SequenceInfo) : bool :=
  match Nat.compare (priority_rank (priority a)) (priority_rank (priority b)) with
  | Gt => true
  | Lt => false
  | Eq => match Nat.compare (length (generated_tokens b)) (length (generated_tokens a)) with
          | Gt => true | _ => false end
  end.

Definition min_by_priority (a b : SequenceInfo) : SequenceInfo :=
  if evict_after a b then b else a.

Definition reduce (f : SequenceInfo → SequenceInfo → SequenceInfo) (l : list SequenceInfo) :
    option SequenceInfo :=
  match l with [] => None | x :: l => Some (foldl f x l) end.

Definition unstructured (s : SequenceInfo) : bool :=
  match structured s with None => true | Some _ => false end.

Definition select_eviction_victim (vs : list SequenceInfo) (s : Sched) : option N :=
  let candidates := List.filter unstructured vs in
  seq_id <$> match preemption_policy s with
             | LongestFirst => reduce max_by_len candidates
             | LowestPriority => reduce min_by_priority candidates
             end.

(** The reset of an evicted sequence for re-prefill. The states of the sampler and
    of the thinking budget stay. *)
Definition reset_for_reprefill (v : SequenceInfo) : SequenceInfo :=
  mkSequenceInfo (seq_id v) (state v) (prompt_tokens v) (sampling v) (max_tokens v) (eos_token_ids v)
    (priority v) (vlm_embeddings v) (n_images v) [] "" [] (sampler_state v) [] 0 0 0 (thinking v) (structured v)
    (response_tx v) (cancelled v) (orphaned v).

Definition with_seq_id (id : N) (v : SequenceInfo) : SequenceInfo :=
  mkSequenceInfo id (state v) (prompt_tokens v) (sampling v) (max_tokens v) (eos_token_ids v)
    (priority v) (vlm_embeddings v) (n_images v) (generated_tokens v) (generated_text v)
    (token_history v) (sampler_state v) (merged_eos v) (prefill_offset v) (prefill_start_offset v)
    (already_cached_tokens v) (thinking v) (structured v) (response_tx v) (cancelled v) (orphaned v).

Definition set_active (b : ActiveBatch) (s : Sched) : Sched :=
  mkSched b (prefill_queue s) (chunked_prefill_seq s) (enable_preemption s)
    (preemption_policy s) (released s) (errors s) (preemptions s).
Definition set_queue (q : PrefillQueue) (s : Sched) : Sched :=
  mkSched (active_batch s) q (chunked_prefill_seq s) (enable_preemption s)
    (preemption_policy s) (released s) (errors s) (preemptions s).
Definition release_sequence_caches (id : N) (s : Sched) : Sched :=
  mkSched (active_batch s) (prefill_queue s) (chunked_prefill_seq s) (enable_preemption s)
    (preemption_policy s) (released s ++ [id]) (errors s) (preemptions s).
Definition send_error (tx : N) (e : evict_event) (s : Sched) : Sched :=
  mkSched (active_batch s) (prefill_queue s) (chunked_prefill_seq s) (enable_preemption s)
    (preemption_policy s) (released s) (errors s ++ [(tx, e)]) (preemptions s).
Definition record_preemption (s : Sched) : Sched :=
  mkSched (active_batch s) (prefill_queue s) (chunked_prefill_seq s) (enable_preemption s)
    (preemption_policy s) (released s) (errors s) (S (preemptions s)).

(** [alloc] is what [allocate_sequence_state] answers. *)
Definition try_evict_for_preemption (vs : list SequenceInfo) (alloc : option N) (s : Sched) :
    Sched * bool :=
  match select_eviction_victim vs s with
  | None => (s, false)
  | Some victim_id =>
    match remove victim_id (active_batch s) with
    | (_, None) => (s, false)
    | (b', Some victim) =>
      let s := set_active b' s in
      let s := release_sequence_caches (seq_id victim) s in
      let victim := reset_for_reprefill victim in
      match alloc with
      | Some new_id =>
        let victim := with_seq_id new_id victim in
        match transition_to Queued (state victim) with
        | (st, Ok _) =>
          let victim := set_state st victim in
          let s :=
            match enqueue victim (prefill_queue s) with
            | (q', Ok _) => set_queue q' s
            | (q', Err rejected) =>
              send_error (response_tx rejected) RequeueQueueFull
                (release_sequence_caches (seq_id rejected) (set_queue q' s))
            | (q', Panic) => set_queue q' s
            end in
          (record_preemption s, true)
        | (_, Err e) =>
          (send_error (response_tx victim) (EvictStateError e)
             (release_sequence_caches new_id s), true)
        | (_, Panic) => (s, true)
        end
      | None => (send_error (response_tx victim) RequeueAllocFailed s, true)
      end
    end
  end.

(** ** Chunked prefill *)

Record ChunkedPrefillRange := mkRange {
  range_start : nat;
  range_end : nat;
  is_terminal : bool;
}.

Definition next_chunked_prefill_range (prompt_len offset chunk_size : nat) :
    option ChunkedPrefillRange :=
  if bool_decide (chunk_size = 0) || bool_decide (prompt_len ≤ offset) then None
  else
    let e := Nat.min (offset + chunk_size) prompt_len in
    Some (mkRange offset e (bool_decide (prompt_len ≤ e))).

(** The ranges [start_chunked_prefill] and the following
    [continue_chunked_prefill] calls process: each starts at the cursor the
    previous one left in [prefill_offset], until a terminal one. *)
Fixpoint chunk_plan (fuel prompt_len offset chunk_size : nat) : list ChunkedPrefillRange :=
  match fuel with
  | 0 => []
  | S fuel' =>
    match next_chunked_prefill_range prompt_len offset chunk_size with
    | None => []
    | Some r =>
      if is_terminal r then [r]
      else r :: chunk_plan fuel' prompt_len (range_end r) chunk_size
    end
  end.

(** [&prompt_tokens[start..end]]. *)
Definition chunk_of {A} (prompt : list A) (r : ChunkedPrefillRange) : list A :=
  take (range_end r - range_start r) (drop (range_start r) prompt).

Definition should_orphan_prefill (flag_on : bool)
    (prompt_len min_tokens orphaned_count max_orphaned : nat) : bool :=
  flag_on && bool_decide (min_tokens ≤ prompt_len) && bool_decide (orphaned_count < max_orphaned).

Inductive DrainAction := NoWaiters | FailAll | RedispatchAll | PromoteOneLeader.

Definition drain_action (has_waiters healthy shutting_down : bool) : DrainAction :=
  if negb has_waiters then NoWaiters
  else if shutting_down then FailAll
  else if healthy then RedispatchAll
  else PromoteOneLeader.

(** ** Lemmas *)

Lemma batch_is_empty_size b : batch_is_empty b = true ↔ size (sequences b) = 0.
Proof. unfold batch_is_empty. by rewrite bool_decide_eq_true, map_size_empty_iff. Qed.

Lemma queue_is_empty_len q : is_empty q = true ↔ len q = 0.
Proof. destruct q as [[|??] [|??] [|??] ?]; cbn; split; done || lia. Qed.

Lemma peek_priority_empty q : peek_priority q = None ↔ is_empty q = true.
Proof. by destruct q as [[|??] [|??] [|??] ?]. Qed.

Lemma should_preempt_spec b vs s :
  batch_wf b → active_batch s = b → iteration b vs → should_preempt vs s = true →
  batch_is_full b = true ∧
  ∃ w, peek_priority (prefill_queue s) = Some w ∧
    ∃ v, v ∈ vs ∧ priority_rank (priority v) < priority_rank w ∧
      ∀ v', v' ∈ vs → priority_rank (priority v) ≤ priority_rank (priority v').
Proof.
  intros Hwf <- Hit. unfold should_preempt.
  destruct (enable_preemption s), (batch_is_full (active_batch s)); cbn; try done.
  destruct (peek_priority (prefill_queue s)) as [w|]; [|done].
  intros H%bool_decide_eq_true. split; [done|]. exists w. split; [done|].
  pose proof (iter_min_priority_spec vs) as Hm.
  destruct (iter_min_priority vs) as [p|]; cbn in H.
  - destruct Hm as [Hp Hle]. apply list_elem_of_fmap in Hp as (v & -> & Hv).
    exists v. split_and!; [done|lia|]. intros v' Hv'. by apply Hle.
  - destruct w; cbn in H; lia.
Qed.

Lemma evict_after_antisym a b : evict_after a b = true → evict_after b a = false.
Proof.
  unfold evict_after.
  destruct (Nat.compare_spec (priority_rank (priority a)) (priority_rank (priority b)));
  destruct (Nat.compare_spec (priority_rank (priority b)) (priority_rank (priority a)));
  destruct (Nat.compare_spec (length (generated_tokens a)) (length (generated_tokens b)));
  destruct (Nat.compare_spec (length (generated_tokens b)) (length (generated_tokens a)));
  try done; lia.
Qed.

(** [evict_after a b = false] is the total preorder "[a] is evicted no later
    than [b]". *)
Lemma evict_after_false a b :
  evict_after a b = false ↔
  priority_rank (priority a) < priority_rank (priority b) ∨
  (priority_rank (priority a) = priority_rank (priority b) ∧
   length (generated_tokens b) ≤ length (generated_tokens a)).
Proof.
  unfold evict_after.
  destruct (Nat.compare_spec (priority_rank (priority a)) (priority_rank (priority b)));
  destruct (Nat.compare_spec (length (generated_tokens b)) (length (generated_tokens a)));
  naive_solver lia.
Qed.

Lemma foldl_choice (f : SequenceInfo → SequenceInfo → SequenceInfo)
    (R : SequenceInfo → SequenceInfo → Prop) l x :
  (∀ a, R a a) → (∀ a b c, R a b → R b c → R a c) →
  (∀ a b, (f a b = a ∨ f a b = b) ∧ R (f a b) a ∧ R (f a b) b) →
  foldl f x l ∈ x :: l ∧ ∀ y, y ∈ x :: l → R (foldl f x l) y.
Proof.
  intros Hr Ht Hf. revert x. induction l as [|a l IH]; intros x; cbn.
  { split; [by left|]. intros y ->%list_elem_of_singleton. done. }
  destruct (IH (f x a)) as [IH1 IH2]. destruct (Hf x a) as (Hc & H1 & H2). split.
  - apply elem_of_cons in IH1 as [->|?]; [|set_solver]. destruct Hc as [->| ->]; set_solver.
  - pose proof (IH2 (f x a) ltac:(left)) as H0.
    intros y [->|[->|Hy]%elem_of_cons]%elem_of_cons; [by eauto|by eauto|].
    apply IH2. by right.
Qed.

Lemma list_filter_elem (p : SequenceInfo → bool) x l :
  x ∈ List.filter p l ↔ x ∈ l ∧ p x = true.
Proof. rewrite !list_elem_of_In. apply filter_In. Qed.

(** [v] is evicted no later than [v'] under a policy. *)
Definition evict_le (pol : PreemptionPolicy) (v v' : SequenceInfo) : Prop :=
  match pol with
  | LongestFirst => length (generated_tokens v') ≤ length (generated_tokens v)
  | LowestPriority =>
      priority_rank (priority v) < priority_rank (priority v') ∨
      (priority_rank (priority v) = priority_rank (priority v') ∧
       length (generated_tokens v') ≤ length (generated_tokens v))
  end.

Definition policy_choice (pol : PreemptionPolicy) : SequenceInfo → SequenceInfo → SequenceInfo :=
  match pol with LongestFirst => max_by_len | LowestPriority => min_by_priority end.

Lemma evict_le_refl pol a : evict_le pol a a.
Proof. destruct pol; cbn; lia. Qed.

Lemma evict_le_trans pol a b c : evict_le pol a b → evict_le pol b c → evict_le pol a c.
Proof. destruct pol; cbn; lia. Qed.

Lemma policy_choice_le pol a b :
  (policy_choice pol a b = a ∨ policy_choice pol a b = b) ∧
  evict_le pol (policy_choice pol a b) a ∧ evict_le pol (policy_choice pol a b) b.
Proof.
  destruct pol; cbn.
  - unfold max_by_len. case_decide; split_and!; auto; lia.
  - unfold min_by_priority. destruct (evict_after a b) eqn:Ea.
    + apply evict_after_antisym in Ea as Eb. apply evict_after_false in Eb.
      split_and!; auto; lia.
    + apply evict_after_false in Ea. split_and!; auto; lia.
Qed.

Lemma select_eviction_victim_alt vs s :
  select_eviction_victim vs s =
    seq_id <$> reduce (policy_choice (preemption_policy s)) (List.filter unstructured vs).
Proof. unfold select_eviction_victim. by destruct (preemption_policy s). Qed.

Lemma unstructured_spec v : unstructured v = true ↔ structured v = None.
Proof. unfold unstructured. by destruct (structured v). Qed.

Lemma select_victim_spec vs s id :
  batch_wf (active_batch s) → iteration (active_batch s) vs →
  select_eviction_victim vs s = Some id →
  ∃ v, sequences (active_batch s) !! id = Some v ∧ seq_id v = id ∧ structured v = None ∧
    ∀ v', v' ∈ vs → structured v' = None → evict_le (preemption_policy s) v v'.
Proof.
  intros Hwf Hit Hsel. rewrite select_eviction_victim_alt in Hsel.
  destruct (List.filter unstructured vs) as [|x l] eqn:E; [done|]. cbn in Hsel.
  destruct (foldl_choice (policy_choice (preemption_policy s)) (evict_le (preemption_policy s)) l x)
    as [Hin Hall]; eauto using evict_le_refl, evict_le_trans, policy_choice_le.
  rewrite <- E in Hin, Hall. simplify_eq. eexists.
  apply list_filter_elem in Hin as [Hin Hu%unstructured_spec].
  apply (iteration_elem (active_batch s) vs) in Hin; [|done|done].
  split_and!; [done|done|done|]. intros v' Hv' Hs'. apply Hall.
  apply list_filter_elem. by rewrite unstructured_spec.
Qed.

Lemma select_victim_none vs s :
  select_eviction_victim vs s = None ↔ ∀ v, v ∈ vs → structured v ≠ None.
Proof.
  rewrite select_eviction_victim_alt.
  destruct (List.filter unstructured vs) as [|x l] eqn:E; cbn; split; try done.
  - intros _ v Hv Hs. apply (not_elem_of_nil v). rewrite <- E.
    apply list_filter_elem. by rewrite unstructured_spec.
  - intros H. exfalso. assert (x ∈ List.filter unstructured vs) as Hx by (rewrite E; left).
    apply list_filter_elem in Hx as [Hx Hu%unstructured_spec]. by apply (H x).
Qed.

(** ** Properties *)

(** The action of a scheduler tick: it idles exactly when there is no
    active sequence, no queued request and no chunked prefill under way; it
    decodes only a non-empty batch; and when it prefills with active sequences
    present, the queue has a request and either the batch has room or the
    waiting request has strictly higher priority than some active sequence. *)
Theorem decide_action_correct ids vs s :
  batch_wf (active_batch s) → iteration (active_batch s) vs →
  match decide_action ids vs s with
  | Idle => size (sequences (active_batch s)) = 0 ∧ len (prefill_queue s) = 0 ∧
            chunked_prefill_seq s = None
  | Decode l => l = ids ∧ 0 < size (sequences (active_batch s)) ∧
      (chunked_prefill_seq s = None →
        len (prefill_queue s) = 0 ∨ batch_is_full (active_batch s) = true)
  | Prefill _ =>
      (is_Some (chunked_prefill_seq s) ∧ size (sequences (active_batch s)) = 0) ∨
      (0 < len (prefill_queue s) ∧
       (size (sequences (active_batch s)) = 0 ∨
        batch_is_full (active_batch s) = false ∨
        ∃ w v, peek_priority (prefill_queue s) = Some w ∧ v ∈ vs ∧
          priority_rank (priority v) < priority_rank w))
  end.
Proof.
  intros Hwf Hit. unfold decide_action.
  pose proof (batch_is_empty_size (active_batch s)) as Hb.
  pose proof (queue_is_empty_len (prefill_queue s)) as Hq.
  pose proof (peek_priority_empty (prefill_queue s)) as Hp.
  destruct (batch_is_empty (active_batch s)) eqn:Eb; cbn;
    destruct (chunked_prefill_seq s) eqn:Ec; cbn; [naive_solver| |naive_solver lia|].
  - destruct (is_empty (prefill_queue s)) eqn:Eq; cbn; naive_solver lia.
  - assert (0 < size (sequences (active_batch s))) by naive_solver lia.
    destruct (should_preempt vs s) eqn:Esp.
    + destruct (should_preempt_spec _ _ _ Hwf eq_refl Hit Esp) as (Hf & w & Hw & v & Hv & Hlt & _).
      right. split; [|eauto 8]. rewrite Hw in Hp.
      destruct (is_empty (prefill_queue s)); naive_solver lia.
    + destruct (batch_is_full (active_batch s)) eqn:Ef; cbn; [auto|].
      destruct (is_empty (prefill_queue s)) eqn:Eq; cbn; naive_solver lia.
Qed.

Definition example_sched : Sched :=
  mkSched (add (example_seq 1 Low 4) (batch_new 1)).1
    (enqueue (set_state Queued (example_seq 2 High 0)) (with_capacity 4)).1
    None true LowestPriority [] [] 0.

Lemma example_sched_wf : batch_wf (active_batch example_sched).
Proof. apply add_wf, batch_new_wf. Qed.

Lemma example_sched_iteration :
  iteration (active_batch example_sched) [example_seq 1 Low 4].
Proof. unfold iteration. vm_compute. done. Qed.

Lemma decide_action_correct_witness :
  decide_action [1%N] [example_seq 1 Low 4] example_sched = Prefill 0 ∧
  ((is_Some (chunked_prefill_seq example_sched) ∧
    size (sequences (active_batch example_sched)) = 0) ∨
   (0 < len (prefill_queue example_sched) ∧
    (size (sequences (active_batch example_sched)) = 0 ∨
     batch_is_full (active_batch example_sched) = false ∨
     ∃ w v, peek_priority (prefill_queue example_sched) = Some w ∧
       v ∈ [example_seq 1 Low 4] ∧ priority_rank (priority v) < priority_rank w))).
Proof.
  split; [by vm_compute|].
  exact (decide_action_correct [1%N] [example_seq 1 Low 4] example_sched
    example_sched_wf example_sched_iteration).
Defined.

(** What became of an evicted sequence [v]: it waits again, reset, at the back
    of its lane; or its client was told. *)
Definition requeued (v : SequenceInfo) (new_id : N) (s s' : Sched) : Prop :=
  ∃ v', lane (priority v) (prefill_queue s') = lane (priority v) (prefill_queue s) ++ [v'] ∧
    seq_id v' = new_id ∧ state v' = Queued ∧ prompt_tokens v' = prompt_tokens v ∧
    priority v' = priority v ∧ sampling v' = sampling v ∧ max_tokens v' = max_tokens v ∧
    eos_token_ids v' = eos_token_ids v ∧ vlm_embeddings v' = vlm_embeddings v ∧ n_images v' = n_images v ∧
    response_tx v' = response_tx v ∧ cancelled v' = cancelled v ∧ orphaned v' = orphaned v ∧
    generated_tokens v' = [] ∧ generated_text v' = "" ∧ token_history v' = [] ∧ merged_eos v' = [] ∧
    prefill_offset v' = 0 ∧ prefill_start_offset v' = 0 ∧ already_cached_tokens v' = 0 ∧
    sampler_state v' = sampler_state v ∧ thinking v' = thinking v.

Definition told (v : SequenceInfo) (s s' : Sched) : Prop :=
  prefill_queue s' = prefill_queue s ∧
  ∃ e, errors s' = errors s ++ [(response_tx v, e)].

Lemma evict_requeue_cases q v :
  (enqueue v q = (set_lane (priority v) (lane (priority v) q ++ [v]) q, Ok tt) ∧
   len q < max_size q) ∨
  enqueue v q = (q, Err v).
Proof.
  unfold enqueue, mbind, M_bind, get, put, throw. case_bool_decide; [by right|].
  left. split; [done|lia].
Qed.

(** C25. Preemption: with a well-formed batch, eviction happens exactly when
    some active sequence carries no structured-output constraint; then the
    victim is such a sequence, the first in the order of the configured policy
    (longest output, or lowest priority with ties broken by longest output);
    exactly that sequence leaves the batch and its caches are released; and it
    is never lost: either it waits again at the back of its priority lane, in
    state [Queued], or its client received an error event. A sequence that waits
    again has the request it came with (prompt, sampling parameters, token limit,
    images, channel, cancellation flag), no generated tokens or text, an empty
    history and prefill from the start. The states of its sampler and of its
    thinking budget are those it had when it was evicted: the former is rebuilt
    when it is next used ([kept_sampler_catches_up]), the latter is not
    ([kept_budget_is_not_enforced]). *)
Theorem preemption_correct vs alloc s :
  batch_wf (active_batch s) → iteration (active_batch s) vs →
  let '(s', evicted) := try_evict_for_preemption vs alloc s in
  (evicted = false ↔ ∀ v, v ∈ vs → structured v ≠ None) ∧
  (evicted = false → s' = s) ∧
  (evicted = true →
    ∃ v, v ∈ vs ∧ structured v = None ∧
      (∀ v', v' ∈ vs → structured v' = None → evict_le (preemption_policy s) v v') ∧
      sequences (active_batch s') = delete (seq_id v) (sequences (active_batch s)) ∧
      size (sequences (active_batch s)) = S (size (sequences (active_batch s'))) ∧
      seq_id v ∈ released s' ∧
      ((∃ new_id, alloc = Some new_id ∧ requeued v new_id s s') ∨ told v s s')).
Proof.
  intros Hwf Hit. unfold try_evict_for_preemption.
  destruct (select_eviction_victim vs s) as [id|] eqn:Esel.
  2:{ rewrite select_victim_none in Esel. naive_solver. }
  destruct (select_victim_spec vs s id Hwf Hit Esel) as (v & Hl & <- & Hns & Hle).
  assert (v ∈ vs) as Hin by by apply (iteration_elem (active_batch s)).
  unfold remove. rewrite Hl.
  assert (size (sequences (active_batch s)) =
          S (size (delete (seq_id v) (sequences (active_batch s))))) as Hsize.
  { rewrite map_size_delete_Some by eauto. assert (size (sequences (active_batch s)) ≠ 0).
    { intros H0%map_size_empty_inv. rewrite H0 in Hl. done. } lia. }
  assert (¬ ∀ v, v ∈ vs → structured v ≠ None) as Hex by naive_solver.
  destruct alloc as [new_id|]; cbn.
  2:{ split_and!; [naive_solver|done|]. intros _. exists v. split_and!; try done.
      - apply elem_of_app. right. by left.
      - right. split; [done|]. by eexists. }
  rewrite transition_to_spec. destruct (transition_valid (state v) Queued).
  2:{ split_and!; [naive_solver|done|]. intros _. exists v. split_and!; try done.
      - cbn. set_solver.
      - right. split; [done|]. by eexists. }
  destruct (evict_requeue_cases (prefill_queue s)
    (set_state Queued (with_seq_id new_id (reset_for_reprefill v)))) as [[-> _]| -> ]; cbn;
    (split_and!; [naive_solver|done|]; intros _; exists v; split_and!; try done).
  - cbn. set_solver.
  - left. exists new_id. split; [done|]. eexists. cbn. rewrite lane_set_lane, decide_True by done.
    by split_and!.
  - cbn. set_solver.
  - right. split; [done|]. by eexists.
Qed.

(** The penalty state that an evicted sequence keeps follows the new history: the
    prompt, which the state had seen. *)
Lemma kept_sampler_catches_up st h prompt :
  Sampling.in_sync st h → prompt `prefix_of` h → Sampling.in_sync (Sampling.sync st prompt) prompt.
Proof.
  intros Hs [k ->]. apply (Sampling.sync_in_sync st (prompt ++ k)); [done|].
  destruct k; [right; by rewrite app_nil_r|left; rewrite length_app; simpl; lia].
Qed.

(** The thinking budget it keeps is spent: once the block was closed, the tokens
    of the second run pass unchanged, however many they are, while a sequence that
    starts over is cut to its budget. *)
Lemma kept_budget_is_not_enforced :
  let ids := ThinkingBudget.mkIds 1 2 in
  let fresh := ThinkingBudget.new_thinking (Some ids) (Some (ThinkingBudget.Limited 1)) false in
  let evicted := foldl (λ st t, (ThinkingBudget.apply_thinking_budget st t).1) fresh [1; 7; 7; 8]%Z in
  ThinkingBudget.emitted fresh [1; 7; 7; 7; 7]%Z = [1; 7; 2; 7; 7]%Z ∧
  ThinkingBudget.emitted evicted [1; 7; 7; 7; 7]%Z = [1; 7; 7; 7; 7]%Z.
Proof. vm_compute. split; reflexivity. Qed.

Lemma preemption_correct_witness :
  let '(s', evicted) :=
    try_evict_for_preemption [example_seq 1 Low 4] (Some 9%N) example_sched in
  evicted = true ∧
  ∃ v, v ∈ [example_seq 1 Low 4] ∧
    sequences (active_batch s') = delete (seq_id v) (sequences (active_batch example_sched)) ∧
    ((∃ new_id, Some 9%N = Some new_id ∧ requeued v new_id example_sched s') ∨
     told v example_sched s').
Proof.
  pose proof (preemption_correct [example_seq 1 Low 4] (Some 9%N) example_sched
    example_sched_wf example_sched_iteration) as H.
  assert ((try_evict_for_preemption [example_seq 1 Low 4] (Some 9%N) example_sched).2 = true)
    as E by by vm_compute.
  destruct (try_evict_for_preemption _ _ _) as [s' ev]. cbn in E. subst ev.
  destruct H as (_ & _ & H). destruct (H eq_refl) as (v & Hv & _ & _ & Hd & _ & _ & Hr).
  eauto.
Defined.

(** ** The chunk cursor *)

Lemma next_range_spec n off c :
  0 < c → off < n →
  next_chunked_prefill_range n off c =
    Some (mkRange off (Nat.min (off + c) n) (bool_decide (n ≤ off + c))).
Proof.
  intros Hc Ho. unfold next_chunked_prefill_range.
  rewrite !bool_decide_eq_false_2 by lia. cbn. f_equal. f_equal.
  apply bool_decide_ext. lia.
Qed.

Lemma chunk_of_cons {A} (prompt : list A) off e t rest :
  off ≤ e → e ≤ length prompt →
  chunk_of prompt (mkRange off e t) ++ drop e prompt ++ rest = drop off prompt ++ rest.
Proof.
  intros H1 H2. unfold chunk_of. cbn. rewrite app_assoc. f_equal.
  rewrite <- (take_drop (e - off) (drop off prompt)) at 2. f_equal.
  rewrite drop_drop. f_equal. lia.
Qed.

Lemma chunk_plan_spec {A} (prompt : list A) c fuel off :
  0 < c → off < length prompt → length prompt - off ≤ fuel →
  let plan := chunk_plan fuel (length prompt) off c in
  (plan ≫= chunk_of prompt) = drop off prompt ∧
  Forall (λ r, range_start r < range_end r ≤ range_start r + c) plan ∧
  (∃ front last, plan = front ++ [last] ∧ is_terminal last = true ∧
     range_end last = length prompt ∧
     Forall (λ r, is_terminal r = false ∧ range_end r = range_start r + c) front) ∧
  (range_start <$> head plan) = Some off.
Proof.
  intros Hc. revert off. induction fuel as [|fuel IH]; intros off Ho Hf plan; [lia|].
  subst plan. cbn. rewrite next_range_spec by lia. cbn.
  case_bool_decide as Ht; cbn.
  - replace (Nat.min (off + c) (length prompt)) with (length prompt) by lia.
    pose proof (chunk_of_cons prompt off (length prompt) true [] ltac:(lia) ltac:(lia)) as Hk.
    rewrite drop_all, !app_nil_r in Hk. cbn in Hk.
    split_and!; [by rewrite app_nil_r|repeat constructor; cbn; lia| |done].
    exists [], (mkRange off (length prompt) true). by split_and!.
  - replace (Nat.min (off + c) (length prompt)) with (off + c) by lia.
    destruct (IH (off + c)) as (H1 & H2 & (front & last & H3 & H4 & H5 & H6) & H7); [lia|lia|].
    split_and!.
    + rewrite H1. pose proof (chunk_of_cons prompt off (off + c) false [] ltac:(lia) ltac:(lia)) as Hk.
      by rewrite !app_nil_r in Hk.
    + constructor; [cbn; lia|done].
    + exists (mkRange off (off + c) false :: front), last. rewrite H3.
      split_and!; [done|done|done|]. by constructor.
    + done.
Qed.

(** A chunked prefill of a prompt whose first [off] tokens are already
    cached processes the remaining tokens exactly once, in order, in non-empty
    chunks of at most [chunk_size] tokens; every chunk but the last is a full
    non-terminal chunk, the last one is terminal and ends at the prompt's end;
    and no chunk is produced for an exhausted prompt or a zero chunk size. *)
Theorem chunked_prefill_covers_suffix (prompt : list Z) off c :
  (0 < c → off < length prompt →
   let plan := chunk_plan (length prompt) (length prompt) off c in
   (plan ≫= chunk_of prompt) = drop off prompt ∧
   Forall (λ r, range_start r < range_end r ≤ range_start r + c) plan ∧
   ∃ front last, plan = front ++ [last] ∧ is_terminal last = true ∧
     range_end last = length prompt ∧
     Forall (λ r, is_terminal r = false ∧ range_end r = range_start r + c) front) ∧
  (c = 0 ∨ length prompt ≤ off → next_chunked_prefill_range (length prompt) off c = None).
Proof.
  split.
  - intros Hc Ho plan.
    destruct (chunk_plan_spec prompt c (length prompt) off Hc Ho ltac:(lia)) as (?&?&?&_).
    done.
  - intros H. unfold next_chunked_prefill_range.
    destruct H; [rewrite bool_decide_eq_true_2 by done|rewrite (bool_decide_eq_true_2 (_ ≤ _)) by done];
      [done|by rewrite orb_true_r].
Qed.

Lemma chunked_prefill_covers_suffix_witness :
  let plan := chunk_plan 5 5 1 2 in
  plan = [mkRange 1 3 false; mkRange 3 5 true] ∧
  (plan ≫= chunk_of [10; 11; 12; 13; 14]%Z) = [11; 12; 13; 14]%Z ∧
  next_chunked_prefill_range 5 5 2 = None.
Proof.
  split; [done|]. split.
  - exact (proj1 (proj1 (chunked_prefill_covers_suffix [10; 11; 12; 13; 14]%Z 1 2)
             ltac:(lia) ltac:(cbn; lia))).
  - exact (proj2 (chunked_prefill_covers_suffix [10; 11; 12; 13; 14]%Z 5 2)
             ltac:(cbn; lia)).
Defined.
