(* ===== verification/Bytes.v ===== *)
(** * Bytes and little-endian integers

    What the wire formats use of the language: bytes as [N] below 256,
    [to_le_bytes] / [from_le_bytes] at a width of [n] bytes. *)

From S2P Require Import Prelude.
Local Open Scope N_scope.

(** A byte string. *)
Definition is_byte (b : N) : Prop := b < 256.
Definition is_bytes (bs : list N) : Prop := Forall is_byte bs.

Fixpoint to_le_bytes (n : nat) (v : N) : list N :=
  match n with
  | O => []
  | S n' => (v mod 256) :: to_le_bytes n' (v / 256)
  end.

Fixpoint from_le_bytes (bs : list N) : N :=
  match bs with
  | [] => 0
  | b :: r => b + 256 * from_le_bytes r
  end.

(** [buf[a..b]], a panic when out of range. *)
Definition slice_bytes {A} (a b : nat) (buf : list A) : option (list A) :=
  if decide (a ≤ b ∧ b ≤ length buf)%nat then Some (take (b - a) (drop a buf)) else None.

Lemma length_to_le_bytes n v : length (to_le_bytes n v) = n.
Proof. revert v. induction n; intros v; cbn; auto. Qed.

Lemma to_le_bytes_are_bytes n v : is_bytes (to_le_bytes n v).
Proof.
  revert v. induction n as [|n IH]; intros v; cbn; constructor; [|apply IH].
  apply N.mod_lt. done.
Qed.

Lemma from_to_le_bytes n v : v < 256 ^ N.of_nat n → from_le_bytes (to_le_bytes n v) = v.
Proof.
  revert v. induction n as [|n IH]; intros v Hv; cbn [to_le_bytes from_le_bytes].
  { change (256 ^ N.of_nat 0) with 1 in Hv. lia. }
  rewrite Nat2N.inj_succ, N.pow_succ_r' in Hv. rewrite IH.
  - pose proof (N.div_mod' v 256). lia.
  - apply N.Div0.div_lt_upper_bound. lia.
Qed.

Lemma from_le_bytes_bound bs :
  is_bytes bs → from_le_bytes bs < 256 ^ N.of_nat (length bs).
Proof.
  induction 1 as [|b bs Hb _ IH]; [done|]. unfold is_byte in Hb. cbn [from_le_bytes length].
  rewrite Nat2N.inj_succ, N.pow_succ_r'. lia.
Qed.

Lemma to_from_le_bytes bs : is_bytes bs → to_le_bytes (length bs) (from_le_bytes bs) = bs.
Proof.
  induction 1 as [|b bs Hb Hbs IH]; [done|]. unfold is_byte in Hb.
  cbn [from_le_bytes length to_le_bytes].
  f_equal.
  - rewrite N.mul_comm, N.Div0.mod_add. by apply N.mod_small.
  - rewrite N.mul_comm, N.div_add by done. rewrite (N.div_small b) by done. by rewrite N.add_0_l.
Qed.

Lemma slice_bytes_app_l {A} (p x s : list A) a b :
  length p = a → length (p ++ x) = b → slice_bytes a b (p ++ x ++ s) = Some x.
Proof.
  intros <- <-. unfold slice_bytes. rewrite decide_True.
  - rewrite drop_app_length, length_app.
    replace (length p + length x - length p)%nat with (length x) by lia.
    by rewrite take_app_length.
  - rewrite !length_app. lia.
Qed.

Lemma slice_bytes_Some {A} a b (buf x : list A) :
  slice_bytes a b buf = Some x →
  (a ≤ b ≤ length buf)%nat ∧ length x = (b - a)%nat ∧ x = take (b - a) (drop a buf).
Proof.
  unfold slice_bytes. case_decide as H; [|done]. intros; simplify_eq.
  rewrite length_take, length_drop. split_and!; lia || done.
Qed.

(** ** Disjoint bit fields *)

Lemma land_low_high a b n : a < 2 ^ n → N.land a (N.shiftl b n) = 0.
Proof.
  intros Ha. apply N.bits_inj. intros i. rewrite N.land_spec, N.bits_0.
  destruct (N.lt_ge_cases i n).
  - rewrite N.shiftl_spec_low by done. apply andb_false_r.
  - destruct (decide (a = 0)) as [->|]; [by rewrite N.bits_0|].
    rewrite N.bits_above_log2; [done|]. apply N.log2_lt_pow2 in Ha; lia.
Qed.

Lemma lor_low_high a b n : a < 2 ^ n → N.lor a (N.shiftl b n) = a + b * 2 ^ n.
Proof.
  intros Ha. pose proof (land_low_high a b n Ha) as H0.
  rewrite <- N.lxor_lor, <- N.add_nocarry_lxor by done. by rewrite N.shiftl_mul_pow2.
Qed.

Lemma lt_pow2_shiftr a n : a < 2 ^ n ↔ N.shiftr a n = 0.
Proof. rewrite N.shiftr_div_pow2. symmetry. apply N.div_small_iff. by apply N.pow_nonzero. Qed.

Lemma lor_lt a b n : a < 2 ^ n → b < 2 ^ n → N.lor a b < 2 ^ n.
Proof. rewrite !lt_pow2_shiftr, N.shiftr_lor. by intros -> ->. Qed.
