(* ===== verification/Pack3.v ===== *)
(** * 3-bit index packing

    [src/src/lib/mlxcel-core/src/cache/turbo/pack3.rs]: 8 coordinates of 3 bits
    in 3 bytes. A buffer is a list of [N] below 256; the [u32] word is an [N];
    the output slice a function fills is its result, with the length the
    [assert_eq!] demands as an argument. A failed [assert!] is [Panic]. *)

From S2P Require Import Prelude Bytes.
Local Open Scope N_scope.

Definition COORDS_PER_GROUP : nat := 8.
Definition BYTES_PER_GROUP : nat := 3.
Definition V_BIT_WIDTH_3 : Z := 3.

(** [packed_bytes_per_token_3bit], on an [i32]. *)
Definition packed_bytes_per_token_3bit (head_dim : Z) : outcome Empty_set Z :=
  if bool_decide (0 < head_dim)%Z && bool_decide (Z.to_nat head_dim `mod` COORDS_PER_GROUP = 0)%nat
  then Ok (Z.quot (head_dim * V_BIT_WIDTH_3) 8) else Panic.

(** The inner [for k] loop: [word |= ((idx & 7) as u32) << (k * 3)]. *)
Fixpoint pack_word (k : nat) (idx : list N) (word : N) : N :=
  match idx with
  | [] => word
  | i :: r => pack_word (S k) r (N.lor word (N.shiftl (N.land i 7) (N.of_nat (k * 3))))
  end.

Definition pack_group (idx : list N) : list N :=
  let word := pack_word 0 idx 0 in
  [N.land word 255; N.land (N.shiftr word 8) 255; N.land (N.shiftr word 16) 255].

(** The [for g] loop over whole groups of 8. *)
Fixpoint pack_groups (n_groups : nat) (indices : list N) : list N :=
  match n_groups with
  | O => []
  | S n => pack_group (take COORDS_PER_GROUP indices)
           ++ pack_groups n (drop COORDS_PER_GROUP indices)
  end.

Definition pack_3bit_indices (indices : list N) (out_len : nat) : outcome Empty_set (list N) :=
  if bool_decide (length indices `mod` COORDS_PER_GROUP = 0)%nat then
    let n_groups := (length indices `div` COORDS_PER_GROUP)%nat in
    if bool_decide (out_len = n_groups * BYTES_PER_GROUP)%nat
    then Ok (pack_groups n_groups indices) else Panic
  else Panic.

Definition unpack_word (b0 b1 b2 : N) : N :=
  N.lor (N.lor b0 (N.shiftl b1 8)) (N.shiftl b2 16).

Definition unpack_group (g : list N) : list N :=
  match g with
  | [b0; b1; b2] =>
    let word := unpack_word b0 b1 b2 in
    (λ k, N.land (N.shiftr word (N.of_nat (k * 3))) 7) <$> seq 0 COORDS_PER_GROUP
  | _ => []
  end.

Fixpoint unpack_groups (n_groups : nat) (packed : list N) : list N :=
  match n_groups with
  | O => []
  | S n => unpack_group (take BYTES_PER_GROUP packed)
           ++ unpack_groups n (drop BYTES_PER_GROUP packed)
  end.

Definition unpack_3bit_indices (packed : list N) (out_len : nat) : outcome Empty_set (list N) :=
  if bool_decide (length packed `mod` BYTES_PER_GROUP = 0)%nat then
    let n_groups := (length packed `div` BYTES_PER_GROUP)%nat in
    if bool_decide (out_len = n_groups * COORDS_PER_GROUP)%nat
    then Ok (unpack_groups n_groups packed) else Panic
  else Panic.

(** The per-token loop shared by the two wrappers: apply [f] to consecutive
    [stride]-element windows, each into an [out]-byte window. *)
Fixpoint per_token_loop (f : list N → nat → outcome Empty_set (list N))
    (total_tokens stride out : nat) (buf : list N) : outcome Empty_set (list N) :=
  match total_tokens with
  | O => Ok []
  | S n =>
    x ← f (take stride buf) out;
    r ← per_token_loop f n stride out (drop stride buf);
    Ok (x ++ r)
  end.

Definition pack_3bit_per_token (indices : list N) (head_dim : Z) (total_tokens : nat) :
    outcome Empty_set (list N) :=
  bytes_per_token ← packed_bytes_per_token_3bit head_dim;
  let coords_per_token := Z.to_nat head_dim in
  if bool_decide (length indices = total_tokens * coords_per_token)%nat
  then per_token_loop pack_3bit_indices total_tokens coords_per_token
         (Z.to_nat bytes_per_token) indices
  else Panic.

Definition unpack_3bit_per_token (packed : list N) (head_dim : Z) (total_tokens : nat) :
    outcome Empty_set (list N) :=
  bytes_per_token ← packed_bytes_per_token_3bit head_dim;
  let coords_per_token := Z.to_nat head_dim in
  if bool_decide (length packed = total_tokens * Z.to_nat bytes_per_token)%nat
  then per_token_loop unpack_3bit_indices total_tokens (Z.to_nat bytes_per_token)
         coords_per_token packed
  else Panic.

(** ** One group *)

(** The word a group packs to, as a number. *)
Fixpoint word_of (idx : list N) : N :=
  match idx with [] => 0 | i :: r => i mod 8 + 8 * word_of r end.

Lemma land_7 i : N.land i 7 = i mod 8.
Proof. apply (N.land_ones i 3). Qed.

Lemma land_255 i : N.land i 255 = i mod 256.
Proof. apply (N.land_ones i 8). Qed.

Lemma pack_word_spec idx : ∀ k word,
  word < 8 ^ N.of_nat k → pack_word k idx word = word + word_of idx * 8 ^ N.of_nat k.
Proof.
  induction idx as [|i idx IH]; intros k word Hw; cbn [pack_word word_of]; [lia|].
  assert (8 ^ N.of_nat k = 2 ^ N.of_nat (k * 3)) as Hp.
  { change 8 with (2 ^ 3) at 1. rewrite <- N.pow_mul_r. f_equal. lia. }
  assert (i mod 8 < 8) by by apply N.mod_lt.
  assert (8 ^ N.of_nat (S k) = 8 * 8 ^ N.of_nat k) as Hs
    by by rewrite Nat2N.inj_succ, N.pow_succ_r'.
  rewrite land_7, lor_low_high, <- Hp by (by rewrite <- Hp).
  rewrite IH; [rewrite Hs; lia|]. rewrite Hs. nia.
Qed.

Lemma word_of_bound idx : word_of idx < 8 ^ N.of_nat (length idx).
Proof.
  induction idx as [|i idx IH]; [done|]. cbn [word_of length].
  assert (i mod 8 < 8) by by apply N.mod_lt.
  rewrite Nat2N.inj_succ, N.pow_succ_r'. lia.
Qed.

Lemma word_of_digit idx k :
  word_of idx / 8 ^ N.of_nat k mod 8 = default 0 (idx !! k) mod 8.
Proof.
  revert k. induction idx as [|i idx IH]; intros k; cbn [word_of].
  { rewrite N.Div0.div_0_l. by destruct k. }
  assert (i mod 8 < 8) as Hi by by apply N.mod_lt.
  destruct k as [|k]; cbn [lookup list_lookup].
  - cbn. rewrite N.div_1_r. rewrite N.mul_comm, N.Div0.mod_add. by rewrite N.Div0.mod_mod.
  - rewrite <- IH. rewrite Nat2N.inj_succ, N.pow_succ_r'.
    rewrite <- N.Div0.div_div. f_equal. f_equal.
    rewrite N.mul_comm, N.div_add by done. by rewrite (N.div_small (i mod 8)).
Qed.

(** Three bytes of a 24-bit word put back together. *)
Lemma unpack_word_split w :
  w < 2 ^ 24 →
  unpack_word (w mod 256) (w / 256 mod 256) (w / 65536 mod 256) = w.
Proof.
  intros Hw. unfold unpack_word.
  assert (w mod 256 < 256) by by apply N.mod_lt.
  assert (w / 256 mod 256 < 256) by by apply N.mod_lt.
  rewrite (lor_low_high (w mod 256)) by done.
  rewrite lor_low_high by (change (2 ^ 8) with 256; change (2 ^ 16) with 65536; lia).
  change (2 ^ 8) with 256. change (2 ^ 16) with 65536.
  assert (w / 65536 < 256) by (apply N.Div0.div_lt_upper_bound; done).
  rewrite (N.mod_small (w / 65536)) by done.
  pose proof (N.div_mod' w 256). pose proof (N.div_mod' (w / 256) 256) as H3.
  rewrite N.Div0.div_div in H3. change (256 * 256) with 65536 in H3. lia.
Qed.

Lemma pack_group_bytes idx :
  length idx = 8%nat →
  pack_group idx =
    [word_of idx mod 256; word_of idx / 256 mod 256; word_of idx / 65536 mod 256].
Proof.
  intros Hl. unfold pack_group. rewrite pack_word_spec by done.
  rewrite !land_255, !N.shiftr_div_pow2. change (8 ^ N.of_nat 0) with 1.
  by rewrite N.add_0_l, N.mul_1_r.
Qed.

Lemma unpack_pack_group idx :
  length idx = 8%nat → unpack_group (pack_group idx) = (λ i, i mod 8) <$> idx.
Proof.
  intros Hl. rewrite pack_group_bytes by done. cbn [unpack_group].
  pose proof (word_of_bound idx) as Hb. rewrite Hl in Hb.
  rewrite unpack_word_split by done.
  apply list_eq. intros k. rewrite !list_lookup_fmap.
  destruct (decide (k < 8)%nat) as [Hk|Hk].
  - rewrite lookup_seq_lt by done. cbn [fmap option_fmap option_map].
    rewrite land_7, N.shiftr_div_pow2.
    replace (2 ^ N.of_nat ((0 + k) * 3)) with (8 ^ N.of_nat k).
    2:{ change 8 with (2 ^ 3) at 1. rewrite <- N.pow_mul_r. f_equal. lia. }
    rewrite word_of_digit.
    destruct (lookup_lt_is_Some_2 idx k) as [x Hx]; [lia|]. by rewrite Hx.
  - rewrite lookup_seq_ge by (unfold COORDS_PER_GROUP; lia). by rewrite lookup_ge_None_2 by lia.
Qed.

Lemma length_unpack_group g : length g = 3%nat → length (unpack_group g) = 8%nat.
Proof. by destruct g as [|? [|? [|? [|]]]]. Qed.

(** ** Whole buffers *)

Lemma length_pack_groups n idx : length (pack_groups n idx) = (n * BYTES_PER_GROUP)%nat.
Proof.
  revert idx. induction n as [|n IH]; intros idx; [done|].
  cbn [pack_groups]. rewrite length_app, IH. done.
Qed.

Lemma pack_groups_bytes n idx : is_bytes (pack_groups n idx).
Proof.
  revert idx. induction n as [|n IH]; intros idx; cbn [pack_groups]; [constructor|].
  apply Forall_app. split; [|apply IH]. unfold pack_group, is_byte.
  repeat constructor; rewrite land_255; by apply N.mod_lt.
Qed.

Lemma unpack_pack_groups n : ∀ idx,
  length idx = (n * COORDS_PER_GROUP)%nat →
  unpack_groups n (pack_groups n idx) = (λ i, i mod 8) <$> idx.
Proof.
  induction n as [|n IH]; intros idx Hl.
  { apply nil_length_inv in Hl as ->. done. }
  cbn [pack_groups unpack_groups]. unfold COORDS_PER_GROUP in *.
  rewrite take_app_length', drop_app_length' by done.
  rewrite unpack_pack_group by (rewrite length_take; lia).
  rewrite IH by (rewrite length_drop; lia).
  by rewrite <- fmap_app, take_drop.
Qed.

Lemma pack_3bit_ok idx n :
  length idx = (n * COORDS_PER_GROUP)%nat →
  pack_3bit_indices idx (n * BYTES_PER_GROUP) = Ok (pack_groups n idx).
Proof.
  intros Hl. unfold pack_3bit_indices. rewrite Hl.
  rewrite Nat.Div0.mod_mul, Nat.div_mul by done.
  by rewrite !bool_decide_eq_true_2.
Qed.

Lemma unpack_3bit_ok pk n :
  length pk = (n * BYTES_PER_GROUP)%nat →
  unpack_3bit_indices pk (n * COORDS_PER_GROUP) = Ok (unpack_groups n pk).
Proof.
  intros Hl. unfold unpack_3bit_indices. rewrite Hl.
  rewrite Nat.Div0.mod_mul, Nat.div_mul by done.
  by rewrite !bool_decide_eq_true_2.
Qed.

(** The head dimension of [g] groups. *)
Lemma packed_bytes_spec hd :
  match packed_bytes_per_token_3bit hd with
  | Ok b => ∃ g, (0 < g)%nat ∧ hd = Z.of_nat (g * COORDS_PER_GROUP) ∧
                 b = Z.of_nat (g * BYTES_PER_GROUP)
  | Err _ => False
  | Panic => ¬ (0 < hd ∧ (8 | hd))%Z
  end.
Proof.
  unfold packed_bytes_per_token_3bit, COORDS_PER_GROUP, BYTES_PER_GROUP, V_BIT_WIDTH_3.
  case_bool_decide as H1; cbn [andb]; [case_bool_decide as H2|]; [| |naive_solver].
  - exists (Z.to_nat hd / 8)%nat. pose proof (Nat.div_mod_eq (Z.to_nat hd) 8) as Hd.
    rewrite H2 in Hd. split_and!; [lia|lia|].
    rewrite Z.quot_div_nonneg by lia.
    replace (hd * 3)%Z with (Z.of_nat (Z.to_nat hd / 8 * 3) * 8)%Z by lia.
    by rewrite Z.div_mul.
  - intros [_ [q Hq]]. apply H2. rewrite Hq. rewrite Z2Nat.inj_mul by lia.
    apply Nat.Div0.mod_mul.
Qed.

Lemma per_token_roundtrip g t : ∀ idx,
  length idx = (t * (g * COORDS_PER_GROUP))%nat →
  ∃ pk, per_token_loop pack_3bit_indices t (g * COORDS_PER_GROUP) (g * BYTES_PER_GROUP) idx = Ok pk ∧
    length pk = (t * (g * BYTES_PER_GROUP))%nat ∧ is_bytes pk ∧
    per_token_loop unpack_3bit_indices t (g * BYTES_PER_GROUP) (g * COORDS_PER_GROUP) pk =
      Ok ((λ i, i mod 8) <$> idx).
Proof.
  induction t as [|t IH]; intros idx Hl.
  { exists []. apply nil_length_inv in Hl as ->. split_and!; done || constructor. }
  cbn [per_token_loop]. set (c := (g * COORDS_PER_GROUP)%nat) in *.
  assert (length (take c idx) = c) as Ht by (rewrite length_take; nia).
  rewrite (pack_3bit_ok (take c idx) g) by done.
  destruct (IH (drop c idx)) as (pk & E & Hpl & Hb & Hu); [rewrite length_drop; nia|].
  cbn [mbind outcome_bind]. rewrite E. cbn [mbind outcome_bind]. eexists. split; [done|].
  pose proof (length_pack_groups g (take c idx)) as Hpg.
  split_and!.
  - rewrite length_app, Hpg. lia.
  - apply Forall_app. split; [apply pack_groups_bytes|done].
  - rewrite take_app_length', drop_app_length' by done.
    subst c. rewrite unpack_3bit_ok by done. cbn [mbind outcome_bind].
    rewrite unpack_pack_groups by done. rewrite Hu. cbn [mbind outcome_bind].
    by rewrite <- fmap_app, take_drop.
Qed.

(** 3-bit packing of a token block: for a head dimension that is a
    positive multiple of 8, packing [total_tokens * head_dim] indices succeeds
    with exactly [3/8] of a byte per index, every output a byte, and unpacking
    gives back every index modulo 8 (so the indices themselves when they are
    below 8); for any other head dimension, and for a buffer of the wrong
    length, both directions panic instead of mis-sizing a buffer. *)
Theorem pack3_roundtrip (indices : list N) (hd : Z) (t : nat) :
  ((0 < hd)%Z ∧ (8 | hd)%Z ∧ length indices = (t * Z.to_nat hd)%nat →
   ∃ pk, pack_3bit_per_token indices hd t = Ok pk ∧
     (length pk * 8 = length indices * 3)%nat ∧ is_bytes pk ∧
     unpack_3bit_per_token pk hd t = Ok ((λ i, i mod 8) <$> indices) ∧
     (Forall (λ i, i < 8) indices → unpack_3bit_per_token pk hd t = Ok indices)) ∧
  (¬ (0 < hd ∧ (8 | hd))%Z ∨ length indices ≠ (t * Z.to_nat hd)%nat →
   pack_3bit_per_token indices hd t = Panic).
Proof.
  unfold pack_3bit_per_token, unpack_3bit_per_token.
  pose proof (packed_bytes_spec hd) as Hp.
  destruct (packed_bytes_per_token_3bit hd) as [b| |]; cbn [mbind outcome_bind]; [|done|naive_solver].
  destruct Hp as (g & Hg & -> & ->). rewrite !Nat2Z.id. split.
  - intros (_ & _ & Hl).
    destruct (per_token_roundtrip g t indices Hl) as (pk & E & Hpl & Hb & Hu).
    exists pk. rewrite bool_decide_eq_true_2 by done. rewrite (bool_decide_eq_true_2 (length pk = _)) by done.
    split_and!; [done| |done|done|].
    + rewrite Hl, Hpl. unfold BYTES_PER_GROUP, COORDS_PER_GROUP. lia.
    + intros Hlt. rewrite Hu. f_equal. rewrite <- (list_fmap_id indices) at 2.
      apply list_fmap_ext. intros i x Hx. apply N.mod_small.
      exact (Forall_lookup_1 _ _ _ _ Hlt Hx).
  - intros [H|H]; [|by rewrite bool_decide_eq_false_2].
    exfalso. apply H. split; [unfold COORDS_PER_GROUP; lia|]. exists (Z.of_nat g).
    unfold COORDS_PER_GROUP. lia.
Qed.

Lemma pack3_roundtrip_witness :
  ((0 < 8)%Z ∧ (8 | 8)%Z) ∧
  ∃ pk, pack_3bit_per_token [0; 1; 2; 3; 4; 5; 6; 7] 8 1 = Ok pk ∧
    unpack_3bit_per_token pk 8 1 = Ok [0; 1; 2; 3; 4; 5; 6; 7] ∧
    pack_3bit_per_token [] 7 0 = Panic.
Proof.
  assert ((0 < 8)%Z ∧ (8 | 8)%Z) as H8 by (split; [lia|by exists 1%Z]).
  split; [done|].
  destruct (proj1 (pack3_roundtrip [0; 1; 2; 3; 4; 5; 6; 7] 8 1)) as (pk & H1 & _ & _ & _ & H2).
  { destruct H8. by split_and!. }
  exists pk. split; [done|]. split; [apply H2; repeat constructor|].
  apply (proj2 (pack3_roundtrip [] 7 0)). left. intros [_ [q Hq]]. lia.
Defined.
