(* ===== verification/WireHeader.v ===== *)
(** * Tensor wire headers and chunk frames

    [src/src/distributed/tensor_protocol.rs]: the little-endian header that
    precedes a tensor and the frame of one chunk. A byte is an [N] below 256,
    the integers of the format are [N]s of their width; an index or slice
    expression out of range is a [Panic], an [expect] too. *)

From S2P Require Import Prelude Bytes.
Local Open Scope N_scope.

Definition PROTOCOL_VERSION : N := 1.
Definition MAX_NDIM : N := 32.
Definition MAX_METADATA_LEN : N := 16777216.
Definition FIXED_SIZE : nat := 8.

(** [TensorFlags]. *)
Definition FLAG_COMPRESSED : N := 1.
Definition FLAG_QUANTIZED : N := 2.
Definition FLAG_CHUNKED : N := 4.
Definition flags_set (flags flag : N) : N := N.lor flags flag.
Definition flags_is_set (flags flag : N) : bool := negb (N.land flags flag =? 0).

Inductive TensorKind := KVCache | Activation | WeightShard.

Definition kind_to_u8 (k : TensorKind) : N :=
  match k with KVCache => 0 | Activation => 1 | WeightShard => 2 end.

Definition kind_try_from (v : N) : option TensorKind :=
  match v with 0 => Some KVCache | 1 => Some Activation | 2 => Some WeightShard | _ => None end.

Inductive TensorDtype :=
  | Float32 | Float16 | BFloat16 | Int32 | Int16 | Int8 | UInt8 | Bool | Int4.

Global Instance TensorDtype_eq_dec : EqDecision TensorDtype.
Proof. solve_decision. Defined.

Definition dtype_to_u8 (d : TensorDtype) : N :=
  match d with
  | Float32 => 0 | Float16 => 1 | BFloat16 => 2 | Int32 => 3 | Int16 => 4
  | Int8 => 5 | UInt8 => 6 | Bool => 7 | Int4 => 8
  end.

Definition dtype_try_from (v : N) : option TensorDtype :=
  match v with
  | 0 => Some Float32 | 1 => Some Float16 | 2 => Some BFloat16 | 3 => Some Int32
  | 4 => Some Int16 | 5 => Some Int8 | 6 => Some UInt8 | 7 => Some Bool | 8 => Some Int4
  | _ => None
  end.

Definition element_size (d : TensorDtype) : N :=
  match d with
  | Float32 | Int32 => 4
  | Float16 | BFloat16 | Int16 => 2
  | Int8 | UInt8 | Bool => 1
  | Int4 => 0
  end.

Record TensorHeader := mkHeader {
  version : N;
  flags : N;
  kind : TensorKind;
  dtype : TensorDtype;
  shape : list N;
  metadata : list N;
  data_len : N;
}.

Inductive wire_error :=
  | HeaderTooShort | UnsupportedVersion (v : N) | UnknownKind (v : N) | UnknownDtype (v : N)
  | NdimTooLarge (n : N) | ShortForShape | MetadataTooLarge (n : N) | MetadataOverflow
  | ShortForMetadata | FrameTooShort | FrameTruncated.

Abbreviation wire := (outcome wire_error).

Definition at_ {E} (i : nat) (buf : list N) : outcome E N :=
  match buf !! i with Some b => Ok b | None => Panic end.
Definition sub_ {E} (a b : nat) (buf : list N) : outcome E (list N) :=
  match slice_bytes a b buf with Some x => Ok x | None => Panic end.

(** [try_fold(1, checked_mul)]. *)
Definition checked_mul_u64 (a b : N) : option N :=
  if a * b <=? u64_max then Some (a * b) else None.
Definition checked_product (s : list N) : option N :=
  foldl (λ acc d, a ← acc; checked_mul_u64 a d) (Some 1) s.

(** [TensorHeader::num_elements]. *)
Definition num_elements (h : TensorHeader) : N := default u64_max (checked_product (shape h)).

(** [TensorHeader::encode]; the two [u32::try_from(..).expect(..)] panic. *)
Definition encode (h : TensorHeader) : wire (list N) :=
  let ndim := N.of_nat (length (shape h)) in
  let metadata_len := N.of_nat (length (metadata h)) in
  if bool_decide (u32_max < ndim) || bool_decide (u32_max < metadata_len) then Panic
  else Ok ([version h; flags h; kind_to_u8 (kind h); dtype_to_u8 (dtype h)]
           ++ to_le_bytes 4 ndim
           ++ (shape h ≫= to_le_bytes 8)
           ++ to_le_bytes 4 metadata_len
           ++ metadata h
           ++ to_le_bytes 8 (data_len h)).

(** The [for i in 0..ndim] loop. *)
Fixpoint decode_shape (i : nat) (n : nat) (buf : list N) : wire (list N) :=
  match n with
  | O => Ok []
  | S n' =>
    let offset := (FIXED_SIZE + i * 8)%nat in
    b ← sub_ offset (offset + 8) buf;
    r ← decode_shape (S i) n' buf;
    Ok (from_le_bytes b :: r)
  end.

Definition decode (buf : list N) : wire (TensorHeader * nat) :=
  if decide (length buf < FIXED_SIZE)%nat then Err HeaderTooShort else
  version ← at_ 0 buf;
  if negb (version =? PROTOCOL_VERSION) then Err (UnsupportedVersion version) else
  flags ← at_ 1 buf;
  k ← at_ 2 buf;
  match kind_try_from k with
  | None => Err (UnknownKind k)
  | Some kind =>
    d ← at_ 3 buf;
    match dtype_try_from d with
    | None => Err (UnknownDtype d)
    | Some dtype =>
      nd ← sub_ 4 8 buf;
      let ndim := from_le_bytes nd in
      if MAX_NDIM <? ndim then Err (NdimTooLarge ndim) else
      let shape_end := (FIXED_SIZE + N.to_nat ndim * 8)%nat in
      if decide (length buf < shape_end + 4)%nat then Err ShortForShape else
      shape ← decode_shape 0 (N.to_nat ndim) buf;
      ml ← sub_ shape_end (shape_end + 4) buf;
      let metadata_len := from_le_bytes ml in
      if MAX_METADATA_LEN <? metadata_len then Err (MetadataTooLarge metadata_len) else
      let metadata_end := N.of_nat shape_end + 4 + metadata_len in
      if u64_max <? metadata_end then Err MetadataOverflow else
      if N.of_nat (length buf) <? metadata_end + 8 then Err ShortForMetadata else
      let metadata_end := N.to_nat metadata_end in
      metadata ← sub_ (shape_end + 4) metadata_end buf;
      dl ← sub_ metadata_end (metadata_end + 8) buf;
      Ok (mkHeader version flags kind dtype shape metadata (from_le_bytes dl),
          (metadata_end + 8)%nat)
    end
  end.

Record ChunkFrame := mkFrame {
  chunk_index : N;
  total_chunks : N;
  chunk_data : list N;
}.

Global Instance ChunkFrame_eq_dec : EqDecision ChunkFrame.
Proof. solve_decision. Defined.

(** [data.len() as u32] truncates. *)
Definition frame_encode (f : ChunkFrame) : list N :=
  to_le_bytes 4 (chunk_index f) ++ to_le_bytes 4 (total_chunks f)
  ++ to_le_bytes 4 (as_u32 (N.of_nat (length (chunk_data f)))) ++ chunk_data f.

Definition frame_decode (buf : list N) : wire ChunkFrame :=
  if decide (length buf < 12)%nat then Err FrameTooShort else
  ci ← sub_ 0 4 buf;
  tc ← sub_ 4 8 buf;
  cl ← sub_ 8 12 buf;
  let chunk_len := from_le_bytes cl in
  if N.of_nat (length buf) <? 12 + chunk_len then Err FrameTruncated else
  data ← sub_ 12 (12 + N.to_nat chunk_len) buf;
  Ok (mkFrame (from_le_bytes ci) (from_le_bytes tc) data).

(** ** Well-formed values *)

(** The values the field types and the format's limits allow. *)
Definition header_wf (h : TensorHeader) : Prop :=
  version h = PROTOCOL_VERSION ∧ is_byte (flags h) ∧
  N.of_nat (length (shape h)) ≤ MAX_NDIM ∧ Forall (λ d, d < 2 ^ 64) (shape h) ∧
  N.of_nat (length (metadata h)) ≤ MAX_METADATA_LEN ∧ is_bytes (metadata h) ∧
  data_len h < 2 ^ 64.

Definition frame_wf (f : ChunkFrame) : Prop :=
  chunk_index f < 2 ^ 32 ∧ total_chunks f < 2 ^ 32 ∧
  N.of_nat (length (chunk_data f)) < 2 ^ 32 ∧ is_bytes (chunk_data f).

(** The bytes of a header in the order of the format. *)
Definition header_bytes (h : TensorHeader) : list N :=
  [version h; flags h; kind_to_u8 (kind h); dtype_to_u8 (dtype h)]
  ++ to_le_bytes 4 (N.of_nat (length (shape h)))
  ++ (shape h ≫= to_le_bytes 8)
  ++ to_le_bytes 4 (N.of_nat (length (metadata h)))
  ++ metadata h
  ++ to_le_bytes 8 (data_len h).

Lemma kind_roundtrip k : kind_try_from (kind_to_u8 k) = Some k.
Proof. by destruct k. Qed.
Lemma dtype_roundtrip d : dtype_try_from (dtype_to_u8 d) = Some d.
Proof. by destruct d. Qed.

Lemma kind_try_from_Some v k : kind_try_from v = Some k → v = kind_to_u8 k.
Proof.
  unfold kind_try_from. destruct v as [|p]; [naive_solver|].
  destruct p as [p|p|]; try destruct p; naive_solver.
Qed.

Lemma dtype_try_from_Some v d : dtype_try_from v = Some d → v = dtype_to_u8 d.
Proof.
  unfold dtype_try_from. destruct v as [|p]; [naive_solver|].
  do 4 (try destruct p as [p|p|]); naive_solver.
Qed.

Lemma length_shape_bytes s : length (s ≫= to_le_bytes 8) = (length s * 8)%nat.
Proof.
  induction s as [|d s IH]; [done|]. rewrite bind_cons, length_app, IH, length_to_le_bytes.
  cbn. lia.
Qed.

Lemma length_header_bytes h :
  length (header_bytes h) = (20 + length (shape h) * 8 + length (metadata h))%nat.
Proof.
  unfold header_bytes. rewrite !length_app, length_shape_bytes, !length_to_le_bytes. cbn. lia.
Qed.

Lemma sub_app {E} (p x s : list N) a b :
  length p = a → (length p + length x)%nat = b → @sub_ E a b (p ++ x ++ s) = Ok x.
Proof.
  intros Ha Hb. unfold sub_. rewrite (slice_bytes_app_l p x s); [done|done|].
  by rewrite length_app.
Qed.

Lemma sub_app_0 {E} (x s : list N) b : length x = b → @sub_ E 0 b (x ++ s) = Ok x.
Proof. intros Hb. by apply (sub_app [] x s). Qed.

Lemma decode_shape_app s : ∀ i pre rest,
  length pre = (FIXED_SIZE + i * 8)%nat → Forall (λ d, d < 2 ^ 64) s →
  decode_shape i (length s) (pre ++ (s ≫= to_le_bytes 8) ++ rest) = Ok s.
Proof.
  induction s as [|d s IH]; intros i pre rest Hp Hs; [done|].
  inversion Hs as [|? ? Hd Hs']; subst. cbn [length decode_shape].
  rewrite bind_cons, <- app_assoc.
  rewrite (sub_app pre (to_le_bytes 8 d)) by (rewrite ?length_to_le_bytes; lia).
  cbn [mbind outcome_bind]. rewrite app_assoc.
  rewrite IH; [|rewrite length_app, length_to_le_bytes; lia|done].
  cbn [mbind outcome_bind]. by rewrite from_to_le_bytes.
Qed.

(** ** Encoding then decoding *)

Lemma encode_Ok h : header_wf h → encode h = Ok (header_bytes h).
Proof.
  intros (_ & _ & Hn & _ & Hm & _). unfold encode, MAX_NDIM, MAX_METADATA_LEN, u32_max in *.
  rewrite !bool_decide_eq_false_2 by lia. done.
Qed.

(** The prefix of a header before its [i]-th variable field. *)
Definition fixed_prefix (h : TensorHeader) : list N :=
  [version h; flags h; kind_to_u8 (kind h); dtype_to_u8 (dtype h)]
  ++ to_le_bytes 4 (N.of_nat (length (shape h))).

Lemma header_bytes_split h rest :
  header_bytes h ++ rest =
    fixed_prefix h ++ (shape h ≫= to_le_bytes 8) ++ to_le_bytes 4 (N.of_nat (length (metadata h)))
    ++ metadata h ++ to_le_bytes 8 (data_len h) ++ rest.
Proof. unfold header_bytes, fixed_prefix. by rewrite <- !app_assoc. Qed.

(** Where the fields of a header lie in a buffer that starts with it. *)
Lemma header_slices h rest (buf := header_bytes h ++ rest)
    (se := (FIXED_SIZE + length (shape h) * 8)%nat) (me := (se + 4 + length (metadata h))%nat) :
  Forall (λ d, d < 2 ^ 64) (shape h) →
  @sub_ wire_error 4 8 buf = Ok (to_le_bytes 4 (N.of_nat (length (shape h)))) ∧
  decode_shape 0 (length (shape h)) buf = Ok (shape h) ∧
  @sub_ wire_error se (se + 4) buf = Ok (to_le_bytes 4 (N.of_nat (length (metadata h)))) ∧
  @sub_ wire_error (se + 4) me buf = Ok (metadata h) ∧
  @sub_ wire_error me (me + 8) buf = Ok (to_le_bytes 8 (data_len h)).
Proof.
  intros Hs. pose proof (header_bytes_split h rest) as Hsplit. fold buf in Hsplit.
  assert (length (fixed_prefix h) = 8%nat) as Hf
    by (unfold fixed_prefix; by rewrite length_app, length_to_le_bytes).
  assert (length (fixed_prefix h ++ (shape h ≫= to_le_bytes 8)) = se) as Hse
    by (rewrite length_app, length_shape_bytes, Hf; done).
  split_and!.
  - unfold buf, header_bytes. rewrite <- !app_assoc. apply sub_app; [done|].
    by rewrite length_to_le_bytes.
  - rewrite Hsplit. apply decode_shape_app; [by rewrite Hf|done].
  - rewrite Hsplit, app_assoc. apply sub_app; [done|]. rewrite Hse, length_to_le_bytes. lia.
  - rewrite Hsplit, app_assoc, app_assoc.
    apply sub_app; rewrite length_app, Hse, length_to_le_bytes; lia.
  - rewrite Hsplit, !app_assoc, <- app_assoc.
    apply sub_app; rewrite !length_app, <- length_app, Hse, ?length_to_le_bytes; unfold me; lia.
Qed.

Lemma decode_header_bytes h rest :
  header_wf h → decode (header_bytes h ++ rest) = Ok (h, length (header_bytes h)).
Proof.
  intros (Hv & _ & Hn & Hs & Hm & Hmb & Hd). unfold MAX_NDIM, MAX_METADATA_LEN in *.
  pose proof (length_header_bytes h) as Hl.
  destruct (header_slices h rest Hs) as (E1 & E2 & E3 & E4 & E5).
  set (buf := header_bytes h ++ rest) in *.
  assert (length buf = length (header_bytes h) + length rest)%nat as Hb by apply length_app.
  set (se := (FIXED_SIZE + length (shape h) * 8)%nat) in *.
  set (me := (se + 4 + length (metadata h))%nat) in *.
  unfold decode. rewrite decide_False by (unfold FIXED_SIZE; lia).
  change (@at_ wire_error 0 buf) with (@Ok wire_error N (version h)).
  change (@at_ wire_error 1 buf) with (@Ok wire_error N (flags h)).
  change (@at_ wire_error 2 buf) with (@Ok wire_error N (kind_to_u8 (kind h))).
  change (@at_ wire_error 3 buf) with (@Ok wire_error N (dtype_to_u8 (dtype h))).
  cbn [mbind outcome_bind]. rewrite Hv. cbn [N.eqb PROTOCOL_VERSION negb Pos.eqb].
  rewrite kind_roundtrip, dtype_roundtrip, E1. cbn [mbind outcome_bind].
  rewrite from_to_le_bytes by (change (256 ^ N.of_nat 4) with 4294967296; lia).
  rewrite Nat2N.id. fold se. unfold MAX_NDIM, MAX_METADATA_LEN.
  rewrite (proj2 (N.ltb_ge _ _)) by lia.
  rewrite decide_False by (unfold se, FIXED_SIZE; lia).
  rewrite E2. cbn [mbind outcome_bind]. rewrite E3. cbn [mbind outcome_bind].
  rewrite from_to_le_bytes by (change (256 ^ N.of_nat 4) with 4294967296; lia).
  rewrite !(proj2 (N.ltb_ge _ _)) by (unfold u64_max, se, FIXED_SIZE; lia).
  replace (N.to_nat (N.of_nat se + 4 + N.of_nat (length (metadata h)))) with me by (unfold me; lia).
  rewrite E4. cbn [mbind outcome_bind]. rewrite E5. cbn [mbind outcome_bind].
  rewrite from_to_le_bytes by done. f_equal. f_equal.
  - destruct h; cbn in *; by subst.
  - rewrite Hl. unfold me, se, FIXED_SIZE. lia.
Qed.

(** ** Decoding then encoding *)

Lemma sub_Ok {E} a b (buf x : list N) :
  @sub_ E a b buf = Ok x ↔
  (a ≤ b ≤ length buf)%nat ∧ x = take (b - a) (drop a buf).
Proof.
  unfold sub_. destruct (slice_bytes a b buf) as [y|] eqn:H.
  - apply slice_bytes_Some in H as (H1 & H2 & H3). naive_solver.
  - unfold slice_bytes in H. case_decide; [done|]. naive_solver lia.
Qed.

Lemma sub_chain {E} a b c (buf x y : list N) :
  @sub_ E a b buf = Ok x → @sub_ E b c buf = Ok y → @sub_ E a c buf = Ok (x ++ y).
Proof.
  rewrite !sub_Ok. intros [? ->] [? ->]. split; [lia|].
  replace (c - a)%nat with ((b - a) + (c - b))%nat by lia.
  rewrite <- take_take_drop. f_equal. rewrite drop_drop. do 2 f_equal. lia.
Qed.

Lemma sub_length {E} a b (buf x : list N) : @sub_ E a b buf = Ok x → length x = (b - a)%nat.
Proof. rewrite sub_Ok. intros [? ->]. rewrite length_take, length_drop. lia. Qed.

Lemma sub_bytes {E} a b (buf x : list N) : is_bytes buf → @sub_ E a b buf = Ok x → is_bytes x.
Proof. intros Hb. rewrite sub_Ok. intros [_ ->]. by apply Forall_take, Forall_drop. Qed.

Lemma sub_le {E} a n (buf x : list N) :
  is_bytes buf → @sub_ E a (a + n) buf = Ok x →
  to_le_bytes n (from_le_bytes x) = x ∧ from_le_bytes x < 256 ^ N.of_nat n.
Proof.
  intros Hb H. pose proof (sub_length _ _ _ _ H) as Hl. pose proof (sub_bytes _ _ _ _ Hb H) as Hx.
  replace (a + n - a)%nat with n in Hl by lia. rewrite <- Hl.
  split; [by apply to_from_le_bytes|by apply from_le_bytes_bound].
Qed.

Lemma at_Ok {E} i (buf : list N) x : @at_ E i buf = Ok x → buf !! i = Some x.
Proof. unfold at_. by destruct (buf !! i); intros; simplify_eq. Qed.

Lemma decode_shape_sound n : ∀ i buf s,
  is_bytes buf → (FIXED_SIZE + (i + n) * 8 ≤ length buf)%nat →
  decode_shape i n buf = Ok s →
  length s = n ∧ Forall (λ d, d < 2 ^ 64) s ∧
  @sub_ wire_error (FIXED_SIZE + i * 8) (FIXED_SIZE + (i + n) * 8) buf = Ok (s ≫= to_le_bytes 8).
Proof.
  induction n as [|n IH]; intros i buf s Hb Hlen H; cbn [decode_shape] in H.
  { simplify_eq. split_and!; [done|constructor|]. apply sub_Ok. split; [lia|].
    by replace (FIXED_SIZE + (i + 0) * 8 - (FIXED_SIZE + i * 8))%nat with 0%nat by lia. }
  outcome_inv H. subst s.
  destruct (IH (S i) buf _ Hb ltac:(lia) E0) as (H1 & H2 & H3).
  destruct (sub_le _ _ _ _ Hb E) as [Hle Hlt].
  split_and!; [cbn; lia|by constructor|]. rewrite bind_cons, Hle.
  eapply sub_chain; [exact E|].
  replace (FIXED_SIZE + i * 8 + 8)%nat with (FIXED_SIZE + S i * 8)%nat by lia.
  replace (FIXED_SIZE + (i + S n) * 8)%nat with (FIXED_SIZE + (S i + n) * 8)%nat by lia. done.
Qed.

Lemma decode_sound buf h n :
  is_bytes buf → decode buf = Ok (h, n) →
  header_wf h ∧ @sub_ wire_error 0 n buf = Ok (header_bytes h).
Proof.
  intros Hb H. unfold decode in H. outcome_inv H. injection H as <- <-.
  apply at_Ok in E, E0, E1, E2.
  apply kind_try_from_Some in O. apply dtype_try_from_Some in O0.
  apply negb_false_iff, N.eqb_eq in C0.
  apply N.ltb_ge in C1, C3, C4, C5. apply bool_decide_eq_false in C2 || idtac.
  destruct (sub_le _ 4 _ _ Hb E3) as [Hnd _].
  set (nd := N.to_nat (from_le_bytes a3)) in *.
  destruct (decode_shape_sound nd 0 buf a4 Hb) as (Hsl & Hsb & Hss); [by destruct (decide _); [|lia]|done|].
  destruct (sub_le _ 4 _ _ Hb E5) as [Hml _]. destruct (sub_le _ 8 _ _ Hb E7) as [Hdl Hdb].
  pose proof (sub_length _ _ _ _ E6) as Hmlen.
  set (me := N.to_nat (N.of_nat (FIXED_SIZE + nd * 8) + 4 + from_le_bytes a5)) in *.
  assert (N.of_nat (length a6) = from_le_bytes a5) as Hmeta by (unfold me in *; lia).
  assert (N.of_nat (length a4) = from_le_bytes a3) as Hshape by (unfold nd in *; lia).
  split.
  - unfold header_wf. cbn. split_and!; try done; try lia.
    + by eapply Forall_lookup_1.
    + by eapply sub_bytes.
  - unfold header_bytes. cbn [version flags kind dtype shape metadata data_len].
    rewrite Hshape, Hmeta, Hnd, Hml, Hdl, <- O, <- O0.
    eapply sub_chain; [|eapply sub_chain; [exact E3|eapply sub_chain; [exact Hss|
      eapply sub_chain; [exact E5|eapply sub_chain; [exact E6|exact E7]]]]].
    apply sub_Ok. split; [apply lookup_lt_Some in E2; lia|].
    by destruct buf as [|? [|? [|? [|? ?]]]]; simplify_eq/=.
Qed.

Lemma sub_in_range {E} a b (buf : list N) :
  (a ≤ b ≤ length buf)%nat → ∃ x, @sub_ E a b buf = Ok x ∧ length x = (b - a)%nat.
Proof.
  intros H. eexists. split; [by apply sub_Ok|]. rewrite length_take, length_drop. lia.
Qed.

Lemma at_in_range {E} i (buf : list N) : (i < length buf)%nat → ∃ x, @at_ E i buf = Ok x.
Proof. intros H. unfold at_. destruct (lookup_lt_is_Some_2 buf i H) as [x ->]. eauto. Qed.

Lemma decode_shape_total n : ∀ i buf,
  (FIXED_SIZE + (i + n) * 8 ≤ length buf)%nat → ∃ s, decode_shape i n buf = Ok s.
Proof.
  induction n as [|n IH]; intros i buf H; cbn [decode_shape]; [eauto|].
  destruct (@sub_in_range wire_error (FIXED_SIZE + i * 8) (FIXED_SIZE + i * 8 + 8) buf)
    as (x & -> & _); [lia|]. cbn [mbind outcome_bind].
  destruct (IH (S i) buf) as [s ->]; [lia|]. cbn. eauto.
Qed.

(** No buffer makes the decoder index out of range. *)
Lemma decode_no_panic buf : decode buf ≠ Panic.
Proof.
  unfold decode. case_decide as H8; [done|]. unfold FIXED_SIZE in *.
  destruct (@at_in_range wire_error 0 buf) as [v ->]; [lia|]. cbn [mbind outcome_bind].
  destruct (negb _); [done|].
  destruct (@at_in_range wire_error 1 buf) as [f ->]; [lia|]. cbn [mbind outcome_bind].
  destruct (@at_in_range wire_error 2 buf) as [k ->]; [lia|]. cbn [mbind outcome_bind].
  destruct (kind_try_from k); [|done].
  destruct (@at_in_range wire_error 3 buf) as [d ->]; [lia|]. cbn [mbind outcome_bind].
  destruct (dtype_try_from d); [|done].
  destruct (@sub_in_range wire_error 4 8 buf) as (nd & -> & _); [lia|]. cbn [mbind outcome_bind].
  destruct (MAX_NDIM <? _); [done|]. case_decide as Hs; [done|].
  set (n := N.to_nat (from_le_bytes nd)) in *.
  destruct (decode_shape_total n 0 buf) as [s ->]; [unfold FIXED_SIZE; lia|]. cbn [mbind outcome_bind].
  destruct (@sub_in_range wire_error (8 + n * 8) (8 + n * 8 + 4) buf) as (ml & -> & _); [lia|].
  cbn [mbind outcome_bind]. destruct (MAX_METADATA_LEN <? _); [done|].
  destruct (u64_max <? _); [done|]. destruct (_ <? _ + 8) eqn:Hm; [done|]. apply N.ltb_ge in Hm.
  set (me := N.to_nat (N.of_nat (8 + n * 8) + 4 + from_le_bytes ml)) in *.
  destruct (@sub_in_range wire_error (8 + n * 8 + 4) me buf) as (m & -> & _); [unfold me; lia|].
  cbn [mbind outcome_bind].
  destruct (@sub_in_range wire_error me (me + 8) buf) as (dl & -> & _); [unfold me; lia|]. done.
Qed.

(** The tensor header format is a bijection between headers within the
    format's limits and the byte strings the decoder accepts: encoding such a
    header succeeds and decoding the result (followed by anything) gives the
    header back together with the number of bytes it occupies; conversely, when
    the decoder accepts a byte buffer, the header is within the limits and the
    bytes it consumed are exactly the header's encoding. On no buffer does the
    decoder panic. *)
Theorem header_codec_bijective :
  (∀ h rest, header_wf h →
     ∃ bs, encode h = Ok bs ∧ is_bytes bs ∧ decode (bs ++ rest) = Ok (h, length bs)) ∧
  (∀ buf h n, is_bytes buf → decode buf = Ok (h, n) →
     header_wf h ∧ (n ≤ length buf)%nat ∧ encode h = Ok (take n buf)) ∧
  (∀ buf, decode buf ≠ Panic).
Proof.
  split_and!.
  - intros h rest Hwf. exists (header_bytes h). split_and!; [by apply encode_Ok| |by apply decode_header_bytes].
    destruct Hwf as (Hv & Hf & _ & _ & _ & Hm & _). unfold header_bytes, is_bytes.
    rewrite !Forall_app. split_and!; try apply to_le_bytes_are_bytes; try done.
    + unfold is_byte. repeat constructor; [by rewrite Hv|done|by destruct (kind h)|by destruct (dtype h)].
    + apply Forall_bind, Forall_true. intros d. apply to_le_bytes_are_bytes.
  - intros buf h n Hb H. destruct (decode_sound buf h n Hb H) as [Hwf Hs].
    apply sub_Ok in Hs as [Hle Heq]. split_and!; [done|lia|].
    rewrite encode_Ok by done. by rewrite Heq, Nat.sub_0_r, drop_0.
  - apply decode_no_panic.
Qed.

Definition example_header : TensorHeader :=
  mkHeader 1 0 Activation Float16 [2; 3] [123; 125] 12.

Lemma example_header_wf : header_wf example_header.
Proof.
  unfold header_wf, is_bytes, is_byte. cbn.
  split_and!; try done; repeat (apply Forall_cons; split; [done|]); apply Forall_nil; done.
Qed.

Lemma header_codec_bijective_witness :
  ∃ bs, encode example_header = Ok bs ∧ length bs = 38%nat ∧
    decode (bs ++ [255; 0]) = Ok (example_header, 38%nat) ∧
    header_wf example_header.
Proof.
  destruct (proj1 header_codec_bijective example_header [255; 0] example_header_wf)
    as (bs & H1 & H2 & H3).
  vm_compute in H1. injection H1 as <-.
  exact (ex_intro _ _ (conj eq_refl (conj eq_refl (conj H3 example_header_wf)))).
Defined.

(** Chunk frames: a frame whose data is shorter than 4 GiB survives
    encoding and decoding (whatever follows it), and decoding is total: it
    never panics, and an accepted buffer starts with the frame's encoding. *)
Theorem frame_codec_roundtrip :
  (∀ f rest, frame_wf f → frame_decode (frame_encode f ++ rest) = Ok f) ∧
  (∀ buf f, is_bytes buf → frame_decode buf = Ok f →
     frame_wf f ∧ ∃ rest, buf = frame_encode f ++ rest) ∧
  (∀ buf, frame_decode buf ≠ Panic).
Proof.
  split_and!.
  - intros [ci tc d] rest (H1 & H2 & H3 & H4).
    cbn [chunk_index total_chunks chunk_data] in *. unfold frame_decode, frame_encode, as_u32; cbn [chunk_index total_chunks chunk_data].
    rewrite (N.mod_small (N.of_nat (length d)) 4294967296) by exact H3. rewrite <- !app_assoc.
    set (l := N.of_nat (length d)) in *.
    rewrite decide_False by (rewrite !length_app, !length_to_le_bytes; lia).
    rewrite sub_app_0 by (by rewrite ?length_to_le_bytes).
    cbn [mbind outcome_bind].
    rewrite (sub_app (to_le_bytes 4 ci) (to_le_bytes 4 tc) _ 4 8) by (by rewrite ?length_to_le_bytes).
    cbn [mbind outcome_bind]. rewrite app_assoc.
    rewrite (sub_app (to_le_bytes 4 ci ++ to_le_bytes 4 tc) (to_le_bytes 4 l) _ 8 12)
      by (by rewrite ?length_app, ?length_to_le_bytes).
    cbn [mbind outcome_bind]. rewrite !from_to_le_bytes by done.
    rewrite (proj2 (N.ltb_ge _ _)) by (rewrite !length_app, !length_to_le_bytes; lia).
    rewrite app_assoc.
    rewrite (sub_app _ d) by (rewrite ?length_app, ?length_to_le_bytes; lia). done.
  - intros buf f Hb H. unfold frame_decode in H. outcome_inv H. subst f.
    apply N.ltb_ge in C0. pose proof (sub_length _ _ _ _ E2) as Hl.
    destruct (sub_le 0 4 _ _ Hb E) as [H1 B1]. destruct (sub_le 4 4 _ _ Hb E0) as [H2 B2].
    destruct (sub_le 8 4 _ _ Hb E1) as [H3 B3].
    assert (N.of_nat (length a2) = from_le_bytes a1) as Hd by lia.
    split.
    + unfold frame_wf. cbn. rewrite Hd. split_and!; try done. by eapply sub_bytes.
    + pose proof (sub_chain _ _ _ _ _ _ E (sub_chain _ _ _ _ _ _ E0 (sub_chain _ _ _ _ _ _ E1 E2))) as Hall.
      apply sub_Ok in Hall as [Hle Heq]. unfold frame_encode, as_u32.
      cbn [chunk_index total_chunks chunk_data].
      rewrite Hd, (N.mod_small (from_le_bytes a1) 4294967296) by exact B3.
      rewrite H1, H2, H3, Heq. eexists. symmetry. apply take_drop.
  - intros buf. unfold frame_decode. case_decide; [done|].
    destruct (@sub_in_range wire_error 0 4 buf) as (a & -> & _); [lia|]. cbn [mbind outcome_bind].
    destruct (@sub_in_range wire_error 4 8 buf) as (b & -> & _); [lia|]. cbn [mbind outcome_bind].
    destruct (@sub_in_range wire_error 8 12 buf) as (c & -> & _); [lia|]. cbn [mbind outcome_bind].
    destruct (_ <? _) eqn:Hlt; [done|]. apply N.ltb_ge in Hlt.
    destruct (@sub_in_range wire_error 12 (12 + N.to_nat (from_le_bytes c)) buf) as (d & -> & _); [lia|].
    done.
Qed.

Lemma frame_codec_roundtrip_witness :
  frame_wf (mkFrame 0 2 [7; 8; 9]) ∧
  frame_decode (frame_encode (mkFrame 0 2 [7; 8; 9]) ++ [1]) = Ok (mkFrame 0 2 [7; 8; 9]).
Proof.
  assert (frame_wf (mkFrame 0 2 [7; 8; 9])) as H.
  { unfold frame_wf, is_bytes, is_byte. cbn.
    split_and!; try done. repeat (apply Forall_cons; split; [done|]). apply Forall_nil; done. }
  split; [exact H|]. exact (proj1 frame_codec_roundtrip _ [1] H).
Defined.
