(* ===== verification/WireChunked.v ===== *)
(** * Chunked tensor transfer

    [distributed/tensor_chunked.rs]: a payload is split into numbered frames,
    and [ChunkAssembler] puts the frames back together whatever the order in
    which they arrive and however often one is sent again. *)

From S2P Require Import Prelude Bytes WireHeader.

Record ChunkedTransferConfig := mkChunkConfig {
  chunk_size : nat;
  compress_chunks : bool;
}.

Record ChunkedTensor := mkChunked {
  ct_header : TensorHeader;
  ct_header_bytes : list N;
  chunks : list ChunkFrame;
}.

Inductive chunk_error :=
  | ZeroChunkSize
  | ChunkOutOfRange (index total : N)
  | Incomplete (count total : N).

(** The body of the [for i in 0..total_chunks] loop. *)
Definition chunk_frame (size total : nat) (data : list N) (i : nat) : ChunkFrame :=
  let start := i * size in
  let end_ := (start + size) `min` length data in
  mkFrame (as_u32 (N.of_nat i)) (as_u32 (N.of_nat total))
    (if decide (start < length data) then take (end_ - start) (drop start data) else []).

Definition split_into_chunks (dtype : TensorDtype) (shape data : list N) (kind : TensorKind)
    (config : ChunkedTransferConfig) : outcome chunk_error ChunkedTensor :=
  if decide (chunk_size config = 0) then Err ZeroChunkSize else
  let header := mkHeader PROTOCOL_VERSION (flags_set 0 FLAG_CHUNKED) kind dtype shape [] (N.of_nat (length data)) in
  match encode header with
  | Ok header_bytes =>
    let total_chunks := div_ceil (length data) (chunk_size config) `max` 1 in
    Ok (mkChunked header header_bytes
          (chunk_frame (chunk_size config) total_chunks data <$> seq 0 total_chunks))
  | _ => Panic
  end.

Record ChunkAssembler := mkAsm {
  asm_header : TensorHeader;
  asm_total : N;
  received : list (option (list N));
  count : N;
}.

Definition asm_new (header : TensorHeader) : ChunkAssembler := mkAsm header 0 [] 0.

(** [resize_with(total, || None)] keeps the chunks already received. *)
Definition set_total_chunks (total : N) (a : ChunkAssembler) : ChunkAssembler :=
  mkAsm (asm_header a) total (resize (N.to_nat total) None (received a)) (count a).

Definition is_complete (a : ChunkAssembler) : bool :=
  (0 <? asm_total a)%N && (asm_total a <=? count a)%N.

Definition insert_chunk (frame : ChunkFrame) : M ChunkAssembler chunk_error bool :=
  a0 ← get;
  _ ← (if (asm_total a0 =? 0)%N then modify (set_total_chunks (total_chunks frame)) else mret tt);
  a ← get;
  _ ← guard_m (chunk_index frame <? asm_total a)%N (ChunkOutOfRange (chunk_index frame) (asm_total a));
  let idx := N.to_nat (chunk_index frame) in
  slot ← index (received a !! idx);
  _ ← (match slot with
       | None => put (mkAsm (asm_header a) (asm_total a)
                        (<[idx := Some (chunk_data frame)]> (received a)) (count a + 1)%N)
       | Some _ => mret tt
       end);
  a' ← get;
  mret (is_complete a').

Definition assemble (a : ChunkAssembler) : outcome chunk_error (TensorHeader * list N) :=
  if negb (is_complete a) then Err (Incomplete (count a) (asm_total a))
  else Ok (asm_header a, mjoin (omap id (received a))).

Definition should_chunk (data_len chunk_size : nat) : bool := bool_decide (chunk_size < data_len).

(** A receiver that inserts the frames of a stream one after the other. *)
Fixpoint insert_all (frames : list ChunkFrame) (a : ChunkAssembler) :
    ChunkAssembler * list (outcome chunk_error bool) :=
  match frames with
  | [] => (a, [])
  | f :: fs =>
    let '(a1, r) := insert_chunk f a in
    let '(a2, rs) := insert_all fs a1 in (a2, r :: rs)
  end.

(** ** The assembler's invariant *)

(** Slots are one per expected chunk and [count] counts the filled ones. *)
Definition asm_inv (a : ChunkAssembler) : Prop :=
  length (received a) = N.to_nat (asm_total a) ∧
  count a = N.of_nat (length (omap id (received a))).

Lemma length_omap_id_insert {A} (l : list (option A)) i x :
  l !! i = Some None → length (omap id (<[i := Some x]> l)) = S (length (omap id l)).
Proof.
  revert i. induction l as [|[y|] l IH]; intros [|i] H; simplify_eq/=; try done.
  - f_equal. by apply IH.
  - by apply IH.
Qed.

Lemma length_omap_id_le {A} (l : list (option A)) : length (omap id l) ≤ length l.
Proof. induction l as [|[x|] l IH]; cbn; lia. Qed.

Lemma length_omap_id_full {A} (l : list (option A)) :
  length (omap id l) = length l ↔ Forall is_Some l.
Proof.
  induction l as [|[x|] l IH]; cbn; [by split| |].
  - rewrite Forall_cons, <- IH. split; [intros [= H]; by split; [eexists|]|intros [_ ->]; done].
  - pose proof (length_omap_id_le l). split; [lia|]. intros [[? ?] _]%Forall_cons. done.
Qed.

Lemma omap_id_replicate_None {A} n : omap id (replicate n (@None A)) = [].
Proof. by induction n. Qed.

Lemma asm_inv_new h : asm_inv (asm_new h).
Proof. done. Qed.

Lemma asm_inv_set_total a t : asm_inv a → asm_total a = 0%N → asm_inv (set_total_chunks t a).
Proof.
  intros [H1 H2] H0. rewrite H0 in H1. apply nil_length_inv in H1. rewrite H1 in H2.
  unfold asm_inv. cbn. rewrite H1, resize_nil, length_replicate, omap_id_replicate_None. done.
Qed.

(** What one insertion does to an assembler whose invariant holds. *)
Definition learn_total (f : ChunkFrame) (a : ChunkAssembler) : ChunkAssembler :=
  if (asm_total a =? 0)%N then set_total_chunks (total_chunks f) a else a.

Definition store_chunk (f : ChunkFrame) (a : ChunkAssembler) : ChunkAssembler :=
  match received a !! N.to_nat (chunk_index f) with
  | Some None => mkAsm (asm_header a) (asm_total a)
      (<[N.to_nat (chunk_index f) := Some (chunk_data f)]> (received a)) (count a + 1)%N
  | _ => a
  end.

Lemma asm_inv_learn_total f a : asm_inv a → asm_inv (learn_total f a).
Proof.
  intros H. unfold learn_total. destruct (asm_total a =? 0)%N eqn:E; [|done].
  apply asm_inv_set_total; [done|]. by apply N.eqb_eq.
Qed.

Lemma asm_inv_store_chunk f a : asm_inv a → asm_inv (store_chunk f a).
Proof.
  intros [H1 H2]. unfold store_chunk. destruct (received a !! _) as [[|]|] eqn:E; try done.
  split; cbn; [by rewrite length_insert|]. rewrite length_omap_id_insert by done. lia.
Qed.

Lemma insert_chunk_eq f a :
  asm_inv a →
  insert_chunk f a =
    let b := learn_total f a in
    if (chunk_index f <? asm_total b)%N then
      let c := store_chunk f b in (c, Ok (is_complete c))
    else (b, Err (ChunkOutOfRange (chunk_index f) (asm_total b))).
Proof.
  intros H. pose proof (asm_inv_learn_total f a H) as [Hl _].
  unfold insert_chunk, mbind, M_bind, get. fold (learn_total f a).
  assert (∀ T (k : unit → M ChunkAssembler chunk_error T),
    (match (if (asm_total a =? 0)%N then modify (set_total_chunks (total_chunks f)) else mret tt) a
     with (s', Ok u) => k u s' | (s', Err e) => (s', Err e) | (s', Panic) => (s', Panic) end)
    = k tt (learn_total f a)) as Hk.
  { intros. unfold learn_total. by destruct (asm_total a =? 0)%N. }
  rewrite Hk. unfold guard_m. destruct (chunk_index f <? _)%N eqn:Hi; [|done]. cbn.
  apply N.ltb_lt in Hi. unfold store_chunk.
  destruct (lookup_lt_is_Some_2 (received (learn_total f a)) (N.to_nat (chunk_index f))) as [s Hs];
    [lia|]. rewrite Hs. by destruct s.
Qed.

Lemma insert_chunk_safe f a :
  asm_inv a → asm_inv (insert_chunk f a).1 ∧ (insert_chunk f a).2 ≠ Panic.
Proof.
  intros H. rewrite insert_chunk_eq by done. cbn zeta. case_match; cbn; split; try done.
  - by apply asm_inv_store_chunk, asm_inv_learn_total.
  - by apply asm_inv_learn_total.
Qed.

Lemma is_complete_spec a :
  asm_inv a → is_complete a = true ↔ asm_total a ≠ 0%N ∧ Forall is_Some (received a).
Proof.
  intros [H1 H2]. unfold is_complete. rewrite andb_true_iff, N.ltb_lt, N.leb_le.
  rewrite <- length_omap_id_full. pose proof (length_omap_id_le (received a)). lia.
Qed.

(** ** Reassembly *)
Section reassembly.
Context (h : TensorHeader) (cs : list ChunkFrame).
Hypothesis cs_numbered : ∀ i f, cs !! i = Some f →
  chunk_index f = N.of_nat i ∧ total_chunks f = N.of_nat (length cs).
Hypothesis cs_nonempty : cs ≠ [].

Definition stored (seen : list ChunkFrame) : list (option (list N)) :=
  (λ c, if decide (c ∈ seen) then Some (chunk_data c) else None) <$> cs.

(** The assembler holds exactly the frames [seen] so far. *)
Definition holds (a : ChunkAssembler) (seen : list ChunkFrame) : Prop :=
  asm_header a = h ∧ asm_inv a ∧
  ∀ f, f ∈ cs → asm_total (learn_total f a) = N.of_nat (length cs) ∧
                received (learn_total f a) = stored seen.

Lemma stored_nil : stored [] = replicate (length cs) None.
Proof using. unfold stored. clear. by induction cs as [|c l IH]; cbn; [|f_equal]. Qed.

Lemma asm_holds_new : holds (asm_new h) [].
Proof using cs_numbered.
  split_and!; [done|apply asm_inv_new|]. intros f [i Hf]%list_elem_of_lookup.
  destruct (cs_numbered i f Hf) as [_ Ht]. cbn. rewrite Ht, Nat2N.id, resize_nil, stored_nil. done.
Qed.

Lemma cs_index_inj i f g : cs !! i = Some f → g ∈ cs → chunk_index g = chunk_index f → g = f.
Proof using cs_numbered.
  intros Hf [j Hg]%list_elem_of_lookup Heq.
  destruct (cs_numbered _ _ Hf) as [Hi _], (cs_numbered _ _ Hg) as [Hj _].
  assert (i = j) by lia. congruence.
Qed.

Lemma stored_cons i f seen :
  cs !! i = Some f → stored (f :: seen) = <[i := Some (chunk_data f)]> (stored seen).
Proof using cs_numbered.
  intros Hf. apply list_eq. intros j. unfold stored.
  rewrite list_lookup_fmap. destruct (decide (i = j)) as [<-|Hij].
  - rewrite Hf. cbn. rewrite list_lookup_insert_eq.
    + by rewrite decide_True by (left; done).
    + rewrite length_fmap. by apply lookup_lt_Some in Hf.
  - rewrite list_lookup_insert_ne, list_lookup_fmap by done.
    destruct (cs !! j) as [g|] eqn:Hg; [|done]. cbn. f_equal.
    assert (g ≠ f).
    { intros ->. destruct (cs_numbered _ _ Hf), (cs_numbered _ _ Hg). lia. }
    apply decide_ext. rewrite elem_of_cons. tauto.
Qed.

Lemma stored_seen f seen : f ∈ cs → f ∈ seen → stored (f :: seen) = stored seen.
Proof using.
  intros Hc Hs. unfold stored. apply list_fmap_ext. intros i c Hi.
  apply decide_ext. rewrite elem_of_cons. clear -Hs. naive_solver.
Qed.

Lemma holds_insert f a seen :
  holds a seen → f ∈ cs →
  ∃ a', insert_chunk f a = (a', Ok (is_complete a')) ∧ holds a' (f :: seen).
Proof using cs_numbered.
  intros (Hh & Hinv & Hl) Hf. destruct (Hl f Hf) as [Ht Hr].
  pose proof Hf as [i Hi]%list_elem_of_lookup. destruct (cs_numbered i f Hi) as [Hci _].
  pose proof (lookup_lt_Some _ _ _ Hi) as Hlt.
  exists (store_chunk f (learn_total f a)). rewrite insert_chunk_eq by done. cbn zeta.
  rewrite (proj2 (N.ltb_lt _ _)) by lia. split; [done|].
  set (b := learn_total f a) in *.
  assert (asm_header b = h) as Hb by (unfold b, learn_total; by case_match).
  assert (asm_inv b) as Hib by (by apply asm_inv_learn_total).
  assert (asm_total (store_chunk f b) = N.of_nat (length cs)) as Hts
    by (unfold store_chunk; repeat case_match; done).
  split_and!; [unfold store_chunk; by repeat case_match|by apply asm_inv_store_chunk|].
  intros g _. unfold learn_total at 1 2. rewrite (proj2 (N.eqb_neq _ _)) by lia.
  split; [done|]. unfold store_chunk. rewrite Hr, Hci, Nat2N.id. unfold stored at 1.
  rewrite list_lookup_fmap, Hi. cbn. case_decide as Hs; cbn.
  - by rewrite Hr, stored_seen.
  - by rewrite <- (stored_cons i f seen), ?Hr by done.
Qed.

Lemma holds_insert_all fs : ∀ a seen,
  holds a seen → (∀ f, f ∈ fs → f ∈ cs) →
  Forall (λ r, is_ok r) (insert_all fs a).2 ∧
  ∃ seen', holds (insert_all fs a).1 seen' ∧ (∀ f, f ∈ seen' ↔ f ∈ seen ∨ f ∈ fs).
Proof using cs_numbered cs_nonempty.
  induction fs as [|f fs IH]; intros a seen Ha Hfs; cbn.
  - split; [constructor|]. exists seen. set_solver.
  - destruct (holds_insert f a seen) as (a' & -> & Ha'); [done|set_solver|].
    destruct (IH a' (f :: seen)) as (H1 & s' & H2 & H3); [done|set_solver|].
    destruct (insert_all fs a') as [a2 rs]. cbn in *. split; [by constructor|].
    exists s'. split; [done|]. set_solver.
Qed.

Lemma holds_complete a seen :
  holds a seen → is_complete a = true ↔ ∀ c, c ∈ cs → c ∈ seen.
Proof using cs_numbered cs_nonempty.
  intros (Hh & Hinv & Hl). rewrite is_complete_spec by done.
  destruct cs as [|c0 cs'] eqn:Ecs; [done|]. rewrite <- Ecs in *.
  assert (c0 ∈ cs) as Hc0 by (rewrite Ecs; left).
  destruct (Hl c0 Hc0) as [Ht Hr]. unfold learn_total in Ht, Hr.
  destruct (asm_total a =? 0)%N eqn:E0.
  - apply N.eqb_eq in E0. destruct Hinv as [Hn _]. rewrite E0 in Hn. apply nil_length_inv in Hn.
    cbn in Hr. rewrite Hn, resize_nil in Hr. split; [tauto|]. intros Hall. exfalso.
    destruct (list_elem_of_lookup_1 _ _ Hc0) as [i Hi].
    assert (stored seen !! i = Some (Some (chunk_data c0))) as Hs.
    { unfold stored. rewrite list_lookup_fmap, Hi. cbn. rewrite decide_True; [done|].
      by apply Hall. }
    rewrite <- Hr in Hs. apply lookup_replicate in Hs. naive_solver.
  - apply N.eqb_neq in E0. rewrite Hr. unfold stored. rewrite Forall_fmap, Forall_forall.
    split.
    + intros [_ H] c Hc. specialize (H c Hc). cbn in H. case_decide; [done|]. by destruct H.
    + intros H. split; [done|]. intros c Hc. cbn. rewrite decide_True; eauto.
Qed.

Lemma holds_assemble a seen :
  holds a seen → (∀ c, c ∈ cs → c ∈ seen) →
  assemble a = Ok (h, mjoin (chunk_data <$> cs)).
Proof using cs_numbered cs_nonempty.
  intros Ha Hall. pose proof (proj2 (holds_complete a seen Ha) Hall) as Hc.
  unfold assemble. rewrite Hc. cbn. destruct Ha as (Hh & Hinv & Hl). rewrite Hh.
  destruct (proj1 (is_complete_spec a Hinv) Hc) as [Ht _].
  destruct cs as [|c0 cs'] eqn:Ecs; [done|]. rewrite <- Ecs in *.
  destruct (Hl c0) as [_ Hr]; [rewrite Ecs; left|].
  unfold learn_total in Hr. rewrite (proj2 (N.eqb_neq _ _)) in Hr by done. rewrite Hr.
  do 3 f_equal. unfold stored. clear -Hall. induction cs as [|c l IH]; [done|].
  cbn. rewrite decide_True by (apply Hall; left). cbn. f_equal. apply IH. set_solver.
Qed.
End reassembly.

(** ** Splitting *)

Lemma mjoin_chunks size data n k :
  length data ≤ (k + n) * size →
  mjoin (chunk_data <$> (chunk_frame size (k + n) data <$> seq k n)) = drop (k * size) data.
Proof.
  remember (k + n) as t eqn:Ht. revert k Ht. induction n as [|n IH]; intros k Ht H; cbn.
  - symmetry. apply drop_ge. rewrite Ht in H. lia.
  - rewrite IH by lia. cbn. case_decide as Hk.
    + transitivity (take size (drop (k * size) data) ++ drop size (drop (k * size) data));
        [|apply take_drop]. rewrite drop_drop. f_equal.
      * destruct (decide (k * size + size ≤ length data)).
        -- rewrite Nat.min_l by lia. replace (k * size + size - k * size) with size by lia. done.
        -- rewrite !take_ge; [done| |]; rewrite ?length_take, ?length_drop; lia.
      * f_equal. lia.
    + rewrite !drop_ge by lia. done.
Qed.

Lemma split_chunks_numbered size total data i f :
  (N.of_nat total ≤ u32_max)%N →
  (chunk_frame size total data <$> seq 0 total) !! i = Some f →
  chunk_index f = N.of_nat i ∧ total_chunks f = N.of_nat total.
Proof.
  unfold u32_max. intros Ht. rewrite list_lookup_fmap, fmap_Some.
  intros (j & Hj & ->). apply lookup_seq in Hj as [-> Hj]. cbn. unfold as_u32.
  rewrite !N.mod_small by lia. done.
Qed.

Lemma split_into_chunks_Ok dtype shape data kind cfg ct :
  split_into_chunks dtype shape data kind cfg = Ok ct →
  ∃ n, 0 < n ∧ length data ≤ n * chunk_size cfg ∧
    chunks ct = (chunk_frame (chunk_size cfg) n data <$> seq 0 n) ∧
    encode (ct_header ct) = Ok (ct_header_bytes ct) ∧
    data_len (ct_header ct) = N.of_nat (length data).
Proof.
  unfold split_into_chunks. case_decide as Hs; [done|].
  destruct (encode _) as [bs| |] eqn:He; [|done|done]. intros [= <-].
  eexists. split_and!; [| |reflexivity|done|done]; [lia|].
  pose proof (div_ceil_spec (length data) (chunk_size cfg) ltac:(lia)). nia.
Qed.

(** C30. Chunked transfer is lossless and insensitive to the network: split a
    payload into at most 2^32 - 1 chunks and deliver any sequence of the
    resulting frames, in any order and with any repetitions. No insertion is
    refused; the receiver reports completion exactly when every frame has been
    delivered at least once; and once complete, assembling gives the header
    and the original payload back, byte for byte, while assembling earlier is
    an error. *)
Theorem chunked_transfer_correct dtype shape data kind cfg ct frames :
  split_into_chunks dtype shape data kind cfg = Ok ct →
  (N.of_nat (length (chunks ct)) ≤ u32_max)%N →
  (∀ f, f ∈ frames → f ∈ chunks ct) →
  let '(a, results) := insert_all frames (asm_new (ct_header ct)) in
  Forall (λ r, is_ok r) results ∧
  (is_complete a = true ↔ ∀ f, f ∈ chunks ct → f ∈ frames) ∧
  assemble a = if is_complete a then Ok (ct_header ct, data)
               else Err (Incomplete (count a) (asm_total a)).
Proof.
  intros Hs Hn Hfs. destruct (split_into_chunks_Ok _ _ _ _ _ _ Hs) as (n & H0 & Hle & Hcs & _).
  assert (length (chunks ct) = n) as Hlen by (rewrite Hcs, length_fmap, length_seq; done).
  rewrite Hlen in Hn.
  assert (∀ i f, chunks ct !! i = Some f →
    chunk_index f = N.of_nat i ∧ total_chunks f = N.of_nat (length (chunks ct))) as Hnum.
  { intros i f. rewrite Hlen, Hcs. by apply split_chunks_numbered. }
  assert (chunks ct ≠ []) as Hne by (intros E; rewrite E in Hlen; cbn in Hlen; lia).
  destruct (holds_insert_all (ct_header ct) (chunks ct) Hnum Hne frames (asm_new (ct_header ct)) [])
    as (Hok & seen & Ha & Hseen); [by apply asm_holds_new|done|].
  destruct (insert_all frames (asm_new (ct_header ct))) as [a rs]. cbn in *.
  pose proof (holds_complete _ _ Hnum Hne a seen Ha) as Hc. split_and!; [done| |].
  - rewrite Hc. set_solver.
  - destruct (is_complete a) eqn:E; [|unfold assemble; by rewrite E].
    rewrite (holds_assemble _ _ Hnum Hne a seen Ha) by (by apply Hc).
    rewrite Hcs, (mjoin_chunks _ _ n 0) by done. done.
Qed.

Definition example_cfg : ChunkedTransferConfig := mkChunkConfig 2 false.

Lemma chunked_transfer_correct_witness :
  ∃ ct a,
    split_into_chunks Float16 [5%N] [1; 2; 3; 4; 5]%N Activation example_cfg = Ok ct ∧
    insert_all (reverse (chunks ct) ++ chunks ct) (asm_new (ct_header ct)) =
      (a, [Ok false; Ok false; Ok true; Ok true; Ok true; Ok true]) ∧
    assemble a = Ok (ct_header ct, [1; 2; 3; 4; 5]%N).
Proof.
  destruct (split_into_chunks Float16 [5%N] [1; 2; 3; 4; 5]%N Activation example_cfg)
    as [ct| |] eqn:E; [|vm_compute in E; discriminate E|vm_compute in E; discriminate E].
  pose proof (chunked_transfer_correct _ _ _ _ _ ct (reverse (chunks ct) ++ chunks ct) E) as H.
  vm_compute in E. injection E as <-.
  destruct H as (_ & _ & H).
  - vm_compute. discriminate.
  - intros f [Hf|Hf]%elem_of_app; [by rewrite elem_of_reverse in Hf|done].
  - eexists _, _. split; [reflexivity|]. split; [vm_compute; reflexivity|exact H].
Defined.

(** The receiver is safe against any peer: whatever frames arrive (wrong
    totals, indices out of range, zero totals, repetitions), no insertion
    panics, the slots stay in step with the number of chunks announced first,
    the counter counts filled slots, and completion is reported only when every
    slot is filled. *)
Theorem assembler_safe_on_any_stream h frames :
  let '(a, results) := insert_all frames (asm_new h) in
  Forall (λ r, r ≠ Panic) results ∧ asm_inv a ∧
  (is_complete a = true ↔ asm_total a ≠ 0%N ∧ Forall is_Some (received a)).
Proof.
  assert (∀ fs a, asm_inv a →
    Forall (λ r, r ≠ Panic) (insert_all fs a).2 ∧ asm_inv (insert_all fs a).1) as Hall.
  { induction fs as [|f fs IH]; intros a Ha; cbn; [by split; [constructor|]|].
    destruct (insert_chunk_safe f a Ha) as [H1 H2].
    destruct (insert_chunk f a) as [a1 r]. cbn in *. destruct (IH a1 H1) as [H3 H4].
    destruct (insert_all fs a1) as [a2 rs]. cbn in *. split; [by constructor|done]. }
  destruct (Hall frames (asm_new h) (asm_inv_new h)) as [H1 H2].
  destruct (insert_all frames (asm_new h)) as [a rs]. cbn in *.
  split_and!; [done|done|by apply is_complete_spec].
Qed.
