(* ===== verification/HalfFloat.v ===== *)
(** * IEEE 754 helpers of the tensor quantizer

    The last part of [distributed/tensor_quantize.rs]: conversion between
    half-precision and single-precision bit patterns, written in the source
    with shifts and masks. A [u16] or [u32] is an [N] of that width and an
    [f32] is its bit pattern; single-precision arithmetic is the Standard
    Library's [SpecFloat] at precision 24 and exponent bound 128 (a NaN result
    is the canonical quiet NaN). *)

From Stdlib Require Import SpecFloat.
From S2P Require Import Prelude Bytes.
Local Open Scope N_scope.

Definition f32 := N.

(** The [while m & 0x400 == 0] loop of a subnormal; ten turns reach bit 10. *)
Fixpoint normalize_subnormal (fuel : nat) (m e : N) : N * N :=
  match fuel with
  | O => (m, e)
  | S fuel' =>
    if N.land m 1024 =? 0 then
      normalize_subnormal fuel' (N.shiftl m 1) (as_u32 (e + 4294967295))
    else (m, e)
  end.

Definition f16_to_f32 (bits : N) : f32 :=
  let sign := N.land (N.shiftr bits 15) 1 in
  let exponent := N.land (N.shiftr bits 10) 31 in
  let mantissa := N.land bits 1023 in
  if exponent =? 0 then
    if mantissa =? 0 then N.shiftl sign 31
    else
      let '(m, e) := normalize_subnormal 10 mantissa exponent in
      let m := N.land m 1023 in
      let f32_exp := as_u32 (127 - 15 + 1 + e) in
      N.lor (N.lor (N.shiftl sign 31) (N.shiftl f32_exp 23)) (N.shiftl m 13)
  else if exponent =? 31 then
    if mantissa =? 0 then N.lor (N.shiftl sign 31) (N.shiftl 255 23)
    else N.lor (N.lor (N.shiftl sign 31) (N.shiftl 255 23)) (N.shiftl mantissa 13)
  else
    let f32_exp := exponent + (127 - 15) in
    N.lor (N.lor (N.shiftl sign 31) (N.shiftl f32_exp 23)) (N.shiftl mantissa 13).

Definition f32_to_f16 (bits : f32) : N :=
  let sign := N.land (N.shiftr bits 31) 1 in
  let exponent := N.land (N.shiftr bits 23) 255 in
  let mantissa := N.land bits 8388607 in
  if exponent =? 255 then
    if mantissa =? 0 then N.lor (N.shiftl sign 15) 31744
    else N.lor (N.lor (N.shiftl sign 15) 31744) (N.max (N.shiftr mantissa 13) 1)
  else if 142 <? exponent then N.lor (N.shiftl sign 15) 31744
  else if exponent <? 113 then
    if exponent <? 103 then N.shiftl sign 15
    else
      let shift := 125 - exponent in
      let m := N.shiftr (N.lor mantissa 8388608) (shift + 1) in
      N.lor (N.shiftl sign 15) (N.shiftr m 13)
  else
    let f16_exp := exponent - 112 in
    let f16_man := N.shiftr mantissa 13 in
    N.lor (N.lor (N.shiftl sign 15) (N.shiftl f16_exp 10)) f16_man.

(** ** Single-precision arithmetic *)

Definition f32_of_bits (b : f32) : spec_float :=
  let s := negb (N.shiftr b 31 =? 0) in
  let e := N.land (N.shiftr b 23) 255 in
  let m := N.land b 8388607 in
  if e =? 255 then if m =? 0 then S754_infinity s else S754_nan
  else
    let mant := if e =? 0 then m else m + 8388608 in
    match mant with
    | 0 => S754_zero s
    | Npos p => S754_finite s p (Z.of_N (N.max e 1) - 150)%Z
    end.

Definition sign_bit (s : bool) : N := if s then 2147483648 else 0.

Definition f32_to_bits (x : spec_float) : f32 :=
  match x with
  | S754_zero s => sign_bit s
  | S754_infinity s => sign_bit s + 2139095040
  | S754_nan => 2143289344
  | S754_finite s m e =>
    if N.pos m <? 8388608 then sign_bit s + N.pos m
    else sign_bit s + N.shiftl (Z.to_N (e + 150)) 23 + (N.pos m - 8388608)
  end.

Definition f32_abs (x : f32) : f32 := N.land x 2147483647.
Definition f32_div (x y : f32) : f32 :=
  f32_to_bits (SFdiv 24 128 (f32_of_bits x) (f32_of_bits y)).
Definition f32_mul (x y : f32) : f32 :=
  f32_to_bits (SFmul 24 128 (f32_of_bits x) (f32_of_bits y)).
Definition f32_eq (x y : f32) : bool := SFeqb (f32_of_bits x) (f32_of_bits y).
(** [f32::max]: the other operand when one is a NaN. *)
Definition f32_max (x y : f32) : f32 :=
  match f32_of_bits x, f32_of_bits y with
  | S754_nan, _ => y
  | _, S754_nan => x
  | a, b => if SFltb a b then y else x
  end.
(** [i8 as f32]. *)
Definition f32_of_Z (z : Z) : f32 := f32_to_bits (binary_normalize 24 128 z 0 false).

(** [x.round().clamp(-lim, lim) as i8]: half away from zero, saturating, and 0
    for a NaN. *)
Definition round_clamp_i8 (lim : Z) (x : f32) : Z :=
  match f32_of_bits x with
  | S754_nan | S754_zero _ => 0%Z
  | S754_infinity s => if s then (- lim)%Z else lim
  | S754_finite s m e =>
    let mag := match e with
               | Zneg p => ((Zpos m + 2 ^ (Zpos p - 1)) / 2 ^ Zpos p)%Z
               | _ => (Zpos m * 2 ^ e)%Z
               end in
    let r := Z.min mag lim in if s then (- r)%Z else r
  end.

(** ** Half precision survives the round trip, except subnormals *)

Definition half_exponent (b : N) : N := N.land (N.shiftr b 10) 31.
Definition half_mantissa (b : N) : N := N.land b 1023.
Definition half_sign (b : N) : N := N.shiftl (N.land (N.shiftr b 15) 1) 15.

Ltac div_mod_lia := zify; Z.to_euclidean_division_equations; nia.

Lemma shiftr_div a n : N.shiftr a n = a / 2 ^ n.
Proof. apply N.shiftr_div_pow2. Qed.

(** A three-field pattern, as a sum and back. *)
Lemma pack_fields s e m ps pe pm :
  m * 2 ^ pm < 2 ^ pe → e * 2 ^ pe + m * 2 ^ pm < 2 ^ ps →
  N.lor (N.lor (N.shiftl s ps) (N.shiftl e pe)) (N.shiftl m pm)
    = s * 2 ^ ps + e * 2 ^ pe + m * 2 ^ pm.
Proof.
  intros Hm He. rewrite <- N.lor_assoc, (N.lor_comm (N.shiftl e pe)), (N.shiftl_mul_pow2 m).
  rewrite lor_low_high by done. rewrite N.lor_comm, lor_low_high by lia. lia.
Qed.

Lemma pack_two_fields s e ps pe :
  e * 2 ^ pe < 2 ^ ps →
  N.lor (N.shiftl s ps) (N.shiftl e pe) = s * 2 ^ ps + e * 2 ^ pe.
Proof. intros He. rewrite N.lor_comm, (N.shiftl_mul_pow2 e), lor_low_high by done. lia. Qed.

Lemma half_fields b :
  b < 65536 →
  half_sign b = (b / 32768) * 32768 ∧ N.land (N.shiftr b 15) 1 = b / 32768 ∧
  half_exponent b = (b / 1024) mod 32 ∧ half_mantissa b = b mod 1024 ∧ b / 32768 < 2.
Proof.
  intros Hb. unfold half_sign, half_exponent, half_mantissa.
  change 1 with (N.ones 1). change 31 with (N.ones 5). change 1023 with (N.ones 10).
  rewrite !N.land_ones, !shiftr_div, N.shiftl_mul_pow2.
  change (2 ^ 15) with 32768. change (2 ^ 10) with 1024. change (2 ^ 1) with 2. change (2 ^ 5) with 32.
  assert (b / 32768 < 2) by (apply N.Div0.div_lt_upper_bound; lia).
  rewrite (N.mod_small (b / 32768) 2) by done. done.
Qed.

(** The fields of a single-precision pattern whose mantissa has 10 bits. *)
Lemma single_fields s e m (x := s * 2 ^ 31 + e * 2 ^ 23 + m * 2 ^ 13) :
  s < 2 → e < 256 → m < 1024 →
  N.land (N.shiftr x 31) 1 = s ∧ N.land (N.shiftr x 23) 255 = e ∧
  N.land x 8388607 = m * 8192 ∧ N.shiftr (m * 8192) 13 = m.
Proof.
  intros Hs He Hm. unfold x.
  change (2 ^ 31) with 2147483648. change (2 ^ 23) with 8388608. change (2 ^ 13) with 8192.
  change 1 with (N.ones 1) at 1. change 255 with (N.ones 8). change 8388607 with (N.ones 23).
  rewrite !N.land_ones, !shiftr_div.
  change (2 ^ 31) with 2147483648. change (2 ^ 23) with 8388608. change (2 ^ 13) with 8192.
  change (2 ^ 1) with 2. change (2 ^ 8) with 256.
  split_and!; div_mod_lia.
Qed.

Lemma shiftl_pos_sign s n : N.shiftl s n = s * 2 ^ n.
Proof. apply N.shiftl_mul_pow2. Qed.

(** The exponent field of a normal, infinite or NaN half is kept. *)
Lemma f32_to_f16_normal s e m :
  s < 2 → 113 ≤ e ≤ 142 → m < 1024 →
  f32_to_f16 (s * 2 ^ 31 + e * 2 ^ 23 + m * 2 ^ 13) = s * 2 ^ 15 + (e - 112) * 2 ^ 10 + m.
Proof.
  intros Hs He Hm. destruct (single_fields s e m) as (E1 & E2 & E3 & E4); [done|lia|done|].
  unfold f32_to_f16. rewrite E1, E2, E3, E4. cbn zeta.
  rewrite (proj2 (N.eqb_neq e 255)) by lia. rewrite (proj2 (N.ltb_ge 142 e)) by lia.
  rewrite (proj2 (N.ltb_ge e 113)) by lia.
  rewrite <- (N.shiftl_0_r m) at 1. rewrite pack_fields; lia.
Qed.

Lemma f32_to_f16_special s m :
  s < 2 → m < 1024 →
  f32_to_f16 (s * 2 ^ 31 + 255 * 2 ^ 23 + m * 2 ^ 13) = s * 2 ^ 15 + 31 * 2 ^ 10 + m.
Proof.
  intros Hs Hm. destruct (single_fields s 255 m) as (E1 & E2 & E3 & E4); [done|lia|done|].
  unfold f32_to_f16. rewrite E1, E2, E3. cbn zeta. cbn [N.eqb Pos.eqb].
  change 31744 with (N.shiftl 31 10).
  destruct (N.eqb_spec (m * 8192) 0) as [H0|H0].
  - rewrite pack_two_fields; lia.
  - rewrite E4, N.max_l by lia. rewrite <- (N.shiftl_0_r m) at 1. rewrite pack_fields; lia.
Qed.

Definition flushed (m : N) : bool :=
  (f32_to_f16 (f16_to_f32 m) =? 0) && (f32_to_f16 (f16_to_f32 (32768 + m)) =? 32768).
Definition subnormals : list N := N.of_nat <$> seq 1 1023.

Lemma subnormals_flushed : forallb flushed subnormals = true.
Proof. vm_compute. reflexivity. Qed.

Lemma subnormals_all m : 0 < m → m < 1024 → In m subnormals.
Proof.
  intros H0 Hm. rewrite <- (N2Nat.id m).
  apply list_elem_of_In, list_elem_of_fmap_2, elem_of_seq. lia.
Qed.

Lemma subnormal_case m : 0 < m → m < 1024 →
  f32_to_f16 (f16_to_f32 m) = 0 ∧ f32_to_f16 (f16_to_f32 (32768 + m)) = 32768.
Proof.
  intros H0 Hm.
  pose proof (proj1 (forallb_forall flushed subnormals) subnormals_flushed m
                (subnormals_all m H0 Hm)) as H.
  unfold flushed in H. apply andb_true_iff in H as [H1 H2].
  split; by apply N.eqb_eq.
Qed.

Lemma f16_to_f32_normal b :
  b < 65536 → half_exponent b ≠ 0 → half_exponent b ≠ 31 →
  f16_to_f32 b = (b / 32768) * 2 ^ 31 + (half_exponent b + 112) * 2 ^ 23 + half_mantissa b * 2 ^ 13.
Proof.
  intros Hb H0 H31. destruct (half_fields b Hb) as (_ & Es & Ee & Em & Hs).
  unfold f16_to_f32. fold (half_exponent b) (half_mantissa b). cbn zeta. rewrite Es.
  rewrite (proj2 (N.eqb_neq _ _) H0), (proj2 (N.eqb_neq _ _) H31).
  assert (half_mantissa b < 1024) by (rewrite Em; by apply N.mod_lt).
  assert (half_exponent b < 32) by (rewrite Ee; by apply N.mod_lt).
  rewrite pack_fields; [done|lia|lia].
Qed.

Lemma f16_to_f32_special b :
  b < 65536 → half_exponent b = 31 →
  f16_to_f32 b = (b / 32768) * 2 ^ 31 + 255 * 2 ^ 23 + half_mantissa b * 2 ^ 13.
Proof.
  intros Hb H31. destruct (half_fields b Hb) as (_ & Es & Ee & Em & Hs).
  unfold f16_to_f32. fold (half_exponent b) (half_mantissa b). cbn zeta. rewrite Es, H31.
  assert (half_mantissa b < 1024) by (rewrite Em; by apply N.mod_lt). cbn [N.eqb Pos.eqb].
  destruct (N.eqb_spec (half_mantissa b) 0) as [->|_].
  - rewrite pack_two_fields; lia.
  - rewrite pack_fields; lia.
Qed.

(** Converting a half-precision bit pattern to single precision and back
    gives it back unchanged for every zero, normal number, infinity and NaN; a
    subnormal half, however, always comes back as a zero of its sign (the
    subnormal branch of [f32_to_f16] shifts the mantissa 13 places too far). *)
Theorem half_single_roundtrip b :
  b < 65536 →
  f32_to_f16 (f16_to_f32 b) =
    if (half_exponent b =? 0) && negb (half_mantissa b =? 0) then half_sign b else b.
Proof.
  intros Hb. destruct (half_fields b Hb) as (E0 & Es & Ee & Em & Hs).
  assert (half_mantissa b < 1024) as Hm by (rewrite Em; by apply N.mod_lt).
  assert (half_exponent b < 32) as He by (rewrite Ee; by apply N.mod_lt).
  assert (b = b / 32768 * 32768 + half_exponent b * 1024 + half_mantissa b) as Hsplit.
  { rewrite Ee, Em. clear. div_mod_lia. }
  destruct (N.eqb_spec (half_exponent b) 0) as [Hz|Hz]; cbn [andb].
  - assert (b / 32768 = 0 ∨ b / 32768 = 1) as [Hq|Hq] by lia; rewrite Hq, Hz in *;
      destruct (N.eqb_spec (half_mantissa b) 0) as [H0|H0]; cbn [negb].
    + assert (b = 0) as -> by lia. reflexivity.
    + assert (b = half_mantissa b) as Hbm by lia. rewrite E0, Hbm.
      rewrite (proj1 (subnormal_case (half_mantissa b) ltac:(lia) Hm)). reflexivity.
    + assert (b = 32768) as -> by lia. reflexivity.
    + assert (b = 32768 + half_mantissa b) as Hbm by lia. rewrite E0, Hbm.
      rewrite (proj2 (subnormal_case (half_mantissa b) ltac:(lia) Hm)). reflexivity.
  - destruct (decide (half_exponent b = 31)) as [H31|H31].
    + rewrite f16_to_f32_special, f32_to_f16_special by done. rewrite <- H31. lia.
    + rewrite f16_to_f32_normal, f32_to_f16_normal by (done || lia). lia.
Qed.

Lemma half_single_roundtrip_witness :
  f32_to_f16 (f16_to_f32 15360) = 15360 ∧ f32_to_f16 (f16_to_f32 33000) = 32768.
Proof.
  split.
  - rewrite (half_single_roundtrip 15360); [reflexivity|lia].
  - rewrite (half_single_roundtrip 33000); [reflexivity|lia].
Defined.

(** Whatever the input, the result has 16 bits. *)
Lemma f32_to_f16_bound x : f32_to_f16 x < 65536.
Proof.
  unfold f32_to_f16. change 65536 with (2 ^ 16).
  assert (∀ a, N.land a 1 = a mod 2 ^ 1) as L1 by (intros a; apply (N.land_ones a 1)).
  change 255 with (N.ones 8). change 8388607 with (N.ones 23).
  rewrite !L1, !N.land_ones, !shiftr_div, !N.shiftl_mul_pow2.
  pose proof (N.mod_lt (x / 2 ^ 31) (2 ^ 1) ltac:(done)) as Hs.
  pose proof (N.mod_lt (x / 2 ^ 23) (2 ^ 8) ltac:(done)) as He.
  pose proof (N.mod_lt x (2 ^ 23) ltac:(done)) as Hm.
  set (s := (x / 2 ^ 31) mod 2 ^ 1) in *. set (e := (x / 2 ^ 23) mod 2 ^ 8) in *.
  set (m := x mod 2 ^ 23) in *. cbn zeta.
  assert (m / 2 ^ 13 < 2 ^ 10) by (apply N.Div0.div_lt_upper_bound; lia).
  repeat case_match; repeat apply lor_lt; try lia.
  all: rewrite ?N.ltb_lt, ?N.ltb_ge in *; try lia.
  assert (N.lor m 8388608 < 2 ^ 24) by (apply lor_lt; lia).
  pose proof (N.pow_nonzero 2 (125 - e + 1) ltac:(done)).
  apply N.Div0.div_lt_upper_bound, N.Div0.div_lt_upper_bound. nia.
Qed.
