(* ===== verification/Quantize.v ===== *)
(** * Transfer quantization

    [distributed/tensor_quantize.rs]: half-precision tensors are sent as 8-bit
    or 4-bit codes with one half-precision scale per group of 128 elements.
    Single-precision values are bit patterns ([HalfFloat]). *)

From S2P Require Import Prelude Bytes WireHeader HalfFloat.

Definition DEFAULT_GROUP_SIZE : nat := 128.
Arguments DEFAULT_GROUP_SIZE : simpl never.

Definition f32_zero : f32 := 0%N.
Definition f32_one : f32 := 1065353216%N.

Definition q_error := Empty_set.

(** [q as u8] and [b as i8]. *)
Definition i8_as_u8 (z : Z) : N := Z.to_N (z mod 256).
Definition u8_as_i8 (b : N) : Z := if (b <? 128)%N then Z.of_N b else (Z.of_N b - 256)%Z.

(** The [values] vector: one single per two input bytes. *)
Definition half_values (f16_data : list N) : list f32 :=
  (λ i, f16_to_f32 (from_le_bytes (take 2 (drop (i * 2) f16_data))))
    <$> seq 0 (length f16_data `div` 2).

(** [&values[start..end]] of group [g]. *)
Definition group {A} (g : nat) (values : list A) : list A :=
  let start := g * DEFAULT_GROUP_SIZE in
  let end_ := (start + DEFAULT_GROUP_SIZE) `min` length values in
  take (end_ - start) (drop start values).

Definition group_scale (lim : Z) (grp : list f32) : f32 :=
  let absmax := foldl f32_max f32_zero (f32_abs <$> grp) in
  if f32_eq absmax f32_zero then f32_one else f32_div absmax (f32_of_Z lim).

Definition quant_code (lim : Z) (scale val : f32) : Z := round_clamp_i8 lim (f32_div val scale).

(** The header, the scales and the codes of a payload. *)
Definition quant_payload (num_groups : nat) (scales codes : list N) : list N :=
  to_le_bytes 4 (as_u32 (N.of_nat num_groups)) ++
  to_le_bytes 4 (as_u32 (N.of_nat DEFAULT_GROUP_SIZE)) ++
  (scales ≫= to_le_bytes 2) ++ codes.

Definition quantize_int8 (f16_data : list N) : list N :=
  let values := half_values f16_data in
  let num_groups := div_ceil (length values) DEFAULT_GROUP_SIZE in
  let scale g := group_scale 127 (group g values) in
  let scales := (λ g, f32_to_f16 (scale g)) <$> seq 0 num_groups in
  let quantized := mjoin ((λ g, (λ v, i8_as_u8 (quant_code 127 (scale g) v)) <$> group g values)
                            <$> seq 0 num_groups) in
  quant_payload num_groups scales quantized.

(** [lo | (hi << 4)] for each pair, a missing [hi] being 0. *)
Fixpoint pack_nibbles (l : list N) : list N :=
  match l with
  | [] => []
  | [lo] => [N.lor lo (N.shiftl 0 4)]
  | lo :: hi :: r => N.lor lo (N.shiftl hi 4) :: pack_nibbles r
  end.

Definition quantize_int4 (f16_data : list N) : list N :=
  let values := half_values f16_data in
  let num_groups := div_ceil (length values) DEFAULT_GROUP_SIZE in
  let scale g := group_scale 7 (group g values) in
  let scales := (λ g, f32_to_f16 (scale g)) <$> seq 0 num_groups in
  let nibbles := mjoin ((λ g, (λ v, N.land (i8_as_u8 (quant_code 7 (scale g) v + 8)) 15)
                                <$> group g values) <$> seq 0 num_groups) in
  quant_payload num_groups scales (pack_nibbles nibbles).

(** The two bytes of [f32_to_f16(q as f32 * scale)]. *)
Definition dequant_value (q : Z) (scale : f32) : list N :=
  to_le_bytes 2 (f32_to_f16 (f32_mul (f32_of_Z q) scale)).

Definition group_scale_at (payload : list N) (g : nat) : outcome q_error f32 :=
  let scale_offset := 8 + g * 2 in
  b ← sub_ scale_offset (scale_offset + 2) payload;
  Ok (f16_to_f32 (from_le_bytes b)).

(** Both decoders' length checks; [None] is the early return of zeros. The
    saturating sums compare with a buffer length below [2^64] as exact sums. *)
Definition quant_geometry (payload : list N) (data_len : nat) :
    outcome q_error (option (nat * nat * nat)) :=
  if decide (length payload < 8) then Ok None else
  ng ← sub_ 0 4 payload;
  gs ← sub_ 4 8 payload;
  let num_groups := N.to_nat (from_le_bytes ng) in
  let group_size := N.to_nat (from_le_bytes gs) in
  if decide (group_size = 0 ∨ num_groups = 0) then Ok None else
  let data_start := 8 + num_groups * 2 in
  if decide (length payload < data_start + data_len) then Ok None
  else Ok (Some (num_groups, group_size, data_start)).

(** The result vector, group after group. *)
Definition concat_groups (gs : list (list (list N))) : list N := mjoin (mjoin gs).

(** The body of the [for g in 0..num_groups] loop of [dequantize_int8]. *)
Definition dequant_group_int8 (payload : list N) (num_elements group_size data_start g : nat) :
    outcome q_error (list (list N)) :=
  scale ← group_scale_at payload g;
  let start := g * group_size in
  let end_ := (start + group_size) `min` num_elements in
  mapM (M := outcome q_error)
    (λ i, b ← at_ (data_start + i) payload; Ok (dequant_value (u8_as_i8 b) scale))
    (seq start (end_ - start)).

Definition dequantize_int8 (payload : list N) (num_elements : nat) : outcome q_error (list N) :=
  geo ← quant_geometry payload num_elements;
  match geo with
  | None => Ok (replicate (num_elements * 2) 0%N)
  | Some (num_groups, group_size, data_start) =>
    gs ← mapM (M := outcome q_error)
           (dequant_group_int8 payload num_elements group_size data_start) (seq 0 num_groups);
    Ok (concat_groups gs)
  end.

Definition unpack_nibbles (packed : list N) : list N :=
  packed ≫= λ b, [N.land b 15; N.land (N.shiftr b 4) 15].

Definition dequant_group_int4 (payload nibbles : list N) (num_elements group_size g : nat) :
    outcome q_error (list (list N)) :=
  scale ← group_scale_at payload g;
  let start := g * group_size in
  let end_ := (start + group_size) `min` num_elements in
  ns ← sub_ start end_ nibbles;
  Ok (map (λ nibble, dequant_value (Z.of_N nibble - 8) scale) ns).

Definition dequantize_int4 (payload : list N) (num_elements : nat) : outcome q_error (list N) :=
  let packed_len := div_ceil num_elements 2 in
  geo ← quant_geometry payload packed_len;
  match geo with
  | None => Ok (replicate (num_elements * 2) 0%N)
  | Some (num_groups, group_size, data_start) =>
    let nibbles := take num_elements (unpack_nibbles (drop data_start payload)) in
    gs ← mapM (M := outcome q_error)
           (dequant_group_int4 payload nibbles num_elements group_size) (seq 0 num_groups);
    Ok (concat_groups gs)
  end.

(** ** What the codes and scales stand for *)

(** The value a receiver should reconstruct for [v]: its code times the
    transmitted scale, both at half precision. *)
Definition reconstruct (lim : Z) (scale v : f32) : list N :=
  dequant_value (quant_code lim scale v) (f16_to_f32 (f32_to_f16 scale)).

Definition reconstruct_all (lim : Z) (f16_data : list N) : list N :=
  let values := half_values f16_data in
  concat_groups ((λ g, reconstruct lim (group_scale lim (group g values)) <$> group g values)
                   <$> seq 0 (div_ceil (length values) DEFAULT_GROUP_SIZE)).

Lemma mapM_Ok {E A B} (f : A → outcome E B) (g : A → B) l :
  (∀ x, x ∈ l → f x = Ok (g x)) → mapM (M := outcome E) f l = Ok (g <$> l).
Proof.
  induction l as [|x l IH]; intros H; [done|]. cbn. rewrite H by left. cbn.
  rewrite IH; [done|]. intros y Hy. apply H. by right.
Qed.

Lemma round_clamp_i8_bound lim x :
  (0 ≤ lim)%Z → (- lim ≤ round_clamp_i8 lim x ≤ lim)%Z.
Proof.
  intros Hl. unfold round_clamp_i8. destruct (f32_of_bits x) as [s|s| |s m e]; try lia.
  - destruct s; lia.
  - set (mag := match e with Zneg p => _ | _ => _ end).
    assert (0 ≤ mag)%Z.
    { unfold mag. destruct e; try lia.
      apply Z.div_pos; [|apply Z.pow_pos_nonneg; lia].
      pose proof (Z.pow_nonneg 2 (Z.pos p - 1)). lia. }
    destruct s; lia.
Qed.

Lemma u8_i8_roundtrip z : (-128 ≤ z ≤ 127)%Z → u8_as_i8 (i8_as_u8 z) = z.
Proof.
  intros Hz. unfold u8_as_i8, i8_as_u8.
  destruct (decide (0 ≤ z)%Z).
  - rewrite Z.mod_small by lia. rewrite (proj2 (N.ltb_lt _ _)) by lia. lia.
  - replace (z mod 256)%Z with (z + 256)%Z by (Z.to_euclidean_division_equations; lia).
    rewrite (proj2 (N.ltb_ge _ _)) by lia. lia.
Qed.

Lemma nibble_roundtrip z :
  (-7 ≤ z ≤ 7)%Z →
  (N.land (i8_as_u8 (z + 8)) 15 < 16)%N ∧ (Z.of_N (N.land (i8_as_u8 (z + 8)) 15) - 8)%Z = z.
Proof.
  intros Hz. unfold i8_as_u8. rewrite Z.mod_small by lia. change 15%N with (N.ones 4).
  rewrite N.land_ones. change (2 ^ 4)%N with 16%N. rewrite N.mod_small by lia. lia.
Qed.

(** ** Groups *)

Lemma length_half_values d : length (half_values d) = length d `div` 2.
Proof. unfold half_values. by rewrite length_fmap, length_seq. Qed.

Lemma imap_ext_offset {A B} (f g : nat → A → B) l :
  (∀ i, i < length l → f i = g i) → imap f l = imap g l.
Proof. intros H. apply imap_ext. intros i x Hx. rewrite H; [done|]. by eapply lookup_lt_Some. Qed.

Lemma div_group g i : i < DEFAULT_GROUP_SIZE → (g * DEFAULT_GROUP_SIZE + i) `div` DEFAULT_GROUP_SIZE = g.
Proof.
  intros Hi. unfold DEFAULT_GROUP_SIZE in *. rewrite Nat.add_comm, Nat.div_add by lia.
  rewrite Nat.div_small; lia.
Qed.

Lemma group_app {A} k (values : list A) :
  k * DEFAULT_GROUP_SIZE ≤ length values →
  drop (k * DEFAULT_GROUP_SIZE) values = group k values ++ drop (S k * DEFAULT_GROUP_SIZE) values.
Proof.
  intros Hk. unfold group. set (s := k * DEFAULT_GROUP_SIZE) in *.
  replace (S k * DEFAULT_GROUP_SIZE) with (s + DEFAULT_GROUP_SIZE) by (unfold s; lia).
  destruct (decide (s + DEFAULT_GROUP_SIZE ≤ length values)).
  - rewrite Nat.min_l by lia. replace (s + DEFAULT_GROUP_SIZE - s) with DEFAULT_GROUP_SIZE by lia.
    rewrite <- drop_drop. by rewrite take_drop.
  - rewrite take_ge by (rewrite length_drop; lia).
    rewrite (drop_ge _ (s + _)) by lia. by rewrite app_nil_r.
Qed.

Lemma length_group {A} k (values : list A) :
  k * DEFAULT_GROUP_SIZE ≤ length values →
  length (group k values) = DEFAULT_GROUP_SIZE `min` (length values - k * DEFAULT_GROUP_SIZE).
Proof. intros H. unfold group. rewrite length_take, length_drop. lia. Qed.

(** Processing the groups one after the other is processing the elements in
    order, each with the index of its group. *)
Lemma mjoin_groups {A B} (h : nat → A → B) (values : list A) n : ∀ k,
  (k + n = div_ceil (length values) DEFAULT_GROUP_SIZE)%nat →
  mjoin ((λ g, h g <$> group g values) <$> seq k n) =
  imap (λ i v, h ((k * DEFAULT_GROUP_SIZE + i) `div` DEFAULT_GROUP_SIZE) v)
       (drop (k * DEFAULT_GROUP_SIZE) values).
Proof.
  pose proof (div_ceil_spec (length values) DEFAULT_GROUP_SIZE ltac:(unfold DEFAULT_GROUP_SIZE; lia)) as Hd.
  induction n as [|n IH]; intros k Hk.
  - rewrite drop_ge; [done|]. rewrite Nat.add_0_r in Hk. rewrite Hk. apply Hd.
  - cbn [seq fmap list_fmap mjoin list_join]. fold (@mjoin list _ B). rewrite IH by lia.
    assert (k * DEFAULT_GROUP_SIZE ≤ length values) as Hle by nia.
    rewrite (group_app k values Hle), imap_app. pose proof (length_group k values Hle) as Hlg.
    f_equal.
    + rewrite <- imap_const. apply imap_ext_offset. intros i Hi. rewrite div_group; [done|lia].
    + destruct (decide (S k * DEFAULT_GROUP_SIZE ≤ length values)) as [Hs|Hs].
      * apply imap_ext_offset. intros i Hi. unfold compose. rewrite Hlg. do 2 f_equal. lia.
      * rewrite drop_ge by lia. done.
Qed.

Lemma group_imap {A B} (h : nat → A → B) (values : list A) g :
  g * DEFAULT_GROUP_SIZE ≤ length values →
  group g (imap (λ i v, h (i `div` DEFAULT_GROUP_SIZE) v) values) = h g <$> group g values.
Proof.
  intros Hg. apply list_eq. intros j. rewrite list_lookup_fmap. unfold group.
  rewrite length_imap. set (e := (_ `min` _) - _).
  destruct (decide (j < e)) as [Hj|Hj].
  - rewrite !lookup_take_lt, !lookup_drop, list_lookup_imap by done.
    destruct (values !! _) eqn:E; [|done]. cbn. rewrite div_group; [done|lia].
  - by rewrite !lookup_take_ge by lia.
Qed.

(** ** Reading a payload back *)

Section payload.
Context (G : nat) (scales codes : list N).
Hypothesis G_u32 : (N.of_nat G < 2 ^ 32)%N.
Hypothesis scales_len : length scales = G.
Hypothesis scales_u16 : Forall (λ s, (s < 65536)%N) scales.

Let P := quant_payload G scales codes.

Lemma length_scales_bytes (l : list N) : length (l ≫= to_le_bytes 2) = length l * 2.
Proof using.
  clear. induction l as [|x l IH]; [done|]. rewrite bind_cons, length_app, IH, length_to_le_bytes.
  cbn. lia.
Qed.

Lemma payload_split :
  P = (to_le_bytes 4 (N.of_nat G) ++ to_le_bytes 4 (N.of_nat DEFAULT_GROUP_SIZE)) ++
      (scales ≫= to_le_bytes 2) ++ codes.
Proof using G_u32.
  unfold P, quant_payload, as_u32. rewrite (N.mod_small (N.of_nat G)) by done.
  rewrite <- app_assoc. done.
Qed.

Lemma length_payload : length P = 8 + G * 2 + length codes.
Proof using G_u32 scales_len.
  rewrite payload_split, !length_app, length_scales_bytes, !length_to_le_bytes, scales_len. lia.
Qed.

Lemma payload_codes : drop (8 + G * 2) P = codes.
Proof using G_u32 scales_len.
  rewrite payload_split, app_assoc. apply drop_app_length'.
  rewrite !length_app, length_scales_bytes, !length_to_le_bytes, scales_len. lia.
Qed.

Lemma payload_geometry data_len :
  0 < G → data_len ≤ length codes →
  quant_geometry P data_len = Ok (Some (G, DEFAULT_GROUP_SIZE, 8 + G * 2)).
Proof using G_u32 scales_len.
  intros HG Hd. unfold quant_geometry. pose proof length_payload as Hl.
  assert (@sub_ q_error 0 4 P = Ok (to_le_bytes 4 (N.of_nat G))) as E1.
  { rewrite payload_split, <- app_assoc. apply sub_app_0. by rewrite length_to_le_bytes. }
  assert (@sub_ q_error 4 8 P = Ok (to_le_bytes 4 (N.of_nat DEFAULT_GROUP_SIZE))) as E2.
  { rewrite payload_split, <- app_assoc. apply sub_app; by rewrite !length_to_le_bytes. }
  rewrite decide_False by lia. rewrite E1. cbn [mbind outcome_bind]. rewrite E2.
  cbn [mbind outcome_bind]. rewrite !from_to_le_bytes, !Nat2N.id by done.
  rewrite decide_False by (unfold DEFAULT_GROUP_SIZE; lia). rewrite decide_False by lia. done.
Qed.

Lemma payload_scale g s :
  scales !! g = Some s → group_scale_at P g = Ok (f16_to_f32 s).
Proof using G_u32 scales_len scales_u16.
  intros Hg. unfold group_scale_at. rewrite payload_split.
  rewrite <- (take_drop_middle _ _ _ Hg), bind_app, bind_cons, <- !app_assoc.
  rewrite app_assoc, app_assoc.
  rewrite (sub_app _ (to_le_bytes 2 s)).
  - cbn. f_equal. f_equal. apply (from_to_le_bytes 2). by eapply Forall_lookup_1 in scales_u16.
  - rewrite !length_app, length_scales_bytes, !length_to_le_bytes, length_take.
    apply lookup_lt_Some in Hg. lia.
  - rewrite !length_app, length_scales_bytes, !length_to_le_bytes, length_take.
    apply lookup_lt_Some in Hg. lia.
Qed.
End payload.

Lemma mapM_at {B} (k : N → B) (P : list N) d len : ∀ s,
  s + len ≤ length (drop d P) →
  mapM (M := outcome q_error) (λ i, b ← at_ (d + i) P; Ok (k b)) (seq s len)
    = Ok (k <$> take len (drop s (drop d P))).
Proof.
  induction len as [|len IH]; intros s H; [done|]. cbn [seq mapM].
  rewrite length_drop in H.
  destruct (lookup_lt_is_Some_2 P (d + s)) as [b Hb]; [lia|].
  assert (@at_ q_error (d + s) P = Ok b) as -> by (unfold at_; by rewrite Hb).
  cbn [mbind outcome_bind]. rewrite IH by (rewrite length_drop; lia). cbn [mbind outcome_bind mret outcome_ret]. f_equal.
  rewrite !drop_drop. rewrite (drop_S P b (d + s)) by done. cbn. do 4 f_equal. lia.
Qed.

(** One group of a payload whose codes are [codes]. *)
Lemma dequant_group_int8_eq P n data_start g scale :
  n ≤ length (drop data_start P) → g * DEFAULT_GROUP_SIZE ≤ n → group_scale_at P g = Ok scale →
  dequant_group_int8 P n DEFAULT_GROUP_SIZE data_start g
    = Ok ((λ b, dequant_value (u8_as_i8 b) scale) <$> group g (take n (drop data_start P))).
Proof.
  intros Hn Hg Hs. unfold dequant_group_int8. rewrite Hs. cbn [mbind outcome_bind].
  rewrite (mapM_at (λ b, dequant_value (u8_as_i8 b) scale)) by lia.
  unfold group. rewrite length_take, (Nat.min_l n (length _)) by done.
  set (e := (_ + _) `min` n - _). set (L := drop data_start P). clearbody L. rewrite !take_drop_commute, take_take.
  rewrite (Nat.min_l (g * DEFAULT_GROUP_SIZE + e) n) by lia. done.
Qed.

Lemma dequant_group_int4_eq P ns n g scale :
  length ns = n → g * DEFAULT_GROUP_SIZE ≤ n → group_scale_at P g = Ok scale →
  dequant_group_int4 P ns n DEFAULT_GROUP_SIZE g
    = Ok ((λ nibble, dequant_value (Z.of_N nibble - 8) scale) <$> group g ns).
Proof.
  intros <- Hg Hs. unfold dequant_group_int4. rewrite Hs. cbn [mbind outcome_bind].
  unfold sub_, slice_bytes. rewrite decide_True by lia. done.
Qed.

Lemma unpack_pack_nibbles ns :
  Forall (λ n, (n < 16)%N) ns → take (length ns) (unpack_nibbles (pack_nibbles ns)) = ns.
Proof.
  assert (∀ lo hi, (lo < 16)%N → (hi < 16)%N →
    N.land (N.lor lo (N.shiftl hi 4)) 15 = lo ∧
    N.land (N.shiftr (N.lor lo (N.shiftl hi 4)) 4) 15 = hi) as Hb.
  { intros lo hi Hlo Hhi. rewrite lor_low_high by done. change 15%N with (N.ones 4).
    rewrite !N.land_ones, N.shiftr_div_pow2. change (2 ^ 4)%N with 16%N.
    split; zify; Z.to_euclidean_division_equations; lia. }
  remember (length ns) as n eqn:Hn. revert ns Hn.
  induction (lt_wf n) as [n _ IH]. intros [|lo [|hi r]] -> H; [done| |].
  - inversion H as [|? ? Hlo _]; subst. cbn. f_equal. by apply (Hb lo 0%N).
  - inversion H as [|? ? Hlo H']; subst. inversion H' as [|? ? Hhi Hr]; subst.
    cbn [pack_nibbles unpack_nibbles]. unfold unpack_nibbles. rewrite bind_cons.
    destruct (Hb lo hi Hlo Hhi) as [-> ->]. cbn. do 2 f_equal.
    apply (IH (length r)); [cbn; lia|done|done].
Qed.

Lemma length_pack_nibbles ns : div_ceil (length ns) 2 ≤ length (pack_nibbles ns).
Proof.
  apply div_ceil_le; [lia|]. remember (length ns) as n eqn:Hn. revert ns Hn.
  induction (lt_wf n) as [n _ IH]. intros [|lo [|hi r]] ->; cbn; [lia|lia|].
  specialize (IH (length r) ltac:(cbn; lia) r eq_refl). lia.
Qed.

(** The codes in element order, each computed with the scale of its group. *)
Lemma codes_by_element lim (f : Z → N) values :
  mjoin ((λ g, (λ v, f (quant_code lim (group_scale lim (group g values)) v)) <$> group g values)
           <$> seq 0 (div_ceil (length values) DEFAULT_GROUP_SIZE))
  = imap (λ i v, f (quant_code lim (group_scale lim (group (i `div` DEFAULT_GROUP_SIZE) values)) v))
      values.
Proof.
  rewrite (mjoin_groups (λ g v, f (quant_code lim (group_scale lim (group g values)) v))
             values _ 0) by done. done.
Qed.

Section reconstruction.
Context (lim : Z) (values : list f32).
Let G := div_ceil (length values) DEFAULT_GROUP_SIZE.
Let scale g := group_scale lim (group g values).
Hypothesis G_u32 : (N.of_nat G < 2 ^ 32)%N.
Hypothesis values_nonempty : 0 < length values.

Let scales := (λ g, f32_to_f16 (scale g)) <$> seq 0 G.

Lemma groups_nonzero : 0 < G.
Proof using values_nonempty.
  clear G_u32. unfold G. pose proof (div_ceil_spec (length values) DEFAULT_GROUP_SIZE
    ltac:(unfold DEFAULT_GROUP_SIZE; lia)). lia.
Qed.

Lemma length_scales : length scales = G.
Proof using. unfold scales. by rewrite length_fmap, length_seq. Qed.

Lemma scales_are_u16 : Forall (λ s, (s < 65536)%N) scales.
Proof using. unfold scales. apply Forall_fmap, Forall_true. intros g. apply f32_to_f16_bound. Qed.

Lemma scales_lookup g : g < G → scales !! g = Some (f32_to_f16 (scale g)).
Proof using. intros Hg. unfold scales. rewrite list_lookup_fmap, lookup_seq_lt by done. done. Qed.

Lemma group_start g : g < G → g * DEFAULT_GROUP_SIZE ≤ length values.
Proof using.
  clear G_u32 values_nonempty. intros Hg. pose proof (div_ceil_spec (length values) DEFAULT_GROUP_SIZE
    ltac:(unfold DEFAULT_GROUP_SIZE; lia)). unfold G in Hg. nia.
Qed.

(** What both decoders compute for one group, given its codes. *)
Definition group_values (g : nat) : list (list N) := reconstruct lim (scale g) <$> group g values.

Lemma dequant_int8_group g (f := λ v, i8_as_u8 v) :
  lim = 127%Z → g < G →
  let codes := imap (λ i v, i8_as_u8 (quant_code lim (scale (i `div` DEFAULT_GROUP_SIZE)) v)) values in
  dequant_group_int8 (quant_payload G scales codes) (length values) DEFAULT_GROUP_SIZE (8 + G * 2) g
    = Ok (group_values g).
Proof using G_u32.
  clear values_nonempty. intros Hlim Hg codes.
  assert (length codes = length values) as Hlc by apply length_imap.
  pose proof (payload_codes G scales codes G_u32 length_scales) as Hd.
  rewrite (dequant_group_int8_eq _ _ _ _ (f16_to_f32 (f32_to_f16 (scale g))));
    [|by rewrite Hd, Hlc|by apply group_start|].
  2: { apply payload_scale; [done|apply length_scales|apply scales_are_u16|by apply scales_lookup]. }
  rewrite Hd, take_ge by lia. f_equal. unfold codes. pose proof (group_start g Hg).
  rewrite (group_imap (λ g v, i8_as_u8 (quant_code lim (scale g) v))) by done.
  unfold group_values. rewrite <- list_fmap_compose. apply list_fmap_ext. intros i v _.
  unfold compose, reconstruct. rewrite u8_i8_roundtrip; [done|].
  pose proof (round_clamp_i8_bound lim (f32_div v (scale g)) ltac:(lia)).
  unfold quant_code. lia.
Qed.

Lemma dequant_int4_group g P :
  lim = 7%Z → g < G →
  (∀ g, g < G → group_scale_at P g = Ok (f16_to_f32 (f32_to_f16 (scale g)))) →
  let ns := imap (λ i v, N.land (i8_as_u8 (quant_code lim (scale (i `div` DEFAULT_GROUP_SIZE)) v + 8)) 15)
              values in
  dequant_group_int4 P ns (length values) DEFAULT_GROUP_SIZE g = Ok (group_values g).
Proof using.
  clear G_u32 values_nonempty. intros Hlim Hg Hs ns.
  assert (length ns = length values) as Hln by apply length_imap.
  rewrite (dequant_group_int4_eq _ _ _ _ _ Hln (group_start g Hg) (Hs g Hg)).
  f_equal. unfold ns. pose proof (group_start g Hg).
  rewrite (group_imap (λ g v, N.land (i8_as_u8 (quant_code lim (scale g) v + 8)) 15)) by done.
  unfold group_values.
  rewrite <- list_fmap_compose. apply list_fmap_ext. intros i v _.
  unfold compose, reconstruct.
  pose proof (round_clamp_i8_bound lim (f32_div v (scale g)) ltac:(lia)).
  destruct (nibble_roundtrip (quant_code lim (scale g) v)) as [_ ->]; [unfold quant_code; lia|done].
Qed.
End reconstruction.

Definition num_groups_of (d : list N) : nat := div_ceil (length d `div` 2) DEFAULT_GROUP_SIZE.

Lemma quantize_empty d : length d `div` 2 = 0 → half_values d = [].
Proof. intros H. apply nil_length_inv. by rewrite length_half_values. Qed.

Lemma dequantize_quantize_int8 d :
  (N.of_nat (num_groups_of d) < 2 ^ 32)%N →
  dequantize_int8 (quantize_int8 d) (length d `div` 2) = Ok (reconstruct_all 127 d).
Proof.
  intros HG. unfold num_groups_of in HG. rewrite <- length_half_values in HG |- *.
  unfold quantize_int8, reconstruct_all. set (values := half_values d) in *.
  destruct (decide (length values = 0)) as [H0|H0].
  { apply nil_length_inv in H0. rewrite H0. reflexivity. }
  rewrite codes_by_element. unfold dequantize_int8.
  rewrite payload_geometry; [|done|by rewrite length_fmap, length_seq|apply groups_nonzero; lia|by rewrite length_imap].
  cbn [mbind outcome_bind].
  rewrite (mapM_Ok _ (group_values 127 values)); [done|].
  intros g Hg%elem_of_seq. apply (dequant_int8_group 127); [done|done|lia].
Qed.

Lemma dequantize_quantize_int4 d :
  (N.of_nat (num_groups_of d) < 2 ^ 32)%N →
  dequantize_int4 (quantize_int4 d) (length d `div` 2) = Ok (reconstruct_all 7 d).
Proof.
  intros HG. unfold num_groups_of in HG. rewrite <- length_half_values in HG |- *.
  unfold quantize_int4, reconstruct_all. set (values := half_values d) in *.
  destruct (decide (length values = 0)) as [H0|H0].
  { apply nil_length_inv in H0. rewrite H0. reflexivity. }
  rewrite (codes_by_element 7 (λ z, N.land (i8_as_u8 (z + 8)) 15)).
  set (ns := imap _ values). assert (length ns = length values) as Hln by apply length_imap.
  assert (Forall (λ n, (n < 16)%N) ns) as Hns.
  { apply Forall_lookup. intros i x Hx. unfold ns in Hx. rewrite list_lookup_imap, fmap_Some in Hx.
    destruct Hx as (v & _ & ->). apply nibble_roundtrip. by apply (round_clamp_i8_bound 7). }
  assert (take (length values) (unpack_nibbles (pack_nibbles ns)) = ns) as Hup
    by (rewrite <- Hln; by apply unpack_pack_nibbles).
  unfold dequantize_int4.
  rewrite payload_geometry;
    [|done|by rewrite length_fmap, length_seq|apply groups_nonzero; lia|
     rewrite <- Hln; apply length_pack_nibbles].
  cbn [mbind outcome_bind]. rewrite payload_codes by (done || by rewrite length_fmap, length_seq).
  rewrite Hup.
  rewrite (mapM_Ok _ (group_values 7 values)); [done|].
  intros g Hg%elem_of_seq. apply (dequant_int4_group 7); [done|lia|].
  intros g' Hg'. apply payload_scale; [done|by rewrite length_fmap, length_seq| |].
  - apply scales_are_u16.
  - by apply (scales_lookup 7).
Qed.

Lemma length_concat_groups gs :
  Forall (Forall (λ b, length b = 2)) gs → length (concat_groups gs) = 2 * length (mjoin gs).
Proof.
  unfold concat_groups. intros H.
  assert (Forall (λ b : list N, length b = 2) (mjoin gs)) as Hm.
  { induction H as [|g gs Hg _ IH]; [constructor|]. cbn. by apply Forall_app. }
  induction Hm as [|b bs Hb _ IH]; [done|].
  change (mjoin (b :: bs)) with (b ++ mjoin bs). rewrite length_app, Hb, IH. cbn. lia.
Qed.

Lemma length_reconstruct_all lim d : length (reconstruct_all lim d) = 2 * (length d `div` 2).
Proof.
  unfold reconstruct_all. rewrite length_concat_groups.
  - rewrite (mjoin_groups (λ g, reconstruct lim (group_scale lim (group g (half_values d))))
      (half_values d) _ 0) by done.
    by rewrite length_imap, drop_0, length_half_values.
  - apply Forall_fmap, Forall_true. intros g. apply Forall_fmap, Forall_true. intros v.
    apply length_to_le_bytes.
Qed.

Lemma length_pack_nibbles_eq ns : length (pack_nibbles ns) = div_ceil (length ns) 2.
Proof.
  apply Nat.le_antisymm; [|apply length_pack_nibbles].
  assert (length (pack_nibbles ns) * 2 ≤ length ns + 1) as H.
  { remember (length ns) as n eqn:Hn. revert ns Hn.
    induction (lt_wf n) as [n _ IH]. intros [|lo [|hi r]] ->; cbn; [lia|lia|].
    specialize (IH (length r) ltac:(cbn; lia) r eq_refl). lia. }
  pose proof (div_ceil_spec (length ns) 2). lia.
Qed.

Lemma length_quantize d :
  (N.of_nat (num_groups_of d) < 2 ^ 32)%N →
  length (quantize_int8 d) = 8 + num_groups_of d * 2 + length d `div` 2 ∧
  length (quantize_int4 d) = 8 + num_groups_of d * 2 + div_ceil (length d `div` 2) 2.
Proof.
  intros HG. unfold num_groups_of in *. rewrite <- !length_half_values in *.
  unfold quantize_int8, quantize_int4. set (values := half_values d) in *.
  rewrite codes_by_element, (codes_by_element 7 (λ z, N.land (i8_as_u8 (z + 8)) 15)).
  split; rewrite length_payload; rewrite ?length_fmap, ?length_seq; try done.
  - by rewrite length_imap.
  - by rewrite length_pack_nibbles_eq, length_imap.
Qed.

(** The quantizers' payloads are read back exactly: for any half-precision
    tensor of fewer than 2^32 groups, the 8-bit and the 4-bit decoder recover
    from the encoder's payload, element by element, the code the encoder chose
    times the scale it transmitted for the element's group (packing, nibble
    order, partial groups and offsets lose nothing, and no index is out of
    range); the payloads have the documented sizes and the result the size of
    the input. *)
Theorem quantized_payload_roundtrip d :
  (N.of_nat (num_groups_of d) < 2 ^ 32)%N →
  dequantize_int8 (quantize_int8 d) (length d `div` 2) = Ok (reconstruct_all 127 d) ∧
  dequantize_int4 (quantize_int4 d) (length d `div` 2) = Ok (reconstruct_all 7 d) ∧
  length (quantize_int8 d) = 8 + num_groups_of d * 2 + length d `div` 2 ∧
  length (quantize_int4 d) = 8 + num_groups_of d * 2 + div_ceil (length d `div` 2) 2 ∧
  (∀ lim, length (reconstruct_all lim d) = 2 * (length d `div` 2)).
Proof.
  intros HG. destruct (length_quantize d HG) as [H8 H4].
  split_and!; [by apply dequantize_quantize_int8|by apply dequantize_quantize_int4|done|done|].
  intros lim. apply length_reconstruct_all.
Qed.

(** Three halves: 1.0, -0.5 and 0.25. *)
Definition example_halves : list N := [0; 60; 0; 184; 0; 52]%N.

Lemma quantized_payload_roundtrip_witness :
  dequantize_int8 (quantize_int8 example_halves) 3 = Ok (reconstruct_all 127 example_halves) ∧
  reconstruct_all 127 example_halves = [255; 59; 8; 184; 8; 52]%N.
Proof.
  split; [|vm_compute; reflexivity].
  change 3 with (length example_halves `div` 2).
  exact (proj1 (quantized_payload_roundtrip example_halves eq_refl)).
Defined.

(** Small values do not survive quantization: the scale of a group whose
    largest magnitude is about 0.005 is a subnormal half, which [f32_to_f16]
    turns into zero, so the receiver reconstructs a group of zeros although
    8-bit codes with a half-precision scale can represent the values. *)
Lemma small_groups_flushed :
  let d := mjoin (replicate 128 [31; 29]%N) in
  f32_to_f16 (group_scale 127 (half_values d)) = 0%N ∧
  dequantize_int8 (quantize_int8 d) 128 = Ok (replicate 256 0%N) ∧
  drop 10 (quantize_int8 d) = replicate 128 127%N.
Proof. split_and!; vm_compute; reflexivity. Qed.

(** ** Decoding a payload from the network *)

(** The geometry [validate_quantized_payload] insists on. *)
Definition payload_shape_ok (P : list N) (n data_len : nat) : Prop :=
  let G := div_ceil n DEFAULT_GROUP_SIZE in
  length P = 8 + G * 2 + data_len ∧
  from_le_bytes (take 4 P) = N.of_nat G ∧
  from_le_bytes (take 4 (drop 4 P)) = N.of_nat DEFAULT_GROUP_SIZE.

Lemma shape_ok_geometry P n data_len :
  payload_shape_ok P n data_len →
  quant_geometry P data_len =
    if decide (n = 0) then Ok None
    else Ok (Some (div_ceil n DEFAULT_GROUP_SIZE, DEFAULT_GROUP_SIZE,
                   8 + div_ceil n DEFAULT_GROUP_SIZE * 2)).
Proof.
  intros (Hl & Hg & Hs). unfold quant_geometry. rewrite decide_False by lia.
  assert (@sub_ q_error 0 4 P = Ok (take 4 P)) as -> by (apply sub_Ok; split; [lia|done]).
  cbn [mbind outcome_bind].
  assert (@sub_ q_error 4 8 P = Ok (take 4 (drop 4 P))) as -> by (apply sub_Ok; split; [lia|done]).
  cbn [mbind outcome_bind]. rewrite Hg, Hs, !Nat2N.id.
  pose proof (div_ceil_spec n DEFAULT_GROUP_SIZE ltac:(unfold DEFAULT_GROUP_SIZE; lia)).
  destruct (decide (n = 0)) as [->|Hn].
  - rewrite div_ceil_0 by (unfold DEFAULT_GROUP_SIZE; lia). by rewrite decide_True by (by right).
  - rewrite decide_False by (unfold DEFAULT_GROUP_SIZE in *; lia).
    rewrite decide_False by lia. done.
Qed.

Lemma shape_ok_scale P n data_len g :
  payload_shape_ok P n data_len → g < div_ceil n DEFAULT_GROUP_SIZE →
  group_scale_at P g = Ok (f16_to_f32 (from_le_bytes (take 2 (drop (8 + g * 2) P)))).
Proof.
  intros (Hl & _) Hg. unfold group_scale_at.
  assert (@sub_ q_error (8 + g * 2) (8 + g * 2 + 2) P = Ok (take 2 (drop (8 + g * 2) P))) as ->.
  { apply sub_Ok. split; [lia|]. f_equal. lia. }
  done.
Qed.

Lemma length_unpack_nibbles l : length (unpack_nibbles l) = length l * 2.
Proof. unfold unpack_nibbles. induction l as [|x l IH]; [done|]. rewrite bind_cons. cbn. lia. Qed.

(** The groups of a decoder's output, whatever the codes. *)
Lemma length_decoded_groups (f : nat → N → Z) (scale : nat → f32) (codes : list N) n :
  length codes = n →
  length (concat_groups ((λ g, (λ b, dequant_value (f g b) (scale g)) <$> group g codes)
                           <$> seq 0 (div_ceil n DEFAULT_GROUP_SIZE))) = n * 2.
Proof.
  intros <-. rewrite length_concat_groups.
  - rewrite (mjoin_groups (λ g b, dequant_value (f g b) (scale g)) codes _ 0) by done.
    rewrite length_imap, drop_0. lia.
  - apply Forall_fmap, Forall_true. intros g. apply Forall_fmap, Forall_true. intros v.
    apply length_to_le_bytes.
Qed.

Lemma groups_start_le n g : g < div_ceil n DEFAULT_GROUP_SIZE → g * DEFAULT_GROUP_SIZE ≤ n.
Proof.
  intros Hg. pose proof (div_ceil_spec n DEFAULT_GROUP_SIZE ltac:(unfold DEFAULT_GROUP_SIZE; lia)).
  nia.
Qed.

Lemma dequantize_int8_total P n :
  payload_shape_ok P n n → ∃ out, dequantize_int8 P n = Ok out ∧ length out = n * 2.
Proof.
  intros H. unfold dequantize_int8. rewrite (shape_ok_geometry P n n H).
  case_decide as Hn; cbn [mbind outcome_bind].
  { eexists. split; [done|]. apply length_replicate. }
  destruct H as (Hl & Hg & Hs). set (G := div_ceil n DEFAULT_GROUP_SIZE) in *.
  assert (length (take n (drop (8 + G * 2) P)) = n) as Hc by (rewrite length_take, length_drop; lia).
  erewrite (mapM_Ok (dequant_group_int8 _ _ _ _)).
  2: { intros g Hin%elem_of_seq. apply dequant_group_int8_eq.
       - rewrite length_drop. lia.
       - apply groups_start_le. unfold G in *. lia.
       - eapply shape_ok_scale; [done|]. unfold G in *. lia. }
  cbn [mbind outcome_bind]. eexists. split; [done|].
  by apply (length_decoded_groups (λ _, u8_as_i8)
    (λ g, f16_to_f32 (from_le_bytes (take 2 (drop (8 + g * 2) P))))).
Qed.

Lemma dequantize_int4_total P n :
  payload_shape_ok P n (div_ceil n 2) → ∃ out, dequantize_int4 P n = Ok out ∧ length out = n * 2.
Proof.
  intros H. unfold dequantize_int4. rewrite (shape_ok_geometry P n _ H).
  case_decide as Hn; cbn [mbind outcome_bind].
  { eexists. split; [done|]. apply length_replicate. }
  destruct H as (Hl & Hg & Hs). set (G := div_ceil n DEFAULT_GROUP_SIZE) in *.
  pose proof (div_ceil_spec n 2). set (ns := take n (unpack_nibbles _)).
  assert (length ns = n) as Hc.
  { unfold ns. rewrite length_take, length_unpack_nibbles, length_drop. lia. }
  erewrite (mapM_Ok (dequant_group_int4 _ _ _ _)).
  2: { intros g Hin%elem_of_seq. apply dequant_group_int4_eq; [done| |].
       - apply groups_start_le. unfold G in *. lia.
       - eapply shape_ok_scale; [done|]. unfold G in *. lia. }
  cbn [mbind outcome_bind]. eexists. split; [done|].
  by apply (length_decoded_groups (λ _ b, (Z.of_N b - 8)%Z)
    (λ g, f16_to_f32 (from_le_bytes (take 2 (drop (8 + g * 2) P))))).
Qed.

Lemma payload_header G scales codes :
  (N.of_nat G < 2 ^ 32)%N →
  from_le_bytes (take 4 (quant_payload G scales codes)) = N.of_nat G ∧
  from_le_bytes (take 4 (drop 4 (quant_payload G scales codes))) = N.of_nat DEFAULT_GROUP_SIZE.
Proof.
  intros HG. rewrite payload_split by done. rewrite <- app_assoc. split.
  - rewrite take_app_length' by (by rewrite length_to_le_bytes). by rewrite from_to_le_bytes.
  - rewrite drop_app_length' by (by rewrite length_to_le_bytes).
    rewrite take_app_length' by (by rewrite length_to_le_bytes). by rewrite from_to_le_bytes.
Qed.

Lemma quantize_shape_ok d :
  (N.of_nat (num_groups_of d) < 2 ^ 32)%N →
  payload_shape_ok (quantize_int8 d) (length d `div` 2) (length d `div` 2) ∧
  payload_shape_ok (quantize_int4 d) (length d `div` 2) (div_ceil (length d `div` 2) 2).
Proof.
  intros HG. destruct (length_quantize d HG) as [H8 H4]. unfold num_groups_of in *.
  split; (split; [done|]).
  - unfold quantize_int8. rewrite length_half_values. by apply payload_header.
  - unfold quantize_int4. rewrite length_half_values. by apply payload_header.
Qed.
