(* ===== verification/WireTensor.v ===== *)
(** * Tensor serialization

    [distributed/tensor_serialize.rs] and [tensor_compress.rs]: a tensor is
    checked against its shape, optionally quantized, optionally compressed and
    put behind a header; the receiver undoes the steps and checks the result.
    The LZ4 codec (the [lz4_flex] crate) is the interface [Lz4] below. *)

From Stdlib Require Import SpecFloat.
From S2P Require Import Prelude Bytes WireHeader HalfFloat Quantize.

(** ** The LZ4 block codec

    What [lz4_flex] documents of [compress_prepend_size] and
    [decompress_size_prepended]: the uncompressed size is prepended as a 32-bit
    little-endian integer, decompressing gives the input back, and the output
    is bounded by a small multiple of the input. *)
Class Lz4 := {
  compress_prepend_size : list N → list N;
  decompress_size_prepended : list N → option (list N);
}.

Class Lz4Laws (L : Lz4) : Prop := {
  lz4_bytes d : is_bytes d → is_bytes (compress_prepend_size d);
  lz4_prefix d : take 4 (compress_prepend_size d) = to_le_bytes 4 (as_u32 (N.of_nat (length d)));
  lz4_roundtrip d : (N.of_nat (length d) < 2 ^ 32)%N →
    decompress_size_prepended (compress_prepend_size d) = Some d;
  lz4_bound d : length (compress_prepend_size d) ≤ 2 * length d + 24;
}.

Inductive QuantizationMode := QNone | QInt8 | QInt4.

Global Instance QuantizationMode_eq_dec : EqDecision QuantizationMode.
Proof. solve_decision. Defined.

Record SerializeOptions := mkSerOpts {
  opt_kind : TensorKind;
  quantization : QuantizationMode;
  opt_compress : bool;
  opt_metadata : option (list N);
}.

Record DeserializedTensor := mkDeser {
  de_dtype : TensorDtype;
  de_shape : list N;
  de_kind : TensorKind;
  de_metadata : option (list N);
  de_data : list N;
}.

Inductive ser_error :=
  | ShapeOverflow | SizeOverflow | SizeMismatch (expected got : N)
  | QuantNeedsFloat16 | HeaderError (e : wire_error) | DataOffsetOverflow | DataTooShort
  | NoLengthPrefix | OutputTooLong (len limit : N) | NoLz4Prefix | PrefixesDisagree (a b : N)
  | Lz4Failed | LengthMismatch
  | BadQuantDtype | QuantLength (expected got : N) | BadQuantHeader | BadUtf8.

Abbreviation ser := (outcome ser_error).

Definition outcome_of {E A} (o : option A) (e : E) : outcome E A :=
  match o with Some a => Ok a | None => Err e end.

(** [?] on a callee's error, and a callee that only panics. *)
Definition lift_header {A} (r : wire A) : ser A :=
  match r with Ok a => Ok a | Err e => Err (HeaderError e) | Panic => Panic end.
Definition lift_quant {A} (r : outcome q_error A) : ser A :=
  match r with Ok a => Ok a | Err e => match e with end | Panic => Panic end.

(** ** Sizes *)

Definition checked_num_elements (shape : list N) : ser N :=
  outcome_of (checked_product shape) ShapeOverflow.

Definition div_ceil_N (a b : N) : N := N.of_nat (div_ceil (N.to_nat a) (N.to_nat b)).

Definition data_len_N (data : list N) : N := N.of_nat (length data).

Definition validate_data_size (dtype : TensorDtype) (shape data : list N) : ser unit :=
  num_elements ← checked_num_elements shape;
  let elem_size := element_size dtype in
  if (elem_size =? 0)%N then
    let expected := div_ceil_N num_elements 2 in
    if negb (data_len_N data =? expected)%N then Err (SizeMismatch expected (data_len_N data))
    else Ok tt
  else
    expected ← outcome_of (checked_mul_u64 num_elements elem_size) SizeOverflow;
    if negb (data_len_N data =? expected)%N then Err (SizeMismatch expected (data_len_N data))
    else Ok tt.

Definition GROUP_N : N := 128.

Definition expected_wire_payload_len (dtype : TensorDtype) (shape : list N) (quantized : bool) :
    ser N :=
  if negb quantized then
    elements ← checked_num_elements shape;
    outcome_of (checked_mul_u64 elements (element_size dtype)) SizeOverflow
  else
    elements ← checked_num_elements shape;
    let groups := div_ceil_N elements GROUP_N in
    data_len ← match dtype with
               | Int8 => Ok elements
               | Int4 => Ok (div_ceil_N elements 2)
               | _ => Err BadQuantDtype
               end;
    two_groups ← outcome_of (checked_mul_u64 groups 2) SizeOverflow;
    if (8 + two_groups + data_len <=? u64_max)%N then Ok (8 + two_groups + data_len)%N
    else Err SizeOverflow.

Definition validate_quantized_payload (dtype : TensorDtype) (shape data : list N) : ser unit :=
  expected ← expected_wire_payload_len dtype shape true;
  if negb (data_len_N data =? expected)%N then Err (QuantLength expected (data_len_N data)) else
  elements ← checked_num_elements shape;
  let expected_groups := div_ceil_N elements GROUP_N in
  g ← sub_ 0 4 data;
  s ← sub_ 4 8 data;
  if negb (from_le_bytes g =? expected_groups)%N || negb (from_le_bytes s =? GROUP_N)%N
  then Err BadQuantHeader else Ok tt.

(** ** [String::from_utf8] *)

Definition in_range (lo hi b : N) : bool := (lo <=? b)%N && (b <=? hi)%N.
Definition cont (b : N) : bool := in_range 128 191 b.

Fixpoint utf8_valid (s : list N) : bool :=
  match s with
  | [] => true
  | a :: r =>
    if (a <? 128)%N then utf8_valid r
    else if in_range 194 223 a then
      match r with b :: r => cont b && utf8_valid r | _ => false end
    else if in_range 224 239 a then
      match r with
      | b :: c :: r =>
        (if (a =? 224)%N then in_range 160 191 b
         else if (a =? 237)%N then in_range 128 159 b else cont b)
        && cont c && utf8_valid r
      | _ => false
      end
    else if in_range 240 244 a then
      match r with
      | b :: c :: d :: r =>
        (if (a =? 240)%N then in_range 144 191 b
         else if (a =? 244)%N then in_range 128 143 b else cont b)
        && cont c && cont d && utf8_valid r
      | _ => false
      end
    else false
  end.

(** ** Compression *)

(** [COMPRESSION_RATIO_THRESHOLD: f64 = 0.90]. *)
Definition COMPRESSION_RATIO_THRESHOLD : spec_float := S754_finite false 8106479329266893 (-53).
Definition f64_of_nat (n : nat) : spec_float := binary_normalize 53 1024 (Z.of_nat n) 0 false.

Section with_lz4.
Context {L : Lz4}.

Definition compress (data : list N) : list N :=
  to_le_bytes 8 (data_len_N data) ++ compress_prepend_size data.

Definition decompress_limited (data : list N) (max_output_len : N) : ser (list N) :=
  if decide (length data < 8) then Err NoLengthPrefix else
  p ← sub_ 0 8 data;
  let original_len := from_le_bytes p in
  if (max_output_len <? original_len)%N then Err (OutputTooLong original_len max_output_len) else
  if decide (length data < 12) then Err NoLz4Prefix else
  q ← sub_ 8 12 data;
  let lz4_len := from_le_bytes q in
  if negb (lz4_len =? original_len)%N then Err (PrefixesDisagree original_len lz4_len) else
  decompressed ← outcome_of (decompress_size_prepended (drop 8 data)) Lz4Failed;
  if negb (data_len_N decompressed =? original_len)%N then Err LengthMismatch
  else Ok decompressed.

Definition decompress (data : list N) : ser (list N) := decompress_limited data 268435456.

Definition compress_if_beneficial (data : list N) : option (list N) :=
  if decide (length data = 0) then None else
  let compressed := compress data in
  let ratio := SFdiv 53 1024 (f64_of_nat (length compressed)) (f64_of_nat (length data)) in
  if SFltb ratio COMPRESSION_RATIO_THRESHOLD then Some compressed else None.

(** ** Serialization *)

(** Step 1: the payload, its wire type and the flags. *)
Definition quantize_step (dtype : TensorDtype) (data : list N) (m : QuantizationMode) :
    ser (list N * TensorDtype * N) :=
  match m with
  | QNone => Ok (data, dtype, 0%N)
  | QInt8 => if decide (dtype = Float16)
             then Ok (quantize_int8 data, Int8, flags_set 0 FLAG_QUANTIZED)
             else Err QuantNeedsFloat16
  | QInt4 => if decide (dtype = Float16)
             then Ok (quantize_int4 data, Int4, flags_set 0 FLAG_QUANTIZED)
             else Err QuantNeedsFloat16
  end.

(** Step 2. *)
Definition compress_step (want : bool) (payload : list N) (flags : N) : list N * N :=
  if want then
    match compress_if_beneficial payload with
    | Some compressed => (compressed, flags_set flags FLAG_COMPRESSED)
    | None => (payload, flags)
    end
  else (payload, flags).

Definition serialize_tensor (dtype : TensorDtype) (shape data : list N)
    (options : SerializeOptions) : ser (list N) :=
  _ ← validate_data_size dtype shape data;
  '(payload, wire_dtype, flags) ← quantize_step dtype data (quantization options);
  let '(payload, flags) := compress_step (opt_compress options) payload flags in
  let metadata_bytes := default [] (opt_metadata options) in
  let header := mkHeader PROTOCOL_VERSION flags (opt_kind options) wire_dtype shape
                  metadata_bytes (data_len_N payload) in
  header_bytes ← lift_header (encode header);
  Ok (header_bytes ++ payload).

(** The dequantization of step 2 of the receiver. *)
Definition dequantize_step (h : TensorHeader) (payload : list N) : ser (list N * TensorDtype) :=
  if flags_is_set (flags h) FLAG_QUANTIZED then
    num_elements ← checked_num_elements (shape h);
    match dtype h with
    | Int8 => p ← lift_quant (dequantize_int8 payload (N.to_nat num_elements)); Ok (p, Float16)
    | Int4 => p ← lift_quant (dequantize_int4 payload (N.to_nat num_elements)); Ok (p, Float16)
    | _ => Err BadQuantDtype
    end
  else Ok (payload, dtype h).

Definition deserialize_tensor (buf : list N) : ser (DeserializedTensor * nat) :=
  '(h, header_len) ← lift_header (decode buf);
  let data_start := N.of_nat header_len in
  let data_end := (data_start + data_len h)%N in
  if (u64_max <? data_end)%N then Err DataOffsetOverflow else
  if (data_len_N buf <? data_end)%N then Err DataTooShort else
  payload ← sub_ header_len (N.to_nat data_end) buf;
  let quantized := flags_is_set (flags h) FLAG_QUANTIZED in
  expected_wire_len ← expected_wire_payload_len (dtype h) (shape h) quantized;
  payload ← (if flags_is_set (flags h) FLAG_COMPRESSED
             then decompress_limited payload expected_wire_len else Ok payload);
  _ ← (if quantized then validate_quantized_payload (dtype h) (shape h) payload
       else validate_data_size (dtype h) (shape h) payload);
  '(payload, original_dtype) ← dequantize_step h payload;
  _ ← validate_data_size original_dtype (shape h) payload;
  metadata ← (match metadata h with
              | [] => Ok None
              | m => if utf8_valid m then Ok (Some m) else Err BadUtf8
              end);
  Ok (mkDeser original_dtype (shape h) (kind h) metadata payload, N.to_nat data_end).
End with_lz4.

(** ** Sizes accepted *)

Lemma outcome_of_Ok {E A} (o : option A) (e : E) a : outcome_of o e = Ok a ↔ o = Some a.
Proof. destruct o; cbn; split; congruence. Qed.

Lemma checked_mul_u64_Some a b c : checked_mul_u64 a b = Some c ↔ c = (a * b)%N ∧ (a * b ≤ u64_max)%N.
Proof.
  unfold checked_mul_u64. destruct (N.leb_spec (a * b) u64_max); split; try naive_solver lia.
Qed.

(** The size a tensor of [n] elements must have. *)
Definition dtype_bytes (d : TensorDtype) (n : N) : N :=
  if (element_size d =? 0)%N then div_ceil_N n 2 else (n * element_size d)%N.

Lemma validate_data_size_Ok d shape data :
  validate_data_size d shape data = Ok tt ↔
  ∃ n, checked_product shape = Some n ∧ data_len_N data = dtype_bytes d n ∧
       (n * element_size d ≤ u64_max)%N.
Proof.
  unfold validate_data_size, checked_num_elements, dtype_bytes.
  destruct (checked_product shape) as [n|]; cbn [outcome_of mbind outcome_bind]; [|naive_solver].
  destruct (N.eqb_spec (element_size d) 0) as [H0|H0].
  - destruct (N.eqb_spec (data_len_N data) (div_ceil_N n 2)); cbn [negb]; [|naive_solver].
    split; [|done]. intros _. exists n. split_and!; [done|done|]. rewrite H0. unfold u64_max. lia.
  - unfold checked_mul_u64. destruct (N.leb_spec (n * element_size d) u64_max);
      cbn [outcome_of mbind outcome_bind]; [|naive_solver lia].
    destruct (N.eqb_spec (data_len_N data) (n * element_size d)); cbn [negb]; naive_solver.
Qed.

Lemma validate_data_size_cases d shape data :
  validate_data_size d shape data = Ok tt ∨ ∃ e, validate_data_size d shape data = Err e.
Proof.
  unfold validate_data_size, checked_num_elements.
  destruct (checked_product shape) as [n|]; cbn [outcome_of mbind outcome_bind]; [|eauto].
  destruct (_ =? 0)%N; [case_match; eauto|].
  destruct (checked_mul_u64 _ _); cbn [outcome_of mbind outcome_bind]; [|by eauto].
  case_match; eauto.
Qed.

(** The number of code bytes of a quantized tensor of [n] elements. *)
Definition code_bytes (d : TensorDtype) (n : nat) : option nat :=
  match d with Int8 => Some n | Int4 => Some (div_ceil n 2) | _ => None end.

Lemma div_ceil_N_nat a b : N.to_nat (div_ceil_N a b) = div_ceil (N.to_nat a) (N.to_nat b).
Proof. unfold div_ceil_N. by rewrite Nat2N.id. Qed.

Lemma expected_quant_len d shape e :
  expected_wire_payload_len d shape true = Ok e →
  ∃ n dl, checked_product shape = Some n ∧ code_bytes d (N.to_nat n) = Some dl ∧
    N.to_nat e = 8 + div_ceil (N.to_nat n) DEFAULT_GROUP_SIZE * 2 + dl.
Proof.
  unfold expected_wire_payload_len, checked_num_elements. cbn [negb].
  destruct (checked_product shape) as [n|]; cbn [outcome_of mbind outcome_bind]; [|done].
  intros H.
  assert (∃ dl, code_bytes d (N.to_nat n) = Some (N.to_nat dl) ∧
    match d with Int8 => Ok n | Int4 => Ok (div_ceil_N n 2) | _ => Err BadQuantDtype end = Ok dl)
    as (dl & Hc & Hd).
  { destruct d; cbn in H |- *; try discriminate H; eexists; (split; [|done]);
      rewrite ?div_ceil_N_nat; done. }
  rewrite Hd in H. cbn [mbind outcome_bind] in H.
  destruct (checked_mul_u64 _ _) as [tg|] eqn:Hm; cbn [outcome_of mbind outcome_bind] in H; [|done].
  apply checked_mul_u64_Some in Hm as [-> _]. destruct (_ <=? u64_max)%N; [|done]. apply Ok_inj in H. subst e.
  exists n, (N.to_nat dl). split_and!; [done|done|].
  rewrite !N2Nat.inj_add, N2Nat.inj_mul, div_ceil_N_nat.
  change (N.to_nat GROUP_N) with DEFAULT_GROUP_SIZE. lia.
Qed.

(** [validate_quantized_payload] accepts exactly the payloads with the right
    geometry (when the sizes fit the machine), and never panics. *)
Lemma validate_quantized_Ok d shape P e :
  expected_wire_payload_len d shape true = Ok e →
  ∃ n dl, checked_product shape = Some n ∧ code_bytes d (N.to_nat n) = Some dl ∧
    (validate_quantized_payload d shape P = Ok tt ↔ payload_shape_ok P (N.to_nat n) dl) ∧
    validate_quantized_payload d shape P ≠ Panic.
Proof.
  intros He. destruct (expected_quant_len d shape e He) as (n & dl & Hn & Hc & Hlen).
  exists n, dl. split; [done|]. split; [done|].
  unfold validate_quantized_payload, payload_shape_ok. rewrite He. cbn [mbind outcome_bind].
  destruct (N.eqb_spec (data_len_N P) e) as [Heq|Hne]; cbn [negb].
  2: { split; [|done]. split; [done|]. intros (Hl & _). exfalso. apply Hne.
       unfold data_len_N. rewrite Hl, <- Hlen. lia. }
  assert (length P = N.to_nat e) as HP by (unfold data_len_N in Heq; lia).
  unfold checked_num_elements. rewrite Hn. cbn [outcome_of mbind outcome_bind].
  assert (@sub_ ser_error 0 4 P = Ok (take 4 P)) as -> by (apply sub_Ok; split; [lia|done]).
  cbn [mbind outcome_bind].
  assert (@sub_ ser_error 4 8 P = Ok (take 4 (drop 4 P))) as -> by (apply sub_Ok; split; [lia|done]).
  cbn [mbind outcome_bind].
  change GROUP_N with (N.of_nat DEFAULT_GROUP_SIZE). unfold div_ceil_N. rewrite Nat2N.id.
  destruct (N.eqb_spec (from_le_bytes (take 4 P))
    (N.of_nat (div_ceil (N.to_nat n) DEFAULT_GROUP_SIZE))); cbn [negb orb];
    [|split; [split; [done|by intros (_ & ? & _)]|done]].
  destruct (N.eqb_spec (from_le_bytes (take 4 (drop 4 P))) (N.of_nat DEFAULT_GROUP_SIZE));
    cbn [negb]; [|split; [split; [done|by intros (_ & _ & ?)]|done]].
  split; [|done]. split; [|done]. intros _. split_and!; [lia|done|done].
Qed.

(** ** Round trip *)

Section roundtrip.
Context {L : Lz4} {LL : Lz4Laws L}.

Lemma decompress_compress d limit :
  (N.of_nat (length d) < 2 ^ 32)%N → (data_len_N d ≤ limit)%N →
  decompress_limited (compress d) limit = Ok d.
Proof using LL.
  intros Hd Hl. unfold decompress_limited, compress.
  pose proof (lz4_prefix d) as Hp. pose proof (length_to_le_bytes 8 (data_len_N d)) as H8.
  assert (4 ≤ length (compress_prepend_size d)) as H4.
  { apply (f_equal length) in Hp. rewrite length_take, length_to_le_bytes in Hp. lia. }
  rewrite decide_False by (rewrite length_app; lia).
  rewrite sub_app_0 by done. cbn [mbind outcome_bind].
  rewrite from_to_le_bytes by (unfold data_len_N; change (256 ^ N.of_nat 8)%N with (2 ^ 64)%N; lia).
  rewrite (proj2 (N.ltb_ge _ _)) by done.
  rewrite decide_False by (rewrite length_app; lia).
  rewrite <- (take_drop 4 (compress_prepend_size d)) at 1. rewrite Hp.
  rewrite (sub_app _ (to_le_bytes 4 _)) by (rewrite !length_to_le_bytes; done).
  cbn [mbind outcome_bind]. unfold as_u32. rewrite (N.mod_small (N.of_nat (length d))) by done.
  rewrite from_to_le_bytes by done.
  unfold data_len_N at 1. rewrite N.eqb_refl. cbn [negb].
  rewrite drop_app_length' by done. rewrite lz4_roundtrip by done. cbn [outcome_of mbind outcome_bind].
  by rewrite N.eqb_refl.
Qed.

(** What a receiver computes on a message whose parts are all acceptable. *)
Lemma deserialize_message h payload rest e wp out od :
  header_wf h → data_len h = data_len_N payload →
  (N.of_nat (length (header_bytes h)) + data_len h ≤ u64_max)%N →
  expected_wire_payload_len (dtype h) (shape h) (flags_is_set (flags h) FLAG_QUANTIZED) = Ok e →
  (if flags_is_set (flags h) FLAG_COMPRESSED then decompress_limited payload e else Ok payload)
    = Ok wp →
  (if flags_is_set (flags h) FLAG_QUANTIZED then validate_quantized_payload (dtype h) (shape h) wp
   else validate_data_size (dtype h) (shape h) wp) = Ok tt →
  dequantize_step h wp = Ok (out, od) →
  validate_data_size od (shape h) out = Ok tt →
  utf8_valid (metadata h) = true →
  deserialize_tensor (header_bytes h ++ payload ++ rest) =
    Ok (mkDeser od (shape h) (kind h)
          (if decide (metadata h = []) then None else Some (metadata h)) out,
        length (header_bytes h) + length payload).
Proof using LL.
  intros Hwf Hdl Hu He Hc Hv Hq Ho Hm. unfold deserialize_tensor, data_len_N in *.
  rewrite decode_header_bytes by done. cbn [lift_header mbind outcome_bind].
  rewrite (proj2 (N.ltb_ge _ _)) by done.
  rewrite (proj2 (N.ltb_ge _ _)) by (rewrite !length_app; lia).
  rewrite Hdl, <- Nat2N.inj_add, Nat2N.id. rewrite sub_app by done. cbn [mbind outcome_bind].
  rewrite He. cbn [mbind outcome_bind]. rewrite Hc. cbn [mbind outcome_bind].
  rewrite Hv. cbn [mbind outcome_bind]. rewrite Hq. cbn [mbind outcome_bind].
  rewrite Ho. cbn [mbind outcome_bind].
  destruct (metadata h) as [|m0 ms] eqn:Em; [done|]. rewrite Hm. done.
Qed.

(** Either compression step can be undone by the receiver. *)
Lemma compress_step_undone want wp f payload f' e :
  compress_step want wp f = (payload, f') → f = 0%N ∨ f = 2%N →
  (N.of_nat (length wp) < 2 ^ 32)%N → (want = true → (data_len_N wp ≤ e)%N) →
  (if flags_is_set f' FLAG_COMPRESSED then decompress_limited payload e else Ok payload) = Ok wp ∧
  flags_is_set f' FLAG_QUANTIZED = flags_is_set f FLAG_QUANTIZED ∧
  is_byte f' ∧ length payload ≤ 2 * length wp + 32.
Proof using LL.
  intros Hs Hf Hlen He. unfold compress_step in Hs.
  destruct want; [|simplify_eq; destruct Hf; subst f'; split_and!; (done || lia)].
  unfold compress_if_beneficial in Hs. case_decide; [simplify_eq; destruct Hf; subst f'; split_and!; (done || lia)|].
  destruct (SFltb _ _); simplify_eq; [|destruct Hf; subst f'; split_and!; (done || lia)].
  assert (length (compress wp) ≤ 2 * length wp + 32) as Hl.
  { unfold compress. rewrite length_app, length_to_le_bytes. pose proof (lz4_bound wp). lia. }
  specialize (He eq_refl).
  destruct Hf; subst f; (split_and!; [by apply decompress_compress|done|done|done]).
Qed.
End roundtrip.

(** What the receiver gets for [data] sent with a quantization mode. *)
Definition delivered (m : QuantizationMode) (data : list N) : list N :=
  match m with
  | QNone => data
  | QInt8 => reconstruct_all 127 data
  | QInt4 => reconstruct_all 7 data
  end.

(** The options a sender may use for a tensor of type [dtype]. *)
Definition options_ok (dtype : TensorDtype) (o : SerializeOptions) : Prop :=
  let m := default [] (opt_metadata o) in
  (quantization o ≠ QNone → dtype = Float16) ∧
  (opt_compress o = true → quantization o = QNone → dtype ≠ Int4) ∧
  (N.of_nat (length m) ≤ MAX_METADATA_LEN)%N ∧ is_bytes m ∧ utf8_valid m = true.

(** Metadata within the limit of the format, a string. *)
Definition metadata_ok (o : SerializeOptions) : Prop :=
  let m := default [] (opt_metadata o) in
  (N.of_nat (length m) ≤ MAX_METADATA_LEN)%N ∧ is_bytes m ∧ utf8_valid m = true.

Definition quantizes (o : SerializeOptions) : bool := match quantization o with QNone => false | _ => true end.

(** The payload of an unquantized tensor goes out compressed. *)
Definition sent_compressed {L : Lz4} (o : SerializeOptions) (data : list N) : bool :=
  opt_compress o && bool_decide (is_Some (compress_if_beneficial data)).

Definition shape_ok (shape : list N) : Prop :=
  (N.of_nat (length shape) ≤ MAX_NDIM)%N ∧ Forall (λ d, (d < 2 ^ 64)%N) shape.

Lemma div_ceil_bound a b : 0 < b → div_ceil a b ≤ a.
Proof. intros Hb. apply div_ceil_le; [done|]. nia. Qed.

Lemma expected_quant_Ok d shape n dl :
  checked_product shape = Some n → code_bytes d (N.to_nat n) = Some dl → (n < 2 ^ 32)%N →
  ∃ e, expected_wire_payload_len d shape true = Ok e.
Proof.
  intros Hn Hc Hb. unfold expected_wire_payload_len, checked_num_elements. cbn [negb].
  rewrite Hn. cbn [outcome_of mbind outcome_bind].
  assert (∀ b, (0 < b)%N → (div_ceil_N n b ≤ n)%N) as Hd.
  { intros b Hb0. unfold div_ceil_N. pose proof (div_ceil_bound (N.to_nat n) (N.to_nat b)). lia. }
  pose proof (Hd GROUP_N ltac:(done)) as H1. pose proof (Hd 2%N ltac:(done)) as H2.
  assert (∃ x, match d with Int8 => Ok n | Int4 => Ok (div_ceil_N n 2) | _ => Err BadQuantDtype end
    = Ok x ∧ (x ≤ n)%N) as (x & -> & Hx).
  { destruct d; try discriminate Hc; eexists; (split; [done|]); lia. }
  cbn [mbind outcome_bind]. unfold checked_mul_u64, u64_max.
  rewrite (proj2 (N.leb_le _ _)) by lia. cbn [outcome_of mbind outcome_bind].
  rewrite (proj2 (N.leb_le _ _)) by lia. eauto.
Qed.

(** A quantized half tensor: what the receiver checks of its payload. *)
Lemma quant_payload_accepted wd shape data wp n dl :
  checked_product shape = Some n → data_len_N data = (n * 2)%N →
  (N.of_nat (length data) + 16 < 2 ^ 32)%N →
  code_bytes wd (N.to_nat n) = Some dl → dl ≤ N.to_nat n →
  payload_shape_ok wp (N.to_nat n) dl →
  ∃ e, expected_wire_payload_len wd shape true = Ok e ∧ data_len_N wp = e ∧
    (N.of_nat (length wp) < 2 ^ 32)%N ∧ validate_quantized_payload wd shape wp = Ok tt.
Proof.
  intros Hn Hd Hb Hc Hdl Hwp. unfold data_len_N in *.
  destruct (expected_quant_Ok wd shape n dl) as [e He]; [done|done|lia|].
  destruct (validate_quantized_Ok wd shape wp e He) as (n' & dl' & Hn' & Hc' & Hv & _).
  simplify_eq. destruct (expected_quant_len _ _ _ He) as (n'' & dl'' & ? & ? & Hlen). simplify_eq.
  pose proof (proj1 Hwp) as Hl. pose proof (div_ceil_spec (N.to_nat n) DEFAULT_GROUP_SIZE) as Hg.
  assert (div_ceil (N.to_nat n) DEFAULT_GROUP_SIZE * 2 ≤ N.to_nat n + 2).
  { unfold DEFAULT_GROUP_SIZE in *. lia. }
  exists e. split_and!; [done|lia|lia|by apply Hv].
Qed.

Lemma num_groups_small data :
  (N.of_nat (length data) + 16 < 2 ^ 32)%N → (N.of_nat (num_groups_of data) < 2 ^ 32)%N.
Proof.
  intros H. unfold num_groups_of.
  pose proof (div_ceil_bound (length data `div` 2) DEFAULT_GROUP_SIZE
    ltac:(unfold DEFAULT_GROUP_SIZE; lia)).
  pose proof (Nat.Div0.div_le_upper_bound (length data) 2 (length data)). lia.
Qed.

(** The wire payload of each mode, and what the receiver checks of it. *)
Lemma quantize_step_ok dtype shape data m :
  validate_data_size dtype shape data = Ok tt → (m ≠ QNone → dtype = Float16) →
  (N.of_nat (length data) + 16 < 2 ^ 32)%N →
  ∃ wp wd f e, quantize_step dtype data m = Ok (wp, wd, f) ∧ (f = 0 ∨ f = 2)%N ∧
    expected_wire_payload_len wd shape (flags_is_set f FLAG_QUANTIZED) = Ok e ∧
    ((m = QNone → dtype ≠ Int4) → (data_len_N wp ≤ e)%N) ∧
    (N.of_nat (length wp) < 2 ^ 32)%N ∧
    (if flags_is_set f FLAG_QUANTIZED then validate_quantized_payload wd shape wp
     else validate_data_size wd shape wp) = Ok tt ∧
    (∀ v k md dl f', flags_is_set f' FLAG_QUANTIZED = flags_is_set f FLAG_QUANTIZED →
       dequantize_step (mkHeader v f' k wd shape md dl) wp = Ok (delivered m data, dtype)) ∧
    validate_data_size dtype shape (delivered m data) = Ok tt.
Proof.
  intros Hv Hq Hb. apply validate_data_size_Ok in Hv as (n & Hn & Hd & Hu).
  destruct (decide (m = QNone)) as [->|Hm].
  { exists data, dtype, 0%N, (n * element_size dtype)%N.
    assert (validate_data_size dtype shape data = Ok tt) as Hv by (apply validate_data_size_Ok; eauto).
    split_and!; [done|by left| | |lia|done| |done].
    - unfold expected_wire_payload_len, checked_num_elements.
      change (flags_is_set 0 FLAG_QUANTIZED) with false. cbn [negb]. rewrite Hn.
      cbn [outcome_of mbind outcome_bind]. unfold checked_mul_u64.
      by rewrite (proj2 (N.leb_le _ _)).
    - intros Hi. specialize (Hi eq_refl). rewrite Hd. unfold dtype_bytes. by destruct dtype.
    - intros v k md dl f' Hf. unfold dequantize_step. cbn [flags WireHeader.dtype].
      rewrite Hf. done. }
  specialize (Hq Hm). subst dtype. cbn [dtype_bytes element_size N.eqb] in Hd.
  assert (length data `div` 2 = N.to_nat n) as Hn2.
  { unfold data_len_N in Hd. replace (length data) with (N.to_nat n * 2) by lia.
    by rewrite Nat.div_mul. }
  pose proof (num_groups_small data Hb) as HG. destruct (quantize_shape_ok data HG) as [H8 H4].
  rewrite Hn2 in H8, H4.
  assert (validate_data_size Float16 shape (delivered m data) = Ok tt) as Hdel.
  { apply validate_data_size_Ok. exists n. split_and!; [done| |done]. unfold data_len_N, dtype_bytes. cbn.
    destruct m; [done| |]; cbn [delivered]; rewrite length_reconstruct_all, Hn2; lia. }
  destruct m; [done| |].
  - destruct (quant_payload_accepted Int8 shape data (quantize_int8 data) n (N.to_nat n))
      as (e & He & Hl & Hs & Hval); [done|done|done|done|done|done|].
    exists (quantize_int8 data), Int8, 2%N, e.
    split_and!; [done|by right|done|by rewrite Hl|done|done| |done].
    intros v k md dl f' Hf. unfold dequantize_step. cbn [flags WireHeader.shape WireHeader.dtype].
    rewrite Hf. change (flags_is_set 2 FLAG_QUANTIZED) with true.
    unfold checked_num_elements. rewrite Hn. cbn [outcome_of mbind outcome_bind].
    rewrite <- Hn2, dequantize_quantize_int8 by done. done.
  - destruct (quant_payload_accepted Int4 shape data (quantize_int4 data) n (div_ceil (N.to_nat n) 2))
      as (e & He & Hl & Hs & Hval); [done|done|done|done|by apply div_ceil_bound; lia|done|].
    exists (quantize_int4 data), Int4, 2%N, e.
    split_and!; [done|by right|done|by rewrite Hl|done|done| |done].
    intros v k md dl f' Hf. unfold dequantize_step. cbn [flags WireHeader.shape WireHeader.dtype].
    rewrite Hf. change (flags_is_set 2 FLAG_QUANTIZED) with true.
    unfold checked_num_elements. rewrite Hn. cbn [outcome_of mbind outcome_bind].
    rewrite <- Hn2, dequantize_quantize_int4 by done. done.
Qed.

Lemma serialize_roundtrip_aux {L : Lz4} {LL : Lz4Laws L} dtype shape data o rest :
  validate_data_size dtype shape data = Ok tt → shape_ok shape → options_ok dtype o →
  (N.of_nat (length data) + 16 < 2 ^ 32)%N →
  ∃ buf, serialize_tensor dtype shape data o = Ok buf ∧
    deserialize_tensor (buf ++ rest) =
      Ok (mkDeser dtype shape (opt_kind o)
            (if decide (default [] (opt_metadata o) = []) then None else opt_metadata o)
            (delivered (quantization o) data), length buf).
Proof.
  intros Hv [Hsl Hsd] (Hq & Hi4 & Hml & Hmb & Hmu) Hb.
  destruct (quantize_step_ok dtype shape data (quantization o) Hv Hq Hb)
    as (wp & wd & f & e & Hqs & Hf & He & Hle & Hwp & Hval & Hdq & Hdel).
  unfold serialize_tensor. rewrite Hv. cbn [mbind outcome_bind]. rewrite Hqs.
  cbn [mbind outcome_bind]. destruct (compress_step (opt_compress o) wp f) as [payload f'] eqn:Hc.
  destruct (compress_step_undone _ _ _ _ _ e Hc Hf Hwp) as (Hun & Hff & Hfb & Hpl).
  { intros Hw. apply Hle. by apply Hi4. }
  set (h := mkHeader PROTOCOL_VERSION f' (opt_kind o) wd shape (default [] (opt_metadata o))
              (data_len_N payload)).
  assert (header_wf h) as Hwf.
  { unfold header_wf, h. cbn. split_and!; try done. unfold data_len_N. lia. }
  rewrite encode_Ok by done. cbn [lift_header mbind outcome_bind].
  eexists. split; [done|]. rewrite <- app_assoc.
  erewrite (deserialize_message h payload rest e wp (delivered (quantization o) data) dtype);
    [|done|done| |by cbn; rewrite Hff|done|by cbn; rewrite Hff|by apply Hdq|done|done].
  - rewrite length_app. f_equal. f_equal. cbn [WireHeader.shape kind metadata h]. f_equal.
    by destruct (opt_metadata o) as [[|]|].
  - rewrite length_header_bytes. cbn. unfold data_len_N, u64_max, MAX_NDIM, MAX_METADATA_LEN in *. lia.
Qed.

(** ** The receiver never panics *)

Lemma decompress_no_panic {L : Lz4} d limit : decompress_limited d limit ≠ Panic.
Proof.
  unfold decompress_limited. case_decide; [done|].
  destruct (@sub_in_range ser_error 0 8 d) as (p & -> & _); [lia|]. cbn [mbind outcome_bind].
  destruct (_ <? _)%N; [done|]. case_decide; [done|].
  destruct (@sub_in_range ser_error 8 12 d) as (q & -> & _); [lia|]. cbn [mbind outcome_bind].
  destruct (negb _); [done|]. destruct (decompress_size_prepended _); cbn [outcome_of mbind outcome_bind];
    [|done]. by destruct (negb _).
Qed.

Lemma dequantize_step_no_panic h P e :
  expected_wire_payload_len (dtype h) (shape h) (flags_is_set (flags h) FLAG_QUANTIZED) = Ok e →
  (if flags_is_set (flags h) FLAG_QUANTIZED then validate_quantized_payload (dtype h) (shape h) P
   else validate_data_size (dtype h) (shape h) P) = Ok tt →
  dequantize_step h P ≠ Panic.
Proof.
  intros He Hv. unfold dequantize_step. destruct (flags_is_set (flags h) FLAG_QUANTIZED); [|done].
  destruct (validate_quantized_Ok _ _ P _ He) as (n & dl & Hn & Hc & Hiff & _).
  apply Hiff in Hv. unfold checked_num_elements. rewrite Hn. cbn [outcome_of mbind outcome_bind].
  destruct (dtype h); try done; cbn in Hc; simplify_eq.
  - destruct (dequantize_int8_total P (N.to_nat n) Hv) as (out & -> & _). done.
  - destruct (dequantize_int4_total P (N.to_nat n) Hv) as (out & -> & _). done.
Qed.

Lemma expected_no_panic d s q : expected_wire_payload_len d s q ≠ Panic.
Proof.
  unfold expected_wire_payload_len, checked_num_elements.
  destruct q, (checked_product s); cbn [negb outcome_of mbind outcome_bind]; try done.
  - destruct d; cbn [mbind outcome_bind]; try done;
      destruct (checked_mul_u64 _ _); cbn [outcome_of mbind outcome_bind]; try done; by case_match.
  - by destruct (checked_mul_u64 _ _).
Qed.

Lemma beneficial_spec {L : Lz4} data payload : compress_if_beneficial data = Some payload → 0 < length data ∧ payload = compress data.
Proof. unfold compress_if_beneficial. case_decide; [done|]. destruct (SFltb _ _); [intros [= <-]; split; [lia|done]|done]. Qed.

(** A packed 4-bit tensor that is sent unquantized and compressed: the receiver computes the size
    of its payload from an element size of zero bytes. *)
Lemma compressed_int4_message {L : Lz4} {LL : Lz4Laws L} shape data o payload rest :
  quantization o = QNone → opt_compress o = true → validate_data_size Int4 shape data = Ok tt →
  (N.of_nat (length data) < 2 ^ 32)%N → compress_if_beneficial data = Some payload →
  header_wf (mkHeader PROTOCOL_VERSION 1 (opt_kind o) Int4 shape (default [] (opt_metadata o)) (data_len_N payload)) →
  ∃ buf, serialize_tensor Int4 shape data o = Ok buf ∧
         deserialize_tensor (buf ++ rest) = Err (OutputTooLong (data_len_N data) 0).
Proof.
  intros Hq Ho Hv Hb Hc Hwf. unfold serialize_tensor. rewrite Hv. cbn [mbind outcome_bind]. rewrite Hq, Ho.
  cbn [quantize_step mbind outcome_bind]. unfold compress_step. rewrite Hc.
  set (h := mkHeader _ _ _ _ _ _ _) in *. change (mkHeader _ _ _ _ _ _ _) with h.
  rewrite encode_Ok by done. cbn [lift_header mbind outcome_bind]. eexists. split; [done|].
  destruct (beneficial_spec _ _ Hc) as [H0 ->].
  pose proof (lz4_bound data) as Hlz. pose proof (length_header_bytes h) as Hlh.
  pose proof Hwf as (_ & _ & Hn & _ & Hm & _).
  assert (length (compress data) = 8 + length (compress_prepend_size data)) as Hlc.
  { unfold compress. by rewrite length_app, length_to_le_bytes. }
  unfold deserialize_tensor. rewrite <- app_assoc, decode_header_bytes by done. cbn [lift_header mbind outcome_bind].
  change (data_len h) with (data_len_N (compress data)). unfold data_len_N.
  cbn [WireHeader.shape metadata h] in Hn, Hm, Hlh. unfold MAX_NDIM, MAX_METADATA_LEN, u64_max in *.
  rewrite (proj2 (N.ltb_ge _ _)) by lia.
  rewrite (proj2 (N.ltb_ge _ _)) by (rewrite !length_app; lia).
  rewrite <- Nat2N.inj_add, Nat2N.id.
  assert (@sub_ ser_error (length (header_bytes h)) (length (header_bytes h) + length (compress data))
            (header_bytes h ++ compress data ++ rest) = Ok (compress data)) as -> by (by apply sub_app).
  cbn [mbind outcome_bind].
  apply validate_data_size_Ok in Hv as (n & Hpn & _ & _).
  change (flags_is_set (flags h) FLAG_QUANTIZED) with false.
  change (flags_is_set (flags h) FLAG_COMPRESSED) with true.
  unfold expected_wire_payload_len, checked_num_elements.
  cbn [negb WireHeader.shape h]. rewrite Hpn. cbn [outcome_of mbind outcome_bind dtype h element_size].
  unfold checked_mul_u64. rewrite N.mul_0_r. cbn [N.leb N.compare outcome_of mbind outcome_bind u64_max].
  unfold decompress_limited. rewrite decide_False by lia.
  assert (@sub_ ser_error 0 8 (compress data) = Ok (to_le_bytes 8 (data_len_N data))) as ->.
  { apply sub_app_0. by rewrite length_to_le_bytes. }
  cbn [mbind outcome_bind].
  rewrite from_to_le_bytes by (unfold data_len_N; change (256 ^ N.of_nat 8)%N with (2 ^ 64)%N; lia).
  by rewrite (proj2 (N.ltb_lt _ _)) by (unfold data_len_N; lia).
Qed.

Lemma int4_not_quantized o : (quantization o ≠ QNone → Int4 = Float16) → quantization o = QNone.
Proof. intros Hf. destruct (quantization o); [done|by discriminate Hf..]. Qed.

Lemma uncompressed_same {L : Lz4} dtype shape data o :
  quantization o = QNone → compress_if_beneficial data = None →
  serialize_tensor dtype shape data o =
  serialize_tensor dtype shape data (mkSerOpts (opt_kind o) QNone false (opt_metadata o)).
Proof.
  intros Hq Hc. unfold serialize_tensor. rewrite Hq. destruct (validate_data_size dtype shape data); [|done..]. cbn.
  unfold compress_step. rewrite Hc. by destruct (opt_compress o).
Qed.

(** C22. Tensor serialization, for a tensor whose data fits its shape (at most [MAX_NDIM]
    dimensions of 64 bits, below the 4 GiB of the compressor's length prefix) and metadata within
    its limit. Asking for quantization of anything but f16 is refused by the sender. In all other
    cases serializing succeeds, and deserializing the message (whatever follows it in the buffer)
    returns the same type, shape and kind together with the number of bytes of the message, and
    the same metadata except that an empty string comes back as none; but for a packed 4-bit
    tensor that went out compressed, which the receiver refuses. The data is the sender's, byte
    for byte, without quantization; with 8-bit or 4-bit quantization it is the reconstruction of
    each element from its code and its group's scale. *)
Theorem tensor_serialize_roundtrip {L : Lz4} {LL : Lz4Laws L} dtype shape data o rest :
  validate_data_size dtype shape data = Ok tt → shape_ok shape → metadata_ok o →
  (N.of_nat (length data) + 16 < 2 ^ 32)%N →
  if decide (quantizes o = true ∧ dtype ≠ Float16) then serialize_tensor dtype shape data o = Err QuantNeedsFloat16
  else
    ∃ buf, serialize_tensor dtype shape data o = Ok buf ∧
      deserialize_tensor (buf ++ rest) =
        if decide (dtype = Int4 ∧ sent_compressed o data = true) then Err (OutputTooLong (data_len_N data) 0)
        else Ok (mkDeser dtype shape (opt_kind o)
                   (if decide (default [] (opt_metadata o) = []) then None else opt_metadata o)
                   (delivered (quantization o) data), length buf).
Proof.
  intros Hv Hs Hm Hb. case_decide as Hq.
  { destruct Hq as [Hq Hd]. unfold quantizes in Hq. unfold serialize_tensor. rewrite Hv. cbn [mbind outcome_bind].
    unfold quantize_step. by destruct (quantization o); [|rewrite decide_False..]. }
  assert (quantization o ≠ QNone → dtype = Float16) as Hf.
  { intros Hn. apply dec_stable. intros Hd. apply Hq. split; [|done]. unfold quantizes. by destruct (quantization o). }
  destruct (decide (dtype = Int4 ∧ sent_compressed o data = true)) as [[-> [Ho [payload Hc]%bool_decide_eq_true]%andb_true_iff]|Hno].
  - apply (compressed_int4_message _ _ _ payload); try done; [by apply int4_not_quantized|lia|].
    destruct (beneficial_spec _ _ Hc) as [_ ->]. destruct Hs, Hm as (? & ? & _). unfold header_wf. cbn. split_and!; try done.
    pose proof (lz4_bound data). unfold data_len_N. cbn [length]. lia.
  - destruct (decide (dtype = Int4 ∧ opt_compress o = true)) as [[-> Ho]|Hno'].
    2: { apply serialize_roundtrip_aux; [done..| |done]. split; [done|]. split; [naive_solver|done]. }
    pose proof (int4_not_quantized o Hf) as Hn. destruct (compress_if_beneficial data) as [payload|] eqn:Hc.
    { destruct Hno. split; [done|]. unfold sent_compressed. by rewrite Ho, Hc. }
    rewrite (uncompressed_same _ _ _ o Hn Hc), Hn.
    apply (serialize_roundtrip_aux Int4 shape data (mkSerOpts (opt_kind o) QNone false (opt_metadata o)) rest); [done..| |done]. by split.
Qed.

(** C32. A receiver is safe on any bytes from the network: whatever the
    codec answers, deserialization never indexes out of range; and what it
    accepts is consistent: the data it returns has exactly the size its type
    and shape require, whatever the message claimed. *)
Theorem deserialize_safe {L : Lz4} buf :
  deserialize_tensor buf ≠ Panic ∧
  (∀ t n, deserialize_tensor buf = Ok (t, n) →
     n ≤ length buf ∧ validate_data_size (de_dtype t) (de_shape t) (de_data t) = Ok tt).
Proof.
  unfold deserialize_tensor. pose proof (decode_no_panic buf) as Hd.
  destruct (decode buf) as [[h hl]|er|] eqn:Edec; cbn [lift_header mbind outcome_bind]; [|done|done].
  clear Hd Edec. destruct (N.ltb_spec u64_max (N.of_nat hl + data_len h)); [done|].
  destruct (N.ltb_spec (data_len_N buf) (N.of_nat hl + data_len h)); [done|].
  unfold data_len_N in *.
  destruct (@sub_in_range ser_error hl (N.to_nat (N.of_nat hl + data_len h)) buf) as (p & -> & _); [lia|].
  cbn [mbind outcome_bind].
  pose proof (expected_no_panic (dtype h) (shape h) (flags_is_set (flags h) FLAG_QUANTIZED)) as Hne.
  destruct (expected_wire_payload_len _ _ _) as [e| |] eqn:He; cbn [mbind outcome_bind]; [|done|done].
  assert ((if flags_is_set (flags h) FLAG_COMPRESSED then decompress_limited p e else Ok p) ≠ Panic) as Hdp.
  { destruct (flags_is_set _ FLAG_COMPRESSED); [apply decompress_no_panic|done]. }
  destruct (if flags_is_set (flags h) FLAG_COMPRESSED then _ else _) as [wp| |];
    cbn [mbind outcome_bind]; [|done|done].
  assert ((if flags_is_set (flags h) FLAG_QUANTIZED
           then validate_quantized_payload (dtype h) (shape h) wp
           else validate_data_size (dtype h) (shape h) wp) ≠ Panic) as Hvp.
  { destruct (flags_is_set (flags h) FLAG_QUANTIZED).
    - by destruct (validate_quantized_Ok _ _ wp _ He) as (? & ? & _ & _ & _ & ?).
    - by destruct (validate_data_size_cases (dtype h) (shape h) wp) as [->|[? ->]]. }
  destruct (if flags_is_set (flags h) FLAG_QUANTIZED then _ else _) as [[]| |] eqn:Hv;
    cbn [mbind outcome_bind]; [|done|done].
  pose proof (dequantize_step_no_panic h wp e He Hv) as Hdq.
  destruct (dequantize_step h wp) as [[out od]| |]; cbn [mbind outcome_bind]; [|done|done].
  destruct (validate_data_size_cases od (shape h) out) as [Hvd|[? ->]]; [|done].
  rewrite Hvd. cbn [mbind outcome_bind].
  destruct (metadata h) as [|m0 ms]; [|destruct (utf8_valid (m0 :: ms)); [|done]]; cbn [mbind outcome_bind];
    (split; [done|]); intros t n [= <- <-]; (split; [lia|done]).
Qed.

(** A codec with the documented laws: a run of one byte is stored once, any
    other input verbatim. *)
Definition run_codec : Lz4 := {|
  compress_prepend_size d :=
    to_le_bytes 4 (as_u32 (N.of_nat (length d))) ++
    match d with
    | [] => [0%N]
    | b :: r => if decide (Forall (eq b) r) then [1%N; b] else 0%N :: d
    end;
  decompress_size_prepended s :=
    match drop 4 s with
    | 0%N :: d => Some d
    | [1%N; b] => Some (replicate (N.to_nat (from_le_bytes (take 4 s))) b)
    | _ => None
    end;
|}.

Lemma run_codec_laws : Lz4Laws run_codec.
Proof.
  split; cbn [compress_prepend_size decompress_size_prepended run_codec]; intros d.
  - intros Hd. apply Forall_app. split; [apply to_le_bytes_are_bytes|].
    destruct Hd as [|b r Hb Hr]; [by repeat constructor|].
    case_decide; repeat (constructor; try done).
  - by rewrite take_app_length' by (by rewrite length_to_le_bytes).
  - intros Hd. pose proof (length_to_le_bytes 4 (as_u32 (N.of_nat (length d)))) as H4.
    rewrite drop_app_length', take_app_length' by done.
    destruct d as [|b r]; [done|]. case_decide as Hr; [|done].
    unfold as_u32. rewrite N.mod_small by done. rewrite from_to_le_bytes, Nat2N.id by done.
    cbn. do 2 f_equal. clear -Hr. induction Hr as [|c r <- _ IH]; [done|]. cbn. by rewrite IH.
  - rewrite length_app, length_to_le_bytes. destruct d as [|b r]; [cbn; lia|]. case_decide; cbn; lia.
Qed.

Definition compressing : SerializeOptions := mkSerOpts KVCache QNone true (Some [123; 125]%N).

Lemma tensor_serialize_roundtrip_witness :
  ∃ buf, @serialize_tensor run_codec Float32 [8; 4]%N (replicate 128 7%N) compressing = Ok buf ∧
    length buf = 52 ∧
    @deserialize_tensor run_codec (buf ++ [9]%N) =
      Ok (mkDeser Float32 [8; 4]%N KVCache (Some [123; 125]%N) (replicate 128 7%N), 52).
Proof.
  pose proof (@tensor_serialize_roundtrip run_codec run_codec_laws Float32 [8; 4]%N
              (replicate 128 7%N) compressing [9]%N) as H.
  destruct H as (buf & H1 & H2).
  - vm_compute. reflexivity.
  - split; [vm_compute; discriminate|]. repeat (apply Forall_cons; split; [reflexivity|]). by apply Forall_nil.
  - split_and!; [vm_compute; discriminate| |reflexivity].
    repeat (apply Forall_cons; split; [reflexivity|]). by apply Forall_nil.
  - reflexivity.
  - vm_compute in H1. injection H1 as <-.
    exact (ex_intro _ _ (conj eq_refl (conj eq_refl H2))).
Defined.

(** The two other outcomes on concrete tensors: 64 bytes of packed 4-bit zeros sent compressed, and
    32-bit floats to be quantized. *)
Example int4_compressed_is_refused :
  (buf ← @serialize_tensor run_codec Int4 [128]%N (replicate 64 0%N) (mkSerOpts KVCache QNone true None);
   @deserialize_tensor run_codec buf) = Err (OutputTooLong 64 0).
Proof. vm_compute. reflexivity. Qed.

Example float32_not_quantized :
  @serialize_tensor run_codec Float32 [1]%N [0; 0; 0; 0]%N (mkSerOpts KVCache QInt8 false None) = Err QuantNeedsFloat16.
Proof. vm_compute. reflexivity. Qed.
