(* ===== verification/Mlx.v ===== *)
(** * The tensor operations the caches use

    The MLX array library is outside the repository's Rust code (it is reached
    through [ffi::*]). [Mlx] lists the calls the paged KV pool makes and
    [MlxLaws] what the library documents of them, element by element, for
    arguments in range. An instance with concrete arrays shows that the laws
    can hold together. Shapes and indices are lists of [i32], as [Z]. *)

From S2P Require Import Prelude.
Local Open Scope Z_scope.

Class Mlx := {
  MlxArray : Type;
  elt : Type;
  array_shape : MlxArray → list Z;
  array_dtype : MlxArray → Z;
  array_nbytes : MlxArray → nat;
  elem : MlxArray → list Z → elt;
  zeros : list Z → Z → MlxArray;
  slice : MlxArray → list Z → list Z → MlxArray;
  slice_update : MlxArray → MlxArray → list Z → list Z → MlxArray;
  reshape : MlxArray → list Z → MlxArray;
  transpose_axes : MlxArray → list nat → MlxArray;
  from_slice_i32 : list Z → list Z → MlxArray;
  take_rows : MlxArray → MlxArray → MlxArray;
  concatenate_rows : list MlxArray → MlxArray;
}.

(** [idx] is an index of an array of shape [s]. *)
Definition in_shape (s idx : list Z) : Prop := Forall2 (λ n i, 0 ≤ i < n) s idx.

(** Concrete ranks: one bound per axis. *)
Ltac shape_tac := unfold in_shape; repeat (constructor; [lia|]); constructor.

(** [starts]..[stops] is a window of shape [s]. *)
Definition window_ok (s starts stops : list Z) : Prop :=
  Forall2 (λ a b, 0 ≤ a ≤ b) starts stops ∧ Forall2 (λ b n, b ≤ n) stops s.

Definition add_idx (i j : list Z) : list Z := zip_with Z.add i j.
Definition sub_idx (i j : list Z) : list Z := zip_with Z.sub i j.

Definition in_window (starts stops idx : list Z) : bool :=
  forallb id (zip_with (λ a i, a <=? i) starts idx) &&
  forallb id (zip_with (λ b i, i <? b) stops idx).

(** Row-major position of an index. *)
Fixpoint linear (s idx : list Z) : Z :=
  match s, idx with
  | _ :: s', i :: idx' => i * foldr Z.mul 1 s' + linear s' idx'
  | _, _ => 0
  end.

Definition size_of (s : list Z) : Z := foldr Z.mul 1 s.

Definition permute {A} (perm : list nat) (l : list A) : list A := omap (λ p, l !! p) perm.

Class MlxLaws (X : Mlx) : Prop := {
  zeros_shape s d : array_shape (zeros s d) = s;
  zeros_dtype s d : array_dtype (zeros s d) = d;
  slice_shape a st sp : window_ok (array_shape a) st sp →
    array_shape (slice a st sp) = sub_idx sp st;
  slice_dtype a st sp : array_dtype (slice a st sp) = array_dtype a;
  slice_elem a st sp idx : window_ok (array_shape a) st sp → in_shape (sub_idx sp st) idx →
    elem (slice a st sp) idx = elem a (add_idx idx st);
  slice_update_shape a u st sp : window_ok (array_shape a) st sp →
    array_shape u = sub_idx sp st → array_shape (slice_update a u st sp) = array_shape a;
  slice_update_elem a u st sp idx : window_ok (array_shape a) st sp →
    array_shape u = sub_idx sp st → array_dtype u = array_dtype a → in_shape (array_shape a) idx →
    elem (slice_update a u st sp) idx =
      if in_window st sp idx then elem u (sub_idx idx st) else elem a idx;
  slice_update_dtype a u st sp : array_dtype (slice_update a u st sp) = array_dtype a;
  reshape_shape a s : size_of s = size_of (array_shape a) → array_shape (reshape a s) = s;
  reshape_dtype a s : array_dtype (reshape a s) = array_dtype a;
  reshape_elem a s idx idx' : size_of s = size_of (array_shape a) →
    in_shape s idx → in_shape (array_shape a) idx' →
    linear s idx = linear (array_shape a) idx' → elem (reshape a s) idx = elem a idx';
  transpose_shape a perm : perm ≡ₚ seq 0 (length (array_shape a)) →
    array_shape (transpose_axes a perm) = permute perm (array_shape a);
  transpose_dtype a perm : array_dtype (transpose_axes a perm) = array_dtype a;
  transpose_elem a perm idx : perm ≡ₚ seq 0 (length (array_shape a)) →
    in_shape (array_shape a) idx →
    elem (transpose_axes a perm) (permute perm idx) = elem a idx;
  take_shape a l n s : array_shape a = n :: s → Forall (λ i, 0 ≤ i < n) l →
    array_shape (take_rows a (from_slice_i32 l [Z.of_nat (length l)])) = Z.of_nat (length l) :: s;
  take_elem a l n s i r idx : array_shape a = n :: s → Forall (λ i, 0 ≤ i < n) l →
    l !! i = Some r → in_shape s idx →
    elem (take_rows a (from_slice_i32 l [Z.of_nat (length l)])) (Z.of_nat i :: idx)
      = elem a (r :: idx);
  concatenate_shape ns s arrs : arrs ≠ [] → array_shape <$> arrs = (λ n, n :: s) <$> ns →
    array_shape (concatenate_rows arrs) = foldr Z.add 0 ns :: s;
  concatenate_elem ns s arrs k a n j idx : array_shape <$> arrs = (λ n, n :: s) <$> ns →
    Forall (λ n, 0 ≤ n) ns → arrs !! k = Some a → ns !! k = Some n → 0 ≤ j < n → in_shape s idx →
    elem (concatenate_rows arrs) (foldr Z.add 0 (take k ns) + j :: idx) = elem a (j :: idx);
}.

(** ** An instance *)

Record Array := mkArray { arr_shape : list Z; arr_dtype : Z; arr_get : list Z → Z }.

(** The index at a row-major position. *)
Fixpoint unlinear (s : list Z) (k : Z) : list Z :=
  match s with
  | [] => []
  | _ :: s' => k / size_of s' :: unlinear s' (k mod size_of s')
  end.

(** The index of [a] from which [permute perm] makes [idx]. *)
Definition unpermute (perm : list nat) (idx : list Z) : list Z :=
  omap (λ i, p ← list_find (eq i) perm; idx !! p.1) (seq 0 (length perm)).

Fixpoint concat_get (arrs : list Array) (i : Z) (idx : list Z) : Z :=
  match arrs with
  | [] => 0
  | a :: r =>
    let n := default 0 (head (arr_shape a)) in
    if i <? n then arr_get a (i :: idx) else concat_get r (i - n) idx
  end.

Definition arrays : Mlx := {|
  MlxArray := Array;
  elt := Z;
  array_shape := arr_shape;
  array_dtype := arr_dtype;
  array_nbytes a := Z.to_nat (size_of (arr_shape a) * 2);
  elem := arr_get;
  zeros s d := mkArray s d (λ _, 0);
  slice a st sp := mkArray (sub_idx sp st) (arr_dtype a) (λ idx, arr_get a (add_idx idx st));
  slice_update a u st sp := mkArray (arr_shape a) (arr_dtype a)
    (λ idx, if in_window st sp idx then arr_get u (sub_idx idx st) else arr_get a idx);
  reshape a s := mkArray s (arr_dtype a) (λ idx, arr_get a (unlinear (arr_shape a) (linear s idx)));
  transpose_axes a perm := mkArray (permute perm (arr_shape a)) (arr_dtype a)
    (λ idx, arr_get a (unpermute perm idx));
  from_slice_i32 l s := mkArray s 0 (λ idx, default 0 (l !! Z.to_nat (default 0 (head idx))));
  take_rows a ix := mkArray (default 0 (head (arr_shape ix)) :: tail (arr_shape a)) (arr_dtype a)
    (λ idx, match idx with [] => 0 | i :: r => arr_get a (arr_get ix [i] :: r) end);
  concatenate_rows arrs := mkArray
    (foldr Z.add 0 ((λ a, default 0 (head (arr_shape a))) <$> arrs)
       :: tail (default [] (arr_shape <$> head arrs)))
    (default 0 (arr_dtype <$> head arrs))
    (λ idx, match idx with [] => 0 | i :: r => concat_get arrs i r end);
|}.

Lemma size_of_nonneg s : Forall (λ n, 0 ≤ n) s → 0 ≤ size_of s.
Proof. induction 1; cbn; [lia|]. unfold size_of in *. nia. Qed.

Lemma in_shape_nonneg s idx : in_shape s idx → Forall (λ n, 0 ≤ n) s.
Proof. induction 1; constructor; [lia|done]. Qed.

Lemma linear_range s idx : in_shape s idx → 0 ≤ linear s idx < size_of s.
Proof.
  induction 1 as [|n i s idx Hi H IH]; cbn; [lia|]. unfold size_of in *. nia.
Qed.

Lemma unlinear_linear s idx : in_shape s idx → unlinear s (linear s idx) = idx.
Proof.
  induction 1 as [|n i s idx Hi H IH]; [done|]. cbn.
  pose proof (linear_range _ _ H) as Hr. fold (size_of s).
  rewrite Z.div_add_l, Z.div_small, Z.add_0_r by lia.
  rewrite Z.add_comm, Z.mod_add, Z.mod_small by lia. by rewrite IH.
Qed.

Lemma in_shape_length s idx : in_shape s idx → length idx = length s.
Proof. intros H. symmetry. by eapply Forall2_length. Qed.

Lemma permute_lookup {A} (perm : list nat) (l : list A) p :
  Forall (λ i, (i < length l)%nat) perm → permute perm l !! p = perm !! p ≫= λ i, l !! i.
Proof.
  intros H. revert p. induction H as [|i perm Hi _ IH]; intros p; [done|].
  unfold permute in *. cbn. destruct (lookup_lt_is_Some_2 l i Hi) as [x Hx]. rewrite Hx.
  destruct p; cbn; [by rewrite Hx|apply IH].
Qed.

Lemma omap_seq_lookup {A} (l : list A) (f : nat → option A) :
  (∀ i, (i < length l)%nat → f i = l !! i) → omap f (seq 0 (length l)) = l.
Proof.
  assert (∀ n k, k + n = length l → (∀ i, i < length l → f i = l !! i) →
    omap f (seq k n) = drop k l)%nat as Hgen.
  { induction n as [|n IH]; intros k Hk Hf; cbn.
    - rewrite drop_ge; [done|lia].
    - rewrite Hf by lia. destruct (lookup_lt_is_Some_2 l k ltac:(lia)) as [x Hx]. rewrite Hx.
      rewrite (drop_S l x k Hx). f_equal. apply IH; [lia|done]. }
  intros Hf. rewrite (Hgen (length l) 0%nat) by done. done.
Qed.

Lemma unpermute_permute perm (idx : list Z) :
  perm ≡ₚ seq 0 (length idx) → unpermute perm (permute perm idx) = idx.
Proof.
  intros Hp. unfold unpermute. rewrite (Permutation_length Hp), length_seq.
  assert (Forall (λ i, (i < length idx)%nat) perm) as Hall.
  { rewrite Hp. apply Forall_forall. intros i Hi%elem_of_seq. lia. }
  apply omap_seq_lookup. intros i Hi.
  assert (i ∈ perm) as Hin by (rewrite Hp; apply elem_of_seq; lia).
  destruct (list_find_elem_of (eq i) perm i Hin eq_refl) as [[p x] Hf]. rewrite Hf. cbn.
  apply list_find_Some in Hf as (Hpx & <- & _).
  rewrite permute_lookup by done. by rewrite Hpx.
Qed.

Lemma concat_get_spec ns s arrs : ∀ k a n j idx,
  arr_shape <$> arrs = (λ n, n :: s) <$> ns → Forall (λ n, 0 ≤ n) ns →
  arrs !! k = Some a → ns !! k = Some n → 0 ≤ j < n →
  concat_get arrs (foldr Z.add 0 (take k ns) + j) idx = arr_get a (j :: idx).
Proof.
  revert ns. induction arrs as [|a0 arrs IH]; intros ns k a n j idx Hs Hn Ha Hk Hj; [done|].
  destruct ns as [|n0 ns]; [done|]. cbn in Hs. injection Hs as Hs0 Hs. inversion Hn; subst.
  cbn [concat_get]. rewrite Hs0. cbn [head default from_option].
  destruct k as [|k]; simplify_eq/=.
  - rewrite (proj2 (Z.ltb_lt _ _)) by lia. done.
  - assert (0 ≤ foldr Z.add 0 (take k ns)).
    { assert (Forall (λ n, 0 ≤ n) (take k ns)) as Hk' by (by apply Forall_take).
      clear -Hk'. induction Hk'; cbn; lia. }
    rewrite (proj2 (Z.ltb_ge _ _)) by lia.
    rewrite <- (IH ns k a n j idx); [|done..]. f_equal. lia.
Qed.

Lemma arrays_laws : MlxLaws arrays.
Proof.
  split; cbn; try done.
  - intros a s idx idx' Hs Hi Hi' Hl. rewrite Hl. by rewrite unlinear_linear.
  - intros a perm idx Hp Hi. rewrite unpermute_permute; [done|].
    by rewrite (in_shape_length _ _ Hi).
  - intros a l n s -> _. done.
  - intros a l n s i r idx Hs Hl Hi Hx. rewrite Nat2Z.id, Hi. done.
  - intros ns s arrs Hne Hs. destruct arrs as [|a arrs]; [done|]. destruct ns as [|n ns]; [done|].
    cbn in Hs |- *. injection Hs as -> Hs. f_equal. f_equal.
    revert ns Hs. induction arrs as [|b arrs IH]; intros [|m ns] Hs; try done.
    cbn in Hs |- *. injection Hs as -> Hs. cbn. f_equal. by apply IH.
  - intros ns s arrs k a n j idx Hs Hn Ha Hk Hj Hi. by eapply concat_get_spec.
Qed.
