(* ===== verification/PagedPool.v ===== *)
(** * The paged KV block pool

    [lib/mlxcel-core/src/cache/paged.rs]: fixed-size blocks of key/value slots
    are handed to sequences, shared between them by reference counts, recycled
    through per-layer free lists, and stored in slab tensors of
    [POOL_SLAB_BLOCKS] rows. The pool keeps parallel vectors with one entry per
    layer ([free_lists], [pool_k], [pool_v], [pool_meta], [block_rows],
    [free_rows], [next_row]), all created with [num_layers] entries and never
    resized; here one record [LayerPool] per layer holds those entries. Block
    ids are [u64]s, lengths are [usize]s, tensor geometry is [i32]. Tensors are
    those of [Mlx]. *)

From S2P Require Import Prelude Mlx.

Inductive KVCacheMode :=
  | Fp16 | Int8 | Turbo4Asym | Turbo3Asym | Turbo4 | Turbo4Delegated | KVarN8.

Global Instance KVCacheMode_eq_dec : EqDecision KVCacheMode.
Proof. solve_decision. Defined.

(** ** Layout *)

Record PagedKvLayout := mkLayout {
  num_layers : nat;
  block_size : nat;
  bytes_per_block : list nat;
  cache_mode : KVCacheMode;
  turbo_sidecar_bytes_per_block : list nat;
}.

Inductive pool_error :=
  | ZeroBlockSize | EmptyBytesPerBlock | BadBytesPerBlock (layer bytes : nat)
  | SidecarLength (got expected : nat) | BadSidecarBytes (layer bytes : nat) | SidecarForbidden
  | ZeroLayers
  | LayerOutOfRange (layer layers : nat)
  | UnknownBlock (b : N) | RetainReleased (b : N) | AlreadyReleased (b : N)
  | RestoredBlockSize (got expected : nat) | RestoredLayerCount (got expected : nat)
  | RestoredTooFewBlocks (layer got required : nat)
  | RestoredWrongLayer (b : N) (l : nat) | RestoredInUse (b : N)
  | BudgetExhausted (allocated max : nat)
  | NotTurbo | NoPackedK | NoColdKeys
  | BadBatchDim | BadRank | GeometryMismatch | DtypeMismatch | SlotRange | LayerGeometry
  | PrefillShape | PrefillVShape | NoPoolTensors | NoPoolRow (b : N) | NoSlabs
  | LenExceedsBlocks.

Abbreviation res := (outcome pool_error).

Definition is_turbo (m : KVCacheMode) : bool :=
  match m with Turbo4Asym | Turbo4 | Turbo4Delegated => true | _ => false end.

(** [iter().enumerate().find(..)]. *)
Definition find_bytes (P : nat → bool) (l : list nat) : option (nat * nat) :=
  list_find (λ b, P b = true) l.

Definition new_with_mode (block_size : nat) (bytes_per_block : list nat) (mode : KVCacheMode)
    (sidecar : list nat) : res PagedKvLayout :=
  if decide (block_size = 0) then Err ZeroBlockSize else
  if decide (bytes_per_block = []) then Err EmptyBytesPerBlock else
  match find_bytes (λ b, bool_decide (b = 0) || negb (bool_decide (b `mod` block_size = 0)))
          bytes_per_block with
  | Some (l, b) => Err (BadBytesPerBlock l b)
  | None =>
    _ ← (if is_turbo mode then
           if decide (length sidecar ≠ length bytes_per_block)
           then Err (SidecarLength (length sidecar) (length bytes_per_block)) else
           match find_bytes (λ b, negb (bool_decide (b = 0))
                                  && negb (bool_decide (b `mod` block_size = 0))) sidecar with
           | Some (l, b) => Err (BadSidecarBytes l b)
           | None => Ok tt
           end
         else if decide (sidecar ≠ []) then Err SidecarForbidden else Ok tt);
    Ok (mkLayout (length bytes_per_block) block_size bytes_per_block mode sidecar)
  end.

Definition layout_new (block_size : nat) (bytes_per_block : list nat) : res PagedKvLayout :=
  new_with_mode block_size bytes_per_block Fp16 [].

Definition uniform (num_layers block_size bytes_per_block : nat) : res PagedKvLayout :=
  if decide (num_layers = 0) then Err ZeroLayers
  else layout_new block_size (replicate num_layers bytes_per_block).

Definition uniform_with_mode (num_layers block_size bytes_per_block : nat) (mode : KVCacheMode)
    (sidecar_bytes_per_block : nat) : res PagedKvLayout :=
  if decide (num_layers = 0) then Err ZeroLayers else
  let sidecar := if is_turbo mode then replicate num_layers sidecar_bytes_per_block else [] in
  new_with_mode block_size (replicate num_layers bytes_per_block) mode sidecar.

Definition bytes_per_token (lay : PagedKvLayout) (l : nat) : option nat :=
  (λ b, b `div` block_size lay) <$> (bytes_per_block lay !! l).

Definition sidecar_bytes_for_layer (lay : PagedKvLayout) (l : nat) : nat :=
  default 0 (turbo_sidecar_bytes_per_block lay !! l).

(** ** Sequences *)

Record PagedLayerState := mkLayerState {
  block_ids : list N;
  len : nat;
  logical_start : nat;
}.

Definition layer_state_new : PagedLayerState := mkLayerState [] 0 0.
(** [saturating_sub]. *)
Definition visible_len (s : PagedLayerState) : nat := len s - logical_start s.

Definition reserved_bytes (s : PagedLayerState) (lay : PagedKvLayout) (l : nat) : nat :=
  let main := length (block_ids s) * default 0 (bytes_per_block lay !! l) in
  let sidecar := length (block_ids s) * sidecar_bytes_for_layer lay l in
  main + sidecar.

Definition used_bytes (s : PagedLayerState) (lay : PagedKvLayout) (l : nat) : nat :=
  let main := visible_len s * default 0 (bytes_per_token lay l) in
  let sb := sidecar_bytes_for_layer lay l in
  let sidecar := if decide (0 < sb) then div_ceil (visible_len s) (block_size lay) * sb else 0 in
  main + sidecar.

Record PagedSequenceState := mkSeqState {
  seq_block_size : nat;
  layers : list PagedLayerState;
}.

Definition sequence_new (lay : PagedKvLayout) : PagedSequenceState :=
  mkSeqState (block_size lay) (replicate (num_layers lay) layer_state_new).

Definition set_layer (l : nat) (s : PagedLayerState) (st : PagedSequenceState) : PagedSequenceState :=
  mkSeqState (seq_block_size st) (<[l := s]> (layers st)).

(** ** Vectors *)

(** [Vec::pop]. *)
Definition vec_pop {A} (v : list A) : option (A * list A) :=
  match reverse v with [] => None | x :: r => Some (x, reverse r) end.

(** [Vec::swap_remove]: the last element takes the place of the removed one. *)
Definition swap_remove {A} (i : nat) (v : list A) : list A :=
  match last v with
  | None => v
  | Some y => if decide (S i = length v) then take i v else take (pred (length v)) (<[i := y]> v)
  end.

Definition i32 (n : nat) : Z := as_i32 (Z.of_nat n).

(** ** The pool *)

Record PagedBlockRecord := mkRecord { layer_idx : nat; refcount_of : N }.

Global Instance PagedBlockRecord_eq_dec : EqDecision PagedBlockRecord.
Proof. solve_decision. Defined.

Definition is_in_use (r : PagedBlockRecord) : bool := (0 <? refcount_of r)%N.

Record PagedPoolMeta := mkMeta {
  n_kv_heads : Z;
  head_dim : Z;
  dtype : Z;
  capacity_blocks : nat;
}.

Definition POOL_SLAB_BLOCKS : nat := 32.
Arguments POOL_SLAB_BLOCKS : simpl never.

Definition slab_coords (row : nat) : nat * Z :=
  (row `div` POOL_SLAB_BLOCKS, i32 (row `mod` POOL_SLAB_BLOCKS)).

Section pool.
Context {X : Mlx}.

(** [PagedTurboPageSidecars]. *)
Record Sidecars := mkSidecars {
  v_packed : gmap N MlxArray;
  v_norms : gmap N MlxArray;
  k_packed : gmap N MlxArray;
  k_norms : gmap N MlxArray;
  cold_keys : gmap N MlxArray;
}.

Definition no_sidecars : Sidecars := mkSidecars ∅ ∅ ∅ ∅ ∅.

Definition forget (b : N) (s : Sidecars) : Sidecars :=
  mkSidecars (delete b (v_packed s)) (delete b (v_norms s)) (delete b (k_packed s))
    (delete b (k_norms s)) (delete b (cold_keys s)).

Record LayerPool := mkLayerPool {
  free_list : list N;
  slabs_k : list MlxArray;
  slabs_v : list MlxArray;
  pool_meta : option PagedPoolMeta;
  block_rows : gmap N nat;
  free_rows : list nat;
  next_row : nat;
}.

Record PagedBlockPool := mkPool {
  layout : PagedKvLayout;
  next_block_id : N;
  blocks : gmap N PagedBlockRecord;
  turbo_sidecars : Sidecars;
  stores : list LayerPool;
  block_budget : option nat;
  grow_events : N;
}.

Definition empty_layer_pool : LayerPool := mkLayerPool [] [] [] None ∅ [] 0.

Definition pool_new (lay : PagedKvLayout) : PagedBlockPool :=
  mkPool lay 0 ∅ no_sidecars (replicate (num_layers lay) empty_layer_pool) None 0.

(** Field updates. *)
Definition with_blocks (b : gmap N PagedBlockRecord) (p : PagedBlockPool) : PagedBlockPool :=
  mkPool (layout p) (next_block_id p) b (turbo_sidecars p) (stores p) (block_budget p) (grow_events p).
Definition with_next_id (n : N) (p : PagedBlockPool) : PagedBlockPool :=
  mkPool (layout p) n (blocks p) (turbo_sidecars p) (stores p) (block_budget p) (grow_events p).
Definition with_sidecars (s : Sidecars) (p : PagedBlockPool) : PagedBlockPool :=
  mkPool (layout p) (next_block_id p) (blocks p) s (stores p) (block_budget p) (grow_events p).
Definition with_store (l : nat) (s : LayerPool) (p : PagedBlockPool) : PagedBlockPool :=
  mkPool (layout p) (next_block_id p) (blocks p) (turbo_sidecars p) (<[l := s]> (stores p))
    (block_budget p) (grow_events p).
Definition with_grow (n : N) (p : PagedBlockPool) : PagedBlockPool :=
  mkPool (layout p) (next_block_id p) (blocks p) (turbo_sidecars p) (stores p) (block_budget p) n.

Definition with_free_list (f : list N) (s : LayerPool) : LayerPool :=
  mkLayerPool f (slabs_k s) (slabs_v s) (pool_meta s) (block_rows s) (free_rows s) (next_row s).
Definition with_rows (r : gmap N nat) (f : list nat) (n : nat) (s : LayerPool) : LayerPool :=
  mkLayerPool (free_list s) (slabs_k s) (slabs_v s) (pool_meta s) r f n.
Definition with_slabs (k v : list MlxArray) (m : option PagedPoolMeta) (s : LayerPool) : LayerPool :=
  mkLayerPool (free_list s) k v m (block_rows s) (free_rows s) (next_row s).

Abbreviation P := (M PagedBlockPool pool_error).

(** [self.<vector>[layer_idx]]: a panic when the layer does not exist. *)
Definition store (l : nat) : P LayerPool := p ← get; index (stores p !! l).
Definition set_store (l : nat) (s : LayerPool) : P unit := modify (with_store l s).

Definition set_block_budget (max_blocks : option nat) (p : PagedBlockPool) : PagedBlockPool :=
  mkPool (layout p) (next_block_id p) (blocks p) (turbo_sidecars p) (stores p) max_blocks (grow_events p).

Definition allocated_block_count (p : PagedBlockPool) : nat := size (blocks p).
Definition live_block_count (p : PagedBlockPool) : nat :=
  size (filter (λ kr, is_in_use kr.2 = true) (blocks p)).
Definition free_block_budget (p : PagedBlockPool) : option nat :=
  (λ max, max - live_block_count p) <$> block_budget p.

Definition refcount (b : N) (p : PagedBlockPool) : N :=
  match blocks p !! b with Some r => refcount_of r | None => 0%N end.

Definition validate_layer (l : nat) : P unit :=
  p ← get;
  guard_m (negb (bool_decide (num_layers (layout p) ≤ l))) (LayerOutOfRange l (num_layers (layout p))).

(** ** Blocks *)

Definition set_refcount (b : N) (r : PagedBlockRecord) (n : N) : P unit :=
  modify (λ p, with_blocks (<[b := mkRecord (layer_idx r) n]> (blocks p)) p).

Definition acquire_block (l : nat) : P N :=
  _ ← validate_layer l;
  s ← store l;
  match vec_pop (free_list s) with
  | Some (b, rest) =>
    _ ← set_store l (with_free_list rest s);
    p ← get;
    r ← index (blocks p !! b);
    _ ← set_refcount b r 1;
    mret b
  | None =>
    p ← get;
    _ ← (match block_budget p with
         | Some max => if decide (max ≤ size (blocks p))
                       then throw (BudgetExhausted (size (blocks p)) max) else mret tt
         | None => mret tt
         end);
    let b := next_block_id p in
    _ ← modify (with_next_id (b + 1));
    _ ← modify (λ p, with_blocks (<[b := mkRecord l 1]> (blocks p)) p);
    mret b
  end.

Definition retain_block (b : N) : P unit :=
  p ← get;
  r ← ok_or (blocks p !! b) (UnknownBlock b);
  if (refcount_of r =? 0)%N then throw (RetainReleased b)
  else set_refcount b r (saturating_add_u32 (refcount_of r) 1).

Definition release_block (b : N) : P unit :=
  p ← get;
  r ← ok_or (blocks p !! b) (UnknownBlock b);
  if (refcount_of r =? 0)%N then throw (AlreadyReleased b) else
  _ ← set_refcount b r (refcount_of r - 1);
  if (0 <? refcount_of r - 1)%N then mret tt else
  let l := layer_idx r in
  _ ← modify (λ p, with_sidecars (forget b (turbo_sidecars p)) p);
  s ← store l;
  _ ← (match block_rows s !! b with
       | Some row => set_store l (with_rows (delete b (block_rows s)) (free_rows s ++ [row]) (next_row s) s)
       | None => mret tt
       end);
  s ← store l;
  set_store l (with_free_list (free_list s ++ [b]) s).

Definition restore_block (b : N) (l : nat) : P unit :=
  _ ← validate_layer l;
  p ← get;
  _ ← (match blocks p !! b with
       | Some r =>
         if decide (layer_idx r ≠ l) then throw (RestoredWrongLayer b (layer_idx r)) else
         if is_in_use r then throw (RestoredInUse b) else
         s ← store l;
         _ ← (match list_find (eq b) (free_list s) with
              | Some (pos, _) => set_store l (with_free_list (swap_remove pos (free_list s)) s)
              | None => mret tt
              end);
         set_refcount b r 1
       | None => modify (λ p, with_blocks (<[b := mkRecord l 1]> (blocks p)) p)
       end);
  modify (λ p, with_next_id (N.max (next_block_id p) (saturating_add_u64 b 1)) p).

(** ** Logical lengths

    These take the sequence's state too; the pool and the sequence are updated
    together. *)

Abbreviation PS := (M (PagedBlockPool * PagedSequenceState) pool_error).

Definition on_pool {A} (m : P A) : PS A :=
  λ '(p, st), let '(p', r) := m p in ((p', st), r).
Definition get_seq : PS PagedSequenceState := λ ps, (ps, Ok ps.2).
Definition put_layer (l : nat) (s : PagedLayerState) : PS unit :=
  λ '(p, st), ((p, set_layer l s st), Ok tt).
Definition layer (l : nat) : PS PagedLayerState :=
  st ← get_seq; ok_or (layers st !! l) (LayerOutOfRange l (length (layers st))).

(** [while block_ids.len() < required { push(acquire()?) }]; [n] pushes are
    needed. *)
Fixpoint acquire_loop (n l : nat) : PS unit :=
  match n with
  | 0 => mret tt
  | S n' =>
    b ← on_pool (acquire_block l);
    s ← layer l;
    _ ← put_layer l (mkLayerState (block_ids s ++ [b]) (len s) (logical_start s));
    acquire_loop n' l
  end.

Definition append_tokens (l token_count : nat) : PS unit :=
  s ← layer l;
  if decide (token_count = 0) then mret tt else
  '(p, _) ← get;
  let new_len := len s + token_count in
  let required_blocks := div_ceil new_len (block_size (layout p)) in
  _ ← acquire_loop (required_blocks - length (block_ids s)) l;
  s ← layer l;
  put_layer l (mkLayerState (block_ids s) new_len (logical_start s)).

(** [while block_ids.len() > required { release(pop()) }]; [n] pops. *)
Fixpoint release_loop (n l : nat) : PS unit :=
  match n with
  | 0 => mret tt
  | S n' =>
    s ← layer l;
    _ ← (match vec_pop (block_ids s) with
         | Some (b, rest) =>
           _ ← put_layer l (mkLayerState rest (len s) (logical_start s));
           on_pool (release_block b)
         | None => mret tt
         end);
    release_loop n' l
  end.

Definition trim_tokens (l token_count : nat) : PS nat :=
  s ← layer l;
  if decide (token_count = 0 ∨ len s = 0) then mret 0 else
  let min_len := logical_start s `min` len s in
  let trimmed := token_count `min` (len s - min_len) in
  if decide (trimmed = 0) then mret 0 else
  let len' := len s - trimmed in
  let s' := if decide (len' = logical_start s) then mkLayerState (block_ids s) 0 0
            else mkLayerState (block_ids s) len' (logical_start s) in
  _ ← put_layer l s';
  '(p, _) ← get;
  let required_blocks := div_ceil (len s') (block_size (layout p)) in
  _ ← release_loop (length (block_ids s') - required_blocks) l;
  mret trimmed.

Definition rewind_tokens (l token_count : nat) : PS nat := trim_tokens l token_count.

(** The [for layer in &mut state.layers] loop from layer [l] on. *)
Fixpoint release_layers (n l : nat) : PS unit :=
  match n with
  | 0 => mret tt
  | S n' =>
    s ← layer l;
    _ ← release_loop (length (block_ids s)) l;
    s ← layer l;
    _ ← put_layer l (mkLayerState (block_ids s) 0 0);
    release_layers n' (S l)
  end.

Definition release_sequence : PS unit :=
  st ← get_seq; release_layers (length (layers st)) 0.

Fixpoint restore_blocks (bs : list N) (l : nat) : P unit :=
  match bs with
  | [] => mret tt
  | b :: bs' => _ ← restore_block b l; restore_blocks bs' l
  end.

Fixpoint restore_layers (ls : list PagedLayerState) (l : nat) : P unit :=
  match ls with
  | [] => mret tt
  | s :: ls' =>
    p ← get;
    let required_blocks := div_ceil (len s) (block_size (layout p)) in
    if decide (length (block_ids s) < required_blocks)
    then throw (RestoredTooFewBlocks l (length (block_ids s)) required_blocks) else
    _ ← restore_blocks (block_ids s) l;
    restore_layers ls' (S l)
  end.

Definition restore_sequence (st : PagedSequenceState) : P unit :=
  p ← get;
  if decide (seq_block_size st ≠ block_size (layout p))
  then throw (RestoredBlockSize (seq_block_size st) (block_size (layout p))) else
  if decide (length (layers st) ≠ num_layers (layout p))
  then throw (RestoredLayerCount (length (layers st)) (num_layers (layout p))) else
  restore_layers (layers st) 0.

(** ** Per-page sidecars *)

Definition assert_turbo_mode : P unit :=
  p ← get; guard_m (is_turbo (cache_mode (layout p))) NotTurbo.

Definition known_block (b : N) : P unit :=
  p ← get; guard_m (bool_decide (is_Some (blocks p !! b))) (UnknownBlock b).

Definition update_sidecars (f : Sidecars → Sidecars) : P unit :=
  modify (λ p, with_sidecars (f (turbo_sidecars p)) p).

Definition install_v_packed (b : N) (a : MlxArray) : P unit :=
  _ ← assert_turbo_mode; _ ← known_block b;
  update_sidecars (λ s, mkSidecars (<[b := a]> (v_packed s)) (v_norms s) (k_packed s) (k_norms s) (cold_keys s)).

Definition install_v_norms (b : N) (a : MlxArray) : P unit :=
  _ ← assert_turbo_mode; _ ← known_block b;
  update_sidecars (λ s, mkSidecars (v_packed s) (<[b := a]> (v_norms s)) (k_packed s) (k_norms s) (cold_keys s)).

Definition install_k_packed (b : N) (a : MlxArray) : P unit :=
  _ ← assert_turbo_mode;
  p ← get; _ ← guard_m (bool_decide (cache_mode (layout p) = Turbo4)) NoPackedK;
  _ ← known_block b;
  update_sidecars (λ s, mkSidecars (v_packed s) (v_norms s) (<[b := a]> (k_packed s)) (k_norms s) (cold_keys s)).

Definition install_k_norms (b : N) (a : MlxArray) : P unit :=
  _ ← assert_turbo_mode;
  p ← get; _ ← guard_m (bool_decide (cache_mode (layout p) = Turbo4)) NoPackedK;
  _ ← known_block b;
  update_sidecars (λ s, mkSidecars (v_packed s) (v_norms s) (k_packed s) (<[b := a]> (k_norms s)) (cold_keys s)).

Definition install_cold_keys (b : N) (a : MlxArray) : P unit :=
  _ ← assert_turbo_mode;
  p ← get; _ ← guard_m (bool_decide (cache_mode (layout p) = Turbo4Delegated)) NoColdKeys;
  _ ← known_block b;
  update_sidecars (λ s, mkSidecars (v_packed s) (v_norms s) (k_packed s) (k_norms s) (<[b := a]> (cold_keys s))).

Definition has_turbo_sidecar (b : N) (p : PagedBlockPool) : bool :=
  let s := turbo_sidecars p in
  bool_decide (is_Some (v_packed s !! b)) || bool_decide (is_Some (v_norms s !! b))
  || bool_decide (is_Some (k_packed s !! b)) || bool_decide (is_Some (k_norms s !! b))
  || bool_decide (is_Some (cold_keys s !! b)).

(** ** Physical storage *)

(** [normalize_block_for_layout_a]: a [[1, n_slots, n_kv_heads, head_dim]]
    update and its geometry. *)
Definition normalize_block (a : MlxArray) : res (MlxArray * (Z * Z * Z)) :=
  match array_shape a with
  | [batch; h; n; d] =>
    if decide (batch ≠ 1)%Z then Err BadBatchDim
    else Ok (transpose_axes a [0; 2; 1; 3], (n, h, d))
  | [n; h; d] => Ok (reshape a [1; n; h; d]%Z, (n, h, d))
  | _ => Err BadRank
  end.

Definition slab_shape (p : PagedBlockPool) (h d : Z) : list Z :=
  [i32 POOL_SLAB_BLOCKS; i32 (block_size (layout p)); h; d].

Definition create_layer_pool (l min_capacity : nat) (h d dt : Z) : P unit :=
  p ← get;
  s ← store l;
  let n := div_ceil min_capacity POOL_SLAB_BLOCKS `max` 1 in
  let fresh := replicate n (zeros (slab_shape p h d) dt) in
  set_store l (with_slabs (slabs_k s ++ fresh) (slabs_v s ++ fresh)
                 (Some (mkMeta h d dt (n * POOL_SLAB_BLOCKS))) s).

Definition ensure_layer_capacity (l min_capacity : nat) : P unit :=
  s ← store l;
  m ← ok_or (pool_meta s) NoSlabs;
  if decide (min_capacity ≤ capacity_blocks m) then mret tt else
  p ← get;
  let target_slabs := div_ceil min_capacity POOL_SLAB_BLOCKS in
  let fresh := replicate (target_slabs - length (slabs_k s))
                 (zeros (slab_shape p (n_kv_heads m) (head_dim m)) (dtype m)) in
  _ ← set_store l (with_slabs (slabs_k s ++ fresh) (slabs_v s ++ fresh)
         (Some (mkMeta (n_kv_heads m) (head_dim m) (dtype m) (target_slabs * POOL_SLAB_BLOCKS))) s);
  modify (λ p, with_grow (grow_events p + 1) p).

Definition assign_row (b : N) (l : nat) : P nat :=
  s ← store l;
  match block_rows s !! b with
  | Some row => mret row
  | None =>
    let '(row, free, next) := match vec_pop (free_rows s) with
                              | Some (row, rest) => (row, rest, next_row s)
                              | None => (next_row s, free_rows s, S (next_row s))
                              end in
    _ ← set_store l (with_rows (block_rows s) free next s);
    _ ← (if decide (match pool_meta s with Some m => capacity_blocks m | None => 0 end ≤ row)
         then ensure_layer_capacity l (S row) else mret tt);
    s ← store l;
    _ ← set_store l (with_rows (<[b := row]> (block_rows s)) (free_rows s) (next_row s) s);
    mret row
  end.

(** The two [slice_update]s of the row's slab. *)
Definition update_slab (slabs : list MlxArray) (i : nat) (u : MlxArray) (starts stops : list Z) :
    option (list MlxArray) :=
  (λ old, <[i := slice_update old u starts stops]> slabs) <$> (slabs !! i).

Definition write_block (b : N) (l slot_start : nat) (k_block v_block : MlxArray) : P unit :=
  _ ← validate_layer l;
  _ ← known_block b;
  '(k_slot, k_geom) ← lift (normalize_block k_block);
  '(v_slot, v_geom) ← lift (normalize_block v_block);
  if decide (k_geom ≠ v_geom) then throw GeometryMismatch else
  let '(n_slots, h, d) := k_geom in
  if decide (array_dtype k_block ≠ array_dtype v_block) then throw DtypeMismatch else
  p ← get;
  if decide (n_slots ≤ 0 ∨ i32 (block_size (layout p)) < i32 slot_start + n_slots)%Z
  then throw SlotRange else
  s ← store l;
  _ ← (match pool_meta s with
       | Some m =>
         if decide (n_kv_heads m ≠ h ∨ head_dim m ≠ d ∨ dtype m ≠ array_dtype k_block)
         then throw LayerGeometry else mret tt
       | None => create_layer_pool l POOL_SLAB_BLOCKS h d (array_dtype k_block)
       end);
  row ← assign_row b l;
  let '(slab_i, row_in_slab) := slab_coords row in
  let starts := [row_in_slab; i32 slot_start; 0; 0]%Z in
  let stops := [row_in_slab + 1; i32 slot_start + n_slots; h; d]%Z in
  s ← store l;
  k' ← index (update_slab (slabs_k s) slab_i k_slot starts stops);
  v' ← index (update_slab (slabs_v s) slab_i v_slot starts stops);
  set_store l (with_slabs k' v' (pool_meta s) s).

(** The slab of one row, [[block_size, n_kv_heads, head_dim]]. *)
Definition row_slab (p : PagedBlockPool) (m : PagedPoolMeta) (row_in_slab : Z) (a : MlxArray) : MlxArray :=
  let bs := i32 (block_size (layout p)) in
  reshape (slice a [row_in_slab; 0; 0; 0]%Z [row_in_slab + 1; bs; n_kv_heads m; head_dim m]%Z)
    [bs; n_kv_heads m; head_dim m].

(** The reads shared by [copy_on_write_block] and [read_block_contents]. *)
Definition read_row (b : N) (l : nat) : P (MlxArray * MlxArray) :=
  p ← get;
  s ← store l;
  m ← ok_or (pool_meta s) NoPoolTensors;
  row ← ok_or (block_rows s !! b) (NoPoolRow b);
  let '(slab_i, row_in_slab) := slab_coords row in
  k ← index (slabs_k s !! slab_i);
  v ← index (slabs_v s !! slab_i);
  mret (row_slab p m row_in_slab k, row_slab p m row_in_slab v).

Definition copy_on_write_block (l : nat) (src : N) : P N :=
  '(k, v) ← read_row src l;
  fresh ← acquire_block l;
  _ ← write_block fresh l 0 k v;
  _ ← release_block src;
  mret fresh.

Definition read_block_contents (b : N) (l : nat) : P (MlxArray * MlxArray) :=
  _ ← validate_layer l; read_row b l.

Definition acquire_and_write_block (l : nat) (k v : MlxArray) : P N :=
  b ← acquire_block l;
  _ ← on_err (write_block b l 0 k v) (λ e, _ ← ignore (release_block b); throw e);
  mret b.

(** [n] span blocks from block index [i] that have no row yet. *)
Fixpoint count_unassigned (n i : nat) (ids : list N) (rows : gmap N nat) : P nat :=
  match n with
  | 0 => mret 0
  | S n' =>
    b ← index (ids !! i);
    c ← count_unassigned n' (S i) ids rows;
    mret (if decide (is_Some (rows !! b)) then c else S c)
  end.

Definition presize_for_span (ls : PagedLayerState) (l first_block last_block : nat) (h d dt : Z) : P unit :=
  s ← store l;
  unassigned ← count_unassigned (S last_block - first_block) first_block (block_ids ls) (block_rows s);
  let minted := unassigned - length (free_rows s) in
  if decide (minted = 0) then mret tt else
  let target := next_row s + minted in
  match pool_meta s with
  | Some m => if decide (target ≤ capacity_blocks m) then mret tt else ensure_layer_capacity l target
  | None => create_layer_pool l target h d dt
  end.

(** One block of [write_prefill]'s loop. *)
Definition write_span_block (l : nat) (k v : MlxArray) (h d first_abs last_abs : Z) (bi : nat) : PS unit :=
  '(p, _) ← get;
  let bs := i32 (block_size (layout p)) in
  let block_start_abs := (i32 bi * bs)%Z in
  let slot_start := Z.to_nat (first_abs `max` block_start_abs - block_start_abs) in
  let abs_begin := (first_abs `max` block_start_abs)%Z in
  let abs_end := (last_abs `min` (block_start_abs + bs))%Z in
  let n_slots := (abs_end - abs_begin)%Z in
  if decide (n_slots ≤ 0)%Z then mret tt else
  let tok_start := (abs_begin - first_abs)%Z in
  let tok_end := (tok_start + n_slots)%Z in
  s ← layer l;
  b ← index (block_ids s !! bi);
  target ← (if decide (1 < refcount b p)%N then
              fresh ← on_pool (copy_on_write_block l b);
              _ ← put_layer l (mkLayerState (<[bi := fresh]> (block_ids s)) (len s) (logical_start s));
              mret fresh
            else mret b);
  let starts := [0; 0; tok_start; 0]%Z in
  let stops := [1; h; tok_end; d]%Z in
  on_pool (write_block target l slot_start (slice k starts stops) (slice v starts stops)).

Fixpoint write_span (l : nat) (k v : MlxArray) (h d first_abs last_abs : Z) (n bi : nat) : PS unit :=
  match n with
  | 0 => mret tt
  | S n' =>
    _ ← write_span_block l k v h d first_abs last_abs bi;
    write_span l k v h d first_abs last_abs n' (S bi)
  end.

Definition write_prefill (l : nat) (k v : MlxArray) : PS unit :=
  _ ← on_pool (validate_layer l);
  '(h, n_new, d) ← (match array_shape k with
                    | [batch; h; n; d] =>
                      if decide (batch ≠ 1)%Z then throw PrefillShape else mret (h, n, d)
                    | _ => throw PrefillShape
                    end);
  if decide (array_shape v ≠ array_shape k) then throw PrefillVShape else
  if decide (array_dtype k ≠ array_dtype v) then throw DtypeMismatch else
  if decide (n_new ≤ 0)%Z then mret tt else
  '(p, _) ← get;
  let bs := i32 (block_size (layout p)) in
  s ← layer l;
  let first_abs := i32 (len s) in
  let last_abs := (first_abs + n_new)%Z in
  _ ← append_tokens l (Z.to_nat n_new);
  let first_block := Z.to_nat (first_abs `quot` bs) in
  let last_block := Z.to_nat ((last_abs - 1) `quot` bs) in
  s ← layer l;
  _ ← on_pool (presize_for_span s l first_block last_block h d (array_dtype k));
  write_span l k v h d first_abs last_abs (S last_block - first_block) first_block.

(** ** Reading *)

(** Maximal runs of rows in one slab: slab and rows within it. *)
Fixpoint slab_runs (rows : list nat) : list (nat * list Z) :=
  match rows with
  | [] => []
  | r :: rest =>
    let '(si, ri) := slab_coords r in
    match slab_runs rest with
    | (sj, local) :: runs =>
      if decide (si = sj) then (si, ri :: local) :: runs else (si, [ri]) :: (sj, local) :: runs
    | [] => [(si, [ri])]
    end
  end.

Definition gather_rows (slabs : list MlxArray) (rows : list nat) : option MlxArray :=
  parts ← mapM (λ '(si, local),
            (λ a, take_rows a (from_slice_i32 local [i32 (length local)])) <$> slabs !! si)
            (slab_runs rows);
  match parts with
  | [a] => Some a
  | _ => Some (concatenate_rows parts)
  end.

Definition gather_side (m : PagedPoolMeta) (bs n_blocks start stop : Z) (slabs : list MlxArray)
    (rows : list nat) : option MlxArray :=
  gathered ← gather_rows slabs rows;
  let flat := reshape gathered [n_blocks * bs; n_kv_heads m; head_dim m]%Z in
  let window := slice flat [start; 0; 0]%Z [stop; n_kv_heads m; head_dim m] in
  let batched := reshape window [1; stop - start; n_kv_heads m; head_dim m]%Z in
  Some (transpose_axes batched [0; 2; 1; 3]).

Definition gather_visible (st : PagedSequenceState) (l : nat) (p : PagedBlockPool) :
    res (option (MlxArray * MlxArray)) :=
  match layers st !! l with
  | None => Err (LayerOutOfRange l (length (layers st)))
  | Some ls =>
    if decide (visible_len ls = 0 ∨ block_ids ls = []) then Ok None else
    match stores p !! l with
    | None => Ok None
    | Some s =>
      match pool_meta s with
      | None => Ok None
      | Some m =>
        if decide (slabs_k s = [] ∨ slabs_v s = []) then Ok None else
        rows ← mapM (M := outcome pool_error)
                 (λ b, match block_rows s !! b with Some r => Ok r | None => Err (NoPoolRow b) end)
                 (block_ids ls);
        let bs := i32 (block_size (layout p)) in
        let n_blocks := i32 (length rows) in
        if decide (n_blocks * bs < i32 (len ls))%Z then Err LenExceedsBlocks else
        match gather_side m bs n_blocks (i32 (logical_start ls)) (i32 (len ls)) (slabs_k s) rows,
              gather_side m bs n_blocks (i32 (logical_start ls)) (i32 (len ls)) (slabs_v s) rows with
        | Some k, Some v => Ok (Some (k, v))
        | _, _ => Panic
        end
      end
    end
  end.

End pool.
