(* ===== verification/PagedPoolInv.v ===== *)
(** * The pool's invariant

    Reference counts are numbers of owners. [pool_inv p own] relates a pool to
    the list [own] of all live references to its blocks: one entry per
    [block_ids] entry of a sequence and per detached handle. *)

From S2P Require Import Prelude Mlx PagedPool.

Section inv.
Context {X : Mlx}.
Implicit Types (p : PagedBlockPool) (s : LayerPool) (own : list N).

(** Number of references to [b]. *)
Definition occ (b : N) (own : list N) : nat := length (filter (eq b) own).
Arguments occ : simpl never.

(** Rows are assigned to at most one block each and lie within the slabs,
    whose tensors all have the layer's geometry. *)
Record store_inv (bs : nat) s : Prop := {
  si_bound b r : block_rows s !! b = Some r → r < next_row s;
  si_inj b b' r : block_rows s !! b = Some r → block_rows s !! b' = Some r → b = b';
  si_free_nodup : NoDup (free_rows s);
  si_free r : r ∈ free_rows s → r < next_row s ∧ ∀ b, block_rows s !! b ≠ Some r;
  si_slabs :
    match pool_meta s with
    | None => slabs_k s = [] ∧ slabs_v s = [] ∧ next_row s = 0
    | Some m =>
      length (slabs_v s) = length (slabs_k s) ∧
      capacity_blocks m = length (slabs_k s) * POOL_SLAB_BLOCKS ∧
      0 < length (slabs_k s) ∧ next_row s ≤ capacity_blocks m ∧
      (∀ a, a ∈ slabs_k s ++ slabs_v s →
         array_shape a = [i32 POOL_SLAB_BLOCKS; i32 bs; n_kv_heads m; head_dim m] ∧
         array_dtype a = dtype m)
    end;
}.

Record pool_inv p own : Prop := {
  pi_layers : length (stores p) = num_layers (layout p);
  pi_bs : 0 < block_size (layout p);
  pi_ids b r : blocks p !! b = Some r → (b < next_block_id p)%N ∧ layer_idx r < length (stores p);
  pi_refs b : refcount b p = N.of_nat (occ b own);
  pi_small : (N.of_nat (length own) < u32_max)%N;
  pi_free_nodup l s : stores p !! l = Some s → NoDup (free_list s);
  pi_free l s b : stores p !! l = Some s → b ∈ free_list s ↔ blocks p !! b = Some (mkRecord l 0);
  pi_rows l s b r : stores p !! l = Some s → block_rows s !! b = Some r →
    ∃ n, blocks p !! b = Some (mkRecord l n) ∧ (0 < n)%N;
  pi_stores l s : stores p !! l = Some s → store_inv (block_size (layout p)) s;
}.

(** ** References *)

Lemma occ_cons b c own : occ b (c :: own) = (if decide (b = c) then 1 else 0) + occ b own.
Proof. unfold occ. rewrite filter_cons. by case_decide. Qed.

Lemma occ_app b o1 o2 : occ b (o1 ++ o2) = occ b o1 + occ b o2.
Proof. unfold occ. by rewrite filter_app, length_app. Qed.

Lemma occ_pos b own : 0 < occ b own ↔ b ∈ own.
Proof.
  unfold occ. split.
  - intros H. destruct (filter (eq b) own) as [|x l] eqn:E; cbn in H; [lia|].
    assert (x ∈ filter (eq b) own) as Hx by (rewrite E; left).
    by apply list_elem_of_filter in Hx as [-> ?].
  - intros H. destruct (filter (eq b) own) as [|x l] eqn:E; cbn; [|lia].
    assert (b ∈ filter (eq b) own) as Hb by (by apply list_elem_of_filter).
    rewrite E in Hb. by apply not_elem_of_nil in Hb.
Qed.

Lemma occ_le b own : occ b own ≤ length own.
Proof. apply length_filter. Qed.

Global Instance occ_proper b : Proper ((≡ₚ) ==> eq) (occ b).
Proof. intros o1 o2 H. unfold occ. by rewrite H. Qed.

(** The order in which references are listed does not matter. *)
Global Instance pool_inv_proper p : Proper ((≡ₚ) ==> iff) (pool_inv p).
Proof.
  assert (∀ o1 o2, o1 ≡ₚ o2 → pool_inv p o1 → pool_inv p o2) as Himp.
  { intros o1 o2 H [H1 H2 H3 H4 H5 H6 H7 H8 H9]. split; try done.
    - intros b. by rewrite <- H.
    - by rewrite <- (Permutation_length H). }
  intros o1 o2 H. split; by apply Himp.
Qed.

Lemma refcount_Some p b r : blocks p !! b = Some r → refcount b p = refcount_of r.
Proof. intros H. unfold refcount. by rewrite H. Qed.

(** A referenced block is known, with as many references as it has owners. *)
Lemma owned_block p own b :
  pool_inv p own → b ∈ own → ∃ l, blocks p !! b = Some (mkRecord l (N.of_nat (occ b own))) ∧
    l < length (stores p).
Proof.
  intros Hi Hb. pose proof (pi_refs _ _ Hi b) as Hr. apply occ_pos in Hb.
  unfold refcount in Hr. destruct (blocks p !! b) as [[l n]|] eqn:E; cbn in Hr; [|lia].
  exists l. split; [congruence|]. by destruct (pi_ids _ _ Hi b _ E).
Qed.

(** ** Vectors *)

Lemma vec_pop_Some {A} (v : list A) x r : vec_pop v = Some (x, r) ↔ v = r ++ [x].
Proof.
  unfold vec_pop. split.
  - destruct (reverse v) as [|y l] eqn:E; [done|]. intros; simplify_eq.
    by rewrite <- (reverse_involutive v), E, reverse_cons.
  - intros ->. rewrite reverse_snoc. by rewrite reverse_involutive.
Qed.

Lemma vec_pop_None {A} (v : list A) : vec_pop v = None ↔ v = [].
Proof.
  unfold vec_pop. destruct v as [|x v]; [done|]. split; [|done].
  destruct (reverse (x :: v)) eqn:E; [|done]. apply (f_equal length) in E.
  by rewrite length_reverse in E.
Qed.

(** ** Registry updates *)

(** [p'] differs from [p] in the registry entry of [b] and in [b]'s presence on
    the free list of its layer only. *)
Definition same_storage s s' : Prop :=
  slabs_k s' = slabs_k s ∧ slabs_v s' = slabs_v s ∧ pool_meta s' = pool_meta s ∧
  block_rows s' = block_rows s ∧ free_rows s' = free_rows s ∧ next_row s' = next_row s.

Lemma same_storage_inv bs s s' : same_storage s s' → store_inv bs s → store_inv bs s'.
Proof.
  intros (E1 & E2 & E3 & E4 & E5 & E6) [H1 H2 H3 H4 H5].
  split; rewrite ?E1, ?E2, ?E3, ?E4, ?E5, ?E6; done.
Qed.

Lemma same_storage_free f s : same_storage s (with_free_list f s).
Proof. done. Qed.

Lemma refcount_insert p p' b r b' :
  blocks p' = <[b := r]> (blocks p) →
  refcount b' p' = if decide (b = b') then refcount_of r else refcount b' p.
Proof.
  intros H. unfold refcount. rewrite H, lookup_insert. by case_decide.
Qed.

(** One registry entry and the free lists' mention of it change. *)
Record entry_update (b : N) (l : nat) (n : N) p own p' own' : Prop := {
  eu_layout : layout p' = layout p;
  eu_length : length (stores p') = length (stores p);
  eu_blocks : blocks p' = <[b := mkRecord l n]> (blocks p);
  eu_next : (next_block_id p ≤ next_block_id p')%N ∧ (b < next_block_id p')%N;
  eu_layer : l < length (stores p);
  eu_old r : blocks p !! b = Some r → layer_idx r = l;
  eu_stores k s' : stores p' !! k = Some s' → ∃ s, stores p !! k = Some s ∧ same_storage s s' ∧
    NoDup (free_list s') ∧
    (∀ b', b' ∈ free_list s' ↔ if decide (b' = b) then k = l ∧ n = 0%N else b' ∈ free_list s) ∧
    (n = 0%N → block_rows s !! b = None);
  eu_own b' : N.of_nat (occ b' own') = if decide (b' = b) then n else N.of_nat (occ b' own);
  eu_small : (N.of_nat (length own') < u32_max)%N;
}.

Lemma entry_update_inv b l n p own p' own' :
  pool_inv p own → entry_update b l n p own p' own' → pool_inv p' own'.
Proof.
  intros Hi [E1 E2 E3 [E4 E4'] E5 E6 E7 E8 E9]. split.
  - rewrite E1, E2. apply Hi.
  - rewrite E1. apply Hi.
  - intros b' r. rewrite E3, lookup_insert, E2. case_decide as Hb.
    + intros; simplify_eq. done.
    + intros H. destruct (pi_ids _ _ Hi b' r H). split; [lia|done].
  - intros b'. rewrite (refcount_insert p p' b _ b' E3). rewrite E8.
    repeat case_decide; try done; try congruence. apply Hi.
  - done.
  - intros k s' Hk. by destruct (E7 k s' Hk) as (s & _ & _ & ? & _).
  - intros k s' b' Hk. destruct (E7 k s' Hk) as (s & Hs & _ & _ & Hf & _).
    rewrite Hf, E3, lookup_insert. destruct (decide (b' = b)) as [->|Hne].
    + rewrite decide_True by done. split; [by intros [-> ->]|]. by intros [= -> ->].
    + rewrite decide_False by congruence. by apply Hi.
  - intros k s' b' r Hk Hr. destruct (E7 k s' Hk) as (s & Hs & Hst & _ & _ & Hn).
    destruct Hst as (_ & _ & _ & Hbr & _). rewrite Hbr in Hr.
    destruct (pi_rows _ _ Hi k s b' r Hs Hr) as (m & Hm & Hpos).
    rewrite E3, lookup_insert. destruct (decide (b = b')) as [<-|Hne]; [|by eauto].
    exists n. pose proof (E6 _ Hm) as Hl. cbn in Hl. subst k. split; [done|].
    destruct (decide (n = 0%N)) as [->|]; [|lia]. specialize (Hn eq_refl). congruence.
  - intros k s' Hk. destruct (E7 k s' Hk) as (s & Hs & Hst & _). rewrite E1.
    eapply same_storage_inv; [done|]. by eapply Hi.
Qed.

(** Taking a row away from a block, as [release_block] does. *)
Lemma unassign_row_inv p own l s b row :
  pool_inv p own → stores p !! l = Some s → block_rows s !! b = Some row →
  pool_inv (with_store l (with_rows (delete b (block_rows s)) (free_rows s ++ [row]) (next_row s) s) p) own.
Proof.
  intros Hi Hs Hr. pose proof (lookup_lt_Some _ _ _ Hs) as Hlt.
  pose proof (pi_stores _ _ Hi l s Hs) as [S1 S2 S3 S4 S5].
  assert (∀ k s', stores (with_store l (with_rows (delete b (block_rows s)) (free_rows s ++ [row])
    (next_row s) s) p) !! k = Some s' →
    (k = l ∧ s' = with_rows (delete b (block_rows s)) (free_rows s ++ [row]) (next_row s) s) ∨
    (k ≠ l ∧ stores p !! k = Some s')) as Hst.
  { intros k s'. cbn. rewrite list_lookup_insert. case_decide as Hk; [intros; simplify_eq; left; naive_solver|].
    intros H. right. split; [naive_solver|done]. }
  split; try apply Hi.
  - cbn. rewrite length_insert. apply Hi.
  - cbn. rewrite length_insert. intros b' r. apply Hi.
  - intros k s' Hk. destruct (Hst k s' Hk) as [[-> ->]|[_ Hk']]; [|by eapply Hi]. by eapply (pi_free_nodup _ _ Hi l s).
  - intros k s' b' Hk. destruct (Hst k s' Hk) as [[-> ->]|[_ Hk']]; [|by eapply Hi]. by eapply (pi_free _ _ Hi l s).
  - intros k s' b' r Hk Hb. destruct (Hst k s' Hk) as [[-> ->]|[_ Hk']]; [|by eapply Hi].
    cbn in Hb. apply lookup_delete_Some in Hb as [_ Hb]. by eapply (pi_rows _ _ Hi l s).
  - intros k s' Hk. destruct (Hst k s' Hk) as [[-> ->]|[_ Hk']]; [|by eapply Hi].
    cbn. split; cbn.
    + intros b' r Hb. apply lookup_delete_Some in Hb as [_ Hb]. by eapply S1.
    + intros b1 b2 r H1 H2. apply lookup_delete_Some in H1 as [_ H1], H2 as [_ H2]. by eapply S2.
    + apply NoDup_app. split_and!; [done| |apply NoDup_singleton].
      intros r Hin ->%list_elem_of_singleton. by destruct (S4 row Hin) as [_ ?%(λ f, f b)].
    + intros r [Hin| ->%list_elem_of_singleton]%elem_of_app.
      * destruct (S4 r Hin) as [? Hno]. split; [done|]. intros b' [_ Hb]%lookup_delete_Some. by eapply Hno.
      * split; [by eapply S1|]. intros b' [Hne Hb]%lookup_delete_Some. apply Hne. by eapply S2.
    + done.
Qed.

Lemma acquire_block_spec l p own :
  pool_inv p own → (N.of_nat (S (length own)) < u32_max)%N →
  match acquire_block l p with
  | (p', Ok b) =>
    pool_inv p' (b :: own) ∧ b ∉ own ∧ layout p' = layout p ∧ block_budget p' = block_budget p ∧
    blocks p' = <[b := mkRecord l 1]> (blocks p) ∧ turbo_sidecars p' = turbo_sidecars p ∧
    (∀ k s, stores p !! k = Some s → ∃ s', stores p' !! k = Some s' ∧ same_storage s s') ∧
    (∀ k s, stores p' !! k = Some s → block_rows s !! b = None)
  | (p', Err e) =>
    p' = p ∧ ((num_layers (layout p) ≤ l ∧ e = LayerOutOfRange l (num_layers (layout p))) ∨
              (∃ s max, stores p !! l = Some s ∧ free_list s = [] ∧ block_budget p = Some max ∧
                 max ≤ size (blocks p) ∧ e = BudgetExhausted (size (blocks p)) max))
  | (_, Panic) => False
  end.
Proof.
  intros Hi Hsm. unfold acquire_block, validate_layer, store, set_store, set_refcount, guard_m.
  unfold mbind, M_bind, get, modify, mret, M_ret, throw, index. cbn.
  case_bool_decide as Hl; cbn; [split; [done|]; by left|].
  assert (l < length (stores p)) as Hlt by (rewrite (pi_layers _ _ Hi); lia).
  destruct (lookup_lt_is_Some_2 (stores p) l Hlt) as [s Hs]. rewrite Hs. cbn.
  destruct (vec_pop (free_list s)) as [[b rest]|] eqn:Hpop.
  - apply vec_pop_Some in Hpop. pose proof (pi_free_nodup _ _ Hi l s Hs) as Hnd.
    assert (b ∈ free_list s) as Hb by (rewrite Hpop; set_solver).
    apply (pi_free _ _ Hi l s b Hs) in Hb as Hrec. rewrite Hrec. cbn.
    assert (occ b own = 0) as Hocc.
    { pose proof (pi_refs _ _ Hi b) as Hr. rewrite (refcount_Some _ _ _ Hrec) in Hr. cbn in Hr. lia. }
    rewrite Hpop in Hnd. apply NoDup_app in Hnd as (Hnd & Hdis & _).
    split_and!; try done.
    + eapply (entry_update_inv b l 1); [exact Hi|]. split; try done; cbn.
      * by rewrite length_insert.
      * split; [done|]. by destruct (pi_ids _ _ Hi b _ Hrec).
      * intros r Hr. rewrite Hrec in Hr. by simplify_eq.
      * intros k s'. rewrite list_lookup_insert. case_decide as Hk.
        -- destruct Hk as [<- _]. intros; simplify_eq. exists s. split_and!; try done.
           intros b'. cbn. rewrite Hpop. case_decide as Hbb; [subst b'|set_solver].
           split; [intros Hin|by intros [_ ?]]. exfalso. apply (Hdis b Hin). by left.
        -- intros Hk'. exists s'. split_and!; try done; [by eapply Hi|].
           intros b'. case_decide; [subst b'|done]. rewrite (pi_free _ _ Hi k s' b Hk'), Hrec.
           split; [intros [= ->]|by intros [_ ?]]. naive_solver.
      * intros b'. rewrite occ_cons. repeat case_decide; subst; try lia; done.
    + intros Hin. apply occ_pos in Hin. lia.
    + intros k s' Hk'. cbn. rewrite list_lookup_insert. case_decide as Hk; [|by exists s'].
      destruct Hk as [-> _]. simplify_eq. eexists. done.
    + intros k s' Hk. destruct (block_rows s' !! b) as [r|] eqn:Hr; [|done]. exfalso.
      assert (∃ s0, stores p !! k = Some s0 ∧ block_rows s0 = block_rows s') as (s0 & Hs0 & Hb0).
      { rewrite list_lookup_insert in Hk. case_decide as Hkk; [|by eauto].
        destruct Hkk as [-> _]. simplify_eq. by eauto. }
      rewrite <- Hb0 in Hr. destruct (pi_rows _ _ Hi k s0 b r Hs0 Hr) as (n & Hn & ?).
      rewrite Hrec in Hn. injection Hn as _ <-. lia.
  - apply vec_pop_None in Hpop.
    assert (blocks p !! next_block_id p = None) as Hfresh.
    { destruct (blocks p !! next_block_id p) as [r|] eqn:E; [|done].
      destruct (pi_ids _ _ Hi _ _ E). lia. }
    assert (occ (next_block_id p) own = 0) as Hocc.
    { pose proof (pi_refs _ _ Hi (next_block_id p)) as Hr. unfold refcount in Hr.
      rewrite Hfresh in Hr. lia. }
    assert (∀ q, q = with_blocks (<[next_block_id p := mkRecord l 1]> (blocks p))
                       (with_next_id (next_block_id p + 1) p) →
      pool_inv q (next_block_id p :: own)) as Hq.
    { intros q ->. eapply (entry_update_inv (next_block_id p) l 1); [exact Hi|].
      split; try done; cbn.
      - split; lia.
      - intros r Hr. congruence.
      - intros k s' Hk. exists s'. split_and!; try done; [by eapply Hi|].
        intros b'. case_decide; [subst b'|done]. rewrite (pi_free _ _ Hi k s' _ Hk), Hfresh.
        split; [done|]. by intros [_ ?].
      - intros b'. rewrite occ_cons. repeat case_decide; subst; try lia; done. }
    destruct (block_budget p) as [max|] eqn:Hbud; [case_decide as Hmax|]; cbn.
    { split; [done|]. right. eauto 10. }
    all: split_and!; try done; [by apply Hq| | |].
    all: try (intros Hin; apply occ_pos in Hin; lia).
    all: try (intros k s' Hk; exists s'; done).
    all: intros k s' Hk; destruct (block_rows s' !! next_block_id p) as [r|] eqn:Hr; [|done];
      destruct (pi_rows _ _ Hi k s' _ r Hk Hr) as (n & Hn & _); congruence.
Qed.

(** A block with another owner, or whose row is kept, after one release. *)
Definition same_slabs s s' : Prop :=
  slabs_k s' = slabs_k s ∧ slabs_v s' = slabs_v s ∧ pool_meta s' = pool_meta s.

(** The registry knows the same blocks, on the same layers. *)
Definition same_layers p p' : Prop :=
  ∀ b, layer_idx <$> blocks p' !! b = layer_idx <$> blocks p !! b.

Lemma same_layers_insert p p' b l n n' :
  blocks p !! b = Some (mkRecord l n) → blocks p' = <[b := mkRecord l n']> (blocks p) → same_layers p p'.
Proof.
  intros H E b'. rewrite E, lookup_insert. case_decide as Hb; [|done]. subst b'. by rewrite H.
Qed.

Lemma release_block_spec b p own :
  pool_inv p (b :: own) →
  ∃ p', release_block b p = (p', Ok tt) ∧ pool_inv p' own ∧ layout p' = layout p ∧
    block_budget p' = block_budget p ∧ same_layers p p' ∧
    (∀ k s, stores p !! k = Some s → ∃ s', stores p' !! k = Some s' ∧ same_slabs s s' ∧
       ∀ b', b' ∈ own → block_rows s' !! b' = block_rows s !! b').
Proof.
  intros Hi. destruct (owned_block p _ b Hi) as (l & Hrec & Hlt); [by left|].
  rewrite occ_cons, decide_True in Hrec by done.
  destruct (lookup_lt_is_Some_2 (stores p) l Hlt) as [s Hs].
  unfold release_block, store, set_store, set_refcount.
  unfold mbind, M_bind, get, modify, mret, M_ret, throw, index, ok_or. cbn [fst snd].
  rewrite Hrec. cbn [mret M_ret refcount_of layer_idx].
  rewrite (proj2 (N.eqb_neq _ _)) by lia.
  replace (N.of_nat (1 + occ b own) - 1)%N with (N.of_nat (occ b own)) by lia.
  pose proof (pi_small _ _ Hi) as Hsm. cbn in Hsm.
  destruct (N.ltb_spec 0 (N.of_nat (occ b own))) as [Hpos|Hz].
  - eexists. split; [done|]. split_and!; try done.
    + eapply (entry_update_inv b l (N.of_nat (occ b own))); [exact Hi|]. split; try done; cbn.
      * split; [done|]. by destruct (pi_ids _ _ Hi b _ Hrec).
      * intros r Hr. rewrite Hrec in Hr. by simplify_eq.
      * intros k s' Hk. exists s'. split_and!; try done; [by eapply Hi| |lia].
        intros b'. case_decide; [subst b'|done]. rewrite (pi_free _ _ Hi k s' b Hk), Hrec.
        split; [intros [= _ ?]; lia|intros [_ ?]; lia].
      * intros b'. rewrite occ_cons. repeat case_decide; subst; try lia; done.
      * lia.
    + by eapply same_layers_insert.
    + intros k s' Hk. by exists s'.
  - assert (occ b own = 0) as Hocc by lia. rewrite Hocc in *.
    assert (b ∉ own) as Hno by (intros H%occ_pos; lia).
    set (s1 := match block_rows s !! b with
               | Some row => with_rows (delete b (block_rows s)) (free_rows s ++ [row]) (next_row s) s
               | None => s end).
    assert (pool_inv (with_store l s1 p) (b :: own)) as Hi1.
    { unfold s1. destruct (block_rows s !! b) as [row|] eqn:Hr; [by apply unassign_row_inv|].
      unfold with_store. rewrite list_insert_id by done. by destruct p. }
    assert (stores (with_store l s1 p) !! l = Some s1) as Hs1 by (by apply list_lookup_insert_eq).
    set (p1 := with_blocks (<[b := mkRecord l 0]> (blocks p)) p).
    set (p2 := with_store l (with_free_list (free_list s1 ++ [b]) s1)
                 (with_sidecars (forget b (turbo_sidecars p)) p1)).
    exists p2. split.
    { cbn. rewrite Hs. cbn. unfold p2, p1, s1. destruct (block_rows s !! b) as [row|]; cbn.
      - rewrite list_lookup_insert_eq by done. unfold with_store; cbn. by rewrite list_insert_insert_eq.
      - rewrite Hs. done. }
    assert (block_rows s1 !! b = None) as Hnr.
    { unfold s1. destruct (block_rows s !! b) eqn:E; cbn; [apply lookup_delete_eq|done]. }
    split_and!; try done.
    + eapply (entry_update_inv b l 0); [exact Hi1|]. split; try done; cbn.
      * by rewrite !length_insert.
      * split; [done|]. by destruct (pi_ids _ _ Hi b _ Hrec).
      * by rewrite length_insert.
      * intros r Hr. rewrite Hrec in Hr. by simplify_eq.
      * intros k s'. rewrite (list_lookup_insert (stores p) l k (with_free_list _ _)).
        case_decide as Hk.
        -- destruct Hk as [<- _]. intros; simplify_eq. exists s1.
           split_and!; try done.
           ++ cbn. apply NoDup_app. split_and!; [by eapply (pi_free_nodup _ _ Hi1 l)| |apply NoDup_singleton].
              intros b' Hb' ->%list_elem_of_singleton.
              apply (pi_free _ _ Hi1 l _ _ Hs1) in Hb'.
              change (blocks p !! b = Some (mkRecord l 0)) in Hb'. rewrite Hrec in Hb'. discriminate Hb'.
           ++ intros b'. cbn. rewrite elem_of_app, list_elem_of_singleton. case_decide; naive_solver.
        -- intros Hk'. exists s'. split_and!; try done; [|by eapply Hi| |].
           { rewrite list_lookup_insert, decide_False by done. done. }
           ++ intros b'. case_decide; [subst b'|done]. rewrite (pi_free _ _ Hi k s' b Hk'), Hrec.
              split; [intros [= -> ?]; lia|intros [-> _]; naive_solver].
           ++ intros _. destruct (block_rows s' !! b) as [r|] eqn:Hr; [|done].
              destruct (pi_rows _ _ Hi k s' b r Hk' Hr) as (n & Hn & _). rewrite Hrec in Hn.
              simplify_eq. naive_solver.
      * intros b'. rewrite occ_cons. repeat case_decide; subst; try lia; done.
      * lia.
    + by eapply same_layers_insert.
    + intros k s' Hk. cbn. rewrite list_lookup_insert. case_decide as Hkl; [|by exists s'].
      destruct Hkl as [<- _]. rewrite Hk in Hs. simplify_eq. eexists. split; [done|]. cbn.
      unfold s1. destruct (block_rows s !! b) as [row|]; cbn; [|done]. split; [done|].
      intros b' Hb'. rewrite lookup_delete_ne; [done|]. by intros ->.
Qed.

Lemma release_unowned b p own :
  pool_inv p own → b ∉ own →
  release_block b p = (p, Err (if decide (is_Some (blocks p !! b)) then AlreadyReleased b else UnknownBlock b)).
Proof.
  intros Hi Hb. pose proof (pi_refs _ _ Hi b) as Hr. unfold refcount in Hr.
  assert (occ b own = 0) as H0 by (pose proof (occ_pos b own); destruct (occ b own); [done|naive_solver lia]).
  unfold release_block, mbind, M_bind, get, ok_or, throw, mret, M_ret.
  destruct (blocks p !! b) as [r|] eqn:E; cbn in Hr |- *; [|done].
  rewrite Hr, H0. by rewrite decide_True by eauto.
Qed.

Lemma retain_block_spec b p own :
  pool_inv p own → (N.of_nat (S (length own)) < u32_max)%N →
  if decide (b ∈ own) then
    ∃ p', retain_block b p = (p', Ok tt) ∧ pool_inv p' (b :: own) ∧ stores p' = stores p ∧
      layout p' = layout p ∧ same_layers p p'
  else retain_block b p = (p, Err (if decide (is_Some (blocks p !! b)) then RetainReleased b else UnknownBlock b)).
Proof.
  intros Hi Hsm. unfold retain_block, set_refcount, mbind, M_bind, get, ok_or, throw, mret, M_ret, modify.
  case_decide as Hb.
  - destruct (owned_block p own b Hi Hb) as (l & Hrec & Hlt). rewrite Hrec. cbn [refcount_of layer_idx].
    pose proof (proj2 (occ_pos b own) Hb) as Hpos. pose proof (occ_le b own) as Hle.
    rewrite (proj2 (N.eqb_neq _ _)) by lia. eexists. split; [done|].
    unfold saturating_add_u32. rewrite N.min_r by lia. split_and!; try done.
    + eapply (entry_update_inv b l (N.of_nat (occ b own) + 1)); [exact Hi|]. split; try done; cbn.
      * split; [done|]. by destruct (pi_ids _ _ Hi b _ Hrec).
      * intros r Hr. rewrite Hrec in Hr. by simplify_eq.
      * intros k s' Hk. exists s'. split_and!; try done; [by eapply Hi| |lia].
        intros b'. case_decide; [subst b'|done]. rewrite (pi_free _ _ Hi k s' b Hk), Hrec.
        split; [intros [= _ ?]; lia|intros [_ ?]; lia].
      * intros b'. rewrite occ_cons. repeat case_decide; subst; try lia; done.
    + by eapply same_layers_insert.
  - pose proof (pi_refs _ _ Hi b) as Hr. unfold refcount in Hr.
    assert (occ b own = 0) as H0 by (pose proof (occ_pos b own); destruct (occ b own); [done|naive_solver lia]).
    destruct (blocks p !! b) as [r|] eqn:E; cbn in Hr |- *; [|done].
    rewrite Hr, H0. by rewrite decide_True by eauto.
Qed.

Lemma swap_remove_Permutation {A} (v : list A) i x :
  v !! i = Some x → v ≡ₚ x :: swap_remove i v.
Proof.
  intros Hx. pose proof (lookup_lt_Some _ _ _ Hx) as Hlt. unfold swap_remove.
  destruct (last v) as [y|] eqn:Hl; [|apply last_None in Hl; subst; done].
  apply last_Some in Hl as [w ->]. rewrite length_app in *. cbn in *. case_decide as Hi.
  - assert (i = length w) as -> by lia. rewrite lookup_app_r, Nat.sub_diag in Hx by lia.
    cbn in Hx. simplify_eq. rewrite take_app_length. symmetry. apply Permutation_cons_append.
  - assert (i < length w) as Hi' by lia. rewrite lookup_app_l in Hx by done.
    rewrite insert_app_l by done. replace (pred (length w + 1)) with (length (<[i := y]> w))
      by (rewrite length_insert; lia). rewrite take_app_length.
    rewrite <- (take_drop_middle w i x Hx) at 1. rewrite insert_take_drop by done.
    rewrite <- app_assoc. cbn. rewrite <- Permutation_middle. constructor.
    apply Permutation_app_head. symmetry. apply Permutation_cons_append.
Qed.

Lemma restore_block_spec b l p own :
  pool_inv p own → (N.of_nat (S (length own)) < u32_max)%N → (b < u64_max)%N →
  l < num_layers (layout p) →
  if decide (blocks p !! b = None ∨ blocks p !! b = Some (mkRecord l 0)) then
    ∃ p', restore_block b l p = (p', Ok tt) ∧ pool_inv p' (b :: own) ∧ layout p' = layout p
  else ∃ e, restore_block b l p = (p, Err e).
Proof.
  intros Hi Hsm Hb Hl. unfold restore_block, validate_layer, set_refcount, set_store, store.
  unfold mbind, M_bind, get, guard_m, modify, mret, M_ret, throw, index. cbn.
  rewrite bool_decide_eq_false_2 by lia. cbn.
  assert (l < length (stores p)) as Hlt by (by rewrite (pi_layers _ _ Hi)).
  destruct (lookup_lt_is_Some_2 (stores p) l Hlt) as [s Hs].
  assert (saturating_add_u64 b 1 = b + 1)%N as Hsat by (unfold saturating_add_u64; lia).
  destruct (blocks p !! b) as [[l' n]|] eqn:Hrec; cbn.
  2: { rewrite decide_True by (by left). eexists. split; [done|]. split; [|done].
       assert (occ b own = 0) as Hocc.
       { pose proof (pi_refs _ _ Hi b) as Hr. unfold refcount in Hr. rewrite Hrec in Hr. lia. }
       eapply (entry_update_inv b l 1); [exact Hi|]. split; try done; cbn.
       - rewrite Hsat. lia.
       - intros r Hr. congruence.
       - intros k s' Hk. exists s'. split_and!; try done; [by eapply Hi|].
         intros b'. case_decide; [subst b'|done]. rewrite (pi_free _ _ Hi k s' _ Hk), Hrec.
         split; [done|]. by intros [_ ?].
       - intros b'. rewrite occ_cons. repeat case_decide; subst; try lia; done. }
  destruct (decide (l' = l)) as [->|Hne].
  2: { rewrite (decide_True (P := l' ≠ l)) by done.
       rewrite decide_False by (intros [?|?]; congruence). eauto. }
  rewrite (decide_False (P := l ≠ l)) by (intros ?; done).
  unfold is_in_use. cbn. destruct (N.ltb_spec 0 n) as [Hn|Hn].
  { rewrite decide_False by (intros [?|[= ?]]; [done|lia]). eauto. }
  assert (n = 0%N) as -> by lia. rewrite decide_True by (by right). rewrite Hs. cbn.
  assert (b ∈ free_list s) as Hin by (by apply (pi_free _ _ Hi l s b Hs)).
  destruct (list_find_elem_of (eq b) (free_list s) b Hin eq_refl) as [[pos x] Hf]. rewrite Hf.
  apply list_find_Some in Hf as (Hpos & <- & _). cbn.
  pose proof (swap_remove_Permutation _ _ _ Hpos) as Hperm.
  set (v := swap_remove pos (free_list s)) in *. clearbody v.
  pose proof (pi_free_nodup _ _ Hi l s Hs) as Hnd. rewrite Hperm in Hnd.
  apply NoDup_cons in Hnd as [Hnb Hnd].
  assert (occ b own = 0) as Hocc.
  { pose proof (pi_refs _ _ Hi b) as Hr. rewrite (refcount_Some _ _ _ Hrec) in Hr. cbn in Hr. lia. }
  eexists. split; [done|]. split; [|done].
  eapply (entry_update_inv b l 1); [exact Hi|]. split; try done; cbn.
  - by rewrite length_insert.
  - rewrite Hsat. lia.
  - intros r Hr. rewrite Hrec in Hr. by simplify_eq.
  - intros k s'. rewrite list_lookup_insert. case_decide as Hk.
    + destruct Hk as [<- _]. intros; simplify_eq. exists s. split_and!; try done.
      intros b'. cbn. case_decide as Hbb; [subst b'|].
      * split; [done|]. by intros [_ ?].
      * rewrite Hperm, elem_of_cons. naive_solver.
    + intros Hk'. exists s'. split_and!; try done; [by eapply Hi|].
      intros b'. case_decide; [subst b'|done]. rewrite (pi_free _ _ Hi k s' b Hk'), Hrec.
      split; [intros [= ->]|by intros [_ ?]]. naive_solver.
  - intros b'. rewrite occ_cons. repeat case_decide; subst; try lia; done.
Qed.

(** ** Sequences *)

(** All references a sequence holds. *)
Definition ids (st : PagedSequenceState) : list N := layers st ≫= block_ids.
Definition other_ids (l : nat) (st : PagedSequenceState) : list N :=
  (take l (layers st) ++ drop (S l) (layers st)) ≫= block_ids.

Lemma ids_split l st ls :
  layers st !! l = Some ls → ids st ≡ₚ block_ids ls ++ other_ids l st.
Proof.
  intros Hl. unfold ids, other_ids. rewrite <- (take_drop_middle _ _ _ Hl) at 1.
  rewrite !bind_app, bind_cons. rewrite app_assoc, (Permutation_app_comm (take l _ ≫= _)).
  by rewrite app_assoc.
Qed.

Lemma set_layer_lookup l ls ls' st :
  layers st !! l = Some ls → layers (set_layer l ls' st) !! l = Some ls'.
Proof. intros H. cbn. apply list_lookup_insert_eq. by eapply lookup_lt_Some. Qed.

Lemma other_ids_set_layer l ls' st : other_ids l (set_layer l ls' st) = other_ids l st.
Proof.
  unfold other_ids. cbn. rewrite take_insert_ge, drop_insert_lt by lia. done.
Qed.

Lemma set_layer_twice l (s1 s2 : PagedLayerState) st : set_layer l s2 (set_layer l s1 st) = set_layer l s2 st.
Proof. unfold set_layer. cbn. by rewrite list_insert_insert_eq. Qed.

Lemma set_layer_id l ls st : layers st !! l = Some ls → set_layer l ls st = st.
Proof. intros H. unfold set_layer. rewrite list_insert_id by done. by destruct st. Qed.

Lemma on_pool_eq {A} (m : M PagedBlockPool pool_error A) p st :
  on_pool m (p, st) = (((m p).1, st), (m p).2).
Proof. cbn. by destruct (m p). Qed.

Lemma layer_eq l p st ls : layers st !! l = Some ls → layer l (p, st) = ((p, st), Ok ls).
Proof. intros H. unfold layer, get_seq, mbind, M_bind, ok_or. cbn. by rewrite H. Qed.

(** [p'] has the storage of [p]; only the registry and the free lists differ. *)
Definition same_stores p p' : Prop :=
  layout p' = layout p ∧ block_budget p' = block_budget p ∧
  ∀ k s, stores p !! k = Some s → ∃ s', stores p' !! k = Some s' ∧ same_storage s s'.

Global Instance same_stores_preorder : PreOrder same_stores.
Proof.
  split.
  - intros p. split_and!; [done|done|]. intros k s Hk. exists s. done.
  - intros p1 p2 p3 (A1 & A2 & A3) (B1 & B2 & B3). split_and!; [congruence|congruence|].
    intros k s Hk. destruct (A3 k s Hk) as (s2 & Hk2 & E). destruct (B3 k s2 Hk2) as (s3 & Hk3 & E').
    exists s3. split; [done|]. unfold same_storage in *. intuition congruence.
Qed.

(** What acquiring [n] blocks for a layer does, with or without success. *)
Record acquired (n l : nat) p st ls own p' st' (new : list N) : Prop := {
  ac_state : st' = set_layer l (mkLayerState (block_ids ls ++ new) (len ls) (logical_start ls)) st;
  ac_inv : pool_inv p' (ids st' ++ own);
  ac_same : same_stores p p';
  ac_len : length new ≤ n;
  ac_fresh b : b ∈ new → b ∉ ids st ++ own;
  ac_nodup : NoDup new;
  ac_blocks b : b ∈ new → blocks p' !! b = Some (mkRecord l 1);
  ac_others b : b ∉ new → blocks p' !! b = blocks p !! b;
  ac_norow b k s : b ∈ new → stores p' !! k = Some s → block_rows s !! b = None;
}.

Lemma acquired_nil n l p st ls own :
  layers st !! l = Some ls → pool_inv p (ids st ++ own) → acquired n l p st ls own p st [].
Proof.
  intros Hl Hi. split; try done; try set_solver; try (cbn; lia).
  - rewrite app_nil_r. symmetry. destruct ls; by apply set_layer_id.
  - constructor.
Qed.

Lemma ids_push l st ls b n k :
  layers st !! l = Some ls →
  ids (set_layer l (mkLayerState (block_ids ls ++ [b]) n k) st) ≡ₚ b :: ids st.
Proof.
  intros Hl. erewrite (ids_split l (set_layer _ _ _)) by (by eapply set_layer_lookup).
  rewrite other_ids_set_layer. cbn. rewrite (ids_split l st ls Hl).
  rewrite <- app_assoc. cbn. by rewrite <- Permutation_middle.
Qed.

Lemma acquire_loop_spec n l own : ∀ p st ls,
  pool_inv p (ids st ++ own) → layers st !! l = Some ls →
  (N.of_nat (length (ids st ++ own) + n) < u32_max)%N →
  ∃ p' st' r new, acquire_loop n l (p, st) = ((p', st'), r) ∧ acquired n l p st ls own p' st' new ∧
    match r with
    | Ok _ => length new = n
    | Err e => (num_layers (layout p) ≤ l) ∨
               ∃ max, block_budget p = Some max ∧ max ≤ size (blocks p')
    | Panic => False
    end.
Proof.
  induction n as [|n IH]; intros p st ls Hi Hl Hsm.
  { exists p, st, (Ok tt), []. split_and!; [done|by apply acquired_nil|done]. }
  cbn [acquire_loop]. unfold mbind at 1, M_bind at 1. rewrite on_pool_eq.
  pose proof (acquire_block_spec l p _ Hi ltac:(lia)) as Ha.
  destruct (acquire_block l p) as [p1 [b|e|]]; cbn [fst snd]; [|destruct Ha as [-> Ha]|done].
  2: { exists p, st, (Err e), []. split_and!; [done|by apply acquired_nil|].
       destruct Ha as [[? _]|(s & max & _ & _ & ? & ? & _)]; eauto. }
  destruct Ha as (Hi1 & Hfb & Hlay & Hbud & Hblk & _ & Hst & Hnr).
  unfold mbind at 1, M_bind at 1. rewrite (layer_eq l p1 st ls Hl).
  set (ls1 := mkLayerState (block_ids ls ++ [b]) (len ls) (logical_start ls)).
  set (st1 := set_layer l ls1 st). unfold mbind, M_bind, put_layer. fold st1.
  assert (ids st1 ≡ₚ b :: ids st) as Hids by (by apply ids_push).
  destruct (IH p1 st1 ls1) as (p' & st' & r & new & Hrun & Hac & Hres).
  - rewrite Hids. done.
  - by eapply set_layer_lookup.
  - rewrite Hids. cbn. rewrite length_app in *. lia.
  - exists p', st', r, (b :: new). split; [done|]. destruct Hac as [C1 C2 C3 C4 C5 C6 C7 C8 C9].
    assert (b ∉ new) as Hbn.
    { intros Hin. apply (C5 b Hin). rewrite Hids. set_solver. }
    split.
    + split.
      * rewrite C1. unfold st1. rewrite set_layer_twice. unfold ls1. cbn. by rewrite <- app_assoc.
      * done.
      * etrans; [|exact C3]. split_and!; [done|done|done].
      * cbn. lia.
      * intros b' [->|Hin]%elem_of_cons; [done|]. specialize (C5 b' Hin). rewrite Hids in C5. set_solver.
      * by constructor.
      * intros b' [->|Hin]%elem_of_cons; [|by apply C7].
        rewrite C8, Hblk by done. apply lookup_insert_eq.
      * intros b' [Hne Hin]%not_elem_of_cons. rewrite C8, Hblk by done. by apply lookup_insert_ne.
      * intros b' k s [->|Hin]%elem_of_cons Hk; [|by eapply C9].
        pose proof C3 as (Hlay' & _ & C3').
        destruct (stores p1 !! k) as [s1|] eqn:Hk1.
        -- destruct (C3' k s1 Hk1) as (s' & Hk' & E). rewrite Hk in Hk'. simplify_eq.
           destruct E as (_ & _ & _ & -> & _). by eapply Hnr.
        -- exfalso. apply lookup_ge_None in Hk1. apply lookup_lt_Some in Hk.
           pose proof (pi_layers _ _ Hi1). pose proof (pi_layers _ _ C2). rewrite Hlay' in *. lia.
    + destruct r as [|e|]; [cbn; lia| |done].
      destruct Hres as [?|(max & ? & ?)]; [left; by rewrite <- Hlay|right].
      exists max. split; [congruence|done].
Qed.

Lemma ids_set_layer_meta l st ls n k :
  layers st !! l = Some ls → ids (set_layer l (mkLayerState (block_ids ls) n k) st) = ids st.
Proof.
  intros Hl. unfold ids, set_layer. cbn. rewrite insert_take_drop by (by eapply lookup_lt_Some).
  rewrite <- (take_drop_middle _ _ _ Hl) at 3. by rewrite !bind_app, !bind_cons.
Qed.

(** [append_tokens] grows the block table to cover the new length; on failure
    the blocks it could get are owned by the sequence, whose length is
    unchanged. *)
Lemma append_tokens_spec l tc p st ls own :
  pool_inv p (ids st ++ own) → layers st !! l = Some ls → 0 < tc →
  (N.of_nat (length (ids st ++ own) + (len ls + tc)) < u32_max)%N →
  ∃ p' st1 r new,
    acquired (div_ceil (len ls + tc) (block_size (layout p)) - length (block_ids ls)) l p st ls own p' st1 new ∧
    (match r with
     | Ok _ => length new = div_ceil (len ls + tc) (block_size (layout p)) - length (block_ids ls)
     | Err _ => num_layers (layout p) ≤ l ∨ ∃ max, block_budget p = Some max ∧ max ≤ size (blocks p')
     | Panic => False
     end) ∧
    let st' := match r with
               | Ok _ => set_layer l (mkLayerState (block_ids ls ++ new) (len ls + tc) (logical_start ls)) st
               | _ => st1 end in
    append_tokens l tc (p, st) = ((p', st'), r) ∧ pool_inv p' (ids st' ++ own).
Proof.
  intros Hi Hl Htc Hsm. unfold append_tokens.
  unfold mbind at 1, M_bind at 1. rewrite (layer_eq l p st ls Hl).
  rewrite decide_False by lia. unfold mbind at 1, M_bind at 1, get at 1.
  set (n := div_ceil _ _ - _).
  assert (n ≤ len ls + tc).
  { pose proof (pi_bs _ _ Hi) as Hbs. unfold n.
    pose proof (proj1 (div_ceil_le (len ls + tc) (block_size (layout p)) (len ls + tc) Hbs) ltac:(nia)). lia. }
  destruct (acquire_loop_spec n l own p st ls Hi Hl ltac:(lia)) as (p' & st1 & r & new & Hrun & Hac & Hres).
  exists p', st1, r, new. split; [done|]. split; [done|].
  unfold mbind at 1, M_bind at 1. rewrite Hrun. destruct r as [[]|e|]; [|split; [done|apply Hac]|done].
  pose proof (ac_state _ _ _ _ _ _ _ _ _ Hac) as ->.
  set (ls1 := mkLayerState (block_ids ls ++ new) (len ls) (logical_start ls)) in *.
  assert (layers (set_layer l ls1 st) !! l = Some ls1) as Hl1 by (by eapply set_layer_lookup).
  unfold mbind at 1, M_bind at 1. rewrite (layer_eq l p' _ ls1 Hl1).
  unfold put_layer. rewrite set_layer_twice. cbn [block_ids logical_start ls1]. split; [done|].
  pose proof (ac_inv _ _ _ _ _ _ _ _ _ Hac) as Hi'.
  pose proof (ids_set_layer_meta l _ ls1 (len ls + tc) (logical_start ls) Hl1) as Hids.
  rewrite set_layer_twice in Hids. cbn [block_ids ls1] in Hids. by rewrite Hids.
Qed.

(** Storage of the blocks [own] is as before. *)
Definition kept p p' own : Prop :=
  layout p' = layout p ∧ block_budget p' = block_budget p ∧ same_layers p p' ∧
  ∀ k s, stores p !! k = Some s → ∃ s', stores p' !! k = Some s' ∧ same_slabs s s' ∧
    ∀ b, b ∈ own → block_rows s' !! b = block_rows s !! b.

Lemma kept_refl p own : kept p p own.
Proof. split_and!; try done. intros k s Hk. by exists s. Qed.

Lemma kept_trans p1 p2 p3 o1 o2 :
  kept p1 p2 o1 → kept p2 p3 o2 → (∀ b, b ∈ o2 → b ∈ o1) → kept p1 p3 o2.
Proof.
  intros (A1 & A2 & A3 & A4) (B1 & B2 & B3 & B4) Hsub. split_and!; [congruence|congruence| |].
  { intros b. by rewrite (B3 b), (A3 b). }
  intros k s Hk. destruct (A4 k s Hk) as (s2 & Hk2 & (E1 & E2 & E3) & Hr).
  destruct (B4 k s2 Hk2) as (s3 & Hk3 & (F1 & F2 & F3) & Hr'). exists s3. split; [done|].
  split; [unfold same_slabs; intuition congruence|].
  intros b Hb. rewrite Hr', Hr; [done| |done]. by apply Hsub.
Qed.

Lemma ids_pop l st ls b rest n k :
  layers st !! l = Some ls → block_ids ls = rest ++ [b] →
  ids st ≡ₚ b :: ids (set_layer l (mkLayerState rest n k) st).
Proof.
  intros Hl Hb. rewrite (ids_split l st ls Hl), Hb.
  erewrite (ids_split l (set_layer _ _ _)) by (by eapply set_layer_lookup).
  rewrite other_ids_set_layer. cbn. rewrite <- app_assoc. cbn. by rewrite <- Permutation_middle.
Qed.

Lemma release_loop_spec n l own : ∀ p st ls,
  pool_inv p (ids st ++ own) → layers st !! l = Some ls → n ≤ length (block_ids ls) →
  ∃ p', let st' := set_layer l (mkLayerState (take (length (block_ids ls) - n) (block_ids ls))
                                  (len ls) (logical_start ls)) st in
    release_loop n l (p, st) = ((p', st'), Ok tt) ∧ pool_inv p' (ids st' ++ own) ∧
    kept p p' (ids st' ++ own).
Proof.
  induction n as [|n IH]; intros p st ls Hi Hl Hn.
  { exists p. rewrite Nat.sub_0_r, firstn_all. destruct ls as [bi n0 k0]. cbn [block_ids len logical_start].
    rewrite (set_layer_id l _ st Hl). split_and!; [done|done|apply kept_refl]. }
  cbn [release_loop]. unfold mbind at 1, M_bind at 1. rewrite (layer_eq l p st ls Hl).
  destruct (vec_pop (block_ids ls)) as [[b rest]|] eqn:Hpop.
  2: { apply vec_pop_None in Hpop. rewrite Hpop in Hn. cbn in Hn. lia. }
  apply vec_pop_Some in Hpop. set (ls1 := mkLayerState rest (len ls) (logical_start ls)).
  pose proof (ids_pop l st ls b rest (len ls) (logical_start ls) Hl Hpop) as Hids. fold ls1 in Hids.
  rewrite Hids in Hi. destruct (release_block_spec b p (ids (set_layer l ls1 st) ++ own) Hi)
    as (p1 & Hrel & Hi1 & Hk1).
  assert (kept p p1 (ids (set_layer l ls1 st) ++ own)) as Hkept by done. clear Hk1.
  assert (layers (set_layer l ls1 st) !! l = Some ls1) as Hl1 by (by eapply set_layer_lookup).
  rewrite Hpop, length_app in Hn |- *. cbn in Hn.
  destruct (IH p1 _ ls1 Hi1 Hl1) as (p' & Hrun & Hi' & Hk'); [cbn; lia|].
  exists p'. cbn zeta in *. cbn [block_ids len logical_start ls1] in *. rewrite set_layer_twice in *.
  replace (take (length rest + length [b] - S n) (rest ++ [b])) with (take (length rest - n) rest).
  2: { rewrite take_app_le by (cbn; lia). f_equal. cbn. lia. }
  split_and!; [|done|].
  - unfold mbind, M_bind, put_layer. fold ls1. rewrite on_pool_eq, Hrel. cbn [fst snd]. exact Hrun.
  - eapply kept_trans; [exact Hkept|exact Hk'|]. intros b'. rewrite !elem_of_app.
    intros [Hb'|?]; [left|by right].
    rewrite (ids_split l _ ls1 Hl1), other_ids_set_layer.
    erewrite (ids_split l (set_layer _ _ _)) in Hb' by (by eapply set_layer_lookup).
    rewrite other_ids_set_layer in Hb'. cbn in Hb'. apply elem_of_app in Hb' as [Hb'|Hb'].
    + apply elem_of_app. left. apply elem_of_take in Hb' as (i & Hb' & _). by eapply list_elem_of_lookup_2.
    + set_solver.
Qed.
End inv.
