(* ===== verification/PagedPoolData.v ===== *)
(** * What the pool stores

    The key and value tensors behind the block tables: every cell is where a
    write put it, until that very block and slot is written again. *)

From S2P Require Import Prelude Mlx PagedPool PagedPoolInv.

Section data.
Context {X : Mlx} {XL : MlxLaws X}.
Implicit Types (p : PagedBlockPool) (s : LayerPool) (own : list N).

(** Keys or values. *)
Inductive side := K | V.
Definition slabs (c : side) s : list MlxArray := match c with K => slabs_k s | V => slabs_v s end.

(** The element at a row of the slabs. *)
Definition cell (c : side) s (row slot : nat) (h d : Z) : option elt :=
  (λ a, elem a [Z.of_nat (row `mod` POOL_SLAB_BLOCKS); Z.of_nat slot; h; d])
    <$> slabs c s !! (row `div` POOL_SLAB_BLOCKS).

Definition block_cell (c : side) s (b : N) (slot : nat) (h d : Z) : option elt :=
  r ← block_rows s !! b; cell c s r slot h d.

(** Indices of a layer's geometry. *)
Definition in_geom (bs : nat) (m : PagedPoolMeta) (slot : nat) (h d : Z) : Prop :=
  slot < bs ∧ (0 ≤ h < n_kv_heads m)%Z ∧ (0 ≤ d < head_dim m)%Z.

(** The tensor geometry fits [i32]. *)
Definition small (n : nat) : Prop := (Z.of_nat n ≤ i32_max)%Z.

Lemma i32_small n : small n → i32 n = Z.of_nat n.
Proof. intros H. unfold i32. apply as_i32_small. unfold small, i32_min in *. lia. Qed.

Lemma slab_small n : small (n `mod` POOL_SLAB_BLOCKS).
Proof.
  unfold small, i32_max. pose proof (Nat.mod_upper_bound n POOL_SLAB_BLOCKS).
  unfold POOL_SLAB_BLOCKS in *. lia.
Qed.

Lemma i32_slab : i32 POOL_SLAB_BLOCKS = Z.of_nat POOL_SLAB_BLOCKS.
Proof. by apply i32_small. Qed.

(** ** Replacing a layer's storage *)

Lemma with_store_inv p own l s s' p' :
  pool_inv p own → stores p !! l = Some s → free_list s' = free_list s →
  store_inv (block_size (layout p)) s' →
  (∀ b r, block_rows s' !! b = Some r → ∃ n, blocks p !! b = Some (mkRecord l n) ∧ (0 < n)%N) →
  layout p' = layout p → next_block_id p' = next_block_id p → blocks p' = blocks p →
  stores p' = <[l := s']> (stores p) → pool_inv p' own.
Proof.
  intros Hi Hs Hf Hsi Hrows E1 E2 E3 E4.
  assert (∀ k s0, stores p' !! k = Some s0 →
    (k = l ∧ s0 = s') ∨ (k ≠ l ∧ stores p !! k = Some s0)) as Hst.
  { intros k s0. rewrite E4, list_lookup_insert. case_decide as Hk; [intros; simplify_eq; left; naive_solver|].
    intros H. right. split; [|done]. intros ->. apply Hk. split; [done|]. by eapply lookup_lt_Some. }
  split; rewrite ?E1, ?E2, ?E3.
  - rewrite E4, length_insert. apply Hi.
  - apply Hi.
  - intros b r Hb. rewrite E4, length_insert. by apply Hi.
  - intros b. unfold refcount. rewrite E3. apply Hi.
  - apply Hi.
  - intros k s0 Hk. destruct (Hst k s0 Hk) as [[-> ->]|[_ Hk']]; [rewrite Hf|]; by eapply Hi.
  - intros k s0 b Hk. destruct (Hst k s0 Hk) as [[-> ->]|[_ Hk']]; [rewrite Hf|]; by eapply Hi.
  - intros k s0 b r Hk Hr. destruct (Hst k s0 Hk) as [[-> ->]|[_ Hk']]; [by eapply Hrows|by eapply Hi].
  - intros k s0 Hk. destruct (Hst k s0 Hk) as [[-> ->]|[_ Hk']]; [done|by eapply Hi].
Qed.

(** Appending fresh slabs of the layer's geometry. *)
Lemma extend_store_inv bs s h d dt ext cap (s1 := with_slabs (slabs_k s ++ ext) (slabs_v s ++ ext)
    (Some (mkMeta h d dt cap)) s) :
  store_inv bs s →
  (∀ m, pool_meta s = Some m → n_kv_heads m = h ∧ head_dim m = d ∧ dtype m = dt) →
  (∀ a, a ∈ ext → a = zeros [i32 POOL_SLAB_BLOCKS; i32 bs; h; d] dt) →
  cap = (length (slabs_k s) + length ext) * POOL_SLAB_BLOCKS → 0 < length (slabs_k s) + length ext →
  store_inv bs s1.
Proof.
  intros [S1 S2 S3 S4 S5] Hm Hext Hcap Hpos. split; try done. cbn.
  assert (length (slabs_v s) = length (slabs_k s) ∧ next_row s ≤ length (slabs_k s) * POOL_SLAB_BLOCKS ∧
    ∀ a, a ∈ slabs_k s ++ slabs_v s → array_shape a = [i32 POOL_SLAB_BLOCKS; i32 bs; h; d] ∧ array_dtype a = dt)
    as (H1 & H2 & H3).
  { destruct (pool_meta s) as [m|].
    - destruct (Hm m eq_refl) as (<- & <- & <-). destruct S5 as (? & Hc & _ & ? & ?). split_and!; [done|lia|done].
    - destruct S5 as (-> & -> & ->). split_and!; [done|lia|]. intros a Ha. by apply not_elem_of_nil in Ha. }
  rewrite !length_app. split_and!; [lia|lia|lia|rewrite Hcap; lia|].
  intros a Ha. rewrite !elem_of_app in Ha.
  destruct Ha as [[Ha|Ha]|[Ha|Ha]]; try (apply H3; apply elem_of_app; by auto);
    rewrite (Hext a Ha), zeros_shape, zeros_dtype; done.
Qed.

Lemma cell_extend c s ext m' row slot h d :
  row < length (slabs c s) * POOL_SLAB_BLOCKS →
  cell c (with_slabs (slabs_k s ++ ext) (slabs_v s ++ ext) m' s) row slot h d = cell c s row slot h d.
Proof.
  intros Hr. assert (row `div` POOL_SLAB_BLOCKS < length (slabs c s)) as Hd.
  { apply Nat.Div0.div_lt_upper_bound. lia. }
  unfold cell. by destruct c; cbn in *; rewrite lookup_app_l.
Qed.

(** Rows in use lie within the slabs. *)
Lemma row_in_slabs bs s c b r :
  store_inv bs s → block_rows s !! b = Some r → r < length (slabs c s) * POOL_SLAB_BLOCKS.
Proof.
  intros [S1 _ _ _ S5] Hr. apply S1 in Hr. destruct (pool_meta s) as [m|].
  - destruct S5 as (? & ? & _ & ? & _). destruct c; cbn; lia.
  - destruct S5 as (_ & _ & ?). lia.
Qed.

(** ** Creating a layer's slabs, growing them, assigning rows *)

(** The storage part of a pool: everything but [stores] and [grow_events]. *)
Definition same_registry p p' : Prop :=
  layout p' = layout p ∧ next_block_id p' = next_block_id p ∧ blocks p' = blocks p ∧
  turbo_sidecars p' = turbo_sidecars p ∧ block_budget p' = block_budget p.

Global Instance same_registry_preorder : PreOrder same_registry.
Proof.
  split; [intros p; done|]. unfold same_registry. intros p1 p2 p3 H1 H2. intuition congruence.
Qed.

(** Store [s'] has the rows of [s], and slabs appended behind those of [s]. *)
Definition grown s s' : Prop :=
  free_list s' = free_list s ∧ block_rows s' = block_rows s ∧ free_rows s' = free_rows s ∧
  next_row s' = next_row s ∧
  (∀ c row slot h d, row < length (slabs c s) * POOL_SLAB_BLOCKS →
     cell c s' row slot h d = cell c s row slot h d).

(** The geometry of a layer, once known. *)
Definition has_geom s (h d dt : Z) : Prop :=
  ∃ m, pool_meta s = Some m ∧ n_kv_heads m = h ∧ head_dim m = d ∧ dtype m = dt.

Lemma create_layer_pool_spec l n h d dt p own s :
  pool_inv p own → stores p !! l = Some s → pool_meta s = None →
  ∃ p' s', create_layer_pool l n h d dt p = (p', Ok tt) ∧ same_registry p p' ∧
    stores p' = <[l := s']> (stores p) ∧ grown s s' ∧ has_geom s' h d dt ∧
    store_inv (block_size (layout p)) s'.
Proof.
  intros Hi Hs Hm. pose proof (pi_stores _ _ Hi l s Hs) as Hsi.
  unfold create_layer_pool, store, set_store, mbind, M_bind, get, modify, index. cbn. rewrite Hs. cbn.
  eexists _, _. split; [done|]. split; [done|]. split; [done|].
  pose proof (si_slabs _ _ Hsi) as Hsl. rewrite Hm in Hsl. destruct Hsl as (Hk & Hv & Hn).
  split_and!; try done.
  - split_and!; try done. intros c row slot hh dd Hr. destruct c; cbn in Hr; rewrite ?Hk, ?Hv in Hr; cbn in Hr; lia.
  - eexists. done.
  - apply extend_store_inv; [done|by rewrite Hm| | |].
    + intros a Ha. by apply elem_of_replicate in Ha as [-> _].
    + rewrite Hk, length_replicate. done.
    + rewrite Hk, length_replicate. cbn. lia.
Qed.

(** The slabs [ensure_layer_capacity] leaves. *)
Definition ensured (bs n : nat) (m : PagedPoolMeta) s : LayerPool :=
  if decide (n ≤ capacity_blocks m) then s else
  let t := div_ceil n POOL_SLAB_BLOCKS in
  let ext := replicate (t - length (slabs_k s))
               (zeros [i32 POOL_SLAB_BLOCKS; i32 bs; n_kv_heads m; head_dim m] (dtype m)) in
  with_slabs (slabs_k s ++ ext) (slabs_v s ++ ext)
    (Some (mkMeta (n_kv_heads m) (head_dim m) (dtype m) (t * POOL_SLAB_BLOCKS))) s.

Lemma ensure_layer_capacity_eq l n p s m :
  stores p !! l = Some s → pool_meta s = Some m →
  ∃ p', ensure_layer_capacity l n p = (p', Ok tt) ∧ same_registry p p' ∧
    stores p' = <[l := ensured (block_size (layout p)) n m s]> (stores p).
Proof.
  intros Hs Hm. unfold ensure_layer_capacity, store, set_store, ensured.
  unfold mbind, M_bind, get, modify, index, ok_or, mret, M_ret. cbn. rewrite Hs. cbn. rewrite Hm. cbn.
  case_decide; eexists; (split; [done|]); split; try done. by rewrite list_insert_id.
Qed.

Lemma div_ceil_slabs n k : n * POOL_SLAB_BLOCKS < k → n < div_ceil k POOL_SLAB_BLOCKS.
Proof.
  intros H. assert (0 < POOL_SLAB_BLOCKS) as H0 by (unfold POOL_SLAB_BLOCKS; lia).
  pose proof (div_ceil_spec k POOL_SLAB_BLOCKS H0). nia.
Qed.

Lemma ensured_spec bs n m s :
  store_inv bs s → pool_meta s = Some m →
  store_inv bs (ensured bs n m s) ∧ grown s (ensured bs n m s) ∧
  ∃ m', pool_meta (ensured bs n m s) = Some m' ∧ n_kv_heads m' = n_kv_heads m ∧
    head_dim m' = head_dim m ∧ dtype m' = dtype m ∧ n ≤ capacity_blocks m' ∧
    capacity_blocks m ≤ capacity_blocks m'.
Proof.
  intros Hsi Hm. unfold ensured. case_decide as Hn.
  { split_and!; try done. exists m. split_and!; try done. }
  pose proof (si_slabs _ _ Hsi) as Hsl. rewrite Hm in Hsl. destruct Hsl as (H1 & H2 & H3 & H4 & H5).
  assert (length (slabs_k s) < div_ceil n POOL_SLAB_BLOCKS) as Hlt by (apply div_ceil_slabs; lia).
  split_and!.
  - apply extend_store_inv; [done|naive_solver| | |].
    + intros a Ha. by apply elem_of_replicate in Ha as [-> _].
    + rewrite length_replicate. f_equal. lia.
    + lia.
  - split_and!; try done. intros c row slot h d Hr. by apply cell_extend.
  - eexists. split; [done|]. cbn. split_and!; try done.
    + assert (0 < POOL_SLAB_BLOCKS) as H0 by (unfold POOL_SLAB_BLOCKS; lia).
      apply (div_ceil_spec n POOL_SLAB_BLOCKS H0).
    + nia.
Qed.

(** What a row assignment leaves of a layer. *)
Record row_assigned (bs : nat) s s' (b : N) (row : nat) : Prop := {
  ra_rows : block_rows s' = <[b := row]> (block_rows s);
  ra_same r : block_rows s !! b = Some r → row = r;
  ra_unused b' : b' ≠ b → block_rows s !! b' ≠ Some row;
  ra_free : free_list s' = free_list s;
  ra_inv : store_inv bs s';
  ra_geom m : pool_meta s = Some m → ∃ m', pool_meta s' = Some m' ∧ n_kv_heads m' = n_kv_heads m ∧
    head_dim m' = head_dim m ∧ dtype m' = dtype m;
  ra_cell c r slot h d : r < length (slabs c s) * POOL_SLAB_BLOCKS →
    cell c s' r slot h d = cell c s r slot h d;
}.

(** A row that is free and within the slabs can be given to a block. *)
Lemma give_row_inv bs s b row free next :
  store_inv bs s → block_rows s !! b = None → (∀ b', block_rows s !! b' ≠ Some row) →
  row < next → next_row s ≤ next → NoDup free → (∀ r, r ∈ free → r ∈ free_rows s ∧ r ≠ row) →
  (∀ m, pool_meta s = Some m → next ≤ capacity_blocks m) → is_Some (pool_meta s) →
  store_inv bs (with_rows (<[b := row]> (block_rows s)) free next s).
Proof.
  intros [S1 S2 S3 S4 S5] Hb Hrow Hlt Hle Hnd Hfree Hcap Hmeta. split; cbn.
  - intros b' r. rewrite lookup_insert. case_decide; [intros; simplify_eq; done|].
    intros Hr. apply S1 in Hr. lia.
  - intros b1 b2 r. rewrite !lookup_insert. repeat case_decide; intros H1 H2; simplify_eq; try done.
    + by apply Hrow in H2.
    + by apply Hrow in H1.
    + by eapply S2.
  - done.
  - intros r Hr. destruct (Hfree r Hr) as [Hin Hne]. destruct (S4 r Hin) as [Hrn Hno].
    split; [lia|]. intros b'. rewrite lookup_insert. case_decide; [congruence|apply Hno].
  - destruct Hmeta as [m Hm]. rewrite Hm in *. specialize (Hcap m eq_refl).
    destruct S5 as (? & ? & ? & ? & ?). done.
Qed.

Lemma assign_row_spec b l p own s m :
  pool_inv p own → stores p !! l = Some s → pool_meta s = Some m →
  ∃ p' s' row, assign_row b l p = (p', Ok row) ∧ same_registry p p' ∧
    stores p' = <[l := s']> (stores p) ∧ row_assigned (block_size (layout p)) s s' b row.
Proof.
  intros Hi Hs Hm. pose proof (pi_stores _ _ Hi l s Hs) as Hsi.
  set (bs := block_size (layout p)) in *.
  unfold assign_row. unfold mbind at 1, M_bind at 1, store at 1, mbind at 1, M_bind at 1, get at 1, index at 1.
  rewrite Hs. cbn [mret M_ret].
  destruct (block_rows s !! b) as [row|] eqn:Hb.
  { exists p, s, row. split_and!; [done|done|by rewrite list_insert_id|].
    split; try done.
    - by rewrite insert_id.
    - intros r Hr. congruence.
    - intros b' Hne Hr. apply Hne. by eapply (si_inj _ _ Hsi).
    - intros m0 Hm0. exists m0. done. }
  set (pick := match vec_pop (free_rows s) with Some (row, rest) => _ | None => _ end).
  assert (∃ row free next, pick = (row, free, next) ∧ (∀ b', block_rows s !! b' ≠ Some row) ∧
    row < next ∧ next_row s ≤ next ≤ S (next_row s) ∧ NoDup free ∧
    (∀ r, r ∈ free → r ∈ free_rows s ∧ r ≠ row) ∧ row ≤ next_row s ∧
    (next = S (next_row s) → row = next_row s)) as (row & free & next & -> & Hun & Hrn & Hnn & Hnd & Hfr & Hrl & Hnx).
  { unfold pick. destruct (vec_pop (free_rows s)) as [[row rest]|] eqn:Hpop.
    - apply vec_pop_Some in Hpop. pose proof (si_free_nodup _ _ Hsi) as Hnd. rewrite Hpop in Hnd.
      apply NoDup_app in Hnd as (Hnd & Hdis & _).
      destruct (si_free _ _ Hsi row) as [Hlt Hno]; [rewrite Hpop; set_solver|].
      exists row, rest, (next_row s). split_and!; try done; try lia.
      intros r Hr. rewrite Hpop. split; [set_solver|]. intros ->. apply (Hdis row Hr). by left.
    - apply vec_pop_None in Hpop. exists (next_row s), (free_rows s), (S (next_row s)).
      split_and!; try done; try lia.
      + intros b' Hr. apply (si_bound _ _ Hsi) in Hr. lia.
      + apply Hsi.
      + intros r Hr. rewrite Hpop in Hr. by apply not_elem_of_nil in Hr. }
  set (s1 := with_rows (block_rows s) free next s).
  pose proof (si_slabs _ _ Hsi) as Hsl. rewrite Hm in Hsl. destruct Hsl as (H1 & H2 & H3 & H4 & H5).
  rewrite Hm.
  assert (∃ p2, (if decide (capacity_blocks m ≤ row) then ensure_layer_capacity l (S row) else mret tt)
      (with_store l s1 p) = (p2, Ok tt) ∧ same_registry p p2 ∧
      stores p2 = <[l := ensured bs (S row) m s1]> (stores p)) as (p2 & Hrun & Hreg & Hst2).
  { assert (stores (with_store l s1 p) !! l = Some s1) as Hs1
      by (apply list_lookup_insert_eq; by eapply lookup_lt_Some).
    case_decide as Hc.
    - destruct (ensure_layer_capacity_eq l (S row) (with_store l s1 p) s1 m Hs1 Hm) as (p2 & E1 & E2 & E3).
      exists p2. split_and!; [done|done|]. rewrite E3. cbn. by rewrite list_insert_insert_eq.
    - exists (with_store l s1 p). split_and!; try done. unfold ensured.
      by rewrite decide_True by lia. }
  unfold mbind at 1, M_bind at 1, set_store at 1, modify at 1. fold s1.
  unfold mbind at 1, M_bind at 1. rewrite Hrun.
  set (s2 := ensured bs (S row) m s1) in *.
  assert (stores p2 !! l = Some s2) as Hs2
    by (rewrite Hst2; apply list_lookup_insert_eq; by eapply lookup_lt_Some).
  unfold mbind at 1, M_bind at 1, store at 1, mbind at 1, M_bind at 1, get at 1, index at 1. rewrite Hs2.
  cbn [mret M_ret]. unfold mbind, M_bind, set_store, modify. cbn [mret M_ret].
  destruct (ensured_spec bs (S row) m s Hsi Hm) as (Hi2 & (G1 & G2 & G3 & G4 & G5) & m' & Hm' & M1 & M2 & M3 & M4 & M5).
  assert (∀ n, ensured bs n m s1 = with_rows (block_rows s) free next (ensured bs n m s)) as Hcomm.
  { intros n. unfold ensured. by destruct (decide (n ≤ capacity_blocks m)). }
  set (s3 := with_rows (<[b := row]> (block_rows s2)) (free_rows s2) (next_row s2) s2).
  exists (with_store l s3 p2), s3, row. split_and!; [done|done|cbn; by rewrite Hst2, list_insert_insert_eq|].
  unfold s3, s2. rewrite Hcomm. cbn.
  replace (with_rows _ _ _ (with_rows _ _ _ _)) with
    (with_rows (<[b := row]> (block_rows s)) free next (ensured bs (S row) m s)) by done.
  split.
  - done.
  - intros r Hr. congruence.
  - intros b' _. apply Hun.
  - exact G1.
  - rewrite <- G2. apply (give_row_inv bs (ensured bs (S row) m s)).
    + done.
    + by rewrite G2.
    + by rewrite G2.
    + done.
    + rewrite G4. lia.
    + done.
    + by rewrite G3.
    + intros m0 Hm0. rewrite Hm' in Hm0. injection Hm0 as <-.
      destruct (decide (next = S (next_row s))) as [Hs'|]; [specialize (Hnx Hs'); lia|]. lia.
    + by eexists.
  - intros m0 Hm0. rewrite Hm in Hm0. injection Hm0 as <-. exists m'. split_and!; done.
  - intros c r slot h d Hr. by apply G5.
Qed.

(** ** Writing a block *)

(** The element of slot [i] of a block argument, in either accepted layout. *)
Definition block_elem (a : MlxArray) (i h d : Z) : elt :=
  match array_shape a with
  | [_; _; _; _] => elem a [0; h; i; d]%Z
  | _ => elem a [i; h; d]
  end.

(** The two accepted layouts of [n] slots. *)
Definition block_shape (a : MlxArray) (n h d : Z) : Prop :=
  array_shape a = [1; h; n; d]%Z ∨ array_shape a = [n; h; d].


Lemma normalize_block_spec a n h d :
  block_shape a n h d → (0 ≤ n)%Z → (0 ≤ h)%Z → (0 ≤ d)%Z →
  ∃ u, normalize_block a = Ok (u, (n, h, d)) ∧ array_shape u = [1; n; h; d]%Z ∧
    array_dtype u = array_dtype a ∧
    ∀ i hh dd, (0 ≤ i < n)%Z → (0 ≤ hh < h)%Z → (0 ≤ dd < d)%Z →
      elem u [0; i; hh; dd]%Z = block_elem a i hh dd.
Proof.
  intros Hs Hn Hh Hd. unfold normalize_block, block_elem. destruct Hs as [Hs|Hs]; rewrite Hs.
  - rewrite decide_False by (intros ?; done). eexists. split; [done|].
    assert ([0; 2; 1; 3] ≡ₚ seq 0 (length (array_shape a))) as Hp.
    { rewrite Hs. cbn. repeat constructor. }
    split_and!.
    + rewrite transpose_shape, Hs by done. done.
    + apply transpose_dtype.
    + intros i hh dd Hi Hhh Hdd.
      rewrite <- (transpose_elem a [0; 2; 1; 3] [0; hh; i; dd]%Z Hp); [done|].
      rewrite Hs. shape_tac.
  - eexists. split; [done|].
    assert (size_of [1; n; h; d]%Z = size_of (array_shape a)) as Hsz by (rewrite Hs; cbn; lia).
    split_and!; [by apply reshape_shape|apply reshape_dtype|].
    intros i hh dd Hi Hhh Hdd. apply reshape_elem; [done|shape_tac| |].
    + rewrite Hs. shape_tac.
    + rewrite Hs. cbn. lia.
Qed.

(** The window of one row's slots in a slab. *)
Lemma slab_window r t0 n bs h d :
  (0 ≤ r < 32)%Z → (0 ≤ t0)%Z → (0 ≤ n)%Z → (t0 + n ≤ bs)%Z → (0 ≤ h)%Z → (0 ≤ d)%Z →
  window_ok [32; bs; h; d]%Z [r; t0; 0; 0]%Z [r + 1; t0 + n; h; d]%Z.
Proof. intros. split; shape_tac. Qed.

Lemma sub_idx_window r t0 n h d :
  sub_idx [r + 1; t0 + n; h; d]%Z [r; t0; 0; 0]%Z = [1; n; h; d]%Z.
Proof. unfold sub_idx. cbn. repeat f_equal; lia. Qed.

Lemma in_window_row r t0 n h d r' sl hh dd :
  (0 ≤ hh < h)%Z → (0 ≤ dd < d)%Z →
  in_window [r; t0; 0; 0]%Z [r + 1; t0 + n; h; d]%Z [r'; sl; hh; dd] =
    bool_decide (r' = r ∧ t0 ≤ sl < t0 + n)%Z.
Proof.
  intros. unfold in_window. cbn. rewrite !andb_true_r.
  case_bool_decide as Hb; repeat first [rewrite (proj2 (Z.leb_le _ _)) by lia
    | rewrite (proj2 (Z.ltb_lt _ _)) by lia]; [done|].
  rewrite !(proj2 (Z.leb_le 0 _)), (proj2 (Z.ltb_lt hh h)), (proj2 (Z.ltb_lt dd d)) by lia.
  destruct (Z.leb_spec r r'), (Z.leb_spec t0 sl), (Z.ltb_spec r' (r + 1)), (Z.ltb_spec sl (t0 + n));
    cbn; try done. exfalso. apply Hb. lia.
Qed.

(** The cell of a list of slabs. *)
Definition slab_cell (L : list MlxArray) (row slot : nat) (h d : Z) : option elt :=
  (λ a, elem a [Z.of_nat (row `mod` POOL_SLAB_BLOCKS); Z.of_nat slot; h; d])
    <$> L !! (row `div` POOL_SLAB_BLOCKS).

Lemma cell_slab_cell c s row slot h d : cell c s row slot h d = slab_cell (slabs c s) row slot h d.
Proof. done. Qed.

Definition slab_geom (bs : nat) (h d dt : Z) (a : MlxArray) : Prop :=
  array_shape a = [32; Z.of_nat bs; h; d]%Z ∧ array_dtype a = dt.

Lemma row_mod row : (0 ≤ Z.of_nat (row `mod` POOL_SLAB_BLOCKS) < 32)%Z.
Proof. pose proof (Nat.mod_upper_bound row POOL_SLAB_BLOCKS). unfold POOL_SLAB_BLOCKS in *. lia. Qed.

(** Rewriting [n] slots of one row of the slabs. *)
Lemma update_slab_spec L bs h d dt row t0 n u :
  Forall (slab_geom bs h d dt) L → row < length L * POOL_SLAB_BLOCKS →
  (0 ≤ n)%Z → (Z.of_nat t0 + n ≤ Z.of_nat bs)%Z → (0 ≤ h)%Z → (0 ≤ d)%Z →
  array_shape u = [1; n; h; d]%Z → array_dtype u = dt →
  let r := Z.of_nat (row `mod` POOL_SLAB_BLOCKS) in
  ∃ L', update_slab L (row `div` POOL_SLAB_BLOCKS) u [r; Z.of_nat t0; 0; 0]%Z
          [r + 1; Z.of_nat t0 + n; h; d]%Z = Some L' ∧
    length L' = length L ∧ Forall (slab_geom bs h d dt) L' ∧
    ∀ row' slot hh dd, slot < bs → (0 ≤ hh < h)%Z → (0 ≤ dd < d)%Z →
      slab_cell L' row' slot hh dd =
        if decide (row' = row ∧ (Z.of_nat t0 ≤ Z.of_nat slot < Z.of_nat t0 + n)%Z)
        then Some (elem u [0; Z.of_nat slot - Z.of_nat t0; hh; dd]%Z)
        else slab_cell L row' slot hh dd.
Proof.
  intros HL Hrow Hn Hbs Hh Hd Hu Hut r. pose proof (row_mod row) as Hr.
  assert (row `div` POOL_SLAB_BLOCKS < length L) as Hdiv by (apply Nat.Div0.div_lt_upper_bound; lia).
  destruct (lookup_lt_is_Some_2 L _ Hdiv) as [a Ha].
  pose proof (Forall_lookup_1 _ _ _ _ HL Ha) as [Has Hat].
  assert (window_ok (array_shape a) [r; Z.of_nat t0; 0; 0]%Z [r + 1; Z.of_nat t0 + n; h; d]%Z) as Hw
    by (rewrite Has; apply slab_window; unfold r; lia).
  assert (array_shape u = sub_idx [r + 1; Z.of_nat t0 + n; h; d]%Z [r; Z.of_nat t0; 0; 0]%Z) as Hsu
    by (by rewrite sub_idx_window).
  unfold update_slab. rewrite Ha. eexists. split; [done|]. split; [by rewrite length_insert|]. split.
  { apply Forall_insert; [done|]. split; [by rewrite slice_update_shape|by rewrite slice_update_dtype]. }
  intros row' slot hh dd Hslot Hhh Hdd. unfold slab_cell. rewrite list_lookup_insert.
  destruct (decide (row `div` POOL_SLAB_BLOCKS = row' `div` POOL_SLAB_BLOCKS)) as [Hq|Hq].
  - rewrite decide_True by done. cbn. rewrite <- Hq, Ha. cbn. pose proof (row_mod row') as Hr'.
    rewrite slice_update_elem; [|done|done|congruence|rewrite Has; shape_tac].
    rewrite in_window_row by done.
    assert (row' = row ↔ Z.of_nat (row' `mod` POOL_SLAB_BLOCKS) = r) as Heq.
    { unfold r. split; [by intros ->|]. intros E. pose proof (Nat.div_mod_eq row POOL_SLAB_BLOCKS).
      pose proof (Nat.div_mod_eq row' POOL_SLAB_BLOCKS). nia. }
    case_decide as Hin; case_bool_decide as Hin'; [|exfalso; naive_solver|exfalso; naive_solver|done].
    unfold sub_idx. cbn. destruct Hin' as [-> _]. do 2 f_equal.
    unfold r. by rewrite Z.sub_diag, !Z.sub_0_r.
  - rewrite decide_False by naive_solver. rewrite decide_False; [done|]. intros [-> _]. done.
Qed.

(** What [write_block] leaves of a layer. *)
Record block_written (bs : nat) s s' (b : N) (t0 : nat) (n h d dt : Z) (arg : side → MlxArray) : Prop := {
  bw_row : ∃ row, block_rows s' = <[b := row]> (block_rows s) ∧
             ∀ r, block_rows s !! b = Some r → row = r;
  bw_free : free_list s' = free_list s;
  bw_inv : store_inv bs s';
  bw_geom : has_geom s' h d dt;
  bw_cell c slot hh dd : slot < bs → (0 ≤ hh < h)%Z → (0 ≤ dd < d)%Z →
    (Z.of_nat t0 ≤ Z.of_nat slot < Z.of_nat t0 + n)%Z →
    block_cell c s' b slot hh dd = Some (block_elem (arg c) (Z.of_nat slot - Z.of_nat t0) hh dd);
  bw_keep c b' slot hh dd : slot < bs → (0 ≤ hh < h)%Z → (0 ≤ dd < d)%Z →
    is_Some (block_rows s !! b') →
    ¬ (b' = b ∧ (Z.of_nat t0 ≤ Z.of_nat slot < Z.of_nat t0 + n)%Z) →
    block_cell c s' b' slot hh dd = block_cell c s b' slot hh dd;
}.

Lemma store_slabs_geom bs s m c :
  store_inv bs s → pool_meta s = Some m → small bs →
  Forall (slab_geom bs (n_kv_heads m) (head_dim m) (dtype m)) (slabs c s).
Proof.
  intros Hsi Hm Hbs. pose proof (si_slabs _ _ Hsi) as Hsl. rewrite Hm in Hsl.
  destruct Hsl as (_ & _ & _ & _ & Hall). apply Forall_forall. intros a Ha.
  destruct (Hall a) as [H1 H2]; [apply elem_of_app; destruct c; by auto|].
  split; [|done]. rewrite H1, i32_slab, i32_small by done. done.
Qed.

(** Replacing the slabs by ones of the same geometry and number. *)
Lemma set_slabs_inv bs s m k' v' :
  store_inv bs s → pool_meta s = Some m → small bs →
  length k' = length (slabs_k s) → length v' = length (slabs_v s) →
  Forall (slab_geom bs (n_kv_heads m) (head_dim m) (dtype m)) k' →
  Forall (slab_geom bs (n_kv_heads m) (head_dim m) (dtype m)) v' →
  store_inv bs (with_slabs k' v' (pool_meta s) s).
Proof.
  intros [S1 S2 S3 S4 S5] Hm Hbs Hk Hv Hgk Hgv. split; try done. cbn. rewrite Hm in *.
  destruct S5 as (? & ? & ? & ? & _). split_and!; [lia|lia|lia|done|].
  intros a [Ha|Ha]%elem_of_app.
  - destruct (proj1 (Forall_forall _ _) Hgk a Ha) as [-> ->]. by rewrite i32_slab, i32_small.
  - destruct (proj1 (Forall_forall _ _) Hgv a Ha) as [-> ->]. by rewrite i32_slab, i32_small.
Qed.

Lemma write_row_spec bs s s1 b row t0 n h d dt kb vb ku vu m :
  row_assigned bs s s1 b row → pool_meta s = Some m →
  store_inv bs s → small bs → n_kv_heads m = h → head_dim m = d → dtype m = dt →
  (0 ≤ n)%Z → (0 ≤ h)%Z → (0 ≤ d)%Z → (Z.of_nat t0 + n ≤ Z.of_nat bs)%Z →
  (∀ (u a : MlxArray), (u, a) ∈ [(ku, kb); (vu, vb)] →
     array_shape u = [1; n; h; d]%Z ∧ array_dtype u = dt ∧
     ∀ i hh dd, (0 ≤ i < n)%Z → (0 ≤ hh < h)%Z → (0 ≤ dd < d)%Z →
       elem u [0; i; hh; dd]%Z = block_elem a i hh dd) →
  let r := Z.of_nat (row `mod` POOL_SLAB_BLOCKS) in
  let starts := [r; Z.of_nat t0; 0; 0]%Z in
  let stops := [r + 1; Z.of_nat t0 + n; h; d]%Z in
  ∃ k' v', update_slab (slabs_k s1) (row `div` POOL_SLAB_BLOCKS) ku starts stops = Some k' ∧
    update_slab (slabs_v s1) (row `div` POOL_SLAB_BLOCKS) vu starts stops = Some v' ∧
    block_written bs s (with_slabs k' v' (pool_meta s1) s1) b t0 n h d dt (λ c, match c with K => kb | V => vb end).
Proof.
  intros [R1 R2 R3 R4 R5 R6 R7] Hm Hsi Hbs <- <- <- Hn Hh Hd Hfit Hargs r starts stops.
  destruct (R6 m Hm) as (m' & Hm' & E1 & E2 & E3).
  assert (block_rows s1 !! b = Some row) as Hb by (rewrite R1; apply lookup_insert_eq).
  assert (∀ c, ∃ L', update_slab (slabs c s1) (row `div` POOL_SLAB_BLOCKS)
      (match c with K => ku | V => vu end) starts stops = Some L' ∧
    length L' = length (slabs c s1) ∧ Forall (slab_geom bs (n_kv_heads m) (head_dim m) (dtype m)) L' ∧
    ∀ row' slot hh dd, slot < bs → (0 ≤ hh < n_kv_heads m)%Z → (0 ≤ dd < head_dim m)%Z →
      slab_cell L' row' slot hh dd =
        if decide (row' = row ∧ (Z.of_nat t0 ≤ Z.of_nat slot < Z.of_nat t0 + n)%Z)
        then Some (elem (match c with K => ku | V => vu end) [0; Z.of_nat slot - Z.of_nat t0; hh; dd]%Z)
        else slab_cell (slabs c s1) row' slot hh dd) as Hside.
  { intros c. destruct (Hargs (match c with K => ku | V => vu end) (match c with K => kb | V => vb end))
      as (A1 & A2 & _); [destruct c; set_solver|].
    pose proof (store_slabs_geom bs s1 m' c R5 Hm' Hbs) as Hg. rewrite E1, E2, E3 in Hg.
    eapply update_slab_spec; try done. by eapply row_in_slabs. }
  destruct (Hside K) as (k' & Hk & Hlk & Hgk & Hck). destruct (Hside V) as (v' & Hv & Hlv & Hgv & Hcv).
  exists k', v'. split; [done|]. split; [done|]. cbn in Hlk, Hlv.
  assert (∀ c row' slot hh dd, slot < bs → (0 ≤ hh < n_kv_heads m)%Z → (0 ≤ dd < head_dim m)%Z →
    cell c (with_slabs k' v' (pool_meta s1) s1) row' slot hh dd =
      if decide (row' = row ∧ (Z.of_nat t0 ≤ Z.of_nat slot < Z.of_nat t0 + n)%Z)
      then Some (elem (match c with K => ku | V => vu end) [0; Z.of_nat slot - Z.of_nat t0; hh; dd]%Z)
      else cell c s1 row' slot hh dd) as Hcell.
  { intros [] row' slot hh dd Hslot Hhh Hdd; [by apply Hck|by apply Hcv]. }
  split.
  - by exists row.
  - done.
  - apply (set_slabs_inv bs s1 m'); try done; by rewrite E1, E2, E3.
  - exists m'. cbn. by rewrite Hm'.
  - intros c slot hh dd Hslot Hhh Hdd Hin. unfold block_cell. cbn. rewrite Hb. cbn.
    rewrite Hcell, decide_True by done. f_equal.
    destruct (Hargs (match c with K => ku | V => vu end) (match c with K => kb | V => vb end))
      as (_ & _ & A3); [destruct c; set_solver|]. rewrite A3 by lia. by destruct c.
  - intros c b' slot hh dd Hslot Hhh Hdd [r' Hr'] Hnot. unfold block_cell. cbn. rewrite R1.
    destruct (decide (b' = b)) as [->|Hne].
    + rewrite lookup_insert_eq, Hr'. cbn. rewrite (R2 r' Hr') in *. rewrite Hcell by done.
      rewrite decide_False by naive_solver. apply R7. by eapply row_in_slabs.
    + rewrite lookup_insert_ne, Hr' by done. cbn. rewrite Hcell by done.
      rewrite decide_False; [apply R7; by eapply row_in_slabs|].
      intros [-> _]. by eapply R3.
Qed.

Definition side_arg (kb vb : MlxArray) (c : side) : MlxArray := match c with K => kb | V => vb end.

(** The layer's geometry is [(h, d, dt)] or not yet known. *)
Definition accepts s (h d dt : Z) : Prop := pool_meta s = None ∨ has_geom s h d dt.

Lemma no_rows_without_slabs bs s b : store_inv bs s → pool_meta s = None → block_rows s !! b = None.
Proof.
  intros Hsi Hm. pose proof (si_slabs _ _ Hsi) as Hsl. rewrite Hm in Hsl. destruct Hsl as (_ & _ & H0).
  destruct (block_rows s !! b) as [r|] eqn:E; [|done]. apply (si_bound _ _ Hsi) in E. lia.
Qed.

Lemma write_block_spec b l t0 kb vb n h d p own s :
  pool_inv p own → stores p !! l = Some s → (∃ c, blocks p !! b = Some (mkRecord l c) ∧ (0 < c)%N) →
  small (block_size (layout p)) → block_shape kb n h d → block_shape vb n h d →
  array_dtype vb = array_dtype kb → (0 < n)%Z → (0 ≤ h)%Z → (0 ≤ d)%Z →
  (Z.of_nat t0 + n ≤ Z.of_nat (block_size (layout p)))%Z → accepts s h d (array_dtype kb) →
  ∃ p' s', write_block b l t0 kb vb p = (p', Ok tt) ∧ pool_inv p' own ∧ same_registry p p' ∧
    stores p' = <[l := s']> (stores p) ∧
    block_written (block_size (layout p)) s s' b t0 n h d (array_dtype kb) (side_arg kb vb).
Proof.
  intros Hi Hs (cnt & Hrec & Hcnt) Hbs Hk Hv Hdt Hn Hh Hd Hfit Hacc.
  pose proof (pi_stores _ _ Hi l s Hs) as Hsi. set (bs := block_size (layout p)) in *.
  pose proof (lookup_lt_Some _ _ _ Hs) as Hlt.
  destruct (normalize_block_spec kb n h d Hk) as (ku & Hku & U1 & U2 & U3); [lia|done|done|].
  destruct (normalize_block_spec vb n h d Hv) as (vu & Hvu & W1 & W2 & W3); [lia|done|done|].
  assert (small t0) as Ht0 by (unfold small in *; lia).
  (* the layer's slabs exist *)
  assert (∃ p1 s1 m, (match pool_meta s with
      | Some m => if decide (n_kv_heads m ≠ h ∨ head_dim m ≠ d ∨ dtype m ≠ array_dtype kb)
                  then throw LayerGeometry else mret tt
      | None => create_layer_pool l POOL_SLAB_BLOCKS h d (array_dtype kb) end) p = (p1, Ok tt) ∧
    same_registry p p1 ∧ stores p1 = <[l := s1]> (stores p) ∧ grown s s1 ∧ store_inv bs s1 ∧
    pool_meta s1 = Some m ∧ n_kv_heads m = h ∧ head_dim m = d ∧ dtype m = array_dtype kb)
    as (p1 & s1 & m & Hrun1 & Hreg1 & Hst1 & Hg1 & Hsi1 & Hm1 & M1 & M2 & M3).
  { destruct (pool_meta s) as [m|] eqn:Hm.
    - destruct Hacc as [?|(m' & Hm' & M1 & M2 & M3)]; [congruence|]. rewrite Hm in Hm'. injection Hm' as <-.
      exists p, s, m. rewrite decide_False by naive_solver. split_and!; try done.
      by rewrite list_insert_id.
    - destruct (create_layer_pool_spec l POOL_SLAB_BLOCKS h d (array_dtype kb) p own s Hi Hs Hm)
        as (p1 & s1 & E1 & E2 & E3 & E4 & (m & E5 & E6 & E7 & E8) & E9).
      exists p1, s1, m. split_and!; done. }
  assert (pool_inv p1 own) as Hi1.
  { destruct Hg1 as (G1 & G2 & _). destruct Hreg1 as (? & ? & ? & _).
    eapply (with_store_inv p own l s s1); try done. rewrite G2. intros b' r Hr. by eapply Hi. }
  assert (stores p1 !! l = Some s1) as Hs1 by (rewrite Hst1; by apply list_lookup_insert_eq).
  destruct Hreg1 as (Q1 & Q2 & Q3 & Q4 & Q5).
  destruct (assign_row_spec b l p1 own s1 m Hi1 Hs1 Hm1) as (p2 & s2 & row & Hrun2 & Hreg2 & Hst2 & Hra).
  rewrite Q1 in Hra. fold bs in Hra.
  destruct (write_row_spec bs s1 s2 b row t0 n h d (array_dtype kb) kb vb ku vu m)
    as (k' & v' & Huk & Huv & Hbw); try done; try lia.
  { intros u a [[= -> ->]|[[= -> ->]|?%elem_of_nil]%elem_of_cons]%elem_of_cons; [| |done].
    - split_and!; [done|done|]. intros. by apply U3.
    - split_and!; [done|congruence|]. intros. by apply W3. }
  set (s' := with_slabs k' v' (pool_meta s2) s2) in *.
  assert (stores p2 !! l = Some s2) as Hs2
    by (rewrite Hst2; apply list_lookup_insert_eq; rewrite Hst1, length_insert; done).
  destruct Hg1 as (G1 & G2 & G3 & G4 & G5).
  assert (block_written bs s s' b t0 n h d (array_dtype kb) (side_arg kb vb)) as Hbw'.
  { destruct Hbw as [B1 B2 B3 B4 B5 B6]. rewrite G2 in B1. split; [exact B1|congruence|done|done| |].
    - intros c slot hh dd ? ? ? ?. rewrite B5 by done. by destruct c.
    - intros c b' slot hh dd ? ? ? [r Hr] ?. rewrite B6 by (done || rewrite G2; by eexists).
      unfold block_cell. rewrite G2, Hr. cbn. apply G5. by eapply row_in_slabs. }
  exists (with_store l s' p2), s'.
  destruct Hreg2 as (T1 & T2 & T3 & T4 & T5).
  split; [|split; [|split; [|split; [|exact Hbw']]]].
  - unfold write_block, validate_layer, known_block, guard_m.
    unfold mbind at 1, M_bind at 1, mbind at 1, M_bind at 1, get at 1.
    rewrite bool_decide_eq_false_2 by (rewrite <- (pi_layers _ _ Hi); lia). cbn [negb mret M_ret].
    unfold mbind at 1, M_bind at 1, mbind at 1, M_bind at 1, get at 1.
    rewrite bool_decide_eq_true_2 by (rewrite Hrec; by eexists). cbn [mret M_ret].
    unfold mbind at 1, M_bind at 1, lift at 1. rewrite Hku. cbn beta iota.
    unfold mbind at 1, M_bind at 1, lift at 1. rewrite Hvu. cbn beta iota.
    rewrite decide_False by (intros H; by apply H). rewrite decide_False by (intros H; by apply H).
    unfold mbind at 1, M_bind at 1, get at 1. fold bs.
    rewrite (i32_small bs Hbs), (i32_small t0 Ht0). rewrite decide_False by lia.
    unfold mbind at 1, M_bind at 1, store at 1, mbind at 1, M_bind at 1, get at 1. rewrite Hs. cbn [index mret M_ret].
    unfold mbind at 1, M_bind at 1. rewrite Hrun1. cbn beta iota.
    unfold mbind at 1, M_bind at 1. rewrite Hrun2. cbn beta iota. unfold slab_coords.
    unfold mbind at 1, M_bind at 1, store at 1, mbind at 1, M_bind at 1, get at 1. rewrite Hs2. cbn [index mret M_ret].
    rewrite (i32_small _ (slab_small row)).
    unfold mbind at 1, M_bind at 1. rewrite Huk. cbn [index mret M_ret].
    unfold mbind at 1, M_bind at 1. rewrite Huv. cbn [index mret M_ret]. done.
  - eapply (with_store_inv p own l s s'); try done.
    + apply Hbw'.
    + apply Hbw'.
    + destruct (bw_row _ _ _ _ _ _ _ _ _ _ Hbw') as (row' & -> & _). intros b' r.
      rewrite lookup_insert. case_decide; [subst; by eauto|]. intros Hr. by eapply Hi.
    + cbn. congruence.
    + cbn. congruence.
    + cbn. congruence.
    + cbn. rewrite Hst2, Hst1, !list_insert_insert_eq. done.
  - split_and!; cbn; congruence.
  - cbn. rewrite Hst2, Hst1, !list_insert_insert_eq. done.
Qed.

(** ** Cells of a pool *)

Definition pcell (c : side) p (l : nat) (b : N) (slot : nat) (h d : Z) : option elt :=
  s ← stores p !! l; block_cell c s b slot h d.
Definition has_row p (l : nat) (b : N) : Prop := ∃ s, stores p !! l = Some s ∧ is_Some (block_rows s !! b).
Definition geom_is p (l : nat) (h d dt : Z) : Prop := ∃ s, stores p !! l = Some s ∧ has_geom s h d dt.
Definition geom_ok p (l slot : nat) (h d : Z) : Prop :=
  ∃ H D dt, geom_is p l H D dt ∧ slot < block_size (layout p) ∧ (0 ≤ h < H)%Z ∧ (0 ≤ d < D)%Z.

(** The cells of the blocks and slots in [Q] are as before. *)
Record preserved p p' (Q : N → nat → Prop) : Prop := {
  pr_layout : layout p' = layout p;
  pr_geom l h d dt : geom_is p l h d dt → geom_is p' l h d dt;
  pr_row l b slot : Q b slot → has_row p l b → has_row p' l b;
  pr_cell c l b slot h d : Q b slot → has_row p l b → geom_ok p l slot h d →
    pcell c p' l b slot h d = pcell c p l b slot h d;
}.

Lemma geom_ok_mono p p' l slot h d :
  layout p' = layout p → (∀ l h d dt, geom_is p l h d dt → geom_is p' l h d dt) →
  geom_ok p l slot h d → geom_ok p' l slot h d.
Proof. intros E Hg (H & D & dt & ? & ?). exists H, D, dt. rewrite E. split; [by apply Hg|done]. Qed.

Lemma preserved_refl p Q : preserved p p Q.
Proof. by split. Qed.

Lemma preserved_trans p1 p2 p3 (Q1 Q2 Q : N → nat → Prop) :
  preserved p1 p2 Q1 → preserved p2 p3 Q2 → (∀ b t, Q b t → Q1 b t ∧ Q2 b t) → preserved p1 p3 Q.
Proof.
  intros [A1 A2 A3 A4] [B1 B2 B3 B4] HQ. split.
  - congruence.
  - intros. by apply B2, A2.
  - intros l b slot H Hr. destruct (HQ _ _ H). eapply B3; [done|]. by eapply A3.
  - intros c l b slot h d H Hr Hg. destruct (HQ _ _ H). rewrite B4, A4; try done.
    + by eapply A3.
    + by eapply geom_ok_mono.
Qed.

Lemma preserved_weaken p p' (Q Q' : N → nat → Prop) :
  preserved p p' Q → (∀ b t, Q' b t → Q b t) → preserved p p' Q'.
Proof. intros [A1 A2 A3 A4] H. split; eauto. Qed.

Lemma same_stores_preserved p p' Q : same_stores p p' → preserved p p' Q.
Proof.
  intros (E & _ & Hs). split; [done| | |].
  - intros l h d dt (s & Hl & m & Hm & Hrest). destruct (Hs l s Hl) as (s' & Hl' & _ & _ & Em & _).
    exists s'. split; [done|]. exists m. by rewrite Em.
  - intros l b slot _ (s & Hl & Hr). destruct (Hs l s Hl) as (s' & Hl' & _ & _ & _ & Er & _).
    exists s'. by rewrite Er.
  - intros c l b slot h d _ (s & Hl & Hr) _. destruct (Hs l s Hl) as (s' & Hl' & Ek & Ev & _ & Er & _).
    unfold pcell. rewrite Hl, Hl'. cbn. unfold block_cell, cell. rewrite Er. by destruct c; cbn; rewrite ?Ek, ?Ev.
Qed.

Lemma kept_preserved p p' own : kept p p' own → preserved p p' (λ b _, b ∈ own).
Proof.
  intros (E & _ & _ & Hs). split; [done| | |].
  - intros l h d dt (s & Hl & m & Hm & Hrest). destruct (Hs l s Hl) as (s' & Hl' & (_ & _ & Em) & _).
    exists s'. split; [done|]. exists m. by rewrite Em.
  - intros l b slot Hb (s & Hl & Hr). destruct (Hs l s Hl) as (s' & Hl' & _ & Er).
    exists s'. split; [done|]. by rewrite Er.
  - intros c l b slot h d Hb (s & Hl & Hr) _. destruct (Hs l s Hl) as (s' & Hl' & (Ek & Ev & _) & Er).
    unfold pcell. rewrite Hl, Hl'. cbn. unfold block_cell, cell. rewrite Er by done.
    by destruct c; cbn; rewrite ?Ek, ?Ev.
Qed.

(** [write_block] as seen through the cells. *)
Lemma written_preserved p p' l s s' b t0 n h d dt arg :
  stores p !! l = Some s → same_registry p p' → stores p' = <[l := s']> (stores p) →
  accepts s h d dt → block_written (block_size (layout p)) s s' b t0 n h d dt arg →
  preserved p p' (λ b' slot, ¬ (b' = b ∧ (Z.of_nat t0 ≤ Z.of_nat slot < Z.of_nat t0 + n)%Z)) ∧
  geom_is p' l h d dt ∧ has_row p' l b ∧
  (∀ c slot hh dd, slot < block_size (layout p) → (0 ≤ hh < h)%Z → (0 ≤ dd < d)%Z →
     (Z.of_nat t0 ≤ Z.of_nat slot < Z.of_nat t0 + n)%Z →
     pcell c p' l b slot hh dd = Some (block_elem (arg c) (Z.of_nat slot - Z.of_nat t0) hh dd)).
Proof.
  intros Hs (E1 & _) Hst Hacc [(row & B1 & B1') B2 B3 B4 B5 B6].
  pose proof (lookup_lt_Some _ _ _ Hs) as Hlt.
  assert (stores p' !! l = Some s') as Hs' by (rewrite Hst; by apply list_lookup_insert_eq).
  assert (∀ k, k ≠ l → stores p' !! k = stores p !! k) as Hk
    by (intros k Hne; rewrite Hst; by apply list_lookup_insert_ne).
  split; [split; [done| | |]|split_and!].
  - intros k hh dd dt' (s0 & Hk0 & Hg). destruct (decide (k = l)) as [->|Hne].
    + rewrite Hs in Hk0. injection Hk0 as <-. destruct Hg as (m & Hm & G1 & G2 & G3).
      destruct Hacc as [?|(m' & Hm' & G1' & G2' & G3')]; [congruence|].
      rewrite Hm in Hm'. injection Hm' as <-. exists s'. split; [done|]. by subst.
    + exists s0. by rewrite Hk.
  - intros k b' slot _ (s0 & Hk0 & Hr). destruct (decide (k = l)) as [->|Hne].
    + rewrite Hs in Hk0. injection Hk0 as <-. exists s'. split; [done|]. rewrite B1, lookup_insert.
      case_decide; by eauto.
    + exists s0. by rewrite Hk.
  - intros c k b' slot hh dd Hn (s0 & Hk0 & Hr) (H & D & dt' & (s1 & Hk1 & Hg) & Hslot & Hhh & Hdd).
    unfold pcell. destruct (decide (k = l)) as [->|Hne].
    + rewrite Hs in Hk0, Hk1. injection Hk0 as <-. injection Hk1 as <-. rewrite Hs', Hs. cbn.
      destruct Hg as (m & Hm & <- & <- & _).
      destruct Hacc as [?|(m' & Hm' & G1' & G2' & _)]; [congruence|]. rewrite Hm in Hm'.
      injection Hm' as <-. apply B6; try done; congruence || by subst.
    + by rewrite Hk.
  - by exists s'.
  - exists s'. split; [done|]. rewrite B1, lookup_insert_eq. by eexists.
  - intros c slot hh dd H1 H2 H3 H4. unfold pcell. rewrite Hs'. by apply B5.
Qed.

(** ** Copying a block *)

Lemma read_row_spec b l p own s m row :
  pool_inv p own → stores p !! l = Some s → pool_meta s = Some m → block_rows s !! b = Some row →
  small (block_size (layout p)) → (0 ≤ n_kv_heads m)%Z → (0 ≤ head_dim m)%Z →
  ∃ k v, read_row b l p = (p, Ok (k, v)) ∧
    ∀ c, let a := side_arg k v c in
      array_shape a = [Z.of_nat (block_size (layout p)); n_kv_heads m; head_dim m] ∧
      array_dtype a = dtype m ∧
      ∀ slot h d, slot < block_size (layout p) → (0 ≤ h < n_kv_heads m)%Z → (0 ≤ d < head_dim m)%Z →
        Some (block_elem a (Z.of_nat slot) h d) = pcell c p l b slot h d.
Proof.
  intros Hi Hs Hm Hr Hbs Hh Hd. pose proof (pi_stores _ _ Hi l s Hs) as Hsi.
  set (bs := block_size (layout p)) in *. pose proof (row_mod row) as Hmod.
  assert (∀ c, ∃ a, slabs c s !! (row `div` POOL_SLAB_BLOCKS) = Some a ∧
    slab_geom bs (n_kv_heads m) (head_dim m) (dtype m) a) as Hslab.
  { intros c. pose proof (row_in_slabs bs s c b row Hsi Hr) as Hlt.
    destruct (lookup_lt_is_Some_2 (slabs c s) (row `div` POOL_SLAB_BLOCKS)) as [a Ha].
    { apply Nat.Div0.div_lt_upper_bound. lia. }
    exists a. split; [done|]. eapply Forall_lookup_1; [|done]. by apply store_slabs_geom. }
  destruct (Hslab K) as (ka & Hka & Hkg). destruct (Hslab V) as (va & Hva & Hvg). cbn in Hka, Hva.
  set (r := Z.of_nat (row `mod` POOL_SLAB_BLOCKS)) in *.
  exists (row_slab p m r ka), (row_slab p m r va). split.
  { unfold read_row, store, mbind, M_bind, get, index, ok_or, mret, M_ret. rewrite Hs, Hm, Hr. cbn.
    rewrite Hka, Hva. cbn. rewrite (i32_small _ (slab_small row)). done. }
  intros c a.
  assert (∃ sa, a = row_slab p m r sa ∧ slabs c s !! (row `div` POOL_SLAB_BLOCKS) = Some sa ∧
    slab_geom bs (n_kv_heads m) (head_dim m) (dtype m) sa) as (sa & -> & Hsa & [Hss Hst])
    by (unfold a; destruct c; cbn; eauto).
  unfold row_slab. fold bs. rewrite (i32_small bs Hbs).
  set (H := n_kv_heads m) in *. set (D := head_dim m) in *.
  assert (window_ok (array_shape sa) [r; 0; 0; 0]%Z [r + 1; Z.of_nat bs; H; D]%Z) as Hw.
  { rewrite Hss. split; shape_tac. }
  assert (array_shape (slice sa [r; 0; 0; 0]%Z [r + 1; Z.of_nat bs; H; D]%Z) = [1; Z.of_nat bs; H; D]%Z) as Hshape.
  { rewrite slice_shape by done. unfold sub_idx. cbn. repeat f_equal; lia. }
  assert (size_of [Z.of_nat bs; H; D] =
    size_of (array_shape (slice sa [r; 0; 0; 0]%Z [r + 1; Z.of_nat bs; H; D]%Z))) as Hsz
    by (rewrite Hshape; cbn; lia).
  pose proof (reshape_shape _ _ Hsz) as Hrs. split_and!; [done|by rewrite reshape_dtype, slice_dtype|].
  intros slot h d Hslot Hhh Hdd. unfold block_elem. rewrite Hrs.
  rewrite (reshape_elem _ _ [Z.of_nat slot; h; d] [0; Z.of_nat slot; h; d]%Z Hsz);
    [|shape_tac|rewrite Hshape; shape_tac|rewrite Hshape; cbn; lia].
  rewrite slice_elem; [|done|unfold sub_idx; cbn; shape_tac].
  unfold pcell, block_cell, cell. rewrite Hs. cbn. rewrite Hr. cbn. rewrite Hsa. cbn.
  unfold add_idx. cbn. do 2 f_equal. rewrite !Z.add_0_r. done.
Qed.
End data.
