(* ===== verification/PagedPrefill.v ===== *)
(** * Writing prefills into the pool and reading them back

    The contract of the paged cache: a sequence that writes its keys and values
    with [write_prefill] reads back, with [gather_visible], what a dense
    per-sequence buffer would hold, whatever blocks it shares with other
    sequences; and the other sequences never notice ([write_prefill] copies a
    shared block before it writes into it). *)

From S2P Require Import Prelude Mlx PagedPool PagedPoolInv PagedPoolData.

Section prefill.
Context {X : Mlx} {XL : MlxLaws X}.
Implicit Types (p : PagedBlockPool) (own : list N).

(** The registry has [b] on layer [l]. *)
Definition on_layer p (l : nat) (b : N) : Prop := layer_idx <$> blocks p !! b = Some l.

Lemma on_layer_record p own l b :
  pool_inv p own → b ∈ own → on_layer p l b →
  ∃ c, blocks p !! b = Some (mkRecord l c) ∧ (0 < c)%N ∧ l < length (stores p).
Proof.
  intros Hi Hb Hl. destruct (owned_block p own b Hi Hb) as (l' & Hrec & Hlt).
  unfold on_layer in Hl. rewrite Hrec in Hl. cbn in Hl. injection Hl as ->.
  apply occ_pos in Hb. eexists. split; [done|]. split; [lia|done].
Qed.

Definition bs_of p : nat := block_size (layout p).

Definition layers_kept p p' (P : N → Prop) : Prop := ∀ l b, P b → on_layer p l b → on_layer p' l b.

Lemma copy_on_write_spec l src p own H D dt :
  pool_inv p (src :: own) → src ∈ own → on_layer p l src → has_row p l src →
  geom_is p l H D dt → (0 ≤ H)%Z → (0 ≤ D)%Z → small (bs_of p) →
  (N.of_nat (S (S (length own))) < u32_max)%N →
  ∃ p' r, copy_on_write_block l src p = (p', r) ∧
  match r with
  | Ok fresh =>
    pool_inv p' (fresh :: own) ∧ fresh ∉ src :: own ∧ on_layer p' l fresh ∧ has_row p' l fresh ∧
    preserved p p' (λ b _, b ∈ own) ∧ block_budget p' = block_budget p ∧
    layers_kept p p' (λ b, b ≠ fresh) ∧
    (∀ c slot h d, geom_ok p l slot h d → pcell c p' l fresh slot h d = pcell c p l src slot h d)
  | Err _ => p' = p ∧ is_Some (block_budget p)
  | Panic => False
  end.
Proof.
  intros Hi Hsrc Hlay Hrow Hgeom HH HD Hbs Hsm.
  destruct (on_layer_record p _ l src Hi ltac:(by left) Hlay) as (cnt & Hrec & Hcnt & Hlt).
  destruct Hrow as (s & Hs & [row Hr]). destruct Hgeom as (s0 & Hs0 & m & Hm & <- & <- & <-).
  rewrite Hs in Hs0. injection Hs0 as <-.
  destruct (read_row_spec src l p _ s m row Hi Hs Hm Hr Hbs HH HD) as (k & v & Hread & Harg).
  unfold copy_on_write_block. rewrite (M_bind_eq _ _ _ _ _ Hread). cbn beta iota.
  pose proof (acquire_block_spec l p _ Hi ltac:(cbn; lia)) as Hacq.
  unfold mbind at 1, M_bind at 1. destruct (acquire_block l p) as [p1 [fresh|e|]]; [| |done].
  2: { destruct Hacq as [-> Herr]. exists p, (Err e). split; [done|]. split; [done|].
       destruct Herr as [[Hge _]|(? & max & _ & _ & -> & _)]; [|by eexists].
       rewrite <- (pi_layers _ _ Hi) in Hge. lia. }
  destruct Hacq as (Hi1 & Hfresh & Elay & Ebud & Eblk & _ & Hst & Hnr).
  assert (same_stores p p1) as Hss by done.
  destruct (Hst l s Hs) as (s1 & Hs1 & Hsame).
  assert (has_geom s1 (n_kv_heads m) (head_dim m) (dtype m)) as Hg1.
  { exists m. destruct Hsame as (_ & _ & -> & _). done. }
  destruct (Harg K) as (KA & KT & KE). destruct (Harg V) as (VA & VT & VE). cbn in KA, KT, KE, VA, VT, VE.
  assert (bs_of p1 = bs_of p) as Ebs by (unfold bs_of; by rewrite Elay).
  pose proof (pi_bs _ _ Hi) as Hpos. unfold bs_of in *.
  destruct (write_block_spec fresh l 0 k v (Z.of_nat (block_size (layout p))) (n_kv_heads m) (head_dim m)
    p1 _ s1 Hi1 Hs1) as (p2 & s2 & Hw & Hi2 & Hreg2 & Hst2 & Hbw); try done; try lia.
  { exists 1%N. rewrite Eblk, lookup_insert_eq. done. }
  { by rewrite Ebs. }
  { right. done. }
  { right. done. }
  { right. by rewrite KT. }
  rewrite (M_bind_eq _ _ _ _ _ Hw).
  assert (accepts s1 (n_kv_heads m) (head_dim m) (array_dtype k)) as Hacc by (right; by rewrite KT).
  destruct (written_preserved p1 p2 l s1 s2 _ _ _ _ _ _ _ Hs1 Hreg2 Hst2 Hacc Hbw)
    as (Hpr2 & Hgeom2 & Hrow2 & Hcell2).
  rewrite Permutation_swap in Hi2.
  destruct (release_block_spec src p2 (fresh :: own) Hi2) as (p3 & Hrel & Hi3 & Elay3 & Ebud3 & Hsl3 & Hst3).
  rewrite (M_bind_eq _ _ _ _ _ Hrel).
  assert (kept p2 p3 (fresh :: own)) as Hk3 by done.
  pose proof (kept_preserved _ _ _ Hk3) as Hpr3.
  destruct Hreg2 as (Elay2 & _ & Eblk2 & _ & Ebud2).
  exists p3, (Ok fresh). split; [done|]. apply not_elem_of_cons in Hfresh as [Hfs Hfo].
  split_and!; try done.
  - set_solver.
  - unfold on_layer. rewrite (Hsl3 fresh), Eblk2, Eblk, lookup_insert_eq. done.
  - eapply (pr_row _ _ _ Hpr3 l fresh 0); [by left|done].
  - assert (preserved p p2 (λ b _, b ≠ fresh)) as Hpr12.
    { eapply preserved_trans; [by apply (same_stores_preserved _ _ (λ b _, b ≠ fresh))|exact Hpr2|].
      intros b t Hb. split; [done|]. naive_solver. }
    eapply preserved_trans; [exact Hpr12|exact Hpr3|]. intros b t Hb. split; [by intros ->|by right].
  - congruence.
  - intros l' b Hb Hl'. unfold on_layer in *. rewrite (Hsl3 b), Eblk2, Eblk, lookup_insert_ne by done. done.
  - intros c slot h d Hg.
    destruct Hg as (H' & D' & dt' & (s' & Hs' & m' & Hm' & E1 & E2 & _) & Hslot & Hh & Hd).
    rewrite Hs in Hs'. injection Hs' as <-. rewrite Hm in Hm'. injection Hm' as <-. subst H' D'.
    assert (geom_ok p2 l slot h d) as Hg2.
    { exists (n_kv_heads m), (head_dim m), (array_dtype k). rewrite Elay2, Elay. done. }
    rewrite (pr_cell _ _ _ Hpr3 c l fresh slot h d) by (done || by left).
    rewrite Hcell2 by (rewrite ?Elay; done || lia).
    cbn. rewrite Z.sub_0_r. destruct c; cbn; [by apply KE|by apply VE].
Qed.

(** ** A sequence's tokens *)

(** The cell of token [t] of a sequence whose block table is [tbl]. *)
Definition tcell (c : side) p (l : nat) (tbl : list N) (t : nat) (h d : Z) : option elt :=
  b ← tbl !! (t `div` bs_of p); pcell c p l b (t `mod` bs_of p) h d.

Definition trow p (l : nat) (tbl : list N) (j : nat) : Prop := ∃ b, tbl !! j = Some b ∧ has_row p l b.

(** A sequence whose layer [l] can be written: its blocks are distinct blocks of
    the layer, those it shares have been written, and the layer's geometry is
    the one of the data (or not yet fixed). *)
Record seq_ready p st (l : nat) ls own (H D dt : Z) : Prop := {
  sr_inv : pool_inv p (ids st ++ own);
  sr_layer : layers st !! l = Some ls;
  sr_nodup : NoDup (block_ids ls);
  sr_on b : b ∈ block_ids ls → on_layer p l b;
  sr_shared b : b ∈ block_ids ls → (1 < refcount b p)%N → has_row p l b;
  sr_geom : ∃ s, stores p !! l = Some s ∧ accepts s H D dt;
}.

Definition geom_in p (slot : nat) (H D h d : Z) : Prop :=
  slot < bs_of p ∧ (0 ≤ h < H)%Z ∧ (0 ≤ d < D)%Z.

(** A block of a sequence, and the references to it. *)
Lemma own_split l st ls own bi b :
  layers st !! l = Some ls → block_ids ls !! bi = Some b →
  ids st ++ own ≡ₚ b :: delete bi (block_ids ls) ++ other_ids l st ++ own.
Proof.
  intros Hl Hb. rewrite (ids_split l st ls Hl). rewrite (delete_Permutation _ _ _ Hb) at 1.
  cbn. by rewrite <- !app_assoc.
Qed.

Lemma own_replace l st ls own bi b fresh n k :
  layers st !! l = Some ls → block_ids ls !! bi = Some b →
  ids (set_layer l (mkLayerState (<[bi := fresh]> (block_ids ls)) n k) st) ++ own
    ≡ₚ fresh :: delete bi (block_ids ls) ++ other_ids l st ++ own.
Proof.
  intros Hl Hb. pose proof (lookup_lt_Some _ _ _ Hb) as Hlt.
  set (ls' := mkLayerState _ n k).
  rewrite (own_split l (set_layer l ls' st) ls' own bi fresh).
  - rewrite other_ids_set_layer. unfold ls'. cbn [block_ids].
    rewrite !list.delete_take_drop, take_insert_ge, drop_insert_lt by lia. done.
  - by eapply set_layer_lookup.
  - cbn. by apply list_lookup_insert_eq.
Qed.

Lemma unshared_not_elsewhere p l st ls own bi b :
  pool_inv p (ids st ++ own) → layers st !! l = Some ls → block_ids ls !! bi = Some b →
  ¬ (1 < refcount b p)%N → b ∉ delete bi (block_ids ls) ++ other_ids l st ++ own.
Proof.
  intros Hi Hl Hb Hr Hin. pose proof (pi_refs _ _ Hi b) as Hc.
  rewrite (own_split l st ls own bi b Hl Hb), occ_cons, decide_True in Hc by done.
  apply occ_pos in Hin. lia.
Qed.

(** Choosing the block to write: the block itself, or a private copy of it. *)
Definition span_target (l bi : nat) (b : N) (s : PagedLayerState) p0 :
    M (PagedBlockPool * PagedSequenceState) pool_error N :=
  if decide (1 < refcount b p0)%N then
    fresh ← on_pool (copy_on_write_block l b);
    _ ← put_layer l (mkLayerState (<[bi := fresh]> (block_ids s)) (len s) (logical_start s));
    mret fresh
  else mret b.

Record target_chosen (l bi : nat) p st ls own H D dt p1 st1 ls1 (target : N) : Prop := {
  tc_ready : seq_ready p1 st1 l ls1 own H D dt;
  tc_ls : ls1 = mkLayerState (<[bi := target]> (block_ids ls)) (len ls) (logical_start ls);
  tc_st : st1 = set_layer l ls1 st;
  tc_alone : target ∉ delete bi (block_ids ls) ++ other_ids l st ++ own;
  tc_others : preserved p p1 (λ b _, b ∈ delete bi (block_ids ls) ++ other_ids l st ++ own);
  tc_rows j : trow p l (block_ids ls) j → trow p1 l (block_ids ls1) j;
  tc_cells c t h d : trow p l (block_ids ls) (t `div` bs_of p) →
    geom_ok p l (t `mod` bs_of p) h d →
    tcell c p1 l (block_ids ls1) t h d = tcell c p l (block_ids ls) t h d;
  tc_budget : block_budget p1 = block_budget p;
  tc_layers : layers_kept p p1 (λ b, b ∈ ids st ++ own);
}.

Lemma insert_Permutation_delete {A} (l : list A) i x y :
  l !! i = Some x → <[i := y]> l ≡ₚ y :: delete i l.
Proof.
  intros Hx. pose proof (lookup_lt_Some _ _ _ Hx) as Hlt.
  rewrite (delete_Permutation (<[i := y]> l) i y) by (by apply list_lookup_insert_eq).
  by rewrite !list.delete_take_drop, take_insert_ge, drop_insert_lt by lia.
Qed.

Lemma ready_geom p st l ls own H D dt b :
  seq_ready p st l ls own H D dt → has_row p l b → geom_is p l H D dt.
Proof.
  intros Hr (s & Hs & Hb). destruct (sr_geom _ _ _ _ _ _ _ _ Hr) as (s' & Hs' & Hacc).
  rewrite Hs in Hs'. injection Hs' as <-. exists s. split; [done|].
  destruct Hacc as [Hn|Hg]; [|done].
  rewrite (no_rows_without_slabs _ s b (pi_stores _ _ (sr_inv _ _ _ _ _ _ _ _ Hr) l s Hs) Hn) in Hb.
  by destruct Hb.
Qed.

Lemma span_target_spec l bi b p st ls own H D dt :
  seq_ready p st l ls own H D dt → block_ids ls !! bi = Some b →
  (0 ≤ H)%Z → (0 ≤ D)%Z → small (bs_of p) → (N.of_nat (length (ids st ++ own) + 2) < u32_max)%N →
  ∃ q r, span_target l bi b ls p (p, st) = (q, r) ∧
    match r with
    | Ok target => ∃ ls1, target_chosen l bi p st ls own H D dt q.1 q.2 ls1 target
    | Err _ => q = (p, st) ∧ is_Some (block_budget p)
    | Panic => False
    end.
Proof.
  intros Hrd Hb HH HD Hbs Hsm. pose proof Hrd as [Hi Hl Hnd Hon Hsh Hg].
  assert (b ∈ block_ids ls) as Hin by (by eapply list_elem_of_lookup_2).
  pose proof (own_split l st ls own bi b Hl Hb) as Hsplit.
  set (rest := delete bi (block_ids ls) ++ other_ids l st ++ own) in *.
  unfold span_target. case_decide as Hrc.
  2: { exists (p, st), (Ok b). split; [done|]. exists ls.
       assert (<[bi := b]> (block_ids ls) = block_ids ls) as Eid by (by apply list_insert_id).
       split; try done.
       - rewrite Eid. by destruct ls.
       - cbn. by rewrite set_layer_id.
       - by eapply unshared_not_elsewhere.
       - by intros ? ? ?. }
  pose proof (Hsh b Hin Hrc) as Hrow. pose proof (ready_geom _ _ _ _ _ _ _ _ b Hrd Hrow) as Hgeom.
  pose proof Hi as Hi0. rewrite Hsplit in Hi0.
  assert (b ∈ rest) as Hbrest.
  { apply occ_pos. pose proof (pi_refs _ _ Hi0 b) as Hc. rewrite occ_cons, decide_True in Hc by done. lia. }
  assert (length (ids st ++ own) = S (length rest)) as Hlen by (by rewrite Hsplit).
  destruct (copy_on_write_spec l b p rest H D dt Hi0 Hbrest (Hon b Hin) Hrow Hgeom HH HD Hbs ltac:(lia))
    as (p1 & r & Hcow & Hres).
  unfold mbind at 1, M_bind at 1. rewrite on_pool_eq, Hcow. cbn [fst snd].
  destruct r as [fresh|e|]; [| |done].
  2: { exists (p1, st), (Err e). split; [done|]. destruct Hres as [-> ?]. done. }
  destruct Hres as (Hi1 & Hfr & Hon1 & Hrow1 & Hpr & Hbud & Hlk & Hcells).
  apply not_elem_of_cons in Hfr as [Hfb Hfr].
  set (ls1 := mkLayerState (<[bi := fresh]> (block_ids ls)) (len ls) (logical_start ls)).
  set (st1 := set_layer l ls1 st). unfold mbind, M_bind, put_layer. fold ls1 st1.
  exists (p1, st1), (Ok fresh). split; [done|]. exists ls1. cbn [fst snd].
  assert (∀ b', b' ∈ block_ids ls1 ↔ b' = fresh ∨ b' ∈ delete bi (block_ids ls)) as Hmem.
  { intros b'. unfold ls1. cbn [block_ids].
    rewrite (insert_Permutation_delete _ _ _ fresh Hb), elem_of_cons. done. }
  assert (∀ b', b' ∈ delete bi (block_ids ls) → b' ∈ block_ids ls ∧ b' ∈ rest ∧ b' ≠ fresh) as Hdel.
  { intros b' Hb'. assert (b' ∈ rest) by (unfold rest; set_solver). split_and!; [|done|by intros ->].
    rewrite (delete_Permutation _ _ _ Hb). by right. }
  assert (∀ j b', j ≠ bi → block_ids ls !! j = Some b' → b' ∈ delete bi (block_ids ls)) as Hoth.
  { intros j b' Hj Hb'. assert (b' ∈ block_ids ls) as Hx by (by eapply list_elem_of_lookup_2).
    rewrite (delete_Permutation _ _ _ Hb) in Hx. apply elem_of_cons in Hx as [->|]; [|done].
    exfalso. apply Hj. by eapply NoDup_lookup. }
  assert (bs_of p1 = bs_of p) as Ebs by (unfold bs_of; by rewrite (pr_layout _ _ _ Hpr)).
  split; try done.
  - split.
    + unfold st1, ls1. rewrite (own_replace l st ls own bi b fresh _ _ Hl Hb). done.
    + by eapply set_layer_lookup.
    + unfold ls1. cbn. rewrite (insert_Permutation_delete _ _ _ fresh Hb).
      rewrite (delete_Permutation _ _ _ Hb) in Hnd. apply NoDup_cons in Hnd as [_ Hnd].
      constructor; [|done]. intros Hx. by apply Hdel in Hx as (_ & ? & _).
    + intros b' [->|Hb']%Hmem; [done|]. apply Hdel in Hb' as (Hb' & _ & Hne). apply Hlk; [done|by apply Hon].
    + intros b' [->|Hb']%Hmem Hc; [done|]. apply Hdel in Hb' as (Hb' & Hbr & Hne).
      eapply (pr_row _ _ _ Hpr l b' 0); [done|]. apply Hsh; [done|].
      rewrite (pi_refs _ _ Hi1), occ_cons, decide_False in Hc by done.
      rewrite (pi_refs _ _ Hi0), occ_cons. lia.
    + destruct (pr_geom _ _ _ Hpr l H D dt Hgeom) as (s & Hs & Hgs). exists s. split; [done|]. by right.
  - intros j (b' & Hb' & Hr'). destruct (decide (j = bi)) as [->|Hj].
    + exists fresh. split; [|done]. unfold ls1. cbn. apply list_lookup_insert_eq. by eapply lookup_lt_Some.
    + exists b'. unfold ls1. cbn. rewrite list_lookup_insert_ne by done. split; [done|].
      eapply (pr_row _ _ _ Hpr l b' 0); [|done]. by apply (Hdel b'), (Hoth j).
  - intros c t h d (b' & Hb' & Hr') Hgo. unfold tcell. rewrite Ebs, Hb'. cbn [mbind option_bind].
    destruct (decide (t `div` bs_of p = bi)) as [Hj|Hj].
    + rewrite Hj in *. rewrite Hb in Hb'. injection Hb' as <-. unfold ls1. cbn [block_ids].
      rewrite list_lookup_insert_eq by (by eapply lookup_lt_Some). cbn. by apply Hcells.
    + unfold ls1. cbn [block_ids]. rewrite list_lookup_insert_ne, Hb' by done. cbn.
      apply (pr_cell _ _ _ Hpr); try done. by apply (Hdel b'), (Hoth _ _ Hj).
  - intros l' b' Hb' Hl'. apply Hlk; [|done]. intros ->. rewrite Hsplit in Hb'.
    apply elem_of_cons in Hb' as [?|?]; done.
Qed.

(** Tokens [W] of the sequence have been written with the data of [arg], whose
    first token is token [F] of the sequence; nothing else changed. *)
Record span_written (l F : nat) (H D dt : Z) (arg : side → MlxArray) (W : nat → Prop)
    p st ls own p' st' ls' : Prop := {
  sw_ready : seq_ready p' st' l ls' own H D dt;
  sw_len : len ls' = len ls ∧ logical_start ls' = logical_start ls ∧
           length (block_ids ls') = length (block_ids ls);
  sw_st : st' = set_layer l ls' st;
  sw_others : preserved p p' (λ b _, b ∈ other_ids l st ++ own);
  sw_rows j : trow p l (block_ids ls) j → trow p' l (block_ids ls') j;
  sw_new c t h d : W t → (0 ≤ h < H)%Z → (0 ≤ d < D)%Z →
    tcell c p' l (block_ids ls') t h d = Some (elem (arg c) [0; h; Z.of_nat t - Z.of_nat F; d]%Z);
  sw_new_row t : W t → trow p' l (block_ids ls') (t `div` bs_of p);
  sw_old c t h d : trow p l (block_ids ls) (t `div` bs_of p) → ¬ W t →
    (0 ≤ h < H)%Z → (0 ≤ d < D)%Z →
    tcell c p' l (block_ids ls') t h d = tcell c p l (block_ids ls) t h d;
  sw_budget : block_budget p' = block_budget p;
  sw_size : length (ids st') = length (ids st);
}.

Lemma tcell_block c p l tbl t b h d :
  tbl !! (t `div` bs_of p) = Some b → tcell c p l tbl t h d = pcell c p l b (t `mod` bs_of p) h d.
Proof. intros Hb. unfold tcell. by rewrite Hb. Qed.

Lemma slice_window a H n D t1 t2 :
  array_shape a = [1; H; n; D]%Z → (0 ≤ H)%Z → (0 ≤ D)%Z → (0 ≤ t1)%Z → (t1 ≤ t2 ≤ n)%Z →
  array_shape (slice a [0; 0; t1; 0]%Z [1; H; t2; D]%Z) = [1; H; t2 - t1; D]%Z ∧
  ∀ h i d, (0 ≤ h < H)%Z → (0 ≤ i < t2 - t1)%Z → (0 ≤ d < D)%Z →
    elem (slice a [0; 0; t1; 0]%Z [1; H; t2; D]%Z) [0; h; i; d]%Z = elem a [0; h; i + t1; d]%Z.
Proof.
  intros Hs HH HD H1 H2.
  assert (window_ok (array_shape a) [0; 0; t1; 0]%Z [1; H; t2; D]%Z) as Hw
    by (rewrite Hs; split; shape_tac).
  assert (sub_idx [1; H; t2; D]%Z [0; 0; t1; 0]%Z = [1; H; t2 - t1; D]%Z) as Hsub
    by (unfold sub_idx; cbn; repeat f_equal; lia).
  split; [by rewrite slice_shape|]. intros h i d Hh Hi Hd.
  rewrite slice_elem; [|done|rewrite Hsub; shape_tac]. unfold add_idx. cbn.
  do 2 f_equal. rewrite !Z.add_0_r. done.
Qed.

Lemma length_ids_insert l st ls bi b fresh n k :
  layers st !! l = Some ls → block_ids ls !! bi = Some b →
  length (ids (set_layer l (mkLayerState (<[bi := fresh]> (block_ids ls)) n k) st)) = length (ids st).
Proof.
  intros Hl Hb. pose proof (own_replace l st ls [] bi b fresh n k Hl Hb) as H1.
  pose proof (own_split l st ls [] bi b Hl Hb) as H2. rewrite !app_nil_r in *.
  by rewrite H1, H2.
Qed.

Lemma write_span_block_spec l k v H D dt F T bi b p st ls own :
  seq_ready p st l ls own H D dt → block_ids ls !! bi = Some b →
  (0 ≤ H)%Z → (0 ≤ D)%Z → small (bs_of p) → small T → bi ≤ T →
  (N.of_nat (length (ids st ++ own) + 2) < u32_max)%N →
  array_shape k = [1; H; Z.of_nat T - Z.of_nat F; D]%Z →
  array_shape v = [1; H; Z.of_nat T - Z.of_nat F; D]%Z →
  array_dtype k = dt → array_dtype v = dt →
  F < T → bi * bs_of p < T → F < bi * bs_of p + bs_of p →
  ∃ q r, write_span_block l k v H D (Z.of_nat F) (Z.of_nat T) bi (p, st) = (q, r) ∧
    match r with
    | Ok _ => ∃ ls', span_written l F H D dt (side_arg k v)
                       (λ t, F ≤ t < T ∧ t `div` bs_of p = bi) p st ls own q.1 q.2 ls'
    | Err _ => q = (p, st) ∧ is_Some (block_budget p)
    | Panic => False
    end.
Proof.
  intros Hrd Hb HH HD Hbs HsT HbT Hsm Hks Hvs Hkt Hvt HFT Hb1 Hb2.
  pose proof (pi_bs _ _ (sr_inv _ _ _ _ _ _ _ _ Hrd)) as Hbs0.
  destruct (span_target_spec l bi b p st ls own H D dt Hrd Hb HH HD Hbs Hsm) as (q1 & r1 & Hrun1 & Hres1).
  set (a := F `max` (bi * bs_of p)) in *. set (e := T `min` (bi * bs_of p + bs_of p)) in *.
  assert (a < e) as Hae by lia. set (t0 := a - bi * bs_of p).
  assert (small bi) as Hsbi by (unfold small in *; lia).
  unfold write_span_block. unfold mbind at 1, M_bind at 1, get at 1. cbn beta iota.
  change (block_size (layout p)) with (bs_of p). rewrite (i32_small _ Hbs), (i32_small _ Hsbi).
  rewrite decide_False by lia.
  unfold mbind at 1, M_bind at 1. rewrite (layer_eq l p st ls (sr_layer _ _ _ _ _ _ _ _ Hrd)).
  unfold mbind at 1, M_bind at 1, index at 1. rewrite Hb. cbn [mret M_ret].
  unfold mbind at 1, M_bind at 1. fold (span_target l bi b ls p). rewrite Hrun1.
  destruct r1 as [target|er|]; [|exists q1, (Err er); by split|done].
  destruct q1 as [p1 st1]. destruct Hres1 as (ls1 & [C1 C2 C3 C4 C5 C6 C7 C8 C9]). cbn [fst snd] in *.
  rewrite on_pool_eq.
  replace (Z.to_nat _) with t0 by (unfold t0, a; lia).
  set (z1 := (Z.of_nat F `max` (Z.of_nat bi * Z.of_nat (bs_of p)) - Z.of_nat F)%Z).
  set (z2 := (z1 + _)%Z).
  assert (z1 = Z.of_nat a - Z.of_nat F)%Z as E1 by (unfold z1, a; lia).
  assert (z2 = Z.of_nat e - Z.of_nat F)%Z as E2 by (unfold z2, z1, e; lia).
  rewrite E1, E2. clear z1 z2 E1 E2.
  destruct (slice_window k H _ D (Z.of_nat a - Z.of_nat F) (Z.of_nat e - Z.of_nat F) Hks HH HD)
    as [Ksh Kel]; [lia|lia|].
  destruct (slice_window v H _ D (Z.of_nat a - Z.of_nat F) (Z.of_nat e - Z.of_nat F) Hvs HH HD)
    as [Vsh Vel]; [lia|lia|].
  set (ka := slice k _ _) in *. set (va := slice v _ _) in *.
  replace (Z.of_nat e - Z.of_nat F - (Z.of_nat a - Z.of_nat F))%Z with (Z.of_nat e - Z.of_nat a)%Z in * by lia.
  pose proof C1 as [I1 L1 N1 O1 S1 G1]. destruct G1 as (s1 & Hs1 & Hacc1).
  assert (bs_of p1 = bs_of p) as Ebs by (unfold bs_of; by rewrite (pr_layout _ _ _ C5)).
  assert (block_ids ls1 !! bi = Some target) as Htgt.
  { rewrite C2. cbn. apply list_lookup_insert_eq. by eapply lookup_lt_Some. }
  assert (target ∈ block_ids ls1) as Htin by (by eapply list_elem_of_lookup_2).
  assert (target ∈ ids st1 ++ own) as Htown.
  { apply elem_of_app. left. rewrite (ids_split l st1 ls1 L1). set_solver. }
  destruct (on_layer_record p1 _ l target I1 Htown (O1 target Htin)) as (cnt & Hrec & Hcnt & _).
  destruct (write_block_spec target l t0 ka va (Z.of_nat e - Z.of_nat a) H D p1 _ s1 I1 Hs1)
    as (p2 & s2 & Hw & I2 & Hreg & Hst & Hbw); try done; try lia.
  { by eexists. }
  { change (small (bs_of p1)). by rewrite Ebs. }
  { left. exact Ksh. }
  { left. exact Vsh. }
  { unfold ka, va. rewrite !slice_dtype. congruence. }
  { change (block_size (layout p1)) with (bs_of p1). rewrite Ebs. unfold t0, e. lia. }
  { unfold ka. rewrite slice_dtype, Hkt. done. }
  rewrite Hw. cbn [fst snd]. exists (p2, st1), (Ok tt). split; [done|]. exists ls1. cbn [fst snd].
  assert (array_dtype ka = dt) as Hkat by (unfold ka; by rewrite slice_dtype).
  rewrite Hkat in Hbw.
  destruct (written_preserved p1 p2 l s1 s2 _ _ _ _ _ _ _ Hs1 Hreg Hst Hacc1 Hbw) as (Hpr2 & Hg2 & Hr2 & Hc2).
  destruct Hreg as (Elay & _ & Eblk & _ & Ebud).
  assert (bs_of p2 = bs_of p) as Ebs2 by (unfold bs_of; rewrite Elay; exact Ebs).
  assert (∀ j b', j ≠ bi → block_ids ls1 !! j = Some b' → b' ≠ target) as Hne.
  { intros j b' Hj Hb' ->. apply Hj. by eapply (NoDup_lookup (block_ids ls1)). }
  assert (∀ j, trow p1 l (block_ids ls1) j → trow p2 l (block_ids ls1) j) as Hrows.
  { intros j (b' & Hb' & Hr'). exists b'. split; [done|]. destruct (decide (b' = target)) as [->|Hn]; [done|].
    eapply (pr_row _ _ _ Hpr2 l b' 0); [|done]. by intros [? _]. }
  split.
  - split; try done.
    + intros b' Hb'. unfold on_layer. rewrite Eblk. by apply O1.
    + intros b' Hb' Hc. destruct (decide (b' = target)) as [->|Hn]; [done|].
      eapply (pr_row _ _ _ Hpr2 l b' 0); [by intros [? _]|]. apply S1; [done|].
      unfold refcount in *. by rewrite Eblk in Hc.
    + destruct Hg2 as (s' & Hs' & Hgs). exists s'. split; [done|]. by right.
  - rewrite C2. cbn. by rewrite length_insert.
  - done.
  - eapply preserved_trans; [exact C5|exact Hpr2|]. intros b' t Hb'. split; [by apply elem_of_app; right|].
    intros [-> _]. apply C4. by apply elem_of_app; right.
  - intros j Hj. by apply Hrows, C6.
  - intros c t h d [Ht Hdiv] Hh Hd.
    assert (t `mod` bs_of p = t - bi * bs_of p) as Hmod.
    { rewrite <- Hdiv. pose proof (Nat.div_mod_eq t (bs_of p)). lia. }
    pose proof (Nat.mod_upper_bound t (bs_of p)) as Hub. pose proof (Nat.div_mod_eq t (bs_of p)) as Hdm.
    rewrite (tcell_block c p2 l (block_ids ls1) t target) by (by rewrite Ebs2, Hdiv).
    rewrite Ebs2, Hc2; try done.
    + assert (Z.of_nat (t `mod` bs_of p) - Z.of_nat t0 + (Z.of_nat a - Z.of_nat F)
        = Z.of_nat t - Z.of_nat F)%Z as Ez by (rewrite Hmod; unfold t0, a; lia).
      assert (0 ≤ Z.of_nat (t `mod` bs_of p) - Z.of_nat t0 < Z.of_nat e - Z.of_nat a)%Z as Er
        by (rewrite Hmod; unfold t0, a, e; lia).
      unfold block_elem. destruct c; cbn [side_arg];
        [rewrite Ksh, Kel by done|rewrite Vsh, Vel by done]; by rewrite Ez.
    + change (block_size (layout p1)) with (bs_of p1). rewrite Ebs. lia.
    + rewrite Hmod. unfold t0, a, e. lia.
  - intros t [_ Hdiv]. exists target. by rewrite Hdiv.
  - intros c t h d Htr HnW Hh Hd.
    assert (geom_ok p l (t `mod` bs_of p) h d) as Hgo.
    { destruct Htr as (b' & _ & Hr'). exists H, D, dt. split; [by eapply ready_geom|].
      split; [|done]. apply Nat.mod_upper_bound. unfold bs_of. lia. }
    rewrite <- (C7 c t h d Htr Hgo). destruct (C6 _ Htr) as (b' & Hb' & Hr').
    rewrite (tcell_block c p2 l _ t b') by (by rewrite Ebs2). rewrite (tcell_block c p1 l _ t b') by (by rewrite Ebs).
    rewrite Ebs, Ebs2. apply (pr_cell _ _ _ Hpr2); [|done|].
    + intros [-> Hwin]. apply HnW. assert (t `div` bs_of p = bi) as Hdiv by (by eapply (NoDup_lookup (block_ids ls1))).
      split; [|done]. pose proof (Nat.div_mod_eq t (bs_of p)). rewrite Hdiv in *.
      unfold t0, a, e in Hwin. lia.
    + eapply geom_ok_mono; [by apply C5|apply C5|done].
  - congruence.
  - rewrite C3, C2. exact (length_ids_insert l st ls bi b target _ _ (sr_layer _ _ _ _ _ _ _ _ Hrd) Hb).
Qed.

Lemma span_written_nil l F H D dt arg (W : nat → Prop) p st ls own :
  seq_ready p st l ls own H D dt → (∀ t, ¬ W t) → span_written l F H D dt arg W p st ls own p st ls.
Proof.
  intros Hrd HW. split; try done.
  - symmetry. apply set_layer_id, Hrd.
  - intros c t h d Ht. by apply HW in Ht.
  - intros t Ht. by apply HW in Ht.
Qed.

Lemma span_written_app l F H D dt arg (W1 W2 W : nat → Prop) p st ls own p1 st1 ls1 p2 st2 ls2 :
  span_written l F H D dt arg W1 p st ls own p1 st1 ls1 →
  span_written l F H D dt arg W2 p1 st1 ls1 own p2 st2 ls2 →
  (∀ t, W t ↔ W1 t ∨ W2 t) → (∀ t, W1 t → ¬ W2 t) →
  span_written l F H D dt arg W p st ls own p2 st2 ls2.
Proof.
  intros [A1 (A2 & A2' & A2'') A3 A4 A5 A6 A7 A8 A9 A10] [B1 (B2 & B2' & B2'') B3 B4 B5 B6 B7 B8 B9 B10] HW Hdis.
  assert (bs_of p1 = bs_of p) as Ebs by (unfold bs_of; by rewrite (pr_layout _ _ _ A4)).
  split.
  - done.
  - split_and!; congruence.
  - rewrite B3, A3. by rewrite set_layer_twice.
  - eapply preserved_trans; [exact A4|exact B4|]. intros b t Hb. split; [done|].
    by rewrite A3, other_ids_set_layer.
  - intros j Hj. by apply B5, A5.
  - intros c t h d Ht Hh Hd. apply HW in Ht as [Ht|Ht]; [|by apply B6].
    rewrite B8; [by apply A6| |by apply Hdis|done|done]. rewrite Ebs. by apply A7.
  - intros t Ht. apply HW in Ht as [Ht|Ht]; [by apply B5, A7|]. rewrite <- Ebs. by apply B7.
  - intros c t h d Htr Hn Hh Hd. rewrite B8, A8; try done; [naive_solver| |naive_solver].
    rewrite Ebs. by apply A5.
  - congruence.
  - congruence.
Qed.

Lemma write_span_spec l k v H D dt F T own n : ∀ bi p st ls,
  seq_ready p st l ls own H D dt → bi + n ≤ length (block_ids ls) →
  (0 ≤ H)%Z → (0 ≤ D)%Z → small (bs_of p) → small T →
  (N.of_nat (length (ids st ++ own) + 2) < u32_max)%N →
  array_shape k = [1; H; Z.of_nat T - Z.of_nat F; D]%Z →
  array_shape v = [1; H; Z.of_nat T - Z.of_nat F; D]%Z →
  array_dtype k = dt → array_dtype v = dt →
  F < T → F < bi * bs_of p + bs_of p → (bi + n) * bs_of p < T + bs_of p →
  ∃ q r n', write_span l k v H D (Z.of_nat F) (Z.of_nat T) n bi (p, st) = (q, r) ∧ n' ≤ n ∧
    (∃ ls', span_written l F H D dt (side_arg k v)
       (λ t, F ≤ t < T ∧ bi ≤ t `div` bs_of p < bi + n') p st ls own q.1 q.2 ls') ∧
    match r with Ok _ => n' = n | Err _ => is_Some (block_budget p) | Panic => False end.
Proof.
  induction n as [|n IH]; intros bi p st ls Hrd Hlen HH HD Hbs HsT Hsm Hks Hvs Hkt Hvt HFT Hb1 Hb2.
  { exists (p, st), (Ok tt), 0. split_and!; try done. exists ls. apply span_written_nil; [done|]. lia. }
  destruct (lookup_lt_is_Some_2 (block_ids ls) bi) as [b Hb]; [lia|].
  pose proof (pi_bs _ _ (sr_inv _ _ _ _ _ _ _ _ Hrd)) as Hbs0. change (0 < bs_of p) in Hbs0.
  assert (bi ≤ T) by nia.
  destruct (write_span_block_spec l k v H D dt F T bi b p st ls own) as (q1 & r1 & Hrun1 & Hres1);
    try done; [nia|].
  cbn [write_span]. unfold mbind, M_bind. rewrite Hrun1.
  destruct r1 as [[]|er|]; [| |done].
  2: { destruct Hres1 as [-> Hbud]. exists (p, st), (Err er), 0. split_and!; [done|lia| |done].
       exists ls. apply span_written_nil; [done|]. cbn. lia. }
  destruct q1 as [p1 st1]. destruct Hres1 as (ls1 & Hsw1). cbn [fst snd] in Hsw1.
  pose proof Hsw1 as [A1 (A2 & A2' & A2'') A3 A4 A5 A6 A7 A8 A9 A10].
  assert (bs_of p1 = bs_of p) as Ebs by (unfold bs_of; by rewrite (pr_layout _ _ _ A4)).
  destruct (IH (S bi) p1 st1 ls1) as (q2 & r2 & n' & Hrun2 & Hn' & (ls2 & Hsw2) & Hres2); rewrite ?Ebs; try done.
  { lia. }
  { by rewrite length_app, A10, <- length_app. }
  { lia. }
  { lia. }
  exists q2, r2, (S n'). split_and!; [done|lia| |].
  - exists ls2. eapply span_written_app; [exact Hsw1|exact Hsw2| |]; cbn; rewrite ?Ebs.
    + intros t. rewrite ?Ebs. split; [|lia]. intros [? ?].
      destruct (decide (t `div` bs_of p = bi)); [by left|right]. lia.
    + intros t. rewrite ?Ebs. lia.
  - destruct r2; [lia| |done]. by rewrite <- A9.
Qed.
(** ** Sizing the slabs ahead of a span *)

(** Slabs were appended; the layer keeps its geometry and accepts the data. *)
Record presized p p' (l : nat) s s' (H D dt : Z) : Prop := {
  ps_registry : same_registry p p';
  ps_stores : stores p' = <[l := s']> (stores p);
  ps_grown : grown s s';
  ps_geom h d dt' : has_geom s h d dt' → has_geom s' h d dt';
  ps_accepts : accepts s' H D dt;
  ps_inv : store_inv (bs_of p) s';
}.

Lemma presized_refl p own l s H D dt :
  pool_inv p own → stores p !! l = Some s → accepts s H D dt → presized p p l s s H D dt.
Proof.
  intros Hi Hs Hacc. split; try done; [by rewrite list_insert_id|]. by eapply Hi.
Qed.

Lemma count_unassigned_total n tbl rows p : ∀ i, i + n ≤ length tbl →
  ∃ c, count_unassigned n i tbl rows p = (p, Ok c).
Proof.
  induction n as [|n IH]; intros i Hi; [by exists 0|].
  destruct (lookup_lt_is_Some_2 tbl i) as [b Hb]; [lia|]. destruct (IH (S i)) as [c Hc]; [lia|].
  cbn [count_unassigned]. unfold mbind, M_bind, index. rewrite Hb. cbn. rewrite Hc. by eexists.
Qed.

Lemma presize_for_span_spec ls l fb lb H D dt p own s :
  pool_inv p own → stores p !! l = Some s → accepts s H D dt →
  fb ≤ lb → lb < length (block_ids ls) →
  ∃ p' s', presize_for_span ls l fb lb H D dt p = (p', Ok tt) ∧ presized p p' l s s' H D dt.
Proof.
  intros Hi Hs Hacc Hfl Hlb. pose proof (presized_refl _ _ _ _ _ _ _ Hi Hs Hacc) as Hrefl.
  unfold presize_for_span. unfold mbind at 1, M_bind at 1, store at 1, mbind at 1, M_bind at 1, get at 1.
  rewrite Hs. cbn [index mret M_ret].
  destruct (count_unassigned_total (S lb - fb) (block_ids ls) (block_rows s) p fb) as [n Hn]; [lia|].
  unfold mbind at 1, M_bind at 1. rewrite Hn. cbn beta iota. case_decide; [by exists p, s|].
  destruct (pool_meta s) as [m|] eqn:Hm.
  - case_decide; [by exists p, s|]. set (target := next_row s + _).
    destruct (ensure_layer_capacity_eq l target p s m Hs Hm) as (p' & E1 & E2 & E3).
    destruct (ensured_spec _ target m s (pi_stores _ _ Hi l s Hs) Hm) as (S1 & S2 & m' & M0 & M1 & M2 & M3 & _).
    assert (∀ h d dt', has_geom s h d dt' → has_geom (ensured (bs_of p) target m s) h d dt') as Hg.
    { intros h d dt' (m0 & Hm0 & <- & <- & <-). rewrite Hm in Hm0. injection Hm0 as <-. by exists m'. }
    exists p', (ensured (bs_of p) target m s). split; [done|]. split; try done.
    destruct Hacc as [?|?]; [congruence|]. right. by apply Hg.
  - destruct (create_layer_pool_spec l (next_row s + (n - length (free_rows s))) H D dt p own s Hi Hs Hm)
      as (p' & s' & E1 & E2 & E3 & E4 & E5 & E6).
    exists p', s'. split; [done|]. split; try done.
    + intros h d dt' (m0 & Hm0 & _). congruence.
    + by right.
Qed.

Lemma presized_inv p p' l s s' H D dt own :
  pool_inv p own → stores p !! l = Some s → presized p p' l s s' H D dt → pool_inv p' own.
Proof.
  intros Hi Hs [(R1 & R2 & R3 & _) P2 (G1 & G2 & _) P4 P5 P6].
  eapply (with_store_inv p own l s s'); try done. rewrite G2. intros b r Hr. by eapply Hi.
Qed.

Lemma presized_preserved p p' l s s' H D dt own Q :
  pool_inv p own → stores p !! l = Some s → presized p p' l s s' H D dt → preserved p p' Q.
Proof.
  intros Hi Hs [(R1 & _) P2 (G1 & G2 & _ & _ & G5) P4 P5 P6].
  assert (stores p' !! l = Some s') as Hs'
    by (rewrite P2; apply list_lookup_insert_eq; by eapply lookup_lt_Some).
  assert (∀ k, k ≠ l → stores p' !! k = stores p !! k) as Hk
    by (intros k Hne; rewrite P2; by apply list_lookup_insert_ne).
  split; [done| | |].
  - intros k h d dt' (s0 & Hk0 & Hg). destruct (decide (k = l)) as [->|Hne]; [|exists s0; by rewrite Hk].
    rewrite Hs in Hk0. injection Hk0 as <-. exists s'. split; [done|by apply P4].
  - intros k b _ _ (s0 & Hk0 & Hr). destruct (decide (k = l)) as [->|Hne]; [|exists s0; by rewrite Hk].
    rewrite Hs in Hk0. injection Hk0 as <-. exists s'. by rewrite G2.
  - intros c k b slot h d _ (s0 & Hk0 & [r Hr]) _. unfold pcell.
    destruct (decide (k = l)) as [->|Hne]; [|by rewrite Hk].
    rewrite Hs in Hk0. injection Hk0 as <-. rewrite Hs', Hs. cbn. unfold block_cell. rewrite G2, Hr. cbn.
    apply G5. eapply row_in_slabs; [|done]. by eapply Hi.
Qed.
(** ** Growing the block table *)

Lemma acquired_ready n l p st ls own H D dt p' st1 new m :
  seq_ready p st l ls own H D dt → acquired n l p st ls own p' st1 new →
  let ls' := mkLayerState (block_ids ls ++ new) m (logical_start ls) in
  pool_inv p' (ids (set_layer l ls' st) ++ own) → seq_ready p' (set_layer l ls' st) l ls' own H D dt.
Proof.
  intros [Hi Hl Hnd Hon Hsh (s & Hs & Hacc)] [_ _ Hss _ Hfr Hnd' Hb Ho _] ls' Hi'.
  assert (∀ b, b ∈ block_ids ls → b ∉ new) as Hdis.
  { intros b Hb1 Hb2. apply (Hfr b Hb2). rewrite (ids_split l st ls Hl). set_solver. }
  pose proof (same_stores_preserved p p' (λ _ _, True) Hss) as Hpr.
  split; [done|by eapply set_layer_lookup| | | |].
  - apply NoDup_app. naive_solver.
  - intros b [Hb1|Hb2]%elem_of_app; unfold on_layer.
    + rewrite Ho by (by apply Hdis). by apply Hon.
    + by rewrite Hb.
  - intros b [Hb1|Hb2]%elem_of_app; unfold refcount.
    + rewrite Ho by (by apply Hdis). intros Hc. apply (pr_row _ _ _ Hpr l b 0 I). by apply Hsh.
    + rewrite Hb by done. cbn. lia.
  - destruct Hss as (_ & _ & Hss). destruct (Hss l s Hs) as (s' & Hs' & _ & _ & Em & _).
    exists s'. split; [done|]. unfold accepts, has_geom in *. by rewrite Em.
Qed.

Lemma presized_ready p p' l s s' st ls own H D dt :
  seq_ready p st l ls own H D dt → stores p !! l = Some s → presized p p' l s s' H D dt →
  seq_ready p' st l ls own H D dt.
Proof.
  intros [Hi Hl Hnd Hon Hsh _] Hs Hps. pose proof Hps as [(_ & _ & R3 & _) P2 _ _ P5 _].
  pose proof (presized_preserved _ _ _ _ _ _ _ _ _ (λ _ _, True) Hi Hs Hps) as Hpr.
  split; try done.
  - by eapply presized_inv.
  - intros b Hb. unfold on_layer. rewrite R3. by apply Hon.
  - intros b Hb. unfold refcount. rewrite R3. intros Hc. apply (pr_row _ _ _ Hpr l b 0 I). by apply Hsh.
  - exists s'. split; [|done]. rewrite P2. apply list_lookup_insert_eq. by eapply lookup_lt_Some.
Qed.

Lemma trow_preserved p p' l tbl new j :
  preserved p p' (λ _ _, True) → trow p l tbl j → trow p' l (tbl ++ new) j.
Proof.
  intros Hpr (b & Hb & Hr). exists b. split; [by apply lookup_app_l_Some|]. by apply (pr_row _ _ _ Hpr l b 0 I).
Qed.

Lemma tcell_preserved c p p' l tbl new t h d H D dt :
  preserved p p' (λ _ _, True) → trow p l tbl (t `div` bs_of p) → geom_is p l H D dt → 0 < bs_of p →
  (0 ≤ h < H)%Z → (0 ≤ d < D)%Z → tcell c p' l (tbl ++ new) t h d = tcell c p l tbl t h d.
Proof.
  intros Hpr (b & Hb & Hr) Hg Hbs Hh Hd.
  assert (bs_of p' = bs_of p) as Ebs by (unfold bs_of; by rewrite (pr_layout _ _ _ Hpr)).
  rewrite (tcell_block c p l tbl t b h d Hb).
  rewrite (tcell_block c p' l _ t b) by (rewrite Ebs; by apply lookup_app_l_Some).
  rewrite Ebs. apply (pr_cell _ _ _ Hpr); try done. exists H, D, dt. split; [done|].
  split; [|done]. apply Nat.mod_upper_bound. unfold bs_of in *. lia.
Qed.

Lemma length_ids_layer l st ls ls' :
  layers st !! l = Some ls →
  length (ids (set_layer l ls' st)) + length (block_ids ls) = length (ids st) + length (block_ids ls').
Proof.
  intros Hl. rewrite (ids_split l st ls Hl).
  erewrite (ids_split l (set_layer l ls' st)) by (by eapply set_layer_lookup).
  rewrite other_ids_set_layer, !length_app. lia.
Qed.

(** ** The contract *)

(** Layer [l] of the sequence holds [len ls] tokens, whose keys and values are
    those of the dense buffer [kv]; the block table covers them exactly. *)
Record holds p st (l : nat) ls own (H D dt : Z) (kv : side → nat → Z → Z → elt) : Prop := {
  ho_ready : seq_ready p st l ls own H D dt;
  ho_cover : length (block_ids ls) = div_ceil (len ls) (bs_of p);
  ho_rows j : j < length (block_ids ls) → trow p l (block_ids ls) j;
  ho_cells c t h d : t < len ls → (0 ≤ h < H)%Z → (0 ≤ d < D)%Z →
    tcell c p l (block_ids ls) t h d = Some (kv c t h d);
}.

(** Appending the tokens of a [[1, heads, tokens, dim]] tensor to a dense buffer
    of [n] tokens. *)
Definition dense_append (kv : side → nat → Z → Z → elt) (n : nat) (arg : side → MlxArray) :
    side → nat → Z → Z → elt :=
  λ c t h d, if decide (t < n) then kv c t h d else elem (arg c) [0; h; Z.of_nat t - Z.of_nat n; d]%Z.

(** What a failed write leaves: the tokens that were there, and a usable pool. *)
Record write_failed p st (l : nat) ls own (H D dt : Z) p' st' ls' : Prop := {
  wf_ready : seq_ready p' st' l ls' own H D dt;
  wf_st : st' = set_layer l ls' st;
  wf_others : preserved p p' (λ b _, b ∈ other_ids l st ++ own);
  wf_old c t h d : trow p l (block_ids ls) (t `div` bs_of p) → t < len ls →
    (0 ≤ h < H)%Z → (0 ≤ d < D)%Z →
    tcell c p' l (block_ids ls') t h d = tcell c p l (block_ids ls) t h d;
}.
(** The table grown to [T] tokens and the slabs sized, before anything is written. *)
Record table_grown p st (l : nat) ls own (H D dt : Z) (T : nat) p' st' ls' : Prop := {
  tg_ready : seq_ready p' st' l ls' own H D dt;
  tg_ls : ∃ new, ls' = mkLayerState (block_ids ls ++ new) T (logical_start ls);
  tg_st : st' = set_layer l ls' st;
  tg_cover : length (block_ids ls') = div_ceil T (bs_of p) `max` length (block_ids ls);
  tg_keep : preserved p p' (λ _ _, True);
  tg_budget : block_budget p' = block_budget p;
  tg_size : length (ids st') ≤ length (ids st) + T;
}.

Lemma table_grown_failed p st l ls own H D dt T p' st' ls' :
  seq_ready p st l ls own H D dt → table_grown p st l ls own H D dt T p' st' ls' →
  write_failed p st l ls own H D dt p' st' ls'.
Proof.
  intros Hrd [T1 (new & T2) T3 _ T5 _ _]. split; try done.
  - by eapply preserved_weaken.
  - intros c t h d Htr _ Hh Hd. rewrite T2. cbn [block_ids]. destruct Htr as (b & Hb & Hr).
    eapply tcell_preserved; try done; [by exists b|by eapply ready_geom|apply (sr_inv _ _ _ _ _ _ _ _ Hrd)].
Qed.

Lemma grow_table_spec l tc fb p st ls own H D dt :
  seq_ready p st l ls own H D dt → 0 < tc → l < num_layers (layout p) →
  (N.of_nat (length (ids st ++ own) + (len ls + tc) + 2) < u32_max)%N →
  fb = len ls `div` bs_of p →
  let T := len ls + tc in
  ∃ q r, (_ ← append_tokens l tc;
          s ← layer l;
          on_pool (presize_for_span s l fb ((T - 1) `div` bs_of p) H D dt)) (p, st) = (q, r) ∧
    match r with
    | Ok _ => ∃ ls', table_grown p st l ls own H D dt T q.1 q.2 ls'
    | Err _ => is_Some (block_budget p) ∧ ∃ ls', write_failed p st l ls own H D dt q.1 q.2 ls'
    | Panic => False
    end.
Proof.
  intros Hrd Htc Hll Hsm Hfb T. pose proof Hrd as [Hi Hl _ _ _ _].
  destruct (append_tokens_spec l tc p st ls own Hi Hl Htc ltac:(lia))
    as (p1 & st1 & r & new & Hac & Hr & Hrun & Hi1). unfold mbind at 1, M_bind at 1. rewrite Hrun.
  pose proof (ac_same _ _ _ _ _ _ _ _ _ Hac) as Hss.
  pose proof (same_stores_preserved p p1 (λ _ _, True) Hss) as Hpr1.
  set (ls1 := mkLayerState (block_ids ls ++ new) T (logical_start ls)) in *.
  pose proof (pi_bs _ _ Hi) as Hbs. fold (bs_of p) in Hbs, Hr.
  destruct r as [[]|e|]; [| |done].
  2: { exists (p1, st1), (Err e). split; [done|]. split; [destruct Hr as [?|(? & -> & _)]; [lia|done]|].
       pose proof (ac_state _ _ _ _ _ _ _ _ _ Hac) as Est. subst st1.
       pose proof (acquired_ready _ _ _ _ _ _ H D dt _ _ _ (len ls) Hrd Hac Hi1) as Hrd1.
       eexists. split; [exact Hrd1|done|by eapply preserved_weaken|].
       intros c t h d Htr _ Hh Hd. destruct Htr as (b & Hb & Hrow).
       eapply tcell_preserved; try done; [by exists b|by eapply ready_geom]. }
  pose proof (acquired_ready _ _ _ _ _ _ H D dt _ _ _ T Hrd Hac Hi1) as Hrd1. fold ls1 in Hrd1.
  set (st2 := set_layer l ls1 st) in *. pose proof Hrd1 as [_ Hl1 _ _ _ (s1 & Hs1 & Hacc1)].
  cbn beta iota. fold T ls1. fold st2. unfold mbind at 1, M_bind at 1. rewrite (layer_eq l p1 st2 ls1 Hl1), on_pool_eq.
  assert (bs_of p1 = bs_of p) as Ebs by (unfold bs_of; by rewrite (pr_layout _ _ _ Hpr1)).
  assert (length (block_ids ls1) = div_ceil T (bs_of p) `max` length (block_ids ls)) as Hlen.
  { cbn. rewrite length_app. unfold T. lia. }
  assert ((T - 1) `div` bs_of p < div_ceil T (bs_of p)) as Hlast by (apply div_lt_ceil; unfold T in *; lia).
  destruct (presize_for_span_spec ls1 l fb ((T - 1) `div` bs_of p) H D dt p1 _ s1
    (sr_inv _ _ _ _ _ _ _ _ Hrd1) Hs1 Hacc1) as (p2 & s2 & Hps & Hpz).
  { rewrite Hfb. apply Nat.Div0.div_le_mono. unfold T. lia. }
  { lia. }
  exists (p2, st2), (Ok tt). rewrite Hps. split; [done|]. exists ls1. cbn [fst snd].
  pose proof (presized_preserved _ _ _ _ _ _ _ _ _ (λ _ _, True) (sr_inv _ _ _ _ _ _ _ _ Hrd1) Hs1 Hpz) as Hpr2.
  split; try done.
  - by eapply presized_ready.
  - by exists new.
  - by eapply preserved_trans.
  - destruct Hpz as [(_ & _ & _ & _ & ->) _ _ _ _ _]. apply Hss.
  - pose proof (length_ids_layer l st ls ls1 Hl) as Hx. fold st2 in Hx. cbn [block_ids ls1] in Hx.
    rewrite length_app in Hx.
    pose proof (proj1 (div_ceil_le T (bs_of p) T Hbs) ltac:(unfold T; nia)). unfold T in *. lia.
Qed.
(** The arguments of a write: [n] tokens of the layer's geometry. *)
Record prefill_args (k v : MlxArray) (H D dt : Z) (n : nat) : Prop := {
  pa_k : array_shape k = [1; H; Z.of_nat n; D]%Z;
  pa_v : array_shape v = [1; H; Z.of_nat n; D]%Z;
  pa_kt : array_dtype k = dt;
  pa_vt : array_dtype v = dt;
  pa_heads : (0 ≤ H)%Z;
  pa_dim : (0 ≤ D)%Z;
  pa_tokens : 0 < n;
}.

Lemma validate_layer_ok l p : l < num_layers (layout p) → validate_layer l p = (p, Ok tt).
Proof.
  intros H. unfold validate_layer, mbind, M_bind, get, guard_m. by rewrite bool_decide_eq_false_2 by lia.
Qed.

Lemma write_prefill_eq l k v H D dt n p st ls own :
  seq_ready p st l ls own H D dt → prefill_args k v H D dt n →
  small (bs_of p) → small (len ls + n) →
  write_prefill l k v (p, st) =
    (_ ← (_ ← append_tokens l n;
          s ← layer l;
          on_pool (presize_for_span s l (len ls `div` bs_of p) ((len ls + n - 1) `div` bs_of p) H D dt));
     write_span l k v H D (Z.of_nat (len ls)) (Z.of_nat (len ls + n))
       (S ((len ls + n - 1) `div` bs_of p) - len ls `div` bs_of p) (len ls `div` bs_of p)) (p, st).
Proof.
  intros Hrd [Ks Vs Kt Vt HH HD Hn] Hbs HsT. pose proof Hrd as [Hi Hl _ _ _ (s & Hs & _)].
  pose proof (pi_bs _ _ Hi) as Hbs0. fold (bs_of p) in Hbs0.
  assert (l < num_layers (layout p)) as Hll.
  { rewrite <- (pi_layers _ _ Hi). by eapply lookup_lt_Some. }
  unfold write_prefill. unfold mbind at 1, M_bind at 1. rewrite on_pool_eq, (validate_layer_ok l p Hll).
  cbn [fst snd].
  rewrite Ks, Vs, Kt, Vt. rewrite (decide_False (P := (1 ≠ 1)%Z)) by (intros Hx; by apply Hx).
  unfold mbind at 1, M_bind at 1. cbn [mret M_ret].
  rewrite !decide_False by (done || lia || (intros Hx; by apply Hx)).
  unfold mbind at 1, M_bind at 1, get at 1. cbn beta iota. fold (bs_of p).
  rewrite (M_bind_eq _ _ _ _ _ (layer_eq l p st ls Hl)). cbn beta zeta.
  rewrite (i32_small _ Hbs), (i32_small (len ls)) by (unfold small in *; lia). rewrite Nat2Z.id.
  rewrite M_bind_assoc. unfold mbind at 1 4, M_bind at 1 4. cbn beta.
  replace (Z.of_nat (len ls) + Z.of_nat n)%Z with (Z.of_nat (len ls + n)) by lia.
  replace (Z.of_nat (len ls + n) - 1)%Z with (Z.of_nat (len ls + n - 1)) by lia.
  rewrite !Z.quot_div_nonneg by lia. rewrite <- !Nat2Z.inj_div, !Nat2Z.id.
  destruct (append_tokens l n (p, st)) as [[p1 st1] [[]|e|]]; [|done|done].
  by rewrite M_bind_assoc.
Qed.
Lemma span_tokens F T bs t :
  0 < bs → F ≤ t < T → F `div` bs ≤ t `div` bs < F `div` bs + (S ((T - 1) `div` bs) - F `div` bs).
Proof.
  intros Hbs Ht. pose proof (Nat.Div0.div_le_mono F t bs ltac:(lia)).
  pose proof (Nat.Div0.div_le_mono t (T - 1) bs ltac:(lia)). lia.
Qed.

(** Writing into the grown table: everything, or nothing but a private copy. *)
Lemma write_grown_spec l k v H D dt n p st ls own p1 st1 ls1 :
  seq_ready p st l ls own H D dt → prefill_args k v H D dt n →
  table_grown p st l ls own H D dt (len ls + n) p1 st1 ls1 →
  small (bs_of p) → small (len ls + n) →
  (N.of_nat (length (ids st ++ own) + (len ls + n) + 2) < u32_max)%N →
  ∃ q r n', write_span l k v H D (Z.of_nat (len ls)) (Z.of_nat (len ls + n))
       (S ((len ls + n - 1) `div` bs_of p) - len ls `div` bs_of p) (len ls `div` bs_of p) (p1, st1) = (q, r) ∧
    (∃ ls', span_written l (len ls) H D dt (side_arg k v)
       (λ t, len ls ≤ t < len ls + n ∧ len ls `div` bs_of p ≤ t `div` bs_of p < len ls `div` bs_of p + n')
       p1 st1 ls1 own q.1 q.2 ls') ∧
    match r with
    | Ok _ => n' = S ((len ls + n - 1) `div` bs_of p) - len ls `div` bs_of p
    | Err _ => is_Some (block_budget p)
    | Panic => False
    end.
Proof.
  intros Hrd [Ks Vs Kt Vt HH HD Hn] [T1 (new & T2) T3 T4 T5 T6 T7] Hbs HsT Hsm.
  set (F := len ls) in *. set (T := F + n) in *.
  assert (bs_of p1 = bs_of p) as Ebs by (unfold bs_of; by rewrite (pr_layout _ _ _ T5)).
  pose proof (pi_bs _ _ (sr_inv _ _ _ _ _ _ _ _ T1)) as Hbs0. change (0 < bs_of p1) in Hbs0.
  rewrite Ebs in Hbs0. pose proof (Nat.div_mod_eq F (bs_of p)) as Hdm.
  pose proof (Nat.mod_upper_bound F (bs_of p) ltac:(lia)) as Hub.
  pose proof (Nat.Div0.div_le_mono F (T - 1) (bs_of p) ltac:(lia)) as Hle.
  pose proof (div_lt_ceil (T - 1) T (bs_of p) Hbs0 ltac:(lia)) as Hlast.
  pose proof (Nat.div_mod_eq (T - 1) (bs_of p)) as Hdm'.
  destruct (write_span_spec l k v H D dt F T own (S ((T - 1) `div` bs_of p) - F `div` bs_of p)
    (F `div` bs_of p) p1 st1 ls1) as (q & r & n' & Hrun & Hn' & Hsw & Hres); try done; rewrite ?Ebs; try done.
  - lia.
  - rewrite length_app in *. lia.
  - rewrite Ks. repeat f_equal. lia.
  - rewrite Vs. repeat f_equal. lia.
  - lia.
  - lia.
  - replace (F `div` bs_of p + _) with (S ((T - 1) `div` bs_of p)) by lia. nia.
  - exists q, r, n'. rewrite Ebs in Hsw. split_and!; [done|done|]. by rewrite <- T6.
Qed.
Lemma holds_row p st l ls own H D dt kv t :
  holds p st l ls own H D dt kv → t < len ls → trow p l (block_ids ls) (t `div` bs_of p).
Proof.
  intros [Hrd Hc Hr _] Ht. apply Hr. rewrite Hc. apply div_lt_ceil; [|done]. apply (sr_inv _ _ _ _ _ _ _ _ Hrd).
Qed.

(** A span written behind the tokens of a dense buffer extends the buffer. *)
Lemma span_extends_dense l H D dt arg n p st ls own kv p1 st1 ls1 p2 st2 ls2 W :
  holds p st l ls own H D dt kv → 0 < n →
  table_grown p st l ls own H D dt (len ls + n) p1 st1 ls1 →
  span_written l (len ls) H D dt arg W p1 st1 ls1 own p2 st2 ls2 →
  (∀ t, W t ↔ len ls ≤ t < len ls + n) →
  holds p2 st2 l ls2 own H D dt (dense_append kv (len ls) arg).
Proof.
  intros Hh Hn Htg [S1 (S2 & S2' & S2'') S3 S4 S5 S6 S7 S8 S9 S10] HW.
  pose proof Hh as [Hrd Hc Hr Hcell]. pose proof Htg as [T1 (new & T2) T3 T4 T5 T6 T7].
  pose proof (pi_bs _ _ (sr_inv _ _ _ _ _ _ _ _ Hrd)) as Hbs. change (0 < bs_of p) in Hbs.
  assert (bs_of p1 = bs_of p) as Ebs by (unfold bs_of; by rewrite (pr_layout _ _ _ T5)).
  assert (bs_of p2 = bs_of p) as Ebs2 by (unfold bs_of; rewrite (pr_layout _ _ _ S4); exact Ebs).
  pose proof (div_ceil_mono (len ls) (len ls + n) (bs_of p) Hbs ltac:(lia)) as Hmono.
  assert (len ls1 = len ls + n) as Hlen1 by (by rewrite T2).
  split.
  - done.
  - rewrite Ebs2, S2, Hlen1. lia.
  - intros j Hj. destruct (decide (j < length (block_ids ls))) as [Hjl|Hjl].
    + apply S5. rewrite T2. cbn. apply (trow_preserved _ _ _ _ _ _ T5). by apply Hr.
    + pose proof (div_ceil_spec (len ls) (bs_of p) Hbs) as Hcl.
      pose proof (div_ceil_spec (len ls + n) (bs_of p) Hbs) as Hcl'.
      assert (j < div_ceil (len ls + n) (bs_of p)) as Hjd by lia.
      specialize (S7 (j * bs_of p)). rewrite Ebs, Nat.div_mul in S7 by lia. apply S7, HW. nia.
  - intros c t h d Ht Hh' Hd. rewrite S2, Hlen1 in Ht. unfold dense_append. case_decide as Htl.
    + pose proof (holds_row _ _ _ _ _ _ _ _ _ t Hh Htl) as Htr.
      assert (tcell c p1 l (block_ids ls1) t h d = tcell c p l (block_ids ls) t h d) as Eq.
      { rewrite T2. cbn [block_ids]. destruct Htr as (b & Hb & Hrow).
        eapply tcell_preserved; try done; [by exists b|by eapply ready_geom]. }
      rewrite S8; [rewrite Eq; by apply Hcell| |rewrite HW; lia|done|done].
      rewrite Ebs, T2. by apply trow_preserved with (1 := T5).
    + apply S6; [|done|done]. apply HW. lia.
Qed.

Lemma write_prefill_spec l k v H D dt n p st ls own kv :
  holds p st l ls own H D dt kv → prefill_args k v H D dt n →
  small (bs_of p) → small (len ls + n) →
  (N.of_nat (length (ids st ++ own) + (len ls + n) + 2) < u32_max)%N →
  ∃ p' st' r ls', write_prefill l k v (p, st) = ((p', st'), r) ∧ st' = set_layer l ls' st ∧
    preserved p p' (λ b _, b ∈ other_ids l st ++ own) ∧
    match r with
    | Ok _ => holds p' st' l ls' own H D dt (dense_append kv (len ls) (side_arg k v)) ∧
              len ls' = len ls + n ∧ logical_start ls' = logical_start ls
    | Err _ => is_Some (block_budget p) ∧ write_failed p st l ls own H D dt p' st' ls'
    | Panic => False
    end.
Proof.
  intros Hh Hargs Hbs HsT Hsm. pose proof Hh as [Hrd _ _ _]. pose proof Hrd as [Hi Hl _ _ _ (s & Hs & _)].
  assert (l < num_layers (layout p)) as Hll.
  { rewrite <- (pi_layers _ _ Hi). by eapply lookup_lt_Some. }
  pose proof (pa_tokens _ _ _ _ _ _ Hargs) as Hn.
  rewrite (write_prefill_eq l k v H D dt n p st ls own Hrd Hargs Hbs HsT).
  destruct (grow_table_spec l n _ p st ls own H D dt Hrd Hn Hll Hsm eq_refl) as ([p1 st1] & r1 & Hrun1 & Hres1).
  unfold mbind at 1, M_bind at 1. rewrite Hrun1. cbn [fst snd] in Hres1.
  destruct r1 as [[]|e|]; [| |done].
  2: { destruct Hres1 as (? & ls' & Hf). exists p1, st1, (Err e), ls'. split_and!; try done; apply Hf. }
  destruct Hres1 as (ls1 & Htg).
  destruct (write_grown_spec l k v H D dt n p st ls own p1 st1 ls1 Hrd Hargs Htg Hbs HsT Hsm)
    as ([p2 st2] & r2 & n' & Hrun2 & (ls2 & Hsw) & Hres2). rewrite Hrun2. cbn [fst snd] in Hsw.
  pose proof (tg_keep _ _ _ _ _ _ _ _ _ _ _ _ Htg) as Hk.
  assert (st2 = set_layer l ls2 st) as Est.
  { rewrite (sw_st _ _ _ _ _ _ _ _ _ _ _ _ _ _ Hsw), (tg_st _ _ _ _ _ _ _ _ _ _ _ _ Htg).
    apply set_layer_twice. }
  assert (preserved p p2 (λ b _, b ∈ other_ids l st ++ own)) as Hpr.
  { eapply preserved_trans; [exact Hk|exact (sw_others _ _ _ _ _ _ _ _ _ _ _ _ _ _ Hsw)|].
    intros b t Hb. split; [done|]. rewrite (tg_st _ _ _ _ _ _ _ _ _ _ _ _ Htg). by rewrite other_ids_set_layer. }
  exists p2, st2, r2, ls2. split_and!; try done. destruct r2 as [[]|e|]; [| |done].
  - subst n'. split.
    + eapply span_extends_dense; try done. intros t. split; [by intros [? _]|]. intros Ht. split; [done|].
      apply span_tokens; [|done]. apply Hi.
    + pose proof (sw_len _ _ _ _ _ _ _ _ _ _ _ _ _ _ Hsw) as (-> & -> & _).
      destruct (tg_ls _ _ _ _ _ _ _ _ _ _ _ _ Htg) as (new & ->). done.
  - split; [done|]. pose proof (table_grown_failed _ _ _ _ _ _ _ _ _ _ _ _ Hrd Htg) as [_ _ _ F4].
    assert (bs_of p1 = bs_of p) as Ebs by (unfold bs_of; by rewrite (pr_layout _ _ _ Hk)).
    split; [apply Hsw|done|done|]. intros c t h d Htr Ht Hh' Hd.
    rewrite <- F4 by done. apply (sw_old _ _ _ _ _ _ _ _ _ _ _ _ _ _ Hsw); [|lia|done|done].
    destruct (tg_ls _ _ _ _ _ _ _ _ _ _ _ _ Htg) as (new & ->). rewrite Ebs.
    by apply trow_preserved with (1 := Hk).
Qed.
End prefill.
