(* ===== verification/PagedGather.v ===== *)
(** * Reading a sequence back

    [gather_visible] collects the rows of a sequence's blocks from the slabs, one
    [take] per run of rows in the same slab, and lays the visible window out as a
    dense [[1, heads, tokens, dim]] tensor. *)

From S2P Require Import Prelude Mlx PagedPool PagedPoolInv PagedPoolData PagedPrefill.

Section gather.
Context {X : Mlx} {XL : MlxLaws X}.
Implicit Types (p : PagedBlockPool) (own : list N).

(** ** Runs of rows *)

Definition run_rows (run : nat * list Z) : list nat :=
  (λ ri, run.1 * POOL_SLAB_BLOCKS + Z.to_nat ri) <$> run.2.

Definition run_ok (run : nat * list Z) : Prop :=
  run.2 ≠ [] ∧ Forall (λ ri, (0 ≤ ri < 32)%Z) run.2.

Lemma slab_coords_row r :
  slab_coords r = (r `div` POOL_SLAB_BLOCKS, Z.of_nat (r `mod` POOL_SLAB_BLOCKS)).
Proof. unfold slab_coords. by rewrite (i32_small _ (slab_small r)). Qed.

Lemma slab_runs_spec rows :
  mjoin (run_rows <$> slab_runs rows) = rows ∧ Forall run_ok (slab_runs rows) ∧
  (rows ≠ [] → slab_runs rows ≠ []).
Proof.
  induction rows as [|r rows (IH1 & IH2 & IH3)]; [done|]. cbn [slab_runs]. rewrite slab_coords_row.
  assert (r `div` POOL_SLAB_BLOCKS * POOL_SLAB_BLOCKS + Z.to_nat (Z.of_nat (r `mod` POOL_SLAB_BLOCKS)) = r) as Hr.
  { rewrite Nat2Z.id. pose proof (Nat.div_mod_eq r POOL_SLAB_BLOCKS). lia. }
  pose proof (row_mod r) as Hm.
  assert (∀ si, run_ok (si, [Z.of_nat (r `mod` POOL_SLAB_BLOCKS)])) as Hone.
  { intros si. split; [done|]. by apply Forall_singleton. }
  destruct (slab_runs rows) as [|[sj local] runs].
  - cbn in *. split_and!; [|by apply Forall_singleton|done]. rewrite <- IH1. by f_equal.
  - apply Forall_cons in IH2 as [Hl Hrest]. case_decide as Hd.
    + subst sj. split_and!; [|constructor; [split; [done|]; constructor; [done|apply Hl]|done]|done].
      cbn in *. rewrite Hr. by f_equal.
    + split_and!; [|constructor; [done|by constructor]|done]. cbn in *. rewrite Hr. by f_equal.
Qed.

(** ** Gathering rows *)

(** Row [r] of the slabs, at [slot], [h], [d]. *)
Definition gathered (L : list MlxArray) (bs : nat) (H D : Z) (rows : list nat) (a : MlxArray) : Prop :=
  array_shape a = [Z.of_nat (length rows); Z.of_nat bs; H; D] ∧
  ∀ i r slot h d, rows !! i = Some r → (0 ≤ slot < Z.of_nat bs)%Z → (0 ≤ h < H)%Z → (0 ≤ d < D)%Z →
    Some (elem a [Z.of_nat i; slot; h; d]) =
      (λ s, elem s [Z.of_nat (r `mod` POOL_SLAB_BLOCKS); slot; h; d]) <$> L !! (r `div` POOL_SLAB_BLOCKS).

Lemma run_row_coords si ri :
  (0 ≤ ri < 32)%Z → (si * POOL_SLAB_BLOCKS + Z.to_nat ri) `div` POOL_SLAB_BLOCKS = si ∧
    Z.of_nat ((si * POOL_SLAB_BLOCKS + Z.to_nat ri) `mod` POOL_SLAB_BLOCKS) = ri.
Proof.
  intros Hr. unfold POOL_SLAB_BLOCKS. split.
  - rewrite Nat.div_add_l, Nat.div_small by lia. lia.
  - rewrite Nat.add_comm, Nat.Div0.mod_add, Nat.mod_small by lia. lia.
Qed.

Lemma gather_run L bs H D dt si local :
  Forall (slab_geom bs H D dt) L → run_ok (si, local) → si < length L → small (length local) →
  ∃ a, (λ a, take_rows a (from_slice_i32 local [i32 (length local)])) <$> L !! si = Some a ∧
    gathered L bs H D (run_rows (si, local)) a.
Proof.
  intros HL Hok Hsi Hsm. destruct (lookup_lt_is_Some_2 L si Hsi) as [s Hs]. rewrite Hs. cbn.
  eexists. split; [done|]. rewrite (i32_small _ Hsm).
  destruct (Forall_lookup_1 _ _ _ _ HL Hs) as [Hsh _]. split.
  - unfold run_rows. rewrite length_fmap. eapply take_shape; [done|apply Hok].
  - intros i r slot h d Hi Hslot Hh Hd. unfold run_rows in Hi.
    apply list_lookup_fmap_Some in Hi as (ri & -> & Hri). cbn in Hri.
    destruct (run_row_coords si ri) as [E1 E2]; [by eapply (Forall_lookup_1 _ _ _ _ (proj2 Hok))|].
    cbn [fst]. rewrite E1, E2, Hs. cbn. f_equal. eapply take_elem; [done|apply Hok|done|]. shape_tac.
Qed.

Lemma small_le n m : n ≤ m → small m → small n.
Proof. unfold small. lia. Qed.

Lemma gather_parts L bs H D dt runs :
  Forall (slab_geom bs H D dt) L → Forall run_ok runs →
  Forall (λ run, run.1 < length L ∧ small (length run.2)) runs →
  ∃ parts, mapM (λ '(si, local),
             (λ a, take_rows a (from_slice_i32 local [i32 (length local)])) <$> L !! si) runs = Some parts ∧
    Forall2 (λ run a, gathered L bs H D (run_rows run) a) runs parts.
Proof.
  intros HL. induction runs as [|[si local] runs IH]; intros Hok Hsi; [by exists []|].
  apply Forall_cons in Hok as [Hok1 Hok]. apply Forall_cons in Hsi as [[Hsi1 Hsm] Hsi].
  destruct (IH Hok Hsi) as (parts & Hp & H2).
  destruct (gather_run L bs H D dt si local HL Hok1 Hsi1 Hsm) as (a & Ha & Hg).
  exists (a :: parts). split; [|by constructor].
  cbn [mapM]. rewrite Ha. cbn [mbind option_bind]. by rewrite Hp.
Qed.

Lemma sum_list_Z ns : Z.of_nat (sum_list ns) = foldr Z.add 0%Z (Z.of_nat <$> ns).
Proof. induction ns as [|n ns IH]; [done|]. cbn. rewrite <- IH. lia. Qed.

Lemma concatenate_gathered L bs H D runs parts :
  Forall2 (λ run a, gathered L bs H D (run_rows run) a) runs parts → parts ≠ [] →
  gathered L bs H D (mjoin (run_rows <$> runs)) (concatenate_rows parts).
Proof.
  intros H2 Hne. set (lens := length <$> (run_rows <$> runs)). set (ns := Z.of_nat <$> lens).
  assert (array_shape <$> parts = (λ n, n :: [Z.of_nat bs; H; D]) <$> ns) as Hsh.
  { unfold ns, lens. clear Hne. induction H2 as [|run a runs parts [Hs _] H2 IH]; [done|].
    cbn in *. by rewrite IH, Hs. }
  split.
  - rewrite (concatenate_shape ns _ _ Hne Hsh). by rewrite length_join, sum_list_Z.
  - intros i r slot h d Hi Hslot Hh Hd. apply join_lookup_Some in Hi as (j & rs & i' & Hj & Hi' & ->).
    apply list_lookup_fmap_Some in Hj as (run & -> & Hrun).
    destruct (Forall2_lookup_l _ _ _ _ _ H2 Hrun) as (a & Ha & [_ Hel]).
    rewrite <- (Hel i' r slot h d Hi' Hslot Hh Hd). f_equal.
    rewrite Nat2Z.inj_add, sum_list_Z.
    replace (Z.of_nat <$> (length <$> take j (run_rows <$> runs))) with (take j ns)
      by (unfold ns, lens; by rewrite <- !fmap_take).
    apply (concatenate_elem ns [Z.of_nat bs; H; D] parts j a (Z.of_nat (length (run_rows run)))).
    + done.
    + apply Forall_fmap, Forall_true. intros; cbn; lia.
    + done.
    + unfold ns, lens. by rewrite !list_lookup_fmap, Hrun.
    + apply lookup_lt_Some in Hi'. lia.
    + shape_tac.
Qed.

Lemma gather_rows_spec L bs H D dt rows :
  Forall (slab_geom bs H D dt) L → rows ≠ [] → small (length rows) →
  Forall (λ r, r < length L * POOL_SLAB_BLOCKS) rows →
  ∃ a, gather_rows L rows = Some a ∧ gathered L bs H D rows a.
Proof.
  intros HL Hne Hsm Hrows. destruct (slab_runs_spec rows) as (Hj & Hok & Hrn).
  destruct (gather_parts L bs H D dt (slab_runs rows) HL Hok) as (parts & Hp & H2).
  { apply Forall_forall. intros run Hrun.
    assert (run_rows run ∈ run_rows <$> slab_runs rows) as Hin by (by apply list_elem_of_fmap_2).
    split.
    - destruct (proj1 (Forall_forall _ _) Hok run Hrun) as [Hn0 Hb]. destruct run as [si [|ri local]]; [done|].
      apply Forall_cons in Hb as [Hri _]. rewrite Forall_forall in Hrows. cbn.
      destruct (run_row_coords si ri Hri) as [<- _]. apply Nat.Div0.div_lt_upper_bound.
      rewrite (Nat.mul_comm _ (length L)). apply Hrows. rewrite <- Hj. apply list_elem_of_join.
      eexists. split; [|exact Hin]. by left.
    - eapply small_le; [|exact Hsm]. rewrite <- Hj, length_join.
      rewrite <- (length_fmap (λ ri, run.1 * POOL_SLAB_BLOCKS + Z.to_nat ri) run.2).
      fold (run_rows run). clear -Hin. induction Hin; cbn; lia. }
  unfold gather_rows. rewrite Hp. cbn [mbind option_bind].
  assert (parts ≠ []) as Hpn.
  { intros ->. apply Forall2_nil_inv_r in H2. by apply Hrn. }
  destruct parts as [|a [|a' parts]]; [done| |].
  - exists a. split; [done|]. inversion H2 as [|run ? ? ? Hg H2' E1 E2]; subst.
    inversion H2'; subst. rewrite <- Hj, <- E1. cbn. by rewrite app_nil_r.
  - eexists. split; [done|]. rewrite <- Hj. by apply concatenate_gathered.
Qed.

(** ** The dense window *)

Lemma gather_side_spec m L bs rows start stop :
  Forall (slab_geom bs (n_kv_heads m) (head_dim m) (dtype m)) L → rows ≠ [] → small (length rows) →
  Forall (λ r, r < length L * POOL_SLAB_BLOCKS) rows → 0 < bs →
  (0 ≤ n_kv_heads m)%Z → (0 ≤ head_dim m)%Z → start ≤ stop → stop ≤ length rows * bs →
  ∃ a, gather_side m (Z.of_nat bs) (Z.of_nat (length rows)) (Z.of_nat start) (Z.of_nat stop) L rows = Some a ∧
    array_shape a = [1; n_kv_heads m; Z.of_nat (stop - start); head_dim m]%Z ∧
    ∀ t h d, t < stop - start → (0 ≤ h < n_kv_heads m)%Z → (0 ≤ d < head_dim m)%Z →
      ∃ r, rows !! ((start + t) `div` bs) = Some r ∧
        Some (elem a [0; h; Z.of_nat t; d]%Z) = slab_cell L r ((start + t) `mod` bs) h d.
Proof.
  intros HL Hne Hsm Hrows Hbs HH HD Hss Hst.
  destruct (gather_rows_spec L bs (n_kv_heads m) (head_dim m) (dtype m) rows HL Hne Hsm Hrows)
    as (g & Hg & Hgs & Hge).
  unfold gather_side. rewrite Hg. cbn [mbind option_bind].
  set (H := n_kv_heads m) in *. set (D := head_dim m) in *.
  set (nb := Z.of_nat (length rows)) in *. set (B := Z.of_nat bs) in *.
  set (flat := reshape g _). set (win := slice flat _ _). set (bat := reshape win _).
  eexists. split; [done|].
  assert (size_of [nb * B; H; D]%Z = size_of (array_shape g)) as Hsz by (rewrite Hgs; cbn; lia).
  pose proof (reshape_shape _ _ Hsz) as Hfs. fold flat in Hfs.
  assert (window_ok (array_shape flat) [Z.of_nat start; 0; 0]%Z [Z.of_nat stop; H; D]) as Hw.
  { rewrite Hfs. split; shape_tac. }
  assert (array_shape win = [Z.of_nat stop - Z.of_nat start; H; D]%Z) as Hws.
  { unfold win. rewrite slice_shape by done. unfold sub_idx. cbn. repeat f_equal; lia. }
  assert (size_of [1; Z.of_nat stop - Z.of_nat start; H; D]%Z = size_of (array_shape win)) as Hsz2
    by (rewrite Hws; cbn; lia).
  pose proof (reshape_shape _ _ Hsz2) as Hbsh. fold bat in Hbsh.
  assert ([0; 2; 1; 3] ≡ₚ seq 0 (length (array_shape bat))) as Hp.
  { rewrite Hbsh. cbn. repeat constructor. }
  split.
  - rewrite transpose_shape by done. rewrite Hbsh. cbn. repeat f_equal. lia.
  - intros t h d Ht Hh Hd.
    assert ((start + t) `div` bs < length rows) as Hlt by (apply Nat.Div0.div_lt_upper_bound; lia).
    destruct (lookup_lt_is_Some_2 rows _ Hlt) as [r Hr]. exists r. split; [done|].
    pose proof (Nat.div_mod_eq (start + t) bs) as Hdm.
    pose proof (Nat.mod_upper_bound (start + t) bs ltac:(lia)) as Hub.
    change [0; h; Z.of_nat t; d]%Z with (permute [0; 2; 1; 3] [0; Z.of_nat t; h; d]%Z).
    rewrite (transpose_elem bat _ [0; Z.of_nat t; h; d]%Z Hp) by (rewrite Hbsh; shape_tac).
    unfold bat. rewrite (reshape_elem win _ _ [Z.of_nat t; h; d] Hsz2);
      [|shape_tac|rewrite Hws; shape_tac|rewrite Hws; cbn; lia].
    unfold win. rewrite slice_elem; [|done|unfold sub_idx; cbn; shape_tac].
    unfold add_idx. cbn [zip_with]. rewrite !Z.add_0_r. unfold flat.
    rewrite (reshape_elem g _ _ [Z.of_nat ((start + t) `div` bs); Z.of_nat ((start + t) `mod` bs); h; d] Hsz).
    + apply Hge; [done|lia|done|done].
    + shape_tac.
    + rewrite Hgs. shape_tac.
    + rewrite Hgs. cbn. replace (Z.of_nat t + Z.of_nat start)%Z with (Z.of_nat (start + t)) by lia.
      rewrite Hdm at 1. unfold B. nia.
Qed.
Lemma gather_block_rows (rows : gmap N nat) tbl :
  Forall (λ b, is_Some (rows !! b)) tbl →
  ∃ rs, mapM (M := outcome pool_error)
          (λ b, match rows !! b with Some r => Ok r | None => Err (NoPoolRow b) end) tbl = Ok rs ∧
    Forall2 (λ b r, rows !! b = Some r) tbl rs.
Proof.
  induction tbl as [|b tbl IH]; intros Hall; [by exists []|].
  apply Forall_cons in Hall as [[r Hr] Hall]. destruct (IH Hall) as (rs & Hrs & H2).
  exists (r :: rs). split; [|by constructor]. cbn [mapM]. rewrite Hr. cbn [mbind outcome_bind]. by rewrite Hrs.
Qed.

(** The store of a layer that holds tokens. *)
Lemma holds_store p st l ls own H D dt kv :
  holds p st l ls own H D dt kv → 0 < len ls →
  ∃ s m, stores p !! l = Some s ∧ pool_meta s = Some m ∧ n_kv_heads m = H ∧ head_dim m = D ∧ dtype m = dt ∧
    block_ids ls ≠ [] ∧ Forall (λ b, is_Some (block_rows s !! b)) (block_ids ls).
Proof.
  intros Hh Hlen. pose proof Hh as [Hrd _ Hr _].
  destruct (holds_row _ _ _ _ _ _ _ _ _ 0 Hh Hlen) as (b0 & Hb0 & Hrow0).
  destruct (ready_geom _ _ _ _ _ _ _ _ _ Hrd Hrow0) as (s & Hs & m & Hm & E1 & E2 & E3).
  exists s, m. split_and!; try done; [by intros E; rewrite E in Hb0|].
  apply Forall_lookup_2. intros j b Hb.
  destruct (Hr j) as (b' & Hb' & s' & Hs' & Hx); [by eapply lookup_lt_Some|].
  rewrite Hb in Hb'. rewrite Hs in Hs'. by simplify_eq.
Qed.

Lemma gather_visible_spec p st l ls own H D dt kv :
  holds p st l ls own H D dt kv → (0 ≤ H)%Z → (0 ≤ D)%Z →
  small (length (block_ids ls) * bs_of p) →
  if decide (visible_len ls = 0) then gather_visible st l p = Ok None else
  ∃ k v, gather_visible st l p = Ok (Some (k, v)) ∧
    ∀ c, array_shape (side_arg k v c) = [1; H; Z.of_nat (visible_len ls); D]%Z ∧
      ∀ t h d, t < visible_len ls → (0 ≤ h < H)%Z → (0 ≤ d < D)%Z →
        elem (side_arg k v c) [0; h; Z.of_nat t; d]%Z = kv c (logical_start ls + t) h d.
Proof.
  intros Hh HH HD Hsm. pose proof Hh as [Hrd Hc Hr Hcell]. pose proof Hrd as [Hi Hl _ _ _ _].
  unfold gather_visible. rewrite Hl. case_decide as Hv; [by rewrite decide_True by (by left)|].
  unfold visible_len in *.
  destruct (holds_store _ _ _ _ _ _ _ _ _ Hh ltac:(lia)) as (s & m & Hs & Hm & <- & <- & _ & Hne & Hall).
  pose proof (pi_bs _ _ Hi) as Hbs. fold (bs_of p) in *.
  pose proof (pi_stores _ _ Hi l s Hs) as Hsi. fold (bs_of p) in Hsi.
  rewrite decide_False by naive_solver. rewrite Hs, Hm.
  destruct (gather_block_rows (block_rows s) (block_ids ls) Hall) as (rows & Hrows & H2).
  assert (length rows = length (block_ids ls)) as Hlr by (symmetry; by eapply Forall2_length).
  assert (0 < length (block_ids ls)) as Hpos by (destruct (block_ids ls); [done|cbn; lia]).
  pose proof (div_ceil_spec (len ls) (bs_of p) Hbs) as Hcl. rewrite <- Hc in Hcl.
  assert (small (bs_of p) ∧ small (length rows) ∧ small (len ls) ∧ small (logical_start ls)) as (B1 & B2 & B3 & B4)
    by (split_and!; eapply small_le; try exact Hsm; nia).
  assert (∀ c, Forall (slab_geom (bs_of p) (n_kv_heads m) (head_dim m) (dtype m)) (slabs c s)) as HL
    by (intros c; by apply store_slabs_geom).
  assert (∀ c, Forall (λ r, r < length (slabs c s) * POOL_SLAB_BLOCKS) rows) as Hrb.
  { intros c. apply Forall_lookup_2. intros i r Hir. destruct (Forall2_lookup_r _ _ _ _ _ H2 Hir) as (b & _ & Hb).
    by eapply row_in_slabs. }
  rewrite decide_False.
  2: { destruct rows as [|r rows]; [cbn in Hlr; lia|].
       pose proof (Hrb K) as HK%Forall_cons. pose proof (Hrb V) as HV%Forall_cons. cbn in HK, HV.
       intros [E|E]; rewrite E in *; cbn in *; lia. }
  rewrite Hrows. cbn [mbind outcome_bind]. change (block_size (layout p)) with (bs_of p).
  rewrite !i32_small by done. rewrite decide_False by nia.
  assert (rows ≠ []) as Hrne by (intros ->; cbn in *; lia).
  assert (∀ c, ∃ a, gather_side m (Z.of_nat (bs_of p)) (Z.of_nat (length rows)) (Z.of_nat (logical_start ls))
      (Z.of_nat (len ls)) (slabs c s) rows = Some a ∧
      array_shape a = [1; n_kv_heads m; Z.of_nat (len ls - logical_start ls); head_dim m]%Z ∧
      ∀ t h d, t < len ls - logical_start ls → (0 ≤ h < n_kv_heads m)%Z → (0 ≤ d < head_dim m)%Z →
        elem a [0; h; Z.of_nat t; d]%Z = kv c (logical_start ls + t) h d) as Hside.
  { intros c. destruct (gather_side_spec m (slabs c s) (bs_of p) rows (logical_start ls) (len ls))
      as (a & Ha & Hsh & Hel); try done; [lia|nia|].
    exists a. split_and!; [done|done|]. intros t h d Ht Hh' Hd.
    destruct (Hel t h d Ht Hh' Hd) as (r & Hir & He). apply Some_inj. rewrite He.
    destruct (Forall2_lookup_r _ _ _ _ _ H2 Hir) as (b & Hb & Hbr).
    rewrite <- (Hcell c (logical_start ls + t) h d) by (done || lia).
    rewrite (tcell_block c p l (block_ids ls) (logical_start ls + t) b h d Hb). unfold pcell, block_cell.
    rewrite Hs. cbn [mbind option_bind]. rewrite Hbr. cbn [mbind option_bind]. by rewrite cell_slab_cell. }
  destruct (Hside K) as (ka & Hka & Ksh & Kel). destruct (Hside V) as (va & Hva & Vsh & Vel).
  cbn [slabs] in Hka, Hva. rewrite Hka, Hva. exists ka, va. split; [done|]. by intros []; cbn.
Qed.
End gather.
