(* ===== verification/PagedContract.v ===== *)
(** * The contract of the paged cache

    Seen from a sequence, a layer of the pool is a dense buffer of keys and
    values ([holds]): writing appends, trimming cuts, gathering reads the visible
    window; sharing and copy-on-write are invisible. *)

From S2P Require Import Prelude Mlx PagedPool PagedPoolInv PagedPoolData PagedPrefill PagedGather.

Section contract.
Context {X : Mlx} {XL : MlxLaws X}.
Implicit Types (p : PagedBlockPool) (own : list N).

(** A block with a row belongs to the layer of the row. *)
Lemma has_row_on_layer p own l b : pool_inv p own → has_row p l b → on_layer p l b.
Proof.
  intros Hi (s & Hs & [r Hr]). destruct (pi_rows _ _ Hi l s b r Hs Hr) as (n & Hn & _).
  unfold on_layer. by rewrite Hn.
Qed.

Lemma layer_ids l st ls b : layers st !! l = Some ls → b ∈ block_ids ls → b ∈ ids st.
Proof. intros Hl Hb. rewrite (ids_split l st ls Hl). apply elem_of_app. by left. Qed.

(** What other sequences do to the pool does not change what a sequence holds. *)
Lemma holds_preserved p p' st l ls ls' own own' H D dt kv st' :
  holds p st l ls own H D dt kv → 0 < len ls' → layers st' !! l = Some ls' →
  block_ids ls' = take (div_ceil (len ls') (bs_of p)) (block_ids ls) → len ls' ≤ len ls →
  preserved p p' (λ b _, b ∈ ids st') → pool_inv p' (ids st' ++ own') →
  holds p' st' l ls' own' H D dt kv.
Proof.
  intros Hh Hpos Hl' Hids Hle Hpr Hi'. pose proof Hh as [Hrd Hc Hr Hcell]. pose proof Hrd as [Hi Hl Hnd _ _ _].
  assert (bs_of p' = bs_of p) as Ebs by (unfold bs_of; by rewrite (pr_layout _ _ _ Hpr)).
  pose proof (pi_bs _ _ Hi) as Hbs. fold (bs_of p) in Hbs.
  pose proof (div_ceil_mono _ _ (bs_of p) Hbs Hle) as Hmono.
  assert (length (block_ids ls') = div_ceil (len ls') (bs_of p)) as Hlen by (rewrite Hids, length_take; lia).
  assert (∀ j b, block_ids ls' !! j = Some b → block_ids ls !! j = Some b ∧ has_row p l b) as Hsub.
  { intros j b Hb. assert (j < length (block_ids ls')) as Hj by (by eapply lookup_lt_Some).
    rewrite Hids, lookup_take_lt in Hb by lia. split; [done|].
    destruct (Hr j) as (b' & Hb' & Hrow); [lia|]. by rewrite Hb in Hb'; simplify_eq. }
  assert (∀ j b, block_ids ls' !! j = Some b → has_row p' l b) as Hrow'.
  { intros j b Hb. apply (pr_row _ _ _ Hpr l b 0); [|by eapply Hsub].
    eapply layer_ids; [done|]. by eapply list_elem_of_lookup_2. }
  split.
  - split; try done.
    + rewrite Hids. rewrite <- (take_drop (div_ceil (len ls') (bs_of p)) (block_ids ls)) in Hnd.
      by apply NoDup_app in Hnd as [? _].
    + intros b [j Hj]%list_elem_of_lookup_1. eapply has_row_on_layer; [done|]. by eapply Hrow'.
    + intros b [j Hj]%list_elem_of_lookup_1 _. by eapply Hrow'.
    + destruct (lookup_lt_is_Some_2 (block_ids ls') 0) as [b Hb].
      { rewrite Hlen. pose proof (div_ceil_spec (len ls') (bs_of p) Hbs). nia. }
      destruct (Hsub 0 b Hb) as [_ Hrow]. pose proof (ready_geom _ _ _ _ _ _ _ _ b Hrd Hrow) as Hg.
      destruct (pr_geom _ _ _ Hpr l H D dt Hg) as (s & Hs & Hgs). exists s. split; [done|by right].
  - by rewrite Ebs.
  - intros j Hj. destruct (lookup_lt_is_Some_2 (block_ids ls') j Hj) as [b Hb]. exists b. split; [done|].
    by eapply Hrow'.
  - intros c t h d Ht Hh' Hd. assert (t `div` bs_of p < length (block_ids ls')) as Hj.
    { rewrite Hlen. by apply div_lt_ceil. }
    destruct (lookup_lt_is_Some_2 (block_ids ls') _ Hj) as [b Hb]. destruct (Hsub _ b Hb) as [Hb0 Hrow].
    rewrite <- (Hcell c t h d) by (done || lia).
    rewrite (tcell_block c p' l _ t b) by (by rewrite Ebs). rewrite (tcell_block c p l _ t b) by done.
    rewrite Ebs. apply (pr_cell _ _ _ Hpr); [|done|].
    + eapply layer_ids; [done|]. by eapply list_elem_of_lookup_2.
    + exists H, D, dt. split; [by eapply ready_geom|]. split; [|done].
      apply Nat.mod_upper_bound. unfold bs_of in *. lia.
Qed.

Lemma holds_other p p' st l ls own own' H D dt kv :
  holds p st l ls own H D dt kv → 0 < len ls → preserved p p' (λ b _, b ∈ ids st) →
  pool_inv p' (ids st ++ own') → holds p' st l ls own' H D dt kv.
Proof.
  intros Hh Hpos Hpr Hi'. eapply holds_preserved; try done; [apply Hh|].
  pose proof (ho_cover _ _ _ _ _ _ _ _ _ Hh) as <-. by rewrite firstn_all.
Qed.
(** ** Trimming and releasing *)

(** Tokens a trim of [n] removes, and the window it leaves. *)
Definition trim_count (ls : PagedLayerState) (n : nat) : nat := n `min` visible_len ls.
Definition trim_window (ls : PagedLayerState) (n : nat) : nat * nat :=
  let k := trim_count ls n in
  if decide (0 < k ∧ len ls - k = logical_start ls) then (0, 0) else (len ls - k, logical_start ls).

Lemma trim_tokens_spec l n p st ls own :
  pool_inv p (ids st ++ own) → layers st !! l = Some ls →
  length (block_ids ls) = div_ceil (len ls) (bs_of p) →
  ∃ p' ls', let st' := set_layer l ls' st in
    trim_tokens l n (p, st) = ((p', st'), Ok (trim_count ls n)) ∧
    len ls' = (trim_window ls n).1 ∧ logical_start ls' = (trim_window ls n).2 ∧
    block_ids ls' = take (div_ceil (len ls') (bs_of p)) (block_ids ls) ∧
    pool_inv p' (ids st' ++ own) ∧ kept p p' (ids st' ++ own).
Proof.
  intros Hi Hl Hc. pose proof (pi_bs _ _ Hi) as Hbs. fold (bs_of p) in Hbs.
  unfold trim_tokens, trim_window, trim_count, visible_len.
  rewrite (M_bind_eq _ _ _ _ _ (layer_eq l p st ls Hl)).
  replace (len ls - logical_start ls `min` len ls) with (len ls - logical_start ls) by lia.
  set (k := n `min` (len ls - logical_start ls)).
  assert (∃ p' ls', let st' := set_layer l ls' st in
    ((p, st), Ok 0) = ((p', st'), Ok (E := pool_error) 0) ∧ len ls' = len ls - 0 ∧
    logical_start ls' = logical_start ls ∧ block_ids ls' = take (div_ceil (len ls') (bs_of p)) (block_ids ls) ∧
    pool_inv p' (ids st' ++ own) ∧ kept p p' (ids st' ++ own)) as Hnone.
  { exists p, ls. cbn zeta. rewrite (set_layer_id l ls st Hl).
    split_and!; [done|lia|done|by rewrite <- Hc, firstn_all|done|apply kept_refl]. }
  case_decide as H0; cbn zeta.
  { assert (k = 0) as Hk by lia. rewrite (decide_False (P := 0 < k ∧ _)) by lia. rewrite Hk. exact Hnone. }
  case_decide as H1.
  { rewrite (decide_False (P := 0 < k ∧ _)) by lia. rewrite H1. exact Hnone. }
  clear Hnone. set (w := if decide (0 < k ∧ len ls - k = logical_start ls) then (0, 0)
    else (len ls - k, logical_start ls)).
  assert ((if decide (len ls - k = logical_start ls) then mkLayerState (block_ids ls) 0 0
    else mkLayerState (block_ids ls) (len ls - k) (logical_start ls)) = mkLayerState (block_ids ls) w.1 w.2) as ->.
  { unfold w. repeat case_decide; done || lia. }
  assert (w.1 ≤ len ls) as Hw by (unfold w; case_decide; cbn; lia).
  set (ls1 := mkLayerState (block_ids ls) w.1 w.2). set (st1 := set_layer l ls1 st).
  assert (ids st1 = ids st) as Hids by (by apply ids_set_layer_meta).
  assert (layers st1 !! l = Some ls1) as Hl1 by (by eapply set_layer_lookup).
  rewrite <- Hids in Hi. pose proof (div_ceil_mono _ _ (bs_of p) Hbs Hw) as Hmono.
  destruct (release_loop_spec (length (block_ids ls) - div_ceil w.1 (bs_of p)) l own p st1 ls1 Hi Hl1)
    as (p' & Hrun & Hi' & Hk'); [cbn; lia|].
  cbn zeta in *. cbn [block_ids len logical_start ls1] in *.
  replace (length (block_ids ls) - (length (block_ids ls) - div_ceil w.1 (bs_of p)))
    with (div_ceil w.1 (bs_of p)) in * by lia.
  set (ls2 := mkLayerState (take (div_ceil w.1 (bs_of p)) (block_ids ls)) w.1 w.2) in *.
  assert (set_layer l ls2 st1 = set_layer l ls2 st) as Est by (apply set_layer_twice). rewrite Est in *.
  exists p', ls2. split_and!; try done.
  unfold mbind at 1, M_bind at 1, put_layer at 1. fold st1.
  unfold mbind at 1, M_bind at 1, get at 1. change (block_size (layout p)) with (bs_of p).
  unfold mbind at 1, M_bind at 1. rewrite Hrun. done.
Qed.

(** Releasing the layers from [l] on. *)
Lemma release_layers_spec n own : ∀ l p st,
  pool_inv p (ids st ++ own) → l + n = length (layers st) →
  (∀ i ls, i < l → layers st !! i = Some ls → block_ids ls = []) →
  ∃ p' st', release_layers n l (p, st) = ((p', st'), Ok tt) ∧ pool_inv p' own ∧ kept p p' own ∧
    length (layers st') = length (layers st) ∧ seq_block_size st' = seq_block_size st ∧
    (∀ i ls, l ≤ i → layers st' !! i = Some ls → ls = layer_state_new) ∧
    (∀ i, i < l → layers st' !! i = layers st !! i).
Proof.
  induction n as [|n IH]; intros l p st Hi Hn Hz; cbn [release_layers].
  { exists p, st. assert (ids st = []) as E.
    { unfold ids. apply elem_of_nil_inv. intros b [ls [Hb [i Hls]%list_elem_of_lookup_1]]%list_elem_of_bind.
      rewrite (Hz i ls) in Hb; [by apply not_elem_of_nil in Hb| |done]. apply lookup_lt_Some in Hls. lia. }
    rewrite E in Hi. split_and!; try done; [apply kept_refl|].
    intros i ls Hli Hls. apply lookup_lt_Some in Hls. lia. }
  destruct (lookup_lt_is_Some_2 (layers st) l) as [ls Hl]; [lia|].
  rewrite (M_bind_eq _ _ _ _ _ (layer_eq l p st ls Hl)).
  destruct (release_loop_spec (length (block_ids ls)) l own p st ls Hi Hl ltac:(lia)) as (p1 & Hrun & Hi1 & Hk1).
  cbn zeta in *. rewrite Nat.sub_diag in *. rewrite take_0 in *.
  set (ls1 := mkLayerState [] (len ls) (logical_start ls)) in *. set (st1 := set_layer l ls1 st) in *.
  rewrite (M_bind_eq _ _ _ _ _ Hrun).
  assert (layers st1 !! l = Some ls1) as Hl1 by (by eapply set_layer_lookup).
  rewrite (M_bind_eq _ _ _ _ _ (layer_eq l p1 st1 ls1 Hl1)). cbn [block_ids ls1].
  unfold mbind at 1, M_bind at 1, put_layer at 1. unfold st1. rewrite set_layer_twice. fold layer_state_new.
  set (st2 := set_layer l layer_state_new st).
  assert (ids st2 = ids st1) as Hids.
  { rewrite <- (ids_set_layer_meta l st1 ls1 0 0 Hl1). unfold st1, st2. by rewrite set_layer_twice. }
  rewrite <- Hids in Hi1, Hk1. destruct (IH (S l) p1 st2) as (p' & st' & R & I' & K' & L' & B' & Z' & U').
  - done.
  - cbn. rewrite length_insert. lia.
  - intros i ls' Hil. cbn. rewrite list_lookup_insert. case_decide; [naive_solver|]. apply Hz. lia.
  - exists p', st'. split_and!; try done.
    + eapply kept_trans; [exact Hk1|exact K'|]. intros b Hb. apply elem_of_app. by right.
    + rewrite L'. cbn. by rewrite length_insert.
    + intros i ls' Hli Hls. destruct (decide (i = l)) as [->|Hne]; [|eapply Z'; [|done]; lia].
      rewrite U' in Hls by lia. cbn in Hls. rewrite list_lookup_insert_eq in Hls by lia. by simplify_eq.
    + intros i Hil. rewrite U' by lia. cbn. apply list_lookup_insert_ne. lia.
Qed.
(** ** A new pool *)

Lemma pool_new_inv lay : 0 < block_size lay → pool_inv (pool_new lay) [].
Proof.
  intros Hbs. assert (∀ l s, replicate (num_layers lay) empty_layer_pool !! l = Some s → s = empty_layer_pool) as Hs.
  { intros l s Hl. by apply lookup_replicate in Hl as [-> _]. }
  split; cbn; try done.
  - apply length_replicate.
  - intros l s ->%Hs. constructor.
  - intros l s b ->%Hs. split; [by intros ?%not_elem_of_nil|done].
  - intros l s b r ->%Hs. done.
  - intros l s ->%Hs. split; cbn; try done; [constructor|by intros r ?%not_elem_of_nil].
Qed.

Lemma ids_new lay : ids (sequence_new lay) = [].
Proof. unfold ids, sequence_new. cbn. by induction (num_layers lay). Qed.

(** A fresh sequence holds the empty buffer. *)
Lemma holds_new lay l H D dt kv :
  0 < block_size lay → l < num_layers lay →
  holds (pool_new lay) (sequence_new lay) l layer_state_new [] H D dt kv.
Proof.
  intros Hbs Hl. split; cbn; try lia.
  - split; try by intros b ?%not_elem_of_nil.
    + rewrite ids_new. by apply pool_new_inv.
    + by apply lookup_replicate_2.
    + constructor.
    + exists empty_layer_pool. split; [by apply lookup_replicate_2|]. by left.
  - by rewrite div_ceil_0.
Qed.

(** Moving references of other owners around. *)
Lemma holds_own p st l ls own own' H D dt kv :
  own ≡ₚ own' → holds p st l ls own H D dt kv → holds p st l ls own' H D dt kv.
Proof.
  intros Hp [[H1 H2 H3 H4 H5 H6] H7 H8 H9]. split; [|done..]. split; try done. by rewrite <- Hp.
Qed.

(** C1. Writing is appending to a dense buffer, for every sequence at once. A
    sequence [st] whose layer [l] holds the buffer [kv] writes [n] tokens. The
    write never panics. When it succeeds, the layer holds [kv] followed by the
    new tokens, and [gather_visible] returns exactly the visible window of that
    buffer. When it fails, the pool has a block budget and the old tokens are
    intact. In both cases every other sequence [st2], which may share blocks
    with [st], still holds what it held: shared blocks are copied before they
    are written. *)
Theorem write_prefill_refines_dense l k v H D dt n p st ls st2 rest kv :
  holds p st l ls (ids st2 ++ rest) H D dt kv → prefill_args k v H D dt n →
  small (len ls + n + bs_of p) →
  (N.of_nat (length (ids st ++ ids st2 ++ rest) + (len ls + n) + 2) < u32_max)%N →
  ∃ p' st' r ls', write_prefill l k v (p, st) = ((p', st'), r) ∧ st' = set_layer l ls' st ∧
    (∀ l2 ls2 H2 D2 dt2 kv2, holds p st2 l2 ls2 (ids st ++ rest) H2 D2 dt2 kv2 → 0 < len ls2 →
       holds p' st2 l2 ls2 (ids st' ++ rest) H2 D2 dt2 kv2) ∧
    match r with
    | Ok _ =>
      let kv' := dense_append kv (len ls) (side_arg k v) in
      holds p' st' l ls' (ids st2 ++ rest) H D dt kv' ∧
      len ls' = len ls + n ∧ logical_start ls' = logical_start ls ∧
      (logical_start ls < len ls + n →
       ∃ k' v', gather_visible st' l p' = Ok (Some (k', v')) ∧
         ∀ c, array_shape (side_arg k' v' c) = [1; H; Z.of_nat (visible_len ls'); D]%Z ∧
           ∀ t h d, t < visible_len ls' → (0 ≤ h < H)%Z → (0 ≤ d < D)%Z →
             elem (side_arg k' v' c) [0; h; Z.of_nat t; d]%Z = kv' c (logical_start ls' + t) h d)
    | Err _ => is_Some (block_budget p) ∧ write_failed p st l ls (ids st2 ++ rest) H D dt p' st' ls'
    | Panic => False
    end.
Proof.
  intros Hh Hargs Hsm Hcnt. assert (small (bs_of p) ∧ small (len ls + n)) as [B1 B2]
    by (split; eapply small_le; try exact Hsm; lia).
  destruct (write_prefill_spec l k v H D dt n p st ls _ kv Hh Hargs B1 B2 Hcnt)
    as (p' & st' & r & ls' & Hrun & Est & Hpr & Hres).
  exists p', st', r, ls'. split_and!; [done|done| |].
  - intros l2 ls2 H2 D2 dt2 kv2 Hh2 Hpos.
    assert (pool_inv p' (ids st' ++ ids st2 ++ rest)) as Hi'.
    { destruct r as [u|e|]; [apply Hres|apply Hres|done]. }
    eapply holds_other; [exact Hh2|done| |].
    + eapply preserved_weaken; [exact Hpr|]. intros b t Hb. set_solver.
    + by rewrite Permutation_app_swap_app.
  - destruct r as [u|e|]; [|done|done]. destruct Hres as (Hh' & Hlen & Hls). cbn zeta.
    split_and!; [done|done|done|]. intros Hvis.
    destruct Hargs as [_ _ _ _ HH HD _].
    pose proof (gather_visible_spec _ _ _ _ _ _ _ _ _ Hh' HH HD) as Hg.
    assert (bs_of p' = bs_of p) as Ebs by (unfold bs_of; by rewrite (pr_layout _ _ _ Hpr)).
    rewrite decide_False in Hg by (unfold visible_len; lia). apply Hg.
    rewrite (ho_cover _ _ _ _ _ _ _ _ _ Hh'), Ebs, Hlen. eapply small_le; [|exact Hsm].
    pose proof (pi_bs _ _ (sr_inv _ _ _ _ _ _ _ _ (ho_ready _ _ _ _ _ _ _ _ _ Hh))) as Hbs.
    pose proof (div_ceil_spec (len ls + n) (bs_of p) Hbs). lia.
Qed.

(** C8. Trimming (and rewinding) cuts the buffer. [trim_tokens] always succeeds,
    removes exactly the visible tokens asked for and no more, gives back every
    block past the new length, leaves the remaining tokens readable, and does
    not disturb any other sequence. *)
Theorem trim_tokens_refines_dense l n p st ls st2 rest H D dt kv :
  holds p st l ls (ids st2 ++ rest) H D dt kv →
  ∃ p' ls', let st' := set_layer l ls' st in
    rewind_tokens l n (p, st) = ((p', st'), Ok (trim_count ls n)) ∧
    (len ls', logical_start ls') = trim_window ls n ∧
    visible_len ls' = visible_len ls - trim_count ls n ∧
    length (block_ids ls') = div_ceil (len ls') (bs_of p) ∧
    pool_inv p' (ids st' ++ ids st2 ++ rest) ∧
    (0 < len ls' → holds p' st' l ls' (ids st2 ++ rest) H D dt kv) ∧
    (∀ l2 ls2 H2 D2 dt2 kv2, holds p st2 l2 ls2 (ids st ++ rest) H2 D2 dt2 kv2 → 0 < len ls2 →
       holds p' st2 l2 ls2 (ids st' ++ rest) H2 D2 dt2 kv2).
Proof.
  intros Hh. pose proof Hh as [[Hi Hl _ _ _ _] Hc _ _].
  destruct (trim_tokens_spec l n p st ls _ Hi Hl Hc) as (p' & ls' & Hrun & El & Es & Eb & Hi' & Hk).
  exists p', ls'. cbn zeta in *. pose proof (kept_preserved _ _ _ Hk) as Hpr.
  assert (len ls' ≤ len ls ∧ visible_len ls' = visible_len ls - trim_count ls n) as [Hle Hvis].
  { unfold visible_len. rewrite El, Es. unfold trim_window, trim_count, visible_len. case_decide; cbn; lia. }
  pose proof (pi_bs _ _ Hi) as Hbs. fold (bs_of p) in Hbs.
  pose proof (div_ceil_mono _ _ (bs_of p) Hbs Hle) as Hmono.
  split_and!; [exact Hrun|by rewrite El, Es; destruct (trim_window ls n)|done| |done| |].
  - rewrite Eb, length_take. lia.
  - intros Hpos. eapply holds_preserved; try done; [by eapply set_layer_lookup|].
    eapply preserved_weaken; [exact Hpr|]. intros b ? Hb. set_solver.
  - intros l2 ls2 H2 D2 dt2 kv2 Hh2 Hpos. eapply holds_other; [exact Hh2|done| |].
    + eapply preserved_weaken; [exact Hpr|]. intros b ? Hb. set_solver.
    + by rewrite Permutation_app_swap_app.
Qed.
End contract.

(** ** Runs *)

(** One layer, blocks of two slots. *)
Definition example_layout : PagedKvLayout := mkLayout 1 2 [64] Fp16 [].

(** [n] tokens of one head of dimension one, numbered from [base]. *)
Definition example_tokens (base : Z) (n : nat) : Array :=
  mkArray [1; 1; Z.of_nat n; 1]%Z 9 (λ idx, base + default 0 (idx !! 2%nat))%Z.

(** Three tokens written into an empty pool. *)
Definition example_write : PagedBlockPool * PagedSequenceState :=
  (write_prefill (X := arrays) 0 (example_tokens 10 3) (example_tokens 20 3)
    (pool_new (X := arrays) example_layout, sequence_new example_layout)).1.
Definition example_layer : PagedLayerState := default layer_state_new (layers example_write.2 !! 0).
Definition example_kv : side → nat → Z → Z → Z :=
  dense_append (X := arrays) (λ _ _ _ _, 0%Z) 0 (side_arg (X := arrays) (example_tokens 10 3) (example_tokens 20 3)).

Lemma example_args a b n : 0 < n → prefill_args (X := arrays) (example_tokens a n) (example_tokens b n) 1 1 9 n.
Proof. intros Hn. split; try done; lia. Qed.

Lemma example_written :
  holds (X := arrays) example_write.1 example_write.2 0 example_layer [] 1 1 9 example_kv ∧
  len example_layer = 3 ∧ logical_start example_layer = 0 ∧ layout example_write.1 = example_layout.
Proof.
  destruct (write_prefill_spec (X := arrays) (XL := arrays_laws) 0 (example_tokens 10 3)
    (example_tokens 20 3) 1 1 9 3 (pool_new example_layout) (sequence_new example_layout) layer_state_new
    [] (λ _ _ _ _, 0%Z)) as (p & st & r & ls & Hrun & Est & Hpr & Hres).
  - apply (holds_new (X := arrays)); cbn; lia.
  - apply example_args. lia.
  - done.
  - done.
  - done.
  - destruct r as [[]|e|]; [|destruct Hres as [[? Hx] _]; discriminate Hx|destruct Hres].
    destruct Hres as (Hh & Hlen & Hls).
    assert (example_write = (p, st)) as E by (unfold example_write; by rewrite Hrun).
    assert (example_layer = ls) as El by (unfold example_layer; rewrite E, Est; done).
    rewrite E, El. split_and!; [exact Hh|exact Hlen|exact Hls|exact (pr_layout _ _ _ Hpr)].
Qed.

(** One more token, beside an empty sequence. *)
Lemma write_prefill_refines_dense_witness :
  ∃ p' st' r ls', write_prefill (X := arrays) 0 (example_tokens 40 1) (example_tokens 50 1) example_write
      = ((p', st'), r) ∧
    match r with Ok _ => len ls' = 4 ∧ st' = set_layer 0 ls' example_write.2 | _ => False end.
Proof.
  destruct example_written as (Hh & Hlen & _ & Hlay).
  destruct (write_prefill_refines_dense (X := arrays) (XL := arrays_laws) 0 (example_tokens 40 1)
    (example_tokens 50 1) 1 1 9 1 example_write.1 example_write.2 example_layer
    (sequence_new example_layout) [] example_kv) as (p' & st' & r & ls' & Hrun & -> & _ & Hres).
  - exact Hh.
  - apply example_args. lia.
  - unfold bs_of. rewrite Hlen, Hlay. done.
  - rewrite Hlen. vm_compute. reflexivity.
  - exists p', (set_layer 0 ls' example_write.2), r, ls'.
    split; [by rewrite <- (surjective_pairing example_write) in Hrun|].
    destruct r as [u|e|]; [|destruct Hres as [[? Hx] _]; vm_compute in Hx; discriminate Hx|destruct Hres].
    destruct Hres as (_ & Hl' & _). split; [lia|reflexivity].
Defined.

(** Two of the three tokens trimmed. *)
Lemma trim_tokens_refines_dense_witness :
  ∃ p' ls', rewind_tokens (X := arrays) 0 2 example_write = ((p', set_layer 0 ls' example_write.2), Ok 2) ∧
    len ls' = 1 ∧ length (block_ids ls') = 1.
Proof.
  destruct example_written as (Hh & Hlen & Hls & Hlay).
  destruct (trim_tokens_refines_dense (X := arrays) (XL := arrays_laws) 0 2 example_write.1 example_write.2
    example_layer (sequence_new example_layout) [] 1 1 9 example_kv Hh) as (p' & ls' & Hrun & Hw & _ & Hb & _).
  assert (trim_count example_layer 2 = 2) as Ec by (unfold trim_count, visible_len; lia).
  assert (trim_window example_layer 2 = (1, 0)) as Ew.
  { unfold trim_window. rewrite Ec, Hlen, Hls. reflexivity. }
  rewrite Ew in Hw. injection Hw as E1 E2. exists p', ls'. rewrite Ec in Hrun.
  rewrite <- (surjective_pairing example_write) in Hrun. split; [exact Hrun|]. split; [exact E1|].
  rewrite Hb, E1. unfold bs_of. rewrite Hlay. reflexivity.
Defined.
