(* ===== verification/CachePool.v ===== *)
(** * The cache pool

    [lib/mlxcel-core/src/cache.rs] ([CachePool], [SequenceCacheSet]) and
    [lib/mlxcel-core/src/cache/paged_detach.rs]: the owner of the active
    sequences and of the shared block pool. Sequences are allocated, grown,
    trimmed and released; a finished sequence can be detached into an inert set
    that keeps its blocks pinned, cloned, trimmed, parked and adopted again by a
    later request.

    The per-layer [KVCache] objects are an interface ([KvHandles]): this
    component moves them around, and calls the methods listed there. The
    [Rc<RefCell<..>>] cells of the source have one owner that is read here, the
    pool and the sequence's entry; the caches' clones of the same cells are
    aliases of them. Time stamps are not modelled. *)

From S2P Require Import Prelude Mlx PagedPool.

Inductive SequenceStateBackend := DenseKvCache | PagedKvCache | ModelOwned.

Global Instance SequenceStateBackend_eq_dec : EqDecision SequenceStateBackend.
Proof. solve_decision. Defined.
Global Instance PagedKvLayout_eq_dec : EqDecision PagedKvLayout.
Proof. solve_decision. Defined.

Record SequenceStateLayout := mkStateLayout {
  layout_backend : SequenceStateBackend;
  layout_layers : nat;
  layout_paged : option PagedKvLayout;
}.

Definition dense_kv_cache (n : nat) : SequenceStateLayout := mkStateLayout DenseKvCache n None.
Definition paged_kv_cache (lay : PagedKvLayout) : SequenceStateLayout :=
  mkStateLayout PagedKvCache (num_layers lay) (Some lay).
Definition model_owned (n : nat) : SequenceStateLayout := mkStateLayout ModelOwned n None.

(** The per-layer caches, as far as the pool uses them. *)
Class KvHandles := {
  KVCache : Type;
  DetachedKVCache : Type;
  new_paged : nat → KVCache;
  is_paged_backed : KVCache → bool;
  cache_seq_len : KVCache → Z;
  with_offset : Z → KVCache → KVCache;
  clone_handle : KVCache → DetachedKVCache;
  from_detached : DetachedKVCache → KVCache;
  handle_offset : DetachedKVCache → Z;
  with_handle_offset : Z → DetachedKVCache → DetachedKVCache;
  pool_backed_handle_clone : Z → DetachedKVCache → option DetachedKVCache;
}.

Inductive cache_error :=
  | PoolError (e : pool_error)
  | MaxCapacity (n : nat)
  | MissingLayout
  | LayoutMismatch
  | NotInitialized
  | SequenceNotFound (id : N)
  | NotPaged (id : N)
  | LayerCount (expected got : nat)
  | RestoreBlockSize (got expected : nat)
  | RestoreLayerCount (got expected : nat)
  | NotPoolBacked
  | MissingContents (b : N)
  | WrongBackend
  | TurboUnsupported
  | BadTarget (target block_size : nat)
  | TargetTooLong (target len : nat)
  | SlidingWindow
  | NoPins
  | DenseHandles
  | DenseSet (h : N)
  | UnknownHandle (h : N).

Section cache_pool.
Context {X : Mlx} {KH : KvHandles}.

(** ** State *)

Record SequenceCacheSet := mkSet {
  backend : SequenceStateBackend;
  caches : list KVCache;
  paged : option PagedSequenceState;
  prompt_len : nat;
  current_offset : Z;
  paged_layout : option PagedKvLayout;
}.

Record DetachedPagedCacheSet := mkDetached {
  d_caches : list DetachedKVCache;
  d_state : PagedSequenceState;
  d_layout : PagedKvLayout;
  d_backend : SequenceStateBackend;
  d_prompt_len : nat;
  d_offset : Z;
  d_origin : N;
  retained_blocks : option (list N);
  real_pool_bytes : option nat;
  d_pages : Sidecars;
}.

(** [Dense] sets belong to [detach.rs]; only their bytes are visible here. *)
Inductive ParkedCache := ParkedDense (bytes : nat) | ParkedPaged (s : DetachedPagedCacheSet).

Record CachePool := mkCachePool {
  next_id : N;
  active : gmap N SequenceCacheSet;
  max_sequences : nat;
  paged_pool : option PagedBlockPool;
  detached : gmap N ParkedCache;
  paged_block_budget : option nat;
}.

Record LanguageModel := mkModel {
  sequence_state_layout : SequenceStateLayout;
  make_caches : list KVCache;
}.

Definition cache_pool_new (max : nat) : CachePool := mkCachePool 0 ∅ max None ∅ None.

Definition with_next (n : N) (c : CachePool) : CachePool :=
  mkCachePool n (active c) (max_sequences c) (paged_pool c) (detached c) (paged_block_budget c).
Definition with_active (a : gmap N SequenceCacheSet) (c : CachePool) : CachePool :=
  mkCachePool (next_id c) a (max_sequences c) (paged_pool c) (detached c) (paged_block_budget c).
Definition with_pool (p : option PagedBlockPool) (c : CachePool) : CachePool :=
  mkCachePool (next_id c) (active c) (max_sequences c) p (detached c) (paged_block_budget c).
Definition with_detached (d : gmap N ParkedCache) (c : CachePool) : CachePool :=
  mkCachePool (next_id c) (active c) (max_sequences c) (paged_pool c) d (paged_block_budget c).

Definition set_paged (st : option PagedSequenceState) (s : SequenceCacheSet) : SequenceCacheSet :=
  mkSet (backend s) (caches s) st (prompt_len s) (current_offset s) (paged_layout s).
Definition set_caches (cs : list KVCache) (s : SequenceCacheSet) : SequenceCacheSet :=
  mkSet (backend s) cs (paged s) (prompt_len s) (current_offset s) (paged_layout s).

Definition with_backend (b : SequenceStateBackend) (cs : list KVCache) (st : option PagedSequenceState)
    (lay : option PagedKvLayout) : SequenceCacheSet :=
  mkSet b cs st 0 0 lay.

Abbreviation C := (M CachePool cache_error).

(** [fetch_add(1)] on an [AtomicU64]. *)
Definition fresh_id : C N :=
  c ← get; _ ← put (with_next (as_u64 (next_id c + 1)) c); mret (next_id c).

Definition lift_pool {A} (r : outcome pool_error A) : outcome cache_error A :=
  match r with Ok a => Ok a | Err e => Err (PoolError e) | Panic => Panic end.

(** Runs with the pool borrowed; the pool must exist. *)
Definition on_paged_pool {A} (m : M PagedBlockPool pool_error A) : C A := λ c,
  match paged_pool c with
  | Some p => let '(p', r) := m p in (with_pool (Some p') c, lift_pool r)
  | None => (c, Panic)
  end.

(** ** Allocation *)

Definition ensure_paged_pool (lay : PagedKvLayout) : C unit :=
  c ← get;
  match paged_pool c with
  | Some p => if decide (layout p ≠ lay) then throw LayoutMismatch else mret tt
  | None => put (with_pool (Some (set_block_budget (paged_block_budget c) (pool_new lay))) c)
  end.

Definition pool_backed (model : LanguageModel) (lay : PagedKvLayout) : bool :=
  bool_decide (layout_backend (sequence_state_layout model) = DenseKvCache)
  && bool_decide (cache_mode lay = Fp16).

Definition insert_active (id : N) (s : SequenceCacheSet) : C unit :=
  modify (λ c, with_active (<[id := s]> (active c)) c).

Definition allocate_with_layout (model : LanguageModel) (override : option SequenceStateLayout) : C N :=
  let lay := default (sequence_state_layout model) override in
  c ← get;
  if decide (layout_backend lay = DenseKvCache ∧ max_sequences c ≤ size (active c))
  then throw (MaxCapacity (max_sequences c)) else
  id ← fresh_id;
  entry ← (match layout_backend lay with
           | DenseKvCache => mret (with_backend DenseKvCache (make_caches model) None None)
           | PagedKvCache =>
             plan ← ok_or (layout_paged lay) MissingLayout;
             _ ← ensure_paged_pool plan;
             let cs := if pool_backed model plan then new_paged <$> seq 0 (num_layers plan)
                       else make_caches model in
             mret (with_backend PagedKvCache cs (Some (sequence_new plan)) (Some plan))
           | ModelOwned => mret (with_backend ModelOwned [] None None)
           end);
  _ ← insert_active id entry;
  mret id.

Definition allocate (model : LanguageModel) : C N := allocate_with_layout model None.

(** [release]: the result of [release_sequence] is ignored. *)
Definition release (id : N) : C unit :=
  c ← get;
  match active c !! id with
  | None => mret tt
  | Some s =>
    _ ← put (with_active (delete id (active c)) c);
    match paged_pool c, paged s with
    | Some p, Some st =>
      let '((p', _), r) := release_sequence (p, st) in
      _ ← modify (with_pool (Some p'));
      match r with Panic => panic | _ => mret tt end
    | _, _ => mret tt
    end
  end.

Definition set_paged_block_budget (max : option nat) : C unit :=
  modify (λ c, mkCachePool (next_id c) (active c) (max_sequences c)
    (set_block_budget max <$> paged_pool c) (detached c) max).

Definition free_paged_block_budget (c : CachePool) : option nat :=
  p ← paged_pool c; free_block_budget p.

(** ** Token bookkeeping *)

Definition with_pool_and_state {A} (id : N) (f : M (PagedBlockPool * PagedSequenceState) pool_error A) : C A :=
  λ c,
  match paged_pool c with
  | None => (c, Err NotInitialized)
  | Some p =>
    match active c !! id with
    | None => (c, Err (SequenceNotFound id))
    | Some s =>
      match paged s with
      | None => (c, Err (NotPaged id))
      | Some st =>
        let '((p', st'), r) := f (p, st) in
        (with_active (<[id := set_paged (Some st') s]> (active c)) (with_pool (Some p') c), lift_pool r)
      end
    end
  end.

Definition append_paged_tokens (id : N) (l n : nat) : C unit := with_pool_and_state id (append_tokens l n).
Definition trim_paged_tokens (id : N) (l n : nat) : C nat := with_pool_and_state id (trim_tokens l n).
Definition rewind_paged_tokens (id : N) (l n : nat) : C nat := with_pool_and_state id (rewind_tokens l n).

(** The loop of [sync_paged_state_with_lengths] over the layers from [l]. *)
Fixpoint sync_layers (targets : list nat) (l : nat) : M (PagedBlockPool * PagedSequenceState) pool_error unit :=
  match targets with
  | [] => mret tt
  | target :: rest =>
    '(_, st) ← get;
    s ← index (layers st !! l);
    _ ← (if decide (len s < target) then append_tokens l (target - len s)
         else if decide (target < len s) then _ ← trim_tokens l (len s - target); mret tt
         else mret tt);
    sync_layers rest (S l)
  end.

Definition sync_paged_state_with_lengths (id : N) (targets : list nat) : C unit :=
  c ← get;
  match paged_pool c with
  | None => mret tt
  | Some _ =>
    match active c !! id with
    | None => throw (SequenceNotFound id)
    | Some s =>
      match paged s with
      | None => mret tt
      | Some st =>
        if decide (length targets ≠ length (layers st))
        then throw (LayerCount (length (layers st)) (length targets))
        else with_pool_and_state id (sync_layers targets 0)
      end
    end
  end.

Definition sync_paged_state_with_dense (id : N) : C unit :=
  c ← get;
  s ← ok_or (active c !! id) (SequenceNotFound id);
  if existsb is_paged_backed (caches s) then mret tt
  else sync_paged_state_with_lengths id ((λ k, Z.to_nat (cache_seq_len k `max` 0)) <$> caches s).
(** ** Restoring serialized state *)

(** [PagedBlockContents]. *)
Record BlockContents := mkContents {
  origin_block : N;
  origin_layer : nat;
  content_keys : MlxArray;
  content_values : MlxArray;
}.

(** The checks both restores make on the sequence and the restored table. *)
Definition restore_checks (need_backed : bool) (id : N) (restored : PagedSequenceState) : C PagedKvLayout :=
  c ← get;
  s ← ok_or (active c !! id) (SequenceNotFound id);
  _ ← guard_m (bool_decide (backend s = PagedKvCache)) (NotPaged id);
  _ ← guard_m (negb need_backed || forallb is_paged_backed (caches s)) NotPoolBacked;
  lay ← ok_or (paged_layout s) MissingLayout;
  if decide (seq_block_size restored ≠ block_size lay)
  then throw (RestoreBlockSize (seq_block_size restored) (block_size lay)) else
  if decide (length (layers restored) ≠ num_layers lay)
  then throw (RestoreLayerCount (length (layers restored)) (num_layers lay)) else
  mret lay.

(** [release_sequence] on a state that is dropped afterwards. *)
Definition release_state (st : PagedSequenceState) : C unit :=
  on_paged_pool (λ p, let '((p', _), r) := release_sequence (p, st) in (p', r)).

Definition update_active (id : N) (f : SequenceCacheSet → SequenceCacheSet) : C unit :=
  c ← get;
  s ← ok_or (active c !! id) (SequenceNotFound id);
  insert_active id (f s).

Definition restore_paged_state (id : N) (restored : PagedSequenceState) : C unit :=
  lay ← restore_checks false id restored;
  c ← get;
  s ← ok_or (active c !! id) (SequenceNotFound id);
  _ ← update_active id (set_paged None);
  _ ← ensure_paged_pool lay;
  _ ← (match paged s with Some st => release_state st | None => mret tt end);
  _ ← on_paged_pool (restore_sequence restored);
  update_active id (set_paged (Some restored)).

(** One block per distinct id of the table, in table order. *)
Fixpoint read_blocks (bs : list N) (l : nat) (seen : gset N) (p : PagedBlockPool) :
    outcome pool_error (list BlockContents * gset N) :=
  match bs with
  | [] => Ok ([], seen)
  | b :: bs' =>
    if decide (b ∈ seen) then read_blocks bs' l seen p else
    match read_block_contents b l p with
    | (_, Ok (k, v)) =>
      '(rest, seen') ← read_blocks bs' l ({[b]} ∪ seen) p;
      Ok (mkContents b l k v :: rest, seen')
    | (_, Err e) => Err e
    | (_, Panic) => Panic
    end
  end.

Fixpoint read_layers (ls : list PagedLayerState) (l : nat) (seen : gset N) (p : PagedBlockPool) :
    outcome pool_error (list BlockContents) :=
  match ls with
  | [] => Ok []
  | s :: ls' =>
    '(here, seen') ← read_blocks (block_ids s) l seen p;
    rest ← read_layers ls' (S l) seen' p;
    Ok (here ++ rest)
  end.

Definition extract_paged_blocks (id : N) (c : CachePool) : outcome cache_error (list BlockContents) :=
  match active c !! id with
  | None => Err (SequenceNotFound id)
  | Some s =>
    match paged s with
    | None => Ok []
    | Some st =>
      if decide (backend s ≠ PagedKvCache) then Ok [] else
      if negb (forallb is_paged_backed (caches s)) then Ok [] else
      match paged_pool c with
      | None => Ok []
      | Some p => lift_pool (read_layers (layers st) 0 ∅ p)
      end
    end
  end.

(** [for id in acquired.drain(..) { let _ = pool.release_block(id) }]. *)
Fixpoint release_all (bs : list N) : M PagedBlockPool pool_error unit :=
  match bs with
  | [] => mret tt
  | b :: bs' => _ ← ignore (release_block b); release_all bs'
  end.

(** A fresh block for every transferred one; on failure all of them go back. *)
Fixpoint materialize (contents : list BlockContents) (acquired : list N) (map : gmap N N) :
    M PagedBlockPool pool_error (list N * gmap N N) :=
  match contents with
  | [] => mret (acquired, map)
  | ct :: rest =>
    fresh ← on_err (acquire_and_write_block (origin_layer ct) (content_keys ct) (content_values ct))
              (λ e, _ ← release_all acquired; throw e);
    materialize rest (acquired ++ [fresh]) (<[origin_block ct := fresh]> map)
  end.

Definition remap_block (map : gmap N N) (b : N) : outcome cache_error N :=
  match map !! b with Some f => Ok f | None => Err (MissingContents b) end.

Definition remap_layer (map : gmap N N) (s : PagedLayerState) : outcome cache_error PagedLayerState :=
  bs ← mapM (M := outcome cache_error) (remap_block map) (block_ids s);
  Ok (mkLayerState bs (len s) (logical_start s)).

Fixpoint zip_offsets (offsets : list Z) (cs : list KVCache) : list KVCache :=
  match offsets, cs with
  | o :: os, c :: cs' => with_offset o c :: zip_offsets os cs'
  | _, _ => cs
  end.

Definition restore_paged_state_with_contents (id : N) (restored : PagedSequenceState)
    (contents : list BlockContents) : C unit :=
  lay ← restore_checks true id restored;
  _ ← ensure_paged_pool lay;
  c ← get;
  s ← ok_or (active c !! id) (SequenceNotFound id);
  _ ← (match paged s with
       | Some st =>
         λ c0, match paged_pool c0 with
               | Some p => let '((p', st'), r) := release_sequence (p, st) in
                           (with_active (<[id := set_paged (Some st') s]> (active c0))
                              (with_pool (Some p') c0), lift_pool r)
               | None => (c0, Panic)
               end
       | None => mret tt
       end);
  '(acquired, map) ← on_paged_pool (materialize contents [] ∅);
  ls ← (match mapM (M := outcome cache_error) (remap_layer map) (layers restored) with
        | Ok ls => mret ls
        | Err e => _ ← on_paged_pool (release_all acquired); throw e
        | Panic => panic
        end);
  c ← get;
  s ← ok_or (active c !! id) (SequenceNotFound id);
  if decide (paged s = None) then throw (NotPaged id) else
  insert_active id (set_caches (zip_offsets ((λ s, i32 (len s)) <$> ls) (caches s))
                      (set_paged (Some (mkSeqState (seq_block_size restored) ls)) s)).
End cache_pool.
