(* ===== verification/PagedDetach.v ===== *)
(** * Detaching and adopting paged sequences

    [lib/mlxcel-core/src/cache/paged_detach.rs]: an active sequence becomes an
    inert set that pins its blocks; the set is parked, cloned, trimmed, released
    or adopted under a new sequence id. *)

From S2P Require Import Prelude Mlx PagedPool CachePool.

Section detach.
Context {X : Mlx} {KH : KvHandles}.
Abbreviation C := (M CachePool cache_error).

(** ** Real bytes *)

(** [dtype::size_bytes]. *)
Definition size_bytes (dt : Z) : option nat :=
  if decide (dt ∈ [0; 1; 5]%Z) then Some 1 else
  if decide (dt ∈ [2; 6; 9; 12]%Z) then Some 2 else
  if decide (dt ∈ [3; 7; 10]%Z) then Some 4 else
  if decide (dt ∈ [4; 8; 11; 13]%Z) then Some 8 else None.

Definition real_block_bytes (l : nat) (p : PagedBlockPool) : option nat :=
  s ← stores p !! l;
  m ← pool_meta s;
  esize ← size_bytes (dtype m);
  Some (block_size (layout p) * Z.to_nat (n_kv_heads m) * Z.to_nat (head_dim m) * esize * 2).

(** Bytes of [blocks l] blocks on each of the [n] layers, [None] when no layer has
    been written. *)
Definition real_bytes (n : nat) (blocks : nat → nat) (p : PagedBlockPool) : option nat :=
  let per := omap (λ l, (λ b, blocks l * b) <$> real_block_bytes l p) (seq 0 n) in
  if decide (per = []) then None else Some (sum_list per).

Definition seq_reserved_bytes (st : PagedSequenceState) (lay : PagedKvLayout) : nat :=
  sum_list (imap (λ l s, reserved_bytes s lay l) (layers st)).

(** [seq_len]: the first layer's visible length. *)
Definition set_seq_len (d : DetachedPagedCacheSet) : nat :=
  match layers (d_state d) with s :: _ => visible_len s | [] => 0 end.

Definition retained_block_count (d : DetachedPagedCacheSet) : nat :=
  match retained_blocks d with Some bs => length bs | None => 0 end.

Definition clone_eligible (d : DetachedPagedCacheSet) : bool :=
  bool_decide (d_backend d = PagedKvCache) && negb (is_turbo (cache_mode (d_layout d)))
  && bool_decide (is_Some (retained_blocks d))
  && forallb (λ s, bool_decide (logical_start s = 0)) (layers (d_state d))
  && forallb (λ h, bool_decide (is_Some (pool_backed_handle_clone 0 h))) (d_caches d).

(** ** Detaching *)

Fixpoint take_while_ne (b : N) (bs : list N) : list N :=
  match bs with
  | [] => []
  | x :: r => if decide (x = b) then [] else x :: take_while_ne b r
  end.

(** Pins every block of [todo]; on the first refusal the pins taken so far (the
    blocks of [all] before the refused one) are dropped again. *)
Fixpoint pin_blocks (all todo : list N) : M PagedBlockPool pool_error (option N) :=
  match todo with
  | [] => mret None
  | b :: rest => λ p,
    match retain_block b p with
    | (p', Ok _) => pin_blocks all rest p'
    | (p', Err _) => (_ ← release_all (reverse (take_while_ne b all)); mret (Some b)) p'
    | (p', Panic) => (p', Panic)
    end
  end.

(** [take_*] for each block. *)
Fixpoint take_pages {A} (bs : list N) (m : gmap N A) : gmap N A * gmap N A :=
  match bs with
  | [] => (∅, m)
  | b :: r =>
    let '(taken, kept) := take_pages r (delete b m) in
    (match m !! b with Some a => <[b := a]> taken | None => taken end, kept)
  end.

(** The sidecars of [bs] that the layout's mode has: taken, and left. *)
Definition lift_sidecars (mode : KVCacheMode) (bs : list N) (s : Sidecars) : Sidecars * Sidecars :=
  if is_turbo mode then
    let '(vp, vp') := take_pages bs (v_packed s) in
    let '(vn, vn') := take_pages bs (v_norms s) in
    let '(kp, kp') := if decide (mode = Turbo4) then take_pages bs (k_packed s) else (∅, k_packed s) in
    let '(kn, kn') := if decide (mode = Turbo4) then take_pages bs (k_norms s) else (∅, k_norms s) in
    let '(ck, ck') := if decide (mode = Turbo4Delegated) then take_pages bs (cold_keys s) else (∅, cold_keys s) in
    (mkSidecars vp vn kp kn ck, mkSidecars vp' vn' kp' kn' ck')
  else (no_sidecars, s).

Definition detach_paged (seq_id : N) : C (option DetachedPagedCacheSet) :=
  c ← get;
  match active c !! seq_id with
  | None => mret None
  | Some s =>
    if decide (backend s ≠ PagedKvCache) then mret None else
    match paged s, paged_layout s with
    | Some st, Some lay =>
      _ ← put (with_active (delete seq_id (active c)) c);
      let retained := layers st ≫= block_ids in
      failed ← (match paged_pool c with
                | Some _ => on_paged_pool (pin_blocks retained retained)
                | None => mret None
                end);
      match failed with
      | Some _ => _ ← insert_active seq_id s; mret None
      | None =>
        let handles := clone_handle <$> caches s in
        c ← get;
        let '(pages, kept) := match paged_pool c with
                              | Some p => lift_sidecars (cache_mode lay) retained (turbo_sidecars p)
                              | None => (no_sidecars, no_sidecars)
                              end in
        _ ← put (with_pool (with_sidecars kept <$> paged_pool c) c);
        let real := p ← paged_pool c;
                    real_bytes (length (layers st))
                      (λ l, length (default [] (block_ids <$> layers st !! l))) p in
        mret (Some (mkDetached handles st lay (backend s) (prompt_len s) (current_offset s) seq_id
                      (Some retained) real pages))
      end
    | _, _ => mret None
    end
  end.

(** ** Releasing *)

(** The outcome of the releases: the number of refusals and the first of them. *)
Fixpoint release_counting (bs : list N) : M PagedBlockPool pool_error (list (N * pool_error)) :=
  match bs with
  | [] => mret []
  | b :: r => λ p,
    match release_block b p with
    | (p', Ok _) => release_counting r p'
    | (p', Err e) => (es ← release_counting r; mret ((b, e) :: es)) p'
    | (p', Panic) => (p', Panic)
    end
  end.

Inductive ReleaseError :=
  | PoolUnavailable
  | Partial (failed : nat) (first : N * pool_error).

Definition release_detached_paged (d : DetachedPagedCacheSet) : C (option ReleaseError) :=
  match retained_blocks d with
  | None => mret None
  | Some blocks =>
    c ← get;
    match paged_pool c with
    | None => mret (Some PoolUnavailable)
    | Some _ =>
      pins ← on_paged_pool (release_counting blocks);
      allocs ← on_paged_pool (release_counting (layers (d_state d) ≫= block_ids));
      match pins ++ allocs with
      | [] => mret None
      | e :: es => mret (Some (Partial (S (length es)) e))
      end
    end
  end.

(** ** Adopting *)

Definition ensure_paged_pool_from_layout (lay : PagedKvLayout) : C unit :=
  c ← get;
  match paged_pool c with
  | Some p => if decide (layout p ≠ lay) then throw LayoutMismatch else mret tt
  | None => put (with_pool (Some (pool_new lay)) c)
  end.

(** Reinstalls one map of pages, a refusal is logged and skipped. *)
Fixpoint install_pages {A} (install : N → A → M PagedBlockPool pool_error unit) (pages : list (N * A)) :
    M PagedBlockPool pool_error unit :=
  match pages with
  | [] => mret tt
  | (b, a) :: r => _ ← ignore (install b a); install_pages install r
  end.

Definition reinstall_sidecars (s : Sidecars) : M PagedBlockPool pool_error unit :=
  _ ← install_pages install_v_packed (map_to_list (v_packed s));
  _ ← install_pages install_v_norms (map_to_list (v_norms s));
  _ ← install_pages install_k_packed (map_to_list (k_packed s));
  _ ← install_pages install_k_norms (map_to_list (k_norms s));
  install_pages install_cold_keys (map_to_list (cold_keys s)).

Definition adopt_paged_preserving (model : LanguageModel) (d : DetachedPagedCacheSet) : C N :=
  _ ← guard_m (bool_decide (d_backend d = PagedKvCache)) WrongBackend;
  c ← get;
  _ ← guard_m (match paged_pool c with Some p => bool_decide (layout p = d_layout d) | None => true end)
        LayoutMismatch;
  _ ← guard_m (bool_decide (size (active c) < max_sequences c)) (MaxCapacity (max_sequences c));
  _ ← ensure_paged_pool_from_layout (d_layout d);
  id ← fresh_id;
  let live := if pool_backed model (d_layout d)
              then imap (λ l h, with_offset (handle_offset h) (new_paged l)) (d_caches d)
              else from_detached <$> d_caches d in
  _ ← insert_active id (mkSet (d_backend d) live (Some (d_state d)) (d_prompt_len d) (d_offset d)
                          (Some (d_layout d)));
  _ ← (if is_turbo (cache_mode (d_layout d)) then on_paged_pool (reinstall_sidecars (d_pages d)) else mret tt);
  _ ← (match retained_blocks d with
       | Some bs => on_paged_pool (release_all bs)
       | None => mret tt
       end);
  mret id.

(** On failure the set's references are given back. *)
Definition adopt_paged (model : LanguageModel) (d : DetachedPagedCacheSet) : C N :=
  on_err (adopt_paged_preserving model d) (λ e, _ ← release_detached_paged d; throw e).

(** ** Parking *)

Definition park_detached_paged (d : DetachedPagedCacheSet) : C N :=
  h ← fresh_id;
  _ ← modify (λ c, with_detached (<[h := ParkedPaged d]> (detached c)) c);
  mret h.

Definition peek_parked_paged (h : N) (c : CachePool) : option DetachedPagedCacheSet :=
  match detached c !! h with Some (ParkedPaged d) => Some d | _ => None end.

Definition take_parked_paged (h : N) : C (option DetachedPagedCacheSet) :=
  c ← get;
  match detached c !! h with
  | Some (ParkedPaged d) => _ ← put (with_detached (delete h (detached c)) c); mret (Some d)
  | _ => mret None
  end.

Definition adopt_parked_paged (model : LanguageModel) (h : N) : C N :=
  c ← get;
  match detached c !! h with
  | Some (ParkedPaged d) => _ ← put (with_detached (delete h (detached c)) c); adopt_paged model d
  | Some (ParkedDense _) => throw (DenseSet h)
  | None => throw (UnknownHandle h)
  end.

(** ** Cloning and trimming *)

(** Pins each block twice; on the first refusal every pin taken is dropped. *)
Fixpoint pin_twice (todo pinned : list N) : M PagedBlockPool pool_error unit :=
  match todo with
  | [] => mret tt
  | b :: rest =>
    let undo (bs : list N) (e : pool_error) := _ ← release_all (reverse bs); throw e in
    _ ← on_err (retain_block b) (undo pinned);
    _ ← on_err (retain_block b) (undo (pinned ++ [b]));
    pin_twice rest (pinned ++ [b; b])
  end.

Definition no_sliding_window (d : DetachedPagedCacheSet) : bool :=
  forallb (λ s, bool_decide (logical_start s = 0)) (layers (d_state d)).

(** The new table: the first [keep] blocks of each layer. Slicing past the end of
    a layer's table panics, as does indexing a layer the layout does not have. *)
Definition clone_state (lay : PagedKvLayout) (ls : list PagedLayerState) (keep target : nat) :
    option PagedSequenceState :=
  if decide (num_layers lay < length ls ∨ Exists (λ s, length (block_ids s) < keep) ls) then None else
  Some (mkSeqState (block_size lay)
          (((λ s, mkLayerState (take keep (block_ids s)) target 0) <$> ls)
           ++ replicate (num_layers lay - length ls) layer_state_new)).

Definition clone_detached_paged_prefix (d : DetachedPagedCacheSet) (target : nat) : C DetachedPagedCacheSet :=
  _ ← guard_m (bool_decide (d_backend d = PagedKvCache)) WrongBackend;
  _ ← guard_m (negb (is_turbo (cache_mode (d_layout d)))) TurboUnsupported;
  let bs := block_size (d_layout d) in
  if decide (bs = 0 ∨ target = 0 ∨ target `mod` bs ≠ 0) then throw (BadTarget target bs) else
  if decide (set_seq_len d < target) then throw (TargetTooLong target (set_seq_len d)) else
  _ ← guard_m (no_sliding_window d) SlidingWindow;
  _ ← guard_m (bool_decide (is_Some (retained_blocks d))) NoPins;
  c ← get;
  _ ← ok_or (paged_pool c) NotInitialized;
  handles ← ok_or (mapM (pool_backed_handle_clone (i32 target)) (d_caches d)) DenseHandles;
  let keep := target `div` bs in
  st ← index (clone_state (d_layout d) (layers (d_state d)) keep target);
  let retained := layers st ≫= block_ids in
  _ ← on_paged_pool (pin_twice retained []);
  c ← get;
  let real := p ← paged_pool c; real_bytes (length (layers st)) (λ _, keep) p in
  mret (mkDetached handles st (d_layout d) (d_backend d) (d_prompt_len d `min` target) (i32 target)
          (d_origin d) (Some retained) real no_sidecars).

(** The tail blocks of one layer, last first, each released twice. *)
Fixpoint drop_tail (n : nat) (bs : list N) : M PagedBlockPool pool_error (list N * list (N * pool_error)) :=
  match n with
  | 0 => mret (bs, [])
  | S n' =>
    match vec_pop bs with
    | None => mret (bs, [])
    | Some (b, rest) =>
      e1 ← release_counting [b; b];
      '(bs', e2) ← drop_tail n' rest;
      mret (bs', e1 ++ e2)
    end
  end.

Fixpoint drop_tails (keep target : nat) (ls : list PagedLayerState) :
    M PagedBlockPool pool_error (list PagedLayerState * list (N * pool_error)) :=
  match ls with
  | [] => mret ([], [])
  | s :: r =>
    '(bs, e1) ← drop_tail (length (block_ids s) - keep) (block_ids s);
    '(ls', e2) ← drop_tails keep target r;
    mret (mkLayerState bs target (logical_start s) :: ls', e1 ++ e2)
  end.

(** The bytes of the dropped blocks, at each layer's real block size. *)
Definition dropped_bytes (keep : nat) (ls : list PagedLayerState) (p : PagedBlockPool) : nat :=
  sum_list (imap (λ l s, (length (block_ids s) - keep) * default 0 (real_block_bytes l p)) ls).

(** [&mut set]: the refusals of the checks leave the set alone; a refused release
    is reported with the set already trimmed. The [debug_assert!] on the handles'
    offsets is not modelled. *)
Definition trim_detached_paged_to (d : DetachedPagedCacheSet) (target : nat) :
    C (DetachedPagedCacheSet * option (N * pool_error)) :=
  _ ← guard_m (bool_decide (d_backend d = PagedKvCache)) WrongBackend;
  _ ← guard_m (negb (is_turbo (cache_mode (d_layout d)))) TurboUnsupported;
  let bs := block_size (d_layout d) in
  if decide (bs = 0 ∨ target `mod` bs ≠ 0) then throw (BadTarget target bs) else
  if decide (set_seq_len d < target) then throw (TargetTooLong target (set_seq_len d)) else
  _ ← guard_m (no_sliding_window d) SlidingWindow;
  if decide (target = set_seq_len d) then mret (d, None) else
  retained ← ok_or (retained_blocks d) NoPins;
  c ← get;
  p ← ok_or (paged_pool c) NotInitialized;
  let keep := target `div` bs in
  let ls := layers (d_state d) in
  '(ls', errs) ← on_paged_pool (drop_tails keep target ls);
  let dropped := ls ≫= λ s, drop keep (block_ids s) in
  let d' := mkDetached (with_handle_offset (i32 target) <$> d_caches d)
              (mkSeqState (seq_block_size (d_state d)) ls') (d_layout d) (d_backend d)
              (d_prompt_len d `min` target) (d_offset d `min` i32 target)%Z (d_origin d)
              (Some (filter (λ b, b ∉ dropped) retained))
              ((λ b, b - dropped_bytes keep ls p) <$> real_pool_bytes d) (d_pages d) in
  mret (d', head errs).
End detach.
