(* ===== verification/CachePoolInv.v ===== *)
(** * References across the cache pool

    Every reference to a block is held by exactly one owner: an entry of an active
    sequence's block table, an entry of a detached set's table, or a pin of a
    detached set. [cp_inv] says that the block pool's counts are the numbers of
    those owners, and every operation of the cache pool keeps it. *)

From S2P Require Import Prelude Mlx PagedPool PagedPoolInv PagedPoolData PagedPrefill PagedGather PagedContract.
From S2P Require Import CachePool PagedDetach.

(** ** References held by the values of a map *)

Definition map_refs {V} (f : V → list N) (m : gmap N V) : list N := map_to_list m ≫= λ x, f x.2.

Section map_refs.
Context {V : Type} (f : V → list N).
Implicit Types (m : gmap N V).

Lemma map_refs_insert m i v : m !! i = None → map_refs f (<[i := v]> m) ≡ₚ f v ++ map_refs f m.
Proof. intros H. unfold map_refs. by rewrite map_to_list_insert by done. Qed.

Lemma map_refs_delete m i v : m !! i = Some v → map_refs f m ≡ₚ f v ++ map_refs f (delete i m).
Proof. intros H. unfold map_refs. by rewrite <- (map_to_list_delete m i v H). Qed.

Lemma map_refs_update m i v' : map_refs f (<[i := v']> m) ≡ₚ f v' ++ map_refs f (delete i m).
Proof. rewrite <- insert_delete_eq. apply map_refs_insert. apply lookup_delete_eq. Qed.
End map_refs.

Section inv.
Context {X : Mlx} {KH : KvHandles}.
Implicit Types (c : CachePool) (d : DetachedPagedCacheSet) (p : PagedBlockPool).

Definition seq_refs (s : SequenceCacheSet) : list N :=
  match paged s with Some st => ids st | None => [] end.

Definition set_refs d : list N :=
  match retained_blocks d with Some r => ids (d_state d) ++ r | None => [] end.

Definition parked_refs (x : ParkedCache) : list N :=
  match x with ParkedPaged d => set_refs d | ParkedDense _ => [] end.

(** All references, with the sets [ext] held by the callers. *)
Definition refs c (ext : list DetachedPagedCacheSet) : list N :=
  map_refs seq_refs (active c) ++ map_refs parked_refs (detached c) ++ (ext ≫= set_refs).

(** A detached set pins each block of its table once, on top of the table's own
    reference. *)
Record set_ok d : Prop := {
  so_retained : ∃ r, retained_blocks d = Some r ∧ r ≡ₚ ids (d_state d);
  so_nodup : NoDup (ids (d_state d));
  so_backend : d_backend d = PagedKvCache;
  so_bs : 0 < block_size (d_layout d);
}.

Record cp_inv c (ext : list DetachedPagedCacheSet) : Prop := {
  ci_pool : match paged_pool c with Some p => pool_inv p (refs c ext) | None => refs c ext = [] end;
  ci_seqs id s st : active c !! id = Some s → paged s = Some st → NoDup (ids st);
  ci_layouts id s lay : active c !! id = Some s → paged_layout s = Some lay → 0 < block_size lay;
  ci_parked h d : detached c !! h = Some (ParkedPaged d) → set_ok d;
  ci_ext d : d ∈ ext → set_ok d;
  ci_active_ids id : is_Some (active c !! id) → (id < next_id c)%N;
  ci_parked_ids h : is_Some (detached c !! h) → (h < next_id c)%N;
}.

Lemma set_refs_ok d : set_ok d → set_refs d ≡ₚ ids (d_state d) ++ ids (d_state d).
Proof. intros [(r & Hr & Hp) _ _ _]. unfold set_refs. rewrite Hr. by rewrite Hp at 1. Qed.

(** ** Pool operations seen from an owner *)

(** [release_all] of references that are held. *)
Lemma release_all_spec bs own : ∀ p, pool_inv p (bs ++ own) →
  ∃ p', release_all bs p = (p', Ok tt) ∧ pool_inv p' own ∧ kept p p' own.
Proof.
  induction bs as [|b bs IH]; intros p Hi; [exists p; split_and!; [done|done|apply kept_refl]|].
  destruct (release_block_spec b p (bs ++ own) Hi) as (p1 & Hrel & Hi1 & Hk1).
  assert (kept p p1 (bs ++ own)) as Hk by done.
  destruct (IH p1 Hi1) as (p' & Hrun & Hi' & Hk'). exists p'. split_and!; [|done|].
  - cbn [release_all]. unfold mbind, M_bind, ignore. by rewrite Hrel.
  - eapply kept_trans; [exact Hk|exact Hk'|]. intros. set_solver.
Qed.

Lemma release_counting_spec bs own : ∀ p, pool_inv p (bs ++ own) →
  ∃ p', release_counting bs p = (p', Ok []) ∧ pool_inv p' own ∧ kept p p' own.
Proof.
  induction bs as [|b bs IH]; intros p Hi; [exists p; split_and!; [done|done|apply kept_refl]|].
  destruct (release_block_spec b p (bs ++ own) Hi) as (p1 & Hrel & Hi1 & Hk1).
  assert (kept p p1 (bs ++ own)) as Hk by done.
  destruct (IH p1 Hi1) as (p' & Hrun & Hi' & Hk'). exists p'. split_and!; [|done|].
  - cbn [release_counting]. by rewrite Hrel.
  - eapply kept_trans; [exact Hk|exact Hk'|]. intros. set_solver.
Qed.

(** Pinning blocks that are held: never refused. *)
Definition pinned p p' : Prop := stores p' = stores p ∧ layout p' = layout p ∧ same_layers p p'.

Lemma pin_blocks_spec all bs : ∀ own p,
  pool_inv p own → (∀ b, b ∈ bs → b ∈ own) → (N.of_nat (length (bs ++ own)) < u32_max)%N →
  ∃ p', pin_blocks all bs p = (p', Ok None) ∧ pool_inv p' (bs ++ own) ∧ pinned p p'.
Proof.
  induction bs as [|b bs IH]; intros own p Hi Hin Hsm; [by exists p|].
  rewrite length_app in Hsm. cbn in Hsm.
  pose proof (retain_block_spec b p own Hi ltac:(lia)) as Hr. rewrite decide_True in Hr by (apply Hin; by left).
  destruct Hr as (p1 & Hret & Hi1 & Hs1 & Hl1 & Hy1).
  destruct (IH (b :: own) p1 Hi1) as (p' & Hrun & Hi' & Hs' & Hl' & Hy').
  - intros b' Hb'. right. apply Hin. by right.
  - rewrite length_app. cbn. lia.
  - exists p'. cbn [pin_blocks]. rewrite Hret. split_and!; [done| |split_and!; [congruence|congruence|]].
    + by rewrite <- Permutation_middle in Hi'.
    + intros b'. by rewrite (Hy' b'), (Hy1 b').
Qed.

Lemma pin_twice_spec bs : ∀ done_ own p,
  pool_inv p own → (∀ b, b ∈ bs → b ∈ own) → (N.of_nat (length (bs ++ bs ++ own)) < u32_max)%N →
  ∃ p', pin_twice bs done_ p = (p', Ok tt) ∧ pool_inv p' (bs ++ bs ++ own) ∧ pinned p p'.
Proof.
  induction bs as [|b bs IH]; intros done_ own p Hi Hin Hsm; [by exists p|].
  rewrite !length_app in Hsm. cbn in Hsm. cbn [pin_twice].
  pose proof (retain_block_spec b p own Hi ltac:(lia)) as Hr. rewrite decide_True in Hr by (apply Hin; by left).
  destruct Hr as (p1 & Hret & Hi1 & Hs1 & Hl1 & Hy1).
  pose proof (retain_block_spec b p1 (b :: own) Hi1 ltac:(cbn; lia)) as Hr. rewrite decide_True in Hr by (by left).
  destruct Hr as (p2 & Hret2 & Hi2 & Hs2 & Hl2 & Hy2).
  destruct (IH (done_ ++ [b; b]) (b :: b :: own) p2 Hi2) as (p' & Hrun & Hi' & Hs' & Hl' & Hy').
  - intros b' Hb'. do 2 right. apply Hin. by right.
  - rewrite !length_app. cbn. lia.
  - exists p'. unfold mbind, M_bind, on_err. rewrite Hret, Hret2. split_and!; [done| |split_and!; [congruence|congruence|]].
    + rewrite <- !Permutation_middle in Hi'. cbn. rewrite <- Permutation_middle. done.
    + intros b'. by rewrite (Hy' b'), (Hy2 b'), (Hy1 b').
Qed.

(** Releasing a whole sequence. *)
Lemma release_sequence_spec own p st :
  pool_inv p (ids st ++ own) →
  ∃ p' st', release_sequence (p, st) = ((p', st'), Ok tt) ∧ pool_inv p' own ∧ kept p p' own ∧ ids st' = [] ∧
    layers st' = replicate (length (layers st)) layer_state_new.
Proof.
  intros Hi. unfold release_sequence, get_seq. unfold mbind at 1, M_bind at 1.
  destruct (release_layers_spec (length (layers st)) own 0 p st Hi ltac:(lia) ltac:(lia))
    as (p' & st' & Hrun & Hi' & Hk & Hlen & _ & Hnew & _).
  exists p', st'. cbn [snd]. split_and!; try done.
  - unfold ids. apply elem_of_nil_inv. intros b (ls & Hb & [i Hi0]%list_elem_of_lookup_1)%list_elem_of_bind.
    rewrite (Hnew i ls) in Hb by (done || lia). by apply not_elem_of_nil in Hb.
  - apply list_eq. intros i. destruct (layers st' !! i) as [ls|] eqn:E.
    + rewrite (Hnew i ls) by (done || lia). symmetry. apply lookup_replicate_2.
      rewrite <- Hlen. by eapply lookup_lt_Some.
    + symmetry. apply lookup_ge_None. rewrite length_replicate, <- Hlen. by apply lookup_ge_None.
Qed.
(** ** Changing one sequence *)

(** A sequence operation that keeps the references it does not own. *)
Definition keeps_refs {A} (n : nat) (f : M (PagedBlockPool * PagedSequenceState) pool_error A) : Prop :=
  ∀ p st own, pool_inv p (ids st ++ own) → NoDup (ids st) →
    (N.of_nat (length (ids st ++ own) + n) < u32_max)%N →
    ∃ p' st' r, f (p, st) = ((p', st'), r) ∧ pool_inv p' (ids st' ++ own) ∧ NoDup (ids st') ∧
      length (ids st') ≤ length (ids st) + n ∧ r ≠ Panic ∧ length (layers st') = length (layers st).

Lemma ids_append l st ls new n k :
  layers st !! l = Some ls → ids (set_layer l (mkLayerState (block_ids ls ++ new) n k) st) ≡ₚ new ++ ids st.
Proof.
  intros Hl. erewrite (ids_split l (set_layer _ _ _)) by (by eapply set_layer_lookup).
  rewrite other_ids_set_layer, (ids_split l st ls Hl). cbn.
  rewrite (Permutation_app_comm (block_ids ls) new). by rewrite <- app_assoc.
Qed.

Lemma length_set_layer l ls st : length (layers (set_layer l ls st)) = length (layers st).
Proof. apply length_insert. Qed.

Lemma layer_missing l p st : layers st !! l = None →
  layer l (p, st) = ((p, st), Err (LayerOutOfRange l (length (layers st)))).
Proof. intros H. unfold layer, get_seq, mbind, M_bind, ok_or. cbn. by rewrite H. Qed.

(** The bound is the layer's length after the append. *)
Lemma append_tokens_keeps l n m p st own :
  pool_inv p (ids st ++ own) → NoDup (ids st) →
  (∀ ls, layers st !! l = Some ls → len ls + n ≤ m) → (N.of_nat (length (ids st ++ own) + m) < u32_max)%N →
  ∃ p' st' r, append_tokens l n (p, st) = ((p', st'), r) ∧ pool_inv p' (ids st' ++ own) ∧ NoDup (ids st') ∧
    length (ids st') ≤ length (ids st) + m ∧ r ≠ Panic ∧ length (layers st') = length (layers st) ∧
    (∀ i, i ≠ l → layers st' !! i = layers st !! i).
Proof.
  intros Hi Hnd Hm Hsm. destruct (layers st !! l) as [ls|] eqn:Hl.
  2: { exists p, st. eexists. unfold append_tokens, mbind at 1, M_bind at 1. rewrite (layer_missing l p st Hl).
       split_and!; try done. lia. }
  specialize (Hm ls eq_refl). destruct (decide (n = 0)) as [->|Hn].
  { exists p, st. eexists. unfold append_tokens. rewrite (M_bind_eq _ _ _ _ _ (layer_eq l p st ls Hl)).
    rewrite decide_True by done. split_and!; try done. lia. }
  destruct (append_tokens_spec l n p st ls own Hi Hl ltac:(lia) ltac:(lia))
    as (p' & st1 & r & new & [A1 A2 A3 A4 A5 A6 A7 A8 A9] & Hr & Hrun & Hi').
  set (st' := match r with Ok _ => _ | _ => st1 end) in *.
  assert (∃ k, st' = set_layer l (mkLayerState (block_ids ls ++ new) k (logical_start ls)) st) as (k & Est).
  { unfold st'. destruct r; eauto. }
  assert (ids st' ≡ₚ new ++ ids st) as Hids by (rewrite Est; by apply ids_append).
  exists p', st', r. split_and!; try done.
  - rewrite Hids. apply NoDup_app. split_and!; [done| |done].
    intros b Hb Hb'. apply (A5 b Hb). apply elem_of_app. by left.
  - rewrite Hids, length_app. pose proof (pi_bs _ _ Hi) as Hbs.
    pose proof (proj1 (div_ceil_le (len ls + n) (block_size (layout p)) (len ls + n) Hbs) ltac:(nia)). lia.
  - by destruct r.
  - rewrite Est. apply length_set_layer.
  - intros i Hil. rewrite Est. cbn. by apply list_lookup_insert_ne.
Qed.

(** Trimming needs no relation between the table and the length. *)
Lemma trim_tokens_keeps l n p st own :
  pool_inv p (ids st ++ own) → NoDup (ids st) →
  ∃ p' st' r, trim_tokens l n (p, st) = ((p', st'), r) ∧ pool_inv p' (ids st' ++ own) ∧ NoDup (ids st') ∧
    length (ids st') ≤ length (ids st) ∧ r ≠ Panic ∧ length (layers st') = length (layers st) ∧
    (∀ i, i ≠ l → layers st' !! i = layers st !! i).
Proof.
  intros Hi Hnd. unfold trim_tokens. destruct (layers st !! l) as [ls|] eqn:Hl.
  2: { exists p, st. eexists. unfold mbind at 1, M_bind at 1. rewrite (layer_missing l p st Hl). done. }
  rewrite (M_bind_eq _ _ _ _ _ (layer_eq l p st ls Hl)).
  case_decide; [by exists p, st, (Ok 0)|]. cbn zeta. case_decide; [by exists p, st, (Ok 0)|].
  set (k := n `min` _). set (ls1 := if decide (len ls - k = _) then _ else _).
  assert (∃ a b, ls1 = mkLayerState (block_ids ls) a b) as (a & b & Els) by (unfold ls1; case_decide; eauto).
  rewrite Els. set (st1 := set_layer l (mkLayerState (block_ids ls) a b) st).
  assert (ids st1 = ids st) as Hids by (by apply ids_set_layer_meta).
  assert (layers st1 !! l = Some (mkLayerState (block_ids ls) a b)) as Hl1 by (by eapply set_layer_lookup).
  unfold mbind at 1, M_bind at 1, put_layer at 1. fold st1. unfold mbind at 1, M_bind at 1, get at 1.
  set (m := length _ - div_ceil _ _). rewrite <- Hids in Hi.
  destruct (release_loop_spec m l own p st1 _ Hi Hl1) as (p' & Hrun & Hi' & _); [unfold m; cbn; lia|].
  cbn zeta in *. set (st2 := set_layer l _ st1) in *.
  unfold mbind at 1, M_bind at 1. rewrite Hrun. exists p', st2, (Ok k).
  assert (ids st2 ⊆+ ids st1) as Hsub.
  { rewrite (ids_split l st1 _ Hl1). erewrite (ids_split l st2) by (by eapply set_layer_lookup).
    unfold st2. rewrite other_ids_set_layer. apply submseteq_skips_r, sublist_submseteq. apply sublist_take. }
  split_and!; try done.
  - rewrite <- Hids in Hnd. apply submseteq_Permutation in Hsub as [k' Hk']. rewrite Hk' in Hnd.
    by apply NoDup_app in Hnd as [? _].
  - rewrite <- Hids. by apply submseteq_length.
  - unfold st2, st1. by rewrite !length_set_layer.
  - intros i Hil. unfold st2, st1. cbn. rewrite !list_lookup_insert_ne by done. done.
Qed.
Lemma sync_layers_keeps targets : ∀ l p st own,
  pool_inv p (ids st ++ own) → NoDup (ids st) → l + length targets = length (layers st) →
  (N.of_nat (length (ids st ++ own) + sum_list targets) < u32_max)%N →
  ∃ p' st' r, sync_layers targets l (p, st) = ((p', st'), r) ∧ pool_inv p' (ids st' ++ own) ∧ NoDup (ids st') ∧
    length (ids st') ≤ length (ids st) + sum_list targets ∧ r ≠ Panic ∧
    length (layers st') = length (layers st).
Proof.
  induction targets as [|t targets IH]; intros l p st own Hi Hnd Hlen Hsm.
  { exists p, st, (Ok tt). split_and!; try done. cbn. lia. }
  change (sum_list (t :: targets)) with (t + sum_list targets) in *. cbn [length] in Hlen. cbn [sync_layers].
  destruct (lookup_lt_is_Some_2 (layers st) l) as [ls Hl]; [lia|].
  unfold mbind at 1, M_bind at 1, get at 1. cbn beta iota.
  unfold mbind at 1, M_bind at 1. rewrite Hl. cbn [index mret M_ret].
  set (f := if decide (len ls < t) then _ else _).
  assert (∃ p1 st1 r1, f (p, st) = ((p1, st1), r1) ∧ pool_inv p1 (ids st1 ++ own) ∧ NoDup (ids st1) ∧
    length (ids st1) ≤ length (ids st) + t ∧ r1 ≠ Panic ∧ length (layers st1) = length (layers st))
    as (p1 & st1 & r1 & Hrun & Hi1 & Hnd1 & Hle1 & Hr1 & Hl1).
  { unfold f. case_decide as H1.
    - destruct (append_tokens_keeps l (t - len ls) t p st own Hi Hnd) as (p1 & st1 & r1 & H2).
      { intros ls' Hls'. rewrite Hl in Hls'. injection Hls' as <-. lia. }
      { lia. }
      exists p1, st1, r1. naive_solver.
    - case_decide as H2; [|exists p, st, (Ok tt); split_and!; try done; lia].
      destruct (trim_tokens_keeps l (len ls - t) p st own Hi Hnd) as (p1 & st1 & r1 & H3 & H4 & H5 & H6 & H7 & H8 & _).
      unfold mbind, M_bind. rewrite H3. exists p1, st1. destruct r1; [eexists|eexists|done]; split_and!; try done; lia. }
  unfold mbind at 1, M_bind at 1. rewrite Hrun. rewrite length_app in Hsm.
  destruct r1 as [[]|e|]; [| |done].
  - destruct (IH (S l) p1 st1 own) as (p' & st' & r & H2 & H3 & H4 & H5 & H6 & H7); [done|done|lia|rewrite length_app; lia|].
    exists p', st', r. split_and!; try done; lia.
  - exists p1, st1, (Err e). split_and!; try done. lia.
Qed.

(** ** The cache pool *)

Definition room c ext (n : nat) : Prop := (N.of_nat (length (refs c ext) + n) < u32_max)%N.
Arguments room : simpl never.

Lemma refs_active c ext id s :
  active c !! id = Some s →
  refs c ext ≡ₚ seq_refs s ++ map_refs seq_refs (delete id (active c)) ++ map_refs parked_refs (detached c) ++
                (ext ≫= set_refs).
Proof. intros Hs. unfold refs. rewrite (map_refs_delete seq_refs _ id s Hs). by rewrite <- app_assoc. Qed.

Lemma refs_update c ext id s' (op : option PagedBlockPool) :
  refs (with_active (<[id := s']> (active c)) (with_pool op c)) ext ≡ₚ
    seq_refs s' ++ map_refs seq_refs (delete id (active c)) ++ map_refs parked_refs (detached c) ++
    (ext ≫= set_refs).
Proof. unfold refs. cbn. rewrite map_refs_update. by rewrite <- app_assoc. Qed.

(** Replacing the table of a sequence. *)
Lemma update_sequence_inv c ext id s st' p' :
  cp_inv c ext → active c !! id = Some s →
  pool_inv p' (ids st' ++ map_refs seq_refs (delete id (active c)) ++ map_refs parked_refs (detached c) ++
                 (ext ≫= set_refs)) →
  NoDup (ids st') →
  cp_inv (with_active (<[id := set_paged (Some st') s]> (active c)) (with_pool (Some p') c)) ext.
Proof.
  intros [C1 C2 CL C3 C4 C5 C6] Hs Hi Hnd. split; cbn; try done.
  - by rewrite refs_update.
  - intros id' s' st. rewrite lookup_insert. case_decide; [|by apply C2]. intros; simplify_eq/=. done.
  - intros id' s' lay. rewrite lookup_insert. case_decide; [|by apply CL]. intros; simplify_eq/=. by eapply CL.
  - intros id'. rewrite lookup_insert. case_decide; [|by apply C5]. intros _. subst id'. apply C5. by eexists.
Qed.

Lemma with_pool_and_state_inv {A} id (f : M (PagedBlockPool * PagedSequenceState) pool_error A) c ext n :
  cp_inv c ext → room c ext n →
  (∀ p s st own, paged_pool c = Some p → active c !! id = Some s → paged s = Some st →
     pool_inv p (ids st ++ own) → NoDup (ids st) → (N.of_nat (length (ids st ++ own) + n) < u32_max)%N →
     ∃ p' st' r, f (p, st) = ((p', st'), r) ∧ pool_inv p' (ids st' ++ own) ∧ NoDup (ids st') ∧ r ≠ Panic) →
  ∃ c' r, with_pool_and_state id f c = (c', r) ∧ cp_inv c' ext ∧ r ≠ Panic.
Proof.
  intros Hc Hroom Hf. pose proof Hc as [C1 C2 _ _ _ _ _]. unfold with_pool_and_state.
  destruct (paged_pool c) as [p|] eqn:Hp; [|by eexists _, _].
  destruct (active c !! id) as [s|] eqn:Hs; [|by eexists _, _].
  destruct (paged s) as [st|] eqn:Hst; [|by eexists _, _].
  pose proof (refs_active c ext id s Hs) as Hrefs. unfold seq_refs at 1 in Hrefs. rewrite Hst in Hrefs.
  unfold room in Hroom. rewrite Hrefs in C1, Hroom.
  destruct (Hf p s st _ eq_refl eq_refl Hst C1 (C2 id s st Hs Hst) Hroom) as (p' & st' & r & -> & Hi' & Hnd & Hr).
  eexists _, _. split; [done|]. split; [by apply update_sequence_inv|]. by destruct r.
Qed.
(** A budget does not touch the references. *)
Lemma pool_inv_budget p own max : pool_inv p own → pool_inv (set_block_budget max p) own.
Proof. intros [H1 H2 H3 H4 H5 H6 H7 H8 H9]. by split. Qed.

Lemma pool_inv_sidecars p own sc : pool_inv p own → pool_inv (with_sidecars sc p) own.
Proof. intros [H1 H2 H3 H4 H5 H6 H7 H8 H9]. by split. Qed.

Definition ids_left c : Prop := (next_id c + 1 < 18446744073709551616)%N.

Lemma as_u64_next c : ids_left c → as_u64 (next_id c + 1) = (next_id c + 1)%N.
Proof. intros H. unfold as_u64. by apply N.mod_small. Qed.

Lemma fresh_id_eq c : ids_left c → fresh_id c = (with_next (next_id c + 1) c, Ok (next_id c)).
Proof. intros H. unfold fresh_id, mbind, M_bind, get, put. by rewrite as_u64_next. Qed.

Lemma fresh_not_active c ext : cp_inv c ext → active c !! next_id c = None ∧ detached c !! next_id c = None.
Proof.
  intros Hc. split; apply eq_None_not_Some; intros H.
  - apply (ci_active_ids _ _ Hc) in H. lia.
  - apply (ci_parked_ids _ _ Hc) in H. lia.
Qed.

(** A new sequence under a fresh id, with the references [own'] it takes over. *)
Lemma insert_fresh_inv c ext s op' :
  cp_inv c ext → ids_left c →
  (match op' with
   | Some p' => pool_inv p' (seq_refs s ++ refs c ext)
   | None => seq_refs s ++ refs c ext = []
   end) →
  (∀ st, paged s = Some st → NoDup (ids st)) →
  (∀ lay, paged_layout s = Some lay → 0 < block_size lay) →
  cp_inv (with_active (<[next_id c := s]> (active c)) (with_pool op' (with_next (next_id c + 1) c))) ext.
Proof.
  intros Hc Hid Hp Hnd Hlays. pose proof (fresh_not_active c ext Hc) as [Hf1 Hf2].
  pose proof Hc as [C1 C2 CL C3 C4 C5 C6].
  assert (refs (with_active (<[next_id c := s]> (active c)) (with_pool op' (with_next (next_id c + 1) c))) ext
    ≡ₚ seq_refs s ++ refs c ext) as Hr.
  { unfold refs. cbn. rewrite map_refs_insert by done. by rewrite <- app_assoc. }
  split; cbn; try done.
  - destruct op' as [p'|]; [by rewrite Hr|]. rewrite Hp in Hr. by apply Permutation_nil_r in Hr.
  - intros id' s' st. rewrite lookup_insert. case_decide; [|by apply C2]. intros; simplify_eq. by apply Hnd.
  - intros id' s' lay. rewrite lookup_insert. case_decide; [|by apply CL]. intros; simplify_eq. by apply Hlays.
  - intros id'. rewrite lookup_insert. case_decide; [lia|]. intros Hx%C5. lia.
  - intros h H%C6. lia.
Qed.

Lemma next_only_inv c ext : cp_inv c ext → ids_left c → cp_inv (with_next (next_id c + 1) c) ext.
Proof.
  intros [C1 C2 CL C3 C4 C5 C6] Hid. split; cbn; try done.
  - intros id H%C5. lia.
  - intros h H%C6. lia.
Qed.

(** The pool after [ensure_paged_pool]. *)
Definition ensured_pool (lay : PagedKvLayout) (budget : option nat) (op : option PagedBlockPool) : PagedBlockPool :=
  match op with Some p => p | None => set_block_budget budget (pool_new lay) end.

Lemma with_pool_id c : with_pool (paged_pool c) c = c.
Proof. by destruct c. Qed.

Lemma ensure_paged_pool_eq lay c :
  ensure_paged_pool lay c = (c, Err LayoutMismatch) ∨
  ensure_paged_pool lay c = (with_pool (Some (ensured_pool lay (paged_block_budget c) (paged_pool c))) c, Ok tt).
Proof.
  unfold ensure_paged_pool, mbind, M_bind, get, ensured_pool. destruct (paged_pool c) as [p|] eqn:Hp; [|by right].
  case_decide; [by left|]. right. by rewrite <- Hp, with_pool_id.
Qed.

Lemma ensured_pool_inv lay budget c ext own :
  cp_inv c ext → 0 < block_size lay → own ≡ₚ refs c ext →
  pool_inv (ensured_pool lay budget (paged_pool c)) own.
Proof.
  intros [C1 _ _ _ _ _ _] Hbs Hown. rewrite Hown. unfold ensured_pool. destruct (paged_pool c) as [p|]; [done|].
  rewrite C1. apply pool_inv_budget. by apply pool_new_inv.
Qed.

(** Fresh sequences own nothing. *)
Lemma seq_refs_new b cs lay : seq_refs (with_backend b cs (Some (sequence_new lay)) (Some lay)) = [].
Proof. apply ids_new. Qed.

Lemma allocate_inv model override c ext :
  cp_inv c ext → ids_left c →
  (∀ lay, layout_paged (default (sequence_state_layout model) override) = Some lay → 0 < block_size lay) →
  ∃ c' r, allocate_with_layout model override c = (c', r) ∧ cp_inv c' ext ∧
    match r with
    | Ok id => id = next_id c ∧ active c !! id = None ∧ is_Some (active c' !! id) ∧ next_id c' = (id + 1)%N
    | Err _ => True
    | Panic => False
    end.
Proof.
  intros Hc Hid Hbs. pose proof (fresh_not_active c ext Hc) as [Hf1 Hf2].
  unfold allocate_with_layout. set (L := default _ override) in *.
  unfold mbind at 1, M_bind at 1, get at 1. case_decide; [by eexists _, _|].
  unfold fresh_id. unfold mbind at 1, M_bind at 1, mbind at 1, M_bind at 1, get at 1.
  unfold mbind at 1, M_bind at 1, put at 1. rewrite (as_u64_next c Hid). cbn [mret M_ret].
  set (c1 := with_next (next_id c + 1) c).
  assert (∀ s, seq_refs s = [] → (∀ st, paged s = Some st → NoDup (ids st)) →
    (∀ lay, paged_layout s = Some lay → 0 < block_size lay) → ∀ op',
    match op' with Some p' => pool_inv p' (refs c ext) | None => refs c ext = [] end →
    cp_inv (with_active (<[next_id c := s]> (active c)) (with_pool op' c1)) ext) as Hins.
  { intros s Hs Hnd Hly op' Hp. apply insert_fresh_inv; try done. by rewrite Hs. }
  assert (∀ s c2, c2 = with_active (<[next_id c := s]> (active c)) (with_pool (paged_pool c2) c1) →
    seq_refs s = [] → (∀ st, paged s = Some st → NoDup (ids st)) →
    (∀ lay, paged_layout s = Some lay → 0 < block_size lay) →
    match paged_pool c2 with Some p' => pool_inv p' (refs c ext) | None => refs c ext = [] end →
    ∃ c' r, (c2, Ok (E := cache_error) (next_id c)) = (c', r) ∧ cp_inv c' ext ∧
      match r with
      | Ok id => id = next_id c ∧ active c !! id = None ∧ is_Some (active c' !! id) ∧ next_id c' = (id + 1)%N
      | Err _ => True | Panic => False end) as Hfin.
  { intros s c2 Hc2 Hs Hnd Hly Hp. exists c2, (Ok (next_id c)). split; [done|]. rewrite Hc2. split; [by apply Hins|].
    cbn. rewrite lookup_insert_eq. split_and!; try done. }
  pose proof Hc as [C1 _ _ _ _ _ _].
  unfold mbind at 1, M_bind at 1. destruct (layout_backend L).
  - cbn. eapply Hfin; done.
  - destruct (layout_paged L) as [lay|] eqn:Hlay.
    2: { cbn. eexists _, _. split; [done|]. split; [by apply next_only_inv|done]. }
    cbn [ok_or mret M_ret]. unfold mbind at 1, M_bind at 1. cbn [mret M_ret]. unfold mbind at 1, M_bind at 1.
    destruct (ensure_paged_pool_eq lay c1) as [->| ->]; cbn.
    { eexists _, _. split; [done|]. split; [by apply next_only_inv|done]. }
    eapply Hfin; [done|apply seq_refs_new| | |].
    + intros st [= <-]. rewrite ids_new. constructor.
    + intros lay' [= <-]. by apply Hbs.
    + eapply ensured_pool_inv; [done|by apply Hbs|done].
  - cbn. eapply Hfin; done.
Qed.
(** A sequence leaves; its references go to [ext'] or are gone. *)
Lemma remove_sequence_inv c ext ext' id s op' :
  cp_inv c ext → active c !! id = Some s →
  (match op' with
   | Some p' => pool_inv p' (map_refs seq_refs (delete id (active c)) ++ map_refs parked_refs (detached c) ++
                               (ext' ≫= set_refs))
   | None => map_refs seq_refs (delete id (active c)) ++ map_refs parked_refs (detached c) ++ (ext' ≫= set_refs) = []
   end) →
  (∀ d, d ∈ ext' → set_ok d) →
  cp_inv (with_pool op' (with_active (delete id (active c)) c)) ext'.
Proof.
  intros [C1 C2 CL C3 C4 C5 C6] Hs Hp Hext. split; cbn; try done.
  - intros id' s' st. rewrite lookup_delete. case_decide; [done|]. apply C2.
  - intros id' s' lay. rewrite lookup_delete. case_decide; [done|]. apply CL.
  - intros id'. rewrite lookup_delete. case_decide; [by intros [? ?]|]. apply C5.
Qed.

Lemma release_inv id c ext :
  cp_inv c ext → ∃ c', release id c = (c', Ok tt) ∧ cp_inv c' ext ∧ active c' = delete id (active c).
Proof.
  intros Hc. pose proof Hc as [C1 _ _ _ C4 _ _]. unfold release, mbind at 1, M_bind at 1, get at 1.
  destruct (active c !! id) as [s|] eqn:Hs.
  2: { exists c. split_and!; [done|done|]. by rewrite delete_id. }
  unfold mbind at 1, M_bind at 1, put at 1.
  pose proof (refs_active c ext id s Hs) as Hrefs.
  set (c1 := with_active (delete id (active c)) c).
  assert (∀ op', match op' with
    | Some p' => pool_inv p' (map_refs seq_refs (delete id (active c)) ++ map_refs parked_refs (detached c) ++ (ext ≫= set_refs))
    | None => map_refs seq_refs (delete id (active c)) ++ map_refs parked_refs (detached c) ++ (ext ≫= set_refs) = []
    end → cp_inv (with_pool op' c1) ext) as Hrem.
  { intros op' Hop. by eapply remove_sequence_inv. }
  destruct (paged_pool c) as [p|] eqn:Hp.
  - destruct (paged s) as [st|] eqn:Hst.
    + unfold seq_refs at 1 in Hrefs. rewrite Hst in Hrefs. rewrite Hrefs in C1.
      destruct (release_sequence_spec _ p st C1) as (p' & st' & Hrun & Hi' & _). rewrite Hrun.
      exists (with_pool (Some p') c1). split_and!; [done| |done]. by apply Hrem.
    + exists c1. split_and!; [done| |done]. change c1 with (with_pool (paged_pool c) c1) at 1.
      unfold seq_refs at 1 in Hrefs. rewrite Hst in Hrefs. rewrite Hrefs in C1.
      replace c1 with (with_pool (paged_pool c) c1) by done. apply Hrem. by rewrite Hp.
  - exists c1. split_and!; [by destruct (paged s)| |done].
    replace c1 with (with_pool (paged_pool c) c1) by done. apply Hrem. rewrite Hp.
    rewrite C1 in Hrefs. apply Permutation_nil_l in Hrefs. symmetry in Hrefs. by apply app_eq_nil in Hrefs as [_ ?].
Qed.

Lemma set_budget_inv max c ext :
  cp_inv c ext → ∃ c', set_paged_block_budget max c = (c', Ok tt) ∧ cp_inv c' ext.
Proof.
  intros [C1 C2 CL C3 C4 C5 C6]. eexists. split; [done|]. split; cbn; try done.
  destruct (paged_pool c) as [p|]; [|done]. cbn. by apply pool_inv_budget.
Qed.

(** ** Detaching *)

Lemma detach_inv id c ext s st lay :
  cp_inv c ext → active c !! id = Some s → backend s = PagedKvCache → paged s = Some st →
  paged_layout s = Some lay → room c ext (length (ids st)) →
  ∃ c' d, detach_paged id c = (c', Ok (Some d)) ∧ cp_inv c' (d :: ext) ∧ active c' = delete id (active c) ∧
    d_state d = st ∧ d_layout d = lay ∧ retained_blocks d = Some (ids st) ∧ d_backend d = PagedKvCache ∧
    d_prompt_len d = prompt_len s ∧ d_offset d = current_offset s ∧ next_id c' = next_id c ∧
    max_sequences c' = max_sequences c ∧ detached c' = detached c ∧
    (∀ p, paged_pool c = Some p → ∃ p', paged_pool c' = Some p' ∧ stores p' = stores p ∧ layout p' = layout p).
Proof.
  intros Hc Hs Hb Hst Hlay Hroom. pose proof Hc as [C1 C2 CL C3 C4 C5 C6].
  unfold detach_paged, mbind at 1, M_bind at 1, get at 1. rewrite Hs. rewrite decide_False by (by rewrite Hb; intros []).
  rewrite Hst, Hlay. unfold mbind at 1, M_bind at 1, put at 1. fold (ids st).
  set (c1 := with_active (delete id (active c)) c).
  pose proof (refs_active c ext id s Hs) as Hrefs. unfold seq_refs at 1 in Hrefs. rewrite Hst in Hrefs.
  set (rest := map_refs seq_refs (delete id (active c)) ++ map_refs parked_refs (detached c) ++ (ext ≫= set_refs)) in *.
  assert (∀ d, retained_blocks d = Some (ids st) → d_state d = st → d_backend d = PagedKvCache →
    d_layout d = lay → ∀ x, x ∈ d :: ext → set_ok x) as Hok.
  { intros d E1 E2 E3 E4 x [->|?]%elem_of_cons; [|by apply C4].
    split; [|by rewrite E2; eapply C2|done|rewrite E4; by eapply CL].
    exists (ids st). by rewrite E2. }
  assert (∀ d, retained_blocks d = Some (ids st) → d_state d = st →
    map_refs seq_refs (delete id (active c)) ++ map_refs parked_refs (detached c) ++ ((d :: ext) ≫= set_refs)
      ≡ₚ ids st ++ ids st ++ rest) as Hperm.
  { intros d E1 E2. cbn. unfold set_refs at 1. rewrite E1, E2. unfold rest. solve_Permutation. }
  destruct (paged_pool c) as [p|] eqn:Hp.
  - rewrite Hrefs in C1. unfold room in Hroom. rewrite Hrefs in Hroom.
    destruct (pin_blocks_spec (ids st) (ids st) (ids st ++ rest) p C1) as (p1 & Hrun & Hi1 & Hst1 & Hlay1 & _).
    { intros b Hb'. apply elem_of_app. by left. }
    { rewrite length_app. lia. }
    unfold mbind at 1, M_bind at 1, on_paged_pool. change (paged_pool c1) with (paged_pool c). rewrite Hp, Hrun.
    cbn [lift_pool]. unfold mbind at 1, M_bind at 1, get at 1. cbn [paged_pool with_pool].
    destruct (lift_sidecars (cache_mode lay) (ids st) (turbo_sidecars p1)) as [pages kept].
    unfold mbind at 1, M_bind at 1, put at 1. cbn [fmap option_fmap option_map paged_pool with_pool mret M_ret].
    eexists _, _. split; [done|]. cbn [d_state d_layout retained_blocks d_backend]. split_and!; try done.
    + eapply (remove_sequence_inv c ext); [done|done| |by apply Hok]. rewrite Hperm by done.
      by apply pool_inv_sidecars.
    + intros p0 [= <-]. by eexists.
  - rewrite C1 in Hrefs. apply Permutation_nil_l in Hrefs. symmetry in Hrefs.
    apply app_eq_nil in Hrefs as [Hn1 Hn2].
    unfold mbind at 1, M_bind at 1, mret at 1, M_ret at 1. unfold mbind at 1, M_bind at 1, get at 1.
    change (paged_pool c1) with (paged_pool c). rewrite Hp. unfold mbind at 1, M_bind at 1, put at 1. cbn.
    eexists _, _. split; [done|]. cbn. split_and!; try done.
    eapply (remove_sequence_inv c ext); [done|done| |by apply Hok].
    apply Permutation_nil_r. rewrite Hperm by done. by rewrite Hn1, Hn2.
Qed.
(** ** Sets held by callers *)

Definition same_but_pool c c' : Prop :=
  next_id c' = next_id c ∧ active c' = active c ∧ max_sequences c' = max_sequences c ∧
  detached c' = detached c ∧ paged_block_budget c' = paged_block_budget c.

Lemma with_pool_inv c ext ext' op' :
  cp_inv c ext →
  (match op' with
   | Some p' => pool_inv p' (refs c ext')
   | None => refs c ext' = []
   end) → (∀ d, d ∈ ext' → set_ok d) → cp_inv (with_pool op' c) ext'.
Proof. intros [C1 C2 CL C3 C4 C5 C6] Hp He. by split. Qed.

Lemma refs_ext c d ext : refs c (d :: ext) ≡ₚ set_refs d ++ refs c ext.
Proof. unfold refs. cbn. solve_Permutation. Qed.

Lemma release_detached_inv d c ext :
  cp_inv c (d :: ext) →
  ∃ c' r, release_detached_paged d c = (c', Ok r) ∧ cp_inv c' ext ∧ same_but_pool c c' ∧
    (is_Some (paged_pool c) → r = None).
Proof.
  intros Hc. pose proof Hc as [C1 C2 CL C3 C4 C5 C6]. destruct (C4 d ltac:(by left)) as [(r & Hr & Hp) _ _ _].
  assert (∀ x, x ∈ ext → set_ok x) as Hext by (intros; apply C4; by right).
  unfold release_detached_paged. rewrite Hr. unfold mbind at 1, M_bind at 1, get at 1.
  destruct (paged_pool c) as [p|] eqn:Hpool.
  2: { exists c, (Some PoolUnavailable). split_and!; try done.
       pose proof (with_pool_inv c (d :: ext) ext (paged_pool c) Hc) as Hw. rewrite with_pool_id in Hw.
       apply Hw; [|done]. rewrite Hpool. assert (set_refs d ++ refs c ext = []) as Hn by (apply Permutation_nil_r; by rewrite <- refs_ext, C1).
       by apply app_eq_nil in Hn as [_ ?]. }
  rewrite refs_ext in C1. unfold set_refs in C1. rewrite Hr in C1.
  rewrite (Permutation_app_comm (ids _) r), <- app_assoc in C1.
  destruct (release_counting_spec r _ p C1) as (p1 & Hrun1 & Hi1 & _).
  destruct (release_counting_spec (ids (d_state d)) _ p1 Hi1) as (p2 & Hrun2 & Hi2 & _).
  unfold mbind at 1, M_bind at 1, on_paged_pool at 1. rewrite Hpool, Hrun1. cbn [lift_pool].
  fold (ids (d_state d)). unfold mbind, M_bind, on_paged_pool. cbn [paged_pool with_pool]. rewrite Hrun2. cbn.
  exists (with_pool (Some p2) c), None. split_and!; done.
Qed.

Lemma install_pages_inv {B} (install : N → B → M PagedBlockPool pool_error unit) pages own : 
  (∀ b a p, ∃ sc r, install b a p = (with_sidecars sc p, r) ∧ r ≠ Panic) →
  ∀ p, pool_inv p own → ∃ sc, install_pages install pages p = (with_sidecars sc p, Ok tt).
Proof.
  intros Hin. induction pages as [|[b a] pages IH]; intros p Hi; cbn [install_pages].
  { exists (turbo_sidecars p). by destruct p. }
  unfold mbind, M_bind, ignore. destruct (Hin b a p) as (sc & r & -> & Hr).
  destruct (IH (with_sidecars sc p)) as (sc' & Hrun); [by apply pool_inv_sidecars|].
  destruct r; [exists sc'; exact Hrun|exists sc'; exact Hrun|done].
Qed.
Ltac install_tac :=
  let b := fresh "b" in let a := fresh "a" in let q := fresh "q" in
  intros b a q; unfold install_v_packed, install_v_norms, install_k_packed, install_k_norms, install_cold_keys,
    assert_turbo_mode, known_block, update_sidecars, guard_m, mbind, M_bind, get, modify; cbn;
  repeat (match goal with |- context [if ?t then _ else _] => destruct t end; cbn);
  solve [eexists (turbo_sidecars q), _; by destruct q | by eexists _, _].

Lemma reinstall_sidecars_inv s own p :
  pool_inv p own → ∃ sc, reinstall_sidecars s p = (with_sidecars sc p, Ok tt).
Proof.
  intros Hi. unfold reinstall_sidecars.
  destruct (install_pages_inv install_v_packed (map_to_list (v_packed s)) own ltac:(install_tac) p Hi) as (s1 & E1).
  rewrite (M_bind_eq _ _ _ _ _ E1). pose proof (pool_inv_sidecars _ _ s1 Hi) as H1.
  destruct (install_pages_inv install_v_norms (map_to_list (v_norms s)) own ltac:(install_tac) _ H1) as (s2 & E2).
  rewrite (M_bind_eq _ _ _ _ _ E2). pose proof (pool_inv_sidecars _ _ s2 H1) as H2.
  destruct (install_pages_inv install_k_packed (map_to_list (k_packed s)) own ltac:(install_tac) _ H2) as (s3 & E3).
  rewrite (M_bind_eq _ _ _ _ _ E3). pose proof (pool_inv_sidecars _ _ s3 H2) as H3.
  destruct (install_pages_inv install_k_norms (map_to_list (k_norms s)) own ltac:(install_tac) _ H3) as (s4 & E4).
  rewrite (M_bind_eq _ _ _ _ _ E4). pose proof (pool_inv_sidecars _ _ s4 H3) as H4.
  destruct (install_pages_inv install_cold_keys (map_to_list (cold_keys s)) own ltac:(install_tac) _ H4) as (s5 & E5).
  rewrite E5. by exists s5.
Qed.

(** What adoption makes of a set. *)
Definition adopted d (cs : list KVCache) : SequenceCacheSet :=
  mkSet (d_backend d) cs (Some (d_state d)) (d_prompt_len d) (d_offset d) (Some (d_layout d)).

Lemma ensure_from_layout_eq lay c :
  match paged_pool c with Some p => layout p = lay | None => True end →
  ensure_paged_pool_from_layout lay c =
    (with_pool (Some (match paged_pool c with Some p => p | None => pool_new lay end)) c, Ok tt).
Proof.
  unfold ensure_paged_pool_from_layout, mbind, M_bind, get. destruct (paged_pool c) as [p|] eqn:Hp; [|done].
  intros ->. rewrite decide_False by (intros Hx; by apply Hx). rewrite <- Hp, with_pool_id. done.
Qed.

Lemma adopt_preserving_inv model d c ext :
  cp_inv c (d :: ext) → ids_left c →
  ∃ c' r, adopt_paged_preserving model d c = (c', r) ∧
    match r with
    | Ok id => cp_inv c' ext ∧ id = next_id c ∧ active c !! id = None ∧ detached c' = detached c ∧
        (∃ cs, active c' = <[id := adopted d cs]> (active c)) ∧
        (∀ p, paged_pool c = Some p → ∃ p', paged_pool c' = Some p' ∧ kept p p' (refs c' ext))
    | Err _ => c' = c ∧ ((∃ p, paged_pool c = Some p ∧ layout p ≠ d_layout d) ∨ max_sequences c ≤ size (active c))
    | Panic => False
    end.
Proof.
  intros Hc Hid. pose proof Hc as [C1 C2 CL C3 C4 C5 C6].
  destruct (C4 d ltac:(by left)) as [(r & Hr & Hperm) Hnd Hback Hbs].
  assert (∀ x, x ∈ ext → set_ok x) as Hext by (intros; apply C4; by right).
  unfold adopt_paged_preserving. rewrite guard_bind, bool_decide_eq_true_2 by done.
  rewrite get_bind, guard_bind.
  destruct (match paged_pool c with Some p => bool_decide (layout p = d_layout d) | None => true end) eqn:Hmatch.
  2: { eexists _, _. split; [done|]. split; [done|]. left. destruct (paged_pool c) as [p|]; [|done].
       exists p. split; [done|]. by apply bool_decide_eq_false in Hmatch. }
  rewrite guard_bind. destruct (bool_decide _) eqn:Hcap.
  2: { eexists _, _. split; [done|]. split; [done|]. right. apply bool_decide_eq_false in Hcap. lia. }
  clear Hcap.
  rewrite (M_bind_eq _ _ _ _ _ (ensure_from_layout_eq (d_layout d) c ltac:(destruct (paged_pool c); [by apply bool_decide_eq_true in Hmatch|done]))).
  set (p0 := match paged_pool c with Some p => p | None => _ end).
  assert (pool_inv p0 (r ++ ids (d_state d) ++ refs c ext)) as Hi0.
  { assert (r ++ ids (d_state d) ++ refs c ext ≡ₚ refs c (d :: ext)) as Hp.
    { rewrite refs_ext. unfold set_refs. rewrite Hr. solve_Permutation. }
    rewrite Hp. unfold p0. destruct (paged_pool c); [done|]. rewrite C1. by apply pool_new_inv. }
  unfold fresh_id. unfold mbind at 1, M_bind at 1, mbind at 1, M_bind at 1, get at 1.
  unfold mbind at 1, M_bind at 1, put at 1. cbn [next_id with_pool]. rewrite (as_u64_next c Hid).
  cbn [mret M_ret]. set (live := if pool_backed model (d_layout d) then _ else _).
  fold (adopted d live). unfold mbind at 1, M_bind at 1, insert_active at 1, modify at 1. cbn [active with_next with_pool].
  assert (∃ sc, (if is_turbo (cache_mode (d_layout d)) then on_paged_pool (reinstall_sidecars (d_pages d)) else mret tt)
    (with_active (<[next_id c := adopted d live]> (active c)) (with_next (next_id c + 1) (with_pool (Some p0) c)))
    = (with_active (<[next_id c := adopted d live]> (active c))
        (with_pool (Some (with_sidecars sc p0)) (with_next (next_id c + 1) c)), Ok tt)) as (sc & Hre).
  { destruct (is_turbo _).
    - destruct (reinstall_sidecars_inv (d_pages d) _ p0 Hi0) as (sc & Hre). exists sc.
      unfold on_paged_pool. cbn. by rewrite Hre.
    - exists (turbo_sidecars p0). by destruct p0. }
  unfold mbind at 1, M_bind at 1. rewrite Hre. rewrite Hr.
  destruct (release_all_spec r (ids (d_state d) ++ refs c ext) (with_sidecars sc p0)) as (p' & Hrel & Hi' & Hk').
  { by apply pool_inv_sidecars. }
  unfold mbind, M_bind, on_paged_pool. cbn [paged_pool with_active with_pool]. rewrite Hrel. cbn [lift_pool mret M_ret].
  eexists _, _. split; [done|].
  set (c' := with_pool (Some p') _).
  pose proof (fresh_not_active c _ Hc) as [Hf1 Hf2].
  assert (refs c' ext ≡ₚ ids (d_state d) ++ refs c ext) as Hrefs.
  { unfold refs. cbn. rewrite map_refs_insert by done. unfold seq_refs at 1. cbn. by rewrite <- app_assoc. }
  split_and!; try done.
  - split; cbn; try done.
    + by rewrite Hrefs.
    + intros id' s' st. rewrite lookup_insert. case_decide; [|by apply C2]. intros; simplify_eq/=. done.
    + intros id' s' lay. rewrite lookup_insert. case_decide; [|by apply CL]. intros; simplify_eq/=. done.
    + intros id'. rewrite lookup_insert. case_decide; [lia|]. intros Hx%C5. lia.
    + intros h Hx%C6. lia.
  - by exists live.
  - intros p Hp. exists p'. split; [done|]. unfold p0 in Hk'. rewrite Hp in Hk'.
    destruct Hk' as (K1 & K2 & K3 & K4). split_and!; try done.
    intros k s Hs. destruct (K4 k s Hs) as (s' & Hs' & Hss & Hrows). exists s'. split_and!; try done.
    intros b Hb. apply Hrows. by rewrite <- Hrefs.
Qed.
Lemma adopt_inv model d c ext :
  cp_inv c (d :: ext) → ids_left c →
  ∃ c' r, adopt_paged model d c = (c', r) ∧ cp_inv c' ext ∧ r ≠ Panic.
Proof.
  intros Hc Hid. destruct (adopt_preserving_inv model d c ext Hc Hid) as (c1 & r1 & Hrun & Hres).
  unfold adopt_paged, on_err. rewrite Hrun. destruct r1 as [id|e|]; [| |done].
  - exists c1, (Ok id). split_and!; [done|apply Hres|done].
  - destruct Hres as [-> _]. destruct (release_detached_inv d c ext Hc) as (c' & r & Hrel & Hc' & _).
    exists c', (Err e). rewrite (M_bind_eq _ _ _ _ _ Hrel). done.
Qed.

(** ** Parking *)

Lemma park_inv d c ext :
  cp_inv c (d :: ext) → ids_left c →
  ∃ c', park_detached_paged d c = (c', Ok (next_id c)) ∧ cp_inv c' ext ∧
    peek_parked_paged (next_id c) c' = Some d ∧ active c' = active c.
Proof.
  intros Hc Hid. pose proof (fresh_not_active c _ Hc) as [_ Hf]. pose proof Hc as [C1 C2 CL C3 C4 C5 C6].
  unfold park_detached_paged. rewrite (M_bind_eq _ _ _ _ _ (fresh_id_eq c Hid)).
  eexists. split; [done|]. unfold peek_parked_paged. cbn. rewrite lookup_insert_eq. split_and!; try done.
  set (c' := with_detached _ _).
  assert (refs c' ext ≡ₚ refs c (d :: ext)) as Hrefs.
  { rewrite refs_ext. unfold refs. cbn. rewrite map_refs_insert by done. cbn. solve_Permutation. }
  split; cbn; try done.
  - destruct (paged_pool c); [by rewrite Hrefs|]. rewrite C1 in Hrefs. by apply Permutation_nil_r in Hrefs.
  - intros h d'. rewrite lookup_insert. case_decide; [|by apply C3]. intros [= <-]. apply C4. by left.
  - intros d' Hd'. apply C4. by right.
  - intros id H%C5. lia.
  - intros h. rewrite lookup_insert. case_decide; [lia|]. intros Hx%C6. lia.
Qed.

Lemma unpark_inv h d c ext :
  cp_inv c ext → detached c !! h = Some (ParkedPaged d) →
  cp_inv (with_detached (delete h (detached c)) c) (d :: ext).
Proof.
  intros [C1 C2 CL C3 C4 C5 C6] Hh. set (c' := with_detached _ c).
  assert (refs c' (d :: ext) ≡ₚ refs c ext) as Hrefs.
  { rewrite refs_ext. unfold refs. cbn. rewrite (map_refs_delete parked_refs (detached c) h _ Hh). cbn.
    solve_Permutation. }
  split; cbn; try done.
  - destruct (paged_pool c); [by rewrite Hrefs|]. rewrite C1 in Hrefs. by apply Permutation_nil_r in Hrefs.
  - intros h' d'. rewrite lookup_delete. case_decide; [done|apply C3].
  - intros d' [->|?]%elem_of_cons; [by eapply C3|by apply C4].
  - intros h'. rewrite lookup_delete. case_decide; [by intros [? ?]|apply C6].
Qed.

(** ** Cloning *)

Lemma clone_state_ids lay ls keep target st :
  clone_state lay ls keep target = Some st →
  ids st = ls ≫= (λ s, take keep (block_ids s)).
Proof.
  unfold clone_state. case_decide; [done|]. intros [= <-]. unfold ids. cbn. rewrite bind_app.
  assert (replicate (num_layers lay - length ls) layer_state_new ≫= block_ids = []) as ->.
  { by induction (num_layers lay - length ls). }
  rewrite app_nil_r. clear. induction ls as [|s ls IH]; [done|]. cbn. by rewrite IH.
Qed.

Lemma bind_take_sub (ls : list PagedLayerState) keep :
  (ls ≫= λ s, take keep (block_ids s)) ⊆+ (ls ≫= block_ids).
Proof.
  induction ls as [|s ls IH]; [done|]. cbn. apply submseteq_app; [|done]. apply sublist_submseteq, sublist_take.
Qed.

Lemma sub_NoDup (l k : list N) : l ⊆+ k → NoDup k → NoDup l.
Proof.
  intros [k' Hk']%submseteq_Permutation Hnd. rewrite Hk' in Hnd. by apply NoDup_app in Hnd as [? _].
Qed.

Lemma set_blocks_owned d c ext b : set_ok d → d ∈ ext → b ∈ ids (d_state d) → b ∈ refs c ext.
Proof.
  intros [(r & Hr & _) _ _ _] Hd Hb. unfold refs. rewrite !elem_of_app. do 2 right.
  apply list_elem_of_bind. exists d. split; [|done]. unfold set_refs. rewrite Hr. apply elem_of_app. by left.
Qed.

Lemma clone_inv d target c ext :
  cp_inv c ext → d ∈ ext → room c ext (2 * length (ids (d_state d))) →
  ∃ c' r, clone_detached_paged_prefix d target c = (c', r) ∧
    match r with
    | Ok d' => cp_inv c' (d' :: ext) ∧ same_but_pool c c' ∧
        (∃ keep, 0 < target ∧ target = keep * block_size (d_layout d) ∧
           clone_state (d_layout d) (layers (d_state d)) keep target = Some (d_state d')) ∧
        (∀ p, paged_pool c = Some p →
           ∃ p', paged_pool c' = Some p' ∧ stores p' = stores p ∧ layout p' = layout p)
    | Err _ => c' = c
    | Panic => c' = c ∧ ∃ s, s ∈ layers (d_state d) ∧
                 (num_layers (d_layout d) < length (layers (d_state d)) ∨
                  length (block_ids s) * block_size (d_layout d) < target)
    end.
Proof.
  intros Hc Hd Hroom. pose proof Hc as [C1 C2 CL C3 C4 C5 C6]. pose proof (C4 d Hd) as Hok.
  pose proof Hok as [(r & Hr & Hperm) Hnd Hback Hbs].
  unfold clone_detached_paged_prefix. rewrite guard_bind. destruct (bool_decide _); [|eexists _, _; by split].
  rewrite guard_bind. destruct (negb _); [|eexists _, _; by split]. cbn zeta.
  case_decide as Hbt; [eexists _, _; by split|]. case_decide as Htl; [eexists _, _; by split|].
  rewrite guard_bind. destruct (no_sliding_window d); [|eexists _, _; by split].
  rewrite guard_bind, bool_decide_eq_true_2 by (by eexists). rewrite get_bind, ok_or_bind.
  destruct (paged_pool c) as [p|] eqn:Hp; [|eexists _, _; by split].
  rewrite ok_or_bind. destruct (mapM _ (d_caches d)) as [handles|]; [|eexists _, _; by split].
  set (bs := block_size (d_layout d)) in *. set (keep := target `div` bs) in *.
  assert (target = keep * bs) as Htgt.
  { unfold keep. pose proof (Nat.div_mod_eq target bs). lia. }
  destruct (clone_state _ _ keep target) as [st|] eqn:Hcs.
  2: { unfold mbind at 1, M_bind at 1. cbn [index]. unfold panic. eexists _, _. split; [done|]. split; [done|].
       unfold clone_state in Hcs. case_decide as Hex; [|done].
       destruct (layers (d_state d)) as [|s0 ls] eqn:Els.
       { destruct Hex as [Hx|Hx]; [cbn in Hx; lia|by inversion Hx]. }
       destruct Hex as [Hx|Hx]; [exists s0; split; [by left|by left]|].
       apply Exists_exists in Hx as (s & Hs & Hlt). exists s. split; [done|]. right. rewrite Htgt.
       apply Nat.mul_lt_mono_pos_r; lia. }
  pose proof (clone_state_ids _ _ _ _ _ Hcs) as Hids. fold (ids st).
  assert (ids st ⊆+ ids (d_state d)) as Hsub by (rewrite Hids; apply bind_take_sub).
  unfold mbind at 1, M_bind at 1. cbn [index mret M_ret].
  destruct (pin_twice_spec (ids st) [] (refs c ext) p C1) as (p' & Hpin & Hi' & Hst' & Hlay' & _).
  { intros b Hb. eapply set_blocks_owned; [exact Hok|done|]. by eapply elem_of_submseteq. }
  { unfold room in Hroom. pose proof (submseteq_length _ _ Hsub). rewrite !length_app. lia. }
  unfold mbind at 1, M_bind at 1, on_paged_pool. rewrite Hp. fold (ids st). rewrite Hpin. cbn [lift_pool].
  rewrite get_bind. eexists _, _. split; [done|]. cbn [d_state].
  split_and!; try done.
  - eapply with_pool_inv; [done| |].
    + rewrite refs_ext. unfold set_refs. cbn. by rewrite <- app_assoc.
    + intros x [->|?]%elem_of_cons; [|by apply C4]. split; cbn; [by exists (ids st)|by eapply sub_NoDup|done|done].
  - exists keep. split_and!; [lia|done|done].
  - intros p0 [= <-]. by exists p'.
Qed.
(** ** Trimming a set *)

Lemma drop_tail_spec n : ∀ bs own p, n ≤ length bs →
  let t := drop (length bs - n) bs in pool_inv p (t ++ t ++ own) →
  ∃ p', drop_tail n bs p = (p', Ok (take (length bs - n) bs, [])) ∧ pool_inv p' own ∧ layout p' = layout p.
Proof.
  induction n as [|n IH]; intros bs own p Hn t Hi; cbn [drop_tail].
  { exists p. unfold t in Hi. rewrite Nat.sub_0_r, drop_all in Hi. rewrite Nat.sub_0_r, firstn_all. done. }
  destruct (vec_pop bs) as [[b rest]|] eqn:Hpop; [|apply vec_pop_None in Hpop; subst; cbn in Hn; lia].
  apply vec_pop_Some in Hpop. subst bs. rewrite length_app in *. cbn [length] in *.
  assert (t = drop (length rest - n) rest ++ [b]) as Et.
  { unfold t. rewrite length_app. cbn [length]. rewrite drop_app_le by lia. do 2 f_equal. lia. }
  set (t' := drop (length rest - n) rest) in *.
  assert (t ++ t ++ own ≡ₚ [b; b] ++ t' ++ t' ++ own) as Hp by (rewrite Et; solve_Permutation).
  rewrite Hp in Hi. destruct (release_counting_spec [b; b] _ p Hi) as (p1 & Hrun1 & Hi1 & Hl1 & _).
  destruct (IH rest own p1 ltac:(lia) Hi1) as (p' & Hrun' & Hi' & Hl').
  exists p'. rewrite (M_bind_eq _ _ _ _ _ Hrun1), (M_bind_eq _ _ _ _ _ Hrun').
  split_and!; [|done|congruence]. rewrite take_app_le by lia.
  by replace (length rest + 1 - S n) with (length rest - n) by lia.
Qed.

Definition trimmed_layer (keep target : nat) (s : PagedLayerState) : PagedLayerState :=
  mkLayerState (take keep (block_ids s)) target (logical_start s).

Lemma drop_tails_spec keep target ls : ∀ own p,
  let t := ls ≫= λ s, drop keep (block_ids s) in pool_inv p (t ++ t ++ own) →
  ∃ p', drop_tails keep target ls p = (p', Ok (trimmed_layer keep target <$> ls, [])) ∧ pool_inv p' own ∧
    layout p' = layout p.
Proof.
  induction ls as [|s ls IH]; intros own p t Hi; [by exists p|]. cbn [drop_tails].
  set (t' := ls ≫= λ s, drop keep (block_ids s)). set (h := drop keep (block_ids s)).
  set (n := length (block_ids s) - keep).
  assert (drop (length (block_ids s) - n) (block_ids s) = h ∧ take (length (block_ids s) - n) (block_ids s)
    = take keep (block_ids s)) as [Eh Et].
  { unfold n, h. destruct (decide (keep ≤ length (block_ids s))).
    - by replace (length (block_ids s) - (length (block_ids s) - keep)) with keep by lia.
    - rewrite !drop_ge, !take_ge by lia. done. }
  assert (t ++ t ++ own ≡ₚ h ++ h ++ t' ++ t' ++ own) as Hp by (unfold t; cbn; fold h t'; solve_Permutation).
  rewrite Hp in Hi. destruct (drop_tail_spec n (block_ids s) (t' ++ t' ++ own) p) as (p1 & Hrun1 & Hi1 & Hl1).
  { unfold n. lia. }
  { by rewrite Eh. }
  destruct (IH own p1 Hi1) as (p' & Hrun' & Hi' & Hl').
  exists p'. rewrite (M_bind_eq _ _ _ _ _ Hrun1). cbn beta iota. rewrite (M_bind_eq _ _ _ _ _ Hrun').
  rewrite Et. split_and!; [done|done|congruence].
Qed.

Lemma bind_take_drop (ls : list PagedLayerState) keep :
  (ls ≫= block_ids) ≡ₚ (ls ≫= λ s, take keep (block_ids s)) ++ (ls ≫= λ s, drop keep (block_ids s)).
Proof.
  induction ls as [|s ls IH]; [done|]. cbn. rewrite IH. rewrite <- (take_drop keep (block_ids s)) at 1.
  solve_Permutation.
Qed.

Lemma filter_dropped (l k t : list N) :
  l ≡ₚ k ++ t → NoDup l → filter (λ b, b ∉ t) l ≡ₚ k.
Proof.
  intros Hp Hnd. pose proof Hnd as Hnd'. rewrite Hp in Hnd'. apply NoDup_app in Hnd' as (Hk & Hdis & _).
  apply NoDup_Permutation; [by apply NoDup_filter|done|]. intros b.
  rewrite list_elem_of_filter, Hp, elem_of_app. naive_solver.
Qed.

Lemma trim_detached_inv d target c ext :
  cp_inv c (d :: ext) →
  ∃ c' r, trim_detached_paged_to d target c = (c', r) ∧
    match r with
    | Ok (d', e) => e = None ∧ cp_inv c' (d' :: ext) ∧ same_but_pool c c' ∧
        ((d' = d ∧ target = set_seq_len d) ∨ ∃ keep, target = keep * block_size (d_layout d) ∧
           layers (d_state d') = trimmed_layer keep target <$> layers (d_state d))
    | Err _ => c' = c
    | Panic => False
    end.
Proof.
  intros Hc. pose proof Hc as [C1 C2 CL C3 C4 C5 C6]. pose proof (C4 d ltac:(by left)) as Hok.
  pose proof Hok as [(r & Hr & Hperm) Hnd Hback Hbs].
  unfold trim_detached_paged_to. rewrite guard_bind. destruct (bool_decide _); [|eexists _, _; by split].
  rewrite guard_bind. destruct (negb _); [|eexists _, _; by split]. cbn zeta.
  case_decide as Hbt; [eexists _, _; by split|]. case_decide as Htl; [eexists _, _; by split|].
  rewrite guard_bind. destruct (no_sliding_window d); [|eexists _, _; by split].
  case_decide; [eexists _, _; split; [done|]; split_and!; try done; by left|].
  rewrite Hr, ok_or_bind, get_bind, ok_or_bind.
  destruct (paged_pool c) as [p|] eqn:Hp; [|eexists _, _; by split].
  set (bs := block_size (d_layout d)) in *. set (keep := target `div` bs) in *.
  set (ls := layers (d_state d)) in *. set (t := ls ≫= λ s, drop keep (block_ids s)).
  set (k := ls ≫= λ s, take keep (block_ids s)).
  pose proof (bind_take_drop ls keep) as Hsplit. fold t k in Hsplit. change (ids (d_state d) ≡ₚ k ++ t) in Hsplit.
  assert (refs c (d :: ext) ≡ₚ t ++ t ++ k ++ k ++ refs c ext) as Hrefs.
  { rewrite refs_ext, (set_refs_ok d Hok), Hsplit. solve_Permutation. }
  rewrite Hrefs in C1. destruct (drop_tails_spec keep target ls _ p C1) as (p' & Hrun & Hi' & Hl').
  unfold mbind at 1, M_bind at 1, on_paged_pool. rewrite Hp, Hrun. cbn [lift_pool].
  eexists _, _. split; [done|]. cbn [head]. split_and!; try done.
  - assert (filter (λ b, b ∉ t) r ≡ₚ k) as Hf by (rewrite Hperm; by apply filter_dropped).
    assert (ids (mkSeqState (seq_block_size (d_state d)) (trimmed_layer keep target <$> ls)) = k) as Hk.
    { unfold ids, k. cbn. clear. induction ls as [|s ls IH]; [done|]. cbn. by rewrite IH. }
    eapply with_pool_inv; [done| |].
    + rewrite refs_ext. unfold set_refs. cbn [d_state retained_blocks]. rewrite Hk, Hf. by rewrite <- app_assoc.
    + intros x [->|?]%elem_of_cons; [|apply C4; by right]. split; cbn [d_state retained_blocks d_backend].
      * exists (filter (λ b, b ∉ t) r). rewrite Hk. done.
      * rewrite Hk. rewrite Hsplit in Hnd. by apply NoDup_app in Hnd as [? _].
      * done.
      * done.
  - right. exists keep. split; [|done]. unfold keep. pose proof (Nat.div_mod_eq target bs). lia.
Qed.
End inv.
