(* ===== verification/CacheSystem.v ===== *)
(** * Runs of the cache pool

    Any sequence of operations on a cache pool, with the detached sets its
    callers hold between them. *)

From S2P Require Import Prelude Mlx PagedPool PagedPoolInv PagedPoolData PagedPrefill PagedGather PagedContract.
From S2P Require Import CachePool PagedDetach CachePoolInv.

Section system.
Context {X : Mlx} {KH : KvHandles}.

(** Sets are named by their position among those the callers hold. *)
Inductive op :=
  | OpAllocate (model : LanguageModel) (override : option SequenceStateLayout)
  | OpAppend (id : N) (l n : nat)
  | OpTrim (id : N) (l n : nat)
  | OpSync (id : N) (targets : list nat)
  | OpRelease (id : N)
  | OpBudget (max : option nat)
  | OpDetach (id : N)
  | OpDiscard (i : nat)
  | OpAdopt (model : LanguageModel) (i : nat)
  | OpAdoptPreserving (model : LanguageModel) (i : nat)
  | OpPark (i : nat)
  | OpTake (h : N)
  | OpAdoptParked (model : LanguageModel) (h : N)
  | OpClone (i target : nat)
  | OpTrimSet (i target : nat).

Definition sys : Type := CachePool * list DetachedPagedCacheSet.

(** The state after an operation, whatever it returned. A panic has none. *)
Definition after {A} (r : CachePool * outcome cache_error A)
    (k : outcome cache_error A → list DetachedPagedCacheSet) : option sys :=
  match r with
  | (_, Panic) => None
  | (c, x) => Some (c, k x)
  end.

(** A set leaves the callers' hands; unknown positions are not calls. *)
Definition with_set (i : nat) (ext : list DetachedPagedCacheSet)
    (f : DetachedPagedCacheSet → list DetachedPagedCacheSet → option sys) (dflt : option sys) : option sys :=
  match ext !! i with Some d => f d (delete i ext) | None => dflt end.

Definition run_op (o : op) (s : sys) : option sys :=
  let '(c, ext) := s in
  let stay := Some (c, ext) in
  match o with
  | OpAllocate m ov => after (allocate_with_layout m ov c) (λ _, ext)
  | OpAppend id l n => after (append_paged_tokens id l n c) (λ _, ext)
  | OpTrim id l n => after (trim_paged_tokens id l n c) (λ _, ext)
  | OpSync id ts => after (sync_paged_state_with_lengths id ts c) (λ _, ext)
  | OpRelease id => after (release id c) (λ _, ext)
  | OpBudget m => after (set_paged_block_budget m c) (λ _, ext)
  | OpDetach id =>
    after (detach_paged id c) (λ r, match r with Ok (Some d) => d :: ext | _ => ext end)
  | OpDiscard i => with_set i ext (λ d rest, after (release_detached_paged d c) (λ _, rest)) stay
  | OpAdopt m i => with_set i ext (λ d rest, after (adopt_paged m d c) (λ _, rest)) stay
  | OpAdoptPreserving m i =>
    with_set i ext (λ d rest, after (adopt_paged_preserving m d c)
                                (λ r, match r with Ok _ => rest | _ => d :: rest end)) stay
  | OpPark i => with_set i ext (λ d rest, after (park_detached_paged d c) (λ _, rest)) stay
  | OpTake h => after (take_parked_paged h c) (λ r, match r with Ok (Some d) => d :: ext | _ => ext end)
  | OpAdoptParked m h => after (adopt_parked_paged m h c) (λ _, ext)
  | OpClone i t =>
    with_set i ext (λ d _, after (clone_detached_paged_prefix d t c)
                             (λ r, match r with Ok d' => d' :: ext | _ => ext end)) stay
  | OpTrimSet i t =>
    with_set i ext (λ d rest, after (trim_detached_paged_to d t c)
                                (λ r, match r with Ok (d', _) => d' :: rest | _ => d :: rest end)) stay
  end.

(** References an operation may add. *)
Definition table_of (c : CachePool) (id : N) : option PagedSequenceState := s ← active c !! id; paged s.

Definition cost (o : op) (s : sys) : nat :=
  match o with
  | OpAppend id l n =>
    match table_of s.1 id with
    | Some st => match layers st !! l with Some ls => len ls + n | None => 0 end
    | None => 0
    end
  | OpSync id ts => sum_list ts
  | OpDetach id => match table_of s.1 id with Some st => length (ids st) | None => 0 end
  | OpClone i _ => match s.2 !! i with Some d => 2 * length (ids (d_state d)) | None => 0 end
  | _ => 0
  end.

(** Reference counts and ids do not run out, and layouts have nonempty blocks. *)
Definition fits (o : op) (s : sys) : Prop :=
  ids_left s.1 ∧ room s.1 s.2 (cost o s) ∧
  match o with
  | OpAllocate m ov => ∀ lay, layout_paged (default (sequence_state_layout m) ov) = Some lay → 0 < block_size lay
  | _ => True
  end.

Lemma cp_inv_perm c ext ext' : ext ≡ₚ ext' → cp_inv c ext → cp_inv c ext'.
Proof.
  intros Hp [C1 C2 CL C3 C4 C5 C6].
  assert (refs c ext ≡ₚ refs c ext') as Hr by (unfold refs; by rewrite Hp).
  split; try done.
  - destruct (paged_pool c); [by rewrite <- Hr|]. rewrite C1 in Hr. by apply Permutation_nil_l in Hr.
  - intros d Hd. apply C4. by rewrite Hp.
Qed.

Lemma append_paged_inv id l n c ext :
  cp_inv c ext → room c ext (cost (OpAppend id l n) (c, ext)) →
  ∃ c' r, append_paged_tokens id l n c = (c', r) ∧ cp_inv c' ext ∧ r ≠ Panic.
Proof.
  intros Hc Hroom. eapply with_pool_and_state_inv; [done|done|].
  intros p s st own Hp Hs Hst Hi Hnd Hsm. cbn in Hsm. unfold table_of in Hsm. rewrite Hs in Hsm. cbn in Hsm.
  rewrite Hst in Hsm. set (m := match layers st !! l with Some ls => _ | None => _ end) in Hsm.
  assert (∀ ls, layers st !! l = Some ls → len ls + n ≤ m) as Hm by (unfold m; by intros ls ->).
  destruct (append_tokens_keeps l n m p st own Hi Hnd Hm Hsm) as (p' & st' & r & H1 & H2 & H3 & _ & H4 & _).
  naive_solver.
Qed.

Lemma trim_paged_inv id l n c ext :
  cp_inv c ext → room c ext 0 → ∃ c' r, trim_paged_tokens id l n c = (c', r) ∧ cp_inv c' ext ∧ r ≠ Panic.
Proof.
  intros Hc Hroom. eapply with_pool_and_state_inv; [done|done|]. intros p s st own Hp Hs Hst Hi Hnd Hsm.
  destruct (trim_tokens_keeps l n p st own Hi Hnd) as (p' & st' & r & H1 & H2 & H3 & _ & H4 & _). naive_solver.
Qed.

Lemma sync_inv id ts c ext :
  cp_inv c ext → room c ext (sum_list ts) →
  ∃ c' r, sync_paged_state_with_lengths id ts c = (c', r) ∧ cp_inv c' ext ∧ r ≠ Panic.
Proof.
  intros Hc Hroom. unfold sync_paged_state_with_lengths. rewrite get_bind.
  destruct (paged_pool c) as [p|] eqn:Hp; [|by eexists _, _].
  destruct (active c !! id) as [s|] eqn:Hs; [|by eexists _, _].
  destruct (paged s) as [st|] eqn:Hst; [|by eexists _, _]. case_decide as Hlen; [by eexists _, _|].
  eapply with_pool_and_state_inv; [done|done|]. intros p0 s0 st0 own Hp0 Hs0 Hst0 Hi Hnd Hsm. simplify_eq.
  destruct (sync_layers_keeps ts 0 p st own Hi Hnd) as (p' & st' & r & H1 & H2 & H3 & _ & H4 & _); [lia|done|].
  naive_solver.
Qed.

(** A table shorter than the requested prefix, or with layers the layout lacks. *)
Definition ragged (d : DetachedPagedCacheSet) (target : nat) : Prop :=
  ∃ s, s ∈ layers (d_state d) ∧
    (num_layers (d_layout d) < length (layers (d_state d)) ∨
     length (block_ids s) * block_size (d_layout d) < target).

Definition run_result (o : op) (s : sys) (r : option sys) : Prop :=
  match r with
  | Some s' => cp_inv s'.1 s'.2
  | None => ∃ i t d, o = OpClone i t ∧ s.2 !! i = Some d ∧ ragged d t
  end.

Lemma after_result {A} o s (c' : CachePool) (x : outcome cache_error A) k :
  x ≠ Panic → (∀ r, x = r → cp_inv c' (k r)) → run_result o s (after (c', x) k).
Proof. intros Hx Hk. destruct x; [by apply Hk|by apply Hk|done]. Qed.

Lemma with_set_result o s f :
  cp_inv s.1 s.2 →
  (∀ i d, s.2 !! i = Some d → cp_inv s.1 (d :: delete i s.2) → run_result o s (f d (delete i s.2))) →
  ∀ i, run_result o s (with_set i s.2 f (Some s)).
Proof.
  intros Hc Hf i. unfold with_set. destruct (s.2 !! i) as [d|] eqn:Hi; [|done].
  eapply Hf; [done|]. eapply cp_inv_perm; [|done]. by apply delete_Permutation.
Qed.

(** Every operation keeps the accounting. *)
Lemma run_op_inv o s : cp_inv s.1 s.2 → fits o s → run_result o s (run_op o s).
Proof.
  destruct s as [c ext]. intros Hc (Hid & Hroom & Hlay). cbn [fst snd] in *.
  destruct o as [m ov|id l n|id l n|id ts|id|max|id|i|m i|m i|i|h|m h|i t|i t]; cbn [run_op].
  - destruct (allocate_inv m ov c ext Hc Hid Hlay) as (c' & r & -> & Hc' & Hr).
    apply after_result; [by destruct r|done].
  - destruct (append_paged_inv id l n c ext Hc Hroom) as (c' & r & -> & Hc' & Hr). by apply after_result.
  - destruct (trim_paged_inv id l n c ext Hc Hroom) as (c' & r & -> & Hc' & Hr). by apply after_result.
  - destruct (sync_inv id ts c ext Hc Hroom) as (c' & r & -> & Hc' & Hr). by apply after_result.
  - destruct (release_inv id c ext Hc) as (c' & -> & Hc' & _). by apply after_result.
  - destruct (set_budget_inv max c ext Hc) as (c' & -> & Hc'). by apply after_result.
  - destruct (active c !! id) as [s|] eqn:Hs.
    2: { unfold detach_paged. rewrite get_bind, Hs. done. }
    destruct (decide (backend s = PagedKvCache)) as [Hb|Hb].
    2: { unfold detach_paged. rewrite get_bind, Hs, decide_True by done. done. }
    destruct (paged s) as [st|] eqn:Hst.
    2: { unfold detach_paged. rewrite get_bind, Hs, Hst, decide_False by (intros Hx; by apply Hx). done. }
    destruct (paged_layout s) as [lay|] eqn:Hly.
    2: { unfold detach_paged. rewrite get_bind, Hs, Hst, Hly, decide_False by (intros Hx; by apply Hx). done. }
    assert (room c ext (length (ids st))) as Hroom'.
    { cbn in Hroom. unfold table_of in Hroom. rewrite Hs in Hroom. cbn in Hroom. by rewrite Hst in Hroom. }
    destruct (detach_inv id c ext s st lay Hc Hs Hb Hst Hly Hroom') as (c' & d & -> & Hc' & _).
    apply after_result; [done|]. by intros r <-.
  - apply (with_set_result _ (c, ext)); [done|]. intros j d Hj Hd.
    destruct (release_detached_inv d c _ Hd) as (c' & r & -> & Hc' & _). by apply after_result.
  - apply (with_set_result _ (c, ext)); [done|]. intros j d Hj Hd.
    destruct (adopt_inv m d c _ Hd Hid) as (c' & r & -> & Hc' & Hr). by apply after_result.
  - apply (with_set_result _ (c, ext)); [done|]. intros j d Hj Hd.
    destruct (adopt_preserving_inv m d c _ Hd Hid) as (c' & r & -> & Hres).
    apply after_result; [by destruct r|]. intros r' <-. destruct r; [apply Hres|by destruct Hres as [-> _]|done].
  - apply (with_set_result _ (c, ext)); [done|]. intros j d Hj Hd.
    destruct (park_inv d c _ Hd Hid) as (c' & -> & Hc' & _). by apply after_result.
  - unfold take_parked_paged. rewrite get_bind.
    destruct (detached c !! h) as [[b|d]|] eqn:Hh; try done. cbn. by apply unpark_inv.
  - unfold adopt_parked_paged. rewrite get_bind.
    destruct (detached c !! h) as [[b|d]|] eqn:Hh; try done.
    unfold mbind, M_bind, put. pose proof (unpark_inv h d c ext Hc Hh) as Hd.
    destruct (adopt_inv m d _ ext Hd Hid) as (c' & r & -> & Hc' & Hr). by apply after_result.
  - unfold with_set. destruct (ext !! i) as [d|] eqn:Hi; [|done].
    assert (room c ext (2 * length (ids (d_state d)))) as Hroom' by (cbn in Hroom; by rewrite Hi in Hroom).
    destruct (clone_inv d t c ext Hc) as (c' & r & -> & Hres); [by eapply list_elem_of_lookup_2|done|].
    destruct r as [d'|e|]; [by apply Hres|by subst|]. exists i, t, d. split_and!; try done. apply Hres.
  - apply (with_set_result _ (c, ext)); [done|]. intros j d Hj Hd.
    destruct (trim_detached_inv d t c _ Hd) as (c' & r & -> & Hres).
    apply after_result; [by destruct r|]. intros r' <-. destruct r as [[d' e]|e|]; [apply Hres|by subst|done].
Qed.

(** States reachable from a new cache pool. *)
Inductive reachable (max : nat) : sys → Prop :=
  | reach_new : reachable max (cache_pool_new max, [])
  | reach_step s o s' : reachable max s → fits o s → run_op o s = Some s' → reachable max s'.

Lemma cache_pool_new_inv max : cp_inv (cache_pool_new max) [].
Proof. split; cbn; try done; try (by intros ? [? ?]); by intros d ?%not_elem_of_nil. Qed.

Lemma reachable_inv max s : reachable max s → cp_inv s.1 s.2.
Proof.
  induction 1 as [|s o s' _ IH Hfit Hrun]; [apply cache_pool_new_inv|].
  pose proof (run_op_inv o s IH Hfit) as Hr. by rewrite Hrun in Hr.
Qed.

Lemma live_none p : pool_inv p [] → live_block_count p = 0.
Proof.
  intros Hi. unfold live_block_count. apply map_size_empty_iff, map_empty. intros b.
  apply map_lookup_filter_None. right. intros r Hr. cbn. pose proof (pi_refs _ _ Hi b) as Hc.
  rewrite (refcount_Some _ _ _ Hr) in Hc. unfold is_in_use. rewrite Hc. done.
Qed.
(** ** Contents *)

Lemma stores_preserved p p' Q : stores p' = stores p → layout p' = layout p → preserved p p' Q.
Proof.
  intros Es El. split; [done| | |]; unfold geom_is, has_row, pcell; rewrite Es; done.
Qed.

Lemma adopt_ok model d c ext p :
  cp_inv c (d :: ext) → ids_left c → paged_pool c = Some p → layout p = d_layout d →
  size (active c) < max_sequences c →
  ∃ c' cs p', adopt_paged model d c = (c', Ok (next_id c)) ∧ cp_inv c' ext ∧
    active c' = <[next_id c := adopted d cs]> (active c) ∧ active c !! next_id c = None ∧
    detached c' = detached c ∧ paged_pool c' = Some p' ∧ kept p p' (refs c' ext).
Proof.
  intros Hc Hid Hp Hlay Hcap. destruct (adopt_preserving_inv model d c ext Hc Hid) as (c' & r & Hrun & Hres).
  destruct r as [id|e|]; [| |done].
  - destruct Hres as (Hc' & -> & Hn & Hdet & (cs & Hact) & Hpool). destruct (Hpool p Hp) as (p' & Hp' & Hk).
    exists c', cs, p'. unfold adopt_paged, on_err. by rewrite Hrun.
  - destruct Hres as [_ [(p0 & Hp0 & Hne)|?]]; [congruence|lia].
Qed.

(** C7. Detaching a sequence and adopting the set again changes nothing but the
    sequence's id: the adopted sequence has the table, the prompt length and the
    offset of the original, every reference count is what it was, and every layer
    holds the tokens it held. *)
Theorem detach_adopt_roundtrip model c ext id s st lay p :
  cp_inv c ext → ids_left c → active c !! id = Some s → backend s = PagedKvCache → paged s = Some st →
  paged_layout s = Some lay → paged_pool c = Some p → layout p = lay →
  size (active c) ≤ max_sequences c → room c ext (length (ids st)) →
  ∃ c1 d c2 s2 p2, detach_paged id c = (c1, Ok (Some d)) ∧ adopt_paged model d c1 = (c2, Ok (next_id c)) ∧
    cp_inv c2 ext ∧ active c2 = <[next_id c := s2]> (delete id (active c)) ∧
    paged s2 = Some st ∧ backend s2 = PagedKvCache ∧ paged_layout s2 = Some lay ∧
    prompt_len s2 = prompt_len s ∧ current_offset s2 = current_offset s ∧
    paged_pool c2 = Some p2 ∧ (∀ b, refcount b p2 = refcount b p) ∧
    (∀ l ls own H D dt kv, refs c ext ≡ₚ ids st ++ own → holds p st l ls own H D dt kv → 0 < len ls →
       holds p2 st l ls own H D dt kv).
Proof.
  intros Hc Hid Hs Hb Hst Hly Hp Hlay Hcap Hroom.
  destruct (detach_inv id c ext s st lay Hc Hs Hb Hst Hly Hroom)
    as (c1 & d & Hdet & Hc1 & Ha1 & D1 & D2 & D3 & D4 & D5 & D6 & D7 & D8 & D9 & Hpool).
  destruct (Hpool p Hp) as (p1 & Hp1 & Est & Elay).
  assert (size (active c1) < max_sequences c1) as Hcap1.
  { rewrite Ha1, D8, map_size_delete, Hs.
    assert (size (active c) ≠ 0) as Hx by (eapply map_size_ne_0_lookup_2; by eexists). cbn. lia. }
  assert (ids_left c1) as Hid1 by (unfold ids_left; by rewrite D7).
  destruct (adopt_ok model d c1 ext p1 Hc1 Hid1 Hp1 ltac:(congruence) Hcap1)
    as (c2 & cs & p2 & Had & Hc2 & Ha2 & Hn2 & Hd2 & Hp2 & Hk2).
  assert (refs c2 ext ≡ₚ refs c ext) as Hrefs.
  { rewrite (refs_active c ext id s Hs). unfold refs at 1. rewrite Ha2, Hd2, D9.
    rewrite map_refs_insert by done. rewrite Ha1. unfold seq_refs at 1 3. cbn. rewrite D1, Hst.
    by rewrite <- !app_assoc. }
  pose proof (ci_pool _ _ Hc) as Hi. rewrite Hp in Hi.
  pose proof (ci_pool _ _ Hc2) as Hi2. rewrite Hp2 in Hi2.
  rewrite D7 in *. exists c1, d, c2, (adopted d cs), p2. split_and!; try done.
  - by rewrite Ha2, Ha1.
  - cbn. by rewrite D1.
  - cbn. by rewrite D2.
  - intros b. rewrite (pi_refs _ _ Hi2), (pi_refs _ _ Hi). by rewrite Hrefs.
  - intros l ls own H D dt kv Hown Hh Hpos. eapply holds_other; [exact Hh|done| |].
    + pose proof (stores_preserved p p1 (λ _ _, True) Est Elay) as Hpr1.
      pose proof (kept_preserved _ _ _ Hk2) as Hpr2. eapply preserved_trans; [exact Hpr1|exact Hpr2|].
      intros b t Hb'. split; [done|]. rewrite Hrefs, Hown. set_solver.
    + by rewrite <- Hown, <- Hrefs.
Qed.

(** The layer of a cloned table. *)
Lemma clone_state_layer lay ls keep target st l s :
  clone_state lay ls keep target = Some st → ls !! l = Some s →
  layers st !! l = Some (mkLayerState (take keep (block_ids s)) target 0) ∧ keep ≤ length (block_ids s).
Proof.
  unfold clone_state. case_decide as Hex; [done|]. intros [= <-] Hl. cbn. split.
  - rewrite lookup_app_l by (rewrite length_fmap; by eapply lookup_lt_Some). by rewrite list_lookup_fmap, Hl.
  - destruct (decide (length (block_ids s) < keep)); [|lia]. exfalso. apply Hex. right.
    apply Exists_exists. exists s. split; [by eapply list_elem_of_lookup_2|done].
Qed.

(** A cloned prefix shares storage, not fate. Cloning the first [target] tokens
    of a set gives a set whose layers hold those tokens, in the blocks of the
    source, while the source still holds all of its own; each shared block has
    two more references. Any set of a reachable state can be cloned this way. *)
Theorem clone_shares_prefix d target c ext p c' d' l ls own H D dt kv :
  cp_inv c ext → d ∈ ext → room c ext (2 * length (ids (d_state d))) →
  paged_pool c = Some p → layout p = d_layout d →
  clone_detached_paged_prefix d target c = (c', Ok d') →
  refs c ext ≡ₚ ids (d_state d) ++ own → holds p (d_state d) l ls own H D dt kv → target ≤ len ls →
  ∃ p' ls', paged_pool c' = Some p' ∧ cp_inv c' (d' :: ext) ∧
    (∀ b, refcount b p' = refcount b p + 2 * N.of_nat (occ b (ids (d_state d'))))%N ∧
    layers (d_state d') !! l = Some ls' ∧ len ls' = target ∧ logical_start ls' = 0 ∧
    block_ids ls' = take (target `div` bs_of p) (block_ids ls) ∧
    holds p' (d_state d') l ls' (ids (d_state d') ++ ids (d_state d) ++ own) H D dt kv ∧
    holds p' (d_state d) l ls (ids (d_state d') ++ ids (d_state d') ++ own) H D dt kv.
Proof.
  intros Hc Hd Hroom Hp Hlay Hrun Hown Hh Hle.
  destruct (clone_inv d target c ext Hc Hd Hroom) as (c0 & r & Hrun' & Hres).
  rewrite Hrun in Hrun'. injection Hrun' as <- <-. destruct Hres as (Hc' & Hsame & (keep & Hpos & Htgt & Hcs) & Hpool).
  destruct (Hpool p Hp) as (p' & Hp' & Est & Elay). pose proof Hh as [Hrd Hcov _ _].
  pose proof (sr_layer _ _ _ _ _ _ _ _ Hrd) as Hl. fold (bs_of p) in *.
  pose proof (pi_bs _ _ (sr_inv _ _ _ _ _ _ _ _ Hrd)) as Hbs. change (0 < bs_of p) in Hbs.
  assert (block_size (d_layout d) = bs_of p) as Ebs by (unfold bs_of; by rewrite Hlay). rewrite Ebs in Htgt.
  destruct (clone_state_layer _ _ _ _ _ l ls Hcs Hl) as [Hl' Hkl].
  assert (target `div` bs_of p = keep) as Ekeep by (rewrite Htgt; apply Nat.div_mul; lia).
  pose proof (stores_preserved p p' (λ _ _, True) Est Elay) as Hpr.
  pose proof (ci_pool _ _ Hc') as Hi'. rewrite Hp', refs_ext in Hi'.
  assert (set_refs d' ++ refs c' ext ≡ₚ ids (d_state d') ++ ids (d_state d') ++ ids (d_state d) ++ own) as Hrefs.
  { rewrite (set_refs_ok d') by (apply (ci_ext _ _ Hc'); by left). rewrite <- Hown, <- app_assoc.
    destruct Hsame as (_ & E1 & _ & E2 & _). unfold refs. by rewrite E1, E2. }
  rewrite Hrefs in Hi'. set (ls' := mkLayerState _ target 0) in Hl'.
  assert (div_ceil target (bs_of p) = keep) as Hdc.
  { unfold div_ceil. rewrite Ekeep, Htgt, Nat.Div0.mod_mul. by rewrite decide_True. }
  exists p', ls'. split_and!; try done.
  - intros b. rewrite (pi_refs _ _ Hi'). rewrite (pi_refs _ _ (sr_inv _ _ _ _ _ _ _ _ Hrd)).
    rewrite !occ_app. lia.
  - cbn. by rewrite Ekeep.
  - eapply holds_preserved; [exact Hh|done|exact Hl'| |done| |done].
    + cbn. by rewrite Hdc.
    + by eapply preserved_weaken.
  - eapply holds_other; [exact Hh|lia|by eapply preserved_weaken|].
    assert (ids (d_state d) ++ ids (d_state d') ++ ids (d_state d') ++ own ≡ₚ
      ids (d_state d') ++ ids (d_state d') ++ ids (d_state d) ++ own) as -> by solve_Permutation. done.
Qed.

(** C2. Every block is accounted for, in every reachable state of the cache pool.
    A block's reference count is the number of its owners: table entries of active
    sequences, and table entries and pins of detached sets, whether parked or held
    by callers. A block that can be handed out again has no owner. When nothing is
    active or detached, no block is in use. No operation panics, except a clone of
    a set with a layer shorter than the prefix asked for; and discarding a set is
    never refused. *)
Theorem cache_pool_accounts_every_block max s p :
  reachable max s → paged_pool s.1 = Some p →
  (∀ b, refcount b p = N.of_nat (occ b (refs s.1 s.2))) ∧
  (∀ l st b, stores p !! l = Some st → b ∈ free_list st → b ∉ refs s.1 s.2) ∧
  (refs s.1 s.2 = [] → live_block_count p = 0) ∧
  (∀ o, fits o s → run_op o s = None → ∃ i t d, o = OpClone i t ∧ s.2 !! i = Some d ∧ ragged d t) ∧
  (∀ i d, s.2 !! i = Some d → ∃ c', release_detached_paged d s.1 = (c', Ok None) ∧ cp_inv c' (delete i s.2)).
Proof.
  intros Hr Hp. pose proof (reachable_inv max s Hr) as Hc.
  pose proof (ci_pool _ _ Hc) as Hi. rewrite Hp in Hi. split_and!.
  - apply Hi.
  - intros l st b Hs Hb Hin. apply (pi_free _ _ Hi l st b Hs) in Hb.
    pose proof (pi_refs _ _ Hi b) as Hc'. rewrite (refcount_Some _ _ _ Hb) in Hc'. apply occ_pos in Hin.
    cbn in Hc'. lia.
  - intros E. rewrite E in Hi. by apply live_none.
  - intros o Hf Hn. pose proof (run_op_inv o s Hc Hf) as Hres. by rewrite Hn in Hres.
  - intros i d Hd. destruct (release_detached_inv d s.1 (delete i s.2)) as (c' & r & Hrun & Hc' & _ & Hnone).
    { eapply cp_inv_perm; [|done]. by apply delete_Permutation. }
    exists c'. rewrite Hrun. rewrite Hnone by (by eexists). done.
Qed.
End system.

(** ** Runs *)

(** Caches that only carry their offset. *)
Definition offset_handles : KvHandles := {|
  KVCache := Z;
  DetachedKVCache := Z;
  new_paged _ := 0%Z;
  is_paged_backed _ := true;
  cache_seq_len z := z;
  with_offset z _ := z;
  clone_handle z := z;
  from_detached z := z;
  handle_offset z := z;
  with_handle_offset z _ := z;
  pool_backed_handle_clone z _ := Some z;
|}.

Section runs.
Existing Instance arrays.
Existing Instance offset_handles.

Definition example_model : LanguageModel := mkModel (dense_kv_cache 1) [0%Z].

Definition one_set (st : PagedSequenceState) (lay : PagedKvLayout) : SequenceCacheSet :=
  mkSet PagedKvCache [3%Z] (Some st) 3 3 (Some lay).

(** A cache pool whose only sequence, of id 0, has the table [st]. *)
Definition one_sequence (p : PagedBlockPool) (st : PagedSequenceState) (lay : PagedKvLayout) : CachePool :=
  mkCachePool 1 {[0%N := one_set st lay]} 4 (Some p) ∅ None.

Lemma one_sequence_refs p st lay : refs (one_sequence p st lay) [] = ids st.
Proof.
  unfold refs, one_sequence, map_refs. cbn [active detached]. rewrite map_to_list_singleton. cbn. by rewrite !app_nil_r.
Qed.

Lemma one_sequence_inv p st lay :
  pool_inv p (ids st) → NoDup (ids st) → 0 < block_size lay → cp_inv (one_sequence p st lay) [].
Proof.
  intros Hi Hnd Hbs. split.
  - cbn [paged_pool one_sequence]. by rewrite one_sequence_refs.
  - intros id s st'. cbn [active one_sequence]. intros [<- <-]%lookup_singleton_Some [= <-]. done.
  - intros id s lay'. cbn [active one_sequence]. intros [<- <-]%lookup_singleton_Some [= <-]. done.
  - intros h d Hd. cbn in Hd. by rewrite lookup_empty in Hd.
  - by intros d ?%not_elem_of_nil.
  - intros id. cbn [active one_sequence]. intros [s [<- _]%lookup_singleton_Some]. cbn. lia.
  - intros h [x Hx]. cbn in Hx. by rewrite lookup_empty in Hx.
Qed.

(** The sequence of the pool's example. *)
Definition example_cache : CachePool := one_sequence example_write.1 example_write.2 example_layout.

Lemma example_cache_inv : cp_inv example_cache [].
Proof.
  destruct example_written as ([[Hi _ Hnd _ _ _] _ _ _] & _). rewrite app_nil_r in Hi.
  assert (ids example_write.2 = block_ids example_layer) as E by (vm_compute; reflexivity).
  apply one_sequence_inv; [exact Hi|rewrite E; exact Hnd|cbn; lia].
Qed.

(** The example sequence goes and comes back under id 1. *)
Lemma detach_adopt_roundtrip_witness :
  ∃ c1 d c2 s2 p2, detach_paged 0 example_cache = (c1, Ok (Some d)) ∧
    adopt_paged example_model d c1 = (c2, Ok 1%N) ∧ paged s2 = Some example_write.2 ∧
    paged_pool c2 = Some p2 ∧ holds p2 example_write.2 0 example_layer [] 1 1 9 example_kv.
Proof.
  destruct example_written as (Hh & Hlen & _ & Hlay).
  destruct (detach_adopt_roundtrip example_model example_cache [] 0
    (one_set example_write.2 example_layout) example_write.2 example_layout
    example_write.1) as (c1 & d & c2 & s2 & p2 & H1 & H2 & _ & _ & H3 & _ & _ & _ & _ & H4 & _ & H5).
  - exact example_cache_inv.
  - unfold ids_left. cbn. lia.
  - apply lookup_singleton_eq.
  - reflexivity.
  - reflexivity.
  - reflexivity.
  - reflexivity.
  - exact Hlay.
  - cbn [active example_cache one_sequence max_sequences]. rewrite map_size_singleton. lia.
  - unfold room. unfold example_cache. rewrite one_sequence_refs. vm_compute. reflexivity.
  - exists c1, d, c2, s2, p2. split; [exact H1|]. split; [exact H2|]. split; [exact H3|]. split; [exact H4|].
    apply H5; [|exact Hh|rewrite Hlen; lia]. unfold example_cache. rewrite one_sequence_refs, app_nil_r. reflexivity.
Defined.
(** The first block of the example, cloned out of the detached set. *)
Lemma clone_shares_prefix_witness :
  ∃ c1 d c2 d' p2 ls', detach_paged 0 example_cache = (c1, Ok (Some d)) ∧
    clone_detached_paged_prefix d 2 c1 = (c2, Ok d') ∧ paged_pool c2 = Some p2 ∧
    layers (d_state d') !! 0 = Some ls' ∧ len ls' = 2 ∧
    holds p2 (d_state d') 0 ls' (ids (d_state d') ++ ids (d_state d) ++ ids (d_state d)) 1 1 9 example_kv.
Proof.
  destruct example_written as (Hh & Hlen & _ & Hlay).
  destruct (detach_inv 0 example_cache [] (one_set example_write.2 example_layout) example_write.2 example_layout)
    as (c1 & d & Hdet & Hc1 & _ & D1 & D2 & D3 & _ & _ & _ & _ & _ & _ & Hpool).
  - exact example_cache_inv.
  - apply lookup_singleton_eq.
  - reflexivity.
  - reflexivity.
  - reflexivity.
  - unfold room. unfold example_cache. rewrite one_sequence_refs. vm_compute. reflexivity.
  - destruct (Hpool example_write.1 eq_refl) as (p1 & Hp1 & Est & Elay).
    assert (match detach_paged 0 example_cache with
            | (c, Ok (Some s)) =>
              is_ok (clone_detached_paged_prefix s 2 c).2 &&
              (N.of_nat (length (refs c [s]) + 2 * length (ids (d_state s))) <? u32_max)%N &&
              bool_decide (refs c [s] = ids (d_state s) ++ ids (d_state s))
            | _ => false end = true) as Hok by (vm_compute; reflexivity).
    rewrite Hdet in Hok. apply andb_prop in Hok as [Hok Hrefs]. apply andb_prop in Hok as [Hok Hroom].
    apply bool_decide_eq_true in Hrefs. apply N.ltb_lt in Hroom.
    destruct (clone_detached_paged_prefix d 2 c1) as [c2 [d'|e|]] eqn:Hrun; [|discriminate Hok|discriminate Hok].
    pose proof (ci_pool _ _ Hc1) as Hi1. rewrite Hp1, Hrefs in Hi1.
    assert (holds p1 (d_state d) 0 example_layer (ids (d_state d)) 1 1 9 example_kv) as Hh1.
    { rewrite D1 in *. eapply holds_other; [exact Hh|rewrite Hlen; lia| |exact Hi1].
      apply stores_preserved; [exact Est|exact Elay]. }
    destruct (clone_shares_prefix d 2 c1 [d] p1 c2 d' 0 example_layer (ids (d_state d)) 1 1 9 example_kv Hc1)
      as (p2 & ls' & G1 & _ & _ & G2 & G3 & _ & _ & G4 & _).
    + left.
    + exact Hroom.
    + exact Hp1.
    + rewrite Elay, D2. exact Hlay.
    + exact Hrun.
    + rewrite Hrefs. reflexivity.
    + exact Hh1.
    + rewrite Hlen. lia.
    + exists c1, d, c2, d', p2, ls'. split; [exact Hdet|]. split; [exact Hrun|]. split; [exact G1|].
      split; [exact G2|]. split; [exact G3|exact G4].
Defined.

(** A sequence is allocated, grows to three tokens, and is detached. *)
Definition example_ops : list op :=
  [OpAllocate example_model (Some (paged_kv_cache example_layout)); OpAppend 0 0 3; OpDetach 0].
Definition example_state (n : nat) : sys :=
  foldl (λ s o, default s (run_op o s)) (cache_pool_new 4, []) (take n example_ops).

Lemma cache_pool_accounts_every_block_witness :
  ∃ p, paged_pool (example_state 3).1 = Some p ∧ refcount 0 p = 2%N ∧
    refcount 0 p = N.of_nat (occ 0 (refs (example_state 3).1 (example_state 3).2)).
Proof.
  assert (bool_decide (is_Some (paged_pool (example_state 3).1)) = true) as Hsome by vm_refl.
  apply bool_decide_eq_true in Hsome as [p Hp].
  destruct (cache_pool_accounts_every_block 4 (example_state 3) p) as [H _].
  - assert (∀ lay, Some example_layout = Some lay → 0 < block_size lay) as Hlay
      by (intros lay E; injection E as <-; cbn; lia).
    apply (reach_step 4 (example_state 2) (OpDetach 0)); [|split; [|split; [|exact I]]; unfold ids_left, room, N.lt; vm_refl|vm_refl].
    apply (reach_step 4 (example_state 1) (OpAppend 0 0 3)); [|split; [|split; [|exact I]]; unfold ids_left, room, N.lt; vm_refl|vm_refl].
    apply (reach_step 4 (example_state 0) (OpAllocate example_model (Some (paged_kv_cache example_layout))));
      [apply reach_new| |vm_refl].
    split; [|split; [|exact Hlay]]; unfold ids_left, room, N.lt; vm_refl.
  - exact Hp.
  - exists p. split; [exact Hp|]. split; [|apply H]. rewrite H. vm_refl.
Defined.
End runs.
