(* ===== verification/PagedBudget.v ===== *)
(** * The block budget

    [free_block_budget] tells the scheduler how many blocks it may still acquire.
    Freed blocks go to the free list of the layer they were minted for, so the
    figure is exact for a pool with one layer only. *)

From S2P Require Import Prelude Mlx PagedPool PagedPoolInv PagedContract.
From S2P Require Import CachePool PagedDetach CachePoolInv CacheSystem.

Section budget.
Context {X : Mlx}.
Implicit Types (p : PagedBlockPool).

Lemma live_all p own :
  pool_inv p own → (∀ l s, stores p !! l = Some s → free_list s = []) → live_block_count p = size (blocks p).
Proof.
  intros Hi Hf. unfold live_block_count. f_equal. apply map_filter_id. intros b [l n] Hb. cbn.
  unfold is_in_use. cbn. apply N.ltb_lt. destruct (decide (n = 0%N)) as [->|]; [|lia]. exfalso.
  destruct (pi_ids _ _ Hi b _ Hb) as [_ Hl]. cbn in Hl.
  destruct (lookup_lt_is_Some_2 (stores p) l Hl) as [s Hs].
  apply (pi_free _ _ Hi l s b Hs) in Hb. rewrite (Hf l s Hs) in Hb. by apply not_elem_of_nil in Hb.
Qed.

(** Two blocks of layer 0 are minted and freed in a pool with two layers and a
    budget of two. *)
Definition freed_on_layer_0 : M PagedBlockPool pool_error unit :=
  b1 ← acquire_block 0; b2 ← acquire_block 0; _ ← release_block b1; release_block b2.

Definition two_layers : PagedBlockPool :=
  (freed_on_layer_0 (set_block_budget (Some 2) (pool_new (mkLayout 2 2 [64; 64] Fp16 [])))).1.

Lemma two_layers_exhausted :
  free_block_budget two_layers = Some 2 ∧ live_block_count two_layers = 0 ∧
  (acquire_block 1 two_layers).2 = Err (BudgetExhausted 2 2).
Proof. split_and!; vm_compute; reflexivity. Qed.

(** In a pool with a single layer the advertised budget can be trusted: while
    [free_block_budget] is not zero, or there is no budget, [acquire_block] succeeds with a
    block nobody owns. With several layers it cannot: every block of the budget may be free and
    [free_block_budget] says so, yet the other layer cannot acquire any, because freed blocks
    are only reused by the layer they were minted for. *)
Theorem acquire_within_budget p own :
  pool_inv p own → num_layers (layout p) = 1 → (N.of_nat (S (length own)) < u32_max)%N →
  free_block_budget p ≠ Some 0 →
  (∃ p' b, acquire_block 0 p = (p', Ok b) ∧ b ∉ own ∧ pool_inv p' (b :: own)) ∧
  free_block_budget two_layers = Some 2 ∧ live_block_count two_layers = 0 ∧
  (acquire_block 1 two_layers).2 = Err (BudgetExhausted 2 2).
Proof.
  intros Hi Hl Hsm Hb. split; [|apply two_layers_exhausted]. pose proof (acquire_block_spec 0 p own Hi Hsm) as Ha.
  destruct (acquire_block 0 p) as [p' [b|e|]]; [|exfalso|done].
  { exists p', b. naive_solver. }
  destruct Ha as [_ [[? _]|(s & max & Hs & Hfree & Hbud & Hmax & _)]]; [lia|].
  apply Hb. unfold free_block_budget. rewrite Hbud. cbn. f_equal.
  rewrite (live_all p own Hi); [lia|]. intros l s' Hs'.
  pose proof (lookup_lt_Some _ _ _ Hs') as Hlt. rewrite (pi_layers _ _ Hi), Hl in Hlt.
  assert (l = 0) as -> by lia. congruence.
Qed.

End budget.

Section cache_budget.
Context {X : Mlx} {KH : KvHandles}.

(** A budget set before the first paged sequence reaches a pool created by an
    allocation, but not a pool created by the adoption of a detached set: that
    pool is unbounded, while the cache pool still reports the budget. *)
Lemma budget_lost_by_adoption lay n c :
  paged_pool c = None →
  let c0 := (set_paged_block_budget (Some n) c).1 in
  block_budget <$> paged_pool (ensure_paged_pool lay c0).1 = Some (Some n) ∧
  block_budget <$> paged_pool (ensure_paged_pool_from_layout lay c0).1 = Some None ∧
  paged_block_budget (ensure_paged_pool_from_layout lay c0).1 = Some n.
Proof.
  intros Hp c0. assert (paged_pool c0 = None) as H0 by (unfold c0; cbn; by rewrite Hp).
  unfold ensure_paged_pool, ensure_paged_pool_from_layout. rewrite !get_bind, H0. done.
Qed.
End cache_budget.

(** ** Runs *)

Section runs.
Existing Instance arrays.
Existing Instance offset_handles.

Lemma acquire_within_budget_witness :
  ∃ p' b, acquire_block 0 (set_block_budget (Some 1) (pool_new example_layout)) = (p', Ok b) ∧ b ∉ ([] : list N).
Proof.
  destruct (acquire_within_budget (set_block_budget (Some 1) (pool_new example_layout)) []) as [(p' & b & H1 & H2 & _) _].
  - apply pool_inv_budget, pool_new_inv. cbn. lia.
  - reflexivity.
  - cbn. reflexivity.
  - vm_compute. discriminate.
  - exists p', b. split; [exact H1|exact H2].
Defined.

(** Two paged sequences, the second with one block. *)
Definition two_sequences : CachePool :=
  let alloc := allocate_with_layout example_model (Some (paged_kv_cache example_layout)) in
  ((_ ← alloc; _ ← alloc; append_paged_tokens 1 0 2) (cache_pool_new 4)).1.

(** A restored table that names a new block and the other sequence's block. *)
Definition clashing_state : PagedSequenceState := mkSeqState 2 [mkLayerState [7; 0]%N 4 0].

(** Two error paths that lose state. A refused restore is not undone: the second block of
    the table is in use, so [restore_paged_state] fails, but the first block stays registered
    with a reference nobody holds, and the sequence has lost its block table. And a budget set
    before the first paged sequence reaches a pool created by an allocation, but not a pool
    created by the adoption of a detached set: that pool is unbounded, while the cache pool
    still reports the budget. *)
Theorem refused_restore_leaks :
  let r := restore_paged_state 0 clashing_state two_sequences in
  is_ok r.2 = false ∧
  refcount 7 <$> paged_pool two_sequences = Some 0%N ∧ refcount 7 <$> paged_pool r.1 = Some 1%N ∧
  bool_decide (7%N ∈ refs r.1 []) = false ∧
  bool_decide (is_Some (table_of two_sequences 0)) = true ∧ table_of r.1 0 = None ∧
  ∀ lay n c, paged_pool c = None →
    let c0 := (set_paged_block_budget (Some n) c).1 in
    block_budget <$> paged_pool (ensure_paged_pool lay c0).1 = Some (Some n) ∧
    block_budget <$> paged_pool (ensure_paged_pool_from_layout lay c0).1 = Some None ∧
    paged_block_budget (ensure_paged_pool_from_layout lay c0).1 = Some n.
Proof. cbn zeta. split_and!; [vm_refl..|exact budget_lost_by_adoption]. Qed.
End runs.
