(* ===== verification/PromptKey.v ===== *)
(** * Prompt cache keys and block hashes

    [server/prompt_cache/key.rs]: the identity of a cached prompt prefix and the
    byte strings that are hashed into its digest; [block_hash.rs] and
    [apc_lookup.rs]: the chain of block hashes over a token sequence and the
    check of a candidate against it; session keys and bucket identities
    ([types.rs]). The hash functions are the parameter [Hashes]; no theorem
    assumes anything of them: where two digests agree, either what was hashed
    agrees or a collision of the hash function is exhibited. *)

From S2P Require Import Prelude Bytes.

(** ** Bytes of strings and integers *)

Definition as_bytes (s : string) : list N := Ascii.N_of_ascii <$> String.list_ascii_of_string s.

(** [usize as u64], [i32::to_le_bytes]. *)
Definition u64_le (n : nat) : list N := to_le_bytes 8 (N.of_nat n).
Definition i32_le (z : Z) : list N := to_le_bytes 4 (Z.to_N (z mod 2 ^ 32)).

(** [a.iter().zip(b).take_while(|(x, y)| x == y).count()]. *)
Fixpoint common_prefix_len {A} `{EqDecision A} (a b : list A) : nat :=
  match a, b with
  | x :: a', y :: b' => if decide (x = y) then S (common_prefix_len a' b') else 0
  | _, _ => 0
  end.

(** The hash functions of the [blake3] and [sha2] crates, as functions of the
    concatenation of what the hasher was fed; the output is a [[u8; 32]]. *)
Class Hashes := {
  blake3 : list N → list N;
  sha256 : list N → list N;
  blake3_length x : length (blake3 x) = 32;
  sha256_length x : length (sha256 x) = 32;
}.

(** ** Keys *)

Definition Digest : Type := list N.
Definition MultimodalDigest : Type := list N.

Record PromptCacheKey := mkKey {
  model_id : string;
  lora_id : option string;
  template_sig : string;
  session_key : option string;
  mm_digest : MultimodalDigest;
  key_tokens : list Z;
  prefix_len : nat;
}.

Definition new_full model lora sig session mm tokens : PromptCacheKey :=
  mkKey model lora sig session mm tokens (length tokens).

Definition new_prefix model lora sig session mm tokens n : PromptCacheKey :=
  mkKey model lora sig session mm tokens (n `min` length tokens).

Definition effective_prefix_len (k : PromptCacheKey) : nat :=
  prefix_len k `min` length (key_tokens k).

Definition write_field (bytes : list N) : list N := u64_le (length bytes) ++ bytes.

(** What [PromptCacheKey::digest] feeds to the hasher. *)
Definition key_bytes (k : PromptCacheKey) : list N :=
  as_bytes "mlxcel:prompt-cache:v2" ++
  write_field (as_bytes (model_id k)) ++
  write_field (default [] (as_bytes <$> lora_id k)) ++
  write_field (as_bytes (template_sig k)) ++
  write_field (default [] (as_bytes <$> session_key k)) ++
  mm_digest k ++
  u64_le (effective_prefix_len k) ++
  (take (effective_prefix_len k) (key_tokens k) ≫= i32_le).

Definition digest `{Hashes} (k : PromptCacheKey) : Digest := blake3 (key_bytes k).

Definition multimodal_bytes (images audio : list (list N)) : list N :=
  as_bytes "mlxcel:prompt-cache:multimodal:v1" ++
  u64_le (length images) ++ (images ≫= write_field) ++
  u64_le (length audio) ++ (audio ≫= write_field).

Definition multimodal_digest `{Hashes} (images audio : list (list N)) : MultimodalDigest :=
  blake3 (multimodal_bytes images audio).

(** ** Session keys *)

Definition ANONYMOUS_SESSION_SENTINEL : string := "__mlxcel_anon__".

Inductive SessionKeySource := FromPromptCacheKey | FromSessionHeader | FromUser | Anonymous.

Definition resolve_session_key (prompt_cache_key header_session_id user : option string) :
    string * SessionKeySource :=
  match prompt_cache_key with
  | Some (String _ _ as k) => (k, FromPromptCacheKey)
  | _ =>
    match header_session_id with
    | Some (String _ _ as h) => (h, FromSessionHeader)
    | _ =>
      match user with
      | Some (String _ _ as u) => (u, FromUser)
      | _ => (ANONYMOUS_SESSION_SENTINEL, Anonymous)
      end
    end
  end.

Definition recordable_session_key (resolved : string) : option string :=
  if decide (resolved = "" ∨ resolved = ANONYMOUS_SESSION_SENTINEL) then None else Some resolved.

(** ** Buckets *)

Record BucketKey := mkBucket {
  b_model_id : string;
  b_lora_id : option string;
  b_template_sig : string;
  b_mm_digest : MultimodalDigest;
  b_session_key : option string;
}.

Definition bucket_from_key (k : PromptCacheKey) : BucketKey :=
  mkBucket (model_id k) (lora_id k) (template_sig k) (mm_digest k) (session_key k).

Record SessionlessBucketKey := mkSessionless {
  sl_model_id : string;
  sl_lora_id : option string;
  sl_template_sig : string;
  sl_mm_digest : MultimodalDigest;
}.

Definition sessionless_from_key (k : PromptCacheKey) : SessionlessBucketKey :=
  mkSessionless (model_id k) (lora_id k) (template_sig k) (mm_digest k).

#[global] Instance sessionless_eq_dec : EqDecision SessionlessBucketKey.
Proof. solve_decision. Defined.

#[global] Instance sessionless_countable : Countable SessionlessBucketKey.
Proof.
  refine (inj_countable'
    (λ k, (sl_model_id k, sl_lora_id k, sl_template_sig k, sl_mm_digest k))
    (λ t, mkSessionless t.1.1.1 t.1.1.2 t.1.2 t.2) _); by intros [].
Defined.

(** ** Block hash chains *)

Inductive ApcHashAlgo := Sha256 | Blake3.

#[global] Instance algo_eq_dec : EqDecision ApcHashAlgo.
Proof. solve_decision. Defined.

Definition DEFAULT_APC_BLOCK_SIZE : nat := 16.
Definition ApcBlockHash : Type := list N.
Definition ZERO_HASH : ApcBlockHash := replicate 32 0%N.

Definition block_bytes (parent : ApcBlockHash) (tokens : list Z) (extra : list N) : list N :=
  as_bytes "mlxcel:apc:block:v1" ++ parent ++ u64_le (length tokens) ++ (tokens ≫= i32_le) ++ extra.

Definition hash_block `{Hashes} (algo : ApcHashAlgo) (parent : ApcBlockHash) (tokens : list Z)
    (extra : list N) : ApcBlockHash :=
  match algo with
  | Sha256 => sha256 (block_bytes parent tokens extra)
  | Blake3 => blake3 (block_bytes parent tokens extra)
  end.

Record BlockHashChain := mkChain {
  hashes : list ApcBlockHash;
  chain_block_size : nat;
  token_count : nat;
  chain_algo : ApcHashAlgo;
}.

(** The loop of [compute] from block [idx] on; a slice past the end panics in
    Rust and cannot occur here, since [idx] stays below the block count. *)
Fixpoint chain_from `{Hashes} (n idx bs : nat) (algo : ApcHashAlgo) (extra : list N) (tokens : list Z)
    (parent : ApcBlockHash) : list ApcBlockHash :=
  match n with
  | 0 => []
  | S n' =>
    let start := idx * bs in
    let end_ := (S idx * bs) `min` length tokens in
    let next := hash_block algo parent (take (end_ - start) (drop start tokens)) extra in
    next :: chain_from n' (S idx) bs algo extra tokens next
  end.

(** A block size of zero is replaced by the default (the [debug_assert!] is
    absent from release builds). *)
Definition chain_compute `{Hashes} (tokens : list Z) (block_size : nat) (algo : ApcHashAlgo)
    (extra : list N) : BlockHashChain :=
  let bs := if decide (block_size = 0) then DEFAULT_APC_BLOCK_SIZE else block_size in
  mkChain (chain_from (div_ceil (length tokens) bs) 0 bs algo extra tokens ZERO_HASH)
    bs (length tokens) algo.

Definition full_blocks (c : BlockHashChain) : nat := token_count c `div` chain_block_size c.

Definition apc_consistent_prefix_len `{Hashes} (request_tokens : list Z)
    (candidate_hashes : list ApcBlockHash) (block_size : nat) (algo : ApcHashAlgo)
    (extra : list N) (matched_len : nat) : nat :=
  if decide (block_size = 0 ∨ matched_len < block_size) then 0 else
  let coverable := matched_len `div` block_size in
  if decide (coverable = 0) then 0 else
  let coverable := coverable `min` length candidate_hashes in
  if decide (coverable = 0) then 0 else
  let cap_tokens := (coverable * block_size) `min` length request_tokens in
  let request_chain := chain_compute (take cap_tokens request_tokens) block_size algo extra in
  let upper := coverable `min` length (hashes request_chain) in
  common_prefix_len (take upper (hashes request_chain)) (take upper candidate_hashes) * block_size.

(** ** Common prefixes *)

Section common_prefix.
Context {A : Type} `{EqDecision A}.
Implicit Types a b : list A.

Lemma cpl_le a b : common_prefix_len a b ≤ length a ∧ common_prefix_len a b ≤ length b.
Proof.
  revert b. induction a as [|x a IH]; intros [|y b]; cbn; try lia.
  case_decide; [|lia]. specialize (IH b). lia.
Qed.

Lemma cpl_take a b : take (common_prefix_len a b) a = take (common_prefix_len a b) b.
Proof.
  revert b. induction a as [|x a IH]; intros [|y b]; cbn; try done.
  case_decide as Hxy; [|done]. subst. cbn. by rewrite IH.
Qed.

Lemma cpl_max a b n : take n a = take n b → n ≤ length a → n ≤ length b → n ≤ common_prefix_len a b.
Proof.
  revert a b. induction n as [|n IH]; intros [|x a] [|y b]; cbn; try lia.
  intros [= -> Ht] ??. rewrite decide_True by done. specialize (IH a b Ht). lia.
Qed.

Lemma cpl_app a b c : take (length a) c = a →
  common_prefix_len (a ++ b) c = length a + common_prefix_len b (drop (length a) c).
Proof.
  revert c. induction a as [|x a IH]; intros [|y c]; cbn; try done.
  intros [= <- Ht]. rewrite decide_True by done. rewrite IH; [done|]. by rewrite Ht.
Qed.

Lemma cpl_short a b c : common_prefix_len a c < length a →
  common_prefix_len (a ++ b) c = common_prefix_len a c.
Proof.
  revert c. induction a as [|x a IH]; intros [|y c]; cbn; try lia.
  case_decide; [|done]. intros ?. rewrite IH; [done|lia].
Qed.

Lemma cpl_full a b : common_prefix_len a b = length a ↔ take (length a) b = a.
Proof.
  split.
  - intros Ha. rewrite <-Ha at 1. rewrite <-cpl_take, Ha. by apply firstn_all.
  - intros Ht. pose proof (cpl_app a [] b Ht) as Hc. rewrite app_nil_r in Hc. rewrite Hc. cbn. lia.
Qed.

Lemma cpl_diff a b : head a ≠ head b → common_prefix_len a b = 0.
Proof. destruct a as [|x a], b as [|y b]; cbn; try done. intros. rewrite decide_False; [done|congruence]. Qed.

End common_prefix.

(** ** What is hashed determines what was meant *)

Lemma as_bytes_inj s1 s2 : as_bytes s1 = as_bytes s2 → s1 = s2.
Proof.
  unfold as_bytes. intros Heq. apply list_fmap_eq_inj in Heq.
  - rewrite <-(String.string_of_list_ascii_of_string s1), <-(String.string_of_list_ascii_of_string s2).
    by rewrite Heq.
  - intros a b Hab. by rewrite <-(Ascii.ascii_N_embedding a), <-(Ascii.ascii_N_embedding b), Hab.
Qed.

Lemma u64_le_inj n m : (N.of_nat n ≤ u64_max)%N → (N.of_nat m ≤ u64_max)%N → u64_le n = u64_le m → n = m.
Proof.
  unfold u64_le. intros Hn Hm Heq. apply (f_equal from_le_bytes) in Heq.
  rewrite !from_to_le_bytes in Heq; [lia|..]; unfold u64_max in *; cbn; lia.
Qed.

Definition is_i32 (z : Z) : Prop := (i32_min ≤ z ≤ i32_max)%Z.

Lemma i32_le_inj y z : is_i32 y → is_i32 z → i32_le y = i32_le z → y = z.
Proof.
  unfold i32_le, is_i32, i32_min, i32_max. intros Hy Hz Heq. apply (f_equal from_le_bytes) in Heq.
  pose proof (Z.mod_pos_bound y (2 ^ 32) ltac:(lia)). pose proof (Z.mod_pos_bound z (2 ^ 32) ltac:(lia)).
  rewrite !from_to_le_bytes in Heq by (change (256 ^ N.of_nat 4)%N with (2 ^ 32)%N; lia).
  apply Z2N.inj in Heq; [|lia..].
  pose proof (Z.div_mod y (2 ^ 32) ltac:(lia)). pose proof (Z.div_mod z (2 ^ 32) ltac:(lia)). lia.
Qed.

Lemma app_inj_len {A} (a b c d : list A) : length a = length b → a ++ c = b ++ d → a = b ∧ c = d.
Proof. apply app_inj_1. Qed.

Lemma tokens_inj ts us r s : Forall is_i32 ts → Forall is_i32 us → length ts = length us →
  (ts ≫= i32_le) ++ r = (us ≫= i32_le) ++ s → ts = us ∧ r = s.
Proof.
  intros Ht. revert us. induction Ht as [|t ts Ht _ IH]; intros us Hu Hlen Heq.
  { by destruct us. }
  destruct Hu as [|u us Hu Hus]; [done|]. rewrite !bind_cons, <-!app_assoc in Heq.
  apply app_inj_len in Heq as [H1 H2]; [|unfold i32_le; by rewrite !length_to_le_bytes].
  apply i32_le_inj in H1; [|done..]. apply IH in H2 as [-> ->]; [by subst|done|]. cbn in Hlen. lia.
Qed.

Definition fits_u64 {A} (l : list A) : Prop := (N.of_nat (length l) ≤ u64_max)%N.

Lemma u64_le_app_inj n m r s : (N.of_nat n ≤ u64_max)%N → (N.of_nat m ≤ u64_max)%N →
  u64_le n ++ r = u64_le m ++ s → n = m ∧ r = s.
Proof.
  intros Hn Hm Heq. apply app_inj_len in Heq as [H1 H2]; [|unfold u64_le; by rewrite !length_to_le_bytes].
  by apply u64_le_inj in H1.
Qed.

Lemma write_field_inj a b r s : fits_u64 a → fits_u64 b →
  write_field a ++ r = write_field b ++ s → a = b ∧ r = s.
Proof.
  unfold write_field. intros Ha Hb. rewrite <-!app_assoc. intros Heq.
  apply u64_le_app_inj in Heq as [H1 H2]; [|done..]. by apply app_inj_len in H2.
Qed.

Lemma fields_inj xs ys r s : Forall fits_u64 xs → Forall fits_u64 ys → length xs = length ys →
  (xs ≫= write_field) ++ r = (ys ≫= write_field) ++ s → xs = ys ∧ r = s.
Proof.
  intros Hx. revert ys. induction Hx as [|x xs Hx _ IH]; intros ys Hy Hlen Heq.
  { by destruct ys. }
  destruct Hy as [|y ys Hy Hys]; [done|]. rewrite !bind_cons, <-!app_assoc in Heq.
  apply write_field_inj in Heq as [-> H2]; [|done..].
  apply IH in H2 as [-> ->]; [done|done|]. cbn in Hlen. lia.
Qed.

(** The dimensions of a key's identity. An absent adapter or session counts as
    an empty one; only the prefix of the tokens counts. *)
Definition identity (k : PromptCacheKey) :
    string * string * string * string * MultimodalDigest * list Z :=
  (model_id k, default "" (lora_id k), template_sig k, default "" (session_key k), mm_digest k,
   take (effective_prefix_len k) (key_tokens k)).

(** What the Rust types guarantee: 64-bit lengths, 32-byte digests, [i32] tokens. *)
Definition key_ok (k : PromptCacheKey) : Prop :=
  fits_u64 (as_bytes (model_id k)) ∧ fits_u64 (as_bytes (default "" (lora_id k))) ∧
  fits_u64 (as_bytes (template_sig k)) ∧ fits_u64 (as_bytes (default "" (session_key k))) ∧
  length (mm_digest k) = 32 ∧ fits_u64 (key_tokens k) ∧ Forall is_i32 (key_tokens k).

Definition collision (h : list N → list N) : Prop := ∃ x y, x ≠ y ∧ h x = h y.

Lemma hash_eq (h : list N → list N) x y : h x = h y → x = y ∨ collision h.
Proof. intros Heq. destruct (decide (x = y)); [by left|right; by exists x, y]. Qed.

Lemma default_bytes o : default [] (as_bytes <$> o) = as_bytes (default "" o).
Proof. by destruct o. Qed.

Lemma key_bytes_inj k1 k2 : key_ok k1 → key_ok k2 → key_bytes k1 = key_bytes k2 → identity k1 = identity k2.
Proof.
  intros (M1 & L1 & T1 & S1 & D1 & F1 & I1) (M2 & L2 & T2 & S2 & D2 & F2 & I2) Heq.
  unfold key_bytes, identity in *. rewrite !default_bytes in Heq. apply app_inv_head in Heq.
  apply write_field_inj in Heq as [Hm Heq]; [|done..].
  apply write_field_inj in Heq as [Hl Heq]; [|done..].
  apply write_field_inj in Heq as [Ht Heq]; [|done..].
  apply write_field_inj in Heq as [Hs Heq]; [|done..].
  apply app_inj_len in Heq as [Hd Heq]; [|congruence].
  assert (Hfit : ∀ k, fits_u64 (key_tokens k) → (N.of_nat (effective_prefix_len k) ≤ u64_max)%N)
    by (unfold fits_u64, effective_prefix_len; lia).
  apply u64_le_app_inj in Heq as [Hn Heq]; [|auto..].
  rewrite <-(app_nil_r (_ ≫= _)), <-(app_nil_r (take _ (key_tokens k2) ≫= _)) in Heq.
  apply tokens_inj in Heq as [Htk _];
    [|by apply Forall_take|by apply Forall_take|rewrite !length_take; unfold effective_prefix_len in *; lia].
  apply as_bytes_inj in Hm, Hl, Ht, Hs. by rewrite Hm, Hl, Ht, Hs, Hd, Htk.
Qed.

Lemma effective_length k : effective_prefix_len k = length (take (effective_prefix_len k) (key_tokens k)).
Proof. rewrite length_take. unfold effective_prefix_len. lia. Qed.

Lemma key_bytes_identity k1 k2 : identity k1 = identity k2 → key_bytes k1 = key_bytes k2.
Proof.
  intros [= Hm Hl Ht Hs Hd Htk]. assert (effective_prefix_len k1 = effective_prefix_len k2) as Hn
    by (rewrite (effective_length k1), (effective_length k2), Htk; done).
  unfold key_bytes. by rewrite !default_bytes, Hm, Hl, Ht, Hs, Hd, Htk, Hn.
Qed.

(** The tags at the front keep the three kinds of hashed strings apart. *)
Lemma tags_apart k im au p ts e : key_bytes k ≠ multimodal_bytes im au ∧
  key_bytes k ≠ block_bytes p ts e ∧ multimodal_bytes im au ≠ block_bytes p ts e.
Proof. unfold key_bytes, multimodal_bytes, block_bytes. cbn. by split_and!. Qed.

Lemma multimodal_bytes_inj im1 au1 im2 au2 :
  fits_u64 im1 → fits_u64 au1 → fits_u64 im2 → fits_u64 au2 →
  Forall fits_u64 im1 → Forall fits_u64 au1 → Forall fits_u64 im2 → Forall fits_u64 au2 →
  multimodal_bytes im1 au1 = multimodal_bytes im2 au2 → im1 = im2 ∧ au1 = au2.
Proof.
  unfold multimodal_bytes. intros ?????? Hi2 Ha2 Heq. apply app_inv_head in Heq.
  apply u64_le_app_inj in Heq as [Hn Heq]; [|done..].
  apply fields_inj in Heq as [-> Heq]; [|done..].
  apply u64_le_app_inj in Heq as [Hn2 Heq]; [|done..].
  rewrite <-(app_nil_r (au1 ≫= _)), <-(app_nil_r (au2 ≫= _)) in Heq.
  by apply fields_inj in Heq as [-> _].
Qed.

(** ** Chains *)

Section chains.
Context {H : Hashes}.

Definition algo_hash (algo : ApcHashAlgo) : list N → list N :=
  match algo with Sha256 => sha256 | Blake3 => blake3 end.

Lemma hash_block_eq algo p ts e : hash_block algo p ts e = algo_hash algo (block_bytes p ts e).
Proof. by destruct algo. Qed.

Lemma length_hash_block algo p ts e : length (hash_block algo p ts e) = 32.
Proof. destruct algo; [apply sha256_length|apply blake3_length]. Qed.

Lemma block_bytes_inj p1 p2 t1 t2 e1 e2 :
  length p1 = length p2 → fits_u64 t1 → fits_u64 t2 → Forall is_i32 t1 → Forall is_i32 t2 →
  block_bytes p1 t1 e1 = block_bytes p2 t2 e2 → p1 = p2 ∧ t1 = t2 ∧ e1 = e2.
Proof.
  unfold block_bytes. intros Hp ???? Heq. apply app_inv_head in Heq.
  apply app_inj_len in Heq as [-> Heq]; [|done].
  apply u64_le_app_inj in Heq as [Hn Heq]; [|done..].
  by apply tokens_inj in Heq as [-> ->].
Qed.

(** Block [i] of a token sequence. *)
Definition block (bs i : nat) (ts : list Z) : list Z := take bs (drop (i * bs) ts).

Lemma block_slice bs i (ts : list Z) :
  take ((S i * bs) `min` length ts - i * bs) (drop (i * bs) ts) = block bs i ts.
Proof.
  unfold block. destruct (decide (S i * bs ≤ length ts)).
  - f_equal. lia.
  - rewrite !(take_ge (drop _ _)); [done|rewrite length_drop; lia..].
Qed.

Lemma take_blocks bs i (ts : list Z) : take (S i * bs) ts = take (i * bs) ts ++ block bs i ts.
Proof. unfold block. replace (S i * bs) with (i * bs + bs) by lia. by rewrite <-take_take_drop. Qed.

Lemma block_ok bs i ts : fits_u64 ts → Forall is_i32 ts → fits_u64 (block bs i ts) ∧ Forall is_i32 (block bs i ts).
Proof.
  unfold fits_u64, block. intros ??. split.
  - rewrite length_take, length_drop. lia.
  - by apply Forall_take, Forall_drop.
Qed.

Lemma length_chain_from n idx bs algo e ts p : length (chain_from n idx bs algo e ts p) = n.
Proof. revert idx p. induction n; intros; cbn; auto. Qed.

(** Equal hashes at one position mean equal blocks up to it. *)
Lemma chain_sound n1 n2 idx bs algo e1 e2 t1 t2 p1 p2 i h :
  length p1 = length p2 → fits_u64 t1 → fits_u64 t2 → Forall is_i32 t1 → Forall is_i32 t2 →
  chain_from n1 idx bs algo e1 t1 p1 !! i = Some h → chain_from n2 idx bs algo e2 t2 p2 !! i = Some h →
  collision (algo_hash algo) ∨
  (p1 = p2 ∧ e1 = e2 ∧ ∀ j, j ≤ i → block bs (idx + j) t1 = block bs (idx + j) t2).
Proof.
  intros Hp Hf1 Hf2 Hi1 Hi2.
  revert n1 n2 idx p1 p2 Hp. induction i as [|i IH]; intros [|n1] [|n2] idx p1 p2 Hp; try done;
    cbn -[Nat.mul]; rewrite !block_slice, !hash_block_eq.
  - intros [= <-] [= Heq]. destruct (hash_eq _ _ _ Heq) as [Hb|]; [|by left]. right.
    destruct (block_ok bs idx t1 Hf1 Hi1), (block_ok bs idx t2 Hf2 Hi2).
    symmetry in Hb. apply block_bytes_inj in Hb as (-> & Hb & ->); [|done..].
    split_and!; [done..|]. intros j Hj. by replace (idx + j) with idx by lia.
  - intros H1 H2. specialize (IH n1 n2 (S idx)). rewrite <-!hash_block_eq in H1, H2.
    destruct (IH _ _ ltac:(by rewrite !length_hash_block) H1 H2) as [|(Hh & -> & Hj)]; [by left|].
    rewrite !hash_block_eq in Hh. destruct (hash_eq _ _ _ Hh) as [Hb|]; [|by left]. right.
    destruct (block_ok bs idx t1 Hf1 Hi1), (block_ok bs idx t2 Hf2 Hi2).
    apply block_bytes_inj in Hb as (-> & Hb & _); [|done..]. split_and!; [done..|].
    intros [|j] Hle; [by rewrite Nat.add_0_r|]. rewrite Nat.add_succ_r. apply (Hj j). lia.
Qed.

(** Equal blocks give equal hashes. *)
Lemma chain_local n1 n2 idx bs algo e t1 t2 p i :
  i < n1 → i < n2 → (∀ j, j ≤ i → block bs (idx + j) t1 = block bs (idx + j) t2) →
  chain_from n1 idx bs algo e t1 p !! i = chain_from n2 idx bs algo e t2 p !! i.
Proof.
  revert n1 n2 idx p. induction i as [|i IH]; intros [|n1] [|n2] idx p ?? Hb; try lia;
    cbn -[Nat.mul]; rewrite !block_slice; pose proof (Hb 0 ltac:(lia)) as Hb0;
    rewrite Nat.add_0_r in Hb0; rewrite Hb0; [done|].
  apply IH; [lia..|]. intros j Hj. specialize (Hb (S j) ltac:(lia)). by rewrite Nat.add_succ_r in Hb.
Qed.

Lemma blocks_take bs i (t1 t2 : list Z) :
  (∀ j, j ≤ i → block bs j t1 = block bs j t2) ↔ take (S i * bs) t1 = take (S i * bs) t2.
Proof.
  split.
  - induction i as [|i IH]; intros Hb; rewrite (take_blocks bs _ t1), (take_blocks bs _ t2); [by rewrite (Hb 0)|].
    rewrite (IH ltac:(intros; apply Hb; lia)). by rewrite Hb.
  - intros Ht j Hj. unfold block. destruct (Nat.eq_dec bs 0) as [->|]; [done|].
    apply (f_equal (λ l, take bs (drop (j * bs) l))) in Ht.
    rewrite !skipn_firstn_comm, !take_take, !Nat.min_l in Ht by nia. done.
Qed.

End chains.

(** ** The clamp of a partial match *)

Section clamp.
Context {H : Hashes}.

Lemma chain_hashes bs algo e ts : 0 < bs →
  hashes (chain_compute ts bs algo e) = chain_from (div_ceil (length ts) bs) 0 bs algo e ts ZERO_HASH.
Proof. intros. unfold chain_compute. cbn. by rewrite decide_False by lia. Qed.

Lemma cpl_last (a b : list ApcBlockHash) n : common_prefix_len a b = S n →
  ∃ h, a !! n = Some h ∧ b !! n = Some h.
Proof.
  intros Hc. pose proof (cpl_le a b). pose proof (cpl_take a b) as Ht. rewrite Hc in Ht.
  destruct (lookup_lt_is_Some_2 a n ltac:(lia)) as [h Hh]. exists h. split; [done|].
  rewrite <-(lookup_take_lt b (S n)), <-Ht, lookup_take_lt by lia. done.
Qed.

Lemma clamp_eq req cand bs algo e m :
  apc_consistent_prefix_len req cand bs algo e m =
  (let cov := (m `div` bs) `min` length cand in
   let up := cov `min` length (hashes (chain_compute (take ((cov * bs) `min` length req) req) bs algo e)) in
   if decide (bs = 0) then 0 else
   common_prefix_len (take up (hashes (chain_compute (take ((cov * bs) `min` length req) req) bs algo e)))
     (take up cand) * bs).
Proof.
  unfold apc_consistent_prefix_len. cbn zeta.
  destruct (decide (bs = 0)) as [->|Hbs]; [by rewrite decide_True by lia|].
  assert (Hz : m `div` bs = 0 ↔ m < bs) by (apply Nat.div_small_iff; lia).
  set (q := m `div` bs) in *. clearbody q.
  repeat case_decide; try done; replace (q `min` length cand) with 0 by lia; done.
Qed.

Lemma clamp_bound req cand bs algo e m n : n = apc_consistent_prefix_len req cand bs algo e m →
  ∃ q, n = q * bs ∧ n ≤ m.
Proof.
  intros ->. rewrite clamp_eq. cbn zeta. case_decide; [exists 0; lia|]. eexists. split; [done|].
  set (cov := m `div` bs `min` length cand). set (ch := hashes _).
  pose proof (cpl_le (take (cov `min` length ch) ch) (take (cov `min` length ch) cand)) as [Hle _].
  rewrite length_take in Hle. transitivity (m `div` bs * bs).
  - apply Nat.mul_le_mono_r. lia.
  - pose proof (Nat.Div0.mul_div_le m bs). lia.
Qed.

Lemma clamp_sound req entry bs algo e1 e2 m n :
  0 < bs → fits_u64 req → fits_u64 entry → Forall is_i32 req → Forall is_i32 entry →
  n = apc_consistent_prefix_len req (hashes (chain_compute entry bs algo e2)) bs algo e1 m →
  collision (algo_hash algo) ∨ (take n req = take n entry ∧ (0 < n → e1 = e2)).
Proof.
  intros Hbs Hf1 Hf2 Hi1 Hi2 ->. rewrite clamp_eq. cbn zeta. rewrite decide_False by lia.
  set (cov := m `div` bs `min` length (hashes (chain_compute entry bs algo e2))).
  set (r := take ((cov * bs) `min` length req) req). set (up := cov `min` _).
  destruct (common_prefix_len _ _) as [|k] eqn:Hk; [right; by split; [|lia]|].
  apply cpl_last in Hk as (h & Hr & He). rewrite lookup_take_Some in Hr, He.
  rewrite !chain_hashes in Hr, He by done. destruct Hr as [Hr Hlt], He as [He _].
  assert (Hf : fits_u64 r) by (unfold fits_u64, r in *; rewrite length_take; lia).
  destruct (chain_sound _ _ _ _ _ _ _ _ _ _ _ _ _ eq_refl Hf Hf2 ltac:(by apply Forall_take) Hi2 Hr He)
    as [|(_ & -> & Hb)]; [by left|right]. split; [|done].
  apply blocks_take in Hb. rewrite <-Hb. unfold r. rewrite take_take.
  destruct (decide (cov * bs ≤ length req)).
  - f_equal. rewrite (Nat.min_l (cov * bs)) by done. rewrite Nat.min_l; [done|].
    apply Nat.mul_le_mono_r. lia.
  - rewrite (Nat.min_r (cov * bs)) by lia. destruct (decide (S k * bs ≤ length req)).
    + by rewrite Nat.min_l.
    + rewrite Nat.min_r by lia. rewrite !take_ge by lia. done.
Qed.

Lemma clamp_complete req entry bs algo e m :
  0 < bs → m ≤ length req → m ≤ length entry → take m req = take m entry →
  apc_consistent_prefix_len req (hashes (chain_compute entry bs algo e)) bs algo e m = m `div` bs * bs.
Proof.
  intros Hbs Hr He Ht. rewrite clamp_eq. cbn zeta. rewrite decide_False by lia. f_equal.
  assert (Hm : m `div` bs * bs ≤ m) by (pose proof (Nat.Div0.mul_div_le m bs); lia).
  assert (Hd : ∀ n, m `div` bs * bs ≤ n → m `div` bs ≤ div_ceil n bs).
  { intros n Hn. pose proof (div_ceil_spec n bs Hbs). nia. }
  rewrite !chain_hashes by done. rewrite !length_chain_from.
  rewrite (Nat.min_l (m `div` bs) (div_ceil (length entry) bs)) by (apply Hd; lia).
  rewrite (Nat.min_l (_ * _) (length req)) by lia.
  rewrite Nat.min_l by (apply Hd; rewrite length_take; lia).
  set (q := m `div` bs) in *. apply Nat.le_antisymm.
  - etrans; [apply cpl_le|]. rewrite length_take. lia.
  - apply cpl_max; [|rewrite length_take, length_chain_from; apply Nat.min_glb; [done|apply Hd; rewrite ?length_take; lia]..].
    rewrite !take_take. apply list_eq. intros i. destruct (decide (i < q)) as [Hi|Hi].
    + rewrite !lookup_take_lt by lia. apply chain_local.
      * apply (Nat.lt_le_trans _ q); [done|]. apply Hd. rewrite length_take. lia.
      * apply (Nat.lt_le_trans _ q); [done|]. apply Hd. lia.
      * cbn. apply blocks_take. rewrite take_take, Nat.min_l by nia.
        apply (f_equal (take (S i * bs))) in Ht. rewrite !take_take, !Nat.min_l in Ht by nia. done.
    + rewrite !lookup_take_ge by lia. done.
Qed.

(** A hit through the block hashes is a real one. Whatever length the trie
    reported, the clamped length is a whole number of blocks, not longer, and
    the request and the entry agree on that many tokens and on the images and
    audio (or the hash function has a collision); and where they do agree on the
    reported length, nothing but the last incomplete block is given up. *)
Theorem apc_clamp_correct req entry bs algo e1 e2 m :
  0 < bs → fits_u64 req → fits_u64 entry → Forall is_i32 req → Forall is_i32 entry →
  let n := apc_consistent_prefix_len req (hashes (chain_compute entry bs algo e2)) bs algo e1 m in
  (∃ q, n = q * bs ∧ n ≤ m) ∧
  (collision (algo_hash algo) ∨ (take n req = take n entry ∧ (0 < n → e1 = e2))) ∧
  (e1 = e2 → m ≤ length req → m ≤ length entry → take m req = take m entry → n = m `div` bs * bs).
Proof.
  intros Hbs Hf1 Hf2 Hi1 Hi2 n. split_and!.
  - by eapply clamp_bound.
  - by eapply clamp_sound.
  - intros -> ???. by apply clamp_complete.
Qed.

(** C31. What is hashed identifies what it was computed from, whatever the hash
    function. The bytes of two keys are equal exactly when model, adapter,
    template, session, media digest and token prefix are; those of two media
    digests exactly when images and audio are the same in the same order; those of
    two blocks exactly when parent, tokens and media are; and bytes of different
    kinds are never equal. So keys that differ in a field can share a digest only
    if their two byte strings collide. Lengths are below 2^64, tokens are 32-bit,
    digests have 32 bytes; an absent adapter or session counts as an empty one. *)
Theorem prompt_digest_identifies :
  (∀ k1 k2, key_ok k1 → key_ok k2 → key_bytes k1 = key_bytes k2 ↔ identity k1 = identity k2) ∧
  (∀ im1 au1 im2 au2, Forall (Forall fits_u64) [im1; au1; im2; au2] → Forall fits_u64 [im1; au1; im2; au2] →
     multimodal_bytes im1 au1 = multimodal_bytes im2 au2 ↔ im1 = im2 ∧ au1 = au2) ∧
  (∀ p1 p2 t1 t2 e1 e2, length p1 = 32 → length p2 = 32 → Forall fits_u64 [t1; t2] → Forall (Forall is_i32) [t1; t2] →
     block_bytes p1 t1 e1 = block_bytes p2 t2 e2 ↔ p1 = p2 ∧ t1 = t2 ∧ e1 = e2) ∧
  (∀ k im au p ts e, key_bytes k ≠ multimodal_bytes im au ∧ key_bytes k ≠ block_bytes p ts e ∧
     multimodal_bytes im au ≠ block_bytes p ts e) ∧
  (∀ k1 k2, key_ok k1 → key_ok k2 → digest k1 = digest k2 → identity k1 ≠ identity k2 →
     key_bytes k1 ≠ key_bytes k2 ∧ blake3 (key_bytes k1) = blake3 (key_bytes k2)).
Proof.
  split_and!.
  - intros k1 k2 H1 H2. split; [by apply key_bytes_inj|by apply key_bytes_identity].
  - intros im1 au1 im2 au2 Hf Hn. split; [|by intros [-> ->]].
    rewrite !Forall_cons in Hf, Hn. destruct_and!. by apply multimodal_bytes_inj.
  - intros p1 p2 t1 t2 e1 e2 H1 H2 Hf Hi. split; [|by intros (-> & -> & ->)].
    rewrite !Forall_cons in Hf, Hi. destruct_and!. apply block_bytes_inj; (done || congruence).
  - intros. apply tags_apart.
  - intros k1 k2 H1 H2 Hd Hne. split; [|exact Hd]. intros Hb. by apply Hne, key_bytes_inj.
Qed.

End clamp.

(** A concrete hash for the witnesses: the first 32 bytes, padded. *)
Definition first_32 (x : list N) : list N := take 32 (x ++ replicate 32 0%N).

Lemma length_first_32 x : length (first_32 x) = 32.
Proof. unfold first_32. rewrite length_take, length_app, length_replicate. lia. Qed.

#[global] Instance prefix_hash : Hashes :=
  {| blake3 := first_32; sha256 x := first_32 (reverse x);
     blake3_length := length_first_32; sha256_length x := length_first_32 (reverse x) |}.

Lemma apc_clamp_correct_witness :
  let req := [1; 2; 3; 4; 5]%Z in let entry := [1; 2; 3; 4; 6; 7]%Z in
  apc_consistent_prefix_len req (hashes (chain_compute entry 2 Blake3 [])) 2 Blake3 [] 4 = 4 ∧
  take 4 req = take 4 entry.
Proof.
  cbn zeta.
  destruct (apc_clamp_correct [1; 2; 3; 4; 5]%Z [1; 2; 3; 4; 6; 7]%Z 2 Blake3 [] [] 4) as (_ & _ & Hn).
  - lia.
  - unfold fits_u64, u64_max. cbn. lia.
  - unfold fits_u64, u64_max. cbn. lia.
  - repeat constructor; done.
  - repeat constructor; done.
  - rewrite Hn; [done|done|cbn; lia|cbn; lia|done].
Defined.

Definition example_key (lora : option string) : PromptCacheKey :=
  new_full "m" lora "sig" (Some "s") (replicate 32 7%N) [1; -2; 3]%Z.

Lemma example_key_ok lora : fits_u64 (as_bytes (default "" lora)) → key_ok (example_key lora).
Proof.
  intros Hl. unfold key_ok. cbn [example_key new_full model_id lora_id template_sig session_key mm_digest key_tokens].
  split_and!; try done. repeat constructor; done.
Qed.

Lemma prompt_digest_identifies_witness :
  key_bytes (example_key None) = key_bytes (example_key (Some "")) ∧
  key_bytes (example_key None) ≠ key_bytes (example_key (Some "a")).
Proof.
  split; (apply (proj1 prompt_digest_identifies); [apply example_key_ok; done|apply example_key_ok; done|reflexivity]) ||
    (intros Hb; apply (proj1 prompt_digest_identifies) in Hb; [|apply example_key_ok; done..]; discriminate Hb).
Defined.
