(* ===== verification/PromptTrie.v ===== *)
(** * The radix trie of the prompt cache

    [server/prompt_cache/trie.rs]: a path-compressed trie over token prefixes,
    with a list of digests at each node, and the longest-prefix walk.

    A node's children are a hash map keyed by the first token of the child's
    edge: an association list here, in the order in which the map happens to
    iterate. The code walks down with raw pointers, collects the path and then
    updates the nodes on it from the bottom up; the recursions below do the same
    on the way back. *)

From S2P Require Import Prelude Bytes PromptKey.

Record DigestAndLen := mkDL { dl_digest : Digest; dl_token_len : nat }.

#[global] Instance DigestAndLen_eq_dec : EqDecision DigestAndLen.
Proof. solve_decision. Defined.

Inductive TrieNode := mkNode {
  edge : list Z;
  entries : list DigestAndLen;
  subtree_count : nat;
  children : list (Z * TrieNode);
}.

Definition empty_trie : TrieNode := mkNode [] [] 0 [].

Definition recompute_subtree_count (es : list DigestAndLen) (cs : list (Z * TrieNode)) : nat :=
  length es + sum_list (subtree_count ∘ snd <$> cs).

(** A node with its count recomputed. *)
Definition recounted (e : list Z) (es : list DigestAndLen) (cs : list (Z * TrieNode)) : TrieNode :=
  mkNode e es (recompute_subtree_count es cs) cs.

(** ** The children map *)

Section children.
Context {A R : Type}.

(** [children.get(&k).map(f)]. *)
Definition with_child (f : A → R) (k : Z) : list (Z * A) → option R :=
  fix go cs := match cs with
  | [] => None
  | (k', c) :: cs' => if decide (k' = k) then Some (f c) else go cs'
  end.

(** The child under [k] changed by [f], or [v] inserted when there is none. *)
Definition upsert (f : A → A) (v : A) (k : Z) : list (Z * A) → list (Z * A) :=
  fix go cs := match cs with
  | [] => [(k, v)]
  | (k', c) :: cs' => if decide (k' = k) then (k', f c) :: cs' else (k', c) :: go cs'
  end.

(** The child under [k] replaced or removed; [None] when there is none or [f]
    declines. *)
Definition alter_child (f : A → option (option A)) (k : Z) : list (Z * A) → option (list (Z * A)) :=
  fix go cs := match cs with
  | [] => None
  | (k', c) :: cs' =>
    if decide (k' = k) then
      match f c with
      | None => None
      | Some None => Some cs'
      | Some (Some c') => Some ((k', c') :: cs')
      end
    else cons (k', c) <$> go cs'
  end.

End children.

(** ** Insertion *)

(** [if let Some(existing) = entries.iter_mut().find(..) { *existing = record }
    else { entries.push(record) }]. *)
Fixpoint put_record (r : DigestAndLen) (es : list DigestAndLen) : list DigestAndLen :=
  match es with
  | [] => [r]
  | e :: es' => if decide (dl_digest e = dl_digest r) then r :: es' else e :: put_record r es'
  end.

Definition leaf (tokens : list Z) (r : DigestAndLen) : TrieNode := mkNode tokens [r] 1 [].

Definition with_edge (e : list Z) (n : TrieNode) : TrieNode :=
  mkNode e (entries n) (subtree_count n) (children n).

(** The edge of [child] shares only its first [common] tokens with [tokens]: an
    intermediate node takes them. Both remainders are indexed at 0; the first is
    not empty since [common] is less than the edge's length, the second since the
    other branch of the conditional was not taken. *)
Definition split_child (child : TrieNode) (common : nat) (tokens : list Z) (r : DigestAndLen) : TrieNode :=
  let shared := take common (edge child) in
  let old_remainder := drop common (edge child) in
  let old := (hd 0%Z old_remainder, with_edge old_remainder child) in
  if decide (length tokens = common) then recounted shared [r] [old]
  else
    let new_remainder := drop common tokens in
    recounted shared [] [old; (hd 0%Z new_remainder, leaf new_remainder r)].

Fixpoint insert_into (node : TrieNode) (tokens : list Z) (r : DigestAndLen) : TrieNode :=
  let 'mkNode e es _ cs := node in
  match tokens with
  | [] => recounted e (put_record r es) cs
  | first_tok :: _ =>
    recounted e es
      (upsert (λ child,
         let common := common_prefix_len (edge child) tokens in
         if decide (common = length (edge child)) then insert_into child (drop common tokens) r
         else split_child child common tokens r)
       (leaf tokens r) first_tok cs)
  end.

Definition insert (tokens : list Z) (d : Digest) (root : TrieNode) : TrieNode :=
  insert_into root tokens (mkDL d (length tokens)).

(** ** Removal *)

Definition is_empty_leaf (n : TrieNode) : bool :=
  match entries n, children n with [], [] => true | _, _ => false end.

Definition merge_only_child_if_empty (n : TrieNode) : TrieNode :=
  match entries n, children n with
  | [], [(_, c)] => recounted (edge n ++ edge c) (entries c) (children c)
  | _, _ => n
  end.

(** [None] is the [false] return, before anything was changed. *)
Fixpoint remove_from (is_root : bool) (node : TrieNode) (tokens : list Z) (d : Digest) : option TrieNode :=
  let 'mkNode e es _ cs := node in
  match tokens with
  | [] =>
    let es' := filter (λ r, dl_digest r ≠ d) es in
    if decide (length es' = length es) then None else Some (recounted e es' cs)
  | first_tok :: _ =>
    cs' ← alter_child (λ child,
      let elen := length (edge child) in
      if decide (length tokens < elen ∨ take elen tokens ≠ edge child) then None
      else
        child' ← remove_from false child (drop elen tokens) d;
        Some (if is_empty_leaf child' then None else Some child')) first_tok cs;
    let node' := mkNode e es (subtree_count node) cs' in
    let node' := if is_root then node' else merge_only_child_if_empty node' in
    Some (recounted (edge node') (entries node') (children node'))
  end.

Definition remove (tokens : list Z) (d : Digest) (root : TrieNode) : TrieNode * bool :=
  match remove_from true root tokens d with Some root' => (root', true) | None => (root, false) end.

Definition trie_len (root : TrieNode) : nat := subtree_count root.

(** ** The walk *)

Record TrieMatch := mkMatch {
  subtree : TrieNode;
  consumed_from_subtree_edge : nat;
  depth : nat;
}.

(** The loop of [walk_longest] below [node]; [depth] counts from there. *)
Fixpoint walk (node : TrieNode) (tokens : list Z) : TrieMatch :=
  match tokens with
  | [] => mkMatch node 0 0
  | next_tok :: _ =>
    let 'mkNode _ _ _ cs := node in
    default (mkMatch node 0 0) (with_child (λ child,
      let matched := common_prefix_len (edge child) tokens in
      if decide (matched = 0) then mkMatch node 0 0
      else if decide (matched < length (edge child)) then mkMatch child matched matched
      else
        let m := walk child (drop matched tokens) in
        mkMatch (subtree m) (consumed_from_subtree_edge m) (matched + depth m)) next_tok cs)
  end.

Definition walk_longest (root : TrieNode) (tokens : list Z) : option TrieMatch :=
  if decide (subtree_count root = 0) then None else
  let m := walk root tokens in
  if decide (depth m = 0) then None else Some m.

Definition find_longest_prefix (root : TrieNode) (tokens : list Z) (min_len : nat) : option TrieMatch :=
  m ← walk_longest root tokens;
  if decide (depth m < min_len) then None else Some m.

(** [dfs] keeps a stack: a node's records, then its children from the last to the
    first. *)
Fixpoint dfs (n : TrieNode) : list DigestAndLen :=
  let 'mkNode _ es _ cs := n in
  es ++ (fix go cs acc := match cs with
         | [] => acc
         | (_, c) :: cs' => go cs' (dfs c ++ acc)
         end) cs [].

(** ** What a trie stores *)

Definition under (e : list Z) (l : list (list Z * DigestAndLen)) : list (list Z * DigestAndLen) :=
  prod_map (e ++.) id <$> l.

(** The stored records with their paths, from below the node's own edge. *)
Fixpoint contents (n : TrieNode) : list (list Z * DigestAndLen) :=
  let 'mkNode _ es _ cs := n in
  (pair [] <$> es) ++ (cs ≫= λ kc, under (edge kc.2) (contents kc.2)).

(** The same, including the node's edge. *)
Definition stored (n : TrieNode) : list (list Z * DigestAndLen) := under (edge n) (contents n).

(** The invariants of the module documentation: edges are not empty, children are
    keyed by the first token of their edge and unique, counts are exact, a digest
    occurs once per node, and no node but the root is an empty leaf. *)
Fixpoint wf (n : TrieNode) : Prop :=
  let 'mkNode _ es k cs := n in
  NoDup (dl_digest <$> es) ∧ NoDup cs.*1 ∧ k = recompute_subtree_count es cs ∧
  foldr (λ kc P, (head (edge kc.2) = Some kc.1 ∧ is_empty_leaf kc.2 = false ∧ wf kc.2) ∧ P) True cs.

Definition child_ok (kc : Z * TrieNode) : Prop :=
  head (edge kc.2) = Some kc.1 ∧ is_empty_leaf kc.2 = false ∧ wf kc.2.

Lemma wf_node e es k cs :
  wf (mkNode e es k cs) ↔
  NoDup (dl_digest <$> es) ∧ NoDup cs.*1 ∧ k = recompute_subtree_count es cs ∧ Forall child_ok cs.
Proof.
  cbn. do 3 (apply and_iff_compat_l). split.
  - induction cs as [|c cs IH]; cbn; [by constructor|]. intros [Hc Hcs]. constructor; [done|by apply IH].
  - induction 1; cbn; by split.
Qed.

Lemma contents_node e es k cs :
  contents (mkNode e es k cs) = (pair [] <$> es) ++ (cs ≫= λ kc, stored kc.2).
Proof. done. Qed.

(** Induction over a trie and its children. *)
Fixpoint trie_ind (P : TrieNode → Prop)
    (Hnode : ∀ e es k cs, Forall (P ∘ snd) cs → P (mkNode e es k cs)) (n : TrieNode) : P n :=
  let 'mkNode e es k cs := n in
  Hnode e es k cs ((fix go cs := match cs return Forall (P ∘ snd) cs with
                    | [] => Forall_nil_2 _
                    | c :: cs' => Forall_cons_2 _ c cs' (trie_ind P Hnode c.2) (go cs')
                    end) cs).

(** ** Lemmas on children *)

Section child_lemmas.
Context {A R : Type}.
Implicit Types (cs : list (Z * A)) (c : A).

Lemma child_cases k cs : k ∉ cs.*1 ∨ ∃ l1 c l2, cs = l1 ++ (k, c) :: l2 ∧ k ∉ l1.*1.
Proof.
  induction cs as [|[k' c] cs IH]; [left; cbn; apply not_elem_of_nil|].
  destruct (decide (k' = k)) as [->|Hk]; [right; exists [], c, cs; split; [done|apply not_elem_of_nil]|].
  destruct IH as [Hn|(l1 & c2 & l2 & -> & Hn)]; [left|right; exists ((k', c) :: l1), c2, l2; split; [done|]];
    cbn; rewrite not_elem_of_cons; split; congruence || done.
Qed.

Lemma with_child_None (f : A → R) k cs : k ∉ cs.*1 → with_child f k cs = None.
Proof.
  induction cs as [|[k' c] cs IH]; [done|]. cbn. rewrite not_elem_of_cons. intros [Hk Hn].
  rewrite decide_False by congruence. by apply IH.
Qed.

Lemma with_child_Some (f : A → R) k l1 c l2 : k ∉ l1.*1 → with_child f k (l1 ++ (k, c) :: l2) = Some (f c).
Proof.
  induction l1 as [|[k' c'] l1 IH]; cbn; [by rewrite decide_True|]. rewrite not_elem_of_cons.
  intros [Hk Hn]. rewrite decide_False by congruence. by apply IH.
Qed.

Lemma upsert_None (f : A → A) v k cs : k ∉ cs.*1 → upsert f v k cs = cs ++ [(k, v)].
Proof.
  induction cs as [|[k' c] cs IH]; [done|]. cbn. rewrite not_elem_of_cons. intros [Hk Hn].
  rewrite decide_False by congruence. by rewrite IH.
Qed.

Lemma upsert_Some (f : A → A) v k l1 c l2 : k ∉ l1.*1 →
  upsert f v k (l1 ++ (k, c) :: l2) = l1 ++ (k, f c) :: l2.
Proof.
  induction l1 as [|[k' c'] l1 IH]; cbn; [by rewrite decide_True|]. rewrite not_elem_of_cons.
  intros [Hk Hn]. rewrite decide_False by congruence. by rewrite IH.
Qed.

Lemma alter_child_None (f : A → option (option A)) k cs : k ∉ cs.*1 → alter_child f k cs = None.
Proof.
  induction cs as [|[k' c] cs IH]; [done|]. cbn. rewrite not_elem_of_cons. intros [Hk Hn].
  rewrite decide_False by congruence. by rewrite IH.
Qed.

Lemma alter_child_Some (f : A → option (option A)) k l1 c l2 : k ∉ l1.*1 →
  alter_child f k (l1 ++ (k, c) :: l2) =
    (λ o, l1 ++ match o with Some c' => (k, c') :: l2 | None => l2 end) <$> f c.
Proof.
  induction l1 as [|[k' c'] l1 IH]; cbn.
  - intros _. rewrite decide_True by done. by destruct (f c) as [[]|].
  - rewrite not_elem_of_cons. intros [Hk Hn]. rewrite decide_False by congruence. rewrite IH by done.
    by destruct (f c) as [[]|].
Qed.

End child_lemmas.

(** ** Stored records *)

Definition same (tokens : list Z) (d : Digest) (pr : list Z * DigestAndLen) : Prop :=
  pr.1 = tokens ∧ dl_digest pr.2 = d.
#[global] Instance same_dec tokens d pr : Decision (same tokens d pr).
Proof. unfold same. apply _. Defined.

Definition others (tokens : list Z) (d : Digest) (l : list (list Z * DigestAndLen)) :=
  filter (λ pr, ¬ same tokens d pr) l.

Lemma others_app ts d l1 l2 : others ts d (l1 ++ l2) = others ts d l1 ++ others ts d l2.
Proof. apply filter_app. Qed.

Lemma others_id ts d l : (∀ pr, pr ∈ l → ¬ same ts d pr) → others ts d l = l.
Proof.
  induction l as [|x l IH]; intros Hl; [done|]. unfold others in *. rewrite filter_cons, decide_True.
  - f_equal. apply IH. intros pr Hpr. apply Hl. by right.
  - apply Hl. by left.
Qed.

Lemma others_under e ts d l : others (e ++ ts) d (under e l) = under e (others ts d l).
Proof.
  unfold others, under. induction l as [|[p r] l IH]; [done|].
  cbn [fmap list_fmap]. rewrite !filter_cons. cbn [prod_map fst snd].
  assert (same (e ++ ts) d (prod_map (app e) id (p, r)) ↔ same ts d (p, r)) as Hs.
  { unfold same. cbn. split; intros [Hp Hr]; split; try done; [by apply app_inv_head in Hp|by rewrite Hp]. }
  do 2 case_decide; try tauto; cbn; by rewrite IH.
Qed.

Lemma under_app e l1 l2 : under e (l1 ++ l2) = under e l1 ++ under e l2.
Proof. apply fmap_app. Qed.

Lemma under_under e1 e2 l : under e1 (under e2 l) = under (e1 ++ e2) l.
Proof. unfold under. rewrite <-list_fmap_compose. apply list_fmap_ext. intros ? [p r] _. cbn. by rewrite app_assoc. Qed.

Lemma under_nil l : under [] l = l.
Proof. unfold under. rewrite <-(list_fmap_id l) at 2. apply list_fmap_ext. by intros ? [p r] _. Qed.

#[global] Instance under_perm e : Proper ((≡ₚ) ==> (≡ₚ)) (under e).
Proof. intros l1 l2 Hl. unfold under. by rewrite Hl. Qed.

#[global] Instance others_perm ts d : Proper ((≡ₚ) ==> (≡ₚ)) (others ts d).
Proof. intros l1 l2 Hl. unfold others. by rewrite Hl. Qed.

Lemma elem_of_under e l q r : (q, r) ∈ under e l ↔ ∃ p, q = e ++ p ∧ (p, r) ∈ l.
Proof.
  unfold under. rewrite list_elem_of_fmap. split.
  - intros ([p r'] & [= -> ->] & Hp). eauto.
  - intros (p & -> & Hp). by exists (p, r).
Qed.

Lemma stored_head k c q r : head (edge c) = Some k → (q, r) ∈ stored c → head q = Some k.
Proof. unfold stored. rewrite elem_of_under. intros He (p & -> & _). by destruct (edge c). Qed.

Lemma below_head cs q r : Forall child_ok cs → (q, r) ∈ (cs ≫= λ kc, stored kc.2) →
  ∃ k, head q = Some k ∧ k ∈ cs.*1.
Proof.
  intros Hcs. rewrite list_elem_of_bind. intros ([k c] & Hq & Hin). rewrite Forall_forall in Hcs.
  destruct (Hcs _ Hin) as (Hh & _). exists k. split; [by eapply stored_head|].
  apply list_elem_of_fmap. by exists (k, c).
Qed.

Lemma others_below ts d cs k : Forall child_ok cs → head ts = Some k → k ∉ cs.*1 →
  others ts d (cs ≫= λ kc, stored kc.2) = cs ≫= λ kc, stored kc.2.
Proof.
  intros Hcs Hts Hk. apply others_id. intros [q r] Hin [Hq _]. cbn in Hq. subst q.
  destruct (below_head _ _ _ Hcs Hin) as (k' & Hk' & ?). congruence.
Qed.

Lemma others_here ts d (es : list DigestAndLen) : ts ≠ [] → others ts d (pair [] <$> es) = pair [] <$> es.
Proof. intros Hts. apply others_id. intros [q r] (r' & [= -> ->] & _)%list_elem_of_fmap [Hq _]. by subst. Qed.

Lemma contents_length n : wf n → length (contents n) = subtree_count n.
Proof.
  induction n as [e es k cs IH] using trie_ind. rewrite wf_node, contents_node. intros (_ & _ & -> & Hcs).
  unfold recompute_subtree_count. cbn [subtree_count]. rewrite length_app, length_fmap. f_equal.
  induction IH as [|[k' c] cs Hc _ IH2]; [done|]. apply Forall_cons in Hcs as [(_ & _ & Hw) Hcs].
  rewrite bind_cons, length_app. cbn. rewrite IH2 by done. f_equal. unfold stored, under.
  rewrite length_fmap. by apply Hc.
Qed.

Lemma nonempty_contents n : wf n → is_empty_leaf n = false → contents n ≠ [].
Proof.
  induction n as [e es k cs IH] using trie_ind. rewrite wf_node, contents_node. intros (_ & _ & _ & Hcs) Hne.
  destruct es as [|r es]; [|done]. destruct cs as [|[k' c] cs]; [done|].
  apply Forall_cons in IH as [IHc _], Hcs as [(_ & Hec & Hwc) _]. rewrite bind_cons. cbn in *.
  intros [Hs _]%app_eq_nil. unfold stored, under in Hs. apply fmap_nil_inv in Hs. by apply IHc.
Qed.

(** ** Insertion stores the record *)

Lemma put_record_digests r es : NoDup (dl_digest <$> es) → NoDup (dl_digest <$> put_record r es).
Proof.
  assert (∀ d es, d ∈ dl_digest <$> put_record r es → d = dl_digest r ∨ d ∈ dl_digest <$> es) as Hin.
  { clear. intros d es. induction es as [|e es IH]; cbn; [rewrite list_elem_of_singleton; by left|].
    case_decide; cbn; rewrite !elem_of_cons; tauto. }
  induction es as [|e es IH]; cbn; [intros; apply NoDup_singleton|]. rewrite NoDup_cons. intros [He Hes].
  case_decide as Hd; cbn; [by rewrite <-Hd; constructor|]. constructor; [|by apply IH].
  intros [?|?]%Hin; done.
Qed.

Lemma put_record_contents r es : NoDup (dl_digest <$> es) →
  pair [] <$> put_record r es ≡ₚ ([], r) :: others [] (dl_digest r) (pair [] <$> es).
Proof.
  induction es as [|e es IH]; [done|]. cbn [put_record]. rewrite fmap_cons, NoDup_cons. intros [He Hes].
  unfold others in *. rewrite (fmap_cons (pair []) e), filter_cons. case_decide as Hd; rewrite fmap_cons.
  - rewrite decide_False by (unfold same; cbn; tauto). f_equiv. symmetry. apply reflexive_eq, others_id.
    intros [q r'] (r2 & [= -> ->] & Hr2)%list_elem_of_fmap [_ Hs]. cbn in Hs. apply He.
    apply list_elem_of_fmap. exists r2. split; [congruence|done].
  - rewrite decide_True by (unfold same; cbn; tauto). rewrite IH by done. apply perm_swap.
Qed.

(** The shape of a node whose child under [k] was replaced. *)
Lemma child_replaced l1 k (c c' : TrieNode) l2 es :
  Forall child_ok (l1 ++ (k, c) :: l2) → NoDup (l1 ++ (k, c) :: l2).*1 → child_ok (k, c') →
  Forall child_ok (l1 ++ (k, c') :: l2) ∧ NoDup (l1 ++ (k, c') :: l2).*1 ∧
  (es ++ ((l1 ++ (k, c') :: l2) ≫= λ kc, stored kc.2)) ≡ₚ
    stored c' ++ es ++ ((l1 ++ l2) ≫= λ kc, stored kc.2).
Proof.
  rewrite !Forall_app, !Forall_cons, !fmap_app. intros (H1 & _ & H2) Hnd Hc. split_and!; [done..|].
  rewrite !bind_app, bind_cons. cbn. solve_Permutation.
Qed.

Lemma with_edge_contents e n : contents (with_edge e n) = contents n.
Proof. by destruct n. Qed.

Lemma with_edge_wf e n : wf (with_edge e n) ↔ wf n.
Proof. by destruct n. Qed.

Lemma leaf_ok k ts d : head ts = Some k → child_ok (k, leaf ts d).
Proof. intros Hh. split_and!; [done..|]. cbn. split_and!; [apply NoDup_singleton|apply NoDup_nil_2|done..]. Qed.

Lemma leaf_stored ts r : stored (leaf ts r) = [(ts, r)].
Proof. unfold stored, under. cbn. by rewrite app_nil_r. Qed.

Lemma hd_head (l : list Z) : l ≠ [] → head l = Some (hd 0%Z l).
Proof. by destruct l. Qed.

Lemma drop_cpl_differ (a b : list Z) : common_prefix_len a b < length a → common_prefix_len a b ≠ length b →
  hd 0%Z (drop (common_prefix_len a b) a) ≠ hd 0%Z (drop (common_prefix_len a b) b).
Proof.
  revert b. induction a as [|x a IH]; intros [|y b]; cbn; try lia.
  case_decide; cbn; [|done]. intros ??. apply IH; lia.
Qed.

Lemma split_child_spec k c ts r common : child_ok (k, c) → head ts = Some k →
  common = common_prefix_len (edge c) ts → common ≠ length (edge c) →
  child_ok (k, split_child c common ts r) ∧ stored (split_child c common ts r) ≡ₚ (ts, r) :: stored c ∧
  ∀ d, others ts d (stored c) = stored c.
Proof.
  intros (Hh & Hne & Hw) Hts Hcm Hlt. cbn in Hh, Hne, Hw. pose proof (cpl_le (edge c) ts) as [Hle1 Hle2].
  pose proof (cpl_take (edge c) ts) as Htk. rewrite <-Hcm in *.
  assert (Hold : drop common (edge c) ≠ []) by (intros Hn%(f_equal length); rewrite length_drop in Hn; cbn in Hn; lia).
  assert (Hpos : common ≠ 0).
  { subst common. destruct (edge c) as [|x e], ts as [|y ts']; try done. simplify_eq/=. by rewrite decide_True. }
  set (old := (hd 0%Z (drop common (edge c)), with_edge (drop common (edge c)) c)).
  assert (Hok : child_ok old).
  { unfold old. split_and!; cbn [fst snd]; [by apply hd_head|by destruct c|by apply with_edge_wf]. }
  assert (Hst : under (take common (edge c)) (stored old.2) = stored c).
  { unfold stored, old. cbn [snd]. rewrite with_edge_contents, under_under. cbn. by rewrite take_drop. }
  assert (Hsh : head (take common (edge c)) = Some k) by (destruct common; [done|by destruct (edge c)]).
  split_and!.
  - split_and!; cbn [fst snd]; unfold split_child; case_decide; try done; apply wf_node; fold old.
    + split_and!; [apply NoDup_singleton|apply NoDup_singleton|done|by constructor].
    + split_and!; [apply NoDup_nil_2|..]; [|done|].
      * cbn. apply NoDup_cons. split; [|apply NoDup_singleton]. rewrite list_elem_of_singleton.
        rewrite Hcm. apply drop_cpl_differ; lia.
      * constructor; [done|]. constructor; [|done]. apply leaf_ok, hd_head. intros Hn%(f_equal length).
        rewrite length_drop in Hn. cbn in Hn. lia.
  - unfold split_child. fold old. unfold stored at 1. case_decide as Hl; unfold recounted; rewrite contents_node;
      cbn [edge]; rewrite ?bind_cons; cbn [fmap list_fmap snd mbind list_bind]; rewrite !under_app, Hst.
    + cbn. rewrite !app_nil_r. rewrite Htk, take_ge by lia. done.
    + rewrite leaf_stored. cbn. rewrite Htk, take_drop. solve_Permutation.
  - intros d. apply others_id. intros [q r'] Hq [Hqt _]. cbn in Hqt. subst q. unfold stored in Hq.
    apply elem_of_under in Hq as (p & -> & _). apply Hlt. rewrite Hcm. apply cpl_full. by rewrite take_app_length.
Qed.

Lemma insert_here e es cs r : wf (recounted e es cs) →
  wf (recounted e (put_record r es) cs) ∧ is_empty_leaf (recounted e (put_record r es) cs) = false ∧
  contents (recounted e (put_record r es) cs) ≡ₚ ([], r) :: others [] (dl_digest r) (contents (recounted e es cs)).
Proof.
  unfold recounted. rewrite !wf_node, !contents_node. intros (Hd & Hk & _ & Hcs).
  rewrite others_app, put_record_contents by done.
  split_and!; [by apply put_record_digests|done..| |].
  - by destruct es; cbn; [|case_decide].
  - cbn. rewrite (others_id [] _ (cs ≫= _)); [done|]. intros [q r'] Hin [Hq _]. cbn in Hq. subst q.
    by destruct (below_head _ _ _ Hcs Hin) as (? & ? & _).
Qed.

Lemma insert_leaf e es cs t ts r : wf (recounted e es cs) → t ∉ cs.*1 →
  let n' := recounted e es (cs ++ [(t, leaf (t :: ts) r)]) in
  wf n' ∧ is_empty_leaf n' = false ∧
  contents n' ≡ₚ (t :: ts, r) :: others (t :: ts) (dl_digest r) (contents (recounted e es cs)).
Proof.
  cbv zeta. unfold recounted. intros (Hd & Hk & _ & Hcs)%wf_node Hn.
  assert (Hl : child_ok (t, leaf (t :: ts) r)) by by apply leaf_ok.
  split; [apply wf_node; split_and!; try done|split].
  - rewrite fmap_app. apply NoDup_app. split_and!; [done| |apply NoDup_singleton].
    intros x Hx. cbn. rewrite list_elem_of_singleton. by intros ->.
  - apply Forall_app. split; [done|by constructor].
  - by destruct es, cs.
  - rewrite !contents_node, others_app, others_here, (others_below _ _ _ t) by done.
    rewrite bind_app, bind_cons. cbn [snd]. rewrite leaf_stored. cbn. solve_Permutation.
Qed.

(** A step into a child: what happens to the child's records happens to the node's. *)
Lemma update_child e es l1 t c c' l2 ts d new : wf (recounted e es (l1 ++ (t, c) :: l2)) →
  head ts = Some t → t ∉ l1.*1 → child_ok (t, c') → stored c' ≡ₚ new ++ others ts d (stored c) →
  let n' := recounted e es (l1 ++ (t, c') :: l2) in
  wf n' ∧ is_empty_leaf n' = false ∧
  contents n' ≡ₚ new ++ others ts d (contents (recounted e es (l1 ++ (t, c) :: l2))).
Proof.
  cbv zeta. unfold recounted. intros (Hd & Hk & _ & Hcs)%wf_node Hts Hn Hc' Hst.
  destruct (child_replaced l1 t c c' l2 (pair [] <$> es)) as (Ha & Hb & Hp); [done..|].
  split; [by apply wf_node|]. split; [by destruct es, l1|]. rewrite !contents_node, Hp, Hst.
  rewrite others_app, others_here by (by intros ->). rewrite !bind_app, bind_cons, !others_app. cbn [snd].
  rewrite Forall_app, Forall_cons in Hcs. destruct Hcs as (Hl1 & _ & Hl2).
  rewrite fmap_app, fmap_cons in Hk. apply NoDup_app in Hk as (_ & _ & [Hn2 _]%NoDup_cons).
  rewrite (others_below _ _ l1 t), (others_below _ _ l2 t) by done. cbn. solve_Permutation.
Qed.

Lemma insert_into_spec n ts r : wf n →
  wf (insert_into n ts r) ∧ edge (insert_into n ts r) = edge n ∧ is_empty_leaf (insert_into n ts r) = false ∧
  contents (insert_into n ts r) ≡ₚ (ts, r) :: others ts (dl_digest r) (contents n).
Proof.
  revert ts. induction n as [e es k cs IH] using trie_ind. intros ts Hwf.
  pose proof Hwf as (Hd & Hk & -> & Hcs)%wf_node. destruct ts as [|t ts]; cbn [insert_into].
  { destruct (insert_here e es cs r Hwf) as (? & ? & ?). by split_and!. }
  destruct (child_cases t cs) as [Hn|(l1 & c & l2 & -> & Hn)].
  { rewrite upsert_None by done. destruct (insert_leaf e es cs t ts r Hwf Hn) as (? & ? & ?). by split_and!. }
  rewrite upsert_Some by done. set (c' := if decide _ then _ else _).
  rewrite Forall_app, Forall_cons in Hcs, IH. destruct Hcs as (_ & Hc & _), IH as (_ & IH & _).
  assert (child_ok (t, c') ∧ stored c' ≡ₚ [(t :: ts, r)] ++ others (t :: ts) (dl_digest r) (stored c))
    as [Hc' Hst].
  { pose proof Hc as (Hh & Hne & Hw). cbn in Hh, Hne, Hw, IH. subst c'. case_decide as Hcm.
    - destruct (IH (drop (common_prefix_len (edge c) (t :: ts)) (t :: ts)) Hw) as (Hw' & He' & Hne' & Hc').
      split; [unfold child_ok; cbn [fst snd]; by rewrite He'|]. unfold stored. rewrite He', Hc', Hcm.
      apply cpl_full in Hcm. rewrite <-(take_drop (length (edge c)) (t :: ts)) at 2 3.
      rewrite Hcm, others_under. done.
    - destruct (split_child_spec t c (t :: ts) r _ Hc eq_refl eq_refl Hcm) as (H1 & H2 & H3).
      split; [done|]. rewrite H3. done. }
  destruct (update_child e es l1 t c c' l2 (t :: ts) (dl_digest r) _ Hwf eq_refl Hn Hc' Hst) as (? & ? & ?).
  by split_and!.
Qed.

(** ** Removal forgets it *)

Lemma remove_here e es cs d : wf (recounted e es cs) →
  let es' := filter (λ r, dl_digest r ≠ d) es in
  wf (recounted e es' cs) ∧
  contents (recounted e es' cs) = others [] d (contents (recounted e es cs)) ∧
  (length es' = length es ↔ ∀ pr, pr ∈ contents (recounted e es cs) → ¬ same [] d pr).
Proof.
  cbv zeta. unfold recounted. intros (Hd & Hk & _ & Hcs)%wf_node.
  assert (Hb : ∀ pr, pr ∈ (cs ≫= λ kc, stored kc.2) → ¬ same [] d pr).
  { intros [q r] Hin [Hq _]. cbn in Hq. subst q. by destruct (below_head _ _ _ Hcs Hin) as (? & ? & _). }
  split_and!.
  - apply wf_node. split_and!; try done. eapply sublist_NoDup; [exact Hd|].
    apply fmap_sublist, sublist_filter.
  - rewrite !contents_node, others_app, (others_id [] d (cs ≫= _)) by done. f_equal.
    unfold others. clear. induction es as [|r es IH]; [done|]. rewrite !fmap_cons, !filter_cons. unfold same. cbn.
    do 2 case_decide; try tauto; cbn; by rewrite IH.
  - rewrite contents_node. split.
    + intros Hl pr [Hpr|Hpr]%elem_of_app; [|by apply Hb].
      apply list_elem_of_fmap in Hpr as (r & -> & Hr). intros [_ Hs]. cbn in Hs.
      apply (length_filter_lt (λ r, dl_digest r ≠ d) es r) in Hr; [lia|tauto].
    + intros Hn. f_equal. clear -Hn. induction es as [|r es IH]; [done|]. rewrite filter_cons, decide_True.
      * f_equal. apply IH. intros pr Hpr. apply Hn. rewrite fmap_cons. set_solver.
      * intros Hr. apply (Hn ([], r)); [rewrite fmap_cons; set_solver|done].
Qed.

(** Dropping a child that has lost all its records. *)
Lemma drop_child e es l1 t c l2 ts d : wf (recounted e es (l1 ++ (t, c) :: l2)) →
  head ts = Some t → t ∉ l1.*1 → others ts d (stored c) = [] →
  wf (recounted e es (l1 ++ l2)) ∧
  contents (recounted e es (l1 ++ l2)) ≡ₚ others ts d (contents (recounted e es (l1 ++ (t, c) :: l2))).
Proof.
  unfold recounted. intros (Hd & Hk & _ & Hcs)%wf_node Hts Hn Hst.
  rewrite Forall_app, Forall_cons in Hcs. destruct Hcs as (Hl1 & _ & Hl2).
  assert (Hsub : (l1 ++ l2).*1 `sublist_of` (l1 ++ (t, c) :: l2).*1).
  { apply fmap_sublist, sublist_app; [done|]. by apply sublist_cons. }
  split; [apply wf_node; split_and!; [done|by eapply sublist_NoDup|done|by apply Forall_app]|].
  rewrite fmap_app, fmap_cons in Hk. apply NoDup_app in Hk as (_ & _ & [Hn2 _]%NoDup_cons).
  rewrite !contents_node, others_app, others_here by (by intros ->).
  rewrite !bind_app, bind_cons, !others_app. cbn [snd]. rewrite Hst.
  by rewrite (others_below _ _ l1 t), (others_below _ _ l2 t) by done.
Qed.

Definition normal (n : TrieNode) : TrieNode := recounted (edge n) (entries n) (children n).

Lemma stored_only_child e k t c : stored (mkNode e [] k [(t, c)]) = under (e ++ edge c) (contents c).
Proof.
  unfold stored at 1. rewrite contents_node, bind_cons. cbn [edge fmap list_fmap snd]. rewrite !app_nil_r.
  apply under_under.
Qed.

Lemma merge_spec n : wf (normal n) →
  wf (normal (merge_only_child_if_empty n)) ∧
  stored (normal (merge_only_child_if_empty n)) = stored (normal n) ∧
  edge n `prefix_of` edge (merge_only_child_if_empty n).
Proof.
  destruct n as [e es k cs]. unfold merge_only_child_if_empty, normal, recounted. cbn [entries children edge].
  destruct es as [|r es]; [|done]. destruct cs as [|[t c] [|]]; [done| |done].
  intros (_ & _ & _ & Hcs)%wf_node. apply Forall_cons in Hcs as [(Hh & Hne & Hw) _]. cbn [snd] in Hw.
  destruct c as [ec esc kc csc]. apply wf_node in Hw as (? & ? & _ & ?). cbn [edge entries children].
  split_and!; [by apply wf_node| |by apply prefix_app_r].
  by rewrite stored_only_child.
Qed.

Lemma empty_leaf_contents n : is_empty_leaf n = true → contents n = [].
Proof. by destruct n as [e [|] k [|]]. Qed.

Lemma exists_same ts d (l : list (list Z * DigestAndLen)) : ¬ (∀ pr, pr ∈ l → ¬ same ts d pr) → ∃ pr, pr ∈ l ∧ same ts d pr.
Proof.
  intros Hn. destruct (decide (Exists (same ts d) l)) as [He|He]; [by apply Exists_exists|].
  destruct Hn. intros pr Hpr Hs. apply He, Exists_exists. eauto.
Qed.

(** A record on a path that starts with [t] lies in the child under [t]. *)
Lemma same_in_child e es l1 t c l2 ts d pr : wf (recounted e es (l1 ++ (t, c) :: l2)) →
  head ts = Some t → t ∉ l1.*1 → pr ∈ contents (recounted e es (l1 ++ (t, c) :: l2)) → same ts d pr →
  pr ∈ stored c.
Proof.
  unfold recounted. intros (_ & Hk & _ & Hcs)%wf_node Hts Hn Hpr Hs. destruct pr as [q r].
  pose proof Hs as [Hq _]. cbn in Hq. subst q.
  rewrite fmap_app, fmap_cons in Hk. apply NoDup_app in Hk as (_ & _ & [Hn2 _]%NoDup_cons).
  rewrite Forall_app, Forall_cons in Hcs. destruct Hcs as (Hl1 & _ & Hl2).
  rewrite contents_node, bind_app, bind_cons, !elem_of_app in Hpr. destruct Hpr as [Hpr|[Hpr|[Hpr|Hpr]]].
  - apply list_elem_of_fmap in Hpr as (? & [= -> ->] & _). done.
  - destruct (below_head _ _ _ Hl1 Hpr) as (k' & ? & ?). congruence.
  - done.
  - destruct (below_head _ _ _ Hl2 Hpr) as (k' & ? & ?). cbn in Hn2. congruence.
Qed.

(** What the loop over the path does to a parent, after its children changed. *)
Lemma parent_updated (b : bool) e es k cs cs' ts d :
  wf (recounted e es cs') → contents (recounted e es cs') ≡ₚ others ts d (contents (recounted e es cs)) →
  (∃ pr, pr ∈ contents (recounted e es cs) ∧ same ts d pr) →
  let n1 := mkNode e es k cs' in let n' := normal (if b then n1 else merge_only_child_if_empty n1) in
  wf n' ∧ (∃ pr, pr ∈ contents (recounted e es cs) ∧ same ts d pr) ∧
  stored n' ≡ₚ under e (others ts d (contents (recounted e es cs))) ∧
  e `prefix_of` edge n' ∧ (b = true → edge n' = e).
Proof.
  intros Hw Hc Hex n1 n'. subst n' n1. destruct b.
  - split_and!; try done. unfold stored. by rewrite <-Hc.
  - destruct (merge_spec (mkNode e es k cs') Hw) as (Hw' & Hs' & Hp').
    split_and!; try done. rewrite Hs'. unfold stored. cbn [normal edge]. by rewrite <-Hc.
Qed.

Lemma removed_in_child (b : bool) e es k l1 t c c' l2 ts rest d :
  wf (recounted e es (l1 ++ (t, c) :: l2)) → head ts = Some t → t ∉ l1.*1 → ts = edge c ++ rest →
  wf c' → (∃ pr, pr ∈ contents c ∧ same rest d pr) → edge c `prefix_of` edge c' →
  head (edge c) = Some t → stored c' ≡ₚ others ts d (stored c) →
  let cs' := l1 ++ match (if is_empty_leaf c' then None else Some c') with
                   | Some c' => (t, c') :: l2 | None => l2 end in
  let n1 := mkNode e es k cs' in let n' := normal (if b then n1 else merge_only_child_if_empty n1) in
  let n := recounted e es (l1 ++ (t, c) :: l2) in
  wf n' ∧ (∃ pr, pr ∈ contents n ∧ same ts d pr) ∧
  stored n' ≡ₚ under e (others ts d (contents n)) ∧ e `prefix_of` edge n' ∧ (b = true → edge n' = e).
Proof.
  cbv zeta. intros Hwf Hts Hn Hsplit Hw' ([p r] & Hin & [Hp Hr]) [suf Hpre] Hh Hst.
  set (cs' := l1 ++ _).
  assert (wf (recounted e es cs') ∧
    contents (recounted e es cs') ≡ₚ others ts d (contents (recounted e es (l1 ++ (t, c) :: l2)))) as [Hwc Hcc].
  { unfold cs'. destruct (is_empty_leaf c') eqn:He.
    - apply drop_child; try done. unfold stored at 1 in Hst.
      rewrite empty_leaf_contents in Hst by done. by apply Permutation_nil in Hst.
    - destruct (update_child e es l1 t c c' l2 ts d []) as (? & _ & ?); try done.
      split_and!; cbn; [|done..]. rewrite Hpre. by destruct (edge c). }
  apply parent_updated; [done..|].
  exists (ts, r). split; [|done]. unfold recounted. rewrite contents_node, bind_app, bind_cons, !elem_of_app.
  right; right; left. apply elem_of_under. exists p. cbn in Hp. by subst.
Qed.

Lemma remove_from_spec b n ts d : wf n →
  match remove_from b n ts d with
  | None => ∀ pr, pr ∈ contents n → ¬ same ts d pr
  | Some n' => wf n' ∧ (∃ pr, pr ∈ contents n ∧ same ts d pr) ∧
      stored n' ≡ₚ under (edge n) (others ts d (contents n)) ∧
      edge n `prefix_of` edge n' ∧ (b = true → edge n' = edge n)
  end.
Proof.
  revert b ts. induction n as [e es k cs IH] using trie_ind. intros b ts Hwf.
  pose proof Hwf as (Hd & Hk & -> & Hcs)%wf_node. destruct ts as [|t ts]; cbn [remove_from].
  { destruct (remove_here e es cs d Hwf) as (Hw & Hc & Hiff). case_decide as Hl; [by apply Hiff|].
    split_and!; [done| |by unfold stored; rewrite Hc|done..].
    apply exists_same. intros Hne. by apply Hl, Hiff. }
  destruct (child_cases t cs) as [Hn|(l1 & c & l2 & -> & Hn)].
  { rewrite alter_child_None by done. cbn [mbind option_bind]. rewrite contents_node. intros [q r] Hq [Hqt _]. cbn in Hqt. subst q.
    apply elem_of_app in Hq as [(? & ? & _)%list_elem_of_fmap|Hq]; [done|].
    by destruct (below_head _ _ _ Hcs Hq) as (k' & [= <-] & ?). }
  rewrite alter_child_Some by done.
  rewrite Forall_app, Forall_cons in Hcs, IH. destruct Hcs as (_ & Hc & _), IH as (_ & IH & _).
  pose proof Hc as (Hh & _ & Hw). cbn [fst snd compose] in Hh, Hw, IH.
  case_decide as Hg; cbn [fmap option_fmap option_map mbind option_bind].
  { intros pr Hpr Hs. pose proof (same_in_child e es l1 t c l2 (t :: ts) d pr Hwf eq_refl Hn Hpr Hs) as Hin.
    destruct pr as [q r], Hs as [Hq _]. cbn in Hq. subst q. apply elem_of_under in Hin as (p & Hp & _).
    rewrite Hp, length_app, take_app_length in Hg. destruct Hg; [lia|done]. }
  assert (Hsplit : t :: ts = edge c ++ drop (length (edge c)) (t :: ts)).
  { rewrite <-(take_drop (length (edge c)) (t :: ts)) at 1. f_equal. apply dec_stable. tauto. }
  set (rest := drop (length (edge c)) (t :: ts)) in *. specialize (IH false rest Hw).
  destruct (remove_from false c rest d) as [c'|]; cbn [mbind option_bind option_map].
  - destruct IH as (Hw' & Hex & Hst & Hpre & _). rewrite <-others_under, <-Hsplit in Hst.
    apply (removed_in_child b e es _ l1 t c c' l2 (t :: ts) rest d); done.
  - intros pr Hpr Hs. pose proof (same_in_child e es l1 t c l2 (t :: ts) d pr Hwf eq_refl Hn Hpr Hs) as Hin.
    destruct pr as [q r], Hs as [Hq Hr]. cbn in Hq, Hr. subst q. apply elem_of_under in Hin as (p & Hp & Hin).
    apply (IH _ Hin). split; [|done]. rewrite Hsplit in Hp. by apply app_inv_head in Hp.
Qed.

(** ** The walk finds the longest common prefix *)

Lemma dfs_contents n : dfs n ≡ₚ snd <$> contents n.
Proof.
  induction n as [e es k cs IH] using trie_ind. rewrite contents_node, fmap_app, <-list_fmap_compose.
  cbn [dfs]. rewrite (list_fmap_ext (snd ∘ pair []) id es), list_fmap_id by done. f_equiv.
  rewrite <-(app_nil_r (snd <$> _)). generalize (@nil DigestAndLen) at 1 2.
  induction IH as [|[t c] cs Hc _ IH2]; intros acc; [done|]. rewrite IH2, bind_cons, fmap_app.
  cbn [compose snd] in *. rewrite Hc. unfold stored, under. rewrite <-list_fmap_compose.
  rewrite (list_fmap_ext (snd ∘ prod_map (app (edge c)) id) snd (contents c)) by done. solve_Permutation.
Qed.

(** The records at the common prefix length [dp] with [ts]. *)
Definition at_depth (ts : list Z) (dp : nat) (l : list (list Z * DigestAndLen)) :=
  filter (λ pr, common_prefix_len pr.1 ts = dp) l.

Lemma at_depth_none ts dp l : (∀ p r, (p, r) ∈ l → common_prefix_len p ts ≠ dp) → at_depth ts dp l = [].
Proof.
  intros Hl. unfold at_depth. destruct (filter _ l) as [|[p r] l'] eqn:He; [done|].
  assert ((p, r) ∈ (p, r) :: l') as Hin by left. rewrite <-He, list_elem_of_filter in Hin.
  destruct Hin as [Hd Hin]. by destruct (Hl p r Hin).
Qed.

Lemma at_depth_all ts dp l : (∀ p r, (p, r) ∈ l → common_prefix_len p ts = dp) → at_depth ts dp l = l.
Proof.
  unfold at_depth. induction l as [|[p r] l IH]; intros Hl; [done|]. rewrite filter_cons, decide_True.
  - f_equal. apply IH. intros p' r' Hin. apply (Hl p' r'). by right.
  - apply (Hl p r). by left.
Qed.

Lemma below_cpl cs t ts p r : Forall child_ok cs → t ∉ cs.*1 → (p, r) ∈ (cs ≫= λ kc, stored kc.2) →
  common_prefix_len p (t :: ts) = 0.
Proof.
  intros Hcs Ht Hin. destruct (below_head _ _ _ Hcs Hin) as (k & Hk & Hkin). apply cpl_diff. cbn. congruence.
Qed.

(** Records outside the child under [t] share nothing with a path that starts with [t]. *)
Lemma cpl_outside e es l1 t c l2 ts p r : wf (recounted e es (l1 ++ (t, c) :: l2)) → t ∉ l1.*1 →
  (p, r) ∈ contents (recounted e es (l1 ++ (t, c) :: l2)) →
  common_prefix_len p (t :: ts) = 0 ∨ (p, r) ∈ stored c.
Proof.
  unfold recounted. intros (_ & Hk & _ & Hcs)%wf_node Hn Hpr.
  rewrite fmap_app, fmap_cons in Hk. apply NoDup_app in Hk as (_ & _ & [Hn2 _]%NoDup_cons).
  rewrite Forall_app, Forall_cons in Hcs. destruct Hcs as (Hl1 & _ & Hl2).
  rewrite contents_node, bind_app, bind_cons, !elem_of_app in Hpr. destruct Hpr as [Hpr|[Hpr|[Hpr|Hpr]]].
  - apply list_elem_of_fmap in Hpr as (? & [= -> ->] & _). by left.
  - left. by apply (below_cpl l1 t ts p r).
  - by right.
  - left. by apply (below_cpl l2 t ts p r).
Qed.

Lemma at_depth_child e es l1 t c l2 ts dp : wf (recounted e es (l1 ++ (t, c) :: l2)) → t ∉ l1.*1 →
  0 < dp → at_depth (t :: ts) dp (contents (recounted e es (l1 ++ (t, c) :: l2))) = at_depth (t :: ts) dp (stored c).
Proof.
  unfold recounted. intros (_ & Hk & _ & Hcs)%wf_node Hn Hdp.
  rewrite fmap_app, fmap_cons in Hk. apply NoDup_app in Hk as (_ & _ & [Hn2 _]%NoDup_cons).
  rewrite Forall_app, Forall_cons in Hcs. destruct Hcs as (Hl1 & _ & Hl2).
  rewrite contents_node, bind_app, bind_cons. unfold at_depth. rewrite !filter_app.
  fold (at_depth (t :: ts) dp (pair [] <$> es)) (at_depth (t :: ts) dp (l1 ≫= λ kc, stored kc.2))
    (at_depth (t :: ts) dp (l2 ≫= λ kc, stored kc.2)).
  rewrite !at_depth_none; [by rewrite app_nil_r|..].
  - intros p r Hin. rewrite (below_cpl l2 t ts p r) by done. lia.
  - intros p r Hin. rewrite (below_cpl l1 t ts p r) by done. lia.
  - intros p r (? & [= -> ->] & _)%list_elem_of_fmap. cbn. lia.
Qed.

Lemma dfs_stored c : dfs c ≡ₚ snd <$> stored c.
Proof. rewrite dfs_contents. unfold stored, under. by rewrite <-list_fmap_compose. Qed.

Lemma at_depth_under e ts dp l : at_depth (e ++ ts) (length e + dp) (under e l) = under e (at_depth ts dp l).
Proof.
  unfold at_depth, under. induction l as [|[p r] l IH]; [done|]. rewrite fmap_cons, !filter_cons. cbn [prod_map fst].
  rewrite cpl_app by (by rewrite take_app_length). rewrite drop_app_length.
  do 2 case_decide; try lia; by rewrite ?fmap_cons, IH.
Qed.

(** What the walk returns: the length of the longest prefix of [ts] that starts a
    stored path, and a subtree with exactly the records that share it. *)
Definition longest (n : TrieNode) (ts : list Z) (m : TrieMatch) : Prop :=
  depth m ≤ length ts ∧ (0 < depth m → dfs (subtree m) ≠ []) ∧
  (∀ p r, (p, r) ∈ contents n → common_prefix_len p ts ≤ depth m) ∧
  dfs (subtree m) ≡ₚ snd <$> at_depth ts (depth m) (contents n).

Lemma longest_stop n ts :
  (∀ p r, (p, r) ∈ contents n → common_prefix_len p ts = 0) → longest n ts (mkMatch n 0 0).
Proof.
  intros Hz. unfold longest. cbn [depth subtree].
  split_and!; [lia|lia|intros p r Hin; by rewrite (Hz p r Hin)|].
  rewrite dfs_contents, at_depth_all; [done|exact Hz].
Qed.

Lemma dfs_nonempty c : wf c → is_empty_leaf c = false → dfs c ≠ [].
Proof.
  intros Hw Hne Hd. pose proof (dfs_contents c) as Hp. rewrite Hd in Hp. symmetry in Hp.
  apply Permutation_nil_r, fmap_nil_inv in Hp. by apply (nonempty_contents c).
Qed.

(** The walk ends inside the edge of a child. *)
Lemma longest_inside e es l1 t c l2 ts mt :
  wf (recounted e es (l1 ++ (t, c) :: l2)) → t ∉ l1.*1 → wf c → is_empty_leaf c = false →
  mt = common_prefix_len (edge c) (t :: ts) → 0 < mt < length (edge c) →
  longest (recounted e es (l1 ++ (t, c) :: l2)) (t :: ts) (mkMatch c mt mt).
Proof.
  intros Hwf Hn Hw Hne Hmt [Hpos Hlt]. pose proof (cpl_le (edge c) (t :: ts)) as [_ Hle].
  assert (Hst : ∀ p r, (p, r) ∈ stored c → common_prefix_len p (t :: ts) = mt).
  { intros p r (q & -> & _)%elem_of_under. rewrite cpl_short by lia. done. }
  unfold longest. cbn [depth subtree]. split_and!; [lia|by intros; apply dfs_nonempty| |].
  - intros p r Hin. destruct (cpl_outside _ _ _ _ _ _ ts p r Hwf Hn Hin) as [->|Hc]; [lia|].
    by rewrite (Hst p r Hc).
  - rewrite at_depth_child, at_depth_all by done || lia. apply dfs_stored.
Qed.

(** The walk goes through the whole edge of a child. *)
Lemma longest_through e es l1 t c l2 ts m :
  wf (recounted e es (l1 ++ (t, c) :: l2)) → t ∉ l1.*1 → wf c → is_empty_leaf c = false → edge c ≠ [] →
  take (length (edge c)) (t :: ts) = edge c → longest c (drop (length (edge c)) (t :: ts)) m →
  longest (recounted e es (l1 ++ (t, c) :: l2)) (t :: ts)
    (mkMatch (subtree m) (consumed_from_subtree_edge m) (length (edge c) + depth m)).
Proof.
  intros Hwf Hn Hw Hne He Htk (Hd & Hnd & Hmax & Hp).
  assert (Hlen : 0 < length (edge c) ≤ length (t :: ts)).
  { split; [destruct (edge c); [done|cbn; lia]|]. rewrite <-Htk, length_take. lia. }
  rewrite length_drop in Hd. unfold longest. cbn [depth subtree].
  assert (Hsplit : t :: ts = edge c ++ drop (length (edge c)) (t :: ts)).
  { rewrite <-(take_drop (length (edge c)) (t :: ts)) at 1. by rewrite Htk. }
  split_and!; [lia| | |].
  - intros _. destruct (decide (depth m = 0)) as [Hz|]; [|apply Hnd; lia].
    intros Hdf. rewrite Hdf, Hz, at_depth_all in Hp.
    + symmetry in Hp. apply Permutation_nil_r, fmap_nil_inv in Hp. by apply (nonempty_contents c).
    + intros p r Hin. specialize (Hmax p r Hin). lia.
  - intros p r Hin. destruct (cpl_outside _ _ _ _ _ _ ts p r Hwf Hn Hin) as [->|Hc]; [lia|].
    apply elem_of_under in Hc as (q & -> & Hq). rewrite cpl_app by done. specialize (Hmax q r Hq). lia.
  - rewrite at_depth_child by done || lia. rewrite Hp. unfold stored. rewrite Hsplit at 2.
    rewrite at_depth_under. unfold under. by rewrite <-list_fmap_compose.
Qed.

Lemma walk_spec n ts : wf n → longest n ts (walk n ts).
Proof.
  revert ts. induction n as [e es k cs IH] using trie_ind. intros ts Hwf.
  pose proof Hwf as (_ & _ & -> & Hcs)%wf_node.
  destruct ts as [|t ts]; [apply longest_stop; by intros [] r _|]. cbn [walk].
  destruct (child_cases t cs) as [Hn|(l1 & c & l2 & -> & Hn)].
  { rewrite with_child_None by done. apply longest_stop. rewrite contents_node.
    intros p r [(? & [= -> ->] & _)%list_elem_of_fmap|Hin]%elem_of_app; [done|]. by apply (below_cpl cs t ts p r). }
  rewrite with_child_Some by done. cbn [default].
  rewrite Forall_app, Forall_cons in Hcs, IH. destruct Hcs as (_ & (Hh & Hne & Hw) & _), IH as (_ & IH & _).
  cbn [fst snd compose] in Hh, Hne, Hw, IH.
  assert (Hpos : common_prefix_len (edge c) (t :: ts) ≠ 0).
  { destruct (edge c); simplify_eq/=. by rewrite decide_True. }
  rewrite decide_False by done. pose proof (cpl_le (edge c) (t :: ts)) as [Hle _]. case_decide.
  - apply longest_inside; (done || lia).
  - assert (Hfull : common_prefix_len (edge c) (t :: ts) = length (edge c)) by lia. rewrite Hfull.
    apply longest_through; try done; [intros He; by rewrite He in Hh|by apply cpl_full|by apply IH].
Qed.

(** ** Any history of insertions and removals *)

Inductive trie_op := OpInsert (tokens : list Z) (d : Digest) | OpRemove (tokens : list Z) (d : Digest).

Definition run_trie (n : TrieNode) (o : trie_op) : TrieNode :=
  match o with OpInsert ts d => insert ts d n | OpRemove ts d => (remove ts d n).1 end.

(** The specification: the list of prefixes stored for each digest. *)
Definition run_prefixes (l : list (list Z * DigestAndLen)) (o : trie_op) : list (list Z * DigestAndLen) :=
  match o with
  | OpInsert ts d => (ts, mkDL d (length ts)) :: others ts d l
  | OpRemove ts d => others ts d l
  end.

(** [n] stores exactly the records [l]. *)
Definition represents (n : TrieNode) (l : list (list Z * DigestAndLen)) : Prop :=
  wf n ∧ edge n = [] ∧ contents n ≡ₚ l.

Lemma empty_represents : represents empty_trie [].
Proof. split_and!; [|done..]. cbn. split_and!; try done; apply NoDup_nil_2. Qed.

Lemma insert_represents n l ts d : represents n l →
  represents (insert ts d n) ((ts, mkDL d (length ts)) :: others ts d l).
Proof.
  intros (Hw & He & Hc). destruct (insert_into_spec n ts (mkDL d (length ts)) Hw) as (? & ? & _ & Hp).
  unfold insert. split_and!; [done|congruence|]. rewrite Hp, Hc. done.
Qed.

Lemma remove_represents n l ts d : represents n l →
  represents (remove ts d n).1 (others ts d l) ∧
  ((remove ts d n).2 = true ↔ ∃ pr, pr ∈ l ∧ same ts d pr).
Proof.
  intros (Hw & He & Hc). pose proof (remove_from_spec true n ts d Hw) as Hr. unfold remove.
  destruct (remove_from true n ts d) as [n'|]; cbn [fst snd].
  - destruct Hr as (Hw' & (pr & Hin & Hs) & Hst & _ & He'). specialize (He' eq_refl).
    unfold stored in Hst. rewrite He', He, !under_nil, Hc in Hst. split; [by split_and!; [|congruence|]|].
    split; [|done]. intros _. exists pr. by rewrite <-Hc.
  - split.
    + split_and!; [done..|]. rewrite others_id; [done|]. intros pr Hpr. apply Hr. by rewrite Hc.
    + split; [done|]. intros (pr & Hin & Hs). rewrite <-Hc in Hin. by destruct (Hr pr Hin).
Qed.

Lemma run_represents os n l : represents n l → represents (foldl run_trie n os) (foldl run_prefixes l os).
Proof.
  revert n l. induction os as [|o os IH]; intros n l Hr; [done|]. cbn. apply IH.
  destruct o as [ts d|ts d]; cbn; [by apply insert_represents|]. by apply remove_represents.
Qed.

Lemma represents_len n l : represents n l → trie_len n = length l.
Proof. intros (Hw & _ & Hc). unfold trie_len. rewrite <-contents_length by done. by rewrite Hc. Qed.

(** What [find_longest_prefix] promises, against the stored prefixes [l]. *)
Lemma find_represents n l ts min_len : represents n l →
  match find_longest_prefix n ts min_len with
  | Some m =>
    0 < depth m ∧ min_len ≤ depth m ≤ length ts ∧
    (∀ p r, (p, r) ∈ l → common_prefix_len p ts ≤ depth m) ∧
    dfs (subtree m) ≠ [] ∧ dfs (subtree m) ≡ₚ snd <$> at_depth ts (depth m) l
  | None => ∀ p r, (p, r) ∈ l → common_prefix_len p ts < 1 `max` min_len
  end.
Proof.
  intros Hr. pose proof (represents_len n l Hr) as Hlen. destruct Hr as (Hw & _ & Hc). unfold trie_len in Hlen.
  destruct (walk_spec n ts Hw) as (Hd & Hne & Hmax & Hp).
  assert (Hmax' : ∀ p r, (p, r) ∈ l → common_prefix_len p ts ≤ depth (walk n ts)).
  { intros p r Hin. apply (Hmax p r). by rewrite Hc. }
  unfold find_longest_prefix, walk_longest. case_decide as Hz; cbn [mbind option_bind].
  { rewrite Hz in Hlen. symmetry in Hlen. apply nil_length_inv in Hlen as ->. by intros p r ?%not_elem_of_nil. }
  case_decide; cbn [mbind option_bind].
  { intros p r Hin. specialize (Hmax' p r Hin). lia. }
  case_decide.
  { intros p r Hin. specialize (Hmax' p r Hin). lia. }
  split_and!; [lia..|done|apply Hne; lia|]. rewrite Hp. unfold at_depth. by rewrite Hc.
Qed.

(** C23. The radix trie is a faithful index. After any sequence of insertions and
    removals it stores exactly the prefixes inserted and not removed since, each
    digest once per prefix; its count is exact; a removal reports whether the
    digest was there; and a lookup returns the length of the longest common
    prefix of the request with any stored prefix, together with precisely the
    records that share that many tokens, or nothing when no stored prefix shares
    the required minimum. *)
Theorem radix_trie_indexes_prefixes os ts d min_len :
  let n := foldl run_trie empty_trie os in
  let l := foldl run_prefixes [] os in
  wf n ∧ contents n ≡ₚ l ∧ trie_len n = length l ∧
  ((remove ts d n).2 = true ↔ ∃ pr, pr ∈ l ∧ same ts d pr) ∧
  match find_longest_prefix n ts min_len with
  | Some m =>
    0 < depth m ∧ min_len ≤ depth m ≤ length ts ∧
    (∀ p r, (p, r) ∈ l → common_prefix_len p ts ≤ depth m) ∧
    dfs (subtree m) ≠ [] ∧ dfs (subtree m) ≡ₚ snd <$> at_depth ts (depth m) l
  | None => ∀ p r, (p, r) ∈ l → common_prefix_len p ts < 1 `max` min_len
  end.
Proof.
  cbv zeta. pose proof (run_represents os _ _ empty_represents) as Hr. split_and!; [apply Hr|apply Hr|..].
  - by apply represents_len.
  - by apply remove_represents.
  - by apply find_represents.
Qed.
