(* ===== verification/PromptStore.v ===== *)
(** * The prompt cache store

    [server/prompt_cache/store.rs], with the entries of [entry.rs], the limits of
    [policy.rs] and the candidate selection of [lookup.rs].

    An entry is behind an [Arc]: a lookup hands out a clone that shares the
    entry's two mutexes (the detached KV set and the time of last use) with the
    store. The shared part is a cell in the heap [cells]; an [Arc] clone is a copy
    of the record with the same cell address. Every method body is one step (it
    runs under the store's lock); [lookup_longest_prefix] takes the lock three
    times, so it is given as three steps and their composition.
    [lookup_snapshot_prefix], which does the same, is given as one step. *)

From S2P Require Import Prelude Bytes PromptKey PromptTrie.

(** What an entry parks: the dense and paged sets of [CachePool] and the snapshots
    of recurrent models, with their sizes in bytes. *)
Class KvSets := {
  Dense : Type;
  Paged : Type;
  Snapshot : Type;
  dense_nbytes : Dense → nat;
  paged_nbytes : Paged → nat;
  snapshot_nbytes : Snapshot → nat;
}.

(** The order in which a [HashMap] iterates: any permutation of its entries. *)
Class HashOrder := {
  iter {V} : gmap Digest V → list (Digest * V);
  iter_perm {V} (m : gmap Digest V) : iter m ≡ₚ map_to_list m;
}.

(** ** Configuration *)

Record ApcConfig := mkApc {
  apc_on : bool;
  apc_block_size : nat;
  num_blocks : option nat;
  apc_hash : ApcHashAlgo;
}.

Definition apc_is_enabled (a : ApcConfig) : bool := apc_on a && bool_decide (0 < apc_block_size a).

Record PromptCacheConfig := mkConfig {
  enabled : bool;
  capacity_bytes : nat;
  max_entries : nat;
  ttl : nat;
  min_prefix_tokens : nat;
  apc : ApcConfig;
  snapshot_capacity_bytes : nat;
  snapshot_max_entries : nat;
  snapshot_ttl : nat;
}.

Definition is_enabled (c : PromptCacheConfig) : bool :=
  enabled c && bool_decide (0 < capacity_bytes c) && bool_decide (0 < max_entries c).

Definition apc_enabled (c : PromptCacheConfig) : bool := is_enabled c && apc_is_enabled (apc c).

Section store.
Context {K : KvSets} {O : HashOrder} {H : Hashes}.

(** ** Entries *)

Inductive DetachedKvSet := DenseSet (d : Dense) | PagedSet (p : Paged).

Definition set_nbytes (s : DetachedKvSet) : nat :=
  match s with DenseSet d => dense_nbytes d | PagedSet p => paged_nbytes p end.

(** The interior-mutable part of a [CacheEntry]. *)
Record Cell := mkCell { detached : option DetachedKvSet; last_used : nat }.

Record CacheEntry := mkEntry {
  tokens : list Z;
  size_bytes : nat;
  apc_block_hashes : option (list ApcBlockHash);
  cell : N;
}.

Record EntrySlot := mkSlot { entry : CacheEntry; bucket : BucketKey; sessionless : SessionlessBucketKey }.

Record ModelSnapshotEntry := mkSnapshot {
  snap_tokens : list Z;
  snapshot : Snapshot;
  snap_last_used : nat;
  snap_size_bytes : nat;
}.

Record SnapshotSlot := mkSnapSlot {
  snap_entry : ModelSnapshotEntry; snap_bucket : BucketKey; snap_sessionless : SessionlessBucketKey }.

(** The lifetime counters of [Inner]. *)
Inductive Counter :=
  | Inserts | RejectionsOversized | Lookups | Hits | EvictionsLru | EvictionsTtl
  | SnapshotInserts | SnapshotRejectionsOversized | SnapshotLookups | SnapshotHits
  | SnapshotEvictionsLru | SnapshotEvictionsTtl.

#[local] Instance Counter_eq_dec : EqDecision Counter.
Proof. solve_decision. Defined.

Record Store := mkStore {
  config : PromptCacheConfig;
  slots : gmap Digest EntrySlot;
  tries : gmap SessionlessBucketKey TrieNode;
  snapshots : gmap Digest SnapshotSlot;
  total_bytes : nat;
  snapshot_bytes : nat;
  counters : Counter → N;
  pending_paged_releases : list Paged;
  cells : gmap N Cell;
  next_cell : N;
}.

Definition with_config (c : PromptCacheConfig) : Store := mkStore c ∅ ∅ ∅ 0 0 (λ _, 0%N) [] ∅ 0.

(** ** Field updates *)

Definition set_slots f (s : Store) : Store :=
  mkStore (config s) (f (slots s)) (tries s) (snapshots s) (total_bytes s) (snapshot_bytes s) (counters s)
    (pending_paged_releases s) (cells s) (next_cell s).
Definition set_tries f (s : Store) : Store :=
  mkStore (config s) (slots s) (f (tries s)) (snapshots s) (total_bytes s) (snapshot_bytes s) (counters s)
    (pending_paged_releases s) (cells s) (next_cell s).
Definition set_snapshots f (s : Store) : Store :=
  mkStore (config s) (slots s) (tries s) (f (snapshots s)) (total_bytes s) (snapshot_bytes s) (counters s)
    (pending_paged_releases s) (cells s) (next_cell s).
Definition set_total f (s : Store) : Store :=
  mkStore (config s) (slots s) (tries s) (snapshots s) (f (total_bytes s)) (snapshot_bytes s) (counters s)
    (pending_paged_releases s) (cells s) (next_cell s).
Definition set_snapshot_bytes f (s : Store) : Store :=
  mkStore (config s) (slots s) (tries s) (snapshots s) (total_bytes s) (f (snapshot_bytes s)) (counters s)
    (pending_paged_releases s) (cells s) (next_cell s).
Definition set_counters f (s : Store) : Store :=
  mkStore (config s) (slots s) (tries s) (snapshots s) (total_bytes s) (snapshot_bytes s) (f (counters s))
    (pending_paged_releases s) (cells s) (next_cell s).
Definition set_pending f (s : Store) : Store :=
  mkStore (config s) (slots s) (tries s) (snapshots s) (total_bytes s) (snapshot_bytes s) (counters s)
    (f (pending_paged_releases s)) (cells s) (next_cell s).
Definition set_cells f (s : Store) : Store :=
  mkStore (config s) (slots s) (tries s) (snapshots s) (total_bytes s) (snapshot_bytes s) (counters s)
    (pending_paged_releases s) (f (cells s)) (next_cell s).

(** [c = c.saturating_add(n)] on a [u64] counter. *)
Definition bump (k : Counter) (n : nat) : Store → Store :=
  set_counters (λ c k', if decide (k' = k) then saturating_add_u64 (c k') (N.of_nat n) else c k').

(** ** Shared entries *)

Definition get_cell (a : N) (s : Store) : Cell := default (mkCell None 0) (cells s !! a).

Definition entry_last_used (e : CacheEntry) (s : Store) : nat := last_used (get_cell (cell e) s).

Definition has_detached (e : CacheEntry) (s : Store) : bool :=
  match detached (get_cell (cell e) s) with Some _ => true | None => false end.

(** [CacheEntry::new]: the size is captured once. *)
Definition entry_new (now : nat) (ts : list Z) (set : DetachedKvSet) (s : Store) : Store * CacheEntry :=
  (mkStore (config s) (slots s) (tries s) (snapshots s) (total_bytes s) (snapshot_bytes s) (counters s)
     (pending_paged_releases s) (<[next_cell s := mkCell (Some set) now]> (cells s)) (next_cell s + 1)%N,
   mkEntry ts (set_nbytes set) None (next_cell s)).

Definition with_apc_block_hashes (h : list ApcBlockHash) (e : CacheEntry) : CacheEntry :=
  mkEntry (tokens e) (size_bytes e) (Some h) (cell e).

Definition take_detached (e : CacheEntry) (s : Store) : Store * option DetachedKvSet :=
  let c := get_cell (cell e) s in
  (set_cells <[cell e := mkCell None (last_used c)]> s, detached c).

Definition touch (now : nat) (e : CacheEntry) (s : Store) : Store :=
  set_cells <[cell e := mkCell (detached (get_cell (cell e) s)) now]> s.

Definition stash_paged_pins_for_release (e : CacheEntry) (s : Store) : Store :=
  let '(s, o) := take_detached e s in
  match o with
  | Some (PagedSet p) => set_pending (λ l, l ++ [p]) s
  | _ => s
  end.

(** ** Removal and sweeps *)

Definition remove_entry (d : Digest) (s : Store) : Store * option (BucketKey * CacheEntry) :=
  match slots s !! d with
  | None => (s, None)
  | Some slot =>
    let s := set_slots (delete d) s in
    let s := set_total (λ t, t - size_bytes (entry slot)) s in
    let s := stash_paged_pins_for_release (entry slot) s in
    let s :=
      match tries s !! sessionless slot with
      | Some trie =>
        let trie := (remove (tokens (entry slot)) d trie).1 in
        if decide (trie_len trie = 0) then set_tries (delete (sessionless slot)) s
        else set_tries <[sessionless slot := trie]> s
      | None => s
      end in
    (s, Some (bucket slot, entry slot))
  end.

Definition remove_snapshot (d : Digest) (s : Store) : Store * option (BucketKey * ModelSnapshotEntry) :=
  match snapshots s !! d with
  | None => (s, None)
  | Some slot =>
    let s := set_snapshots (delete d) s in
    let s := set_snapshot_bytes (λ t, t - snap_size_bytes (snap_entry slot)) s in
    (s, Some (snap_bucket slot, snap_entry slot))
  end.

(** The loops [for digest in &digests { if let Some((_, e)) = self.remove_..(digest) { .. } }]:
    the bytes and the number of entries removed. *)
Fixpoint remove_entries (ds : list Digest) (s : Store) : Store * (nat * nat) :=
  match ds with
  | [] => (s, (0, 0))
  | d :: ds' =>
    let '(s, o) := remove_entry d s in
    let '(s, (bytes, n)) := remove_entries ds' s in
    match o with
    | Some (_, e) => (s, (size_bytes e + bytes, S n))
    | None => (s, (bytes, n))
    end
  end.

Fixpoint remove_snapshots (ds : list Digest) (s : Store) : Store * (nat * nat) :=
  match ds with
  | [] => (s, (0, 0))
  | d :: ds' =>
    let '(s, o) := remove_snapshot d s in
    let '(s, (bytes, n)) := remove_snapshots ds' s in
    match o with
    | Some (_, e) => (s, (snap_size_bytes e + bytes, S n))
    | None => (s, (bytes, n))
    end
  end.

(** [now.duration_since(t)] is zero for a later [t]. *)
Definition sweep_ttl (now : nat) (s : Store) : Store * (nat * nat) :=
  if decide (ttl (config s) = 0 ∨ slots s = ∅) then (s, (0, 0)) else
  let stale := fst <$> filter (λ ds, ttl (config s) ≤ now - entry_last_used (entry ds.2) s) (iter (slots s)) in
  let '(s, (bytes, _)) := remove_entries stale s in
  (bump EvictionsTtl (length stale) s, (bytes, length stale)).

Definition sweep_snapshot_ttl (now : nat) (s : Store) : Store * (nat * nat) :=
  if decide (snapshot_ttl (config s) = 0 ∨ snapshots s = ∅) then (s, (0, 0)) else
  let stale := fst <$> filter (λ ds, snapshot_ttl (config s) ≤ now - snap_last_used (snap_entry ds.2))
                 (iter (snapshots s)) in
  let '(s, (bytes, _)) := remove_snapshots stale s in
  (bump SnapshotEvictionsTtl (length stale) s, (bytes, length stale)).

Definition sweep_drained (s : Store) : Store * (nat * nat) :=
  if decide (slots s = ∅) then (s, (0, 0)) else
  let drained := fst <$> filter (λ ds, has_detached (entry ds.2) s = false) (iter (slots s)) in
  let '(s, (bytes, _)) := remove_entries drained s in (s, (bytes, length drained)).

(** ** Eviction *)

(** [Iterator::min_by_key]: the first of several minima. *)
Definition min_by_key {A} (key : A → nat) (l : list A) : option A :=
  match l with
  | [] => None
  | x :: l' => Some (foldl (λ best y, if decide (key y < key best) then y else best) x l')
  end.

Definition evict_oldest (s : Store) : Store * nat :=
  match min_by_key (λ ds, entry_last_used (entry ds.2) s) (iter (slots s)) with
  | Some (d, _) =>
    let '(s, o) := remove_entry d s in
    let freed := match o with Some (_, e) => size_bytes e | None => 0 end in
    (if decide (0 < freed) then bump EvictionsLru 1 s else s, freed)
  | None => (s, 0)
  end.

Definition evict_oldest_snapshot (s : Store) : Store * nat :=
  match min_by_key (λ ds, snap_last_used (snap_entry ds.2)) (iter (snapshots s)) with
  | Some (d, _) =>
    let '(s, o) := remove_snapshot d s in
    match o with
    | Some (_, e) => (bump SnapshotEvictionsLru 1 s, snap_size_bytes e)
    | None => (s, 0)
    end
  | None => (s, 0)
  end.

(** [while over(self) { let n = evict(self); if n == 0 { break } }]: every round
    that does not end the loop removes an entry, so [fuel] may be their number. *)
Fixpoint evict_while (over : Store → bool) (evict : Store → Store * nat) (fuel : nat) (s : Store) : Store * nat :=
  match fuel with
  | 0 => (s, 0)
  | S fuel' =>
    if over s then
      let '(s, n) := evict s in
      if decide (n = 0) then (s, 0)
      else let '(s, freed) := evict_while over evict fuel' s in (s, n + freed)
    else (s, 0)
  end.

Definition enforce_caps (s : Store) : Store * nat :=
  let '(s, f1) := evict_while (λ s, bool_decide (max_entries (config s) < size (slots s))) evict_oldest (size (slots s)) s in
  let '(s, f2) := evict_while (λ s, bool_decide (capacity_bytes (config s) < total_bytes s)) evict_oldest (size (slots s)) s in
  (s, f1 + f2).

Definition enforce_snapshot_caps (s : Store) : Store * nat :=
  let '(s, f1) := evict_while (λ s, bool_decide (snapshot_max_entries (config s) < size (snapshots s)))
                    evict_oldest_snapshot (size (snapshots s)) s in
  let '(s, f2) := evict_while (λ s, bool_decide (snapshot_capacity_bytes (config s) < snapshot_bytes s))
                    evict_oldest_snapshot (size (snapshots s)) s in
  (s, f1 + f2).

(** ** Insertion *)

Inductive InsertError :=
  | Disabled
  | PrefixTooShort (got min_required : nat)
  | OversizedEntry (entry_bytes capacity : nat).

Definition insert_entry (key : PromptCacheKey) (e : CacheEntry) (s : Store) : Store * outcome InsertError unit :=
  let d := digest key in
  if negb (is_enabled (config s)) then (stash_paged_pins_for_release e s, Err Disabled)
  else if decide (effective_prefix_len key < min_prefix_tokens (config s)) then
    (stash_paged_pins_for_release e s,
     Err (PrefixTooShort (effective_prefix_len key) (min_prefix_tokens (config s))))
  else if decide (capacity_bytes (config s) < size_bytes e) then
    (stash_paged_pins_for_release e (bump RejectionsOversized 1 s),
     Err (OversizedEntry (size_bytes e) (capacity_bytes (config s))))
  else
    let '(s, replaced) := remove_entry d s in
    let s := match replaced with Some _ => bump EvictionsLru 1 s | None => s end in
    let e := if apc_enabled (config s) then
               with_apc_block_hashes
                 (hashes (chain_compute (tokens e) (apc_block_size (apc (config s))) (apc_hash (apc (config s)))
                    (mm_digest key))) e
             else e in
    let s := set_total (λ t, t + size_bytes e) s in
    let sl := sessionless_from_key key in
    let s := set_slots <[d := mkSlot e (bucket_from_key key) sl]> s in
    let s := set_tries <[sl := insert (tokens e) d (default empty_trie (tries s !! sl))]> s in
    let s := bump Inserts 1 s in
    let '(s, _) := enforce_caps s in
    (s, Ok tt).

Definition insert_snapshot (key : PromptCacheKey) (e : ModelSnapshotEntry) (s : Store) :
    Store * outcome InsertError unit :=
  let d := digest key in
  if negb (is_enabled (config s)) then (s, Err Disabled)
  else if decide (effective_prefix_len key < min_prefix_tokens (config s)) then
    (s, Err (PrefixTooShort (effective_prefix_len key) (min_prefix_tokens (config s))))
  else if decide (snapshot_capacity_bytes (config s) < snap_size_bytes e) then
    (bump SnapshotRejectionsOversized 1 s,
     Err (OversizedEntry (snap_size_bytes e) (snapshot_capacity_bytes (config s))))
  else
    let '(s, replaced) := remove_snapshot d s in
    let s := match replaced with Some _ => bump SnapshotEvictionsLru 1 s | None => s end in
    let s := set_snapshot_bytes (λ t, t + snap_size_bytes e) s in
    let s := set_snapshots <[d := mkSnapSlot e (bucket_from_key key) (sessionless_from_key key)]> s in
    let s := bump SnapshotInserts 1 s in
    let '(s, _) := enforce_snapshot_caps s in
    (s, Ok tt).

(** ** Candidate selection *)

Record BestCandidate := mkCandidate { cand_digest : Digest; matched : nat; cand_last_used : nat }.

Definition beats (a b : BestCandidate) : bool :=
  if decide (matched a ≠ matched b) then bool_decide (matched b < matched a)
  else bool_decide (cand_last_used b < cand_last_used a).

Definition same_session (b : BucketKey) (key : PromptCacheKey) : bool :=
  bool_decide (b_session_key b = session_key key).

(** One candidate of a tier: [None => *bucket = Some(candidate)], or the better one. *)
Definition improve (b : option BestCandidate) (c : BestCandidate) : option BestCandidate :=
  match b with
  | None => Some c
  | Some existing => if beats c existing then Some c else Some existing
  end.

Definition add_candidate (best : option BestCandidate * option BestCandidate) (c : bool * BestCandidate) :=
  if c.1 then (improve best.1 c.2, best.2) else (best.1, improve best.2 c.2).

Definition choose_tier (best : option BestCandidate * option BestCandidate) : option BestCandidate :=
  match best with
  | (Some a, Some o) => if decide (matched a < matched o) then Some o else Some a
  | (Some a, None) => Some a
  | (None, o) => o
  end.

(** The closure passed to [for_each_candidate]; [None] is its early [return]. *)
Definition trie_candidate (s : Store) (key : PromptCacheKey) (ts : list Z) (min_len match_depth : nat)
    (partial : bool) (dl : DigestAndLen) : option (bool * BestCandidate) :=
  match slots s !! dl_digest dl with
  | None => None
  | Some slot =>
    if negb (has_detached (entry slot) s) then None
    else if bool_decide (length ts < dl_token_len dl) && negb partial then None
    else
      let m := match_depth `min` dl_token_len dl in
      if negb partial && bool_decide (m ≠ dl_token_len dl) then None
      else if decide (m < min_len) then None
      else Some (same_session (bucket slot) key, mkCandidate (dl_digest dl) m (entry_last_used (entry slot) s))
  end.

Definition select_best (trie : TrieNode) (key : PromptCacheKey) (ts : list Z) (min_len : nat) (partial : bool)
    (s : Store) : option BestCandidate :=
  m ← find_longest_prefix trie ts min_len;
  choose_tier (foldl add_candidate (None, None)
    (omap (trie_candidate s key ts min_len (depth m) partial) (dfs (subtree m)))).

(** The body of the scan's loop; [None] is [continue]. *)
Definition scan_candidate (s : Store) (sl : SessionlessBucketKey) (key : PromptCacheKey) (ts : list Z)
    (min_len : nat) (partial : bool) (ds : Digest * EntrySlot) : option (bool * BestCandidate) :=
  let '(d, slot) := ds in
  if bool_decide (sessionless slot ≠ sl) || negb (has_detached (entry slot) s) then None else
  let et := tokens (entry slot) in
  if decide (length et < min_len) then None
  else if negb partial && (bool_decide (length ts < length et) || bool_decide (et ≠ take (length et) ts)) then None
  else
    let common := if partial then common_prefix_len et ts else length et in
    if decide (common < min_len) then None
    else Some (same_session (bucket slot) key, mkCandidate d common (entry_last_used (entry slot) s)).

Definition select_best_by_scan (s : Store) (sl : SessionlessBucketKey) (key : PromptCacheKey) (ts : list Z)
    (min_len : nat) (partial : bool) : option BestCandidate :=
  choose_tier (foldl add_candidate (None, None)
    (omap (scan_candidate s sl key ts min_len partial) (iter (slots s)))).

(** ** Lookup *)

(** First critical section: expired and drained entries go. [None] when disabled. *)
Definition lookup_sweep (now : nat) (s : Store) : option Store :=
  if negb (is_enabled (config s)) then None
  else Some (sweep_ttl now (sweep_drained s).1).1.

(** Second critical section, under the read lock. The outer [None] is the early
    return for a bucket without a trie. *)
Definition lookup_select (key : PromptCacheKey) (ts : list Z) (s : Store) : option (option BestCandidate) :=
  let sl := sessionless_from_key key in
  let min_len := min_prefix_tokens (config s) in
  let partial := apc_enabled (config s) in
  trie ← tries s !! sl;
  Some (match select_best trie key ts min_len partial s with
        | Some c => Some c
        | None => select_best_by_scan s sl key ts min_len partial
        end).

(** Third critical section: counters, the check of the block hashes, the touch. *)
Definition lookup_commit (now : nat) (key : PromptCacheKey) (ts : list Z) (best : option BestCandidate)
    (s : Store) : Store * option (CacheEntry * nat) :=
  let s := bump Lookups 1 s in
  match best with
  | None => (s, None)
  | Some winner =>
    match slots s !! cand_digest winner with
    | None => (s, None)
    | Some slot =>
      let e := entry slot in
      let on := apc_enabled (config s) in
      let n :=
        match (if on then apc_block_hashes e else None) with
        | Some hs => apc_consistent_prefix_len ts hs (apc_block_size (apc (config s))) (apc_hash (apc (config s)))
                       (mm_digest key) (matched winner)
        | None => matched winner
        end in
      if decide (n < min_prefix_tokens (config s)) then (s, None)
      else (touch now e (bump Hits 1 s), Some (e, n))
    end
  end.

Definition lookup_longest_prefix (now touched : nat) (key : PromptCacheKey) (ts : list Z) (s : Store) :
    Store * option (CacheEntry * nat) :=
  match lookup_sweep now s with
  | None => (s, None)
  | Some s =>
    match lookup_select key ts s with
    | None => (bump Lookups 1 s, None)
    | Some best => lookup_commit touched key ts best s
    end
  end.

(** The loop over the snapshots: longer first, then more recently used. *)
Definition better_snapshot (s : Store) (sl : SessionlessBucketKey) (key : PromptCacheKey) (ts : list Z)
    (best : option (Digest * nat * nat)) (ds : Digest * SnapshotSlot) : option (Digest * nat * nat) :=
  let '(d, slot) := ds in
  let len := length (snap_tokens (snap_entry slot)) in
  if bool_decide (snap_sessionless slot ≠ sl) || negb (same_session (snap_bucket slot) key)
     || bool_decide (len < min_prefix_tokens (config s)) || bool_decide (length ts < len)
     || bool_decide (snap_tokens (snap_entry slot) ≠ take len ts) then best
  else
    let used := snap_last_used (snap_entry slot) in
    match best with
    | None => Some (d, len, used)
    | Some (_, best_len, best_used) =>
      if bool_decide (best_len < len) || (bool_decide (len = best_len) && bool_decide (best_used < used))
      then Some (d, len, used) else best
    end.

Definition touch_snapshot (now : nat) (slot : SnapshotSlot) : SnapshotSlot :=
  let e := snap_entry slot in
  mkSnapSlot (mkSnapshot (snap_tokens e) (snapshot e) now (snap_size_bytes e)) (snap_bucket slot)
    (snap_sessionless slot).

Definition lookup_snapshot_prefix (now touched : nat) (key : PromptCacheKey) (ts : list Z) (s : Store) :
    Store * option (ModelSnapshotEntry * nat) :=
  if negb (is_enabled (config s)) then (s, None) else
  let '(s, _) := sweep_snapshot_ttl now s in
  let best := foldl (better_snapshot s (sessionless_from_key key) key ts) None (iter (snapshots s)) in
  let s := bump SnapshotLookups 1 s in
  match best with
  | None => (s, None)
  | Some (d, len, _) =>
    match snapshots s !! d with
    | None => (s, None)
    | Some slot =>
      (set_snapshots <[d := touch_snapshot touched slot]> (bump SnapshotHits 1 s),
       Some (snap_entry (touch_snapshot touched slot), len))
    end
  end.

(** ** Sweeps on demand, sessions, shutdown *)

Definition evict_if_needed (now later : nat) (s : Store) : Store * nat :=
  if negb (is_enabled (config s)) then (s, 0) else
  let '(s, (f1, _)) := sweep_drained s in
  let '(s, (f2, _)) := sweep_ttl now s in
  let '(s, f3) := enforce_caps s in
  let '(s, (f4, _)) := sweep_snapshot_ttl later s in
  let '(s, f5) := enforce_snapshot_caps s in
  (s, f1 + f2 + f3 + f4 + f5).

Definition evict_one_lru (s : Store) : Store * nat := evict_oldest s.

Inductive ReleaseStatus := ReleasedNow | NothingMatched | RefusedSharedBucket.

Record ReleaseOutcome := mkOutcome {
  status : ReleaseStatus; matched_entries : nat; matched_snapshots : nat; released_bytes : nat }.

(** [released_bytes] saturates at the machine word, which no sum of sizes of
    entries in memory reaches. *)
Definition release_session (sk : string) (s : Store) : Store * ReleaseOutcome :=
  if decide (sk = "" ∨ sk = ANONYMOUS_SESSION_SENTINEL) then (s, mkOutcome RefusedSharedBucket 0 0 0) else
  let entry_digests := fst <$> filter (λ ds, b_session_key (bucket ds.2) = Some sk) (iter (slots s)) in
  let snapshot_digests := fst <$> filter (λ ds, b_session_key (snap_bucket ds.2) = Some sk) (iter (snapshots s)) in
  let '(s, (b1, n1)) := remove_entries entry_digests s in
  let '(s, (b2, n2)) := remove_snapshots snapshot_digests s in
  (s, mkOutcome (if decide (0 < n1 + n2) then ReleasedNow else NothingMatched) n1 n2 (b1 + b2)).

Definition drain_pending_paged_releases (s : Store) : Store * list Paged :=
  (set_pending (λ _, []) s, pending_paged_releases s).

Definition clear (s : Store) : Store :=
  set_snapshot_bytes (λ _, 0) (set_total (λ _, 0) (set_snapshots (λ _, ∅) (set_tries (λ _, ∅) (set_slots (λ _, ∅) s)))).

End store.
