(* ===== verification/PromptStoreInv.v ===== *)
(** * The invariant of the prompt cache store

    The byte ledgers, the tries and the heap of shared cells agree with the
    entries, and every operation keeps it so; no operation loses a paged set. *)

From S2P Require Import Prelude Bytes PromptKey PromptTrie PromptStore.

Section inv.
Context {K : KvSets} {O : HashOrder} {H : Hashes}.
Implicit Types (s : Store) (d : Digest) (sl : SessionlessBucketKey).

(** ** Lists of a map's entries *)

Lemma omap_perm {A B} (f : A → option B) (l l' : list A) : l ≡ₚ l' → omap f l ≡ₚ omap f l'.
Proof. intros Hl. by rewrite Hl. Qed.

Lemma list_insert_new {K' A} `{Countable K'} (m : gmap K' A) k x :
  m !! k = None → map_to_list (<[k := x]> m) ≡ₚ (k, x) :: map_to_list m.
Proof. apply map_to_list_insert. Qed.

Lemma list_take_out {K' A} `{Countable K'} (m : gmap K' A) k x :
  m !! k = Some x → map_to_list m ≡ₚ (k, x) :: map_to_list (delete k m).
Proof. intros Hk. symmetry. by apply map_to_list_delete. Qed.

Lemma list_replace {K' A} `{Countable K'} (m : gmap K' A) k x :
  map_to_list (<[k := x]> m) ≡ₚ (k, x) :: map_to_list (delete k m).
Proof. rewrite <-insert_delete_eq. apply map_to_list_insert, lookup_delete_eq. Qed.

(** ** What the tries should hold *)

Definition slot_item sl (ds : Digest * EntrySlot) : option (list Z * DigestAndLen) :=
  if decide (sessionless ds.2 = sl) then Some (tokens (entry ds.2), mkDL ds.1 (length (tokens (entry ds.2))))
  else None.

Definition bucket_items sl (m : gmap Digest EntrySlot) : list (list Z * DigestAndLen) :=
  omap (slot_item sl) (map_to_list m).

(** ** Paged sets *)

Definition cell_paged (c : Cell) : option Paged :=
  match detached c with Some (PagedSet p) => Some p | _ => None end.

(** The paged sets parked in entries, in the store or still held by a caller, and
    those waiting to be released. *)
Definition held s : list Paged := omap (λ ac, cell_paged ac.2) (map_to_list (cells s)) ++ pending_paged_releases s.

(** ** The invariant *)

Definition ledger (m : gmap Digest EntrySlot) : nat := sum_list ((λ ds, size_bytes (entry ds.2)) <$> map_to_list m).
Definition snapshot_ledger (m : gmap Digest SnapshotSlot) : nat :=
  sum_list ((λ ds, snap_size_bytes (snap_entry ds.2)) <$> map_to_list m).

Definition indexed (m : gmap Digest EntrySlot) (t : gmap SessionlessBucketKey TrieNode) : Prop :=
  ∀ sl, represents (default empty_trie (t !! sl)) (bucket_items sl m) ∧
        (is_Some (t !! sl) → bucket_items sl m ≠ []).

(** With block hashing on, an entry carries the chain of its tokens and of the
    media of its bucket. *)
Definition hashed (c : PromptCacheConfig) (slot : EntrySlot) : Prop :=
  apc_enabled c = true →
  apc_block_hashes (entry slot) =
    Some (hashes (chain_compute (tokens (entry slot)) (apc_block_size (apc c)) (apc_hash (apc c))
      (sl_mm_digest (sessionless slot)))).

(** [fl] are the cells of entries that are being passed to the store. *)
Record store_inv s (fl : list N) : Prop := {
  inv_total : total_bytes s = ledger (slots s);
  inv_snapshot : snapshot_bytes s = snapshot_ledger (snapshots s);
  inv_indexed : indexed (slots s) (tries s);
  inv_hashed : ∀ d slot, slots s !! d = Some slot → hashed (config s) slot;
  inv_cells : ∀ d slot, slots s !! d = Some slot → is_Some (cells s !! cell (entry slot));
  inv_distinct : ∀ d1 d2 sa sb, slots s !! d1 = Some sa → slots s !! d2 = Some sb →
    cell (entry sa) = cell (entry sb) → d1 = d2;
  inv_fresh : ∀ a, is_Some (cells s !! a) → (a < next_cell s)%N;
  inv_floating : ∀ a, a ∈ fl → is_Some (cells s !! a) ∧
    ∀ d slot, slots s !! d = Some slot → cell (entry slot) ≠ a;
  inv_drained : ∀ a c, cells s !! a = Some c → detached c ≠ None →
    a ∈ fl ∨ ∃ d slot, slots s !! d = Some slot ∧ cell (entry slot) = a;
}.

(** [s'] is [s] with some entries removed: the others are untouched, and no paged
    set is lost. *)
Record shrunk s s' : Prop := {
  shr_slots : slots s' ⊆ slots s;
  shr_config : config s' = config s;
  shr_snapshots : snapshots s' = snapshots s;
  shr_next : next_cell s' = next_cell s;
  shr_cells : ∀ d slot, slots s' !! d = Some slot → cells s' !! cell (entry slot) = cells s !! cell (entry slot);
  shr_held : held s' ≡ₚ held s;
}.

Lemma shrunk_refl s : shrunk s s.
Proof. by split. Qed.

Lemma shrunk_trans s1 s2 s3 : shrunk s1 s2 → shrunk s2 s3 → shrunk s1 s3.
Proof.
  intros [A1 B1 C1 N1 D1 E1] [A2 B2 C2 N2 D2 E2]. split; try congruence.
  - by etrans.
  - intros d slot Hd. rewrite (D2 d slot Hd). apply (D1 d slot). by eapply lookup_weaken.
  - by rewrite E2.
Qed.

Lemma shrunk_bump s s' k n : shrunk s s' → shrunk s (bump k n s').
Proof. by intros []; split. Qed.

Lemma store_inv_bump s fl k n : store_inv s fl → store_inv (bump k n s) fl.
Proof. by intros []; split. Qed.

(** ** Removing an entry *)

Lemma ledger_delete (m : gmap Digest EntrySlot) d slot : m !! d = Some slot →
  ledger m = size_bytes (entry slot) + ledger (delete d m).
Proof. intros Hd. unfold ledger. by rewrite (list_take_out m d slot Hd). Qed.

Lemma bucket_take_out sl (m : gmap Digest EntrySlot) d slot : m !! d = Some slot →
  bucket_items sl m ≡ₚ option_list (slot_item sl (d, slot)) ++ bucket_items sl (delete d m).
Proof.
  intros Hd. unfold bucket_items. rewrite (omap_perm _ _ _ (list_take_out m d slot Hd)). cbn.
  by destruct (slot_item sl (d, slot)).
Qed.

Lemma bucket_digest sl (m : gmap Digest EntrySlot) p r : (p, r) ∈ bucket_items sl m →
  ∃ slot, m !! dl_digest r = Some slot ∧ sessionless slot = sl ∧ tokens (entry slot) = p ∧ dl_token_len r = length p.
Proof.
  unfold bucket_items. rewrite list_elem_of_omap. intros ([d slot] & Hin & Hs). unfold slot_item in Hs.
  case_decide; simplify_eq/=. exists slot. split; [by apply elem_of_map_to_list|done].
Qed.

Lemma bucket_elem sl (m : gmap Digest EntrySlot) d slot : m !! d = Some slot → sessionless slot = sl →
  (tokens (entry slot), mkDL d (length (tokens (entry slot)))) ∈ bucket_items sl m.
Proof.
  intros Hd Hs. unfold bucket_items. rewrite list_elem_of_omap. exists (d, slot).
  split; [by apply elem_of_map_to_list|]. unfold slot_item. by rewrite decide_True.
Qed.

Lemma others_bucket sl (m : gmap Digest EntrySlot) ts d : m !! d = None →
  others ts d (bucket_items sl m) = bucket_items sl m.
Proof.
  intros Hd. apply others_id. intros [p r] Hin [_ Hs]. cbn in Hs.
  destruct (bucket_digest _ _ _ _ Hin) as (slot & Hm & _). congruence.
Qed.

(** The trie of a bucket after the removal of one of its entries. *)
Lemma indexed_remove (m : gmap Digest EntrySlot) t d slot : indexed m t → m !! d = Some slot →
  let tr := default empty_trie (t !! sessionless slot) in
  let tr' := (remove (tokens (entry slot)) d tr).1 in
  is_Some (t !! sessionless slot) ∧
  indexed (delete d m) (if decide (trie_len tr' = 0) then delete (sessionless slot) t
                        else <[sessionless slot := tr']> t).
Proof.
  cbv zeta. intros Hix Hd. set (sl := sessionless slot). set (ts := tokens (entry slot)).
  destruct (Hix sl) as [Hr Hne]. pose proof (bucket_take_out sl m d slot Hd) as Hout.
  assert (Hitem : slot_item sl (d, slot) = Some (ts, mkDL d (length ts))) by (unfold slot_item; by rewrite decide_True).
  rewrite Hitem in Hout. cbn in Hout.
  assert (Hsome : is_Some (t !! sl)).
  { destruct (t !! sl) eqn:He; [done|]. exfalso. destruct Hr as (_ & _ & Hp). cbn in Hp.
    apply Permutation_nil in Hp. rewrite Hp in Hout. by apply Permutation_nil in Hout. }
  split; [done|]. destruct (remove_represents _ _ ts d Hr) as [Hrem _]. set (tr' := (remove ts d _).1) in *.
  assert (Hrem' : represents tr' (bucket_items sl (delete d m))).
  { destruct Hrem as (? & ? & Hp). split_and!; [done..|]. rewrite Hp, Hout. unfold others at 1. rewrite filter_cons, decide_False.
    - fold (others ts d (bucket_items sl (delete d m))). by rewrite others_bucket by apply lookup_delete_eq.
    - unfold same. cbn. tauto. }
  pose proof (represents_len _ _ Hrem') as Hlen.
  assert (Hother : ∀ sl', sl' ≠ sl → bucket_items sl' m ≡ₚ bucket_items sl' (delete d m)).
  { intros sl' Hsl. rewrite (bucket_take_out sl' m d slot Hd). unfold slot_item. by rewrite decide_False. }
  intros sl'. destruct (decide (sl' = sl)) as [->|Hsl].
  - case_decide as Hz.
    + rewrite lookup_delete_eq. rewrite Hz in Hlen. symmetry in Hlen. apply nil_length_inv in Hlen as ->.
      split; [apply empty_represents|by intros []].
    + rewrite lookup_insert_eq. split; [done|]. intros _ Hn. rewrite Hn in Hlen. done.
  - assert (Heq : (if decide (trie_len tr' = 0) then delete sl t else <[sl := tr']> t) !! sl' = t !! sl').
    { case_decide; [by rewrite lookup_delete_ne|by rewrite lookup_insert_ne]. }
    rewrite Heq. destruct (Hix sl') as [(? & ? & Hp) Hn']. rewrite (Hother sl' Hsl) in Hp. split; [done|].
    intros Hs Hnil. apply (Hn' Hs). pose proof (Hother sl' Hsl) as Ho. rewrite Hnil in Ho. by apply Permutation_nil_r in Ho.
Qed.

Lemma stash_eq e s :
  stash_paged_pins_for_release e s =
  set_pending (λ l, l ++ option_list (cell_paged (get_cell (cell e) s)))
    (set_cells <[cell e := mkCell None (last_used (get_cell (cell e) s))]> s).
Proof.
  unfold stash_paged_pins_for_release, take_detached, cell_paged.
  destruct (detached (get_cell (cell e) s)) as [[]|]; [|done|];
    unfold set_pending, set_cells; cbn; by rewrite app_nil_r.
Qed.

Lemma get_cell_Some a s c : cells s !! a = Some c → get_cell a s = c.
Proof. unfold get_cell. by intros ->. Qed.

Lemma held_stash e s : is_Some (cells s !! cell e) → held (stash_paged_pins_for_release e s) ≡ₚ held s.
Proof.
  intros [c Hc]. rewrite stash_eq. unfold held. cbn [cells pending_paged_releases set_pending set_cells].
  rewrite (omap_perm _ _ _ (list_replace (cells s) (cell e) _)), (omap_perm _ _ _ (list_take_out _ _ _ Hc)).
  rewrite (get_cell_Some _ _ _ Hc). cbn. destruct (cell_paged c); cbn; solve_Permutation.
Qed.

Definition drop_slot (d : Digest) (slot : EntrySlot) s : Store :=
  set_tries (λ t,
    let tr' := (remove (tokens (entry slot)) d (default empty_trie (t !! sessionless slot))).1 in
    if decide (trie_len tr' = 0) then delete (sessionless slot) t else <[sessionless slot := tr']> t)
  (stash_paged_pins_for_release (entry slot)
    (set_total (λ t, t - size_bytes (entry slot)) (set_slots (delete d) s))).

Lemma remove_entry_eq d s slot fl : store_inv s fl → slots s !! d = Some slot →
  remove_entry d s = (drop_slot d slot s, Some (bucket slot, entry slot)).
Proof.
  intros Hi Hd. destruct (indexed_remove _ _ d slot (inv_indexed _ _ Hi) Hd) as [[tr Htr] _].
  unfold remove_entry, drop_slot. rewrite Hd. rewrite stash_eq. unfold set_tries. cbn. rewrite Htr. cbn.
  by case_decide.
Qed.

Lemma drop_slot_spec d slot s fl : store_inv s fl → slots s !! d = Some slot →
  store_inv (drop_slot d slot s) fl ∧ shrunk s (drop_slot d slot s) ∧
  slots (drop_slot d slot s) = delete d (slots s).
Proof.
  intros Hi Hd. pose proof (inv_cells _ _ Hi d slot Hd) as Hc.
  assert (Hne : ∀ d' slot', delete d (slots s) !! d' = Some slot' → cell (entry slot') ≠ cell (entry slot)).
  { intros d' slot' [Hdd Hd']%lookup_delete_Some Heq. by destruct Hdd, (inv_distinct _ _ Hi d' d slot' slot Hd' Hd Heq). }
  unfold drop_slot. pose proof (held_stash (entry slot)
    (set_total (λ t, t - size_bytes (entry slot)) (set_slots (delete d) s)) Hc) as Hh.
  rewrite stash_eq in *. split_and!; [split|split|]; cbn.
  - rewrite (inv_total _ _ Hi), (ledger_delete _ _ _ Hd). lia.
  - apply (inv_snapshot _ _ Hi).
  - apply (indexed_remove _ _ d slot (inv_indexed _ _ Hi) Hd).
  - intros d' slot' [_ Hd']%lookup_delete_Some. by apply (inv_hashed _ _ Hi d').
  - intros d' slot' Hd'. rewrite lookup_insert_ne by (symmetry; by apply (Hne d')).
    apply lookup_delete_Some in Hd' as [_ Hd']. by apply (inv_cells _ _ Hi d').
  - intros d1 d2 sa sb [_ H1]%lookup_delete_Some [_ H2]%lookup_delete_Some. by apply (inv_distinct _ _ Hi).
  - intros a. rewrite lookup_insert_is_Some'. intros [<-|?]; by apply (inv_fresh _ _ Hi).
  - intros a Ha. destruct (inv_floating _ _ Hi a Ha) as [Hs Hn]. split.
    + rewrite lookup_insert_is_Some'. by right.
    + intros d' slot' [_ Hd']%lookup_delete_Some. by apply (Hn d').
  - intros a c [[-> <-]|[Ha Hac]]%lookup_insert_Some Hdet; [done|].
    destruct (inv_drained _ _ Hi a c Hac Hdet) as [?|(d' & slot' & Hd' & Hcell)]; [by left|right].
    exists d', slot'. split; [|done]. apply lookup_delete_Some. split; [|done]. intros ->. congruence.
  - apply delete_subseteq.
  - done.
  - done.
  - done.
  - intros d' slot' Hd'. apply lookup_insert_ne. symmetry. by apply (Hne d').
  - exact Hh.
  - done.
Qed.

Lemma remove_entry_spec d s fl : store_inv s fl →
  let '(s', o) := remove_entry d s in
  store_inv s' fl ∧ shrunk s s' ∧ slots s' = delete d (slots s) ∧
  o = (λ slot, (bucket slot, entry slot)) <$> slots s !! d.
Proof.
  intros Hi. destruct (slots s !! d) as [slot|] eqn:Hd.
  - rewrite (remove_entry_eq d s slot fl) by done. destruct (drop_slot_spec d slot s fl Hi Hd) as (? & ? & ?). by split_and!.
  - unfold remove_entry. rewrite Hd. split_and!; [done|apply shrunk_refl|by rewrite delete_id|done].
Qed.

(** The cell of an entry that is being passed in is not touched by a removal. *)
Lemma remove_entry_floating d s fl a : store_inv s fl → a ∈ fl → cells (remove_entry d s).1 !! a = cells s !! a.
Proof.
  intros Hi Ha. destruct (slots s !! d) as [slot|] eqn:Hd.
  - rewrite (remove_entry_eq d s slot fl) by done. cbn [fst]. unfold drop_slot. rewrite stash_eq. cbn.
    apply lookup_insert_ne. by apply (proj2 (inv_floating _ _ Hi a Ha) d).
  - unfold remove_entry. by rewrite Hd.
Qed.

(** ** Removing several entries *)

Lemma remove_entries_spec ds s fl : store_inv s fl →
  let '(s', (bytes, n)) := remove_entries ds s in
  store_inv s' fl ∧ shrunk s s' ∧ (∀ d, slots s' !! d = if decide (d ∈ ds) then None else slots s !! d) ∧
  bytes + ledger (slots s') = ledger (slots s) ∧
  (NoDup ds → (∀ d, d ∈ ds → is_Some (slots s !! d)) → n = length ds).
Proof.
  revert s. induction ds as [|d ds IH]; intros s Hi; cbn [remove_entries].
  { split_and!; [done|apply shrunk_refl|intros d|lia|done]. by rewrite decide_False by apply not_elem_of_nil. }
  pose proof (remove_entry_spec d s fl Hi) as Hr. destruct (remove_entry d s) as [s1 o].
  destruct Hr as (Hi1 & Hs1 & Hsl & ->). specialize (IH s1 Hi1).
  destruct (remove_entries ds s1) as [s2 [bytes n]]. destruct IH as (Hi2 & Hs2 & Hlk & Hb & Hn).
  assert (Hlook : ∀ d', slots s2 !! d' = if decide (d' ∈ d :: ds) then None else slots s !! d').
  { intros d'. rewrite Hlk, Hsl. destruct (decide (d' = d)) as [->|Hd].
    - rewrite lookup_delete_eq. rewrite (decide_True (P := d ∈ d :: ds)) by left. by case_decide.
    - rewrite lookup_delete_ne by done. do 2 case_decide; set_solver. }
  rewrite Hsl in Hb. destruct (slots s !! d) as [slot|] eqn:Hd; cbn [fmap option_fmap option_map].
  - split_and!; [done|by eapply shrunk_trans|done|rewrite (ledger_delete _ _ _ Hd); lia|].
    intros [Hnd Hnds]%NoDup_cons Hall. cbn. rewrite Hn; [done..|]. intros d' Hd'. rewrite Hsl, lookup_delete_ne.
    + apply Hall. by right.
    + by intros ->.
  - rewrite (delete_id (slots s)) in Hb by done. split_and!; [done|by eapply shrunk_trans|done|done|].
    intros _ Hall. destruct (Hall d) as [? ?]; [by left|congruence].
Qed.

(** The digests an iteration over the entries selects. *)
Lemma selected_spec {V} (P : Digest * V → Prop) `{!∀ x, Decision (P x)} (m : gmap Digest V) d :
  d ∈ fst <$> filter P (iter m) ↔ ∃ x, m !! d = Some x ∧ P (d, x).
Proof.
  rewrite list_elem_of_fmap. split.
  - intros ([d' x] & -> & Hin). apply list_elem_of_filter in Hin as [HP Hin]. rewrite iter_perm in Hin.
    apply elem_of_map_to_list in Hin. by exists x.
  - intros (x & Hx & HP). exists (d, x). split; [done|]. apply list_elem_of_filter. split; [done|].
    rewrite iter_perm. by apply elem_of_map_to_list.
Qed.

Lemma selected_NoDup {V} (P : Digest * V → Prop) `{!∀ x, Decision (P x)} (m : gmap Digest V) :
  NoDup (fst <$> filter P (iter m)).
Proof.
  eapply sublist_NoDup; [|apply fmap_sublist, sublist_filter]. rewrite iter_perm. apply NoDup_fst_map_to_list.
Qed.

(** A sweep removes exactly the entries its filter selects. *)
Lemma sweep_spec (P : Digest * EntrySlot → Prop) `{!∀ x, Decision (P x)} s fl : store_inv s fl →
  let '(s', _) := remove_entries (fst <$> filter P (iter (slots s))) s in
  store_inv s' fl ∧ shrunk s s' ∧
  ∀ d slot, slots s' !! d = Some slot ↔ slots s !! d = Some slot ∧ ¬ P (d, slot).
Proof.
  intros Hi. pose proof (remove_entries_spec (fst <$> filter P (iter (slots s))) s fl Hi) as Hr.
  destruct (remove_entries _ s) as [s' [b n]]. destruct Hr as (Hi' & Hs' & Hlk & _). split_and!; [done..|].
  intros d slot. rewrite Hlk. case_decide as Hd.
  - apply selected_spec in Hd as (x & Hx & HP). split; [done|]. intros [Hd Hn]. congruence.
  - split; [|by intros []]. intros Hx. split; [done|]. intros HP. apply Hd, selected_spec. eauto.
Qed.

Lemma sweep_ttl_spec now s fl : store_inv s fl →
  let s' := (sweep_ttl now s).1 in
  store_inv s' fl ∧ shrunk s s' ∧
  ∀ d slot, slots s' !! d = Some slot ↔
    slots s !! d = Some slot ∧ (ttl (config s) = 0 ∨ now - entry_last_used (entry slot) s < ttl (config s)).
Proof.
  cbv zeta. intros Hi. unfold sweep_ttl. case_decide as Hz.
  { split_and!; [done|apply shrunk_refl|]. intros d slot. cbn [fst]. destruct Hz as [Hz|Hz]; [tauto|].
    rewrite Hz, lookup_empty. split; [done|by intros []]. }
  pose proof (sweep_spec (λ ds, ttl (config s) ≤ now - entry_last_used (entry ds.2) s) s fl Hi) as Hr.
  destruct (remove_entries _ s) as [s' [b n]]. destruct Hr as (Hi' & Hs' & Hlk). cbn [fst].
  split_and!; [by apply store_inv_bump|by apply shrunk_bump|]. intros d slot. cbn [bump slots set_counters].
  rewrite Hlk. cbn. split; intros []; (split; [done|lia]).
Qed.

Lemma sweep_drained_spec s fl : store_inv s fl →
  let s' := (sweep_drained s).1 in
  store_inv s' fl ∧ shrunk s s' ∧
  ∀ d slot, slots s' !! d = Some slot ↔ slots s !! d = Some slot ∧ has_detached (entry slot) s = true.
Proof.
  cbv zeta. intros Hi. unfold sweep_drained. case_decide as Hz.
  { split_and!; [done|apply shrunk_refl|]. intros d slot. cbn [fst]. rewrite Hz, lookup_empty. split; [done|by intros []]. }
  pose proof (sweep_spec (λ ds, has_detached (entry ds.2) s = false) s fl Hi) as Hr.
  destruct (remove_entries _ s) as [s' [b n]]. destruct Hr as (Hi' & Hs' & Hlk). cbn [fst].
  split_and!; [done..|]. intros d slot. rewrite Hlk. cbn. by rewrite not_false_iff_true.
Qed.

(** ** Eviction *)

Lemma min_by_key_spec {A} (key : A → nat) (l : list A) x : min_by_key key l = Some x →
  x ∈ l ∧ ∀ y, y ∈ l → key x ≤ key y.
Proof.
  destruct l as [|z l]; [done|]. intros [= <-].
  assert (∀ b, foldl (λ best y, if decide (key y < key best) then y else best) b l ∈ b :: l ∧
    ∀ y, y ∈ b :: l → key (foldl (λ best y, if decide (key y < key best) then y else best) b l) ≤ key y) as Hf.
  { induction l as [|a l IH]; intros b; cbn.
    - split; [by left|]. intros y ->%list_elem_of_singleton. done.
    - destruct (IH (if decide (key a < key b) then a else b)) as [Hin Hle]. split.
      + rewrite !elem_of_cons in *. case_decide; tauto.
      + intros y. rewrite !elem_of_cons. intros [->|[->|Hy]].
        * transitivity (key (if decide (key a < key b) then a else b)); [apply Hle; by left|]. case_decide; lia.
        * transitivity (key (if decide (key a < key b) then a else b)); [apply Hle; by left|]. case_decide; lia.
        * apply Hle. by right. }
  apply Hf.
Qed.

(** The entry evicted is one that was not used more recently than any other. *)
Lemma evict_oldest_spec s fl : store_inv s fl →
  let '(s', freed) := evict_oldest s in
  store_inv s' fl ∧ shrunk s s' ∧
  ((slots s = ∅ ∧ s' = s ∧ freed = 0) ∨
   ∃ d slot, slots s !! d = Some slot ∧ slots s' = delete d (slots s) ∧ freed = size_bytes (entry slot) ∧
     ∀ d2 slot2, slots s !! d2 = Some slot2 → entry_last_used (entry slot) s ≤ entry_last_used (entry slot2) s).
Proof.
  intros Hi. unfold evict_oldest. destruct (min_by_key _ _) as [[d slot]|] eqn:Hm.
  - apply min_by_key_spec in Hm as [Hin Hmin]. rewrite iter_perm, elem_of_map_to_list in Hin.
    rewrite (remove_entry_eq d s slot fl) by done. destruct (drop_slot_spec d slot s fl Hi Hin) as (Hi' & Hs' & Hsl).
    split_and!; [case_decide; [by apply store_inv_bump|done]|case_decide; [by apply shrunk_bump|done]|right].
    exists d, slot. split_and!; [done|by case_decide|done|]. intros d2 slot2 Hd2.
    apply (Hmin (d2, slot2)). rewrite iter_perm. by apply elem_of_map_to_list.
  - split_and!; [done|apply shrunk_refl|left]. split_and!; [|done..].
    pose proof (iter_perm (slots s)) as Hp. destruct (iter (slots s)); [|done].
    symmetry in Hp. by apply Permutation_nil_r, map_to_list_empty_iff in Hp.
Qed.

Definition positive_sizes (m : gmap Digest EntrySlot) : Prop := ∀ d slot, m !! d = Some slot → 0 < size_bytes (entry slot).

Lemma positive_mono (m m' : gmap Digest EntrySlot) : m' ⊆ m → positive_sizes m → positive_sizes m'.
Proof. intros Hm Hp d slot Hd. apply (Hp d). by eapply lookup_weaken. Qed.

(** The eviction loop, for any eviction that shrinks a measure and reports zero
    bytes only when there is nothing left. *)
Lemma evict_while_gen (I pos : Store → Prop) (R : Store → Store → Prop) `{!PreOrder R} (sz : Store → nat)
    (over : Store → bool) (evict : Store → Store * nat) fuel s :
  (∀ s, I s → sz s = 0 → over s = false) →
  (∀ s, I s → let '(s', n) := evict s in
     I s' ∧ R s s' ∧ (pos s → pos s') ∧ (n = 0 → pos s → sz s' = 0) ∧ (n ≠ 0 → sz s' < sz s)) →
  I s → let s' := (evict_while over evict fuel s).1 in
  I s' ∧ R s s' ∧ (sz s ≤ fuel → pos s → over s' = false).
Proof.
  cbv zeta. intros Hover Hev. revert s. induction fuel as [|fuel IH]; intros s Hi; cbn [evict_while].
  { split_and!; [done..|]. intros Hsz _. apply Hover; [done|]. cbn. lia. }
  destruct (over s) eqn:Ho; [|by split_and!].
  pose proof (Hev s Hi) as He. destruct (evict s) as [s1 n]. destruct He as (Hi1 & Hs1 & Hp1 & Hz & Hd).
  case_decide as Hn.
  - split_and!; [done..|]. intros _ Hpos. apply Hover; [done|]. by apply Hz.
  - destruct (IH s1 Hi1) as (Hi2 & Hs2 & Hov). destruct (evict_while over evict fuel s1) as [s2 f2].
    cbn [fst] in *. split_and!; [done|by etrans|]. intros Hsz Hpos. specialize (Hd Hn). apply Hov; [lia|by apply Hp1].
Qed.

#[local] Instance shrunk_preorder : PreOrder shrunk.
Proof. split; [exact shrunk_refl|exact shrunk_trans]. Qed.

Lemma evict_while_spec over s fl :
  (∀ s, store_inv s fl → size (slots s) = 0 → over s = false) → store_inv s fl →
  let s' := (evict_while over evict_oldest (size (slots s)) s).1 in
  store_inv s' fl ∧ shrunk s s' ∧ (positive_sizes (slots s) → over s' = false).
Proof.
  intros Hover Hi.
  destruct (evict_while_gen (λ s, store_inv s fl) (λ s, positive_sizes (slots s)) shrunk (λ s, size (slots s))
    over evict_oldest (size (slots s)) s) as (? & ? & Hov); [done| |done|].
  - clear s Hi. intros s Hi. pose proof (evict_oldest_spec s fl Hi) as He. destruct (evict_oldest s) as [s1 n].
    destruct He as (Hi1 & Hs1 & Hcase). split_and!; [done..| | |].
    + intros Hpos. eapply positive_mono; [apply (shr_slots _ _ Hs1)|done].
    + intros -> Hpos. destruct Hcase as [(Hz & -> & _)|(d & slot & Hd & _ & Hn & _)]; [by rewrite Hz, map_size_empty|].
      specialize (Hpos d slot Hd). lia.
    + intros Hn. destruct Hcase as [(_ & _ & ->)|(d & slot & Hd & -> & _)]; [done|].
      rewrite map_size_delete_Some by done. assert (size (slots s) ≠ 0); [|lia].
      intros Hz%map_size_empty_inv. by rewrite Hz, lookup_empty in Hd.
  - split_and!; [done..|]. intros. by apply Hov.
Qed.

Definition within_caps s : Prop :=
  size (slots s) ≤ max_entries (config s) ∧ total_bytes s ≤ capacity_bytes (config s).

Lemma shrunk_within s s' fl : store_inv s fl → store_inv s' fl → shrunk s s' → within_caps s → within_caps s'.
Proof.
  intros Hi Hi' Hs [H1 H2]. split; rewrite (shr_config _ _ Hs).
  - etrans; [|exact H1]. apply map_subseteq_size, Hs.
  - etrans; [|exact H2]. rewrite (inv_total _ _ Hi), (inv_total _ _ Hi').
    pose proof (map_to_list_submseteq _ _ (shr_slots _ _ Hs)) as [k Hk]%submseteq_Permutation.
    unfold ledger. rewrite Hk, fmap_app, sum_list_with_app. lia.
Qed.

Lemma enforce_caps_spec s fl : store_inv s fl →
  let s' := (enforce_caps s).1 in
  store_inv s' fl ∧ shrunk s s' ∧ (positive_sizes (slots s) → within_caps s').
Proof.
  cbv zeta. intros Hi. unfold enforce_caps.
  destruct (evict_while_spec (λ s, bool_decide (max_entries (config s) < size (slots s))) s fl)
    as (Hi1 & Hs1 & Ho1); [|done|].
  { intros s0 _ Hz. apply bool_decide_eq_false. lia. }
  destruct (evict_while _ _ (size (slots s)) s) as [s1 f1]. cbn [fst] in *.
  destruct (evict_while_spec (λ s, bool_decide (capacity_bytes (config s) < total_bytes s)) s1 fl)
    as (Hi2 & Hs2 & Ho2); [|done|].
  { intros s0 Hi0 Hz%map_size_empty_inv. apply bool_decide_eq_false. rewrite (inv_total _ _ Hi0), Hz. unfold ledger.
    rewrite map_to_list_empty. cbn. lia. }
  destruct (evict_while _ _ (size (slots s1)) s1) as [s2 f2]. cbn [fst] in *.
  split_and!; [done|by eapply shrunk_trans|]. intros Hpos. specialize (Ho1 Hpos).
  specialize (Ho2 (positive_mono _ _ (shr_slots _ _ Hs1) Hpos)).
  rewrite bool_decide_eq_false in Ho1, Ho2. split; [|lia]. rewrite (shr_config _ _ Hs2).
  transitivity (size (slots s1)); [apply map_subseteq_size, Hs2|lia].
Qed.

(** ** Insertion *)

Lemma bucket_insert sl (m : gmap Digest EntrySlot) d slot : m !! d = None →
  bucket_items sl (<[d := slot]> m) ≡ₚ option_list (slot_item sl (d, slot)) ++ bucket_items sl m.
Proof.
  intros Hd. unfold bucket_items. rewrite (omap_perm _ _ _ (list_insert_new m d slot Hd)). cbn.
  by destruct (slot_item sl (d, slot)).
Qed.

Lemma indexed_insert (m : gmap Digest EntrySlot) t d slot sl ts : indexed m t → m !! d = None →
  sessionless slot = sl → tokens (entry slot) = ts →
  indexed (<[d := slot]> m) (<[sl := insert ts d (default empty_trie (t !! sl))]> t).
Proof.
  intros Hix Hd Hsl Hts sl'. pose proof (bucket_insert sl' m d slot Hd) as Hb. unfold slot_item in Hb. cbn in Hb.
  rewrite Hsl, Hts in Hb. destruct (decide (sl' = sl)) as [->|Hne].
  - rewrite decide_True in Hb by done. cbn in Hb. rewrite lookup_insert_eq. cbn [default].
    destruct (Hix sl) as [Hr _]. destruct (insert_represents _ _ ts d Hr) as (? & ? & Hp).
    rewrite others_bucket in Hp by done. split.
    + split_and!; [done..|]. by rewrite Hp, Hb.
    + intros _ Hnil. rewrite Hnil in Hb. by apply Permutation_nil in Hb.
  - rewrite decide_False in Hb by congruence. cbn in Hb. rewrite lookup_insert_ne by done.
    destruct (Hix sl') as [(? & ? & Hp) Hn]. split; [split_and!; [done..|by rewrite Hp, Hb]|].
    intros Hs Hnil. apply (Hn Hs). rewrite Hnil in Hb. by apply Permutation_nil in Hb.
Qed.

(** An entry that was being passed in is drained: declined insertions. *)
Lemma stash_floating e s fl : store_inv s (cell e :: fl) → store_inv (stash_paged_pins_for_release e s) fl.
Proof.
  intros Hi. destruct (inv_floating _ _ Hi (cell e)) as [He _]; [by left|].
  rewrite stash_eq. split; cbn; try apply Hi.
  - intros d slot Hd. rewrite lookup_insert_is_Some'. right. by apply (inv_cells _ _ Hi d).
  - intros a. rewrite lookup_insert_is_Some'. intros [<-|?]; by apply (inv_fresh _ _ Hi).
  - intros a Ha. destruct (inv_floating _ _ Hi a) as [Hs Hn]; [by right|]. split; [|done].
    rewrite lookup_insert_is_Some'. by right.
  - intros a c [[-> <-]|[Ha Hac]]%lookup_insert_Some Hdet; [done|].
    destruct (inv_drained _ _ Hi a c Hac Hdet) as [[->|?]%elem_of_cons|?]; [done|by left|by right].
Qed.

Lemma entry_new_spec now ts set s fl : store_inv s fl →
  let '(s', e) := entry_new now ts set s in
  store_inv s' (cell e :: fl) ∧ held s' ≡ₚ option_list (match set with PagedSet p => Some p | _ => None end) ++ held s ∧
  slots s' = slots s ∧ config s' = config s ∧ size_bytes e = set_nbytes set ∧ tokens e = ts.
Proof.
  intros Hi. unfold entry_new.
  assert (Hf : cells s !! next_cell s = None).
  { destruct (cells s !! next_cell s) eqn:He; [|done]. pose proof (inv_fresh _ _ Hi (next_cell s) ltac:(by rewrite He)). lia. }
  assert (Hlt : ∀ a, is_Some (cells s !! a) → a ≠ next_cell s) by (intros a [c Ha] ->; congruence).
  split_and!; [split; cbn; try apply Hi| |done..].
  - intros d slot Hd. rewrite lookup_insert_is_Some'. right. by apply (inv_cells _ _ Hi d).
  - intros a. rewrite lookup_insert_is_Some'. intros [<-|Ha]; [lia|]. pose proof (inv_fresh _ _ Hi a Ha). lia.
  - intros a [->|Ha]%elem_of_cons.
    + split; [by rewrite lookup_insert_eq|]. intros d slot Hd. by apply Hlt, (inv_cells _ _ Hi d).
    + destruct (inv_floating _ _ Hi a Ha) as [Hs Hn]. split; [|done]. rewrite lookup_insert_is_Some'. by right.
  - intros a c [[-> _]|[_ Hac]]%lookup_insert_Some Hdet; [left; by left|].
    destruct (inv_drained _ _ Hi a c Hac Hdet); [left; by right|by right].
  - unfold held. cbn [cells pending_paged_releases]. rewrite (omap_perm _ _ _ (list_insert_new _ _ _ Hf)). cbn.
    by destruct set.
Qed.

(** The record of an entry put under a free digest. *)
Definition add_slot (d : Digest) (slot : EntrySlot) s : Store :=
  set_tries (λ t, <[sessionless slot := insert (tokens (entry slot)) d (default empty_trie (t !! sessionless slot))]> t)
    (set_slots <[d := slot]> (set_total (λ t, t + size_bytes (entry slot)) s)).

Lemma add_slot_inv d slot s fl : store_inv s (cell (entry slot) :: fl) → slots s !! d = None →
  cell (entry slot) ∉ fl → hashed (config s) slot → store_inv (add_slot d slot s) fl.
Proof.
  intros Hi Hd Hfl Hh. destruct (inv_floating _ _ Hi (cell (entry slot))) as [He Hn]; [by left|].
  unfold add_slot. split; cbn; try apply Hi.
  - rewrite (inv_total _ _ Hi). unfold ledger. rewrite (list_insert_new _ _ _ Hd). cbn. lia.
  - apply indexed_insert; [apply Hi|done..].
  - intros d' slot' [[-> <-]|[_ Hd']]%lookup_insert_Some; [done|]. by apply (inv_hashed _ _ Hi d').
  - intros d' slot' [[-> <-]|[_ Hd']]%lookup_insert_Some; [done|]. by apply (inv_cells _ _ Hi d').
  - intros d1 d2 sa sb [[<- <-]|[Hd1 H1]]%lookup_insert_Some [[<- <-]|[Hd2 H2]]%lookup_insert_Some Hc; try done.
    + by destruct (Hn d2 sb H2).
    + by destruct (Hn d1 sa H1).
    + by apply (inv_distinct _ _ Hi d1 d2 sa sb).
  - intros a Ha. destruct (inv_floating _ _ Hi a) as [Hs Hna]; [by right|]. split; [done|].
    intros d' slot' [[-> <-]|[_ Hd']]%lookup_insert_Some; [by intros <-|by apply (Hna d')].
  - intros a c Hac Hdet. destruct (inv_drained _ _ Hi a c Hac Hdet) as [[->|?]%elem_of_cons|(d' & slot' & Hd' & Hc')].
    + right. exists d, slot. by rewrite lookup_insert_eq.
    + by left.
    + right. exists d', slot'. split; [|done]. rewrite lookup_insert_ne; [done|]. intros ->. congruence.
Qed.

(** What an insertion promises of the store it leaves. *)
Definition kept_caps s s' : Prop :=
  held s' ≡ₚ held s ∧ config s' = config s ∧ snapshots s' = snapshots s ∧ positive_sizes (slots s') ∧
  (within_caps s → within_caps s').

Lemma declined e s fl : store_inv s (cell e :: fl) → positive_sizes (slots s) →
  store_inv (stash_paged_pins_for_release e s) fl ∧ kept_caps s (stash_paged_pins_for_release e s).
Proof.
  intros Hi Hpos. destruct (inv_floating _ _ Hi (cell e)) as [He _]; [by left|].
  split; [by apply stash_floating|]. split; [by apply held_stash|]. by rewrite stash_eq.
Qed.

Lemma insert_entry_spec key e s fl : store_inv s (cell e :: fl) → cell e ∉ fl →
  positive_sizes (slots s) → 0 < size_bytes e →
  let s' := (insert_entry key e s).1 in store_inv s' fl ∧ kept_caps s s'.
Proof.
  cbv zeta. intros Hi Hfl Hpos Hsz. unfold insert_entry.
  destruct (is_enabled (config s)); cbn [negb]; [|by apply declined].
  case_decide; [by apply declined|]. case_decide.
  { by apply (declined e (bump RejectionsOversized 1 s)); [apply store_inv_bump|]. }
  pose proof (remove_entry_spec (digest key) s _ Hi) as Hr. destruct (remove_entry (digest key) s) as [s1 o].
  destruct Hr as (Hi1 & Hs1 & Hsl1 & _).
  set (s2 := match o with Some _ => bump EvictionsLru 1 s1 | None => s1 end).
  assert (Hi2 : store_inv s2 (cell e :: fl)) by (unfold s2; destruct o; [by apply store_inv_bump|done]).
  assert (Hs2 : shrunk s s2) by (unfold s2; destruct o; [by apply shrunk_bump|done]).
  assert (Hsl2 : slots s2 = delete (digest key) (slots s)) by (unfold s2; by destruct o).
  set (e' := if apc_enabled (config s2) then _ else e).
  assert (cell e' = cell e ∧ size_bytes e' = size_bytes e) as [Hce Hse] by (unfold e'; by destruct (apc_enabled _)).
  set (slot := mkSlot e' (bucket_from_key key) (sessionless_from_key key)).
  assert (Hi3 : store_inv (add_slot (digest key) slot s2) fl).
  { apply add_slot_inv; cbn; rewrite ?Hce; [done|rewrite Hsl2; apply lookup_delete_eq|done|].
    intros Ha. cbn. unfold e'. by rewrite Ha. }
  assert (Hp3 : positive_sizes (slots (add_slot (digest key) slot s2))).
  { intros d sl. cbn. rewrite lookup_insert_Some. intros [[_ <-]|[_ Hd]]; [cbn; lia|].
    apply (Hpos d). by eapply lookup_weaken, Hs2. }
  destruct (enforce_caps_spec (bump Inserts 1 (add_slot (digest key) slot s2)) fl) as (Hi4 & Hs4 & Hc4);
    [by apply store_inv_bump|].
  change (bump Inserts 1 (set_tries _ _)) with (bump Inserts 1 (add_slot (digest key) slot s2)).
  destruct (enforce_caps _) as [s4 f]. cbn [fst] in *. split; [done|]. split_and!.
  - by rewrite (shr_held _ _ Hs4), <-(shr_held _ _ Hs2).
  - rewrite (shr_config _ _ Hs4). apply (shr_config _ _ Hs2).
  - rewrite (shr_snapshots _ _ Hs4). apply (shr_snapshots _ _ Hs2).
  - eapply positive_mono; [apply (shr_slots _ _ Hs4)|done].
  - intros _. by apply Hc4.
Qed.

(** ** Snapshots *)

(** Nothing but the snapshots (and counters) differs. *)
Record snap_only s s' : Prop := {
  so_config : config s' = config s;
  so_slots : slots s' = slots s;
  so_tries : tries s' = tries s;
  so_total : total_bytes s' = total_bytes s;
  so_cells : cells s' = cells s;
  so_next : next_cell s' = next_cell s;
  so_pending : pending_paged_releases s' = pending_paged_releases s;
}.

Definition snap_shrunk s s' : Prop := snap_only s s' ∧ snapshots s' ⊆ snapshots s.

#[local] Instance snap_only_preorder : PreOrder snap_only.
Proof. split; [by split|]. intros s1 s2 s3 [] []. split; congruence. Qed.

#[local] Instance snap_shrunk_preorder : PreOrder snap_shrunk.
Proof. split; [by split|]. intros s1 s2 s3 [] []. split; [by etrans|by etrans]. Qed.

Lemma snap_only_inv s s' fl : store_inv s fl → snap_only s s' → snapshot_bytes s' = snapshot_ledger (snapshots s') →
  store_inv s' fl.
Proof.
  intros [] [E1 E2 E3 E4 E5 E6 E7] Hl. split; rewrite ?E1, ?E2, ?E3, ?E4, ?E5, ?E6; done.
Qed.

Lemma snap_only_held s s' : snap_only s s' → held s' = held s.
Proof. intros []. unfold held. congruence. Qed.

Lemma snap_only_bump s s' k n : snap_only s s' → snap_only s (bump k n s').
Proof. by intros []; split. Qed.

Lemma snapshot_ledger_delete (m : gmap Digest SnapshotSlot) d slot : m !! d = Some slot →
  snapshot_ledger m = snap_size_bytes (snap_entry slot) + snapshot_ledger (delete d m).
Proof. intros Hd. unfold snapshot_ledger. by rewrite (list_take_out m d slot Hd). Qed.

Lemma remove_snapshot_spec d s fl : store_inv s fl →
  let '(s', o) := remove_snapshot d s in
  store_inv s' fl ∧ snap_shrunk s s' ∧ snapshots s' = delete d (snapshots s) ∧
  o = (λ slot, (snap_bucket slot, snap_entry slot)) <$> snapshots s !! d.
Proof.
  intros Hi. unfold remove_snapshot. destruct (snapshots s !! d) as [slot|] eqn:Hd; cbn [fmap option_fmap option_map].
  - split_and!; [|split; [by split|apply delete_subseteq]|done..].
    apply (snap_only_inv s); [done|by split|]. cbn. rewrite (inv_snapshot _ _ Hi), (snapshot_ledger_delete _ _ _ Hd). lia.
  - split_and!; [done|done|by rewrite delete_id|done].
Qed.

Lemma remove_snapshots_spec ds s fl : store_inv s fl →
  let '(s', (bytes, n)) := remove_snapshots ds s in
  store_inv s' fl ∧ snap_shrunk s s' ∧
  (∀ d, snapshots s' !! d = if decide (d ∈ ds) then None else snapshots s !! d) ∧
  bytes + snapshot_ledger (snapshots s') = snapshot_ledger (snapshots s) ∧
  (NoDup ds → (∀ d, d ∈ ds → is_Some (snapshots s !! d)) → n = length ds).
Proof.
  revert s. induction ds as [|d ds IH]; intros s Hi; cbn [remove_snapshots].
  { split_and!; [done|done|intros d|lia|done]. by rewrite decide_False by apply not_elem_of_nil. }
  pose proof (remove_snapshot_spec d s fl Hi) as Hr. destruct (remove_snapshot d s) as [s1 o].
  destruct Hr as (Hi1 & Hs1 & Hsl & ->). specialize (IH s1 Hi1).
  destruct (remove_snapshots ds s1) as [s2 [bytes n]]. destruct IH as (Hi2 & Hs2 & Hlk & Hb & Hn).
  assert (Hlook : ∀ d', snapshots s2 !! d' = if decide (d' ∈ d :: ds) then None else snapshots s !! d').
  { intros d'. rewrite Hlk, Hsl. destruct (decide (d' = d)) as [->|Hd].
    - rewrite lookup_delete_eq. rewrite (decide_True (P := d ∈ d :: ds)) by left. by case_decide.
    - rewrite lookup_delete_ne by done. do 2 case_decide; set_solver. }
  rewrite Hsl in Hb. destruct (snapshots s !! d) as [slot|] eqn:Hd; cbn [fmap option_fmap option_map].
  - split_and!; [done|by etrans|done|rewrite (snapshot_ledger_delete _ _ _ Hd); lia|].
    intros [Hnd Hnds]%NoDup_cons Hall. cbn. rewrite Hn; [done..|]. intros d' Hd'. rewrite Hsl, lookup_delete_ne.
    + apply Hall. by right.
    + by intros ->.
  - rewrite (delete_id (snapshots s)) in Hb by done. split_and!; [done|by etrans|done|done|].
    intros _ Hall. destruct (Hall d) as [? ?]; [by left|congruence].
Qed.

Lemma sweep_snapshot_ttl_spec now s fl : store_inv s fl →
  let s' := (sweep_snapshot_ttl now s).1 in store_inv s' fl ∧ snap_shrunk s s' ∧
  ∀ d slot, snapshots s' !! d = Some slot ↔
    snapshots s !! d = Some slot ∧
    (snapshot_ttl (config s) = 0 ∨ now - snap_last_used (snap_entry slot) < snapshot_ttl (config s)).
Proof.
  cbv zeta. intros Hi. unfold sweep_snapshot_ttl. case_decide as Hz.
  { split_and!; [done..|]. intros d slot. cbn [fst]. destruct Hz as [Hz|Hz]; [tauto|].
    rewrite Hz, lookup_empty. split; [done|by intros []]. }
  set (P := λ ds : Digest * SnapshotSlot, snapshot_ttl (config s) ≤ now - snap_last_used (snap_entry ds.2)).
  pose proof (remove_snapshots_spec (fst <$> filter P (iter (snapshots s))) s fl Hi) as Hr.
  destruct (remove_snapshots _ s) as [s' [b n]]. destruct Hr as (Hi' & [Hs' Hsub] & Hlk & _). cbn [fst].
  split_and!; [by apply store_inv_bump|split; [by apply snap_only_bump|done]|].
  intros d slot. cbn [bump snapshots set_counters]. rewrite Hlk. case_decide as Hd.
  - apply selected_spec in Hd as (x & Hx & HP). split; [done|]. intros [Hd Hn]. unfold P in HP. cbn in HP.
    assert (x = slot) as -> by congruence. lia.
  - split; [|by intros []]. intros Hx. split; [done|].
    destruct (decide (now - snap_last_used (snap_entry slot) < snapshot_ttl (config s))); [by right|].
    destruct Hd. apply selected_spec. exists slot. split; [done|]. unfold P. cbn. lia.
Qed.

Definition positive_snapshots (m : gmap Digest SnapshotSlot) : Prop :=
  ∀ d slot, m !! d = Some slot → 0 < snap_size_bytes (snap_entry slot).

Lemma positive_snapshots_mono (m m' : gmap Digest SnapshotSlot) : m' ⊆ m → positive_snapshots m → positive_snapshots m'.
Proof. intros Hm Hp d slot Hd. apply (Hp d). by eapply lookup_weaken. Qed.

Lemma evict_oldest_snapshot_spec s fl : store_inv s fl →
  let '(s', freed) := evict_oldest_snapshot s in
  store_inv s' fl ∧ snap_shrunk s s' ∧
  ((snapshots s = ∅ ∧ s' = s ∧ freed = 0) ∨
   ∃ d slot, snapshots s !! d = Some slot ∧ snapshots s' = delete d (snapshots s) ∧
     freed = snap_size_bytes (snap_entry slot)).
Proof.
  intros Hi. unfold evict_oldest_snapshot. destruct (min_by_key _ _) as [[d slot]|] eqn:Hm.
  - apply min_by_key_spec in Hm as [Hin _]. rewrite iter_perm, elem_of_map_to_list in Hin.
    pose proof (remove_snapshot_spec d s fl Hi) as Hr. destruct (remove_snapshot d s) as [s1 o].
    destruct Hr as (Hi1 & [Hs1 Hsub] & Hsl & ->). rewrite Hin. cbn [fmap option_fmap option_map].
    split_and!; [by apply store_inv_bump|split; [by apply snap_only_bump|done]|right]. by exists d, slot.
  - split_and!; [done..|left]. split_and!; [|done..]. pose proof (iter_perm (snapshots s)) as Hp.
    destruct (iter (snapshots s)); [|done]. symmetry in Hp. by apply Permutation_nil_r, map_to_list_empty_iff in Hp.
Qed.

Lemma evict_snapshots_while over s fl :
  (∀ s, store_inv s fl → size (snapshots s) = 0 → over s = false) → store_inv s fl →
  let s' := (evict_while over evict_oldest_snapshot (size (snapshots s)) s).1 in
  store_inv s' fl ∧ snap_shrunk s s' ∧ (positive_snapshots (snapshots s) → over s' = false).
Proof.
  intros Hover Hi.
  destruct (evict_while_gen (λ s, store_inv s fl) (λ s, positive_snapshots (snapshots s)) snap_shrunk
    (λ s, size (snapshots s)) over evict_oldest_snapshot (size (snapshots s)) s) as (? & ? & Hov); [done| |done|].
  - clear s Hi. intros s Hi. pose proof (evict_oldest_snapshot_spec s fl Hi) as He.
    destruct (evict_oldest_snapshot s) as [s1 n]. destruct He as (Hi1 & Hs1 & Hcase). split_and!; [done..| | |].
    + intros Hpos. eapply positive_snapshots_mono; [apply Hs1|done].
    + intros -> Hpos. destruct Hcase as [(Hz & -> & _)|(d & slot & Hd & _ & Hn)]; [by rewrite Hz, map_size_empty|].
      specialize (Hpos d slot Hd). lia.
    + intros Hn. destruct Hcase as [(_ & _ & ->)|(d & slot & Hd & -> & _)]; [done|].
      rewrite map_size_delete_Some by done. assert (size (snapshots s) ≠ 0); [|lia].
      intros Hz%map_size_empty_inv. by rewrite Hz, lookup_empty in Hd.
  - split_and!; [done..|]. intros. by apply Hov.
Qed.

Definition snapshots_within s : Prop :=
  size (snapshots s) ≤ snapshot_max_entries (config s) ∧ snapshot_bytes s ≤ snapshot_capacity_bytes (config s).

Lemma enforce_snapshot_caps_spec s fl : store_inv s fl →
  let s' := (enforce_snapshot_caps s).1 in
  store_inv s' fl ∧ snap_shrunk s s' ∧ (positive_snapshots (snapshots s) → snapshots_within s').
Proof.
  cbv zeta. intros Hi. unfold enforce_snapshot_caps.
  destruct (evict_snapshots_while (λ s, bool_decide (snapshot_max_entries (config s) < size (snapshots s))) s fl)
    as (Hi1 & Hs1 & Ho1); [|done|].
  { intros s0 _ Hz. apply bool_decide_eq_false. lia. }
  destruct (evict_while _ _ _ s) as [s1 f1]. cbn [fst] in *.
  destruct (evict_snapshots_while (λ s, bool_decide (snapshot_capacity_bytes (config s) < snapshot_bytes s)) s1 fl)
    as (Hi2 & Hs2 & Ho2); [|done|].
  { intros s0 Hi0 Hz%map_size_empty_inv. apply bool_decide_eq_false. rewrite (inv_snapshot _ _ Hi0), Hz.
    unfold snapshot_ledger. rewrite map_to_list_empty. cbn. lia. }
  destruct (evict_while _ _ _ s1) as [s2 f2]. cbn [fst] in *.
  split_and!; [done|by etrans|]. intros Hpos. specialize (Ho1 Hpos).
  specialize (Ho2 (positive_snapshots_mono _ _ (proj2 Hs1) Hpos)).
  rewrite bool_decide_eq_false in Ho1, Ho2. split; [|lia]. destruct Hs2 as [Hs2 Hsub]. rewrite (so_config _ _ Hs2).
  transitivity (size (snapshots s1)); [by apply map_subseteq_size|lia].
Qed.

End inv.
