(* ===== verification/PromptLookup.v ===== *)
(** * Longest-prefix lookup in the prompt cache

    The trie tier and the scan tier of [lookup_longest_prefix] against one
    specification: the usable entry of the bucket with the longest match, of the
    caller's session among equals, then the most recently used. *)

From S2P Require Import Prelude Bytes PromptKey PromptTrie PromptStore PromptStoreInv.

Section lookup.
Context {K : KvSets} {O : HashOrder} {H : Hashes}.
Implicit Types (s : Store) (d : Digest) (slot : EntrySlot) (key : PromptCacheKey) (ts : list Z).

(** ** Choosing among candidates *)

(** Longer matches first, then the caller's session, then the later use. *)
Definition wins (x y : bool * BestCandidate) : Prop :=
  matched y.2 < matched x.2 ∨
  (matched y.2 = matched x.2 ∧
   ((x.1 = true ∧ y.1 = false) ∨ (x.1 = y.1 ∧ cand_last_used y.2 ≤ cand_last_used x.2))).

Lemma beats_spec a b : if beats a b then
    matched b < matched a ∨ (matched b = matched a ∧ cand_last_used b < cand_last_used a)
  else matched a < matched b ∨ (matched a = matched b ∧ cand_last_used a ≤ cand_last_used b).
Proof. unfold beats. case_decide; case_bool_decide; lia. Qed.

Lemma improve_spec t l a : match foldl improve a l with
  | None => a = None ∧ l = []
  | Some c => (a = Some c ∨ c ∈ l) ∧
      ∀ x, a = Some x ∨ x ∈ l → wins (t, c) (t, x)
  end.
Proof.
  assert (Hrefl : ∀ x, wins (t, x) (t, x)) by (intros x; right; split; [done|right; by split; cbn]).
  assert (Htr : ∀ x y z, wins (t, x) (t, y) → wins (t, y) (t, z) → wins (t, x) (t, z)).
  { unfold wins. cbn. intros x y z. destruct t; lia. }
  revert a. induction l as [|c l IH]; intros a; cbn.
  - destruct a as [x|]; [|done]. split; [by left|]. intros y [[= <-]|?%not_elem_of_nil]; done.
  - specialize (IH (improve a c)). assert (∃ b, improve a c = Some b ∧ (a = Some b ∨ b = c) ∧
      ∀ x, a = Some x ∨ x = c → wins (t, b) (t, x)) as (b & Hb & Hab & Hw).
    { destruct a as [x|]; cbn; [|exists c; split_and!; [done|by right|intros ? [?| ->]; [done|apply Hrefl]]].
      pose proof (beats_spec c x) as Hbs. destruct (beats c x).
      - exists c. split_and!; [done|by right|]. intros y [[= <-]| ->]; [|apply Hrefl]. unfold wins. cbn. destruct t; lia.
      - exists x. split_and!; [done|by left|]. intros y [[= <-]| ->]; [apply Hrefl|]. unfold wins. cbn. destruct t; lia. }
    rewrite Hb in IH |- *. destruct (foldl improve (Some b) l) as [r|]; [|by destruct IH].
    destruct IH as [Hr Hall]. split.
    + destruct Hr as [[= ->]|Hr]; [|right; by right]. destruct Hab as [->| ->]; [by left|right; by left].
    + intros x [Hx|[ ->|Hx]%elem_of_cons]; [| |apply Hall; by right];
        (eapply Htr; [apply Hall; by left|]; apply Hw; auto).
Qed.

Lemma foldl_add l a b : foldl add_candidate (a, b) l =
  (foldl improve a (snd <$> filter (λ c, c.1 = true) l), foldl improve b (snd <$> filter (λ c, c.1 = false) l)).
Proof.
  revert a b. induction l as [|[[] c] l IH]; intros a b; [done|..]; cbn [foldl add_candidate fst snd];
    rewrite IH, !filter_cons; cbn; done.
Qed.

Lemma choose_spec (l : list (bool * BestCandidate)) :
  match choose_tier (foldl add_candidate (None, None) l) with
  | None => l = []
  | Some c => ∃ b, (b, c) ∈ l ∧ ∀ x, x ∈ l → wins (b, c) x
  end.
Proof.
  rewrite foldl_add. pose proof (improve_spec true (snd <$> filter (λ c, c.1 = true) l) None) as Hs.
  pose proof (improve_spec false (snd <$> filter (λ c, c.1 = false) l) None) as Ho.
  assert (Hin : ∀ b x, x ∈ snd <$> filter (λ c : bool * BestCandidate, c.1 = b) l ↔ (b, x) ∈ l).
  { intros b x. rewrite list_elem_of_fmap. split.
    - intros ([b' x'] & -> & [Hb Hx]%list_elem_of_filter). cbn in Hb. by subst.
    - intros Hx. exists (b, x). split; [done|]. by apply list_elem_of_filter. }
  destruct (foldl improve None (snd <$> filter (λ c, c.1 = true) l)) as [sc|],
    (foldl improve None (snd <$> filter (λ c, c.1 = false) l)) as [oc|]; cbn [choose_tier].
  - destruct Hs as [[?|Hsc] Hsw], Ho as [[?|Hoc] How]; try done. rewrite Hin in Hsc, Hoc. case_decide.
    + exists false. split; [done|]. intros [[] x] Hx; rewrite <-Hin in Hx; [|apply How; by right].
      specialize (Hsw x (or_intror Hx)). unfold wins in *. cbn in *. lia.
    + exists true. split; [done|]. intros [[] x] Hx; rewrite <-Hin in Hx; [apply Hsw; by right|].
      specialize (How x (or_intror Hx)). unfold wins in *. cbn in *. destruct How as [?|[? _]]; [lia|].
      destruct (decide (matched x = matched sc)); [right; split; [done|by left]|lia].
  - destruct Hs as [[?|Hsc] Hsw], Ho as [_ Ho]; try done. rewrite Hin in Hsc. exists true. split; [done|].
    intros [[] x] Hx; rewrite <-Hin in Hx; [apply Hsw; by right|]. rewrite Ho in Hx. by apply not_elem_of_nil in Hx.
  - destruct Ho as [[?|Hoc] How], Hs as [_ Hs]; try done. rewrite Hin in Hoc. exists false. split; [done|].
    intros [[] x] Hx; rewrite <-Hin in Hx; [|apply How; by right]. rewrite Hs in Hx. by apply not_elem_of_nil in Hx.
  - destruct Hs as [_ Hs], Ho as [_ Ho]. destruct l as [|[[] c] l]; [done|..].
    + assert (c ∈ snd <$> filter (λ c, c.1 = true) ((true, c) :: l)) as Hc by (rewrite Hin; left).
      rewrite Hs in Hc. by apply not_elem_of_nil in Hc.
    + assert (c ∈ snd <$> filter (λ c, c.1 = false) ((false, c) :: l)) as Hc by (rewrite Hin; left).
      rewrite Ho in Hc. by apply not_elem_of_nil in Hc.
Qed.

(** ** Usable entries *)

(** How many tokens of an entry a request matches: with partial adoption any
    common prefix counts, without it the entry must be contained whole. *)
Definition match_len (partial : bool) (et ts : list Z) : option nat :=
  if partial then Some (common_prefix_len et ts)
  else if decide (take (length et) ts = et) then Some (length et) else None.

Definition eligible s sl ts min_len partial d slot n : Prop :=
  slots s !! d = Some slot ∧ sessionless slot = sl ∧ has_detached (entry slot) s = true ∧
  match_len partial (tokens (entry slot)) ts = Some n ∧ min_len ≤ n.

Definition candidate s key d slot n : bool * BestCandidate :=
  (same_session (bucket slot) key, mkCandidate d n (entry_last_used (entry slot) s)).

Lemma match_len_bound partial et ts n : match_len partial et ts = Some n →
  n ≤ length et ∧ n ≤ common_prefix_len et ts ∧ take n ts = take n et.
Proof.
  unfold match_len. pose proof (cpl_le et ts). destruct partial.
  - intros [= <-]. split_and!; [lia|lia|]. symmetry. apply cpl_take.
  - case_decide as Ht; [|done]. intros [= <-]. split_and!; [done| |by rewrite Ht, firstn_all].
    by rewrite (proj2 (cpl_full et ts) Ht).
Qed.

Lemma scan_candidate_spec s sl key ts min_len partial d slot : slots s !! d = Some slot →
  match scan_candidate s sl key ts min_len partial (d, slot) with
  | Some x => ∃ n, eligible s sl ts min_len partial d slot n ∧ x = candidate s key d slot n
  | None => ∀ n, ¬ eligible s sl ts min_len partial d slot n
  end.
Proof.
  intros Hd. unfold scan_candidate, eligible, match_len.
  case_bool_decide as Hsl; cbn [orb]; [by intros n (_ & ? & _)|].
  destruct (has_detached (entry slot) s) eqn:Hdet; cbn [negb]; [|by intros n (_ & _ & ? & _)].
  set (et := tokens (entry slot)). pose proof (cpl_le et ts) as [Hc1 Hc2].
  case_decide as Hmin. { intros n (_ & _ & _ & Hm & Hle). destruct partial; [|case_decide]; simplify_eq; lia. }
  destruct partial; cbn [negb andb].
  - case_decide as Hcm; [intros n (_ & _ & _ & [= <-] & ?); lia|]. exists (common_prefix_len et ts).
    split_and!; try done. lia.
  - case_bool_decide as Hlen; cbn [orb].
    { intros n (_ & _ & _ & Hm & _). case_decide as Ht; [|done]. apply (f_equal length) in Ht.
      rewrite length_take in Ht. lia. }
    case_bool_decide as Hne. { intros n (_ & _ & _ & Hm & _). by case_decide. }
    case_decide; [lia|]. exists (length et). rewrite decide_True by done. split_and!; (done || lia).
Qed.

Lemma scan_candidates s sl key ts min_len partial x :
  x ∈ omap (scan_candidate s sl key ts min_len partial) (iter (slots s)) ↔
  ∃ d slot n, eligible s sl ts min_len partial d slot n ∧ x = candidate s key d slot n.
Proof.
  rewrite list_elem_of_omap. split.
  - intros ([d slot] & Hin & Hx). rewrite iter_perm, elem_of_map_to_list in Hin.
    pose proof (scan_candidate_spec s sl key ts min_len partial d slot Hin) as Hs. rewrite Hx in Hs.
    destruct Hs as (n & ? & ?). eauto.
  - intros (d & slot & n & He & ->). pose proof He as (Hd & _). exists (d, slot).
    split; [by rewrite iter_perm, elem_of_map_to_list|].
    pose proof (scan_candidate_spec s sl key ts min_len partial d slot Hd) as Hs.
    destruct (scan_candidate _ _ _ _ _ _ _) as [x|]; [|by destruct (Hs n)].
    destruct Hs as (n' & He' & ->). f_equal. destruct He as (_ & _ & _ & Hn & _), He' as (_ & _ & _ & Hn' & _).
    by simplify_eq.
Qed.

Lemma trie_candidate_spec s sl key ts min_len partial dp slot r :
  slots s !! dl_digest r = Some slot → sessionless slot = sl → dl_token_len r = length (tokens (entry slot)) →
  common_prefix_len (tokens (entry slot)) ts = dp → min_len ≤ dp →
  match trie_candidate s key ts min_len dp partial r with
  | Some x => eligible s sl ts min_len partial (dl_digest r) slot dp ∧ x = candidate s key (dl_digest r) slot dp
  | None => ∀ n, ¬ eligible s sl ts min_len partial (dl_digest r) slot n
  end.
Proof.
  intros Hd Hsl Hlen Hcp Hmin. unfold trie_candidate, eligible, match_len. rewrite Hd, Hlen.
  set (et := tokens (entry slot)) in *. pose proof (cpl_le et ts) as [Hc1 Hc2].
  destruct (has_detached (entry slot) s) eqn:Hdet; cbn [negb]; [|by intros n (_ & _ & ? & _)].
  rewrite (Nat.min_l dp) by lia. destruct partial; cbn [negb andb].
  - rewrite andb_false_r, decide_False by lia. split; [split_and!; try done; by rewrite Hcp|done].
  - rewrite andb_true_r. destruct (decide (dp = length et)) as [Hfull|Hpart].
    + rewrite bool_decide_false by lia. rewrite bool_decide_false by tauto. rewrite decide_False by lia.
      rewrite decide_True by (apply cpl_full; lia). rewrite Hfull. split; [split_and!; (done || lia)|done].
    + assert (Hno : take (length et) ts ≠ et) by (intros Ht%cpl_full; lia).
      rewrite !(decide_False (P := take (length et) ts = et)) by done.
      case_bool_decide; [naive_solver|]. rewrite bool_decide_true by done. naive_solver.
Qed.

(** The candidates of the trie tier are the usable entries of greatest length. *)
Lemma trie_candidates s fl sl key ts min_len partial trie m : store_inv s fl →
  tries s !! sl = Some trie → find_longest_prefix trie ts min_len = Some m →
  (∀ x, x ∈ omap (trie_candidate s key ts min_len (depth m) partial) (dfs (subtree m)) ↔
     ∃ d slot, eligible s sl ts min_len partial d slot (depth m) ∧ x = candidate s key d slot (depth m)) ∧
  ∀ d slot n, eligible s sl ts min_len partial d slot n → n ≤ depth m.
Proof.
  intros Hi Htr Hf. destruct (inv_indexed _ _ Hi sl) as [Hr _]. rewrite Htr in Hr. cbn in Hr.
  pose proof (find_represents _ _ ts min_len Hr) as Hs. rewrite Hf in Hs.
  destruct Hs as (Hpos & Hmin & Hmax & _ & Hp). split.
  - intros x. rewrite (omap_perm _ _ _ Hp), list_elem_of_omap. split.
    + intros (r & Hin & Hx). apply list_elem_of_fmap in Hin as ([p r'] & -> & Hin). cbn in Hx.
      apply list_elem_of_filter in Hin as [Hdp Hin]. cbn in Hdp.
      destruct (bucket_digest _ _ _ _ Hin) as (slot & Hd & Hsl & <- & Hlen).
      pose proof (trie_candidate_spec s sl key ts min_len partial (depth m) slot r' Hd Hsl Hlen Hdp ltac:(lia)) as Hs.
      rewrite Hx in Hs. destruct Hs. eauto.
    + intros (d & slot & He & ->). pose proof He as (Hd & Hsl & _ & Hn & _).
      pose proof (bucket_elem sl (slots s) d slot Hd Hsl) as Hin.
      pose proof (Hmax _ _ Hin) as Hle. pose proof (match_len_bound _ _ _ _ Hn) as (_ & Hge & _).
      set (r := mkDL d (length (tokens (entry slot)))) in *. exists r. split.
      * apply list_elem_of_fmap. exists (tokens (entry slot), r). split; [done|].
        apply list_elem_of_filter. cbn. split; [lia|done].
      * pose proof (trie_candidate_spec s sl key ts min_len partial (depth m) slot r Hd Hsl eq_refl ltac:(lia) ltac:(lia)) as Hs.
        destruct (trie_candidate _ _ _ _ _ _ _) as [x|]; [by destruct Hs as [_ ->]|by destruct (Hs _ He)].
  - intros d slot n (Hd & Hsl & _ & Hn & _). pose proof (match_len_bound _ _ _ _ Hn) as (_ & Hge & _).
    pose proof (Hmax _ _ (bucket_elem sl (slots s) d slot Hd Hsl)). lia.
Qed.

(** ** The two tiers together *)

Lemma lookup_select_spec key ts s fl : store_inv s fl →
  let elig := eligible s (sessionless_from_key key) ts (min_prefix_tokens (config s)) (apc_enabled (config s)) in
  match lookup_select key ts s with
  | Some (Some c) => ∃ d slot n, elig d slot n ∧ c = (candidate s key d slot n).2 ∧
      ∀ d2 slot2 n2, elig d2 slot2 n2 → wins (candidate s key d slot n) (candidate s key d2 slot2 n2)
  | _ => ∀ d slot n, ¬ elig d slot n
  end.
Proof.
  cbv zeta. intros Hi. unfold lookup_select. set (sl := sessionless_from_key key).
  set (mn := min_prefix_tokens (config s)). set (pa := apc_enabled (config s)).
  destruct (tries s !! sl) as [trie|] eqn:Htr; cbn [mbind option_bind].
  - assert (Hscan : match select_best_by_scan s sl key ts mn pa with
      | Some c => ∃ d slot n, eligible s sl ts mn pa d slot n ∧ c = (candidate s key d slot n).2 ∧
          ∀ d2 slot2 n2, eligible s sl ts mn pa d2 slot2 n2 → wins (candidate s key d slot n) (candidate s key d2 slot2 n2)
      | None => ∀ d slot n, ¬ eligible s sl ts mn pa d slot n end).
    { unfold select_best_by_scan. pose proof (choose_spec (omap (scan_candidate s sl key ts mn pa) (iter (slots s)))) as Hc.
      destruct (choose_tier _) as [c|].
      - destruct Hc as (b & (d & slot & n & He & Hbc)%scan_candidates & Hw). exists d, slot, n.
        split_and!; [done|by rewrite <-Hbc|]. intros d2 slot2 n2 He2. rewrite <-Hbc. apply Hw, scan_candidates. eauto.
      - intros d slot n He. eapply (not_elem_of_nil (candidate s key d slot n)). rewrite <-Hc. apply scan_candidates. eauto. }
    destruct (select_best trie key ts mn pa s) as [c|] eqn:Hsb; [|exact Hscan]. clear Hscan.
    unfold select_best in Hsb. destruct (find_longest_prefix trie ts mn) as [m|] eqn:Hf; [|done].
    cbn [mbind option_bind] in Hsb. destruct (trie_candidates s fl sl key ts mn pa trie m Hi Htr Hf) as [Hl Hmax].
    pose proof (choose_spec (omap (trie_candidate s key ts mn (depth m) pa) (dfs (subtree m)))) as Hc. rewrite Hsb in Hc.
    destruct Hc as (b & (d & slot & He & Hbc)%Hl & Hw). exists d, slot, (depth m).
    split_and!; [done|by rewrite <-Hbc|]. intros d2 slot2 n2 He2. pose proof (Hmax _ _ _ He2).
    destruct (decide (n2 = depth m)) as [->|]; [rewrite <-Hbc; apply Hw, Hl; eauto|].
    left. cbn. lia.
  - intros d slot n (Hd & Hsl & _). destruct (inv_indexed _ _ Hi sl) as [(_ & _ & Hp) _]. rewrite Htr in Hp. cbn in Hp.
    apply Permutation_nil in Hp. pose proof (bucket_elem sl (slots s) d slot Hd Hsl) as Hin. rewrite Hp in Hin.
    by apply not_elem_of_nil in Hin.
Qed.

(** ** The whole lookup *)

(** Entries of the bucket that can be adopted at time [now]. *)
Definition live s (now : nat) (sl : SessionlessBucketKey) d slot : Prop :=
  slots s !! d = Some slot ∧ sessionless slot = sl ∧ has_detached (entry slot) s = true ∧
  (ttl (config s) = 0 ∨ now - entry_last_used (entry slot) s < ttl (config s)).

(** With block hashing the usable length is a whole number of blocks. *)
Definition rounded (c : PromptCacheConfig) (n : nat) : nat :=
  if apc_enabled c then n `div` apc_block_size (apc c) * apc_block_size (apc c) else n.

Lemma rounded_le c n m : n ≤ m → rounded c n ≤ rounded c m ∧ rounded c n ≤ n.
Proof.
  intros Hnm. unfold rounded. destruct (apc_enabled c); [|lia]. split.
  - apply Nat.mul_le_mono_r. by apply Nat.Div0.div_le_mono.
  - pose proof (Nat.Div0.mul_div_le n (apc_block_size (apc c))). lia.
Qed.

Lemma same_cell s s' slot : cells s' !! cell (entry slot) = cells s !! cell (entry slot) →
  has_detached (entry slot) s' = has_detached (entry slot) s ∧ entry_last_used (entry slot) s' = entry_last_used (entry slot) s.
Proof. unfold has_detached, entry_last_used, get_cell. by intros ->. Qed.

Lemma lookup_sweep_spec now s s1 fl : store_inv s fl → lookup_sweep now s = Some s1 →
  store_inv s1 fl ∧ shrunk s s1 ∧
  ∀ sl d slot, live s now sl d slot ↔
    slots s1 !! d = Some slot ∧ sessionless slot = sl ∧ has_detached (entry slot) s1 = true.
Proof.
  unfold lookup_sweep. intros Hi. destruct (is_enabled (config s)); [|done]. intros [= <-].
  destruct (sweep_drained_spec s fl Hi) as (Hi1 & Hs1 & Hl1).
  destruct (sweep_ttl_spec now _ fl Hi1) as (Hi2 & Hs2 & Hl2).
  pose proof (shrunk_trans _ _ _ Hs1 Hs2) as Hs. split_and!; [done..|]. intros sl d slot. unfold live.
  rewrite Hl2, Hl1, (shr_config _ _ Hs1). split.
  - intros (Hd & Hsl & Hdet & Httl).
    assert (Hk1 : slots (sweep_drained s).1 !! d = Some slot) by by apply Hl1.
    destruct (same_cell _ _ slot (shr_cells _ _ Hs1 d slot Hk1)) as [Hd1 Hu1]. rewrite Hu1. split_and!; [done..|].
    assert (Hk2 : slots (sweep_ttl now (sweep_drained s).1).1 !! d = Some slot)
      by (apply Hl2; by rewrite (shr_config _ _ Hs1), Hu1).
    by rewrite (proj1 (same_cell _ _ slot (shr_cells _ _ Hs d slot Hk2))).
  - intros (((Hd & Hdet) & Httl) & Hsl & _).
    assert (Hk1 : slots (sweep_drained s).1 !! d = Some slot) by by apply Hl1.
    by rewrite (proj2 (same_cell _ _ slot (shr_cells _ _ Hs1 d slot Hk1))) in Httl.
Qed.

Lemma touch_spec now e s fl : store_inv s fl → is_Some (cells s !! cell e) →
  store_inv (touch now e s) fl ∧ held (touch now e s) ≡ₚ held s.
Proof.
  intros Hi [c Hc]. unfold touch. rewrite (get_cell_Some _ _ _ Hc). split.
  - split; cbn; try apply Hi.
    + intros d slot Hd. rewrite lookup_insert_is_Some'. right. by apply (inv_cells _ _ Hi d).
    + intros a. rewrite lookup_insert_is_Some'. intros [<-|?]; apply (inv_fresh _ _ Hi); [by rewrite Hc|done].
    + intros a Ha. destruct (inv_floating _ _ Hi a Ha) as [Hs Hn]. split; [|done].
      rewrite lookup_insert_is_Some'. by right.
    + intros a c' [[<- <-]|[Ha Hac]]%lookup_insert_Some Hdet; [|by apply (inv_drained _ _ Hi a c')].
      by apply (inv_drained _ _ Hi _ c).
  - unfold held. cbn [cells pending_paged_releases set_cells].
    rewrite (omap_perm _ _ _ (list_replace (cells s) (cell e) _)), (omap_perm _ _ _ (list_take_out _ _ _ Hc)). done.
Qed.

Lemma detached_touch now e s a : detached (get_cell a (touch now e s)) = detached (get_cell a s).
Proof.
  unfold touch, get_cell. cbn. destruct (decide (a = cell e)) as [->|]; [by rewrite lookup_insert_eq|].
  by rewrite lookup_insert_ne.
Qed.

(** The third critical section, when the entry it was told of is still there. *)
Lemma lookup_commit_spec touched key ts d slot n s fl : store_inv s fl →
  eligible s (sessionless_from_key key) ts (min_prefix_tokens (config s)) (apc_enabled (config s)) d slot n →
  let '(s', r) := lookup_commit touched key ts (Some (candidate s key d slot n).2) s in
  store_inv s' fl ∧ held s' ≡ₚ held s ∧ slots s' = slots s ∧ config s' = config s ∧ snapshots s' = snapshots s ∧
  total_bytes s' = total_bytes s ∧ (∀ a, detached (get_cell a s') = detached (get_cell a s)) ∧
  r = if decide (rounded (config s) n < min_prefix_tokens (config s)) then None
      else Some (entry slot, rounded (config s) n).
Proof.
  intros Hi (Hd & Hsl & _ & Hn & Hmin). unfold lookup_commit. cbn [cand_digest matched candidate snd].
  change (slots (bump Lookups 1 s)) with (slots s). rewrite Hd. change (config (bump Lookups 1 s)) with (config s).
  assert (Hround : match (if apc_enabled (config s) then apc_block_hashes (entry slot) else None) with
    | Some hs => apc_consistent_prefix_len ts hs (apc_block_size (apc (config s))) (apc_hash (apc (config s))) (mm_digest key) n
    | None => n end = rounded (config s) n).
  { unfold rounded. pose proof (inv_hashed _ _ Hi d slot Hd) as Hh. unfold hashed in Hh.
    destruct (apc_enabled (config s)) eqn:Ha; [|done]. rewrite Hh by done. rewrite Hsl.
    change (sl_mm_digest (sessionless_from_key key)) with (mm_digest key).
    destruct (match_len_bound _ _ _ _ Hn) as (H1 & H2 & H3). pose proof (cpl_le (tokens (entry slot)) ts).
    apply clamp_complete; [|lia|lia|done].
    unfold apc_enabled, apc_is_enabled in Ha. apply andb_true_iff in Ha as [_ [_ Ha]%andb_true_iff].
    by apply bool_decide_eq_true in Ha. }
  rewrite Hround. case_decide; [by split_and!; [apply store_inv_bump|..]|].
  destruct (touch_spec touched (entry slot) (bump Hits 1 (bump Lookups 1 s)) fl) as [Hi' Hh'].
  - by apply store_inv_bump, store_inv_bump.
  - by apply (inv_cells _ _ Hi d).
  - split_and!; try done. intros a. apply (detached_touch touched (entry slot) (bump Hits 1 (bump Lookups 1 s)) a).
Qed.

(** What the store answers and keeps. *)
Lemma lookup_longest_prefix_spec now touched key ts s fl : store_inv s fl →
  let sl := sessionless_from_key key in
  let '(s', r) := lookup_longest_prefix now touched key ts s in
  store_inv s' fl ∧ held s' ≡ₚ held s ∧ config s' = config s ∧ slots s' ⊆ slots s ∧ snapshots s' = snapshots s ∧
  (∀ d slot, slots s' !! d = Some slot →
     detached (get_cell (cell (entry slot)) s') = detached (get_cell (cell (entry slot)) s)) ∧
  (is_enabled (config s) = true →
   match r with
   | Some (e, n) => ∃ d slot m, live s now sl d slot ∧ entry slot = e ∧ slots s' !! d = Some slot ∧
       match_len (apc_enabled (config s)) (tokens e) ts = Some m ∧ n = rounded (config s) m ∧
       min_prefix_tokens (config s) ≤ n ≤ length (tokens e) ∧ take n ts = take n (tokens e) ∧
       ∀ d2 slot2 m2, live s now sl d2 slot2 →
         match_len (apc_enabled (config s)) (tokens (entry slot2)) ts = Some m2 →
         wins (candidate s key d slot m) (candidate s key d2 slot2 m2)
   | None => ∀ d slot m, live s now sl d slot →
       match_len (apc_enabled (config s)) (tokens (entry slot)) ts = Some m →
       rounded (config s) m < min_prefix_tokens (config s)
   end).
Proof.
  cbv zeta. intros Hi. unfold lookup_longest_prefix. destruct (lookup_sweep now s) as [s1|] eqn:Hsw.
  2: { split_and!; [done..|]. intros He. unfold lookup_sweep in Hsw. by rewrite He in Hsw. }
  destruct (lookup_sweep_spec now s s1 fl Hi Hsw) as (Hi1 & Hs1 & Hlive).
  pose proof (lookup_select_spec key ts s1 fl Hi1) as Hsel. cbv zeta in Hsel. rewrite (shr_config _ _ Hs1) in Hsel.
  set (sl := sessionless_from_key key) in *. set (mn := min_prefix_tokens (config s)) in *. set (pa := apc_enabled (config s)) in *.
  assert (Hel : ∀ d slot n, eligible s1 sl ts mn pa d slot n ↔
    live s now sl d slot ∧ match_len pa (tokens (entry slot)) ts = Some n ∧ mn ≤ n).
  { intros d slot n. unfold eligible. rewrite Hlive. tauto. }
  assert (Hnone : (∀ d slot n, ¬ eligible s1 sl ts mn pa d slot n) →
    ∀ d slot m, live s now sl d slot → match_len pa (tokens (entry slot)) ts = Some m → rounded (config s) m < mn).
  { intros Hn d slot m Hl Hm. pose proof (rounded_le (config s) m m ltac:(lia)) as [_ Hr].
    destruct (decide (m < mn)); [lia|]. destruct (Hn d slot m). apply Hel. split_and!; (done || lia). }
  assert (Hsame : ∀ d slot, slots s1 !! d = Some slot →
    detached (get_cell (cell (entry slot)) s1) = detached (get_cell (cell (entry slot)) s)).
  { intros d slot Hd. unfold get_cell. by rewrite (shr_cells _ _ Hs1 d slot Hd). }
  destruct (lookup_select key ts s1) as [[c|]|].
  2,3: split_and!; [by apply store_inv_bump|apply Hs1|apply Hs1|apply Hs1|apply Hs1|exact Hsame|intros _; exact (Hnone Hsel)].
  destruct Hsel as (d & slot & n & He & -> & Hw). pose proof (shr_config _ _ Hs1) as Hcfg.
  pose proof (lookup_commit_spec touched key ts d slot n s1 fl Hi1) as Hc. rewrite Hcfg in Hc. specialize (Hc He).
  destruct (lookup_commit _ _ _ _ _) as [s2 r]. destruct Hc as (Hi2 & Hh2 & Hsl2 & Hc2 & Hsn2 & _ & Hdet2 & ->).
  split_and!; [done|by rewrite Hh2, (shr_held _ _ Hs1)|done|rewrite Hsl2; apply Hs1|rewrite Hsn2; apply Hs1| |].
  { intros d' slot' Hd'. rewrite Hsl2 in Hd'. rewrite Hdet2. by apply (Hsame d'). }
  intros _. pose proof He as (Hd1 & _). apply Hel in He as (Hl & Hm & Hmin).
  assert (Hcand : ∀ d' slot' m, live s now sl d' slot' → candidate s1 key d' slot' m = candidate s key d' slot' m).
  { intros d' slot' m (Hd' & _ & _)%Hlive. unfold candidate. by rewrite (proj2 (same_cell _ _ slot' (shr_cells _ _ Hs1 d' slot' Hd'))). }
  assert (Hwin : ∀ d2 slot2 m2, live s now sl d2 slot2 → match_len pa (tokens (entry slot2)) ts = Some m2 →
    wins (candidate s key d slot n) (candidate s key d2 slot2 m2)).
  { intros d2 slot2 m2 Hl2 Hm2. destruct (decide (m2 < mn)); [left; cbn; lia|].
    rewrite <-(Hcand d slot n Hl), <-(Hcand d2 slot2 m2 Hl2). apply Hw, Hel. split_and!; (done || lia). }
  destruct (match_len_bound _ _ _ _ Hm) as (Hb1 & _ & Hb3). case_decide as Hrn.
  - intros d2 slot2 m2 Hl2 Hm2. assert (m2 ≤ n) as Hle.
    { specialize (Hwin d2 slot2 m2 Hl2 Hm2). unfold wins in Hwin. cbn in Hwin. lia. }
    pose proof (rounded_le (config s) m2 n Hle). lia.
  - pose proof (rounded_le (config s) n n ltac:(lia)) as [_ Hr]. exists d, slot, n. split_and!; try (done || lia); [by rewrite Hsl2|].
    apply (f_equal (take (rounded (config s) n))) in Hb3. by rewrite !take_take, !Nat.min_l in Hb3 by lia.
Qed.

End lookup.
