(* ===== verification/PromptSystem.v ===== *)
(** * Runs of the prompt cache store

    Any interleaving of the store's critical sections, with the paged sets that
    went in and came out: the accounting, the limits, sessions, and what a lookup
    returns. *)

From S2P Require Import Prelude Bytes PromptKey PromptTrie PromptStore PromptStoreInv PromptLookup.

Section system.
Context {K : KvSets} {O : HashOrder} {H : Hashes}.
Implicit Types (s : Store) (d : Digest) (key : PromptCacheKey) (ts : list Z).

(** ** Operations *)

(** The critical sections of the store. The third one of a lookup is given any
    candidate at all, because the store may have changed since it was chosen. *)
Inductive store_op :=
  | StInsert (now : nat) (key : PromptCacheKey) (ts : list Z) (set : DetachedKvSet)
  | StInsertSnapshot (key : PromptCacheKey) (e : ModelSnapshotEntry)
  | StLookupSweep (now : nat)
  | StLookupCommit (now : nat) (key : PromptCacheKey) (ts : list Z) (best : option BestCandidate)
  | StLookupSnapshot (now touched : nat) (key : PromptCacheKey) (ts : list Z)
  | StTake (e : CacheEntry)
  | StEvictIfNeeded (now later : nat)
  | StEvictOne
  | StReleaseSession (sk : string)
  | StDrain.

Definition paged_of (set : DetachedKvSet) : option Paged :=
  match set with PagedSet p => Some p | DenseSet _ => None end.

(** The store after an operation, and the paged sets handed out. *)
Definition run_store (o : store_op) s : Store * list Paged :=
  match o with
  | StInsert now key ts set =>
    let '(s, e) := entry_new now ts set s in ((insert_entry key e s).1, [])
  | StInsertSnapshot key e => ((insert_snapshot key e s).1, [])
  | StLookupSweep now => (default s (lookup_sweep now s), [])
  | StLookupCommit now key ts best => ((lookup_commit now key ts best s).1, [])
  | StLookupSnapshot now touched key ts => ((lookup_snapshot_prefix now touched key ts s).1, [])
  | StTake e => let '(s, o) := take_detached e s in (s, option_list (o ≫= paged_of))
  | StEvictIfNeeded now later => ((evict_if_needed now later s).1, [])
  | StEvictOne => ((evict_one_lru s).1, [])
  | StReleaseSession sk => ((release_session sk s).1, [])
  | StDrain => drain_pending_paged_releases s
  end.

Definition brings (o : store_op) : list (list Z * DetachedKvSet) :=
  match o with StInsert _ _ ts set => [(ts, set)] | _ => [] end.

Definition paged_sets (l : list (list Z * DetachedKvSet)) : list Paged := omap (λ x, paged_of x.2) l.

(** Sets and snapshots are not empty, and a caller takes from entries it got. *)
Definition allowed (o : store_op) s : Prop :=
  match o with
  | StInsert _ _ _ set => 0 < set_nbytes set
  | StInsertSnapshot _ e => 0 < snap_size_bytes e
  | StTake e => is_Some (cells s !! cell e)
  | _ => True
  end.

(** ** The state between operations *)

Record good s : Prop := {
  good_inv : store_inv s [];
  good_sizes : positive_sizes (slots s);
  good_snapshots : positive_snapshots (snapshots s);
  good_caps : within_caps s;
  good_snapshot_caps : snapshots_within s;
}.

Lemma with_config_good c : good (with_config c).
Proof.
  split; [split| | |split|split]; cbn; try done; try (intros ?; by rewrite lookup_empty); try lia.
  - intros sl. rewrite lookup_empty. split; [apply empty_represents|by intros []].
  - by intros a ?%not_elem_of_nil.
  - rewrite map_size_empty. lia.
  - rewrite map_size_empty. lia.
Qed.

(** What holds of every entry's tokens and the set parked in it. *)
Definition parks (Φ : list Z → DetachedKvSet → Prop) s : Prop :=
  ∀ d slot set, slots s !! d = Some slot → detached (get_cell (cell (entry slot)) s) = Some set →
    Φ (tokens (entry slot)) set.

Lemma parks_mono Φ s s' :
  (∀ d slot, slots s' !! d = Some slot → slots s !! d = Some slot ∧
     (detached (get_cell (cell (entry slot)) s') = detached (get_cell (cell (entry slot)) s) ∨
      detached (get_cell (cell (entry slot)) s') = None)) → parks Φ s → parks Φ s'.
Proof.
  intros Hs HΦ d slot set Hd Hset. destruct (Hs d slot Hd) as [Hd' [He|He]]; [|congruence].
  apply (HΦ d); congruence.
Qed.

(** The step's promise: the invariant, no paged set lost or duplicated, and no set
    parked with other tokens than it came with. *)
Definition keeps s s' (ins : list (list Z * DetachedKvSet)) (outs : list Paged) : Prop :=
  good s' ∧ config s' = config s ∧ outs ++ held s' ≡ₚ paged_sets ins ++ held s ∧
  ∀ Φ, (∀ x, x ∈ ins → Φ x.1 x.2) → parks Φ s → parks Φ s'.

Lemma snapshot_bytes_within s s' fl fl' : store_inv s fl → store_inv s' fl' → config s' = config s →
  snapshots s' ⊆ snapshots s → snapshots_within s → snapshots_within s'.
Proof.
  intros Hi Hi' Hc Hs [H1 H2]. split; rewrite Hc.
  - etrans; [|exact H1]. by apply map_subseteq_size.
  - etrans; [|exact H2]. rewrite (inv_snapshot _ _ Hi), (inv_snapshot _ _ Hi').
    pose proof (map_to_list_submseteq _ _ Hs) as [k Hk]%submseteq_Permutation.
    unfold snapshot_ledger. rewrite Hk, fmap_app, sum_list_with_app. lia.
Qed.

Lemma shrunk_keeps s s' : good s → store_inv s' [] → shrunk s s' → keeps s s' [] [].
Proof.
  intros [Hi Hp Hps Hc Hsc] Hi' Hs. split_and!; [split|apply Hs|apply Hs|]; [done|..].
  - eapply positive_mono; [apply Hs|done].
  - by rewrite (shr_snapshots _ _ Hs).
  - by apply (shrunk_within s s' []).
  - eapply (snapshot_bytes_within s); [done..|apply Hs|by rewrite (shr_snapshots _ _ Hs)|done].
  - intros Φ _. apply parks_mono. intros d slot Hd. split; [by eapply lookup_weaken, Hs|left].
    unfold get_cell. by rewrite (shr_cells _ _ Hs d slot Hd).
Qed.

Lemma snap_keeps s s' : good s → store_inv s' [] → snap_only s s' → positive_snapshots (snapshots s') →
  snapshots_within s' → keeps s s' [] [].
Proof.
  intros [Hi Hp Hps Hc Hsc] Hi' Hs Hpos Hw. split_and!; [split|apply Hs|by rewrite (snap_only_held _ _ Hs)|]; try done.
  - by rewrite (so_slots _ _ Hs).
  - destruct Hs as [E1 E2 _ E4 _ _ _]. unfold within_caps. by rewrite E1, E2, E4.
  - intros Φ _. apply parks_mono. intros d slot. unfold get_cell. rewrite (so_slots _ _ Hs), (so_cells _ _ Hs). by auto.
Qed.

Lemma snap_shrunk_keeps s s' : good s → store_inv s' [] → snap_shrunk s s' → keeps s s' [] [].
Proof.
  intros Hg Hi' [Hs Hsub]. apply snap_keeps; try done.
  - eapply positive_snapshots_mono; [done|apply Hg].
  - eapply (snapshot_bytes_within s); [apply Hg|done|apply Hs|done|apply Hg].
Qed.

Lemma keeps_trans s1 s2 s3 : keeps s1 s2 [] [] → keeps s2 s3 [] [] → keeps s1 s3 [] [].
Proof.
  intros (_ & C1 & H1 & P1) (G2 & C2 & H2 & P2). split_and!; [done|congruence|cbn in *; by rewrite H2, H1|].
  intros Φ Hi HΦ. by apply P2, P1.
Qed.

Lemma keeps_refl s : good s → keeps s s [] [].
Proof. intros ?. by split_and!. Qed.

Lemma keeps_bump s s' k n : keeps s s' [] [] → keeps s (bump k n s') [] [].
Proof. intros ([] & ? & ? & ?). split_and!; [split|..]; try done. by apply store_inv_bump. Qed.

(** ** One lemma per operation *)

Lemma insert_parks Φ key e s : store_inv s [cell e] → parks Φ s →
  (∀ set, detached (get_cell (cell e) s) = Some set → Φ (tokens e) set) →
  parks Φ (insert_entry key e s).1.
Proof.
  intros Hi HΦ He.
  assert (Hstash : ∀ s', slots s' = slots s → cells s' = cells s → parks Φ (stash_paged_pins_for_release e s')).
  { intros s' Es Ec. rewrite stash_eq. apply (parks_mono Φ s); [|done]. intros d slot. cbn. rewrite Es. intros Hd.
    split; [done|left]. unfold get_cell. cbn. rewrite Ec. rewrite lookup_insert_ne; [done|].
    symmetry. by apply (proj2 (inv_floating _ _ Hi (cell e) ltac:(by left)) d). }
  unfold insert_entry. destruct (is_enabled (config s)); cbn [negb]; [|by apply Hstash].
  case_decide; [by apply Hstash|]. case_decide; [by apply Hstash|].
  pose proof (remove_entry_spec (digest key) s _ Hi) as Hr.
  pose proof (remove_entry_floating (digest key) s _ (cell e) Hi ltac:(by left)) as Hfl.
  destruct (remove_entry (digest key) s) as [s1 o]. destruct Hr as (Hi1 & Hs1 & Hsl1 & _). cbn [fst] in Hfl.
  set (s2 := match o with Some _ => bump EvictionsLru 1 s1 | None => s1 end).
  assert (Hi2 : store_inv s2 [cell e]) by (unfold s2; destruct o; [by apply store_inv_bump|done]).
  assert (Hs2 : slots s2 = slots s1 ∧ cells s2 = cells s1) by (unfold s2; by destruct o). destruct Hs2 as [Hsl2 Hc2].
  set (e' := if apc_enabled (config s2) then _ else e).
  assert (cell e' = cell e ∧ tokens e' = tokens e) as [Hce Hte] by (unfold e'; by destruct (apc_enabled _)).
  set (slot := mkSlot e' (bucket_from_key key) (sessionless_from_key key)).
  change (bump Inserts 1 (set_tries _ _)) with (bump Inserts 1 (add_slot (digest key) slot s2)).
  assert (Hi3 : store_inv (add_slot (digest key) slot s2) []).
  { apply add_slot_inv; cbn; rewrite ?Hce; [done|rewrite Hsl2, Hsl1; apply lookup_delete_eq|apply not_elem_of_nil|].
    intros Ha. cbn. unfold e'. by rewrite Ha. }
  destruct (enforce_caps_spec (bump Inserts 1 (add_slot (digest key) slot s2)) []) as (Hi4 & Hs4 & _);
    [by apply store_inv_bump|]. destruct (enforce_caps _) as [s4 f]. cbn [fst] in *.
  intros d sl set Hd Hset. unfold get_cell in Hset. rewrite (shr_cells _ _ Hs4 d sl Hd) in Hset. cbn in Hset. rewrite Hc2 in Hset.
  pose proof (lookup_weaken _ _ _ _ Hd (shr_slots _ _ Hs4)) as Hd3. cbn in Hd3. rewrite Hsl2 in Hd3.
  apply lookup_insert_Some in Hd3 as [[<- <-]|[_ Hd3]].
  - cbn in *. rewrite Hce in Hset. rewrite Hte. apply He. unfold get_cell. by rewrite <-Hfl.
  - apply (HΦ d); [by eapply lookup_weaken, (shr_slots _ _ Hs1)|]. rewrite <-Hset. unfold get_cell.
    by rewrite (shr_cells _ _ Hs1 d sl Hd3).
Qed.

Lemma insert_keeps now key ts set s : good s → 0 < set_nbytes set →
  keeps s (run_store (StInsert now key ts set) s).1 (brings (StInsert now key ts set)) [].
Proof.
  intros [Hi Hp Hps Hc Hsc] Hsz. cbn [run_store brings].
  pose proof (entry_new_spec now ts set s [] Hi) as He. destruct (entry_new now ts set s) as [s1 e] eqn:Hen.
  destruct He as (Hi1 & Hh1 & Hsl1 & Hc1 & Hse & Hte). cbn [fst].
  assert (snapshots s1 = snapshots s ∧ total_bytes s1 = total_bytes s ∧
    cells s1 = <[cell e := mkCell (Some set) now]> (cells s)) as (Hsn1 & Ht1 & Hcs1)
    by (unfold entry_new in Hen; by injection Hen as <- <-).
  destruct (insert_entry_spec key e s1 [] Hi1) as (Hi2 & Hh2 & Hc2 & Hsn2 & Hp2 & Hw2);
    [apply not_elem_of_nil|by rewrite Hsl1|by rewrite Hse|].
  split_and!; [split|congruence| |]; try done.
  - by rewrite Hsn2, Hsn1.
  - apply Hw2. unfold within_caps. by rewrite Hsl1, Hc1, Ht1.
  - eapply (snapshot_bytes_within s); [done..|congruence|by rewrite Hsn2, Hsn1|done].
  - cbn. rewrite Hh2, Hh1. by destruct set.
  - intros Φ Hin HΦ. apply insert_parks; [done| |].
    + apply (parks_mono Φ s); [|done]. intros d slot. rewrite Hsl1. intros Hd. split; [done|left].
      unfold get_cell. rewrite Hcs1, lookup_insert_ne; [done|].
      symmetry. apply (proj2 (inv_floating _ _ Hi1 (cell e) ltac:(by left)) d). by rewrite Hsl1.
    + unfold get_cell. rewrite Hcs1, lookup_insert_eq. cbn. intros ? [= <-]. rewrite Hte. apply (Hin (ts, set)). by left.
Qed.

Lemma insert_snapshot_keeps key e s : good s → 0 < snap_size_bytes e →
  keeps s (insert_snapshot key e s).1 [] [].
Proof.
  intros Hg Hsz. unfold insert_snapshot. destruct (is_enabled (config s)); cbn [negb]; [|by apply keeps_refl].
  case_decide; [by apply keeps_refl|]. case_decide; [by apply keeps_bump, keeps_refl|].
  pose proof (remove_snapshot_spec (digest key) s [] (good_inv _ Hg)) as Hr.
  destruct (remove_snapshot (digest key) s) as [s1 o]. destruct Hr as (Hi1 & [Hs1 Hsub1] & Hsl1 & _).
  set (s2 := match o with Some _ => bump SnapshotEvictionsLru 1 s1 | None => s1 end).
  assert (Hi2 : store_inv s2 []) by (unfold s2; destruct o; [by apply store_inv_bump|done]).
  assert (Hs2 : snap_only s s2) by (unfold s2; destruct o; [by apply snap_only_bump|done]).
  assert (Hsl2 : snapshots s2 = delete (digest key) (snapshots s)) by (unfold s2; by destruct o).
  set (slot := mkSnapSlot e (bucket_from_key key) (sessionless_from_key key)).
  set (s3 := bump SnapshotInserts 1 (set_snapshots <[digest key := slot]> (set_snapshot_bytes (λ t, t + snap_size_bytes e) s2))).
  assert (Hs3 : snap_only s s3) by (unfold s3; apply snap_only_bump; by destruct Hs2; split).
  assert (Hi3 : store_inv s3 []).
  { apply (snap_only_inv s); [apply Hg|done|]. cbn. rewrite (inv_snapshot _ _ Hi2). unfold snapshot_ledger.
    rewrite list_insert_new by (rewrite Hsl2; apply lookup_delete_eq). cbn. lia. }
  assert (Hp3 : positive_snapshots (snapshots s3)).
  { intros d' sl. cbn. rewrite Hsl2, lookup_insert_Some. intros [[_ <-]|[_ [_ Hd]%lookup_delete_Some]]; [done|].
    by apply (good_snapshots _ Hg d'). }
  destruct (enforce_snapshot_caps_spec s3 [] Hi3) as (Hi4 & [Hs4 Hsub4] & Hw4).
  destruct (enforce_snapshot_caps s3) as [s4 f]. cbn [fst] in *.
  apply snap_keeps; [done..| | |].
  - destruct Hs3, Hs4. split; congruence.
  - by eapply positive_snapshots_mono.
  - by apply Hw4.
Qed.

Lemma lookup_sweep_keeps now s : good s → keeps s (default s (lookup_sweep now s)) [] [].
Proof.
  intros Hg. destruct (lookup_sweep now s) as [s1|] eqn:Hl; cbn [default]; [|by apply keeps_refl].
  destruct (lookup_sweep_spec now s s1 [] (good_inv _ Hg) Hl) as (? & ? & _). by apply shrunk_keeps.
Qed.

Lemma touch_keeps now e s : good s → is_Some (cells s !! cell e) → keeps s (touch now e s) [] [].
Proof.
  intros [Hi Hp Hps Hc Hsc] He. destruct (touch_spec now e s [] Hi He) as [Hi' Hh'].
  split_and!; [by split|done|done|]. intros Φ _. apply parks_mono. intros d slot. rewrite detached_touch. by auto.
Qed.

Lemma lookup_commit_keeps now key ts best s : good s → keeps s (lookup_commit now key ts best s).1 [] [].
Proof.
  intros Hg. pose proof (keeps_bump s s Lookups 1 (keeps_refl s Hg)) as Hb. unfold lookup_commit.
  destruct best as [w|]; [|done]. destruct (slots _ !! cand_digest w) as [slot|] eqn:Hd; [|done].
  case_decide; [done|]. cbn [fst]. pose proof (keeps_bump _ _ Hits 1 Hb) as Hb2.
  eapply keeps_trans; [exact Hb2|]. apply touch_keeps; [apply Hb2|].
  by apply (inv_cells _ _ (good_inv _ Hg) (cand_digest w)).
Qed.

Lemma touched_snapshot_keeps now d slot s : good s → snapshots s !! d = Some slot →
  keeps s (set_snapshots <[d := touch_snapshot now slot]> s) [] [].
Proof.
  intros Hg Hd. assert (Hl : snapshot_ledger (<[d := touch_snapshot now slot]> (snapshots s)) = snapshot_ledger (snapshots s)).
  { unfold snapshot_ledger. by rewrite list_replace, (list_take_out _ _ _ Hd). }
  apply snap_keeps; [done| |by split| |].
  - apply (snap_only_inv s); [apply Hg|by split|]. cbn. rewrite Hl. apply (inv_snapshot _ _ (good_inv _ Hg)).
  - intros d' sl. cbn. rewrite lookup_insert_Some. intros [[_ <-]|[_ Hd']]; [|by apply (good_snapshots _ Hg d')].
    by apply (good_snapshots _ Hg d slot).
  - destruct (good_snapshot_caps _ Hg) as [H1 H2]. split; cbn; [|done]. by rewrite map_size_insert_Some.
Qed.

Lemma sweep_snapshot_keeps now s : good s → keeps s (sweep_snapshot_ttl now s).1 [] [].
Proof.
  intros Hg. destruct (sweep_snapshot_ttl_spec now s [] (good_inv _ Hg)) as (? & ? & _). by apply snap_shrunk_keeps.
Qed.

Lemma lookup_snapshot_keeps now touched key ts s : good s →
  keeps s (lookup_snapshot_prefix now touched key ts s).1 [] [].
Proof.
  intros Hg. unfold lookup_snapshot_prefix. destruct (is_enabled (config s)); cbn [negb]; [|by apply keeps_refl].
  pose proof (sweep_snapshot_keeps now s Hg) as Hk. destruct (sweep_snapshot_ttl now s) as [s1 f]. cbn [fst] in Hk.
  pose proof (keeps_bump _ _ SnapshotLookups 1 Hk) as Hb.
  destruct (foldl _ _ _) as [[[d len] used]|]; [|done].
  destruct (snapshots _ !! d) as [slot|] eqn:Hd; [|done]. cbn [fst].
  pose proof (keeps_bump _ _ SnapshotHits 1 Hb) as Hb2. eapply keeps_trans; [exact Hb2|].
  apply touched_snapshot_keeps; [apply Hb2|done].
Qed.

Lemma take_keeps e s : good s → is_Some (cells s !! cell e) →
  keeps s (run_store (StTake e) s).1 [] (run_store (StTake e) s).2.
Proof.
  intros [Hi Hp Hps Hc Hsc] [c He]. cbn [run_store]. unfold take_detached. rewrite (get_cell_Some _ _ _ He). cbn [fst snd].
  split_and!; [split| | |]; try done.
  - split; cbn; try apply Hi.
    + intros d slot Hd. rewrite lookup_insert_is_Some'. right. by apply (inv_cells _ _ Hi d).
    + intros a. rewrite lookup_insert_is_Some'. intros [<-|?]; apply (inv_fresh _ _ Hi); [by rewrite He|done].
    + by intros a ?%not_elem_of_nil.
    + intros a c' [[<- <-]|[Ha Hac]]%lookup_insert_Some Hdet; [done|]. by apply (inv_drained _ _ Hi a c').
  - unfold held. cbn [cells pending_paged_releases set_cells].
    rewrite (omap_perm _ _ _ (list_replace (cells s) (cell e) _)), (omap_perm _ _ _ (list_take_out _ _ _ He)).
    cbn. unfold cell_paged. by destruct (detached c) as [[]|].
  - intros Φ _. apply parks_mono. intros d slot Hd. split; [done|]. unfold get_cell. cbn.
    destruct (decide (cell (entry slot) = cell e)) as [->|]; [right; by rewrite lookup_insert_eq|].
    left. by rewrite lookup_insert_ne.
Qed.

Lemma evict_if_needed_keeps now later s : good s → keeps s (evict_if_needed now later s).1 [] [].
Proof.
  intros Hg. unfold evict_if_needed. destruct (is_enabled (config s)); cbn [negb]; [|by apply keeps_refl].
  destruct (sweep_drained_spec s [] (good_inv _ Hg)) as (Hi1 & Hs1 & _).
  pose proof (shrunk_keeps _ _ Hg Hi1 Hs1) as K1. destruct (sweep_drained s) as [s1 [b1 n1]]. cbn [fst] in *.
  destruct (sweep_ttl_spec now s1 [] Hi1) as (Hi2 & Hs2 & _).
  pose proof (shrunk_keeps _ _ (proj1 K1) Hi2 Hs2) as K2. destruct (sweep_ttl now s1) as [s2 [b2 n2]]. cbn [fst] in *.
  destruct (enforce_caps_spec s2 [] Hi2) as (Hi3 & Hs3 & _).
  pose proof (shrunk_keeps _ _ (proj1 K2) Hi3 Hs3) as K3. destruct (enforce_caps s2) as [s3 f3]. cbn [fst] in *.
  pose proof (sweep_snapshot_keeps later s3 (proj1 K3)) as K4.
  destruct (sweep_snapshot_ttl later s3) as [s4 [b4 n4]]. cbn [fst] in *.
  destruct (enforce_snapshot_caps_spec s4 [] (good_inv _ (proj1 K4))) as (Hi5 & Hs5 & _).
  pose proof (snap_shrunk_keeps _ _ (proj1 K4) Hi5 Hs5) as K5. destruct (enforce_snapshot_caps s4) as [s5 f5]. cbn [fst] in *.
  eauto using keeps_trans.
Qed.

Lemma evict_one_keeps s : good s → keeps s (evict_one_lru s).1 [] [].
Proof.
  intros Hg. unfold evict_one_lru. pose proof (evict_oldest_spec s [] (good_inv _ Hg)) as He.
  destruct (evict_oldest s) as [s1 f]. destruct He as (? & ? & _). by apply shrunk_keeps.
Qed.

Lemma drain_keeps s : good s → keeps s (drain_pending_paged_releases s).1 [] (drain_pending_paged_releases s).2.
Proof.
  intros [Hi Hp Hps Hc Hsc]. cbn. split_and!; [split| | |]; try done.
  - split; cbn; apply Hi.
  - unfold held. cbn. rewrite app_nil_r. solve_Permutation.
Qed.

(** ** Releasing a session *)

Lemma selected_length {V} (P : Digest * V → Prop) `{!∀ x, Decision (P x)} (m : gmap Digest V) :
  length (fst <$> filter P (iter m)) = size (filter P m).
Proof.
  rewrite length_fmap, map_filter_alt, <-length_map_to_list. apply Permutation_length.
  rewrite map_to_list_to_map; [by rewrite iter_perm|]. eapply sublist_NoDup; [|apply fmap_sublist, sublist_filter].
  apply NoDup_fst_map_to_list.
Qed.

Lemma selected_present {V} (P : Digest * V → Prop) `{!∀ x, Decision (P x)} (m : gmap Digest V) d :
  d ∈ fst <$> filter P (iter m) → is_Some (m !! d).
Proof. intros (x & Hx & _)%selected_spec. by exists x. Qed.

(** The keys the release path may not serve. *)
Definition shared_bucket (sk : string) : Prop := sk = "" ∨ sk = ANONYMOUS_SESSION_SENTINEL.

Definition of_session (sk : string) (ds : Digest * EntrySlot) : Prop := b_session_key (bucket ds.2) = Some sk.
Definition snapshot_of_session (sk : string) (ds : Digest * SnapshotSlot) : Prop :=
  b_session_key (snap_bucket ds.2) = Some sk.

#[global] Instance of_session_dec sk ds : Decision (of_session sk ds).
Proof. unfold of_session. apply _. Defined.
#[global] Instance snapshot_of_session_dec sk ds : Decision (snapshot_of_session sk ds).
Proof. unfold snapshot_of_session. apply _. Defined.

Lemma filter_not_sub {V} (P : Digest * V → Prop) `{!∀ x, Decision (P x)} (m m' : gmap Digest V) :
  (∀ d, m' !! d = if decide (d ∈ fst <$> filter P (iter m)) then None else m !! d) →
  m' = filter (λ x, ¬ P x) m.
Proof.
  intros Hlk. apply map_eq. intros d. rewrite Hlk. case_decide as Hd.
  - apply selected_spec in Hd as (x & Hx & HP). symmetry. apply map_lookup_filter_None. right. naive_solver.
  - symmetry. destruct (m !! d) as [x|] eqn:Hx; [|by apply map_lookup_filter_None; left].
    apply map_lookup_filter_Some. split; [done|]. intros HP. apply Hd, selected_spec. eauto.
Qed.

Lemma release_session_spec sk s : good s → ¬ shared_bucket sk →
  let '(s', r) := release_session sk s in
  keeps s s' [] [] ∧
  slots s' = filter (λ x, ¬ of_session sk x) (slots s) ∧
  snapshots s' = filter (λ x, ¬ snapshot_of_session sk x) (snapshots s) ∧
  (∀ d slot, slots s' !! d = Some slot → cells s' !! cell (entry slot) = cells s !! cell (entry slot)) ∧
  matched_entries r = size (filter (of_session sk) (slots s)) ∧
  matched_snapshots r = size (filter (snapshot_of_session sk) (snapshots s)) ∧
  released_bytes r + (total_bytes s' + snapshot_bytes s') = total_bytes s + snapshot_bytes s ∧
  status r = if decide (0 < matched_entries r + matched_snapshots r) then ReleasedNow else NothingMatched.
Proof.
  intros Hg Hsk. unfold release_session. rewrite decide_False by done.
  change (filter (λ ds, b_session_key (bucket ds.2) = Some sk) (iter (slots s))) with (filter (of_session sk) (iter (slots s))).
  change (filter (λ ds, b_session_key (snap_bucket ds.2) = Some sk) (iter (snapshots s)))
    with (filter (snapshot_of_session sk) (iter (snapshots s))).
  pose proof (remove_entries_spec (fst <$> filter (of_session sk) (iter (slots s))) s [] (good_inv _ Hg)) as Hr.
  destruct (remove_entries _ s) as [s1 [b1 n1]]. destruct Hr as (Hi1 & Hs1 & Hlk1 & Hb1 & Hn1).
  pose proof (shrunk_keeps _ _ Hg Hi1 Hs1) as K1.
  pose proof (remove_snapshots_spec (fst <$> filter (snapshot_of_session sk) (iter (snapshots s))) s1 [] Hi1) as Hr.
  destruct (remove_snapshots _ s1) as [s2 [b2 n2]]. destruct Hr as (Hi2 & [Hs2 Hsub2] & Hlk2 & Hb2 & Hn2).
  rewrite (shr_snapshots _ _ Hs1) in *.
  assert (K2 : keeps s1 s2 [] []).
  { apply snap_shrunk_keeps; [apply K1|done|]. split; [done|]. by rewrite (shr_snapshots _ _ Hs1). }
  rewrite Hn1, Hn2 by (apply selected_NoDup || apply selected_present).
  cbn [matched_entries matched_snapshots released_bytes status]. rewrite !selected_length. split_and!.
  - by eapply keeps_trans.
  - rewrite (so_slots _ _ Hs2). by apply filter_not_sub.
  - by apply filter_not_sub.
  - intros d slot Hd. rewrite (so_cells _ _ Hs2). apply (shr_cells _ _ Hs1 d). by rewrite <-(so_slots _ _ Hs2).
  - done.
  - done.
  - rewrite (so_total _ _ Hs2), (inv_total _ _ Hi1), (inv_snapshot _ _ Hi2), (inv_total _ _ (good_inv _ Hg)),
      (inv_snapshot _ _ (good_inv _ Hg)). lia.
  - done.
Qed.

Lemma release_session_keeps sk s : good s → keeps s (release_session sk s).1 [] [].
Proof.
  intros Hg. destruct (decide (shared_bucket sk)) as [Hsk|Hsk].
  - unfold release_session. rewrite decide_True by done. by apply keeps_refl.
  - pose proof (release_session_spec sk s Hg Hsk) as Hr. destruct (release_session sk s). apply Hr.
Qed.

(** ** Runs *)

Lemma run_store_keeps o s : good s → allowed o s → keeps s (run_store o s).1 (brings o) (run_store o s).2.
Proof.
  intros Hg Ho. destruct o; cbn in Ho.
  - by apply insert_keeps.
  - by apply insert_snapshot_keeps.
  - by apply lookup_sweep_keeps.
  - by apply lookup_commit_keeps.
  - by apply lookup_snapshot_keeps.
  - by apply take_keeps.
  - by apply evict_if_needed_keeps.
  - by apply evict_one_keeps.
  - by apply release_session_keeps.
  - by apply drain_keeps.
Qed.

(** The states a new store reaches, with the paged sets it was given and those it
    has handed out. *)
Inductive store_run (c : PromptCacheConfig) : Store → list Paged → list Paged → Prop :=
  | run_new : store_run c (with_config c) [] []
  | run_step s given taken o : store_run c s given taken → allowed o s →
      store_run c (run_store o s).1 (paged_sets (brings o) ++ given) ((run_store o s).2 ++ taken).

Lemma store_run_inv c s given taken : store_run c s given taken →
  good s ∧ config s = c ∧ taken ++ held s ≡ₚ given.
Proof.
  induction 1 as [|s given taken o _ (Hg & Hc & Hh) Ho]; [by split_and!; [apply with_config_good|..]|].
  destruct (run_store_keeps o s Hg Ho) as (Hg' & Hc' & Hh' & _). split_and!; [done|congruence|].
  rewrite <-Hh, (Permutation_app_comm (run_store o s).2), <-app_assoc, Hh'. solve_Permutation.
Qed.

(** The paged sets of the entries in the store. *)
Definition parked s : list Paged :=
  omap (λ ds, cell_paged (get_cell (cell (entry ds.2)) s)) (map_to_list (slots s)).

Lemma omap_filter_some {A B} (f : A → option B) (P : A → Prop) `{!∀ x, Decision (P x)} (l : list A) :
  (∀ x, ¬ P x → f x = None) → omap f (filter P l) = omap f l.
Proof.
  intros HP. induction l as [|x l IH]; [done|]. rewrite filter_cons. case_decide as Hx; cbn; [by rewrite IH|].
  by rewrite (HP x Hx).
Qed.

Lemma list_omap_fmap {A B C} (f : A → B) (g : B → option C) (l : list A) : omap g (f <$> l) = omap (λ x, g (f x)) l.
Proof. induction l as [|x l IH]; [done|]. cbn. by rewrite IH. Qed.

Lemma cell_paged_none c : ¬ detached c ≠ None → cell_paged c = None.
Proof. unfold cell_paged. destruct (detached c); [|done]. intros Hn. by destruct Hn. Qed.

Lemma held_parked s : store_inv s [] → held s ≡ₚ parked s ++ pending_paged_releases s.
Proof.
  intros Hi. unfold held. apply Permutation_app; [|done]. unfold parked.
  set (f := λ ds : Digest * EntrySlot, (cell (entry ds.2), get_cell (cell (entry ds.2)) s)).
  set (g := λ ac : N * Cell, cell_paged ac.2).
  transitivity (omap g (filter (λ ac : N * Cell, detached ac.2 ≠ None) (f <$> map_to_list (slots s)))).
  - transitivity (omap g (filter (λ ac : N * Cell, detached ac.2 ≠ None) (map_to_list (cells s)))).
    { by rewrite omap_filter_some by (intros []; apply cell_paged_none). }
    apply omap_perm, NoDup_Permutation; [apply NoDup_filter, NoDup_map_to_list|apply NoDup_filter|].
    + apply NoDup_fmap_2_strong; [|apply NoDup_map_to_list]. intros [d1 s1] [d2 s2] H1 H2 [= He _].
      apply elem_of_map_to_list in H1, H2. pose proof (inv_distinct _ _ Hi d1 d2 s1 s2 H1 H2 He). subst. congruence.
    + intros [a c]. rewrite !list_elem_of_filter, list_elem_of_fmap, elem_of_map_to_list. cbn [snd]. split.
      * intros [Hd Hc]. split; [done|].
        destruct (inv_drained _ _ Hi a c Hc Hd) as [?%not_elem_of_nil|(d & slot & Hsl & <-)]; [done|].
        exists (d, slot). unfold f. cbn. rewrite (get_cell_Some _ _ _ Hc). split; [done|]. by apply elem_of_map_to_list.
      * intros [Hd ([d slot] & [= -> ->] & Hsl)]. split; [done|]. apply elem_of_map_to_list in Hsl.
        destruct (inv_cells _ _ Hi d slot Hsl) as [c Hc]. cbn. by rewrite (get_cell_Some _ _ _ Hc).
  - by rewrite omap_filter_some, list_omap_fmap by (intros []; apply cell_paged_none).
Qed.

(** ** Properties of every run *)

(** C6. In every state an interleaving of the store's critical sections reaches,
    the byte totals are the sums over the entries and snapshots, the entry and
    byte limits of both pools hold, the tries index exactly the entries of their
    bucket, and every paged set the store was ever given is in exactly one
    place: parked in an entry of the store, queued for release, or handed out.
    The critical sections are those of [store_op], with sets and snapshots of a
    nonzero byte size, taken only from entries the store made ([allowed]): an
    eviction that frees nothing ends the loop
    ([zero_sized_entry_stops_eviction]). [clear] is not among them: it empties
    both pools and resets the totals, but queues none of the parked sets. *)
Theorem prompt_store_accounts c s given taken : store_run c s given taken →
  total_bytes s = ledger (slots s) ∧ snapshot_bytes s = snapshot_ledger (snapshots s) ∧
  size (slots s) ≤ max_entries c ∧ total_bytes s ≤ capacity_bytes c ∧
  size (snapshots s) ≤ snapshot_max_entries c ∧ snapshot_bytes s ≤ snapshot_capacity_bytes c ∧
  indexed (slots s) (tries s) ∧
  given ≡ₚ parked s ++ pending_paged_releases s ++ taken ∧
  let s' := clear s in
  slots s' = ∅ ∧ snapshots s' = ∅ ∧ total_bytes s' = ledger (slots s') ∧ indexed (slots s') (tries s') ∧
  given ≡ₚ parked s ++ (parked s' ++ pending_paged_releases s' ++ taken).
Proof.
  intros ([Hi _ _ [Hc1 Hc2] [Hc3 Hc4]] & Hc & Hh)%store_run_inv. rewrite Hc in *. cbv zeta.
  assert (given ≡ₚ parked s ++ pending_paged_releases s ++ taken) as Hall
    by (rewrite <-Hh, held_parked by done; solve_Permutation).
  split_and!; [apply Hi..|done|done|done|done|apply Hi|done|done|done| | |].
  - unfold ledger. cbn. by rewrite map_to_list_empty.
  - apply (good_inv _ (with_config_good c)).
  - unfold parked at 2. cbn [clear slots set_slots set_tries set_snapshots set_total set_snapshot_bytes pending_paged_releases].
    by rewrite map_to_list_empty.
Qed.

(** C5. What a lookup returns, in any reachable state of an enabled store. A hit
    is a live entry of the caller's bucket (same model, adapter, template and
    media, not expired, not drained) whose first [n] tokens are those of the
    request, with [n] at least the minimum and a whole number of blocks when block
    hashing is on; no live entry matches a longer prefix, and among equals the
    caller's session and then the later use win. A miss means that no live entry
    has a long enough match. The lookup only removes entries and loses no set. *)
Theorem lookup_finds_longest c s given taken now touched key ts : store_run c s given taken → is_enabled c = true →
  let sl := sessionless_from_key key in
  let '(s', r) := lookup_longest_prefix now touched key ts s in
  slots s' ⊆ slots s ∧ held s' ≡ₚ held s ∧
  match r with
  | Some (e, n) => ∃ d slot m, live s now sl d slot ∧ entry slot = e ∧
      match_len (apc_enabled c) (tokens e) ts = Some m ∧ n = rounded c m ∧
      min_prefix_tokens c ≤ n ≤ length (tokens e) ∧ take n ts = take n (tokens e) ∧
      ∀ d2 slot2 m2, live s now sl d2 slot2 → match_len (apc_enabled c) (tokens (entry slot2)) ts = Some m2 →
        wins (candidate s key d slot m) (candidate s key d2 slot2 m2)
  | None => ∀ d slot m, live s now sl d slot → match_len (apc_enabled c) (tokens (entry slot)) ts = Some m →
      rounded c m < min_prefix_tokens c
  end.
Proof.
  cbv zeta. intros (Hg & Hc & _)%store_run_inv Hen. subst c.
  pose proof (lookup_longest_prefix_spec now touched key ts s [] (good_inv _ Hg)) as Hl. cbv zeta in Hl.
  destruct (lookup_longest_prefix now touched key ts s) as [s' r]. destruct Hl as (_ & Hh & _ & Hsub & _ & _ & Hr).
  split_and!; [done|done|]. specialize (Hr Hen). destruct r as [[e n]|]; [|exact Hr].
  destruct Hr as (d & slot & m & ? & ? & _ & ?). by exists d, slot, m.
Qed.

(** Releasing a session removes exactly that session's entries and snapshots:
    every other one stays as it is, the counts and bytes reported are those
    removed, the paged sets of the removed entries are queued for release, and
    the shared bucket of anonymous callers is refused and left alone. *)
Theorem release_session_exact c s given taken sk : store_run c s given taken →
  let '(s', r) := release_session sk s in
  if decide (shared_bucket sk) then s' = s ∧ r = mkOutcome RefusedSharedBucket 0 0 0
  else
    slots s' = filter (λ x, ¬ of_session sk x) (slots s) ∧
    snapshots s' = filter (λ x, ¬ snapshot_of_session sk x) (snapshots s) ∧
    (∀ d slot, slots s' !! d = Some slot → get_cell (cell (entry slot)) s' = get_cell (cell (entry slot)) s) ∧
    parked s' ++ pending_paged_releases s' ≡ₚ parked s ++ pending_paged_releases s ∧
    matched_entries r = size (filter (of_session sk) (slots s)) ∧
    matched_snapshots r = size (filter (snapshot_of_session sk) (snapshots s)) ∧
    released_bytes r + (total_bytes s' + snapshot_bytes s') = total_bytes s + snapshot_bytes s ∧
    status r = if decide (0 < matched_entries r + matched_snapshots r) then ReleasedNow else NothingMatched.
Proof.
  intros (Hg & _ & _)%store_run_inv. case_decide as Hsk.
  - unfold release_session. by rewrite decide_True by done.
  - pose proof (release_session_spec sk s Hg Hsk) as Hr. destruct (release_session sk s) as [s' r].
    destruct Hr as ((Hg' & _ & Hh & _) & ? & ? & Hcells & ?). split_and!; try tauto.
    + intros d slot Hd. unfold get_cell. by rewrite (Hcells d slot Hd).
    + rewrite <-!held_parked by apply good_inv, Hg || apply Hg'. exact Hh.
Qed.

End system.

(** ** Witnesses *)

(** Sets that are their own size, and a map iterated in its own order. *)
Module PlainSets.

Definition plain_kv : KvSets :=
  {| Dense := nat; Paged := nat; Snapshot := nat; dense_nbytes n := n; paged_nbytes n := n; snapshot_nbytes n := n |}.

Definition plain_order : HashOrder := {| iter V m := map_to_list m; iter_perm V m := reflexivity _ |}.

(** The last 32 bytes. *)
Definition suffix_hash : Hashes :=
  {| blake3 x := first_32 (reverse x); sha256 := first_32;
     blake3_length x := length_first_32 (reverse x); sha256_length := length_first_32 |}.

End PlainSets.

#[local] Existing Instances PlainSets.plain_kv PlainSets.plain_order PlainSets.suffix_hash.

Definition small_config (apc : ApcConfig) : PromptCacheConfig := mkConfig true 100 2 0 2 apc 50 1 0.

Definition demo_key (session : string) (ts : list Z) : PromptCacheKey :=
  new_full "m" None "t" (Some session) (replicate 32 0%N) ts.

(** Two sessions insert, the second prompt extends the first; the first adds a
    snapshot; a third entry is one too many. *)
Definition demo_insert (now : nat) (session : string) (ts : list Z) (bytes : nat) : store_op :=
  StInsert now (demo_key session ts) ts (PagedSet bytes).
Definition demo_snapshot : store_op := StInsertSnapshot (demo_key "a" [1; 2]%Z) (mkSnapshot [1; 2]%Z 7 2 7).

Definition demo_ops : list store_op :=
  [demo_insert 1 "a" [1; 2; 3; 4]%Z 30; demo_insert 2 "b" [1; 2; 3; 5; 6]%Z 40; demo_snapshot].

Definition demo_config : PromptCacheConfig := small_config (mkApc true 2 None Blake3).
Definition demo_store : Store := foldl (λ s o, (run_store o s).1) (with_config demo_config) demo_ops.

Lemma demo_run : store_run demo_config demo_store [40; 30] [].
Proof.
  pose proof (run_new demo_config) as R.
  apply (run_step _ _ _ _ (demo_insert 1 "a" [1; 2; 3; 4]%Z 30)) in R; [|cbn; lia].
  apply (run_step _ _ _ _ (demo_insert 2 "b" [1; 2; 3; 5; 6]%Z 40)) in R; [|cbn; lia].
  apply (run_step _ _ _ _ demo_snapshot) in R; [|cbn; lia].
  exact R.
Qed.

(** The oldest entry is evicted and its paged set queued. *)
Lemma prompt_store_accounts_witness :
  let s := (run_store (demo_insert 3 "c" [9; 9]%Z 25) demo_store).1 in
  total_bytes s = 65 ∧ size (slots s) = 2 ∧ pending_paged_releases s = [30] ∧
  [25; 40; 30] ≡ₚ parked s ++ pending_paged_releases s ++ [].
Proof.
  cbv zeta. split_and!; [vm_compute; reflexivity..|].
  pose proof (run_step _ _ _ _ (demo_insert 3 "c" [9; 9]%Z 25) demo_run) as Hrun.
  apply prompt_store_accounts in Hrun; [|cbn; lia]. apply Hrun.
Defined.

(** The eviction of an entry of size zero ends the loop with the bytes over the limit. *)
Example zero_sized_entry_stops_eviction :
  let s := foldl (λ s o, (run_store o s).1) (with_config (mkConfig true 100 4 0 2 (mkApc true 2 None Blake3) 50 1 0))
    [demo_insert 1 "a" [1; 2]%Z 0; demo_insert 2 "b" [3; 4]%Z 60; demo_insert 3 "c" [5; 6]%Z 60] in
  capacity_bytes (config s) = 100 ∧ total_bytes s = 120.
Proof. vm_compute. split; reflexivity. Qed.

(** [clear] forgets the parked sets without queueing them. *)
Example clear_queues_nothing :
  length (parked demo_store) = 2 ∧ parked (clear demo_store) = [] ∧ pending_paged_releases (clear demo_store) = [].
Proof. vm_compute. split_and!; reflexivity. Qed.

Lemma lookup_finds_longest_witness :
  let '(s', r) := lookup_longest_prefix 3 3 (demo_key "a" [1; 2; 3; 5; 7]%Z) [1; 2; 3; 5; 7]%Z demo_store in
  (λ x, (tokens x.1, x.2)) <$> r = Some ([1; 2; 3; 5; 6]%Z, 4) ∧ held s' ≡ₚ held demo_store.
Proof.
  pose proof (lookup_finds_longest _ _ _ _ 3 3 (demo_key "a" [1; 2; 3; 5; 7]%Z) [1; 2; 3; 5; 7]%Z demo_run eq_refl) as Hl.
  cbv zeta in Hl. destruct (lookup_longest_prefix _ _ _ _ demo_store) as [s' r] eqn:He. split; [|apply Hl].
  replace r with (lookup_longest_prefix 3 3 (demo_key "a" [1; 2; 3; 5; 7]%Z) [1; 2; 3; 5; 7]%Z demo_store).2 by (by rewrite He).
  vm_compute. reflexivity.
Defined.

Lemma release_session_exact_witness :
  let '(s', r) := release_session "a" demo_store in
  r = mkOutcome ReleasedNow 1 1 37 ∧ slots s' = filter (λ x, ¬ of_session "a" x) (slots demo_store).
Proof.
  pose proof (release_session_exact _ _ _ _ "a" demo_run) as Hr.
  destruct (release_session "a" demo_store) as [s' r] eqn:He. split.
  - replace r with (release_session "a" demo_store).2 by (by rewrite He). vm_compute. reflexivity.
  - rewrite decide_False in Hr by (by intros [|]). apply Hr.
Defined.
