(* ===== verification/PromptServer.v ===== *)
(** * Prefix sharing: the scheduler between the cache pool and the prompt cache

    The part of [server/batch/scheduler.rs] that moves KV state between the
    [CachePool] and the [PromptCacheStore], for the paged decode backend: a
    finished sequence is donated, a request adopts the longest cached prefix,
    evicted sets go back to the pool, and cold entries are evicted when blocks run
    out. Snapshot models, the SSD tier and logging are left out. *)

From S2P Require Import Prelude Bytes Mlx PagedPool CachePool PagedDetach.
From S2P Require Import PromptKey PromptTrie PromptStore.

(** What the prompt cache may park besides paged sets, and the bytes of the
    per-layer handles of a paged set. *)
Class HostSets (KH : KvHandles) := {
  HostDense : Type;
  HostSnapshot : Type;
  host_dense_nbytes : HostDense → nat;
  host_snapshot_nbytes : HostSnapshot → nat;
  handle_nbytes : DetachedKVCache → nat;
  host_dense_empty : HostDense → bool;
  host_dense_len : HostDense → option nat;
}.

Section server.
Context {X : Mlx} {KH : KvHandles} {HS : HostSets KH} {O : HashOrder} {H : Hashes}.

(** ** Sizes *)

Definition turbo_sidecar_bytes (s : Sidecars) : nat :=
  let sum_map (m : gmap N MlxArray) := sum_list ((λ ba, array_nbytes ba.2) <$> map_to_list m) in
  sum_map (v_packed s) + sum_map (v_norms s) + sum_map (k_packed s) + sum_map (k_norms s) + sum_map (cold_keys s).

Definition paged_set_nbytes (d : DetachedPagedCacheSet) : nat :=
  sum_list (handle_nbytes <$> d_caches d)
  + default (seq_reserved_bytes (d_state d) (d_layout d)) (real_pool_bytes d)
  + turbo_sidecar_bytes (d_pages d).

#[global] Instance pool_kv : KvSets :=
  {| Dense := HostDense; Paged := DetachedPagedCacheSet; Snapshot := HostSnapshot;
     dense_nbytes := host_dense_nbytes; paged_nbytes := paged_set_nbytes; snapshot_nbytes := host_snapshot_nbytes |}.

(** [DetachedKvSet::is_empty] and [consistent_seq_len]. *)
Definition set_is_empty (set : DetachedKvSet) : bool :=
  match set with
  | PromptStore.DenseSet d => host_dense_empty d
  | PagedSet p => bool_decide (set_seq_len p = 0) || bool_decide (retained_block_count p = 0)
  end.

Definition consistent_seq_len (set : DetachedKvSet) : option nat :=
  match set with
  | PromptStore.DenseSet d => host_dense_len d
  | PagedSet p => if decide (0 < set_seq_len p) then Some (set_seq_len p) else None
  end.

(** ** The server's state *)

Record Server := mkServer { cache_pool : CachePool; prompt_cache : Store }.

Abbreviation W := (M Server cache_error).

Definition on_pool {A} (m : M CachePool cache_error A) : W A := λ w,
  let '(c, r) := m (cache_pool w) in (mkServer c (prompt_cache w), r).
Definition on_store {A} (f : Store → Store * A) : W A := λ w,
  let '(s, a) := f (prompt_cache w) in (mkServer (cache_pool w) s, Ok a).

(** [match m { Ok(a) => .., Err(e) => .. }]. *)
Definition attempt {A} (m : W A) : W (cache_error + A) := λ w,
  match m w with
  | (w', Ok a) => (w', Ok (inr a))
  | (w', Err e) => (w', Ok (inl e))
  | (w', Panic) => (w', Panic)
  end.

Definition prompt_cache_active (w : Server) : bool := is_enabled (config (prompt_cache w)).

(** ** Returning sets to the pool *)

Definition release_unused_detached (set : DetachedKvSet) : W unit :=
  match set with
  | PromptStore.DenseSet _ => mret tt
  | PagedSet p => ignore (on_pool (release_detached_paged p))
  end.

Fixpoint release_sets (ds : list DetachedPagedCacheSet) : W unit :=
  match ds with
  | [] => mret tt
  | d :: ds' => _ ← ignore (on_pool (release_detached_paged d)); release_sets ds'
  end.

Definition drain_store_paged_releases : W unit :=
  w ← get;
  if decide (pending_paged_releases (prompt_cache w) = []) then mret tt else
  ds ← on_store drain_pending_paged_releases;
  release_sets ds.

(** ** Adoption *)

Definition reusable_prefix_len (raw_matched state_len request_len alignment min_prefix : nat) : option nat :=
  if decide (request_len = 0) then None else
  let candidate := raw_matched `min` state_len `min` (request_len - 1) in
  let alignment := alignment `max` 1 in
  let floored := candidate `div` alignment * alignment in
  if decide (floored < min_prefix `max` 1) then None else Some floored.

(** Neither of the model's alignment and the pool's block size divides the other. *)
Definition incompatible (alignment block_size : nat) : bool :=
  bool_decide (1 < alignment) && bool_decide (block_size `mod` alignment ≠ 0)
  && bool_decide (alignment `mod` block_size ≠ 0).

Definition finish_prompt_cache_adopt (r : cache_error + N) (adopted_len : nat) : option (N * nat) :=
  match r with inr id => Some (id, adopted_len) | inl _ => None end.

(** The arm that clones a pool-backed set and leaves the entry in the store. *)
Definition adopt_clone (model : LanguageModel) (alignment matched min_prefix : nat) (d : DetachedPagedCacheSet) :
    W (option (N * nat)) :=
  let bs := block_size (d_layout d) `max` 1 in
  if incompatible alignment bs then mret None else
  let adoptable := (matched `min` set_seq_len d) `div` bs * bs in
  if decide (adoptable < min_prefix) then mret None else
  r ← attempt (on_pool (clone_detached_paged_prefix d adoptable));
  match r with
  | inl _ => mret None
  | inr clone =>
    id ← attempt (on_pool (adopt_paged model clone));
    mret (finish_prompt_cache_adopt id adoptable)
  end.

(** The paged arm of the path that consumes the entry's set. *)
Definition adopt_taken (model : LanguageModel) (alignment matched min_prefix : nat) (d : DetachedPagedCacheSet) :
    W (option (N * nat)) :=
  let len := set_seq_len d in
  let bs := block_size (d_layout d) `max` 1 in
  let decline := λ d, _ ← ignore (on_pool (release_detached_paged d)); mret None in
  if incompatible alignment bs then decline d else
  let adoptable := if decide (matched < len) then matched `div` bs * bs else len in
  if decide (adoptable < min_prefix) then decline d else
  if decide (adoptable < len) then
    r ← attempt (on_pool (trim_detached_paged_to d adoptable));
    match r with
    | inl _ => decline d
    | inr (d', Some _) => decline d'
    | inr (d', None) =>
      id ← attempt (on_pool (adopt_paged model d'));
      mret (finish_prompt_cache_adopt id adoptable)
    end
  else
    id ← attempt (on_pool (adopt_paged model d));
    mret (finish_prompt_cache_adopt id matched).

(** From the entry the lookup returned on, under the paged backend: a dense set
    cannot be installed. *)
Definition adopt_entry (model : LanguageModel) (alignment : nat) (ts : list Z) (require_whole_entry : bool)
    (e : CacheEntry) (raw : nat) : W (option (N * nat)) :=
  w ← get;
  let peek := PromptStore.detached (get_cell (cell e) (prompt_cache w)) in
  let min_tokens := min_prefix_tokens (config (prompt_cache w)) in
  match peek ≫= consistent_seq_len with
  | None => mret None
  | Some state_len =>
    match reusable_prefix_len raw state_len (length ts) alignment min_tokens with
    | None => mret None
    | Some matched =>
      if require_whole_entry && bool_decide (matched ≠ length (tokens e)) then mret None else
      let consume :=
        o ← on_store (take_detached e);
        match o with
        | None => mret None
        | Some set =>
          if set_is_empty set then _ ← release_unused_detached set; mret None else
          match set with
          | PromptStore.DenseSet _ => _ ← release_unused_detached set; mret None
          | PagedSet d => adopt_taken model alignment matched (min_tokens `max` 1) d
          end
        end in
      match peek with
      | Some (PagedSet d) =>
        if clone_eligible d then adopt_clone model alignment matched (min_tokens `max` 1) d else consume
      | _ => consume
      end
    end
  end.

Record PromptCacheRequestContext := mkCtx {
  ctx_model_id : string;
  ctx_lora_id : option string;
  ctx_template_sig : string;
  ctx_session_key : string;
  ctx_mm_digest : list N;
}.

Definition compose_prompt_cache_key (ctx : PromptCacheRequestContext) (ts : list Z) : PromptCacheKey :=
  new_full (ctx_model_id ctx) (ctx_lora_id ctx) (ctx_template_sig ctx) (Some (ctx_session_key ctx))
    (ctx_mm_digest ctx) ts.

Definition try_adopt_cached_prefix (now touched : nat) (model : LanguageModel) (prefill_alignment : nat)
    (ctx : PromptCacheRequestContext) (ts : list Z) (require_whole_entry : bool) : W (option (N * nat)) :=
  w ← get;
  if negb (prompt_cache_active w) then mret None else
  _ ← drain_store_paged_releases;
  let alignment := prefill_alignment `max` 1 in
  found ← on_store (lookup_longest_prefix now touched (compose_prompt_cache_key ctx ts) ts);
  match found with
  | None => mret None
  | Some (e, raw) => adopt_entry model alignment ts require_whole_entry e raw
  end.

(** ** Donation *)

(** The paged arm: [ctx] is what [prompt_cache_seq_ctx.remove] returned. *)
Definition donate_finished_sequence_cache (now : nat) (seq_id : N) (ctx : option PromptCacheRequestContext)
    (prompt_tokens generated_tokens : list Z) (healthy_finish : bool) : W unit :=
  if negb healthy_finish then mret tt else
  w ← get;
  if negb (prompt_cache_active w) then mret tt else
  match ctx with
  | None => mret tt
  | Some ctx =>
    let ts := prompt_tokens ++ generated_tokens in
    let b := default ModelOwned (backend <$> active (cache_pool w) !! seq_id) in
    if negb (bool_decide (b = PagedKvCache)) then mret tt else
    if decide (length ts < min_prefix_tokens (config (prompt_cache w))) then mret tt else
    o ← on_pool (detach_paged seq_id);
    match o with
    | None => mret tt
    | Some d =>
      let kv_set := PagedSet d in
      if set_is_empty kv_set then release_unused_detached kv_set else
      match consistent_seq_len kv_set with
      | None => release_unused_detached kv_set
      | Some covered =>
        if decide (length ts < covered) then release_unused_detached kv_set else
        let ts := take covered ts in
        e ← on_store (entry_new now ts kv_set);
        _ ← on_store (insert_entry (compose_prompt_cache_key ctx ts) e);
        drain_store_paged_releases
      end
    end
  end.

(** ** Reclaiming blocks *)

Definition has_room (need : nat) (c : CachePool) : bool :=
  match free_paged_block_budget c with None => true | Some f => bool_decide (need ≤ f) end.

(** The first loop of [reclaim_paged_blocks]: every round that does not end it
    removes an entry, so [fuel] may be their number. *)
Fixpoint evict_prefixes (need fuel : nat) : W unit :=
  match fuel with
  | 0 => mret tt
  | S fuel' =>
    w ← get;
    if has_room need (cache_pool w) then mret tt else
    freed ← on_store evict_one_lru;
    if decide (freed = 0) then mret tt else
    _ ← drain_store_paged_releases;
    evict_prefixes need fuel'
  end.

(** [saturating_mul] at the machine word, which no prompt reaches. *)
Definition estimate_prefill_blocks (paged_block_size : option nat) (num_layers prompt_len : nat) : nat :=
  match paged_block_size with
  | Some bs => if decide (0 < bs) then div_ceil prompt_len bs * num_layers else 0
  | None => 0
  end.

End server.
