(* ===== verification/PromptServerInv.v ===== *)
(** * Prefix sharing: references and prefixes

    The scheduler's operations between the cache pool and the prompt cache keep
    every block reference accounted for, and adopt only what the request asked
    for. *)

From S2P Require Import Prelude Bytes Mlx PagedPool PagedPoolInv PagedPoolData PagedPrefill PagedGather.
From S2P Require Import PagedContract CachePool PagedDetach CachePoolInv CacheSystem.
From S2P Require Import PromptKey PromptTrie PromptStore PromptStoreInv PromptLookup PromptSystem PromptServer.

Section sharing.
Context {X : Mlx} {KH : KvHandles} {HS : HostSets KH} {O : HashOrder} {H : Hashes}.
Implicit Types (w : Server) (s : Store) (c : CachePool) (ext : list DetachedPagedCacheSet).

Abbreviation W := (M Server cache_error).

(** ** What a run establishes *)

Definition wp {A} (m : W A) w (Q : Server → outcome cache_error A → Prop) : Prop :=
  let '(w', r) := m w in Q w' r.

Lemma wp_mono {A} (m : W A) w (Q Q' : Server → outcome cache_error A → Prop) :
  wp m w Q → (∀ w' r, Q w' r → Q' w' r) → wp m w Q'.
Proof. unfold wp. destruct (m w). auto. Qed.

Lemma wp_bind {A B} (m : W A) (f : A → W B) w (Q : Server → outcome cache_error B → Prop) :
  wp m w (λ w' r, match r with Ok a => wp (f a) w' Q | Err e => Q w' (Err e) | Panic => Q w' Panic end) →
  wp (m ≫= f) w Q.
Proof. unfold wp, mbind, M_bind. by destruct (m w) as [w' [a|e|]]. Qed.

Lemma wp_get {B} (f : Server → W B) w (Q : Server → outcome cache_error B → Prop) :
  wp (f w) w Q → wp (get ≫= f) w Q.
Proof. done. Qed.

Lemma wp_attempt {A B} (m : W A) (f : cache_error + A → W B) w (Q : Server → outcome cache_error B → Prop) :
  wp m w (λ w' r, match r with Ok a => wp (f (inr a)) w' Q | Err e => wp (f (inl e)) w' Q | Panic => Q w' Panic end) →
  wp (attempt m ≫= f) w Q.
Proof. unfold wp, attempt, mbind, M_bind. by destruct (m w) as [w' [a|e|]]. Qed.

Lemma wp_ignore {A} (m : W A) w (Q : Server → outcome cache_error unit → Prop) :
  wp m w (λ w' r, match r with Panic => Q w' Panic | _ => Q w' (Ok tt) end) → wp (ignore m) w Q.
Proof. unfold wp, ignore. by destruct (m w) as [w' [a|e|]]. Qed.

Lemma wp_pool {A} (m : M CachePool cache_error A) w (Q : Server → outcome cache_error A → Prop) :
  (let '(c, r) := m (cache_pool w) in Q (mkServer c (prompt_cache w)) r) → wp (on_pool m) w Q.
Proof. unfold wp, on_pool. by destruct (m (cache_pool w)). Qed.

Lemma wp_store {A} (f : Store → Store * A) w (Q : Server → outcome cache_error A → Prop) :
  (let '(s, a) := f (prompt_cache w) in Q (mkServer (cache_pool w) s) (Ok a)) → wp (on_store f) w Q.
Proof. unfold wp, on_store. by destruct (f (prompt_cache w)). Qed.

(** ** The invariant *)

(** A parked paged set covers exactly the tokens of its entry. *)
Definition covers (ts : list Z) (set : DetachedKvSet) : Prop :=
  match set with PagedSet d => set_seq_len d = length ts | PromptStore.DenseSet _ => True end.

(** [ext] are paged sets the scheduler has in hand. *)
Record server_inv w ext : Prop := {
  sv_store : good (prompt_cache w);
  sv_pool : cp_inv (cache_pool w) (ext ++ held (prompt_cache w));
  sv_covers : parks covers (prompt_cache w);
}.

Lemma server_perm w ext ext' : ext ≡ₚ ext' → server_inv w ext → server_inv w ext'.
Proof. intros Hp [Hg Hc Hk]. split; [done| |done]. eapply cp_inv_perm; [|done]. by rewrite Hp. Qed.

(** The store changes, the pool does not. *)
Lemma store_step w s' ext ins outs : server_inv w (paged_sets ins ++ ext) →
  keeps (prompt_cache w) s' ins outs → (∀ x, x ∈ ins → covers x.1 x.2) →
  server_inv (mkServer (cache_pool w) s') (outs ++ ext).
Proof.
  intros [Hg Hc Hk] (Hg' & _ & Hh & Hp) Hin. split; cbn; [done| |by apply Hp].
  eapply cp_inv_perm; [|exact Hc]. rewrite (Permutation_app_comm outs), <-!app_assoc, Hh. solve_Permutation.
Qed.

Lemma store_quiet w s' ext : server_inv w ext → keeps (prompt_cache w) s' [] [] →
  server_inv (mkServer (cache_pool w) s') ext.
Proof. intros Hw Hk. apply (store_step w s' ext [] []); [done|done|]. by intros x ?%not_elem_of_nil. Qed.

(** The pool changes, the store does not. *)
Lemma pool_step w c' ext ext' : server_inv w ext → cp_inv c' (ext' ++ held (prompt_cache w)) →
  server_inv (mkServer c' (prompt_cache w)) ext'.
Proof. intros [Hg Hc Hk] Hc'. by split. Qed.

(** ** Returning sets *)

Lemma release_set_spec d w ext : server_inv w (d :: ext) →
  wp (ignore (on_pool (release_detached_paged d))) w (λ w' r, r = Ok tt ∧ server_inv w' ext ∧
    prompt_cache w' = prompt_cache w ∧ same_but_pool (cache_pool w) (cache_pool w')).
Proof.
  intros Hw. apply wp_ignore, wp_pool.
  destruct (release_detached_inv d _ _ (sv_pool _ _ Hw)) as (c' & r & -> & Hc' & Hsame & _).
  split_and!; [done| |done|done]. by eapply pool_step.
Qed.

Lemma same_but_pool_trans c1 c2 c3 : same_but_pool c1 c2 → same_but_pool c2 c3 → same_but_pool c1 c3.
Proof. unfold same_but_pool. intros. destruct_and!. split_and!; congruence. Qed.

Lemma release_sets_spec ds : ∀ w ext, server_inv w (ds ++ ext) →
  wp (release_sets ds) w (λ w' r, r = Ok tt ∧ server_inv w' ext ∧
    prompt_cache w' = prompt_cache w ∧ same_but_pool (cache_pool w) (cache_pool w')).
Proof.
  induction ds as [|d ds IH]; intros w ext Hw; cbn [release_sets]; [by split_and!|].
  apply wp_bind. eapply wp_mono; [by apply release_set_spec|]. cbn. intros w1 r (-> & H1 & E1 & S1).
  eapply wp_mono; [by apply IH|]. cbn. intros w2 r (-> & H2 & E2 & S2).
  split_and!; [done|done|congruence|by eapply same_but_pool_trans].
Qed.

(** A drain only empties the queue. *)
Definition drained s s' : Prop := s' = (drain_pending_paged_releases s).1.

Lemma drain_spec w ext : server_inv w ext →
  wp drain_store_paged_releases w (λ w' r, r = Ok tt ∧ server_inv w' ext ∧
    drained (prompt_cache w) (prompt_cache w') ∧ same_but_pool (cache_pool w) (cache_pool w')).
Proof.
  intros Hw. unfold drain_store_paged_releases. apply wp_get. case_decide as He.
  - split_and!; [done|done| |done]. unfold drained. cbn. destruct (prompt_cache w). cbn in *. by rewrite He.
  - apply wp_bind, wp_store. cbn. pose proof (drain_keeps _ (sv_store _ _ Hw)) as Hk. cbn in Hk.
    eapply wp_mono; [apply (release_sets_spec _ _ ext)|].
    + apply (store_step w _ ext [] (pending_paged_releases (prompt_cache w))); [done|done|].
      by intros x ?%not_elem_of_nil.
    + cbn. intros w' r (-> & Hw' & E & S). by split_and!.
Qed.

(** ** Lengths *)

Lemma reusable_spec raw st req al mn m : reusable_prefix_len raw st req al mn = Some m →
  m ≤ raw ∧ m ≤ st ∧ m < req ∧ mn `max` 1 ≤ m ∧ m `mod` (al `max` 1) = 0.
Proof.
  unfold reusable_prefix_len. case_decide; [done|]. case_decide; [done|]. intros [= <-].
  set (k := raw `min` st `min` (req - 1)). set (a := al `max` 1).
  pose proof (Nat.Div0.mul_div_le k a). assert (k `div` a * a ≤ k) by lia.
  assert (mn `max` 1 ≤ k `div` a * a) by (unfold k, a; lia). split_and!; try lia. apply Nat.Div0.mod_mul.
Qed.

Lemma floor_aligned al bs m : 1 ≤ al → 1 ≤ bs → incompatible al bs = false → m `mod` al = 0 →
  (m `div` bs * bs) `mod` al = 0.
Proof.
  intros Hal Hbs Hinc Hm. unfold incompatible in Hinc.
  apply andb_false_iff in Hinc as [[H1|H1]%andb_false_iff|H1]; rewrite bool_decide_eq_false in H1.
  - assert (al = 1) as -> by lia. apply Nat.mod_1_r.
  - apply dec_stable in H1. rewrite <-Nat.Div0.mul_mod_idemp_r, H1, Nat.mul_0_r. apply Nat.Div0.mod_0_l.
  - apply dec_stable in H1. apply Nat.Div0.div_exact in Hm, H1.
    assert (m `div` bs * bs = m) as ->; [|rewrite Hm, Nat.mul_comm; apply Nat.Div0.mod_mul].
    rewrite Hm, H1. rewrite <-Nat.mul_assoc, (Nat.mul_comm bs), Nat.div_mul by lia. done.
Qed.

(** [st] holds the first [n] tokens of the set's table: the table itself when they
    are all of it, or whole blocks of every layer. *)
Definition shares d (n : nat) (st : PagedSequenceState) : Prop :=
  (st = d_state d ∧ n = set_seq_len d) ∨
  (n `mod` block_size (d_layout d) = 0 ∧ n ≤ set_seq_len d ∧
   ∀ l ls, layers (d_state d) !! l = Some ls →
     layers st !! l = Some (mkLayerState (take (n `div` block_size (d_layout d)) (block_ids ls)) n (logical_start ls))).

Lemma clone_shares d n keep st : no_sliding_window d = true → 0 < block_size (d_layout d) →
  n = keep * block_size (d_layout d) → n ≤ set_seq_len d →
  clone_state (d_layout d) (layers (d_state d)) keep n = Some st → shares d n st.
Proof.
  intros Hsw Hbs -> Hle Hcs. right. rewrite Nat.Div0.mod_mul, Nat.div_mul by lia. split_and!; [done..|].
  intros l ls Hl. destruct (clone_state_layer _ _ _ _ _ l ls Hcs Hl) as [-> _]. do 2 f_equal.
  unfold no_sliding_window in Hsw. rewrite forallb_forall in Hsw.
  specialize (Hsw ls (proj1 (list_elem_of_In _ _) (list_elem_of_lookup_2 _ _ _ Hl))). by apply bool_decide_eq_true in Hsw.
Qed.

Lemma trim_shares d d' n keep : 0 < block_size (d_layout d) → n = keep * block_size (d_layout d) → n ≤ set_seq_len d →
  layers (d_state d') = trimmed_layer keep n <$> layers (d_state d) → shares d n (d_state d').
Proof.
  intros Hbs -> Hle Htr. right. rewrite Nat.Div0.mod_mul, Nat.div_mul by lia. split_and!; [done..|].
  intros l ls Hl. by rewrite Htr, list_lookup_fmap, Hl.
Qed.

(** ** Adopting *)

Lemma adopt_spec model d w ext : server_inv w (d :: ext) → ids_left (cache_pool w) →
  wp (on_pool (adopt_paged model d)) w (λ w' r, server_inv w' ext ∧ prompt_cache w' = prompt_cache w ∧
    match r with
    | Ok id => id = next_id (cache_pool w) ∧ active (cache_pool w) !! id = None ∧
        ∃ cs, active (cache_pool w') = <[id := adopted d cs]> (active (cache_pool w))
    | Err _ => active (cache_pool w') = active (cache_pool w)
    | Panic => False
    end).
Proof.
  intros Hw Hid. apply wp_pool. unfold adopt_paged, on_err.
  destruct (adopt_preserving_inv model d _ _ (sv_pool _ _ Hw) Hid) as (c' & r & -> & Hr).
  destruct r as [id|e|]; [| |done].
  - destruct Hr as (Hc' & -> & Hn & _ & Hcs & _). split_and!; try done. by eapply pool_step.
  - destruct Hr as [-> _]. unfold mbind, M_bind.
    destruct (release_detached_inv d _ _ (sv_pool _ _ Hw)) as (c' & r & -> & Hc' & Hsame & _). cbn.
    split_and!; [by eapply pool_step|done|apply Hsame].
Qed.

(** The set's layers disagree: one lacks blocks for tokens the first layer holds,
    or there are more of them than the layout has. *)
Definition uneven (d : DetachedPagedCacheSet) : Prop :=
  num_layers (d_layout d) < length (layers (d_state d)) ∨
  ∃ ls, ls ∈ layers (d_state d) ∧ length (block_ids ls) * block_size (d_layout d) < set_seq_len d.

Lemma ragged_uneven d n : ragged d n → n ≤ set_seq_len d → uneven d.
Proof. intros (ls & Hls & [?|?]) Hn; [by left|right]. exists ls. split; [done|lia]. Qed.

(** What an adoption attempt leaves behind: with [Some (id, n)], a new sequence
    whose table is the first [n] tokens of the set [d]. *)
Definition adoption w d (al mn bound : nat) w' (r : outcome cache_error (option (N * nat))) : Prop :=
  server_inv w' [] ∧
  match r with
  | Ok None => active (cache_pool w') = active (cache_pool w)
  | Ok (Some (id, n)) => id = next_id (cache_pool w) ∧ active (cache_pool w) !! id = None ∧
      (∃ sq st, active (cache_pool w') = <[id := sq]> (active (cache_pool w)) ∧ paged sq = Some st ∧
        backend sq = PagedKvCache ∧ shares d n st) ∧
      mn ≤ n ≤ bound ∧ n `mod` al = 0
  | Err _ => False
  | Panic => clone_eligible d = true ∧ uneven d
  end.

Lemma finish_spec model d d0 w al mn bound n w0 : server_inv w [d] → ids_left (cache_pool w) →
  d_backend d = PagedKvCache →
  active (cache_pool w) = active (cache_pool w0) → next_id (cache_pool w) = next_id (cache_pool w0) →
  shares d0 n (d_state d) → mn ≤ n ≤ bound → n `mod` al = 0 →
  wp (id ← attempt (on_pool (adopt_paged model d)); mret (finish_prompt_cache_adopt id n)) w (adoption w0 d0 al mn bound).
Proof.
  intros Hw Hid Hb Ha Hn Hsh Hle Hmod. apply wp_attempt. eapply wp_mono; [by apply adopt_spec|].
  intros w' [id|e|] (Hw' & _ & Hr); [|split; [done|cbn; congruence]|done].
  destruct Hr as (-> & Hnone & cs & Hact). unfold wp. cbn. split; [done|].
  rewrite Ha, Hn in *. split_and!; try done; try lia. by exists (adopted d cs), (d_state d).
Qed.

Lemma decline_spec d0 d w w0 al mn bound : server_inv w [d] →
  active (cache_pool w) = active (cache_pool w0) →
  wp (_ ← ignore (on_pool (release_detached_paged d)); mret None) w (adoption w0 d0 al mn bound).
Proof.
  intros Hw Ha. apply wp_bind. eapply wp_mono; [by apply release_set_spec|].
  intros w' r (-> & Hw' & _ & Hsame). unfold wp. cbn. split; [done|]. destruct Hsame as (_ & -> & _). done.
Qed.

Lemma held_in w ext d : d ∈ held (prompt_cache w) → server_inv w ext → cp_inv (cache_pool w) (ext ++ held (prompt_cache w)) ∧
  d ∈ ext ++ held (prompt_cache w) ∧ set_ok d.
Proof.
  intros Hd Hw. pose proof (sv_pool _ _ Hw) as Hc. assert (d ∈ ext ++ held (prompt_cache w)) by set_solver.
  split_and!; [done..|]. by apply (ci_ext _ _ Hc).
Qed.

Lemma adopt_clone_spec model al matched mn d w : server_inv w [] → ids_left (cache_pool w) → 1 ≤ al → 1 ≤ mn →
  d ∈ held (prompt_cache w) → clone_eligible d = true → matched ≤ set_seq_len d → matched `mod` al = 0 →
  room (cache_pool w) (held (prompt_cache w)) (2 * length (ids (d_state d))) →
  wp (adopt_clone model al matched mn d) w (adoption w d al mn matched).
Proof.
  intros Hw Hid Hal Hmn Hin Hce Hle Hmod Hroom. unfold adopt_clone.
  destruct (held_in w [] d Hin Hw) as (Hc & Hin' & Hok). cbn in Hc.
  pose proof (so_bs _ Hok) as Hbs. rewrite (Nat.max_l (block_size _) 1) by lia.
  destruct (incompatible al (block_size (d_layout d))) eqn:Hinc; [by split|].
  rewrite (Nat.min_l matched) by done. set (n := matched `div` _ * _). case_decide as Hn; [by split|].
  assert (n ≤ matched) as Hnm by (unfold n; pose proof (Nat.Div0.mul_div_le matched (block_size (d_layout d))); lia).
  apply wp_attempt, wp_pool. destruct (clone_inv d n _ _ Hc Hin' Hroom) as (c' & r & -> & Hr).
  destruct r as [d'|e|].
  - destruct Hr as (Hc' & Hsame & (keep & _ & Hkeep & Hcs) & _).
    assert (Hsw : no_sliding_window d = true).
    { unfold clone_eligible in Hce. rewrite !andb_true_iff in Hce. tauto. }
    destruct Hsame as (E1 & E2 & _).
    apply finish_spec; cbn; try done.
    + by eapply pool_step.
    + unfold ids_left. by rewrite E1.
    + by apply (so_backend d'), (ci_ext _ _ Hc'); left.
    + eapply clone_shares; [done|done|exact Hkeep|lia|done].
    + lia.
    + apply floor_aligned; (done || lia).
  - subst c'. destruct w. by split.
  - destruct Hr as [-> Hr]. destruct w. split; [done|]. split; [done|]. apply (ragged_uneven d n); [exact Hr|lia].
Qed.

Lemma adopt_taken_spec model al matched mn d w : server_inv w [d] → ids_left (cache_pool w) → 1 ≤ al → 1 ≤ mn →
  matched ≤ set_seq_len d → matched `mod` al = 0 →
  wp (adopt_taken model al matched mn d) w (adoption w d al mn matched).
Proof.
  intros Hw Hid Hal Hmn Hle Hmod. unfold adopt_taken.
  pose proof (ci_ext _ _ (sv_pool _ _ Hw) d ltac:(set_solver)) as Hok.
  pose proof (so_bs _ Hok) as Hbs. rewrite (Nat.max_l (block_size _) 1) by lia.
  destruct (incompatible al (block_size (d_layout d))) eqn:Hinc; [by apply decline_spec|].
  set (n := if decide (matched < set_seq_len d) then _ else _).
  assert (n ≤ matched ∧ n `mod` al = 0 ∧ (n < set_seq_len d ∨ (n = set_seq_len d ∧ n = matched))) as (Hnm & Hnal & Hcase).
  { unfold n. case_decide; [|split_and!; try lia; replace (set_seq_len d) with matched by lia; done].
    pose proof (Nat.Div0.mul_div_le matched (block_size (d_layout d))).
    split_and!; [lia|apply floor_aligned; (done || lia)|lia]. }
  case_decide as Hn; [by apply decline_spec|]. case_decide as Hlt.
  - apply wp_attempt, wp_pool. destruct (trim_detached_inv d n _ _ (sv_pool _ _ Hw)) as (c' & r & -> & Hr).
    destruct r as [[d' e]|e|]; [| |done].
    + destruct Hr as (-> & Hc' & Hsame & Hd'). destruct Hsame as (E1 & E2 & _).
      apply finish_spec; cbn; try done.
      * by eapply pool_step.
      * unfold ids_left. by rewrite E1.
      * by apply (so_backend d'), (ci_ext _ _ Hc'); left.
      * destruct Hd' as [[_ ?]|(keep & Hkeep & Htr)]; [lia|]. by eapply trim_shares; [| |lia|].
      * lia.
    + subst c'. apply decline_spec; [by destruct w|done].
  - assert (n = set_seq_len d ∧ n = matched) as [Hn1 Hn2] by lia. rewrite <-Hn2.
    apply finish_spec; try done; [by apply (so_backend d)| |lia]. by left.
Qed.

(** The set a caller that looked up [e] sees. *)
Definition parked_in s (e : CacheEntry) : option DetachedKvSet := PromptStore.detached (get_cell (cell e) s).

Lemma parked_held s e d : is_Some (cells s !! cell e) → parked_in s e = Some (PagedSet d) → d ∈ held s.
Proof.
  intros [k Hk] Hp. unfold parked_in in Hp. rewrite (get_cell_Some _ _ _ Hk) in Hp. unfold held.
  rewrite elem_of_app, list_elem_of_omap. left. exists (cell e, k). split; [by apply elem_of_map_to_list|].
  unfold cell_paged. cbn. by rewrite Hp.
Qed.

(** References the clone of an entry's set would add. *)
Definition clone_room w (e : CacheEntry) : Prop :=
  ∀ d, parked_in (prompt_cache w) e = Some (PagedSet d) →
    room (cache_pool w) (held (prompt_cache w)) (2 * length (ids (d_state d))).

(** The outcome of adopting from an entry: nothing, or the first [n] tokens of the
    paged set parked in it. *)
Definition entry_adoption w e (al raw req : nat) w' (r : outcome cache_error (option (N * nat))) : Prop :=
  server_inv w' [] ∧
  match r with
  | Ok None => active (cache_pool w') = active (cache_pool w)
  | Ok (Some (id, n)) => id = next_id (cache_pool w) ∧ active (cache_pool w) !! id = None ∧
      (∃ d sq st, parked_in (prompt_cache w) e = Some (PagedSet d) ∧
        active (cache_pool w') = <[id := sq]> (active (cache_pool w)) ∧ paged sq = Some st ∧
        backend sq = PagedKvCache ∧ shares d n st) ∧
      min_prefix_tokens (config (prompt_cache w)) `max` 1 ≤ n ≤ raw ∧ n < req ∧ n `mod` al = 0
  | Err _ => False
  | Panic => ∃ d, parked_in (prompt_cache w) e = Some (PagedSet d) ∧ clone_eligible d = true ∧ uneven d
  end.

Lemma adoption_entry w e d al raw req w' r m : adoption w d al (min_prefix_tokens (config (prompt_cache w)) `max` 1) m w' r →
  parked_in (prompt_cache w) e = Some (PagedSet d) → m ≤ raw → m < req → entry_adoption w e al raw req w' r.
Proof.
  intros [Hw' Hr] Hp Hm Hreq. split; [done|]. destruct r as [[[id n]|]|err|]; [|done..|].
  - destruct Hr as (-> & Hn & (sq & st & ?) & ? & ?). split_and!; try done; try lia. by exists d, sq, st.
  - by exists d.
Qed.

Lemma take_step w e : server_inv w [] → is_Some (cells (prompt_cache w) !! cell e) →
  let s' := (take_detached e (prompt_cache w)).1 in
  (take_detached e (prompt_cache w)).2 = parked_in (prompt_cache w) e ∧
  server_inv (mkServer (cache_pool w) s') (option_list (parked_in (prompt_cache w) e ≫= paged_of)) ∧
  config s' = config (prompt_cache w).
Proof.
  intros Hw He. split_and!; [done| |done].
  pose proof (take_keeps e _ (sv_store _ _ Hw) He) as Hk. cbn in Hk.
  pose proof (store_step w _ [] [] _ Hw Hk) as Hs. rewrite app_nil_r in Hs. apply Hs. by intros x ?%not_elem_of_nil.
Qed.

Lemma adopt_entry_spec model al ts whole e raw w : server_inv w [] → ids_left (cache_pool w) → 1 ≤ al →
  is_Some (cells (prompt_cache w) !! cell e) → clone_room w e →
  wp (adopt_entry model al ts whole e raw) w (entry_adoption w e al raw (length ts)).
Proof.
  intros Hw Hid Hal He Hroom. unfold adopt_entry. apply wp_get. fold (parked_in (prompt_cache w) e).
  destruct (parked_in (prompt_cache w) e ≫= consistent_seq_len) as [len|] eqn:Hlen; [|by split].
  destruct (reusable_prefix_len _ _ _ _ _) as [m|] eqn:Hm; [|by split].
  apply reusable_spec in Hm as (Hmr & Hml & Hmt & Hmin & Hmod). rewrite Nat.max_l in Hmod by lia.
  destruct (whole && _); [by split|]. set (consume := o ← on_store (take_detached e); _).
  destruct (take_step w e Hw He) as (Htk & Hw1 & Hcfg).
  assert (Hone : ∀ d, parked_in (prompt_cache w) e = Some (PagedSet d) → set_seq_len d = len).
  { intros d Hd. rewrite Hd in Hlen. cbn in Hlen. case_decide; by simplify_eq. }
  assert (Hcons : wp consume w (entry_adoption w e al raw (length ts))).
  { unfold consume. apply wp_bind, wp_store. destruct (take_detached e (prompt_cache w)) as [s1 o]. cbn [fst snd] in *. subst o.
    destruct (parked_in (prompt_cache w) e) as [[x|d]|] eqn:Hp; cbn in Hw1 |- *; [by destruct (host_dense_empty x); split| |by split].
    assert (wp (_ ← release_unused_detached (PagedSet d); mret None) (mkServer (cache_pool w) s1)
      (entry_adoption w e al raw (length ts))) as Hdecl.
    { eapply wp_mono; [by apply (decline_spec d d _ w al (min_prefix_tokens (config (prompt_cache w)) `max` 1) m)|].
      intros w' r Hr. by eapply adoption_entry. }
    destruct (_ || _); [exact Hdecl|]. eapply wp_mono.
    - apply adopt_taken_spec; try done; [lia|]. rewrite (Hone d) by done. lia.
    - intros w' r Hr. eapply (adoption_entry w e d); [exact Hr|done..]. }
  destruct (parked_in (prompt_cache w) e) as [[x|d]|] eqn:Hp; [done| |done].
  destruct (clone_eligible d) eqn:Hce; [|done]. eapply wp_mono.
  - apply adopt_clone_spec; try done; [lia|by eapply parked_held|rewrite (Hone d) by done; lia|by apply Hroom].
  - intros w' r Hr. by eapply adoption_entry.
Qed.

(** ** A request *)

Lemma room_fewer c c' ext ext' k n : same_but_pool c c' → ext ≡ₚ k ++ ext' → room c ext n → room c' ext' n.
Proof.
  intros (_ & Ea & _ & Ed & _) Hp. unfold room, refs. rewrite Ea, Ed, Hp, bind_app, !length_app. lia.
Qed.

(** References for a clone of any set the prompt cache holds. *)
Definition sharing_room w : Prop :=
  ∀ d, d ∈ held (prompt_cache w) → room (cache_pool w) (held (prompt_cache w)) (2 * length (ids (d_state d))).

Lemma lookup_keeps now touched key ts s : good s → keeps s (lookup_longest_prefix now touched key ts s).1 [] [].
Proof.
  intros Hg. unfold lookup_longest_prefix. pose proof (lookup_sweep_keeps now s Hg) as Hk.
  destruct (lookup_sweep now s) as [s1|]; cbn [default] in Hk; [|by apply keeps_refl].
  destruct (lookup_select key ts s1) as [best|]; [|by apply keeps_bump].
  eapply keeps_trans; [exact Hk|]. apply lookup_commit_keeps, Hk.
Qed.

(** A request adopts from [e] of [w]. *)
Definition request_adoption w (sl : SessionlessBucketKey) (ts : list Z) (al : nat) w'
    (r : outcome cache_error (option (N * nat))) : Prop :=
  server_inv w' [] ∧
  match r with
  | Ok None => active (cache_pool w') = active (cache_pool w)
  | Ok (Some (id, n)) => id = next_id (cache_pool w) ∧ active (cache_pool w) !! id = None ∧
      (∃ dg slot d sq st, slots (prompt_cache w) !! dg = Some slot ∧ sessionless slot = sl ∧
        parked_in (prompt_cache w) (entry slot) = Some (PagedSet d) ∧
        set_seq_len d = length (tokens (entry slot)) ∧ take n (tokens (entry slot)) = take n ts ∧
        active (cache_pool w') = <[id := sq]> (active (cache_pool w)) ∧ paged sq = Some st ∧
        backend sq = PagedKvCache ∧ shares d n st) ∧
      min_prefix_tokens (config (prompt_cache w)) ≤ n ∧ 1 ≤ n < length ts ∧ n `mod` al = 0
  | Err _ => False
  | Panic => ∃ dg slot d, slots (prompt_cache w) !! dg = Some slot ∧ sessionless slot = sl ∧
      parked_in (prompt_cache w) (entry slot) = Some (PagedSet d) ∧ clone_eligible d = true ∧ uneven d
  end.

Lemma try_adopt_spec now touched model al ctx ts whole w : server_inv w [] → ids_left (cache_pool w) → sharing_room w →
  wp (try_adopt_cached_prefix now touched model al ctx ts whole) w
    (request_adoption w (sessionless_from_key (compose_prompt_cache_key ctx ts)) ts (al `max` 1)).
Proof.
  intros Hw Hid Hroom. unfold try_adopt_cached_prefix. apply wp_get.
  destruct (prompt_cache_active w) eqn:Hact; cbn [negb]; [|by split].
  apply wp_bind. eapply wp_mono; [by apply drain_spec|]. cbn. intros w1 r (-> & Hw1 & Hd1 & Hsame).
  set (key := compose_prompt_cache_key ctx ts). apply wp_bind, wp_store.
  pose proof (lookup_keeps now touched key ts _ (sv_store _ _ Hw1)) as Hk.
  pose proof (lookup_longest_prefix_spec now touched key ts _ [] (good_inv _ (sv_store _ _ Hw1))) as Hl. cbv zeta in Hl.
  destruct (lookup_longest_prefix now touched key ts (prompt_cache w1)) as [s2 found]. cbn [fst] in Hk.
  pose proof (store_quiet w1 s2 [] Hw1 Hk) as Hw2. destruct Hl as (Hi2 & Hh2 & Hc2 & _ & _ & Hdet & Hl).
  unfold drained in Hd1. pose proof Hsame as (En & Ea & _).
  assert (held (prompt_cache w) ≡ₚ pending_paged_releases (prompt_cache w) ++ held s2) as Hheld.
  { rewrite Hh2, Hd1. unfold held. cbn. rewrite app_nil_r. solve_Permutation. }
  destruct found as [[e raw]|]; [|split; [done|exact Ea]].
  rewrite Hd1 in Hl. specialize (Hl Hact). destruct Hl as (dg & slot & m & Hlive & <- & Hs2 & _ & _ & [_ Hraw] & Htk & _).
  destruct Hlive as (Hsl & Hbk & _).
  assert (Hpk : parked_in s2 (entry slot) = parked_in (prompt_cache w) (entry slot)).
  { unfold parked_in. rewrite (Hdet dg slot Hs2), Hd1. done. }
  eapply wp_mono; [apply adopt_entry_spec|]; cbn [cache_pool prompt_cache].
  - exact Hw2.
  - unfold ids_left. by rewrite En.
  - lia.
  - by apply (inv_cells _ _ Hi2 dg).
  - intros d Hd. cbn [cache_pool prompt_cache] in Hd |- *. assert (d ∈ held s2) as Hin by (eapply parked_held; [|exact Hd]; by apply (inv_cells _ _ Hi2 dg)).
    eapply room_fewer; [exact Hsame|exact Hheld|]. apply Hroom. rewrite Hheld. set_solver.
  - intros w' r [Hw' Hr]. split; [done|]. cbn [cache_pool prompt_cache] in Hr. rewrite Ea, En, Hpk, Hc2 in Hr.
    destruct r as [[[id n]|]|err|]; [|done..|].
    + destruct Hr as (-> & Hn & (d & sq & st & Hpd & Hins & Hst & Hbe & Hsh) & [Hmin Hle] & Hlt & Hmod).
      rewrite Hd1 in Hmin. cbn in Hmin. split_and!; try done; try lia. exists dg, slot, d, sq, st.
      assert (take n (tokens (entry slot)) = take n ts).
      { apply (f_equal (take n)) in Htk. by rewrite !take_take, !Nat.min_l in Htk by lia. }
      split_and!; try done. apply (sv_covers _ _ Hw dg slot (PagedSet d)); [|done]. done.
    + destruct Hr as (d & Hpd & Hce & Hun). by exists dg, slot, d.
Qed.

(** ** Donation *)

Lemma donate_spec now id ctx pt gt healthy w : server_inv w [] →
  (∀ sq st, active (cache_pool w) !! id = Some sq → paged sq = Some st →
     room (cache_pool w) (held (prompt_cache w)) (length (ids st))) →
  (∀ c' d, detach_paged id (cache_pool w) = (c', Ok (Some d)) → 0 < paged_set_nbytes d) →
  wp (donate_finished_sequence_cache now id ctx pt gt healthy) w (λ w' r, r = Ok tt ∧ server_inv w' [] ∧
    (active (cache_pool w') = active (cache_pool w) ∨ active (cache_pool w') = delete id (active (cache_pool w)))).
Proof.
  intros Hw Hroom Hpos. unfold donate_finished_sequence_cache.
  assert (∀ w', server_inv w' [] → active (cache_pool w') = active (cache_pool w) →
    wp (mret tt) w' (λ w' r, r = Ok tt ∧ server_inv w' [] ∧ (active (cache_pool w') = active (cache_pool w) ∨
      active (cache_pool w') = delete id (active (cache_pool w))))) as Hskip by (intros; split_and!; auto).
  destruct healthy; cbn [negb]; [|by apply Hskip]. apply wp_get.
  destruct (prompt_cache_active w); cbn [negb]; [|by apply Hskip]. destruct ctx as [ctx|]; [|by apply Hskip].
  case_bool_decide as Hb; cbn [negb]; [|by apply Hskip]. case_decide; [by apply Hskip|].
  destruct (active (cache_pool w) !! id) as [sq|] eqn:Hsq; [|done]. cbn in Hb.
  apply wp_bind, wp_pool.
  assert (detach_paged id (cache_pool w) = (cache_pool w, Ok None) ∨
    ∃ c' d, detach_paged id (cache_pool w) = (c', Ok (Some d)) ∧ cp_inv c' (d :: held (prompt_cache w)) ∧
      active c' = delete id (active (cache_pool w))) as [->|(c' & d & Hdet & Hc' & Ha')].
  { destruct (paged sq) as [st|] eqn:Hst.
    2: { left. unfold detach_paged. rewrite get_bind, Hsq, Hst, decide_False by (intros Hx; by apply Hx). done. }
    destruct (paged_layout sq) as [lay|] eqn:Hly.
    2: { left. unfold detach_paged. rewrite get_bind, Hsq, Hst, Hly, decide_False by (intros Hx; by apply Hx). done. }
    right. destruct (detach_inv id _ _ sq st lay (sv_pool _ _ Hw) Hsq Hb Hst Hly (Hroom _ _ eq_refl Hst))
      as (c' & d & ? & ? & ? & _). by exists c', d. }
  { apply Hskip; [by destruct w|by destruct w]. }
  specialize (Hpos _ _ Hdet). rewrite Hdet. set (w1 := mkServer c' (prompt_cache w)).
  assert (Hw1 : server_inv w1 [d]) by by eapply pool_step.
  assert (wp (release_unused_detached (PagedSet d)) w1 (λ w' r, r = Ok tt ∧ server_inv w' [] ∧
    (active (cache_pool w') = active (cache_pool w) ∨ active (cache_pool w') = delete id (active (cache_pool w))))) as Hrel.
  { eapply wp_mono; [by apply release_set_spec|]. intros w' r (-> & Hw' & _ & Hs). split_and!; [done..|right].
    by destruct Hs as (_ & -> & _). }
  case_match; [exact Hrel|]. destruct (consistent_seq_len _) as [n|] eqn:Hn; [|exact Hrel].
  case_decide as Hlen; [exact Hrel|]. cbn in Hn. case_decide; [|done]. injection Hn as Hn.
  set (ts := take n (pt ++ gt)). set (key := compose_prompt_cache_key ctx ts).
  assert (Hcov : ∀ x, x ∈ brings (StInsert (K := pool_kv) now key ts (PagedSet d)) → covers x.1 x.2).
  { intros x ->%list_elem_of_singleton. cbn. unfold ts. rewrite length_take. lia. }
  pose proof (insert_keeps (K := pool_kv) now key ts (PagedSet d) _ (sv_store _ _ Hw1) Hpos) as Hk.
  pose proof (λ Hx, store_step w1 _ [] _ [] Hx Hk Hcov) as Hw2. specialize (Hw2 Hw1). cbn [app] in Hw2.
  apply wp_bind, wp_store. cbn [run_store] in Hw2. destruct (entry_new now ts _ (prompt_cache w1)) as [s2 e].
  apply wp_bind, wp_store. cbn [prompt_cache cache_pool] in *. destruct (insert_entry key e s2) as [s3 u]. cbn [fst] in Hw2.
  eapply wp_mono; [by apply drain_spec|]. intros w' r (-> & Hw' & _ & Hs). split_and!; [done..|right].
  destruct Hs as (_ & -> & _). done.
Qed.

(** ** Reclaiming *)

Lemma evict_prefixes_spec need fuel : ∀ w, server_inv w [] →
  wp (evict_prefixes need fuel) w (λ w' r, r = Ok tt ∧ server_inv w' [] ∧ same_but_pool (cache_pool w) (cache_pool w') ∧
    (size (slots (prompt_cache w)) ≤ fuel → has_room need (cache_pool w') = true ∨ slots (prompt_cache w') = ∅) ∧
    (slots (prompt_cache w) ≠ ∅ ∨ pending_paged_releases (prompt_cache w) = [] → slots (prompt_cache w') = ∅ →
     pending_paged_releases (prompt_cache w') = [])).
Proof.
  induction fuel as [|fuel IH]; intros w Hw; cbn [evict_prefixes].
  { split_and!; try done; [|tauto]. intros Hsz. right. apply map_size_empty_iff. lia. }
  apply wp_get. destruct (has_room need (cache_pool w)) eqn:Hroom; [split_and!; try done; tauto|].
  apply wp_bind, wp_store. unfold evict_one_lru. pose proof (evict_oldest_spec _ [] (good_inv _ (sv_store _ _ Hw))) as He.
  pose proof (evict_one_keeps _ (sv_store _ _ Hw)) as Hk. unfold evict_one_lru in Hk.
  destruct (evict_oldest (prompt_cache w)) as [s1 n]. cbn [fst] in Hk. destruct He as (_ & _ & Hcase).
  pose proof (store_quiet w s1 [] Hw Hk) as Hw1. case_decide as Hn.
  - destruct Hcase as [(Hz & -> & _)|(d & slot & Hd & _ & Hb & _)].
    + destruct w. split_and!; try done; [by right|]. intros [?|?]; done.
    + pose proof (good_sizes _ (sv_store _ _ Hw) d slot Hd). lia.
  - destruct Hcase as [(_ & _ & ->)|(d & slot & Hd & Hsl & _)]; [done|].
    apply wp_bind. eapply wp_mono; [by apply drain_spec|]. cbn. intros w2 r (-> & Hw2 & Hdr & Hs2).
    eapply wp_mono; [by apply IH|]. intros w3 r (-> & Hw3 & Hs3 & Hex & Hpe). unfold drained in Hdr.
    split_and!; [done|done|by eapply same_but_pool_trans| |].
    + intros Hsz. apply Hex. rewrite Hdr. cbn. rewrite Hsl, map_size_delete_Some by done. lia.
    + intros _. apply Hpe. right. by rewrite Hdr.
Qed.

Lemma no_sets_held s : good s → slots s = ∅ → pending_paged_releases s = [] → held s = [].
Proof.
  intros Hg Hs Hp. pose proof (held_parked s (good_inv _ Hg)) as Hh. unfold parked in Hh.
  rewrite Hs, Hp, map_to_list_empty in Hh. cbn in Hh. by apply Permutation_nil_r in Hh.
Qed.

(** No sequence and no handle of the pool owns a block. *)
Definition idle c : Prop := map_refs seq_refs (active c) = [] ∧ map_refs parked_refs (CachePool.detached c) = [].

Lemma idle_live c p : cp_inv c [] → idle c → paged_pool c = Some p → live_block_count p = 0.
Proof.
  intros Hc [H1 H2] Hp. pose proof (ci_pool _ _ Hc) as Hi. rewrite Hp in Hi. unfold refs in Hi. rewrite H1, H2 in Hi.
  by apply live_none.
Qed.

(** ** Runs of the server *)

Definition plain_pool_op (o : CacheSystem.op) : bool :=
  match o with OpAllocate _ _ | OpAppend _ _ _ | OpTrim _ _ _ | OpSync _ _ | OpRelease _ | OpBudget _ => true | _ => false end.

Definition plain_store_op (o : store_op) : bool :=
  match o with StInsert _ _ _ _ | StTake _ | StDrain => false | _ => true end.

Inductive server_op :=
  | SvPool (o : CacheSystem.op)
  | SvStore (o : store_op)
  | SvDrain
  | SvReclaim (need : nat)
  | SvAdopt (now touched : nat) (model : LanguageModel) (alignment : nat) (ctx : PromptCacheRequestContext)
      (ts : list Z) (whole : bool)
  | SvDonate (now : nat) (id : N) (ctx : option PromptCacheRequestContext) (prompt generated : list Z) (healthy : bool).

(** [None] is a panic. *)
Definition done_with {A} (r : Server * outcome cache_error A) : option Server :=
  match r with (_, Panic) => None | (w, _) => Some w end.

Definition run_server (o : server_op) w : option Server :=
  match o with
  | SvPool o =>
    if plain_pool_op o then (λ x, mkServer x.1 (prompt_cache w)) <$> run_op o (cache_pool w, held (prompt_cache w))
    else Some w
  | SvStore o => if plain_store_op o then Some (mkServer (cache_pool w) (run_store o (prompt_cache w)).1) else Some w
  | SvDrain => done_with (drain_store_paged_releases w)
  | SvReclaim need => done_with (evict_prefixes need (size (slots (prompt_cache w))) w)
  | SvAdopt now touched model al ctx ts whole => done_with (try_adopt_cached_prefix now touched model al ctx ts whole w)
  | SvDonate now id ctx pt gt healthy => done_with (donate_finished_sequence_cache now id ctx pt gt healthy w)
  end.

(** Ids and reference counts do not run out; sets and snapshots have a size. *)
Definition server_fits (o : server_op) w : Prop :=
  match o with
  | SvPool o => fits o (cache_pool w, held (prompt_cache w))
  | SvStore o => allowed o (prompt_cache w)
  | SvAdopt _ _ _ _ _ _ _ => ids_left (cache_pool w) ∧ sharing_room w
  | SvDonate _ id _ _ _ _ =>
    (∀ sq st, active (cache_pool w) !! id = Some sq → paged sq = Some st →
       room (cache_pool w) (held (prompt_cache w)) (length (ids st))) ∧
    (∀ c' d, detach_paged id (cache_pool w) = (c', Ok (Some d)) → 0 < paged_set_nbytes d)
  | _ => True
  end.

Definition adopts (o : server_op) : bool := match o with SvAdopt _ _ _ _ _ _ _ => true | _ => false end.

Lemma parked_slot s dg slot d : slots s !! dg = Some slot → parked_in s (entry slot) = Some (PagedSet d) → d ∈ parked s.
Proof.
  intros Hd Hp. apply list_elem_of_omap. exists (dg, slot). split; [by apply elem_of_map_to_list|].
  unfold cell_paged. cbn. unfold parked_in in Hp. by rewrite Hp.
Qed.

Lemma plain_run_op o c ext : plain_pool_op o = true → cp_inv c ext → fits o (c, ext) →
  match run_op o (c, ext) with Some (c', ext') => cp_inv c' ext' ∧ ext' = ext | None => False end.
Proof.
  intros Ho Hc Hf. pose proof (run_op_inv o (c, ext) Hc Hf) as Hr. unfold run_result in Hr.
  assert (∀ A (x : CachePool * outcome cache_error A) c' ext', after x (λ _, ext) = Some (c', ext') → ext' = ext) as Haft
    by (intros A [c0 [a|e|]] c' ext'; cbn; congruence).
  destruct (run_op o (c, ext)) as [[c' ext']|] eqn:Hrun.
  - split; [done|]. destruct o; try discriminate Ho; by eapply Haft.
  - destruct Hr as (i & t & d & -> & _). discriminate Ho.
Qed.

(** A panic is an adoption that clones a set with layers shorter than its first one. *)
Lemma run_server_inv o w : server_inv w [] → server_fits o w →
  match run_server o w with
  | Some w' => server_inv w' []
  | None => adopts o = true ∧ ∃ d, d ∈ parked (prompt_cache w) ∧ clone_eligible d = true ∧ uneven d
  end.
Proof.
  intros Hw Hf. destruct o as [o|o| |need|now tch model al ctx ts whole|now id ctx pt gt h]; cbn [run_server server_fits] in *.
  - destruct (plain_pool_op o) eqn:Ho; [|done]. pose proof (plain_run_op o _ _ Ho (sv_pool _ _ Hw) Hf) as Hr.
    destruct (run_op o _) as [[c' ext']|]; [|done]. destruct Hr as [Hc' ->]. by eapply pool_step.
  - destruct (plain_store_op o) eqn:Ho; [|done].
    pose proof (run_store_keeps o _ (sv_store _ _ Hw) Hf) as Hk.
    assert (brings o = [] ∧ (run_store o (prompt_cache w)).2 = []) as [E1 E2] by (by destruct o).
    rewrite E1, E2 in Hk. by apply store_quiet.
  - pose proof (drain_spec w [] Hw) as Hd. unfold wp in Hd. destruct (drain_store_paged_releases w) as [w' r].
    by destruct Hd as (-> & ? & _).
  - pose proof (evict_prefixes_spec need (size (slots (prompt_cache w))) w Hw) as Hd. unfold wp in Hd.
    destruct (evict_prefixes _ _ w) as [w' r]. by destruct Hd as (-> & ? & _).
  - destruct Hf as [Hid Hroom]. pose proof (try_adopt_spec now tch model al ctx ts whole w Hw Hid Hroom) as Hd.
    unfold wp in Hd. destruct (try_adopt_cached_prefix _ _ _ _ _ _ _ w) as [w' r]. destruct Hd as [Hw' Hr].
    destruct r; [done|done|]. destruct Hr as (dg & slot & d & Hd & _ & Hp & ?). split; [done|]. exists d.
    split; [by eapply parked_slot|done].
  - destruct Hf as [Hroom Hpos]. pose proof (donate_spec now id ctx pt gt h w Hw Hroom Hpos) as Hd.
    unfold wp in Hd. destruct (donate_finished_sequence_cache _ _ _ _ _ _ w) as [w' r]. by destruct Hd as (-> & ? & _).
Qed.

Inductive server_run (max : nat) (cfg : PromptCacheConfig) : Server → Prop :=
  | server_new : server_run max cfg (mkServer (cache_pool_new max) (with_config cfg))
  | server_step w o w' : server_run max cfg w → server_fits o w → run_server o w = Some w' → server_run max cfg w'.

Lemma server_run_inv max cfg w : server_run max cfg w → server_inv w [].
Proof.
  induction 1 as [|w o w' _ IH Hf Hrun].
  - split; cbn; [apply with_config_good|apply cache_pool_new_inv|]. intros d slot set Hd. cbn in Hd. by rewrite lookup_empty in Hd.
  - pose proof (run_server_inv o w IH Hf) as Hr. by rewrite Hrun in Hr.
Qed.

End sharing.
