(* ===== verification/PromptServerProps.v ===== *)
(** * Prefix sharing: the properties

    What holds in every state of a server that donates, adopts, evicts and
    reclaims, with a small run as the example. *)

From S2P Require Import Prelude Bytes Mlx PagedPool PagedPoolInv PagedPoolData PagedPrefill PagedGather.
From S2P Require Import PagedContract CachePool PagedDetach CachePoolInv CacheSystem.
From S2P Require Import PromptKey PromptTrie PromptStore PromptStoreInv PromptLookup PromptSystem PromptServer.
From S2P Require Import PromptServerInv.

Section properties.
Context {X : Mlx} {KH : KvHandles} {HS : HostSets KH} {O : HashOrder} {H : Hashes}.
Implicit Types (w : Server).

(** C3. The pool and the prompt cache never disagree. In every state the server
    reaches, a block's reference count is the number of owners it has among the
    tables of running sequences, the handles parked in the pool, the sets parked
    in entries and the sets queued for release; a set parked in an entry covers
    exactly the entry's tokens; with no owner left no block is in use. The only
    panic a further operation can run into is a request that adopts from an entry
    whose parked set is uneven: a layer without blocks for tokens the set's first
    layer holds, or more layers than the layout has. The operations are those of
    [server_op] under [server_fits]: sequence ids and the references a step adds
    stay within their integer types, and the sets and snapshots given to the
    prompt cache have a nonzero byte size; the store's [clear] is not among
    them. *)
Theorem server_accounts_every_block max cfg w p : server_run max cfg w → paged_pool (cache_pool w) = Some p →
  let s := prompt_cache w in
  (∀ b, refcount b p = N.of_nat (occ b (refs (cache_pool w) (parked s ++ pending_paged_releases s)))) ∧
  (∀ dg slot d, slots s !! dg = Some slot → parked_in s (entry slot) = Some (PagedSet d) →
     set_seq_len d = length (tokens (entry slot))) ∧
  (idle (cache_pool w) → slots s = ∅ → pending_paged_releases s = [] → live_block_count p = 0) ∧
  (∀ o, server_fits o w → run_server o w = None →
     adopts o = true ∧ ∃ d, d ∈ parked s ∧ clone_eligible d = true ∧ uneven d).
Proof.
  intros Hrun%server_run_inv Hp. cbv zeta. pose proof (sv_pool _ _ Hrun) as Hc. cbn in Hc.
  pose proof (held_parked _ (good_inv _ (sv_store _ _ Hrun))) as Hh. split_and!.
  - intros b. apply (cp_inv_perm _ _ _ Hh) in Hc. pose proof (ci_pool _ _ Hc) as Hi. rewrite Hp in Hi.
    apply (pi_refs _ _ Hi).
  - intros dg slot d Hd Hpk. by apply (sv_covers _ _ Hrun dg slot (PagedSet d)).
  - intros Hidle Hs Hq. rewrite (no_sets_held _ (sv_store _ _ Hrun) Hs Hq) in Hc. by eapply idle_live.
  - intros o Hf Ho. pose proof (run_server_inv o w Hrun Hf) as Hr. by rewrite Ho in Hr.
Qed.

(** C4. A request adopts only what it asked for. When it adopts [n] tokens, they
    are the first [n] of an entry of its own bucket and of the request itself,
    and the new sequence's table is the table parked with that entry when [n] is
    the whole of it, and otherwise exactly [n] tokens of every layer, in the
    layer's first [n / block_size] blocks, [n] being a whole number of blocks;
    [n] is at least the configured minimum and a multiple of the model's
    alignment, and at least one token is left to prefill. Otherwise no sequence is
    created, and a panic means that an entry of the bucket parks an uneven set.
    The hypotheses: a state the server reaches, a sequence id left, and reference
    counts with room for a clone. *)
Theorem adopts_requested_prefix max cfg w now touched model al ctx ts whole : server_run max cfg w →
  ids_left (cache_pool w) → sharing_room w →
  let s := prompt_cache w in
  let '(w', r) := try_adopt_cached_prefix now touched model al ctx ts whole w in
  match r with
  | Ok (Some (id, n)) => active (cache_pool w) !! id = None ∧
      (∃ dg slot d sq st, slots s !! dg = Some slot ∧
        sessionless slot = sessionless_from_key (compose_prompt_cache_key ctx ts) ∧
        parked_in s (entry slot) = Some (PagedSet d) ∧ take n (tokens (entry slot)) = take n ts ∧
        active (cache_pool w') = <[id := sq]> (active (cache_pool w)) ∧ paged sq = Some st ∧
        backend sq = PagedKvCache ∧ n ≤ set_seq_len d ∧
        (n = set_seq_len d ∧ st = d_state d ∨
         n `mod` block_size (d_layout d) = 0 ∧ ∀ l ls, layers (d_state d) !! l = Some ls →
           layers st !! l =
             Some (mkLayerState (take (n `div` block_size (d_layout d)) (block_ids ls)) n (logical_start ls)))) ∧
      min_prefix_tokens (config s) ≤ n ∧ 1 ≤ n < length ts ∧ n `mod` (al `max` 1) = 0
  | Ok None => active (cache_pool w') = active (cache_pool w)
  | Err _ => False
  | Panic => ∃ dg slot d, slots s !! dg = Some slot ∧
      sessionless slot = sessionless_from_key (compose_prompt_cache_key ctx ts) ∧
      parked_in s (entry slot) = Some (PagedSet d) ∧ clone_eligible d = true ∧ uneven d
  end.
Proof.
  intros Hrun%server_run_inv Hid Hroom. cbv zeta.
  pose proof (try_adopt_spec now touched model al ctx ts whole w Hrun Hid Hroom) as Hd. unfold wp in Hd.
  destruct (try_adopt_cached_prefix _ _ _ _ _ _ _ w) as [w' r]. destruct Hd as [_ Hr].
  destruct r as [[[id n]|]|e|]; [|done..]. destruct Hr as (_ & Hn & (dg & slot & d & sq & st & H1 & H2 & H3 & _ & H4 & H5 & H6 & H7 & Hsh) & ?).
  split_and!; try tauto. exists dg, slot, d, sq, st. split_and!; try done.
  - destruct Hsh as [[_ ->]|(_ & ? & _)]; done.
  - destruct Hsh as [[-> ->]|(? & _ & ?)]; [by left|by right].
Qed.

(** With no entry left the loop stops at once, whatever is queued. *)
Lemma evict_prefixes_empty w need fuel : slots (prompt_cache w) = ∅ → has_room need (cache_pool w) = false →
  evict_prefixes need fuel w = (w, Ok tt).
Proof.
  intros Hs Hr. destruct fuel as [|fuel]; [done|]. cbn [evict_prefixes]. rewrite get_bind, Hr.
  unfold mbind, M_bind, on_store, evict_one_lru, evict_oldest. rewrite Hs.
  assert (iter (∅ : gmap Digest EntrySlot) = []) as ->.
  { pose proof (iter_perm (∅ : gmap Digest EntrySlot)) as Hp. rewrite map_to_list_empty in Hp. by apply Permutation_nil_r in Hp. }
  cbn. by destruct w.
Qed.

(** C24. Reclaiming terminates: evicting cold prefixes ends after at most as many
    rounds as there are entries, with [need] blocks free or no entry left. If
    there was an entry, or nothing was queued, nothing stays parked or queued
    unless the blocks are there, and when no sequence is running it always ends
    with the blocks a request within the budget needs. But sets that are only
    queued are not reclaimed: with no entry left it returns without draining
    them, however many blocks they hold. *)
Theorem reclaim_succeeds max cfg w need : server_run max cfg w →
  let '(w', r) := evict_prefixes need (size (slots (prompt_cache w))) w in
  r = Ok tt ∧ active (cache_pool w') = active (cache_pool w) ∧
  (has_room need (cache_pool w') = true ∨ slots (prompt_cache w') = ∅) ∧
  (slots (prompt_cache w) ≠ ∅ ∨ pending_paged_releases (prompt_cache w) = [] →
   (has_room need (cache_pool w') = true ∨ held (prompt_cache w') = []) ∧
   (idle (cache_pool w) →
    (∀ p budget, paged_pool (cache_pool w') = Some p → block_budget p = Some budget → need ≤ budget) →
    has_room need (cache_pool w') = true)) ∧
  (slots (prompt_cache w) = ∅ → has_room need (cache_pool w) = false → w' = w).
Proof.
  intros Hrun%server_run_inv.
  pose proof (evict_prefixes_spec need (size (slots (prompt_cache w))) w Hrun) as Hd. unfold wp in Hd.
  pose proof (evict_prefixes_empty w need (size (slots (prompt_cache w)))) as He.
  destruct (evict_prefixes _ _ w) as [w' r]. destruct Hd as (-> & Hw' & Hsame & Hex & Hpe). pose proof Hsame as (_ & Ea & _ & Ed & _).
  split_and!; [done..|by apply Hex| |intros Hs Hr; specialize (He Hs Hr); congruence].
  intros Hq. assert (has_room need (cache_pool w') = true ∨ held (prompt_cache w') = []) as Hend.
  { destruct (Hex ltac:(done)) as [?|Hs]; [by left|right]. apply no_sets_held; [apply Hw'|done|by apply Hpe]. }
  split; [done|]. intros [Hi1 Hi2] Hneed. destruct Hend as [?|Hh]; [done|].
  pose proof (sv_pool _ _ Hw') as Hc. rewrite Hh in Hc. cbn in Hc.
  unfold has_room, free_paged_block_budget. destruct (paged_pool (cache_pool w')) as [p|] eqn:Hp; [|done]. cbn.
  unfold free_block_budget. destruct (block_budget p) as [budget|] eqn:Hb; [|done]. cbn.
  rewrite (idle_live _ p Hc) by (done || (split; by rewrite ?Ea, ?Ed)). apply bool_decide_eq_true. specialize (Hneed p budget eq_refl Hb). lia.
Qed.

End properties.

(** ** A small run *)

Section example.
Existing Instance arrays.
Existing Instance offset_handles.
Existing Instances PlainSets.plain_order PlainSets.suffix_hash.

Definition number_host : HostSets offset_handles :=
  {| HostDense := nat; HostSnapshot := nat; host_dense_nbytes n := n; host_snapshot_nbytes n := n;
     handle_nbytes _ := 0; host_dense_empty _ := false; host_dense_len n := Some n |}.
Existing Instance number_host.

Definition share_config : PromptCacheConfig := mkConfig true 1000 4 0 1 (mkApc false 0 None Blake3) 50 1 0.
Definition share_ctx : PromptCacheRequestContext := mkCtx "m" None "t" "s" (replicate 32 0%N).

(** A budget of two blocks; a sequence of three tokens is donated and fills it. *)
Definition share_ops : list server_op :=
  [SvPool (OpBudget (Some 2));
   SvPool (OpAllocate example_model (Some (paged_kv_cache example_layout)));
   SvPool (OpAppend 0 0 3);
   SvDonate 1 0 (Some share_ctx) [1; 2]%Z [3]%Z true].

Definition share_state (n : nat) : Server :=
  foldl (λ w o, default w (run_server o w)) (mkServer (cache_pool_new 4) (with_config share_config)) (take n share_ops).

Lemma share_run : server_run 4 share_config (share_state 4).
Proof.
  apply (server_step _ _ (share_state 3) (SvDonate 1 0 (Some share_ctx) [1; 2]%Z [3]%Z true)); [| |vm_refl].
  - apply (server_step _ _ (share_state 2) (SvPool (OpAppend 0 0 3))); [| |vm_refl].
    + apply (server_step _ _ (share_state 1) (SvPool (OpAllocate example_model (Some (paged_kv_cache example_layout))))); [| |vm_refl].
      * apply (server_step _ _ (share_state 0) (SvPool (OpBudget (Some 2)))); [apply server_new| |vm_refl].
        split; [|split; [|exact I]]; unfold ids_left, room, N.lt; vm_refl.
      * split; [|split]; [unfold ids_left, N.lt; vm_refl|unfold room, N.lt; vm_refl|].
        intros lay [= <-]. cbn. lia.
    + split; [|split; [|exact I]]; unfold ids_left, room, N.lt; vm_refl.
  - split.
    + intros sq st Hsq Hst.
      assert (match active (cache_pool (share_state 3)) !! 0%N with
              | Some sq => match paged sq with Some st => length (ids st) | None => 0 end
              | None => 0 end = 2) as Hlen by vm_refl.
      rewrite Hsq, Hst in Hlen. rewrite Hlen. unfold room, N.lt. vm_refl.
    + intros c' d Hd.
      assert (match detach_paged 0 (cache_pool (share_state 3)) with
              | (_, Ok (Some d)) => paged_set_nbytes d | _ => 0 end = 128) as Hb by vm_refl.
      rewrite Hd in Hb. rewrite Hb. lia.
Qed.

(** The only block owners are the parked set's table and its pins. *)
Lemma server_accounts_every_block_witness :
  ∃ p, paged_pool (cache_pool (share_state 4)) = Some p ∧ refcount 0 p = 2%N ∧
    refcount 0 p = N.of_nat (occ 0 (refs (cache_pool (share_state 4))
      (parked (prompt_cache (share_state 4)) ++ pending_paged_releases (prompt_cache (share_state 4))))).
Proof.
  assert (bool_decide (is_Some (paged_pool (cache_pool (share_state 4)))) = true) as Hsome by vm_refl.
  apply bool_decide_eq_true in Hsome as [p Hp].
  destruct (server_accounts_every_block 4 share_config (share_state 4) p share_run Hp) as [Hr _].
  exists p. split; [exact Hp|]. split; [|apply Hr]. rewrite Hr. vm_refl.
Defined.

Lemma share_room : sharing_room (share_state 4).
Proof.
  intros d Hd.
  assert (held (prompt_cache (share_state 4)) ≫= (λ d, [length (ids (d_state d))]) = [2]) as Hl by vm_refl.
  assert (length (ids (d_state d)) ∈ held (prompt_cache (share_state 4)) ≫= (λ d, [length (ids (d_state d))])) as Hin.
  { apply list_elem_of_bind. exists d. split; [by left|done]. }
  rewrite Hl in Hin. apply list_elem_of_singleton in Hin. rewrite Hin. unfold room, N.lt. vm_refl.
Qed.

(** A longer request adopts the whole blocks of the stored prefix, under a new id. *)
Lemma adopts_requested_prefix_witness :
  ∃ w', try_adopt_cached_prefix 2 2 example_model 1 share_ctx [1; 2; 3; 9]%Z false (share_state 4) = (w', Ok (Some (1%N, 2))) ∧
    1 ≤ 2 < length [1; 2; 3; 9]%Z.
Proof.
  pose proof (adopts_requested_prefix 4 share_config (share_state 4) 2 2 example_model 1 share_ctx [1; 2; 3; 9]%Z false
    share_run ltac:(unfold ids_left, N.lt; vm_refl) share_room) as Hr. cbv zeta in Hr.
  assert ((try_adopt_cached_prefix 2 2 example_model 1 share_ctx [1; 2; 3; 9]%Z false (share_state 4)).2 = Ok (Some (1%N, 2)))
    as Hrun by vm_refl.
  destruct (try_adopt_cached_prefix 2 2 example_model 1 share_ctx [1; 2; 3; 9]%Z false (share_state 4)) as [w' r].
  cbn in Hrun. subst r. exists w'. split; [reflexivity|]. apply Hr.
Defined.

(** Both blocks are taken by the stored prefix; evicting it makes room for two. *)
Lemma reclaim_succeeds_witness :
  has_room 2 (cache_pool (share_state 4)) = false ∧
  let '(w', _) := evict_prefixes 2 1 (share_state 4) in has_room 2 (cache_pool w') = true ∧ held (prompt_cache w') = [].
Proof.
  split; [vm_refl|].
  assert (pending_paged_releases (prompt_cache (share_state 4)) = []) as Hq by vm_refl.
  pose proof (reclaim_succeeds 4 share_config (share_state 4) 2 share_run) as Hr.
  assert (size (slots (prompt_cache (share_state 4))) = 1) as Hsz by vm_refl. rewrite Hsz in Hr.
  assert (let '(w', _) := evict_prefixes 2 1 (share_state 4) in
    bool_decide (held (prompt_cache w') = []) = true ∧ (p ← paged_pool (cache_pool w'); block_budget p) = Some 2) as Hrun.
  { vm_compute. split; reflexivity. }
  destruct (evict_prefixes 2 1 (share_state 4)) as [w' r]. destruct Hrun as [Hh Hb]. apply bool_decide_eq_true in Hh.
  split; [|exact Hh]. destruct Hr as (_ & _ & _ & Hidle & _). apply (Hidle (or_intror Hq)).
  - split; vm_refl.
  - intros p budget Hp Hpb. rewrite Hp in Hb. cbn in Hb. rewrite Hpb in Hb. injection Hb as ->. lia.
Defined.

(** A released session waits in the queue, the store is empty, and its blocks stay
    until something else drains the queue. *)
Example queued_blocks_stay :
  let w := default (share_state 4) (run_server (SvStore (StReleaseSession "s")) (share_state 4)) in
  length (pending_paged_releases (prompt_cache w)) = 1 ∧
  (let '(w', _) := evict_prefixes 2 5 w in has_room 2 (cache_pool w')) = false ∧
  (let '(w', _) := drain_store_paged_releases w in has_room 2 (cache_pool w')) = true.
Proof. vm_compute. split_and!; reflexivity. Qed.

(** A request that must match a whole entry (one with images or audio) can
    adopt less: the match covers all three tokens of the entry, the clone is cut
    to the pool's blocks of two, and the third token is left to the prefill of
    the text suffix. *)
Theorem whole_entry_match_is_cut :
  let '(w', r) := try_adopt_cached_prefix 2 2 example_model 1 share_ctx [1; 2; 3; 9]%Z true (share_state 4) in
  r = Ok (Some (1%N, 2)) ∧ (tokens ∘ entry) <$> (map_to_list (slots (prompt_cache (share_state 4)))).*2 = [[1; 2; 3]%Z].
Proof. vm_compute. split; reflexivity. Qed.

End example.
