(* ===== verification/StableSort.v ===== *)
(** * Stable sorting and first minima

    [slice::sort_by], [sort_by_key] and [Iterator::min_by_key] of the Rust standard
    library, for a preference relation that is a total preorder: a stable sort is
    determined by its result being sorted and by keeping equal elements in order,
    and a minimum is the first of the smallest elements. *)

From S2P Require Import Prelude.

Section sort.
Context {A : Type} (R : relation A) `{!∀ x y, Decision (R x y)}.

Fixpoint insert_by (x : A) (l : list A) : list A :=
  match l with
  | [] => [x]
  | y :: l' => if decide (R x y) then x :: l else y :: insert_by x l'
  end.

Definition sort_by (l : list A) : list A := foldr insert_by [] l.

Definition min_by (l : list A) : option A :=
  match l with
  | [] => None
  | x :: l' => Some (foldl (λ a y, if decide (R a y) then a else y) x l')
  end.

(** [x] is the first of the smallest elements of [l]. *)
Definition first_min (l : list A) (x : A) : Prop :=
  ∃ l1 l2, l = l1 ++ x :: l2 ∧ Forall (λ y, ¬ R y x) l1 ∧ Forall (R x) l2.

Lemma insert_by_perm x l : insert_by x l ≡ₚ x :: l.
Proof.
  induction l as [|y l IH]; [done|]. simpl. case_decide; [done|]. rewrite IH. constructor.
Qed.

Lemma sort_by_perm l : sort_by l ≡ₚ l.
Proof. induction l as [|x l IH]; [done|]. simpl. by rewrite insert_by_perm, IH. Qed.

Lemma elem_of_sort_by x l : x ∈ sort_by l ↔ x ∈ l.
Proof. by rewrite sort_by_perm. Qed.

Lemma length_sort_by l : length (sort_by l) = length l.
Proof. apply Permutation_length, sort_by_perm. Qed.

Lemma sort_by_nil_inv l : sort_by l = [] → l = [].
Proof. intros E. apply Permutation_nil_r. by rewrite <-E, sort_by_perm. Qed.

Lemma first_min_elem l x : first_min l x → x ∈ l.
Proof. intros (l1 & l2 & -> & _). set_solver. Qed.

Context `{!Transitive R, !Total R}.

Lemma first_min_le l x y : first_min l x → y ∈ l → R x y.
Proof.
  intros (l1 & l2 & -> & H1 & H2). rewrite elem_of_app, elem_of_cons.
  rewrite Forall_forall in H1, H2. intros [Hy|[->|Hy]]; [|by destruct (total R x x)|by apply H2].
  destruct (total R x y); [done|]. by destruct (H1 y Hy).
Qed.

Lemma insert_by_sorted x l : Sorted R l → Sorted R (insert_by x l).
Proof.
  induction 1 as [|y l Hl IH Hd]; simpl; [repeat constructor|].
  case_decide as Hxy; [by repeat constructor|]. constructor; [done|].
  assert (R y x) by (by destruct (total R x y)).
  destruct Hd; simpl; [by constructor|]. case_decide; by constructor.
Qed.

Lemma sort_by_sorted l : Sorted R (sort_by l).
Proof. induction l; simpl; auto using insert_by_sorted, Sorted_nil. Qed.

(** Sorting is stable: of elements that are equal in the preorder the first comes first. *)
Lemma insert_by_filter P `{!∀ x, Decision (P x)} x l :
  (∀ a b, P a → P b → R a b) →
  filter P (insert_by x l) = filter P (x :: l).
Proof.
  intros HP. induction l as [|y l IH]; [done|]. simpl insert_by. case_decide as Hxy; [done|].
  rewrite filter_cons, IH, !filter_cons. repeat case_decide; try done. by destruct Hxy; apply HP.
Qed.

Lemma sort_by_stable P `{!∀ x, Decision (P x)} l :
  (∀ a b, P a → P b → R a b) → filter P (sort_by l) = filter P l.
Proof.
  intros HP. induction l as [|x l IH]; [done|]. simpl sort_by. rewrite insert_by_filter by done.
  rewrite !filter_cons. by case_decide; rewrite IH.
Qed.

Lemma sort_by_head l x : head (sort_by l) = Some x → first_min l x.
Proof.
  revert x. induction l as [|y l IH]; [done|]. intros x. simpl.
  destruct (sort_by l) as [|z k] eqn:E; simpl.
  { apply sort_by_nil_inv in E as ->. intros [= ->]. exists [], []. by repeat constructor. }
  specialize (IH z eq_refl). case_decide as Hyz; simpl; intros [= ->].
  - exists [], l. repeat split; [constructor|]. apply Forall_forall. intros w Hw.
    etrans; [done|]. by eapply first_min_le.
  - destruct IH as (l1 & l2 & -> & H1 & H2). exists (y :: l1), l2. by repeat constructor.
Qed.

Lemma sort_by_cons_inv l : l ≠ [] → ∃ x k, sort_by l = x :: k ∧ first_min l x.
Proof.
  intros Hl. destruct (sort_by l) as [|x k] eqn:E; [by apply sort_by_nil_inv in E|].
  exists x, k. split; [done|]. apply sort_by_head. by rewrite E.
Qed.

Lemma min_fold_first_min x l pre :
  Forall (λ y, ¬ R y x) pre →
  ∀ mid, Forall (R x) mid →
  first_min (pre ++ x :: mid ++ l) (foldl (λ a y, if decide (R a y) then a else y) x l).
Proof.
  revert x pre. induction l as [|y l IH]; intros x pre Hpre mid Hmid; simpl.
  { rewrite app_nil_r. by exists pre, mid. }
  case_decide as Hxy.
  - replace (mid ++ y :: l) with ((mid ++ [y]) ++ l) by by rewrite <-app_assoc.
    apply IH; [done|]. rewrite Forall_app. by repeat constructor.
  - replace (pre ++ x :: mid ++ y :: l) with ((pre ++ x :: mid) ++ y :: [] ++ l) by by rewrite <-app_assoc.
    assert (Hyx : R y x) by (by destruct (total R x y)).
    apply IH; [|constructor]. rewrite Forall_app, Forall_cons. split; [|split; [done|]].
    + eapply Forall_impl; [done|]. intros w Hw Hwy. apply Hw. by etrans.
    + eapply Forall_impl; [done|]. intros w Hw Hwy. apply Hxy. by etrans.
Qed.

Lemma min_by_spec l x : min_by l = Some x → first_min l x.
Proof.
  destruct l as [|y l]; [done|]. intros [= <-]. by apply (min_fold_first_min y l [] (Forall_nil_2 _) []).
Qed.

Lemma first_min_unique l x y : first_min l x → first_min l y → x = y.
Proof.
  intros Hx Hy. pose proof (first_min_le l x y Hx (first_min_elem _ _ Hy)) as Lxy.
  pose proof (first_min_le l y x Hy (first_min_elem _ _ Hx)) as Lyx.
  destruct Hx as (l1 & l2 & -> & H1 & _), Hy as (k1 & k2 & E & K1 & _).
  rewrite Forall_forall in H1, K1. revert E. revert k1 K1.
  induction l1 as [|a l1 IH]; intros [|b k1] K1 [= ]; subst; [done|..].
  - by destruct (K1 b); [set_solver|].
  - by destruct (H1 y); [set_solver|].
  - eapply (IH ltac:(intros w Hw; apply H1; set_solver) k1); [|done]. intros w Hw. apply K1. set_solver.
Qed.

(** Sorting and taking the head, and folding for the minimum, choose the same element. *)
Lemma min_by_sort l : min_by l = head (sort_by l).
Proof.
  destruct (decide (l = [])) as [->|Hl]; [done|].
  destruct (sort_by_cons_inv l Hl) as (x & k & E & Hx). rewrite E. simpl.
  destruct l as [|y l]; [done|]. unfold min_by. f_equal.
  eapply first_min_unique; [|done]. by apply (min_fold_first_min y l [] (Forall_nil_2 _) []).
Qed.

End sort.

(** Sorting by an injective key gives one list for every order of the input. *)
Lemma sort_by_key_perm {A K} (f : A → K) (Q : relation K) `{!∀ x y, Decision (Q x y)}
    `{!Transitive Q, !Total Q, !AntiSymm (=) Q} (l1 l2 : list A) :
  l1 ≡ₚ l2 → f <$> sort_by (λ a b, Q (f a) (f b)) l1 = f <$> sort_by (λ a b, Q (f a) (f b)) l2.
Proof.
  intros Hp.
  assert (Transitive (λ a b, Q (f a) (f b))) by (intros a b c ??; by trans (f b)).
  assert (Total (λ a b, Q (f a) (f b))) by (intros a b; apply (total Q)).
  apply (Sorted_unique Q); [| |by rewrite !sort_by_perm, Hp].
  1,2: eapply (Sorted_fmap f (λ a b, Q (f a) (f b))); [done|]; by apply sort_by_sorted.
Qed.

(** ** The order of strings: lexicographic on bytes *)

Definition string_le (s t : string) : Prop := String.leb s t = true.

#[global] Instance string_le_dec s t : Decision (string_le s t).
Proof. unfold string_le. apply _. Defined.

Lemma ascii_compare_N a b : Ascii.compare a b = N.compare (Ascii.N_of_ascii a) (Ascii.N_of_ascii b).
Proof. done. Qed.

Lemma string_le_cons a s b t :
  string_le (String a s) (String b t) ↔
  (Ascii.N_of_ascii a < Ascii.N_of_ascii b)%N ∨ a = b ∧ string_le s t.
Proof.
  unfold string_le, String.leb. simpl. rewrite ascii_compare_N.
  destruct (N.compare_spec (Ascii.N_of_ascii a) (Ascii.N_of_ascii b)) as [E|E|E].
  - assert (a = b) as -> by (rewrite <-(Ascii.ascii_N_embedding a), E; apply Ascii.ascii_N_embedding).
    split; [by right|]. intros [?|[_ ?]]; [lia|done].
  - naive_solver.
  - split; [done|]. intros [?|[-> ?]]; lia.
Qed.

#[global] Instance string_le_total : Total string_le.
Proof. intros s t. apply String.leb_total. Qed.
#[global] Instance string_le_antisymm : AntiSymm (=) string_le.
Proof. intros s t. apply String.leb_antisym. Qed.
#[global] Instance string_le_trans : Transitive string_le.
Proof.
  intros s. induction s as [|a s IH]; intros [|b t] [|c u]; try done.
  rewrite !string_le_cons. intros [?|[-> ?]] [?|[-> ?]]; [left; lia|by left..|]. right. eauto.
Qed.
