(* ===== verification/ClusterConfig.v ===== *)
(** * Cluster configuration

    [distributed/config.rs]: node roles, the configuration of a cluster and its
    validation, which accepts a pipeline of stages or a mesh of stages and ranks.
    Parsing the TOML text is not modelled: validation starts from the parsed value.
    Strings are UTF-8 bytes. *)

From S2P Require Import Prelude StableSort.

Inductive NodeRole :=
  | Prefill | Decode | PipelineStage | TensorParallelRank | PipelineTensorParallel | Hybrid.

#[global] Instance NodeRole_eq_dec : EqDecision NodeRole.
Proof. solve_decision. Defined.

Definition is_pp_tp (r : NodeRole) : bool := match r with PipelineTensorParallel => true | _ => false end.

Definition role_name (r : NodeRole) : string :=
  match r with
  | Prefill => "prefill" | Decode => "decode" | PipelineStage => "pipeline_stage"
  | TensorParallelRank => "tensor_parallel_rank" | PipelineTensorParallel => "pipeline_tensor_parallel"
  | Hybrid => "hybrid"
  end.

Inductive TransportBackend := Tcp | Thunderbolt | Rdma.

Record NodeResources := mkResources { memory_bytes : N; compute_units : N }.

Record NodeConfig := mkNode {
  node_id : string;
  address : string;
  role : NodeRole;
  stage : option N;
  rank : option N;
  resources : NodeResources;
}.

Record ClusterMeta := mkMeta {
  cluster_name : string;
  tensor_parallel_size : N;
  pipeline_parallel_size : N;
  transport_backend : TransportBackend;
}.

Record ClusterConfig := mkConfig { cluster : ClusterMeta; cfg_nodes : list NodeConfig }.

Definition MAX_ID_LENGTH : nat := 128.

Definition default_meta : ClusterMeta := mkMeta "mlxcel-cluster" 1 1 Tcp.

(** The peers of the command line are numbered by their position, skipped ones included. *)
Definition from_cli (id addr : string) (r : NodeRole) (peers : list string) : ClusterConfig :=
  mkConfig default_meta
    (mkNode id addr r None None (mkResources 0 0) ::
     omap (λ '(i, a), if decide (a = addr) then None
                      else Some (mkNode ("peer-" +:+ pretty (i : nat)) a Hybrid None None (mkResources 0 0)))
       (imap pair peers)).

(** ** Validation *)

Inductive ConfigError :=
  | NoNodes | NameTooLong | NameControl
  | IdEmpty | IdTooLong | IdControl (id : string) | DuplicateId (id : string)
  | DuplicateAddress (a : string)
  | PipelineSizeZero | PipelineCount (declared : N) (found : nat)
  | StageMissing (id : string) | StageRange (id : string) (s : N) | DuplicateStage (s : N) | NoStage (s : N)
  | StageForbidden (id : string) (s : N) (r : NodeRole)
  | TensorSizeZero | MeshOverflow (pp tp : N) | MeshCount (expected : N) (found : nat)
  | RankMissing (id : string) | RankRange (id : string) (k : N)
  | DuplicatePair (s k : N) | NoPair (s k : N)
  | RankForbidden (id : string) (k : N) (r : NodeRole).

(** [s.chars().any(|c| c.is_control())]: the code points 0-31 and 127, one byte each,
    and 128-159, encoded as C2 followed by the code point. *)
Fixpoint has_control (s : string) : bool :=
  match s with
  | EmptyString => false
  | String a s' =>
    let n := Ascii.N_of_ascii a in
    bool_decide (n < 32 ∨ n = 127)%N ||
    match s' with
    | String b _ => bool_decide (n = 194 ∧ (128 ≤ Ascii.N_of_ascii b < 160))%N
    | EmptyString => false
    end || has_control s'
  end.

(** A loop that computes a key of every element and inserts it into a set of keys seen. *)
Fixpoint check_distinct {E A K} `{Countable K} (f : A → outcome E K) (dup : K → E) (seen : gset K) (l : list A) :
    outcome E (gset K) :=
  match l with
  | [] => Ok seen
  | x :: l' => k ← f x; _ ← ensure (k ∉ seen) (dup k); check_distinct f dup ({[k]} ∪ seen) l'
  end.

Definition check_id (n : NodeConfig) : outcome ConfigError string :=
  _ ← ensure (node_id n ≠ EmptyString) IdEmpty;
  _ ← ensure (String.length (node_id n) ≤ MAX_ID_LENGTH) IdTooLong;
  _ ← ensure (has_control (node_id n) = false) (IdControl (node_id n));
  Ok (node_id n).

Definition pair_of (pp tp : N) (n : NodeConfig) : outcome ConfigError (N * N) :=
  s ← ok_or_err (stage n) (StageMissing (node_id n));
  k ← ok_or_err (rank n) (RankMissing (node_id n));
  _ ← ensure (s < pp)%N (StageRange (node_id n) s);
  _ ← ensure (k < tp)%N (RankRange (node_id n) k);
  Ok (s, k).

Definition no_coords (n : NodeConfig) : outcome ConfigError () :=
  if is_pp_tp (role n) then Ok tt
  else
    _ ← match stage n with
        | Some s => ensure (role n = PipelineStage) (StageForbidden (node_id n) s (role n))
        | None => Ok tt
        end;
    match rank n with
    | Some k => ensure (role n = TensorParallelRank) (RankForbidden (node_id n) k (role n))
    | None => Ok tt
    end.

(** [0..n] *)
Definition rangeN (n : N) : list N := N.of_nat <$> seq 0 (N.to_nat n).

Definition mesh_cells (pp tp : N) : list (N * N) := s ← rangeN pp; k ← rangeN tp; [(s, k)].

Definition validate_pp_tp_topology (c : ClusterConfig) (pp tp : N) : outcome ConfigError () :=
  _ ← ensure (0 < pp)%N PipelineSizeZero;
  _ ← ensure (0 < tp)%N TensorSizeZero;
  _ ← ensure (pp * tp ≤ u64_max)%N (MeshOverflow pp tp);
  let pptp := filter (λ n, is_pp_tp (role n) = true) (cfg_nodes c) in
  _ ← ensure (N.of_nat (length pptp) = pp * tp)%N (MeshCount (pp * tp) (length pptp));
  seen ← check_distinct (pair_of pp tp) (λ '(s, k), DuplicatePair s k) ∅ pptp;
  _ ← check_all (λ '(s, k), ensure ((s, k) ∈ seen) (NoPair s k)) (mesh_cells pp tp);
  check_all no_coords (cfg_nodes c).

Definition stage_of (pp : N) (n : NodeConfig) : outcome ConfigError N :=
  s ← ok_or_err (stage n) (StageMissing (node_id n));
  _ ← ensure (s < pp)%N (StageRange (node_id n) s);
  Ok s.

Definition no_stage (n : NodeConfig) : outcome ConfigError () :=
  if decide (role n ≠ PipelineStage) then
    match stage n with Some s => Err (StageForbidden (node_id n) s (role n)) | None => Ok tt end
  else Ok tt.

Definition validate_pipeline (c : ClusterConfig) (pp : N) : outcome ConfigError () :=
  let pipe := filter (λ n, role n = PipelineStage) (cfg_nodes c) in
  _ ← (if decide (pipe ≠ [] ∨ (1 < pp)%N) then
         _ ← ensure (0 < pp)%N PipelineSizeZero;
         _ ← ensure (N.of_nat (length pipe) = pp) (PipelineCount pp (length pipe));
         seen ← check_distinct (stage_of pp) DuplicateStage ∅ pipe;
         check_all (λ s, ensure (s ∈ seen) (NoStage s)) (rangeN pp)
       else Ok tt);
  check_all no_stage (cfg_nodes c).

(** Whether the mesh rules apply. *)
Definition is_mesh (c : ClusterConfig) : bool :=
  existsb (λ n, is_pp_tp (role n)) (cfg_nodes c) ||
  bool_decide (1 < pipeline_parallel_size (cluster c) ∧ 1 < tensor_parallel_size (cluster c))%N.

Definition validate (c : ClusterConfig) : outcome ConfigError () :=
  _ ← ensure (cfg_nodes c ≠ []) NoNodes;
  _ ← ensure (String.length (cluster_name (cluster c)) ≤ MAX_ID_LENGTH) NameTooLong;
  _ ← ensure (has_control (cluster_name (cluster c)) = false) NameControl;
  _ ← check_distinct check_id DuplicateId ∅ (cfg_nodes c);
  _ ← check_distinct (λ n, Ok (address n)) DuplicateAddress ∅ (cfg_nodes c);
  if is_mesh c then
    validate_pp_tp_topology c (pipeline_parallel_size (cluster c)) (tensor_parallel_size (cluster c))
  else validate_pipeline c (pipeline_parallel_size (cluster c)).

(** ** Lookups *)

Definition find_node (id : string) (c : ClusterConfig) : option NodeConfig :=
  head (filter (λ n, node_id n = id) (cfg_nodes c)).

Definition coord_le (f : NodeConfig → option N) : relation NodeConfig :=
  λ a b, (default u32_max (f a) ≤ default u32_max (f b))%N.

#[global] Instance coord_le_dec f a b : Decision (coord_le f a b).
Proof. unfold coord_le. apply _. Defined.

Definition pipeline_stage_nodes (c : ClusterConfig) : list NodeConfig :=
  sort_by (coord_le stage) (filter (λ n, role n = PipelineStage) (cfg_nodes c)).

Definition pipeline_stage_node (s : N) (c : ClusterConfig) : option NodeConfig :=
  head (filter (λ n, role n = PipelineStage ∧ stage n = Some s) (cfg_nodes c)).

Definition is_pp_tp_2d (c : ClusterConfig) : bool :=
  bool_decide (1 < pipeline_parallel_size (cluster c) ∧ 1 < tensor_parallel_size (cluster c))%N &&
  existsb (λ n, is_pp_tp (role n)) (cfg_nodes c).

(** Pairs are compared lexicographically. *)
Definition cell_le : relation NodeConfig := λ a b,
  (default u32_max (stage a) < default u32_max (stage b))%N ∨
  default u32_max (stage a) = default u32_max (stage b) ∧ coord_le rank a b.

#[global] Instance cell_le_dec a b : Decision (cell_le a b).
Proof. unfold cell_le. apply _. Defined.

Definition pp_tp_nodes (c : ClusterConfig) : list NodeConfig :=
  sort_by cell_le (filter (λ n, is_pp_tp (role n) = true) (cfg_nodes c)).

Definition pp_tp_node (s k : N) (c : ClusterConfig) : option NodeConfig :=
  head (filter (λ n, is_pp_tp (role n) = true ∧ stage n = Some s ∧ rank n = Some k) (cfg_nodes c)).

Definition pp_tp_nodes_at_stage (s : N) (c : ClusterConfig) : list NodeConfig :=
  sort_by (coord_le rank) (filter (λ n, is_pp_tp (role n) = true ∧ stage n = Some s) (cfg_nodes c)).

Definition pp_tp_nodes_at_rank (k : N) (c : ClusterConfig) : list NodeConfig :=
  sort_by (coord_le stage) (filter (λ n, is_pp_tp (role n) = true ∧ rank n = Some k) (cfg_nodes c)).
