(* ===== verification/ClusterNodes.v ===== *)
(** * Cluster membership and failure detection

    [distributed/registry.rs], [distributed/failure_detector.rs] and the parts of
    [distributed/heartbeat.rs] that keep state: the registry of nodes with their
    status, the detector that declares a node unreachable after too long a silence,
    and the service that feeds heartbeats to it. Time is a number of clock ticks; a
    [HashMap] is iterated in any order; an address is kept as it is printed. *)

From S2P Require Import Prelude StableSort ClusterConfig.

(** The order in which a map with string keys iterates. *)
Class StringOrder := {
  str_iter {V} : gmap string V → list (string * V);
  str_iter_perm {V} (m : gmap string V) : str_iter m ≡ₚ map_to_list m;
}.

(** ** Registered nodes *)

Inductive NodeStatus := Online | Unreachable | Joining.

#[global] Instance NodeStatus_eq_dec : EqDecision NodeStatus.
Proof. solve_decision. Defined.

Record RegisteredNode := mkRegistered { node_config : NodeConfig; node_status : NodeStatus }.

(** ** The registry *)

Record NodeRegistry := mkRegistry {
  meta : ClusterMeta;
  nodes : gmap string RegisteredNode;
  local_node_id : string;
}.

Definition with_nodes (f : gmap string RegisteredNode → gmap string RegisteredNode) (r : NodeRegistry) : NodeRegistry :=
  mkRegistry (meta r) (f (nodes r)) (local_node_id r).

Definition upsert_node (c : NodeConfig) (st : NodeStatus) : NodeRegistry → NodeRegistry :=
  with_nodes <[node_id c := mkRegistered c st]>.

Definition from_config (c : ClusterConfig) (local : string) : NodeRegistry :=
  foldl (λ r c, upsert_node c (if decide (node_id c = local) then Online else Joining) r)
    (mkRegistry (cluster c) ∅ local) (cfg_nodes c).

Definition node_count (r : NodeRegistry) : nat := size (nodes r).

Definition get_node (id : string) (r : NodeRegistry) : option RegisteredNode := nodes r !! id.

Definition set_node_status (id : string) (st : NodeStatus) (r : NodeRegistry) : NodeRegistry * bool :=
  match nodes r !! id with
  | Some n => (with_nodes <[id := mkRegistered (node_config n) st]> r, true)
  | None => (r, false)
  end.

Definition remove_node (id : string) (r : NodeRegistry) : NodeRegistry * option RegisteredNode :=
  (with_nodes (delete id) r, nodes r !! id).

Definition update_resources (id : string) (res : NodeResources) (r : NodeRegistry) : NodeRegistry * bool :=
  match nodes r !! id with
  | Some n =>
    let c := node_config n in
    (with_nodes <[id := mkRegistered (mkNode (node_id c) (address c) (role c) (stage c) (rank c) res) (node_status n)]> r,
     true)
  | None => (r, false)
  end.

Section queries.
Context {O : StringOrder}.

Definition all_nodes (r : NodeRegistry) : list RegisteredNode := snd <$> str_iter (nodes r).

Definition nodes_with_role (x : NodeRole) (r : NodeRegistry) : list RegisteredNode :=
  filter (λ n, role (node_config n) = x) (all_nodes r).

Definition find_pp_tp_node (s k : N) (r : NodeRegistry) : option RegisteredNode :=
  head (filter (λ n, is_pp_tp (role (node_config n)) = true ∧ stage (node_config n) = Some s ∧
                     rank (node_config n) = Some k) (all_nodes r)).

(** The peers of one pipeline stage by rank, and of one rank by stage. *)
Definition by_coord (f : NodeConfig → option N) : relation RegisteredNode :=
  λ a b, (default u32_max (f (node_config a)) ≤ default u32_max (f (node_config b)))%N.

#[global] Instance by_coord_dec f a b : Decision (by_coord f a b).
Proof. unfold by_coord. apply _. Defined.

Definition nodes_at_stage (s : N) (r : NodeRegistry) : list RegisteredNode :=
  sort_by (by_coord rank)
    (filter (λ n, is_pp_tp (role (node_config n)) = true ∧ stage (node_config n) = Some s) (all_nodes r)).

Definition nodes_at_rank (k : N) (r : NodeRegistry) : list RegisteredNode :=
  sort_by (by_coord stage)
    (filter (λ n, is_pp_tp (role (node_config n)) = true ∧ rank (node_config n) = Some k) (all_nodes r)).

Definition peer_addresses (r : NodeRegistry) : list string :=
  (λ n, address (node_config n)) <$> filter (λ n, node_id (node_config n) ≠ local_node_id r) (all_nodes r).

End queries.

Definition local_pp_tp_coords (r : NodeRegistry) : option (N * N) :=
  n ← nodes r !! local_node_id r;
  if is_pp_tp (role (node_config n)) then s ← stage (node_config n); k ← rank (node_config n); Some (s, k) else None.

(** ** Failure detection *)

Record FailureDetectorConfig := mkDetectorConfig { heartbeat_interval : nat; failure_threshold : nat }.

(** [Duration * u32] panics past 2^64 seconds, which no configuration reaches. *)
Definition failure_timeout (c : FailureDetectorConfig) : nat := heartbeat_interval c * failure_threshold c.

Record FailureEvent := mkEvent { ev_node : string; previous_status : NodeStatus; new_status : NodeStatus; ev_time : nat }.

Record NodeHeartbeatState := mkHeartbeat { last_heartbeat : nat; missed_count : N; notified_failed : bool }.

Record FailureDetector := mkDetector { fd_config : FailureDetectorConfig; monitored : gmap string NodeHeartbeatState }.

Definition register_node (now : nat) (id : string) (d : FailureDetector) : FailureDetector :=
  mkDetector (fd_config d) (<[id := mkHeartbeat now 0 false]> (monitored d)).

Definition unregister_node (id : string) (d : FailureDetector) : FailureDetector :=
  mkDetector (fd_config d) (delete id (monitored d)).

Definition record_heartbeat (now : nat) (id : string) (d : FailureDetector) : FailureDetector :=
  match monitored d !! id with
  | Some e => mkDetector (fd_config d) (<[id := mkHeartbeat now 0 (notified_failed e)]> (monitored d))
  | None => d
  end.

Definition is_node_failed (id : string) (d : FailureDetector) : bool :=
  match monitored d !! id with Some e => notified_failed e | None => false end.

(** What a check has done so far. *)
Record CheckState := mkCheck {
  ck_entries : gmap string NodeHeartbeatState;
  ck_registry : NodeRegistry;
  ck_failed : list string;
  ck_events : list FailureEvent;
}.

(** One turn of the loop of [check_failures]. [missed_count] wraps at 32 bits. *)
Definition check_node (now timeout : nat) (k : CheckState) (x : string * NodeHeartbeatState) : CheckState :=
  let '(id, e) := x in
  if decide (timeout < now - last_heartbeat e) then
    let missed := as_u32 (missed_count e + 1) in
    if notified_failed e then
      mkCheck (<[id := mkHeartbeat (last_heartbeat e) missed true]> (ck_entries k)) (ck_registry k) (ck_failed k) (ck_events k)
    else
      let prev := match get_node id (ck_registry k) with Some n => node_status n | None => Online end in
      mkCheck (<[id := mkHeartbeat (last_heartbeat e) missed true]> (ck_entries k))
        (set_node_status id Unreachable (ck_registry k)).1 (ck_failed k ++ [id])
        (ck_events k ++ [mkEvent id prev Unreachable now])
  else if notified_failed e then
    mkCheck (<[id := mkHeartbeat (last_heartbeat e) 0 false]> (ck_entries k))
      (set_node_status id Online (ck_registry k)).1 (ck_failed k)
      (ck_events k ++ [mkEvent id Unreachable Online now])
  else k.

Definition check_failures `{StringOrder} (now : nat) (d : FailureDetector) (r : NodeRegistry) :
    FailureDetector * NodeRegistry * list FailureEvent * list string :=
  let k := foldl (check_node now (failure_timeout (fd_config d))) (mkCheck (monitored d) r [] []) (str_iter (monitored d)) in
  (mkDetector (fd_config d) (ck_entries k), ck_registry k, ck_events k, ck_failed k).

(** ** The heartbeat service

    The bytes of a heartbeat are parsed by [serde_json]: a parameter. *)

Record HeartbeatPayload := mkPayload { hb_node_id : string; sequence : N }.

Definition MAX_NODE_ID_LEN : nat := 256.

Record HeartbeatService := mkService { hb_registry : NodeRegistry; failure_detector : FailureDetector }.

Section service.
Context `{O : StringOrder} {Bytes : Type} (from_slice : Bytes → option HeartbeatPayload).

Definition heartbeat_new (c : FailureDetectorConfig) (r : NodeRegistry) (now : nat) : HeartbeatService :=
  mkService r
    (foldl (λ d n, if decide (node_id (node_config n) ≠ local_node_id r)
                   then register_node now (node_id (node_config n)) d else d)
       (mkDetector c ∅) (all_nodes r)).

Definition process_incoming_heartbeat (now : nat) (b : Bytes) (s : HeartbeatService) : HeartbeatService :=
  match from_slice b with
  | Some p =>
    if decide (hb_node_id p = EmptyString ∨ MAX_NODE_ID_LEN < String.length (hb_node_id p)) then s
    else mkService (hb_registry s) (record_heartbeat now (hb_node_id p) (failure_detector s))
  | None => s
  end.

(** What happens to a service: a message arrives, the checker's timer ticks, or another task
    writes a status into the registry it shares (discovery, a router that probes its peers or
    fails to send to one). *)
Inductive hb_event :=
  | HbReceive (now : nat) (b : Bytes)
  | HbCheck (now : nat)
  | HbWrite (id : string) (st : NodeStatus).

Definition hb_step (k : HeartbeatService * list FailureEvent) (e : hb_event) : HeartbeatService * list FailureEvent :=
  let '(s, evs) := k in
  match e with
  | HbReceive now b => (process_incoming_heartbeat now b s, evs)
  | HbCheck now =>
    let '(d, r, new, _) := check_failures now (failure_detector s) (hb_registry s) in
    (mkService r d, evs ++ new)
  | HbWrite id st => (mkService (set_node_status id st (hb_registry s)).1 (failure_detector s), evs)
  end.

Definition hb_run (s : HeartbeatService) (log : list hb_event) : HeartbeatService * list FailureEvent :=
  foldl hb_step (s, []) log.

End service.

(** ** Iteration *)

Section iteration.
Context `{O : StringOrder}.

Lemma str_iter_NoDup {V} (m : gmap string V) : NoDup (str_iter m).*1.
Proof. rewrite str_iter_perm. apply NoDup_fst_map_to_list. Qed.

Lemma elem_of_str_iter {V} (m : gmap string V) id e : (id, e) ∈ str_iter m ↔ m !! id = Some e.
Proof. by rewrite str_iter_perm, elem_of_map_to_list. Qed.

Lemma str_iter_to_map {V} (m : gmap string V) : list_to_map (str_iter m) = m.
Proof.
  rewrite <-(list_to_map_to_list m) at 2. apply list_to_map_proper; [apply str_iter_NoDup|apply str_iter_perm].
Qed.

End iteration.
