(* ===== verification/ClusterMonitor.v ===== *)
(** * Failure detection is exact

    What one check of [ClusterNodes.check_failures] does, node by node, whatever the
    order in which the monitored nodes are visited, and what the heartbeat service
    reports over a whole run. *)

From S2P Require Import Prelude StableSort ClusterConfig ClusterNodes.

Section check.
Context (now timeout : nat).

Definition is_silent (e : NodeHeartbeatState) : bool := bool_decide (timeout < now - last_heartbeat e).

(** One node's share of a check. *)
Definition after_check (e : NodeHeartbeatState) : NodeHeartbeatState :=
  if is_silent e then mkHeartbeat (last_heartbeat e) (as_u32 (missed_count e + 1)) true
  else if notified_failed e then mkHeartbeat (last_heartbeat e) 0 false
  else e.

Definition after_status (e : NodeHeartbeatState) (st : NodeStatus) : NodeStatus :=
  match is_silent e, notified_failed e with
  | true, false => Unreachable
  | false, true => Online
  | _, _ => st
  end.

Definition node_events (id : string) (e : NodeHeartbeatState) (n : option RegisteredNode) : list FailureEvent :=
  match is_silent e, notified_failed e with
  | true, false => [mkEvent id (match n with Some n => node_status n | None => Online end) Unreachable now]
  | false, true => [mkEvent id Unreachable Online now]
  | _, _ => []
  end.

Definition update_status (f : NodeStatus → NodeStatus) (n : RegisteredNode) : RegisteredNode :=
  mkRegistered (node_config n) (f (node_status n)).

Lemma update_status_id n : update_status id n = n.
Proof. by destruct n. Qed.

Lemma set_node_status_nodes id st r id' :
  nodes (set_node_status id st r).1 !! id' =
  (if decide (id = id') then update_status (λ _, st) <$> nodes r !! id' else nodes r !! id').
Proof.
  unfold set_node_status. destruct (nodes r !! id) as [n|] eqn:E; simpl; case_decide; subst; rewrite ?E; try done.
  - by rewrite lookup_insert_eq.
  - by rewrite lookup_insert_ne.
Qed.

Lemma set_node_status_local id st r : local_node_id (set_node_status id st r).1 = local_node_id r.
Proof. unfold set_node_status. by destruct (nodes r !! id). Qed.

Lemma check_node_local k x : local_node_id (ck_registry (check_node now timeout k x)) = local_node_id (ck_registry k).
Proof.
  destruct x as [id e]. unfold check_node. repeat case_match; simpl; by rewrite ?set_node_status_local.
Qed.

Lemma check_node_spec k id e :
  ck_entries k !! id = Some e →
  let k' := check_node now timeout k (id, e) in
  ck_entries k' = <[id := after_check e]> (ck_entries k) ∧
  (∀ id', nodes (ck_registry k') !! id' =
     if decide (id = id') then update_status (after_status e) <$> nodes (ck_registry k) !! id'
     else nodes (ck_registry k) !! id') ∧
  ck_failed k' = ck_failed k ++ (if is_silent e && negb (notified_failed e) then [id] else []) ∧
  ck_events k' = ck_events k ++ node_events id e (nodes (ck_registry k) !! id).
Proof.
  intros He. unfold check_node, after_check, after_status, node_events, is_silent, get_node.
  case_bool_decide as Hs; simpl; rewrite ?(decide_True _ _ Hs), ?(decide_False _ _ Hs);
    destruct (notified_failed e) eqn:Hn; simpl; rewrite ?app_nil_r;
    (split; [done || by rewrite insert_id|split; [|done]]); intros id'; rewrite ?set_node_status_nodes;
    case_decide; try done; destruct (nodes (ck_registry k) !! id') as [[]|]; done.
Qed.

Lemma check_fold_spec l : ∀ k,
  NoDup l.*1 → (∀ id e, (id, e) ∈ l → ck_entries k !! id = Some e) →
  let k' := foldl (check_node now timeout) k l in
  let m : gmap string NodeHeartbeatState := list_to_map l in
  (∀ id, ck_entries k' !! id = match m !! id with Some e => Some (after_check e) | None => ck_entries k !! id end) ∧
  (∀ id, nodes (ck_registry k') !! id =
     match m !! id with
     | Some e => update_status (after_status e) <$> nodes (ck_registry k) !! id
     | None => nodes (ck_registry k) !! id
     end) ∧
  local_node_id (ck_registry k') = local_node_id (ck_registry k) ∧
  ck_failed k' = ck_failed k ++ (l ≫= λ x, if is_silent x.2 && negb (notified_failed x.2) then [x.1] else []) ∧
  ck_events k' = ck_events k ++ (l ≫= λ x, node_events x.1 x.2 (nodes (ck_registry k) !! x.1)).
Proof.
  induction l as [|[id e] l IH]; intros k Hnd Hin; simpl.
  { by rewrite !app_nil_r. }
  apply NoDup_cons in Hnd as [Hni Hnd]. simpl in Hni.
  destruct (check_node_spec k id e) as (E1 & E2 & E3 & E4); [apply Hin; set_solver|].
  pose proof (check_node_local k (id, e)) as E5.
  set (k1 := check_node now timeout k (id, e)) in *.
  assert (Hne : ∀ x, x ∈ l → x.1 ≠ id) by (intros x Hx <-; apply Hni, list_elem_of_fmap; eauto).
  destruct (IH k1 Hnd) as (I1 & I2 & I3 & I4 & I5).
  { intros id' e' Hl. rewrite E1, lookup_insert_ne; [apply Hin; set_solver|]. intros ->. by apply (Hne _ Hl). }
  assert (Hm : (list_to_map l : gmap string NodeHeartbeatState) !! id = None)
    by (by apply not_elem_of_list_to_map_1).
  split_and!.
  - intros id'. rewrite I1, E1. destruct (decide (id = id')) as [<-|Hx].
    + by rewrite Hm, !lookup_insert_eq.
    + by rewrite !lookup_insert_ne.
  - intros id'. rewrite I2, E2. destruct (decide (id = id')) as [<-|Hx].
    + by rewrite Hm, lookup_insert_eq.
    + by rewrite lookup_insert_ne.
  - exact (eq_trans I3 E5).
  - etrans; [exact I4|]. by rewrite E3, <-app_assoc.
  - etrans; [exact I5|]. rewrite E4, <-app_assoc. do 2 f_equal. apply Forall_bind_ext, Forall_forall.
    intros x Hx. rewrite E2, decide_False; [done|]. intros ->. by apply (Hne _ Hx).
Qed.

End check.

Section exact.
Context `{O : StringOrder}.

(** One check: every monitored node is treated alone, whatever the order of the visits. *)
Lemma check_failures_spec now d r d' r' evs failed :
  check_failures now d r = (d', r', evs, failed) →
  let t := failure_timeout (fd_config d) in
  fd_config d' = fd_config d ∧
  monitored d' = after_check now t <$> monitored d ∧
  (∀ id, nodes r' !! id =
     match monitored d !! id with
     | Some e => update_status (after_status now t e) <$> nodes r !! id
     | None => nodes r !! id
     end) ∧
  local_node_id r' = local_node_id r ∧
  failed = (str_iter (monitored d) ≫= λ x, if is_silent now t x.2 && negb (notified_failed x.2) then [x.1] else []) ∧
  evs = (str_iter (monitored d) ≫= λ x, node_events now t x.1 x.2 (nodes r !! x.1)).
Proof.
  intros [= <- <- <- <-]. simpl.
  destruct (check_fold_spec now (failure_timeout (fd_config d)) (str_iter (monitored d))
              (mkCheck (monitored d) r [] [])) as (H1 & H2 & H3 & H4 & H5).
  { apply str_iter_NoDup. }
  { intros id e. by rewrite elem_of_str_iter. }
  rewrite str_iter_to_map in H1, H2. split_and!; try done.
  apply map_eq. intros id. rewrite H1, lookup_fmap. simpl. by destruct (monitored d !! id).
Qed.

(** The events of one node are those of its own entry. *)
Lemma check_events_of now d r d' r' evs failed id :
  check_failures now d r = (d', r', evs, failed) →
  filter (λ e, ev_node e = id) evs =
  match monitored d !! id with
  | Some e => node_events now (failure_timeout (fd_config d)) id e (nodes r !! id)
  | None => []
  end.
Proof.
  intros (_ & _ & _ & _ & _ & ->)%check_failures_spec.
  rewrite <-(str_iter_to_map (monitored d)) at 2.
  pose proof (str_iter_NoDup (monitored d)) as Hnd. revert Hnd.
  generalize (str_iter (monitored d)) as l. intros l.
  induction l as [|[i e] l IH]; [done|].
  intros [Hni Hnd]%NoDup_cons. rewrite bind_cons, filter_app, (IH Hnd).
  assert (Hev : ∀ i' n, Forall (λ x, ev_node x = i') (node_events now (failure_timeout (fd_config d)) i' e n))
    by (intros; unfold node_events; repeat case_match; repeat constructor).
  destruct (decide (i = id)) as [->|Hi].
  - cbn [list_to_map foldr]. rewrite lookup_insert_eq, (not_elem_of_list_to_map_1 l id), app_nil_r by done.
    apply filter_all, Hev.
  - cbn [list_to_map foldr]. rewrite lookup_insert_ne by done.
    rewrite filter_none; [done|]. eapply Forall_impl; [apply Hev|]. by intros x ->.
Qed.

End exact.

(** ** Runs of the heartbeat service *)

(** The registry files every node under its own id; the operations keep it so. *)
Definition registry_wf (r : NodeRegistry) : Prop :=
  map_Forall (λ id n, node_id (node_config n) = id) (nodes r).

Lemma upsert_node_wf c st r : registry_wf r → registry_wf (upsert_node c st r).
Proof. intros H. by apply map_Forall_insert_2. Qed.

Lemma from_config_wf c local : registry_wf (from_config c local).
Proof.
  unfold from_config.
  assert (H : registry_wf (mkRegistry (cluster c) ∅ local)) by apply map_Forall_empty. revert H.
  generalize (mkRegistry (cluster c) ∅ local).
  induction (cfg_nodes c); intros r H; simpl; auto using upsert_node_wf.
Qed.

(** Failures and recoveries in turn, beginning with a failure. *)
Definition status_trace (k : nat) : list NodeStatus :=
  (λ i, if Nat.even i then Unreachable else Online) <$> seq 0 k.

Lemma status_trace_S k : status_trace (S k) = status_trace k ++ [if Nat.odd k then Online else Unreachable].
Proof. unfold status_trace. rewrite seq_S, fmap_app. simpl. unfold Nat.odd. by destruct (Nat.even k). Qed.

Section runs.
Context `{O : StringOrder} {Bytes : Type} (from_slice : Bytes → option HeartbeatPayload).
Context (c : FailureDetectorConfig) (r0 : NodeRegistry) (t0 : nat).
Local Notation service0 := (heartbeat_new c r0 t0).

(** The time of the last accepted heartbeat of a node in a log. *)
Definition accepted_from (b : Bytes) : option string :=
  p ← from_slice b;
  if decide (hb_node_id p = EmptyString ∨ MAX_NODE_ID_LEN < String.length (hb_node_id p)) then None
  else Some (hb_node_id p).

Definition seen_step (id : string) (t : nat) (e : @hb_event Bytes) : nat :=
  match e with
  | HbReceive now b => if decide (accepted_from b = Some id) then now else t
  | HbCheck _ | HbWrite _ _ => t
  end.

Definition last_seen (id : string) (log : list (@hb_event Bytes)) : nat := foldl (seen_step id) t0 log.

(** No other task writes the status of [id]. *)
Definition unwritten (id : string) (log : list (@hb_event Bytes)) : Prop := ∀ st, HbWrite id st ∉ log.

(** The status after [k] reports: that of the registry before the first one. *)
Definition reported (st0 : NodeStatus) (k : nat) : NodeStatus :=
  match k with 0 => st0 | _ => if Nat.odd k then Unreachable else Online end.

(** What the service knows of the peer [id] of the initial registry, registered there as [n]. *)
Record peer_inv (id : string) (n : RegisteredNode) (log : list (@hb_event Bytes))
    (s : HeartbeatService) (evs : list FailureEvent) (k : nat) : Prop := {
  pi_config : fd_config (failure_detector s) = c;
  pi_entry : ∃ m, monitored (failure_detector s) !! id = Some (mkHeartbeat (last_seen id log) m (Nat.odd k));
  pi_status : ∃ st, nodes (hb_registry s) !! id = Some (mkRegistered (node_config n) st) ∧
                    (unwritten id log → st = reported (node_status n) k);
  pi_events : new_status <$> filter (λ e, ev_node e = id) evs = status_trace k;
}.

Lemma heartbeat_new_config : fd_config (failure_detector service0) = c.
Proof.
  unfold heartbeat_new. simpl.
  change c with (fd_config (mkDetector c ∅)) at 2. generalize (mkDetector c ∅) as d.
  induction (all_nodes r0) as [|n l IH]; intros d; [done|]. simpl. rewrite IH. by case_decide.
Qed.

Lemma register_peers_monitored (l : list (string * RegisteredNode)) id d :
  (∀ i n, (i, n) ∈ l → node_id (node_config n) = i) →
  monitored (foldl (λ d n, if decide (node_id (node_config n) ≠ local_node_id r0)
                           then register_node t0 (node_id (node_config n)) d else d) d l.*2) !! id =
  if decide (id ≠ local_node_id r0 ∧ id ∈ l.*1) then Some (mkHeartbeat t0 0 false) else monitored d !! id.
Proof.
  intros Hl. revert d. induction l as [|[i n] l IH]; intros d.
  { rewrite decide_False; [done|]. intros [_ ?%elem_of_nil]. done. }
  cbn [fmap list_fmap foldl fst snd]. rewrite IH; [|intros; apply Hl; set_solver].
  rewrite (Hl i n) by set_solver. simpl.
  destruct (decide (i = id)) as [->|Hi].
  - destruct (decide (id ≠ local_node_id r0)) as [Hx|Hx].
    + simpl. rewrite lookup_insert_eq, (decide_True (P := _ ∧ id ∈ id :: _)) by set_solver. by case_decide.
    + rewrite !decide_False; [done|tauto..].
  - rewrite (decide_ext (id ≠ local_node_id r0 ∧ id ∈ i :: l.*1) (id ≠ local_node_id r0 ∧ id ∈ l.*1)) by set_solver.
    case_decide; [done|]. case_decide; [|done]. simpl. by rewrite lookup_insert_ne.
Qed.

Lemma heartbeat_new_monitored :
  registry_wf r0 → ∀ id, monitored (failure_detector service0) !! id =
    if decide (id ≠ local_node_id r0 ∧ is_Some (nodes r0 !! id)) then Some (mkHeartbeat t0 0 false) else None.
Proof.
  intros Hwf id. unfold heartbeat_new, all_nodes. simpl.
  rewrite register_peers_monitored; [|intros i n Hn; apply elem_of_str_iter in Hn; exact (Hwf _ _ Hn)].
  apply decide_ext. enough (is_Some (nodes r0 !! id) ↔ id ∈ (str_iter (nodes r0)).*1) as -> by done.
  rewrite list_elem_of_fmap. split.
  - intros [n Hn]. exists (id, n). by rewrite elem_of_str_iter.
  - intros ([i n] & -> & Hn). apply elem_of_str_iter in Hn. by eauto.
Qed.

Lemma process_incoming_eq now b s :
  process_incoming_heartbeat from_slice now b s =
  mkService (hb_registry s)
    (match accepted_from b with
     | Some id => record_heartbeat now id (failure_detector s)
     | None => failure_detector s
     end).
Proof.
  unfold process_incoming_heartbeat, accepted_from. destruct (from_slice b) as [p|]; simpl; [|by destruct s].
  case_decide; [by destruct s|done].
Qed.

Lemma record_heartbeat_monitored now i d id :
  monitored (record_heartbeat now i d) !! id =
  if decide (i = id) then (λ e, mkHeartbeat now 0 (notified_failed e)) <$> monitored d !! id else monitored d !! id.
Proof.
  unfold record_heartbeat. destruct (monitored d !! i) eqn:E; simpl; case_decide; subst; rewrite ?E; try done.
  - by rewrite lookup_insert_eq.
  - by rewrite lookup_insert_ne.
Qed.

Lemma unwritten_app id log log' : unwritten id (log ++ log') → unwritten id log.
Proof. intros Hu st Hin. apply (Hu st). set_solver. Qed.

Lemma peer_inv_receive id n log s evs k now b :
  peer_inv id n log s evs k →
  peer_inv id n (log ++ [HbReceive now b]) (process_incoming_heartbeat from_slice now b s) evs k.
Proof.
  intros [Hc [m Hm] Hst Hev]. rewrite process_incoming_eq. constructor; simpl; try done.
  - destruct (accepted_from b); [|done]. unfold record_heartbeat. by case_match.
  - unfold last_seen. rewrite foldl_app. simpl. fold (last_seen id log).
    destruct (accepted_from b) as [i|] eqn:E; [|rewrite decide_False by done; eauto].
    rewrite record_heartbeat_monitored, Hm. destruct (decide (i = id)) as [->|].
    + rewrite decide_True by done. simpl. eauto.
    + rewrite decide_False by congruence. eauto.
  - destruct Hst as (st & H1 & H2). exists st. split; [done|]. intros Hw. apply H2. eapply unwritten_app, Hw.
Qed.

Lemma peer_inv_write id n log s evs k i st :
  peer_inv id n log s evs k →
  peer_inv id n (log ++ [HbWrite i st]) (mkService (set_node_status i st (hb_registry s)).1 (failure_detector s)) evs k.
Proof.
  intros [Hc Hm (st0 & Hst & Hw) Hev]. constructor; simpl; try done.
  - unfold last_seen. rewrite foldl_app. exact Hm.
  - rewrite set_node_status_nodes, Hst. destruct (decide (i = id)) as [->|Hne].
    + exists st. split; [done|]. intros Hu. exfalso. apply (Hu st). set_solver.
    + exists st0. split; [done|]. intros Hu. eapply Hw, unwritten_app, Hu.
Qed.

Lemma peer_inv_check id n log s evs k now d r new failed :
  check_failures now (failure_detector s) (hb_registry s) = (d, r, new, failed) →
  peer_inv id n log s evs k →
  let silent := bool_decide (failure_timeout c < now - last_seen id log) in
  peer_inv id n (log ++ [HbCheck now]) (mkService r d) (evs ++ new)
    (if eqb silent (Nat.odd k) then k else S k).
Proof.
  intros Hck [Hc [m Hm] (st & Hst & Hu) Hev] silent.
  destruct (check_failures_spec _ _ _ _ _ _ _ Hck) as (E1 & E2 & E3 & _).
  pose proof (check_events_of _ _ _ _ _ _ _ id Hck) as E4. rewrite Hm, Hc in *.
  specialize (E3 id). rewrite Hm, Hst in E3.
  assert (Hseen : last_seen id (log ++ [HbCheck now]) = last_seen id log)
    by (unfold last_seen; by rewrite foldl_app).
  unfold after_status, node_events, is_silent in *. simpl in *. fold silent in E3, E4.
  constructor; simpl; rewrite ?Hseen, ?E2, ?lookup_fmap, ?Hm, ?E3, ?filter_app, ?fmap_app, ?E4; simpl.
  - by rewrite E1.
  - unfold after_check, is_silent. simpl. fold silent.
    destruct silent, (Nat.odd k) eqn:Ek; simpl; rewrite ?Nat.odd_succ, <-?Nat.negb_odd, ?Ek; eauto.
  - eexists. split; [done|]. intros Hw%unwritten_app. specialize (Hu Hw). unfold reported in *.
    destruct silent, k as [|k]; simpl in *; rewrite ?Nat.odd_succ, ?Nat.even_succ, <-?Nat.negb_odd in *; simpl; try done;
      destruct (Nat.odd k) eqn:Ek; simpl in *; rewrite ?Nat.odd_succ, ?Nat.even_succ, <-?Nat.negb_odd, ?Ek; done.
  - rewrite Hev. destruct silent, (Nat.odd k) eqn:Ek; simpl; rewrite ?app_nil_r, ?status_trace_S, ?Ek; done.
Qed.

Lemma hb_run_snoc s log e :
  hb_run from_slice s (log ++ [e]) = hb_step from_slice (hb_run from_slice s log) e.
Proof. unfold hb_run. by rewrite foldl_app. Qed.

Lemma peer_inv_run id n log :
  registry_wf r0 → nodes r0 !! id = Some n → id ≠ local_node_id r0 →
  ∃ k, let '(s, evs) := hb_run from_slice service0 log in peer_inv id n log s evs k.
Proof.
  intros Hwf Hn Hl. induction log as [|e log [k IH]] using rev_ind.
  - exists 0. simpl. constructor; simpl; [apply heartbeat_new_config| | |done].
    + exists 0%N. by rewrite heartbeat_new_monitored, decide_True by (by rewrite ?Hn).
    + exists (node_status n). rewrite Hn. by destruct n.
  - rewrite hb_run_snoc. destruct (hb_run _ _ log) as [s evs]. destruct e as [now b|now|i st]; cbn [hb_step].
    3: { exists k. by apply peer_inv_write. }
    + exists k. by apply peer_inv_receive.
    + destruct (check_failures now (failure_detector s) (hb_registry s)) as [[[d r] new] failed] eqn:E.
      eexists. by eapply peer_inv_check.
Qed.

(** A node that is not monitored is left alone. *)
Record unmonitored_inv (id : string) (log : list (@hb_event Bytes)) (s : HeartbeatService) (evs : list FailureEvent) : Prop := {
  ui_entry : monitored (failure_detector s) !! id = None;
  ui_node : unwritten id log → nodes (hb_registry s) !! id = nodes r0 !! id;
  ui_events : filter (λ e, ev_node e = id) evs = [];
}.

Lemma unmonitored_inv_run id log :
  registry_wf r0 → id = local_node_id r0 ∨ nodes r0 !! id = None →
  let '(s, evs) := hb_run from_slice service0 log in unmonitored_inv id log s evs.
Proof.
  intros Hwf Hid. induction log as [|e log IH] using rev_ind.
  - constructor; [|done..]. simpl. rewrite heartbeat_new_monitored by done. apply decide_False.
    intros [? [? ?]]. naive_solver.
  - rewrite hb_run_snoc. destruct (hb_run _ _ log) as [s evs]. destruct IH as [H1 H2 H3].
    destruct e as [now b|now|i st]; cbn [hb_step].
    3: { constructor; simpl; [done| |done]. intros Hw. rewrite set_node_status_nodes.
         rewrite decide_False; [apply H2; eapply unwritten_app, Hw|]. intros ->. apply (Hw st). set_solver. }
    + rewrite process_incoming_eq. constructor; simpl; [|intros Hw; apply H2; eapply unwritten_app, Hw|done].
      destruct (accepted_from b); [|done]. rewrite record_heartbeat_monitored, H1. by case_decide.
    + destruct (check_failures now (failure_detector s) (hb_registry s)) as [[[d r] new] failed] eqn:E.
      pose proof (check_events_of _ _ _ _ _ _ _ id E) as E4.
      destruct (check_failures_spec _ _ _ _ _ _ _ E) as (_ & E2 & E3 & _).
      rewrite H1 in E4. specialize (E3 id). rewrite H1 in E3.
      split; simpl; [by rewrite E2, lookup_fmap, H1|intros Hw%unwritten_app; rewrite E3; by apply H2|by rewrite filter_app, H3, E4].
Qed.

End runs.

(** C40. The heartbeat service detects failures exactly. In any run of a service over a registry
    that files every node under its id, as every registry the code builds does (messages from
    any sender, malformed ones included, checks, in any order of visiting the nodes, and statuses
    that other tasks write into the shared registry), right after a check the detector counts a
    peer as failed exactly when its last accepted heartbeat (or the start of the service) is more
    than the failure timeout ago, and the events sent for the peer are failures and recoveries in
    turn, beginning with a failure and ending with one exactly when the peer is failed. The
    registry's status of a peer that no other task writes is the last one reported, and the
    initial one while nothing was reported. So it is [Unreachable] exactly when the peer is silent
    if it was not [Unreachable] from the start; a peer that discovery found unreachable stays
    so, in spite of timely heartbeats, until the detector has missed it and seen it again
    ([discovered_down_stays_down]). The local node is never reported, and its status not
    touched. *)
Theorem heartbeat_detection_exact `{StringOrder} {Bytes} (from_slice : Bytes → option HeartbeatPayload)
    c r0 t0 log t id n :
  registry_wf r0 → nodes r0 !! id = Some n →
  let '(s, evs) := hb_run from_slice (heartbeat_new c r0 t0) (log ++ [HbCheck t]) in
  let mine := filter (λ e, ev_node e = id) evs in
  let silent := failure_timeout c < t - last_seen from_slice t0 id log in
  if decide (id = local_node_id r0) then mine = [] ∧ (unwritten id log → get_node id (hb_registry s) = Some n)
  else
    ∃ st k, get_node id (hb_registry s) = Some (mkRegistered (node_config n) st) ∧
      is_node_failed id (failure_detector s) = bool_decide silent ∧
      new_status <$> mine = status_trace k ∧ Nat.odd k = bool_decide silent ∧
      (unwritten id log → st = reported (node_status n) k ∧ (node_status n ≠ Unreachable → st = Unreachable ↔ silent)).
Proof.
  intros Hwf Hn.
  assert (unwritten id log → unwritten id (log ++ [HbCheck t])) as Hsnoc.
  { intros Hw st [?|?]%elem_of_app; [by apply (Hw st)|set_solver]. }
  destruct (decide (id = local_node_id r0)) as [Hl|Hl].
  - pose proof (unmonitored_inv_run from_slice c r0 t0 id (log ++ [HbCheck t]) Hwf (or_introl Hl)) as Hi.
    destruct (hb_run _ _ _) as [s evs]. destruct Hi as [H1 H2 H3]. split; [done|]. intros Hw. rewrite <-Hn. by apply H2, Hsnoc.
  - destruct (peer_inv_run from_slice c r0 t0 id n log Hwf Hn Hl) as [k Hk].
    rewrite hb_run_snoc. destruct (hb_run _ _ log) as [s evs]. cbn [hb_step].
    destruct (check_failures t (failure_detector s) (hb_registry s)) as [[[d r] new] failed] eqn:E.
    pose proof (peer_inv_check from_slice c t0 id n log s evs k t d r new failed E Hk) as [_ [m Hm] (st & Hst & Hu') Hev].
    set (k' := if eqb _ _ then k else S k) in *.
    assert (Hk' : Nat.odd k' = bool_decide (failure_timeout c < t - last_seen from_slice t0 id log)).
    { unfold k'. case_bool_decide; destruct (Nat.odd k) eqn:Ek; simpl; rewrite ?Nat.odd_succ, <-?Nat.negb_odd, ?Ek; done. }
    exists st, k'. unfold get_node, is_node_failed. simpl in *. rewrite Hst, Hm. simpl. split_and!; try done.
    intros Hw. specialize (Hu' (Hsnoc Hw)). split; [done|]. intros Hne. rewrite Hu', <-(bool_decide_eq_true (_ < _)), <-Hk'.
    unfold reported. destruct k'; [done|]. by destruct (Nat.odd _).
Qed.

(** A cluster of two: node "b" is silent for more than 6 ticks, then comes back. *)
Definition gmap_order : StringOrder := {| str_iter V := map_to_list; str_iter_perm V m := Permutation_refl _ |}.

Lemma heartbeat_detection_witness :
  let cfg := mkDetectorConfig 2 3 in
  let node x := mkNode x "10.0.0.1:7" Hybrid None None (mkResources 0 0) in
  let r0 := from_config (mkConfig (mkMeta "c" 1 1 Tcp) [node "a"; node "b"]) "a" in
  let log := [HbReceive 3 (Some (mkPayload "b" 1)); HbCheck 10; HbReceive 11 None; HbReceive 12 (Some (mkPayload "b" 2))] in
  let '(s, evs) := hb_run (O := gmap_order) id (heartbeat_new (O := gmap_order) cfg r0 0) (log ++ [HbCheck 13]) in
  ∃ st k, get_node "b" (hb_registry s) = Some (mkRegistered (node "b") st) ∧ st ≠ Unreachable ∧
    new_status <$> filter (λ e, ev_node e = "b") evs = status_trace k ∧ Nat.odd k = false.
Proof.
  intros cfg node r0 log.
  pose proof (heartbeat_detection_exact (H := gmap_order) id cfg r0 0 log 13 "b" (mkRegistered (node "b") Joining)
                (from_config_wf _ _) ltac:(vm_compute; reflexivity)) as Hx.
  destruct (hb_run _ _ _) as [s evs]. rewrite decide_False in Hx by discriminate.
  destruct Hx as (st & k & H1 & H2 & H3 & H5 & H6). exists st, k. split_and!; [done| |done|].
  - destruct H6 as [_ H6]; [intros st'; unfold log; set_solver|]. rewrite H6 by discriminate. vm_compute. lia.
  - rewrite H5. apply bool_decide_eq_false. vm_compute. lia.
Defined.

(** Discovery found "b" unreachable before the service started; its heartbeats arrive in time,
    the detector reports nothing, and the registry keeps it out. *)
Example discovered_down_stays_down :
  let cfg := mkDetectorConfig 2 3 in
  let node x := mkNode x "10.0.0.1:7" Hybrid None None (mkResources 0 0) in
  let r0 := (set_node_status "b" Unreachable (from_config (mkConfig (mkMeta "c" 1 1 Tcp) [node "a"; node "b"]) "a")).1 in
  let beat t := [HbReceive t (Some (mkPayload "b" 1)); HbCheck (t + 1)] in
  let '(s, evs) := hb_run (O := gmap_order) id (heartbeat_new (O := gmap_order) cfg r0 0) (beat 1 ++ beat 3 ++ beat 5 ++ beat 7) in
  evs = [] ∧ is_node_failed "b" (failure_detector s) = false ∧
  node_status <$> get_node "b" (hb_registry s) = Some Unreachable.
Proof. vm_compute. split_and!; reflexivity. Qed.
