(* ===== verification/ClusterTopology.v ===== *)
(** * Validated topologies

    Which configurations [ClusterConfig.validate] accepts, and that on an accepted
    mesh every lookup by coordinates, in the configuration and in a registry
    built from it, finds the one node of the cell. *)

From S2P Require Import Prelude StableSort ClusterConfig ClusterNodes ClusterMonitor.

(** ** The checking loops *)

Lemma check_distinct_ok {E A K} `{Countable K} (f : A → outcome E K) dup l seen s :
  check_distinct f dup seen l = Ok s ↔
  ∃ ks, Forall2 (λ x k, f x = Ok k) l ks ∧ NoDup ks ∧ (∀ k, k ∈ ks → k ∉ seen) ∧ s = list_to_set ks ∪ seen.
Proof.
  revert seen. induction l as [|x l IH]; intros seen; simpl.
  { split.
    - intros [= <-]. exists []. split_and!; [constructor..|set_solver|set_solver].
    - intros (ks & Hf%Forall2_nil_inv_l & _ & _ & ->). subst. simpl. by rewrite (left_id_L ∅ (∪)). }
  rewrite outcome_bind_ok. setoid_rewrite ensure_bind. setoid_rewrite IH. split.
  - intros (k & Hk & Hs & ks & Hf & Hnd & Hd & ->). exists (k :: ks).
    split_and!; [by constructor|constructor; [|done]; intros ?%Hd; set_solver| |set_solver].
    intros k' [->|Hk']%elem_of_cons; [done|]. specialize (Hd k' Hk'). set_solver.
  - intros (ks & (k & ks' & Hk & Hf & ->)%Forall2_cons_inv_l & [Hni Hnd]%NoDup_cons & Hd & ->).
    exists k. split; [done|]. split; [apply Hd; set_solver|]. exists ks'. split_and!; [done..| |set_solver].
    intros k' Hk'. specialize (Hd k'). set_solver.
Qed.

Lemma check_distinct_fmap {E A K} `{Countable K} (f : A → outcome E K) (g : A → K) (P : A → Prop) dup l s :
  (∀ x k, f x = Ok k ↔ P x ∧ k = g x) →
  check_distinct f dup ∅ l = Ok s ↔ Forall P l ∧ NoDup (g <$> l) ∧ s = list_to_set (g <$> l).
Proof.
  intros Hf. rewrite check_distinct_ok.
  assert (Hg : ∀ ks, Forall2 (λ x k, f x = Ok k) l ks ↔ Forall P l ∧ ks = g <$> l).
  { induction l as [|x l IH]; intros ks.
    - split; [by intros ->%Forall2_nil_inv_l|intros [_ ->]; constructor].
    - rewrite Forall_cons, fmap_cons. split.
      + intros (k & ks' & [? ->]%Hf & [? ->]%IH & ->)%Forall2_cons_inv_l. done.
      + intros [[? ?] ->]. constructor; [by apply Hf|by apply IH]. }
  setoid_rewrite Hg. split.
  - intros (ks & [HP ->] & Hnd & _ & ->). split_and!; [done..|set_solver].
  - intros (HP & Hnd & ->). exists (g <$> l). split_and!; [done..|set_solver|set_solver].
Qed.

(** ** Ranges and cells *)

Lemma elem_of_rangeN n x : x ∈ rangeN n ↔ (x < n)%N.
Proof.
  unfold rangeN. rewrite list_elem_of_fmap. setoid_rewrite elem_of_seq. split.
  - intros (y & -> & ?). lia.
  - intros ?. exists (N.to_nat x). lia.
Qed.

Lemma NoDup_rangeN n : NoDup (rangeN n).
Proof. unfold rangeN. apply NoDup_fmap_2; [intros ???; lia|apply NoDup_seq]. Qed.

Lemma length_rangeN n : length (rangeN n) = N.to_nat n.
Proof. unfold rangeN. by rewrite length_fmap, length_seq. Qed.

Lemma lookup_rangeN n i : i < N.to_nat n → rangeN n !! i = Some (N.of_nat i).
Proof. intros Hi. unfold rangeN. by rewrite list_lookup_fmap, lookup_seq_lt. Qed.

Lemma Sorted_rangeN n : Sorted N.le (rangeN n).
Proof.
  unfold rangeN. eapply (Sorted_fmap N.of_nat lt); [intros; lia|].
  apply StronglySorted_Sorted. generalize 0. induction (N.to_nat n) as [|m IH]; intros i; simpl; constructor; [done|].
  apply Forall_forall. intros x ?%elem_of_seq. lia.
Qed.

Lemma elem_of_mesh_cells pp tp s k : (s, k) ∈ mesh_cells pp tp ↔ (s < pp ∧ k < tp)%N.
Proof.
  unfold mesh_cells. rewrite list_elem_of_bind. setoid_rewrite list_elem_of_bind.
  setoid_rewrite list_elem_of_singleton. setoid_rewrite elem_of_rangeN. naive_solver.
Qed.

Lemma mesh_cells_fmap pp tp : mesh_cells pp tp = rangeN pp ≫= λ s, pair s <$> rangeN tp.
Proof.
  unfold mesh_cells. apply list_bind_ext; [|done]. intros s. generalize (rangeN tp) as l.
  induction l as [|k l IH]; [done|]. rewrite bind_cons, IH. done.
Qed.

Lemma length_bind_const {A B} (f : A → list B) n l : (∀ x, length (f x) = n) → length (l ≫= f) = length l * n.
Proof. intros Hf. induction l as [|x l IH]; [done|]. rewrite bind_cons, length_app, IH, Hf. simpl. lia. Qed.

Lemma NoDup_mesh_cells pp tp : NoDup (mesh_cells pp tp).
Proof.
  rewrite mesh_cells_fmap. pose proof (NoDup_rangeN pp) as Hnd. induction Hnd as [|s l Hs Hl IH]; [constructor|].
  rewrite bind_cons. apply NoDup_app. split_and!; [apply NoDup_fmap_2; [congruence|apply NoDup_rangeN]| |done].
  intros [s' k] (k' & [= -> ->] & _)%list_elem_of_fmap (s'' & H2 & Hin)%list_elem_of_bind.
  apply list_elem_of_fmap in H2 as (? & [= -> ->] & _). done.
Qed.

Lemma length_mesh_cells pp tp : N.of_nat (length (mesh_cells pp tp)) = (pp * tp)%N.
Proof.
  rewrite mesh_cells_fmap, (length_bind_const _ (N.to_nat tp)), length_rangeN; [lia|].
  intros. by rewrite length_fmap, length_rangeN.
Qed.

(** ** What is accepted *)

Definition good_name (s : string) : Prop := String.length s ≤ MAX_ID_LENGTH ∧ has_control s = false.

Definition mesh_nodes (c : ClusterConfig) : list NodeConfig := filter (λ n, is_pp_tp (role n) = true) (cfg_nodes c).
Definition pipe_nodes (c : ClusterConfig) : list NodeConfig := filter (λ n, role n = PipelineStage) (cfg_nodes c).

(** The coordinates of the mesh nodes are those of the grid, each once. *)
Definition valid_mesh (c : ClusterConfig) (pp tp : N) : Prop :=
  (0 < pp)%N ∧ (0 < tp)%N ∧ (pp * tp ≤ u64_max)%N ∧
  (λ n, (stage n, rank n)) <$> mesh_nodes c ≡ₚ (λ '(s, k), (Some s, Some k)) <$> mesh_cells pp tp ∧
  Forall (λ n, is_pp_tp (role n) = false →
     (stage n = None ∨ role n = PipelineStage) ∧ (rank n = None ∨ role n = TensorParallelRank)) (cfg_nodes c).

(** The stages of the pipeline nodes are [0..pp], each once. *)
Definition valid_pipeline (c : ClusterConfig) (pp : N) : Prop :=
  (pipe_nodes c = [] ∧ (pp ≤ 1)%N ∨ (0 < pp)%N ∧ stage <$> pipe_nodes c ≡ₚ Some <$> rangeN pp) ∧
  Forall (λ n, role n ≠ PipelineStage → stage n = None) (cfg_nodes c).

Definition valid_config (c : ClusterConfig) : Prop :=
  cfg_nodes c ≠ [] ∧ good_name (cluster_name (cluster c)) ∧
  Forall (λ n, node_id n ≠ EmptyString ∧ good_name (node_id n)) (cfg_nodes c) ∧
  NoDup (node_id <$> cfg_nodes c) ∧ NoDup (address <$> cfg_nodes c) ∧
  if is_mesh c then valid_mesh c (pipeline_parallel_size (cluster c)) (tensor_parallel_size (cluster c))
  else valid_pipeline c (pipeline_parallel_size (cluster c)).

Lemma check_id_ok n k : check_id n = Ok k ↔ (node_id n ≠ EmptyString ∧ good_name (node_id n)) ∧ k = node_id n.
Proof. unfold check_id, good_name. rewrite !ensure_bind. naive_solver. Qed.

Definition cell (n : NodeConfig) : N * N := (default 0%N (stage n), default 0%N (rank n)).

Lemma pair_of_ok pp tp n k :
  pair_of pp tp n = Ok k ↔ (stage n = Some (cell n).1 ∧ rank n = Some (cell n).2 ∧ ((cell n).1 < pp ∧ (cell n).2 < tp)%N) ∧ k = cell n.
Proof.
  unfold pair_of, cell. rewrite ok_or_err_bind. setoid_rewrite ok_or_err_bind. setoid_rewrite ensure_bind.
  setoid_rewrite ensure_bind. destruct (stage n), (rank n); naive_solver.
Qed.

Lemma stage_of_ok pp n k :
  stage_of pp n = Ok k ↔ (stage n = Some (cell n).1 ∧ ((cell n).1 < pp)%N) ∧ k = (cell n).1.
Proof.
  unfold stage_of, cell. rewrite ok_or_err_bind. setoid_rewrite ensure_bind. destruct (stage n); naive_solver.
Qed.

Lemma no_coords_ok n :
  no_coords n = Ok tt ↔
  (is_pp_tp (role n) = false → (stage n = None ∨ role n = PipelineStage) ∧ (rank n = None ∨ role n = TensorParallelRank)).
Proof.
  unfold no_coords. destruct (is_pp_tp (role n)); [done|].
  destruct (stage n), (rank n); rewrite ?ensure_bind; simpl; rewrite ?ensure_ok; naive_solver.
Qed.

Lemma no_stage_ok n : no_stage n = Ok tt ↔ (role n ≠ PipelineStage → stage n = None).
Proof. unfold no_stage. case_decide; destruct (stage n); naive_solver. Qed.

(** Keys that are distinct, in a range and cover it are a permutation of it. *)
Lemma covers_perm {A K} `{Countable K} (g : A → K) (l : list A) (cells : list K) :
  NoDup cells →
  ((∀ x, x ∈ l → g x ∈ cells) ∧ NoDup (g <$> l) ∧ (∀ k, k ∈ cells → k ∈ (list_to_set (g <$> l) : gset K))) ↔
  g <$> l ≡ₚ cells.
Proof.
  intros Hc. setoid_rewrite elem_of_list_to_set. split.
  - intros (H1 & H2 & H3). apply NoDup_Permutation; [done..|]. intros k. split; [|auto].
    intros (x & -> & Hx)%list_elem_of_fmap. auto.
  - intros Hp. split_and!; [|by rewrite Hp|by intros k; rewrite Hp]. intros x Hx. rewrite <-Hp. by apply list_elem_of_fmap_2.
Qed.

Lemma valid_mesh_alt c pp tp :
  (λ n, (stage n, rank n)) <$> mesh_nodes c ≡ₚ (λ '(s, k), (Some s, Some k)) <$> mesh_cells pp tp ↔
  Forall (λ n, stage n = Some (cell n).1 ∧ rank n = Some (cell n).2) (mesh_nodes c) ∧
  cell <$> mesh_nodes c ≡ₚ mesh_cells pp tp.
Proof.
  split.
  - intros Hp. assert (Hs : Forall (λ n, stage n = Some (cell n).1 ∧ rank n = Some (cell n).2) (mesh_nodes c)).
    { apply Forall_forall. intros n Hn.
      assert (Hin : (stage n, rank n) ∈ (λ '(s, k), (Some s, Some k)) <$> mesh_cells pp tp).
      { rewrite <-Hp. apply list_elem_of_fmap. eauto. }
      apply list_elem_of_fmap in Hin as ([s k] & [= E1 E2] & _). unfold cell. by rewrite E1, E2. }
    split; [done|].
    apply (fmap_Permutation (λ '(s, k), (default 0%N s, default 0%N k))) in Hp. rewrite <-!list_fmap_compose in Hp.
    etrans; [|etrans; [exact Hp|]].
    + by apply Permutation_refl', list_fmap_ext.
    + rewrite (list_fmap_ext _ id); [by rewrite list_fmap_id|]. by intros ? [].
  - intros [Hs Hp]. rewrite <-Hp, <-list_fmap_compose. apply Permutation_refl', list_fmap_ext.
    intros i n Hn. rewrite Forall_lookup in Hs. destruct (Hs i n Hn) as [-> ->]. done.
Qed.

Lemma validate_mesh_ok c pp tp : validate_pp_tp_topology c pp tp = Ok tt ↔ valid_mesh c pp tp.
Proof.
  unfold validate_pp_tp_topology, valid_mesh. fold (mesh_nodes c).
  rewrite !ensure_bind, outcome_bind_ok. setoid_rewrite (check_distinct_fmap _ _ _ _ _ _ (pair_of_ok pp tp)).
  setoid_rewrite outcome_bind_ok. setoid_rewrite check_all_ok. rewrite valid_mesh_alt.
  rewrite <-(covers_perm cell (mesh_nodes c) _ (NoDup_mesh_cells pp tp)).
  assert (Hc : ∀ seen : gset (N * N),
    check_all (λ '(s, k), ensure ((s, k) ∈ seen) (NoPair s k)) (mesh_cells pp tp) = Ok tt ↔
    (∀ k, k ∈ mesh_cells pp tp → k ∈ seen)).
  { intros seen. rewrite check_all_ok, Forall_forall. split; intros Hx [s k] Hk; specialize (Hx (s, k) Hk); by apply ensure_ok in Hx || apply ensure_ok. }
  assert (Hn : Forall (λ n, no_coords n = Ok tt) (cfg_nodes c) ↔ Forall (λ n, is_pp_tp (role n) = false →
     (stage n = None ∨ role n = PipelineStage) ∧ (rank n = None ∨ role n = TensorParallelRank)) (cfg_nodes c)).
  { apply Forall_proper; [intros n; apply no_coords_ok|done]. }
  setoid_rewrite Hn. clear Hn. split.
  - intros (Hpp & Htp & Hov & Hlen & seen & (HP & Hnd & ->) & [] & Hcov & Hno). rewrite Forall_forall in HP.
    split_and!; try done.
    + apply Forall_forall. intros n Hx. by destruct (HP n Hx) as (? & ? & _).
    + intros n Hx. destruct (HP n Hx) as (_ & _ & ?). destruct (cell n). by apply elem_of_mesh_cells.
    + by apply Hc.
  - intros (Hpp & Htp & Hov & (HP & Hin & Hnd & Hcov) & Hno). split_and!; try done.
    + rewrite <-length_mesh_cells. f_equal. rewrite <-(length_fmap cell). apply Permutation_length.
      by apply (covers_perm cell (mesh_nodes c) _ (NoDup_mesh_cells pp tp)).
    + eexists. split; [split; [|split; [done|reflexivity]]|exists tt; split; [by apply Hc|done]].
      rewrite Forall_forall in HP |- *. intros n Hx. destruct (HP n Hx). split; [done|split; [done|]].
      specialize (Hin n Hx). destruct (cell n). by apply elem_of_mesh_cells in Hin.
Qed.

Lemma validate_pipeline_ok c pp : validate_pipeline c pp = Ok tt ↔ valid_pipeline c pp.
Proof.
  unfold validate_pipeline, valid_pipeline. fold (pipe_nodes c).
  rewrite outcome_bind_ok. setoid_rewrite check_all_ok.
  assert (Hn : Forall (λ n, no_stage n = Ok tt) (cfg_nodes c) ↔
               Forall (λ n, role n ≠ PipelineStage → stage n = None) (cfg_nodes c)).
  { apply Forall_proper; [intros n; apply no_stage_ok|done]. }
  assert (Hp : stage <$> pipe_nodes c ≡ₚ Some <$> rangeN pp ↔
    Forall (λ n, stage n = Some (cell n).1) (pipe_nodes c) ∧ (fst ∘ cell) <$> pipe_nodes c ≡ₚ rangeN pp).
  { split.
    - intros Hp. assert (Hs : Forall (λ n, stage n = Some (cell n).1) (pipe_nodes c)).
      { apply Forall_forall. intros n Hx. assert (Hin : stage n ∈ Some <$> rangeN pp).
        { rewrite <-Hp. apply list_elem_of_fmap. eauto. }
        apply list_elem_of_fmap in Hin as (s & E & _). unfold cell. by rewrite E. }
      split; [done|]. apply (fmap_Permutation (default 0%N)) in Hp. rewrite <-!list_fmap_compose in Hp.
      etrans; [|etrans; [exact Hp|]]; [by apply Permutation_refl', list_fmap_ext|].
      rewrite (list_fmap_ext _ id); [by rewrite list_fmap_id|done].
    - intros [Hs Hp]. rewrite <-Hp, <-list_fmap_compose. apply Permutation_refl', list_fmap_ext.
      intros i n Hx. rewrite Forall_lookup in Hs. by rewrite (Hs i n Hx). }
  rewrite Hp, <-(covers_perm (fst ∘ cell) (pipe_nodes c) _ (NoDup_rangeN pp)). setoid_rewrite elem_of_rangeN.
  setoid_rewrite Hn. clear Hn Hp.
  enough (Hif : (if decide (pipe_nodes c ≠ [] ∨ (1 < pp)%N) then _ else _) = Ok tt ↔ _) by (split; [intros ([] & ? & ?)|intros [? ?]; exists tt]; split; by try apply Hif).
  case_decide as Hd.
  - rewrite !ensure_bind, outcome_bind_ok. setoid_rewrite (check_distinct_fmap _ _ _ _ _ _ (stage_of_ok pp)).
    setoid_rewrite check_all_ok. setoid_rewrite Forall_forall. setoid_rewrite ensure_ok.
    setoid_rewrite elem_of_rangeN. split.
    + intros (Hpp & Hlen & seen & (HP & Hnd & ->) & Hcov). right. naive_solver.
    + intros [[? ?]|(Hpp & HP & Hin & Hnd & Hcov)]; [destruct Hd; [done|lia]|]. split_and!; [done| |].
      * rewrite <-(length_fmap (fst ∘ cell)), <-(N2Nat.id pp), <-(length_rangeN pp). f_equal. apply Permutation_length.
        apply (covers_perm (fst ∘ cell) (pipe_nodes c) _ (NoDup_rangeN pp)). by setoid_rewrite elem_of_rangeN.
      * eexists. split; [split; [|split; [done|reflexivity]]|done]. naive_solver.
  - split; [intros _|done]. left. split; [|lia]. destruct (pipe_nodes c); [done|]. naive_solver.
Qed.

Lemma validate_ok c : validate c = Ok tt ↔ valid_config c.
Proof.
  unfold validate, valid_config. rewrite !ensure_bind, outcome_bind_ok.
  setoid_rewrite (check_distinct_fmap _ _ _ _ _ _ check_id_ok). setoid_rewrite outcome_bind_ok.
  setoid_rewrite (check_distinct_fmap (λ n, Ok (address n)) address (λ _, True));
    [|by intros; split; [intros [= ->]|intros [_ ->]]].
  destruct (is_mesh c); [setoid_rewrite validate_mesh_ok|setoid_rewrite validate_pipeline_ok];
    (split; [intros (? & ? & ? & ? & (? & ? & ->) & ? & (? & ? & ->) & ?)|intros (? & [? ?] & ? & ? & ? & ?)];
     [by split_and!|]; split_and!; [done..|]; eexists; (split; [done|]); eexists; split; [|done];
     split_and!; [by apply Forall_true|done..]).
Qed.

(** ** Validation does not panic *)

Lemma check_distinct_no_panic {E A K} `{Countable K} (f : A → outcome E K) dup l :
  (∀ x, f x ≠ Panic) → ∀ seen, check_distinct f dup seen l ≠ Panic.
Proof.
  intros Hf. induction l as [|x l IH]; intros seen; simpl; [done|].
  specialize (Hf x). destruct (f x); simpl; [|done..]. unfold ensure. case_decide; simpl; [apply IH|done].
Qed.

Lemma validate_no_panic c : validate c ≠ Panic.
Proof.
  assert (Hok : ∀ (E A : Type) (a : A), @Ok E A a ≠ Panic) by done.
  unfold validate, validate_pp_tp_topology, validate_pipeline, check_id, pair_of, stage_of.
  repeat first [apply bind_no_panic; intros | apply check_distinct_no_panic; intros | apply check_all_no_panic; intros
               | case_match; subst | apply ensure_no_panic | apply ok_or_err_no_panic | by apply Hok
               | progress unfold no_coords, no_stage]; done.
Qed.

(** ** Lookups on a validated mesh *)

Lemma NoDup_fmap_inj_on {A B} (f : A → B) l x y : NoDup (f <$> l) → x ∈ l → y ∈ l → f x = f y → x = y.
Proof.
  induction l as [|z l IH]; [by intros _ ?%elem_of_nil|].
  rewrite fmap_cons, NoDup_cons. intros [Hz Hl] [->|Hx]%elem_of_cons [->|Hy]%elem_of_cons E; auto.
  - destruct Hz. rewrite E. by apply list_elem_of_fmap_2.
  - destruct Hz. rewrite <-E. by apply list_elem_of_fmap_2.
Qed.

Lemma head_filter_unique {A} (P : A → Prop) `{!∀ x, Decision (P x)} l x :
  x ∈ l → P x → (∀ y, y ∈ l → P y → y = x) → head (filter P l) = Some x.
Proof.
  intros Hx HP Hu. destruct (filter P l) as [|y k] eqn:E.
  - by destruct (filter_nil_not_elem_of P l x E HP).
  - assert (y ∈ filter P l) as [? ?]%list_elem_of_filter by (rewrite E; set_solver). simpl. f_equal. auto.
Qed.

(** The registry of a configuration with distinct ids holds its nodes, no more. *)
Definition joined (local : string) (n : NodeConfig) : RegisteredNode :=
  mkRegistered n (if decide (node_id n = local) then Online else Joining).

Lemma from_config_nodes c local :
  NoDup (node_id <$> cfg_nodes c) →
  nodes (from_config c local) = list_to_map ((λ n, (node_id n, joined local n)) <$> cfg_nodes c).
Proof.
  unfold from_config.
  cut (∀ l r, NoDup (node_id <$> l) → (∀ n, n ∈ l → nodes r !! node_id n = None) →
    nodes (foldl (λ r c, upsert_node c (if decide (node_id c = local) then Online else Joining) r) r l) =
    list_to_map ((λ n, (node_id n, joined local n)) <$> l) ∪ nodes r).
  { intros H Hnd. rewrite H; [apply (right_id_L ∅ (∪))|done|done]. }
  induction l as [|n l IH]; intros r; simpl; [by rewrite (left_id_L ∅ (∪))|].
  rewrite NoDup_cons. intros [Hn Hl] Hf. rewrite IH; [|done|].
  - simpl. rewrite <-insert_union_l, insert_union_r; [done|].
    apply not_elem_of_list_to_map_1. by rewrite <-list_fmap_compose.
  - intros m Hm. simpl. rewrite lookup_insert_ne; [apply Hf; set_solver|]. intros E. destruct Hn. rewrite E.
    by apply list_elem_of_fmap_2.
Qed.

Lemma from_config_all_nodes `{StringOrder} c local :
  NoDup (node_id <$> cfg_nodes c) → all_nodes (from_config c local) ≡ₚ joined local <$> cfg_nodes c.
Proof.
  intros Hnd. unfold all_nodes. rewrite str_iter_perm, from_config_nodes by done.
  rewrite map_to_list_to_map, <-list_fmap_compose by by rewrite <-list_fmap_compose. done.
Qed.

Section mesh.
Context `{O : StringOrder} (c : ClusterConfig) (local : string) (pp tp : N).
Hypothesis (Hids : NoDup (node_id <$> cfg_nodes c)) (Hmesh : valid_mesh c pp tp).
Local Notation reg := (from_config c local).

Lemma elem_of_mesh_nodes n : n ∈ mesh_nodes c ↔ is_pp_tp (role n) = true ∧ n ∈ cfg_nodes c.
Proof. unfold mesh_nodes. by rewrite list_elem_of_filter. Qed.

Lemma mesh_cell_node s k : (s < pp)%N → (k < tp)%N → ∃ n, n ∈ mesh_nodes c ∧ stage n = Some s ∧ rank n = Some k.
Proof.
  intros Hs Hk. destruct Hmesh as (_ & _ & _ & Hp & _).
  assert (Hin : (Some s, Some k) ∈ (λ n, (stage n, rank n)) <$> mesh_nodes c).
  { rewrite Hp. apply list_elem_of_fmap. exists (s, k). by rewrite elem_of_mesh_cells. }
  apply list_elem_of_fmap in Hin as (n & [= E1 E2] & Hn). by exists n.
Qed.

Lemma mesh_cell_unique n m :
  n ∈ mesh_nodes c → m ∈ mesh_nodes c → stage n = stage m → rank n = rank m → n = m.
Proof.
  intros Hn Hm Es Er. destruct Hmesh as (_ & _ & _ & Hp & _).
  eapply (NoDup_fmap_inj_on (λ n, (stage n, rank n)) (mesh_nodes c)); [|done|done|by rewrite Es, Er].
  rewrite Hp. apply NoDup_fmap_2; [by intros [] [] [= -> ->]|apply NoDup_mesh_cells].
Qed.

Lemma mesh_coords n : n ∈ mesh_nodes c → ∃ s k, stage n = Some s ∧ rank n = Some k ∧ (s < pp)%N ∧ (k < tp)%N.
Proof.
  intros Hn. destruct Hmesh as (_ & _ & _ & Hp & _).
  assert (Hin : (stage n, rank n) ∈ (λ '(s, k), (Some s, Some k)) <$> mesh_cells pp tp).
  { rewrite <-Hp. apply list_elem_of_fmap. eauto. }
  apply list_elem_of_fmap in Hin as ([s k] & [= E1 E2] & Hc%elem_of_mesh_cells). naive_solver.
Qed.

Lemma elem_of_all_nodes x : x ∈ all_nodes reg ↔ ∃ n, x = joined local n ∧ n ∈ cfg_nodes c.
Proof. rewrite from_config_all_nodes by done. apply list_elem_of_fmap. Qed.

Lemma NoDup_cfg_nodes : NoDup (cfg_nodes c).
Proof. by apply NoDup_fmap_1 in Hids. Qed.

(** The nodes of one line of the mesh, in a list sorted by the other coordinate. *)
Lemma sorted_line (g : NodeConfig → option N) (size : N) (P : NodeConfig → Prop) `{!∀ n, Decision (P n)} :
  (∀ i, (i < size)%N → ∃ n, n ∈ cfg_nodes c ∧ P n ∧ g n = Some i) →
  (∀ n, n ∈ cfg_nodes c → P n → ∃ i, g n = Some i ∧ (i < size)%N) →
  (∀ n m, n ∈ cfg_nodes c → m ∈ cfg_nodes c → P n → P m → g n = g m → n = m) →
  (λ x, g (node_config x)) <$> sort_by (by_coord g) (filter (λ x, P (node_config x)) (all_nodes reg)) =
  Some <$> rangeN size.
Proof.
  intros Hex Hran Huni.
  set (l := filter (λ x, P (node_config x)) (all_nodes reg)).
  assert (Hl : ∀ x, x ∈ l ↔ ∃ n, x = joined local n ∧ n ∈ cfg_nodes c ∧ P n).
  { intros x. unfold l. rewrite list_elem_of_filter, elem_of_all_nodes. naive_solver. }
  assert (Hnd : NoDup l).
  { apply NoDup_filter. rewrite from_config_all_nodes by done. apply NoDup_fmap_2; [|apply NoDup_cfg_nodes].
    intros a b E. exact (f_equal node_config E). }
  set (key := λ x : RegisteredNode, default u32_max (g (node_config x))).
  assert (Hkey : key <$> sort_by (by_coord g) l = rangeN size).
  { apply (Sorted_unique N.le); [|apply Sorted_rangeN|].
    - eapply (Sorted_fmap key (by_coord g)); [done|]. apply sort_by_sorted. intros a b. unfold by_coord. lia.
    - rewrite sort_by_perm. apply NoDup_Permutation; [|apply NoDup_rangeN|].
      + apply NoDup_fmap_2_strong; [|done]. intros x y Hx Hy. apply Hl in Hx as (n & -> & Hn & HPn), Hy as (m & -> & Hm & HPm).
        unfold key. simpl. destruct (Hran n Hn HPn) as (i & Ei & _), (Hran m Hm HPm) as (j & Ej & _).
        rewrite Ei, Ej. simpl. intros ->. f_equal. apply Huni; congruence.
      + intros i. rewrite elem_of_rangeN, list_elem_of_fmap. setoid_rewrite Hl. split.
        * intros (x & -> & n & -> & Hn & HPn). destruct (Hran n Hn HPn) as (j & Ej & ?). unfold key. simpl. by rewrite Ej.
        * intros Hi. destruct (Hex i Hi) as (n & Hn & HPn & E). exists (joined local n). unfold key. simpl. rewrite E. eauto. }
  rewrite <-Hkey, <-list_fmap_compose. apply list_fmap_ext. intros j x Hx. simpl.
  apply list_elem_of_lookup_2, elem_of_sort_by, Hl in Hx as (n & -> & Hn & HPn). unfold key. simpl.
  by destruct (Hran n Hn HPn) as (i & -> & _).
Qed.

Lemma line_lookup (g : NodeConfig → option N) size P `{!∀ n, Decision (P n)} i n :
  (λ x, g (node_config x)) <$> sort_by (by_coord g) (filter (λ x, P (node_config x)) (all_nodes reg)) = Some <$> rangeN size →
  (i < size)%N → (∀ m, m ∈ cfg_nodes c → P m → g m = Some i → m = n) →
  sort_by (by_coord g) (filter (λ x, P (node_config x)) (all_nodes reg)) !! N.to_nat i = Some (joined local n).
Proof.
  intros E Hi Hu. apply (f_equal (.!! N.to_nat i)) in E.
  rewrite !list_lookup_fmap, lookup_rangeN in E by lia. simpl in E. rewrite N2Nat.id in E.
  destruct (sort_by _ _ !! N.to_nat i) as [x|] eqn:Ex; [|done]. simpl in E. injection E as E.
  apply list_elem_of_lookup_2, elem_of_sort_by, list_elem_of_filter in Ex as [HP (m & -> & Hm)%elem_of_all_nodes].
  simpl in *. do 2 f_equal. by apply Hu.
Qed.

Lemma mesh_lookups s k :
  (s < pp)%N → (k < tp)%N →
  ∃ n, n ∈ cfg_nodes c ∧ stage n = Some s ∧ rank n = Some k ∧ pp_tp_node s k c = Some n ∧
    find_pp_tp_node s k reg = Some (joined local n) ∧
    nodes_at_stage s reg !! N.to_nat k = Some (joined local n) ∧
    nodes_at_rank k reg !! N.to_nat s = Some (joined local n) ∧
    length (nodes_at_stage s reg) = N.to_nat tp ∧ length (nodes_at_rank k reg) = N.to_nat pp.
Proof.
  intros Hs Hk. destruct (mesh_cell_node s k Hs Hk) as (n & Hn & Es & Ek).
  pose proof (proj1 (elem_of_mesh_nodes n) Hn) as [Hpt Hnc].
  assert (Hu : ∀ m, m ∈ cfg_nodes c → is_pp_tp (role m) = true → stage m = Some s → rank m = Some k → m = n).
  { intros m Hm Hmp Ems Emk. apply mesh_cell_unique; [by apply elem_of_mesh_nodes|done|congruence..]. }
  assert (Hst : (λ x, rank (node_config x)) <$> nodes_at_stage s reg = Some <$> rangeN tp).
  { refine (sorted_line rank tp (λ n, is_pp_tp (role n) = true ∧ stage n = Some s) (H := λ n, and_dec _ _) _ _ _).
    - intros i Hi. destruct (mesh_cell_node s i Hs Hi) as (m & [? ?]%elem_of_mesh_nodes & ? & ?). eauto 8.
    - intros m Hm [Hp _]. destruct (mesh_coords m) as (? & j & _ & ? & _ & ?); [by apply elem_of_mesh_nodes|]. eauto.
    - intros m m' ?? [? ?] [? ?] ?. apply mesh_cell_unique; [by apply elem_of_mesh_nodes..|congruence|done]. }
  assert (Hrk : (λ x, stage (node_config x)) <$> nodes_at_rank k reg = Some <$> rangeN pp).
  { refine (sorted_line stage pp (λ n, is_pp_tp (role n) = true ∧ rank n = Some k) (H := λ n, and_dec _ _) _ _ _).
    - intros i Hi. destruct (mesh_cell_node i k Hi Hk) as (m & [? ?]%elem_of_mesh_nodes & ? & ?). eauto 8.
    - intros m Hm [Hp _]. destruct (mesh_coords m) as (j & ? & ? & _ & ? & _); [by apply elem_of_mesh_nodes|]. eauto.
    - intros m m' ?? [? ?] [? ?] ?. apply mesh_cell_unique; [by apply elem_of_mesh_nodes..|done|congruence]. }
  exists n. split_and!; [done..| | | | | |].
  - apply head_filter_unique; [done|done|]. naive_solver.
  - apply head_filter_unique; [apply elem_of_all_nodes; eauto|done|].
    intros x (m & -> & Hm)%elem_of_all_nodes. simpl. intros (? & ? & ?). f_equal. auto.
  - refine (line_lookup rank tp (λ n, is_pp_tp (role n) = true ∧ stage n = Some s) (H := λ n, and_dec _ _) k n Hst Hk _). naive_solver.
  - refine (line_lookup stage pp (λ n, is_pp_tp (role n) = true ∧ rank n = Some k) (H := λ n, and_dec _ _) s n Hrk Hs _). naive_solver.
  - apply (f_equal length) in Hst. by rewrite !length_fmap, length_rangeN in Hst.
  - apply (f_equal length) in Hrk. by rewrite !length_fmap, length_rangeN in Hrk.
Qed.

End mesh.

(** Validation accepts exactly the configurations with distinct, well-formed ids, distinct
    addresses and a topology in which the stages of a pipeline, or the cells of a mesh, are each
    taken by exactly one node, and it never panics. On an accepted mesh every lookup by coordinates
    finds that one node: in the configuration, in the registry built from it whatever the order its
    map is iterated in, and at the position of its coordinate in the list of a stage or of a rank. *)
Theorem validated_topology_correct c :
  validate c ≠ Panic ∧ (validate c = Ok tt ↔ valid_config c) ∧
  (validate c = Ok tt → is_mesh c = true → ∀ (O : StringOrder) local s k,
    (s < pipeline_parallel_size (cluster c))%N → (k < tensor_parallel_size (cluster c))%N →
    let reg := from_config c local in
    ∃ n, n ∈ cfg_nodes c ∧ stage n = Some s ∧ rank n = Some k ∧ pp_tp_node s k c = Some n ∧
      find_pp_tp_node s k reg = Some (joined local n) ∧
      nodes_at_stage s reg !! N.to_nat k = Some (joined local n) ∧
      nodes_at_rank k reg !! N.to_nat s = Some (joined local n) ∧
      length (nodes_at_stage s reg) = N.to_nat (tensor_parallel_size (cluster c)) ∧
      length (nodes_at_rank k reg) = N.to_nat (pipeline_parallel_size (cluster c))).
Proof.
  split; [apply validate_no_panic|]. split; [apply validate_ok|].
  intros (_ & _ & _ & Hids & _ & Hm)%validate_ok Hmesh O local s k. rewrite Hmesh in Hm.
  by apply mesh_lookups.
Qed.

Lemma validated_topology_witness :
  let node i s k := mkNode ("n" +:+ i) ("10.0.0." +:+ i) PipelineTensorParallel (Some s) (Some k) (mkResources 0 0) in
  let c := mkConfig (mkMeta "mesh" 2 2 Tcp) [node "0" 1%N 1%N; node "1" 0%N 0%N; node "2" 1%N 0%N; node "3" 0%N 1%N] in
  ∃ n, pp_tp_node 1 0 c = Some n ∧
    nodes_at_stage (O := gmap_order) 1 (from_config c "n0") !! 0 = Some (joined "n0" n).
Proof.
  intros node c. destruct (validated_topology_correct c) as (_ & _ & H).
  destruct (H ltac:(vm_compute; reflexivity) ltac:(vm_compute; reflexivity) gmap_order "n0" 1%N 0%N
              ltac:(vm_compute; reflexivity) ltac:(vm_compute; reflexivity)) as (n & ? & ? & ? & E & ? & Es & _).
  exists n. exact (conj E Es).
Defined.
