(* ===== verification/ClusterRouting.v ===== *)
(** * Routing strategies

    [distributed/routing.rs]: the trait of routing strategies as a class, the five
    strategies as its instances, and what a client may rely on as a class of laws.
    Of a node's metrics the figures the routers read are kept. *)

From S2P Require Import Prelude StableSort ClusterConfig ClusterNodes.

Record NodeMetrics := mkMetrics { memory_used_bytes : N; memory_total_bytes : N; active_requests : N }.

Record NodeCandidate := mkCandidate {
  c_node_id : string;
  c_role : NodeRole;
  c_status : NodeStatus;
  c_metrics : option NodeMetrics;
  c_stage : option N;
  c_rank : option N;
}.

Inductive TrafficClass := AnyTraffic | TpCollective | PpActivation.

Definition traffic_name (t : TrafficClass) : string :=
  match t with AnyTraffic => "any" | TpCollective => "tp_collective" | PpActivation => "pp_activation" end.

Record RoutingRequest := mkRequest {
  rr_request_id : string;
  preferred_role : option NodeRole;
  preferred_stage : option N;
  preferred_rank : option N;
  traffic_class : TrafficClass;
  affinity_node : option string;
}.

Definition request_new (id : string) : RoutingRequest := mkRequest id None None None AnyTraffic None.

Record RoutingDecision := mkDecision { target_node : string; strategy : string; reason : option string }.

Inductive RoutingError :=
  | NoOnlineNodes | StageRequired | NoNodeForStage (s : N)
  | MeshStageRequired | MeshRankRequired | NoMeshNode (s k : N).

Definition error_message (e : RoutingError) : string :=
  match e with
  | NoOnlineNodes => "no online nodes available for routing"
  | StageRequired => "pipeline stage router requires preferred_stage"
  | NoNodeForStage s => "no online node found for pipeline stage " +:+ pretty s
  | MeshStageRequired => "2D router requires preferred_stage"
  | MeshRankRequired => "2D router requires preferred_rank"
  | NoMeshNode s k => "no online 2D node found for (stage=" +:+ pretty s +:+ ", rank=" +:+ pretty k +:+ ")"
  end.

(** ** The trait *)

Class RoutingStrategy (S : Type) := {
  strategy_name : S → string;
  select_node : RoutingRequest → list NodeCandidate → M S RoutingError RoutingDecision;
}.

Definition is_online (c : NodeCandidate) : Prop := c_status c = Online.
#[global] Instance is_online_dec c : Decision (is_online c).
Proof. unfold is_online. apply _. Defined.

Definition serves (r : NodeRole) (c : NodeCandidate) : Prop := c_role c = r ∨ c_role c = Hybrid.
#[global] Instance serves_dec r c : Decision (serves r c).
Proof. unfold serves. apply _. Defined.

Definition load (c : NodeCandidate) : N := match c_metrics c with Some m => active_requests m | None => 0 end.
Definition mem (c : NodeCandidate) : N := match c_metrics c with Some m => memory_used_bytes m | None => 0 end.

(** ** Role-based *)

Inductive RoleBasedRouter := RoleBased.

Definition role_based_name : string := "role-based".

Definition role_based_select (q : RoutingRequest) (cs : list NodeCandidate) : outcome RoutingError RoutingDecision :=
  match (a ← affinity_node q; head (filter (λ c, c_node_id c = a ∧ is_online c) cs)) with
  | Some c => Ok (mkDecision (c_node_id c) role_based_name (Some "affinity match"))
  | None =>
    match filter is_online cs with
    | [] => Err NoOnlineNodes
    | (c0 :: _) as online =>
      match (r ← preferred_role q; c ← head (filter (serves r) online); Some (r, c)) with
      | Some (r, c) => Ok (mkDecision (c_node_id c) role_based_name (Some ("role match: " +:+ role_name r)))
      | None => Ok (mkDecision (c_node_id c0) role_based_name (Some "fallback to first online"))
      end
    end
  end.

#[global] Instance RoleBased_strategy : RoutingStrategy RoleBasedRouter := {|
  strategy_name _ := role_based_name;
  select_node q cs := lift (role_based_select q cs);
|}.

(** ** Load-balanced and round-robin *)

(** Both narrow the online candidates to those that serve the preferred role, if there are any. *)
Definition role_filter (q : RoutingRequest) (online : list NodeCandidate) : list NodeCandidate :=
  match preferred_role q with
  | Some r => let matching := filter (serves r) online in if decide (matching = []) then online else matching
  | None => online
  end.

Definition less_loaded : relation NodeCandidate := λ a b, (load a < load b ∨ load a = load b ∧ mem a ≤ mem b)%N.
#[global] Instance less_loaded_dec a b : Decision (less_loaded a b).
Proof. unfold less_loaded. apply _. Defined.

Inductive LoadBalancedRouter := LoadBalanced.

Definition load_balanced_name : string := "load-balanced".

Definition load_balanced_select (q : RoutingRequest) (cs : list NodeCandidate) : outcome RoutingError RoutingDecision :=
  let online := filter is_online cs in
  if decide (online = []) then Err NoOnlineNodes
  else match sort_by less_loaded (role_filter q online) with
       | c :: _ => Ok (mkDecision (c_node_id c) load_balanced_name
                         (Some ("least loaded (active_requests=" +:+ pretty (load c) +:+ ")")))
       | [] => Panic
       end.

#[global] Instance LoadBalanced_strategy : RoutingStrategy LoadBalancedRouter := {|
  strategy_name _ := load_balanced_name;
  select_node q cs := lift (load_balanced_select q cs);
|}.

Record RoundRobinRouter := mkRoundRobin { counter : N }.

Definition round_robin_new : RoundRobinRouter := mkRoundRobin 0.

Definition round_robin_name : string := "round-robin".

Definition by_id : relation NodeCandidate := λ a b, string_le (c_node_id a) (c_node_id b).
#[global] Instance by_id_dec a b : Decision (by_id a b).
Proof. unfold by_id. apply _. Defined.

(** [fetch_add] returns the old value and wraps. *)
Definition round_robin_select (q : RoutingRequest) (cs : list NodeCandidate) : M RoundRobinRouter RoutingError RoutingDecision :=
  let online := filter is_online cs in
  if decide (online = []) then throw NoOnlineNodes
  else
    let online := sort_by by_id (role_filter q online) in
    s ← get;
    _ ← put (mkRoundRobin (as_u64 (counter s + 1)));
    let idx := N.to_nat (counter s) `mod` length online in
    c ← index (online !! idx);
    mret (mkDecision (c_node_id c) round_robin_name (Some ("round-robin index=" +:+ pretty idx))).

#[global] Instance RoundRobin_strategy : RoutingStrategy RoundRobinRouter := {|
  strategy_name _ := round_robin_name;
  select_node := round_robin_select;
|}.

(** ** Pipeline stage, and mesh of stages and ranks *)

Inductive PipelineStageRouter := PipelineStageRoute.

Definition pipeline_stage_name : string := "pipeline-stage".

Definition fewer_requests : relation NodeCandidate := λ a b, (load a ≤ load b)%N.
#[global] Instance fewer_requests_dec a b : Decision (fewer_requests a b).
Proof. unfold fewer_requests. apply _. Defined.

Definition pipeline_stage_select (q : RoutingRequest) (cs : list NodeCandidate) : outcome RoutingError RoutingDecision :=
  match preferred_stage q with
  | None => Err StageRequired
  | Some s =>
    let matching := filter (λ c, is_online c ∧ c_role c = PipelineStage ∧ c_stage c = Some s) cs in
    if decide (matching = []) then Err (NoNodeForStage s)
    else match min_by fewer_requests matching with
         | Some c => Ok (mkDecision (c_node_id c) pipeline_stage_name (Some ("pipeline stage " +:+ pretty s)))
         | None => Panic
         end
  end.

#[global] Instance PipelineStage_strategy : RoutingStrategy PipelineStageRouter := {|
  strategy_name _ := pipeline_stage_name;
  select_node q cs := lift (pipeline_stage_select q cs);
|}.

Inductive PipelineTensorParallelRouter := MeshRoute.

Definition mesh_name : string := "pipeline-tensor-parallel".

Definition mesh_select (q : RoutingRequest) (cs : list NodeCandidate) : outcome RoutingError RoutingDecision :=
  match preferred_stage q, preferred_rank q with
  | None, _ => Err MeshStageRequired
  | _, None => Err MeshRankRequired
  | Some s, Some k =>
    match head (filter (λ c, is_online c ∧ is_pp_tp (c_role c) = true ∧ c_stage c = Some s ∧ c_rank c = Some k) cs) with
    | Some c => Ok (mkDecision (c_node_id c) mesh_name
                      (Some ("pp-tp stage=" +:+ pretty s +:+ " rank=" +:+ pretty k +:+ " class=" +:+ traffic_name (traffic_class q))))
    | None => Err (NoMeshNode s k)
    end
  end.

#[global] Instance Mesh_strategy : RoutingStrategy PipelineTensorParallelRouter := {|
  strategy_name _ := mesh_name;
  select_node q cs := lift (mesh_select q cs);
|}.

(** ** What a client relies on

    A strategy never panics, and a decision names an online candidate and carries
    the name of the strategy. *)
Class RoutingLaws (S : Type) `{RoutingStrategy S} : Prop := {
  select_no_panic q cs (s : S) : (select_node q cs s).2 ≠ Panic;
  select_online q cs (s s' : S) d :
    select_node q cs s = (s', Ok d) →
    strategy d = strategy_name s ∧ ∃ c, c ∈ cs ∧ is_online c ∧ c_node_id c = target_node d;
}.

(** ** Choosing among candidates *)

Lemma role_filter_elem q online c : c ∈ role_filter q online → c ∈ online.
Proof.
  unfold role_filter. destruct (preferred_role q) as [r|]; [|done]. simpl. case_decide; [done|].
  by intros [_ ?]%list_elem_of_filter.
Qed.

Lemma role_filter_nil q online : role_filter q online = [] → online = [].
Proof. unfold role_filter. destruct (preferred_role q); [|done]. simpl. by case_decide. Qed.

Lemma role_filter_serves q online c r :
  preferred_role q = Some r → c ∈ role_filter q online → (∃ c', c' ∈ online ∧ serves r c') → serves r c.
Proof.
  unfold role_filter. intros ->. simpl. case_decide as Hm; [|by intros [? _]%list_elem_of_filter].
  intros _ (c' & Hc' & Hs). by destruct (filter_nil_not_elem_of _ _ _ Hm Hs).
Qed.

Lemma role_filter_complete q online c :
  c ∈ online → (∀ r, preferred_role q = Some r → (∃ c', c' ∈ online ∧ serves r c') → serves r c) → c ∈ role_filter q online.
Proof.
  unfold role_filter. intros Hc Hr. destruct (preferred_role q) as [r|]; [|done]. simpl.
  case_decide as Hm; [done|]. apply list_elem_of_filter. split; [|done]. apply Hr; [done|].
  destruct (filter (serves r) online) as [|c' k] eqn:E; [done|].
  assert (c' ∈ filter (serves r) online) as [? ?]%list_elem_of_filter by (rewrite E; set_solver). eauto.
Qed.

(** The candidates a request may be sent to: online, and of the preferred role if any such is online. *)
Definition eligible (q : RoutingRequest) (cs : list NodeCandidate) (c : NodeCandidate) : Prop :=
  c ∈ cs ∧ is_online c ∧
  ∀ r, preferred_role q = Some r → (∃ c', c' ∈ cs ∧ is_online c' ∧ serves r c') → serves r c.

Lemma eligible_role_filter q cs c : eligible q cs c ↔ c ∈ role_filter q (filter is_online cs).
Proof.
  assert (Hex : ∀ r, (∃ c', c' ∈ filter is_online cs ∧ serves r c') ↔ (∃ c', c' ∈ cs ∧ is_online c' ∧ serves r c')).
  { intros r. setoid_rewrite list_elem_of_filter. naive_solver. }
  split.
  - intros (Hc & Ho & Hr). apply role_filter_complete; [by apply list_elem_of_filter|]. setoid_rewrite Hex. done.
  - intros Hc. pose proof (role_filter_elem _ _ _ Hc) as [? ?]%list_elem_of_filter. split_and!; [done..|].
    intros r Hr He. eapply role_filter_serves; [done..|]. by apply Hex.
Qed.

#[global] Instance less_loaded_trans : Transitive less_loaded.
Proof. intros a b c. unfold less_loaded. lia. Qed.
#[global] Instance less_loaded_total : Total less_loaded.
Proof. intros a b. unfold less_loaded. lia. Qed.
#[global] Instance fewer_requests_trans : Transitive fewer_requests.
Proof. intros a b c. unfold fewer_requests. lia. Qed.
#[global] Instance fewer_requests_total : Total fewer_requests.
Proof. intros a b. unfold fewer_requests. lia. Qed.

Lemma head_filter_elem {A} (P : A → Prop) `{!∀ x, Decision (P x)} l x : head (filter P l) = Some x → x ∈ l ∧ P x.
Proof.
  destruct (filter P l) as [|y k] eqn:E; [done|]. intros [= ->].
  assert (x ∈ filter P l) as [? ?]%list_elem_of_filter by (rewrite E; set_solver). done.
Qed.

Lemma head_filter_none {A} (P : A → Prop) `{!∀ x, Decision (P x)} l x : head (filter P l) = None → x ∈ l → ¬ P x.
Proof.
  destruct (filter P l) as [|y k] eqn:E; [|done]. intros _ Hx HP. by destruct (filter_nil_not_elem_of P l x E HP).
Qed.

Definition online_in (cs : list NodeCandidate) (id : string) : Prop :=
  ∃ c, c ∈ cs ∧ is_online c ∧ c_node_id c = id.

(** What each strategy returns, in terms of the candidates. *)

Lemma role_based_spec q cs :
  match role_based_select q cs with
  | Ok d => strategy d = role_based_name ∧
      (affinity_node q = Some (target_node d) ∧ online_in cs (target_node d) ∨
       (∀ a, affinity_node q = Some a → ¬ online_in cs a) ∧ ∃ c, eligible q cs c ∧ c_node_id c = target_node d)
  | Err e => e = NoOnlineNodes ∧ ∀ c, c ∈ cs → ¬ is_online c
  | Panic => False
  end.
Proof.
  unfold role_based_select.
  destruct (a ← affinity_node q; head (filter (λ c, c_node_id c = a ∧ is_online c) cs)) as [c|] eqn:Ea.
  { simpl. split; [done|left]. destruct (affinity_node q) as [a|]; [|done]. simpl in Ea.
    apply head_filter_elem in Ea as (? & <- & ?). unfold online_in. eauto. }
  assert (Hna : ∀ a, affinity_node q = Some a → ¬ online_in cs a).
  { intros a E (c & Hc & Ho & Hid). rewrite E in Ea. exact (head_filter_none _ _ _ Ea Hc (conj Hid Ho)). }
  clear Ea. destruct (filter is_online cs) as [|c0 k] eqn:Eo.
  { split; [done|]. intros c Hc Ho. by destruct (filter_nil_not_elem_of _ _ _ Eo Ho). }
  rewrite <-Eo.
  destruct (r ← preferred_role q; c ← head (filter (serves r) (filter is_online cs)); Some (r, c)) as [[r c]|] eqn:Er.
  - split; [done|right]. split; [done|]. exists c. split; [|done]. apply eligible_role_filter.
    destruct (preferred_role q) as [r'|] eqn:Ep; [|done]. simpl in Er.
    destruct (head (filter (serves r') (filter is_online cs))) as [c'|] eqn:Eh; [|done].
    injection Er as -> ->. apply head_filter_elem in Eh as [? ?].
    apply role_filter_complete; [done|]. rewrite Ep. by intros ? [= ->].
  - split; [done|right]. split; [done|]. exists c0. split; [|done]. apply eligible_role_filter, role_filter_complete.
    { rewrite Eo. set_solver. }
    intros r Ep (c' & Hc' & Hs). rewrite Ep in Er. simpl in Er.
    destruct (head (filter (serves r) (filter is_online cs))) eqn:Eh; [done|]. by destruct (head_filter_none _ _ _ Eh Hc' Hs).
Qed.

Lemma load_balanced_spec q cs :
  match load_balanced_select q cs with
  | Ok d => strategy d = load_balanced_name ∧
      ∃ c, eligible q cs c ∧ c_node_id c = target_node d ∧ ∀ c', eligible q cs c' → less_loaded c c'
  | Err e => e = NoOnlineNodes ∧ ∀ c, c ∈ cs → ¬ is_online c
  | Panic => False
  end.
Proof.
  unfold load_balanced_select. case_decide as Ho.
  { split; [done|]. intros c Hc Hx. by destruct (filter_nil_not_elem_of _ _ _ Ho Hx). }
  destruct (sort_by_cons_inv less_loaded (role_filter q (filter is_online cs))) as (c & k & -> & Hm).
  { intros E%role_filter_nil. done. }
  split; [done|]. exists c. split_and!; [|done|].
  - apply eligible_role_filter. by eapply first_min_elem.
  - intros c' Hc'%eligible_role_filter. by apply (first_min_le less_loaded _ _ _ Hm).
Qed.

Lemma pipeline_stage_spec q cs :
  let at_stage s c := c ∈ cs ∧ is_online c ∧ c_role c = PipelineStage ∧ c_stage c = Some s in
  match pipeline_stage_select q cs with
  | Ok d => strategy d = pipeline_stage_name ∧
      ∃ s c, preferred_stage q = Some s ∧ at_stage s c ∧ c_node_id c = target_node d ∧ ∀ c', at_stage s c' → fewer_requests c c'
  | Err e => preferred_stage q = None ∧ e = StageRequired ∨
             ∃ s, preferred_stage q = Some s ∧ e = NoNodeForStage s ∧ ∀ c, ¬ at_stage s c
  | Panic => False
  end.
Proof.
  intros at_stage. unfold pipeline_stage_select. destruct (preferred_stage q) as [s|]; [|by left].
  case_decide as Hm.
  { right. exists s. split_and!; [done..|]. intros c (Hc & Hx). by destruct (filter_nil_not_elem_of _ _ c Hm Hx). }
  destruct (min_by fewer_requests _) as [c|] eqn:E; [|by destruct (filter _ _)].
  apply min_by_spec in E; [|apply _..]. split; [done|]. exists s, c.
  pose proof (first_min_elem _ _ _ E) as Hc. apply list_elem_of_filter in Hc as (? & ?). split_and!; [done..|].
  intros c' (? & ?). apply (first_min_le fewer_requests _ _ _ E). by apply list_elem_of_filter.
Qed.

Lemma mesh_spec q cs :
  let at_cell s k c := c ∈ cs ∧ is_online c ∧ is_pp_tp (c_role c) = true ∧ c_stage c = Some s ∧ c_rank c = Some k in
  match mesh_select q cs with
  | Ok d => strategy d = mesh_name ∧
      ∃ s k c, preferred_stage q = Some s ∧ preferred_rank q = Some k ∧ at_cell s k c ∧ c_node_id c = target_node d
  | Err e => preferred_stage q = None ∧ e = MeshStageRequired ∨
             is_Some (preferred_stage q) ∧ preferred_rank q = None ∧ e = MeshRankRequired ∨
             ∃ s k, preferred_stage q = Some s ∧ preferred_rank q = Some k ∧ e = NoMeshNode s k ∧ ∀ c, ¬ at_cell s k c
  | Panic => False
  end.
Proof.
  intros at_cell. unfold mesh_select. destruct (preferred_stage q) as [s|]; [|by left].
  destruct (preferred_rank q) as [k|]; [|by right; left].
  destruct (head (filter _ cs)) as [c|] eqn:E; simpl.
  - split; [done|]. exists s, k, c. apply head_filter_elem in E as (? & ?). done.
  - right; right. exists s, k. split_and!; [done..|]. intros c (Hc & Hx). exact (head_filter_none _ _ _ E Hc Hx).
Qed.

(** ** The strategies keep the laws *)

Lemma lift_select_laws {S} `{RoutingStrategy S} (f : RoutingRequest → list NodeCandidate → outcome RoutingError RoutingDecision) :
  (∀ q cs s, select_node q cs s = lift (S := S) (f q cs) s) →
  (∀ q cs, match f q cs with
           | Ok d => ∀ s : S, strategy d = strategy_name s ∧ ∃ c, c ∈ cs ∧ is_online c ∧ c_node_id c = target_node d
           | Err _ => True
           | Panic => False
           end) → RoutingLaws S.
Proof.
  intros Hf Hs. split.
  - intros q cs s. rewrite Hf. simpl. specialize (Hs q cs). by destruct (f q cs).
  - intros q cs s s' d. rewrite Hf. intros Ex. injection Ex as <- E. specialize (Hs q cs). rewrite E in Hs. apply Hs.
Qed.

#[global] Instance RoleBased_laws : RoutingLaws RoleBasedRouter.
Proof.
  apply (lift_select_laws role_based_select); [done|]. intros q cs. pose proof (role_based_spec q cs) as Hs.
  destruct (role_based_select q cs); [|done..]. intros s0.
  destruct Hs as (? & [[_ Ho]|(_ & c & (? & ? & _) & ?)]); split; eauto.
Qed.

#[global] Instance LoadBalanced_laws : RoutingLaws LoadBalancedRouter.
Proof.
  apply (lift_select_laws load_balanced_select); [done|]. intros q cs. pose proof (load_balanced_spec q cs) as Hs.
  destruct (load_balanced_select q cs); [|done..]. intros s0. destruct Hs as (? & c & (? & ? & _) & ? & _). split; eauto.
Qed.

#[global] Instance PipelineStage_laws : RoutingLaws PipelineStageRouter.
Proof.
  apply (lift_select_laws pipeline_stage_select); [done|]. intros q cs. pose proof (pipeline_stage_spec q cs) as Hs.
  destruct (pipeline_stage_select q cs); [|done..]. intros s0. destruct Hs as (? & s & c & _ & (? & ? & _) & ? & _). split; eauto.
Qed.

#[global] Instance Mesh_laws : RoutingLaws PipelineTensorParallelRouter.
Proof.
  apply (lift_select_laws mesh_select); [done|]. intros q cs. pose proof (mesh_spec q cs) as Hs.
  destruct (mesh_select q cs); [|done..]. intros s0. destruct Hs as (? & s & k & c & _ & _ & (? & ? & _) & ?). split; eauto.
Qed.

(** ** Round robin *)

(** The ids of the candidates that take part, in the order of the rotation. *)
Definition rotation (q : RoutingRequest) (cs : list NodeCandidate) : list string :=
  c_node_id <$> sort_by by_id (role_filter q (filter is_online cs)).

Lemma round_robin_spec q cs s :
  match round_robin_select q cs s with
  | (s', Ok d) => counter s' = as_u64 (counter s + 1) ∧ strategy d = round_robin_name ∧ rotation q cs ≠ [] ∧
      rotation q cs !! (N.to_nat (counter s) `mod` length (rotation q cs)) = Some (target_node d)
  | (s', Err e) => s' = s ∧ e = NoOnlineNodes ∧ rotation q cs = [] ∧ ∀ c, c ∈ cs → ¬ is_online c
  | (_, Panic) => False
  end.
Proof.
  unfold round_robin_select, rotation. case_decide as Ho; simpl.
  { split_and!; [done..| |].
    - rewrite Ho. unfold role_filter. by destruct (preferred_role q).
    - intros c Hc Hx. by destruct (filter_nil_not_elem_of _ _ _ Ho Hx). }
  set (l := sort_by by_id (role_filter q (filter is_online cs))).
  assert (Hl : l ≠ []) by (intros E%sort_by_nil_inv%role_filter_nil; done).
  unfold mbind, M_bind, get, put. simpl. rewrite length_fmap, list_lookup_fmap.
  destruct (lookup_lt_is_Some_2 l (N.to_nat (counter s) `mod` length l)) as [c Hc].
  { apply Nat.mod_upper_bound. by destruct l. }
  rewrite Hc. simpl. split_and!; [done|done|by destruct l|done].
Qed.

#[global] Instance RoundRobin_laws : RoutingLaws RoundRobinRouter.
Proof.
  split.
  - intros q cs s. pose proof (round_robin_spec q cs s) as Hs. simpl. by destruct (round_robin_select q cs s) as [? []].
  - intros q cs s s' d E. pose proof (round_robin_spec q cs s) as Hs. simpl in E. rewrite E in Hs.
    destruct Hs as (_ & ? & _ & Hl). split; [done|].
    apply list_elem_of_lookup_2, list_elem_of_fmap in Hl as (c & -> & Hc).
    apply elem_of_sort_by, role_filter_elem, list_elem_of_filter in Hc as [? ?]. eauto.
Qed.

Lemma role_filter_perm q l1 l2 : l1 ≡ₚ l2 → role_filter q l1 ≡ₚ role_filter q l2.
Proof.
  intros Hp. unfold role_filter. destruct (preferred_role q) as [r|]; [|done]. simpl.
  assert (Hf : filter (serves r) l1 ≡ₚ filter (serves r) l2) by by rewrite Hp.
  destruct (decide (filter _ l1 = [])) as [E1|E1], (decide (filter _ l2 = [])) as [E2|E2]; try done.
  - destruct E2. apply Permutation_nil_r. by rewrite <-Hf, E1.
  - destruct E1. apply Permutation_nil_r. by rewrite Hf, E2.
Qed.

(** The rotation does not depend on the order in which the candidates are listed. *)
Lemma rotation_perm q cs1 cs2 : cs1 ≡ₚ cs2 → rotation q cs1 = rotation q cs2.
Proof. intros Hp. apply (sort_by_key_perm c_node_id string_le). apply role_filter_perm. by rewrite Hp. Qed.

Lemma rotation_role q q' cs : preferred_role q = preferred_role q' → rotation q cs = rotation q' cs.
Proof. intros E. unfold rotation, role_filter. by rewrite E. Qed.

(** A window of [n] consecutive counters meets every residue once. *)
Lemma mod_window_perm k n : (λ i, (k + i) `mod` n) <$> seq 0 n ≡ₚ seq 0 n.
Proof.
  destruct (decide (n = 0)) as [->|Hn]; [done|].
  apply submseteq_length_Permutation; [|by rewrite length_fmap].
  apply NoDup_submseteq.
  - apply NoDup_fmap_2_strong; [|apply NoDup_seq]. intros i j Hi%elem_of_seq Hj%elem_of_seq E.
    pose proof (Nat.div_mod_eq (k + i) n) as Ei. pose proof (Nat.div_mod_eq (k + j) n) as Ej. rewrite E in Ei.
    destruct (Nat.lt_trichotomy ((k + i) / n) ((k + j) / n)) as [|[|]]; nia.
  - intros x (i & -> & _)%list_elem_of_fmap. apply elem_of_seq. pose proof (Nat.mod_upper_bound (k + i) n Hn). lia.
Qed.

(** A run of requests through one router. *)
Fixpoint route_all {S} `{RoutingStrategy S} (qs : list (RoutingRequest * list NodeCandidate)) :
    M S RoutingError (list RoutingDecision) :=
  match qs with
  | [] => mret []
  | (q, cs) :: qs' => d ← select_node q cs; ds ← route_all qs'; mret (d :: ds)
  end.

Lemma route_all_rotation ids qs : ∀ s,
  ids ≠ [] → (∀ q cs, (q, cs) ∈ qs → rotation q cs = ids) →
  (counter s + N.of_nat (length qs) < 2 ^ 64)%N →
  ∃ s' ds, route_all qs s = (s', Ok ds) ∧ counter s' = (counter s + N.of_nat (length qs))%N ∧
    Forall2 (λ i d, ids !! ((N.to_nat (counter s) + i) `mod` length ids) = Some (target_node d)) (seq 0 (length qs)) ds.
Proof.
  induction qs as [|[q cs] qs IH]; intros s Hne Hr Hc.
  { exists s, []. split_and!; [done|simpl; lia|constructor]. }
  simpl. pose proof (round_robin_spec q cs s) as Hs. rewrite (Hr q cs) in Hs by set_solver.
  unfold mbind, M_bind. destruct (round_robin_select q cs s) as [s1 [d| |]]; [|naive_solver..].
  destruct Hs as (E1 & _ & _ & Hl).
  assert (E1' : counter s1 = (counter s + 1)%N) by (rewrite E1; unfold as_u64; apply N.mod_small; simpl in Hc; lia).
  destruct (IH s1) as (s' & ds & E & Ec & Hf); [done|intros; apply Hr; set_solver|simpl in Hc; lia|].
  rewrite E. exists s', (d :: ds). split_and!; [done|simpl; lia|].
  constructor; [by rewrite Nat.add_0_r|]. rewrite <-fmap_S_seq. apply Forall2_fmap_l.
  eapply Forall2_impl; [exact Hf|]. intros i d'. simpl. rewrite E1'.
  by replace (N.to_nat (counter s + 1) + i) with (N.to_nat (counter s) + S i) by lia.
Qed.

Lemma Forall2_lookup_perm (ids : list string) k ds :
  Forall2 (λ i d, ids !! ((k + i) `mod` length ids) = Some (target_node d)) (seq 0 (length ids)) ds →
  target_node <$> ds ≡ₚ ids.
Proof.
  intros Hf.
  assert (E : Some <$> (target_node <$> ds) = (λ j, ids !! j) <$> ((λ i, (k + i) `mod` length ids) <$> seq 0 (length ids))).
  { rewrite <-!list_fmap_compose. induction Hf as [|i d l ds Hi _ IH]; [done|]. rewrite !fmap_cons. f_equal; [exact (eq_sym Hi)|done]. }
  assert (E' : (λ j, ids !! j) <$> seq 0 (length ids) = Some <$> ids).
  { clear. apply list_eq. intros i. rewrite !list_lookup_fmap.
    destruct (decide (i < length ids)) as [Hi|Hi].
    - rewrite lookup_seq_lt by done. simpl. by destruct (lookup_lt_is_Some_2 ids i Hi) as [x ->].
    - rewrite lookup_seq_ge, (lookup_ge_None_2 ids) by lia. done. }
  assert (Hp : Some <$> (target_node <$> ds) ≡ₚ Some <$> ids) by by rewrite E, <-E', mod_window_perm.
  apply (fmap_Permutation (default EmptyString)) in Hp. rewrite <-!(list_fmap_compose Some) in Hp.
  by rewrite !(list_fmap_ext (default EmptyString ∘ Some) id), !list_fmap_id in Hp.
Qed.

(** As many requests as there are nodes in the rotation, whatever order the candidates are listed in
    each time, are sent to each of them exactly once. *)
Lemma round_robin_round q cs s (qs : list (RoutingRequest * list NodeCandidate)) :
  (∀ q' cs', (q', cs') ∈ qs → preferred_role q' = preferred_role q ∧ cs' ≡ₚ cs) →
  let ids := rotation q cs in
  ids ≠ [] → length qs = length ids → (counter s + N.of_nat (length qs) < 2 ^ 64)%N →
  ∃ s' ds, route_all qs s = (s', Ok ds) ∧ target_node <$> ds ≡ₚ ids.
Proof.
  intros Hq ids Hne Hlen Hc.
  destruct (route_all_rotation ids qs s) as (s' & ds & E & _ & Hf); [done| |done|].
  - intros q' cs' Hin. destruct (Hq q' cs' Hin) as [Hr Hp]. unfold ids. rewrite <-(rotation_perm _ _ _ Hp).
    by apply rotation_role.
  - exists s', ds. split; [done|]. rewrite Hlen in Hf. by eapply Forall2_lookup_perm.
Qed.

(** What the routing strategies choose. Every strategy without state either returns an error,
    exactly when no candidate qualifies, or a decision: the role-based router the affinity node of
    the request if it is online, else an online node of the preferred role, any online node when
    there is none; the load-balanced router an eligible node with the fewest active requests, then
    the least memory in use; the stage router a node of the stage with the fewest requests; and the
    mesh router a node of the cell. None of them panics. Round robin is fair: as many requests as
    there are nodes in the rotation, whatever order the candidates are listed in each time, are
    sent to each of them exactly once. *)
Theorem routing_strategies_correct q cs :
  (match role_based_select q cs with
   | Ok d => affinity_node q = Some (target_node d) ∧ online_in cs (target_node d) ∨
       (∀ a, affinity_node q = Some a → ¬ online_in cs a) ∧ ∃ c, eligible q cs c ∧ c_node_id c = target_node d
   | Err e => e = NoOnlineNodes ∧ ∀ c, c ∈ cs → ¬ is_online c
   | Panic => False
   end) ∧
  (match load_balanced_select q cs with
   | Ok d => ∃ c, eligible q cs c ∧ c_node_id c = target_node d ∧ ∀ c', eligible q cs c' → less_loaded c c'
   | Err e => e = NoOnlineNodes ∧ ∀ c, c ∈ cs → ¬ is_online c
   | Panic => False
   end) ∧
  (let at_stage s c := c ∈ cs ∧ is_online c ∧ c_role c = PipelineStage ∧ c_stage c = Some s in
   match pipeline_stage_select q cs with
   | Ok d => ∃ s c, preferred_stage q = Some s ∧ at_stage s c ∧ c_node_id c = target_node d ∧
               ∀ c', at_stage s c' → fewer_requests c c'
   | Err e => preferred_stage q = None ∧ e = StageRequired ∨
              ∃ s, preferred_stage q = Some s ∧ e = NoNodeForStage s ∧ ∀ c, ¬ at_stage s c
   | Panic => False
   end) ∧
  (let at_cell s k c := c ∈ cs ∧ is_online c ∧ is_pp_tp (c_role c) = true ∧ c_stage c = Some s ∧ c_rank c = Some k in
   match mesh_select q cs with
   | Ok d => ∃ s k c, preferred_stage q = Some s ∧ preferred_rank q = Some k ∧ at_cell s k c ∧ c_node_id c = target_node d
   | Err e => preferred_stage q = None ∧ e = MeshStageRequired ∨
              is_Some (preferred_stage q) ∧ preferred_rank q = None ∧ e = MeshRankRequired ∨
              ∃ s k, preferred_stage q = Some s ∧ preferred_rank q = Some k ∧ e = NoMeshNode s k ∧ ∀ c, ¬ at_cell s k c
   | Panic => False
   end) ∧
  (∀ s (qs : list (RoutingRequest * list NodeCandidate)),
     (∀ q' cs', (q', cs') ∈ qs → preferred_role q' = preferred_role q ∧ cs' ≡ₚ cs) →
     rotation q cs ≠ [] → length qs = length (rotation q cs) → (counter s + N.of_nat (length qs) < 2 ^ 64)%N →
     ∃ s' ds, route_all qs s = (s', Ok ds) ∧ target_node <$> ds ≡ₚ rotation q cs).
Proof.
  split_and!.
  - pose proof (role_based_spec q cs). destruct (role_based_select q cs); naive_solver.
  - pose proof (load_balanced_spec q cs). destruct (load_balanced_select q cs); naive_solver.
  - pose proof (pipeline_stage_spec q cs) as Hs. simpl in Hs. destruct (pipeline_stage_select q cs); naive_solver.
  - pose proof (mesh_spec q cs) as Hs. simpl in Hs. destruct (mesh_select q cs); naive_solver.
  - apply round_robin_round.
Qed.

Lemma routing_strategies_witness :
  let c x st := mkCandidate x Hybrid st None None None in
  let cs := [c "b" Online; c "a" Online; c "x" Unreachable] in
  let q := request_new "r" in
  ∃ s' ds, route_all [(q, cs); (q, reverse cs)] (mkRoundRobin 7) = (s', Ok ds) ∧ target_node <$> ds ≡ₚ ["a"; "b"].
Proof.
  intros c cs q.
  refine (proj2 (proj2 (proj2 (proj2 (routing_strategies_correct q cs)))) (mkRoundRobin 7) [(q, cs); (q, reverse cs)] _ _ _ _).
  - intros q' cs' Hin. repeat (apply elem_of_cons in Hin as [[= -> ->]|Hin]); [by split|split; [done|apply reverse_Permutation]|].
    by apply elem_of_nil in Hin.
  - vm_compute. discriminate.
  - reflexivity.
  - vm_compute. reflexivity.
Defined.
