(* ===== verification/ClusterTracker.v ===== *)
(** * Request lifecycles

    [distributed/request_tracker.rs]: the states a request goes through, the record
    of its transitions, and the bounded table of requests. Request ids are UUIDs
    drawn outside the model and passed in. *)

From S2P Require Import Prelude StableSort ClusterNodes.

Inductive RequestState :=
  | Submitted
  | Routing
  | Processing (node : string)
  | Handoff (from_node to_node : string)
  | Completed
  | Failed (reason : string).

#[global] Instance RequestState_eq_dec : EqDecision RequestState.
Proof. solve_decision. Defined.

Record StateTransition := mkTransition { tr_state : RequestState; timestamp : nat }.

Record RequestLifecycle := mkLifecycle {
  lc_id : string;
  current_state : RequestState;
  transitions : list StateTransition;
  created_at : nat;
}.

(** [RequestId::from_string] *)
Definition request_id_from_string (s : string) : option string :=
  if decide (s = EmptyString ∨ 256 < String.length s) then None else Some s.

Definition lifecycle_new (now : nat) (id : string) : RequestLifecycle :=
  mkLifecycle id Submitted [mkTransition Submitted now] now.

Definition lifecycle_transition (now : nat) (st : RequestState) (l : RequestLifecycle) : RequestLifecycle :=
  mkLifecycle (lc_id l) st (transitions l ++ [mkTransition st now]) (created_at l).

Definition terminal_state (st : RequestState) : bool :=
  match st with Completed | Failed _ => true | _ => false end.

Definition is_terminal (l : RequestLifecycle) : bool := terminal_state (current_state l).

Definition is_valid_transition (from to : RequestState) : bool :=
  match from, to with
  | Submitted, Routing | Submitted, Failed _
  | Routing, Processing _ | Routing, Failed _
  | Processing _, Handoff _ _ | Processing _, Completed | Processing _, Failed _
  | Handoff _ _, Processing _ | Handoff _ _, Failed _ => true
  | _, _ => false
  end.

Definition DEFAULT_MAX_TRACKED : nat := 10000.

Record RequestTracker := mkTracker { max_tracked : nat; requests : gmap string RequestLifecycle }.

Definition tracker_new (max : nat) : RequestTracker := mkTracker max ∅.

Definition set_requests (t : RequestTracker) (m : gmap string RequestLifecycle) : RequestTracker :=
  mkTracker (max_tracked t) m.

Definition older : relation (string * nat) := λ a b, a.2 ≤ b.2.
#[global] Instance older_dec a b : Decision (older a b).
Proof. unfold older. apply _. Defined.

Section tracker.
Context `{O : StringOrder}.

(** The terminal requests, the oldest first. *)
Definition completed_by_age (t : RequestTracker) : list (string * nat) :=
  sort_by older ((λ x, (x.1, created_at x.2)) <$> filter (λ x, is_terminal x.2 = true) (str_iter (requests t))).

Definition evict_if_needed (t : RequestTracker) : RequestTracker :=
  if decide (size (requests t) < max_tracked t) then t
  else
    let to_remove := size (requests t) - max_tracked t + 1 in
    set_requests t (foldl (λ m x, delete x.1 m) (requests t) (take to_remove (completed_by_age t))).

(** [submit], with the UUID drawn for it, and [submit_with_id]. *)
Definition submit (now : nat) (id : string) (t : RequestTracker) : RequestTracker :=
  let t := evict_if_needed t in set_requests t (<[id := lifecycle_new now id]> (requests t)).

End tracker.

Definition transition (now : nat) (id : string) (st : RequestState) (t : RequestTracker) : RequestTracker * bool :=
  match requests t !! id with
  | Some l =>
    if is_terminal l then (t, false)
    else if negb (is_valid_transition (current_state l) st) then (t, false)
    else (set_requests t (<[id := lifecycle_transition now st l]> (requests t)), true)
  | None => (t, false)
  end.

Definition get_state (id : string) (t : RequestTracker) : option RequestState := current_state <$> requests t !! id.

Definition tracked_count (t : RequestTracker) : nat := size (requests t).

Definition active_count (t : RequestTracker) : nat :=
  length (filter (λ x, ¬ is_terminal x.2 = true) (map_to_list (requests t))).

Definition tracker_remove (id : string) (t : RequestTracker) : RequestTracker * option RequestLifecycle :=
  (set_requests t (delete id (requests t)), requests t !! id).

(** ** Runs *)

Inductive tracker_op :=
  | TSubmit (now : nat) (id : string)
  | TTransition (now : nat) (id : string) (st : RequestState)
  | TRemove (id : string).

Definition tracker_step `{StringOrder} (t : RequestTracker) (op : tracker_op) : RequestTracker :=
  match op with
  | TSubmit now id => submit now id t
  | TTransition now id st => (transition now id st t).1
  | TRemove id => (tracker_remove id t).1
  end.

(** ** Well-formed lifecycles *)

(** Each recorded state follows the one before it. *)
Fixpoint valid_path (from : RequestState) (l : list StateTransition) : Prop :=
  match l with
  | [] => True
  | x :: l' => is_valid_transition from (tr_state x) = true ∧ valid_path (tr_state x) l'
  end.

Record lifecycle_wf (id : string) (l : RequestLifecycle) : Prop := {
  lw_id : lc_id l = id;
  lw_path : ∃ rest, transitions l = mkTransition Submitted (created_at l) :: rest ∧ valid_path Submitted rest ∧
              current_state l = default Submitted (tr_state <$> last rest);
}.

Definition tracker_wf (t : RequestTracker) : Prop := map_Forall lifecycle_wf (requests t).

Lemma valid_path_snoc from l x :
  valid_path from (l ++ [x]) ↔
  valid_path from l ∧ is_valid_transition (default from (tr_state <$> last l)) (tr_state x) = true.
Proof.
  revert from. induction l as [|y l IH]; intros from; simpl; [naive_solver|].
  rewrite IH, last_cons. destruct (last l); simpl; naive_solver.
Qed.

Lemma lifecycle_new_wf now id : lifecycle_wf id (lifecycle_new now id).
Proof. split; [done|]. by exists []. Qed.

Lemma lifecycle_transition_wf now st id l :
  lifecycle_wf id l → is_valid_transition (current_state l) st = true → lifecycle_wf id (lifecycle_transition now st l).
Proof.
  intros [Hid (rest & E1 & E2 & E3)] Hv. split; [done|]. exists (rest ++ [mkTransition st now]). simpl.
  rewrite E1, valid_path_snoc, last_snoc, <-E3. by split_and!.
Qed.

Section wf.
Context `{O : StringOrder}.

Lemma foldl_delete_lookup {V} (l : list (string * nat)) (m : gmap string V) id :
  foldl (λ m x, delete x.1 m) m l !! id = if decide (id ∈ l.*1) then None else m !! id.
Proof.
  revert m. induction l as [|[i a] l IH]; intros m; simpl; [done|]. rewrite IH.
  destruct (decide (id ∈ l.*1)) as [Hl|Hl].
  - rewrite decide_True by set_solver. done.
  - destruct (decide (i = id)) as [->|Hi]; [rewrite lookup_delete_eq, decide_True by set_solver|rewrite lookup_delete_ne, decide_False by set_solver]; done.
Qed.

Lemma completed_by_age_terminal t id a :
  (id, a) ∈ completed_by_age t → ∃ l, requests t !! id = Some l ∧ is_terminal l = true ∧ created_at l = a.
Proof.
  unfold completed_by_age. rewrite elem_of_sort_by, list_elem_of_fmap. intros ([i l] & [= -> ->] & Hx).
  apply list_elem_of_filter in Hx as [Ht Hi]. rewrite str_iter_perm, elem_of_map_to_list in Hi. eauto.
Qed.

Definition evicted (t : RequestTracker) : list (string * nat) :=
  if decide (size (requests t) < max_tracked t) then []
  else take (size (requests t) - max_tracked t + 1) (completed_by_age t).

Lemma evict_lookup t id :
  requests (evict_if_needed t) !! id = if decide (id ∈ (evicted t).*1) then None else requests t !! id.
Proof.
  unfold evict_if_needed, evicted. case_decide; [done|]. simpl. apply foldl_delete_lookup.
Qed.

Lemma evict_max t : max_tracked (evict_if_needed t) = max_tracked t.
Proof. unfold evict_if_needed. by case_decide. Qed.

Lemma evicted_terminal t id :
  id ∈ (evicted t).*1 → ∃ l, requests t !! id = Some l ∧ is_terminal l = true.
Proof.
  rewrite list_elem_of_fmap. intros ([i a] & -> & Hx). unfold evicted in Hx. case_decide; [by apply elem_of_nil in Hx|].
  apply elem_of_take in Hx as (j & Hj & _). apply list_elem_of_lookup_2, completed_by_age_terminal in Hj as (l & ? & ? & _).
  eauto.
Qed.

(** A request in progress is never evicted. *)
Lemma evict_keeps t id l : requests t !! id = Some l → is_terminal l = false → requests (evict_if_needed t) !! id = Some l.
Proof.
  intros E Ht. rewrite evict_lookup, decide_False; [done|]. intros (l' & E' & Ht')%evicted_terminal. congruence.
Qed.

Lemma evict_wf t : tracker_wf t → tracker_wf (evict_if_needed t).
Proof. intros Hwf id l. rewrite evict_lookup. case_decide; [done|]. apply Hwf. Qed.

Lemma submit_wf now id t : tracker_wf t → tracker_wf (submit now id t).
Proof. intros Hwf. apply map_Forall_insert_2; [apply lifecycle_new_wf|by apply evict_wf]. Qed.

Lemma transition_wf now id st t : tracker_wf t → tracker_wf (transition now id st t).1.
Proof.
  intros Hwf. unfold transition. destruct (requests t !! id) as [l|] eqn:E; [|done].
  destruct (is_terminal l); [done|]. destruct (is_valid_transition _ _) eqn:Ev; [|done]. simpl.
  apply map_Forall_insert_2; [|done]. apply lifecycle_transition_wf; [by apply Hwf|done].
Qed.

Lemma tracker_step_wf t op : tracker_wf t → tracker_wf (tracker_step t op).
Proof.
  destruct op; simpl; auto using submit_wf, transition_wf. intros Hwf. by apply map_Forall_delete.
Qed.

(** What one operation does to the record of one request. *)
Lemma transition_spec now id st t :
  match requests t !! id with
  | Some l => if is_valid_transition (current_state l) st
              then transition now id st t = (set_requests t (<[id := lifecycle_transition now st l]> (requests t)), true)
              else transition now id st t = (t, false)
  | None => transition now id st t = (t, false)
  end.
Proof.
  unfold transition. destruct (requests t !! id) as [l|]; [|done]. unfold is_terminal.
  destruct (current_state l), st; done.
Qed.

End wf.

(** ** How many requests are kept *)

Section bound.
Context `{O : StringOrder}.

Lemma foldl_delete_size {V} (l : list (string * nat)) (m : gmap string V) :
  NoDup l.*1 → (∀ x, x ∈ l → is_Some (m !! x.1)) → size (foldl (λ m x, delete x.1 m) m l) + length l = size m.
Proof.
  revert m. induction l as [|[i a] l IH]; intros m Hnd Hs; simpl; [lia|].
  apply NoDup_cons in Hnd as [Hi Hnd]. destruct (Hs (i, a)) as [v Hv]; [set_solver|]. simpl in *.
  rewrite <-(insert_delete_id m i v) at 2 by done. rewrite map_size_insert_None by apply lookup_delete_eq.
  rewrite <-(IH (delete i m)); [lia|done|]. intros x Hx. rewrite lookup_delete_ne; [apply Hs; set_solver|].
  intros ->. apply Hi, list_elem_of_fmap_2, Hx.
Qed.

Lemma completed_by_age_NoDup t : NoDup (completed_by_age t).*1.
Proof.
  unfold completed_by_age. rewrite sort_by_perm, <-list_fmap_compose, str_iter_perm.
  eapply sublist_NoDup; [apply (NoDup_fst_map_to_list (requests t))|].
  change (λ x, x.1) with (@fst string RequestLifecycle).
  apply (fmap_sublist fst). apply sublist_filter.
Qed.
Lemma completed_by_age_length t : length (completed_by_age t) + active_count t = size (requests t).
Proof.
  unfold completed_by_age, active_count. rewrite length_sort_by, length_fmap, str_iter_perm.
  rewrite Nat.add_comm. rewrite filter_split_length. apply length_map_to_list.
Qed.

#[local] Instance older_trans : Transitive older.
Proof. intros a b c. unfold older. lia. Qed.
#[local] Instance older_total : Total older.
Proof. intros a b. unfold older. lia. Qed.

(** The evicted requests are the oldest of the terminal ones. *)
Lemma evicted_oldest t x y :
  x ∈ evicted t → y ∈ completed_by_age t → y ∉ evicted t → x.2 ≤ y.2.
Proof.
  unfold evicted. case_decide; [by intros ?%elem_of_nil|]. set (n := _ + 1). intros Hx Hy Hn.
  pose proof (sort_by_sorted older ((λ x, (x.1, created_at x.2)) <$> filter (λ x, is_terminal x.2 = true) (str_iter (requests t)))) as Hs.
  fold (completed_by_age t) in Hs. apply Sorted_StronglySorted in Hs; [|apply _].
  rewrite <-(take_drop n (completed_by_age t)) in Hs, Hy. apply elem_of_app in Hy as [Hy|Hy]; [done|].
  exact (StronglySorted_app_1_elem_of older _ _ _ _ Hs Hx Hy).
Qed.

Lemma evict_size t : size (requests (evict_if_needed t)) < max_tracked t ∨ size (requests (evict_if_needed t)) ≤ active_count t.
Proof.
  unfold evict_if_needed. case_decide; [by left|]. simpl.
  set (n := size (requests t) - max_tracked t + 1).
  pose proof (foldl_delete_size (take n (completed_by_age t)) (requests t)) as Hsz.
  pose proof (completed_by_age_length t). rewrite length_take in Hsz.
  enough (NoDup (take n (completed_by_age t)).*1 ∧ ∀ x, x ∈ take n (completed_by_age t) → is_Some (requests t !! x.1)) as [H1 H2].
  { specialize (Hsz H1 H2). destruct (decide (n ≤ length (completed_by_age t))); lia. }
  split.
  - rewrite fmap_take. eapply sublist_NoDup; [apply completed_by_age_NoDup|apply sublist_take].
  - intros [i a] (j & Hj & _)%elem_of_take.
    apply list_elem_of_lookup_2, completed_by_age_terminal in Hj as (l & ? & _). by exists l.
Qed.

Lemma submit_size now id t : size (requests (submit now id t)) ≤ max (max_tracked t) (S (active_count t)).
Proof.
  unfold submit. simpl. rewrite map_size_insert. pose proof (evict_size t). case_match; simpl; lia.
Qed.

(** Another request survives a submission, or is terminal and no younger than any terminal request left. *)
Lemma submit_other now id' t id l :
  requests t !! id = Some l → id' ≠ id →
  let t' := submit now id' t in
  requests t' !! id = Some l ∨
  is_terminal l = true ∧ requests t' !! id = None ∧
  ∀ id2 l2, requests t !! id2 = Some l2 → is_terminal l2 = true → id2 ≠ id' →
            is_Some (requests t' !! id2) → created_at l ≤ created_at l2.
Proof.
  intros Hl Hid. simpl. rewrite lookup_insert_ne by done. rewrite evict_lookup.
  case_decide as Hev; [right|by left]. pose proof (evicted_terminal t id Hev) as (l' & Hl' & Ht).
  assert (l' = l) as -> by congruence.
  split_and!; [done..|]. intros id2 l2 Hl2 Ht2 Hne [z Hz]. rewrite lookup_insert_ne, evict_lookup in Hz by done.
  case_decide as Hev2; [done|]. apply list_elem_of_fmap in Hev as ([i a] & -> & Hx).
  assert (Ha : created_at l = a).
  { assert (Hc : (i, a) ∈ completed_by_age t).
    { unfold evicted in Hx. case_decide; [by apply elem_of_nil in Hx|].
      apply elem_of_take in Hx as (j & Hj & _). by apply list_elem_of_lookup_2 in Hj. }
    apply completed_by_age_terminal in Hc as (l3 & ? & _ & ?). simpl in *. congruence. }
  rewrite Ha. apply (evicted_oldest t (i, a) (id2, created_at l2) Hx).
  - unfold completed_by_age. rewrite elem_of_sort_by, list_elem_of_fmap. exists (id2, l2). split; [done|].
    rewrite list_elem_of_filter, elem_of_str_iter. done.
  - intros Hin. apply Hev2. apply list_elem_of_fmap. by exists (id2, created_at l2).
Qed.

End bound.

(** The request tracker. In every state reached by submitting, transitioning and removing
    requests in any order, the record of each request is a path of the documented state machine
    from Submitted, ends in the current state and keeps the creation time; a transition is taken
    exactly when the machine has it, so a terminal request never changes; submitting evicts only
    terminal requests, the oldest first, and leaves at most the configured number of requests,
    or those in progress and the new one when these are more. *)
Theorem request_lifecycle_correct `{StringOrder} max ops op :
  let t := foldl tracker_step (tracker_new max) ops in
  let t' := tracker_step t op in
  tracker_wf t ∧ max_tracked t = max ∧
  (∀ id l, requests t !! id = Some l →
     match op with
     | TSubmit now id' =>
       if decide (id' = id) then requests t' !! id = Some (lifecycle_new now id)
       else requests t' !! id = Some l ∨
            is_terminal l = true ∧ requests t' !! id = None ∧
            ∀ id2 l2, requests t !! id2 = Some l2 → is_terminal l2 = true → id2 ≠ id' →
                      is_Some (requests t' !! id2) → created_at l ≤ created_at l2
     | TTransition now id' st =>
       requests t' !! id = Some (if decide (id' = id ∧ is_valid_transition (current_state l) st = true)
                                 then lifecycle_transition now st l else l)
     | TRemove id' => requests t' !! id = if decide (id' = id) then None else Some l
     end) ∧
  (∀ now id, op = TSubmit now id → size (requests t') ≤ Nat.max max (S (active_count t))).
Proof.
  intros t t'.
  assert (Hwf : tracker_wf t ∧ max_tracked t = max).
  { unfold t. clear t t'. induction ops as [|o ops IH] using rev_ind; [split; [apply map_Forall_empty|done]|].
    rewrite foldl_app. simpl. destruct IH as [IH1 IH2]. split; [by apply tracker_step_wf|].
    destruct o as [now id|now id st|id]; simpl; [by rewrite evict_max| |done].
    pose proof (transition_spec now id st (foldl tracker_step (tracker_new max) ops)) as Hs.
    repeat case_match; by rewrite Hs. }
  destruct Hwf as [Hwf Hmax]. split_and!; [done..| |].
  - intros id l Hl. unfold t'. destruct op as [now id'|now id' st|id']; simpl.
    + case_decide as Hid; [rewrite Hid; by rewrite lookup_insert_eq|]. by apply submit_other.
    + pose proof (transition_spec now id' st t) as Hs. destruct (decide (id' = id)) as [->|Hid].
      * rewrite Hl in Hs. destruct (is_valid_transition (current_state l) st); rewrite Hs; simpl.
        -- by rewrite lookup_insert_eq, decide_True.
        -- rewrite decide_False; [done|naive_solver].
      * rewrite decide_False by naive_solver. repeat case_match; rewrite Hs; simpl; [by rewrite lookup_insert_ne|done..].
    + case_decide as Hid; [rewrite Hid; apply lookup_delete_eq|by rewrite lookup_delete_ne].
  - intros now id ->. clearbody t. subst max. apply (submit_size now id t).
Qed.
