(* ===== verification/ClusterQueues.v ===== *)
(** * Handoff queues

    [distributed/handoff_queue.rs]: bounded queues of requests that move between
    nodes, and the manager that names them. A queue is shared by all its clones, so
    the manager maps names to references of a heap of queues: a queue whose name
    was removed lives on for those who hold it, and is gone with its items when the
    last of them lets go ([drop_queue]). *)

From S2P Require Import Prelude ClusterNodes.

Inductive OverflowPolicy := Reject | DropOldest | BlockWhenFull.

Record HandoffQueueConfig := mkQueueConfig { q_capacity : nat; q_overflow : OverflowPolicy }.

Definition default_queue_config : HandoffQueueConfig := mkQueueConfig 64 Reject.

Record HandoffItem := mkItem {
  hi_request_id : string;
  hi_from_node : string;
  hi_to_node : string;
  hi_payload : list N;
  hi_enqueued_at : nat;
}.

Inductive EnqueueResult := EnqSuccess | EnqDroppedOldest | EnqRejected.

(** The counters have 64 bits; no queue sees 2^64 items. *)
Record QueueStats := mkStats {
  total_enqueued : nat;
  total_dequeued : nat;
  total_dropped : nat;
  total_rejected : nat;
}.

Record HandoffQueue := mkQueue { hq_config : HandoffQueueConfig; items : list HandoffItem; stats : QueueStats }.

Definition queue_new (c : HandoffQueueConfig) : HandoffQueue := mkQueue c [] (mkStats 0 0 0 0).

Definition count_enqueued (s : QueueStats) : QueueStats :=
  mkStats (S (total_enqueued s)) (total_dequeued s) (total_dropped s) (total_rejected s).
Definition count_dequeued (s : QueueStats) : QueueStats :=
  mkStats (total_enqueued s) (S (total_dequeued s)) (total_dropped s) (total_rejected s).
Definition count_dropped (s : QueueStats) : QueueStats :=
  mkStats (total_enqueued s) (total_dequeued s) (S (total_dropped s)) (total_rejected s).
Definition count_rejected (s : QueueStats) : QueueStats :=
  mkStats (total_enqueued s) (total_dequeued s) (total_dropped s) (S (total_rejected s)).

Definition enqueue (x : HandoffItem) (q : HandoffQueue) : HandoffQueue * EnqueueResult :=
  if decide (q_capacity (hq_config q) ≤ length (items q)) then
    match q_overflow (hq_config q) with
    | Reject => (mkQueue (hq_config q) (items q) (count_rejected (stats q)), EnqRejected)
    | DropOldest =>
      (mkQueue (hq_config q) (tail (items q) ++ [x]) (count_enqueued (count_dropped (stats q))), EnqDroppedOldest)
    | BlockWhenFull => (mkQueue (hq_config q) (items q) (count_rejected (stats q)), EnqRejected)
    end
  else (mkQueue (hq_config q) (items q ++ [x]) (count_enqueued (stats q)), EnqSuccess).

Definition dequeue (q : HandoffQueue) : HandoffQueue * option HandoffItem :=
  match items q with
  | x :: l => (mkQueue (hq_config q) l (count_dequeued (stats q)), Some x)
  | [] => (q, None)
  end.

Definition peek (q : HandoffQueue) : option HandoffItem := head (items q).

Definition queue_len (q : HandoffQueue) : nat := length (items q).

Definition is_full (q : HandoffQueue) : bool := bool_decide (q_capacity (hq_config q) ≤ queue_len q).

Definition clear (q : HandoffQueue) : HandoffQueue := mkQueue (hq_config q) [] (stats q).

(** ** The manager *)

Record HandoffQueueManager := mkManager {
  default_config : HandoffQueueConfig;
  queue_refs : gmap string nat;
  heap : gmap nat HandoffQueue;
  next_ref : nat;
}.

Definition manager_new (c : HandoffQueueConfig) : HandoffQueueManager := mkManager c ∅ ∅ 0.

Definition get_or_create_with_config (name : string) (c : HandoffQueueConfig) (m : HandoffQueueManager) :
    HandoffQueueManager * nat :=
  match queue_refs m !! name with
  | Some r => (m, r)
  | None =>
    (mkManager (default_config m) (<[name := next_ref m]> (queue_refs m))
       (<[next_ref m := queue_new c]> (heap m)) (S (next_ref m)), next_ref m)
  end.

(** Looks the name up under the read lock first, and again under the write lock. *)
Definition get_or_create (name : string) (m : HandoffQueueManager) : HandoffQueueManager * nat :=
  match queue_refs m !! name with
  | Some r => (m, r)
  | None => get_or_create_with_config name (default_config m) m
  end.

Definition manager_get (name : string) (m : HandoffQueueManager) : option nat := queue_refs m !! name.

Definition queue_names `{StringOrder} (m : HandoffQueueManager) : list string := (str_iter (queue_refs m)).*1.

(** [remove] hands the queue to the caller: it stays in the heap until the last handle is
    dropped. *)
Definition manager_remove (name : string) (m : HandoffQueueManager) : HandoffQueueManager * option nat :=
  (mkManager (default_config m) (delete name (queue_refs m)) (heap m) (next_ref m), queue_refs m !! name).

(** The last handle of a queue goes away, and its items with it. The manager has a handle of
    every queue it names. *)
Definition drop_queue (r : nat) (m : HandoffQueueManager) : HandoffQueueManager * list HandoffItem :=
  match heap m !! r with
  | Some q =>
    if decide (map_Forall (λ _ r', r' ≠ r) (queue_refs m))
    then (mkManager (default_config m) (queue_refs m) (delete r (heap m)) (next_ref m), items q)
    else (m, [])
  | None => (m, [])
  end.

(** An operation on the queue behind a reference. *)
Definition on_queue {A} (r : nat) (f : HandoffQueue → HandoffQueue * A) (d : A) (m : HandoffQueueManager) :
    HandoffQueueManager * A :=
  match heap m !! r with
  | Some q => let '(q', a) := f q in
              (mkManager (default_config m) (queue_refs m) (<[r := q']> (heap m)) (next_ref m), a)
  | None => (m, d)
  end.

(** References point into the heap and two names never share a queue. *)
Record manager_wf (m : HandoffQueueManager) : Prop := {
  mw_heap : ∀ name r, queue_refs m !! name = Some r → is_Some (heap m !! r);
  mw_fresh : ∀ r, is_Some (heap m !! r) → r < next_ref m;
  mw_inj : ∀ n1 n2 r, queue_refs m !! n1 = Some r → queue_refs m !! n2 = Some r → n1 = n2;
}.

Lemma manager_new_wf c : manager_wf (manager_new c).
Proof. split; simpl; [done| |done]. intros r [? ?]. done. Qed.

Lemma get_or_create_eq name m : get_or_create name m = get_or_create_with_config name (default_config m) m.
Proof. unfold get_or_create, get_or_create_with_config. by destruct (queue_refs m !! name). Qed.

Lemma get_or_create_with_config_wf name c m : manager_wf m → manager_wf (get_or_create_with_config name c m).1.
Proof.
  intros [H1 H2 H3]. unfold get_or_create_with_config. destruct (queue_refs m !! name) as [r|] eqn:E; [done|]. simpl.
  assert (Hf : ∀ n, queue_refs m !! n ≠ Some (next_ref m)) by (intros n Hn; apply H1, H2 in Hn; lia).
  split; simpl.
  - intros n r. destruct (decide (n = name)) as [->|Hn]; [rewrite lookup_insert_eq; intros [= <-]|rewrite lookup_insert_ne by done].
    + rewrite lookup_insert_eq. eauto.
    + intros Hr. rewrite lookup_insert_ne; [by eapply H1|]. intros Er. apply (Hf n). congruence.
  - intros r. destruct (decide (r = next_ref m)) as [->|Hr]; [lia|]. rewrite lookup_insert_ne by done. intros ?%H2. lia.
  - intros n1 n2 r. rewrite !lookup_insert. repeat case_decide; subst; try done; [intros [= <-] Hn2|intros Hn1 [= <-]|eauto].
    all: exfalso; by eapply Hf.
Qed.

Lemma get_or_create_lookup name m :
  manager_wf m →
  let '(m', r) := get_or_create name m in
  queue_refs m' !! name = Some r ∧
  heap m' !! r = Some (match queue_refs m !! name ≫= (heap m !!.) with Some q => q | None => queue_new (default_config m) end) ∧
  (∀ r', r' ≠ r → heap m' !! r' = heap m !! r').
Proof.
  intros [H1 H2 H3]. rewrite get_or_create_eq. unfold get_or_create_with_config.
  destruct (queue_refs m !! name) as [r|] eqn:E; simpl.
  - destruct (H1 _ _ E) as [q Hq]. by rewrite Hq.
  - rewrite !lookup_insert_eq. split_and!; [done..|]. intros r' ?. by rewrite lookup_insert_ne.
Qed.

Lemma on_queue_wf {A} r (f : HandoffQueue → HandoffQueue * A) d m : manager_wf m → manager_wf (on_queue r f d m).1.
Proof.
  intros [H1 H2 H3]. unfold on_queue. destruct (heap m !! r) as [q|] eqn:E; [|done]. destruct (f q) as [q' a]. simpl.
  split; simpl; [| |done].
  - intros n r' Hr'. destruct (decide (r = r')) as [->|]; [by rewrite lookup_insert_eq|rewrite lookup_insert_ne by done; eauto].
  - intros r' Hr'. destruct (decide (r = r')) as [->|]; [by eauto|rewrite lookup_insert_ne in Hr' by done; eauto].
Qed.

Lemma manager_remove_wf name m : manager_wf m → manager_wf (manager_remove name m).1.
Proof.
  intros [H1 H2 H3]. split; simpl; [|done|].
  - intros n r [? ?]%lookup_delete_Some. eauto.
  - intros n1 n2 r [? ?]%lookup_delete_Some [? ?]%lookup_delete_Some. eauto.
Qed.

Lemma drop_queue_wf r m : manager_wf m → manager_wf (drop_queue r m).1.
Proof.
  intros [H1 H2 H3]. unfold drop_queue. destruct (heap m !! r) as [q|]; [|done]. case_decide as Hn; [|done]. split; simpl; [| |done].
  - intros n r' Hr'. rewrite lookup_delete_ne; [by eapply H1|]. intros <-. by eapply Hn.
  - intros r' [q' [_ Hq]%lookup_delete_Some]. eauto.
Qed.

(** ** Histories of one queue *)

Inductive queue_op := QEnqueue (x : HandoffItem) | QDequeue | QClear.

Inductive removal := Served | Dropped | Cleared | Lost.

#[global] Instance removal_eq_dec : EqDecision removal.
Proof. solve_decision. Defined.

(** What went in, and what left and how, oldest first. *)
Record history := mkHistory { accepted : list HandoffItem; removed : list (removal * HandoffItem); refused : nat }.

Definition queue_step (k : HandoffQueue * history) (op : queue_op) : HandoffQueue * history :=
  let '(q, h) := k in
  match op with
  | QEnqueue x =>
    let '(q', r) := enqueue x q in
    (q', match r with
         | EnqSuccess => mkHistory (accepted h ++ [x]) (removed h) (refused h)
         | EnqDroppedOldest => mkHistory (accepted h ++ [x]) (removed h ++ (pair Dropped <$> option_list (head (items q)))) (refused h)
         | EnqRejected => mkHistory (accepted h) (removed h) (S (refused h))
         end)
  | QDequeue =>
    let '(q', o) := dequeue q in (q', mkHistory (accepted h) (removed h ++ (pair Served <$> option_list o)) (refused h))
  | QClear => (clear q, mkHistory (accepted h) (removed h ++ (pair Cleared <$> items q)) (refused h))
  end.

Definition how_many (k : removal) (h : history) : nat := length (filter (λ x, x.1 = k) (removed h)).

Lemma how_many_app k a l n r : how_many k (mkHistory a (l ++ r) n) = how_many k (mkHistory a l n) + length (filter (λ x, x.1 = k) r).
Proof. unfold how_many. simpl. by rewrite filter_app, length_app. Qed.

Lemma how_many_pair k k' (l : list HandoffItem) :
  length (filter (λ x : removal * HandoffItem, x.1 = k) (pair k' <$> l)) = if decide (k' = k) then length l else 0.
Proof.
  case_decide as E.
  - rewrite filter_all; [apply length_fmap|]. apply Forall_fmap, Forall_forall. by intros.
  - rewrite filter_none; [done|]. apply Forall_fmap, Forall_forall. by intros.
Qed.

(** The invariant of a queue and its history. *)
Record queue_inv (c : HandoffQueueConfig) (q : HandoffQueue) (h : history) : Prop := {
  qi_config : hq_config q = c;
  qi_fifo : accepted h = (removed h).*2 ++ items q;
  qi_bound : length (items q) ≤ match q_overflow c with DropOldest => Nat.max 1 (q_capacity c) | _ => q_capacity c end;
  qi_no_drop : q_overflow c ≠ DropOldest → how_many Dropped h = 0;
  qi_enqueued : total_enqueued (stats q) = length (accepted h);
  qi_dequeued : total_dequeued (stats q) = how_many Served h;
  qi_rejected : total_rejected (stats q) = refused h;
  qi_dropped : 0 < q_capacity c → total_dropped (stats q) = how_many Dropped h;
}.

Lemma queue_inv_new c : queue_inv c (queue_new c) (mkHistory [] [] 0).
Proof. split; simpl; try done. case_match; lia. Qed.

Lemma enqueue_inv c q h x : queue_inv c q h → let '(q', h') := queue_step (q, h) (QEnqueue x) in queue_inv c q' h'.
Proof.
  intros [H1 H2 H3 H4 H5 H6 H7 H8]. destruct q as [c' l [e d dr rj]], h as [a r n]. simpl in *. subst c'.
  unfold enqueue. simpl. case_decide as Hfull; simpl.
  - destruct (q_overflow c) eqn:Eo; [split; simpl; rewrite ?Eo; try done; lia| |split; simpl; rewrite ?Eo; try done; lia].
    split; simpl; rewrite ?Eo, ?how_many_app, ?how_many_pair; simpl; try done.
    + rewrite H2, fmap_app, <-app_assoc, <-!app_assoc. f_equal. by destruct l.
    + rewrite length_app. destruct l; simpl in *; lia.
    + rewrite H5, length_app. simpl. lia.
    + rewrite H6. unfold how_many. simpl. lia.
    + intros Hc. rewrite (H8 Hc). unfold how_many. destruct l; simpl in *; lia.
  - split; simpl; try done.
    + by rewrite H2, <-app_assoc.
    + rewrite length_app. simpl. case_match; lia.
    + rewrite H5, length_app. simpl. lia.
Qed.

Lemma queue_step_inv c q h op : queue_inv c q h → let '(q', h') := queue_step (q, h) op in queue_inv c q' h'.
Proof.
  destruct op as [x| |]; [apply enqueue_inv| |]; intros [H1 H2 H3 H4 H5 H6 H7 H8];
    destruct q as [c' l [e d dr rj]], h as [a r n]; simpl in *; subst c'.
  - destruct l as [|x l]; simpl; [rewrite app_nil_r; by split|].
    split; simpl; rewrite ?how_many_app; simpl; try done.
    + rewrite H2, fmap_app, <-app_assoc. done.
    + simpl in H3. case_match; lia.
    + intros Ho. specialize (H4 Ho). unfold how_many in *. simpl in *. lia.
    + rewrite H6. unfold how_many. simpl. lia.
    + intros Hc. rewrite (H8 Hc). unfold how_many. simpl. lia.
  - split; simpl; rewrite ?how_many_app, ?how_many_pair; simpl; try done.
    + rewrite H2, fmap_app, <-list_fmap_compose, app_nil_r. f_equal. symmetry. apply list_fmap_id.
    + case_match; lia.
    + intros Ho. specialize (H4 Ho). unfold how_many in *. simpl in *. lia.
    + rewrite H6. unfold how_many. simpl. lia.
    + intros Hc. rewrite (H8 Hc). unfold how_many. simpl. lia.
Qed.

(** A handoff queue is a bounded first-in first-out queue: whatever is enqueued, dequeued and
    cleared in whatever order, what went in is, in order, what left followed by what is still
    there; items are dropped only under the drop-oldest policy; the capacity is never exceeded,
    with the exception of the drop-oldest policy, under which a queue of capacity zero holds one
    item; and the counters count what they name (drops as long as the capacity is positive). *)
Theorem handoff_queue_fifo c ops :
  let '(q, h) := foldl queue_step (queue_new c, mkHistory [] [] 0) ops in
  accepted h = (removed h).*2 ++ items q ∧
  queue_len q ≤ (match q_overflow c with DropOldest => Nat.max 1 (q_capacity c) | _ => q_capacity c end) ∧
  (q_overflow c ≠ DropOldest → how_many Dropped h = 0) ∧
  total_enqueued (stats q) = length (accepted h) ∧ total_dequeued (stats q) = how_many Served h ∧
  total_rejected (stats q) = refused h ∧ (0 < q_capacity c → total_dropped (stats q) = how_many Dropped h) ∧
  (let '(q0, r) := enqueue (mkItem EmptyString EmptyString EmptyString [] 0) (queue_new (mkQueueConfig 0 DropOldest)) in
   r = EnqDroppedOldest ∧ queue_len q0 = 1 ∧ total_dropped (stats q0) = 1).
Proof.
  assert (H : let '(q, h) := foldl queue_step (queue_new c, mkHistory [] [] 0) ops in queue_inv c q h).
  { induction ops as [|op ops IH] using rev_ind; [apply queue_inv_new|]. rewrite foldl_app. simpl.
    destruct (foldl queue_step _ ops) as [q h]. by apply queue_step_inv. }
  destruct (foldl queue_step _ ops) as [q h]. destruct H. by split_and!.
Qed.
