(* ===== verification/ClusterScheduler.v ===== *)
(** * The cluster scheduler

    [distributed/backpressure.rs] and [distributed/scheduler.rs]: load levels and
    their thresholds, and the coordinator that routes a request with a strategy,
    tracks it, and hands it from node to node through the queues. The scheduler is
    a client of the strategy interface: its theorems hold for every strategy that
    keeps the laws of [ClusterRouting]. Memory utilization is an IEEE double. *)

From Stdlib Require Import SpecFloat.
From S2P Require Import Prelude StableSort ClusterConfig ClusterNodes ClusterRouting ClusterTracker ClusterQueues.

(** ** Backpressure *)

Inductive LoadLevel := Low | Normal | High | Critical.

#[global] Instance LoadLevel_eq_dec : EqDecision LoadLevel.
Proof. solve_decision. Defined.

(** The order of the declaration. *)
Definition level_rank (l : LoadLevel) : nat := match l with Low => 0 | Normal => 1 | High => 2 | Critical => 3 end.

Inductive BackpressurePolicy := Drop | Block | Redirect.

#[global] Instance BackpressurePolicy_eq_dec : EqDecision BackpressurePolicy.
Proof. solve_decision. Defined.

Record BackpressureConfig := mkBpConfig {
  high_watermark : N;
  critical_watermark : N;
  memory_high_threshold : spec_float;
  memory_critical_threshold : spec_float;
  overflow_policy : BackpressurePolicy;
}.

(** 0.80 and 0.95 as doubles. *)
Definition default_bp_config : BackpressureConfig :=
  mkBpConfig 8 16 (S754_finite false 7205759403792794 (-53)) (S754_finite false 8556839292003942 (-53)) Redirect.

Record NodeLoadState := mkLoad { level : LoadLevel; updated_at : nat; ls_active : N; ls_memory : spec_float }.

Record BackpressureSignal := mkSignal { sig_node : string; load_level : LoadLevel; sig_active : N; sig_memory : spec_float }.

Record BackpressureMonitor := mkMonitor { bp_config : BackpressureConfig; loads : gmap string NodeLoadState }.

Definition monitor_new (c : BackpressureConfig) : BackpressureMonitor := mkMonitor c ∅.

Definition record_signal (now : nat) (g : BackpressureSignal) (b : BackpressureMonitor) : BackpressureMonitor :=
  mkMonitor (bp_config b) (<[sig_node g := mkLoad (load_level g) now (sig_active g) (sig_memory g)]> (loads b)).

(** [a >= b] on doubles, false when one is not a number. *)
Definition f64_ge (a b : spec_float) : bool := SFleb b a.

Definition compute_load_level (c : BackpressureConfig) (active : N) (memory : spec_float) : LoadLevel :=
  if bool_decide (critical_watermark c ≤ active)%N || f64_ge memory (memory_critical_threshold c) then Critical
  else if bool_decide (high_watermark c ≤ active)%N || f64_ge memory (memory_high_threshold c) then High
  else if decide (0 < active)%N then Normal
  else Low.

Definition update_from_metrics (now : nat) (id : string) (active : N) (memory : spec_float) (b : BackpressureMonitor) :
    BackpressureMonitor :=
  mkMonitor (bp_config b) (<[id := mkLoad (compute_load_level (bp_config b) active memory) now active memory]> (loads b)).

Definition get_load_level (id : string) (b : BackpressureMonitor) : option LoadLevel := level <$> loads b !! id.

Definition is_under_pressure (id : string) (b : BackpressureMonitor) : bool :=
  match get_load_level id b with Some l => bool_decide (level_rank High ≤ level_rank l) | None => false end.

Definition is_critical (id : string) (b : BackpressureMonitor) : bool :=
  match get_load_level id b with Some l => bool_decide (l = Critical) | None => false end.

Definition all_load_levels (b : BackpressureMonitor) : gmap string LoadLevel := level <$> loads b.

Definition critical_nodes `{StringOrder} (b : BackpressureMonitor) : list string :=
  fst <$> filter (λ x, level x.2 = Critical) (str_iter (loads b)).

Definition monitor_remove_node (id : string) (b : BackpressureMonitor) : BackpressureMonitor :=
  mkMonitor (bp_config b) (delete id (loads b)).

(** ** The scheduler *)

Inductive CoordinationMode := Centralized | Distributed.

Record SchedulerConfig := mkSchedConfig {
  mode : CoordinationMode;
  cfg_backpressure : BackpressureConfig;
  cfg_handoff_queue : HandoffQueueConfig;
  cfg_max_tracked : nat;
  skip_pressured_nodes : bool;
}.

Definition default_sched_config : SchedulerConfig :=
  mkSchedConfig Centralized default_bp_config default_queue_config DEFAULT_MAX_TRACKED true.

Inductive SchedError :=
  | RouteError (e : RoutingError)
  | RequestDropped (node : string)
  | HandoffNotAllowed
  | HandoffRejected (queue : string).

Definition sched_message (e : SchedError) : string :=
  match e with
  | RouteError e => error_message e
  | RequestDropped n => "request dropped: target node " +:+ n +:+ " is at critical load"
  | HandoffNotAllowed => "cannot initiate handoff: request not found or already terminal"
  | HandoffRejected q => "handoff rejected: queue " +:+ q +:+ " is full"
  end.

Section scheduler.
Context {St : Type} `{RoutingStrategy St} `{O : StringOrder}.

Record Scheduler := mkScheduler {
  config : SchedulerConfig;
  registry : NodeRegistry;
  metrics : gmap string NodeMetrics;
  tracker : RequestTracker;
  backpressure : BackpressureMonitor;
  queues : HandoffQueueManager;
  routing : St;
}.

Definition with_strategy (c : SchedulerConfig) (r : NodeRegistry) (ms : gmap string NodeMetrics) (st : St) : Scheduler :=
  mkScheduler c r ms (tracker_new (cfg_max_tracked c)) (monitor_new (cfg_backpressure c))
    (manager_new (cfg_handoff_queue c)) st.

Definition set_tracker (t : RequestTracker) (s : Scheduler) : Scheduler :=
  mkScheduler (config s) (registry s) (metrics s) t (backpressure s) (queues s) (routing s).
Definition set_queues (q : HandoffQueueManager) (s : Scheduler) : Scheduler :=
  mkScheduler (config s) (registry s) (metrics s) (tracker s) (backpressure s) q (routing s).
Definition set_routing (st : St) (s : Scheduler) : Scheduler :=
  mkScheduler (config s) (registry s) (metrics s) (tracker s) (backpressure s) (queues s) st.
Definition set_backpressure (b : BackpressureMonitor) (s : Scheduler) : Scheduler :=
  mkScheduler (config s) (registry s) (metrics s) (tracker s) b (queues s) (routing s).

Definition build_candidates (s : Scheduler) : list NodeCandidate :=
  (λ n, let c := node_config n in
        mkCandidate (node_id c) (role c) (node_status n) (metrics s !! node_id c) (stage c) (rank c)) <$>
  filter (λ n, (skip_pressured_nodes (config s) && is_critical (node_id (node_config n)) (backpressure s)) = false)
    (all_nodes (registry s)).

Definition find_alternative (exclude : string) (cs : list NodeCandidate) (b : BackpressureMonitor) : option RoutingDecision :=
  let filtered := filter (λ c, c_node_id c ≠ exclude ∧ is_online c ∧ is_critical (c_node_id c) b = false) cs in
  if decide (filtered = []) then None
  else match role_based_select (request_new EmptyString) filtered with Ok d => Some d | _ => None end.

Definition track (now : nat) (id : string) (st : RequestState) : M Scheduler SchedError bool := λ s,
  let '(t, b) := transition now id st (tracker s) in (set_tracker t s, Ok b).

(** The strategy is called through the interface; its own state is updated in place. *)
Definition route (q : RoutingRequest) (cs : list NodeCandidate) : M Scheduler SchedError RoutingDecision := λ s,
  let '(st, r) := select_node q cs (routing s) in
  (set_routing st s, match r with Ok d => Ok d | Err e => Err (RouteError e) | Panic => Panic end).

Definition deliver (now : nat) (id : string) (d : RoutingDecision) : M Scheduler SchedError (string * RoutingDecision) :=
  _ ← track now id (Processing (target_node d)); mret (id, d).

(** What happens to a routed request, depending on the load of its target. *)
Definition dispatch (now : nat) (id : string) (cs : list NodeCandidate) (d : RoutingDecision) :
    M Scheduler SchedError (string * RoutingDecision) :=
  s ← get;
  if is_critical (target_node d) (backpressure s) then
    match overflow_policy (bp_config (backpressure s)) with
    | Redirect =>
      match find_alternative (target_node d) cs (backpressure s) with
      | Some alt => deliver now id alt
      | None => deliver now id d
      end
    | Drop =>
      _ ← track now id (Failed ("target node " +:+ target_node d +:+ " is at critical load"));
      throw (RequestDropped (target_node d))
    | Block => deliver now id d
    end
  else deliver now id d.

(** [id] is the UUID drawn for the request; the clock is read once. *)
Definition submit_request (now : nat) (id : string) (pref_role : option NodeRole) (pref_stage : option N)
    (affinity : option string) : M Scheduler SchedError (string * RoutingDecision) :=
  _ ← modify (λ s, set_tracker (submit now id (tracker s)) s);
  _ ← track now id Routing;
  s ← get;
  let cs := build_candidates s in
  d ← on_err (route (mkRequest id pref_role pref_stage None AnyTraffic affinity) cs)
        (λ e, _ ← track now id (Failed (sched_message e)); throw e);
  dispatch now id cs d.

Definition queue_name (from_node to_node : string) : string := from_node +:+ "->" +:+ to_node.

(** The parts of [initiate_handoff] between which no lock is held: the lifecycle, the queue, the
    item, and the failure when the queue is full. *)
Definition handoff_begin (now : nat) (id from_node to_node : string) : M Scheduler SchedError bool :=
  track now id (Handoff from_node to_node).

Definition handoff_queue (name : string) : M Scheduler SchedError nat := λ s,
  let '(m, r) := get_or_create name (queues s) in (set_queues m s, Ok r).

Definition handoff_push (r : nat) (x : HandoffItem) : M Scheduler SchedError EnqueueResult := λ s,
  let '(m, res) := on_queue r (enqueue x) EnqRejected (queues s) in (set_queues m s, Ok res).

Definition handoff_refuse (now : nat) (id name : string) : M Scheduler SchedError () :=
  _ ← track now id (Failed ("handoff queue " +:+ name +:+ " is full"));
  throw (HandoffRejected name).

Definition initiate_handoff (now : nat) (id from_node to_node : string) (payload : list N) : M Scheduler SchedError () :=
  b ← handoff_begin now id from_node to_node;
  if negb b then throw HandoffNotAllowed
  else
    let name := queue_name from_node to_node in
    r ← handoff_queue name;
    res ← handoff_push r (mkItem id from_node to_node payload now);
    match res with
    | EnqSuccess | EnqDroppedOldest => mret tt
    | EnqRejected => handoff_refuse now id name
    end.

Definition complete_handoff (now : nat) (id dest : string) : M Scheduler SchedError bool := track now id (Processing dest).
Definition complete_request (now : nat) (id : string) : M Scheduler SchedError bool := track now id Completed.
Definition fail_request (now : nat) (id reason : string) : M Scheduler SchedError bool := track now id (Failed reason).

Definition update_node_load (now : nat) (id : string) (active : N) (memory : spec_float) (s : Scheduler) : Scheduler :=
  set_backpressure (update_from_metrics now id active memory (backpressure s)) s.

Definition is_node_pressured (id : string) (s : Scheduler) : bool := is_under_pressure id (backpressure s).

Definition get_request_state (id : string) (s : Scheduler) : option RequestState := get_state id (tracker s).

End scheduler.
Arguments Scheduler : clear implicits.
