(* ===== verification/ClusterSystem.v ===== *)
(** * The cluster scheduler is correct

    Submitting a request through any strategy that keeps the laws, and runs of the
    scheduler in which requests are handed from node to node. *)

From S2P Require Import Prelude StableSort ClusterConfig ClusterNodes ClusterMonitor ClusterRouting ClusterTracker.
From S2P Require Import ClusterQueues ClusterScheduler.

Section submit.
Context {St : Type} `{Hst : RoutingStrategy St} `{!RoutingLaws St} `{O : StringOrder}.
Implicit Types s : Scheduler St.

(** Everything but the tracker and the state of the strategy. *)
Definition same_rest s s' : Prop :=
  config s' = config s ∧ registry s' = registry s ∧ metrics s' = metrics s ∧
  backpressure s' = backpressure s ∧ queues s' = queues s.

Lemma track_taken now id st s l :
  requests (tracker s) !! id = Some l → is_valid_transition (current_state l) st = true →
  track now id st s =
  (set_tracker (set_requests (tracker s) (<[id := lifecycle_transition now st l]> (requests (tracker s)))) s, Ok true).
Proof.
  intros Hl Hv. unfold track. pose proof (transition_spec now id st (tracker s)) as Hs. rewrite Hl, Hv in Hs. by rewrite Hs.
Qed.

Lemma track_refused now id st s :
  (∀ l, requests (tracker s) !! id = Some l → is_valid_transition (current_state l) st = false) →
  track now id st s = (s, Ok false).
Proof.
  intros Hl. unfold track. pose proof (transition_spec now id st (tracker s)) as Hs.
  destruct (requests (tracker s) !! id) as [l|]; [rewrite (Hl l eq_refl) in Hs|]; rewrite Hs; by destruct s.
Qed.

(** The record of a request after it was routed. *)
Definition routed_lifecycle (now : nat) (id : string) (st : RequestState) : RequestLifecycle :=
  mkLifecycle id st [mkTransition Submitted now; mkTransition Routing now; mkTransition st now] now.

(** The requests of others are untouched, but for terminal ones that made room. *)
Definition others_kept (id : string) s s' : Prop :=
  ∀ id', id' ≠ id →
    requests (tracker s') !! id' = requests (tracker s) !! id' ∨
    requests (tracker s') !! id' = None ∧ ∃ l, requests (tracker s) !! id' = Some l ∧ is_terminal l = true.

(** The scheduler while a request is being routed. *)
Definition mid_routing (now : nat) (id : string) s s' : Prop :=
  same_rest s s' ∧ others_kept id s s' ∧
  requests (tracker s') !! id = Some (mkLifecycle id Routing [mkTransition Submitted now; mkTransition Routing now] now).

Lemma begin_routing now id s :
  ∃ t, let s' := set_tracker t s in
  (_ ← modify (λ s, set_tracker (submit now id (tracker s)) s); track now id Routing) s = (s', Ok true) ∧ mid_routing now id s s'.
Proof.
  unfold mbind, M_bind, modify.
  rewrite (track_taken now id Routing _ (lifecycle_new now id)); [|simpl; by rewrite lookup_insert_eq|done].
  eexists. split; [done|]. simpl. split_and!; [done|..].
  - intros id' Hne. simpl. rewrite !lookup_insert_ne, evict_lookup by done.
    case_decide as Hev; [right|by left]. split; [done|]. by apply evicted_terminal.
  - simpl. by rewrite lookup_insert_eq.
Qed.

Lemma end_routing now id s s' st :
  mid_routing now id s s' → is_valid_transition Routing st = true →
  ∃ t, track now id st s' = (set_tracker t s', Ok true) ∧
    same_rest s (set_tracker t s') ∧ others_kept id s (set_tracker t s') ∧
    requests t !! id = Some (routed_lifecycle now id st).
Proof.
  intros (Hr & Ho & Hl) Hv. rewrite (track_taken now id st s' _ Hl Hv). eexists. split_and!; [done|done| |].
  - intros id' Hne. simpl. rewrite lookup_insert_ne by done. by apply Ho.
  - simpl. by rewrite lookup_insert_eq.
Qed.

Lemma mid_routing_set_routing now id s s' st : mid_routing now id s s' → mid_routing now id s (set_routing st s').
Proof. done. Qed.

(** An online node of the registry. *)
Definition online_node s (id : string) : Prop :=
  ∃ n, n ∈ all_nodes (registry s) ∧ node_status n = Online ∧ node_id (node_config n) = id.

Lemma elem_of_candidates s c :
  c ∈ build_candidates s →
  ∃ n, n ∈ all_nodes (registry s) ∧ c_node_id c = node_id (node_config n) ∧ c_status c = node_status n ∧
    (skip_pressured_nodes (config s) = true → is_critical (c_node_id c) (backpressure s) = false).
Proof.
  unfold build_candidates. rewrite list_elem_of_fmap. intros (n & -> & [Hf Hn]%list_elem_of_filter).
  exists n. split_and!; [done..|]. intros Hs. by rewrite Hs in Hf.
Qed.

Lemma candidate_of_node s n :
  n ∈ all_nodes (registry s) →
  (skip_pressured_nodes (config s) && is_critical (node_id (node_config n)) (backpressure s)) = false →
  ∃ c, c ∈ build_candidates s ∧ c_node_id c = node_id (node_config n) ∧ c_status c = node_status n.
Proof.
  intros Hn Hf. eexists. split; [|split].
  - unfold build_candidates. apply list_elem_of_fmap. exists n. split; [reflexivity|]. by apply list_elem_of_filter.
  - done.
  - done.
Qed.

Lemma find_alternative_spec ex cs b :
  match find_alternative ex cs b with
  | Some d => ∃ c, c ∈ cs ∧ c_node_id c = target_node d ∧ target_node d ≠ ex ∧ is_online c ∧
                   is_critical (target_node d) b = false
  | None => ∀ c, c ∈ cs → c_node_id c ≠ ex → is_online c → is_critical (c_node_id c) b = true
  end.
Proof.
  unfold find_alternative. case_decide as Hf.
  - intros c Hc Hne Ho. apply not_false_is_true. intros Hx.
    assert (Hin : c ∉ filter (λ c, c_node_id c ≠ ex ∧ is_online c ∧ is_critical (c_node_id c) b = false) cs) by (rewrite Hf; set_solver).
    apply Hin. by apply list_elem_of_filter.
  - set (l := filter _ cs) in *. pose proof (role_based_spec (request_new EmptyString) l) as Hs.
    destruct (role_based_select (request_new EmptyString) l) as [d|e|]; [| |done].
    + destruct Hs as (_ & [[? _]|(_ & c & (Hc & _) & E)]); [done|].
      apply list_elem_of_filter in Hc as [(? & ? & ?) ?]. exists c. by rewrite <-E.
    + destruct Hs as [_ Hno]. destruct l as [|c l'] eqn:El; [done|]. destruct (Hno c); [set_solver|].
      assert (Hc : c ∈ filter (λ c, c_node_id c ≠ ex ∧ is_online c ∧ is_critical (c_node_id c) b = false) cs)
        by (fold l; rewrite El; set_solver).
      apply list_elem_of_filter in Hc. naive_solver.
Qed.

(** What is promised of a submission. *)
Definition submit_spec (now : nat) (id : string) (q : RoutingRequest) s s' (r : outcome SchedError (string * RoutingDecision)) : Prop :=
  same_rest s s' ∧ others_kept id s s' ∧
  match r with
  | Ok (id', d) =>
    id' = id ∧ requests (tracker s') !! id = Some (routed_lifecycle now id (Processing (target_node d))) ∧
    online_node s (target_node d) ∧
    (is_critical (target_node d) (backpressure s) = true →
     skip_pressured_nodes (config s) = false ∧ overflow_policy (bp_config (backpressure s)) ≠ Drop ∧
     (overflow_policy (bp_config (backpressure s)) = Redirect →
      ∀ id2, online_node s id2 → is_critical id2 (backpressure s) = true))
  | Err e =>
    (∃ e', e = RouteError e' ∧ (select_node q (build_candidates s) (routing s)).2 = Err e' ∧
       requests (tracker s') !! id = Some (routed_lifecycle now id (Failed (error_message e')))) ∨
    (∃ n, e = RequestDropped n ∧ overflow_policy (bp_config (backpressure s)) = Drop ∧
       skip_pressured_nodes (config s) = false ∧ online_node s n ∧ is_critical n (backpressure s) = true ∧
       requests (tracker s') !! id =
         Some (routed_lifecycle now id (Failed ("target node " +:+ n +:+ " is at critical load"))))
  | Panic => False
  end.

Lemma deliver_spec now id s s1 d :
  mid_routing now id s s1 →
  ∃ s', deliver now id d s1 = (s', Ok (id, d)) ∧ same_rest s s' ∧ others_kept id s s' ∧
    requests (tracker s') !! id = Some (routed_lifecycle now id (Processing (target_node d))).
Proof.
  intros Hm. destruct (end_routing now id s s1 (Processing (target_node d)) Hm eq_refl) as (t & E & Hr & Ho & Hl).
  exists (set_tracker t s1). unfold deliver, mbind, M_bind. by rewrite E.
Qed.

Lemma online_candidate s c : c ∈ build_candidates s → is_online c → online_node s (c_node_id c).
Proof. intros (n & Hn & -> & Hs & _)%elem_of_candidates Ho. exists n. split_and!; [done| |done]. by rewrite <-Hs. Qed.

Lemma dispatch_spec now id q s s1 d c :
  mid_routing now id s s1 → c ∈ build_candidates s → is_online c → c_node_id c = target_node d →
  let '(s', r) := dispatch now id (build_candidates s) d s1 in submit_spec now id q s s' r.
Proof.
  intros Hm Hc Ho Hid.
  destruct (elem_of_candidates s c Hc) as (n & Hn & En & Est & Hskip).
  pose proof (online_candidate s c Hc Ho) as Hon. rewrite Hid in Hskip, Hon.
  assert (Hb : backpressure s1 = backpressure s) by apply Hm.
  unfold dispatch, mbind, M_bind, get. rewrite Hb.
  destruct (deliver_spec now id s s1 d Hm) as (s' & E & Hr & Hk & Hl).
  destruct (is_critical (target_node d) (backpressure s)) eqn:Hcr.
  2: { rewrite E. split_and!; [done..|congruence]. }
  assert (Hsk : skip_pressured_nodes (config s) = false).
  { destruct (skip_pressured_nodes (config s)); [|done]. specialize (Hskip eq_refl). congruence. }
  destruct (overflow_policy (bp_config (backpressure s))) eqn:Hp.
  - destruct (end_routing now id s s1 (Failed ("target node " +:+ target_node d +:+ " is at critical load")) Hm eq_refl)
      as (t & E' & Hr' & Ho' & Hl').
    unfold mbind, M_bind. rewrite E'. split_and!; [done..|]. right. exists (target_node d). by split_and!.
  - rewrite E. split_and!; [done..|]. intros _. rewrite Hp. by split_and!.
  - pose proof (find_alternative_spec (target_node d) (build_candidates s) (backpressure s)) as Hf.
    destruct (find_alternative _ _ _) as [alt|].
    + destruct Hf as (c' & Hc' & Ec' & Hne & Ho' & Hncr).
      destruct (deliver_spec now id s s1 alt Hm) as (s2 & E2 & Hr2 & Hk2 & Hl2). rewrite E2.
      split_and!; [done..| |congruence]. rewrite <-Ec'. by apply online_candidate.
    + rewrite E. split_and!; [done..|]. intros _. split_and!; [done|congruence|]. intros _ id2 (m & Hm1 & Hm2 & Hm3).
      destruct (candidate_of_node s m Hm1) as (c2 & Hc2 & E2 & Es2); [by rewrite Hsk|].
      destruct (decide (id2 = target_node d)) as [->|Hne2]; [done|]. rewrite <-Hm3, <-E2. apply Hf; [done| |].
      * by rewrite E2, Hm3.
      * unfold is_online. by rewrite Es2.
Qed.

Lemma submit_request_spec now id pref_role pref_stage affinity s :
  let '(s', r) := submit_request now id pref_role pref_stage affinity s in
  submit_spec now id (mkRequest id pref_role pref_stage None AnyTraffic affinity) s s' r.
Proof.
  set (q := mkRequest id pref_role pref_stage None AnyTraffic affinity).
  destruct (begin_routing now id s) as (t & E & Hm). set (s1 := set_tracker t s) in *.
  assert (E' : submit_request now id pref_role pref_stage affinity s =
    (d ← on_err (route q (build_candidates s)) (λ e, _ ← track now id (Failed (sched_message e)); throw e);
     dispatch now id (build_candidates s) d) s1).
  { unfold submit_request. rewrite <-M_bind_assoc. unfold mbind at 1, M_bind at 1. rewrite E. done. }
  rewrite E'. clear E E'. unfold mbind at 1, M_bind at 1, on_err, route.
  destruct (select_node q (build_candidates s) (routing s1)) as [st r] eqn:Es.
  assert (Hm' : mid_routing now id s (set_routing st s1)) by done.
  destruct r as [d|e|].
  - destruct (select_online _ _ _ _ _ Es) as (_ & c & Hc & Ho & Hid). by apply (dispatch_spec now id q s _ d c).
  - destruct (end_routing now id s (set_routing st s1) (Failed (error_message e)) Hm' eq_refl) as (t' & E & Hr & Ho & Hl).
    unfold mbind, M_bind. simpl sched_message. rewrite E. split_and!; [done..|]. left. exists e.
    split_and!; [done| |done]. change (routing s) with (routing s1). by rewrite Es.
  - pose proof (select_no_panic q (build_candidates s) (routing s1)) as Hp. by rewrite Es in Hp.
Qed.

End submit.

(** ** Handing a request over *)

Section handoff.
Context {St : Type} `{Hst : RoutingStrategy St} `{!RoutingLaws St} `{O : StringOrder}.
Implicit Types s : Scheduler St.

(** The queue of a name, as it is or as it would be created. *)
Definition queue_of (name : string) (m : HandoffQueueManager) : HandoffQueue :=
  match queue_refs m !! name ≫= (heap m !!.) with Some q => q | None => queue_new (default_config m) end.

Definition in_progress (id : string) (st : RequestState) s : Prop :=
  ∃ l, requests (tracker s) !! id = Some l ∧ current_state l = st.

(** [m'] is [m] with the queue of [name] replaced by [q]. *)
Definition queue_put (name : string) (q : HandoffQueue) (m m' : HandoffQueueManager) : Prop :=
  manager_wf m' ∧ default_config m' = default_config m ∧
  ∃ r, queue_refs m' !! name = Some r ∧ heap m' !! r = Some q ∧
       (∀ r', r' ≠ r → heap m' !! r' = heap m !! r') ∧
       (heap m !! r = None ∨ heap m !! r = Some (queue_of name m)).

Lemma enqueue_named name x m :
  manager_wf m →
  let '(m1, r) := get_or_create name m in
  let '(m2, res) := on_queue r (enqueue x) EnqRejected m1 in
  res = (enqueue x (queue_of name m)).2 ∧ queue_put name (enqueue x (queue_of name m)).1 m m2.
Proof.
  intros Hwf. pose proof (get_or_create_lookup name m Hwf) as Hg.
  assert (Hw1 : manager_wf (get_or_create name m).1) by (rewrite get_or_create_eq; by apply get_or_create_with_config_wf).
  assert (Hd : default_config (get_or_create name m).1 = default_config m)
    by (rewrite get_or_create_eq; unfold get_or_create_with_config; by destruct (queue_refs m !! name)).
  assert (Hh : ∀ r, (get_or_create name m).2 = r → heap m !! r = None ∨ heap m !! r = Some (queue_of name m)).
  { intros r <-. rewrite get_or_create_eq. unfold get_or_create_with_config, queue_of.
    destruct (queue_refs m !! name) as [r|] eqn:E; simpl.
    - destruct (mw_heap _ Hwf _ _ E) as [q Hq]. rewrite Hq. by right.
    - left. apply eq_None_not_Some. intros ?%(mw_fresh _ Hwf). lia. }
  destruct (get_or_create name m) as [m1 r]. destruct Hg as (Hn & Hq & Hf). fold (queue_of name m) in Hq.
  pose proof (on_queue_wf r (enqueue x) EnqRejected m1 Hw1) as Hw2. unfold on_queue in *. rewrite Hq in *.
  destruct (enqueue x (queue_of name m)) as [q' res]. simpl in *. split; [done|]. split; [done|]. split; [done|].
  exists r. simpl. rewrite lookup_insert_eq. split_and!; [done|done| |by apply Hh].
  intros r' Hr'. rewrite lookup_insert_ne by done. by apply Hf.
Qed.

(** What is promised of a handoff. *)
Definition handoff_spec (now : nat) (id a b : string) (payload : list N) s s' (r : outcome SchedError ()) : Prop :=
  registry s' = registry s ∧ backpressure s' = backpressure s ∧ config s' = config s ∧
  let x := mkItem id a b payload now in
  let q := queue_of (queue_name a b) (queues s) in
  match requests (tracker s) !! id with
  | Some l =>
    if is_valid_transition (current_state l) (Handoff a b) then
      queue_put (queue_name a b) (enqueue x q).1 (queues s) (queues s') ∧
      let l' := lifecycle_transition now (Handoff a b) l in
      match (enqueue x q).2 with
      | EnqRejected =>
        r = Err (HandoffRejected (queue_name a b)) ∧
        requests (tracker s') = <[id := lifecycle_transition now (Failed ("handoff queue " +:+ queue_name a b +:+ " is full")) l']>
                                  (requests (tracker s))
      | _ => r = Ok tt ∧ requests (tracker s') = <[id := l']> (requests (tracker s))
      end
    else r = Err HandoffNotAllowed ∧ s' = s
  | None => r = Err HandoffNotAllowed ∧ s' = s
  end.

Lemma initiate_handoff_spec now id a b payload s :
  manager_wf (queues s) →
  let '(s', r) := initiate_handoff now id a b payload s in handoff_spec now id a b payload s s' r.
Proof.
  intros Hwf. unfold initiate_handoff, handoff_begin, handoff_queue, handoff_push, handoff_refuse, handoff_spec, mbind, M_bind.
  destruct (requests (tracker s) !! id) as [l|] eqn:Hl.
  2: { rewrite track_refused by (intros; congruence). done. }
  destruct (is_valid_transition (current_state l) (Handoff a b)) eqn:Hv.
  2: { rewrite track_refused by (intros; congruence). done. }
  rewrite (track_taken now id _ s l Hl Hv). simpl.
  pose proof (enqueue_named (queue_name a b) (mkItem id a b payload now) (queues s) Hwf) as Hq.
  destruct (get_or_create (queue_name a b) (queues s)) as [m1 rf]. simpl in *.
  destruct (on_queue rf (enqueue (mkItem id a b payload now)) EnqRejected m1) as [m2 res].
  destruct Hq as [-> Hput]. destruct (enqueue _ _).2 eqn:Eres; simpl; [done|done|].
  erewrite track_taken; [|simpl; by rewrite lookup_insert_eq|done]. simpl. split_and!; [done..|].
  by rewrite insert_insert_eq.
Qed.

(** ** Runs *)

(** A handoff under way: its item, the queue it has got hold of, whether the queue refused it. *)
Record task := mkTask { tk_item : HandoffItem; tk_queue : option nat; tk_refused : bool }.

(** A handoff is four steps of its task, in turn, with any other steps in between. *)
Inductive sched_op :=
  | SSubmit (now : nat) (id : string) (pref_role : option NodeRole) (pref_stage : option N) (affinity : option string)
  | SHandoff (now : nat) (id a b : string) (payload : list N)
  | SGetQueue (i : nat)
  | SPush (i : nat)
  | SRefuse (now i : nat)
  | SArrive (now : nat) (id dest : string)
  | SComplete (now : nat) (id : string)
  | SFail (now : nat) (id why : string)
  | SDequeue (r : nat)
  | SClear (r : nat)
  | SConfigure (name : string) (c : HandoffQueueConfig)
  | SRemoveQueue (name : string)
  | SDropQueue (r : nat)
  | SLoad (now : nat) (id : string) (active : N) (memory : SpecFloat.spec_float)
  | SStatus (id : string) (st : NodeStatus).

(** The item that a push drops from a full queue. *)
Definition pushed_out (r : nat) (x : HandoffItem) (m : HandoffQueueManager) : list HandoffItem :=
  match heap m !! r with
  | Some q => match (enqueue x q).2 with EnqDroppedOldest => option_list (head (items q)) | _ => [] end
  | None => []
  end.

(** The scheduler, the handoffs under way, and the items that left the queues and how. *)
Record run_state := mkRunState { sch : Scheduler St; tasks : list task; gone : list (removal * HandoffItem) }.

Definition with_sch (f : Scheduler St → Scheduler St) (k : run_state) : run_state := mkRunState (f (sch k)) (tasks k) (gone k).

Definition holds_ref (r : nat) (t : task) : Prop := tk_queue t = Some r.
#[global] Instance holds_ref_dec r t : Decision (holds_ref r t).
Proof. unfold holds_ref. apply _. Defined.

Definition sched_step (k : run_state) (op : sched_op) : run_state :=
  let s := sch k in
  match op with
  | SSubmit now id pr ps aff => with_sch (λ s, (submit_request now id pr ps aff s).1) k
  | SHandoff now id a b payload =>
    match handoff_begin now id a b s with
    | (s', Ok true) => mkRunState s' (tasks k ++ [mkTask (mkItem id a b payload now) None false]) (gone k)
    | (s', _) => mkRunState s' (tasks k) (gone k)
    end
  | SGetQueue i =>
    match tasks k !! i with
    | Some (mkTask x None false) =>
      match handoff_queue (queue_name (hi_from_node x) (hi_to_node x)) s with
      | (s', Ok r) => mkRunState s' (<[i := mkTask x (Some r) false]> (tasks k)) (gone k)
      | (s', _) => mkRunState s' (tasks k) (gone k)
      end
    | _ => k
    end
  | SPush i =>
    match tasks k !! i with
    | Some (mkTask x (Some r) false) =>
      match handoff_push r x s with
      | (s', Ok EnqRejected) => mkRunState s' (<[i := mkTask x (Some r) true]> (tasks k)) (gone k)
      | (s', _) => mkRunState s' (delete i (tasks k)) (gone k ++ (pair Dropped <$> pushed_out r x (queues s)))
      end
    | _ => k
    end
  | SRefuse now i =>
    match tasks k !! i with
    | Some (mkTask x _ true) =>
      mkRunState (handoff_refuse now (hi_request_id x) (queue_name (hi_from_node x) (hi_to_node x)) s).1 (delete i (tasks k)) (gone k)
    | _ => k
    end
  | SArrive now id dest => with_sch (λ s, (complete_handoff now id dest s).1) k
  | SComplete now id => with_sch (λ s, (complete_request now id s).1) k
  | SFail now id why => with_sch (λ s, (fail_request now id why s).1) k
  | SDequeue r =>
    let '(m, o) := on_queue r dequeue None (queues s) in
    mkRunState (set_queues m s) (tasks k) (gone k ++ (pair Served <$> option_list o))
  | SClear r =>
    let '(m, l) := on_queue r (λ q, (clear q, items q)) [] (queues s) in
    mkRunState (set_queues m s) (tasks k) (gone k ++ (pair Cleared <$> l))
  | SConfigure name c => with_sch (λ s, set_queues (get_or_create_with_config name c (queues s)).1 s) k
  | SRemoveQueue name => with_sch (λ s, set_queues (manager_remove name (queues s)).1 s) k
  | SDropQueue r =>
    if decide (Exists (holds_ref r) (tasks k)) then k
    else let '(m, l) := drop_queue r (queues s) in mkRunState (set_queues m s) (tasks k) (gone k ++ (pair Lost <$> l))
  | SLoad now id active memory => with_sch (update_node_load now id active memory) k
  | SStatus id st =>
    with_sch (λ s, mkScheduler (config s) (set_node_status id st (registry s)).1 (metrics s) (tracker s) (backpressure s)
                     (queues s) (routing s)) k
  end.

(** [initiate_handoff] is the steps of its task with nothing in between. *)
Lemma handoff_steps now id a b payload s g :
  let k := sched_step (mkRunState s [] g) (SHandoff now id a b payload) in
  sch (foldl sched_step k [SGetQueue 0; SPush 0; SRefuse now 0]) = (initiate_handoff now id a b payload s).1 ∧
  tasks (foldl sched_step k [SGetQueue 0; SPush 0; SRefuse now 0]) = [].
Proof.
  unfold initiate_handoff, mbind, M_bind. cbn [sched_step sch tasks gone foldl].
  unfold handoff_begin, track. destruct (transition now id (Handoff a b) (tracker s)) as [t ok]. destruct ok; cbn; [|done].
  unfold handoff_queue. destruct (get_or_create (queue_name a b) _) as [m r]. cbn.
  unfold handoff_push. destruct (on_queue r _ EnqRejected _) as [m2 []]; cbn; try done.
Qed.

(** An item is queued somewhere, has left a queue, or is about to be queued. *)
Definition accounted (k : run_state) (x : HandoffItem) : Prop :=
  (∃ r q, heap (queues (sch k)) !! r = Some q ∧ x ∈ items q) ∨ x ∈ (gone k).*2 ∨ x ∈ tk_item <$> tasks k.

Definition handoffs_accounted (k : run_state) : Prop :=
  ∀ id l a b, requests (tracker (sch k)) !! id = Some l → current_state l = Handoff a b →
  ∃ x, hi_request_id x = id ∧ hi_from_node x = a ∧ hi_to_node x = b ∧ accounted k x.

(** The queue of a task exists. *)
Record run_inv (k : run_state) : Prop := {
  ri_wf : manager_wf (queues (sch k));
  ri_held : ∀ t r, t ∈ tasks k → tk_queue t = Some r → is_Some (heap (queues (sch k)) !! r);
  ri_acc : handoffs_accounted k;
}.

(** A step that starts no handoff and loses no item keeps what is accounted for. *)
Lemma accounted_mono k k' :
  (∀ id l a b, requests (tracker (sch k')) !! id = Some l → current_state l = Handoff a b →
     requests (tracker (sch k)) !! id = Some l ∧ ∀ x, hi_request_id x = id → accounted k x → accounted k' x) →
  handoffs_accounted k → handoffs_accounted k'.
Proof.
  intros Ht Hh id l a b Hl Hs. destruct (Ht id l a b Hl Hs) as [Hl' Hx]. destruct (Hh id l a b Hl' Hs) as (x & ? & ? & ? & ?).
  exists x. auto.
Qed.

(** The tracker changes, nothing else. *)
Lemma tracker_step k f :
  queues (f (sch k)) = queues (sch k) →
  (∀ id l a b, requests (tracker (f (sch k))) !! id = Some l → current_state l = Handoff a b →
     requests (tracker (sch k)) !! id = Some l) → run_inv k → run_inv (with_sch f k).
Proof.
  intros Hq Ht [H1 H2 H3]. split; cbn; [by rewrite Hq|intros t r; rewrite Hq; apply H2|].
  eapply accounted_mono; [|exact H3]. cbn. intros id l a b Hl Hs. split; [by eapply Ht|]. intros x _. unfold accounted. cbn. by rewrite Hq.
Qed.

Lemma track_queues now id st s : queues (track now id st s).1 = queues s.
Proof. unfold track. by destruct (transition now id st (tracker s)). Qed.

Lemma track_requests now id st s id' l a b : (∀ a b, st ≠ Handoff a b) →
  requests (tracker (track now id st s).1) !! id' = Some l → current_state l = Handoff a b → requests (tracker s) !! id' = Some l.
Proof.
  intros Hnh Hl Hs. unfold track in Hl. pose proof (transition_spec now id st (tracker s)) as Ht.
  destruct (transition now id st (tracker s)) as [t ok]. cbn in Hl.
  destruct (requests (tracker s) !! id) as [l0|] eqn:El; [|by injection Ht as -> _].
  destruct (is_valid_transition (current_state l0) st); injection Ht as -> _; [|done]. cbn in Hl.
  apply lookup_insert_Some in Hl as [[<- <-]|[_ ?]]; [|done]. cbn in Hs. by destruct (Hnh a b).
Qed.

Lemma track_step now id st k : (∀ a b, st ≠ Handoff a b) → run_inv k → run_inv (with_sch (λ s, (track now id st s).1) k).
Proof. intros Hnh. apply tracker_step; [apply track_queues|]. intros id' l a b. by apply track_requests. Qed.

Lemma submit_step now id pr ps aff k : run_inv k → run_inv (with_sch (λ s, (submit_request now id pr ps aff s).1) k).
Proof.
  pose proof (submit_request_spec now id pr ps aff (sch k)) as Hs. intros Hi. apply tracker_step; [| |done];
    destruct (submit_request now id pr ps aff (sch k)) as [s' r]; destruct Hs as ((_ & _ & _ & _ & Eq) & Ho & Hr); [done|].
  cbn. intros id' l u v Hl Hs'. destruct (decide (id' = id)) as [->|Hne].
  - destruct r as [[id2 d]|e|]; [| |done].
    + destruct Hr as (_ & Hr & _). rewrite Hr in Hl. by injection Hl as <-.
    + destruct Hr as [(e' & _ & _ & Hr)|(n & _ & _ & _ & _ & _ & Hr)]; rewrite Hr in Hl; by injection Hl as <-.
  - destruct (Ho id' Hne) as [<-|[E _]]; [done|congruence].
Qed.

Lemma begin_step now id a b payload k : run_inv k → run_inv (sched_step k (SHandoff now id a b payload)).
Proof.
  intros [H1 H2 H3]. cbn [sched_step]. unfold handoff_begin, track.
  pose proof (transition_spec now id (Handoff a b) (tracker (sch k))) as Ht.
  destruct (transition now id (Handoff a b) (tracker (sch k))) as [t ok].
  assert (t = tracker (sch k) → ok = false → run_inv (mkRunState (set_tracker t (sch k)) (tasks k) (gone k))) as Hsame
    by (intros -> _; destruct k as [[] ? ?]; by split).
  destruct (requests (tracker (sch k)) !! id) as [l|] eqn:El; [|injection Ht as -> ->; by apply Hsame].
  destruct (is_valid_transition (current_state l) (Handoff a b)); injection Ht as -> ->; [|by apply Hsame]. clear Hsame.
  split; cbn; [done|intros t0 r [?| ->%list_elem_of_singleton]%elem_of_app; [by apply H2|done]|].
  intros id' l' u v Hl' Hs'. cbn in Hl'. apply lookup_insert_Some in Hl' as [[<- <-]|[_ Hold]].
  - cbn in Hs'. injection Hs' as <- <-. exists (mkItem id a b payload now). split_and!; [done..|]. right. right. cbn. rewrite fmap_app. set_solver.
  - destruct (H3 id' l' u v Hold Hs') as (x & ? & ? & ? & Hx). exists x. split_and!; [done..|].
    unfold accounted in *. cbn. rewrite fmap_app. set_solver.
Qed.

(** A step of the queues: the items of every queue stay, leave in the open, or were never there. *)
Lemma queues_step k m ts' new :
  run_inv k → manager_wf m → (∀ t r, t ∈ ts' → tk_queue t = Some r → is_Some (heap m !! r)) →
  (∀ x, accounted k x → accounted (mkRunState (set_queues m (sch k)) ts' (gone k ++ new)) x) →
  run_inv (mkRunState (set_queues m (sch k)) ts' (gone k ++ new)).
Proof.
  intros [H1 H2 H3] Hwf Hheld Hacc. split; [done|done|]. eapply accounted_mono; [|exact H3]. cbn. intros id l a b Hl Hs.
  split; [done|]. intros x _. apply Hacc.
Qed.

Lemma heap_grows name c m r q : manager_wf m → heap m !! r = Some q → heap (get_or_create_with_config name c m).1 !! r = Some q.
Proof.
  intros Hwf Hr. unfold get_or_create_with_config. destruct (queue_refs m !! name); [done|]. cbn.
  rewrite lookup_insert_ne; [done|]. intros <-. pose proof (mw_fresh _ Hwf (next_ref m) ltac:(eauto)). lia.
Qed.

Lemma create_step name c k ts' : run_inv k →
  (∀ t r, t ∈ ts' → tk_queue t = Some r → t ∈ tasks k ∨ r = (get_or_create_with_config name c (queues (sch k))).2) →
  tk_item <$> ts' = tk_item <$> tasks k →
  run_inv (mkRunState (set_queues (get_or_create_with_config name c (queues (sch k))).1 (sch k)) ts' (gone k ++ [])).
Proof.
  intros Hi Hts Hit. pose proof Hi as [H1 H2 _]. apply queues_step; [done|by apply get_or_create_with_config_wf|..].
  - intros t r Ht Hr. destruct (Hts t r Ht Hr) as [Hold| ->].
    + destruct (H2 t r Hold Hr) as [q Hq]. exists q. by apply heap_grows.
    + pose proof (get_or_create_with_config_wf name c _ H1) as [Hh _ _]. apply (Hh name).
      unfold get_or_create_with_config. destruct (queue_refs (queues (sch k)) !! name) eqn:E; [done|]. cbn. by rewrite lookup_insert_eq.
  - intros x. unfold accounted. cbn. rewrite app_nil_r, Hit. intros [(r & q & Hr & Hx)|Hx]; [left|by right]. exists r, q. split; [by apply heap_grows|done].
Qed.

Lemma get_step i k : run_inv k → run_inv (sched_step k (SGetQueue i)).
Proof.
  intros Hi. cbn [sched_step]. destruct (tasks k !! i) as [[x [r|] []]|] eqn:Ei; try done. unfold handoff_queue. rewrite get_or_create_eq.
  pose proof (create_step (queue_name (hi_from_node x) (hi_to_node x)) (default_config (queues (sch k))) k
                (<[i := mkTask x (Some (get_or_create_with_config (queue_name (hi_from_node x) (hi_to_node x)) (default_config (queues (sch k)))
                          (queues (sch k))).2) false]> (tasks k)) Hi) as Hc.
  destruct (get_or_create_with_config _ _ _) as [m r]. cbn [fst snd] in Hc. rewrite app_nil_r in Hc. apply Hc.
  - intros t r' [j Hj]%list_elem_of_lookup Hr. apply list_lookup_insert_Some in Hj as [(-> & <- & _)|[_ Hj]].
    + cbn in Hr. injection Hr as ->. by right.
    + left. by eapply list_elem_of_lookup_2.
  - rewrite list_fmap_insert. apply list_insert_id. by rewrite list_lookup_fmap, Ei.
Qed.

Lemma enqueue_keeps x q y :
  y ∈ items q →
  y ∈ items (enqueue x q).1 ∨ (enqueue x q).2 = EnqDroppedOldest ∧ head (items q) = Some y.
Proof.
  intros Hy. unfold enqueue. case_decide; [|left; simpl; set_solver].
  destruct (q_overflow (hq_config q)); simpl; [by left| |by left].
  destruct (items q) as [|z l]; [by apply elem_of_nil in Hy|]. apply elem_of_cons in Hy as [->|Hy]; [by right|left; set_solver].
Qed.

Lemma enqueue_adds x q : (enqueue x q).2 ≠ EnqRejected → x ∈ items (enqueue x q).1.
Proof. unfold enqueue. case_decide; [destruct (q_overflow (hq_config q))|]; simpl; intros; set_solver. Qed.

(** An operation on one queue. *)
Lemma on_queue_accounted {A} r (f : HandoffQueue → HandoffQueue * A) d k ts' (out : A → list (removal * HandoffItem)) :
  run_inv k → (∀ t r, t ∈ ts' → tk_queue t = Some r → ∃ t', t' ∈ tasks k ∧ tk_queue t' = Some r) →
  (∀ q x, heap (queues (sch k)) !! r = Some q → x ∈ items q → x ∈ items (f q).1 ∨ x ∈ (out (f q).2).*2) →
  (∀ x, x ∈ tk_item <$> tasks k →
     x ∈ tk_item <$> ts' ∨ ∃ q, heap (queues (sch k)) !! r = Some q ∧ x ∈ items (f q).1) →
  let '(m, a) := on_queue r f d (queues (sch k)) in
  run_inv (mkRunState (set_queues m (sch k)) ts' (gone k ++ out a)).
Proof.
  intros Hi Hts Hf Hit. pose proof Hi as [H1 H2 _]. pose proof (on_queue_wf r f d (queues (sch k)) H1) as Hw. unfold on_queue in *.
  destruct (heap (queues (sch k)) !! r) as [q|] eqn:Eq.
  - specialize (Hf q). destruct (f q) as [q' a] eqn:Ef. cbn in Hw. apply queues_step; [done|done|..]; cbn.
    + intros t r' Ht Hr. destruct (Hts t r' Ht Hr) as (t' & Ht' & Hr'). destruct (H2 t' r' Ht' Hr') as [q0 Hq0].
      destruct (decide (r = r')) as [->|]; [rewrite lookup_insert_eq|rewrite lookup_insert_ne by done]; eauto.
    + intros x. unfold accounted. cbn. rewrite fmap_app. intros [(r0 & q0 & Hr0 & Hx)|[Hx|Hx]]; [|set_solver|].
      * destruct (decide (r = r0)) as [<-|Hne]; [|left; exists r0, q0; by rewrite lookup_insert_ne].
        rewrite Eq in Hr0. injection Hr0 as <-. destruct (Hf x eq_refl Hx) as [Hx'|Hx'].
        -- left. exists r, q'. by rewrite lookup_insert_eq.
        -- right. left. cbn in Hx'. set_solver.
      * destruct (Hit x Hx) as [?|(q0 & [= <-] & Hx')]; [by right; right|]. left. exists r, q'. rewrite Ef in Hx'. by rewrite lookup_insert_eq.
  - apply queues_step; [done|done|..].
    + intros t r' Ht Hr. destruct (Hts t r' Ht Hr) as (t' & Ht' & Hr'). by eapply H2.
    + intros x. unfold accounted. cbn. rewrite fmap_app. intros [?|[?|Hx]]; [by left|set_solver|].
      destruct (Hit x Hx) as [?|(q0 & ? & _)]; [by right; right|done].
Qed.

Lemma delete_elem (l : list task) i t t' : l !! i = Some t' → t ∈ l → t ∈ delete i l ∨ t = t'.
Proof.
  intros Hi [j Hj]%list_elem_of_lookup. destruct (decide (j = i)) as [->|Hne]; [right; congruence|left].
  apply list_elem_of_lookup. destruct (decide (j < i)).
  - exists j. by rewrite list_lookup_delete_lt.
  - exists (j - 1). rewrite list_lookup_delete_ge by lia. by replace (S (j - 1)) with j by lia.
Qed.

Lemma delete_sub (l : list task) i t : t ∈ delete i l → t ∈ l.
Proof. intros. eapply elem_of_submseteq; [done|]. apply sublist_submseteq, sublist_delete. Qed.

Lemma delete_items (l : list task) i t x : l !! i = Some t → x ∈ tk_item <$> l → x ∈ tk_item <$> delete i l ∨ x = tk_item t.
Proof.
  intros Hi (t0 & -> & Ht0)%list_elem_of_fmap. destruct (delete_elem l i t0 t Hi Ht0) as [?| ->]; [left|by right].
  by apply list_elem_of_fmap_2.
Qed.

Lemma push_step i k : run_inv k → run_inv (sched_step k (SPush i)).
Proof.
  intros Hi. cbn [sched_step]. destruct (tasks k !! i) as [[x [r|] []]|] eqn:Ei; try done. unfold handoff_push.
  destruct (ri_held _ Hi (mkTask x (Some r) false) r) as [q Hq]; [by eapply list_elem_of_lookup_2|done|].
  assert (on_queue r (enqueue x) EnqRejected (queues (sch k)) =
    (mkManager (default_config (queues (sch k))) (queue_refs (queues (sch k))) (<[r := (enqueue x q).1]> (heap (queues (sch k))))
       (next_ref (queues (sch k))), (enqueue x q).2)) as Eon by (unfold on_queue; rewrite Hq; by destruct (enqueue x q)).
  pose proof (λ ts out, on_queue_accounted r (enqueue x) EnqRejected k ts out Hi) as Hgo. rewrite Eon in Hgo |- *. unfold pushed_out. rewrite Hq.
  assert ((enqueue x q).2 = EnqRejected ∨ (enqueue x q).2 ≠ EnqRejected) as [Er|Er] by (destruct (enqueue x q).2; auto).
  - rewrite Er. specialize (Hgo (<[i := mkTask x (Some r) true]> (tasks k)) (λ _, [])). cbn in Hgo. rewrite app_nil_r in Hgo. apply Hgo.
    + intros t r' [j Hj]%list_elem_of_lookup Hr. apply list_lookup_insert_Some in Hj as [(-> & <- & _)|[_ Hj]].
      * exists (mkTask x (Some r) false). split; [by eapply list_elem_of_lookup_2|done].
      * exists t. split; [by eapply list_elem_of_lookup_2|done].
    + intros q0 y Hq0 Hy. destruct (enqueue_keeps x q0 y Hy) as [?|[E _]]; [by left|congruence].
    + intros y Hy. left. rewrite list_fmap_insert, list_insert_id; [done|]. by rewrite list_lookup_fmap, Ei.
  - specialize (Hgo (delete i (tasks k))
      (λ res, pair Dropped <$> match res with EnqDroppedOldest => option_list (head (items q)) | _ => [] end)). cbn beta in Hgo.
    assert (run_inv (mkRunState
       (set_queues (mkManager (default_config (queues (sch k))) (queue_refs (queues (sch k))) (<[r := (enqueue x q).1]> (heap (queues (sch k))))
          (next_ref (queues (sch k)))) (sch k)) (delete i (tasks k))
       (gone k ++ (pair Dropped <$> match (enqueue x q).2 with EnqDroppedOldest => option_list (head (items q)) | _ => [] end)))) as Hk.
    { apply Hgo.
      - intros t r' Ht%delete_sub Hr. by exists t.
      - intros q0 y Hq0 Hy. rewrite Hq in Hq0. injection Hq0 as <-. destruct (enqueue_keeps x q y Hy) as [?|[-> ->]]; [by left|right]. cbn. set_solver.
      - intros y Hy. destruct (delete_items _ _ _ y Ei Hy) as [?| ->]; [by left|right]. exists q. split; [done|]. by apply enqueue_adds. }
    destruct (enqueue x q).2; [exact Hk|exact Hk|done].
Qed.

Lemma refuse_step now i k : run_inv k → run_inv (sched_step k (SRefuse now i)).
Proof.
  intros [H1 H2 H3]. cbn [sched_step]. destruct (tasks k !! i) as [[x rf []]|] eqn:Ei; try done.
  unfold handoff_refuse, mbind, M_bind. set (why := Failed _). pose proof (track_queues now (hi_request_id x) why (sch k)) as Hq.
  pose proof (λ id' l a b, track_requests now (hi_request_id x) why (sch k) id' l a b ltac:(done)) as Htr.
  assert (∀ l a b, requests (tracker (track now (hi_request_id x) why (sch k)).1) !! hi_request_id x = Some l → current_state l ≠ Handoff a b) as Hno.
  { intros l a b Hl Hs. unfold track in Hl. pose proof (transition_spec now (hi_request_id x) why (tracker (sch k))) as Ht.
    destruct (transition now (hi_request_id x) why (tracker (sch k))) as [t ok]. cbn in Hl.
    destruct (requests (tracker (sch k)) !! hi_request_id x) as [l0|] eqn:El; [|injection Ht as -> _; congruence].
    destruct (is_valid_transition (current_state l0) why) eqn:Ev; injection Ht as -> _.
    - cbn in Hl. rewrite lookup_insert_eq in Hl. injection Hl as <-. done.
    - rewrite El in Hl. injection Hl as ->. by rewrite Hs in Ev. }
  assert (∃ s', (track now (hi_request_id x) why (sch k)).1 = s' ∧
    match track now (hi_request_id x) why (sch k) with (s, Ok _) => throw (HandoffRejected (queue_name (hi_from_node x) (hi_to_node x))) s
      | (s, Err e) => (s, Err e) | (s, Panic) => (s, Panic) end = (s', Err (HandoffRejected (queue_name (hi_from_node x) (hi_to_node x))) : outcome SchedError ()))
    as (s' & Es & ->).
  { unfold track. destruct (transition _ _ _ _). by eexists. }
  rewrite Es in *. split; cbn; [by rewrite Hq|intros t r Ht%delete_sub; rewrite Hq; by apply H2|].
  eapply accounted_mono; [|exact H3]. cbn. intros id l a b Hl Hs. split; [by eapply Htr|]. intros y Hy. unfold accounted. cbn. rewrite Hq.
  intros [?|[?|Hx]]; [by left|by right; left|]. destruct (delete_items _ _ _ y Ei Hx) as [?| ->]; [by right; right|].
  cbn in Hy. subst id. by destruct (Hno l a b Hl).
Qed.

Lemma drop_step r k : run_inv k → run_inv (sched_step k (SDropQueue r)).
Proof.
  intros Hi. cbn [sched_step]. case_decide as Hex; [done|]. pose proof Hi as [H1 H2 _].
  pose proof (drop_queue_wf r (queues (sch k)) H1) as Hw. unfold drop_queue in *. destruct (heap (queues (sch k)) !! r) as [q|] eqn:Eq.
  2: { apply queues_step; [done|done|done|]. intros x. unfold accounted. cbn. by rewrite app_nil_r. }
  case_decide as Hn; [|apply queues_step; [done|done|done|]; intros x; unfold accounted; cbn; by rewrite app_nil_r].
  apply queues_step; [done|exact Hw|..]; cbn.
  - intros t r' Ht Hr. rewrite lookup_delete_ne; [by eapply H2|]. intros <-. apply Hex, Exists_exists. by exists t.
  - intros x. unfold accounted. cbn. rewrite fmap_app. intros [(r0 & q0 & Hr0 & Hx)|[?|?]]; [|set_solver|by right; right].
    destruct (decide (r0 = r)) as [->|Hne].
    + rewrite Eq in Hr0. injection Hr0 as ->. right. left. apply elem_of_app. right. rewrite <-list_fmap_compose. cbn.
      apply list_elem_of_fmap. by exists x.
    + left. exists r0, q0. by rewrite lookup_delete_ne.
Qed.

Lemma sched_step_inv k op : run_inv k → run_inv (sched_step k op).
Proof.
  intros Hi. destruct op as [| | | | | | | |r|r|name c|name| | |].
  - by apply submit_step.
  - by apply begin_step.
  - by apply get_step.
  - by apply push_step.
  - by apply refuse_step.
  - by apply track_step.
  - by apply track_step.
  - by apply track_step.
  - pose proof (on_queue_accounted r dequeue None k (tasks k) (λ o, pair Served <$> option_list o) Hi) as Hgo. cbn [sched_step].
    destruct (on_queue r dequeue None (queues (sch k))) as [m o]. apply Hgo; [eauto| |by left].
    intros q x _ Hx. unfold dequeue. destruct (items q) as [|y l]; [set_solver|]. cbn. set_solver.
  - pose proof (on_queue_accounted r (λ q, (clear q, items q)) [] k (tasks k) (λ l, pair Cleared <$> l) Hi) as Hgo. cbn [sched_step].
    destruct (on_queue r _ [] (queues (sch k))) as [m l]. apply Hgo; [eauto| |by left].
    intros q x _ Hx. right. cbn. rewrite <-list_fmap_compose. apply list_elem_of_fmap. by exists x.
  - pose proof (create_step name c k (tasks k) Hi ltac:(by left) eq_refl) as Hc. by rewrite app_nil_r in Hc.
  - pose proof (queues_step k (manager_remove name (queues (sch k))).1 (tasks k) [] Hi) as Hc. rewrite app_nil_r in Hc. apply Hc; [|apply Hi|done].
    apply manager_remove_wf, Hi.
  - by apply drop_step.
  - by apply tracker_step.
  - by apply tracker_step.
Qed.

(** ** What makes an item leave *)

(** No queue drops its oldest items. *)
Definition never_drops (m : HandoffQueueManager) : Prop :=
  q_overflow (default_config m) ≠ DropOldest ∧
  map_Forall (λ _ q, q_overflow (hq_config q) ≠ DropOldest) (heap m).

Lemma enqueue_config x q : hq_config (enqueue x q).1 = hq_config q.
Proof. unfold enqueue. case_decide; [destruct (q_overflow (hq_config q)) eqn:E|]; done. Qed.

Lemma create_never_drops name c m : q_overflow c ≠ DropOldest → never_drops m → never_drops (get_or_create_with_config name c m).1.
Proof.
  intros Hc [Hd Hh]. unfold get_or_create_with_config. case_match; [done|]. split; [done|]. by apply map_Forall_insert_2.
Qed.

Lemma on_queue_never_drops {A} r (f : HandoffQueue → HandoffQueue * A) d m :
  (∀ q, hq_config (f q).1 = hq_config q) → never_drops m → never_drops (on_queue r f d m).1.
Proof.
  intros Hf [Hd Hh]. unfold on_queue. destruct (heap m !! r) as [q|] eqn:E; [|done]. specialize (Hf q). destruct (f q) as [q' a]. cbn in *.
  split; [done|]. apply map_Forall_insert_2; [|done]. rewrite Hf. exact (Hh r q E).
Qed.

Lemma sched_step_never_drops k op :
  never_drops (queues (sch k)) → (∀ name c, op = SConfigure name c → q_overflow c ≠ DropOldest) →
  never_drops (queues (sch (sched_step k op))).
Proof.
  intros Hn Hop. destruct op as [now id pr ps aff| |i|i|now i| | | |r|r|name c|name|r| |]; cbn [sched_step];
    try (cbn; unfold complete_handoff, complete_request, fail_request; by rewrite ?track_queues).
  - cbn. pose proof (submit_request_spec now id pr ps aff (sch k)) as Hs. destruct (submit_request now id pr ps aff (sch k)) as [s' r].
    cbn. by destruct Hs as ((_ & _ & _ & _ & ->) & _).
  - unfold handoff_begin. pose proof (track_queues now id (Handoff a b) (sch k)) as E. destruct (track _ _ _ _) as [s' [[]| |]]; cbn in *; by rewrite E.
  - destruct (tasks k !! i) as [[x [?|] []]|]; try done. unfold handoff_queue. rewrite get_or_create_eq.
    pose proof (create_never_drops (queue_name (hi_from_node x) (hi_to_node x)) _ _ (proj1 Hn) Hn) as Hc.
    by destruct (get_or_create_with_config _ _ _).
  - destruct (tasks k !! i) as [[x [r|] []]|]; try done. unfold handoff_push.
    pose proof (on_queue_never_drops r (enqueue x) EnqRejected _ (enqueue_config x) Hn) as Hc. by destruct (on_queue _ _ _ _) as [m []].
  - destruct (tasks k !! i) as [[x ? []]|]; try done. cbn. unfold handoff_refuse, mbind, M_bind.
    pose proof (track_queues now (hi_request_id x) (Failed ("handoff queue " +:+ queue_name (hi_from_node x) (hi_to_node x) +:+ " is full")) (sch k)) as E.
    destruct (track _ _ _ _) as [s' []]; cbn in *; by rewrite E.
  - pose proof (on_queue_never_drops r dequeue None _ ltac:(by intros q; unfold dequeue; destruct (items q)) Hn) as Hc.
    by destruct (on_queue _ _ _ _).
  - pose proof (on_queue_never_drops r (λ q, (clear q, items q)) [] _ ltac:(done) Hn) as Hc. by destruct (on_queue _ _ _ _).
  - cbn. apply create_never_drops; [by eapply Hop|done].
  - case_decide; [done|]. unfold drop_queue. destruct (heap _ !! r); [|done]. case_decide; [|done]. cbn. split; [apply Hn|].
    intros r' q' Hq'. cbn in Hq'. apply lookup_delete_Some in Hq' as [_ Hq']. exact (proj2 Hn r' q' Hq').
Qed.

(** The reason [w] for leaving comes only from the steps that give it. *)
Definition gives (w : removal) (k : run_state) (op : sched_op) : Prop :=
  match w with
  | Served => ∃ r, op = SDequeue r
  | Dropped => ¬ never_drops (queues (sch k))
  | Cleared => ∃ r, op = SClear r
  | Lost => ∃ r, op = SDropQueue r
  end.

Lemma step_gone k op : ∃ new, gone (sched_step k op) = gone k ++ new ∧ Forall (λ g, gives g.1 k op) new.
Proof.
  assert (∀ w (l : list HandoffItem), gives w k op → Forall (λ g, gives g.1 k op) (pair w <$> l)) as Hp.
  { intros w l Hw. apply Forall_fmap, Forall_true. done. }
  assert (∃ new, gone k = gone k ++ new ∧ Forall (λ g, gives g.1 k op) new) as Hno by (exists []; by rewrite app_nil_r).
  destruct op as [| |i|i|now i| | | |r|r|name c|name|r| |]; cbn [sched_step]; try exact Hno.
  - by destruct (handoff_begin _ _ _ _ _) as [s' [[]| |]].
  - destruct (tasks k !! i) as [[x [?|] []]|]; try exact Hno. by destruct (handoff_queue _ _) as [? []].
  - destruct (tasks k !! i) as [[x [r|] []]|]; try exact Hno. destruct (handoff_push r x (sch k)) as [s' [[]| |]]; try exact Hno;
      (eexists; split; [reflexivity|]; unfold pushed_out; destruct (heap (queues (sch k)) !! r) as [q|] eqn:Eq; [|constructor];
       destruct (enqueue x q).2 eqn:Er; try constructor; apply Hp; cbn; intros [_ Hh]; specialize (Hh r q Eq); cbn in Hh;
       unfold enqueue in Er; case_decide; [destruct (q_overflow (hq_config q))|]; done).
  - by destruct (tasks k !! i) as [[x ? []]|].
  - destruct (on_queue _ _ _ _) as [m o]. eexists. split; [reflexivity|]. apply Hp. cbn. eauto.
  - destruct (on_queue _ _ _ _) as [m o]. eexists. split; [reflexivity|]. apply Hp. cbn. eauto.
  - case_decide; [exact Hno|]. destruct (drop_queue _ _) as [m l]. eexists. split; [reflexivity|]. apply Hp. cbn. eauto.
Qed.
End handoff.

Arguments run_state : clear implicits.

Definition run_new {St} (cfg : SchedulerConfig) (reg : NodeRegistry) ms (st : St) : run_state St := mkRunState (with_strategy cfg reg ms st) [] [].

Lemma sched_run_inv {St} `{Hst : RoutingStrategy St} `{!RoutingLaws St} `{O : StringOrder} cfg reg ms (st : St) ops :
  let k := foldl sched_step (run_new cfg reg ms st) ops in
  run_inv k ∧
  (q_overflow (cfg_handoff_queue cfg) ≠ DropOldest → (∀ name c, SConfigure name c ∈ ops → q_overflow c ≠ DropOldest) →
   never_drops (queues (sch k)) ∧ Forall (λ g, g.1 ≠ Dropped) (gone k)) ∧
  ((∀ r, SClear r ∉ ops) → Forall (λ g, g.1 ≠ Cleared) (gone k)) ∧
  ((∀ r, SDropQueue r ∉ ops) → Forall (λ g, g.1 ≠ Lost) (gone k)).
Proof.
  cbv zeta. induction ops as [|op ops (Hi & Hd & Hc & Hl)] using rev_ind.
  - simpl. split_and!; [split; [apply manager_new_wf|by intros ?? ?%elem_of_nil|by intros ????]| |by intros; constructor..].
    intros Hc _. split; [split; [done|apply map_Forall_empty]|constructor].
  - rewrite foldl_app. cbn [foldl]. set (k := foldl sched_step _ ops) in *. destruct (step_gone k op) as (new & -> & Hnew).
    assert (∀ w, ¬ gives w k op → Forall (λ g, g.1 ≠ w) (gone k) → Forall (λ g, g.1 ≠ w) (gone k ++ new)) as Hw.
    { intros w Hno Hg. apply Forall_app. split; [done|]. eapply Forall_impl; [exact Hnew|]. intros g Hg' <-. by apply Hno. }
    split_and!.
    + by apply sched_step_inv.
    + intros Hcfg Hops. destruct (Hd Hcfg) as [Hq Hg]; [intros name c Hin; apply (Hops name), elem_of_app; by left|]. split.
      * apply sched_step_never_drops; [done|]. intros name c ->. apply (Hops name), elem_of_app. right. by apply list_elem_of_singleton.
      * apply Hw; [|done]. cbn. auto.
    + intros Hops. apply Hw; [intros [r ->]; apply (Hops r); set_solver|]. apply Hc. intros r ?. apply (Hops r). set_solver.
    + intros Hops. apply Hw; [intros [r ->]; apply (Hops r); set_solver|]. apply Hl. intros r ?. apply (Hops r). set_solver.
Qed.

(** C33. Submitting a request. With any strategy that keeps its laws and any cluster state, a request
    ends up tracked, and everything else but the strategy's own state is untouched, finished
    requests that made room in the tracker excepted. On success it is recorded as processing on the
    target, which is online; the target is at critical load only if pressured nodes are not
    filtered, the policy is not to drop, and, when it is to redirect, every online node is critical.
    On failure the request is recorded as failed, because the strategy found no node, or because
    its choice is at critical load under the drop policy. *)
Theorem submit_request_correct {St} `{Hst : RoutingStrategy St} `{!RoutingLaws St} `{O : StringOrder}
    now id pref_role pref_stage affinity (s : Scheduler St) :
  let '(s', r) := submit_request now id pref_role pref_stage affinity s in
  submit_spec now id (mkRequest id pref_role pref_stage None AnyTraffic affinity) s s' r.
Proof. apply submit_request_spec. Qed.

(** C34. Handoffs. In every run of the scheduler (submissions, handoffs, arrivals, completions and
    failures, consumers of the queues, queues configured, cleared, removed from the manager and
    dropped with their last handle, load and status changes), where the lifecycle change, the
    lookup of the queue, the enqueue and the failure of a refused handoff are separate steps that
    other tasks run between, a request in the handoff state has an item with its source and
    destination that its task is about to enqueue, that is queued, or that has left a queue. An
    item leaves a queue because it is dequeued, because a queue that drops its oldest items is
    full, because somebody clears the queue, or with the last handle of a queue removed from the
    manager: without the last three every item that left was served. A request whose item was
    dropped stays in the handoff state with its item nowhere. *)
Theorem handoff_never_lost {St} `{Hst : RoutingStrategy St} `{!RoutingLaws St} `{O : StringOrder}
    cfg reg ms (st : St) ops :
  (let k := foldl sched_step (run_new cfg reg ms st) ops in
   handoffs_accounted k ∧
   (q_overflow (cfg_handoff_queue cfg) ≠ DropOldest → (∀ name c, SConfigure name c ∈ ops → q_overflow c ≠ DropOldest) →
    Forall (λ g, g.1 ≠ Dropped) (gone k)) ∧
   ((∀ r, SClear r ∉ ops) → Forall (λ g, g.1 ≠ Cleared) (gone k)) ∧
   ((∀ r, SDropQueue r ∉ ops) → Forall (λ g, g.1 ≠ Lost) (gone k))) ∧
  (let reg := upsert_node (mkNode "a" "10.0.0.1:1" Hybrid None None (mkResources 0 0)) Online (mkRegistry default_meta ∅ "a") in
   let cfg := mkSchedConfig Centralized default_bp_config (mkQueueConfig 1 DropOldest) 10 true in
   let ops := [SSubmit 0 "r1" None None None; SSubmit 0 "r2" None None None; SHandoff 1 "r1" "a" "b" []; SGetQueue 0; SPush 0;
               SHandoff 1 "r2" "a" "b" []; SGetQueue 0; SPush 0] in
   let k := foldl (sched_step (O := gmap_order)) (run_new cfg reg ∅ LoadBalanced) ops in
   get_request_state "r1" (sch k) = Some (Handoff "a" "b") ∧
   (λ q, hi_request_id <$> items q) <$> heap (queues (sch k)) !! 0 = Some ["r2"] ∧ (gone k).*1 = [Dropped]).
Proof.
  split; [|vm_compute; by repeat split].
  destruct (sched_run_inv cfg reg ms st ops) as ([_ _ Hh] & Hd & Hc & Hl). cbv zeta. split_and!; [done| |done|done].
  intros H1 H2. by apply Hd.
Qed.

(** A cluster of two nodes, one of them at critical load, and round robin. *)
Lemma submit_request_witness :
  let node x := mkNode x "10.0.0.1:1" Hybrid None None (mkResources 0 0) in
  let reg := upsert_node (node "a") Online (upsert_node (node "b") Online (mkRegistry default_meta ∅ "a")) in
  let cfg := mkSchedConfig Centralized default_bp_config default_queue_config 10 false in
  let s := update_node_load 0 "a" 20 (SpecFloat.S754_zero false) (with_strategy cfg reg ∅ round_robin_new) in
  let '(s', r) := submit_request (O := gmap_order) 1 "r" None None None s in
  is_critical "a" (backpressure s) = true ∧ target_node <$> (snd <$> r) = Ok "b" ∧
  submit_spec (O := gmap_order) 1 "r" (mkRequest "r" None None None AnyTraffic None) s s' r.
Proof.
  intros node reg cfg s.
  pose proof (submit_request_correct (O := gmap_order) 1 "r" None None None s) as H.
  destruct (submit_request (O := gmap_order) 1 "r" None None None s) as [s' r] eqn:E.
  split; [vm_compute; reflexivity|]. split; [|exact H].
  rewrite <-(f_equal snd E : _ = r). vm_compute. reflexivity.
Defined.

Lemma handoff_never_lost_witness :
  let reg := upsert_node (mkNode "a" "10.0.0.1:1" Hybrid None None (mkResources 0 0)) Online (mkRegistry default_meta ∅ "a") in
  let ops := [SSubmit 0 "r1" None None None; SHandoff 1 "r1" "a" "b" [7%N]; SGetQueue 0; SRemoveQueue "a->b"; SPush 0; SDropQueue 0] in
  let k := foldl (sched_step (O := gmap_order)) (run_new default_sched_config reg ∅ LoadBalanced) ops in
  get_request_state "r1" (sch k) = Some (Handoff "a" "b") ∧ (λ g, (g.1, hi_request_id g.2)) <$> gone k = [(Lost, "r1")] ∧
  handoffs_accounted k.
Proof.
  intros reg ops k.
  destruct (handoff_never_lost (O := gmap_order) default_sched_config reg ∅ LoadBalanced ops) as [(H & _) _].
  split; [vm_compute; reflexivity|]. split; [vm_compute; reflexivity|exact H].
Defined.
