(* ===== verification/PipeBalance.v ===== *)
(** * The layer balancer

    [distributed/pipeline/partition_balance.rs]: prefix sums, the greedy sweep that
    tests a bound on the stage loads, the binary search for the smallest bound,
    the reconstruction of the split, the uniform fallback and the imbalance
    warning. [greedy_end] is the body that [feasible] and [build_splits] share.
    Indices into the prefix sums are in range in the sweeps ([greedy_end_bounds]);
    [check_imbalance] reads the ranges it is given and panics outside. *)

From S2P Require Import Prelude PipePartition.

(** [iter().max().unwrap_or(0)], [iter().min()] and [iter().max_by_key(..)], which keeps
    the last of several maxima. *)
Definition max_of (l : list N) : N := foldl N.max 0%N l.
Definition min_of (l : list N) : N := match l with [] => 0%N | x :: l' => foldl N.min x l' end.

Definition last_max {A} (key : A → N) (l : list A) : option A :=
  foldl (λ best x, match best with
                   | Some b => if (key b <=? key x)%N then Some x else best
                   | None => Some x
                   end) None l.

Definition div_ceil_u64 (a b : N) : N := if decide (a mod b = 0)%N then (a / b)%N else (a / b + 1)%N.

Fixpoint prefix_from (acc : N) (l : list N) : list N :=
  acc :: match l with [] => [] | b :: l' => prefix_from (saturating_add_u64 acc b) l' end.
Definition prefix_sums (l : list N) : list N := prefix_from 0 l.

(** [prefix[b].saturating_sub(prefix[a])] *)
Definition seg (p : list N) (a b : nat) : N := (p !!! b - p !!! a)%N.

Definition is_forbidden (b : nat) (forb : list nat) : bool := bool_decide (b ∈ forb).

(** [while end < max_end && prefix[end + 1] - prefix[cursor] <= cap], counting down
    [max_end - end]. *)
Fixpoint grow (p : list N) (cursor : nat) (cap : N) (left e : nat) : nat :=
  match left with
  | O => e
  | S left' => if (seg p cursor (S e) <=? cap)%N then grow p cursor cap left' (S e) else e
  end.

(** [while end > cursor + 1 && is_forbidden(end)] *)
Fixpoint snap_back (forb : list nat) (cursor e : nat) : nat :=
  match e with
  | O => e
  | S e' => if (cursor + 1 <? e) && is_forbidden e forb then snap_back forb cursor e' else e
  end.

Definition greedy_end (t budget : N) (p : list N) (forb : list nat) (cursor max_end : nat) : option nat :=
  let cap := N.min t budget in
  let e := grow p cursor cap (max_end - (cursor + 1)) (cursor + 1) in
  if (cap <? seg p cursor e)%N && (cursor + 1 =? e) then None
  else
    let e := snap_back forb cursor e in
    if e <=? cursor then None else Some e.

(** [budgets] are those of the stages from [stage] on, so [remaining - 1] is the length of
    its tail. *)
Fixpoint feasible (t : N) (p : list N) (budgets : list N) (forb : list nat) (n cursor : nat) : bool :=
  match budgets with
  | [] => cursor =? n
  | budget :: rest =>
    let max_end := n - length rest in
    if max_end <=? cursor then false
    else match rest with
    | [] => let last_bytes := seg p cursor n in
            if (t <? last_bytes)%N || (budget <? last_bytes)%N then false else true
    | _ => match greedy_end t budget p forb cursor max_end with
           | Some e => feasible t p rest forb n e
           | None => false
           end
    end
  end.

Fixpoint build_splits (t : N) (p : list N) (budgets : list N) (forb : list nat) (n cursor : nat) : option (list nat) :=
  match budgets with
  | [] => if cursor =? n then Some [] else None
  | budget :: rest =>
    let max_end := n - length rest in
    if max_end <=? cursor then None
    else match rest with
    | [] => let last_bytes := seg p cursor n in
            if (t <? last_bytes)%N || (budget <? last_bytes)%N then None else Some []
    | _ => match greedy_end t budget p forb cursor max_end with
           | Some e => bs ← build_splits t p rest forb n e; Some (e :: bs)
           | None => None
           end
    end
  end.

(** [while is_forbidden(b) && tries < n_layers] *)
Fixpoint slide (forb : list nat) (cursor tries b : nat) : nat :=
  match tries with
  | O => b
  | S tries' =>
    if is_forbidden b forb then slide forb cursor tries' (if cursor + 1 <? b then b - 1 else b + 1) else b
  end.

Fixpoint uniform_from (n per rem : nat) (forb : list nat) (stage left cursor : nat) : list nat :=
  match left with
  | O => []
  | S left' =>
    let count := per + if stage <? rem then 1 else 0 in
    let b := cursor + count in
    let b := if b <=? cursor then cursor + 1 else b in
    let b := slide forb cursor n b in
    b :: uniform_from n per rem forb (S stage) left' b
  end.

Definition uniform_split (n k : nat) (forb : list nat) : list nat :=
  uniform_from n (n `div` k) (n `mod` k) forb 0 (k - 1) 0.

Fixpoint ranges_from (start : nat) (splits : list nat) (n : nat) : list Range :=
  match splits with
  | [] => [mkRange start n]
  | b :: bs => mkRange start b :: ranges_from b bs n
  end.
Definition splits_to_ranges (splits : list nat) (n : nat) : list Range := ranges_from 0 splits n.

(** ** The imbalance warning *)

Definition IMBALANCE_WARN_RATIO_PCT : N := 150.

Record ImbalanceWarning := mkWarning {
  w_min : N; w_max : N; w_ratio : N;
  w_group : option (nat * LayerAdjacencyGroup);
  w_forbidden : bool;
}.

Definition saturating_mul_u64 (a b : N) : N := N.min u64_max (a * b).

(** Bytes of a group, its ends clamped to the model. *)
Definition group_bytes (p : list N) (g : LayerAdjacencyGroup) : N :=
  let e := Nat.min (r_end (g_layers g)) (length p - 1) in
  let s := Nat.min (r_start (g_layers g)) e in
  seg p s e.

Fixpoint stage_loads (p : list N) (ranges : list Range) : outcome PartitionError (list N) :=
  match ranges with
  | [] => Ok []
  | r :: rs =>
    match p !! r_end r, p !! r_start r with
    | Some b, Some a => l ← stage_loads p rs; Ok ((b - a)%N :: l)
    | _, _ => Panic
    end
  end.

Definition check_imbalance (ranges : list Range) (p : list N) (groups : list LayerAdjacencyGroup)
    (forb : list nat) : outcome PartitionError (list ImbalanceWarning) :=
  if length ranges <? 2 then Ok []
  else
    per_stage ← stage_loads p ranges;
    let max_val := max_of per_stage in
    let min_val := min_of per_stage in
    if (min_val =? 0)%N || (max_val =? 0)%N then Ok []
    else
      let ratio := (saturating_mul_u64 max_val 100 / min_val)%N in
      if (ratio <=? IMBALANCE_WARN_RATIO_PCT)%N then Ok []
      else
        let group :=
          '(h, _) ← last_max snd (imap pair per_stage);
          stage_range ← ranges !! h;
          g ← last_max (group_bytes p)
                (filter (λ g, r_start stage_range ≤ r_start (g_layers g) ∧ r_end (g_layers g) ≤ r_end stage_range) groups);
          Some (h, g) in
        Ok [mkWarning min_val max_val ratio group (negb (bool_decide (forb = [])))].

(** ** Balancing *)

(** The smallest per-stage load that is not excluded at once: the mean, the heaviest
    layer and the heaviest group. *)
Definition load_lower_bound (layers : list N) (p : list N) (k : nat) (groups : list LayerAdjacencyGroup) : N :=
  let total := default 0%N (last p) in
  let adjacency_lb := max_of (group_bytes p <$> filter (λ g, range_is_empty (g_layers g) = false) groups) in
  N.max (N.max (max_of layers) (div_ceil_u64 total (N.of_nat k))) adjacency_lb.

(** [while lo < hi]; the width at least halves, so its bit length is enough fuel. *)
Fixpoint bisect (test : N → bool) (fuel : nat) (lo hi : N) : N :=
  match fuel with
  | O => lo
  | S fuel' =>
    if (lo <? hi)%N then
      let mid := (lo + (hi - lo) / 2)%N in
      if test mid then bisect test fuel' lo mid else bisect test fuel' (mid + 1) hi
    else lo
  end.

Definition balance_layers (layers budgets : list N) (forb : list nat) (groups : list LayerAdjacencyGroup)
    (device_ids : list string) : outcome PartitionError (list Range * list ImbalanceWarning) :=
  let n := length layers in
  let k := length budgets in
  if k =? 0 then Err ZeroStages
  else if n <? k then Err (FewLayers n k)
  else if k =? 1 then Ok ([mkRange 0 n], [])
  else
    let p := prefix_sums layers in
    let total := default 0%N (last p) in
    let max_budget := max_of budgets in
    let lo := load_lower_bound layers p k groups in
    let hi := N.max total lo in
    if (max_budget <? lo)%N then
      let heavy := default 0 (fst <$> last_max snd (imap pair budgets)) in
      Err (LoadAboveBudgets lo max_budget heavy (default EmptyString (device_ids !! heavy)))
    else
      let test := λ t, feasible t p budgets forb n 0 in
      let lo := bisect test (N.size_nat (hi - lo)) lo hi in
      let target := if test lo then lo else max_budget in
      let splits :=
        match build_splits target p budgets forb n 0 with
        | Some v => v
        | None => uniform_split n k forb
        end in
      let ranges := splits_to_ranges splits n in
      warnings ← check_imbalance ranges p groups forb;
      Ok (ranges, warnings).
