(* ===== verification/PipeAssembly.v ===== *)
(** * Assembly of stage assignments and quality report

    [distributed/pipeline/partition_assembly.rs] and [partition_quality.rs]: the automatic
    plan (edge reservations, balancer, capacity checks, validators, report) and the
    manual plan. *)

From S2P Require Import Prelude PipePartition PipeBalance.

(** ** Quality report *)

Record StageQuality := mkQuality {
  q_stage_index : nat;
  q_device_id : string;
  q_layer_count : nat;
  q_estimated_bytes : N;
  q_actual_bytes : option N;
}.

Definition drift_percent (q : StageQuality) : option N :=
  actual ← q_actual_bytes q;
  if (q_estimated_bytes q =? 0)%N || (actual =? 0)%N then None
  else Some (saturating_mul_u64 actual 100 / q_estimated_bytes q)%N.

Record PartitionQualityReport := mkReport {
  per_stage : list StageQuality;
  max_stage_estimated_bytes : N;
  min_stage_estimated_bytes : N;
  imbalance_pct : N;
  warnings : list ImbalanceWarning;
}.

Definition build_quality_report_with_actuals (l : list StageAssignment) (actuals : option (list N))
    (ws : list ImbalanceWarning) : PartitionQualityReport :=
  let stages := imap (λ i a, mkQuality (stage_index a) (stage_device_id a)
                               (r_end (layer_range a) - r_start (layer_range a)) (estimated_memory_bytes a)
                               (v ← actuals; v !! i)) l in
  let max_val := max_of (q_estimated_bytes <$> stages) in
  let min_val := min_of (q_estimated_bytes <$> stages) in
  let pct := if (min_val =? 0)%N then 0%N else (saturating_mul_u64 max_val 100 / min_val)%N in
  mkReport stages max_val min_val pct ws.

Definition populate_actual_memory (r : PartitionQualityReport) (actuals : list N) : PartitionQualityReport :=
  mkReport (imap (λ i q, mkQuality (q_stage_index q) (q_device_id q) (q_layer_count q) (q_estimated_bytes q) (actuals !! i))
             (per_stage r))
    (max_stage_estimated_bytes r) (min_stage_estimated_bytes r) (imbalance_pct r) (warnings r).

(** ** Assignments *)

(** [slice.get(range)] *)
Definition slice {A} (l : list A) (r : Range) : option (list A) :=
  if decide (r_start r ≤ r_end r ≤ length l) then Some (take (r_end r - r_start r) (drop (r_start r) l)) else None.

Fixpoint build_from (m : ModelProfile) (per_layer : list N) (n_stages i : nat) (ranges : list Range)
    (devices : list DeviceSpec) : outcome PartitionError (list StageAssignment) :=
  match ranges with
  | [] => Ok []
  | r :: rs =>
    let is_first := i =? 0 in
    let is_last := i + 1 =? n_stages in
    let mem := default 0%N (sat_sum <$> slice per_layer r) in
    let mem := if is_first then saturating_add_u64 mem (embedding_param_bytes m) else mem in
    let mem := if is_last then saturating_add_u64 mem (lm_head_param_bytes m) else mem in
    match devices with
    | [] => Panic
    | d :: ds =>
      l ← build_from m per_layer n_stages (S i) rs ds;
      Ok (mkStage i (device_id d) r is_first is_last mem :: l)
    end
  end.

Definition build_assignments (ranges : list Range) (m : ModelProfile) (devices : list DeviceSpec)
    (per_layer : list N) : outcome PartitionError (list StageAssignment) :=
  build_from m per_layer (length ranges) 0 ranges devices.

(** ** The automatic plan *)

(** [effective_memory[i] -= reserved], refused when it does not hold the reservation. *)
Definition reserve (mem : list N) (i : nat) (reserved : N) (err : N → N → PartitionError) (shown : N) :
    outcome PartitionError (list N) :=
  match mem !! i with
  | None => Panic
  | Some a => if (a <? reserved)%N then Err (err shown reserved) else Ok (<[i := (a - reserved)%N]> mem)
  end.

(** The capacity check of every range the balancer returned. *)
Fixpoint check_capacity (per_layer : list N) (i : nat) (ranges : list Range) (mem : list N) : outcome PartitionError () :=
  match ranges with
  | [] => Ok tt
  | r :: rs =>
    if range_is_empty r then Err (EmptyStage i)
    else match slice per_layer r, mem with
    | Some s, budget :: mem' =>
      _ ← ensure (sat_sum s ≤ budget)%N (StageOverBudget i (sat_sum s) budget);
      check_capacity per_layer (S i) rs mem'
    | _, _ => Panic
    end
  end.

Definition available (devices : list DeviceSpec) (i : nat) : N :=
  default 0%N (available_memory_bytes <$> devices !! i).

(** The per-stage layer budgets: memory less the embedding and the output projection. *)
Definition effective_memory (m : ModelProfile) (devices : list DeviceSpec) : outcome PartitionError (list N) :=
  let last_idx := length devices - 1 in
  mem ← reserve (available_memory_bytes <$> devices) 0 (embedding_param_bytes m) EmbeddingTooLarge (available devices 0);
  reserve mem last_idx (lm_head_param_bytes m) LmHeadTooLarge (available devices last_idx).

Definition assemble_auto_partition (m : ModelProfile) (devices : list DeviceSpec) :
    outcome PartitionError (list StageAssignment * PartitionQualityReport) :=
  let n_devices := length devices in
  let n_layers := num_layers m in
  _ ← ensure (0 < n_devices) NoDevices;
  _ ← ensure (0 < n_layers) NoLayers;
  _ ← ensure (n_devices ≤ n_layers) (MoreDevicesThanLayers n_devices n_layers);
  mem ← effective_memory m devices;
  let per_layer := effective_layer_bytes m in
  _ ← ensure (sat_sum per_layer ≤ sat_sum mem)%N (InsufficientMemory (sat_sum mem) (sat_sum per_layer));
  '(ranges, ws) ← balance_layers per_layer mem (forbidden_boundaries m) (adjacency m) (device_id <$> devices);
  _ ← ensure (length ranges = n_devices) (RangeCount (length ranges) n_devices);
  _ ← check_capacity per_layer 0 ranges mem;
  assignments ← build_assignments ranges m devices per_layer;
  _ ← validate_partition assignments n_layers;
  _ ← validate_memory_fit assignments devices;
  Ok (assignments, build_quality_report_with_actuals assignments None ws).

Definition auto_partition (m : ModelProfile) (devices : list DeviceSpec) : outcome PartitionError (list StageAssignment) :=
  fst <$> assemble_auto_partition m devices.

(** ** The manual plan *)

Definition assemble_manual_partition (ranges : list Range) (m : ModelProfile) (devices : list DeviceSpec) :
    outcome PartitionError (list StageAssignment) :=
  _ ← ensure (length ranges = length devices) (ManualCount (length ranges) (length devices));
  _ ← validate_adjacency ranges (adjacency m);
  let per_layer := effective_layer_bytes m in
  assignments ← build_assignments ranges m devices per_layer;
  _ ← validate_partition assignments (num_layers m);
  _ ← validate_memory_fit assignments devices;
  Ok assignments.
