(* ===== verification/PipePlans.v ===== *)
(** * Legal plans

    What the validators of a plan accept: ranges that tile the layers, one per
    device, with the embedding on the first stage, the output projection on the
    last, and every stage within its device. [assignments_of] is the one list of
    assignments that [build_assignments] makes of such ranges. *)

From S2P Require Import Prelude PipePartition PipeBalance PipeAssembly.

(** Non-empty ranges, end to end, from layer [s] to layer [n]. *)
Fixpoint tiles_from (s : nat) (rs : list Range) (n : nat) : Prop :=
  match rs with
  | [] => s = n
  | r :: rs' => r_start r = s ∧ s < r_end r ∧ tiles_from (r_end r) rs' n
  end.
Definition tiles (rs : list Range) (n : nat) : Prop := rs ≠ [] ∧ tiles_from 0 rs n.

Definition sumN (l : list N) : N := foldr N.add 0%N l.

(** Bytes of the layers of a range. *)
Definition load (layers : list N) (r : Range) : N := sumN (take (r_end r - r_start r) (drop (r_start r) layers)).

Definition reserved (m : ModelProfile) (k i : nat) : N :=
  ((if (i =? 0)%nat then embedding_param_bytes m else 0) + if (i + 1 =? k)%nat then lm_head_param_bytes m else 0)%N.

(** The bytes of stage [i] of [k], at the width of the estimate. *)
Definition stage_bytes (m : ModelProfile) (k i : nat) (r : Range) : N :=
  N.min u64_max (load (effective_layer_bytes m) r + reserved m k i).

Definition uncut (m : ModelProfile) (rs : list Range) : Prop :=
  ∀ g r, g ∈ adjacency m → r ∈ rs → ¬ (r_start (g_layers g) < r_start r < r_end (g_layers g)).

Definition fits_devices (m : ModelProfile) (devices : list DeviceSpec) (rs : list Range) : Prop :=
  ∀ i r d, rs !! i = Some r → devices !! i = Some d → (stage_bytes m (length rs) i r ≤ available_memory_bytes d)%N.

Definition assignment_of (m : ModelProfile) (k : nat) (i : nat) (r : Range) (d : DeviceSpec) : StageAssignment :=
  mkStage i (device_id d) r (i =? 0) (i + 1 =? k) (stage_bytes m k i r).

Definition assignments_of (m : ModelProfile) (devices : list DeviceSpec) (rs : list Range) : list StageAssignment :=
  imap (λ i '(r, d), assignment_of m (length rs) i r d) (zip rs devices).

(** ** Sums *)

Lemma sumN_app l1 l2 : sumN (l1 ++ l2) = (sumN l1 + sumN l2)%N.
Proof. induction l1 as [|x l1 IH]; simpl; [done|]. rewrite IH. lia. Qed.

Lemma sat_fold l a : (a ≤ u64_max)%N → foldl saturating_add_u64 a l = N.min u64_max (a + sumN l)%N.
Proof.
  revert a. induction l as [|x l IH]; intros a Ha; simpl; [lia|].
  rewrite IH by (unfold saturating_add_u64; lia). unfold saturating_add_u64. lia.
Qed.

Lemma sat_sum_eq l : sat_sum l = N.min u64_max (sumN l).
Proof. unfold sat_sum. by rewrite sat_fold by done. Qed.

Lemma length_effective m : length (effective_layer_bytes m) = num_layers m.
Proof. unfold effective_layer_bytes. by rewrite length_fmap, length_seq. Qed.

(** ** Tiling *)

Lemma tiles_from_le s rs n : tiles_from s rs n → s + length rs ≤ n.
Proof.
  revert s. induction rs as [|r rs IH]; intros s; simpl; [lia|]. intros (_ & ? & Hr). apply IH in Hr. lia.
Qed.

Lemma tiles_from_elem s rs n r : tiles_from s rs n → r ∈ rs → s ≤ r_start r ∧ r_start r < r_end r ∧ r_end r ≤ n.
Proof.
  revert s. induction rs as [|r' rs IH]; intros s; [by intros _ ?%elem_of_nil|].
  simpl. intros (<- & ? & Hr) [->|Hin]%elem_of_cons.
  - apply tiles_from_le in Hr. lia.
  - destruct (IH _ Hr Hin). lia.
Qed.

Lemma check_tiling_ok s l e :
  check_tiling s l = Ok e ↔ tiles_from s (layer_range <$> l) e.
Proof.
  revert s. induction l as [|a l IH]; intros s; simpl; [split; [by intros [= ->]|by intros ->]|].
  rewrite !ensure_bind, IH. split.
  - intros (<- & ? & ?). done.
  - intros (<- & ? & ?). done.
Qed.

(** ** Building assignments *)

Lemma slice_load layers r :
  r_start r ≤ r_end r ≤ length layers →
  sat_sum <$> slice layers r = Some (N.min u64_max (load layers r)).
Proof. intros Hr. unfold slice. rewrite decide_True by done. simpl. by rewrite sat_sum_eq. Qed.

Lemma build_from_eq m k i rs devices :
  length rs ≤ length devices →
  (∀ r, r ∈ rs → r_start r ≤ r_end r ≤ num_layers m) →
  build_from m (effective_layer_bytes m) k i rs devices =
    Ok (imap (λ j '(r, d), assignment_of m k (i + j) r d) (zip rs devices)).
Proof.
  revert i devices. induction rs as [|r rs IH]; intros i devices Hl Hr; [done|].
  destruct devices as [|d ds]; simpl in Hl; [lia|]. cbn [build_from].
  rewrite IH by (auto with lia || set_solver). cbn [zip imap mbind outcome_bind].
  rewrite slice_load by (rewrite length_effective; set_solver). cbn [default].
  f_equal. f_equal.
  - unfold assignment_of. rewrite Nat.add_0_r. f_equal. unfold stage_bytes, reserved, saturating_add_u64.
    destruct (i =? 0), (i + 1 =? k); cbn; lia.
  - apply imap_ext. intros j [r' d'] _. simpl. by rewrite Nat.add_succ_r.
Qed.

Lemma build_from_ranges m pl k i rs devices l :
  build_from m pl k i rs devices = Ok l → layer_range <$> l = rs ∧ length rs ≤ length devices.
Proof.
  revert i devices l. induction rs as [|r rs IH]; intros i devices l; simpl; [intros [= <-]; split; [done|lia]|].
  destruct devices as [|d ds]; [done|]. rewrite outcome_bind_ok. intros (l' & Hl & [= <-]).
  apply IH in Hl as [<- ?]. simpl. split; [done|lia].
Qed.

Lemma length_assignments m devices rs : length rs = length devices → length (assignments_of m devices rs) = length rs.
Proof. intros. unfold assignments_of. rewrite length_imap, length_zip. lia. Qed.

Lemma lookup_assignments m devices rs i :
  assignments_of m devices rs !! i =
    (r ← rs !! i; d ← devices !! i; Some (assignment_of m (length rs) i r d)).
Proof.
  unfold assignments_of. rewrite list_lookup_imap, lookup_zip_with.
  destruct (rs !! i) as [r|]; simpl; [|done]. by destruct (devices !! i).
Qed.

Lemma assignments_ranges m devices rs : length rs = length devices → layer_range <$> assignments_of m devices rs = rs.
Proof.
  intros Hl. apply list_eq. intros i. rewrite list_lookup_fmap, lookup_assignments.
  destruct (rs !! i) as [r|] eqn:Hr; [|done]. apply lookup_lt_Some in Hr as Hi.
  destruct (devices !! i) as [d|] eqn:Hd; [done|]. apply lookup_ge_None in Hd. lia.
Qed.

Lemma tiling_built m k rs devices l :
  build_assignments rs m devices (effective_layer_bytes m) = Ok l → length rs = length devices →
  tiles_from 0 (layer_range <$> l) k → k = num_layers m → l = assignments_of m devices rs.
Proof.
  intros Hb Hl Ht ->. pose proof (build_from_ranges _ _ _ _ _ _ _ Hb) as [Hrs _]. rewrite Hrs in Ht.
  unfold build_assignments in Hb. rewrite build_from_eq in Hb; [by injection Hb as <-|lia|].
  intros r Hr. destruct (tiles_from_elem _ _ _ _ Ht Hr). lia.
Qed.

(** ** The validators, exactly *)

Definition well_placed (l : list StageAssignment) : Prop :=
  ∀ i a, l !! i = Some a →
    stage_index a = i ∧ has_embedding a = (i =? 0) ∧ has_lm_head a = (i + 1 =? length l).

Lemma check_all_imap {E A} (f : nat * A → outcome E ()) l :
  check_all f (imap pair l) = Ok tt ↔ ∀ i a, l !! i = Some a → f (i, a) = Ok tt.
Proof.
  rewrite check_all_ok, Forall_lookup. split.
  - intros H i a Hi. apply (H i). rewrite list_lookup_imap, Hi. done.
  - intros H i [j a]. rewrite list_lookup_imap. destruct (l !! i) eqn:Hi; simpl; [|done].
    intros [= <- <-]. by apply H.
Qed.

Lemma validate_partition_ok l n :
  validate_partition l n = Ok tt ↔ l ≠ [] ∧ well_placed l ∧ tiles_from 0 (layer_range <$> l) n.
Proof.
  unfold validate_partition. rewrite ensure_bind, bind_unit_ok, check_all_imap, outcome_bind_ok.
  setoid_rewrite ensure_ok. setoid_rewrite check_tiling_ok. setoid_rewrite ensure_bind.
  destruct l as [|a0 rest]; [naive_solver|].
  destruct (last (a0 :: rest)) as [z|] eqn:Hz; [|by apply last_None in Hz].
  setoid_rewrite ensure_bind. setoid_rewrite bind_unit_ok. setoid_rewrite ensure_bind. setoid_rewrite check_all_ok. setoid_rewrite Forall_lookup.
  setoid_rewrite ensure_ok.
  rewrite last_lookup in Hz. replace (length (a0 :: rest) - 1) with (pred (length (a0 :: rest))) by lia.
  set (l := a0 :: rest) in *. split.
  - intros (? & Hidx & e & Ht & <- & H0 & Hr & Hz1 & Hh). split_and!; [done| |done].
    intros i a Hi. split_and!; [by apply Hidx| |].
    + destruct i as [|i]; simpl in *; [by simplify_eq|]. by eapply Hr.
    + pose proof (lookup_lt_Some _ _ _ Hi). destruct (decide (i = pred (length l))) as [->|Hne].
      * rewrite Hz in Hi. simplify_eq. rewrite Hz1. symmetry. apply Nat.eqb_eq. lia.
      * rewrite (proj2 (Nat.eqb_neq _ _)) by lia. apply (Hh i). rewrite lookup_take_lt by lia. done.
  - intros (? & Hw & Ht). split; [done|]. split; [by intros i a Hi; apply Hw|].
    exists n. split_and!; [done..|by apply (Hw 0 a0)| | |].
    + intros i a Hi. apply (Hw (S i) a). done.
    + destruct (Hw _ _ Hz) as (_ & _ & ->). apply Nat.eqb_eq. simpl. lia.
    + intros i a Hi. apply lookup_take_Some in Hi as [Hi ?]. destruct (Hw _ _ Hi) as (_ & _ & ->).
      apply Nat.eqb_neq. lia.
Qed.

Lemma assignments_well_placed m devices rs :
  length rs = length devices → well_placed (assignments_of m devices rs).
Proof.
  intros Hl i a Hi. rewrite length_assignments by done. rewrite lookup_assignments in Hi.
  destruct (rs !! i), (devices !! i); simplify_eq/=. done.
Qed.

Lemma validate_assignments m devices rs n :
  length rs = length devices → validate_partition (assignments_of m devices rs) n = Ok tt ↔ tiles rs n.
Proof.
  intros Hl. rewrite validate_partition_ok, assignments_ranges by done.
  pose proof (assignments_well_placed m devices rs Hl). pose proof (length_assignments m devices rs Hl) as Hlen.
  assert (assignments_of m devices rs ≠ [] ↔ rs ≠ []) as ->; [|unfold tiles; tauto].
  destruct rs, (assignments_of m devices _); simpl in Hlen; naive_solver lia.
Qed.

Lemma validate_memory_assignments m devices rs :
  length rs = length devices →
  validate_memory_fit (assignments_of m devices rs) devices = Ok tt ↔ fits_devices m devices rs.
Proof.
  intros Hl. unfold validate_memory_fit. rewrite ensure_bind, length_assignments, check_all_ok, Forall_lookup by done.
  split.
  - intros [_ H] i r d Hr Hd. specialize (H i (assignment_of m (length rs) i r d, d)).
    rewrite ensure_ok in H. apply H. rewrite lookup_zip_with, lookup_assignments, Hr, Hd. done.
  - intros H. split; [done|]. intros i [a d] Hi. apply ensure_ok.
    rewrite lookup_zip_with, lookup_assignments in Hi.
    destruct (rs !! i) as [r|] eqn:Hr, (devices !! i) as [d'|] eqn:Hd; simplify_eq/=. by eapply H.
Qed.

Lemma validate_adjacency_ok m rs : validate_adjacency rs (adjacency m) = Ok tt ↔ uncut m rs.
Proof.
  unfold validate_adjacency, uncut. rewrite check_all_ok, Forall_forall.
  assert (∀ g, (if range_is_empty (g_layers g) then Ok tt
    else check_all (λ r, ensure (¬ (r_start (g_layers g) < r_start r < r_end (g_layers g))) (SplitsGroup g)) rs) = Ok tt ↔
    ∀ r, r ∈ rs → ¬ (r_start (g_layers g) < r_start r < r_end (g_layers g))) as Hg; [|naive_solver].
  intros g. unfold range_is_empty.
  destruct (Nat.ltb_spec (r_start (g_layers g)) (r_end (g_layers g))); simpl.
  - rewrite check_all_ok, Forall_forall. by setoid_rewrite ensure_ok.
  - split; [|done]. intros _ r _ ?. lia.
Qed.

(** ** Assembled plans *)

Definition plan_ok (m : ModelProfile) (devices : list DeviceSpec) (rs : list Range) : Prop :=
  length rs = length devices ∧ tiles rs (num_layers m) ∧ fits_devices m devices rs.

Lemma assembled_ok {B} (rs : list Range) m devices (f : list StageAssignment → outcome PartitionError B) b :
  length rs = length devices →
  (l ← build_assignments rs m devices (effective_layer_bytes m);
   _ ← validate_partition l (num_layers m); _ ← validate_memory_fit l devices; f l) = Ok b ↔
  plan_ok m devices rs ∧ f (assignments_of m devices rs) = Ok b.
Proof.
  intros Hl. rewrite outcome_bind_ok. split.
  - intros (l & Hb & Hf). apply bind_unit_ok in Hf as [Hv Hf]. apply bind_unit_ok in Hf as [Hm Hf]. pose proof (proj1 (validate_partition_ok _ _) Hv) as (_ & _ & Ht).
    rewrite (tiling_built _ _ _ _ _ Hb Hl Ht eq_refl) in *.
    apply validate_assignments in Hv; [|done]. apply validate_memory_assignments in Hm; [|done]. done.
  - intros ((_ & Ht & Hm) & Hf). exists (assignments_of m devices rs). split.
    + unfold build_assignments. rewrite build_from_eq; [done|lia|]. intros r Hr.
      destruct (tiles_from_elem _ _ _ _ (proj2 Ht) Hr). lia.
    + apply bind_unit_ok. split; [by apply validate_assignments|]. apply bind_unit_ok. by split; [apply validate_memory_assignments|].
Qed.

Lemma manual_ok m devices rs l :
  assemble_manual_partition rs m devices = Ok l ↔
  plan_ok m devices rs ∧ uncut m rs ∧ l = assignments_of m devices rs.
Proof.
  unfold assemble_manual_partition. rewrite ensure_bind, outcome_bind_ok.
  split.
  - intros (Hl & [] & Ha & Hf). apply assembled_ok in Hf as [Hp [= <-]]; [|done]. apply validate_adjacency_ok in Ha. done.
  - intros (Hp & Ha & ->). pose proof Hp as [Hl _]. split; [done|]. exists tt.
    split; [by apply validate_adjacency_ok|]. cbn zeta. rewrite assembled_ok by done. done.
Qed.
