(* ===== verification/PipeOptimal.v ===== *)
(** * The sweep, the search and the optimality of the automatic plan

    First what one greedy sweep and the bisection decide, then the plan they lead to. *)

From S2P Require Import Prelude PipePartition PipeBalance PipeAssembly PipePlans.

(** * The greedy sweep and the search

    What one sweep of [feasible] and [build_splits] decides, over exact prefix sums:
    the splits it returns tile the layers within the bound and the budgets, and when
    every layer fits every stage it finds a split whenever there is one. The
    bisection returns the smallest bound that passes a monotone test. *)

(** ** Prefix sums *)

Section sweep.
Context (layers : list N).
Abbreviation p := (prefix_sums layers).
Abbreviation n := (length layers).

(** Bytes of the first [i] layers, and of the layers from [a] to [b]. *)
Definition cum (i : nat) : N := sumN (take i layers).

Lemma cum_mono i j : i ≤ j → (cum i ≤ cum j)%N.
Proof.
  intros Hij. unfold cum. replace (take j layers) with (take i layers ++ take (j - i) (drop i layers)).
  - rewrite sumN_app. lia.
  - rewrite take_take_drop. f_equal. lia.
Qed.

Lemma cum_all i : n ≤ i → cum i = sumN layers.
Proof. intros. unfold cum. by rewrite take_ge. Qed.

Lemma prefix_from_lookup acc l i :
  i ≤ length l → (acc ≤ u64_max)%N → prefix_from acc l !! i = Some (N.min u64_max (acc + sumN (take i l))).
Proof.
  revert acc i. induction l as [|x l IH]; intros acc [|i] Hi Ha; simpl in *; try (f_equal; lia).
  rewrite IH by (unfold saturating_add_u64; lia). f_equal. unfold saturating_add_u64. lia.
Qed.

Lemma length_prefix_from acc l : length (prefix_from acc l) = S (length l).
Proof. revert acc. induction l; intros; simpl; auto. Qed.

Lemma load_cum r : r_start r ≤ r_end r → load layers r = (cum (r_end r) - cum (r_start r))%N.
Proof.
  intros Hr. unfold load, cum.
  replace (take (r_end r) layers) with (take (r_start r) layers ++ take (r_end r - r_start r) (drop (r_start r) layers)).
  - rewrite sumN_app. lia.
  - rewrite take_take_drop. f_equal. lia.
Qed.

Lemma snap_back_spec forb cursor e : cursor < e → cursor < snap_back forb cursor e ≤ e.
Proof.
  induction e as [|e IH]; intros He; [lia|]. cbn [snap_back].
  destruct (Nat.ltb_spec (cursor + 1) (S e)); simpl; [|lia].
  destruct (is_forbidden (S e) forb); [|lia]. specialize (IH ltac:(lia)). lia.
Qed.

Lemma snap_back_nil cursor e : snap_back [] cursor e = e.
Proof.
  destruct e as [|e]; [done|]. cbn [snap_back]. unfold is_forbidden.
  rewrite bool_decide_eq_false_2 by apply not_elem_of_nil. by rewrite andb_false_r.
Qed.

(** Stage loads within a bound and within the budgets. *)
Definition within (t : N) (rs : list Range) (budgets : list N) : Prop :=
  Forall2 (λ r b, load layers r ≤ N.min t b)%N rs budgets.

Lemma feasible_build t budgets forb c :
  feasible t p budgets forb n c = bool_decide (is_Some (build_splits t p budgets forb n c)).
Proof.
  revert c. induction budgets as [|b rest IH]; intros c; simpl; [by destruct (c =? n)|].
  case_match; [done|]. destruct rest as [|b' rest]; [by case_match|].
  destruct (greedy_end _ _ _ _ _ _) as [e|]; [|done]. rewrite IH.
  by destruct (build_splits _ _ (b' :: rest) _ _ e).
Qed.

Context (Hsum : (sumN layers ≤ u64_max)%N).

Lemma prefix_lookup i : i ≤ n → p !! i = Some (cum i).
Proof.
  intros Hi. unfold prefix_sums. rewrite prefix_from_lookup by done. f_equal.
  change (sumN (take i layers)) with (cum i). pose proof (cum_mono i n Hi) as Hc. rewrite (cum_all n) in Hc by done. lia.
Qed.

Lemma prefix_last : last p = Some (sumN layers).
Proof.
  assert (length p = S n) as Hl by apply length_prefix_from.
  by rewrite last_lookup, Hl, prefix_lookup, cum_all by (simpl; lia).
Qed.

Lemma seg_cum a b : a ≤ n → b ≤ n → seg p a b = (cum b - cum a)%N.
Proof. intros. unfold seg. by rewrite !list_lookup_total_alt, !prefix_lookup by done. Qed.

(** ** One stage *)

Lemma grow_spec cursor cap left e :
  cursor ≤ e → e + left ≤ n →
  let e' := grow p cursor cap left e in
  e ≤ e' ≤ e + left ∧ (e' = e ∨ (cum e' - cum cursor ≤ cap)%N) ∧
  ∀ y, y ≤ e + left → (cum y - cum cursor ≤ cap)%N → y ≤ e'.
Proof.
  revert e. induction left as [|left IH]; intros e He Hn; simpl; [split_and!; auto; lia|].
  rewrite seg_cum by lia. destruct (N.leb_spec (cum (S e) - cum cursor) cap) as [Hc|Hc].
  - destruct (IH (S e)) as (? & Hd & Hm); [lia..|]. split_and!; [lia..| |].
    + right. destruct Hd as [->|]; done.
    + intros y ??. apply Hm; [lia|done].
  - split_and!; [lia..|by left|]. intros y Hy Hcy. destruct (decide (y ≤ e)); [done|].
    pose proof (cum_mono (S e) y ltac:(lia)). lia.
Qed.

(** Every index the sweep reads is in range, and the stage it closes fits. *)
Lemma greedy_end_bounds t b forb cursor max_end e :
  cursor < max_end ≤ n → greedy_end t b p forb cursor max_end = Some e →
  cursor < e ≤ max_end ∧ (cum e - cum cursor ≤ N.min t b)%N.
Proof.
  intros Hc. unfold greedy_end.
  destruct (grow_spec cursor (N.min t b) (max_end - (cursor + 1)) (cursor + 1)) as (Hb & Hd & _); [lia..|].
  set (g := grow _ _ _ _ _) in *. rewrite seg_cum by lia.
  destruct (N.ltb_spec (N.min t b) (cum g - cum cursor)) as [Hlt|Hle]; simpl.
  { destruct (Nat.eqb_spec (cursor + 1) g) as [He|He]; [done|]. destruct Hd; lia. }
  pose proof (snap_back_spec forb cursor g ltac:(lia)). case_match; [done|]. intros [= <-].
  pose proof (cum_mono (snap_back forb cursor g) g ltac:(lia)). split; lia.
Qed.

(** Without forbidden boundaries the stage extends as far as the cap allows. *)
Lemma greedy_end_max t b cursor max_end :
  cursor < max_end ≤ n → (cum (cursor + 1) - cum cursor ≤ N.min t b)%N →
  ∃ e, greedy_end t b p [] cursor max_end = Some e ∧ cursor < e ≤ max_end ∧
    ∀ y, y ≤ max_end → (cum y - cum cursor ≤ N.min t b)%N → y ≤ e.
Proof.
  intros Hc H1. unfold greedy_end.
  destruct (grow_spec cursor (N.min t b) (max_end - (cursor + 1)) (cursor + 1)) as (Hb & Hd & Hm); [lia..|].
  set (g := grow _ _ _ _ _) in *. rewrite seg_cum, snap_back_nil by lia.
  assert (cum g - cum cursor ≤ N.min t b)%N as Hg by (destruct Hd as [->|]; done).
  rewrite (proj2 (N.ltb_ge _ _)) by done. simpl. rewrite (proj2 (Nat.leb_gt _ _)) by lia.
  exists g. split_and!; [done|lia..|]. intros y ??. apply Hm; [lia|done].
Qed.

(** ** Sweeps *)

Lemma build_splits_sound t budgets forb c bs :
  budgets ≠ [] → build_splits t p budgets forb n c = Some bs →
  tiles_from c (ranges_from c bs n) n ∧ within t (ranges_from c bs n) budgets.
Proof.
  revert c bs. induction budgets as [|b rest IH]; intros c bs Hne; [done|]. cbn [build_splits].
  destruct (Nat.leb_spec (n - length rest) c) as [|Hc]; [done|].
  destruct rest as [|b' rest].
  - rewrite seg_cum by (simpl in *; lia).
    destruct (N.ltb_spec t (cum n - cum c)), (N.ltb_spec b (cum n - cum c)); try done. intros [= <-]. simpl in *.
    split; [lia|]. constructor; [|constructor]. rewrite load_cum by (simpl; lia). simpl. lia.
  - destruct (greedy_end _ _ _ _ _ _) as [e|] eqn:He; [|done]. intros (bs' & Hb & [= <-])%bind_Some.
    apply greedy_end_bounds in He as [He Hl]; [|simpl in *; lia].
    apply IH in Hb as [Ht Hw]; [|done]. cbn [ranges_from tiles_from r_start r_end]. split; [split_and!; [done|lia|done]|].
    constructor; [|done]. rewrite load_cum by (simpl; lia). done.
Qed.

(** A split reaches the last layer from any earlier start, when every layer fits every stage. *)
Lemma build_splits_complete t budgets c c' rs :
  (∀ x b, x ∈ layers → b ∈ budgets → (x ≤ N.min t b)%N) →
  c ≤ c' → c' + length budgets ≤ n → budgets ≠ [] →
  tiles_from c rs n → within t rs budgets →
  is_Some (build_splits t p budgets [] n c').
Proof.
  revert c c' rs. induction budgets as [|b rest IH]; intros c c' rs Hx Hcc Hn Hne Ht Hw; [done|].
  cbn [build_splits]. simpl in Hn. rewrite (proj2 (Nat.leb_gt _ _)) by lia.
  apply Forall2_cons_inv_r in Hw as (r & rs' & Hr & Hw & ->). destruct Ht as (Hs & Hlt & Ht).
  rewrite load_cum in Hr by lia. rewrite Hs in Hr. pose proof (cum_mono c c' Hcc).
  destruct rest as [|b' rest].
  - apply Forall2_nil_inv_r in Hw as ->. simpl in Ht. rewrite Ht in *. rewrite seg_cum by lia.
    rewrite !(proj2 (N.ltb_ge _ _)) by lia. simpl. eauto.
  - assert (cum (c' + 1) - cum c' ≤ N.min t b)%N as H1.
    { destruct (lookup_lt_is_Some_2 layers c') as [x Hlx]; [simpl in *; lia|].
      assert (cum (c' + 1) = cum c' + x)%N as ->.
      { unfold cum. rewrite Nat.add_1_r, (take_S_r _ _ x) by done. rewrite sumN_app. simpl. lia. }
      specialize (Hx x b (list_elem_of_lookup_2 _ _ _ Hlx) ltac:(set_solver)). lia. }
    destruct (greedy_end_max t b c' (n - length (b' :: rest))) as (e & -> & He & Hm); [simpl in *; lia|done|].
    apply Forall2_length in Hw as Hlen. pose proof (tiles_from_le _ _ _ Ht).
    assert (r_end r ≤ e). { apply Hm; [simpl in *; lia|]. lia. }
    destruct (IH (r_end r) e rs') as [bs ->]; [set_solver|done|simpl in *; lia|done..|]. simpl. eauto.
Qed.

End sweep.

(** ** Bisection *)

Lemma size_nat_half w : (0 < w)%N → N.size_nat w = S (N.size_nat (w / 2)).
Proof. rewrite <-N.div2_div. destruct w as [|[q|q|]]; done. Qed.

Lemma size_nat_mono v w : (v ≤ w)%N → N.size_nat v ≤ N.size_nat w.
Proof.
  revert w. induction v as [v IH] using (well_founded_induction N.lt_wf_0). intros w Hvw.
  destruct (decide (v = 0)%N) as [->|]; [simpl; lia|].
  rewrite (size_nat_half v), (size_nat_half w) by lia. apply le_n_S, IH.
  - apply N.div_lt; lia.
  - by apply N.Div0.div_le_mono.
Qed.

(** The fuel is enough, and the result is the first bound of the interval that passes a
    monotone test, or its upper end. *)
Lemma bisect_spec test fuel lo hi :
  (lo ≤ hi)%N → N.size_nat (hi - lo) ≤ fuel →
  (∀ x y, lo ≤ x → x ≤ y → test x = true → test y = true)%N →
  let r := bisect test fuel lo hi in
  (lo ≤ r ≤ hi)%N ∧ (r = hi ∨ test r = true) ∧ ∀ x, (lo ≤ x < r)%N → test x = false.
Proof.
  revert lo hi. induction fuel as [|fuel IH]; intros lo hi Hle Hf Hmono; simpl.
  { destruct (decide (hi - lo = 0)%N) as [|Hne]; [|rewrite size_nat_half in Hf; lia].
    split_and!; [lia..|left; lia|]. intros; lia. }
  destruct (N.ltb_spec lo hi) as [Hlt|Hge]; [|split_and!; [lia..|left; lia|intros; lia]].
  rewrite size_nat_half in Hf by lia. pose proof (N.div_lt (hi - lo) 2 ltac:(lia) ltac:(lia)).
  set (h := ((hi - lo) / 2)%N) in *. assert (hi - lo ≤ 2 * h + 1)%N.
  { pose proof (N.div_mod (hi - lo) 2 ltac:(lia)). pose proof (N.mod_lt (hi - lo) 2 ltac:(lia)). unfold h. lia. }
  destruct (test (lo + h)%N) eqn:Ht.
  - destruct (IH lo (lo + h)%N) as (? & Hr & Hb); [lia|replace (lo + h - lo)%N with h by lia; lia|done|].
    split_and!; [lia..| |done]. destruct Hr as [->|]; auto.
  - destruct (IH (lo + h + 1)%N hi) as (? & Hr & Hb); [lia| |intros x y ?; apply Hmono; lia|].
    { etrans; [|apply le_S_n, Hf]. apply size_nat_mono. lia. }
    split_and!; [lia..|done|]. intros x Hx. destruct (decide (lo + h < x)%N); [apply Hb; lia|].
    destruct (test x) eqn:Hx'; [|done]. rewrite (Hmono x (lo + h)%N) in Ht; [done|lia..|done].
Qed.

(** * Optimality of the automatic plan

    Without adjacency groups, and when every layer fits the layer budget of every
    stage, [balance_layers] finds a plan exactly when there is one, and its heaviest
    stage is the lightest possible. *)

(** ** Maxima and means *)

Lemma foldl_max_le l a M : (foldl N.max a l ≤ M)%N ↔ (a ≤ M)%N ∧ Forall (λ x, x ≤ M)%N l.
Proof.
  revert a. induction l as [|x l IH]; intros a; simpl; [rewrite Forall_nil; tauto|].
  rewrite IH, Forall_cons, N.max_lub_iff. tauto.
Qed.

Lemma max_of_le l M : (max_of l ≤ M)%N ↔ Forall (λ x, x ≤ M)%N l.
Proof. unfold max_of. rewrite foldl_max_le. split; [tauto|]. split; [lia|done]. Qed.

Lemma max_of_ge l x : x ∈ l → (x ≤ max_of l)%N.
Proof. intros Hx. pose proof (proj1 (max_of_le l (max_of l)) ltac:(done)) as H. rewrite Forall_forall in H. auto. Qed.

Lemma div_ceil_u64_le a k M : (0 < k)%N → (a ≤ k * M)%N → (div_ceil_u64 a k ≤ M)%N.
Proof.
  intros Hk Ha. unfold div_ceil_u64. pose proof (N.div_mod a k ltac:(lia)). pose proof (N.mod_lt a k ltac:(lia)).
  generalize dependent (a / k)%N. generalize dependent (a mod k)%N. intros r Hr q Ha'.
  destruct (N.lt_ge_cases q M) as [|Hge]; [case_decide; lia|].
  pose proof (N.mul_le_mono_l M q k Hge).
  case_decide; [|lia]. apply (N.mul_le_mono_pos_l _ _ k); lia.
Qed.

(** ** Plans of a list of layers *)

Section plans.
Context (layers : list N).
Abbreviation n := (length layers).
Abbreviation maxload rs := (max_of (load layers <$> rs)).

Lemma tiles_sum s rs :
  tiles_from s rs n → (sumN (load layers <$> rs) + cum layers s = sumN layers)%N.
Proof.
  revert s. induction rs as [|r rs IH]; intros s; csimpl; [intros ->; by rewrite cum_all|].
  intros (<- & Hlt & Ht). specialize (IH _ Ht). rewrite load_cum by lia.
  pose proof (cum_mono layers (r_start r) (r_end r) ltac:(lia)). lia.
Qed.

Lemma tiles_covers s rs i : tiles_from s rs n → s ≤ i < n → ∃ r, r ∈ rs ∧ r_start r ≤ i < r_end r.
Proof.
  revert s. induction rs as [|r rs IH]; intros s; simpl; [lia|]. intros (<- & Hlt & Ht) Hi.
  destruct (decide (i < r_end r)).
  - exists r. split; [set_solver|lia].
  - destruct (IH _ Ht) as (r' & ? & ?); [lia|]. exists r'. set_solver.
Qed.

Lemma layer_le_load r i x : layers !! i = Some x → r_start r ≤ i < r_end r → (x ≤ load layers r)%N.
Proof.
  intros Hx Hi. rewrite load_cum by lia.
  assert (cum layers (S i) = cum layers i + x)%N.
  { unfold cum. rewrite (take_S_r _ _ x) by done. rewrite sumN_app. simpl. lia. }
  pose proof (cum_mono layers (r_start r) i ltac:(lia)). pose proof (cum_mono layers (S i) (r_end r) ltac:(lia)). lia.
Qed.

Lemma sumN_bound l M : Forall (λ x, x ≤ M)%N l → (sumN l ≤ N.of_nat (length l) * M)%N.
Proof. induction 1; simpl; nia. Qed.

(** No plan beats the mean or the heaviest layer. *)
Lemma lower_bound_sound rs :
  (sumN layers ≤ u64_max)%N → rs ≠ [] → tiles_from 0 rs n →
  (load_lower_bound layers (prefix_sums layers) (length rs) [] ≤ maxload rs)%N.
Proof.
  intros Hsum Hne Ht. unfold load_lower_bound. rewrite prefix_last by done. cbn [default].
  apply N.max_lub; [apply N.max_lub|simpl; unfold max_of; simpl; lia].
  - apply max_of_le, Forall_forall. intros x Hx. apply list_elem_of_lookup_1 in Hx as [i Hi].
    destruct (tiles_covers 0 rs i Ht) as (r & Hr & ?); [apply lookup_lt_Some in Hi; lia|].
    etrans; [by eapply layer_le_load|]. apply max_of_ge, list_elem_of_fmap_2, Hr.
  - apply div_ceil_u64_le; [destruct rs; simpl; [done|lia]|].
    rewrite <-(tiles_sum _ _ Ht). change (cum layers 0) with 0%N. rewrite N.add_0_r.
    rewrite <-(length_fmap (load layers) rs). apply sumN_bound, max_of_le. lia.
Qed.

Lemma maxload_total rs : tiles_from 0 rs n → (maxload rs ≤ sumN layers)%N.
Proof.
  intros Ht. apply max_of_le, Forall_forall. intros x (r & -> & Hr)%list_elem_of_fmap.
  destruct (tiles_from_elem _ _ _ _ Ht Hr). rewrite load_cum by lia.
  pose proof (cum_mono layers (r_end r) n ltac:(lia)) as H'. rewrite (cum_all _ n) in H' by done. lia.
Qed.

Definition fits_budgets (rs : list Range) (budgets : list N) : Prop :=
  Forall2 (λ r b, load layers r ≤ b)%N rs budgets.

Lemma within_iff t rs budgets : within layers t rs budgets ↔ fits_budgets rs budgets ∧ Forall (λ r, load layers r ≤ t)%N rs.
Proof.
  unfold within, fits_budgets. split.
  - induction 1 as [|r b rs bs ?? [??]]; split; constructor; try done; lia.
  - intros [H1 H2]. induction H1; [constructor|]. apply Forall_cons in H2 as [??]. constructor; [lia|auto].
Qed.

Lemma within_max rs budgets : fits_budgets rs budgets → within layers (maxload rs) rs budgets.
Proof.
  intros H. apply within_iff. split; [done|]. apply Forall_forall. intros r Hr.
  apply max_of_ge, list_elem_of_fmap_2, Hr.
Qed.

(** ** Range lists of the balancer *)

Lemma stage_loads_ok rs : (sumN layers ≤ u64_max)%N →
  (∀ r, r ∈ rs → r_start r ≤ n ∧ r_end r ≤ n) → ∃ l, stage_loads (prefix_sums layers) rs = Ok l.
Proof.
  intros Hsum. induction rs as [|r rs IH]; intros Hr; simpl; [eauto|].
  destruct (Hr r) as [??]; [set_solver|]. rewrite !prefix_lookup by done.
  destruct IH as [l ->]; [set_solver|]. simpl. eauto.
Qed.

Lemma check_imbalance_ok rs groups forb : (sumN layers ≤ u64_max)%N → tiles_from 0 rs n →
  ∃ ws, check_imbalance rs (prefix_sums layers) groups forb = Ok ws.
Proof.
  intros Hsum Ht. unfold check_imbalance. case_match; [eauto|].
  destruct (stage_loads_ok rs Hsum) as [l ->].
  { intros r Hr. destruct (tiles_from_elem _ _ _ _ Ht Hr). lia. }
  cbn [mbind outcome_bind]. repeat case_match; eauto.
Qed.

Lemma slide_nil cursor tries b : slide [] cursor tries b = b.
Proof.
  destruct tries; [done|]. cbn [slide]. unfold is_forbidden.
  by rewrite bool_decide_eq_false_2 by apply not_elem_of_nil.
Qed.

(** The uniform fallback tiles the layers. *)
Lemma uniform_tiles N per rem stage left :
  0 < per → (stage + S left) * per + rem = N → rem < stage + S left →
  let c := stage * per + stage `min` rem in
  tiles_from c (ranges_from c (uniform_from N per rem [] stage left c) N) N.
Proof.
  revert stage. induction left as [|left IH]; intros stage Hper HN Hrem c; simpl.
  { split_and!; [done|unfold c; nia|done]. }
  rewrite slide_nil.
  assert ((if c + (per + if stage <? rem then 1 else 0) <=? c then c + 1 else c + (per + if stage <? rem then 1 else 0))
    = S stage * per + S stage `min` rem) as ->.
  { destruct (Nat.ltb_spec stage rem); rewrite (proj2 (Nat.leb_gt _ _)) by lia; unfold c; lia. }
  split_and!; [done|unfold c; lia|apply IH; lia].
Qed.

(** ** The balancer *)

Context (budgets : list N) (Hsum : (sumN layers ≤ u64_max)%N).
Context (Hk : 2 ≤ length budgets ≤ n).
Context (Hfit : ∀ x b, x ∈ layers → b ∈ budgets → (x ≤ b)%N).
Abbreviation lo0 := (load_lower_bound layers (prefix_sums layers) (length budgets) []).
Abbreviation test := (λ t, feasible t (prefix_sums layers) budgets [] n 0).

Lemma layer_le_lower x : x ∈ layers → (x ≤ lo0)%N.
Proof. intros ?%max_of_ge. unfold load_lower_bound. lia. Qed.

(** A bound passes the sweep exactly when some plan stays within it. *)
Lemma test_iff t : (lo0 ≤ t)%N →
  test t = true ↔ ∃ rs, tiles_from 0 rs n ∧ within layers t rs budgets.
Proof.
  intros Ht. cbv beta. rewrite feasible_build, bool_decide_eq_true. split.
  - intros [bs Hb]. apply build_splits_sound in Hb as [??]; [eauto|done|]. intros ->. simpl in Hk. lia.
  - intros (rs & Hrs & Hw). eapply build_splits_complete; [done| | | | |done..]; [|done|lia|intros ->; simpl in Hk; lia].
    intros x b Hx Hb. pose proof (layer_le_lower x Hx). pose proof (Hfit x b Hx Hb). lia.
Qed.

Lemma test_mono x y : (lo0 ≤ x)%N → (x ≤ y)%N → test x = true → test y = true.
Proof.
  intros Hx Hy. intros (rs & ? & Hw)%test_iff; [|done]. apply test_iff; [lia|]. exists rs. split; [done|].
  eapply Forall2_impl; [done|]. intros; simpl in *; lia.
Qed.

Definition searched : N := bisect test (N.size_nat (N.max (sumN layers) lo0 - lo0)) lo0 (N.max (sumN layers) lo0).

Lemma searched_optimal rs :
  tiles_from 0 rs n → fits_budgets rs budgets → test searched = true ∧ (searched ≤ maxload rs)%N.
Proof.
  intros Ht Hb. apply Forall2_length in Hb as Hl.
  pose proof (lower_bound_sound rs Hsum ltac:(intros ->; simpl in *; lia) Ht) as Hlo. rewrite Hl in Hlo.
  assert (test (maxload rs) = true) as HM by (apply test_iff; [done|eauto using within_max]).
  destruct (bisect_spec test (N.size_nat (N.max (sumN layers) lo0 - lo0)) lo0 (N.max (sumN layers) lo0))
    as (Hr & Hd & Hn); [lia|done|apply test_mono|]. fold searched in Hr, Hd, Hn.
  pose proof (maxload_total rs Ht). split.
  - destruct Hd as [Hd|]; [|done]. apply (test_mono (maxload rs)); [done|lia|done].
  - destruct (N.le_gt_cases searched (maxload rs)) as [|Hgt]; [done|].
    specialize (Hn (maxload rs) ltac:(lia)). cbv beta in HM, Hn. congruence.
Qed.

Lemma lower_bound_budget rs : tiles_from 0 rs n → fits_budgets rs budgets → (lo0 ≤ max_of budgets)%N.
Proof.
  intros Ht Hb. apply Forall2_length in Hb as Hl.
  pose proof (lower_bound_sound rs Hsum ltac:(intros ->; simpl in *; lia) Ht) as Hlo. rewrite Hl in Hlo.
  etrans; [done|]. apply max_of_le, Forall_fmap, Forall_forall. intros r Hr.
  apply list_elem_of_lookup_1 in Hr as [i Hi]. destruct (Forall2_lookup_l _ _ _ _ _ Hb Hi) as (b & Hbi & Hle).
  simpl. etrans; [done|]. by eapply max_of_ge, list_elem_of_lookup_2.
Qed.

Lemma balance_found ids rs :
  tiles_from 0 rs n → fits_budgets rs budgets →
  ∃ rs' ws, balance_layers layers budgets [] [] ids = Ok (rs', ws) ∧
    tiles_from 0 rs' n ∧ fits_budgets rs' budgets ∧
    ∀ rs'', tiles_from 0 rs'' n → fits_budgets rs'' budgets → (maxload rs' ≤ maxload rs'')%N.
Proof.
  intros Ht Hb. destruct (searched_optimal rs Ht Hb) as [HT _]. pose proof (lower_bound_budget rs Ht Hb) as Hlb.
  unfold balance_layers.
  rewrite (proj2 (Nat.eqb_neq _ 0)), (proj2 (Nat.ltb_ge _ _)), (proj2 (Nat.eqb_neq _ 1)) by lia.
  rewrite prefix_last by done. change (default 0%N (Some (sumN layers))) with (sumN layers). cbv zeta.
  rewrite (proj2 (N.ltb_ge _ _)) by done.
  fold searched. rewrite HT. pose proof HT as HT'. cbv beta in HT'. rewrite feasible_build, bool_decide_eq_true in HT'.
  destruct HT' as [bs Hbs]. rewrite Hbs. apply build_splits_sound in Hbs as [Ht' Hw]; [|done|intros ->; simpl in Hk; lia].
  unfold splits_to_ranges. destruct (check_imbalance_ok _ [] [] Hsum Ht') as [ws ->]. simpl.
  apply within_iff in Hw as [Hf Hload]. eexists _, _. split_and!; [done..|].
  intros rs'' Ht'' Hf''. destruct (searched_optimal rs'' Ht'' Hf'') as [_ Hs].
  etrans; [|done]. by apply max_of_le, Forall_fmap.
Qed.

(** With no plan to find, the balancer refuses or returns a tiling, which cannot fit. *)
Lemma balance_tiles ids :
  match balance_layers layers budgets [] [] ids with
  | Ok (rs, _) => tiles_from 0 rs n ∧ length rs = length budgets
  | Err _ => True
  | Panic => False
  end.
Proof.
  clear Hfit.
  unfold balance_layers.
  rewrite (proj2 (Nat.eqb_neq _ 0)), (proj2 (Nat.ltb_ge _ _)), (proj2 (Nat.eqb_neq _ 1)) by lia.
  cbv zeta. destruct (max_of budgets <? _)%N; [done|].
  assert (∀ bs, tiles_from 0 (ranges_from 0 bs n) n → length (ranges_from 0 bs n) = length budgets →
    match (ws ← check_imbalance (splits_to_ranges bs n) (prefix_sums layers) [] []; Ok (splits_to_ranges bs n, ws)) with
    | Ok (rs, _) => tiles_from 0 rs n ∧ length rs = length budgets | Err _ => True | Panic => False end) as Hgo.
  { intros bs Ht Hl. unfold splits_to_ranges. destruct (check_imbalance_ok _ [] [] Hsum Ht) as [ws ->]. done. }
  destruct (build_splits _ _ _ _ _ _) as [bs|] eqn:Hbs; apply Hgo.
  - apply build_splits_sound in Hbs as [??]; [done..|intros ->; simpl in Hk; lia].
  - apply build_splits_sound in Hbs as [_ Hw]; [|done|intros ->; simpl in Hk; lia]. by apply Forall2_length in Hw.
  - pose proof (Nat.div_mod_eq n (length budgets)). pose proof (Nat.mod_upper_bound n (length budgets) ltac:(lia)).
    pose proof (Nat.div_str_pos n (length budgets) ltac:(lia)).
    apply (uniform_tiles n (n `div` length budgets) (n `mod` length budgets) 0 (length budgets - 1)); [lia..|nia|lia].
  - unfold uniform_split.
    assert (∀ left st c, length (ranges_from c (uniform_from n (n `div` length budgets) (n `mod` length budgets) [] st left c) n) = S left) as Hlen; [|rewrite Hlen; lia].
    induction left as [|left IH]; intros; simpl; [done|]. f_equal. apply IH.
Qed.

End plans.
