(* ===== verification/PipePlanner.v ===== *)
(** * The partitioner

    The automatic and the manual partitioner as wholes: what [auto_partition]
    guarantees of any plan it returns, that it is complete and optimal without
    adjacency groups when every layer fits every device, where it is not, and what
    the manual path accepts. *)

From S2P Require Import Prelude PipePartition PipeBalance PipeAssembly PipePlans PipeOptimal.

(** A plan whose stages fit their devices in exact arithmetic. *)
Definition legal (m : ModelProfile) (devices : list DeviceSpec) (rs : list Range) : Prop :=
  length rs = length devices ∧ tiles rs (num_layers m) ∧
  ∀ i r d, rs !! i = Some r → devices !! i = Some d →
    (load (effective_layer_bytes m) r + reserved m (length devices) i ≤ available_memory_bytes d)%N.

Definition heaviest (m : ModelProfile) (rs : list Range) : N := max_of (load (effective_layer_bytes m) <$> rs).

Lemma legal_plan_ok m devices rs : legal m devices rs → plan_ok m devices rs.
Proof.
  intros (Hl & Ht & Hf). split_and!; [done..|]. intros i r d Hr Hd. unfold stage_bytes. rewrite Hl.
  specialize (Hf i r d Hr Hd). lia.
Qed.

(** ** Layer budgets *)

Definition budget_of (m : ModelProfile) (k i : nat) (d : DeviceSpec) : N :=
  (available_memory_bytes d - reserved m k i)%N.

Definition reservations_fit (m : ModelProfile) (devices : list DeviceSpec) : Prop :=
  ∀ i d, devices !! i = Some d → (reserved m (length devices) i ≤ available_memory_bytes d)%N.

(** The budgets after the embedding is reserved. *)
Lemma reserved_first m (devices : list DeviceSpec) i d :
  devices !! i = Some d →
  alter (λ a, a - embedding_param_bytes m)%N 0 (available_memory_bytes <$> devices) !! i =
    Some (available_memory_bytes d - if (i =? 0)%nat then embedding_param_bytes m else 0)%N.
Proof.
  intros Hi. destruct (Nat.eqb_spec i 0) as [->|].
  - by rewrite list_lookup_alter_eq, list_lookup_fmap, Hi.
  - rewrite list_lookup_alter_ne, list_lookup_fmap, Hi by done. simpl. f_equal. lia.
Qed.

Lemma reserved_both m (devices : list DeviceSpec) :
  alter (λ a, a - lm_head_param_bytes m)%N (length devices - 1)
    (alter (λ a, a - embedding_param_bytes m)%N 0 (available_memory_bytes <$> devices)) =
  imap (budget_of m (length devices)) devices.
Proof.
  apply list_eq. intros i. rewrite list_lookup_imap. destruct (devices !! i) as [d|] eqn:Hi; simpl.
  - pose proof (lookup_lt_Some _ _ _ Hi). pose proof (reserved_first m devices i d Hi) as Hf.
    unfold budget_of, reserved. destruct (Nat.eqb_spec (i + 1) (length devices)).
    + replace (length devices - 1) with i by lia. rewrite list_lookup_alter_eq, Hf. simpl. f_equal. lia.
    + rewrite list_lookup_alter_ne, Hf by lia. f_equal. lia.
  - apply lookup_ge_None. rewrite !length_alter, length_fmap. by apply lookup_ge_None.
Qed.

Lemma reserve_ok (mem : list N) i x f s mem' :
  reserve mem i x f s = Ok mem' ↔ (∃ a, mem !! i = Some a ∧ (x ≤ a)%N) ∧ mem' = alter (λ a, a - x)%N i mem.
Proof.
  unfold reserve. destruct (mem !! i) as [a|] eqn:Hi; [|naive_solver].
  assert (alter (λ a, a - x)%N i mem = <[i := (a - x)%N]> mem) as ->.
  { rewrite list_insert_alter. apply list_eq. intros j. destruct (decide (i = j)) as [->|].
    - by rewrite !list_lookup_alter_eq, Hi.
    - by rewrite !list_lookup_alter_ne. }
  destruct (N.ltb_spec a x); [naive_solver lia|naive_solver].
Qed.

Lemma effective_memory_ok m devices mem :
  devices ≠ [] →
  effective_memory m devices = Ok mem ↔
  reservations_fit m devices ∧ mem = imap (budget_of m (length devices)) devices.
Proof.
  intros Hne. assert (0 < length devices) by (destruct devices; [done|simpl; lia]).
  destruct (lookup_lt_is_Some_2 devices 0) as [d0 H0]; [lia|].
  destruct (lookup_lt_is_Some_2 devices (length devices - 1)) as [z Hz]; [lia|].
  unfold effective_memory. rewrite outcome_bind_ok. setoid_rewrite reserve_ok.
  rewrite list_lookup_fmap, H0. pose proof (reserved_first m devices _ _ Hz) as Hz1. split.
  - intros (mem1 & ((a & [= <-] & He) & ->) & (b & Hb & Hh) & ->). rewrite Hz1 in Hb. injection Hb as <-.
    split; [|apply reserved_both]. intros i d Hi. pose proof (lookup_lt_Some _ _ _ Hi). unfold reserved.
    destruct (Nat.eqb_spec (i + 1) (length devices)).
    + replace (length devices - 1) with i in * by lia. simplify_eq. destruct (Nat.eqb_spec i 0); subst; simplify_eq; lia.
    + destruct (Nat.eqb_spec i 0); subst; simplify_eq; lia.
  - intros [Hfit ->]. eexists. split; [split; [|done]|split; [|symmetry; apply reserved_both]].
    + eexists. split; [done|]. specialize (Hfit _ _ H0). unfold reserved in Hfit. simpl in Hfit. lia.
    + eexists. split; [done|]. specialize (Hfit _ _ Hz). unfold reserved in Hfit.
      rewrite (proj2 (Nat.eqb_eq (_ + 1) _)) in Hfit by lia. lia.
Qed.

(** ** The automatic plan *)

Lemma check_capacity_ok layers i rs mem s :
  (sumN layers ≤ u64_max)%N → length rs = length mem → tiles_from s rs (length layers) →
  check_capacity layers i rs mem ≠ Panic ∧
  (check_capacity layers i rs mem = Ok tt ↔ fits_budgets layers rs mem).
Proof.
  intros Hsum. revert i s mem. induction rs as [|r rs IH]; intros i s [|b mem] Hl Ht; simplify_eq/=.
  { split; [done|]. split; [constructor|done]. }
  destruct Ht as (<- & Hlt & Ht). unfold range_is_empty. rewrite (proj2 (Nat.ltb_lt _ _)) by done. cbn [negb].
  pose proof (tiles_from_le _ _ _ Ht). unfold slice. rewrite decide_True by lia.
  rewrite sat_sum_eq. change (sumN (take _ _)) with (load layers r).
  assert (load layers r ≤ u64_max)%N.
  { rewrite load_cum by lia. pose proof (cum_mono layers (r_end r) (length layers) ltac:(lia)) as Hc.
    rewrite (cum_all _ (length layers)) in Hc by done. lia. }
  rewrite N.min_r by done. destruct (IH (S i) _ mem Hl Ht) as [Hp IHi]. split.
  - unfold ensure. case_decide; simpl; done.
  - rewrite ensure_bind, IHi. split; [intros []; by constructor|by intros []%Forall2_cons].
Qed.

Lemma auto_ok m devices l :
  auto_partition m devices = Ok l ↔
  ∃ rs ws, 0 < length devices ≤ num_layers m ∧ reservations_fit m devices ∧
    let mem := imap (budget_of m (length devices)) devices in
    (sat_sum (effective_layer_bytes m) ≤ sat_sum mem)%N ∧
    balance_layers (effective_layer_bytes m) mem (forbidden_boundaries m) (adjacency m) (device_id <$> devices) = Ok (rs, ws) ∧
    length rs = length devices ∧ check_capacity (effective_layer_bytes m) 0 rs mem = Ok tt ∧
    plan_ok m devices rs ∧ l = assignments_of m devices rs.
Proof.
  assert (auto_partition m devices = Ok l ↔ ∃ rep, assemble_auto_partition m devices = Ok (l, rep)) as ->.
  { unfold auto_partition. destruct (assemble_auto_partition m devices) as [[]| |]; naive_solver. }
  unfold assemble_auto_partition. setoid_rewrite ensure_bind. setoid_rewrite ensure_bind. setoid_rewrite ensure_bind.
  setoid_rewrite outcome_bind_ok. split.
  - intros (rep & ? & ? & ? & mem & Hmem & Hf). apply effective_memory_ok in Hmem as [Hr ->]; [|by intros ->].
    apply ensure_bind in Hf as [Hs Hf]. apply outcome_bind_ok in Hf as ([rs ws] & Hb & Hf).
    apply ensure_bind in Hf as [Hl Hf]. apply bind_unit_ok in Hf as [Hc Hf].
    apply assembled_ok in Hf as [Hp [= <- <-]]; [|done]. exists rs, ws. split_and!; (lia || done).
  - intros (rs & ws & ? & Hr & Hs & Hb & Hl & Hc & Hp & ->). eexists. split_and!; [lia..|].
    eexists. split; [apply effective_memory_ok; [intros ->; simpl in *; lia|done]|].
    cbv zeta. apply ensure_bind. split; [done|]. apply outcome_bind_ok. eexists. split; [done|]. cbv beta iota.
    apply ensure_bind. split; [done|]. apply bind_unit_ok. split; [done|].
    by apply assembled_ok.
Qed.

(** Fitting the layer budgets is fitting the devices. *)
Lemma fits_budgets_legal m devices rs :
  reservations_fit m devices → length rs = length devices → tiles rs (num_layers m) →
  fits_budgets (effective_layer_bytes m) rs (imap (budget_of m (length devices)) devices) ↔ legal m devices rs.
Proof.
  intros Hr Hl Ht. unfold fits_budgets, legal. rewrite Forall2_same_length_lookup, length_imap.
  setoid_rewrite list_lookup_imap. split.
  - intros [_ H]. split_and!; [done..|]. intros i r d Hi Hd. specialize (H i r _ Hi (f_equal _ Hd)).
    specialize (Hr i d Hd). unfold budget_of in H. lia.
  - intros (_ & _ & H). split; [done|]. intros i r b Hi Hb. destruct (devices !! i) as [d|] eqn:Hd; simplify_eq/=.
    specialize (H i r d Hi Hd). unfold budget_of. lia.
Qed.

Section roomy.
Context (m : ModelProfile) (devices : list DeviceSpec).
Abbreviation layers := (effective_layer_bytes m).
Abbreviation mem := (imap (budget_of m (length devices)) devices).
Context (Hadj : adjacency m = []) (Hsum : (sumN layers ≤ u64_max)%N).
(** Every layer fits every stage. *)
Context (Hroom : ∀ i d x, devices !! i = Some d → x ∈ layers →
  (x + reserved m (length devices) i ≤ available_memory_bytes d)%N).

Lemma forbidden_none : forbidden_boundaries m = [].
Proof. unfold forbidden_boundaries. by rewrite Hadj. Qed.

Lemma roomy_reservations : 0 < num_layers m → reservations_fit m devices.
Proof.
  intros Hn i d Hi. destruct (lookup_lt_is_Some_2 layers 0) as [x Hx]; [rewrite length_effective; lia|].
  specialize (Hroom i d x Hi (list_elem_of_lookup_2 _ _ _ Hx)). lia.
Qed.

Lemma roomy_budgets x b : x ∈ layers → b ∈ mem → (x ≤ b)%N.
Proof.
  intros Hx [i Hi]%list_elem_of_lookup_1. rewrite list_lookup_imap in Hi.
  destruct (devices !! i) as [d|] eqn:Hd; simplify_eq/=. specialize (Hroom i d x Hd Hx). unfold budget_of. lia.
Qed.

Lemma legal_memory rs : legal m devices rs → (sat_sum layers ≤ sat_sum mem)%N.
Proof.
  intros HL. pose proof HL as (Hl & Ht & _). rewrite !sat_sum_eq.
  assert (sumN layers ≤ sumN mem)%N; [|lia].
  pose proof (tiles_sum layers 0 rs ltac:(rewrite length_effective; apply Ht)) as Hs.
  change (cum layers 0) with 0%N in Hs. rewrite N.add_0_r in Hs. rewrite <-Hs.
  assert (fits_budgets layers rs mem) as Hf.
  { apply fits_budgets_legal; try done. apply roomy_reservations. pose proof (tiles_from_le _ _ _ (proj2 Ht)).
    destruct rs; [by destruct Ht|simpl in *; lia]. }
  clear -Hf. induction Hf; csimpl; [done|lia].
Qed.

(** The balancer on these budgets, one stage or more. *)
Lemma roomy_balance rs :
  legal m devices rs → ∃ rs' ws,
    balance_layers layers mem [] [] (device_id <$> devices) = Ok (rs', ws) ∧ legal m devices rs' ∧
    ∀ rs'', legal m devices rs'' → (heaviest m rs' ≤ heaviest m rs'')%N.
Proof.
  intros HL. pose proof HL as (Hl & Ht & _). pose proof (tiles_from_le _ _ _ (proj2 Ht)) as Hle.
  assert (0 < length devices) by (rewrite <-Hl; destruct rs; [by destruct Ht|simpl; lia]).
  pose proof (roomy_reservations ltac:(lia)) as Hres. pose proof (length_effective m) as Hn.
  assert (length mem = length devices) as Hm by apply length_imap.
  assert (∀ rs, legal m devices rs → tiles_from 0 rs (length layers) ∧ fits_budgets layers rs mem) as Hto.
  { intros rs' HL'. pose proof HL' as (? & ? & _). rewrite Hn. split; [by destruct HL' as (_ & [] & _)|]. by apply fits_budgets_legal. }
  assert (∀ rs, tiles_from 0 rs (length layers) → fits_budgets layers rs mem → legal m devices rs) as Hof.
  { intros rs' Ht' Hf'. apply Forall2_length in Hf' as Hl'. rewrite Hm in Hl'. rewrite Hn in Ht'.
    apply fits_budgets_legal; try done. split; [|done]. intros ->. simpl in Hl'. lia. }
  destruct (decide (length devices = 1)) as [H1|H1].
  - assert (∀ rs, legal m devices rs → rs = [mkRange 0 (num_layers m)]) as Huniq.
    { intros [|[s e] [|]] (Hl' & [_ Ht'] & _); simpl in *; try lia. destruct Ht' as (-> & _ & ->). done. }
    unfold balance_layers. rewrite Hm, H1, Hn. simpl. rewrite (proj2 (Nat.ltb_ge _ _)) by lia.
    eexists _, _. split; [done|]. rewrite <-(Huniq rs HL). split; [done|]. intros rs'' HL''. by rewrite (Huniq rs HL), (Huniq rs'' HL'').
  - destruct (Hto rs HL) as [Ht0 Hf0].
    destruct (balance_found layers mem Hsum ltac:(lia) roomy_budgets (device_id <$> devices) rs Ht0 Hf0) as (rs' & ws & ? & ? & ? & Hbest).
    exists rs', ws. split_and!; [done|by apply Hof|]. intros rs'' HL''. destruct (Hto rs'' HL''). by apply Hbest.
Qed.

Lemma roomy_complete rs : legal m devices rs → ∃ rs', auto_partition m devices = Ok (assignments_of m devices rs') ∧
  legal m devices rs' ∧ ∀ rs'', legal m devices rs'' → (heaviest m rs' ≤ heaviest m rs'')%N.
Proof.
  intros HL. destruct (roomy_balance rs HL) as (rs' & ws & Hb & HL' & Hbest). exists rs'. split_and!; [|done..].
  pose proof HL' as (Hl & Ht & _). pose proof (tiles_from_le _ _ _ (proj2 Ht)).
  assert (0 < length rs') by (destruct rs'; [by destruct Ht|simpl; lia]).
  pose proof (roomy_reservations ltac:(lia)) as Hres.
  apply auto_ok. exists rs', ws. cbv zeta. split_and!; [lia..|done|by eapply legal_memory|by rewrite forbidden_none, Hadj|done| |by apply legal_plan_ok|done].
  eapply check_capacity_ok; [done|by rewrite length_imap|by rewrite length_effective; apply Ht|].
  by apply fits_budgets_legal.
Qed.

End roomy.

Lemma auto_legal m devices l :
  (sumN (effective_layer_bytes m) ≤ u64_max)%N → auto_partition m devices = Ok l →
  ∃ rs, legal m devices rs ∧ l = assignments_of m devices rs.
Proof.
  intros Hsum (rs & ws & _ & Hr & _ & _ & Hl & Hc & (_ & Ht & _) & ->)%auto_ok. exists rs. split; [|done].
  apply fits_budgets_legal; [done..|]. eapply check_capacity_ok; [done| | |done].
  - by rewrite length_imap.
  - rewrite length_effective. apply Ht.
Qed.

(** ** No panic *)

Lemma check_tiling_no_panic l : ∀ s, check_tiling s l ≠ Panic.
Proof.
  induction l as [|a l IH]; intros s; simpl; [done|].
  by do 2 (apply bind_no_panic; [apply ensure_no_panic|intros _]).
Qed.

Lemma validate_partition_no_panic l n : validate_partition l n ≠ Panic.
Proof.
  destruct (decide (l = [])) as [->|Hne]; [done|].
  apply bind_no_panic; [apply ensure_no_panic|intros _].
  apply bind_no_panic; [apply check_all_no_panic; intros []; apply ensure_no_panic|intros _].
  apply bind_no_panic; [apply check_tiling_no_panic|intros e].
  apply bind_no_panic; [apply ensure_no_panic|intros _].
  destruct l as [|a l]; [done|]. destruct (last (a :: l)) eqn:E; [|by apply last_None in E].
  repeat first [apply bind_no_panic; [|intros _] | apply ensure_no_panic | apply check_all_no_panic; intros].
Qed.

Lemma validate_memory_no_panic l devices : validate_memory_fit l devices ≠ Panic.
Proof.
  apply bind_no_panic; [apply ensure_no_panic|intros _]. apply check_all_no_panic. intros []. apply ensure_no_panic.
Qed.

Lemma reserve_no_panic mem i x f s : i < length mem → reserve mem i x f s ≠ Panic.
Proof. intros [a Ha]%lookup_lt_is_Some_2. unfold reserve. rewrite Ha. by case_match. Qed.

Lemma effective_memory_no_panic m devices : 0 < length devices → effective_memory m devices ≠ Panic.
Proof.
  intros Hl. unfold effective_memory.
  destruct (reserve (available_memory_bytes <$> devices) 0 _ _ _) as [mem| |] eqn:E; simpl; [|done|].
  - apply reserve_ok in E as [_ ->]. apply reserve_no_panic. rewrite length_alter, length_fmap. lia.
  - exfalso. revert E. apply reserve_no_panic. by rewrite length_fmap.
Qed.

Lemma balance_one layers b forb groups ids :
  0 < length layers → balance_layers layers [b] forb groups ids = Ok ([mkRange 0 (length layers)], []).
Proof. intros. unfold balance_layers. simpl. by rewrite (proj2 (Nat.ltb_ge _ _)) by lia. Qed.

Lemma roomy_no_panic m devices :
  adjacency m = [] → (sumN (effective_layer_bytes m) ≤ u64_max)%N →
  auto_partition m devices ≠ Panic.
Proof.
  intros Hadj Hsum. unfold auto_partition.
  assert (assemble_auto_partition m devices ≠ Panic) as H; [|by destruct (assemble_auto_partition m devices) as [[]| |]].
  unfold assemble_auto_partition. rewrite forbidden_none, Hadj by done.
  do 3 (apply ensure_bind_no_panic; intros ?).
  destruct (effective_memory m devices) as [mem| |] eqn:Hmem; [|done|by apply effective_memory_no_panic in Hmem].
  apply effective_memory_ok in Hmem as [_ ->]; [|by intros ->]. cbn [mbind outcome_bind].
  set (mem := imap _ _). assert (length mem = length devices) as Hm by apply length_imap.
  apply bind_no_panic; [apply ensure_no_panic|intros _].
  assert (match balance_layers (effective_layer_bytes m) mem [] [] (device_id <$> devices) with
    | Ok (rs, _) => tiles_from 0 rs (num_layers m) ∧ length rs = length devices | Err _ => True | Panic => False end) as Hbal.
  { rewrite <-(length_effective m) in *. rewrite <-Hm in *. destruct (decide (length mem = 1)) as [Hl1|].
    - destruct mem as [|b []]; try (simpl in *; lia). rewrite balance_one by done. simpl. split; [split_and!; (done || lia)|done].
    - apply balance_tiles; [done|lia]. }
  destruct (balance_layers _ _ _ _ _) as [[rs ws]| |]; [|done..]. destruct Hbal as [Ht Hl]. cbn [mbind outcome_bind].
  apply ensure_bind_no_panic. intros _.
  apply bind_no_panic; [eapply check_capacity_ok; [done|by rewrite Hm|by rewrite length_effective]|intros _].
  apply bind_no_panic; [|intros l; apply bind_no_panic; [apply validate_partition_no_panic|intros _];
    by apply bind_no_panic; [apply validate_memory_no_panic|]].
  unfold build_assignments. rewrite build_from_eq; [done|lia|]. intros r Hr. destruct (tiles_from_elem _ _ _ _ Ht Hr). lia.
Qed.

(** ** Claims *)

(** C13. Without adjacency groups, when the layers sum within [u64] and every layer fits on
    every device beside what the edge stages reserve, [auto_partition] never panics, returns a
    plan exactly when some plan fits, and the plan it returns fits, with one non-empty
    contiguous range of layers per device in order, the embedding on the first and the output
    projection on the last, and a heaviest stage no plan that fits improves on. *)
Theorem auto_partition_optimal (m : ModelProfile) (devices : list DeviceSpec) :
  adjacency m = [] →
  (sumN (effective_layer_bytes m) ≤ u64_max)%N →
  (∀ i d x, devices !! i = Some d → x ∈ effective_layer_bytes m →
     (x + reserved m (length devices) i ≤ available_memory_bytes d)%N) →
  auto_partition m devices ≠ Panic ∧
  ((∃ rs, legal m devices rs) ↔ is_ok (auto_partition m devices) = true) ∧
  ∀ l, auto_partition m devices = Ok l →
    ∃ rs, l = assignments_of m devices rs ∧ legal m devices rs ∧
      ∀ rs', legal m devices rs' → (heaviest m rs ≤ heaviest m rs')%N.
Proof.
  intros Hadj Hsum Hroom. split; [by apply roomy_no_panic|].
  assert (∀ l, auto_partition m devices = Ok l → ∃ rs, l = assignments_of m devices rs ∧ legal m devices rs ∧
      ∀ rs', legal m devices rs' → (heaviest m rs ≤ heaviest m rs')%N) as H.
  { intros l Hl. destruct (auto_legal m devices l Hsum Hl) as (rs0 & HL & _).
    destruct (roomy_complete m devices Hadj Hsum Hroom rs0 HL) as (rs & Hrs & ? & ?). exists rs. split_and!; [congruence|done..]. }
  split; [|done]. split.
  - intros [rs HL]. by destruct (roomy_complete m devices Hadj Hsum Hroom rs HL) as (rs' & -> & _).
  - destruct (auto_partition m devices) as [l| |] eqn:E; [|done..]. destruct (H l eq_refl) as (rs & _ & ? & _). eauto.
Qed.

Definition mem_device (b : N) : DeviceSpec := mkDevice "node" b 0.
Definition weights (l : list N) (gs : list LayerAdjacencyGroup) : ModelProfile := mkProfile (length l) 0 1 1 (Some l) gs.

Lemma auto_partition_optimal_witness :
  is_ok (auto_partition (weights [1; 2; 3; 4; 5; 6]%N []) (mem_device <$> [20; 20; 20]%N)) = true ∧
  (layer_range <$> match auto_partition (weights [1; 2; 3; 4; 5; 6]%N []) (mem_device <$> [20; 20; 20]%N) with Ok l => l | _ => [] end)
    = [mkRange 0 3; mkRange 3 5; mkRange 5 6] ∧
  auto_partition (weights [1; 2; 3; 4; 5; 6]%N []) (mem_device <$> [20; 20; 20]%N) ≠ Panic.
Proof.
  split; [vm_compute; reflexivity|]. split; [vm_compute; reflexivity|].
  apply auto_partition_optimal; [reflexivity|vm_compute; discriminate|].
  intros i d x Hd Hx. assert (available_memory_bytes d = 20%N) as ->.
  { do 3 (destruct i as [|i]; [injection Hd as <-; reflexivity|]). discriminate Hd. }
  assert (x ≤ 6)%N. { revert x Hx. apply Forall_forall. repeat constructor; vm_compute; discriminate. }
  unfold reserved. destruct (_ =? _), (_ =? _); simpl; lia.
Defined.

Definition group (a b : nat) : LayerAdjacencyGroup := mkGroup (mkRange a b) "shared keys and values".

Definition ranges_of (r : outcome PartitionError (list StageAssignment)) : outcome PartitionError (list Range) :=
  match r with Ok l => Ok (map layer_range l) | Err e => Err e | Panic => Panic end.

Ltac decide_legal :=
  split; [reflexivity|]; split; [split; [discriminate|simpl; repeat (split || lia)]|];
  intros i r d Hr Hd; do 5 (destruct i as [|i]; [try discriminate; injection Hr as <-; injection Hd as <-; vm_compute; discriminate|]);
  discriminate.

(** Any plan [auto_partition] returns, groups or not, passes the validators: it is the list of
    assignments of ranges that tile the layers, one per device, each stage within its device.
    Outside the conditions of optimality the sweep is incomplete: with an adjacency group it
    returns a plan that cuts the group although an uncut plan fits; with two groups and a full
    device it panics; and without groups, when a device is too small for some layer, it refuses
    a model that fits, or returns a plan that is not the most balanced. *)
Theorem auto_partition_limits :
  (∀ m devices l, auto_partition m devices = Ok l →
     ∃ rs, plan_ok m devices rs ∧ l = assignments_of m devices rs) ∧
  (∃ m devices rs rs', legal m devices rs ∧ uncut m rs ∧
     ranges_of (auto_partition m devices) = Ok rs' ∧ ¬ uncut m rs') ∧
  (∃ m devices, auto_partition m devices = Panic) ∧
  (∃ m devices rs e, adjacency m = [] ∧ legal m devices rs ∧ auto_partition m devices = Err e) ∧
  (∃ m devices rs rs', adjacency m = [] ∧ legal m devices rs ∧
     ranges_of (auto_partition m devices) = Ok rs' ∧ (heaviest m rs < heaviest m rs')%N).
Proof.
  split_and!.
  - intros m devices l (rs & _ & _ & _ & _ & _ & _ & _ & ? & ->)%auto_ok. eauto.
  - exists (weights [1; 1; 1; 1]%N [group 2 4]), (mem_device <$> [5; 5; 5]%N), [mkRange 0 1; mkRange 1 2; mkRange 2 4],
      [mkRange 0 2; mkRange 2 3; mkRange 3 4]. split; [decide_legal|]. split; [|split; [vm_compute; reflexivity|]].
    + intros g r ->%list_elem_of_singleton Hr. revert r Hr. apply Forall_forall. repeat constructor; simpl; lia.
    + intros H. apply (H (group 2 4) (mkRange 3 4)); [set_solver|set_solver|simpl; lia].
  - exists (weights [1; 1; 1; 1]%N [group 0 2; group 2 4]), (mem_device <$> [3; 2; 2; 1]%N). vm_compute. reflexivity.
  - exists (weights [1; 1; 10; 1]%N []), (mem_device <$> [11; 1; 12]%N), [mkRange 0 1; mkRange 1 2; mkRange 2 4].
    eexists. split; [reflexivity|]. split; [decide_legal|vm_compute; reflexivity].
  - exists (weights [2; 1; 2; 1; 1]%N []), (mem_device <$> [12; 1; 10]%N), [mkRange 0 1; mkRange 1 2; mkRange 2 5],
      [mkRange 0 3; mkRange 3 4; mkRange 4 5].
    split; [reflexivity|]. split; [decide_legal|]. split; vm_compute; reflexivity.
Qed.

Lemma auto_partition_limits_witness :
  ∃ rs, plan_ok (weights [1; 1; 1; 1]%N [group 2 4]) (mem_device <$> [5; 5; 5]%N) rs ∧ length rs = 3.
Proof.
  destruct (proj1 auto_partition_limits (weights [1; 1; 1; 1]%N [group 2 4]) (mem_device <$> [5; 5; 5]%N)
    (match auto_partition (weights [1; 1; 1; 1]%N [group 2 4]) (mem_device <$> [5; 5; 5]%N) with Ok l => l | _ => [] end))
    as (rs & Hp & _).
  - vm_compute. reflexivity.
  - exists rs. split; [exact Hp|]. exact (proj1 Hp).
Defined.
