(* ===== verification/PipeManual.v ===== *)
(** * Manual plans

    The [--pp-layers] flag: parsing the documented notation gives back the ranges it
    spells, anything the parser accepts stays within the model, and the manual path
    accepts exactly the plans that tile the layers, fit the devices and cut no
    adjacency group. *)

From S2P Require Import Prelude PipePartition PipeBalance PipeAssembly PipePlans PipePlanner.

(** ** Spelling a partition *)

(** Decimal digits, least significant first. *)
Fixpoint dec_rev (fuel : nat) (v : N) : list N :=
  match fuel with
  | O => []
  | S fuel' => (48 + v mod 10)%N :: if (v <? 10)%N then [] else dec_rev fuel' (v / 10)
  end.
Definition decimal (v : N) : list N := reverse (dec_rev (S (N.size_nat v)) v).

Definition spell (r : Range) : list N :=
  decimal (N.of_nat (r_start r)) ++ dash :: decimal (N.of_nat (r_end r - 1)).

Fixpoint join (parts : list (list N)) : list N :=
  match parts with
  | [] => []
  | [q] => q
  | q :: qs => q ++ comma :: join qs
  end.

Definition is_digit (c : N) : Prop := (48 ≤ c ≤ 57)%N.

Lemma dec_rev_digits fuel v : Forall is_digit (dec_rev fuel v).
Proof.
  revert v. induction fuel as [|fuel IH]; intros v; simpl; constructor.
  - unfold is_digit. pose proof (N.mod_lt v 10 ltac:(lia)) as Hm. generalize dependent (v mod 10)%N. lia.
  - by case_match.
Qed.

Lemma decimal_digits v : Forall is_digit (decimal v).
Proof. apply Forall_reverse, dec_rev_digits. Qed.

Lemma decimal_cons v : ∃ c s, decimal v = c :: s.
Proof.
  unfold decimal. destruct (reverse _) as [|c s] eqn:E; [|eauto].
  apply (f_equal length) in E. rewrite length_reverse in E. simpl in E. lia.
Qed.

Lemma size_nat_tenth v : (10 ≤ v)%N → N.size_nat (v / 10) < N.size_nat v.
Proof.
  intros Hv. rewrite (PipeOptimal.size_nat_half v) by lia. apply Nat.lt_succ_r, PipeOptimal.size_nat_mono.
  change 10%N with (2 * 5)%N. rewrite <-N.Div0.div_div. apply N.Div0.div_le_upper_bound.
  pose proof (N.le_0_l (v / 2)). lia.
Qed.

Lemma dec_rev_value fuel v :
  N.size_nat v < fuel → (v ≤ u64_max)%N →
  foldr (λ c acc, push_digit acc c) (Some 0%N) (dec_rev fuel v) = Some v.
Proof.
  revert v. induction fuel as [|fuel IH]; intros v Hf Hv; [lia|]. cbn [dec_rev foldr].
  pose proof (N.div_mod v 10 ltac:(lia)) as Hd. pose proof (N.mod_lt v 10 ltac:(lia)) as Hm.
  assert (foldr (λ c acc, push_digit acc c) (Some 0%N) (if (v <? 10)%N then [] else dec_rev fuel (v / 10)) = Some (v / 10)%N) as ->.
  { destruct (N.ltb_spec v 10); simpl; [by rewrite N.div_small|]. pose proof (size_nat_tenth v ltac:(lia)).
    apply IH; [lia|]. etrans; [|done]. apply N.Div0.div_le_upper_bound. lia. }
  generalize dependent (v mod 10)%N. generalize dependent (v / 10)%N. intros q w Hw Hlt.
  unfold push_digit, digit_value. cbn [mbind option_bind]. rewrite decide_True by lia. cbn [mbind option_bind].
  rewrite decide_True by lia. f_equal. lia.
Qed.

Lemma foldl_reverse {A B} (f : B → A → B) a l : foldl f a (reverse l) = foldr (λ c acc, f acc c) a l.
Proof. induction l as [|x l IH]; [done|]. by rewrite reverse_cons, foldl_app, IH. Qed.

Lemma parse_decimal v : (v ≤ u64_max)%N → parse_usize (decimal v) = Some v.
Proof.
  intros Hv. assert (foldl push_digit (Some 0%N) (decimal v) = Some v) as Hfold.
  { unfold decimal. rewrite foldl_reverse. apply dec_rev_value; [lia|done]. }
  destruct (decimal_cons v) as (c & s & Hc). pose proof (decimal_digits v) as Hdig. rewrite Hc in *.
  unfold parse_usize. apply Forall_cons in Hdig as [Hd _]. unfold is_digit in Hd.
  destruct s; [done|]. rewrite decide_False by lia. done.
Qed.

(** ** Text *)

Lemma trim_start_id s : Forall (λ c, is_whitespace c = false) s → trim_start s = s.
Proof. destruct 1 as [|c s Hc]; [done|]. simpl. by rewrite Hc. Qed.

Lemma trim_id s : Forall (λ c, is_whitespace c = false) s → trim s = s.
Proof.
  intros Hs. unfold trim. rewrite (trim_start_id s) by done.
  rewrite trim_start_id by (by apply Forall_reverse). apply reverse_involutive.
Qed.

Lemma digit_not_space c : is_digit c → is_whitespace c = false.
Proof. unfold is_digit, is_whitespace. intros. apply bool_decide_eq_false. lia. Qed.

Lemma cut_at_app sep a b : sep ∉ a → cut_at sep (a ++ sep :: b) = Some (a, b).
Proof.
  induction a as [|c a IH]; intros Hs; simpl; [by rewrite decide_True|].
  rewrite decide_False by set_solver. rewrite IH by set_solver. done.
Qed.

Lemma split_on_none sep s : sep ∉ s → split_on sep s = [s].
Proof.
  induction s as [|c s IH]; intros Hs; simpl; [done|]. rewrite decide_False by set_solver.
  by rewrite IH by set_solver.
Qed.

Lemma split_on_app sep a b : sep ∉ a → split_on sep (a ++ sep :: b) = a :: split_on sep b.
Proof.
  induction a as [|c a IH]; intros Hs; simpl; [by rewrite decide_True|].
  rewrite decide_False by set_solver. by rewrite IH by set_solver.
Qed.

Lemma split_on_join parts : parts ≠ [] → Forall (λ q, comma ∉ q) parts → split_on comma (join parts) = parts.
Proof.
  intros Hne H. induction H as [|q parts Hq Hparts IH]; [done|]. destruct parts as [|q' parts].
  - by apply split_on_none.
  - change (join (q :: q' :: parts)) with (q ++ comma :: join (q' :: parts)). rewrite split_on_app by done. by rewrite IH.
Qed.

(** A text of digits, dashes and commas. *)
Definition plain (c : N) : Prop := is_digit c ∨ c = dash ∨ c = comma.

Lemma plain_not_space c : plain c → is_whitespace c = false.
Proof. intros [?|[->| ->]]; [by apply digit_not_space|done..]. Qed.

Lemma digits_avoid sep s : Forall is_digit s → ¬ is_digit sep → sep ∉ s.
Proof. rewrite Forall_forall. naive_solver. Qed.

Lemma spell_plain r : Forall plain (spell r).
Proof.
  unfold spell. apply Forall_app. split; [|constructor; [right; by left|]];
    (eapply Forall_impl; [apply decimal_digits|by left]).
Qed.

Lemma spell_no_comma r : comma ∉ spell r.
Proof.
  unfold spell. rewrite not_elem_of_app, not_elem_of_cons.
  split_and!; [apply (digits_avoid _ _ (decimal_digits _))|done|apply (digits_avoid _ _ (decimal_digits _))];
    unfold is_digit, comma; lia.
Qed.

Definition in_model (n : nat) (r : Range) : Prop := r_start r < r_end r ≤ n.

Lemma parse_spell n i r : (N.of_nat n ≤ u64_max)%N → in_model n r → parse_part n i (spell r) = Ok r.
Proof.
  intros Hn [Hlt Hle]. unfold parse_part.
  assert (∀ s, Forall plain s → trim s = s) as Htrim.
  { intros s Hs. apply trim_id. eapply Forall_impl; [done|]. apply plain_not_space. }
  assert (∀ v, trim (decimal v) = decimal v) as Hdec.
  { intros v. apply Htrim. eapply Forall_impl; [apply decimal_digits|by left]. }
  rewrite Htrim by apply spell_plain. unfold spell.
  rewrite cut_at_app by (apply (digits_avoid _ _ (decimal_digits _)); unfold is_digit, dash; lia).
  cbn [ok_or_err mbind outcome_bind]. rewrite !Hdec, !parse_decimal by lia. cbn [ok_or_err mbind outcome_bind].
  unfold ensure. rewrite !decide_True by lia. cbn [mbind outcome_bind].
  rewrite !Nat2N.id. destruct r as [s e]; simpl in *. repeat f_equal. lia.
Qed.

Lemma parse_parts_spell n i rs :
  (N.of_nat n ≤ u64_max)%N → Forall (in_model n) rs → parse_parts n i (spell <$> rs) = Ok rs.
Proof.
  intros Hn H. revert i. induction H as [|r rs Hr Hrs IH]; intros i; csimpl; [done|].
  rewrite parse_spell by done. cbn [mbind outcome_bind]. by rewrite IH.
Qed.

Lemma join_plain rs : Forall plain (join (spell <$> rs)).
Proof.
  induction rs as [|r rs IH]; [constructor|]. destruct rs as [|r' rs]; [apply spell_plain|].
  change (join (spell <$> r :: r' :: rs)) with (spell r ++ comma :: join (spell <$> r' :: rs)). apply Forall_app. split; [apply spell_plain|]. constructor; [by right; right|apply IH].
Qed.

Lemma join_nonempty rs : rs ≠ [] → join (spell <$> rs) ≠ [].
Proof.
  destruct rs as [|r rs]; [done|]. intros _ E.
  assert (spell r ≠ []) by (unfold spell; by destruct (decimal _)).
  destruct rs; cbn [join fmap list_fmap] in E; [done|]. by apply app_eq_nil in E as [? _].
Qed.

Lemma parse_parts_in_model n i parts rs : parse_parts n i parts = Ok rs → Forall (in_model n) rs ∧ length rs = length parts.
Proof.
  revert i rs. induction parts as [|q parts IH]; intros i rs; simpl; [intros [= <-]; by split; [constructor|]|].
  rewrite outcome_bind_ok. intros (r & Hr & Hf). apply outcome_bind_ok in Hf as (rs' & Hrs & [= <-]).
  apply IH in Hrs as [??]. split; [constructor; [|done]|simpl; lia].
  unfold parse_part in Hr. apply outcome_bind_ok in Hr as ([s e] & _ & Hr). apply ok_or_err_bind in Hr as (v & _ & Hr).
  apply ok_or_err_bind in Hr as (w & _ & Hr). apply ensure_bind in Hr as [Hvw Hr]. apply ensure_bind in Hr as [Hw [= <-]].
  split; simpl; lia.
Qed.

Lemma split_on_nonempty sep s : split_on sep s ≠ [].
Proof. destruct s as [|c s]; simpl; [done|]. case_decide; [done|]. by destruct (split_on sep s). Qed.

Lemma manual_no_panic m devices rs : assemble_manual_partition rs m devices ≠ Panic.
Proof.
  unfold assemble_manual_partition. apply ensure_bind_no_panic. intros Hl.
  apply bind_no_panic; [|intros _].
  { apply check_all_no_panic. intros g. case_match; [done|]. apply check_all_no_panic. intros. apply ensure_no_panic. }
  apply bind_no_panic.
  - unfold build_assignments. generalize (length rs), (effective_layer_bytes m), 0.
    assert (length rs ≤ length devices) as Hle by lia. clear Hl. revert devices Hle.
    induction rs as [|r rs IH]; intros [|d ds] Hle k pl i; simpl in *; try done; [lia|].
    by apply bind_no_panic; [apply IH; lia|].
  - intros l. apply bind_no_panic; [apply validate_partition_no_panic|intros _].
    by apply bind_no_panic; [apply validate_memory_no_panic|].
Qed.

(** The [--pp-layers] flag and the manual path. Parsing the documented spelling of ranges of the
    model gives the ranges back; whatever parses is a non-empty list of non-empty ranges within
    the model; and building from ranges never panics and succeeds exactly when there is one range
    per device, they tile the layers, every stage fits its device and no group is cut, with the
    assignments of those ranges as its result. *)
Theorem manual_partition_exact (n : nat) (m : ModelProfile) (devices : list DeviceSpec) (rs : list Range) :
  (N.of_nat n ≤ u64_max)%N →
  (rs ≠ [] → Forall (in_model n) rs → parse_manual_partition (join (spell <$> rs)) n = Ok rs) ∧
  (∀ text rs', parse_manual_partition text n = Ok rs' → rs' ≠ [] ∧ Forall (in_model n) rs') ∧
  assemble_manual_partition rs m devices ≠ Panic ∧
  ∀ l, assemble_manual_partition rs m devices = Ok l ↔
    plan_ok m devices rs ∧ uncut m rs ∧ l = assignments_of m devices rs.
Proof.
  intros Hn. split_and!.
  - intros Hne Hin. unfold parse_manual_partition.
    rewrite trim_id by (eapply Forall_impl; [apply join_plain|apply plain_not_space]). cbv zeta.
    apply ensure_bind. split; [by apply join_nonempty|].
    rewrite split_on_join; [by apply parse_parts_spell|by destruct rs|].
    apply Forall_fmap, Forall_forall. intros r _. apply spell_no_comma.
  - intros text rs' H. unfold parse_manual_partition in H. apply ensure_bind in H as [_ H].
    apply parse_parts_in_model in H as [? Hlen]. split; [|done]. intros ->.
    by destruct (split_on comma (trim text)) eqn:E; [apply split_on_nonempty in E|].
  - apply manual_no_panic.
  - intros l. apply manual_ok.
Qed.

Lemma manual_partition_exact_witness :
  parse_manual_partition (join (spell <$> [mkRange 0 16; mkRange 16 32])) 32 = Ok [mkRange 0 16; mkRange 16 32] ∧
  join (spell <$> [mkRange 0 16; mkRange 16 32]) = [48; 45; 49; 53; 44; 49; 54; 45; 51; 49]%N.
Proof.
  split; [|vm_compute; reflexivity].
  refine (proj1 (manual_partition_exact 32 (uniform 32 1 1 1) (mem_device <$> [20; 20]%N) [mkRange 0 16; mkRange 16 32] _) _ _).
  - vm_compute. discriminate.
  - discriminate.
  - repeat constructor; simpl; lia.
Defined.
