(* ===== verification/PipeSchedule.v ===== *)
(** * Micro-batches and the GPipe schedule

    [distributed/pipeline/micro_batch.rs] and [schedule.rs]: splitting a batch into
    micro-batches, and the schedule that emits the actions of one pipeline step.
    Stage and micro-batch numbers are [u32]s, which the code keeps below the
    numbers of stages and micro-batches. *)

From S2P Require Import Prelude.

(** ** Micro-batches *)

Record MicroBatchSpec := mkSpec { mb_id : nat; start_index : nat; end_index : nat; mb_size : nat }.

Record MicroBatch := mkMicroBatch {
  mb_spec : MicroBatchSpec;
  request_ids : list string;
  current_stage : nat;
  mb_completed : bool;
}.

Definition new_micro_batch (s : MicroBatchSpec) (ids : list string) : MicroBatch := mkMicroBatch s ids 0 false.
Definition advance_stage (b : MicroBatch) : MicroBatch :=
  mkMicroBatch (mb_spec b) (request_ids b) (S (current_stage b)) (mb_completed b).
Definition mark_completed (b : MicroBatch) : MicroBatch :=
  mkMicroBatch (mb_spec b) (request_ids b) (current_stage b) true.

Inductive ScheduleError := BatchSizeZero | MicroBatchSizeZero | TooFewStages | NoMicroBatches.

Fixpoint split_from (batch mbs start id left : nat) : list MicroBatchSpec :=
  match left with
  | O => []
  | S left' =>
    let e := Nat.min (start + mbs) batch in
    mkSpec id start e (e - start) :: split_from batch mbs e (S id) left'
  end.

Definition split_into_micro_batches (batch mbs : nat) : outcome ScheduleError (list MicroBatchSpec) :=
  _ ← ensure (0 < batch) BatchSizeZero;
  _ ← ensure (0 < mbs) MicroBatchSizeZero;
  Ok (split_from batch mbs 0 0 (div_ceil batch mbs)).

Definition suggested_micro_batch_size (batch stages : nat) : nat :=
  if (batch =? 0) || (stages =? 0) then 1
  else
    let target := Nat.max (stages * 2) 1 in
    Nat.min (Nat.max (div_ceil batch target) 1) batch.

(** ** Actions *)

Record PipelineConfig := mkPipeConfig { num_stages : nat; micro_batch_size : nat; max_in_flight : nat }.

Definition new_pipeline_config (stages mbs : nat) : outcome ScheduleError PipelineConfig :=
  _ ← ensure (2 ≤ stages) TooFewStages;
  _ ← ensure (0 < mbs) MicroBatchSizeZero;
  Ok (mkPipeConfig stages mbs 0).

Definition with_max_in_flight (c : PipelineConfig) (n : nat) : PipelineConfig :=
  mkPipeConfig (num_stages c) (micro_batch_size c) n.

Inductive ScheduleAction :=
  | Forward (stage mb : nat)
  | Receive (stage mb : nat)
  | Flush (mb : nat)
  | Idle
  | Done.

#[global] Instance ScheduleAction_eq_dec : EqDecision ScheduleAction.
Proof. solve_decision. Defined.

(** ** The schedule *)

Record GPipeSchedule := mkGPipe {
  gp_config : PipelineConfig;
  num_micro_batches : nat;
  mb_completed_stage : list (option nat);
  ready_to_flush : list nat;
  flushed : gset nat;
  done_sequences : gset nat;
  action_queue : list ScheduleAction;
  initial_actions_generated : bool;
}.

Definition new_gpipe (c : PipelineConfig) (n : nat) : outcome ScheduleError GPipeSchedule :=
  _ ← ensure (0 < n) NoMicroBatches;
  Ok (mkGPipe c n (replicate n None) [] ∅ ∅ [] false).

Definition with_queue (q : list ScheduleAction) (s : GPipeSchedule) : GPipeSchedule :=
  mkGPipe (gp_config s) (num_micro_batches s) (mb_completed_stage s) (ready_to_flush s) (flushed s) (done_sequences s)
    q (initial_actions_generated s).

Definition generate_initial_actions (s : GPipeSchedule) : GPipeSchedule :=
  mkGPipe (gp_config s) (num_micro_batches s) (mb_completed_stage s) (ready_to_flush s) (flushed s) (done_sequences s)
    (action_queue s ++ (Forward 0 <$> seq 0 (num_micro_batches s))) true.

Definition schedule_next_forward (stage mb : nat) (s : GPipeSchedule) : GPipeSchedule :=
  let next := S stage in
  if next <? num_stages (gp_config s) then with_queue (action_queue s ++ [Receive next mb; Forward next mb]) s
  else
    mkGPipe (gp_config s) (num_micro_batches s) (mb_completed_stage s) (ready_to_flush s ++ [mb]) (flushed s)
      (done_sequences s) (action_queue s ++ [Flush mb]) (initial_actions_generated s).

Definition is_complete (s : GPipeSchedule) : bool := size (flushed s) =? num_micro_batches s.

Definition next_action (s : GPipeSchedule) : GPipeSchedule * ScheduleAction :=
  let s := if initial_actions_generated s then s else generate_initial_actions s in
  match action_queue s with
  | a :: q => (with_queue q s, a)
  | [] => (s, if is_complete s then Done else Idle)
  end.

Definition notify_forward_complete (stage mb : nat) (s : GPipeSchedule) : GPipeSchedule :=
  if (num_stages (gp_config s) <=? stage) || (num_micro_batches s <=? mb) then s
  else
    schedule_next_forward stage mb
      (mkGPipe (gp_config s) (num_micro_batches s) (<[mb := Some stage]> (mb_completed_stage s)) (ready_to_flush s)
         (flushed s) (done_sequences s) (action_queue s) (initial_actions_generated s)).

Definition notify_flush_complete (mb : nat) (s : GPipeSchedule) : GPipeSchedule :=
  if num_micro_batches s <=? mb then s
  else
    mkGPipe (gp_config s) (num_micro_batches s) (mb_completed_stage s) (filter (λ i, i ≠ mb) (ready_to_flush s))
      ({[mb]} ∪ flushed s) (done_sequences s) (action_queue s) (initial_actions_generated s).

Definition mark_sequence_done (mb : nat) (s : GPipeSchedule) : GPipeSchedule :=
  mkGPipe (gp_config s) (num_micro_batches s) (mb_completed_stage s) (ready_to_flush s) (flushed s)
    ({[mb]} ∪ done_sequences s) (action_queue s) (initial_actions_generated s).

Definition in_flight (s : GPipeSchedule) : nat :=
  length (filter is_Some (mb_completed_stage s)) - size (flushed s).

(** [batch_size.div_ceil(micro_batch_size) as u32] *)
Definition create_gpipe_schedule (c : PipelineConfig) (batch : nat) : outcome ScheduleError GPipeSchedule :=
  _ ← ensure (0 < batch) BatchSizeZero;
  new_gpipe c (N.to_nat (as_u32 (N.of_nat (div_ceil batch (micro_batch_size c))))).

(** ** Micro-batches tile the batch *)

Lemma split_from_lookup batch mbs start id left i b :
  start ≤ batch → split_from batch mbs start id left !! i = Some b →
  mb_id b = id + i ∧ start_index b = Nat.min (start + i * mbs) batch ∧
  end_index b = Nat.min (start + (i + 1) * mbs) batch ∧ mb_size b = end_index b - start_index b.
Proof.
  revert start id i. induction left as [|left IH]; intros start id [|i] Hs; simpl; try done.
  - intros [= <-]. simpl. lia.
  - intros Hb. apply IH in Hb as (-> & -> & -> & ->); [|lia]. split_and!; lia.
Qed.

Lemma length_split_from batch mbs start id left : length (split_from batch mbs start id left) = left.
Proof. revert start id. induction left; intros; simpl; auto. Qed.

(** The micro-batches are non-empty, of the requested size but the last, and tile the batch. *)
Lemma split_micro_batches_tile batch mbs l :
  split_into_micro_batches batch mbs = Ok l →
  length l = div_ceil batch mbs ∧
  ∀ i b, l !! i = Some b →
    mb_id b = i ∧ start_index b = i * mbs ∧ end_index b = Nat.min ((i + 1) * mbs) batch ∧
    mb_size b = end_index b - start_index b ∧ 0 < mb_size b.
Proof.
  unfold split_into_micro_batches. rewrite !ensure_bind. intros (Hb & Hm & [= <-]). split; [apply length_split_from|].
  intros i b Hi. pose proof (lookup_lt_Some _ _ _ Hi) as Hlt. rewrite length_split_from in Hlt.
  pose proof (div_ceil_spec batch mbs Hm).
  apply split_from_lookup in Hi as (-> & Hs & He & Hz); [|lia]. rewrite Hz, Hs, He. split_and!; nia.
Qed.
