(* ===== verification/PipeWorkers.v ===== *)
(** * The in-process stage workers

    [distributed/pipeline/stage_worker.rs] with the channels of
    [activation_transfer.rs]: one worker per stage with its caches, inbox and
    completed outputs, bounded links between neighbours in both directions, and the
    loop that runs a GPipe schedule over them. Worker [i] sends forward on link [i]
    and backward on link [i - 1]; the links are shared state. The stage executors
    and the tensor codec are interfaces: [StageExecutor] is the trait of
    [stage_executor/mod.rs], whose backends are model code, and [ActivationCodec] is
    implemented in [PipeWire]. Messages carry no timestamps, which only measure
    latency. *)

From S2P Require Import Prelude PipeSchedule.

Inductive StageInput (T : Type) := TokenIds (t : T) | HiddenIn (t : T).
Inductive StageOutput (T : Type) := HiddenStates (t : T) | Logits (t : T).
Arguments TokenIds {_} _.
Arguments HiddenIn {_} _.
Arguments HiddenStates {_} _.
Arguments Logits {_} _.

(** Executors by stage; [execute] updates the caches it is given also when it fails. *)
Class StageExecutor (T Caches : Type) := {
  make_caches : nat → Caches;
  execute : nat → StageInput T → Caches → option T → Caches * option (StageOutput T);
}.

Class ActivationCodec (T : Type) := {
  serialize_mlx_array : T → option (list N);
  deserialize_wire_tensor : list N → option T;
  sequence_length : T → option N;
}.

Record ActivationMessage := mkMsg {
  msg_request_id : string;
  micro_batch_id : nat;
  msg_stage_index : nat;
  msg_num_stages : nat;
  tensor_data : list N;
  attention_mask : option (list N);
  position_ids : option (list N);
  is_reverse_path : bool;
  seq_len : N;
}.

Definition forward_message (rid : string) (mb stage stages : nat) (data : list N) (mask pos : option (list N)) (len : N) :
    ActivationMessage := mkMsg rid mb stage stages data mask pos false len.
Definition reverse_message (rid : string) (mb stage stages : nat) (data : list N) (len : N) : ActivationMessage :=
  mkMsg rid mb stage stages data None None true len.

Inductive LoopError :=
  | NoForwardLink (stage : nat) | NothingPending (stage mb : nat) | WrongDirection (stage : nat)
  | WrongMicroBatch (stage found expected : nat) | BadTensor (stage : nat)
  | MissingInput (mb : nat) | MissingActivation (stage mb : nat) | ExecutorFailed (stage : nat)
  | NoDownstream (stage : nat) | BadShape (stage : nat) | Unserializable (stage : nat)
  | ChannelFull (link : nat) | NoCompleted (stage mb : nat) | NoReverseLink (stage : nat) | NoEntryOutput (mb : nat)
  | NoInputs | StageMismatch (stages executors : nat) | OutputCount (outputs inputs : nat).

Section workers.
Context {T Caches : Type} `{!StageExecutor T Caches, !ActivationCodec T}.

Record PipelineWorkerInput := mkInput { in_request_id : string; input_ids : T; in_mask : option T }.
Record PipelineWorkerOutput := mkOutput { out_request_id : string; logits : T }.
Record ForwardInboxEntry := mkInbox { inbox_request_id : string; hidden_states : T; inbox_mask : option T }.

Record PipelineStageWorker := mkWorker {
  caches_by_request : gmap string Caches;
  forward_inbox : gmap nat ForwardInboxEntry;
  completed_last_stage : gmap nat ActivationMessage;
  completed_entry_stage : gmap nat PipelineWorkerOutput;
}.

Record InProcessStageWorkerLoop := mkLoop {
  config : PipelineConfig;
  capacity : nat;
  workers : list PipelineStageWorker;
  forward_links : list (list ActivationMessage);
  reverse_links : list (list ActivationMessage);
}.

Abbreviation W := (M InProcessStageWorkerLoop LoopError) (only parsing).

Definition set_worker (i : nat) (w : PipelineStageWorker) (l : InProcessStageWorkerLoop) : InProcessStageWorkerLoop :=
  mkLoop (config l) (capacity l) (<[i := w]> (workers l)) (forward_links l) (reverse_links l).
Definition set_forward (j : nat) (q : list ActivationMessage) (l : InProcessStageWorkerLoop) : InProcessStageWorkerLoop :=
  mkLoop (config l) (capacity l) (workers l) (<[j := q]> (forward_links l)) (reverse_links l).
Definition set_reverse (j : nat) (q : list ActivationMessage) (l : InProcessStageWorkerLoop) : InProcessStageWorkerLoop :=
  mkLoop (config l) (capacity l) (workers l) (forward_links l) (<[j := q]> (reverse_links l)).

Definition with_caches c (w : PipelineStageWorker) :=
  mkWorker c (forward_inbox w) (completed_last_stage w) (completed_entry_stage w).
Definition with_inbox b (w : PipelineStageWorker) :=
  mkWorker (caches_by_request w) b (completed_last_stage w) (completed_entry_stage w).
Definition with_last b (w : PipelineStageWorker) :=
  mkWorker (caches_by_request w) (forward_inbox w) b (completed_entry_stage w).
Definition with_entry b (w : PipelineStageWorker) :=
  mkWorker (caches_by_request w) (forward_inbox w) (completed_last_stage w) b.

(** ** Channels *)

(** [activation_channel]: the capacity is at least one. *)
Definition channel_capacity (configured : nat) : nat := Nat.max configured 1.

(** The links a worker holds; the first has no upstream and the last no downstream. *)
Definition upstream (i : nat) : option nat := match i with O => None | S j => Some j end.
Definition downstream (stages i : nat) : option nat := if S i =? stages then None else Some i.

Definition worker (i : nat) : W PipelineStageWorker := l ← get; index (workers l !! i).

Definition try_send_forward (j : nat) (m : ActivationMessage) : W unit :=
  l ← get;
  q ← index (forward_links l !! j);
  if length q <? capacity l then modify (set_forward j (q ++ [m])) else throw (ChannelFull j).

Definition try_send_reverse (j : nat) (m : ActivationMessage) : W unit :=
  l ← get;
  q ← index (reverse_links l !! j);
  if length q <? capacity l then modify (set_reverse j (q ++ [m])) else throw (ChannelFull j).

Definition try_recv_forward (j : nat) : W (option ActivationMessage) :=
  l ← get;
  q ← index (forward_links l !! j);
  match q with
  | [] => mret None
  | m :: q' => _ ← modify (set_forward j q'); mret (Some m)
  end.

Definition try_recv_reverse (j : nat) : W (option ActivationMessage) :=
  l ← get;
  q ← index (reverse_links l !! j);
  match q with
  | [] => mret None
  | m :: q' => _ ← modify (set_reverse j q'); mret (Some m)
  end.

(** [.map(f).transpose()?] *)
Definition transpose {A B} (f : A → option B) (o : option A) (e : LoopError) : W (option B) :=
  match o with
  | None => mret None
  | Some a => b ← ok_or (f a) e; mret (Some b)
  end.

(** ** Stage worker *)

Definition release_request (rid : string) (l : InProcessStageWorkerLoop) : InProcessStageWorkerLoop :=
  mkLoop (config l) (capacity l) ((λ w, with_caches (delete rid (caches_by_request w)) w) <$> workers l)
    (forward_links l) (reverse_links l).

Definition receive_forward (i mb : nat) : W unit :=
  j ← ok_or (upstream i) (NoForwardLink i);
  m ← try_recv_forward j;
  msg ← ok_or m (NothingPending i mb);
  _ ← guard_m (negb (is_reverse_path msg)) (WrongDirection i);
  _ ← guard_m (micro_batch_id msg =? mb) (WrongMicroBatch i (micro_batch_id msg) mb);
  hidden ← ok_or (deserialize_wire_tensor (tensor_data msg)) (BadTensor i);
  mask ← transpose deserialize_wire_tensor (attention_mask msg) (BadTensor i);
  w ← worker i;
  modify (set_worker i (with_inbox (<[mb := mkInbox (msg_request_id msg) hidden mask]> (forward_inbox w)) w)).

(** The input of a stage: the request at the entry stage, the inbox elsewhere. *)
Definition stage_input (i mb : nat) (request : option PipelineWorkerInput) :
    W (string * StageInput T * option T) :=
  if i =? 0 then
    r ← ok_or request (MissingInput mb);
    mret (in_request_id r, TokenIds (input_ids r), None)
  else
    w ← worker i;
    e ← ok_or (forward_inbox w !! mb) (MissingActivation i mb);
    _ ← modify (set_worker i (with_inbox (delete mb (forward_inbox w)) w));
    mret (inbox_request_id e, HiddenIn (hidden_states e), inbox_mask e).

Definition forward (i mb : nat) (request : option PipelineWorkerInput) : W unit :=
  '(rid, input, owned_mask) ← stage_input i mb request;
  let mask := match request with
              | Some r => match in_mask r with Some t => Some t | None => owned_mask end
              | None => owned_mask
              end in
  w ← worker i;
  let caches := match caches_by_request w !! rid with Some c => c | None => make_caches i end in
  let '(caches', out) := execute i input caches mask in
  _ ← modify (set_worker i (with_caches (<[rid := caches']> (caches_by_request w)) w));
  output ← ok_or out (ExecutorFailed i);
  l ← get;
  let stages := num_stages (config l) in
  match output with
  | HiddenStates t =>
    j ← ok_or (downstream stages i) (NoDownstream i);
    len ← ok_or (sequence_length t) (BadShape i);
    data ← ok_or (serialize_mlx_array t) (Unserializable i);
    m ← transpose serialize_mlx_array mask (Unserializable i);
    try_send_forward j (forward_message rid mb i stages data m None len)
  | Logits t =>
    len ← ok_or (sequence_length t) (BadShape i);
    data ← ok_or (serialize_mlx_array t) (Unserializable i);
    w ← worker i;
    modify (set_worker i (with_last (<[mb := reverse_message rid mb i stages data len]> (completed_last_stage w)) w))
  end.

Definition begin_reverse_flush (i mb : nat) : W unit :=
  w ← worker i;
  msg ← ok_or (completed_last_stage w !! mb) (NoCompleted i mb);
  _ ← modify (set_worker i (with_last (delete mb (completed_last_stage w)) w));
  j ← ok_or (upstream i) (NoReverseLink i);
  try_send_reverse j msg.

Definition relay_reverse (i mb : nat) : W unit :=
  l ← get;
  j ← ok_or (downstream (num_stages (config l)) i) (NoReverseLink i);
  m ← try_recv_reverse j;
  msg ← ok_or m (NothingPending i mb);
  _ ← guard_m (is_reverse_path msg) (WrongDirection i);
  _ ← guard_m (micro_batch_id msg =? mb) (WrongMicroBatch i (micro_batch_id msg) mb);
  match upstream i with
  | Some j' => try_send_reverse j' msg
  | None =>
    t ← ok_or (deserialize_wire_tensor (tensor_data msg)) (BadTensor i);
    w ← worker i;
    modify (set_worker i (with_entry (<[mb := mkOutput (msg_request_id msg) t]> (completed_entry_stage w)) w))
  end.

Definition take_completed_entry_output (mb : nat) : W PipelineWorkerOutput :=
  w ← worker 0;
  o ← ok_or (completed_entry_stage w !! mb) (NoEntryOutput mb);
  _ ← modify (set_worker 0 (with_entry (delete mb (completed_entry_stage w)) w));
  mret o.

(** ** The loop *)

(** [config.num_stages] executors, joined by [num_stages - 1] links each way. *)
Definition new_loop (c : PipelineConfig) (executors configured_capacity : nat) : outcome LoopError InProcessStageWorkerLoop :=
  _ ← ensure (num_stages c = executors) (StageMismatch (num_stages c) executors);
  Ok (mkLoop c (channel_capacity configured_capacity) (replicate executors (mkWorker ∅ ∅ ∅ ∅))
        (replicate (executors - 1) []) (replicate (executors - 1) [])).

(** [for stage_index in (0..last_stage).rev()] *)
Fixpoint relay_all (stages mb : nat) : W unit :=
  match stages with
  | O => mret tt
  | S i => _ ← relay_reverse i mb; relay_all i mb
  end.

Definition flush (mb : nat) : W PipelineWorkerOutput :=
  l ← get;
  let last_stage := length (workers l) - 1 in
  _ ← begin_reverse_flush last_stage mb;
  _ ← relay_all last_stage mb;
  take_completed_entry_output mb.

(** What one action does to the workers, and the output it yields. *)
Definition perform (inputs : list PipelineWorkerInput) (a : ScheduleAction) : W (list PipelineWorkerOutput) :=
  match a with
  | Forward i mb =>
    _ ← (if i =? 0 then r ← ok_or (inputs !! mb) (MissingInput mb); forward i mb (Some r) else forward i mb None);
    mret []
  | Receive i mb => _ ← receive_forward i mb; mret []
  | Flush mb => o ← flush mb; mret [o]
  | Idle | Done => mret []
  end.

Definition notify (a : ScheduleAction) (s : GPipeSchedule) : GPipeSchedule :=
  match a with
  | Forward i mb => notify_forward_complete i mb s
  | Flush mb => notify_flush_complete mb s
  | _ => s
  end.

(** [loop { match schedule.next_action() ... }]; [None] when the fuel runs out. An idle schedule
    is asked again. *)
Fixpoint run_loop (fuel : nat) (inputs : list PipelineWorkerInput) (s : GPipeSchedule)
    (outputs : list PipelineWorkerOutput) (l : InProcessStageWorkerLoop) :
    option (InProcessStageWorkerLoop * outcome LoopError (list PipelineWorkerOutput)) :=
  match fuel with
  | O => None
  | S fuel' =>
    let '(s, a) := next_action s in
    match a with
    | Done => Some (l, Ok outputs)
    | _ =>
      match perform inputs a l with
      | (l', Ok out) => run_loop fuel' inputs (notify a s) (outputs ++ out) l'
      | (l', Err e) => Some (l', Err e)
      | (l', Panic) => Some (l', Panic)
      end
    end
  end.

(** Two actions per stage and micro-batch and the final [Done]. *)
Definition run_fuel (stages n : nat) : nat := S (2 * stages * n).

Definition run_to_completion (inputs : list PipelineWorkerInput) (l : InProcessStageWorkerLoop) :
    option (InProcessStageWorkerLoop * outcome LoopError (list PipelineWorkerOutput)) :=
  if bool_decide (inputs = []) then Some (l, Err NoInputs)
  else match new_gpipe (config l) (length inputs) with
  | Ok s =>
    r ← run_loop (run_fuel (num_stages (config l)) (length inputs)) inputs s [] l;
    match r with
    | (l', Ok outputs) =>
      if length outputs =? length inputs then Some (l', Ok outputs)
      else Some (l', Err (OutputCount (length outputs) (length inputs)))
    | _ => Some r
    end
  | Err _ => Some (l, Err NoInputs)
  | Panic => Some (l, Panic)
  end.

End workers.
Arguments PipelineWorkerInput : clear implicits.
Arguments PipelineWorkerOutput : clear implicits.
Arguments ForwardInboxEntry : clear implicits.
Arguments PipelineStageWorker : clear implicits.
Arguments InProcessStageWorkerLoop : clear implicits.
