(* ===== verification/PipeStages.v ===== *)
(** * The actions of a step and one stage of a pipeline

    First the sequence of actions the schedule emits, then the reference semantics of a
    step and what the worker of one stage does with its round. *)

From S2P Require Import Prelude PipeSchedule PipeWorkers.

(** * What the schedule emits

    The actions of a GPipe step do not depend on what the workers compute: the
    queue is served in order, so the step is stage by stage, every micro-batch
    through a stage before any enters the next, then every flush. The loop over
    the schedule runs this sequence, stops at the first error, and always ends. *)

(** ** The action sequence *)

(** What the completion of an action appends to the queue. *)
Definition successors (stages : nat) (a : ScheduleAction) : list ScheduleAction :=
  match a with
  | Forward i mb => if S i <? stages then [Receive (S i) mb; Forward (S i) mb] else [Flush mb]
  | _ => []
  end.

Definition round (n i : nat) : list ScheduleAction :=
  match i with
  | O => Forward 0 <$> seq 0 n
  | S _ => mbs ← seq 0 n; [Receive i mbs; Forward i mbs]
  end.

Definition gpipe_trace (stages n : nat) : list ScheduleAction :=
  mjoin (round n <$> seq 0 stages) ++ (Flush <$> seq 0 n).

(** A queue served in order. *)
Fixpoint serve (stages fuel : nat) (q : list ScheduleAction) : list ScheduleAction :=
  match fuel, q with
  | S fuel', a :: q' => a :: serve stages fuel' (q' ++ successors stages a)
  | _, _ => []
  end.

Lemma serve_app stages p : ∀ fuel q,
  length p ≤ fuel →
  serve stages fuel (p ++ q) = p ++ serve stages (fuel - length p) (q ++ (p ≫= successors stages)).
Proof.
  induction p as [|a p IH]; intros fuel q Hf; simpl; [by rewrite app_nil_r, Nat.sub_0_r|].
  destruct fuel as [|fuel]; simpl in *; [lia|]. rewrite <-app_assoc, IH by lia. by rewrite <-app_assoc.
Qed.

Lemma round_successors stages n i :
  round n i ≫= successors stages = if S i <? stages then round n (S i) else Flush <$> seq 0 n.
Proof.
  destruct i as [|i]; unfold round; generalize (seq 0 n); intros l; induction l as [|mb l IH]; csimpl in *;
    try rewrite IH; by destruct (_ <? _).
Qed.

Lemma flushes_successors stages l : (Flush <$> l) ≫= successors stages = [].
Proof. by induction l. Qed.

Lemma length_round n i : length (round n i) = (if i =? 0 then 1 else 2) * n.
Proof.
  destruct i as [|i]; unfold round; [rewrite length_fmap, length_seq; simpl; lia|].
  assert (∀ l : list nat, length (mbs ← l; [Receive (S i) mbs; Forward (S i) mbs]) = 2 * length l) as ->.
  { induction l; csimpl; lia. }
  rewrite length_seq. done.
Qed.

Lemma serve_rounds stages n : ∀ k i fuel,
  i + S k = stages → length (round n i) + 2 * k * n + n ≤ fuel →
  serve stages fuel (round n i) = mjoin (round n <$> seq i (S k)) ++ (Flush <$> seq 0 n).
Proof.
  induction k as [|k IH]; intros i fuel Hk Hf.
  - rewrite <-(app_nil_r (round n i)) at 1. 
    rewrite serve_app, round_successors by lia. rewrite (proj2 (Nat.ltb_ge _ _)) by lia. cbn [app seq fmap list_fmap mjoin list_join].
    rewrite app_nil_r. f_equal. rewrite <-(app_nil_r (Flush <$> _)) at 1.
    rewrite serve_app, flushes_successors by (rewrite length_fmap, length_seq; lia).
    simpl. destruct (_ - _); simpl; by rewrite app_nil_r.
  - rewrite <-(app_nil_r (round n i)) at 1. pose proof (length_round n (S i)).
    rewrite serve_app, round_successors by lia. rewrite (proj2 (Nat.ltb_lt _ _)) by lia. rewrite app_nil_l.
    rewrite (IH (S i)) by (simpl in *; lia). change (seq i (S (S k))) with (i :: seq (S i) (S k)). rewrite fmap_cons. simpl. by rewrite app_assoc.
Qed.

(** ** The schedule serves its queue *)

Definition in_step (stages n : nat) (a : ScheduleAction) : Prop :=
  match a with
  | Forward i mb => i < stages ∧ mb < n
  | Receive _ _ => True
  | Flush mb => mb < n
  | Idle | Done => False
  end.

(** The work an action still stands for. *)
Definition weight (stages : nat) (a : ScheduleAction) : nat :=
  match a with Forward i _ => 2 * (stages - i) | _ => 1 end.
Definition queue_weight (stages : nat) (q : list ScheduleAction) : nat := sum_list (weight stages <$> q).

(** Every micro-batch is flushed or has its next step queued. *)
Record sched_inv (s : GPipeSchedule) : Prop := {
  si_started : initial_actions_generated s = true;
  si_queue : Forall (in_step (num_stages (gp_config s)) (num_micro_batches s)) (action_queue s);
  si_flushed : ∀ mb, mb ∈ flushed s → mb < num_micro_batches s;
  si_pending : ∀ mb, mb < num_micro_batches s →
    mb ∈ flushed s ∨ Flush mb ∈ action_queue s ∨ ∃ i, Forward i mb ∈ action_queue s;
}.

Lemma inv_done s : sched_inv s → action_queue s = [] → is_complete s = true.
Proof.
  intros [Hi _ Hf Hp] Hq. unfold is_complete. apply Nat.eqb_eq.
  assert (flushed s = list_to_set (seq 0 (num_micro_batches s))) as ->.
  { apply set_eq. intros mb. rewrite elem_of_list_to_set, elem_of_seq. split; [intros ?%Hf; lia|].
    intros Hmb. destruct (Hp mb) as [|[H|[i H]]]; [lia|done|..]; rewrite Hq in H; by apply not_elem_of_nil in H. }
  rewrite size_list_to_set by apply NoDup_seq. apply length_seq.
Qed.

Lemma notify_queue a s q :
  sched_inv s → action_queue s = a :: q →
  let s' := notify a (with_queue q s) in
  sched_inv s' ∧ action_queue s' = q ++ successors (num_stages (gp_config s)) a ∧
  gp_config s' = gp_config s ∧ num_micro_batches s' = num_micro_batches s.
Proof.
  intros [Hi Hq Hf Hp] Ha. rewrite Ha in Hq. apply Forall_cons in Hq as [Hin Hq].
  assert (∀ mb, mb < num_micro_batches s → mb ∈ flushed s ∨ (a = Flush mb ∨ Flush mb ∈ q) ∨ ∃ i, a = Forward i mb ∨ Forward i mb ∈ q) as Hp'.
  { intros mb Hmb. specialize (Hp mb Hmb). rewrite Ha in Hp. setoid_rewrite elem_of_cons in Hp. naive_solver. }
  clear Hp. destruct a as [i mb|i mb|mb| |]; [..|done|done]; cbn [notify successors].
  - destruct Hin as [Hst Hmb]. unfold notify_forward_complete. cbn [gp_config num_micro_batches with_queue].
    rewrite (proj2 (Nat.leb_gt _ _)), (proj2 (Nat.leb_gt _ _)) by lia. cbn [orb].
    unfold schedule_next_forward. cbn [gp_config num_micro_batches]. destruct (Nat.ltb_spec (S i) (num_stages (gp_config s)));
      (split; [|done]); split; cbn; try done.
    + apply Forall_app. split; [done|]. repeat constructor; lia.
    + intros mb' Hmb'. destruct (Hp' mb' Hmb') as [?|[[?|?]|[j [[= -> ->]|?]]]]; [by left|done|right; left; set_solver| |].
      * right; right. exists (S j). set_solver.
      * right; right. exists j. set_solver.
    + apply Forall_app. split; [done|]. by repeat constructor.
    + intros mb' Hmb'. destruct (Hp' mb' Hmb') as [?|[[?|?]|[j [[= -> ->]|?]]]]; [by left|done|right; left; set_solver| |].
      * right; left. set_solver.
      * right; right. exists j. set_solver.
  - rewrite app_nil_r. split; [|done]. split; cbn; try done.
    intros mb' Hmb'. destruct (Hp' mb' Hmb') as [?|[[?|?]|[j [?|?]]]]; [by left|done|by right; left|done|by right; right; exists j].
  - rewrite app_nil_r. unfold notify_flush_complete. cbn [num_micro_batches with_queue].
    rewrite (proj2 (Nat.leb_gt _ _)) by done. split; [|done]. split; cbn; try done; [set_solver|].
    intros mb' Hmb'. destruct (Hp' mb' Hmb') as [?|[[[= ->]|?]|[j [?|?]]]];
      [left; set_solver|left; set_solver|by right; left|done|by right; right; exists j].
Qed.

Lemma weight_successors stages n a : in_step stages n a → weight stages a = S (queue_weight stages (successors stages a)).
Proof.
  unfold queue_weight. destruct a as [i mb|i mb|mb| |]; simpl; try done. intros [Hi _].
  destruct (Nat.ltb_spec (S i) stages); simpl; lia.
Qed.

Lemma queue_weight_app stages q1 q2 : queue_weight stages (q1 ++ q2) = queue_weight stages q1 + queue_weight stages q2.
Proof. unfold queue_weight. by rewrite fmap_app, sum_list_with_app. Qed.

(** ** The loop runs the sequence *)

Section run.
Context {T Caches : Type} `{!StageExecutor T Caches, !ActivationCodec T}.
Abbreviation Loop := (InProcessStageWorkerLoop T Caches).
Abbreviation Input := (PipelineWorkerInput T).
Abbreviation Output := (PipelineWorkerOutput T).

(** Actions one after the other, up to the first that fails. *)
Fixpoint exec (inputs : list Input) (acts : list ScheduleAction) (outs : list Output) (l : Loop) :
    Loop * outcome LoopError (list Output) :=
  match acts with
  | [] => (l, Ok outs)
  | a :: acts' =>
    match perform inputs a l with
    | (l', Ok out) => exec inputs acts' (outs ++ out) l'
    | (l', Err e) => (l', Err e)
    | (l', Panic) => (l', Panic)
    end
  end.

Lemma exec_app inputs a1 a2 outs (l : Loop) :
  exec inputs (a1 ++ a2) outs l =
    match exec inputs a1 outs l with (l', Ok outs') => exec inputs a2 outs' l' | r => r end.
Proof.
  revert outs l. induction a1 as [|a a1 IH]; intros outs l; simpl; [done|].
  destruct (perform inputs a l) as [l' [o| |]]; [apply IH|done..].
Qed.

Lemma run_loop_serve inputs fuel : ∀ s outs (l : Loop),
  sched_inv s → queue_weight (num_stages (gp_config s)) (action_queue s) < fuel →
  run_loop fuel inputs s outs l = Some (exec inputs (serve (num_stages (gp_config s)) fuel (action_queue s)) outs l).
Proof.
  induction fuel as [|fuel IH]; intros s outs l Hs Hw; [lia|]. cbn [run_loop]. unfold next_action.
  rewrite (si_started s Hs). destruct (action_queue s) as [|a q] eqn:Hq.
  { by rewrite (inv_done s Hs Hq). }
  destruct (notify_queue a s q Hs Hq) as (Hs' & Hq' & Hc & Hn). pose proof (si_queue s Hs) as Hin.
  rewrite Hq in Hin. apply Forall_cons in Hin as [Hin _].
  assert (a ≠ Done) as Hnd by (by intros ->). cbn [serve exec].
  assert (∀ R (x y : R), match a with Done => x | _ => y end = y) as -> by (intros; by destruct a).
  destruct (perform inputs a l) as [l' [out| |]]; [|done..].
  rewrite IH, Hq', Hc; [done|done|].
  rewrite Hq', Hc. rewrite queue_weight_app.
  change (queue_weight _ (a :: q)) with (weight (num_stages (gp_config s)) a + queue_weight (num_stages (gp_config s)) q) in Hw.
  rewrite (weight_successors _ _ _ Hin) in Hw. lia.
Qed.

Lemma initial_weight stages n : queue_weight stages (Forward 0 <$> seq 0 n) = 2 * stages * n.
Proof.
  unfold queue_weight. rewrite <-list_fmap_compose. generalize 0 at 2. induction n as [|n IH]; intros k; csimpl; [lia|].
  rewrite IH. simpl. lia.
Qed.

(** One step of the pipeline is the GPipe sequence over its inputs. *)
Lemma run_to_completion_trace inputs (l : Loop) :
  1 ≤ num_stages (config l) → inputs ≠ [] →
  run_to_completion inputs l =
    Some (match exec inputs (gpipe_trace (num_stages (config l)) (length inputs)) [] l with
          | (l', Ok outs) => (l', if length outs =? length inputs then Ok outs else Err (OutputCount (length outs) (length inputs)))
          | r => r
          end).
Proof.
  intros Hst Hne. unfold run_to_completion. rewrite bool_decide_eq_false_2 by done.
  unfold new_gpipe, ensure. rewrite decide_True by (destruct inputs; [done|simpl; lia]). cbn [mbind outcome_bind].
  set (n := length inputs) in *. set (stages := num_stages (config l)) in *. unfold run_fuel.
  set (s0 := mkGPipe (config l) n (replicate n None) [] ∅ ∅ [] false).
  assert (∀ fuel outs, run_loop (S fuel) inputs s0 outs l = run_loop (S fuel) inputs (generate_initial_actions s0) outs l) as ->
    by done.
  rewrite run_loop_serve.
  - cbn [mbind option_bind generate_initial_actions action_queue gp_config s0 num_micro_batches app].
    fold stages. change (Forward 0 <$> seq 0 n) with (round n 0).
    rewrite (serve_rounds stages n (stages - 1) 0); [|lia|rewrite length_round; simpl; nia].
    replace (S (stages - 1)) with stages by lia. fold (gpipe_trace stages n).
    destruct (exec _ _ _ _) as [l' [outs| |]]; [|done..]. by destruct (_ =? _).
  - split; cbn; [done| |set_solver|].
    + apply Forall_fmap, Forall_forall. intros mb. rewrite elem_of_seq. cbn. lia.
    + intros mb Hmb. right; right. exists 0. apply list_elem_of_fmap_2, elem_of_seq. lia.
  - cbn [generate_initial_actions action_queue gp_config s0 num_micro_batches app]. fold stages. rewrite initial_weight. lia.
Qed.

End run.

(** * One stage of a pipeline step

    A reference semantics without schedule or channels (each request through the
    stages, caches threaded in the order of requests), its decomposition stage by
    stage, and what the worker of one stage does with a round of the schedule. *)

Section stages.
Context {T Caches : Type} `{!StageExecutor T Caches, !ActivationCodec T}.
Abbreviation Loop := (InProcessStageWorkerLoop T Caches).
Abbreviation Input := (PipelineWorkerInput T).
Abbreviation Output := (PipelineWorkerOutput T).
Abbreviation Worker := (PipelineStageWorker T Caches).
Abbreviation cmap := (gmap string Caches).

(** ** Reference semantics *)

(** A request at a stage: identifier, input and attention mask. *)
Definition item : Type := string * StageInput T * option T.

Definition stage_step (i : nat) (cs : cmap) (x : item) : option (cmap * StageOutput T) :=
  let '(rid, inp, mask) := x in
  let '(c', out) := execute i inp (match cs !! rid with Some c => c | None => make_caches i end) mask in
  o ← out; Some (<[rid := c']> cs, o).

(** One request through the stages from [i] on: hidden states up to the last, which gives logits. *)
Fixpoint through (i : nat) (css : list cmap) (x : item) : option (list cmap * T) :=
  match css with
  | [] => None
  | cs :: rest =>
    '(cs', o) ← stage_step i cs x;
    match o, rest with
    | Logits t, [] => Some ([cs'], t)
    | HiddenStates h, _ :: _ =>
      '(rest', t) ← through (S i) rest (x.1.1, HiddenIn h, x.2); Some (cs' :: rest', t)
    | _, _ => None
    end
  end.

Fixpoint seq_from (i : nat) (css : list cmap) (xs : list item) : option (list cmap * list T) :=
  match xs with
  | [] => Some (css, [])
  | x :: xs' =>
    '(css1, t) ← through i css x;
    '(css2, ts) ← seq_from i css1 xs';
    Some (css2, t :: ts)
  end.

Definition entry_item (r : Input) : item := (in_request_id r, TokenIds (input_ids r), in_mask r).

(** The requests one after the other, each through the whole model. *)
Definition sequential (css : list cmap) (inputs : list Input) : option (list cmap * list Output) :=
  '(css', ts) ← seq_from 0 css (entry_item <$> inputs);
  Some (css', zip_with (λ r t, mkOutput (in_request_id r) t) inputs ts).

(** ** Stage by stage *)

Fixpoint stage_pass (i : nat) (cs : cmap) (xs : list item) : option (cmap * list (StageOutput T)) :=
  match xs with
  | [] => Some (cs, [])
  | x :: xs' =>
    '(cs1, o) ← stage_step i cs x;
    '(cs2, os) ← stage_pass i cs1 xs';
    Some (cs2, o :: os)
  end.

Definition next_items (xs : list item) (hs : list T) : list item :=
  zip_with (λ x h, (x.1.1, HiddenIn h, x.2)) xs hs.

Lemma through_inv i cs cs2 rest x css' t :
  through i (cs :: cs2 :: rest) x = Some (css', t) →
  ∃ cs' h rest', css' = cs' :: rest' ∧ stage_step i cs x = Some (cs', HiddenStates h) ∧
    through (S i) (cs2 :: rest) (x.1.1, HiddenIn h, x.2) = Some (rest', t).
Proof.
  cbn [through]. intros ([cs' o] & Hs & Ho)%bind_Some. destruct o as [h|]; [|done].
  apply bind_Some in Ho as ([rest' t'] & Ht & [= <- <-]). eauto 10.
Qed.

Lemma through_length i css x css' t : through i css x = Some (css', t) → length css' = length css.
Proof.
  revert i x css' t. induction css as [|cs rest IH]; intros i x css' t; [done|]. cbn [through].
  intros ([cs' o] & Hs & Ho)%bind_Some. destruct o as [h|t'], rest as [|cs2 rest]; try done.
  - apply bind_Some in Ho as ([rest' t'] & Ht & [= <- <-]). simpl. f_equal. by eapply IH.
  - by injection Ho as <- <-.
Qed.

Lemma seq_from_stage i cs cs2 rest xs css' ts :
  seq_from i (cs :: cs2 :: rest) xs = Some (css', ts) →
  ∃ cs' hs rest', css' = cs' :: rest' ∧ length hs = length xs ∧
    stage_pass i cs xs = Some (cs', HiddenStates <$> hs) ∧
    seq_from (S i) (cs2 :: rest) (next_items xs hs) = Some (rest', ts).
Proof.
  revert cs cs2 rest css' ts. induction xs as [|x xs IH]; intros cs cs2 rest css' ts; cbn [seq_from].
  { intros [= <- <-]. exists cs, [], (cs2 :: rest). done. }
  intros ([css1 t] & Ht & Hr)%bind_Some. apply bind_Some in Hr as ([css2 ts'] & Hs & [= <- <-]).
  pose proof (through_length _ _ _ _ _ Ht) as Hl. apply through_inv in Ht as (cs1 & h & rest1 & -> & Hstep & Hth).
  destruct rest1 as [|cs21 rest1]; [simpl in Hl; lia|].
  apply IH in Hs as (cs' & hs & rest' & -> & Hlen & Hp & Hs).
  exists cs', (h :: hs), rest'. split_and!; [done|simpl; lia| |].
  - cbn [stage_pass]. rewrite Hstep. cbn [mbind option_bind]. by rewrite Hp.
  - change (next_items (x :: xs) (h :: hs)) with ((x.1.1, HiddenIn h, x.2) :: next_items xs hs).
    cbn [seq_from]. rewrite Hth. cbn [mbind option_bind]. by rewrite Hs.
Qed.

Lemma seq_from_last i cs xs css' ts :
  seq_from i [cs] xs = Some (css', ts) →
  ∃ cs', css' = [cs'] ∧ stage_pass i cs xs = Some (cs', Logits <$> ts).
Proof.
  revert cs css' ts. induction xs as [|x xs IH]; intros cs css' ts; cbn [seq_from].
  { intros [= <- <-]. by exists cs. }
  intros ([css1 t] & Ht & Hr)%bind_Some. apply bind_Some in Hr as ([css2 ts'] & Hs & [= <- <-]).
  cbn [through] in Ht. apply bind_Some in Ht as ([cs1 o] & Hstep & Ho). destruct o; [done|]. injection Ho as <- <-.
  apply IH in Hs as (cs' & -> & Hp). exists cs'. split; [done|].
  cbn [stage_pass]. rewrite Hstep. cbn [mbind option_bind]. by rewrite Hp.
Qed.

Lemma seq_from_length i css xs css' ts : seq_from i css xs = Some (css', ts) → length ts = length xs ∧ length css' = length css.
Proof.
  revert css css' ts. induction xs as [|x xs IH]; intros css css' ts; cbn [seq_from]; [by intros [= <- <-]|].
  intros ([css1 t] & Ht & Hr)%bind_Some. apply bind_Some in Hr as ([css2 ts'] & Hs & [= <- <-]).
  apply IH in Hs as [??]. apply through_length in Ht. simpl. lia.
Qed.

(** ** Messages *)

(** A tensor the codec carries unchanged. *)
Definition carried (t : T) : Prop :=
  is_Some (sequence_length t) ∧ ∃ w, serialize_mlx_array t = Some w ∧ deserialize_wire_tensor w = Some t.

Definition mask_carried (x : item) : Prop := ∀ t, x.2 = Some t → carried t.

(** A forward message holds an item of a micro-batch. *)
Definition holds (mb : nat) (x : item) (m : ActivationMessage) : Prop :=
  msg_request_id m = x.1.1 ∧ micro_batch_id m = mb ∧ is_reverse_path m = false ∧
  (∃ t, x.1.2 = HiddenIn t ∧ deserialize_wire_tensor (tensor_data m) = Some t) ∧
  match x.2, attention_mask m with
  | None, None => True
  | Some t, Some w => deserialize_wire_tensor w = Some t
  | _, _ => False
  end.

(** A link holds items of consecutive micro-batches. *)
Fixpoint link_holds (mb : nat) (xs : list item) (q : list ActivationMessage) : Prop :=
  match xs, q with
  | [], [] => True
  | x :: xs', m :: q' => holds mb x m ∧ link_holds (S mb) xs' q'
  | _, _ => False
  end.

(** The outputs of the last stage wait for their flush. *)
Definition waits (rid : string) (mb : nat) (t : T) (m : ActivationMessage) : Prop :=
  msg_request_id m = rid ∧ micro_batch_id m = mb ∧ is_reverse_path m = true ∧
  deserialize_wire_tensor (tensor_data m) = Some t.

(** ** Updates of the loop *)

Lemma set_worker_id i w (l : Loop) : workers l !! i = Some w → set_worker i w l = l.
Proof. intros Hw. unfold set_worker. rewrite list_insert_id by done. by destruct l. Qed.

Lemma set_forward_id j q (l : Loop) : forward_links l !! j = Some q → set_forward j q l = l.
Proof. intros Hq. unfold set_forward. rewrite list_insert_id by done. by destruct l. Qed.

Lemma set_worker_twice i w w' (l : Loop) : set_worker i w' (set_worker i w l) = set_worker i w' l.
Proof. unfold set_worker. simpl. by rewrite list_insert_insert_eq. Qed.

Lemma set_forward_twice j q q' (l : Loop) : set_forward j q' (set_forward j q l) = set_forward j q' l.
Proof. unfold set_forward. simpl. by rewrite list_insert_insert_eq. Qed.

Lemma set_forward_swap j k q q' (l : Loop) : j ≠ k → set_forward j q (set_forward k q' l) = set_forward k q' (set_forward j q l).
Proof. intros. unfold set_forward. simpl. by rewrite list_insert_insert_ne. Qed.

Lemma set_worker_forward i w j q (l : Loop) : set_worker i w (set_forward j q l) = set_forward j q (set_worker i w l).
Proof. done. Qed.

(** ** The worker of a stage *)

Lemma worker_eq i (w : Worker) (l : Loop) : workers l !! i = Some w → worker i l = (l, Ok w).
Proof. intros Hw. unfold worker. rewrite get_bind, Hw. done. Qed.

Lemma receive_holds i mb x m q (w : Worker) (l : Loop) :
  workers l !! S i = Some w → forward_links l !! i = Some (m :: q) → holds mb x m →
  ∃ e, receive_forward (S i) mb l = (set_worker (S i) (with_inbox (<[mb := e]> (forward_inbox w)) w) (set_forward i q l), Ok tt) ∧
    inbox_request_id e = x.1.1 ∧ HiddenIn (hidden_states e) = x.1.2 ∧ inbox_mask e = x.2.
Proof.
  intros Hw Hq (Hr & Hmb & Hd & (t & Hx & Ht) & Hm). destruct x as [[rid inp] mask]; simpl in *. subst inp.
  exists (mkInbox rid t mask). split; [|done].
  unfold receive_forward, try_recv_forward, worker, index, ok_or, guard_m, transpose, modify, get, mret, M_ret, mbind, M_bind.
  cbn [upstream]. rewrite Hq. cbn. rewrite Hd, Hmb, Nat.eqb_refl. cbn. rewrite Ht.
  destruct mask as [tm|], (attention_mask m) as [wm|]; try done; cbn; rewrite ?Hm; cbn; by rewrite Hw, Hr.
Qed.

(** The input a stage works on, once its inbox entry is taken. *)
Lemma stage_input_inbox i mb e (w : Worker) (l : Loop) :
  workers l !! S i = Some w → forward_inbox w !! mb = Some e →
  stage_input (S i) mb None l =
    (set_worker (S i) (with_inbox (delete mb (forward_inbox w)) w) l, Ok (inbox_request_id e, HiddenIn (hidden_states e), inbox_mask e)).
Proof.
  intros Hw He. unfold stage_input, worker, index, ok_or, modify, get, mret, M_ret, mbind, M_bind. cbn.
  by rewrite Hw, He.
Qed.

(** Masks are serialized when present. *)
Lemma transpose_mask mask (l : Loop) e :
  (∀ t, mask = Some t → carried t) →
  ∃ wm, transpose serialize_mlx_array mask e l = (l, Ok wm) ∧
    match mask, wm with None, None => True | Some t, Some w => deserialize_wire_tensor w = Some t | _, _ => False end.
Proof.
  intros Hm. destruct mask as [t|]; [|by exists None].
  destruct (Hm t eq_refl) as (_ & w & Hw & Hd). exists (Some w). split; [|done].
  unfold transpose, ok_or, mret, M_ret, mbind, M_bind. by rewrite Hw.
Qed.

Definition mask_of (request : option Input) (owned : option T) : option T :=
  match request with
  | Some r => match in_mask r with Some t => Some t | None => owned end
  | None => owned
  end.

Lemma forward_hidden i mb request rid inp owned (w : Worker) (l l1 : Loop) cs' h q :
  stage_input i mb request l = (l1, Ok (rid, inp, owned)) →
  workers l1 !! i = Some w →
  stage_step i (caches_by_request w) (rid, inp, mask_of request owned) = Some (cs', HiddenStates h) →
  carried h → mask_carried (rid, inp, mask_of request owned) →
  S i < num_stages (config l1) → forward_links l1 !! i = Some q →
  ∃ m, holds mb (rid, HiddenIn h, mask_of request owned) m ∧
    forward i mb request l =
      (let l2 := set_worker i (with_caches cs' w) l1 in
       if length q <? capacity l1 then (set_forward i (q ++ [m]) l2, Ok tt) else (l2, Err (ChannelFull i))).
Proof.
  intros Hin Hw Hstep ([len Hlen] & wd & Hser & Hdes) Hmask Hst Hq.
  unfold stage_step in Hstep. destruct (execute _ _ _ _) as [c' out] eqn:Hex. apply bind_Some in Hstep as (o & -> & [= <- ->]).
  set (l2 := set_worker i (with_caches (<[rid:=c']> (caches_by_request w)) w) l1).
  destruct (transpose_mask (mask_of request owned) l2 (Unserializable i)) as (wm & Htr & Hwm); [intros t Ht; by apply Hmask|].
  exists (forward_message rid mb i (num_stages (config l1)) wd wm None len). split; [done || (split_and!; try done; by exists h)|].
  unfold forward. rewrite (M_bind_eq _ _ _ _ _ Hin). fold (mask_of request owned).
  rewrite (M_bind_eq _ _ _ _ _ (worker_eq _ _ _ Hw)). cbv zeta. rewrite Hex. cbv beta iota.
  rewrite modify_bind, ok_or_bind, get_bind. fold l2. cbv zeta. change (config l2) with (config l1). unfold downstream.
  rewrite (proj2 (Nat.eqb_neq _ _)) by lia. rewrite ok_or_bind.
  rewrite ok_or_bind, Hlen, ok_or_bind, Hser, (M_bind_eq _ _ _ _ _ Htr).
  unfold try_send_forward. rewrite get_bind. change (forward_links l2) with (forward_links l1). rewrite Hq.
  rewrite (M_bind_eq (index (Some q)) _ l2 l2 q) by done. change (capacity l2) with (capacity l1). by destruct (_ <? _).
Qed.

Lemma forward_logits i mb request rid inp owned (w : Worker) (l l1 : Loop) cs' t :
  stage_input i mb request l = (l1, Ok (rid, inp, owned)) →
  workers l1 !! i = Some w →
  stage_step i (caches_by_request w) (rid, inp, mask_of request owned) = Some (cs', Logits t) →
  carried t →
  ∃ m, waits rid mb t m ∧
    forward i mb request l =
      (set_worker i (with_last (<[mb := m]> (completed_last_stage w)) (with_caches cs' w)) l1, Ok tt).
Proof.
  intros Hin Hw Hstep ([len Hlen] & wd & Hser & Hdes).
  unfold stage_step in Hstep. destruct (execute _ _ _ _) as [c' out] eqn:Hex. apply bind_Some in Hstep as (o & -> & [= <- ->]).
  exists (reverse_message rid mb i (num_stages (config l1)) wd len). split; [done|].
  unfold forward. rewrite (M_bind_eq _ _ _ _ _ Hin). fold (mask_of request owned).
  rewrite (M_bind_eq _ _ _ _ _ (worker_eq _ _ _ Hw)). cbv zeta. rewrite Hex. cbv beta iota.
  set (l2 := set_worker i (with_caches (<[rid:=c']> (caches_by_request w)) w) l1).
  rewrite modify_bind, ok_or_bind, get_bind. fold l2. cbv zeta. rewrite ok_or_bind, Hlen, ok_or_bind, Hser.
  rewrite (M_bind_eq (worker i) _ l2 l2 (with_caches (<[rid:=c']> (caches_by_request w)) w)).
  - unfold modify, l2. by rewrite set_worker_twice.
  - apply worker_eq. unfold l2. cbn. by rewrite list_lookup_insert_eq by (by eapply lookup_lt_Some).
Qed.

End stages.
