(* ===== verification/PipeRun.v ===== *)
(** * A pipeline step, round by round

    First what a round of the schedule does, then the rounds composed: a step equals the
    sequential run. *)

From S2P Require Import Prelude PipeSchedule PipeWorkers PipeStages.

(** * Rounds of a pipeline step

    What a round of the schedule does: at the entry stage, at an inner stage and at
    the last stage every micro-batch goes through in order, the caches change as in
    the stage-by-stage semantics, and the link downstream fills with the
    activations of the round; the flushes then empty the outputs of the last stage
    through the reverse links to the entry stage. *)

Section rounds.
Context {T Caches : Type} `{!StageExecutor T Caches, !ActivationCodec T}.
Abbreviation Loop := (InProcessStageWorkerLoop T Caches).
Abbreviation Input := (PipelineWorkerInput T).
Abbreviation Output := (PipelineWorkerOutput T).
Abbreviation Worker := (PipelineStageWorker T Caches).

(** What the executors return is carried by the codec. *)
Context (Hcarried : ∀ i inp c mask c' o, execute i inp c mask = (c', Some o) →
  match o with HiddenStates t | Logits t => carried t end).

Lemma step_carried i cs x cs' o : stage_step i cs x = Some (cs', o) → match o with HiddenStates t | Logits t => carried t end.
Proof using Hcarried.
  destruct x as [[rid inp] mask]. unfold stage_step. destruct (execute _ _ _ _) as [c' out] eqn:E.
  intros (o' & -> & [= _ ->])%bind_Some. by eapply Hcarried.
Qed.

(** Outputs waiting at the last stage, micro-batches from [mb] on. *)
Fixpoint all_wait (mb : nat) (xs : list (@item T)) (ts : list T) (ms : gmap nat ActivationMessage) : Prop :=
  match xs, ts with
  | [], [] => True
  | x :: xs', t :: ts' => (∃ m, ms !! mb = Some m ∧ waits x.1.1 mb t m) ∧ all_wait (S mb) xs' ts' ms
  | _, _ => False
  end.

(** ** One micro-batch at one stage *)

Lemma entry_hidden inputs mb (r : Input) outs (w : Worker) (l : Loop) cs' h q :
  inputs !! mb = Some r → workers l !! 0 = Some w →
  stage_step 0 (caches_by_request w) (entry_item r) = Some (cs', HiddenStates h) →
  mask_carried (entry_item r) → 1 < num_stages (config l) → forward_links l !! 0 = Some q →
  ∃ m, holds mb ((entry_item r).1.1, HiddenIn h, (entry_item r).2) m ∧
    exec inputs [Forward 0 mb] outs l =
      (let l2 := set_worker 0 (with_caches cs' w) l in
       if length q <? capacity l then (set_forward 0 (q ++ [m]) l2, Ok outs) else (l2, Err (ChannelFull 0))).
Proof using Hcarried.
  intros Hr Hw Hstep Hmask Hst Hq.
  assert (mask_of (Some r) None = in_mask r) as Hmk by (simpl; by destruct (in_mask r)).
  destruct (forward_hidden 0 mb (Some r) (in_request_id r) (TokenIds (input_ids r)) None w l l cs' h q) as (m & Hm & Hf);
    [done|done|by rewrite Hmk|by apply (step_carried _ _ _ _ _ Hstep)|by rewrite Hmk|lia|done|].
  rewrite Hmk in Hm. exists m. split; [done|]. cbn [exec perform]. rewrite Nat.eqb_refl, Hr.
  assert ((r0 ← ok_or (Some r) (MissingInput mb); forward 0 mb (Some r0)) l = forward 0 mb (Some r) l) as E by done.
  cbv zeta. unfold mbind at 1, M_bind at 1. rewrite E, Hf. cbv zeta.
  destruct (_ <? _); [|done]. cbn. by rewrite app_nil_r.
Qed.

Lemma inner_receive inputs i mb x m q outs acts (w : Worker) (l : Loop) :
  workers l !! S i = Some w → forward_links l !! i = Some (m :: q) → holds mb x m →
  ∃ e, inbox_request_id e = x.1.1 ∧ HiddenIn (hidden_states e) = x.1.2 ∧ inbox_mask e = x.2 ∧
    exec inputs (Receive (S i) mb :: acts) outs l =
    exec inputs acts outs (set_worker (S i) (with_inbox (<[mb := e]> (forward_inbox w)) w) (set_forward i q l)).
Proof using.
  intros Hw Hq Hh. destruct (receive_holds i mb x m q w l Hw Hq Hh) as (e & He & H1 & H2 & H3).
  exists e. split_and!; [done..|]. cbn [exec perform]. unfold mbind at 1, M_bind at 1. rewrite He. cbn. by rewrite app_nil_r.
Qed.

(** The stage input after a receive, and the worker it leaves. *)
Lemma received_input i mb e (w : Worker) (l : Loop) :
  workers l !! S i = Some w →
  let l1 := set_worker (S i) (with_inbox (<[mb := e]> (forward_inbox w)) w) l in
  let w2 := with_inbox (delete mb (<[mb := e]> (forward_inbox w))) w in
  stage_input (S i) mb None l1 = (set_worker (S i) w2 l, Ok (inbox_request_id e, HiddenIn (hidden_states e), inbox_mask e)).
Proof using.
  intros Hw l1 w2. rewrite (stage_input_inbox i mb e (with_inbox (<[mb := e]> (forward_inbox w)) w)).
  - unfold l1. by rewrite set_worker_twice.
  - unfold l1. cbn. by rewrite list_lookup_insert_eq by (by eapply lookup_lt_Some).
  - cbn. by rewrite lookup_insert_eq.
Qed.

Lemma inner_hidden inputs i mb x m q outs (w : Worker) (l : Loop) cs' h q2 :
  workers l !! S i = Some w → forward_links l !! i = Some (m :: q) → holds mb x m →
  stage_step (S i) (caches_by_request w) x = Some (cs', HiddenStates h) → mask_carried x →
  S (S i) < num_stages (config l) → forward_links l !! S i = Some q2 → length q2 < capacity l →
  ∃ m' w', holds mb (x.1.1, HiddenIn h, x.2) m' ∧ caches_by_request w' = cs' ∧
    exec inputs [Receive (S i) mb; Forward (S i) mb] outs l =
      (set_forward (S i) (q2 ++ [m']) (set_forward i q (set_worker (S i) w' l)), Ok outs).
Proof using Hcarried.
  intros Hw Hq Hh Hstep Hmask Hst Hq2 Hcap.
  destruct (inner_receive inputs i mb x m q outs [Forward (S i) mb] w l Hw Hq Hh) as (e & E1 & E2 & E3 & ->).
  set (l0 := set_forward i q l). set (w2 := with_inbox (delete mb (<[mb := e]> (forward_inbox w))) w).
  pose proof (received_input i mb e w l0 Hw) as Hin. cbv zeta in Hin. fold w2 in Hin.
  assert (x = (inbox_request_id e, HiddenIn (hidden_states e), mask_of None (inbox_mask e))) as Hx.
  { destruct x as [[rid inp] mask]. cbn in *. by rewrite E1, E2, E3. }
  destruct (forward_hidden (S i) mb None _ _ _ w2 _ _ cs' h q2 Hin) as (m' & Hm' & Hf).
  - cbn. by rewrite list_lookup_insert_eq by (by eapply lookup_lt_Some).
  - cbn [caches_by_request w2 with_inbox]. by rewrite <-Hx.
  - apply (step_carried _ _ _ _ _ Hstep).
  - by rewrite <-Hx.
  - done.
  - cbn. by rewrite list_lookup_insert_ne by lia.
  - exists m', (with_caches cs' w2). split_and!; [by rewrite Hx|done|].
    cbn [exec perform Nat.eqb]. unfold mbind at 1, M_bind at 1. rewrite Hf. cbv zeta.
    change (capacity (set_worker (S i) w2 l0)) with (capacity l). rewrite (proj2 (Nat.ltb_lt _ _)) by done.
    cbn. rewrite app_nil_r. unfold l0. by rewrite set_worker_twice, set_worker_forward.
Qed.

Lemma inner_logits inputs i mb x m q outs (w : Worker) (l : Loop) cs' t :
  workers l !! S i = Some w → forward_links l !! i = Some (m :: q) → holds mb x m →
  stage_step (S i) (caches_by_request w) x = Some (cs', Logits t) →
  ∃ m' w', waits x.1.1 mb t m' ∧ caches_by_request w' = cs' ∧
    completed_last_stage w' = <[mb := m']> (completed_last_stage w) ∧
    exec inputs [Receive (S i) mb; Forward (S i) mb] outs l = (set_forward i q (set_worker (S i) w' l), Ok outs).
Proof using Hcarried.
  intros Hw Hq Hh Hstep.
  destruct (inner_receive inputs i mb x m q outs [Forward (S i) mb] w l Hw Hq Hh) as (e & E1 & E2 & E3 & ->).
  set (l0 := set_forward i q l). set (w2 := with_inbox (delete mb (<[mb := e]> (forward_inbox w))) w).
  pose proof (received_input i mb e w l0 Hw) as Hin. cbv zeta in Hin. fold w2 in Hin.
  assert (x = (inbox_request_id e, HiddenIn (hidden_states e), mask_of None (inbox_mask e))) as Hx.
  { destruct x as [[rid inp] mask]. cbn in *. by rewrite E1, E2, E3. }
  destruct (forward_logits (S i) mb None _ _ _ w2 _ _ cs' t Hin) as (m' & Hm' & Hf).
  - cbn. by rewrite list_lookup_insert_eq by (by eapply lookup_lt_Some).
  - cbn [caches_by_request w2 with_inbox]. by rewrite <-Hx.
  - apply (step_carried _ _ _ _ _ Hstep).
  - exists m', (with_last (<[mb := m']> (completed_last_stage w2)) (with_caches cs' w2)).
    split_and!; [by rewrite Hx|done..|].
    cbn [exec perform Nat.eqb]. unfold mbind at 1, M_bind at 1. rewrite Hf. cbn. rewrite app_nil_r.
    unfold l0. by rewrite set_worker_twice, set_worker_forward.
Qed.

(** ** Whole rounds *)

Lemma stage_pass_cons i cs x xs cs' (os : list (StageOutput T)) :
  stage_pass i cs (x :: xs) = Some (cs', os) →
  ∃ cs1 o os', os = o :: os' ∧ stage_step i cs x = Some (cs1, o) ∧ stage_pass i cs1 xs = Some (cs', os').
Proof using.
  cbn [stage_pass]. intros ([cs1 o] & Hs & Hr)%bind_Some. apply bind_Some in Hr as ([cs2 os'] & Hp & [= <- <-]). eauto 10.
Qed.

Lemma entry_round inputs : ∀ rs j outs (w : Worker) (l : Loop) cs' hs q,
  (∀ k r, rs !! k = Some r → inputs !! (j + k) = Some r) → workers l !! 0 = Some w →
  stage_pass 0 (caches_by_request w) (entry_item <$> rs) = Some (cs', HiddenStates <$> hs) →
  Forall mask_carried (entry_item <$> rs) → 1 < num_stages (config l) →
  forward_links l !! 0 = Some q → length q + length rs ≤ capacity l →
  ∃ q' w', link_holds j (next_items (entry_item <$> rs) hs) q' ∧ caches_by_request w' = cs' ∧
    exec inputs (Forward 0 <$> seq j (length rs)) outs l = (set_forward 0 (q ++ q') (set_worker 0 w' l), Ok outs).
Proof using Hcarried.
  induction rs as [|r rs IH]; intros j outs w l cs' hs q Hin Hw Hp Hm Hst Hq Hcap.
  { destruct hs; [|done]. injection Hp as <-. exists [], w. split_and!; [done..|].
    rewrite app_nil_r, set_worker_id, set_forward_id by done. done. }
  rewrite fmap_cons in Hp, Hm. apply stage_pass_cons in Hp as (cs1 & o & os' & Eo & Hs & Hp).
  destruct hs as [|h hs]; [done|]. injection Eo as <- <-. apply Forall_cons in Hm as [Hm1 Hm]. simpl in Hcap.
  destruct (entry_hidden inputs j r outs w l cs1 h q) as (m & Hh & He); try done.
  { specialize (Hin 0 r eq_refl). by rewrite Nat.add_0_r in Hin. }
  rewrite (proj2 (Nat.ltb_lt _ _)) in He by lia. cbv zeta in He.
  pose proof (lookup_lt_Some _ _ _ Hw). pose proof (lookup_lt_Some _ _ _ Hq).
  destruct (IH (S j) outs (with_caches cs1 w) (set_forward 0 (q ++ [m]) (set_worker 0 (with_caches cs1 w) l)) cs' hs (q ++ [m]))
    as (q' & w' & Hl & Hc & Hex); try done.
  - intros k r' Hk. rewrite Nat.add_succ_comm. by apply Hin.
  - cbn. by rewrite list_lookup_insert_eq.
  - cbn. by rewrite list_lookup_insert_eq.
  - rewrite length_app. cbn. lia.
  - exists (m :: q'), w'. split_and!; [done..|].
    change (Forward 0 <$> seq j (length (r :: rs))) with ([Forward 0 j] ++ (Forward 0 <$> seq (S j) (length rs))).
    rewrite exec_app, He, Hex. cbn [app]. by rewrite <-app_assoc, set_worker_forward, set_worker_twice, set_forward_twice.
Qed.

Lemma inner_round inputs i : ∀ xs j outs (w : Worker) (l : Loop) cs' hs q1 q2,
  workers l !! S i = Some w →
  stage_pass (S i) (caches_by_request w) xs = Some (cs', HiddenStates <$> hs) →
  Forall mask_carried xs → S (S i) < num_stages (config l) →
  forward_links l !! i = Some q1 → link_holds j xs q1 →
  forward_links l !! S i = Some q2 → length q2 + length xs ≤ capacity l →
  ∃ q' w', link_holds j (next_items xs hs) q' ∧ caches_by_request w' = cs' ∧
    exec inputs (mbs ← seq j (length xs); [Receive (S i) mbs; Forward (S i) mbs]) outs l =
      (set_forward (S i) (q2 ++ q') (set_forward i [] (set_worker (S i) w' l)), Ok outs).
Proof using Hcarried.
  induction xs as [|x xs IH]; intros j outs w l cs' hs q1 q2 Hw Hp Hm Hst Hq1 Hl1 Hq2 Hcap.
  { destruct hs; [|done]. injection Hp as <-. destruct q1; [|done]. exists [], w. split_and!; [done..|].
    rewrite app_nil_r, set_worker_id, (set_forward_id i), set_forward_id by done. done. }
  apply stage_pass_cons in Hp as (cs1 & o & os' & Eo & Hs & Hp).
  destruct hs as [|h hs]; [done|]. injection Eo as <- <-. apply Forall_cons in Hm as [Hm1 Hm]. simpl in Hcap.
  destruct q1 as [|m q1]; [done|]. destruct Hl1 as [Hh Hl1].
  destruct (inner_hidden inputs i j x m q1 outs w l cs1 h q2) as (m' & w1 & Hh' & Hc1 & He); try done; [lia|].
  pose proof (lookup_lt_Some _ _ _ Hw). pose proof (lookup_lt_Some _ _ _ Hq1). pose proof (lookup_lt_Some _ _ _ Hq2).
  destruct (IH (S j) outs w1 (set_forward (S i) (q2 ++ [m']) (set_forward i q1 (set_worker (S i) w1 l))) cs' hs q1 (q2 ++ [m']))
    as (q' & w' & Hl & Hc & Hex); try done.
  - cbn. by rewrite list_lookup_insert_eq.
  - by rewrite Hc1.
  - cbn. rewrite list_lookup_insert_ne by lia. by rewrite list_lookup_insert_eq.
  - cbn. rewrite list_lookup_insert_eq; [done|]. by rewrite length_insert.
  - rewrite length_app. cbn. lia.
  - exists (m' :: q'), w'. split_and!; [done..|].
    change (mbs ← seq j (length (x :: xs)); [Receive (S i) mbs; Forward (S i) mbs])
      with ([Receive (S i) j; Forward (S i) j] ++ (mbs ← seq (S j) (length xs); [Receive (S i) mbs; Forward (S i) mbs])).
    rewrite exec_app, He, Hex. rewrite <-app_assoc, !set_worker_forward, set_worker_twice.
    by rewrite (set_forward_swap i (S i)), set_forward_twice, set_forward_twice by lia.
Qed.

Lemma last_round inputs i : ∀ xs j outs (w : Worker) (l : Loop) cs' ts q1,
  workers l !! S i = Some w →
  stage_pass (S i) (caches_by_request w) xs = Some (cs', Logits <$> ts) →
  forward_links l !! i = Some q1 → link_holds j xs q1 →
  ∃ w', all_wait j xs ts (completed_last_stage w') ∧ caches_by_request w' = cs' ∧
    (∀ k, k < j → completed_last_stage w' !! k = completed_last_stage w !! k) ∧
    exec inputs (mbs ← seq j (length xs); [Receive (S i) mbs; Forward (S i) mbs]) outs l =
      (set_forward i [] (set_worker (S i) w' l), Ok outs).
Proof using Hcarried.
  induction xs as [|x xs IH]; intros j outs w l cs' ts q1 Hw Hp Hq1 Hl1.
  { destruct ts; [|done]. injection Hp as <-. destruct q1; [|done]. exists w. split_and!; [done..|].
    rewrite set_worker_id, set_forward_id by done. done. }
  apply stage_pass_cons in Hp as (cs1 & o & os' & Eo & Hs & Hp).
  destruct ts as [|t ts]; [done|]. injection Eo as <- <-.
  destruct q1 as [|m q1]; [done|]. destruct Hl1 as [Hh Hl1].
  destruct (inner_logits inputs i j x m q1 outs w l cs1 t) as (m' & w1 & Hw1 & Hc1 & Hlast & He); try done.
  pose proof (lookup_lt_Some _ _ _ Hw). pose proof (lookup_lt_Some _ _ _ Hq1).
  destruct (IH (S j) outs w1 (set_forward i q1 (set_worker (S i) w1 l)) cs' ts q1) as (w' & Hl & Hc & Hlow & Hex); try done.
  - cbn. by rewrite list_lookup_insert_eq.
  - by rewrite Hc1.
  - cbn. by rewrite list_lookup_insert_eq.
  - exists w'. split_and!; [split; [|done]|done| |].
    + exists m'. rewrite Hlow by lia. rewrite Hlast, lookup_insert_eq. done.
    + intros k Hk. rewrite Hlow by lia. by rewrite Hlast, lookup_insert_ne by lia.
    + change (mbs ← seq j (length (x :: xs)); [Receive (S i) mbs; Forward (S i) mbs])
        with ([Receive (S i) j; Forward (S i) j] ++ (mbs ← seq (S j) (length xs); [Receive (S i) mbs; Forward (S i) mbs])).
      rewrite exec_app, He, Hex. by rewrite set_worker_forward, set_worker_twice, set_forward_twice.
Qed.

End rounds.

(** * A pipeline step equals the sequential run

    The rounds composed: on links that are empty, a step of the in-process
    pipeline ends with the outputs and the caches of running the requests one
    after the other through all stages, and leaves the links empty, provided
    every activation fits the channels. *)

Section run.
Context {T Caches : Type} `{!StageExecutor T Caches, !ActivationCodec T}.
Abbreviation Loop := (InProcessStageWorkerLoop T Caches).
Abbreviation Input := (PipelineWorkerInput T).
Abbreviation Output := (PipelineWorkerOutput T).
Abbreviation Worker := (PipelineStageWorker T Caches).

(** ** Flushing *)

Lemma set_reverse_id j q (l : Loop) : reverse_links l !! j = Some q → set_reverse j q l = l.
Proof. intros Hq. unfold set_reverse. rewrite list_insert_id by done. by destruct l. Qed.

Lemma set_reverse_twice j q q' (l : Loop) : set_reverse j q' (set_reverse j q l) = set_reverse j q' l.
Proof. unfold set_reverse. simpl. by rewrite list_insert_insert_eq. Qed.

(** A message received on reverse link [i] by stage [i]. *)
Lemma relay_recv i mb rid t m (l : Loop) :
  S i ≠ num_stages (config l) → reverse_links l !! i = Some [m] → waits rid mb t m →
  relay_reverse i mb l =
    match upstream i with
    | Some j' => try_send_reverse j' m (set_reverse i [] l)
    | None =>
      (w ← worker i;
       modify (set_worker i (with_entry (<[mb := mkOutput (msg_request_id m) t]> (completed_entry_stage w)) w)))
        (set_reverse i [] l)
    end.
Proof.
  intros Hst Hq (Hr & Hmb & Hd & Ht). unfold relay_reverse. rewrite get_bind. unfold downstream.
  rewrite (proj2 (Nat.eqb_neq _ _)) by done. rewrite ok_or_bind.
  rewrite (M_bind_eq (try_recv_reverse i) _ l (set_reverse i [] l) (Some m)).
  - rewrite ok_or_bind, guard_bind, Hd, guard_bind, Hmb, Nat.eqb_refl. destruct (upstream i); [done|].
    by rewrite ok_or_bind, Ht.
  - unfold try_recv_reverse. rewrite get_bind, Hq. done.
Qed.

Lemma relay_all_S k mb (l : Loop) : relay_all (S k) mb l = (relay_reverse k mb ≫= λ _, relay_all k mb) l.
Proof. done. Qed.

Lemma relay_all_eq mb rid t m : ∀ k (w0 : Worker) (l : Loop),
  S k < num_stages (config l) → reverse_links l !! k = Some [m] →
  (∀ j, j < k → reverse_links l !! j = Some []) → 1 ≤ capacity l → workers l !! 0 = Some w0 → waits rid mb t m →
  relay_all (S k) mb l =
    (set_worker 0 (with_entry (<[mb := mkOutput rid t]> (completed_entry_stage w0)) w0) (set_reverse k [] l), Ok tt).
Proof.
  induction k as [|k IH]; intros w0 l Hst Hq Hlow Hcap Hw Hm; rewrite relay_all_S.
  - rewrite (M_bind_eq (relay_reverse 0 mb) _ l
      (set_worker 0 (with_entry (<[mb := mkOutput rid t]> (completed_entry_stage w0)) w0) (set_reverse 0 [] l)) tt); [done|].
    rewrite (relay_recv 0 mb rid t m) by (done || lia). cbn [upstream].
    rewrite (M_bind_eq _ _ _ _ _ (worker_eq 0 w0 (set_reverse 0 [] l) Hw)). destruct Hm as [-> _]. done.
  - set (l1 := set_reverse k [m] (set_reverse (S k) [] l)).
    assert (reverse_links (set_reverse (S k) [] l) !! k = Some []) as Hk.
    { cbn. rewrite list_lookup_insert_ne by lia. apply Hlow. lia. }
    rewrite (M_bind_eq (relay_reverse (S k) mb) _ l l1 tt).
    + rewrite (IH w0); unfold l1; cbn; [|lia| | |done..].
      * by rewrite set_reverse_twice, set_reverse_id.
      * rewrite list_lookup_insert_eq; [done|]. by eapply lookup_lt_Some.
      * intros j Hj. rewrite !list_lookup_insert_ne by lia. apply Hlow. lia.
    + rewrite (relay_recv (S k) mb rid t m) by (done || lia). cbn [upstream].
      unfold try_send_reverse. rewrite get_bind, Hk.
      rewrite (M_bind_eq (index (Some [])) _ _ (set_reverse (S k) [] l) []) by done.
      change (capacity (set_reverse (S k) [] l)) with (capacity l). by rewrite (proj2 (Nat.ltb_lt _ _)) by (simpl; lia).
Qed.

(** The reverse links at rest. *)
Definition reverse_idle (l : Loop) : Prop :=
  length (workers l) = num_stages (config l) ∧ S (length (reverse_links l)) = num_stages (config l) ∧
  ∀ j, j < length (reverse_links l) → reverse_links l !! j = Some [].

Lemma flush_eq mb rid t m i (w0 wl : Worker) (l : Loop) :
  reverse_idle l → num_stages (config l) = S (S i) → 1 ≤ capacity l →
  workers l !! 0 = Some w0 → workers l !! S i = Some wl → completed_last_stage wl !! mb = Some m → waits rid mb t m →
  ∃ w0', caches_by_request w0' = caches_by_request w0 ∧
  flush mb l = (set_worker 0 w0' (set_worker (S i) (with_last (delete mb (completed_last_stage wl)) wl) l), Ok (mkOutput rid t)).
Proof.
  intros (Hnw & Hnr & Hidle) Hst Hcap Hw0 Hwl Hm Hwait.
  set (l1 := set_worker (S i) (with_last (delete mb (completed_last_stage wl)) wl) l).
  set (w1 := with_entry (<[mb := mkOutput rid t]> (completed_entry_stage w0)) w0).
  exists (with_entry (delete mb (completed_entry_stage w1)) w1). split; [done|].
  assert (reverse_links l !! i = Some []) as Hi by (apply Hidle; lia).
  unfold flush. rewrite get_bind. cbv zeta. replace (length (workers l) - 1) with (S i) by lia.
  rewrite (M_bind_eq (begin_reverse_flush (S i) mb) _ l (set_reverse i [m] l1) tt).
  - assert (relay_all (S i) mb (set_reverse i [m] l1) = (set_worker 0 w1 l1, Ok tt)) as Hrel.
    { rewrite (relay_all_eq mb rid t m i w0 (set_reverse i [m] l1)); cbn; try done.
      - by rewrite set_reverse_twice, (set_reverse_id i []).
      - lia.
      - rewrite list_lookup_insert_eq; [done|]. by eapply lookup_lt_Some.
      - intros j Hj. rewrite list_lookup_insert_ne by lia. apply Hidle. lia.
      - by rewrite list_lookup_insert_ne by lia. }
    rewrite (M_bind_eq _ _ _ _ _ Hrel). unfold take_completed_entry_output.
    assert (workers (set_worker 0 w1 l1) !! 0 = Some w1) as Hw1.
    { cbn. rewrite list_lookup_insert_eq; [done|]. rewrite length_insert. by eapply lookup_lt_Some. }
    rewrite (M_bind_eq _ _ _ _ _ (worker_eq _ _ _ Hw1)), ok_or_bind.
    cbn [completed_entry_stage w1 with_entry]. rewrite lookup_insert_eq, modify_bind. by rewrite set_worker_twice.
  - unfold begin_reverse_flush. rewrite (M_bind_eq _ _ _ _ _ (worker_eq _ _ _ Hwl)), ok_or_bind, Hm, modify_bind, ok_or_bind.
    cbn [upstream]. unfold try_send_reverse. rewrite get_bind. fold l1. change (reverse_links l1) with (reverse_links l).
    rewrite Hi. rewrite (M_bind_eq (index (Some [])) _ _ l1 []) by done.
    change (capacity l1) with (capacity l). by rewrite (proj2 (Nat.ltb_lt _ _)) by (simpl; lia).
Qed.

Lemma all_wait_delete mb (xs : list (@item T)) ts ms k : k < mb → all_wait mb xs ts ms → all_wait mb xs ts (delete k ms).
Proof.
  revert mb ts. induction xs as [|x xs IH]; intros mb [|t ts] Hk; simpl; try done.
  intros [(m' & Hm & Hw) Hr]. split; [exists m'; by rewrite lookup_delete_ne by lia|]. apply IH; [lia|done].
Qed.

(** What a step leaves alone. *)
Definition same_frame (l l' : Loop) : Prop :=
  config l' = config l ∧ capacity l' = capacity l ∧ forward_links l' = forward_links l ∧
  reverse_links l' = reverse_links l ∧ (caches_by_request <$> workers l') = (caches_by_request <$> workers l).

Lemma flush_round inputs i : ∀ (xs : list item) j ts outs (w0 wl : Worker) (l : Loop),
  reverse_idle l → num_stages (config l) = S (S i) → 1 ≤ capacity l →
  workers l !! 0 = Some w0 → workers l !! S i = Some wl → all_wait j xs ts (completed_last_stage wl) →
  ∃ l', exec inputs (Flush <$> seq j (length xs)) outs l = (l', Ok (outs ++ zip_with (λ x t, mkOutput x.1.1 t) xs ts)) ∧
    same_frame l l'.
Proof.
  induction xs as [|x xs IH]; intros j [|t ts] outs w0 wl l Hidle Hst Hcap Hw0 Hwl Hwait; try done.
  { exists l. rewrite app_nil_r. done. }
  destruct Hwait as [(m & Hm & Hwm) Hwait].
  destruct (flush_eq j x.1.1 t m i w0 wl l Hidle Hst Hcap Hw0 Hwl Hm Hwm) as (w0' & Hc0 & Hf).
  set (wl' := with_last (delete j (completed_last_stage wl)) wl) in *.
  set (l1 := set_worker 0 w0' (set_worker (S i) wl' l)) in *.
  pose proof (lookup_lt_Some _ _ _ Hw0). pose proof (lookup_lt_Some _ _ _ Hwl).
  destruct (IH (S j) ts (outs ++ [mkOutput x.1.1 t]) w0' wl' l1) as (l' & Hex & F1 & F2 & F3 & F4 & F5).
  - destruct Hidle as (Hnw & Hnr & Hid). split_and!; [|done..]. cbn. by rewrite !length_insert.
  - done.
  - done.
  - cbn. rewrite list_lookup_insert_eq; [done|]. by rewrite length_insert.
  - cbn. rewrite list_lookup_insert_ne by lia. by rewrite list_lookup_insert_eq.
  - apply all_wait_delete; [lia|done].
  - exists l'. split.
    + change (Flush <$> seq j (length (x :: xs))) with (Flush j :: (Flush <$> seq (S j) (length xs))).
      cbn [exec perform]. rewrite (M_bind_eq _ _ _ _ _ Hf). cbn. rewrite Hex. by rewrite <-app_assoc.
    + split_and!; try done. rewrite F5. unfold l1, set_worker. cbn [workers].
      rewrite !list_fmap_insert, Hc0. cbn [caches_by_request wl' with_last].
      rewrite (list_insert_id _ (S i)) by (by rewrite list_lookup_fmap, Hwl).
      apply list_insert_id. by rewrite list_lookup_fmap, Hw0.
Qed.

End run.

(** ** All rounds *)

Section all_rounds.
Context {T Caches : Type} `{!StageExecutor T Caches, !ActivationCodec T}.
Abbreviation Loop := (InProcessStageWorkerLoop T Caches).
Abbreviation Input := (PipelineWorkerInput T).
Context (Hcarried : ∀ i inp c mask c' o, execute i inp c mask = (c', Some o) →
  match o with HiddenStates t | Logits t => carried t end).
Abbreviation caches_of l := (caches_by_request <$> workers l).

Lemma all_wait_next mb (xs : list (@item T)) hs ts ms :
  length hs = length xs → all_wait mb (next_items xs hs) ts ms → all_wait mb xs ts ms.
Proof using.
  revert mb hs ts. induction xs as [|x xs IH]; intros mb [|h hs] [|t ts]; try done. intros Hl [? ?].
  split; [done|]. apply (IH _ hs); [simpl in Hl; lia|done].
Qed.

Lemma mask_carried_next xs hs : Forall mask_carried xs → Forall mask_carried (next_items xs hs).
Proof using. intros H. revert hs. induction H; intros [|h hs]; constructor; [done|auto]. Qed.

Lemma length_next_items (xs : list (@item T)) hs : length hs = length xs → length (next_items xs hs) = length xs.
Proof using. intros Hl. unfold next_items. rewrite length_zip_with, Hl. apply Nat.min_id. Qed.

Lemma caches_step i (l : Loop) cs todo : drop i (caches_of l) = cs :: todo → ∃ w, workers l !! i = Some w ∧ caches_by_request w = cs.
Proof using.
  intros Hd. assert (caches_of l !! i = Some cs) as Hc.
  { rewrite <-(Nat.add_0_r i), <-lookup_drop, Hd. done. }
  rewrite list_lookup_fmap in Hc. destruct (workers l !! i) as [w|]; [|done]. injection Hc. eauto.
Qed.

Lemma caches_insert i (l : Loop) w cs todo :
  drop i (caches_of l) = cs :: todo → caches_of (set_worker i w l) = take i (caches_of l) ++ caches_by_request w :: todo.
Proof using.
  intros Hd. unfold set_worker. cbn [workers]. rewrite list_fmap_insert.
  assert (i < length (caches_of l)).
  { apply (f_equal length) in Hd. rewrite length_drop in Hd. cbn [length] in Hd. lia. }
  rewrite insert_take_drop by done. do 2 f_equal.
  replace (S i) with (i + 1) by lia. by rewrite <-drop_drop, Hd.
Qed.

Lemma rounds_from inputs outs n : ∀ k i (l : Loop) xs todo todo' ts q,
  num_stages (config l) = S i + S k → drop (S i) (caches_of l) = todo → length todo = S k →
  seq_from (S i) todo xs = Some (todo', ts) → length xs = n → Forall mask_carried xs → n ≤ capacity l →
  forward_links l !! i = Some q → link_holds 0 xs q →
  (∀ j, S i ≤ j → j < S i + k → forward_links l !! j = Some []) →
  ∃ l' wl, exec inputs (mjoin (round n <$> seq (S i) (S k))) outs l = (l', Ok outs) ∧
    config l' = config l ∧ capacity l' = capacity l ∧ reverse_links l' = reverse_links l ∧
    forward_links l' = <[i := []]> (forward_links l) ∧
    caches_of l' = take (S i) (caches_of l) ++ todo' ∧
    workers l' !! (S i + k) = Some wl ∧ all_wait 0 xs ts (completed_last_stage wl).
Proof using Hcarried.
  induction k as [|k IH]; intros i l xs todo todo' ts q Hst Hd Hlen Hseq Hn Hm Hcap Hq Hl Hempty.
  - destruct todo as [|cs []]; try done. destruct (caches_step _ _ _ _ Hd) as (w & Hw & Hc).
    apply seq_from_last in Hseq as (cs' & -> & Hp). rewrite <-Hc in Hp.
    destruct (last_round Hcarried inputs i xs 0 outs w l cs' ts q Hw Hp Hq Hl) as (w' & Hwait & Hc' & _ & Hex).
    exists (set_forward i [] (set_worker (S i) w' l)), w'. split_and!; try done.
    + cbn [seq fmap list_fmap mjoin list_join]. rewrite app_nil_r. unfold round. by rewrite <-Hn.
    + change (caches_of (set_forward i [] (set_worker (S i) w' l))) with (caches_of (set_worker (S i) w' l)).
      by rewrite (caches_insert _ _ _ _ _ Hd), Hc'.
    + cbn. rewrite Nat.add_0_r, list_lookup_insert_eq; [done|]. by eapply lookup_lt_Some.
  - destruct todo as [|cs [|cs2 rest]]; try done. destruct (caches_step _ _ _ _ Hd) as (w & Hw & Hc).
    apply seq_from_stage in Hseq as (cs' & hs & rest' & -> & Hhs & Hp & Hseq). rewrite <-Hc in Hp.
    destruct (inner_round Hcarried inputs i xs 0 outs w l cs' hs q [] Hw Hp Hm ltac:(lia) Hq Hl) as (q' & w' & Hl' & Hc' & Hex).
    { apply Hempty; lia. }
    { simpl. lia. }
    pose proof (lookup_lt_Some _ _ _ Hw). pose proof (lookup_lt_Some _ _ _ Hq).
    assert (forward_links l !! S i = Some []) as Hsi by (apply Hempty; lia). pose proof (lookup_lt_Some _ _ _ Hsi).
    set (l1 := set_forward (S i) ([] ++ q') (set_forward i [] (set_worker (S i) w' l))) in *.
    assert (caches_of l1 = take (S i) (caches_of l) ++ cs' :: cs2 :: rest) as Hc1.
    { change (caches_of l1) with (caches_of (set_worker (S i) w' l)). by rewrite (caches_insert _ _ _ _ _ Hd), Hc'. }
    assert (length (take (S i) (caches_of l)) = S i) as Htl.
    { rewrite length_take, length_fmap. lia. }
    destruct (IH (S i) l1 (next_items xs hs) (cs2 :: rest) rest' ts q') as (l' & wl & Hex' & C1 & C2 & C3 & C4 & C5 & C6 & C7).
    + cbn. lia.
    + rewrite Hc1, drop_app_ge by lia. by replace (S (S i) - length (take (S i) (caches_of l))) with 1 by lia.
    + by simpl in *; lia.
    + done.
    + by rewrite length_next_items.
    + by apply mask_carried_next.
    + done.
    + cbn. rewrite list_lookup_insert_eq; [done|]. by rewrite length_insert.
    + done.
    + intros j Hj1 Hj2. cbn. rewrite !list_lookup_insert_ne by lia. apply Hempty; lia.
    + exists l', wl. split_and!; [|done|done|done| | | |by eapply all_wait_next].
      * change (seq (S i) (S (S k))) with (S i :: seq (S (S i)) (S k)). rewrite fmap_cons. cbn [mjoin list_join].
        rewrite exec_app. unfold round at 1. rewrite <-Hn at 1. rewrite Hex. done.
      * rewrite C4. unfold l1. cbn. rewrite list_insert_insert_eq, list_insert_insert_ne by lia.
        by rewrite (list_insert_id _ (S i)).
      * rewrite C5, Hc1. rewrite take_app_ge by lia.
        replace (S (S i) - length (take (S i) (caches_of l))) with 1 by lia. simpl. by rewrite <-app_assoc.
      * by rewrite <-Nat.add_succ_comm.
Qed.

(** ** A pipeline step *)

(** A loop at rest: one worker per stage, empty links between neighbours. *)
Definition quiet (l : Loop) : Prop :=
  length (workers l) = num_stages (config l) ∧
  forward_links l = replicate (num_stages (config l) - 1) [] ∧
  reverse_links l = replicate (num_stages (config l) - 1) [].

Lemma zip_outputs (inputs : list Input) (ts : list T) :
  zip_with (λ x t, mkOutput x.1.1 t) (entry_item <$> inputs) ts = zip_with (λ r t, mkOutput (in_request_id r) t) inputs ts.
Proof using. revert ts. induction inputs as [|r rs IH]; intros [|t ts]; [done..|]. csimpl. f_equal. apply IH. Qed.

Lemma quiet_step inputs (l : Loop) css' outs :
  quiet l → 2 ≤ num_stages (config l) → 1 ≤ capacity l → length inputs ≤ capacity l →
  Forall mask_carried (entry_item <$> inputs) →
  sequential (caches_of l) inputs = Some (css', outs) →
  ∃ l', exec inputs (gpipe_trace (num_stages (config l)) (length inputs)) [] l = (l', Ok outs) ∧
    quiet l' ∧ caches_of l' = css' ∧ config l' = config l ∧ capacity l' = capacity l.
Proof using Hcarried.
  intros (Hnw & Hfl & Hrl) Hst Hc1 Hcap Hm Hseq. apply bind_Some in Hseq as ([css'' ts] & Hseq & [= <- <-]).
  destruct (num_stages (config l)) as [|[|k]] eqn:Hk; [lia..|].
  destruct (workers l) as [|w0 [|w1 ws]] eqn:Hws; simpl in Hnw; try lia.
  assert (workers l !! 0 = Some w0) as Hw0 by (by rewrite Hws).
  cbn [fmap list_fmap] in Hseq. apply seq_from_stage in Hseq as (cs' & hs & rest' & -> & Hhs & Hp & Hseq).
  rewrite length_fmap in Hhs. simpl in Hfl.
  destruct (entry_round Hcarried inputs inputs 0 [] w0 l cs' hs []) as (q' & w0' & Hl & Hc0 & Hex); try done;
    [lia|by rewrite Hfl|].
  set (l1 := set_forward 0 ([] ++ q') (set_worker 0 w0' l)) in *.
  assert (workers l1 = w0' :: w1 :: ws) as Hws1 by (cbn; by rewrite Hws).
  assert (forward_links l1 = q' :: replicate k []) as Hf1 by (cbn; by rewrite Hfl).
  pose proof (f_equal length Hf1).
  destruct (rounds_from inputs [] (length inputs) k 0 l1 (next_items (entry_item <$> inputs) hs)
     (caches_by_request <$> w1 :: ws) rest' ts q') as (l2 & wl & Hex2 & C1 & C2 & C3 & C4 & C5 & C6 & C7).
  - by cbn.
  - by rewrite Hws1.
  - rewrite length_fmap. simpl in *. lia.
  - done.
  - by rewrite length_next_items; rewrite length_fmap.
  - by apply mask_carried_next.
  - done.
  - by rewrite Hf1.
  - done.
  - intros j Hj1 Hj2. rewrite Hf1. destruct j as [|j]; [lia|]. simpl. apply lookup_replicate. split; [done|lia].
  - rewrite Hws1 in C5. cbn [take fmap list_fmap app] in C5. rewrite Hc0 in C5.
    assert (length (workers l2) = S (S k)) as Hnw2.
    { rewrite <-(length_fmap caches_by_request), C5. simpl. apply seq_from_length in Hseq as [_ ->]. simpl. rewrite length_fmap. lia. }
    assert (config l2 = config l) as Hc2 by (by rewrite C1).
    destruct (workers l2) as [|w02 ws2] eqn:Hws2; [simpl in Hnw2; lia|].
    assert (workers l2 !! 0 = Some w02) as Hw02 by (by rewrite Hws2).
    destruct (flush_round inputs k (entry_item <$> inputs) 0 ts [] w02 wl l2) as (l3 & Hex3 & F1 & F2 & F3 & F4 & F5).
    + split_and!; [by rewrite Hws2, Hc2, Hk|rewrite C3, Hc2, Hk; cbn; by rewrite Hrl, length_replicate|].
      intros j. rewrite C3. cbn. rewrite Hrl, length_replicate. intros Hj. by apply lookup_replicate.
    + by rewrite Hc2.
    + by rewrite C2.
    + done.
    + by rewrite Hws2.
    + eapply all_wait_next; [|done]. by rewrite length_fmap.
    + exists l3. split_and!.
      * unfold gpipe_trace. change (mjoin (round (length inputs) <$> seq 0 (S (S k))))
          with ((Forward 0 <$> seq 0 (length inputs)) ++ mjoin (round (length inputs) <$> seq 1 (S k))).
        rewrite <-app_assoc, exec_app, Hex, exec_app, Hex2.
        rewrite length_fmap in Hex3. by rewrite Hex3, zip_outputs.
      * split_and!.
        -- rewrite F1, Hc2, Hk, <-Hnw2, <-(length_fmap caches_by_request), F5, length_fmap. by rewrite Hws2.
        -- rewrite F3, C4, F1, Hc2, Hk, Hf1. simpl. done.
        -- rewrite F4, C3, F1, Hc2, Hk. done.
      * rewrite F5, Hws2. done.
      * by rewrite F1.
      * by rewrite F2.
Qed.

End all_rounds.
