(* ===== verification/PipeWire.v ===== *)
(** * Activations on the wire

    [distributed/pipeline/wire_tensor.rs]: an MLX array to the tensor wire format and
    back, the implementation of the codec that the stage workers use. The arrays
    are MLX's: [MlxArrays] names the operations the code calls, and its laws say
    that the raw bytes of a contiguous array rebuild it. *)

From S2P Require Import Prelude Bytes WireHeader WireTensor PipeSchedule PipeWorkers PipeStages.

Class MlxArrays (A : Type) := {
  contiguous : A → A;
  array_shape : A → list Z;
  array_dtype : A → Z;
  array_to_raw_bytes : A → list N;
  from_bytes : list N → list Z → Z → option A;
}.

Class MlxArraysLaws (A : Type) `{!MlxArrays A} : Prop := {
  contiguous_shape a : array_shape (contiguous a) = array_shape a;
  contiguous_dtype a : array_dtype (contiguous a) = array_dtype a;
  raw_bytes_rebuild a : from_bytes (array_to_raw_bytes (contiguous a)) (array_shape a) (array_dtype a) = Some a;
}.

(** [kv_cache_serde/types.rs] *)
Definition mlx_dtype_to_tensor_dtype (code : Z) : option TensorDtype :=
  match code with
  | 0 => Some Bool | 5 => Some Int8 | 6 => Some Int16 | 7 => Some Int32
  | 9 => Some Float16 | 10 => Some Float32 | 12 => Some BFloat16
  | _ => None
  end%Z.

Definition tensor_dtype_to_mlx (d : TensorDtype) : option Z :=
  match d with
  | Bool => Some 0 | UInt8 => Some 1 | Int8 => Some 5 | Int16 => Some 6 | Int32 => Some 7
  | Float16 => Some 9 | Float32 => Some 10 | BFloat16 => Some 12
  | Int4 => None
  end%Z.

Definition ok_of {E A} (r : outcome E A) : option A := match r with Ok a => Some a | _ => None end.

Section wire.
Context {L : Lz4} {A : Type} `{!MlxArrays A}.

Definition serialize_activation (d : TensorDtype) (shape data : list N) : ser (list N) :=
  serialize_tensor d shape data (mkSerOpts Activation QNone false None).

Definition deserialize_activation (wire : list N) : ser DeserializedTensor :=
  '(t, _) ← deserialize_tensor wire; Ok t.

(** [u64::try_from], [i32::try_from] *)
Definition to_u64 (d : Z) : option N := if decide (0 ≤ d)%Z then Some (Z.to_N d) else None.
Definition to_i32 (d : N) : option Z := if decide (Z.of_N d ≤ i32_max)%Z then Some (Z.of_N d) else None.

Definition serialize_array (a : A) : option (list N) :=
  let c := contiguous a in
  shape ← mapM to_u64 (array_shape c);
  d ← mlx_dtype_to_tensor_dtype (array_dtype c);
  ok_of (serialize_activation d shape (array_to_raw_bytes c)).

Definition deserialize_array (wire : list N) : option A :=
  t ← ok_of (deserialize_activation wire);
  shape ← mapM to_i32 (de_shape t);
  d ← tensor_dtype_to_mlx (de_dtype t);
  from_bytes (de_data t) shape d.

(** The second dimension, as [u32]. *)
Definition array_sequence_length (a : A) : option N :=
  d ← array_shape a !! 1; to_u64 d.

#[local] Instance array_codec : ActivationCodec A := {
  serialize_mlx_array := serialize_array;
  deserialize_wire_tensor := deserialize_array;
  sequence_length := array_sequence_length;
}.

(** An activation MLX can hold and the wire format can carry: at least two and at most
    [MAX_NDIM] dimensions, a supported element type, and less than 4 GiB of data that matches
    the shape. *)
Definition wire_ok (a : A) : Prop :=
  2 ≤ length (array_shape a) ∧ (N.of_nat (length (array_shape a)) ≤ MAX_NDIM)%N ∧
  Forall (λ d, 0 ≤ d ≤ i32_max)%Z (array_shape a) ∧
  (N.of_nat (length (array_to_raw_bytes (contiguous a))) + 16 < 2 ^ 32)%N ∧
  ∃ d, mlx_dtype_to_tensor_dtype (array_dtype a) = Some d ∧
    validate_data_size d (Z.to_N <$> array_shape a) (array_to_raw_bytes (contiguous a)) = Ok tt.

Lemma to_u64_all s : Forall (λ d, 0 ≤ d ≤ i32_max)%Z s → mapM to_u64 s = Some (Z.to_N <$> s).
Proof.
  intros Hs. apply mapM_Some. induction Hs as [|d s Hd _ IH]; csimpl; constructor; [|done].
  unfold to_u64. by rewrite decide_True by lia.
Qed.

Lemma to_i32_all s : Forall (λ d, 0 ≤ d ≤ i32_max)%Z s → mapM to_i32 (Z.to_N <$> s) = Some s.
Proof.
  intros Hs. apply mapM_Some. induction Hs as [|d s Hd _ IH]; csimpl; constructor; [|done].
  unfold to_i32. rewrite Z2N.id by lia. by rewrite decide_True by lia.
Qed.

Lemma dtype_codes_back c d : mlx_dtype_to_tensor_dtype c = Some d → tensor_dtype_to_mlx d = Some c.
Proof.
  unfold mlx_dtype_to_tensor_dtype. intros H.
  repeat match type of H with match ?x with _ => _ end = _ => destruct x; try discriminate H end;
    injection H as <-; reflexivity.
Qed.

(** The codec returns every such activation unchanged: what the workers require of it. *)
Lemma array_carried `{!Lz4Laws L, !MlxArraysLaws A} (a : A) : wire_ok a → carried a.
Proof.
  intros (H2 & Hnd & Hs & Hb & d & Hd & Hv). split.
  - cbn. unfold array_sequence_length. destruct (lookup_lt_is_Some_2 (array_shape a) 1) as [n Hn]; [lia|]. rewrite Hn. cbn.
    rewrite Forall_lookup in Hs. destruct (Hs 1 n Hn). unfold to_u64. rewrite decide_True by done. eauto.
  - destruct (serialize_roundtrip_aux d (Z.to_N <$> array_shape a) (array_to_raw_bytes (contiguous a))
      (mkSerOpts Activation QNone false None) []) as (buf & Hser & Hdes); [done| | |done|].
    { split; [by rewrite length_fmap|]. apply Forall_fmap. eapply Forall_impl; [done|]. cbn. unfold i32_max. lia. }
    { split_and!; [done|done|vm_compute; discriminate|constructor|reflexivity]. }
    exists buf. cbn. unfold serialize_array, deserialize_array, serialize_activation, deserialize_activation.
    rewrite contiguous_shape, contiguous_dtype, to_u64_all, Hd by done. cbn. rewrite Hser. split; [done|].
    rewrite app_nil_r in Hdes. rewrite Hdes. cbn. rewrite to_i32_all by done. cbn. rewrite (dtype_codes_back _ _ Hd). cbn.
    apply raw_bytes_rebuild.
Qed.

End wire.
