(* ===== verification/PipeLoop.v ===== *)
(** * The pipeline loop

    Claims about [InProcessStageWorkerLoop::run_to_completion]: it always ends and
    runs the GPipe sequence, it computes what the requests would compute one after
    the other, and what happens when a step does not fit the channels or fails. *)

From S2P Require Import Prelude Bytes WireHeader WireTensor.
From S2P Require Import PipeSchedule PipeWorkers PipeStages PipeRun PipeWire.

Section claims.
Context {T Caches : Type} `{!StageExecutor T Caches, !ActivationCodec T}.
Abbreviation Loop := (InProcessStageWorkerLoop T Caches).
Abbreviation Input := (PipelineWorkerInput T).
Abbreviation Worker := (PipelineStageWorker T Caches).
Abbreviation caches_of l := (caches_by_request <$> workers l).

(** [new_loop] builds a loop at rest. *)
Lemma new_loop_quiet c k cap (l : Loop) : new_loop c k cap = Ok l →
  quiet l ∧ config l = c ∧ capacity l = Nat.max cap 1 ∧ caches_of l = replicate k ∅.
Proof.
  unfold new_loop. rewrite ensure_bind. intros [<- [= <-]]. cbn. split_and!; [split_and!; cbn; by rewrite ?length_replicate|done..|].
  by rewrite fmap_replicate.
Qed.

Lemma run_sequential inputs (l : Loop) css' outs :
  (∀ i inp c mask c' o, execute i inp c mask = (c', Some o) → match o with HiddenStates t | Logits t => carried t end) →
  quiet l → 2 ≤ num_stages (config l) → 1 ≤ capacity l → inputs ≠ [] → length inputs ≤ capacity l →
  Forall mask_carried (entry_item <$> inputs) →
  sequential (caches_of l) inputs = Some (css', outs) →
  ∃ l', run_to_completion inputs l = Some (l', Ok outs) ∧ quiet l' ∧ caches_of l' = css' ∧
    config l' = config l ∧ capacity l' = capacity l.
Proof.
  intros Hc Hq Hst Hc1 Hne Hcap Hm Hseq.
  destruct (quiet_step Hc inputs l css' outs Hq Hst Hc1 Hcap Hm Hseq) as (l' & Hex & ? & ? & ? & ?).
  exists l'. split_and!; [|done..]. rewrite run_to_completion_trace, Hex by (done || lia).
  apply bind_Some in Hseq as ([css'' ts] & Hseq & [= <- <-]). apply seq_from_length in Hseq as [Hl _].
  rewrite length_fmap in Hl. rewrite length_zip_with, Hl, Nat.min_id, Nat.eqb_refl. done.
Qed.

(** ** Full channels *)

(** A link as full as it gets. *)
Definition entry_full (l : Loop) : Prop :=
  2 ≤ num_stages (config l) ∧ is_Some (workers l !! 0) ∧ ∃ q, forward_links l !! 0 = Some q ∧ length q = capacity l.

Context (Hcarried : ∀ i inp c mask c' o, execute i inp c mask = (c', Some o) →
  match o with HiddenStates t | Logits t => carried t end).

Lemma entry_round_full inputs : ∀ rs j outs (w : Worker) (l : Loop) cs' hs q,
  (∀ k r, rs !! k = Some r → inputs !! (j + k) = Some r) → workers l !! 0 = Some w →
  stage_pass 0 (caches_by_request w) (entry_item <$> rs) = Some (cs', HiddenStates <$> hs) →
  Forall mask_carried (entry_item <$> rs) → 2 ≤ num_stages (config l) →
  forward_links l !! 0 = Some q → length q ≤ capacity l < length q + length rs →
  ∃ l', exec inputs (Forward 0 <$> seq j (length rs)) outs l = (l', Err (ChannelFull 0)) ∧ entry_full l' ∧ capacity l' = capacity l.
Proof using Hcarried.
  induction rs as [|r rs IH]; intros j outs w l cs' hs q Hin Hw Hp Hm Hst Hq Hcap; [simpl in Hcap; lia|].
  rewrite fmap_cons in Hp, Hm. apply stage_pass_cons in Hp as (cs1 & o & os' & Eo & Hs & Hp).
  destruct hs as [|h hs]; [done|]. injection Eo as <- <-. apply Forall_cons in Hm as [Hm1 Hm]. simpl in Hcap.
  destruct (entry_hidden Hcarried inputs j r outs w l cs1 h q) as (m & Hh & He); try done.
  { specialize (Hin 0 r eq_refl). by rewrite Nat.add_0_r in Hin. }
  change (Forward 0 <$> seq j (length (r :: rs))) with ([Forward 0 j] ++ (Forward 0 <$> seq (S j) (length rs))).
  setoid_rewrite exec_app. rewrite He. cbv zeta. pose proof (lookup_lt_Some _ _ _ Hw). pose proof (lookup_lt_Some _ _ _ Hq).
  destruct (Nat.ltb_spec (length q) (capacity l)) as [Hlt|Hge].
  - destruct (IH (S j) outs (with_caches cs1 w) (set_forward 0 (q ++ [m]) (set_worker 0 (with_caches cs1 w) l)) cs' hs (q ++ [m]))
      as (l' & Hex & Hf & Hc); try done.
    + intros k r' Hk. rewrite Nat.add_succ_comm. by apply Hin.
    + cbn. by rewrite list_lookup_insert_eq.
    + cbn. by rewrite list_lookup_insert_eq.
    + rewrite length_app. cbn. lia.
    + exists l'. done.
  - eexists. split_and!; [done| |done]. split_and!; [done| |].
    + cbn. rewrite list_lookup_insert_eq by done. eauto.
    + exists q. split; [done|]. cbn. lia.
Qed.

Lemma trace_entry stages n : 1 ≤ stages → ∃ rest, gpipe_trace stages n = (Forward 0 <$> seq 0 n) ++ rest.
Proof using.
  intros. destruct stages as [|k]; [lia|].
  exists (mjoin (round n <$> seq 1 k) ++ (Flush <$> seq 0 n)). unfold gpipe_trace. by rewrite app_assoc.
Qed.

Lemma run_full inputs (w : Worker) (l : Loop) cs' hs q :
  inputs ≠ [] → workers l !! 0 = Some w →
  stage_pass 0 (caches_by_request w) (entry_item <$> inputs) = Some (cs', HiddenStates <$> hs) →
  Forall mask_carried (entry_item <$> inputs) → 2 ≤ num_stages (config l) →
  forward_links l !! 0 = Some q → length q ≤ capacity l < length q + length inputs →
  ∃ l', run_to_completion inputs l = Some (l', Err (ChannelFull 0)) ∧ entry_full l'.
Proof using Hcarried.
  intros Hne Hw Hp Hm Hst Hq Hcap.
  destruct (entry_round_full inputs inputs 0 [] w l cs' hs q) as (l' & Hex & Hf & _); try done.
  exists l'. split; [|done]. rewrite run_to_completion_trace by (done || lia).
  destruct (trace_entry (num_stages (config l)) (length inputs)) as [rest ->]; [lia|].
  by rewrite exec_app, Hex.
Qed.

End claims.

(** C35. A pipeline step always ends. Whatever state the workers, caches and links are in and whatever
    the executors and the codec answer, [run_to_completion] returns: it performs the GPipe sequence
    (every micro-batch through stage 0 in order, then for each further stage a receive and a forward
    per micro-batch in order, then a flush per micro-batch) up to the first action that fails. *)
Theorem run_to_completion_terminates {T Caches : Type} `{!StageExecutor T Caches, !ActivationCodec T}
    (inputs : list (PipelineWorkerInput T)) (l : InProcessStageWorkerLoop T Caches) :
  1 ≤ num_stages (config l) → inputs ≠ [] →
  ∃ l' r, run_to_completion inputs l = Some (l', r) ∧
    match exec inputs (gpipe_trace (num_stages (config l)) (length inputs)) [] l with
    | (l1, Ok outs) => l1 = l' ∧
        r = if length outs =? length inputs then Ok outs else Err (OutputCount (length outs) (length inputs))
    | (l1, r1) => l1 = l' ∧ r = r1
    end.
Proof.
  intros Hst Hne. rewrite run_to_completion_trace by done.
  destruct (exec _ _ _ _) as [l1 [outs|e|]]; eexists _, _; done.
Qed.

#[local] Existing Instance array_codec.

(** C12. Pipelining does not change the result. On a loop at rest whose channels hold a message per
    request, when the requests would succeed one after the other through all stages and every
    activation is one the wire format carries, [run_to_completion] returns exactly their outputs, in
    the order of submission and under their own identifiers, leaves the caches of every stage as the
    sequential run leaves them, and is at rest again, so that steps compose. *)
Theorem pipeline_step_is_sequential {L : Lz4} {LL : Lz4Laws L} {A Caches : Type} {MA : MlxArrays A}
    {ML : MlxArraysLaws A} {SE : StageExecutor A Caches}
    (inputs : list (PipelineWorkerInput A)) (l : InProcessStageWorkerLoop A Caches) css' outs :
  (∀ i inp c mask c' o, execute i inp c mask = (c', Some o) → match o with HiddenStates t | Logits t => wire_ok t end) →
  (∀ r t, r ∈ inputs → in_mask r = Some t → wire_ok t) →
  quiet l → 2 ≤ num_stages (config l) → inputs ≠ [] → length inputs ≤ capacity l →
  sequential (caches_by_request <$> workers l) inputs = Some (css', outs) →
  ∃ l', run_to_completion inputs l = Some (l', Ok outs) ∧ quiet l' ∧ (caches_by_request <$> workers l') = css' ∧
    config l' = config l ∧ capacity l' = capacity l.
Proof.
  intros Hout Hmask Hq Hst Hne Hcap Hseq. apply run_sequential; try done.
  - intros i inp c mask c' o He. specialize (Hout _ _ _ _ _ _ He). destruct o; by apply array_carried.
  - destruct inputs; [done|simpl in Hcap; lia].
  - apply Forall_fmap, Forall_forall. intros r Hr t Ht. by eapply array_carried, Hmask.
Qed.

(** An array as its type, shape and bytes, and two stages that pass it on and count their calls. *)
Record plain_array := mkPlain { p_dtype : Z; p_shape : list Z; p_bytes : list N }.

#[local] Instance plain_arrays : MlxArrays plain_array := {
  contiguous a := a;
  array_shape := p_shape;
  array_dtype := p_dtype;
  array_to_raw_bytes := p_bytes;
  from_bytes b s d := Some (mkPlain d s b);
}.

#[local] Instance plain_arrays_laws : MlxArraysLaws plain_array.
Proof. split; [done..|]. by intros []. Qed.

Definition clamp_array (a : plain_array) : plain_array := mkPlain 10 [1; 1]%Z (take 4 (p_bytes a ++ [0; 0; 0; 0]%N)).

#[local] Instance two_stages : StageExecutor plain_array nat := {
  make_caches _ := 0;
  execute i inp c _ :=
    (S c, Some match inp with TokenIds t => HiddenStates (clamp_array t) | HiddenIn t => Logits (clamp_array t) end);
}.

Definition byte_array (b : N) : plain_array := mkPlain 10 [1; 1]%Z [b; 0; 0; 0]%N.

Lemma clamp_ok (a : plain_array) : wire_ok (clamp_array a).
Proof.
  assert (length (take 4 (p_bytes a ++ [0; 0; 0; 0]%N)) = 4) as Hl by (rewrite length_take, length_app; cbn [length]; lia).
  split_and!; [simpl; lia|vm_compute; discriminate|repeat constructor; vm_compute; discriminate| |].
  - cbn [contiguous array_to_raw_bytes plain_arrays clamp_array p_bytes]. rewrite Hl. done.
  - exists Float32. split; [done|]. unfold validate_data_size.
    cbn [contiguous array_to_raw_bytes array_shape plain_arrays clamp_array p_bytes p_shape]. unfold data_len_N. rewrite Hl. done.
Qed.

Definition demo_loop : InProcessStageWorkerLoop plain_array nat :=
  mkLoop (mkPipeConfig 2 1 0) 4 (replicate 2 (mkWorker ∅ ∅ ∅ ∅)) [[]] [[]].
Definition demo_inputs : list (PipelineWorkerInput plain_array) :=
  [mkInput "a" (byte_array 1) None; mkInput "b" (byte_array 2) None; mkInput "a" (byte_array 3) None].

Lemma pipeline_step_is_sequential_witness :
  ∃ l', @run_to_completion _ _ _ (@array_codec run_codec _ _) demo_inputs demo_loop =
    Some (l', Ok [mkOutput "a" (byte_array 1); mkOutput "b" (byte_array 2); mkOutput "a" (byte_array 3)]) ∧ quiet l'.
Proof.
  destruct (@pipeline_step_is_sequential run_codec run_codec_laws plain_array nat _ _ _ demo_inputs demo_loop
     (match sequential (caches_by_request <$> workers demo_loop) demo_inputs with Some (c, _) => c | None => [] end)
     [mkOutput "a" (byte_array 1); mkOutput "b" (byte_array 2); mkOutput "a" (byte_array 3)]) as (l' & H1 & H2 & _).
  - intros i inp c mask c' o He. injection He as <- <-. destruct inp; apply clamp_ok.
  - intros r t Hr Ht. assert (Forall (λ r, in_mask r = None) demo_inputs) as HF by (repeat constructor).
    rewrite Forall_forall in HF. rewrite (HF r Hr) in Ht. discriminate Ht.
  - split; [reflexivity|]. split; reflexivity.
  - apply Nat.le_refl.
  - discriminate.
  - simpl. lia.
  - vm_compute. reflexivity.
  - exact (ex_intro _ l' (conj H1 H2)).
Defined.

(** ** Failures *)

(** Three stages over numbers, of which the second refuses one. *)
#[local] Instance number_codec : ActivationCodec nat := {
  serialize_mlx_array t := Some [N.of_nat t];
  deserialize_wire_tensor w := match w with [b] => Some (N.to_nat b) | _ => None end;
  sequence_length _ := Some 1%N;
}.

#[local] Instance refusing_stages : StageExecutor nat nat := {
  make_caches _ := 0;
  execute i inp c _ :=
    match i, inp with
    | 0, TokenIds t => (S c, Some (HiddenStates t))
    | 1, HiddenIn t => (S c, if t =? 13 then None else Some (HiddenStates t))
    | _, HiddenIn t => (S c, Some (Logits t))
    | _, _ => (c, None)
    end;
}.

Definition three_loop : InProcessStageWorkerLoop nat nat :=
  mkLoop (mkPipeConfig 3 1 0) 4 (replicate 3 (mkWorker ∅ ∅ ∅ ∅)) [[]; []] [[]; []].

(** The loop a step leaves. *)
Definition after_run (inputs : list (PipelineWorkerInput nat)) (l : InProcessStageWorkerLoop nat nat) :
    InProcessStageWorkerLoop nat nat :=
  match run_to_completion inputs l with Some (l', _) => l' | None => l end.

(** What the channels do to a step that does not fit or fails. A batch with more requests than the
    channels hold is refused with a full channel although every stage would accept it, because the
    first stage forwards all of it before the second receives anything; the link then stays full, and
    every later step, also of one request, is refused as well. And a step that fails in an executor
    leaves activations in the links: when the last micro-batch of a batch fails at an inner stage, the
    next step receives the activation of an earlier request and returns that request's output. *)
Theorem activation_channel_limits :
  (∀ {T Caches : Type} {SE : StageExecutor T Caches} {AC : ActivationCodec T}
     (inputs : list (PipelineWorkerInput T)) (w : PipelineStageWorker T Caches) (l : InProcessStageWorkerLoop T Caches) cs' hs,
     (∀ i inp c mask c' o, execute i inp c mask = (c', Some o) → match o with HiddenStates t | Logits t => carried t end) →
     2 ≤ num_stages (config l) → inputs ≠ [] → workers l !! 0 = Some w →
     stage_pass 0 (caches_by_request w) (entry_item <$> inputs) = Some (cs', HiddenStates <$> hs) →
     Forall mask_carried (entry_item <$> inputs) →
     (quiet l ∧ capacity l < length inputs) ∨ entry_full l →
     ∃ l', run_to_completion inputs l = Some (l', Err (ChannelFull 0)) ∧ entry_full l') ∧
  (new_loop (mkPipeConfig 3 1 0) 3 4 = Ok three_loop ∧
   snd <$> run_to_completion [mkInput "a" 7 None; mkInput "b" 13 None] three_loop = Some (Err (ExecutorFailed 1)) ∧
   snd <$> run_to_completion [mkInput "c" 9 None]
     (after_run [mkInput "a" 7 None; mkInput "b" 13 None] three_loop) = Some (Ok [mkOutput "a" 7])).
Proof.
  split.
  - intros T Caches SE AC inputs w l cs' hs Hc Hst Hne Hw Hp Hm [[(_ & Hf & _) Hcap]|(_ & _ & q & Hq & Hlen)].
    + apply (run_full Hc inputs w l cs' hs []); try done; [|simpl; lia].
      rewrite Hf. apply lookup_replicate. split; [done|lia].
    + apply (run_full Hc inputs w l cs' hs q); try done. destruct inputs; [done|]. simpl. lia.
  - split; [reflexivity|]. split; vm_refl.
Qed.

Definition five_requests : list (PipelineWorkerInput nat) := (λ n, mkInput "r" n None) <$> [1; 2; 3; 4; 5].

Lemma activation_channel_limits_witness :
  capacity three_loop = 4 ∧
  ∃ l', run_to_completion five_requests three_loop = Some (l', Err (ChannelFull 0)) ∧ entry_full l'.
Proof.
  split; [reflexivity|].
  refine (proj1 activation_channel_limits nat nat refusing_stages number_codec five_requests (mkWorker ∅ ∅ ∅ ∅) three_loop
            (match stage_pass 0 ∅ (entry_item <$> five_requests) with Some (c, _) => c | None => ∅ end) [1; 2; 3; 4; 5] _ _ _ _ _ _ _).
  - intros i inp c mask c' o He. assert (∀ t : nat, carried t) as Hall.
    { intros t. split; [eexists; reflexivity|]. exists [N.of_nat t]. split; [reflexivity|]. cbn. by rewrite Nat2N.id. }
    destruct o; apply Hall.
  - simpl. lia.
  - discriminate.
  - reflexivity.
  - vm_compute. reflexivity.
  - unfold five_requests. apply Forall_fmap, Forall_fmap, Forall_forall. intros n _ t. discriminate.
  - left. split; [|simpl; lia]. split; [reflexivity|]. split; reflexivity.
Defined.

Lemma run_to_completion_terminates_witness :
  ∃ l' r, run_to_completion [mkInput "a" 7 None] three_loop = Some (l', r) ∧ r = Ok [mkOutput "a" 7].
Proof.
  destruct (run_to_completion_terminates [mkInput "a" 7 None] three_loop) as (l' & r & H & _).
  - simpl. lia.
  - discriminate.
  - exists l', r. split; [exact H|].
    assert (snd <$> run_to_completion [mkInput "a" 7 None] three_loop = Some (Ok [mkOutput "a" 7])) as E by vm_refl.
    rewrite H in E. injection E as E. exact E.
Defined.
