(* ===== verification/PipeLocal.v ===== *)
(** * Plans for in-process pipelines

    [distributed/pipeline/local_runtime.rs]: the pipeline flags of a single machine are
    resolved against devices made up for the purpose, all with the same budget. *)

From S2P Require Import Prelude PipePartition PipeBalance PipeAssembly PipePlans PipeOptimal PipePlanner PipeManual.

Inductive LocalError :=
  | Plan (e : PartitionError) | ManualSpecEmpty | SizeMismatch (expected ranges : nat) | NoPipelineFlags | TooFewStages.

Definition of_plan {A} (r : outcome PartitionError A) : outcome LocalError A :=
  match r with Ok a => Ok a | Err e => Err (Plan e) | Panic => Panic end.

Definition equal_stage_model_profile (n : nat) : ModelProfile := uniform n 1024 1024 1024.

Definition per_layer_max (m : ModelProfile) : N :=
  match layer_bytes m with
  | Some [] | None => layer_param_bytes m
  | Some v => max_of v
  end.

Definition local_budget (k : nat) (m : ModelProfile) : N :=
  saturating_add_u64 (saturating_add_u64 (embedding_param_bytes m) (lm_head_param_bytes m))
    (saturating_mul_u64 (per_layer_max m) (N.of_nat (div_ceil (num_layers m) k) + 2)).

Definition equal_capacity_devices (k : nat) (m : ModelProfile) : list DeviceSpec :=
  (λ i : nat, mkDevice ("local-stage-" +:+ pretty i) (local_budget k m) 1) <$> seq 0 k.

(** The profile of a model read with another number of layers. *)
Definition adjust_profile (n : nat) (m : ModelProfile) : ModelProfile :=
  if num_layers m =? n then m
  else mkProfile n (layer_param_bytes m) (embedding_param_bytes m) (lm_head_param_bytes m)
         ((λ v, take n v ++ replicate (n - length v) (layer_param_bytes m)) <$> layer_bytes m)
         (filter (λ g, r_end (g_layers g) ≤ n) (adjacency m)).

Definition resolve_stage_assignments_from_profile (m : ModelProfile) (size : option nat) (spec : option (list N)) :
    outcome LocalError (list StageAssignment * PartitionQualityReport) :=
  match spec with
  | Some text =>
    _ ← ensure (trim text ≠ []) ManualSpecEmpty;
    ranges ← of_plan (parse_manual_partition text (num_layers m));
    _ ← match size with
        | Some expected => if 1 <? expected then ensure (expected = length ranges) (SizeMismatch expected (length ranges)) else Ok tt
        | None => Ok tt
        end;
    let devices := equal_capacity_devices (length ranges) m in
    plan ← of_plan (assemble_manual_partition ranges m devices);
    Ok (plan, build_quality_report_with_actuals plan None [])
  | None =>
    k ← ok_or_err size NoPipelineFlags;
    _ ← ensure (2 ≤ k) TooFewStages;
    of_plan (assemble_auto_partition m (equal_capacity_devices k m))
  end.

(** ** Every layer fits every made-up device *)

(** The documented shape of a profile: one weight per layer when there are weights. *)
Definition profile_ok (m : ModelProfile) : Prop :=
  match layer_bytes m with Some v => length v = num_layers m | None => True end.

Lemma layer_le_max m x : profile_ok m → x ∈ effective_layer_bytes m → (x ≤ per_layer_max m)%N.
Proof.
  unfold profile_ok, effective_layer_bytes, per_layer_max, layer_bytes_at.
  intros Hok (i & -> & Hi%elem_of_seq)%list_elem_of_fmap. destruct (layer_bytes m) as [v|]; [|done].
  destruct (lookup_lt_is_Some_2 v i) as [b Hb]; [lia|]. rewrite Hb.
  destruct v as [|y v]; [done|]. by eapply max_of_ge, list_elem_of_lookup_2.
Qed.

Lemma load_le_max m r : profile_ok m → (load (effective_layer_bytes m) r ≤ N.of_nat (r_end r - r_start r) * per_layer_max m)%N.
Proof.
  intros Hok. unfold load. etrans; [apply (sumN_bound _ (per_layer_max m))|].
  - apply Forall_take, Forall_drop, Forall_forall. intros x Hx. by apply layer_le_max.
  - apply N.mul_le_mono_r. rewrite length_take. lia.
Qed.

(** Ranges of the uniform split have at most [ceil (n / k)] layers. *)
Lemma uniform_lengths N per rem stage left c r :
  r ∈ ranges_from c (uniform_from N per rem [] stage left c) N → 0 < per →
  N - c ≤ (S left) * per + (rem - stage) → rem ≤ stage + S left →
  (S left * per + (rem - stage) ≤ N - c) →
  r_end r - r_start r ≤ per + (if decide (rem = 0) then 0 else 1).
Proof.
  revert stage c. induction left as [|left IH]; intros stage c Hr Hper Hc Hs Hge; cbn [uniform_from ranges_from] in Hr.
  - apply list_elem_of_singleton in Hr as ->. simpl in *. case_decide; lia.
  - rewrite slide_nil in Hr. set (b := c + (per + if stage <? rem then 1 else 0)) in *.
    rewrite (proj2 (Nat.leb_gt _ _)) in Hr by (unfold b; lia).
    apply elem_of_cons in Hr as [->|Hr]; simpl.
    + unfold b. destruct (Nat.ltb_spec stage rem); case_decide; lia.
    + apply IH in Hr; [done|done|unfold b; destruct (Nat.ltb_spec stage rem); lia..].
Qed.

Definition uniform_ranges (n k : nat) : list Range := splits_to_ranges (uniform_split n k []) n.

Lemma uniform_ranges_tile n k : 0 < k ≤ n → tiles (uniform_ranges n k) n ∧ length (uniform_ranges n k) = k.
Proof.
  intros Hk. pose proof (Nat.div_mod_eq n k). pose proof (Nat.mod_upper_bound n k ltac:(lia)).
  pose proof (Nat.div_str_pos n k ltac:(lia)).
  assert (tiles_from 0 (uniform_ranges n k) n) as Ht.
  { apply (uniform_tiles n (n `div` k) (n `mod` k) 0 (k - 1)); [lia|nia|lia]. }
  assert (length (uniform_ranges n k) = k) as Hl; [|split; [split; [|done]|done]].
  - unfold uniform_ranges, splits_to_ranges, uniform_split.
    assert (∀ left st c, length (ranges_from c (uniform_from n (n `div` k) (n `mod` k) [] st left c) n) = S left) as ->; [|lia].
    induction left as [|left IH]; intros; simpl; [done|]. f_equal. apply IH.
  - intros E. rewrite E in Hl. simpl in Hl. lia.
Qed.

Lemma uniform_ranges_short n k r : 0 < k ≤ n → r ∈ uniform_ranges n k → r_end r - r_start r ≤ div_ceil n k.
Proof.
  intros Hk Hr. pose proof (Nat.div_mod_eq n k). pose proof (Nat.mod_upper_bound n k ltac:(lia)).
  pose proof (Nat.div_str_pos n k ltac:(lia)).
  apply uniform_lengths in Hr; [|lia|nia|lia|nia]. unfold div_ceil. case_decide; lia.
Qed.

Section local.
Context (m : ModelProfile) (k : nat).
Context (Hadj : adjacency m = []) (Hok : profile_ok m) (Hk : 2 ≤ k ≤ num_layers m).
Context (Hsum : (sumN (effective_layer_bytes m) ≤ u64_max)%N).
Context (Hbudget : (embedding_param_bytes m + lm_head_param_bytes m +
                    per_layer_max m * (N.of_nat (div_ceil (num_layers m) k) + 2) ≤ u64_max)%N).
Abbreviation devices := (equal_capacity_devices k m).

Lemma local_budget_eq : local_budget k m =
  (embedding_param_bytes m + lm_head_param_bytes m + per_layer_max m * (N.of_nat (div_ceil (num_layers m) k) + 2))%N.
Proof. unfold local_budget, saturating_add_u64, saturating_mul_u64. lia. Qed.

Lemma local_device i d : devices !! i = Some d → available_memory_bytes d = local_budget k m.
Proof. unfold equal_capacity_devices. rewrite list_lookup_fmap. by intros (j & _ & ->)%fmap_Some. Qed.

Lemma length_local : length devices = k.
Proof. unfold equal_capacity_devices. by rewrite length_fmap, length_seq. Qed.

Lemma reserved_le n i : (reserved m n i ≤ embedding_param_bytes m + lm_head_param_bytes m)%N.
Proof. unfold reserved. destruct (_ =? _), (_ =? _); lia. Qed.

(** Stages no heavier than the uniform split allows fit the devices. *)
Lemma local_legal rs :
  length rs = k → tiles rs (num_layers m) →
  (heaviest m rs ≤ per_layer_max m * N.of_nat (div_ceil (num_layers m) k))%N → legal m devices rs.
Proof.
  intros Hl Ht Hh. split; [by rewrite length_local|]. split; [done|]. intros i r d Hr Hd.
  rewrite (local_device i d Hd), local_budget_eq. pose proof (reserved_le (length devices) i).
  assert (load (effective_layer_bytes m) r ≤ heaviest m rs)%N.
  { apply max_of_ge, list_elem_of_fmap_2. by eapply list_elem_of_lookup_2. }
  nia.
Qed.

Lemma uniform_heaviest : (heaviest m (uniform_ranges (num_layers m) k) ≤ per_layer_max m * N.of_nat (div_ceil (num_layers m) k))%N.
Proof.
  apply max_of_le, Forall_fmap, Forall_forall. intros r Hr. simpl. etrans; [by apply load_le_max|].
  rewrite N.mul_comm. apply N.mul_le_mono_l. apply uniform_ranges_short in Hr; lia.
Qed.

Lemma local_optimal : ∃ rs, auto_partition m devices = Ok (assignments_of m devices rs) ∧ legal m devices rs ∧
  ∀ rs', length rs' = k → tiles rs' (num_layers m) → (heaviest m rs ≤ heaviest m rs')%N.
Proof.
  destruct (uniform_ranges_tile (num_layers m) k ltac:(lia)) as [Hut Hul].
  pose proof (local_legal _ Hul Hut uniform_heaviest) as Hul'.
  assert (∀ i d x, devices !! i = Some d → x ∈ effective_layer_bytes m →
     (x + reserved m (length devices) i ≤ available_memory_bytes d)%N) as Hroom.
  { intros i d x Hd Hx. rewrite (local_device i d Hd), local_budget_eq. pose proof (layer_le_max m x Hok Hx).
    pose proof (reserved_le (length devices) i). nia. }
  destruct (roomy_complete m devices Hadj Hsum Hroom _ Hul') as (rs & Ha & HL & Hbest).
  exists rs. split_and!; [done..|]. intros rs' Hl' Ht'.
  destruct (N.le_gt_cases (heaviest m rs) (heaviest m rs')) as [|Hlt]; [done|].
  apply Hbest, local_legal; [done..|]. pose proof (Hbest _ Hul'). pose proof uniform_heaviest. lia.
Qed.

End local.

(** On one machine the made-up devices never stand in the way of an automatic plan: for a profile
    without adjacency groups whose weights and budget stay within [u64], [--pp-size] between 2 and the
    number of layers always gives a plan, and its heaviest stage is the lightest of all ways to cut the
    layers into that many non-empty stages. A manual plan does depend on them: ten equal layers cut
    as 0-0,1-9 are refused for lack of memory that no device lacks. *)
Theorem in_process_plan_total (m : ModelProfile) (k : nat) :
  adjacency m = [] → profile_ok m → 2 ≤ k ≤ num_layers m →
  (sumN (effective_layer_bytes m) ≤ u64_max)%N →
  (embedding_param_bytes m + lm_head_param_bytes m +
     per_layer_max m * (N.of_nat (div_ceil (num_layers m) k) + 2) ≤ u64_max)%N →
  (∃ rs rep, resolve_stage_assignments_from_profile m (Some k) None =
       Ok (assignments_of m (equal_capacity_devices k m) rs, rep) ∧
     length rs = k ∧ tiles rs (num_layers m) ∧
     ∀ rs', length rs' = k → tiles rs' (num_layers m) → (heaviest m rs ≤ heaviest m rs')%N) ∧
  resolve_stage_assignments_from_profile (equal_stage_model_profile 10) None
    (Some (join (spell <$> [mkRange 0 1; mkRange 1 10]))) = Err (Plan (StageTooLarge 1 10240 9216)).
Proof.
  intros Hadj Hok Hk Hsum Hb. split; [|vm_compute; reflexivity].
  destruct (local_optimal m k Hadj Hok Hk Hsum Hb) as (rs & Ha & (Hl & Ht & _) & Hbest). rewrite length_local in Hl.
  unfold auto_partition in Ha. unfold resolve_stage_assignments_from_profile. cbn [ok_or_err mbind outcome_bind].
  unfold ensure. rewrite decide_True by lia. cbn [mbind outcome_bind].
  destruct (assemble_auto_partition m (equal_capacity_devices k m)) as [[l rep]|e|]; [|done..].
  injection Ha as ->. by exists rs, rep.
Qed.

Lemma in_process_plan_total_witness :
  ∃ rs rep, resolve_stage_assignments_from_profile (equal_stage_model_profile 10) (Some 3) None =
       Ok (assignments_of (equal_stage_model_profile 10) (equal_capacity_devices 3 (equal_stage_model_profile 10)) rs, rep) ∧
     length rs = 3.
Proof.
  destruct (in_process_plan_total (equal_stage_model_profile 10) 3) as [(rs & rep & H1 & H2 & _) _].
  - reflexivity.
  - exact I.
  - simpl. lia.
  - vm_compute. discriminate.
  - vm_compute. discriminate.
  - exists rs, rep. exact (conj H1 H2).
Defined.
