(* ===== verification/StreamFilter.v ===== *)
(** * The streaming content filter

    [server/tool_calls/stream_filter.rs]: the state machine that keeps reasoning and
    tool-call markers out of the deltas a client receives.  Text arrives in fragments
    cut anywhere, so a marker may straddle two of them; the filter holds back the tail
    that could still become a marker.  A Rust [String] is the list of its UTF-8 bytes:
    every marker is ASCII, so [str::find] and the slices the code takes are those of
    the bytes.  [routed] is the one-pass reference: it reads the whole text and labels
    every byte that is not part of a marker with the state it was read in. *)

From Stdlib Require Import Ascii.
From S2P Require Import Prelude.

Abbreviation str := (list ascii).

Definition bytes_of (s : string) : str := String.list_ascii_of_string s.
Definition newline : ascii := ascii_of_nat 10.

(** ** Outputs, markers and states *)

Record FilterOutput := mkOutput {
  out_content : option str;
  out_reasoning : option str;
  suppressed_positions : nat;
  consumed_positions : nat;
}.

Definition empty_output : FilterOutput := mkOutput None None 0 0.
Definition output_content (t : str) : FilterOutput := mkOutput (Some t) None 0 0.
Definition output_reasoning (t : str) : FilterOutput := mkOutput None (Some t) 0 0.

Inductive DelimiterAction := EnterThinking | ExitThinking | EnterToolCall | ExitToolCall | Strip.

Definition CHAT_DELIMITERS : list (str * DelimiterAction) := Eval cbv in
  prod_map bytes_of id <$>
  [("</think>", ExitThinking); ("<think>", EnterThinking);
   ("</mm:think>", ExitThinking); ("<mm:think>", EnterThinking);
   ("]<]minimax[>[", Strip);
   ("<|tool_call>", EnterToolCall); ("<tool_call|>", ExitToolCall);
   ("<|channel>", EnterThinking); ("<channel|>", ExitThinking);
   ("<|think|>", Strip); ("<|turn>", Strip); ("<turn|>", Strip);
   ("</tool_call>", ExitToolCall); ("<tool_call>", EnterToolCall);
   ("[TOOL_CALLS]", EnterToolCall)].

Inductive FilterState := Content | Thinking | ToolCall.

#[global] Instance FilterState_eq_dec : EqDecision FilterState.
Proof. solve_decision. Defined.

Record StreamFilter := mkFilter {
  f_state : FilterState;
  f_buffer : str;
  fragment_lengths : list nat;
  max_delim_len : nat;
}.

Definition new_filter : StreamFilter :=
  mkFilter Content [] [] (foldr (λ d m, Nat.max (length d.1) m) 0 CHAT_DELIMITERS).

Definition new_primed_open_thinking : StreamFilter :=
  mkFilter Thinking [] [] (max_delim_len new_filter).

Definition apply_action (a : DelimiterAction) (s : FilterState) : FilterState :=
  match a with
  | EnterThinking => Thinking
  | ExitThinking => Content
  | EnterToolCall => ToolCall
  | ExitToolCall => Content
  | Strip => s
  end.

(** ** Searching the buffer *)

(** [b.starts_with(d)] and [b.find(d)]. *)
Fixpoint starts_with (d b : str) : bool :=
  match d, b with
  | [], _ => true
  | x :: d', y :: b' => Ascii.eqb x y && starts_with d' b'
  | _ :: _, [] => false
  end.

Fixpoint find (d b : str) : option nat :=
  if starts_with d b then Some 0
  else match b with [] => None | _ :: b' => S <$> find d b' end.

Definition find_earliest_delimiter (b : str) : option (nat * nat * DelimiterAction) :=
  foldl (λ earliest d,
    match find d.1 b with
    | Some pos =>
      match earliest with
      | Some (best_pos, best_len, _) =>
        if (pos <? best_pos) || ((pos =? best_pos) && (best_len <? length d.1))
        then Some (pos, length d.1, d.2) else earliest
      | None => Some (pos, length d.1, d.2)
      end
    | None => earliest
    end) None CHAT_DELIMITERS.

(** A byte that starts a character: every byte but the continuation bytes [10xxxxxx]. *)
Definition char_start (c : ascii) : bool := (N_of_ascii c <? 128)%N || (192 <=? N_of_ascii c)%N.

Definition partial_delimiter (suffix : str) : bool :=
  existsb (λ d, (length suffix <? length d.1) && starts_with suffix d.1) CHAT_DELIMITERS.

Fixpoint safe_from (i check_from : nat) (suffix : str) : nat :=
  match suffix with
  | [] => i
  | c :: rest =>
    if char_start c && (check_from <=? i) && partial_delimiter suffix then i
    else safe_from (S i) check_from rest
  end.

Definition safe_emit_length (f : StreamFilter) : nat :=
  safe_from 0 (length (f_buffer f) - (max_delim_len f - 1)) (f_buffer f).

(** ** Draining *)

Fixpoint drain_fragment_lengths (fs : list nat) (n count : nat) : list nat * nat :=
  match n, fs with
  | O, _ => (fs, count)
  | _, [] => ([], count)
  | _, len :: fs' =>
    if len <=? n then drain_fragment_lengths fs' (n - len) (S count)
    else ((len - n) :: fs', S count)
  end.

(** What [drain_buffer] accumulates. *)
Record Drained := mkDrained { dr_content : str; dr_reasoning : str; dr_suppressed : nat; dr_consumed : nat }.

Definition push_text (s : FilterState) (t : str) (a : Drained) : Drained :=
  match s with
  | Content => mkDrained (dr_content a ++ t) (dr_reasoning a) (dr_suppressed a) (dr_consumed a)
  | Thinking => mkDrained (dr_content a) (dr_reasoning a ++ t) (dr_suppressed a) (dr_consumed a)
  | ToolCall => a
  end.

Definition emit_prefix (f : StreamFilter) (n : nat) (a : Drained) : StreamFilter * Drained :=
  if n =? 0 then (f, a)
  else
    let '(fs, k) := drain_fragment_lengths (fragment_lengths f) n 0 in
    let a1 := push_text (f_state f) (take n (f_buffer f)) a in
    (mkFilter (f_state f) (drop n (f_buffer f)) fs (max_delim_len f),
     mkDrained (dr_content a1) (dr_reasoning a1) (dr_suppressed a1) (dr_consumed a1 + k)).

Definition drop_delimiter (f : StreamFilter) (n : nat) (act : DelimiterAction) (a : Drained) : StreamFilter * Drained :=
  let '(fs, k) := drain_fragment_lengths (fragment_lengths f) n 0 in
  (mkFilter (apply_action act (f_state f)) (drop n (f_buffer f)) fs (max_delim_len f),
   mkDrained (dr_content a) (dr_reasoning a) (dr_suppressed a + k) (dr_consumed a + k)).

(** The loop; every turn but the last removes a marker, so the length of the buffer
    bounds the number of turns. *)
Fixpoint drain_loop (fuel : nat) (f : StreamFilter) (a : Drained) : StreamFilter * Drained :=
  match fuel with
  | O => (f, a)
  | S fuel' =>
    match f_buffer f with
    | [] => (f, a)
    | _ :: _ =>
      match find_earliest_delimiter (f_buffer f) with
      | Some (pos, len, act) =>
        let '(f1, a1) := emit_prefix f pos a in
        let '(f2, a2) := drop_delimiter f1 len act a1 in
        drain_loop fuel' f2 a2
      | None => emit_prefix f (safe_emit_length f) a
      end
    end
  end.

Definition non_empty (t : str) : option str := match t with [] => None | _ :: _ => Some t end.

Definition drain_buffer (f : StreamFilter) : StreamFilter * FilterOutput :=
  let '(f', a) := drain_loop (S (length (f_buffer f))) f (mkDrained [] [] 0 0) in
  (f', mkOutput (non_empty (dr_content a)) (non_empty (dr_reasoning a)) (dr_suppressed a) (dr_consumed a)).

Definition feed (f : StreamFilter) (fragment : str) : StreamFilter * FilterOutput :=
  match fragment with
  | [] => (f, mkOutput None None 0 1)
  | _ :: _ =>
    drain_buffer (mkFilter (f_state f) (f_buffer f ++ fragment)
                           (fragment_lengths f ++ [length fragment]) (max_delim_len f))
  end.

Definition flush (f : StreamFilter) : StreamFilter * FilterOutput :=
  let f' := mkFilter (f_state f) [] [] (max_delim_len f) in
  match f_buffer f with
  | [] => (f', empty_output)
  | _ :: _ =>
    (f', match f_state f with
         | Content => output_content (f_buffer f)
         | Thinking => output_reasoning (f_buffer f)
         | ToolCall => empty_output
         end)
  end.

(** A whole generation: every fragment is fed, then the filter is flushed. *)
Fixpoint feeds (f : StreamFilter) (fragments : list str) : StreamFilter * list FilterOutput :=
  match fragments with
  | [] => (f, [])
  | t :: ts => let '(f1, o) := feed f t in let '(f2, os) := feeds f1 ts in (f2, o :: os)
  end.

Definition filter_stream (f : StreamFilter) (fragments : list str) : list FilterOutput :=
  let '(f', os) := feeds f fragments in os ++ [(flush f').2].

Definition content_of (os : list FilterOutput) : str := concat (default [] ∘ out_content <$> os).
Definition reasoning_of (os : list FilterOutput) : str := concat (default [] ∘ out_reasoning <$> os).

(** ** The reference *)

Definition marker_at (t : str) : option (nat * DelimiterAction) :=
  (λ d, (length d.1, d.2)) <$> List.find (λ d, starts_with d.1 t) CHAT_DELIMITERS.

Fixpoint routed (s : FilterState) (skip : nat) (t : str) : list (FilterState * ascii) :=
  match t with
  | [] => []
  | c :: t' =>
    match skip with
    | S k => routed s k t'
    | O =>
      match marker_at t with
      | Some (len, act) => routed (apply_action act s) (len - 1) t'
      | None => (s, c) :: routed s 0 t'
      end
    end
  end.

Definition bytes_in (s : FilterState) (l : list (FilterState * ascii)) : str :=
  (filter (λ p, p.1 = s) l).*2.

Example split_marker :
  let os := filter_stream new_filter (bytes_of <$> ["Hi <th"; "ink>hmm</"; "think> ok"; "<tu"]) in
  (content_of os, reasoning_of os) = (bytes_of "Hi  ok<tu", bytes_of "hmm").
Proof. reflexivity. Qed.

Example split_marker_routed :
  let l := routed Content 0 (bytes_of "Hi <think>hmm</think> ok<tu") in
  (bytes_in Content l, bytes_in Thinking l) = (bytes_of "Hi  ok<tu", bytes_of "hmm").
Proof. reflexivity. Qed.

(** ** Matching *)

Lemma starts_with_prefix d b : starts_with d b = true ↔ ∃ r, b = d ++ r.
Proof.
  revert b. induction d as [|x d IH]; intros b; cbn; [naive_solver|].
  destruct b as [|y b]; [naive_solver|].
  rewrite andb_true_iff, Ascii.eqb_eq, IH. naive_solver.
Qed.

Lemma find_Some d b p :
  find d b = Some p → p ≤ length b ∧ starts_with d (drop p b) = true ∧ (∀ k, k < p → starts_with d (drop k b) = false).
Proof.
  revert p. induction b as [|c b IH]; intros p; cbn [find]; destruct (starts_with d _) eqn:E; cbn.
  - intros [= <-]. repeat split; [lia|done|lia].
  - done.
  - intros [= <-]. repeat split; [lia|done|lia].
  - intros (q & Hq & ->)%fmap_Some. apply IH in Hq as (Hle & Hm & Hn).
    split_and!; [lia|done|]. intros [|k] ?; [done|]. apply Hn. lia.
Qed.

Lemma find_None d b k : d ≠ [] → find d b = None → starts_with d (drop k b) = false.
Proof.
  intros Hd. revert k. induction b as [|c b IH]; intros k; cbn [find]; destruct (starts_with d _) eqn:E; try done.
  - intros _. by rewrite drop_nil.
  - intros Hf%fmap_None. destruct k as [|k]; [done|]. by apply IH.
Qed.

Lemma starts_with_app d b rest k :
  starts_with d (drop k (b ++ rest)) = true → k + length d ≤ length b → starts_with d (drop k b) = true.
Proof.
  rewrite !starts_with_prefix. intros [r Hr] Hlen. rewrite drop_app_le in Hr by lia.
  apply app_eq_inv in Hr as [(m & Hd & Hm)|(m & Hd & Hm)]; [by eexists|].
  assert (length m = 0) as ->%nil_length_inv; [|by rewrite Hd, app_nil_r; exists []; rewrite app_nil_r].
  apply (f_equal length) in Hd. rewrite length_app, length_drop in Hd. lia.
Qed.

Lemma starts_with_partial d b rest k :
  starts_with d (drop k (b ++ rest)) = true → k ≤ length b → length b < k + length d →
  starts_with (drop k b) d = true.
Proof.
  rewrite !starts_with_prefix. intros [r Hr] Hk Hlen. rewrite drop_app_le in Hr by lia.
  apply app_eq_inv in Hr as [(m & Hd & Hm)|(m & -> & Hm)]; [|by eexists].
  apply (f_equal length) in Hd. rewrite length_app, length_drop in Hd. lia.
Qed.

Lemma starts_with_inside d d' t k p :
  starts_with d' (drop k t) = true → starts_with d (drop p t) = true →
  k ≤ p → p + length d ≤ k + length d' → starts_with d (drop (p - k) d') = true.
Proof.
  intros [r' Hr']%starts_with_prefix Hd Hkp Hlen.
  apply (starts_with_app _ _ r'); [|lia]. rewrite <- Hr', drop_drop. by replace (k + (p - k)) with p by lia.
Qed.

(** ** The marker table *)

(** What the proofs use of the table: markers are short, start with an ASCII byte, and
    none occurs inside another. *)
Definition table_check : bool :=
  forallb (λ d, match d.1 with [] => false | c :: _ => char_start c end && (length d.1 <=? max_delim_len new_filter)) CHAT_DELIMITERS
  && forallb (λ d, forallb (λ e, forallb (λ i,
       negb (starts_with d.1 (drop i e.1)) || ((i =? 0) && bool_decide (d.1 = e.1))) (seq 0 (S (length e.1))))
       CHAT_DELIMITERS) CHAT_DELIMITERS
  && bool_decide (NoDup CHAT_DELIMITERS.*1).

Lemma table_checked : table_check = true.
Proof. vm_compute. reflexivity. Qed.

Abbreviation marker d := (d ∈ CHAT_DELIMITERS).

Lemma marker_shape d : marker d → ∃ c r, d.1 = c :: r ∧ char_start c = true ∧ length d.1 ≤ max_delim_len new_filter.
Proof.
  intros Hd. pose proof table_checked as Ht. unfold table_check in Ht.
  apply andb_true_iff in Ht as [[Ht _]%andb_true_iff _]. rewrite forallb_forall in Ht.
  apply list_elem_of_In, Ht, andb_true_iff in Hd as [Hc Hl]. apply Nat.leb_le in Hl.
  destruct d.1 as [|c r]; [done|]. by exists c, r.
Qed.

Lemma marker_nonempty d : marker d → d.1 ≠ [].
Proof. intros (c & r & -> & _)%marker_shape. done. Qed.

Lemma marker_infix_free d e i :
  marker d → marker e → starts_with d.1 (drop i e.1) = true → i = 0 ∧ d = e.
Proof.
  intros Hd He Hs. pose proof table_checked as Ht. unfold table_check in Ht.
  apply andb_true_iff in Ht as [[_ Ht]%andb_true_iff Hnd]. apply bool_decide_eq_true in Hnd.
  rewrite forallb_forall in Ht.
  pose proof (Ht d (proj1 (list_elem_of_In _ _) Hd)) as H1. rewrite forallb_forall in H1.
  pose proof (H1 e (proj1 (list_elem_of_In _ _) He)) as H2. rewrite forallb_forall in H2.
  destruct (decide (i ≤ length e.1)) as [Hi|Hi].
  - specialize (H2 i). rewrite in_seq, Hs in H2. specialize (H2 ltac:(lia)). cbn in H2.
    apply andb_true_iff in H2 as [->%Nat.eqb_eq Heq%bool_decide_eq_true]. split; [done|].
    apply list_elem_of_lookup in Hd as [n1 Hn1], He as [n2 Hn2].
    assert (n1 = n2) as ->; [|congruence].
    eapply (NoDup_lookup _ _ _ d.1); [done| |]; rewrite list_lookup_fmap; [by rewrite Hn1|by rewrite Hn2, Heq].
  - rewrite drop_ge in Hs by lia. apply marker_nonempty in Hd. by destruct d.1.
Qed.

(** ** The earliest marker *)

Lemma find_earliest_spec b :
  match find_earliest_delimiter b with
  | Some (p, len, act) =>
    (∃ d, marker (d, act) ∧ len = length d ∧ starts_with d (drop p b) = true) ∧ p ≤ length b ∧
    ∀ d k, marker d → k < p → starts_with d.1 (drop k b) = false
  | None => ∀ d k, marker d → starts_with d.1 (drop k b) = false
  end.
Proof.
  unfold find_earliest_delimiter.
  set (g := λ earliest d, _).
  assert (∀ l, l ⊆ CHAT_DELIMITERS →
    match foldl g None l with
    | Some (p, len, act) =>
      (∃ d, (d, act) ∈ l ∧ len = length d ∧ starts_with d (drop p b) = true) ∧ p ≤ length b ∧
      ∀ d k, d ∈ l → k < p → starts_with d.1 (drop k b) = false
    | None => ∀ d k, d ∈ l → starts_with d.1 (drop k b) = false
    end) as H; [|by apply H].
  induction l as [|[d act] l IH] using rev_ind; intros Hl; [by intros ?? ?%not_elem_of_nil|].
  rewrite foldl_snoc. specialize (IH ltac:(set_solver)).
  assert (d ≠ []) as Hne by (apply (marker_nonempty (d, act)); set_solver).
  unfold g at 1. cbn [fst snd]. destruct (find d b) as [pos|] eqn:Hf.
  - apply find_Some in Hf as (Hple & Hm & Hn).
    destruct (foldl g None l) as [[[bp bl] ba]|].
    + destruct IH as ((e & He & -> & Hse) & Hble & Hall).
      destruct ((pos <? bp) || ((pos =? bp) && (length e <? length d))) eqn:Hc.
      * assert (pos ≤ bp) as Hle.
        { apply orb_true_iff in Hc as [?%Nat.ltb_lt|[?%Nat.eqb_eq _]%andb_true_iff]; lia. }
        split_and!; [exists d; set_solver|done|]. intros x k [Hx| ->%list_elem_of_singleton]%elem_of_app Hk; [|by apply Hn].
        apply Hall; [done|lia].
      * assert (bp ≤ pos) as Hle.
        { apply orb_false_iff in Hc as [?%Nat.ltb_ge _]. lia. }
        split_and!; [exists e; set_solver|done|]. intros x k [Hx| ->%list_elem_of_singleton]%elem_of_app Hk; [by apply Hall|].
        apply Hn. lia.
    + split_and!; [exists d; set_solver|done|]. intros x k [Hx| ->%list_elem_of_singleton]%elem_of_app Hk; [by apply IH|by apply Hn].
  - assert (∀ k, starts_with d (drop k b) = false) as Hn by (intros k; by apply find_None).
    destruct (foldl g None l) as [[[bp bl] ba]|].
    + destruct IH as ((e & He & -> & Hse) & Hble & Hall).
      split_and!; [exists e; set_solver|done|]. intros x k [Hx| ->%list_elem_of_singleton]%elem_of_app Hk; [by apply Hall|by apply Hn].
    + intros x k [Hx| ->%list_elem_of_singleton]%elem_of_app; [by apply IH|by apply Hn].
Qed.

(** ** The reference, one segment at a time *)

Definition unmarked (t : str) (k : nat) : Prop := ∀ d, marker d → starts_with d.1 (drop k t) = false.

Lemma marker_at_hit d t : marker d → starts_with d.1 t = true → marker_at t = Some (length d.1, d.2).
Proof.
  intros Hd Hs. unfold marker_at. destruct (List.find _ _) as [e|] eqn:E.
  - apply find_some in E as [He%list_elem_of_In Hse]. cbn.
    assert (d = e) as ->; [|done].
    destruct (decide (length d.1 ≤ length e.1)) as [Hle|Hle].
    + apply (marker_infix_free d e 0); [done..|].
      apply (starts_with_inside _ _ t 0 0); [done..|lia].
    + symmetry. apply (marker_infix_free e d 0); [done..|].
      apply (starts_with_inside _ _ t 0 0); [done..|lia].
  - apply list_elem_of_In in Hd. eapply find_none in E; [|done]. congruence.
Qed.

Lemma marker_at_miss t : unmarked t 0 → marker_at t = None.
Proof.
  intros Hu. unfold marker_at. destruct (List.find _ _) as [e|] eqn:E; [|done].
  apply find_some in E as [He%list_elem_of_In Hse]. specialize (Hu e He). rewrite drop_0 in Hu. congruence.
Qed.

Lemma routed_skip s k t : routed s k t = routed s 0 (drop k t).
Proof. revert k. induction t as [|c t IH]; intros [|k]; cbn [routed drop]; [done..|apply IH]. Qed.

Lemma routed_marker s d t :
  marker d → starts_with d.1 t = true → routed s 0 t = routed (apply_action d.2 s) 0 (drop (length d.1) t).
Proof.
  intros Hd Hs. pose proof (marker_nonempty d Hd) as Hne. pose proof (marker_at_hit d t Hd Hs) as Hm.
  destruct t as [|c t]; [by destruct d.1|]. cbn [routed]. rewrite Hm, routed_skip.
  destruct d.1 as [|x r]; [done|]. cbn. by rewrite Nat.sub_0_r.
Qed.

Lemma routed_plain s n t :
  n ≤ length t → (∀ k, k < n → unmarked t k) → routed s 0 t = (pair s <$> take n t) ++ routed s 0 (drop n t).
Proof.
  revert t. induction n as [|n IH]; intros t Hn Hu; [done|]. destruct t as [|c t]; cbn in Hn; [lia|].
  cbn [routed take drop]. rewrite marker_at_miss by (apply Hu; lia). csimpl. f_equal.
  apply IH; [lia|]. intros k Hk. apply (Hu (S k)). lia.
Qed.

Lemma bytes_in_app s l1 l2 : bytes_in s (l1 ++ l2) = bytes_in s l1 ++ bytes_in s l2.
Proof. unfold bytes_in. by rewrite filter_app, fmap_app. Qed.

Lemma bytes_in_same s t : bytes_in s (pair s <$> t) = t.
Proof.
  unfold bytes_in. rewrite filter_all; [|by apply Forall_fmap, Forall_forall].
  rewrite <- list_fmap_compose. apply list_fmap_id.
Qed.

Lemma bytes_in_other s s' t : s ≠ s' → bytes_in s (pair s' <$> t) = [].
Proof.
  intros Hne. unfold bytes_in. rewrite filter_none; [done|]. apply Forall_fmap, Forall_forall. intros x _. cbn. congruence.
Qed.

(** ** What a drain emits *)

(** [routes f a f' a']: the text added to the accumulators is what the reference routes
    before reaching the state [f'], whatever text follows. *)
Definition routes (f : StreamFilter) (a : Drained) (f' : StreamFilter) (a' : Drained) : Prop :=
  (∃ out, dr_content a' = dr_content a ++ bytes_in Content out ∧
          dr_reasoning a' = dr_reasoning a ++ bytes_in Thinking out ∧
          ∀ rest, routed (f_state f) 0 (f_buffer f ++ rest) = out ++ routed (f_state f') 0 (f_buffer f' ++ rest)) ∧
  max_delim_len f' = max_delim_len f.

Lemma routes_refl f a : routes f a f a.
Proof. split; [|done]. exists []. by rewrite !app_nil_r. Qed.

Lemma routes_trans f1 a1 f2 a2 f3 a3 : routes f1 a1 f2 a2 → routes f2 a2 f3 a3 → routes f1 a1 f3 a3.
Proof.
  intros [(o1 & Hc1 & Hr1 & H1) Hm1] [(o2 & Hc2 & Hr2 & H2) Hm2]. split; [|congruence]. exists (o1 ++ o2).
  rewrite !bytes_in_app, Hc2, Hr2, Hc1, Hr1, !app_assoc. split_and!; [done..|].
  intros rest. by rewrite H1, H2, app_assoc.
Qed.

Lemma emit_prefix_fields f n a f' a' :
  emit_prefix f n a = (f', a') → n ≤ length (f_buffer f) →
  f_state f' = f_state f ∧ f_buffer f' = drop n (f_buffer f) ∧ max_delim_len f' = max_delim_len f ∧
  dr_content a' = dr_content a ++ bytes_in Content (pair (f_state f) <$> take n (f_buffer f)) ∧
  dr_reasoning a' = dr_reasoning a ++ bytes_in Thinking (pair (f_state f) <$> take n (f_buffer f)).
Proof.
  unfold emit_prefix. destruct (Nat.eqb_spec n 0) as [->|_].
  - intros [= <- <-] _. cbn. by rewrite !app_nil_r.
  - destruct (drain_fragment_lengths _ _ _) as [fs k]. intros [= <- <-] _. cbn.
    unfold push_text. destruct (f_state f); cbn; rewrite ?bytes_in_same, ?(bytes_in_other Content), ?(bytes_in_other Thinking), ?app_nil_r by done; done.
Qed.

Lemma emit_prefix_routes f n a f' a' :
  emit_prefix f n a = (f', a') → n ≤ length (f_buffer f) →
  (∀ rest k, k < n → unmarked (f_buffer f ++ rest) k) → routes f a f' a'.
Proof.
  intros He Hn Hu. apply emit_prefix_fields in He as (Hs & Hb & Hm & Hc & Hr); [|done].
  split; [|done]. exists (pair (f_state f) <$> take n (f_buffer f)). split_and!; [done..|].
  intros rest. rewrite (routed_plain _ n); [|rewrite length_app; lia|by apply Hu].
  by rewrite take_app_le, drop_app_le, Hs, Hb by lia.
Qed.

Lemma drop_delimiter_routes f d a f' a' :
  drop_delimiter f (length d.1) d.2 a = (f', a') → marker d → starts_with d.1 (f_buffer f) = true → routes f a f' a'.
Proof.
  unfold drop_delimiter. destruct (drain_fragment_lengths _ _ _) as [fs k]. intros [= <- <-] Hd Hs.
  split; [|done]. exists []. cbn. rewrite !app_nil_r. split_and!; [done..|]. intros rest.
  apply starts_with_prefix in Hs as [r Hr]. rewrite Hr, drop_app_length, <- app_assoc.
  rewrite (routed_marker _ d); [by rewrite drop_app_length|done|]. apply starts_with_prefix. by eexists.
Qed.

(** ** No marker is emitted *)

Lemma earliest_unmarked b p len act rest k :
  find_earliest_delimiter b = Some (p, len, act) → k < p → unmarked (b ++ rest) k.
Proof.
  intros Hf Hk e He. pose proof (find_earliest_spec b) as Hspec. rewrite Hf in Hspec.
  destruct Hspec as ((d & Hd & -> & Hs) & Hp & Hn). destruct (starts_with e.1 (drop k (b ++ rest))) eqn:E; [|done]. exfalso.
  destruct (decide (k + length e.1 ≤ length b)) as [Hle|Hgt].
  - apply starts_with_app in E; [|done]. by rewrite Hn in E.
  - assert (length d ≤ length b - p) as Hdl.
    { apply starts_with_prefix in Hs as [r Hr]. apply (f_equal length) in Hr. rewrite length_drop, length_app in Hr. lia. }
    assert (starts_with d (drop p (b ++ rest)) = true) as Hs'.
    { rewrite drop_app_le by lia. apply starts_with_prefix in Hs as [r ->]. apply starts_with_prefix.
      exists (r ++ rest). by rewrite app_assoc. }
    pose proof (starts_with_inside d e.1 _ k p E Hs' ltac:(lia) ltac:(lia)) as Hin.
    apply (marker_infix_free (d, act) e) in Hin as [? _]; [lia|done..].
Qed.

Lemma safe_from_spec i cf b k :
  k < length b → cf ≤ i + k → partial_delimiter (drop k b) = true →
  (∃ c r, drop k b = c :: r ∧ char_start c = true) → safe_from i cf b ≤ i + k.
Proof.
  revert i k. induction b as [|c b IH]; intros i k Hk Hcf Hp Hc; cbn [length] in Hk; [lia|].
  cbn [safe_from]. destruct k as [|k].
  - destruct Hc as (x & r & [= <- <-] & Hx). rewrite drop_0 in Hp. rewrite Hx, Hp.
    destruct (Nat.leb_spec cf i); cbn [andb]; lia.
  - cbn [drop] in Hp, Hc. destruct (char_start c && (cf <=? i) && partial_delimiter (c :: b)); [lia|]. pose proof (IH (S i) k ltac:(lia) ltac:(lia) Hp Hc). lia.
Qed.

Lemma safe_from_le i cf b : safe_from i cf b ≤ i + length b.
Proof. revert i. induction b as [|c b IH]; intros i; cbn [safe_from length]; [lia|].
  destruct (_ && _ && _); [lia|]. specialize (IH (S i)). lia. Qed.

Lemma safe_emit_le f : safe_emit_length f ≤ length (f_buffer f).
Proof. apply safe_from_le. Qed.

Lemma safe_unmarked f rest k :
  max_delim_len f = max_delim_len new_filter → find_earliest_delimiter (f_buffer f) = None →
  k < safe_emit_length f → unmarked (f_buffer f ++ rest) k.
Proof.
  intros Hmax Hf Hk e He. pose proof (safe_emit_le f) as Hle. pose proof (find_earliest_spec (f_buffer f)) as Hspec.
  rewrite Hf in Hspec. destruct (starts_with e.1 (drop k (f_buffer f ++ rest))) eqn:E; [|done]. exfalso.
  destruct (decide (k + length e.1 ≤ length (f_buffer f))) as [Hin|Hout].
  - apply starts_with_app in E; [|done]. by rewrite Hspec in E.
  - destruct (marker_shape e He) as (c & r & Hcr & Hc & Hlen).
    apply starts_with_partial in E; [|lia..].
    assert (safe_emit_length f ≤ k); [|lia].
    apply (safe_from_spec 0); [lia|lia| |].
    + apply existsb_exists. exists e. split; [by apply list_elem_of_In|]. rewrite E, length_drop, andb_true_r. apply Nat.ltb_lt. lia.
    + apply starts_with_prefix in E as [x Hx]. rewrite Hcr in Hx.
      destruct (drop k (f_buffer f)) as [|y l] eqn:Hy.
      * apply (f_equal length) in Hy. rewrite length_drop in Hy. cbn in Hy. lia.
      * exists y, l. split; [done|]. by injection Hx as -> _.
Qed.

Lemma safe_from_tail i cf b :
  safe_from i cf b = i + length b ∨ ∃ k, safe_from i cf b = i + k ∧ k < length b ∧ partial_delimiter (drop k b) = true.
Proof.
  revert i. induction b as [|c b IH]; intros i; cbn [safe_from length].
  - left. lia.
  - destruct (_ && _ && _) eqn:E.
    + right. exists 0. apply andb_true_iff in E as [_ E]. split_and!; [lia|lia|done].
    + destruct (IH (S i)) as [->|(k & -> & Hk & Hp)]; [left; lia|]. right. exists (S k). split_and!; [lia|lia|done].
Qed.

Lemma safe_tail_short f : length (f_buffer f) - safe_emit_length f < max_delim_len new_filter.
Proof.
  destruct (safe_from_tail 0 (length (f_buffer f) - (max_delim_len f - 1)) (f_buffer f)) as [H|(k & H & Hk & Hp)];
    unfold safe_emit_length; rewrite H; [cbn; lia|].
  apply existsb_exists in Hp as (e & He%list_elem_of_In & [Hlt%Nat.ltb_lt _]%andb_true_iff).
  destruct (marker_shape e He) as (_ & _ & _ & _ & Hlen). rewrite length_drop in Hlt. lia.
Qed.

(** ** The loop *)

Lemma drain_loop_routes fuel f a f' a' :
  length (f_buffer f) < fuel → max_delim_len f = max_delim_len new_filter → drain_loop fuel f a = (f', a') →
  routes f a f' a' ∧ length (f_buffer f') < max_delim_len new_filter ∧ ∀ k, unmarked (f_buffer f') k.
Proof.
  revert f a. induction fuel as [|fuel IH]; intros f a Hfuel Hmax; [lia|]. cbn [drain_loop].
  destruct (f_buffer f) as [|c b] eqn:Hb.
  - intros [= <- <-]. split_and!; [apply routes_refl|rewrite Hb; cbn; lia|].
    rewrite Hb. intros k d Hd. rewrite drop_nil. apply marker_nonempty in Hd. by destruct d.1.
  - rewrite <- Hb in *. clear Hb c b. destruct (find_earliest_delimiter _) as [[[p len] act]|] eqn:Hf.
    + destruct (emit_prefix f p a) as [f1 a1] eqn:He, (drop_delimiter f1 len act a1) as [f2 a2] eqn:Hd. intros Hl.
      pose proof (find_earliest_spec (f_buffer f)) as Hspec. rewrite Hf in Hspec.
      destruct Hspec as ((d & Hdm & -> & Hs) & Hp & _).
      assert (routes f a f1 a1) as Hr1.
      { eapply emit_prefix_routes; [done..|]. intros rest k. by eapply earliest_unmarked. }
      apply emit_prefix_fields in He as (_ & Hb1 & Hm1 & _); [|done].
      assert (routes f1 a1 f2 a2) as Hr2.
      { apply (drop_delimiter_routes f1 (d, act)); [done..|]. by rewrite Hb1. }
      assert (f_buffer f2 = drop (length d) (f_buffer f1)) as Hb2.
      { unfold drop_delimiter in Hd. destruct (drain_fragment_lengths _ _ _). by injection Hd as <- <-. }
      pose proof (marker_nonempty _ Hdm) as Hne. cbn in Hne. destruct d as [|c0 d0]; [done|].
      apply IH in Hl as (Hr3 & Hrest); [| |by rewrite (proj2 Hr2), Hm1].
      * split; [|done]. eapply routes_trans; [done|]. by eapply routes_trans.
      * rewrite Hb2, Hb1, !length_drop. apply (f_equal length) in Hb1. rewrite length_drop in Hb1.
        apply starts_with_prefix in Hs as [r Hr]. apply (f_equal length) in Hr. rewrite length_drop, length_app in Hr. cbn [length] in *. lia.
    + intros He. pose proof (safe_emit_le f) as Hle. pose proof (safe_tail_short f) as Hshort.
      assert (routes f a f' a') as Hr.
      { eapply emit_prefix_routes; [done..|]. intros rest k. by apply safe_unmarked. }
      apply emit_prefix_fields in He as (_ & Hb & _); [|done]. rewrite Hb. split_and!; [done|by rewrite length_drop|].
      intros k d Hd. rewrite drop_drop. pose proof (find_earliest_spec (f_buffer f)) as Hspec. rewrite Hf in Hspec. by apply Hspec.
Qed.

Lemma non_empty_default t : default [] (non_empty t) = t.
Proof. by destruct t. Qed.

Lemma feed_spec f t f' o :
  max_delim_len f = max_delim_len new_filter → length (f_buffer f) < max_delim_len new_filter → (∀ k, unmarked (f_buffer f) k) →
  feed f t = (f', o) →
  routes (mkFilter (f_state f) (f_buffer f ++ t) (fragment_lengths f) (max_delim_len f)) (mkDrained [] [] 0 0) f'
    (mkDrained (default [] (out_content o)) (default [] (out_reasoning o)) 0 0) ∧
  max_delim_len f' = max_delim_len new_filter ∧ length (f_buffer f') < max_delim_len new_filter ∧ ∀ k, unmarked (f_buffer f') k.
Proof.
  intros Hmax Hlen Hu. unfold feed. destruct t as [|c t].
  - intros [= <- <-]. cbn. split_and!; [|done..]. rewrite app_nil_r. destruct f. apply routes_refl.
  - unfold drain_buffer. destruct (drain_loop _ _ _) as [f1 a1] eqn:Hl. intros [= <- <-].
    apply drain_loop_routes in Hl as ([(out & Hc & Hr & H) Hm] & Hs & Hun); [|cbn; lia|done].
    cbn [f_state f_buffer max_delim_len out_content out_reasoning] in *. rewrite !non_empty_default. split_and!; [|congruence|done..].
    split; [|done]. by exists out.
Qed.

Lemma feeds_spec f fragments f' os :
  max_delim_len f = max_delim_len new_filter → length (f_buffer f) < max_delim_len new_filter → (∀ k, unmarked (f_buffer f) k) →
  feeds f fragments = (f', os) →
  (∃ out, content_of os = bytes_in Content out ∧ reasoning_of os = bytes_in Thinking out ∧
     routed (f_state f) 0 (f_buffer f ++ concat fragments) = out ++ routed (f_state f') 0 (f_buffer f')) ∧
  max_delim_len f' = max_delim_len new_filter ∧ length (f_buffer f') < max_delim_len new_filter ∧ ∀ k, unmarked (f_buffer f') k.
Proof.
  revert f f' os. induction fragments as [|t ts IH]; intros f f' os Hm Hl Hu; cbn [feeds].
  - intros [= <- <-]. split_and!; [|done..]. exists []. cbn. by rewrite app_nil_r.
  - destruct (feed f t) as [f1 o] eqn:Hf, (feeds f1 ts) as [f2 os'] eqn:Hfs. intros [= <- <-].
    apply feed_spec in Hf as ([(o1 & Hc1 & Hr1 & H1) _] & Hm1 & Hl1 & Hu1); [|done..].
    apply IH in Hfs as ((o2 & Hc2 & Hr2 & H2) & Hrest); [|done..]. cbn in Hc1, Hr1, H1.
    split; [|done]. exists (o1 ++ o2). unfold content_of, reasoning_of in *. csimpl.
    rewrite !bytes_in_app, <- Hc1, <- Hr1, Hc2, Hr2. split_and!; [done..|].
    by rewrite app_assoc, H1, H2, app_assoc.
Qed.

Lemma flush_spec f : (∀ k, unmarked (f_buffer f) k) →
  default [] (out_content (flush f).2) = bytes_in Content (routed (f_state f) 0 (f_buffer f)) ∧
  default [] (out_reasoning (flush f).2) = bytes_in Thinking (routed (f_state f) 0 (f_buffer f)).
Proof.
  intros Hu. rewrite (routed_plain _ (length (f_buffer f))) by done.
  rewrite drop_ge, take_ge by done. cbn [routed]. rewrite app_nil_r. unfold flush.
  destruct (f_buffer f) as [|c b]; [done|].
  destruct (f_state f); cbn [snd out_content out_reasoning default]; by rewrite ?bytes_in_same, ?bytes_in_other by done.
Qed.

Lemma new_filter_ready f : f = new_filter ∨ f = new_primed_open_thinking →
  max_delim_len f = max_delim_len new_filter ∧ f_buffer f = [].
Proof. by intros [->| ->]. Qed.

(** The filter does not depend on how the text was cut: whatever the fragments, content
    and reasoning deltas are those the one-pass reference reads off the whole text. *)
Lemma filter_stream_routed f fragments :
  f = new_filter ∨ f = new_primed_open_thinking →
  let os := filter_stream f fragments in
  let text := routed (f_state f) 0 (concat fragments) in
  content_of os = bytes_in Content text ∧ reasoning_of os = bytes_in Thinking text.
Proof.
  intros [Hm Hb]%new_filter_ready os text. unfold os, filter_stream.
  destruct (feeds f fragments) as [f' fos] eqn:Hf.
  apply feeds_spec in Hf as ((out & Hc & Hr & H) & _ & _ & Hu); [|done|by rewrite Hb; cbn; lia|].
  - pose proof (flush_spec f' Hu) as [Hfc Hfr]. rewrite Hb in H. cbn in H.
    unfold text, content_of, reasoning_of in *. rewrite H, !fmap_app, !concat_app, !bytes_in_app. cbn [fmap list_fmap concat].
    rewrite !app_nil_r, Hc, Hr. cbn. by rewrite Hfc, Hfr.
  - rewrite Hb. intros k d Hd. rewrite drop_nil. apply marker_nonempty in Hd. by destruct d.1.
Qed.

(** ** Token positions *)

Definition lengths_match (f : StreamFilter) : Prop := sum_list (fragment_lengths f) = length (f_buffer f).

(** [accounts f a f' a']: the byte queue follows the buffer, and the positions counted
    as consumed cover every fragment that left the queue. *)
Definition accounts (f : StreamFilter) (a : Drained) (f' : StreamFilter) (a' : Drained) : Prop :=
  lengths_match f' ∧
  dr_consumed a + length (fragment_lengths f) ≤ dr_consumed a' + length (fragment_lengths f') ∧
  dr_suppressed a' + dr_consumed a ≤ dr_consumed a' + dr_suppressed a.

Lemma accounts_trans f1 a1 f2 a2 f3 a3 : accounts f1 a1 f2 a2 → accounts f2 a2 f3 a3 → accounts f1 a1 f3 a3.
Proof. intros (? & ? & ?) (? & ? & ?). split_and!; [done|lia|lia]. Qed.

Lemma drain_fragment_lengths_spec fs n c fs' c' :
  drain_fragment_lengths fs n c = (fs', c') → n ≤ sum_list fs →
  sum_list fs' + n = sum_list fs ∧ c + length fs ≤ c' + length fs'.
Proof.
  revert n c. induction fs as [|l fs IH]; intros [|n] c; cbn [drain_fragment_lengths]; intros H Hn;
    [by injection H as <- <-; cbn; lia|by cbn in Hn; lia|by injection H as <- <-; cbn; lia|].
  destruct (Nat.leb_spec l (S n)) as [Hl|Hl].
  - change (sum_list (l :: fs)) with (l + sum_list fs) in *. apply IH in H; [cbn [length]; lia|lia].
  - injection H as <- <-. change (sum_list (l :: fs)) with (l + sum_list fs) in *.
    change (sum_list (l - S n :: fs)) with (l - S n + sum_list fs). cbn [length]. lia.
Qed.

Lemma emit_prefix_accounts f n a f' a' :
  emit_prefix f n a = (f', a') → n ≤ length (f_buffer f) → lengths_match f → accounts f a f' a'.
Proof.
  unfold emit_prefix, accounts, lengths_match. destruct (n =? 0); [intros [= <- <-] _ ?; split_and!; [done|lia|lia]|].
  destruct (drain_fragment_lengths _ _ _) as [fs k] eqn:E. intros [= <- <-] Hn Hl.
  apply drain_fragment_lengths_spec in E as [Hs Hc]; [|lia]. cbn [f_buffer fragment_lengths].
  rewrite length_drop. unfold push_text. destruct (f_state f); cbn; lia.
Qed.

Lemma drop_delimiter_accounts f n act a f' a' :
  drop_delimiter f n act a = (f', a') → n ≤ length (f_buffer f) → lengths_match f → accounts f a f' a'.
Proof.
  unfold drop_delimiter, accounts, lengths_match. destruct (drain_fragment_lengths _ _ _) as [fs k] eqn:E.
  intros [= <- <-] Hn Hl. apply drain_fragment_lengths_spec in E as [Hs Hc]; [|lia]. cbn. rewrite length_drop. lia.
Qed.

Lemma drain_loop_accounts fuel f a f' a' :
  lengths_match f → drain_loop fuel f a = (f', a') → accounts f a f' a'.
Proof.
  revert f a. induction fuel as [|fuel IH]; intros f a Hl; cbn [drain_loop].
  { intros [= <- <-]. split_and!; [done|lia|lia]. }
  destruct (f_buffer f) eqn:Hb; [intros [= <- <-]; split_and!; [done|lia|lia]|]. rewrite <- Hb in *. clear Hb.
  destruct (find_earliest_delimiter _) as [[[p len] act]|] eqn:Hf.
  - destruct (emit_prefix f p a) as [f1 a1] eqn:He, (drop_delimiter f1 len act a1) as [f2 a2] eqn:Hd. intros Hr.
    pose proof (find_earliest_spec (f_buffer f)) as Hspec. rewrite Hf in Hspec.
    destruct Hspec as ((d & _ & -> & Hs) & Hp & _).
    pose proof (emit_prefix_fields _ _ _ _ _ He Hp) as (_ & Hb1 & _).
    apply emit_prefix_accounts in He; [|done..].
    apply drop_delimiter_accounts in Hd; [| |apply He].
    + apply IH in Hr; [|apply Hd]. eapply accounts_trans; [done|]. by eapply accounts_trans.
    + rewrite Hb1. apply starts_with_prefix in Hs as [r ->]. rewrite length_app. lia.
  - intros He. eapply emit_prefix_accounts; [done|apply safe_emit_le|done].
Qed.

Lemma feed_accounts f t f' o :
  lengths_match f → feed f t = (f', o) →
  lengths_match f' ∧ S (length (fragment_lengths f)) ≤ consumed_positions o + length (fragment_lengths f') ∧
  suppressed_positions o ≤ consumed_positions o.
Proof.
  unfold feed. intros Hl. destruct t as [|c t].
  - intros [= <- <-]. cbn. split_and!; [done|lia|lia].
  - unfold drain_buffer. destruct (drain_loop _ _ _) as [f1 a1] eqn:E. intros [= <- <-].
    apply drain_loop_accounts in E as (H1 & H2 & H3).
    + cbn [fragment_lengths dr_consumed dr_suppressed] in H2, H3. rewrite length_app in H2.
      cbn [length] in H2. split_and!; [done|cbn; lia|cbn; lia].
    + clear E. unfold lengths_match in *. cbn [fragment_lengths f_buffer]. rewrite sum_list_with_app, length_app, Hl. cbn. lia.
Qed.

Lemma feeds_accounts f fragments f' os :
  lengths_match f → feeds f fragments = (f', os) →
  lengths_match f' ∧ Forall (λ o, suppressed_positions o ≤ consumed_positions o) os ∧
  length (fragment_lengths f) + length fragments ≤ sum_list (consumed_positions <$> os) + length (fragment_lengths f').
Proof.
  revert f f' os. induction fragments as [|t ts IH]; intros f f' os Hl; cbn [feeds].
  - intros [= <- <-]. split_and!; [done|constructor|cbn; lia].
  - destruct (feed f t) as [f1 o] eqn:Hf, (feeds f1 ts) as [f2 os'] eqn:Hfs. intros [= <- <-].
    apply feed_accounts in Hf as (H1 & H2 & H3); [|done]. apply IH in Hfs as (H4 & H5 & H6); [|done].
    split_and!; [done|by constructor|]. csimpl. change (sum_list (?x :: ?l)) with (x + sum_list l).
    change (length (t :: ts)) with (S (length ts)). lia.
Qed.

(** C39. Bounds of the streaming filter.  After any number of fragments it holds back fewer
    bytes than its longest marker has, the queue of fragment lengths adds up to the
    buffer, every output suppresses no more positions than it consumes, and the
    positions consumed so far cover every fragment that is no longer buffered. *)
Theorem stream_filter_bounded f fragments :
  f = new_filter ∨ f = new_primed_open_thinking →
  let f' := (feeds f fragments).1 in
  let os := (feeds f fragments).2 in
  length (f_buffer f') ≤ 12 ∧ sum_list (fragment_lengths f') = length (f_buffer f') ∧
  Forall (λ o, suppressed_positions o ≤ consumed_positions o) os ∧
  length fragments ≤ sum_list (consumed_positions <$> os) + length (fragment_lengths f').
Proof.
  intros Hstart. destruct (new_filter_ready f Hstart) as [Hm Hb]. destruct (feeds f fragments) as [f' os] eqn:Hf.
  assert (lengths_match f ∧ length (fragment_lengths f) = 0) as [Hl H0] by (by destruct Hstart as [->| ->]).
  pose proof (feeds_accounts _ _ _ _ Hl Hf) as (H1 & H2 & H3).
  apply feeds_spec in Hf as (_ & _ & Hs & _); [|done|by rewrite Hb; cbn; lia|].
  - split_and!; [|done..|cbn [fst snd]; lia]. change (max_delim_len new_filter) with 13 in Hs. cbn [fst]. lia.
  - rewrite Hb. intros k d Hd. rewrite drop_nil. apply marker_nonempty in Hd. by destruct d.1.
Qed.

Lemma stream_filter_bounded_witness :
  length (f_buffer (feeds new_filter (bytes_of <$> ["a<"; "thin"])).1) ≤ 12.
Proof. exact (proj1 (stream_filter_bounded new_filter (bytes_of <$> ["a<"; "thin"]) (or_introl eq_refl))). Defined.

(** A fragment whose bytes are partly emitted and partly a marker is counted once for
    each part: one token, two consumed positions. *)
Example straddling_fragment_counted_twice :
  consumed_positions (feed new_filter (bytes_of "a<think>")).2 = 2.
Proof. reflexivity. Qed.
