(* ===== verification/TtlStore.v ===== *)
(** * The response and conversation stores

    [server/responses_store.rs] and [server/conversation_store.rs]: two maps from ids to
    entries with a time to live and least-recently-used eviction, and the registry of
    cancellation tokens of the streaming responses.  The private helpers of the two
    stores are the same text; they are modelled once, over the type of the payload.
    [Instant]s and [Duration]s are nanoseconds, [now] being the value of
    [Instant::now()] in the call.  [HashMap] iteration is [str_iter]: any order of the
    entries, which decides between equal time stamps.  The locks make every operation
    one step; a poisoned lock is used as if it were not. *)

From S2P Require Import Prelude.
From S2P Require Import ClusterNodes.

(** ** Entries, expiry and eviction *)

Record Entry (V : Type) := mkEntry { payload : V; inserted_at : N; last_accessed : N }.
Arguments mkEntry {V} _ _ _.
Arguments payload {V} _.
Arguments inserted_at {V} _.
Arguments last_accessed {V} _.

Record StoreConfig := mkStoreConfig { max_entries : nat; ttl : N }.

Section entries.
Context {V : Type} `{!StringOrder}.
Implicit Types (m : gmap string (Entry V)) (e : Entry V) (now : N).

(** [now.saturating_duration_since(inserted_at) < ttl]. *)
Definition fresh (c : StoreConfig) now e : Prop := (now - inserted_at e < ttl c)%N.
#[global] Instance fresh_dec c now e : Decision (fresh c now e).
Proof. unfold fresh. apply _. Defined.

Definition sweep_expired (c : StoreConfig) now m : gmap string (Entry V) :=
  filter (λ p, fresh c now p.2) m.

(** [Iterator::min_by_key]: the first of the least. *)
Fixpoint min_by_access (l : list (string * Entry V)) : option (string * Entry V) :=
  match l with
  | [] => None
  | x :: l' =>
    match min_by_access l' with
    | None => Some x
    | Some y => if (last_accessed x.2 <=? last_accessed y.2)%N then Some x else Some y
    end
  end.

Fixpoint evict_loop (fuel target_size : nat) m : gmap string (Entry V) :=
  match fuel with
  | O => m
  | S fuel' =>
    if target_size <? size m then
      match min_by_access (str_iter m) with
      | None => m
      | Some (victim, _) => evict_loop fuel' target_size (delete victim m)
      end
    else m
  end.

(** Each turn of the [while] loop removes an entry. *)
Definition evict_to_capacity m (target_size : nat) : gmap string (Entry V) := evict_loop (size m) target_size m.

(** [map.get_mut(id)] with the new access time. *)
Definition touch now (id : string) m : gmap string (Entry V) * option V :=
  match m !! id with
  | None => (m, None)
  | Some e => (<[id := mkEntry (payload e) (inserted_at e) now]> m, Some (payload e))
  end.

Definition store_get (c : StoreConfig) now (id : string) m : gmap string (Entry V) * option V :=
  touch now id (sweep_expired c now m).

Definition store_insert (c : StoreConfig) now (id : string) (v : V) m : gmap string (Entry V) :=
  <[id := mkEntry v now now]> (evict_to_capacity (sweep_expired c now m) (max_entries c - 1)).

Definition store_remove (id : string) m : gmap string (Entry V) * option V := (delete id m, payload <$> m !! id).

(** ** Eviction *)

Lemma min_by_access_spec l x :
  min_by_access l = Some x → x ∈ l ∧ ∀ y, y ∈ l → (last_accessed x.2 ≤ last_accessed y.2)%N.
Proof.
  revert x. induction l as [|y l IH]; intros x; cbn; [done|].
  destruct (min_by_access l) as [z|] eqn:Hz.
  - destruct (IH z eq_refl) as [Hin Hle]. destruct (N.leb_spec (last_accessed y.2) (last_accessed z.2)) as [Hyz|Hyz].
    + intros [= <-]. split; [by left|]. intros w [->|Hw]%elem_of_cons; [done|]. specialize (Hle w Hw). lia.
    + intros [= <-]. split; [by right|]. intros w [->|Hw]%elem_of_cons; [lia|by apply Hle].
  - intros [= <-]. split; [by left|]. intros w [->|Hw]%elem_of_cons; [done|].
    destruct l; [by apply not_elem_of_nil in Hw|]. cbn in Hz. destruct (min_by_access l); [by case_match|done].
Qed.

Lemma min_by_access_None l : min_by_access l = None → l = [].
Proof. destruct l as [|x l]; [done|]. cbn. destruct (min_by_access l); [by case_match|done]. Qed.

Lemma min_str_iter m k e :
  min_by_access (str_iter m) = Some (k, e) →
  m !! k = Some e ∧ ∀ k' e', m !! k' = Some e' → (last_accessed e ≤ last_accessed e')%N.
Proof.
  intros [Hin Hle]%min_by_access_spec. rewrite str_iter_perm in Hin. split; [by apply elem_of_map_to_list|].
  intros k' e' Hk'. apply (Hle (k', e')). rewrite str_iter_perm. by apply elem_of_map_to_list.
Qed.

Lemma min_str_iter_None m : min_by_access (str_iter m) = None → size m = 0.
Proof.
  intros Hl%min_by_access_None. rewrite <- length_map_to_list, <- str_iter_perm. by rewrite Hl.
Qed.

(** The invariant of the eviction loop: what is left is part of the map, at least as
    recent as what was removed, and the loop stops at the target. *)
Lemma evict_loop_spec fuel target m :
  size m ≤ fuel →
  evict_loop fuel target m ⊆ m ∧ size (evict_loop fuel target m) = Nat.min (size m) target ∧
  ∀ k e k' e', m !! k = Some e → evict_loop fuel target m !! k = None →
    evict_loop fuel target m !! k' = Some e' → (last_accessed e ≤ last_accessed e')%N.
Proof.
  revert m. induction fuel as [|fuel IH]; intros m Hf; cbn [evict_loop].
  { split; [reflexivity|split; [lia|naive_solver]]. }
  destruct (Nat.ltb_spec target (size m)) as [Hlt|Hge]; [|split; [reflexivity|split; [lia|naive_solver]]].
  destruct (min_by_access (str_iter m)) as [[v x]|] eqn:Hmin; [|apply min_str_iter_None in Hmin; lia].
  apply min_str_iter in Hmin as [Hv Hle].
  assert (size (delete v m) = size m - 1) as Hsz by (rewrite map_size_delete, Hv; lia).
  destruct (IH (delete v m)) as (Hsub & Hsize & Hold); [lia|]. split_and!.
  - etrans; [done|]. apply delete_subseteq.
  - lia.
  - intros k e k' e' Hk Hgone Hk'. destruct (decide (k = v)) as [->|Hne].
    + rewrite Hv in Hk. injection Hk as <-. apply (Hle k'). eapply lookup_weaken; [|apply delete_subseteq].
      by eapply lookup_weaken.
    + eapply Hold; [|done..]. by rewrite lookup_delete_ne.
Qed.

Lemma evict_spec m target :
  evict_to_capacity m target ⊆ m ∧ size (evict_to_capacity m target) = Nat.min (size m) target ∧
  ∀ k e k' e', m !! k = Some e → evict_to_capacity m target !! k = None →
    evict_to_capacity m target !! k' = Some e' → (last_accessed e ≤ last_accessed e')%N.
Proof. by apply evict_loop_spec. Qed.

Lemma sweep_lookup c now m id e : sweep_expired c now m !! id = Some e ↔ m !! id = Some e ∧ fresh c now e.
Proof. unfold sweep_expired. by rewrite map_lookup_filter_Some. Qed.

Lemma sweep_subseteq c now m : sweep_expired c now m ⊆ m.
Proof. apply map_filter_subseteq. Qed.

Lemma sweep_size c now m : size (sweep_expired c now m) ≤ size m.
Proof. apply map_subseteq_size, sweep_subseteq. Qed.

Lemma evict_small m target : size m ≤ target → evict_to_capacity m target = m.
Proof.
  intros Hs. unfold evict_to_capacity. destruct (size m) eqn:E; [done|]. cbn [evict_loop]. rewrite E.
  by destruct (Nat.ltb_spec target (S n)); [lia|].
Qed.

(** An entry that an insertion drops, other than the one it replaces, is expired, or at
    least [max_entries - 1] entries as recent as it are kept. *)
Lemma insert_keeps_recent c now id v m k e :
  k ≠ id → m !! k = Some e → store_insert c now id v m !! k = None →
  ¬ fresh c now e ∨
  (size (evict_to_capacity (sweep_expired c now m) (max_entries c - 1)) = max_entries c - 1 ∧
   ∀ k' e', evict_to_capacity (sweep_expired c now m) (max_entries c - 1) !! k' = Some e' →
     (last_accessed e ≤ last_accessed e')%N).
Proof.
  intros Hne Hk. unfold store_insert. rewrite lookup_insert_ne by done. intros Hgone.
  destruct (decide (fresh c now e)) as [Hf|]; [right|by left].
  assert (sweep_expired c now m !! k = Some e) as Hs by by apply sweep_lookup.
  destruct (evict_spec (sweep_expired c now m) (max_entries c - 1)) as (Hsub & Hsize & Hold).
  split; [|intros k' e' Hk'; by eapply Hold].
  destruct (decide (size (sweep_expired c now m) ≤ max_entries c - 1)); [|lia]. exfalso.
  rewrite evict_small in Hgone by done. congruence.
Qed.

Lemma store_get_spec c now id m :
  (store_get c now id m).2 = payload <$> (e ← m !! id; if decide (fresh c now e) then Some e else None).
Proof.
  unfold store_get, touch. destruct (m !! id) as [e|] eqn:E; cbn.
  - case_decide as Hf.
    + assert (sweep_expired c now m !! id = Some e) as -> by by apply sweep_lookup. done.
    + destruct (sweep_expired c now m !! id) eqn:Hs; [|done]. apply sweep_lookup in Hs as [? ?]. congruence.
  - destruct (sweep_expired c now m !! id) eqn:Hs; [|done]. apply sweep_lookup in Hs as [? ?]. congruence.
Qed.
End entries.

(** ** The response store *)

Section responses.
Context {V : Type} `{!StringOrder}.
Implicit Types (m : gmap string (Entry V)) (now : N).

Inductive StoreOp := OpInsert (now : N) (id : string) (v : V) | OpGet (now : N) (id : string) | OpRemove (id : string).

Definition store_step (c : StoreConfig) m (op : StoreOp) : gmap string (Entry V) :=
  match op with
  | OpInsert now id v => store_insert c now id v m
  | OpGet now id => (store_get c now id m).1
  | OpRemove id => (store_remove id m).1
  end.

Definition store_run (c : StoreConfig) (ops : list StoreOp) : gmap string (Entry V) := foldl (store_step c) ∅ ops.

(** The last insertion of an id, unless the id was removed after it. *)
Definition last_write (id : string) (ops : list StoreOp) : option (N * V) :=
  foldl (λ w op,
    match op with
    | OpInsert now id' v => if decide (id' = id) then Some (now, v) else w
    | OpGet _ _ => w
    | OpRemove id' => if decide (id' = id) then None else w
    end) None ops.

(** The last time an id was inserted or fetched. *)
Definition last_touch (id : string) (ops : list StoreOp) : option N :=
  foldl (λ w op,
    match op with
    | OpInsert now id' _ | OpGet now id' => if decide (id' = id) then Some now else w
    | OpRemove _ => w
    end) None ops.

Definition tracks (ops : list StoreOp) m : Prop :=
  ∀ id e, m !! id = Some e →
    last_write id ops = Some (inserted_at e, payload e) ∧ last_touch id ops = Some (last_accessed e).

Lemma sweep_tracks c now ops m : tracks ops m → tracks ops (sweep_expired c now m).
Proof. intros Ht id e [He _]%sweep_lookup. by apply Ht. Qed.

Lemma step_tracks c ops op m : tracks ops m → tracks (ops ++ [op]) (store_step c m op).
Proof.
  intros Ht id e. unfold tracks, last_write, last_touch in *. rewrite !foldl_snoc.
  destruct op as [now id' v|now id'|id']; cbn [store_step].
  - unfold store_insert. intros [[-> <-]|[Hne He]]%lookup_insert_Some; [by rewrite !decide_True by done|].
    rewrite !decide_False by done. apply Ht.
    eapply lookup_weaken; [done|]. etrans; [apply evict_spec|apply sweep_subseteq].
  - unfold store_get, touch. destruct (sweep_expired c now m !! id') as [e'|] eqn:E.
    + cbn. intros [[-> <-]|[Hne He]]%lookup_insert_Some.
      * rewrite decide_True by done. apply (sweep_tracks c now) in Ht. by apply Ht in E as [? _].
      * rewrite decide_False by done. by apply (sweep_tracks c now ops m).
    + cbn. intros He. destruct (decide (id' = id)) as [->|Hne]; [congruence|]. by apply (sweep_tracks c now ops m).
  - cbn. intros [Hne He]%lookup_delete_Some. rewrite decide_False by done. by apply Ht.
Qed.

Lemma run_tracks c ops : tracks ops (store_run c ops).
Proof.
  unfold store_run. induction ops as [|op ops IH] using rev_ind; [by intros id e ?|].
  rewrite foldl_snoc. by apply step_tracks.
Qed.

Lemma step_size c op m : size m ≤ Nat.max 1 (max_entries c) → size (store_step c m op) ≤ Nat.max 1 (max_entries c).
Proof.
  intros Hm. destruct op as [now id v|now id|id]; cbn [store_step].
  - unfold store_insert. pose proof (proj1 (proj2 (evict_spec (sweep_expired c now m) (max_entries c - 1)))) as Hs.
    rewrite map_size_insert. case_match; cbn; lia.
  - unfold store_get, touch. pose proof (sweep_size c now m). destruct (sweep_expired c now m !! id) eqn:E; cbn; [|lia].
    rewrite map_size_insert, E. cbn. lia.
  - cbn [store_remove fst]. rewrite map_size_delete. destruct (m !! id); [lia|]. exact Hm.
Qed.

Lemma run_size c ops : size (store_run c ops) ≤ Nat.max 1 (max_entries c).
Proof.
  unfold store_run. induction ops as [|op ops IH] using rev_ind; [cbn; rewrite map_size_empty; lia|].
  rewrite foldl_snoc. by apply step_size.
Qed.

(** The response store, after any operations at any times: it holds at most
    [max_entries] responses (one, if that is 0); a lookup returns exactly the payload
    of the last insertion of the id and only while that is younger than the time to
    live; an insertion drops no other unexpired response unless the
    [max_entries - 1] it keeps were all inserted or fetched no earlier. *)
Theorem responses_store_correct (c : StoreConfig) (ops : list StoreOp) :
  let m := store_run c ops in
  size m ≤ Nat.max 1 (max_entries c) ∧
  (∀ now id v, (store_get c now id m).2 = Some v →
     ∃ t, last_write id ops = Some (t, v) ∧ (now - t < ttl c)%N) ∧
  (∀ now id v k e, m !! k = Some e → k ≠ id → (now - inserted_at e < ttl c)%N → store_insert c now id v m !! k = None →
     max_entries c - 1 ≤ size (store_insert c now id v m) ∧
     ∀ k' e', store_insert c now id v m !! k' = Some e' → k' ≠ id →
       ∃ t t', last_touch k ops = Some t ∧ last_touch k' ops = Some t' ∧ (t ≤ t')%N).
Proof.
  intros m. split_and!; [apply run_size| |].
  - intros now id v. rewrite store_get_spec. intros (e & He & ->)%fmap_Some.
    apply bind_Some in He as (e' & Hm & Hf). case_decide as Hfr; [|done]. injection Hf as ->.
    apply run_tracks in Hm as [Hw _]. by eexists.
  - intros now id v k e Hk Hne Hfr Hgone. pose proof (insert_keeps_recent c now id v m k e Hne Hk Hgone) as [?|[Hsz Hrec]]; [done|].
    unfold store_insert in *. set (ev := evict_to_capacity _ _) in *. assert (ev ⊆ m) as Hsub.
    { etrans; [apply evict_spec|apply sweep_subseteq]. } split.
    + rewrite map_size_insert. case_match; cbn; lia.
    + intros k' e' [[? _]|[_ He']]%lookup_insert_Some Hne'; [congruence|].
      pose proof (Hrec k' e' He'). apply run_tracks in Hk as [_ Hk]. eapply lookup_weaken in He'; [|exact Hsub].
      apply run_tracks in He' as [_ He']. eexists _, _. by split_and!.
Qed.
End responses.

(** Iteration in key order: an instance to run the stores with. *)
Definition key_order : StringOrder := {| str_iter V := map_to_list; str_iter_perm V m := Permutation_refl _ |}.

Lemma responses_store_correct_witness :
  let c := mkStoreConfig 2 100 in
  let ops := [OpInsert 1 "a" 10; OpInsert 2 "b" 20; OpGet 3 "a"; OpInsert 4 "c" 30]%N in
  size (store_run (H := key_order) c ops) ≤ 2 ∧
  (∀ now id v, (store_get c now id (store_run (H := key_order) c ops)).2 = Some v →
     ∃ t, last_write id ops = Some (t, v) ∧ (now - t < 100)%N).
Proof.
  pose proof (responses_store_correct (H := key_order) (mkStoreConfig 2 100)
    [OpInsert 1 "a" 10; OpInsert 2 "b" 20; OpGet 3 "a"; OpInsert 4 "c" 30]%N) as (H1 & H2 & _).
  split; [exact H1|exact H2].
Defined.

(** ["b"] is the one not fetched since. *)
Example lru_victim :
  let m := store_run (H := key_order) (mkStoreConfig 2 100)
             [OpInsert 1 "a" 10; OpInsert 2 "b" 20; OpGet 3 "a"; OpInsert 4 "c" 30]%N in
  (bool_decide (is_Some (m !! "a")), bool_decide (is_Some (m !! "b")), bool_decide (is_Some (m !! "c"))) = (true, false, true).
Proof. vm_compute. reflexivity. Qed.

(** Overwriting an id that is present evicts an unrelated entry all the same. *)
Example overwrite_evicts :
  let m := store_run (H := key_order) (mkStoreConfig 2 100) [OpInsert 1 "a" 10; OpInsert 2 "b" 20; OpInsert 3 "b" 21]%N in
  (bool_decide (is_Some (m !! "a")), size m) = (false, 1).
Proof. vm_compute. reflexivity. Qed.

(** ** Cancellation tokens of streaming responses *)

(** An [Arc<AtomicBool>] is an index into the list of the flags that exist: the
    registry, the sender and the generation task share the flag, not its value. *)
Abbreviation flags := (list bool).
Abbreviation registry := (gmap string nat).

Definition register_in_flight (id : string) (r : registry) (fl : flags) : registry * flags * nat :=
  let token := length fl in (<[id := token]> r, fl ++ [false], token).

Definition unregister_in_flight (id : string) (r : registry) : registry := delete id r.

Definition cancel_in_flight (id : string) (r : registry) (fl : flags) : flags * bool :=
  match r !! id with
  | Some token => (<[token := true]> fl, true)
  | None => (fl, false)
  end.

(** A cancel sets the flag of the stream registered last under the id and no other; it
    reports whether there is one. *)
Lemma cancel_after_register id id' r fl :
  let '(r', fl', token) := register_in_flight id r fl in
  (cancel_in_flight id' r' fl').2 = bool_decide (id' = id ∨ is_Some (r !! id')) ∧
  ((cancel_in_flight id r' fl').1 !! token = Some true) ∧
  (∀ t, t ≠ token → (cancel_in_flight id r' fl').1 !! t = fl' !! t).
Proof.
  cbn. unfold cancel_in_flight. rewrite lookup_insert_eq. split_and!.
  - destruct (decide (id' = id)) as [->|Hne].
    + rewrite lookup_insert_eq, bool_decide_true by auto. done.
    + rewrite lookup_insert_ne by done. destruct (r !! id') as [t|] eqn:E.
      * by rewrite bool_decide_true by eauto.
      * rewrite bool_decide_false; [done|]. intros [?|[? ?]]; congruence.
  - cbn. rewrite list_lookup_insert_eq; [done|]. rewrite length_app. cbn. lia.
  - intros t Ht. cbn. by rewrite list_lookup_insert_ne.
Qed.

(** ** The conversation store *)

Section conversations.
Context {Item : Type} `{!StringOrder}.
Implicit Types (m : gmap string (Entry (list Item))) (now : N).

Definition conv_append (c : StoreConfig) now (id : string) (items : list Item) m : gmap string (Entry (list Item)) :=
  match items with
  | [] => m
  | _ :: _ =>
    let m1 := sweep_expired c now m in
    let m2 := match m1 !! id with
              | Some _ => m1
              | None => <[id := mkEntry [] now now]> (evict_to_capacity m1 (max_entries c - 1))
              end in
    match m2 !! id with
    | Some e => <[id := mkEntry (payload e ++ items) (inserted_at e) now]> m2
    | None => m2
    end
  end.

(** The transcript a request at time [now] sees. *)
Definition transcript (c : StoreConfig) now (id : string) m : list Item := default [] (store_get c now id m).2.

Lemma transcript_eq c now id m :
  transcript c now id m = match m !! id with Some e => if decide (fresh c now e) then payload e else [] | None => [] end.
Proof.
  unfold transcript. rewrite store_get_spec. destruct (m !! id); [|done]. cbn. by case_decide.
Qed.

(** What an append leaves under the id. *)
Lemma conv_append_lookup c now id items m :
  items ≠ [] →
  conv_append c now id items m !! id =
    Some (match m !! id with
          | Some e => if decide (fresh c now e) then mkEntry (payload e ++ items) (inserted_at e) now else mkEntry items now now
          | None => mkEntry items now now
          end).
Proof.
  intros Hne. unfold conv_append. destruct items as [|i items]; [done|].
  destruct (sweep_expired c now m !! id) as [e|] eqn:E.
  - rewrite E, lookup_insert_eq. apply sweep_lookup in E as [-> Hf]. by rewrite decide_True.
  - rewrite lookup_insert_eq. cbn. rewrite lookup_insert_eq. destruct (m !! id) as [e|] eqn:Hm; [|done].
    rewrite decide_False; [done|]. intros Hf.
    assert (sweep_expired c now m !! id = Some e) by by apply sweep_lookup. congruence.
Qed.

Lemma conv_append_transcript c now t id items m :
  (0 < ttl c)%N → (now ≤ t)%N →
  (∀ e, conv_append c now id items m !! id = Some e → fresh c t e) →
  transcript c t id (conv_append c now id items m) = transcript c now id m ++ items.
Proof.
  intros Httl Ht Hfresh. rewrite !transcript_eq. destruct items as [|i items].
  - cbn [conv_append] in *. rewrite app_nil_r. destruct (m !! id) as [e|] eqn:E; [|done].
    specialize (Hfresh e eq_refl). rewrite decide_True by done. rewrite decide_True; [done|]. unfold fresh in *. lia.
  - rewrite conv_append_lookup in * by done. rewrite decide_True by by apply Hfresh.
    destruct (m !! id) as [e|]; [|done]. by case_decide.
Qed.
End conversations.
