(* ===== verification/ResponsesTypes.v ===== *)
(** * Responses API: requests, messages, items and response objects

    [server/types/responses_request.rs], [responses_response.rs] and the chat types of
    [request.rs] they translate to.  Generated and prompted text is a list of bytes
    (as in StreamFilter), ids and labels are strings, counts are [nat]s and time stamps
    are seconds.  Fields that are only copied from the request to the reply, and that no
    code modelled here reads (sampling knobs other than the limits, [tool_choice],
    [text], [reasoning], [service_tier]), are left out. *)

From Stdlib Require Import Ascii.
From S2P Require Import Prelude.
From S2P Require Import StreamFilter.

(** ** Chat messages *)

Inductive Role := System | User | Assistant | Tool.

#[global] Instance Role_eq_dec : EqDecision Role.
Proof. solve_decision. Defined.

(** The parts of a multimodal message are carried along, never inspected. *)
Inductive ContentPart := PartText (t : str) | PartImageUrl (url : string) | PartVideoUrl (url : string) | PartInputAudio (data : string).

Inductive MessageContent := ContentText (t : str) | ContentParts (l : list ContentPart).

Record ToolCallInMessage := mkToolCall { tc_id : string; call_type : string; fn_name : string; fn_arguments : str }.

Record Message := mkMessage {
  msg_role : Role;
  msg_content : MessageContent;
  msg_name : option string;
  tool_call_id : option string;
  msg_reasoning : option str;
  tool_calls : option (list ToolCallInMessage);
}.

(** ** Input items *)

Inductive ResponseInputRole := InUser | InAssistant | InSystem | InDeveloper.

Record ReasoningContentPart := mkReasoningPart { part_type : string; part_text : str }.

Inductive ResponseInputItem :=
  | IMessage (role : ResponseInputRole) (content : MessageContent) (name : option string)
  | IFunctionCall (call_id name : string) (arguments : str)
  | IFunctionCallOutput (call_id : string) (output : str)
  | IReasoning (content : list ReasoningContentPart).

Inductive ResponseInput := InputText (t : str) | InputItems (l : list ResponseInputItem).

Definition into_items (i : ResponseInput) : list ResponseInputItem :=
  match i with
  | InputText t => [IMessage InUser (ContentText t) None]
  | InputItems l => l
  end.

Inductive ConversationRef := ConvId (id : string) | ConvObject (id : string).

Definition conv_id (c : ConversationRef) : string := match c with ConvId s | ConvObject s => s end.

Inductive ResponseTool := FunctionTool (name : string) (description : option string) | UnsupportedTool.

Record CreateResponseRequest := mkRequest {
  rq_model : string;
  rq_input : ResponseInput;
  rq_instructions : option str;
  rq_tools : option (list ResponseTool);
  rq_conversation : option ConversationRef;
  previous_response_id : option string;
  rq_store : option bool;
  rq_stream : bool;
  max_output_tokens : option nat;
  max_tool_calls : option nat;
  truncation : option string;
  metadata : option (gmap string string);
  background : option bool;
  rq_user : option string;
  safety_identifier : option string;
  sampling_max_tokens : option nat;
}.

(** ** Output items and the response object *)

Inductive ItemStatus := ItemInProgress | ItemCompleted | ItemIncomplete.

Inductive ResponseOutputContent := OutputText (t : str) | Refusal (t : str).

Inductive ResponseOutputItem :=
  | OMessage (id role : string) (status : ItemStatus) (content : list ResponseOutputContent)
  | OFunctionCall (id call_id name : string) (arguments : str) (status : ItemStatus)
  | OReasoning (id : string) (status : ItemStatus) (parts : list str).

Definition new_assistant (id : string) (content : list ResponseOutputContent) : ResponseOutputItem :=
  OMessage id "assistant" ItemCompleted content.

Definition item_id (o : ResponseOutputItem) : string :=
  match o with OMessage id _ _ _ | OFunctionCall id _ _ _ _ | OReasoning id _ _ => id end.

Inductive ResponseStatus := Queued | InProgress | Completed | Failed | Cancelled | Incomplete.

Record ResponseObject := mkResponse {
  rsp_id : string;
  created_at : N;
  completed_at : option N;
  rsp_status : ResponseStatus;
  rsp_model : string;
  rsp_output : list ResponseOutputItem;
  output_text : str;
  input_tokens : nat;
  output_tokens : nat;
  total_tokens : nat;
  rsp_error : option (string * string);
  rsp_instructions : option str;
  rsp_metadata : option (gmap string string);
  rsp_previous : option string;
  rsp_conversation : option string;
  rsp_user : option string;
  rsp_store : option bool;
}.

Definition set_status (r : ResponseObject) (s : ResponseStatus) : ResponseObject :=
  mkResponse (rsp_id r) (created_at r) (completed_at r) s (rsp_model r) (rsp_output r) (output_text r)
    (input_tokens r) (output_tokens r) (total_tokens r) (rsp_error r) (rsp_instructions r) (rsp_metadata r)
    (rsp_previous r) (rsp_conversation r) (rsp_user r) (rsp_store r).

Record StoredResponse := mkStored { stored_response : ResponseObject; input_items : list ResponseInputItem }.

Inductive ConversationItem := Input (i : ResponseInputItem) | Output (o : ResponseOutputItem).
