(* ===== verification/ResponsesTranslate.v ===== *)
(** * Responses API: translation

    [server/responses_translator.rs]: a request is checked, its history is looked up in
    the stores, and the items become chat messages; the outcome of the generation
    becomes a response object.  Ids drawn from [uuid::Uuid::new_v4] come from a supply:
    [uuid n] is the [n]-th one drawn. *)

From S2P Require Import Prelude.
From S2P Require Import ClusterNodes.
From S2P Require Import StreamFilter.
From S2P Require Import TtlStore.
From S2P Require Import ResponsesTypes.

(** ** Errors and results *)

Inductive ResponsesTranslateError :=
  | PreviousAndConversation
  | PreviousNotFound (id : string)
  | ConversationStoreDisabled (id : string)
  | UnsupportedToolType
  | BackgroundUnsupported
  | MetadataTooLarge (n : nat)
  | TruncationUnsupported (t : string)
  | MaxOutputTokensInvalid.

Record ChatCompletionRequest := mkChat {
  ch_model : string;
  ch_messages : list Message;
  ch_stream : bool;
  ch_tools : option (list (string * option string));
  ch_user : option string;
  ch_max_tokens : option nat;
}.

Record TranslatedRequest := mkTranslated {
  chat_request : ChatCompletionRequest;
  canonical_input_items : list ResponseInputItem;
  effective_store : bool;
  conversation_id : option string;
}.

(** ** Input items to messages *)

Definition convert_role (r : ResponseInputRole) : Role :=
  match r with InUser => User | InAssistant => Assistant | InSystem | InDeveloper => System end.

(** [join] with a line feed between the parts. *)
Fixpoint join_lines (l : list str) : str :=
  match l with
  | [] => []
  | [t] => t
  | t :: ts => t ++ newline :: join_lines ts
  end.

Definition reasoning_text (parts : list ReasoningContentPart) : str :=
  join_lines (filter (λ t, t ≠ []) (part_text <$> parts)).

(** The loop's variables: the messages so far and what is still pending. *)
Record Pending := mkPending { p_out : list Message; p_calls : list ToolCallInMessage; p_reasoning : option str }.

Definition assistant_calls (calls : list ToolCallInMessage) (reasoning : option str) : Message :=
  mkMessage Assistant (ContentText []) None None reasoning (Some calls).

(** Pending calls become an assistant turn, which takes the buffered reasoning. *)
Definition flush_calls (p : Pending) : Pending :=
  match p_calls p with
  | [] => p
  | _ :: _ => mkPending (p_out p ++ [assistant_calls (p_calls p) (p_reasoning p)]) [] None
  end.

Definition push_item (p : Pending) (item : ResponseInputItem) : Pending :=
  match item with
  | IMessage role content name =>
    let p1 := flush_calls p in
    let reasoning := if decide (convert_role role = Assistant) then p_reasoning p1 else None in
    mkPending (p_out p1 ++ [mkMessage (convert_role role) content name None reasoning None]) (p_calls p1) None
  | IFunctionCall call_id name arguments =>
    mkPending (p_out p) (p_calls p ++ [mkToolCall call_id "function" name arguments]) (p_reasoning p)
  | IFunctionCallOutput call_id output =>
    let p1 := flush_calls p in
    mkPending (p_out p1 ++ [mkMessage Tool (ContentText output) None (Some call_id) None None]) (p_calls p1) None
  | IReasoning content =>
    match reasoning_text content with
    | [] => p
    | t => mkPending (p_out p) (p_calls p) (Some t)
    end
  end.

Definition input_items_to_messages (items : list ResponseInputItem) : list Message :=
  p_out (flush_calls (foldl push_item (mkPending [] [] None) items)).

(** ** Output items replayed as input *)

Definition output_content_text (c : ResponseOutputContent) : str := match c with OutputText t | Refusal t => t end.

Definition output_to_input_items (o : ResponseOutputItem) : list ResponseInputItem :=
  match o with
  | OMessage _ role _ content =>
    [IMessage (if decide (role = "assistant") then InAssistant else InUser)
              (ContentText (concat (output_content_text <$> content))) None]
  | OFunctionCall _ call_id name arguments _ => [IFunctionCall call_id name arguments]
  | OReasoning _ _ _ => []
  end.

Definition stored_outputs_as_input_items (s : StoredResponse) : list ResponseInputItem :=
  concat (output_to_input_items <$> rsp_output (stored_response s)).

Definition conversation_input_items (i : ConversationItem) : list ResponseInputItem :=
  match i with Input x => [x] | Output o => output_to_input_items o end.

(** ** The stores a request reads *)

Record Stores := mkStores {
  responses : option (StoreConfig * gmap string (Entry StoredResponse));
  conversations : option (StoreConfig * gmap string (Entry (list ConversationItem)));
}.

Section translate.
Context `{!StringOrder}.

Definition reject_unsupported_tools (tools : option (list ResponseTool)) : outcome ResponsesTranslateError () :=
  match tools with
  | None => Ok tt
  | Some l => check_all (λ t, match t with UnsupportedTool => Err UnsupportedToolType | FunctionTool _ _ => Ok tt end) l
  end.

Definition function_tools (tools : option (list ResponseTool)) : option (list (string * option string)) :=
  l ← tools;
  match omap (λ t, match t with FunctionTool n d => Some (n, d) | UnsupportedTool => None end) l with
  | [] => None
  | out => Some out
  end.

(** The checks on the request itself, in the code's order. *)
Definition check_request (r : CreateResponseRequest) : outcome ResponsesTranslateError () :=
  _ ← ensure (¬ (is_Some (previous_response_id r) ∧ is_Some (rq_conversation r))) PreviousAndConversation;
  _ ← ensure (background r ≠ Some true) BackgroundUnsupported;
  _ ← match metadata r with
      | Some meta => ensure (size meta ≤ 16) (MetadataTooLarge (size meta))
      | None => Ok tt
      end;
  _ ← match truncation r with
      | Some t => ensure (t = "" ∨ t = "disabled") (TruncationUnsupported t)
      | None => Ok tt
      end;
  _ ← ensure (max_output_tokens r ≠ Some 0) MaxOutputTokensInvalid;
  reject_unsupported_tools (rq_tools r).

(** The items of the referenced response or conversation; the lookups sweep the stores
    and refresh the entry they find. *)
Definition prior_items (now : N) (r : CreateResponseRequest) : M Stores ResponsesTranslateError (list ResponseInputItem) := λ s,
  match previous_response_id r with
  | Some prev_id =>
    match responses s with
    | None => (s, Err (PreviousNotFound prev_id))
    | Some (c, m) =>
      let '(m', found) := store_get c now prev_id m in
      (mkStores (Some (c, m')) (conversations s),
       match found with
       | None => Err (PreviousNotFound prev_id)
       | Some stored => Ok (input_items stored ++ stored_outputs_as_input_items stored)
       end)
    end
  | None =>
    match rq_conversation r with
    | None => (s, Ok [])
    | Some conv =>
      match conversations s with
      | None => (s, Err (ConversationStoreDisabled (conv_id conv)))
      | Some (c, m) =>
        let '(m', found) := store_get c now (conv_id conv) m in
        (mkStores (responses s) (Some (c, m')), Ok (concat (conversation_input_items <$> default [] found)))
      end
    end
  end.

Definition system_message (instr : str) : Message := mkMessage System (ContentText instr) None None None None.

Definition responses_request_to_chat (now : N) (r : CreateResponseRequest) : M Stores ResponsesTranslateError TranslatedRequest :=
  _ ← lift (check_request r);
  prior ← prior_items now r;
  let current := into_items (rq_input r) in
  let all_items := prior ++ current in
  let system := match rq_instructions r with Some ((_ :: _) as instr) => [system_message instr] | _ => [] end in
  mret (mkTranslated
    (mkChat (rq_model r) (system ++ input_items_to_messages all_items) (rq_stream r) (function_tools (rq_tools r))
       (match rq_user r with Some u => Some u | None => safety_identifier r end)
       (match sampling_max_tokens r with Some n => Some n | None => max_output_tokens r end))
    current (default true (rq_store r)) (conv_id <$> rq_conversation r)).
End translate.

(** ** The response object *)

Section outbound.
Variable uuid : N → string.

Record OutboundContext := mkOutbound {
  ob_response_id : string;
  ob_model_id : string;
  ob_created_at : N;
  ob_completed_at : N;
  ob_status : ResponseStatus;
  ob_prompt_tokens : nat;
  ob_completion_tokens : nat;
  ob_text : str;
  ob_reasoning : option str;
  ob_tool_calls : option (list (string * str));
  ob_max_tool_calls : option nat;
  ob_request : CreateResponseRequest;
  ob_error : option (string * string);
}.

(** [push] with fresh ids: [short_uuid] advances the supply. *)
Fixpoint function_call_items (n : N) (calls : list (string * str)) : list ResponseOutputItem * N :=
  match calls with
  | [] => ([], n)
  | (name, arguments) :: rest =>
    let '(items, n') := function_call_items (n + 2) rest in
    (OFunctionCall (String.append "fc_" (uuid n)) (String.append "call_" (uuid (n + 1))) name arguments ItemCompleted :: items, n')
  end.

Definition emitted_calls (ctx : OutboundContext) : list (string * str) :=
  match ob_tool_calls ctx, ob_max_tool_calls ctx with
  | None, _ => []
  | Some calls, Some max => take max calls
  | Some calls, None => calls
  end.

Definition reasoning_items (n : N) (reasoning : option str) : list ResponseOutputItem * N :=
  match reasoning with
  | Some ((_ :: _) as t) => ([OReasoning (String.append "rs_" (uuid n)) ItemCompleted [t]], n + 1)%N
  | _ => ([], n)
  end.

Definition build_response_object (ctx : OutboundContext) (n : N) : ResponseObject * N :=
  let r := ob_request ctx in
  let '(reasoning, n1) := reasoning_items n (ob_reasoning ctx) in
  let '(calls, n2) := function_call_items n1 (emitted_calls ctx) in
  let with_message := match ob_text ctx, calls with [], _ :: _ => false | _, _ => true end in
  let '(message, text, n3) :=
    if with_message then ([new_assistant (String.append "msg_" (uuid n2)) [OutputText (ob_text ctx)]], ob_text ctx, (n2 + 1)%N)
    else ([], [], n2) in
  (mkResponse (ob_response_id ctx) (ob_created_at ctx) (Some (ob_completed_at ctx)) (ob_status ctx) (ob_model_id ctx)
     (reasoning ++ calls ++ message) text (ob_prompt_tokens ctx) (ob_completion_tokens ctx)
     (ob_prompt_tokens ctx + ob_completion_tokens ctx) (ob_error ctx) (rq_instructions r) (metadata r)
     (previous_response_id r) (conv_id <$> rq_conversation r)
     (match rq_user r with Some u => Some u | None => safety_identifier r end) (rq_store r), n3).
End outbound.

(** ** Turns: the reference for the message list *)

(** The items cut at the messages and tool outputs: each piece is the run of calls and
    reasoning items before a boundary, with that boundary. *)
Fixpoint segments (run : list ResponseInputItem) (items : list ResponseInputItem) :
    list (list ResponseInputItem * option ResponseInputItem) :=
  match items with
  | [] => [(run, None)]
  | i :: rest =>
    match i with
    | IMessage _ _ _ | IFunctionCallOutput _ _ => (run, Some i) :: segments [] rest
    | IFunctionCall _ _ _ | IReasoning _ => segments (run ++ [i]) rest
    end
  end.

Definition item_call (i : ResponseInputItem) : option ToolCallInMessage :=
  match i with IFunctionCall id name args => Some (mkToolCall id "function" name args) | _ => None end.

Definition item_reasoning (i : ResponseInputItem) : option str :=
  match i with IReasoning content => match reasoning_text content with [] => None | t => Some t end | _ => None end.

(** A run with calls is one assistant turn with all of them, in order, and the last
    reasoning text of the run; without calls, that text goes to the assistant message
    that ends the run, and to no other kind of message. *)
Definition turn_messages (seg : list ResponseInputItem * option ResponseInputItem) : list Message :=
  let calls := omap item_call seg.1 in
  let reasoning := last (omap item_reasoning seg.1) in
  match calls with [] => [] | _ :: _ => [assistant_calls calls reasoning] end ++
  match seg.2 with
  | Some (IMessage role content name) =>
    let own := match calls, convert_role role with [], Assistant => reasoning | _, _ => None end in
    [mkMessage (convert_role role) content name None own None]
  | Some (IFunctionCallOutput call_id output) => [mkMessage Tool (ContentText output) None (Some call_id) None None]
  | _ => []
  end.

(** What is shown of an item, and what a message shows. *)
Inductive Shown := ShownMessage (role : Role) (content : MessageContent) (name : option string)
  | ShownCall (c : ToolCallInMessage) | ShownOutput (call_id : string) (output : MessageContent).

Definition item_shown (i : ResponseInputItem) : option Shown :=
  match i with
  | IMessage role content name => Some (ShownMessage (convert_role role) content name)
  | IFunctionCall id name args => Some (ShownCall (mkToolCall id "function" name args))
  | IFunctionCallOutput id output => Some (ShownOutput id (ContentText output))
  | IReasoning _ => None
  end.

Definition message_shown (m : Message) : list Shown :=
  match tool_calls m, tool_call_id m with
  | Some calls, _ => ShownCall <$> calls
  | None, Some id => [ShownOutput id (msg_content m)]
  | None, None => [ShownMessage (msg_role m) (msg_content m) (msg_name m)]
  end.

Definition pending_of (out : list Message) (run : list ResponseInputItem) : Pending :=
  mkPending out (omap item_call run) (last (omap item_reasoning run)).

Lemma flush_pending out run :
  flush_calls (pending_of out run) =
    match omap item_call run with
    | [] => mkPending out [] (last (omap item_reasoning run))
    | _ :: _ => mkPending (out ++ [assistant_calls (omap item_call run) (last (omap item_reasoning run))]) [] None
    end.
Proof. unfold flush_calls, pending_of. cbn. by destruct (omap item_call run). Qed.

Lemma push_run out run i :
  match i with
  | IMessage _ _ _ | IFunctionCallOutput _ _ => push_item (pending_of out run) i = pending_of (out ++ turn_messages (run, Some i)) []
  | IFunctionCall _ _ _ | IReasoning _ => push_item (pending_of out run) i = pending_of out (run ++ [i])
  end.
Proof.
  destruct i as [role content name|id name args|id output|parts]; cbn [push_item].
  - rewrite flush_pending. unfold turn_messages, pending_of. cbn [fst snd].
    destruct (omap item_call run), role; cbn; by rewrite <- ?app_assoc.
  - unfold pending_of. cbn. rewrite !omap_app. cbn. by rewrite app_nil_r.
  - rewrite flush_pending. unfold turn_messages, pending_of. cbn [fst snd].
    destruct (omap item_call run); cbn; by rewrite <- ?app_assoc.
  - unfold pending_of. cbn. rewrite !omap_app. cbn. rewrite app_nil_r. destruct (reasoning_text parts); cbn.
    + by rewrite app_nil_r.
    + by rewrite last_snoc.
Qed.

Lemma items_to_messages_from out run items :
  p_out (flush_calls (foldl push_item (pending_of out run) items)) = out ++ concat (turn_messages <$> segments run items).
Proof.
  revert out run. induction items as [|i items IH]; intros out run; cbn [foldl segments].
  - rewrite flush_pending. unfold turn_messages. csimpl. rewrite !app_nil_r. destruct (omap item_call run); [by rewrite app_nil_r|done].
  - pose proof (push_run out run i) as Hp. destruct i; cbn beta iota in Hp; rewrite Hp, IH; [csimpl; by rewrite <- app_assoc|done|csimpl; by rewrite <- app_assoc|done].
Qed.

Lemma turn_shown run b :
  concat (message_shown <$> turn_messages (run, b)) =
    (ShownCall <$> omap item_call run) ++
    match b with Some (IMessage _ _ _ as i) | Some (IFunctionCallOutput _ _ as i) => option_list (item_shown i) | _ => [] end.
Proof.
  unfold turn_messages. cbn [fst snd]. rewrite fmap_app, concat_app. f_equal.
  - destruct (omap item_call run); [done|]. cbn. by rewrite app_nil_r.
  - destruct b as [[]|]; done.
Qed.

Lemma segments_shown run items :
  Forall (λ i, match i with IFunctionCall _ _ _ | IReasoning _ => True | _ => False end) run →
  concat (message_shown <$> concat (turn_messages <$> segments run items)) = omap item_shown (run ++ items).
Proof.
  revert run. induction items as [|i items IH]; intros run Hrun.
  - rewrite app_nil_r. cbn [segments]. csimpl. rewrite app_nil_r, turn_shown, app_nil_r.
    induction Hrun as [|x run Hx _ IH]; [done|]. destruct x; cbn in *; [done|by rewrite IH|done|done].
  - assert (omap item_shown run = ShownCall <$> omap item_call run) as Hshow.
    { clear IH. induction Hrun as [|x run Hx _ IH]; [done|]. destruct x; cbn in *; [done|by rewrite IH|done|done]. }
    destruct i; cbn [segments].
    1,3: csimpl; rewrite fmap_app, concat_app, turn_shown, (IH [] (Forall_nil_2 _)); rewrite (omap_app item_shown run), Hshow; cbn; by rewrite <- app_assoc.
    all: rewrite IH by (by apply Forall_app_2; [|repeat constructor]); by rewrite <- app_assoc.
Qed.

(** The reasoning text that survives from a piece: the last one, if the piece has calls or ends in
    an assistant message. *)
Definition kept_reasoning (seg : list ResponseInputItem * option ResponseInputItem) : option str :=
  match omap item_call seg.1, seg.2 with
  | _ :: _, _ => last (omap item_reasoning seg.1)
  | [], Some (IMessage role _ _) => match convert_role role with Assistant => last (omap item_reasoning seg.1) | _ => None end
  | [], _ => None
  end.

Lemma turn_reasoning seg : omap msg_reasoning (turn_messages seg) = option_list (kept_reasoning seg).
Proof.
  destruct seg as [run b]. unfold turn_messages, kept_reasoning. cbn [fst snd].
  destruct (omap item_call run) as [|c calls]; cbn.
  - destruct b as [[[] ? ?| | |]|]; cbn; try done; by destruct (last _).
  - destruct b as [[[] ? ?| | |]|]; cbn; by destruct (last _).
Qed.

(** Where the code leaves its description ("attached to the following assistant turn"): of two
    reasoning items before an assistant message the first is lost, and one that follows a call goes
    to the turn of that call, before it, not to the assistant message after it. *)
Example earlier_reasoning_lost content :
  let r t := IReasoning [mkReasoningPart "reasoning_text" (bytes_of t)] in
  msg_reasoning <$> input_items_to_messages [r "one"; r "two"; IMessage InAssistant content None] = [Some (bytes_of "two")].
Proof. done. Qed.

Example reasoning_goes_to_earlier_call content :
  let r t := IReasoning [mkReasoningPart "reasoning_text" (bytes_of t)] in
  msg_reasoning <$> input_items_to_messages [IFunctionCall "c" "f" []; r "one"; IMessage InAssistant content None] =
  [Some (bytes_of "one"); None].
Proof. done. Qed.

(** C36. Input items become chat messages: the list is the concatenation of the turns of the
    reference, so every run of function calls between two messages or tool outputs is one assistant
    turn with all of them, and reading the messages back gives every message, call and tool output
    of the input, once and in order. Reasoning is not all kept: of the reasoning texts of a run
    only the last survives; it goes to the turn of the run's calls, whether it came before or after
    them, or without calls to the assistant message that ends the run, and is dropped when neither
    is there; it never crosses a message or a tool output. *)
Theorem items_to_messages_correct items :
  input_items_to_messages items = concat (turn_messages <$> segments [] items) ∧
  concat (message_shown <$> input_items_to_messages items) = omap item_shown items ∧
  omap msg_reasoning (input_items_to_messages items) = omap kept_reasoning (segments [] items).
Proof.
  assert (input_items_to_messages items = concat (turn_messages <$> segments [] items)) as Heq.
  { apply (items_to_messages_from [] []). }
  split; [done|]. rewrite Heq. split; [by apply segments_shown|]. clear Heq.
  induction (segments [] items) as [|seg l IH]; [done|]. csimpl. rewrite omap_app, turn_reasoning, IH.
  by destruct (kept_reasoning seg).
Qed.
