(* ===== verification/ResponsesStream.v ===== *)
(** * Responses API: the event stream

    [server/types/responses_stream.rs], [server/streaming_responses.rs] and the
    generation task of [stream_create_response] ([server/routes/responses.rs]): decoded
    tokens go through the stream filter, and what it lets out becomes typed events with
    consecutive sequence numbers.  Events are collected in the order they are sent; the
    parsed tool calls and the token counts are the result of the generation. *)

From S2P Require Import Prelude.
From S2P Require Import StreamFilter.
From S2P Require Import ResponsesTypes.
From S2P Require Import ResponsesTranslate.

(** ** Events *)

Inductive ResponseStreamEvent :=
  | ECreated (seq : N) (r : ResponseObject)
  | EInProgress (seq : N) (r : ResponseObject)
  | ECompleted (seq : N) (r : ResponseObject)
  | EFailed (seq : N) (r : ResponseObject)
  | EIncomplete (seq : N) (r : ResponseObject)
  | EError (seq : N) (code message : string)
  | EOutputItemAdded (seq : N) (output_index : nat) (item : ResponseOutputItem)
  | EOutputItemDone (seq : N) (output_index : nat) (item : ResponseOutputItem)
  | EContentPartAdded (seq : N) (item_id : string) (output_index content_index : nat) (part : ResponseOutputContent)
  | EContentPartDone (seq : N) (item_id : string) (output_index content_index : nat) (part : ResponseOutputContent)
  | EOutputTextDelta (seq : N) (item_id : string) (output_index content_index : nat) (delta : str)
  | EOutputTextDone (seq : N) (item_id : string) (output_index content_index : nat) (text : str)
  | EFunctionCallArgumentsDelta (seq : N) (item_id : string) (output_index : nat) (delta : str)
  | EFunctionCallArgumentsDone (seq : N) (item_id : string) (output_index : nat) (arguments : str)
  | EReasoningTextDelta (seq : N) (item_id : string) (output_index content_index : nat) (delta : str)
  | EReasoningTextDone (seq : N) (item_id : string) (output_index content_index : nat) (text : str).

Definition sequence_number (e : ResponseStreamEvent) : N :=
  match e with
  | ECreated n _ | EInProgress n _ | ECompleted n _ | EFailed n _ | EIncomplete n _ | EError n _ _
  | EOutputItemAdded n _ _ | EOutputItemDone n _ _ | EContentPartAdded n _ _ _ _ | EContentPartDone n _ _ _ _
  | EOutputTextDelta n _ _ _ _ | EOutputTextDone n _ _ _ _ | EFunctionCallArgumentsDelta n _ _ _
  | EFunctionCallArgumentsDone n _ _ _ | EReasoningTextDelta n _ _ _ _ | EReasoningTextDone n _ _ _ _ => n
  end.

(** ** The emitter *)

Record Emitter := mkEmitter {
  em_seq : N;
  em_output_index : nat;
  active_message_id : option string;
  active_reasoning_id : option string;
  message_text_acc : str;
  reasoning_text_acc : str;
}.

Definition new_emitter : Emitter := mkEmitter 0 0 None None [] [].

Definition advance_output_index (e : Emitter) : Emitter :=
  mkEmitter (em_seq e) (S (em_output_index e)) (active_message_id e) (active_reasoning_id e) (message_text_acc e) (reasoning_text_acc e).
Definition open_message (id : string) (e : Emitter) : Emitter :=
  mkEmitter (em_seq e) (em_output_index e) (Some id) (active_reasoning_id e) [] (reasoning_text_acc e).
Definition open_reasoning (id : string) (e : Emitter) : Emitter :=
  mkEmitter (em_seq e) (em_output_index e) (active_message_id e) (Some id) (message_text_acc e) [].
Definition push_message_text (t : str) (e : Emitter) : Emitter :=
  mkEmitter (em_seq e) (em_output_index e) (active_message_id e) (active_reasoning_id e) (message_text_acc e ++ t) (reasoning_text_acc e).
Definition push_reasoning_text (t : str) (e : Emitter) : Emitter :=
  mkEmitter (em_seq e) (em_output_index e) (active_message_id e) (active_reasoning_id e) (message_text_acc e) (reasoning_text_acc e ++ t).

(** [take()] the id and the text; nothing changes when no item is open. *)
Definition close_message (e : Emitter) : Emitter * option (string * str) :=
  match active_message_id e with
  | None => (e, None)
  | Some id => (mkEmitter (em_seq e) (em_output_index e) None (active_reasoning_id e) [] (reasoning_text_acc e), Some (id, message_text_acc e))
  end.
Definition close_reasoning (e : Emitter) : Emitter * option (string * str) :=
  match active_reasoning_id e with
  | None => (e, None)
  | Some id => (mkEmitter (em_seq e) (em_output_index e) (active_message_id e) None (message_text_acc e) [], Some (id, reasoning_text_acc e))
  end.

(** ** The generation task *)

Record Streaming := mkStreaming { st_em : Emitter; st_uuid : N; sent : list ResponseStreamEvent }.

Definition on_emitter (g : Emitter → Emitter) (s : Streaming) : Streaming := mkStreaming (g (st_em s)) (st_uuid s) (sent s).

(** [next_seq], then [send_event]. *)
Definition emit (f : N → ResponseStreamEvent) (s : Streaming) : Streaming :=
  let e := st_em s in
  mkStreaming (mkEmitter (em_seq e + 1) (em_output_index e) (active_message_id e) (active_reasoning_id e) (message_text_acc e) (reasoning_text_acc e))
    (st_uuid s) (sent s ++ [f (em_seq e)]).

Abbreviation index_of s := (em_output_index (st_em s)).

Section task.
Variable uuid : N → string.

(** [format!("{prefix}{}", short_uuid())]. *)
Definition fresh_id (prefix : string) (s : Streaming) : string * Streaming :=
  (String.append prefix (uuid (st_uuid s)), mkStreaming (st_em s) (st_uuid s + 1) (sent s)).

Definition ensure_reasoning (s : Streaming) : string * Streaming :=
  match active_reasoning_id (st_em s) with
  | Some id => (id, s)
  | None =>
    let '(id, s1) := fresh_id "rs_" s in
    let s2 := on_emitter (open_reasoning id) s1 in
    (id, emit (λ n, EOutputItemAdded n (index_of s2) (OReasoning id ItemInProgress [])) s2)
  end.

Definition on_reasoning (t : str) (s : Streaming) : Streaming :=
  let '(id, s1) := ensure_reasoning s in
  let s2 := on_emitter (push_reasoning_text t) s1 in
  emit (λ n, EReasoningTextDelta n id (index_of s2) 0 t) s2.

Definition close_reasoning_envelope (s : Streaming) : Streaming :=
  match close_reasoning (st_em s) with
  | (_, None) => s
  | (e, Some (id, text)) =>
    let s1 := mkStreaming e (st_uuid s) (sent s) in
    let s2 := emit (λ n, EReasoningTextDone n id (index_of s1) 0 text) s1 in
    let s3 := emit (λ n, EOutputItemDone n (index_of s2) (OReasoning id ItemCompleted [text])) s2 in
    on_emitter advance_output_index s3
  end.

Definition ensure_message (s : Streaming) : string * Streaming :=
  match active_message_id (st_em s) with
  | Some id => (id, s)
  | None =>
    let '(id, s1) := fresh_id "msg_" s in
    let s2 := on_emitter (open_message id) s1 in
    let s3 := emit (λ n, EOutputItemAdded n (index_of s2) (new_assistant id [])) s2 in
    (id, emit (λ n, EContentPartAdded n id (index_of s3) 0 (OutputText [])) s3)
  end.

Definition text_delta (id : string) (t : str) (s : Streaming) : Streaming :=
  let s1 := on_emitter (push_message_text t) s in
  emit (λ n, EOutputTextDelta n id (index_of s1) 0 t) s1.

Definition on_content (t : str) (s : Streaming) : Streaming :=
  let '(id, s1) := ensure_message (close_reasoning_envelope s) in text_delta id t s1.

(** The closure called for every decoded token. *)
Definition on_output (o : FilterOutput) (s : Streaming) : Streaming :=
  let s1 := match out_reasoning o with Some ((_ :: _) as t) => on_reasoning t s | _ => s end in
  match out_content o with Some ((_ :: _) as t) => on_content t s1 | _ => s1 end.

Fixpoint on_tokens (f : StreamFilter) (tokens : list str) (s : Streaming) : StreamFilter * Streaming :=
  match tokens with
  | [] => (f, s)
  | t :: ts => let '(f', o) := feed f t in on_tokens f' ts (on_output o s)
  end.

(** The flush: content only, and only into a message that is open. *)
Definition on_trailing (o : FilterOutput) (s : Streaming) : Streaming :=
  match out_content o, active_message_id (st_em s) with
  | Some ((_ :: _) as t), Some id => text_delta id t s
  | _, _ => s
  end.

Definition close_message_envelope (s : Streaming) : Streaming * str :=
  match close_message (st_em s) with
  | (_, None) => (s, [])
  | (e, Some (id, text)) =>
    let s1 := mkStreaming e (st_uuid s) (sent s) in
    if decide (id = "") then (s1, text)
    else
      let s2 := emit (λ n, EOutputTextDone n id (index_of s1) 0 text) s1 in
      let s3 := emit (λ n, EContentPartDone n id (index_of s2) 0 (OutputText text)) s2 in
      let s4 := emit (λ n, EOutputItemDone n (index_of s3) (new_assistant id [OutputText text])) s3 in
      (on_emitter advance_output_index s4, text)
  end.

Definition on_tool_call (s : Streaming) (call : string * str) : Streaming :=
  let '(fc_id, s1) := fresh_id "fc_" s in
  let '(call_id, s2) := fresh_id "call_" s1 in
  let item := OFunctionCall fc_id call_id call.1 call.2 ItemCompleted in
  let s3 := emit (λ n, EOutputItemAdded n (index_of s2) item) s2 in
  let s4 := emit (λ n, EFunctionCallArgumentsDelta n fc_id (index_of s3) call.2) s3 in
  let s5 := emit (λ n, EFunctionCallArgumentsDone n fc_id (index_of s4) call.2) s4 in
  let s6 := emit (λ n, EOutputItemDone n (index_of s5) item) s5 in
  on_emitter advance_output_index s6.

(** What the model provider returns. *)
Record GenerationResult := mkGenResult { gr_prompt_tokens : nat; gr_completion_tokens : nat }.

Record StreamInputs := mkStreamInputs {
  si_response_id : string;
  si_model_id : string;
  si_created_at : N;
  si_completed_at : N;
  si_request : CreateResponseRequest;
  si_tokens : list str;
  si_result : string + GenerationResult;
  si_tools : option (list (string * str));
}.

Definition stream_context (i : StreamInputs) (status : ResponseStatus) (completed : N) (prompt completion : nat)
    (text : str) (reasoning : option str) (tools : option (list (string * str))) : OutboundContext :=
  mkOutbound (si_response_id i) (si_model_id i) (si_created_at i) completed status prompt completion text reasoning tools
    (max_tool_calls (si_request i)) (si_request i) None.

Definition stream_prologue (i : StreamInputs) (n : N) : Streaming :=
  let '(initial, n1) := build_response_object uuid (stream_context i InProgress (si_created_at i) 0 0 [] None None) n in
  emit (λ k, EInProgress k initial) (emit (λ k, ECreated k initial) (mkStreaming new_emitter n1 [])).

Definition stream_epilogue (i : StreamInputs) (g : GenerationResult) (s : Streaming) : Streaming * ResponseObject :=
  let s1 := close_reasoning_envelope s in
  let '(s2, message_text) := close_message_envelope s1 in
  let reasoning := match reasoning_text_acc (st_em s2) with [] => None | t => Some t end in
  let s3 := foldl on_tool_call s2 (default [] (si_tools i)) in
  let '(final, n) := build_response_object uuid
    (stream_context i Completed (si_completed_at i) (gr_prompt_tokens g) (gr_completion_tokens g) message_text reasoning (si_tools i)) (st_uuid s3) in
  (emit (λ k, ECompleted k final) (mkStreaming (st_em s3) n (sent s3)), final).

(** The whole task: the events sent and, unless the generation failed, the response it
    goes on to persist. *)
Definition stream_task (i : StreamInputs) (n : N) : Streaming * option ResponseObject :=
  let '(f, s) := on_tokens new_filter (si_tokens i) (stream_prologue i n) in
  let s1 := on_trailing (flush f).2 s in
  match si_result i with
  | inr g => let '(s2, final) := stream_epilogue i g s1 in (s2, Some final)
  | inl e => (emit (λ k, EError k "server_error" e) s1, None)
  end.
End task.

(** ** What a client reads off the events *)

Definition delta_text (e : ResponseStreamEvent) : str := match e with EOutputTextDelta _ _ _ _ t => t | _ => [] end.
Definition delta_reasoning (e : ResponseStreamEvent) : str := match e with EReasoningTextDelta _ _ _ _ t => t | _ => [] end.
Definition added_id (e : ResponseStreamEvent) : list string := match e with EOutputItemAdded _ _ i => [item_id i] | _ => [] end.
Definition done_id (e : ResponseStreamEvent) : list string := match e with EOutputItemDone _ _ i => [item_id i] | _ => [] end.
Definition done_call (e : ResponseStreamEvent) : list (string * str) :=
  match e with EOutputItemDone _ _ (OFunctionCall _ _ name args _) => [(name, args)] | _ => [] end.

Definition streamed {A} (g : ResponseStreamEvent → list A) (l : list ResponseStreamEvent) : list A := concat (g <$> l).
Arguments streamed : simpl never.

Lemma streamed_app {A} (g : ResponseStreamEvent → list A) l1 l2 : streamed g (l1 ++ l2) = streamed g l1 ++ streamed g l2.
Proof. unfold streamed. by rewrite fmap_app, concat_app. Qed.

Lemma streamed_one {A} (g : ResponseStreamEvent → list A) e : streamed g [e] = g e.
Proof. unfold streamed. cbn. apply app_nil_r. Qed.

(** ** The invariant of the task *)

Definition numbered (s : Streaming) : Prop :=
  sequence_number <$> sent s = N.of_nat <$> seq 0 (length (sent s)) ∧ em_seq (st_em s) = N.of_nat (length (sent s)).

Lemma emit_numbered f s : (∀ n, sequence_number (f n) = n) → numbered s → numbered (emit f s).
Proof.
  intros Hf [Hs He]. unfold numbered, emit. cbn [sent st_em em_seq]. rewrite length_app. cbn [length]. split; [|lia].
  rewrite fmap_app, seq_app, fmap_app, Hs. cbn. by rewrite Hf, He.
Qed.

Lemma keep_numbered e n s : em_seq e = em_seq (st_em s) → numbered s → numbered (mkStreaming e n (sent s)).
Proof. intros He [Hs Hn]. split; [done|]. cbn. by rewrite He. Qed.

Lemma on_emitter_numbered g s : em_seq (g (st_em s)) = em_seq (st_em s) → numbered s → numbered (on_emitter g s).
Proof. apply keep_numbered. Qed.

Create HintDb numbered.
#[export] Hint Resolve emit_numbered keep_numbered on_emitter_numbered : numbered.

(** [C] and [R] are the text and reasoning sent so far. *)
Record task_inv (s : Streaming) (C R : str) : Prop := mkTaskInv {
  inv_numbered : numbered s;
  inv_text : streamed delta_text (sent s) = C;
  inv_reasoning : streamed delta_reasoning (sent s) = R;
  inv_calls : streamed done_call (sent s) = [];
  inv_message : match active_message_id (st_em s) with
                | None => C = []
                | Some id => message_text_acc (st_em s) = C ∧ C ≠ [] ∧ id ≠ ""
                end;
  inv_closed : active_reasoning_id (st_em s) = None → reasoning_text_acc (st_em s) = [];
  inv_ids : streamed added_id (sent s) ≡ₚ
            streamed done_id (sent s) ++ option_list (active_message_id (st_em s)) ++ option_list (active_reasoning_id (st_em s));
}.

Ltac events := rewrite ?streamed_app, ?streamed_one; cbn [delta_text delta_reasoning added_id done_id done_call item_id new_assistant]; rewrite ?app_nil_r.

Section inv.
Variable uuid : N → string.

Lemma reasoning_inv t s C R : t ≠ [] → task_inv s C R → task_inv (on_reasoning uuid t s) C (R ++ t).
Proof.
  intros Ht [Hn HC HR Hcalls Hm Hc Hids]. unfold on_reasoning, ensure_reasoning.
  destruct (active_reasoning_id (st_em s)) as [id|] eqn:Ha; cbn [fresh_id].
  - split; cbn; rewrite ?Ha; events; [|congruence..|done|done|done].
    apply emit_numbered; [done|]. by apply on_emitter_numbered.
  - split; cbn; events; [|congruence..|done|done|].
    + apply emit_numbered; [done|]. apply on_emitter_numbered; [done|]. apply emit_numbered; [done|].
      apply on_emitter_numbered; [done|]. by apply keep_numbered.
    + rewrite Hids. cbn. solve_Permutation.
Qed.

Lemma close_reasoning_inv s C R : task_inv s C R → task_inv (close_reasoning_envelope s) C R ∧
  active_reasoning_id (st_em (close_reasoning_envelope s)) = None.
Proof.
  intros [Hn HC HR Hcalls Hm Hc Hids]. unfold close_reasoning_envelope, close_reasoning.
  destruct (active_reasoning_id (st_em s)) as [id|] eqn:Ha; [|by split; [split|]; rewrite ?Ha].
  split; [|done]. split; cbn; events; [|congruence..|done|done|].
  - apply on_emitter_numbered; [done|]. do 2 (apply emit_numbered; [done|]). by apply keep_numbered.
  - rewrite Hids. cbn. solve_Permutation.
Qed.


Lemma content_inv t s C R : t ≠ [] → task_inv s C R → task_inv (on_content uuid t s) (C ++ t) R.
Proof.
  intros Ht Hinv. apply close_reasoning_inv in Hinv as [[Hn HC HR Hcalls Hm Hc Hids] Hnone].
  unfold on_content. generalize dependent (close_reasoning_envelope s). clear s. intros s Hn HC HR Hcalls Hm Hc Hids Hnone.
  unfold ensure_message, text_delta.
  destruct (active_message_id (st_em s)) as [id|] eqn:Ha; cbn [fresh_id].
  - destruct Hm as (Hacc & Hne & Hid). split; cbn; rewrite ?Ha; events; [|congruence..| |exact Hc|done].
    + apply emit_numbered; [done|]. by apply on_emitter_numbered.
    + split_and!; [congruence|by destruct C|done].
  - subst C. split; cbn; rewrite ?Ha; events; [|congruence..| |done|].
    + apply emit_numbered; [done|]. apply on_emitter_numbered; [done|]. do 2 (apply emit_numbered; [done|]).
      apply on_emitter_numbered; [done|]. by apply keep_numbered.
    + rewrite Hm. split_and!; done.
    + rewrite Hids, Hnone. cbn. solve_Permutation.
Qed.

Lemma output_inv o s C R :
  task_inv s C R → task_inv (on_output uuid o s) (C ++ default [] (out_content o)) (R ++ default [] (out_reasoning o)).
Proof.
  intros Hinv. unfold on_output.
  assert (task_inv (match out_reasoning o with Some ((_ :: _) as t) => on_reasoning uuid t s | _ => s end) C (R ++ default [] (out_reasoning o))) as H1.
  { destruct (out_reasoning o) as [[|c t]|]; cbn; rewrite ?app_nil_r; [done|by apply reasoning_inv|done]. }
  generalize dependent (match out_reasoning o with Some ((_ :: _) as t) => on_reasoning uuid t s | _ => s end). intros s1 H1.
  destruct (out_content o) as [[|c t]|]; cbn; rewrite ?app_nil_r; [done|by apply content_inv|done].
Qed.

Lemma on_tokens_inv f tokens s C R :
  task_inv s C R →
  (on_tokens uuid f tokens s).1 = (feeds f tokens).1 ∧
  task_inv (on_tokens uuid f tokens s).2 (C ++ content_of (feeds f tokens).2) (R ++ reasoning_of (feeds f tokens).2).
Proof.
  revert f s C R. induction tokens as [|t ts IH]; intros f s C R Hinv; cbn [on_tokens feeds].
  - cbn. by rewrite !app_nil_r.
  - destruct (feed f t) as [f1 o]. pose proof (IH f1 _ _ _ (output_inv o _ _ _ Hinv)) as [Hfs Hs].
    destruct (feeds f1 ts) as [f2 os]. cbn [fst snd] in *. split; [done|].
    unfold content_of, reasoning_of in *. csimpl. by rewrite !app_assoc.
Qed.

Lemma trailing_inv o s C R :
  task_inv s C R → task_inv (on_trailing o s) (match C with [] => [] | _ => C ++ default [] (out_content o) end) R.
Proof.
  intros Hinv. pose proof Hinv as [Hn HC HR Hcalls Hm Hc Hids]. unfold on_trailing, text_delta.
  destruct (out_content o) as [[|c t]|]; cbn [default]; [by destruct C; rewrite ?app_nil_r| |by destruct C; rewrite ?app_nil_r].
  destruct (active_message_id (st_em s)) as [id|] eqn:Ha.
  - destruct Hm as (Hacc & Hne & Hid). destruct C as [|x C]; [done|].
    split; cbn; rewrite ?Ha; events; [|by rewrite HC|done|done| |done|done].
    + apply emit_numbered; [done|]. by apply on_emitter_numbered.
    + split_and!; [by rewrite Hacc|done|done].
  - by rewrite Hm in Hinv |- *.
Qed.

Lemma prologue_inv i n : task_inv (stream_prologue uuid i n) [] [].
Proof.
  unfold stream_prologue. destruct (build_response_object _ _ _) as [r n1].
  split; cbn; events; [|done..]. do 2 (apply emit_numbered; [done|]). done.
Qed.

(** ** Closing *)

(** Once the message is closed, nothing is open. *)
Record closed_inv (s : Streaming) (C R : str) (calls : list (string * str)) : Prop := mkClosedInv {
  cl_numbered : numbered s;
  cl_text : streamed delta_text (sent s) = C;
  cl_reasoning : streamed delta_reasoning (sent s) = R;
  cl_calls : streamed done_call (sent s) = calls;
  cl_ids : streamed added_id (sent s) ≡ₚ streamed done_id (sent s);
}.

Lemma close_message_inv s C R :
  task_inv s C R → active_reasoning_id (st_em s) = None →
  let '(s', text) := close_message_envelope s in
  text = C ∧ closed_inv s' C R [] ∧ reasoning_text_acc (st_em s') = [].
Proof.
  intros [Hn HC HR Hcalls Hm Hc Hids] Hnone. unfold close_message_envelope, close_message.
  destruct (active_message_id (st_em s)) as [id|] eqn:Ha.
  - destruct Hm as (<- & Hne & Hid). rewrite decide_False by done. split; [done|]. split; [|by apply Hc].
    split; cbn; events; [|done..|].
    + apply on_emitter_numbered; [done|]. do 3 (apply emit_numbered; [done|]). by apply keep_numbered.
    + rewrite Hids, Hnone. cbn. by rewrite ?app_nil_r.
  - split; [done|]. split; [|by apply Hc]. split; [done..|]. rewrite Hids, Hnone. cbn. by rewrite ?app_nil_r.
Qed.

Lemma tool_call_inv s C R calls call : closed_inv s C R calls → closed_inv (on_tool_call uuid s call) C R (calls ++ [call]).
Proof.
  intros [Hn HC HR Hcalls Hids]. unfold on_tool_call. cbn [fresh_id].
  split; cbn; events; [|done|done| |].
  - apply on_emitter_numbered; [done|]. do 4 (apply emit_numbered; [done|]). exact Hn.
  - rewrite Hcalls. by destruct call.
  - by rewrite Hids.
Qed.

Lemma tool_calls_inv s C R calls l : closed_inv s C R calls → closed_inv (foldl (on_tool_call uuid) s l) C R (calls ++ l).
Proof.
  revert s calls. induction l as [|x l IH]; intros s calls H; [by rewrite app_nil_r|]. cbn [foldl].
  apply (tool_call_inv _ _ _ _ x), IH in H. by rewrite <- app_assoc in H.
Qed.

(** ** The response object *)

Definition is_reasoning (o : ResponseOutputItem) : bool := match o with OReasoning _ _ _ => true | _ => false end.
Definition output_call (o : ResponseOutputItem) : list (string * str) :=
  match o with OFunctionCall _ _ name args _ => [(name, args)] | _ => [] end.

Lemma function_call_items_spec n calls :
  concat (output_call <$> (function_call_items uuid n calls).1) = calls ∧
  Forall (λ o, is_reasoning o = false) (function_call_items uuid n calls).1 ∧
  ((function_call_items uuid n calls).1 = [] ↔ calls = []).
Proof.
  revert n. induction calls as [|[name args] calls IH]; intros n; [done|]. cbn.
  specialize (IH (n + 2)%N). destruct (function_call_items uuid (n + 2) calls) as [items n']. cbn in *.
  destruct IH as (-> & Hf & _). split_and!; [done|by constructor|done].
Qed.

Lemma build_response_spec ctx n :
  let r := (build_response_object uuid ctx n).1 in
  output_text r = ob_text ctx ∧ rsp_status r = ob_status ctx ∧ rsp_id r = ob_response_id ctx ∧ rsp_output r ≠ [] ∧
  concat (output_call <$> rsp_output r) = emitted_calls ctx ∧
  (ob_reasoning ctx = None → Forall (λ o, is_reasoning o = false) (rsp_output r)).
Proof.
  unfold build_response_object. destruct (reasoning_items uuid n (ob_reasoning ctx)) as [rs n1] eqn:Hr.
  pose proof (function_call_items_spec n1 (emitted_calls ctx)) as (Hc & Hf & He).
  destruct (function_call_items uuid n1 (emitted_calls ctx)) as [calls n2]. cbn [fst] in *.
  assert (concat (output_call <$> rs) = [] ∧ (ob_reasoning ctx = None → rs = [])) as [Hrs Hnone].
  { unfold reasoning_items in Hr. destruct (ob_reasoning ctx) as [[|? ?]|]; by injection Hr as <- <-. }
  destruct (ob_text ctx) as [|x t], calls as [|y calls]; cbn [fst output_text rsp_status rsp_id rsp_output];
    (split_and!; [done..| | |]; [by destruct rs|by rewrite ?fmap_app, ?concat_app, Hrs; csimpl; rewrite ?app_nil_r|
     intros ->%Hnone; cbn; try (by repeat constructor); try done]).
  - by rewrite app_nil_r.
  - inversion Hf; subst. constructor; [done|]. apply Forall_app_2; [done|]. by repeat constructor.
Qed.
End inv.

(** ** The stream as a whole *)

(** The text of the message: everything the filter routes to content, unless all of it
    was still held back when the generation ended. *)
Definition streamed_text (tokens : list str) : str :=
  match content_of (feeds new_filter tokens).2 with
  | [] => []
  | _ => bytes_in Content (routed Content 0 (concat tokens))
  end.

Lemma streamed_text_eq tokens :
  streamed_text tokens =
    match content_of (feeds new_filter tokens).2 with
    | [] => []
    | _ => content_of (feeds new_filter tokens).2 ++ default [] (out_content (flush (feeds new_filter tokens).1).2)
    end.
Proof.
  pose proof (filter_stream_routed new_filter tokens (or_introl eq_refl)) as [Hc _]. unfold streamed_text.
  change (f_state new_filter) with Content in Hc. rewrite <- Hc. unfold filter_stream. destruct (feeds new_filter tokens) as [f os]. cbn [fst snd].
  unfold content_of. rewrite fmap_app, concat_app. cbn [fmap list_fmap concat]. by rewrite app_nil_r.
Qed.

Section stream.
Variable uuid : N → string.

Lemma stream_before_end i n :
  let s := on_trailing (flush (on_tokens uuid new_filter (si_tokens i) (stream_prologue uuid i n)).1).2
             (on_tokens uuid new_filter (si_tokens i) (stream_prologue uuid i n)).2 in
  task_inv s (streamed_text (si_tokens i)) (reasoning_of (feeds new_filter (si_tokens i)).2).
Proof.
  pose proof (on_tokens_inv uuid new_filter (si_tokens i) _ _ _ (prologue_inv uuid i n)) as [Hf Hs].
  rewrite !app_nil_l in Hs. rewrite Hf, streamed_text_eq. by apply trailing_inv.
Qed.

(** The first [max] calls. *)
Definition capped (max : option nat) (calls : list (string * str)) : list (string * str) :=
  match max with Some m => take m calls | None => calls end.

Lemma epilogue_spec i g s C R :
  task_inv s C R →
  let '(s', final) := stream_epilogue uuid i g s in
  numbered s' ∧ streamed delta_text (sent s') = C ∧ streamed delta_reasoning (sent s') = R ∧
  streamed added_id (sent s') ≡ₚ streamed done_id (sent s') ∧ streamed done_call (sent s') = default [] (si_tools i) ∧
  (∃ k, last (sent s') = Some (ECompleted k final)) ∧ output_text final = C ∧ rsp_status final = Completed ∧
  rsp_id final = si_response_id i ∧ Forall (λ o, is_reasoning o = false) (rsp_output final) ∧
  concat (output_call <$> rsp_output final) = capped (max_tool_calls (si_request i)) (default [] (si_tools i)).
Proof.
  intros [Hinv Hnone]%close_reasoning_inv. unfold stream_epilogue.
  pose proof (close_message_inv _ _ _ Hinv Hnone) as Hcl. destruct (close_message_envelope _) as [s2 text].
  destruct Hcl as (-> & Hcl & Hacc). rewrite Hacc. apply (tool_calls_inv uuid _ _ _ _ (default [] (si_tools i))) in Hcl.
  destruct Hcl as [Hn HC HR Hcalls Hids].
  pose proof (build_response_spec uuid (stream_context i Completed (si_completed_at i) (gr_prompt_tokens g)
    (gr_completion_tokens g) C None (si_tools i)) (st_uuid (foldl (on_tool_call uuid) s2 (default [] (si_tools i))))) as Hb.
  destruct (build_response_object _ _ _) as [final n]. cbn [fst] in Hb. destruct Hb as (Ht & Hst & Hid & _ & Hcp & Hr).
  cbn [sent emit]. events. split_and!; [|done..| | | | |by apply Hr|].
  - apply emit_numbered; [done|]. by apply keep_numbered.
  - eexists. by rewrite last_snoc.
  - done.
  - done.
  - done.
  - rewrite Hcp. unfold emitted_calls, capped. cbn. destruct (si_tools i) as [calls|], (max_tool_calls (si_request i)); cbn; by rewrite ?take_nil.
Qed.

(** C37. A streamed response, for every sequence of decoded tokens and every outcome of the
    generation.  Sequence numbers are 0, 1, 2, ... without gaps; the text deltas
    concatenate to what the filter's reference routes to content, except that nothing
    is sent when all of it was still held back at the end.  On success the last event
    completes the response: its [output_text] is the concatenated deltas, every item
    announced was closed, and the object carries no reasoning item although reasoning was
    streamed; every parsed tool call was streamed, also those beyond the request's
    [max_tool_calls], which only the object leaves out.  On failure the last event is
    the error, there is no response to persist, and at most two announced items stay open: the
    message, exactly when text was streamed, and a reasoning item. *)
Theorem stream_task_correct (i : StreamInputs) (n : N) :
  let s := (stream_task uuid i n).1 in
  let final := (stream_task uuid i n).2 in
  sequence_number <$> sent s = N.of_nat <$> seq 0 (length (sent s)) ∧
  streamed delta_text (sent s) = streamed_text (si_tokens i) ∧
  streamed delta_reasoning (sent s) = reasoning_of (feeds new_filter (si_tokens i)).2 ∧
  match si_result i with
  | inr _ =>
    ∃ k r, final = Some r ∧ last (sent s) = Some (ECompleted k r) ∧ rsp_status r = Completed ∧ rsp_id r = si_response_id i ∧
      output_text r = streamed delta_text (sent s) ∧
      streamed added_id (sent s) ≡ₚ streamed done_id (sent s) ∧
      streamed done_call (sent s) = default [] (si_tools i) ∧
      concat (output_call <$> rsp_output r) = capped (max_tool_calls (si_request i)) (default [] (si_tools i)) ∧
      Forall (λ o, is_reasoning o = false) (rsp_output r)
  | inl e =>
    final = None ∧ (∃ k, last (sent s) = Some (EError k "server_error" e)) ∧
    ∃ message reasoning, streamed added_id (sent s) ≡ₚ streamed done_id (sent s) ++ option_list message ++ option_list reasoning ∧
      (is_Some message ↔ streamed delta_text (sent s) ≠ [])
  end.
Proof.
  pose proof (stream_before_end i n) as Hinv. cbn zeta in Hinv. unfold stream_task.
  destruct (on_tokens uuid new_filter (si_tokens i) (stream_prologue uuid i n)) as [f s]. cbn [fst snd] in Hinv.
  destruct (si_result i) as [e|g].
  - destruct Hinv as [Hn HC HR _ Hm _ Hids]. cbn [fst snd sent emit]. events. split_and!; [|done..| |].
    + by apply (emit_numbered (λ k, EError k "server_error" e)).
    + eexists. by rewrite last_snoc.
    + eexists _, _. split; [exact Hids|]. rewrite HC. destruct (active_message_id (st_em _)); [|naive_solver].
      destruct Hm as (_ & ? & _). by split.
  - apply (epilogue_spec i g) in Hinv. destruct (stream_epilogue uuid i g _) as [s' r]. cbn [fst snd].
    destruct Hinv as ([Hn _] & HC & HR & Hids & Hcalls & [k Hlast] & Hout & Hst & Hid & Hre & Hcap).
    split_and!; [done..|]. exists k, r. split_and!; try done. congruence.
Qed.
End stream.

(** ** Six streams *)

Definition demo_inputs (tokens : list string) (tools : option (list (string * str))) : StreamInputs :=
  mkStreamInputs "resp_0" "m" 0 0 (mkRequest "m" (InputText []) None None None None None true None None None None None None None None)
    (bytes_of <$> tokens) (inr (mkGenResult 1 1)) tools.

Definition letter_uuid (n : N) : string := String.String (Ascii.ascii_of_N (65 + n)) "".

Definition call_ids (l : list ResponseOutputItem) : list string := omap (λ o, match o with OFunctionCall _ c _ _ _ => Some c | _ => None end) l.

(** The call id a client sees in the stream is not the one of the completed and stored
    response. *)
Example streamed_call_id_differs :
  let s := (stream_task letter_uuid (demo_inputs ["hi"] (Some [("f", [])])) 0).1 in
  let final := (stream_task letter_uuid (demo_inputs ["hi"] (Some [("f", [])])) 0).2 in
  (call_ids (omap (λ e, match e with EOutputItemDone _ _ i => Some i | _ => None end) (sent s)),
   call_ids (default [] (rsp_output <$> final))) = (["call_D"], ["call_F"]).
Proof. cbv zeta. vm_refl. Qed.

(** A reply that ends while all of it could still be a marker is lost. *)
Example held_back_reply_lost :
  let s := (stream_task letter_uuid (demo_inputs ["<"] None) 0).1 in
  let final := (stream_task letter_uuid (demo_inputs ["<"] None) 0).2 in
  (streamed delta_text (sent s), output_text <$> final, bytes_in Content (routed Content 0 (bytes_of "<"))) = ([], Some [], bytes_of "<").
Proof. cbv zeta. vm_refl. Qed.

(** Reasoning after content moves the open message to another output index. *)
Example message_changes_index :
  let s := (stream_task letter_uuid (demo_inputs ["a"; "<think>b</think>c"] None) 0).1 in
  omap (λ e, match e with EOutputTextDelta _ _ i _ t => Some (i, t) | EReasoningTextDelta _ _ i _ t => Some (i, t) | _ => None end) (sent s) =
  [(0, bytes_of "a"); (0, bytes_of "b"); (1, bytes_of "c")].
Proof. cbv zeta. vm_refl. Qed.

(** The reply of a template that opens the thinking block starts as content: the route
    never starts its filter inside the block. *)
Example primed_reasoning_streamed_as_text :
  let s := (stream_task letter_uuid (demo_inputs ["thought"; "</think>"; "answer"] None) 0).1 in
  streamed delta_text (sent s) = bytes_of "thoughtanswer".
Proof. cbv zeta. vm_refl. Qed.

(** A request that allows one call is streamed two, and its completed response has one. *)
Example cap_not_streamed :
  let rq := mkRequest "m" (InputText []) None None None None None true None (Some 1) None None None None None None in
  let i := mkStreamInputs "resp_0" "m" 0 0 rq [] (inr (mkGenResult 1 1)) (Some [("f", []); ("g", [])]) in
  let s := (stream_task letter_uuid i 0).1 in
  let final := (stream_task letter_uuid i 0).2 in
  (fst <$> streamed done_call (sent s), fst <$> concat (output_call <$> default [] (rsp_output <$> final))) = (["f"; "g"], ["f"]).
Proof. cbv zeta. vm_refl. Qed.

(** A generation that fails after some text: the message is announced and never closed. *)
Example failed_stream_leaves_message_open :
  let rq := mkRequest "m" (InputText []) None None None None None true None None None None None None None None in
  let i := mkStreamInputs "resp_0" "m" 0 0 rq [bytes_of "hello"] (inl "out of memory") None in
  let s := (stream_task letter_uuid i 0).1 in
  (streamed added_id (sent s), streamed done_id (sent s)) = (["msg_B"], []).
Proof. cbv zeta. vm_refl. Qed.
