(* ===== verification/ResponsesServer.v ===== *)
(** * Responses API: the handlers

    [server/routes/responses.rs]: creating, fetching, deleting and cancelling responses
    over the two stores ([server/startup.rs] builds them).  A request that generates is two steps,
    the translation with the dispatch to one of the two routes and the end of the generation, which
    other requests run between; the second is given what the generation produced.  The checks
    between translation and generation (structured output, thinking budget, free slots, prompt
    rendering) refuse a request without touching the stores.  Wall-clock
    seconds, [Instant]s and ids come in as arguments, as in the components below. *)

From S2P Require Import Prelude.
From S2P Require Import ClusterNodes.
From S2P Require Import StreamFilter.
From S2P Require Import TtlStore.
From S2P Require Import ResponsesTypes.
From S2P Require Import ResponsesTranslate.
From S2P Require Import ResponsesStream.

(** ** State *)

Record AppState := mkApp {
  app_stores : Stores;
  in_flight : registry;
  cancel_flags : flags;
  next_uuid : N;
}.

(** The stores a server starts with: a capacity of 0 disables a store, a time to live of
    0 seconds means [u64::MAX / 2] seconds. *)
Definition build_store {V : Type} (max ttl_secs : N) : option (StoreConfig * gmap string (Entry V)) :=
  if (max =? 0)%N then None
  else Some (mkStoreConfig (N.to_nat max) ((if (ttl_secs =? 0)%N then u64_max / 2 else ttl_secs) * 1000000000)%N, ∅).

Definition startup_state (responses_max responses_ttl conversations_max conversations_ttl : N) : AppState :=
  mkApp (mkStores (build_store responses_max responses_ttl) (build_store conversations_max conversations_ttl)) ∅ [] 0.

Inductive ApiError := TranslateError (e : ResponsesTranslateError) | BackendError (message : string) | StoreDisabled | NotFound (id : string).

Section handlers.
Context `{!StringOrder} (uuid : N → string) (model_id : string).

(** ** Persisting *)

Definition persist_items (t : TranslatedRequest) (r : ResponseObject) : list ConversationItem :=
  (Input <$> canonical_input_items t) ++ (Output <$> rsp_output r).

Definition persist_response (now : N) (t : TranslatedRequest) (r : ResponseObject) (s : Stores) : Stores :=
  if effective_store t then
    mkStores
      (match responses s with
       | Some (c, m) => Some (c, store_insert c now (rsp_id r) (mkStored r (canonical_input_items t)) m)
       | None => None
       end)
      (match conversation_id t, conversations s with
       | Some id, Some (c, m) => Some (c, conv_append c now id (persist_items t r) m)
       | _, cs => cs
       end)
  else s.

(** ** Creating a response *)

Record Generated := mkGenerated {
  g_prompt_tokens : nat;
  g_completion_tokens : nat;
  g_visible : str;
  g_reasoning : option str;
  g_tools : option (list (string * str));
}.

Definition set_stores (st : AppState) (s : Stores) : AppState := mkApp s (in_flight st) (cancel_flags st) (next_uuid st).

(** A request between its translation and the end of its generation. *)
Record PendingCall := mkPendingCall {
  pc_request : CreateResponseRequest;
  pc_created : N;
  pc_translated : TranslatedRequest;
  pc_id : string;
}.

(** [create_response] up to the dispatch on [request.stream]. *)
Definition create_response (now created : N) (r : CreateResponseRequest) (st : AppState) : AppState * outcome ApiError PendingCall :=
  let '(s1, translated) := responses_request_to_chat now r (app_stores st) in
  match translated with
  | Ok t => (mkApp s1 (in_flight st) (cancel_flags st) (next_uuid st + 1)%N,
             Ok (mkPendingCall r created t (String.append "resp_" (uuid (next_uuid st)))))
  | Err e => (set_stores st s1, Err (TranslateError e))
  | Panic => (set_stores st s1, Panic)
  end.

Definition response_context (p : PendingCall) (completed : N) (g : Generated) : OutboundContext :=
  mkOutbound (pc_id p) model_id (pc_created p) completed Completed (g_prompt_tokens g) (g_completion_tokens g)
    (g_visible g) (g_reasoning g) (g_tools g) (max_tool_calls (pc_request p)) (pc_request p) None.

(** The end of [non_stream_create_response] when the generation succeeded. *)
Definition non_stream_finish (done completed : N) (p : PendingCall) (g : Generated) (st : AppState) : AppState * ResponseObject :=
  let '(r, n) := build_response_object uuid (response_context p completed g) (next_uuid st) in
  (mkApp (persist_response done (pc_translated p) r (app_stores st)) (in_flight st) (cancel_flags st) n, r).

(** ** The other routes *)

Definition retrieve_response (now : N) (id : string) (st : AppState) : AppState * outcome ApiError ResponseObject :=
  match responses (app_stores st) with
  | None => (st, Err StoreDisabled)
  | Some (c, m) =>
    let '(m', found) := store_get c now id m in
    (set_stores st (mkStores (Some (c, m')) (conversations (app_stores st))),
     match found with Some stored => Ok (stored_response stored) | None => Err (NotFound id) end)
  end.

Definition delete_response (id : string) (st : AppState) : AppState * outcome ApiError bool :=
  match responses (app_stores st) with
  | None => (st, Err StoreDisabled)
  | Some (c, m) =>
    let '(m', old) := store_remove id m in
    (set_stores st (mkStores (Some (c, m')) (conversations (app_stores st))), Ok (bool_decide (is_Some old)))
  end.

(** A stored response is marked and inserted again, with new times; otherwise the reply
    only says whether a stream was told to stop. *)
Definition cancel_response (now now' : N) (id : string) (st : AppState) : AppState * outcome ApiError ResponseStatus :=
  match responses (app_stores st) with
  | None => (st, Err StoreDisabled)
  | Some (c, m) =>
    let '(fl, aborted) := cancel_in_flight id (in_flight st) (cancel_flags st) in
    let '(m1, found) := store_get c now id m in
    let with_map m' := mkApp (mkStores (Some (c, m')) (conversations (app_stores st))) (in_flight st) fl (next_uuid st) in
    match found with
    | Some stored =>
      let stored' := mkStored (set_status (stored_response stored) Cancelled) (input_items stored) in
      (with_map (store_insert c now' id stored' m1), Ok Cancelled)
    | None => (with_map m1, if aborted then Ok Cancelled else Err (NotFound id))
    end
  end.

(** The streaming route registers its flag under the response id, and the task removes it
    when it ends; the response is persisted only when the generation succeeded. *)
Definition stream_start (id : string) (st : AppState) : AppState :=
  match responses (app_stores st) with
  | None => mkApp (app_stores st) (in_flight st) (cancel_flags st ++ [false]) (next_uuid st)
  | Some _ =>
    let '(r, fl, _) := register_in_flight id (in_flight st) (cancel_flags st) in mkApp (app_stores st) r fl (next_uuid st)
  end.

Definition stream_finish (now : N) (t : TranslatedRequest) (i : StreamInputs) (st : AppState) : AppState * option ResponseObject :=
  let '(s, final) := stream_task uuid i (next_uuid st) in
  let stores' := match final with Some r => persist_response now t r (app_stores st) | None => app_stores st end in
  let r' := match responses (app_stores st) with
            | Some _ => unregister_in_flight (si_response_id i) (in_flight st)
            | None => in_flight st
            end in
  (mkApp stores' r' (cancel_flags st) (st_uuid s), final).

(** ** Runs of the server *)

Definition system_of (r : CreateResponseRequest) : list Message :=
  match rq_instructions r with Some ((_ :: _) as instr) => [system_message instr] | _ => [] end.

(** What a turn adds to the history: its input and its output as replayed. *)
Definition turn_items (r : CreateResponseRequest) (resp : ResponseObject) : list ResponseInputItem :=
  into_items (rq_input r) ++ concat (output_to_input_items <$> rsp_output resp).

Definition prompt_for (history : list ResponseInputItem) (r : CreateResponseRequest) : list Message :=
  system_of r ++ input_items_to_messages (history ++ into_items (rq_input r)).

(** The server with its pending requests; [sv_turns] records the turns that were completed, in the
    order in which they were, with the conversation of each. *)
Record Server := mkServer {
  sv_app : AppState;
  sv_pending : list PendingCall;
  sv_turns : list (string * list ResponseInputItem);
}.

(** A request arrives and is refused between its translation and its generation or goes on; the
    generation of a pending request ends, on either route; the other three routes. *)
Inductive ServerOp :=
  | OpPost (now created : N) (r : CreateResponseRequest) (refused : bool)
  | OpFinish (i : nat) (done completed : N) (out : string + Generated)
  | OpStreamEnd (i : nat) (done completed : N) (tokens : list str) (result : string + GenerationResult)
      (tools : option (list (string * str)))
  | OpRetrieve (now : N) (id : string)
  | OpDelete (id : string)
  | OpCancel (now now' : N) (id : string).

(** The turn a request that asks for a conversation and does not refuse storage completes. *)
Definition completed_turn (p : PendingCall) (resp : ResponseObject) : list (string * list ResponseInputItem) :=
  match conv_id <$> rq_conversation (pc_request p), default true (rq_store (pc_request p)) with
  | Some id, true => [(id, turn_items (pc_request p) resp)]
  | _, _ => []
  end.

Definition server_step (s : Server) (op : ServerOp) : Server :=
  let st := sv_app s in
  match op with
  | OpPost now created r refused =>
    match create_response now created r st with
    | (st1, Ok p) =>
      if refused then mkServer st1 (sv_pending s) (sv_turns s)
      else mkServer (if rq_stream r then stream_start (pc_id p) st1 else st1) (sv_pending s ++ [p]) (sv_turns s)
    | (st1, _) => mkServer st1 (sv_pending s) (sv_turns s)
    end
  | OpFinish i done completed out =>
    match sv_pending s !! i with
    | Some p =>
      if rq_stream (pc_request p) then s else
      match out with
      | inl _ => mkServer st (delete i (sv_pending s)) (sv_turns s)
      | inr g => let '(st', resp) := non_stream_finish done completed p g st in
                 mkServer st' (delete i (sv_pending s)) (sv_turns s ++ completed_turn p resp)
      end
    | None => s
    end
  | OpStreamEnd i done completed tokens result tools =>
    match sv_pending s !! i with
    | Some p =>
      if rq_stream (pc_request p) then
        let '(st', final) := stream_finish done (pc_translated p)
          (mkStreamInputs (pc_id p) model_id (pc_created p) completed (pc_request p) tokens result tools) st in
        mkServer st' (delete i (sv_pending s)) (sv_turns s ++ match final with Some resp => completed_turn p resp | None => [] end)
      else s
    | None => s
    end
  | OpRetrieve now id => mkServer (retrieve_response now id st).1 (sv_pending s) (sv_turns s)
  | OpDelete id => mkServer (delete_response id st).1 (sv_pending s) (sv_turns s)
  | OpCancel now now' id => mkServer (cancel_response now now' id st).1 (sv_pending s) (sv_turns s)
  end.

(** The completed turns of a conversation. *)
Definition history_of (id : string) (turns : list (string * list ResponseInputItem)) : list ResponseInputItem :=
  concat (snd <$> filter (λ x, x.1 = id) turns).

(** ** Lookups made by a translation *)

Lemma prior_conversation now r s id c m :
  check_request r = Ok tt → conv_id <$> rq_conversation r = Some id → conversations s = Some (c, m) →
  prior_items now r s = (mkStores (responses s) (Some (c, (store_get c now id m).1)),
                         Ok (concat (conversation_input_items <$> transcript c now id m))).
Proof.
  intros Hck Hid Hs. destruct (rq_conversation r) as [conv|] eqn:Hc; [|done]. injection Hid as <-.
  apply ensure_bind in Hck as [Hex _]. unfold prior_items. rewrite Hc, Hs.
  destruct (previous_response_id r); [destruct Hex; by rewrite Hc|]. unfold transcript.
  by destruct (store_get c now (conv_id conv) m).
Qed.

Lemma prior_response now r s id c m stored :
  previous_response_id r = Some id → responses s = Some (c, m) → (store_get c now id m).2 = Some stored →
  prior_items now r s = (mkStores (Some (c, (store_get c now id m).1)) (conversations s),
                         Ok (input_items stored ++ stored_outputs_as_input_items stored)).
Proof.
  intros Hp Hs Hg. unfold prior_items. rewrite Hp, Hs. destruct (store_get c now id m) as [m' found]. cbn in *. by subst found.
Qed.

Lemma translate_eq now r s s' prior :
  check_request r = Ok tt → prior_items now r s = (s', Ok prior) →
  responses_request_to_chat now r s =
    (s', Ok (mkTranslated (mkChat (rq_model r) (system_of r ++ input_items_to_messages (prior ++ into_items (rq_input r)))
                             (rq_stream r) (function_tools (rq_tools r))
                             (match rq_user r with Some u => Some u | None => safety_identifier r end)
                             (match sampling_max_tokens r with Some n => Some n | None => max_output_tokens r end))
                           (into_items (rq_input r)) (default true (rq_store r)) (conv_id <$> rq_conversation r))).
Proof.
  intros Hck Hp. unfold responses_request_to_chat. rewrite Hck.
  rewrite (M_bind_eq (lift (Ok tt)) _ s s tt) by done. by rewrite (M_bind_eq _ _ _ _ _ Hp).
Qed.

(** ** A conversation keeps its history *)

Lemma items_of_inputs l : concat (conversation_input_items <$> (Input <$> l)) = l.
Proof. induction l as [|x l IH]; [done|]. csimpl. by rewrite IH. Qed.

Lemma items_of_outputs l : concat (conversation_input_items <$> (Output <$> l)) = concat (output_to_input_items <$> l).
Proof. induction l as [|x l IH]; [done|]. csimpl. by rewrite IH. Qed.

(** Every conversation of the store is one of [ids], began within the window and holds the items of
    its history; the others have none. *)
Definition entry_holds (lo : N) (history : list ResponseInputItem) (o : option (Entry (list ConversationItem))) : Prop :=
  match o with
  | None => history = []
  | Some e => (lo ≤ inserted_at e)%N ∧ concat (conversation_input_items <$> payload e) = history
  end.

Definition conv_holds (ids : gset string) (lo : N) (c : StoreConfig) (hist : string → list ResponseInputItem) (s : Stores) : Prop :=
  ∃ m, conversations s = Some (c, m) ∧ dom m ⊆ ids ∧ ∀ id, entry_holds lo (hist id) (m !! id).

Lemma sweep_fresh {V} c now (m : gmap string (Entry V)) : (∀ k e, m !! k = Some e → fresh c now e) → sweep_expired c now m = m.
Proof. intros Hf. unfold sweep_expired. apply map_filter_id. intros k e Hk. cbn. by apply (Hf k). Qed.

Lemma held_fresh lo hi c now hist (m : gmap string (Entry (list ConversationItem))) :
  (hi - lo < ttl c)%N → (now ≤ hi)%N → (∀ id, entry_holds lo (hist id) (m !! id)) → ∀ k e, m !! k = Some e → fresh c now e.
Proof. intros Hw Hn Hm k e Hk. specialize (Hm k). rewrite Hk in Hm. destruct Hm as [? _]. unfold fresh. lia. Qed.

Lemma get_holds ids lo hi c now hist id m rs :
  (hi - lo < ttl c)%N → (now ≤ hi)%N → conv_holds ids lo c hist (mkStores rs (Some (c, m))) →
  conv_holds ids lo c hist (mkStores rs (Some (c, (store_get c now id m).1))) ∧
  concat (conversation_input_items <$> transcript c now id m) = hist id.
Proof.
  intros Hw Hn (m' & [= <-] & Hd & Hm). pose proof (held_fresh lo hi c now hist m Hw Hn Hm) as Hf.
  unfold transcript, store_get, touch. rewrite (sweep_fresh c now m Hf). pose proof (Hm id) as Hid.
  destruct (m !! id) as [e|] eqn:E; cbn; [|split; [by exists m|by rewrite Hid]]. destruct Hid as [Hlo Hid]. split; [|done].
  eexists. split; [done|]. split.
  - rewrite dom_insert_L. assert (id ∈ dom m) by (apply elem_of_dom; by eexists). set_solver.
  - intros k. destruct (decide (k = id)) as [->|Hne]; [by rewrite lookup_insert_eq|by rewrite lookup_insert_ne].
Qed.

(** An append to one of few enough conversations evicts none of the others. *)
Lemma append_others ids c now id items (m : gmap string (Entry (list ConversationItem))) k :
  k ≠ id → dom m ⊆ ids → id ∈ ids → size ids ≤ max_entries c → (∀ k e, m !! k = Some e → fresh c now e) →
  conv_append c now id items m !! k = m !! k.
Proof.
  intros Hk Hd Hid Hs Hf. unfold conv_append. destruct items as [|i items]; [done|]. rewrite (sweep_fresh c now m Hf).
  destruct (m !! id) as [e|] eqn:E; [by rewrite E, lookup_insert_ne|]. rewrite lookup_insert_eq, !lookup_insert_ne by done.
  rewrite evict_small; [done|]. rewrite <- size_dom.
  assert (dom m ⊆ ids ∖ {[id]}) as Hsub by (apply not_elem_of_dom in E; set_solver).
  apply subseteq_size in Hsub. rewrite size_difference in Hsub by set_solver. rewrite size_singleton in Hsub. lia.
Qed.

Lemma append_holds ids lo hi c now hist id items m rs rs' :
  (hi - lo < ttl c)%N → (lo ≤ now ≤ hi)%N → id ∈ ids → size ids ≤ max_entries c → items ≠ [] →
  conv_holds ids lo c hist (mkStores rs (Some (c, m))) →
  conv_holds ids lo c (λ k, hist k ++ (if decide (id = k) then concat (conversation_input_items <$> items) else []))
    (mkStores rs' (Some (c, conv_append c now id items m))).
Proof.
  intros Hw Hn Hid Hs Hne (m' & [= <-] & Hd & Hm). pose proof (held_fresh lo hi c now hist m Hw (proj2 Hn) Hm) as Hf.
  eexists. split; [done|]. split.
  - intros k [e Hk]%elem_of_dom. destruct (decide (k = id)) as [->|Hki]; [done|].
    rewrite (append_others ids) in Hk by done. apply Hd, elem_of_dom. by exists e.
  - intros k. case_decide as Hki; [subst k|rewrite app_nil_r, (append_others ids) by done; apply Hm].
    rewrite conv_append_lookup by done. specialize (Hm id). destruct (m !! id) as [e|] eqn:E; cbn in Hm.
    + rewrite decide_True by (by eapply Hf). destruct Hm as [? Hm]. cbn. by rewrite fmap_app, concat_app, Hm.
    + cbn. rewrite Hm. split; [lia|done].
Qed.

(** ** Every step keeps the histories *)

Definition pending_ok (ids : gset string) (p : PendingCall) : Prop :=
  canonical_input_items (pc_translated p) = into_items (rq_input (pc_request p)) ∧
  effective_store (pc_translated p) = default true (rq_store (pc_request p)) ∧
  conversation_id (pc_translated p) = conv_id <$> rq_conversation (pc_request p) ∧
  ∀ id, conv_id <$> rq_conversation (pc_request p) = Some id → id ∈ ids.

Lemma translate_fields now r s s' t :
  responses_request_to_chat now r s = (s', Ok t) →
  canonical_input_items t = into_items (rq_input r) ∧ effective_store t = default true (rq_store r) ∧
  conversation_id t = conv_id <$> rq_conversation r.
Proof.
  intros Ht. unfold responses_request_to_chat in Ht. apply M_bind_Ok in Ht as (s1 & [] & H1 & Ht).
  apply M_bind_Ok in Ht as (s2 & prior & Hp & Ht). by injection Ht as <- <-.
Qed.

Lemma prior_holds ids lo hi c hist now r s :
  (hi - lo < ttl c)%N → (now ≤ hi)%N → conv_holds ids lo c hist s → conv_holds ids lo c hist (prior_items now r s).1.
Proof.
  intros Hw Hn Hs. destruct s as [rs cs]. pose proof Hs as (m & Hcs & _). cbn in Hcs. subst cs. unfold prior_items. cbn [responses conversations].
  destruct (previous_response_id r) as [prev|].
  - destruct rs as [[c' m']|]; [|done]. by destruct (store_get c' now prev m').
  - destruct (rq_conversation r) as [conv|]; [|done].
    destruct (get_holds ids lo hi c now hist (conv_id conv) m rs Hw Hn Hs) as [Hg _]. by destruct (store_get c now (conv_id conv) m).
Qed.

Lemma translate_holds ids lo hi c hist now r s :
  (hi - lo < ttl c)%N → (now ≤ hi)%N → conv_holds ids lo c hist s → conv_holds ids lo c hist (responses_request_to_chat now r s).1.
Proof.
  intros Hw Hn Hs. pose proof (prior_holds ids lo hi c hist now r s Hw Hn Hs) as Hp. unfold responses_request_to_chat.
  unfold mbind at 1, M_bind at 1, lift. destruct (check_request r) as [[]| |]; [|done..].
  unfold mbind, M_bind. by destruct (prior_items now r s) as [s' []].
Qed.

Lemma persist_holds ids lo hi c hist now p resp s :
  (hi - lo < ttl c)%N → (lo ≤ now ≤ hi)%N → size ids ≤ max_entries c → pending_ok ids p → rsp_output resp ≠ [] →
  conv_holds ids lo c hist s →
  conv_holds ids lo c (λ k, hist k ++ history_of k (completed_turn p resp)) (persist_response now (pc_translated p) resp s).
Proof.
  intros Hw Hn Hsz (Hci & Hst & Hconv & Hin) Hne Hs. unfold persist_response, completed_turn. rewrite Hst, Hconv.
  assert (∀ s', conversations s' = conversations s → conv_holds ids lo c (λ k, hist k ++ []) s') as Hsame.
  { intros s' E. destruct Hs as (m & Hm & Hd & Hh). exists m. rewrite E. split_and!; [done|done|]. intros k. rewrite app_nil_r. apply Hh. }
  destruct (rq_conversation (pc_request p)) as [conv|]; cbn [fmap option_fmap option_map];
    [|destruct (default true (rq_store (pc_request p))); by apply Hsame].
  destruct (default true (rq_store (pc_request p))); [|by apply Hsame].
  destruct s as [rs cs]. pose proof Hs as (m & Hcs & _). cbn in Hcs. subst cs. cbn [conversations responses].
  assert (persist_items (pc_translated p) resp ≠ []) as Hpi.
  { unfold persist_items. intros [_ E]%app_nil. by apply fmap_nil_inv in E. }
  destruct (append_holds ids lo hi c now hist (conv_id conv) _ m rs
    (match rs with Some (c, m) => Some (c, store_insert c now (rsp_id resp) (mkStored resp (canonical_input_items (pc_translated p))) m)
       | None => None end) Hw Hn (Hin _ eq_refl) Hsz Hpi Hs) as (m' & Hm' & Hd' & Hh').
  exists m'. split_and!; [done|done|]. intros k. specialize (Hh' k). unfold history_of. cbn.
  destruct (decide (conv_id conv = k)); cbn; [|done]. rewrite app_nil_r. unfold persist_items in Hh'. rewrite Hci in Hh'.
  by rewrite fmap_app, concat_app, items_of_inputs, items_of_outputs in Hh'.
Qed.

Record server_inv (ids : gset string) (lo : N) (c : StoreConfig) (s : Server) : Prop := {
  svi_conv : conv_holds ids lo c (λ id, history_of id (sv_turns s)) (app_stores (sv_app s));
  svi_pending : Forall (pending_ok ids) (sv_pending s);
}.

(** The times of a step lie in the window and its conversation is one of [ids]. *)
Definition op_within (ids : gset string) (lo hi : N) (op : ServerOp) : Prop :=
  match op with
  | OpPost now _ r _ => (now ≤ hi)%N ∧ ∀ id, conv_id <$> rq_conversation r = Some id → id ∈ ids
  | OpFinish _ done _ _ => (lo ≤ done ≤ hi)%N
  | OpStreamEnd _ done _ _ _ _ => (lo ≤ done ≤ hi)%N
  | _ => True
  end.

Lemma history_app id t1 t2 : history_of id (t1 ++ t2) = history_of id t1 ++ history_of id t2.
Proof. unfold history_of. by rewrite filter_app, fmap_app, concat_app. Qed.

(** A request completes. *)
Lemma turn_step ids lo hi c now p resp i s st' :
  (hi - lo < ttl c)%N → (lo ≤ now ≤ hi)%N → size ids ≤ max_entries c → sv_pending s !! i = Some p → rsp_output resp ≠ [] →
  app_stores st' = persist_response now (pc_translated p) resp (app_stores (sv_app s)) → server_inv ids lo c s →
  server_inv ids lo c (mkServer st' (delete i (sv_pending s)) (sv_turns s ++ completed_turn p resp)).
Proof.
  intros Hw Hn Hsz Hi Hne Est [Hc Hp]. assert (pending_ok ids p) as Hok by (by eapply Forall_lookup_1).
  split; cbn [sv_app sv_pending sv_turns]; [|by apply Forall_delete]. rewrite Est.
  destruct (persist_holds ids lo hi c _ now p resp _ Hw Hn Hsz Hok Hne Hc) as (m & Hm & Hd & Hh). exists m. split_and!; [done|done|].
  intros k. specialize (Hh k). by rewrite history_app.
Qed.

Lemma stream_output i n r : (stream_task uuid i n).2 = Some r → rsp_output r ≠ [].
Proof.
  unfold stream_task, stream_epilogue. destruct (on_tokens uuid new_filter (si_tokens i) (stream_prologue uuid i n)) as [f s].
  destruct (si_result i) as [e|g]; [done|]. destruct (close_message_envelope _) as [s2 text].
  set (ctx := stream_context _ _ _ _ _ _ _ _). set (n' := st_uuid _). pose proof (build_response_spec uuid ctx n') as (_ & _ & _ & Hne & _).
  destruct (build_response_object uuid ctx n') as [final n2]. cbn. by intros [= <-].
Qed.

Lemma responses_step_inv ids lo hi c s op :
  (hi - lo < ttl c)%N → size ids ≤ max_entries c → op_within ids lo hi op → server_inv ids lo c s → server_inv ids lo c (server_step s op).
Proof.
  intros Hw Hsz Hop Hi. pose proof Hi as [Hc Hp].
  assert (∀ st', conversations (app_stores st') = conversations (app_stores (sv_app s)) →
    server_inv ids lo c (mkServer st' (sv_pending s) (sv_turns s))) as Hsame.
  { intros st' E. split; [|done]. destruct Hc as (m & Hm & ?). exists m. cbn. by rewrite E. }
  destruct op as [now created r refused|i done completed out|i done completed tokens result tools|now id|id|now now' id];
    cbn [server_step op_within] in *.
  - destruct Hop as [Hn Hids]. unfold create_response.
    pose proof (translate_holds ids lo hi c _ now r _ Hw Hn Hc) as Ht.
    destruct (responses_request_to_chat now r (app_stores (sv_app s))) as [s1 [t|e|]] eqn:E; cbn [fst] in Ht; [|by split..].
    apply translate_fields in E as (E1 & E2 & E3). destruct refused; [by split|]. split; cbn.
    + destruct (rq_stream r); [|done]. unfold stream_start. cbn. by destruct (responses s1).
    + apply Forall_app_2; [done|]. constructor; [|constructor]. by split_and!.
  - destruct (sv_pending s !! i) as [p|] eqn:Ei; [|done]. destruct (rq_stream (pc_request p)); [done|].
    destruct out as [e|g]; [split; [done|by apply Forall_delete]|]. unfold non_stream_finish.
    pose proof (build_response_spec uuid (response_context p completed g) (next_uuid (sv_app s))) as (_ & _ & _ & Hne & _).
    destruct (build_response_object _ _ _) as [resp n]. by eapply turn_step.
  - destruct (sv_pending s !! i) as [p|] eqn:Ei; [|done]. destruct (rq_stream (pc_request p)); [|done]. unfold stream_finish.
    set (inp := mkStreamInputs _ _ _ _ _ _ _ _). pose proof (stream_output inp (next_uuid (sv_app s))) as Hne.
    destruct (stream_task uuid inp (next_uuid (sv_app s))) as [s' [resp|]].
    + eapply turn_step; try done. by apply Hne.
    + rewrite app_nil_r. split; [done|by apply Forall_delete].
  - apply Hsame. unfold retrieve_response. destruct (responses (app_stores (sv_app s))) as [[c' m']|]; [|done].
    by destruct (store_get c' now id m').
  - apply Hsame. unfold delete_response. by destruct (responses (app_stores (sv_app s))) as [[c' m']|].
  - apply Hsame. unfold cancel_response. destruct (responses (app_stores (sv_app s))) as [[c' m']|]; [|done].
    destruct (cancel_in_flight _ _ _), (store_get c' now id m') as [m1 []]; done.
Qed.

Lemma responses_run_inv ids lo hi c st ops :
  (hi - lo < ttl c)%N → size ids ≤ max_entries c → conversations (app_stores st) = Some (c, ∅) → Forall (op_within ids lo hi) ops →
  server_inv ids lo c (foldl server_step (mkServer st [] []) ops).
Proof.
  intros Hw Hsz Hst. assert (server_inv ids lo c (mkServer st [] [])) as Hi.
  { split; [|constructor]. exists ∅. split_and!; [done|set_solver|]. intros id. by rewrite lookup_empty. }
  revert Hi. generalize (mkServer st [] []). intros s Hi Hops. revert s Hi.
  induction Hops as [|op ops Hop _ IH]; intros s Hi; [done|]. cbn. by apply IH, (responses_step_inv ids lo hi).
Qed.

(** ** Chained responses *)

Lemma chained_prompt c m done t resp s now r :
  responses s = Some (c, m) → effective_store t = true → previous_response_id r = Some (rsp_id resp) → check_request r = Ok tt →
  (now - done < ttl c)%N →
  ∃ s' t', responses_request_to_chat now r (persist_response done t resp s) = (s', Ok t') ∧
    ch_messages (chat_request t') = prompt_for (canonical_input_items t ++ concat (output_to_input_items <$> rsp_output resp)) r.
Proof.
  intros Hrs Hst Hprev Hck Hnow. set (stored := mkStored resp (canonical_input_items t)).
  assert (responses (persist_response done t resp s) = Some (c, store_insert c done (rsp_id resp) stored m)) as Hm
    by (unfold persist_response; by rewrite Hst, Hrs).
  assert ((store_get c now (rsp_id resp) (store_insert c done (rsp_id resp) stored m)).2 = Some stored) as Hget.
  { rewrite store_get_spec. unfold store_insert. rewrite lookup_insert_eq. cbn. by rewrite decide_True. }
  eexists _, _. split; [exact (translate_eq _ _ _ _ _ Hck (prior_response _ _ _ _ _ _ _ Hprev Hm Hget))|]. done.
Qed.
End handlers.

(** C38. A conversation keeps its whole history. Take any run of the server from an empty
    conversation store: requests of any kind, streaming or not, with or without a conversation,
    translated and completed at any time and in any order, and responses fetched, deleted and
    cancelled in between. If all of it happens within one time to live and the run names no more
    conversations than the store has room for, then a request on a conversation that passes the
    checks is given exactly the prompt made of all turns of that conversation completed before, in
    the order of their completion, inputs and replayed outputs, followed by its own input. A turn
    counts when its generation succeeded and its request did not refuse storage; requests still
    pending add nothing. With more conversations than that, the least recently used history is
    lost. *)
Theorem conversation_history_complete `{!StringOrder} uuid model_id (ids : gset string) (lo hi : N) c st ops now r id :
  conversations (app_stores st) = Some (c, ∅) → (hi - lo < ttl c)%N → size ids ≤ max_entries c →
  Forall (op_within ids lo hi) ops → (now ≤ hi)%N → conv_id <$> rq_conversation r = Some id → check_request r = Ok tt →
  let s := foldl (server_step uuid model_id) (mkServer st [] []) ops in
  ∃ st' t, responses_request_to_chat now r (app_stores (sv_app s)) = (st', Ok t) ∧
    ch_messages (chat_request t) = prompt_for (history_of id (sv_turns s)) r.
Proof.
  intros Hst Hw Hsz Hops Hn Hid Hck s. destruct (responses_run_inv uuid model_id ids lo hi c st ops Hw Hsz Hst Hops) as [Hc _]. fold s in Hc.
  destruct (app_stores (sv_app s)) as [rs cs]. pose proof Hc as (m & Hcs & _). cbn in Hcs. subst cs.
  destruct (get_holds uuid ids lo hi c now _ id m rs Hw Hn Hc) as [_ Ht].
  eexists _, _. split; [exact (translate_eq _ _ _ _ _ Hck (prior_conversation _ _ (mkStores rs (Some (c, m))) id c m Hck Hid eq_refl))|].
  cbn. by rewrite Ht.
Qed.

(** A chained request sees one turn: after a stored response, a request that names it
    in [previous_response_id] within its time to live is given that response's own input
    and outputs and then its own input, and nothing of what the named response was
    itself chained to. *)
Theorem response_chain_depth `{!StringOrder} c m done t resp s now r :
  responses s = Some (c, m) → effective_store t = true → previous_response_id r = Some (rsp_id resp) → check_request r = Ok tt →
  (now - done < ttl c)%N →
  ∃ s' t', responses_request_to_chat now r (persist_response done t resp s) = (s', Ok t') ∧
    ch_messages (chat_request t') = prompt_for (canonical_input_items t ++ concat (output_to_input_items <$> rsp_output resp)) r.
Proof. apply chained_prompt. Qed.

(** ** Concrete servers *)

Definition demo_uuid (n : N) : string := String.String (Ascii.ascii_of_N (65 + n)) "".

Definition demo_request (conv prev : option string) (text : string) (stream : bool) : CreateResponseRequest :=
  mkRequest "m" (InputText (bytes_of text)) None None (ConvId <$> conv) prev None stream None None None None None None None None.

Definition demo_state : AppState := startup_state 4 60 4 60.

(** A request and its reply at once. *)
Definition demo_turn (conv prev : option string) (text : string) (now : N) : list ServerOp :=
  [OpPost now 0 (demo_request conv prev text false) false; OpFinish 0 (now + 1) 0 (inr (mkGenerated 1 1 (bytes_of "ok") None None))].

(** What the model would be given. *)
Definition demo_prompt (st : AppState) (ops : list ServerOp) (now : N) (r : CreateResponseRequest) : list MessageContent :=
  match (responses_request_to_chat now r
           (app_stores (sv_app (foldl (@server_step key_order demo_uuid "m") (mkServer st [] []) ops)))).2 with
  | Ok t => msg_content <$> ch_messages (chat_request t)
  | _ => []
  end.

(** Two requests on one conversation that overlap, one of them streaming: the streaming one ends
    first, and a third request sees both, in the order in which they ended. *)
Lemma conversation_history_complete_witness :
  let ops := [OpPost 1 0 (demo_request (Some "c") None "one" false) false; OpPost 2 0 (demo_request (Some "c") None "two" true) false;
              OpStreamEnd 1 3 0 [bytes_of "second"] (inr (mkGenResult 1 1)) None;
              OpFinish 0 4 0 (inr (mkGenerated 1 1 (bytes_of "first") None None))]%N in
  let r := demo_request (Some "c") None "three" false in
  let s := foldl (@server_step key_order demo_uuid "m") (mkServer demo_state [] []) ops in
  demo_prompt demo_state ops 5 r = ContentText ∘ bytes_of <$> ["two"; "second"; "one"; "first"; "three"] ∧
  ∃ st' t, responses_request_to_chat 5 r (app_stores (sv_app s)) = (st', Ok t) ∧
    ch_messages (chat_request t) = prompt_for (history_of "c" (sv_turns s)) r.
Proof.
  intros ops r s. split; [vm_compute; reflexivity|].
  apply (@conversation_history_complete key_order demo_uuid "m" {["c"]} 0 10 (mkStoreConfig 4 60000000000) demo_state ops 5 r "c").
  - reflexivity.
  - reflexivity.
  - vm_compute. lia.
  - repeat (apply Forall_cons; split; [cbn; try (split; [lia|intros ? [= <-]; by apply elem_of_singleton]); lia|]). by apply Forall_nil.
  - lia.
  - reflexivity.
  - reflexivity.
Defined.

(** Capacity 1 and two conversations in turn: the second turn on ["a"] has lost the first. *)
Example evicted_conversation_forgotten :
  demo_prompt (startup_state 4 60 1 60) (demo_turn (Some "a") None "one" 1 ++ demo_turn (Some "b") None "other" 3) 5
    (demo_request (Some "a") None "two" false) = [ContentText (bytes_of "two")].
Proof. vm_compute. reflexivity. Qed.

(** A chain of three: the model no longer sees the first turn. *)
Example third_turn_forgets_first :
  demo_prompt demo_state (demo_turn None None "one" 1 ++ demo_turn None (Some "resp_A") "two" 3) 5
    (demo_request None (Some "resp_C") "three" false) = ContentText ∘ bytes_of <$> ["two"; "ok"; "three"].
Proof. vm_compute. reflexivity. Qed.

(** With a capacity of 2, cancelling a response that is already stored drops another. *)
Example cancel_drops_unrelated :
  let run ops := sv_app (foldl (@server_step key_order demo_uuid "m") (mkServer (startup_state 2 60 0 0) [] []) ops) in
  let ops := demo_turn None None "one" 1 ++ demo_turn None None "two" 3 in
  (is_ok (retrieve_response 4 "resp_A" (run ops)).2, is_ok (retrieve_response 7 "resp_A" (run (ops ++ [OpCancel 5 6 "resp_C"]))).2) = (true, false).
Proof. vm_compute. reflexivity. Qed.
