(* ===== verification/ChatStream.v ===== *)
(** * Chat completions: the chunk stream

    The generation task of the streaming chat route ([server/routes/chat.rs]): decoded
    tokens go through the stream filter, the queue of per-token log-probabilities is
    drained by the positions the filter reports, and the parsed tool calls, the finish
    reason and the usage close the stream.  The non-streaming route splits the whole text with
    the same filter and cleans its content half ([server/tool_calls/parser.rs]).  Log-probability records are carried along,
    never inspected; parsed tool calls and generated ids are arguments. *)

From Stdlib Require Import Ascii.
From S2P Require Import Prelude.
From S2P Require Import StreamFilter.

Definition OPEN_THINKING_SUFFIXES : list str := [bytes_of "<|channel>thought" ++ [newline]; bytes_of "<think>" ++ [newline]].

(** [prompt.ends_with(suffix)]. *)
Definition ends_with (suffix prompt : str) : bool := starts_with (reverse suffix) (reverse prompt).

Definition is_prompt_primed_open_thinking (prompt : str) : bool :=
  existsb (λ suffix, ends_with suffix prompt) OPEN_THINKING_SUFFIXES.

(** The two halves of a whole text: one [feed], then the flush. The non-streaming route goes on to
    clean the content half, below. *)
Definition split_reasoning_and_content (raw_text : str) (primed : bool) : option str * str :=
  let f := if primed then new_primed_open_thinking else new_filter in
  let '(f1, o1) := feed f raw_text in
  let o2 := (flush f1).2 in
  (non_empty (default [] (out_reasoning o1) ++ default [] (out_reasoning o2)),
   default [] (out_content o1) ++ default [] (out_content o2)).

Definition OPEN_THINKING_CLOSE_MARKERS : list str := [bytes_of "<channel|>"; bytes_of "</think>"].

Definition strip_unclosed_primed_thinking (content raw_output : str) (primed : bool) : str :=
  if negb primed then content
  else if existsb (λ m, match find m raw_output with Some _ => true | None => false end) OPEN_THINKING_CLOSE_MARKERS then content
  else [].

(** ** Cleaning the content of the non-streaming route *)

Definition contains (m s : str) : bool := match find m s with Some _ => true | None => false end.

Definition THINKING_PAIRS : list (str * str) := Eval cbv in
  prod_map bytes_of bytes_of <$> [("<think>", "</think>"); ("<|channel>", "<channel|>")].

(** A close marker with no open marker before it ends a block the prompt opened. *)
Definition strip_primed (p : str * str) (s : str) : str :=
  match find p.2 s with
  | Some close_pos => if contains p.1 (take close_pos s) then s else drop (close_pos + length p.2) s
  | None => s
  end.

Fixpoint cut_blocks (fuel : nat) (p : str * str) (remaining : str) : str :=
  match fuel with
  | O => remaining
  | S fuel' =>
    match find p.1 remaining with
    | None => remaining
    | Some start =>
      take start remaining ++
      match find p.2 (drop start remaining) with
      | Some e => cut_blocks fuel' p (drop (start + e + length p.2) remaining)
      | None => []
      end
    end
  end.

Definition strip_thinking (text : str) : str :=
  let result := foldl (λ r p, strip_primed p r) text THINKING_PAIRS in
  foldl (λ r p, cut_blocks (S (length r)) p r) result THINKING_PAIRS.

(** [s.replace(m, "")], for a marker that is not empty. *)
Fixpoint remove_from (skip : nat) (m s : str) : str :=
  match s with
  | [] => []
  | c :: r =>
    match skip with
    | S k => remove_from k m r
    | O => if starts_with m s then remove_from (length m - 1) m r else c :: remove_from 0 m r
    end
  end.

Definition replace_empty (m s : str) : str := remove_from 0 m s.

(** The characters of [char::is_whitespace] in UTF-8. *)
Definition WHITESPACE : list str := Eval cbv in
  map (map ascii_of_nat)
  [[9]; [10]; [11]; [12]; [13]; [32]; [194; 133]; [194; 160]; [225; 154; 128]; [226; 128; 128]; [226; 128; 129]; [226; 128; 130];
   [226; 128; 131]; [226; 128; 132]; [226; 128; 133]; [226; 128; 134]; [226; 128; 135]; [226; 128; 136]; [226; 128; 137]; [226; 128; 138];
   [226; 128; 168]; [226; 128; 169]; [226; 128; 175]; [226; 129; 159]; [227; 128; 128]].

Fixpoint trim_start_by (fuel : nat) (spaces : list str) (s : str) : str :=
  match fuel with
  | O => s
  | S fuel' =>
    match List.find (λ w, starts_with w s) spaces with
    | Some w => trim_start_by fuel' spaces (drop (length w) s)
    | None => s
    end
  end.

(** [s.trim()]. *)
Definition trim_str (s : str) : str :=
  let t := trim_start_by (length s) WHITESPACE s in
  reverse (trim_start_by (length t) (reverse <$> WHITESPACE) (reverse t)).

Definition CONTENT_MARKERS : list str := Eval cbv in
  bytes_of <$> ["<turn|>"; "<|turn>"; "<|think|>"; "<channel|>"; "<|channel>"; "<|tool_call>"; "<tool_call|>"; "]<]minimax[>["].

Definition clean_content_markers (text : str) : str := trim_str (foldl (λ t m, replace_empty m t) text CONTENT_MARKERS).

Definition clean_structural_tokens (raw : str) : str := clean_content_markers (strip_thinking raw).

(** The reasoning and the content of a non-streaming chat completion; [parsed] is the content the
    tool-call parser leaves, when the request asks for tool calls to be parsed. *)
Definition chat_completion_texts (raw_text : str) (primed : bool) (parsed : option str) : option str * str :=
  let '(reasoning, filtered_content) := split_reasoning_and_content raw_text primed in
  (reasoning,
   match parsed with
   | Some content => strip_unclosed_primed_thinking content raw_text primed
   | None => clean_structural_tokens filtered_content
   end).

(** The fuel of [cut_blocks] is enough: more of it changes nothing. *)
Lemma cut_blocks_fuel p n s : p.2 ≠ [] → length s < n → cut_blocks n p s = cut_blocks (S (length s)) p s.
Proof.
  intros Hp. assert (0 < length p.2) by (destruct p.2; [done|cbn; lia]).
  assert (∀ n m s, length s < n → length s < m → cut_blocks n p s = cut_blocks m p s) as H'; [|intros; apply H'; lia].
  clear n s. intros n. induction n as [|n IH]; intros [|m] s Hn Hm; [lia..|]. cbn [cut_blocks].
  destruct (find p.1 s) as [start|]; [|done]. f_equal. destruct (find p.2 (drop start s)) as [e|] eqn:E; [|done].
  destruct (decide (s = [])) as [->|Hs].
  - apply find_Some in E as (_ & E & _). rewrite !drop_nil in E. by destruct p.2.
  - assert (0 < length s) by (destruct s; [done|cbn; lia]). apply IH; rewrite length_drop; lia.
Qed.

Lemma remove_absent m s : find m s = None → m ≠ [] → replace_empty m s = s.
Proof.
  unfold replace_empty. intros Hf Hm. induction s as [|c s IH]; [done|]. cbn [find] in Hf. cbn [remove_from].
  destruct (starts_with m (c :: s)) eqn:E; [done|]. f_equal. apply IH. by destruct (find m s).
Qed.

(** A text without markers is only trimmed. *)
Definition no_markers (t : str) : Prop :=
  Forall (λ p, find p.1 t = None ∧ find p.2 t = None) THINKING_PAIRS ∧ Forall (λ m, find m t = None) CONTENT_MARKERS.

Lemma foldl_fixed {A} (f : str → A → str) (t : str) l : Forall (λ x, f t x = t) l → foldl f t l = t.
Proof. induction 1 as [|x l E _ IH]; [done|]. cbn. by rewrite E. Qed.

Lemma clean_without_markers t : no_markers t → clean_structural_tokens t = trim_str t.
Proof.
  intros [Hp Hm].
  assert (strip_thinking t = t) as E.
  { unfold strip_thinking. rewrite (foldl_fixed _ t), (foldl_fixed _ t);
      [done|eapply Forall_impl; [exact Hp|]; intros p [E1 E2]; cbn [cut_blocks]; by rewrite E1|
       eapply Forall_impl; [exact Hp|]; intros p [E1 E2]; unfold strip_primed; by rewrite E2]. }
  unfold clean_structural_tokens, clean_content_markers. rewrite E. f_equal. apply foldl_fixed.
  assert (Forall (λ m, m ≠ []) CONTENT_MARKERS) as Hne by (by repeat constructor).
  apply Forall_forall. intros m Hin. rewrite Forall_forall in Hm, Hne. apply remove_absent; auto.
Qed.

Lemma split_routed raw_text (primed : bool) :
  let text := routed (if primed then Thinking else Content) 0 raw_text in
  split_reasoning_and_content raw_text primed = (non_empty (bytes_in Thinking text), bytes_in Content text).
Proof.
  unfold split_reasoning_and_content. set (f := if primed then _ else _).
  destruct (filter_stream_routed f [raw_text] ltac:(unfold f; destruct primed; auto)) as [Hc Hr].
  unfold filter_stream in *. cbn [feeds concat] in *. rewrite app_nil_r in Hc, Hr. destruct (feed f raw_text) as [f1 o1].
  unfold content_of, reasoning_of in *. cbn in Hc, Hr. rewrite !app_nil_r in Hc, Hr. rewrite Hc, Hr.
  unfold f. by destruct primed.
Qed.

Section chat.
Context {L : Type}.

Inductive ChatChunk :=
  | ChInitial
  | ChReasoning (t : str)
  | ChContent (t : str) (logprobs : option L)
  | ChToolCallStart (idx : nat) (id name : string)
  | ChToolCallArguments (idx : nat) (arguments : str)
  | ChFinish (reason : string)
  | ChUsage (prompt completion cached : nat).

(** ** One token *)

Definition pop_front (q : list (option L)) : list (option L) * option L :=
  match q with [] => ([], None) | x :: q' => (q', x) end.

Fixpoint pop_many (n : nat) (q : list (option L)) : list (option L) * list (option L) :=
  match n with
  | O => (q, [])
  | S n' => let '(q1, x) := pop_front q in let '(q2, xs) := pop_many n' q1 in (q2, x :: xs)
  end.

(** Emitted positions are dropped, suppressed ones kept for the placeholders. *)
Definition drain_lp (enabled : bool) (o : FilterOutput) (q : list (option L)) : list (option L) * list (option L) :=
  if enabled && (0 <? consumed_positions o) then
    pop_many (suppressed_positions o) (drop (consumed_positions o - suppressed_positions o) q)
  else (q, []).

Definition text_chunk (mk : str → ChatChunk) (o : option str) : list ChatChunk :=
  match o with Some ((_ :: _) as t) => [mk t] | _ => [] end.

Definition chat_token (enabled : bool) (f : StreamFilter) (q : list (option L)) (token : str) (lp : option L) :
    StreamFilter * list (option L) * list ChatChunk :=
  let q1 := if enabled then q ++ [lp] else q in
  let '(f', o) := feed f token in
  let '(q2, suppressed) := drain_lp enabled o q1 in
  (f', q2,
   text_chunk ChReasoning (out_reasoning o) ++
   text_chunk (λ t, ChContent t (if enabled then lp else None)) (out_content o) ++
   (if enabled && (0 <? suppressed_positions o) then ChContent [] <$> suppressed else [])).

Fixpoint chat_tokens (enabled : bool) (f : StreamFilter) (q : list (option L)) (tokens : list (str * option L)) :
    StreamFilter * list ChatChunk :=
  match tokens with
  | [] => (f, [])
  | (t, lp) :: ts =>
    let '(f1, q1, chunks) := chat_token enabled f q t lp in
    let '(f2, rest) := chat_tokens enabled f1 q1 ts in (f2, chunks ++ rest)
  end.

(** ** Closing the stream *)

(** The calls of the one function the request names, if it names one; a call keeps the
    index it was parsed at. *)
Definition chat_tool_calls (specific : option string) (ids : nat → string) (calls : list (string * str)) : list ChatChunk :=
  concat (imap (λ idx call,
    match specific with
    | Some fn => if decide (call.1 = fn) then [ChToolCallStart idx (ids idx) call.1; ChToolCallArguments idx call.2] else []
    | None => [ChToolCallStart idx (ids idx) call.1; ChToolCallArguments idx call.2]
    end) calls).

Record ChatResult := mkChatResult { cr_finish_reason : string; cr_prompt : nat; cr_completion : nat; cr_cached : nat }.

Definition chat_stream (prompt : str) (enabled include_usage : bool) (specific : option string) (ids : nat → string)
    (tokens : list (str * option L)) (parsed : option (list (string * str))) (result : string + ChatResult) : list ChatChunk :=
  let f := if is_prompt_primed_open_thinking prompt then new_primed_open_thinking else new_filter in
  let '(f', chunks) := chat_tokens enabled f [] tokens in
  let remaining := (flush f').2 in
  let '(tool_chunks, reason) :=
    match parsed with
    | Some ((_ :: _) as calls) => (chat_tool_calls specific ids calls, "tool_calls")
    | _ => ([], match result with inr r => cr_finish_reason r | inl _ => "error" end)
    end in
  [ChInitial] ++ chunks ++
  text_chunk ChReasoning (out_reasoning remaining) ++ text_chunk (λ t, ChContent t None) (out_content remaining) ++
  tool_chunks ++ [ChFinish reason] ++
  match result with inr r => if include_usage then [ChUsage (cr_prompt r) (cr_completion r) (cr_cached r)] else [] | inl _ => [] end.

(** ** What a client reads *)

Definition chunk_content (c : ChatChunk) : str := match c with ChContent t _ => t | _ => [] end.
Definition chunk_reasoning (c : ChatChunk) : str := match c with ChReasoning t => t | _ => [] end.

Definition read {A} (g : ChatChunk → list A) (l : list ChatChunk) : list A := concat (g <$> l).

Lemma read_app {A} (g : ChatChunk → list A) l1 l2 : read g (l1 ++ l2) = read g l1 ++ read g l2.
Proof. unfold read. by rewrite fmap_app, concat_app. Qed.

Lemma read_none {A} (g : ChatChunk → list A) l : Forall (λ c, g c = []) l → read g l = [].
Proof. induction 1 as [|c l Hc _ IH]; [done|]. unfold read in *. csimpl. by rewrite Hc, IH. Qed.

Lemma read_text_content (mk : str → ChatChunk) o :
  (∀ t, chunk_content (mk t) = t) → read chunk_content (text_chunk mk o) = default [] o.
Proof. intros Hmk. destruct o as [[|c t]|]; [done| |done]. unfold read. cbn. by rewrite Hmk, app_nil_r. Qed.

Lemma read_text_reasoning (mk : str → ChatChunk) o :
  (∀ t, chunk_reasoning (mk t) = t) → read chunk_reasoning (text_chunk mk o) = default [] o.
Proof. intros Hmk. destruct o as [[|c t]|]; [done| |done]. unfold read. cbn. by rewrite Hmk, app_nil_r. Qed.

Lemma read_text_none {A} (g : ChatChunk → list A) (mk : str → ChatChunk) o :
  (∀ t, g (mk t) = []) → read g (text_chunk mk o) = [].
Proof. intros Hmk. destruct o as [[|c t]|]; [done| |done]. unfold read. cbn. by rewrite Hmk. Qed.

Lemma placeholders_silent {A} (g : ChatChunk → list A) (b : bool) l :
  (∀ lp, g (ChContent [] lp) = []) → read g (if b then ChContent [] <$> l else []) = [].
Proof. intros Hg. destruct b; [|done]. apply read_none, Forall_fmap, Forall_forall. intros x _. apply Hg. Qed.

Lemma chat_tokens_spec enabled f q tokens :
  (chat_tokens enabled f q tokens).1 = (feeds f tokens.*1).1 ∧
  read chunk_content (chat_tokens enabled f q tokens).2 = content_of (feeds f tokens.*1).2 ∧
  read chunk_reasoning (chat_tokens enabled f q tokens).2 = reasoning_of (feeds f tokens.*1).2.
Proof.
  revert f q. induction tokens as [|[t lp] tokens IH]; intros f q; [done|].
  cbn [chat_tokens]. csimpl. cbn [feeds]. unfold chat_token. destruct (feed f t) as [f1 o].
  destruct (drain_lp enabled o _) as [q2 sup]. specialize (IH f1 q2).
  destruct (chat_tokens enabled f1 q2 tokens) as [f2 rest], (feeds f1 tokens.*1) as [f3 os]. cbn [fst snd] in *.
  destruct IH as (-> & Hc & Hr). unfold content_of, reasoning_of in *. csimpl.
  rewrite !read_app, !placeholders_silent, !app_nil_r by done. split_and!; [done| |].
  - rewrite (read_text_none chunk_content ChReasoning), read_text_content by done. by rewrite Hc.
  - rewrite read_text_reasoning, (read_text_none chunk_reasoning (λ t, ChContent t _)), app_nil_r by done. by rewrite Hr.
Qed.

Lemma tool_calls_silent specific ids calls (g : ChatChunk → str) :
  (∀ i x n, g (ChToolCallStart i x n) = []) → (∀ i a, g (ChToolCallArguments i a) = []) → read g (chat_tool_calls specific ids calls) = [].
Proof.
  intros H1 H2. apply read_none, Forall_concat, Forall_forall. intros l Hl.
  apply list_elem_of_lookup in Hl as [i Hi]. rewrite list_lookup_imap in Hi. apply fmap_Some in Hi as (call & _ & ->).
  destruct specific; [case_decide|]; repeat constructor; auto.
Qed.

Lemma chat_stream_texts prompt enabled include_usage specific ids tokens parsed result :
  let start := if is_prompt_primed_open_thinking prompt then new_primed_open_thinking else new_filter in
  let chunks := chat_stream prompt enabled include_usage specific ids tokens parsed result in
  read chunk_content chunks = content_of (filter_stream start tokens.*1) ∧
  read chunk_reasoning chunks = reasoning_of (filter_stream start tokens.*1).
Proof.
  cbn zeta. unfold chat_stream, filter_stream.
  set (f := if is_prompt_primed_open_thinking prompt then _ else _).
  pose proof (chat_tokens_spec enabled f [] tokens) as (Hf & Hc & Hr).
  destruct (chat_tokens enabled f [] tokens) as [f' chunks], (feeds f tokens.*1) as [f'' os]. cbn [fst snd] in *. subst f''.
  assert (∀ g : ChatChunk → str, (∀ i x n, g (ChToolCallStart i x n) = []) → (∀ i a, g (ChToolCallArguments i a) = []) →
    (∀ r, g (ChFinish r) = []) → (∀ p c k, g (ChUsage p c k) = []) → ∀ tail reason,
    (tail = [] ∨ ∃ calls, tail = chat_tool_calls specific ids calls) →
    read g (tail ++ [ChFinish reason] ++
      match result with inr r => if include_usage then [ChUsage (cr_prompt r) (cr_completion r) (cr_cached r)] else [] | inl _ => [] end) = []) as Htail.
  { intros g H1 H2 H3 H4 tail reason Ht. rewrite !read_app. rewrite (read_none g [ChFinish reason]) by by repeat constructor.
    assert (read g tail = []) as -> by (destruct Ht as [->|[calls ->]]; [done|by apply tool_calls_silent]).
    destruct result as [e|r]; [done|]. destruct include_usage; [|done]. apply read_none. by repeat constructor. }
  destruct (match parsed with Some ((_ :: _) as calls) => _ | _ => _ end) as [tail reason] eqn:Hp.
  assert (tail = [] ∨ ∃ calls, tail = chat_tool_calls specific ids calls) as Ht.
  { destruct parsed as [[|x l]|]; injection Hp as <- _; [by left|by right; eexists|by left]. }
  unfold content_of, reasoning_of in *. rewrite !fmap_app, !concat_app, <- Hc, <- Hr. cbn [fmap list_fmap concat].
  split; rewrite !(read_app _ [ChInitial]), !(read_app _ chunks), !(read_app _ (text_chunk _ _)), Htail by done.
  - rewrite (read_text_none chunk_content ChReasoning), read_text_content, !app_nil_r by done. done.
  - rewrite read_text_reasoning, (read_text_none chunk_reasoning (λ t, ChContent t _)), !app_nil_r by done. done.
Qed.

(** C26. A streamed chat completion delivers exactly the generated text.  For any tokens, cut
    anywhere, with or without log-probabilities, tool calls and usage, whether or not
    the prompt opened a thinking block: the content chunks concatenate to the bytes the
    reference reads outside thinking and tool-call blocks of the whole text, the
    reasoning chunks to those inside a thinking block, and nothing is lost at the end of
    the generation.  A non-streaming completion of the same text returns the same reasoning (none
    when empty), but its content is another one: without tool parsing the streamed content after
    [clean_structural_tokens], which trims it and, when markers are left in it, removes those; with
    tool parsing the content the parser leaves. *)
Theorem chat_stream_delivers prompt enabled include_usage specific ids tokens parsed result :
  let primed := is_prompt_primed_open_thinking prompt in
  let chunks := chat_stream prompt enabled include_usage specific ids tokens parsed result in
  let raw := concat tokens.*1 in
  let text := routed (if primed then Thinking else Content) 0 raw in
  read chunk_content chunks = bytes_in Content text ∧ read chunk_reasoning chunks = bytes_in Thinking text ∧
  chat_completion_texts raw primed None =
    (non_empty (read chunk_reasoning chunks), clean_structural_tokens (read chunk_content chunks)) ∧
  (no_markers (read chunk_content chunks) →
   (chat_completion_texts raw primed None).2 = trim_str (read chunk_content chunks)) ∧
  (∀ content, chat_completion_texts raw primed (Some content) =
    (non_empty (read chunk_reasoning chunks), strip_unclosed_primed_thinking content raw primed)).
Proof.
  intros primed chunks raw text.
  assert (read chunk_content chunks = bytes_in Content text ∧ read chunk_reasoning chunks = bytes_in Thinking text) as [Hc Hr].
  { unfold chunks. destruct (chat_stream_texts prompt enabled include_usage specific ids tokens parsed result) as [-> ->].
    unfold text, primed. destruct (is_prompt_primed_open_thinking prompt);
      [apply (filter_stream_routed new_primed_open_thinking); by right|apply (filter_stream_routed new_filter); by left]. }
  assert (split_reasoning_and_content raw primed = (non_empty (read chunk_reasoning chunks), read chunk_content chunks)) as E
    by (by rewrite split_routed, Hc, Hr).
  unfold chat_completion_texts. rewrite E. split_and!; [done..| |done]. intros Hm. by apply clean_without_markers.
Qed.
End chat.

(** The two routes on one output of a prompt that opened a thinking block: the stream carries the
    newlines after the block, the whole response does not. *)
Example routes_disagree_on_whitespace :
  let nl2 := [newline; newline] in
  let raw := bytes_of "reasoning text</think>" ++ nl2 ++ bytes_of "Hello!" in
  let prompt := bytes_of "<think>" ++ [newline] in
  read chunk_content (chat_stream (L := nat) prompt false false None (λ _, "id") [(raw, None)] None (inr (mkChatResult "stop" 0 0 0))) =
    nl2 ++ bytes_of "Hello!" ∧
  chat_completion_texts raw true None = (Some (bytes_of "reasoning text"), bytes_of "Hello!").
Proof. vm_compute. split; reflexivity. Qed.

(** One token that holds text and a marker: its log-probabilities go out with the text,
    and the placeholder for the marker carries none. *)
Example straddling_token_loses_logprobs :
  (chat_tokens true new_filter [] [(bytes_of "a<think>", Some 7)]).2 = [ChContent (bytes_of "a") (Some 7); ChContent [] None].
Proof. reflexivity. Qed.

(** Two tokens, three log-probability positions. *)
Example two_tokens_three_positions :
  omap (λ c, match c with ChContent t lp => Some lp | _ => None end)
    (chat_tokens true new_filter [] [(bytes_of "a<thi", Some 7); (bytes_of "nk>", Some 8)]).2 = [Some 7; Some 8; None].
Proof. reflexivity. Qed.

(** Every call filtered out, and still the finish reason says that there are some. *)
Example no_call_but_tool_calls_reason :
  chat_stream (L := nat) [] false false (Some "g") (λ _, "id") [] (Some [("f", [])]) (inr (mkChatResult "stop" 0 0 0)) =
  [ChInitial; ChFinish "tool_calls"].
Proof. reflexivity. Qed.

(** A marker cut in two; the text without it is trimmed by the other route. *)
Lemma chat_stream_delivers_witness :
  let tokens := [(bytes_of "Hi <thi", None); (bytes_of "nk>hmm</think> ok ", None)] in
  let chunks := chat_stream (L := nat) [] false false None (λ _, "id") tokens None (inr (mkChatResult "stop" 0 0 0)) in
  read chunk_content chunks = bytes_of "Hi  ok " ∧ read chunk_reasoning chunks = bytes_of "hmm" ∧
  (chat_completion_texts (concat tokens.*1) false None).2 = bytes_of "Hi  ok".
Proof.
  intros tokens chunks.
  destruct (chat_stream_delivers (L := nat) [] false false None (λ _, "id") tokens None (inr (mkChatResult "stop" 0 0 0)))
    as (Hc & Hr & _ & Ht & _).
  split; [vm_compute; reflexivity|]. split; [vm_compute; reflexivity|].
  assert (no_markers (read chunk_content chunks)) as Hm by (split; vm_compute; repeat constructor).
  exact (Ht Hm).
Defined.
