(* ===== verification/DenseCache.v ===== *)
(** * The dense half-precision KV cache

    [core/cache.rs]: the [Fp16] paths of [KVCache], the cache every generator builds with
    [KVCache::new].  A buffer is the list of its rows along the sequence axis; batch, head
    and feature axes are inside a row, which the code never splits.  [offset] and
    [live_start] are [i32]s ([Z]) that stay within the sequence length; [None] is a
    failed [unwrap].

    The cache refines an abstract window: the position of its first row and the rows
    themselves ([represents]).  Updating appends, [trim] cuts the end, [trim_front] cuts the
    front and moves the position, whatever the allocation of the buffers. *)

From S2P Require Import Prelude.

Inductive KVCacheMode := Fp16 | Int8 | Turbo4Asym | Turbo4 | Turbo4Delegated | Turbo3Asym | KVarN8.

Global Instance KVCacheMode_eq_dec : EqDecision KVCacheMode.
Proof. solve_decision. Defined.

Definition is_trimmable (mode : KVCacheMode) : bool := negb (bool_decide (mode = KVarN8)).

Section cache.
Context {K V : Type} (zeroK : K) (zeroV : V).

Record KVCache := mkKV {
  kv_keys : option (list K);
  kv_values : option (list V);
  kv_offset : Z;
  kv_live_start : Z;
  kv_step : Z;
  kv_mode : KVCacheMode
}.

Definition new_cache : KVCache := mkKV None None 0 0 256 Fp16.

Definition can_trim_prompt_cache (caches : list KVCache) : bool := forallb (λ c, is_trimmable (kv_mode c)) caches.

Definition live_len (c : KVCache) : Z := (kv_offset c - kv_live_start c)%Z.

(** [seq_len] and [buffer_idx] are the same difference. *)
Definition is_empty (c : KVCache) : bool := bool_decide (kv_offset c = 0%Z) && bool_decide (kv_keys c = None).

Definition buffer_seq_len (c : KVCache) : Z := match kv_keys c with Some k => Z.of_nat (length k) | None => 0%Z end.

Definition slice_to {A} (n : Z) (buf : list A) : list A := take (Z.to_nat n) buf.

(** [slice_update buf new [lo] [hi]]: the rows between [lo] and [hi] become [new]. *)
Definition slice_update {A} (buf new : list A) (lo hi : Z) : list A :=
  take (Z.to_nat lo) buf ++ new ++ drop (Z.to_nat hi) buf.

(** The growth of the buffers inside [update_fp16]. *)
Definition grow_buffers (prev : Z) (new_seq_len : Z) (c : KVCache) : option (list K * list V) :=
  let n_steps := ((kv_step c + new_seq_len - 1) `div` kv_step c)%Z in
  let buf_size := Z.to_nat (n_steps * kv_step c) in
  let new_k := replicate buf_size zeroK in
  let new_v := replicate buf_size zeroV in
  match kv_keys c with
  | Some k =>
    v ← kv_values c;
    let '(k, v) :=
      if decide (prev `mod` kv_step c = 0)%Z then (k, v) else (slice_to prev k, slice_to prev v) in
    Some (k ++ new_k, v ++ new_v)
  | None => Some (new_k, new_v)
  end.

(** [direct]: [direct_prefill_cache_store_enabled()], read from the environment. *)
Definition update_fp16 (direct : bool) (new_keys : list K) (new_values : list V) (c : KVCache) : option KVCache :=
  let new_seq_len := Z.of_nat (length new_keys) in
  let prev := live_len c in
  if decide (prev = 0%Z ∧ kv_keys c = None ∧ direct = true)
  then Some (mkKV (Some new_keys) (Some new_values) (kv_offset c + new_seq_len) (kv_live_start c) (kv_step c) (kv_mode c))
  else
    '(k, v) ←
      (if decide (kv_keys c = None ∨ buffer_seq_len c < prev + new_seq_len)%Z
       then grow_buffers prev new_seq_len c
       else k ← kv_keys c; v ← kv_values c; Some (k, v));
    let offset := (kv_offset c + new_seq_len)%Z in
    let live := (offset - kv_live_start c)%Z in
    Some (mkKV (Some (slice_update k new_keys prev live)) (Some (slice_update v new_values prev live))
               offset (kv_live_start c) (kv_step c) (kv_mode c)).

Definition update_and_fetch (direct : bool) (new_keys : list K) (new_values : list V) (c : KVCache) :
    option (KVCache * (list K * list V)) :=
  c ← update_fp16 direct new_keys new_values c;
  k ← kv_keys c; v ← kv_values c;
  Some (c, (slice_to (live_len c) k, slice_to (live_len c) v)).

Definition visible_state (c : KVCache) : option (list K * list V) :=
  if decide (kv_mode c ≠ Fp16) then None
  else k ← kv_keys c; v ← kv_values c;
       if decide (live_len c ≤ 0)%Z then None else Some (slice_to (live_len c) k, slice_to (live_len c) v).

Definition trim (n : Z) (c : KVCache) : Z * KVCache :=
  let n := Z.min n (live_len c) in
  if decide (n ≤ 0)%Z then (0%Z, c)
  else
    let offset := (kv_offset c - n)%Z in
    let after := (offset - kv_live_start c)%Z in
    if decide (after = 0%Z)
    then (n, mkKV None None offset (kv_live_start c) (kv_step c) (kv_mode c))
    else (n, mkKV (slice_to after <$> kv_keys c) (slice_to after <$> kv_values c)
                  offset (kv_live_start c) (kv_step c) (kv_mode c)).

Definition trim_front (n : Z) (c : KVCache) : Z * KVCache :=
  let live := live_len c in
  let n := Z.max (Z.min n live) 0 in
  if decide (n = 0%Z) then (0%Z, c)
  else if decide (live - n = 0)%Z
  then (n, mkKV None None (kv_offset c) (kv_offset c) (kv_step c) (kv_mode c))
  else (n, mkKV (drop (Z.to_nat n) ∘ slice_to live <$> kv_keys c) (drop (Z.to_nat n) ∘ slice_to live <$> kv_values c)
                (kv_offset c) (kv_live_start c + n) (kv_step c) (kv_mode c)).

(** ** The abstract window *)

(** The first position of the window and its rows. *)
Record window := mkWindow { w_start : Z; w_keys : list K; w_values : list V }.

Record represents (c : KVCache) (w : window) : Prop := mkRep {
  rep_mode : kv_mode c = Fp16;
  rep_step : (0 < kv_step c)%Z;
  rep_start : kv_live_start c = w_start w;
  rep_len : live_len c = Z.of_nat (length (w_keys w));
  rep_same : length (w_keys w) = length (w_values w);
  rep_bufs :
    match kv_keys c, kv_values c with
    | None, None => w_keys w = []
    | Some k, Some v => ∃ sk sv, k = w_keys w ++ sk ∧ v = w_values w ++ sv ∧ length sk = length sv
    | _, _ => False
    end
}.

Definition w_append (ks : list K) (vs : list V) (w : window) : window :=
  mkWindow (w_start w) (w_keys w ++ ks) (w_values w ++ vs).
Definition w_trim (n : nat) (w : window) : window :=
  mkWindow (w_start w) (take (length (w_keys w) - n) (w_keys w)) (take (length (w_keys w) - n) (w_values w)).
Definition w_trim_front (n : nat) (w : window) : window :=
  mkWindow (w_start w + Z.of_nat n) (drop n (w_keys w)) (drop n (w_values w)).

(** How many rows a trim by [n] removes. *)
Definition trimmed (n : Z) (w : window) : nat := Z.to_nat (Z.min n (Z.of_nat (length (w_keys w)))).

Lemma represents_new : represents new_cache (mkWindow 0 [] []).
Proof. split; done. Qed.

Lemma slice_to_window {A} (l s : list A) : slice_to (Z.of_nat (length l)) (l ++ s) = l.
Proof. unfold slice_to. by rewrite Nat2Z.id, take_app_length. Qed.

Lemma slice_to_le {A} (n : nat) (l s : list A) : n ≤ length l → slice_to (Z.of_nat n) (l ++ s) = take n l.
Proof. intros. unfold slice_to. by rewrite Nat2Z.id, take_app_le. Qed.

Lemma slice_update_tail {A} (l s new : list A) :
  length new ≤ length s →
  slice_update (l ++ s) new (Z.of_nat (length l)) (Z.of_nat (length l + length new)) = (l ++ new) ++ drop (length new) s.
Proof.
  intros. unfold slice_update. rewrite !Nat2Z.id, take_app_length, drop_app_ge by lia.
  rewrite <-(assoc_L app). do 3 f_equal. lia.
Qed.

(** The steps allocated are enough for the new rows. *)
Lemma step_room (step n : Z) : (0 < step → 0 ≤ n → n ≤ (step + n - 1) `div` step * step)%Z.
Proof.
  intros Hs Hn. pose proof (Z.div_mod (step + n - 1) step ltac:(lia)).
  pose proof (Z.mod_pos_bound (step + n - 1) step Hs). nia.
Qed.

Lemma grow_buffers_room c w n :
  represents c w →
  ∃ sk sv, grow_buffers (live_len c) (Z.of_nat n) c = Some (w_keys w ++ sk, w_values w ++ sv) ∧
           length sk = length sv ∧ n ≤ length sk.
Proof.
  intros [_ Hst _ Hl Hs Hb]. unfold grow_buffers.
  pose proof (step_room (kv_step c) (Z.of_nat n) Hst ltac:(lia)) as Hroom.
  set (size := Z.to_nat _). assert (n ≤ size) as Hn by lia. clearbody size.
  destruct (kv_keys c) as [k|], (kv_values c) as [v|]; try done; simpl.
  - destruct Hb as (sk & sv & -> & -> & Hlen). case_decide.
    + exists (sk ++ replicate size zeroK), (sv ++ replicate size zeroV).
      rewrite <-!(assoc_L app), !length_app, !length_replicate. eauto with lia.
    + exists (replicate size zeroK), (replicate size zeroV).
      rewrite Hl, slice_to_window, Hs, slice_to_window, !length_replicate. eauto.
  - rewrite Hb in *. apply symmetry, nil_length_inv in Hs. rewrite Hs.
    exists (replicate size zeroK), (replicate size zeroV). by rewrite !length_replicate.
Qed.

Lemma buffers_room c w n :
  represents c w →
  ∃ sk sv,
    (if decide (kv_keys c = None ∨ buffer_seq_len c < live_len c + Z.of_nat n)%Z
     then grow_buffers (live_len c) (Z.of_nat n) c
     else k ← kv_keys c; v ← kv_values c; Some (k, v)) = Some (w_keys w ++ sk, w_values w ++ sv) ∧
    length sk = length sv ∧ n ≤ length sk.
Proof.
  intros Hr. case_decide as Hd; [by apply grow_buffers_room|].
  destruct Hr as [_ _ _ Hl Hs Hb]. unfold buffer_seq_len in Hd.
  destruct (kv_keys c) as [k|], (kv_values c) as [v|]; try done; simpl; [|naive_solver].
  destruct Hb as (sk & sv & -> & -> & Hlen). exists sk, sv. split_and!; [done|done|].
  rewrite length_app in Hd. destruct (Z.lt_ge_cases (Z.of_nat (length (w_keys w) + length sk)) (live_len c + Z.of_nat n));
    [tauto|]. lia.
Qed.

(** Updating appends rows to the window; it never panics. *)
Lemma update_appends direct ks vs c w :
  represents c w → length ks = length vs →
  ∃ c', update_fp16 direct ks vs c = Some c' ∧ represents c' (w_append ks vs w) ∧
        kv_offset c' = (kv_offset c + Z.of_nat (length ks))%Z.
Proof.
  intros Hr Hkv. unfold update_fp16. case_decide as Hd.
  - destruct Hd as (Hp & Hk & _), Hr as [Hm Hst Hls Hl Hs Hb]. eexists. split; [done|]. split; [|done].
    assert (w_keys w = []) as Hw by (apply nil_length_inv; lia).
    rewrite Hw in Hs. apply symmetry, nil_length_inv in Hs.
    split; unfold live_len in *; simpl; rewrite ?Hw, ?Hs; simpl; try done; try lia.
    exists [], []. by rewrite !app_nil_r.
  - destruct (buffers_room c w (length ks) Hr) as (sk & sv & -> & Hlen & Hn).
    destruct Hr as [Hm Hst Hls Hl Hs Hb]. simpl. eexists. split; [done|]. split; [|done].
    replace (kv_offset c + Z.of_nat (length ks) - kv_live_start c)%Z with (live_len c + Z.of_nat (length ks))%Z
      by (unfold live_len; lia).
    rewrite Hl, <-Nat2Z.inj_add, slice_update_tail by lia.
    split; unfold live_len in *; simpl; rewrite ?length_app; try done; try lia.
    exists (drop (length ks) sk), (drop (length ks) sv). split_and!; [done| |by rewrite !length_drop, Hlen].
    rewrite Hs, Hkv. apply slice_update_tail; lia.
Qed.

Lemma fetch_window c w :
  represents c w → w_keys w ≠ [] → visible_state c = Some (w_keys w, w_values w).
Proof.
  intros [Hm _ _ Hl Hs Hb] Hne. unfold visible_state. rewrite decide_False by (rewrite Hm; tauto).
  destruct (kv_keys c) as [k|], (kv_values c) as [v|]; try done; simpl.
  destruct Hb as (sk & sv & -> & -> & _). rewrite decide_False.
  - by rewrite Hl, slice_to_window, Hs, slice_to_window.
  - destruct (w_keys w); simpl in *; [done|lia].
Qed.

Lemma trim_cuts n c w :
  represents c w →
  ∃ c', trim n c = (Z.of_nat (trimmed n w), c') ∧ represents c' (w_trim (trimmed n w) w) ∧
        kv_offset c' = (kv_offset c - Z.of_nat (trimmed n w))%Z.
Proof.
  intros [Hm Hst Hls Hl Hs Hb]. unfold trim. rewrite Hl. unfold trimmed.
  case_decide as Hn.
  { exists c. replace (Z.to_nat (Z.min n (Z.of_nat (length (w_keys w))))) with 0 by lia.
    split; [done|]. split; [|lia]. destruct w as [s ks vs]; simpl in *. unfold w_trim. simpl.
    rewrite Nat.sub_0_r, Hs, firstn_all, <-Hs, firstn_all. by split. }
  set (m := Z.to_nat (Z.min n _)). assert (Z.min n (Z.of_nat (length (w_keys w))) = Z.of_nat m) as -> by lia.
  assert (0 < m ≤ length (w_keys w)) as Hm' by lia. clearbody m. clear Hn.
  unfold live_len in Hl.
  replace (kv_offset c - Z.of_nat m - kv_live_start c)%Z with (Z.of_nat (length (w_keys w) - m)) by lia.
  case_decide as Hz; (eexists; split; [done|]; split; [|done]).
  - split; unfold w_trim, live_len in *; simpl; rewrite ?length_take; try done; try lia.
    by replace (length (w_keys w) - m) with 0 by lia.
  - split; unfold w_trim, live_len in *; simpl; rewrite ?length_take; try done; try lia.
    destruct (kv_keys c) as [k|], (kv_values c) as [v|]; simpl; try done.
    + destruct Hb as (sk & sv & -> & -> & _). exists [], [].
      rewrite !app_nil_r, !slice_to_le by lia. done.
    + rewrite Hb in *. simpl in *. lia.
Qed.

Lemma trim_front_cuts n c w :
  represents c w →
  ∃ c', trim_front n c = (Z.of_nat (trimmed n w), c') ∧ represents c' (w_trim_front (trimmed n w) w) ∧
        kv_offset c' = kv_offset c.
Proof.
  intros [Hm Hst Hls Hl Hs Hb]. unfold trim_front. rewrite Hl. unfold trimmed.
  set (m := Z.to_nat (Z.min n _)). assert (Z.max (Z.min n (Z.of_nat (length (w_keys w)))) 0 = Z.of_nat m) as -> by lia.
  assert (m ≤ length (w_keys w)) as Hm' by lia. clearbody m. unfold live_len in Hl.
  case_decide as H0.
  { exists c. assert (m = 0) as -> by lia. split; [done|]. split; [|done]. unfold w_trim_front.
    rewrite Z.add_0_r, !drop_0. by split. }
  case_decide as Hz; (eexists; split; [done|]; split; [|done]).
  - assert (m = length (w_keys w)) as -> by lia.
    split; unfold w_trim_front, live_len in *; simpl; rewrite ?length_drop; try done; try lia.
    by rewrite drop_all.
  - split; unfold w_trim_front, live_len in *; simpl; rewrite ?length_drop; try done; try lia.
    destruct (kv_keys c) as [k|], (kv_values c) as [v|]; simpl; try done.
    + destruct Hb as (sk & sv & -> & -> & _). exists [], [].
      by rewrite !app_nil_r, slice_to_window, Hs, slice_to_window, Nat2Z.id.
    + rewrite Hb in *. simpl in *. lia.
Qed.

End cache.

Arguments KVCache : clear implicits.
Arguments window : clear implicits.
