(* ===== verification/Decode.v ===== *)
(** * Language models and the plain decode loop

    [core/generate.rs]: the trait [LanguageModel] as far as the decode loops use it, padded
    prefill, and [CxxGenerator::generate_streaming] over half-precision caches;
    [core/utils.rs] ([align_to_na_tile], [create_padded_prefill_mask]).

    A model is a record of operations.  Its numerics are not modelled: [causal] says what a
    decoder over KV caches does, that the logits at a position and the rows it writes depend
    on the tokens up to that position, whatever the cut into forward passes, and that a mask
    which hides the padding leaves the other positions alone.  The caches are those of
    [DenseCache], so that what a trim leaves behind is proved, not assumed.  Models that
    keep caches of their own ([trim_internal_caches]) are outside the contract.

    The loops pass on the state of the random generator.  [reference] is greedy
    autoregressive decoding, one token at a time from the whole context, with the history of
    the penalties as a parameter; it describes the loops for configurations that never draw
    ([is_greedy]). *)

From S2P Require Import Prelude DenseCache Sampling.

Definition NA_TILE_SIZE : nat := 32.

Definition align_to_na_tile (len : nat) : nat :=
  if decide (len = 0) then 0 else div_ceil len NA_TILE_SIZE * NA_TILE_SIZE.

(** An additive attention mask: [true] where the entry is 0, [false] where it is -inf. *)
Abbreviation Mask := (list (list bool)).

Definition mask_at (m : Mask) (q k : nat) : option bool := row ← m !! q; row !! k.

Definition create_padded_prefill_mask (actual_len padded_len offset : nat) : Mask :=
  (λ q, (λ k, bool_decide (k ≤ q + offset) && bool_decide (k < actual_len + offset)) <$> seq 0 (padded_len + offset))
    <$> seq 0 padded_len.

Section decode.
Context {K V Logits : Type} `{!LogitOps Logits}.

Abbreviation cache := (KVCache K V).

Record LanguageModel := mkModel {
  forward : list Z → list cache → option Mask → list Logits * list cache;
  make_caches : list cache;
  num_layers : nat;
  eos_token_ids : list Z;
  supports_padded_prefill : bool;
  supports_maskless_padded_prefill : bool
}.

(** ** Padded prefill *)

Definition pad_tokens_for_prefill (force_mask : bool) (prompt : list Z) (padded_len : nat) (maskless : bool) :
    list Z * option Mask :=
  if decide (padded_len = length prompt) then (prompt, None)
  else
    let padded := prompt ++ replicate (padded_len - length prompt) 0%Z in
    if maskless && negb force_mask then (padded, None)
    else (padded, Some (create_padded_prefill_mask (length prompt) padded_len 0)).

Definition trim_all (n : nat) (caches : list cache) : list cache := (λ c, (trim (Z.of_nat n) c).2) <$> caches.

Definition logits_at_position (lg : list Logits) (pos : nat) : list Logits := take 1 (drop pos lg).

(** [align]: [should_align_prefill()]; [force_mask]: [force_padded_prefill_array_mask()]. *)
Definition prefill (align force_mask : bool) (m : LanguageModel) (prompt : list Z) (caches : list cache) :
    list Logits * list cache :=
  let actual_len := length prompt in
  if align && supports_padded_prefill m then
    let padded_len := align_to_na_tile actual_len in
    let '(padded, mask) := pad_tokens_for_prefill force_mask prompt padded_len (supports_maskless_padded_prefill m) in
    let '(raw, caches) := forward m padded caches mask in
    if decide (actual_len < padded_len)
    then (logits_at_position raw (actual_len - 1), trim_all (padded_len - actual_len) caches)
    else (raw, caches)
  else forward m prompt caches None.

(** ** [CxxGenerator] *)

(** What the loop carries: caches, penalty history and state, output, and the caller's
    callback state. *)
Record gen_state (S : Type) := mkGen {
  g_caches : list cache;
  g_history : list Z;
  g_sampler : option SamplerState;
  g_tokens : list Z;
  g_rng : Rng;
  g_cb : S
}.
Arguments mkGen {_} _ _ _ _ _ _.
Arguments g_caches {_} _.
Arguments g_history {_} _.
Arguments g_sampler {_} _.
Arguments g_tokens {_} _.
Arguments g_rng {_} _.
Arguments g_cb {_} _.

(** The sampler of the loop, on the logits of the last position. *)
Definition sample_next (needs_history : bool) (c : SamplingConfig) (lg : list Logits) (h : list Z) (st : option SamplerState)
    (rng : Rng) : option (Z * option SamplerState * Rng) :=
  l ← last lg;
  Some (if needs_history then sample_token_optimized_with_state l c h st rng
        else let '(t, rng) := sample_token_optimized l c h rng in (t, st, rng)).

Section loop.
Context {S : Type} (on_token : S → Z → bool * S) (m : LanguageModel) (c : SamplingConfig) (eos : list Z).

(** One pass of the loop per unit of [r], [max_tokens - n]: the next step is started
    before the current token is looked at.  [None] is a panic. *)
Fixpoint generate_loop (r : nat) (y : Z) (s : gen_state S) : option (gen_state S) :=
  match r with
  | 0 => Some s
  | Datatypes.S r' =>
    '(next_y, s) ←
      (if decide (r' = 0) then Some (None, s)
       else
         let '(lg, caches) := forward m [y] (g_caches s) None in
         '(t, st, rng) ← sample_next (needs_token_history c) c lg (g_history s) (g_sampler s) (g_rng s);
         Some (Some t, mkGen caches (g_history s) st (g_tokens s) rng (g_cb s)));
    if decide (y ∈ eos) then Some s
    else
      let h := if needs_token_history c then g_history s ++ [y] else g_history s in
      let '(continue, cb) := on_token (g_cb s) y in
      let s := mkGen (g_caches s) h (g_sampler s) (g_tokens s ++ [y]) (g_rng s) cb in
      if continue then match next_y with Some ny => generate_loop r' ny s | None => Some s end else Some s
  end.
End loop.

Definition generate_streaming {S} (on_token : S → Z → bool * S) (cb : S) (align force_mask : bool) (bias : TokenBiasMap)
    (m : LanguageModel) (prompt : list Z) (max_tokens : nat) (sampling : SamplingConfig) (rng : Rng) :
    option (gen_state S) :=
  let c := compose_sampling bias sampling in
  let rng := seed_rng_if_needed c rng in
  let eos := merged_eos_token_ids (eos_token_ids m) (stop_token_ids c) in
  let '(lg, caches) := prefill align force_mask m prompt (make_caches m) in
  let h := initial_token_history prompt (needs_token_history c) in
  '(y, st, rng) ← sample_next (needs_token_history c) c lg h None rng;
  generate_loop on_token m c eos max_tokens y (mkGen caches h st [] rng cb).

Definition generate (align force_mask : bool) (bias : TokenBiasMap) (m : LanguageModel) (prompt : list Z) (max_tokens : nat)
    (sampling : SamplingConfig) (rng : Rng) : option (list Z * Rng) :=
  s ← generate_streaming (λ s _, (true, s)) tt align force_mask bias m prompt max_tokens sampling rng;
  Some (g_tokens s, g_rng s).

(** ** Causal decoders *)

Section causal.
Context (m : LanguageModel) (row : nat → list Z → K * V) (after : list Z → Logits).

(** The rows layer [l] holds for a context, the [i]-th one written for its [i]-th token. *)
Definition rows (l : nat) (ctx : list Z) : list (K * V) := (λ i, row l (take (S i) ctx)) <$> seq 0 (length ctx).

(** The logits of a forward pass over [input] after [ctx]. *)
Definition outputs (ctx input : list Z) : list Logits := (λ i, after (ctx ++ take (S i) input)) <$> seq 0 (length input).

(** The caches hold the rows of [ctx], followed by [pad] rows that mean nothing. *)
Definition holds (caches : list cache) (ctx : list Z) (pad : nat) : Prop :=
  length caches = num_layers m ∧
  ∀ l c, caches !! l = Some c →
    ∃ jk jv, represents c (mkWindow 0 ((rows l ctx).*1 ++ jk) ((rows l ctx).*2 ++ jv)) ∧ length jk = pad.

Record causal : Prop := mkCausal {
  causal_new : holds (make_caches m) [] 0;
  causal_forward : ∀ ctx input caches, input ≠ [] → holds caches ctx 0 →
    (forward m input caches None).1 = outputs ctx input ∧
    holds (forward m input caches None).2 (ctx ++ input) 0;
  causal_masked : ∀ ctx input a caches mask, 0 < a ≤ length input → holds caches ctx 0 →
    (∀ q k, q < a → k < length ctx + length input → mask_at mask q k = Some (bool_decide (k ≤ q + length ctx))) →
    take a (forward m input caches (Some mask)).1 = outputs ctx (take a input) ∧
    holds (forward m input caches (Some mask)).2 (ctx ++ take a input) (length input - a)
}.

Lemma length_rows l ctx : length (rows l ctx) = length ctx.
Proof. unfold rows. by rewrite length_fmap, length_seq. Qed.

Lemma rows_take l n ctx : rows l (take n ctx) = take n (rows l ctx).
Proof.
  unfold rows. rewrite <-fmap_take, take_seq, length_take. apply list_fmap_ext. intros i x Hx.
  apply lookup_seq in Hx as [-> Hi]. simpl. f_equal. rewrite take_take. f_equal. lia.
Qed.

Lemma trim_pad caches ctx pad : holds caches ctx pad → holds (trim_all pad caches) ctx 0.
Proof.
  intros [Hl Hc]. split; [unfold trim_all; by rewrite length_fmap|]. intros l c' Hl'.
  apply list_lookup_fmap_Some in Hl' as (c & -> & Hc'). destruct (Hc _ _ Hc') as (jk & jv & Hr & Hp).
  destruct (trim_cuts (Z.of_nat pad) _ _ Hr) as (c1 & E & Hr1 & _). rewrite E. simpl.
  pose proof (rep_same _ _ Hr) as Hs. simpl in Hs. rewrite !length_app, !length_fmap in Hs.
  exists [], []. split; [|done].
  unfold trimmed, w_trim in Hr1. simpl in Hr1. rewrite length_app, length_fmap, Hp in Hr1.
  replace (Z.to_nat _) with pad in Hr1 by lia. rewrite Nat.add_sub in Hr1.
  rewrite !app_nil_r. by rewrite !take_app_le, !take_ge in Hr1 by (rewrite ?length_fmap; lia).
Qed.

Lemma trim_holds n caches ctx :
  n ≤ length ctx → holds caches ctx 0 → holds (trim_all n caches) (take (length ctx - n) ctx) 0.
Proof.
  intros Hn [Hl Hc]. split; [unfold trim_all; by rewrite length_fmap|]. intros l c' Hl'.
  apply list_lookup_fmap_Some in Hl' as (c & -> & Hc'). destruct (Hc _ _ Hc') as (jk & jv & Hr & Hp).
  pose proof (rep_same _ _ Hr) as Hs. simpl in Hs. rewrite !length_app, !length_fmap in Hs.
  apply nil_length_inv in Hp as ->. simpl in Hs. assert (jv = []) as -> by (apply nil_length_inv; lia).
  destruct (trim_cuts (Z.of_nat n) _ _ Hr) as (c1 & E & Hr1 & _). rewrite E. simpl.
  exists [], []. split; [|done]. rewrite !app_nil_r in *.
  unfold trimmed, w_trim in Hr1. simpl in Hr1. rewrite length_fmap, length_rows in Hr1.
  replace (Z.to_nat _) with n in Hr1 by lia.
  by rewrite rows_take, !fmap_take.
Qed.

Lemma length_outputs ctx input : length (outputs ctx input) = length input.
Proof. unfold outputs. by rewrite length_fmap, length_seq. Qed.

Lemma lookup_outputs ctx input i :
  i < length input → outputs ctx input !! i = Some (after (ctx ++ take (S i) input)).
Proof. intros. unfold outputs. by rewrite list_lookup_fmap, lookup_seq_lt. Qed.

Lemma last_outputs ctx input : input ≠ [] → last (outputs ctx input) = Some (after (ctx ++ input)).
Proof.
  intros Hi. assert (0 < length input) by (destruct input; simpl; [done|lia]).
  rewrite last_lookup, length_outputs, lookup_outputs by lia.
  by rewrite (take_ge input) by lia.
Qed.

(** The mask of a padded pass is causal on the real positions. *)
Lemma padded_mask_causal a p off q k :
  q < a → a ≤ p → k < off + p →
  mask_at (create_padded_prefill_mask a p off) q k = Some (bool_decide (k ≤ q + off)).
Proof.
  intros Hq Hp Hk. unfold mask_at, create_padded_prefill_mask.
  rewrite list_lookup_fmap, lookup_seq_lt by lia. simpl. rewrite list_lookup_fmap, lookup_seq_lt by lia. simpl.
  f_equal. destruct (decide (k ≤ q + off)).
  - rewrite !bool_decide_eq_true_2 by lia. done.
  - by rewrite (bool_decide_eq_false_2 (k ≤ q + off)).
Qed.

Lemma align_to_na_tile_ge n : n ≤ align_to_na_tile n.
Proof.
  unfold align_to_na_tile, NA_TILE_SIZE. case_decide; [lia|].
  pose proof (div_ceil_spec n 32 ltac:(lia)). lia.
Qed.

(** A forward pass over tokens padded to [p], with or without a mask, then a trim of the
    padding: the pass over the tokens alone. *)
Lemma padded_forward (Hm : causal) ctx input p mask caches :
  input ≠ [] → holds caches ctx 0 → length input ≤ p →
  mask = None ∨ mask = Some (create_padded_prefill_mask (length input) p (length ctx)) →
  let r := forward m (input ++ replicate (p - length input) 0%Z) caches mask in
  take (length input) r.1 = outputs ctx input ∧ holds (trim_all (p - length input) r.2) (ctx ++ input) 0.
Proof.
  intros Hi Hc Hp Hmask r. assert (0 < length input) by (destruct input; simpl in *; [done|lia]).
  assert (length (input ++ replicate (p - length input) 0%Z) = p) as Hlen
    by (rewrite length_app, length_replicate; lia).
  destruct Hmask as [-> | ->]; subst r.
  - destruct (causal_forward Hm ctx (input ++ replicate (p - length input) 0%Z) caches) as [-> H2];
      [by destruct input|done|]. split.
    + unfold outputs. rewrite <-fmap_take, take_seq, Hlen, Nat.min_l by lia. apply list_fmap_ext.
      intros i x Hx. apply lookup_seq in Hx as [-> Hx]. simpl. by rewrite take_app_le by lia.
    + apply (trim_holds (p - length input)) in H2; [|rewrite length_app, Hlen; lia].
      rewrite (assoc_L app), take_app_le in H2; [|rewrite !length_app, length_replicate; lia].
      rewrite take_ge in H2; [done|]. rewrite !length_app, length_replicate; lia.
  - destruct (causal_masked Hm ctx (input ++ replicate (p - length input) 0%Z) (length input) caches
                (create_padded_prefill_mask (length input) p (length ctx))) as [H1 H2]; [lia|done| |].
    { intros q k Hq Hk. rewrite Hlen in Hk. by apply padded_mask_causal. }
    rewrite take_app_length in H1, H2. rewrite Hlen in H2. split; [done|]. by apply trim_pad.
Qed.

Lemma prefill_causal (Hm : causal) align force_mask prompt caches :
  prompt ≠ [] → holds caches [] 0 →
  last (prefill align force_mask m prompt caches).1 = Some (after prompt) ∧
  holds (prefill align force_mask m prompt caches).2 prompt 0.
Proof.
  intros Hp Hc. unfold prefill.
  assert (0 < length prompt) by (destruct prompt; simpl; [done|lia]).
  pose proof (align_to_na_tile_ge (length prompt)) as Ha.
  destruct (align && supports_padded_prefill m).
  2: { destruct (causal_forward Hm [] prompt caches Hp Hc) as [-> H2]. by rewrite last_outputs. }
  unfold pad_tokens_for_prefill. case_decide as Heq.
  { destruct (causal_forward Hm [] prompt caches Hp Hc) as [H1 H2].
    destruct (forward m prompt caches None) as [lg cs]. simpl in *. rewrite decide_False by lia. subst lg. simpl.
    by rewrite last_outputs. }
  set (mask := if supports_maskless_padded_prefill m && negb force_mask then None else
                 Some (create_padded_prefill_mask (length prompt) (align_to_na_tile (length prompt)) 0)).
  pose proof (padded_forward Hm [] prompt (align_to_na_tile (length prompt)) mask caches Hp Hc Ha) as Hpf.
  assert (mask = None ∨ mask = Some (create_padded_prefill_mask (length prompt) (align_to_na_tile (length prompt)) (length (@nil Z))))
    as Hmk by (subst mask; case_match; auto).
  specialize (Hpf Hmk). simpl in Hpf. destruct Hpf as [H1 H2].
  replace (if supports_maskless_padded_prefill m && negb force_mask then _ else _)
    with (prompt ++ replicate (align_to_na_tile (length prompt) - length prompt) 0%Z, mask)
    by (subst mask; by case_match).
  destruct (forward m _ caches mask) as [lg cs]. simpl in *. rewrite decide_True by lia. simpl. split; [|done].
  unfold logits_at_position.
  assert (lg !! (length prompt - 1) = Some (after prompt)) as Hlk.
  { rewrite <-(lookup_take_lt _ (length prompt)) by lia. rewrite H1, lookup_outputs by lia. simpl.
    by rewrite take_ge by lia. }
  rewrite (drop_S _ _ _ Hlk). done.
Qed.

(** ** The reference *)

Section reference.
Context (c : SamplingConfig) (eos prompt : list Z) (hist_of : list Z → list Z).

Definition next_token (gen : list Z) : Z := greedy_choice (after (prompt ++ gen)) c (hist_of gen).

(** The tokens generated after [gen], at most [budget] of them, up to a stop token. *)
Fixpoint reference (gen : list Z) (budget : nat) : list Z :=
  match budget with
  | 0 => []
  | S b => let t := next_token gen in if decide (t ∈ eos) then [] else t :: reference (gen ++ [t]) b
  end.
End reference.

(** The penalty history of the plain loop lags: the next step is sampled before the
    current token is pushed. *)
Definition lagging_history (needs : bool) (prompt gen : list Z) : list Z :=
  if needs then prompt ++ removelast gen else [].
Definition full_history (needs : bool) (prompt gen : list Z) : list Z := if needs then prompt ++ gen else [].

Lemma reference_S c eos prompt hist_of gen b :
  reference c eos prompt hist_of gen (S b) =
  if decide (next_token c prompt hist_of gen ∈ eos) then []
  else next_token c prompt hist_of gen :: reference c eos prompt hist_of (gen ++ [next_token c prompt hist_of gen]) b.
Proof. done. Qed.

Lemma reference_ext c eos prompt f g gen b :
  (∀ x, f x = g x) → reference c eos prompt f gen b = reference c eos prompt g gen b.
Proof.
  intros Hfg. revert gen. induction b as [|b IH]; intros gen; [done|].
  rewrite !reference_S. unfold next_token. rewrite Hfg. case_decide; [done|]. by rewrite IH.
Qed.

Lemma length_reference c eos prompt f gen b : length (reference c eos prompt f gen b) ≤ b.
Proof.
  revert gen. induction b as [|b IH]; intros gen; [done|].
  rewrite reference_S. case_decide; simpl; [lia|]. specialize (IH (gen ++ [next_token c prompt f gen])). lia.
Qed.

Context (laws : LogitLaws Logits).

Lemma sample_next_eq c lg l h0 h st rng :
  is_greedy c = true → last lg = Some l → state_ok c st h0 → length h < length h0 ∨ h0 `prefix_of` h →
  ∃ st', sample_next (needs_token_history c) c lg h st rng = Some (greedy_choice l c h, st', rng) ∧
         state_ok c st' (if needs_token_history c then h else h0).
Proof.
  intros Hg Hl Hst Hh. unfold sample_next. rewrite Hl. simpl. destruct (needs_token_history c).
  - destruct (sample_with_state l c st h0 h rng Hst Hh) as (st' & -> & ?). rewrite sample_greedy by done. eauto.
  - rewrite sample_greedy by done. eauto.
Qed.

(** The loop at token [y], the next of the reference after [gen]. *)
Lemma generate_loop_reference (Hm : causal) c eos prompt r : ∀ gen y (s : gen_state unit),
  let f := lagging_history (needs_token_history c) prompt in
  is_greedy c = true → holds (g_caches s) (prompt ++ gen) 0 → g_tokens s = gen →
  g_history s = (if needs_token_history c then prompt ++ gen else []) →
  state_ok c (g_sampler s) (f gen) →
  y = next_token c prompt f gen → prompt ≠ [] →
  ∃ s', generate_loop (λ s _, (true, s)) m c eos r y s = Some s' ∧
        g_tokens s' = gen ++ reference c eos prompt f gen r ∧ g_rng s' = g_rng s.
Proof.
  induction r as [|r IH]; intros gen y s f Hg Hc Ht Hh Hst Hy Hp.
  { exists s. by rewrite Ht, app_nil_r. }
  assert (Hpre : f gen `prefix_of` g_history s).
  { subst f. unfold lagging_history. rewrite Hh. destruct (needs_token_history c); [|done].
    apply prefix_app. destruct gen as [|x g _] using rev_ind; [done|]. rewrite removelast_last. by apply prefix_app_r. }
  rewrite reference_S. fold f. rewrite <-Hy. cbn [generate_loop].
  destruct (decide (r = 0)) as [Hr|Hr].
  { subst r. simpl. case_decide; [exists s; by rewrite Ht, app_nil_r|]. eexists. split; [done|]. simpl. by rewrite Ht. }
  destruct (causal_forward Hm (prompt ++ gen) [y] (g_caches s)) as [H1 H2]; [done|done|].
  destruct (forward m [y] (g_caches s) None) as [lg cs]. simpl in H1, H2. subst lg.
  destruct (sample_next_eq c (outputs (prompt ++ gen) [y]) (after ((prompt ++ gen) ++ [y])) (f gen) (g_history s)
              (g_sampler s) (g_rng s)) as (st' & -> & Hst'); [done|by apply last_outputs|done|auto|].
  cbn [mbind option_bind]. case_decide as He; [eexists; split; [done|]; simpl; by rewrite Ht, app_nil_r|].
  cbn [g_cb g_caches g_history g_sampler g_tokens g_rng].
  assert (Hf : f (gen ++ [y]) = g_history s).
  { subst f. unfold lagging_history. rewrite Hh. by rewrite removelast_last. }
  destruct (IH (gen ++ [y]) (greedy_choice (after ((prompt ++ gen) ++ [y])) c (g_history s))
              (mkGen cs (if needs_token_history c then g_history s ++ [y] else g_history s) st' (g_tokens s ++ [y]) (g_rng s) (g_cb s)))
    as (s' & -> & Hs' & Hr'); simpl.
  - done.
  - by rewrite (assoc_L app).
  - by rewrite Ht.
  - rewrite Hh. destruct (needs_token_history c); [by rewrite (assoc_L app)|done].
  - change (lagging_history _ _ _) with (f (gen ++ [y])). rewrite Hf.
    subst f. unfold lagging_history in Hst'. rewrite Hh in *. by destruct (needs_token_history c).
  - unfold next_token. change (lagging_history _ _ _) with (f (gen ++ [y])). by rewrite Hf, (assoc_L app).
  - done.
  - exists s'. split; [done|]. rewrite Hs'. fold f. by rewrite <-(assoc_L app).
Qed.

(** The plain loop is the reference with the lagging history. *)
Lemma generate_reference (Hm : causal) align force_mask bias prompt max_tokens sampling rng :
  prompt ≠ [] → is_greedy sampling = true →
  let c := compose_sampling bias sampling in
  generate align force_mask bias m prompt max_tokens sampling rng =
  Some (reference c (merged_eos_token_ids (eos_token_ids m) (stop_token_ids c)) prompt
          (lagging_history (needs_token_history c) prompt) [] max_tokens, seed_rng_if_needed sampling rng).
Proof.
  intros Hp Hg0 c. assert (is_greedy c = true) as Hg by (unfold c; by rewrite compose_greedy). unfold generate, generate_streaming. fold c.
  destruct (prefill_causal Hm align force_mask prompt (make_caches m) Hp (causal_new Hm)) as [H1 H2].
  destruct (prefill align force_mask m prompt (make_caches m)) as [lg cs]. simpl in H1, H2.
  set (h := initial_token_history prompt (needs_token_history c)).
  destruct (sample_next_eq c lg (after prompt) [] h None (seed_rng_if_needed c rng) Hg H1 I) as (st' & E & Hst'); [right; apply prefix_nil|].
  rewrite E. cbn [mbind option_bind].
  destruct (generate_loop_reference Hm c (merged_eos_token_ids (eos_token_ids m) (stop_token_ids c)) prompt max_tokens []
              (greedy_choice (after prompt) c h) (mkGen cs h st' [] (seed_rng_if_needed c rng) tt)) as (s' & E' & Hs' & Hr'); simpl.
  - done.
  - by rewrite app_nil_r.
  - done.
  - subst h. unfold initial_token_history. by rewrite app_nil_r.
  - subst h. unfold lagging_history, initial_token_history in *. simpl. rewrite app_nil_r. by destruct (needs_token_history c).
  - subst h. unfold next_token, lagging_history, initial_token_history. simpl. by rewrite app_nil_r.
  - done.
  - rewrite E'. simpl. rewrite Hs', Hr'. cbn [g_rng]. unfold c. by rewrite compose_seed.
Qed.

End causal.
End decode.

Arguments LanguageModel : clear implicits.

(** ** An instance

    One layer whose rows are the tokens, logits that are the next token itself, chosen by
    any function [f] of the context. *)
Section token_model.
Context (f : list Z → Z).

Definition token_forward (input : list Z) (caches : list (KVCache Z Z)) (_ : option Mask) : list Z * list (KVCache Z Z) :=
  match caches with
  | c :: _ =>
    let ctx := slice_to (live_len c) (default [] (kv_keys c)) in
    ((λ i, f (ctx ++ take (S i) input)) <$> seq 0 (length input),
     [default c (update_fp16 0%Z 0%Z true input input c)])
  | [] => ((λ i, f (take (S i) input)) <$> seq 0 (length input), caches)
  end.

Definition token_model (eos : list Z) (padded : bool) : LanguageModel Z Z Z :=
  mkModel token_forward [new_cache] 1 eos padded false.

Definition token_row (l : nat) (ctx : list Z) : Z * Z := (default 0%Z (last ctx), default 0%Z (last ctx)).

Lemma token_rows l ctx : (rows token_row l ctx).*1 = ctx ∧ (rows token_row l ctx).*2 = ctx.
Proof.
  assert ((λ i, default 0%Z (last (take (S i) ctx))) <$> seq 0 (length ctx) = ctx) as H.
  { apply list_eq. intros i. rewrite list_lookup_fmap. destruct (decide (i < length ctx)) as [Hi|Hi].
    - rewrite lookup_seq_lt by done. simpl. destruct (lookup_lt_is_Some_2 ctx i Hi) as [x Hx].
      by rewrite (take_S_r _ _ _ Hx), last_snoc, Hx.
    - rewrite (lookup_ge_None_2 ctx) by lia. by rewrite lookup_seq_ge by lia. }
  unfold rows. by rewrite <-!list_fmap_compose.
Qed.

Lemma token_caches eos padded caches ctx pad :
  holds (token_model eos padded) token_row caches ctx pad →
  ∃ c j j', caches = [c] ∧ represents c (mkWindow 0 (ctx ++ j) (ctx ++ j')) ∧ length j = pad.
Proof.
  intros [Hl Hc]. destruct caches as [|c [|]]; try done. destruct (Hc 0 c eq_refl) as (jk & jv & Hr & Hp).
  destruct (token_rows 0 ctx) as [E1 E2]. rewrite E1, E2 in Hr. eauto 10.
Qed.

Lemma token_forward_spec eos padded input ctx caches mask :
  holds (token_model eos padded) token_row caches ctx 0 →
  (token_forward input caches mask).1 = outputs f ctx input ∧
  ∃ c, (token_forward input caches mask).2 = [c] ∧ represents c (mkWindow 0 (ctx ++ input) (ctx ++ input)).
Proof.
  intros Hc. apply token_caches in Hc as (c & j & j' & -> & Hr & Hj).
  pose proof (rep_same _ _ Hr) as Hs. simpl in Hs. rewrite !length_app in Hs.
  apply nil_length_inv in Hj as ->. assert (j' = []) as -> by (apply nil_length_inv; simpl in Hs; lia).
  rewrite !app_nil_r in Hr. simpl.
  destruct (update_appends 0%Z 0%Z true input input c _ Hr eq_refl) as (c' & -> & Hr' & _). simpl.
  split; [|eauto]. unfold outputs. f_equal.
  assert (slice_to (live_len c) (default [] (kv_keys c)) = ctx) as ->; [|done].
  destruct Hr as [_ _ _ Hlen _ Hb]. simpl in *. rewrite Hlen.
  destruct (kv_keys c), (kv_values c); try done; simpl.
  - destruct Hb as (sk & _ & -> & _). by rewrite slice_to_window.
  - subst ctx. done.
Qed.

Lemma token_model_causal eos padded : causal (token_model eos padded) token_row f.
Proof.
  split.
  - split; [done|]. intros l c Hl. destruct l; [|done]. simpl in Hl. injection Hl as <-. exists [], [].
    split; [apply represents_new|done].
  - intros ctx input caches Hi Hc. destruct (token_forward_spec eos padded input ctx caches None Hc) as (E1 & c & E2 & Hr).
    split; [exact E1|]. cbn [forward token_model]. rewrite E2. split; [done|]. intros l c0 Hl.
    destruct l; [|done]. simpl in Hl. injection Hl as <-. exists [], [].
    destruct (token_rows 0 (ctx ++ input)) as [-> ->]. by rewrite !app_nil_r.
  - intros ctx input a caches mask Ha Hc _.
    destruct (token_forward_spec eos padded input ctx caches (Some mask) Hc) as (E1 & c & E2 & Hr).
    cbn [forward token_model]. rewrite E1, E2. split.
    + unfold outputs. rewrite <-fmap_take, take_seq, length_take. apply list_fmap_ext. intros i x Hx.
      apply lookup_seq in Hx as [-> Hx]. simpl. do 2 f_equal. rewrite take_take. f_equal. lia.
    + split; [done|]. intros l c0 Hl. destruct l; [|done]. simpl in Hl. injection Hl as <-.
      exists (drop a input), (drop a input). destruct (token_rows 0 (ctx ++ take a input)) as [-> ->].
      rewrite <-!(assoc_L app), take_drop. split; [done|]. by rewrite length_drop.
Qed.

End token_model.

(** The generator counts the draws; a draw adds its state to the logits. *)
Global Instance token_logits : LogitOps Z := {|
  Rng := N;
  random_seed n := n;
  apply_token_bias l _ := l;
  apply_repetition_penalty_sorted l seen _ := if decide (l ∈ seen) then (l + 1)%Z else l;
  apply_dry_penalty l _ _ := l;
  penalize_counts l _ _ _ := l;
  penalize_counts_sparse l _ _ _ := l;
  argmax l := l;
  scale_temperature l _ := l;
  top_k_filter l _ := l;
  top_p_filter l _ := l;
  min_p_filter l _ := l;
  categorical l r := ((l + Z.of_N r)%Z, (r + 1)%N)
|}.

Global Instance token_logits_laws : LogitLaws Z.
Proof. done. Qed.

Definition draws (n : N) : @Rng Z token_logits := n.
