(* ===== verification/SpecClassic.v ===== *)
(** * Speculative decoding with a draft model

    [core/speculative/mod.rs]: [SpeculativeGenerator::generate].  The draft model proposes
    tokens one by one, the main model scores them in one pass, the matching prefix is kept
    and the caches are cut back.  The loop stops with fuel [max_tokens]: every round that
    does not finish the generation adds a token.  [None] is a panic.

    The state of the random generator is part of the generator's state, and every sampling
    step of either model passes it on.  For greedy configurations the draft model is
    arbitrary: nothing of the output depends on it ([speculative_lossless]).  With draws
    the output depends on it ([draws_depend_on_draft]): both models draw from the one
    generator.  The caches of the draft model do not follow the main model's
    ([draft_context_lags]). *)

From S2P Require Import Prelude DenseCache Sampling Decode.

Definition PREFILL_STEP_SIZE : nat := 512.

Section spec.
Context {K V Logits : Type} `{!LogitOps Logits}.

Abbreviation cache := (KVCache K V).
Abbreviation model := (LanguageModel K V Logits).

Record SpecState := mkSpec {
  main_caches : list cache;
  draft_caches : list cache;
  generated_tokens : list Z;
  token_history : list Z;
  rng : Rng
}.

(** [SpeculativeGenerator::new] and [reset]: fresh half-precision caches. *)
Definition reset (main_layers draft_layers : nat) (r : Rng) : SpecState :=
  mkSpec (replicate main_layers new_cache) (replicate draft_layers new_cache) [] [] r.

(** [trim_caches]: the returned count is that of the last cache. *)
Definition trim_caches (n : Z) (caches : list cache) : Z * list cache :=
  if decide (n ≤ 0)%Z then (0%Z, caches)
  else (foldl (λ _ c, (trim n c).1) 0%Z caches, (λ c, (trim n c).2) <$> caches).

Section generate.
Context (main draft : model) (max_tokens num_draft : nat) (target_sampling draft_sampling : SamplingConfig)
        (eos : list Z) (needs_history align : bool).

(** The chunked prefill: all but the last token, in steps. *)
Fixpoint prefill_chunks (fuel : nat) (rest : list Z) (s : SpecState) : option (list Z * SpecState) :=
  if decide (length rest ≤ 1) then Some (rest, s)
  else match fuel with
  | 0 => None
  | S fuel =>
    let step := PREFILL_STEP_SIZE `min` (length rest - 1) in
    let chunk := take step rest in
    let mc := (forward main chunk (main_caches s) None).2 in
    let dc := (forward draft chunk (draft_caches s) None).2 in
    prefill_chunks fuel (drop step rest) (mkSpec mc dc (generated_tokens s) (token_history s) (rng s))
  end.

(** Step 1: at most [n] draft tokens, ending with a stop token. *)
Fixpoint draft_loop (n : nat) (token : Z) (h : list Z) (caches : list cache) (r : Rng) :
    option (list Z * list cache * Rng) :=
  match n with
  | 0 => Some ([], caches, r)
  | S n =>
    let '(lg, caches) := forward draft [token] caches None in
    l ← last lg;
    let '(t, r) := sample_token_optimized l draft_sampling h r in
    if decide (t ∈ eos) then Some ([t], caches, r)
    else '(ts, caches, r) ← draft_loop n t h caches r; Some (t :: ts, caches, r)
  end.

(** Step 2: one pass over the current token and the drafts, padded to a tile where the
    hardware has them. *)
Definition verify_pass (verify_tokens : list Z) (caches : list cache) : list Logits * list cache :=
  let actual := length verify_tokens in
  if align && supports_padded_prefill main then
    let padded := align_to_na_tile actual in
    let kv_offset := match caches with c :: _ => kv_offset c | [] => 0%Z end in
    if decide (actual < padded) then
      let '(raw, caches) :=
        forward main (verify_tokens ++ replicate (padded - actual) 0%Z) caches
                (Some (create_padded_prefill_mask actual padded (Z.to_nat kv_offset))) in
      (take actual raw, trim_all (padded - actual) caches)
    else forward main verify_tokens caches None
  else forward main verify_tokens caches None.

(** Output, history, number of accepted drafts, [done], and the random generator. *)
Record accept_state := mkAcc { a_tokens : list Z; a_history : list Z; accepted : nat; a_done : bool; a_rng : Rng }.

Definition push (t : Z) (s : accept_state) : accept_state :=
  mkAcc (a_tokens s ++ [t]) (if needs_history then a_history s ++ [t] else a_history s) (accepted s) (a_done s) (a_rng s).
Definition finish (s : accept_state) : accept_state := mkAcc (a_tokens s) (a_history s) (accepted s) true (a_rng s).
Definition accept (s : accept_state) : accept_state := mkAcc (a_tokens s) (a_history s) (S (accepted s)) (a_done s) (a_rng s).
Definition set_rng (r : Rng) (s : accept_state) : accept_state := mkAcc (a_tokens s) (a_history s) (accepted s) (a_done s) r.

(** Step 3: compare the drafts with the main model's choices. *)
Fixpoint accept_loop (i : nat) (lgs : list Logits) (drafts : list Z) (s : accept_state) : option accept_state :=
  match drafts with
  | [] => Some s
  | d :: drafts =>
    if decide (length lgs ≤ i) then Some s
    else
      l ← lgs !! i;
      let '(t, r) := sample_token_optimized l target_sampling (a_history s) (a_rng s) in
      let s := set_rng r s in
      if decide (t = d) then
        let s := accept s in
        if decide (d ∈ eos) then Some (finish s)
        else
          let s := push d s in
          if decide (max_tokens ≤ length (a_tokens s)) then Some (finish s) else accept_loop (S i) lgs drafts s
      else if decide (t ∈ eos) then Some (finish s) else Some (push t s)
  end.

(** The token after a fully accepted block, and the token the next round starts from. *)
Definition bonus_step (lgs : list Logits) (n_draft : nat) (current : Z) (s : accept_state) : option (Z * accept_state) :=
  if decide (accepted s = n_draft ∧ a_done s = false ∧ length (a_tokens s) < max_tokens) then
    l ← lgs !! (length lgs - 1);
    let '(t, r) := sample_token_optimized l target_sampling (a_history s) (a_rng s) in
    let s := set_rng r s in
    Some (t, if decide (t ∈ eos) then finish s else push t s)
  else if a_done s then Some (current, s)
  else t ← last (a_tokens s); Some (t, s).

(** Step 4: cut back the rejected drafts. *)
Definition rewind (n_draft acc : nat) (mc dc : list cache) : list cache * list cache :=
  let rejected := n_draft - acc in
  if decide (0 < rejected)
  then ((trim_caches (Z.of_nat rejected) mc).2,
        (trim_caches (Z.of_nat (rejected + 1) `min` Z.of_nat n_draft) dc).2)
  else (mc, dc).

(** One round; [None] in the first component ends the loop ([num_draft = 0]). *)
Definition spec_round (current : Z) (s : SpecState) : option (option (Z * bool) * SpecState) :=
  '(drafts, dc, r) ← draft_loop num_draft current (token_history s) (draft_caches s) (rng s);
  if decide (drafts = []) then Some (None, mkSpec (main_caches s) dc (generated_tokens s) (token_history s) r)
  else
    let '(lgs, mc) := verify_pass (current :: drafts) (main_caches s) in
    a ← accept_loop 0 lgs drafts (mkAcc (generated_tokens s) (token_history s) 0 false r);
    '(current, a) ← bonus_step lgs (length drafts) current a;
    let '(mc, dc) := rewind (length drafts) (accepted a) mc dc in
    Some (Some (current, a_done a), mkSpec mc dc (a_tokens a) (a_history a) (a_rng a)).

Fixpoint decode_rounds (fuel : nat) (current : Z) (done : bool) (s : SpecState) : option SpecState :=
  if decide (length (generated_tokens s) < max_tokens ∧ done = false) then
    match fuel with
    | 0 => None
    | S fuel =>
      '(r, s) ← spec_round current s;
      match r with None => Some s | Some (current, done) => decode_rounds fuel current done s end
    end
  else Some s.

End generate.

Definition speculative_generate (align : bool) (bias : TokenBiasMap) (main draft : model) (prompt : list Z)
    (max_tokens num_draft : nat) (sampling : SamplingConfig) (r : Rng) : option SpecState :=
  let s := reset (num_layers main) (num_layers draft) r in
  if negb (can_trim_prompt_cache (main_caches s) && can_trim_prompt_cache (draft_caches s)) then None
  else if decide (prompt = []) then None
  else
    let target_sampling := compose_sampling bias sampling in
    let eos := merged_eos_token_ids (eos_token_ids main) (stop_token_ids sampling) in
    let needs_history := needs_token_history sampling in
    let s := mkSpec (main_caches s) (draft_caches s) [] (initial_token_history prompt needs_history) r in
    '(rest, s) ← prefill_chunks main draft (length prompt) prompt s;
    let '(lg, mc) := forward main rest (main_caches s) None in
    let dc := (forward draft rest (draft_caches s) None).2 in
    l ← last lg;
    let '(first, r) := sample_token_optimized l target_sampling (token_history s) (rng s) in
    if decide (first ∈ eos ∨ max_tokens = 0) then Some (mkSpec mc dc [] (token_history s) r)
    else
      let s := mkSpec mc dc [first] (if needs_history then token_history s ++ [first] else token_history s) r in
      if decide (max_tokens ≤ 1) then Some s
      else decode_rounds main draft max_tokens num_draft target_sampling sampling eos needs_history align max_tokens first false s.

(** ** Correctness *)

Section correct.
Context (main draft : model) (row : nat → list Z → K * V) (after : list Z → Logits).
Context (Hm : causal main row after) (Hfresh : make_caches main = replicate (num_layers main) new_cache).
Context (max_tokens num_draft : nat) (cfg draft_cfg : SamplingConfig) (eos prompt : list Z) (needs align : bool).
Context (Hgreedy : is_greedy cfg = true).

Abbreviation hist := (full_history needs prompt).
Abbreviation ref := (reference after cfg eos prompt hist).

Lemma trim_caches_all n caches : 0 < n → (trim_caches (Z.of_nat n) caches).2 = trim_all n caches.
Proof. intros. unfold trim_caches. by rewrite decide_False by lia. Qed.

Lemma prefill_chunks_spec fuel : ∀ rest pre s,
  length rest ≤ fuel → rest ≠ [] → holds main row (main_caches s) pre 0 →
  ∃ t s', prefill_chunks main draft fuel rest s = Some ([t], s') ∧
          holds main row (main_caches s') (pre ++ take (length rest - 1) rest) 0 ∧
          last rest = Some t ∧ token_history s' = token_history s ∧ rng s' = rng s.
Proof.
  induction fuel as [|fuel IH]; intros rest pre s Hf Hne Hc; [by destruct rest; simpl in *; [|lia]|].
  cbn [prefill_chunks]. case_decide as Hl.
  - destruct rest as [|t [|]]; [done| |simpl in Hl; lia]. exists t, s. simpl. by rewrite app_nil_r.
  - set (step := PREFILL_STEP_SIZE `min` (length rest - 1)).
    assert (0 < step < length rest) as Hs by (subst step; unfold PREFILL_STEP_SIZE; lia).
    destruct (causal_forward _ _ _ Hm pre (take step rest) (main_caches s)) as [_ H2];
      [by destruct rest, step; simpl in *; try lia|done|].
    destruct (IH (drop step rest) (pre ++ take step rest)
                (mkSpec (forward main (take step rest) (main_caches s) None).2 (forward draft (take step rest) (draft_caches s) None).2 (generated_tokens s) (token_history s) (rng s))) as (t & s' & E & Hc' & Ht & Hh);
      [rewrite length_drop; lia|intros H%(f_equal length); rewrite length_drop in H; simpl in H; lia|exact H2|].
    exists t, s'. rewrite E. split_and!; [done| | |apply Hh|apply Hh].
    2: { rewrite last_lookup, lookup_drop, length_drop in Ht. rewrite last_lookup, <-Ht. f_equal. lia. }
    rewrite length_drop, <-(assoc_L app) in Hc'.
    replace (take (length rest - 1) rest) with (take step rest ++ take (length rest - step - 1) (drop step rest)); [done|].
    rewrite take_take_drop. f_equal. lia.
Qed.

(** The verification pass scores every position and leaves the caches with all of them,
    padded or not. *)
Lemma verify_pass_spec ctx tokens caches :
  tokens ≠ [] → holds main row caches ctx 0 → 0 < num_layers main →
  (verify_pass main align tokens caches).1 = outputs after ctx tokens ∧
  holds main row (verify_pass main align tokens caches).2 (ctx ++ tokens) 0.
Proof.
  intros Ht Hc HL. unfold verify_pass.
  assert (match caches with c :: _ => kv_offset c | [] => 0%Z end = Z.of_nat (length ctx)) as ->.
  { destruct Hc as [Hl Hc]. destruct caches as [|c cs]; [simpl in Hl; lia|].
    destruct (Hc 0 c eq_refl) as (jk & jv & Hr & Hj). apply nil_length_inv in Hj as ->.
    pose proof (rep_len _ _ Hr) as Hlen. pose proof (rep_start _ _ Hr) as Hst. simpl in *.
    rewrite app_nil_r, length_fmap, length_rows in Hlen. unfold live_len in Hlen. lia. }
  rewrite Nat2Z.id. destruct (align && supports_padded_prefill main);
    [|by apply (causal_forward _ _ _ Hm)].
  case_decide as Hp; [|by apply (causal_forward _ _ _ Hm)].
  pose proof (padded_forward main row after Hm ctx tokens (align_to_na_tile (length tokens)) _ caches Ht Hc
                (align_to_na_tile_ge _) (or_intror eq_refl)) as [H1 H2].
  destruct (forward main _ _ _) as [raw cs]. by simpl in *.
Qed.

(** What is left to generate. *)
Definition remaining (gen : list Z) : list Z := ref gen (max_tokens - length gen).

(** The state of the comparison after some drafts: what it will have produced in the end
    is what the reference produces. *)
Definition total (a : accept_state) : list Z := a_tokens a ++ (if a_done a then [] else remaining (a_tokens a)).

Lemma remaining_step gen :
  length gen < max_tokens →
  remaining gen = let t := next_token after cfg prompt hist gen in if decide (t ∈ eos) then [] else t :: remaining (gen ++ [t]).
Proof.
  intros Hl. unfold remaining. rewrite length_app. simpl.
  replace (max_tokens - length gen) with (S (max_tokens - (length gen + 1))) by lia. by rewrite reference_S.
Qed.

Lemma total_push a :
  length (a_tokens a) < max_tokens → a_done a = false →
  let t := next_token after cfg prompt hist (a_tokens a) in
  total (if decide (t ∈ eos) then finish a else push needs t a) = total a.
Proof.
  intros Hl Hd t. unfold total at 2. rewrite Hd, remaining_step by done. cbn zeta. fold t.
  unfold total. case_decide; simpl; [done|]. by rewrite Hd, <-(assoc_L app).
Qed.

(** The accept loop from the [i]-th draft on, with the drafts before it accepted. *)
Lemma accept_loop_spec g lgs drafts :
  length g < max_tokens →
  (∀ i, i ≤ length drafts → lgs !! i = Some (after (prompt ++ g ++ take i drafts))) → length lgs = S (length drafts) →
  ∀ ds pre a, drafts = pre ++ ds → a_tokens a = g ++ pre → a_history a = hist (g ++ pre) → accepted a = length pre →
  a_done a = false → length (a_tokens a) < max_tokens →
  ∃ a', accept_loop max_tokens cfg eos needs (length pre) lgs ds a = Some a' ∧ total a' = total a ∧
        accepted a' ≤ length drafts ∧
        (a_done a' = false →
           a_history a' = hist (a_tokens a') ∧ length g + accepted a' ≤ length (a_tokens a') ≤ max_tokens ∧
           if decide (accepted a' = length drafts) then a_tokens a' = g ++ drafts ∧ length (a_tokens a') < max_tokens
           else ∃ t, a_tokens a' = g ++ take (accepted a') drafts ++ [t]).
Proof.
  intros Hg Hlg Hlen. induction ds as [|d ds IH]; intros pre a Hds Ht Hh Ha Hd Hl; cbn [accept_loop].
  { rewrite app_nil_r in Hds. subst pre. exists a. split_and!; [done|done|lia|]. intros _.
    rewrite decide_True, Ht, length_app by done. rewrite Ht, length_app in Hl. split_and!; try done; lia. }
  assert (length drafts = length pre + S (length ds)) as Hdl by (by rewrite Hds, length_app).
  rewrite decide_False, Hlg by lia. cbn [mbind option_bind].
  replace (take (length pre) drafts) with pre by (by rewrite Hds, take_app_length).
  pose proof (total_push a Hl Hd) as Htot. cbn zeta in Htot.
  rewrite sample_greedy by done. cbn zeta.
  replace (greedy_choice _ cfg (a_history a)) with (next_token after cfg prompt hist (a_tokens a))
    by (unfold next_token; by rewrite Ht, Hh).
  assert (set_rng (a_rng a) a = a) as Hset by (by destruct a). rewrite Hset.
  set (t := next_token after cfg prompt hist (a_tokens a)) in *.
  destruct (decide (t = d)) as [Htd|Htd].
  - rewrite <-Htd in *. clear Htd. destruct (decide (t ∈ eos)) as [He|He].
    { exists (finish (accept a)). split_and!; [done|exact Htot|simpl; lia|done]. }
    assert (total (push needs t (accept a)) = total a) as Htot' by exact Htot.
    case_decide as Hmax.
    + exists (finish (push needs t (accept a))). split_and!; [done| |simpl; lia|done].
      rewrite <-Htot'. unfold total, remaining. simpl. rewrite Hd. simpl in Hmax.
      by replace (max_tokens - _) with 0 by (simpl in *; lia).
    + destruct (IH (pre ++ [t]) (push needs t (accept a))) as (a' & E & H1 & H2 & H3); simpl; try done.
      * by rewrite <-(assoc_L app).
      * by rewrite Ht, (assoc_L app).
      * rewrite Hh. unfold full_history. destruct needs; [by rewrite !(assoc_L app)|done].
      * rewrite Ha, length_app. simpl. lia.
      * simpl in Hmax. lia.
      * rewrite length_app, Nat.add_1_r in E. exists a'. rewrite E. split_and!; [done|by rewrite H1|done|done].
  - case_decide as He.
    { exists (finish a). split_and!; [done|exact Htot|simpl; lia|done]. }
    exists (push needs t a). split_and!; [done|exact Htot|simpl; lia|]. intros _. simpl. rewrite length_app. simpl.
    rewrite decide_False by lia. split_and!.
    + rewrite Hh, Ht. unfold full_history. destruct needs; [by rewrite !(assoc_L app)|done].
    + rewrite Ht, length_app. lia.
    + lia.
    + exists t. rewrite Ht, Ha. replace (take (length pre) drafts) with pre by (by rewrite Hds, take_app_length).
      by rewrite (assoc_L app).
Qed.

Definition loop_inv (current : Z) (s : SpecState) : Prop :=
  ∃ g, generated_tokens s = g ++ [current] ∧ holds main row (main_caches s) (prompt ++ g) 0 ∧
       token_history s = hist (generated_tokens s).

Lemma draft_loop_total n : ∀ t h caches r,
  (∀ caches t, (forward draft [t] caches None).1 ≠ []) →
  ∃ ts dc r', draft_loop draft draft_cfg eos n t h caches r = Some (ts, dc, r') ∧ (0 < n → ts ≠ []) ∧ length ts ≤ n.
Proof.
  induction n as [|n IH]; intros t h caches r Hd; cbn [draft_loop]; [by exists [], caches, r; split_and!; [|lia|]|].
  specialize (Hd caches t) as Hne. destruct (forward draft [t] caches None) as [lg cs]. simpl in Hne.
  destruct (last lg) as [l|] eqn:E; [|by apply last_None in E]. cbn [mbind option_bind].
  destruct (sample_token_optimized l draft_cfg h r) as [t' r1].
  case_decide; [eexists _, _, _; split_and!; [done|done|simpl; lia]|].
  destruct (IH t' h cs r1 Hd) as (ts & dc & r2 & -> & _ & Hn).
  eexists _, _, _. split_and!; [done|done|simpl; lia].
Qed.

(** One round: it produces what the reference produces, keeps the main caches on the
    output, and makes progress. *)
Lemma spec_round_spec current s :
  (∀ caches t, (forward draft [t] caches None).1 ≠ []) →
  0 < num_draft → 0 < num_layers main → loop_inv current s → length (generated_tokens s) < max_tokens →
  ∃ current' done s',
    spec_round main draft max_tokens num_draft cfg draft_cfg eos needs align current s = Some (Some (current', done), s') ∧
    generated_tokens s' ++ (if done then [] else remaining (generated_tokens s')) =
      generated_tokens s ++ remaining (generated_tokens s) ∧
    (done = false → loop_inv current' s' ∧ length (generated_tokens s) < length (generated_tokens s')).
Proof.
  intros Hd Hn HL (g & Hg & Hc & Hh) Hlt. unfold spec_round.
  destruct (draft_loop_total num_draft current (token_history s) (draft_caches s) (rng s) Hd) as (drafts & dc & r1 & -> & Hne & _).
  specialize (Hne Hn). cbn [mbind option_bind]. rewrite decide_False by done.
  destruct (verify_pass_spec (prompt ++ g) (current :: drafts) (main_caches s)) as [H1 H2]; [done|done|done|].
  destruct (verify_pass main align (current :: drafts) (main_caches s)) as [lgs mc]. simpl in H1, H2. subst lgs.
  set (lgs := outputs after (prompt ++ g) (current :: drafts)).
  assert (Hlg : ∀ i, i ≤ length drafts → lgs !! i = Some (after (prompt ++ generated_tokens s ++ take i drafts))).
  { intros i Hi. subst lgs. rewrite lookup_outputs by (simpl; lia). do 2 f_equal. rewrite Hg, <-!(assoc_L app). done. }
  assert (Hll : length lgs = S (length drafts)) by (subst lgs; by rewrite length_outputs).
  clearbody lgs. set (a0 := mkAcc (generated_tokens s) (token_history s) 0 false r1).
  destruct (accept_loop_spec (generated_tokens s) lgs drafts Hlt Hlg Hll drafts [] a0) as (a & Ea & Htot & Hacc & Hnd);
    simpl; try done; [by rewrite app_nil_r|by rewrite app_nil_r|].
  simpl in Ea. rewrite Ea. cbn [mbind option_bind]. unfold bonus_step.
  assert (Hmain : holds main row (rewind (length drafts) (accepted a) mc dc).1
                    (prompt ++ generated_tokens s ++ take (accepted a) drafts) 0).
  { unfold rewind. destruct (decide (0 < length drafts - accepted a)) as [Hr|Hr]; simpl.
    - rewrite trim_caches_all by lia.
      assert (length drafts - accepted a ≤ length ((prompt ++ g) ++ current :: drafts)) as Hle
        by (rewrite length_app; simpl; lia).
      pose proof (trim_holds _ _ _ _ _ Hle H2) as H3.
      rewrite take_app_ge in H3 by (rewrite !length_app; simpl; lia).
      rewrite length_app in H3. simpl in H3. replace (_ - _ - _) with (S (accepted a)) in H3 by lia. simpl in H3.
      by rewrite Hg, <-!(assoc_L app); rewrite <-(assoc_L app) in H3.
    - rewrite take_ge by lia. rewrite Hg, <-!(assoc_L app). by rewrite <-(assoc_L app) in H2. }
  unfold total in Htot. simpl in Htot.
  destruct (a_done a) eqn:Ed.
  { rewrite decide_False by naive_solver. cbn [mbind option_bind].
    destruct (rewind (length drafts) (accepted a) mc dc) as [mc' dc']. eexists _, _, _. split; [done|]. simpl.
    by rewrite Ed. }
  destruct (Hnd eq_refl) as (Hha & [Hl1 Hl2] & Hcase). case_decide as Hfull.
  - rewrite Hfull in *. destruct Hcase as [Hta Hlm]. rewrite decide_True by done.
    rewrite Hll. simpl. rewrite Nat.sub_0_r, Hlg by lia. cbn [mbind option_bind].
    rewrite take_ge in Hmain |- * by lia. rewrite <-Hta, Hha.
    rewrite sample_greedy by done. cbn zeta.
    fold (next_token after cfg prompt hist (a_tokens a)).
    assert (set_rng (a_rng a) a = a) as Hset by (by destruct a). rewrite Hset.
    set (t := next_token after cfg prompt hist (a_tokens a)).
    pose proof (total_push a Hlm Ed) as Htp. cbn zeta in Htp. fold t in Htp. unfold total in Htp. rewrite Ed in Htp.
    destruct (decide (t ∈ eos)).
    + simpl. rewrite Hfull. destruct (rewind _ _ mc dc) as [mc' dc']. eexists _, _, _. split; [done|]. simpl in *.
      split; [|done]. by rewrite Htp, Htot.
    + simpl. rewrite Hfull. destruct (rewind _ _ mc dc) as [mc' dc']. eexists _, _, _. split; [done|]. simpl in *.
      rewrite Ed in *. split; [by rewrite Htp, Htot|]. intros _. split.
      * exists (a_tokens a). simpl. split_and!; [done|by rewrite Hta|].
        rewrite Hha. unfold full_history. by destruct needs; rewrite ?(assoc_L app).
      * rewrite length_app. simpl. lia.
  - rewrite decide_False by naive_solver. destruct Hcase as [t Hta].
    rewrite Hta, (assoc_L app), last_snoc. cbn [mbind option_bind].
    destruct (rewind (length drafts) (accepted a) mc dc) as [mc' dc']. eexists _, _, _. split; [done|]. simpl in *.
    rewrite Ed. split; [done|]. intros _. split.
    + exists (generated_tokens s ++ take (accepted a) drafts). simpl. rewrite Hta. split_and!; [by rewrite (assoc_L app)|done|].
      by rewrite Hha, Hta.
    + rewrite Hta, !length_app. simpl. lia.
Qed.

Lemma decode_rounds_spec fuel : ∀ current done s,
  (∀ caches t, (forward draft [t] caches None).1 ≠ []) →
  0 < num_draft → 0 < num_layers main →
  (done = false → loop_inv current s ∧ max_tokens - length (generated_tokens s) ≤ fuel) →
  ∃ s', decode_rounds main draft max_tokens num_draft cfg draft_cfg eos needs align fuel current done s = Some s' ∧
        generated_tokens s' = generated_tokens s ++ (if done then [] else remaining (generated_tokens s)).
Proof.
  induction fuel as [|fuel IH]; intros current done s Hd Hn HL Hinv; cbn [decode_rounds].
  - rewrite decide_False by (intros [? ->]; destruct Hinv; [done|lia]). exists s. split; [done|].
    destruct done; [by rewrite app_nil_r|]. destruct Hinv; [done|]. unfold remaining.
    replace (_ - _) with 0 by lia. simpl. by rewrite app_nil_r.
  - case_decide as Hc.
    + destruct Hc as [Hl ->]. destruct Hinv as [Hi Hf]; [done|].
      destruct (spec_round_spec current s Hd Hn HL Hi Hl) as (c' & done & s' & -> & Htot & Hnext).
      cbn [mbind option_bind].
      destruct (IH c' done s' Hd Hn HL) as (s2 & -> & Hs2).
      { intros ->. destruct Hnext as [? ?]; [done|]. split; [done|]. lia. }
      exists s2. split; [done|]. by rewrite Hs2.
    + exists s. split; [done|]. destruct done; [by rewrite app_nil_r|]. unfold remaining.
      replace (_ - _) with 0 by (destruct (decide (length (generated_tokens s) < max_tokens)); [naive_solver|lia]).
      simpl. by rewrite app_nil_r.
Qed.

End correct.

(** The output is the reference's, for any draft model. *)
Lemma speculative_is_reference (main draft : model) row after align bias prompt max_tokens num_draft sampling r :
  is_greedy sampling = true → causal main row after → make_caches main = replicate (num_layers main) new_cache → 0 < num_layers main →
  (∀ caches t, (forward draft [t] caches None).1 ≠ []) →
  prompt ≠ [] → 0 < num_draft →
  let needs := needs_token_history sampling in
  ∃ s, speculative_generate align bias main draft prompt max_tokens num_draft sampling r = Some s ∧
       generated_tokens s =
         reference after (compose_sampling bias sampling) (merged_eos_token_ids (eos_token_ids main) (stop_token_ids sampling))
           prompt (full_history needs prompt) [] max_tokens.
Proof.
  intros Hg0 Hm Hfresh HL Hd Hp Hn needs. unfold speculative_generate.
  assert (∀ n, can_trim_prompt_cache (replicate n (@new_cache K V)) = true) as Htr
    by (induction n; simpl; done).
  unfold reset. cbn [main_caches draft_caches]. rewrite !Htr. cbn [negb andb]. rewrite decide_False by done.
  fold needs. set (eos := merged_eos_token_ids _ _). set (cfg := compose_sampling bias sampling).
  assert (is_greedy cfg = true) as Hg by (unfold cfg; by rewrite compose_greedy).
  set (s0 := mkSpec _ _ [] _ _).
  destruct (prefill_chunks_spec main draft row after Hm (length prompt) prompt [] s0) as (t & s & -> & Hc & Hlast & Hh & _);
    [done|done|subst s0; simpl; rewrite <-Hfresh; apply (causal_new _ _ _ Hm)|]. simpl in Hc, Hh.
  assert (take (length prompt - 1) prompt ++ [t] = prompt) as Hpt.
  { apply last_Some in Hlast as [l ->]. by rewrite length_app, Nat.add_sub, take_app_length. }
  cbn [mbind option_bind].
  destruct (causal_forward _ _ _ Hm (take (length prompt - 1) prompt) [t] (main_caches s)) as [H1 H2]; [done|done|].
  rewrite Hpt in H2. destruct (forward main [t] (main_caches s) None) as [lg mc]. simpl in H1, H2. subst lg.
  rewrite last_outputs by done. rewrite Hpt. cbn [mbind option_bind]. rewrite Hh.
  rewrite sample_greedy by done. cbn zeta.
  replace (greedy_choice (after prompt) cfg (initial_token_history prompt needs))
    with (next_token after cfg prompt (full_history needs prompt) [])
    by (unfold next_token, full_history, initial_token_history; by rewrite !app_nil_r).
  set (first := next_token after cfg prompt (full_history needs prompt) []).
  destruct max_tokens as [|mx]; [rewrite decide_True by auto; eauto|].
  rewrite reference_S. fold first. destruct (decide (first ∈ eos ∨ S mx = 0)) as [He|He].
  { destruct He as [He|]; [|done]. eexists. split; [done|]. by rewrite decide_True. }
  rewrite (decide_False (P := first ∈ eos)) by naive_solver. destruct (decide (S mx ≤ 1)) as [H1'|H1'].
  { eexists. split; [done|]. simpl. destruct mx; [done|lia]. }
  destruct (decode_rounds_spec main draft row after Hm (S mx) num_draft cfg sampling eos prompt needs align Hg (S mx) first false
              (mkSpec mc (forward draft [t] (draft_caches s) None).2 [first]
                 (if needs then initial_token_history prompt needs ++ [first] else initial_token_history prompt needs) (rng s)))
    as (s' & -> & Hs'); [done|done|done| |].
  { intros _. split; [|simpl; lia]. exists []. simpl. split_and!; [done|by rewrite app_nil_r|].
    unfold full_history, initial_token_history. by destruct needs. }
  exists s'. split; [done|]. rewrite Hs'. simpl. unfold remaining. simpl. by rewrite Nat.sub_0_r.
Qed.

(** ** The draft model's context *)

Section lag.
Context (main draft : model) (row drow : nat → list Z → K * V) (after dafter : list Z → Logits).
Context (Hm : causal main row after) (Hd : causal draft drow dafter).

(** The draft caches receive the current token and the drafts but the last. *)
Lemma draft_loop_context cfg eos n : ∀ t h caches r ctx ts dc r',
  holds draft drow caches ctx 0 → draft_loop draft cfg eos n t h caches r = Some (ts, dc, r') →
  ∃ fed, length fed = length ts ∧ holds draft drow dc (ctx ++ fed) 0.
Proof.
  induction n as [|n IH]; intros t h caches r ctx ts dc r' Hc; cbn [draft_loop]; [intros [= <- <- <-]; exists []; by rewrite app_nil_r|].
  destruct (causal_forward _ _ _ Hd ctx [t] caches) as [H1 H2]; [done|done|].
  destruct (forward draft [t] caches None) as [lg cs]. simpl in H1, H2. subst lg. rewrite last_outputs by done.
  cbn [mbind option_bind]. destruct (sample_token_optimized _ cfg h r) as [t' r1].
  case_decide; [intros [= <- <- <-]; by exists [t]|].
  destruct (draft_loop _ _ _ n _ h cs _) as [[[ts' dc'] r2]|] eqn:E; cbn [mbind option_bind]; intros [= <- <- <-].
  destruct (IH _ _ _ _ _ _ _ _ H2 E) as (fed & Hf & Hc'). exists (t :: fed). simpl. rewrite Hf.
  by rewrite <-(assoc_L app) in Hc'.
Qed.

Lemma accept_loop_accepted max cfg eos needs lgs ds : ∀ i a a',
  accept_loop max cfg eos needs i lgs ds a = Some a' → accepted a ≤ accepted a' ≤ accepted a + length ds.
Proof.
  induction ds as [|d ds IH]; intros i a a'; cbn [accept_loop]; [intros [= <-]; simpl; lia|].
  case_decide; [intros [= <-]; simpl; lia|]. destruct (lgs !! i) as [l|]; cbn [mbind option_bind]; [|done].
  destruct (sample_token_optimized _ cfg _ _) as [t r].
  case_decide; [|case_decide; intros [= <-]; simpl; lia].
  case_decide; [intros [= <-]; simpl; lia|]. case_decide; [intros [= <-]; simpl; lia|].
  intros E%IH. simpl in *. lia.
Qed.

Lemma bonus_step_accepted max cfg eos needs lgs n current a r :
  bonus_step max cfg eos needs lgs n current a = Some r → accepted r.2 = accepted a.
Proof.
  unfold bonus_step. case_decide.
  - destruct (lgs !! _); cbn [mbind option_bind]; [|done]. destruct (sample_token_optimized _ cfg _ _) as [t r0].
    intros [= <-]. simpl. by case_decide.
  - case_match; [by intros [= <-]|]. destruct (last _); cbn [mbind option_bind]; [|done]. by intros [= <-].
Qed.

Lemma rewind_context n acc mc dc mctx dctx :
  acc ≤ n → holds main row mc mctx 0 → holds draft drow dc dctx 0 → n < length mctx → n ≤ length dctx →
  ∃ mctx' dctx',
    holds main row (rewind n acc mc dc).1 mctx' 0 ∧ holds draft drow (rewind n acc mc dc).2 dctx' 0 ∧
    mctx' = take (length mctx - (n - acc)) mctx ∧
    length dctx' = length dctx - (if decide (acc = n) then 0 else (n - acc + 1) `min` n).
Proof.
  intros Ha Hmc Hdc Hml Hdl. unfold rewind. destruct (decide (0 < n - acc)) as [Hr|Hr]; cbn [fst snd].
  - rewrite decide_False by lia. rewrite <-Nat2Z.inj_min, !trim_caches_all by lia.
    exists (take (length mctx - (n - acc)) mctx), (take (length dctx - (n - acc + 1) `min` n) dctx).
    split_and!; [by apply trim_holds; [lia|]|by apply trim_holds; [lia|]|done|].
    rewrite length_take. lia.
  - rewrite decide_True by lia. exists mctx, dctx. split_and!; [done|done| |lia].
    by rewrite take_ge by lia.
Qed.

(** Every round leaves the draft model at least one token further behind. *)
Lemma round_lag max num_draft cfg draft_cfg eos needs align current s r s' mctx dctx :
  0 < num_layers main → holds main row (main_caches s) mctx 0 → holds draft drow (draft_caches s) dctx 0 →
  spec_round main draft max num_draft cfg draft_cfg eos needs align current s = Some (Some r, s') →
  ∃ mctx' dctx', holds main row (main_caches s') mctx' 0 ∧ holds draft drow (draft_caches s') dctx' 0 ∧
    mctx ++ [current] `prefix_of` mctx' ∧ length dctx' + length mctx + 1 ≤ length mctx' + length dctx.
Proof.
  intros HL Hmc Hdc. unfold spec_round.
  destruct (draft_loop _ _ _ _ _ _ _ _) as [[[drafts dc] r1]|] eqn:Ed; cbn [mbind option_bind]; [|done].
  destruct (draft_loop_context _ _ _ _ _ _ _ _ _ _ _ Hdc Ed) as (fed & Hf & Hdc').
  case_decide as Hne; [done|].
  destruct (verify_pass_spec main row after Hm align mctx (current :: drafts) (main_caches s)) as [_ H2]; [done|done|done|].
  destruct (verify_pass main align (current :: drafts) (main_caches s)) as [lgs mc]. simpl in H2.
  destruct (accept_loop _ _ _ _ _ _ _ _) as [a|] eqn:Ea; cbn [mbind option_bind]; [|done].
  apply accept_loop_accepted in Ea. simpl in Ea.
  destruct (bonus_step _ _ _ _ _ _ _ a) as [[c' a']|] eqn:Eb; cbn [mbind option_bind]; [|done].
  apply bonus_step_accepted in Eb. simpl in Eb.
  destruct (rewind_context (length drafts) (accepted a') mc dc _ _ ltac:(lia) H2 Hdc') as (mctx' & dctx' & R1 & R2 & R3 & R4);
    [rewrite length_app; simpl; lia|rewrite length_app; lia|].
  destruct (rewind _ _ mc dc) as [mc' dc']. intros [= <- <-]. exists mctx', dctx'.
  split; [done|]. split; [done|]. subst mctx'. rewrite length_take, R4, !length_app. simpl. split.
  - rewrite take_app_ge by lia. replace (_ - _ - _) with (S (accepted a')) by lia. simpl.
    apply prefix_app. by apply prefix_cons, prefix_nil.
  - assert (0 < length drafts) by (destruct drafts; simpl; [done|lia]). case_decide; lia.
Qed.

End lag.
End spec.

Arguments SpecState _ _ _ {_}.

(** C14. Greedy speculative decoding loses nothing.  For a configuration that never draws
    (temperature zero or [top_k = 1]), whatever the draft model proposes, however many drafts
    (at least one) a round has and whether or not the verification is padded to hardware
    tiles, [SpeculativeGenerator::generate] terminates and returns the tokens that
    one-at-a-time greedy decoding of the main model chooses, penalties included; without
    penalties it returns exactly what [CxxGenerator::generate] returns, from any states of
    the random generator.  The main model is [causal], with a layer and fresh half-precision
    caches, the draft model returns logits, the prompt is not empty. *)
Theorem speculative_lossless {K V Logits} `{!LogitOps Logits, !LogitLaws Logits}
    (main draft : LanguageModel K V Logits) row after align bias prompt max_tokens num_draft sampling r :
  is_greedy sampling = true →
  causal main row after → make_caches main = replicate (num_layers main) new_cache → 0 < num_layers main →
  (∀ caches t, (forward draft [t] caches None).1 ≠ []) →
  prompt ≠ [] → 0 < num_draft →
  ∃ s, speculative_generate align bias main draft prompt max_tokens num_draft sampling r = Some s ∧
       generated_tokens s =
         reference after (compose_sampling bias sampling) (merged_eos_token_ids (eos_token_ids main) (stop_token_ids sampling))
           prompt (full_history (needs_token_history sampling) prompt) [] max_tokens ∧
       length (generated_tokens s) ≤ max_tokens ∧
       (needs_token_history sampling = false → ∀ align' force_mask r',
          fst <$> generate align' force_mask bias main prompt max_tokens sampling r' = Some (generated_tokens s)).
Proof.
  intros Hg Hm Hf HL Hd Hp Hn.
  destruct (speculative_is_reference main draft row after align bias prompt max_tokens num_draft sampling r Hg Hm Hf HL Hd Hp Hn)
    as (s & E & Hs). exists s. split; [done|]. split; [done|]. split; [rewrite Hs; apply length_reference|].
  intros Hnh align' force_mask r'. rewrite (generate_reference main row after _ Hm) by done. cbn [fmap option_fmap option_map fst].
  rewrite Hs, compose_history, compose_stop, Hnh. done.
Qed.

(** A main model that adds 3 modulo 11, a draft model that adds 3 only to small tokens. *)
Definition next_by_three (ctx : list Z) : Z := ((default 0 (last ctx) + 3) mod 11)%Z.
Definition next_or_zero (ctx : list Z) : Z := (if decide (default 0 (last ctx) < 6) then default 0 (last ctx) + 3 else 0)%Z.

Lemma speculative_lossless_witness :
  ∃ s, speculative_generate true bias_empty (token_model next_by_three [10%Z] true) (token_model next_or_zero [10%Z] true)
         [1; 2]%Z 8 4 greedy (draws 5) = Some s ∧ generated_tokens s = [5; 8; 0; 3; 6; 9; 1; 4]%Z.
Proof.
  destruct (speculative_lossless (token_model next_by_three [10%Z] true) (token_model next_or_zero [10%Z] true)
              token_row next_by_three true bias_empty [1; 2]%Z 8 4 greedy (draws 5)) as (s & E & Hs & _).
  - reflexivity.
  - apply token_model_causal.
  - reflexivity.
  - simpl. lia.
  - by intros [|c cs] t.
  - done.
  - lia.
  - exists s. split; [exact E|]. rewrite Hs. vm_compute. reflexivity.
Defined.

(** With draws the draft model matters: from the same state of the generator, two draft
    models give different outputs, neither of them what plain decoding draws. *)
Definition drawing : SamplingConfig :=
  mkSampling f32_one 0 f32_one f32_zero None f32_one f32_zero f32_one 2 0 [] f32_zero f32_zero [] bias_empty.

Example draws_depend_on_draft :
  let run draft num_draft :=
    generated_tokens <$> speculative_generate false bias_empty (token_model next_by_three [] false) (token_model draft [] false)
      [1; 2]%Z 4 num_draft drawing (draws 0) in
  is_greedy drawing = false ∧
  run next_by_three 2 ≠ run (λ _, 10%Z) 2 ∧
  run next_by_three 2 ≠ (fst <$> generate false false bias_empty (token_model next_by_three [] false) [1; 2]%Z 4 drawing (draws 0)).
Proof. vm_compute. split_and!; (done || intros [=]). Qed.

(** The draft model loses the context.  In every round of
    [SpeculativeGenerator::generate] the main model's caches come to hold the token the
    round started from and the accepted drafts, while the draft model's caches fall behind
    them by at least one more token: the last draft of a fully accepted block is never
    fed to it, and after a rejection two tokens too many are cut off (one when no draft was
    accepted). *)
Theorem draft_context_lags {K V Logits} `{!LogitOps Logits}
    (main draft : LanguageModel K V Logits) row drow after dafter max_tokens num_draft sampling draft_sampling eos needs align
    current s r s' mctx dctx :
  causal main row after → causal draft drow dafter → 0 < num_layers main →
  holds main row (main_caches s) mctx 0 → holds draft drow (draft_caches s) dctx 0 →
  spec_round main draft max_tokens num_draft sampling draft_sampling eos needs align current s = Some (Some r, s') →
  ∃ mctx' dctx', holds main row (main_caches s') mctx' 0 ∧ holds draft drow (draft_caches s') dctx' 0 ∧
    mctx ++ [current] `prefix_of` mctx' ∧ length dctx' + length mctx + 1 ≤ length mctx' + length dctx.
Proof. intros Hm Hd HL Hmc Hdc E. by eapply (round_lag main draft row drow after dafter). Qed.

(** A first round, with empty caches. *)
Definition lag_state : SpecState Z Z Z := mkSpec [new_cache] [new_cache] [5%Z] [] (draws 0).
Definition lag_round (s : SpecState Z Z Z) (current : Z) : option (option (Z * bool) * SpecState Z Z Z) :=
  spec_round (token_model next_by_three [] false) (token_model next_or_zero [] false) 20 2 greedy greedy [] false false current s.

Lemma draft_context_lags_witness :
  ∃ r s' mctx' dctx', lag_round lag_state 5 = Some (Some r, s') ∧
    holds (token_model next_by_three [] false) token_row (main_caches s') mctx' 0 ∧
    holds (token_model next_or_zero [] false) token_row (draft_caches s') dctx' 0 ∧
    [5%Z] `prefix_of` mctx' ∧ length dctx' < length mctx'.
Proof.
  destruct (lag_round lag_state 5) as [[[r|] s']|] eqn:E; [|vm_compute in E; discriminate E..].
  destruct (draft_context_lags _ _ token_row token_row next_by_three next_or_zero 20 2 greedy greedy [] false false 5%Z lag_state r s' [] []
              (token_model_causal _ _ _) (token_model_causal _ _ _) (le_n 1)
              (causal_new _ _ _ (token_model_causal next_by_three [] false))
              (causal_new _ _ _ (token_model_causal next_or_zero [] false)) E) as (mctx' & dctx' & H1 & H2 & H3 & H4).
  exists r, s', mctx', dctx'. split; [reflexivity|]. split; [exact H1|]. split; [exact H2|]. split; [exact H3|].
  simpl in H4. lia.
Defined.

(** Even with the main model as its own draft model: after a fully accepted block the
    draft caches lack the last draft. *)
Lemma drafts_of_agreeing_model :
  (λ s, ((λ c, fst <$> visible_state c) <$> main_caches s, (λ c, fst <$> visible_state c) <$> draft_caches s)) <$>
    ('(r, s) ← spec_round (token_model next_by_three [] false) (token_model next_by_three [] false) 20 2 greedy greedy []
                 false false 5 lag_state; Some s) =
  Some ([Some [5; 8; 0]%Z], [Some [5; 8]%Z]).
Proof. vm_compute. reflexivity. Qed.
