(* ===== verification/SpecWalk.v ===== *)
(** * The speculative walk and the block-size controller

    [core/speculative/mtp/walk.rs] and its twins in [core/drafter/dflash/round_loop.rs] and
    [round_loop_batched.rs]; [core/speculative/mtp/adaptive.rs].  [None] is an index out of
    range.

    The walk compares drafts with the target's choices: it accepts their common prefix and
    emits one more token.  What it emits is a prefix of the target's choices
    ([speculative_walk_spec]), which is why drafts never change the output.  [chain] and
    [greedy_tokens] are what the round loops are proved against. *)

From Stdlib Require Import QArith.
From S2P Require Import Prelude.
Open Scope nat_scope.

(** [(0..n_draft).find(|&i| d[i] != t[i]).unwrap_or(n_draft)]. *)
Fixpoint first_mismatch (d t : list Z) : option nat :=
  match d with
  | [] => Some 0
  | x :: d => match t with
              | [] => None
              | y :: t => if decide (x = y) then S <$> first_mismatch d t else Some 0
              end
  end.

Record WalkResult := mkWalk { accepted : nat; new_tokens : list Z }.

Definition speculative_walk (draft target : list Z) (budget : nat) : option WalkResult :=
  acc ← first_mismatch draft target;
  let emit_len := (acc + 1) `min` budget in
  let new := take (acc `min` emit_len) draft in
  if decide (length new < emit_len) then b ← target !! acc; Some (mkWalk acc (new ++ [b])) else Some (mkWalk acc new).

(** Row by row; the target and budget vectors are indexed by the rows of the drafts. *)
Fixpoint speculative_walk_batched (draft target : list (list Z)) (budgets : list nat) : option (list nat * list (list Z)) :=
  match draft with
  | [] => Some ([], [])
  | d :: draft =>
    match target, budgets with
    | t :: target, b :: budgets =>
      w ← speculative_walk d t b;
      '(accs, news) ← speculative_walk_batched draft target budgets;
      Some (accepted w :: accs, new_tokens w :: news)
    | _, _ => None
    end
  end.

(** The DFlash walk: a loop up to the shorter of the two, and a bonus only if there is
    one. *)
Fixpoint matching (d t : list Z) : nat :=
  match d, t with x :: d, y :: t => if decide (x = y) then S (matching d t) else 0 | _, _ => 0 end.

Definition dflash_walk (draft target : list Z) (budget : nat) : nat * list Z :=
  let acc := matching draft target in
  let bonus_idx := acc `min` (length target - 1) in
  let new := take acc draft ++ (match target !! bonus_idx with Some b => [b] | None => [] end) in
  (acc, take budget new).

Fixpoint dflash_walk_batched (draft target : list (list Z)) (budgets : list nat) : option (list nat * list (list Z)) :=
  match draft with
  | [] => Some ([], [])
  | d :: draft =>
    match target, budgets with
    | t :: target, b :: budgets =>
      let '(acc, new) := dflash_walk d t b in
      '(accs, news) ← dflash_walk_batched draft target budgets;
      Some (acc :: accs, new :: news)
    | _, _ => None
    end
  end.

(** ** The walk against the target's choices *)

Lemma matching_le d t : matching d t ≤ length d ∧ matching d t ≤ length t.
Proof. revert t. induction d as [|x d IH]; intros [|y t]; simpl; [lia..|]. case_decide; [|lia]. specialize (IH t). lia. Qed.

Lemma matching_take d t : take (matching d t) d = take (matching d t) t.
Proof. revert t. induction d as [|x d IH]; intros [|y t]; simpl; [done..|]. case_decide; [|done]. subst. simpl. by rewrite IH. Qed.

Lemma first_mismatch_matching d t : length d ≤ length t → first_mismatch d t = Some (matching d t).
Proof.
  revert t. induction d as [|x d IH]; intros [|y t] Hl; simpl in *; [done..|lia|].
  case_decide; [|done]. by rewrite IH by lia.
Qed.

(** The drafts differ from the target's choices where the walk stops. *)
Lemma matching_stop d t x y : d !! matching d t = Some x → t !! matching d t = Some y → x ≠ y.
Proof.
  revert t. induction d as [|a d IH]; intros [|b t]; simpl; try done. case_decide as Hab; simpl; [apply IH|].
  intros [= <-] [= <-]. done.
Qed.

(** It accepts the common prefix and emits the target's choices up to and including the
    first that was not drafted, within the budget. *)
Lemma speculative_walk_spec d t budget :
  length t = S (length d) →
  speculative_walk d t budget = Some (mkWalk (matching d t) (take budget (take (S (matching d t)) t))).
Proof.
  intros Hl. unfold speculative_walk. rewrite first_mismatch_matching by lia. cbn [mbind option_bind].
  pose proof (matching_le d t) as [Hd _].
  destruct (lookup_lt_is_Some_2 t (matching d t)) as [b Hb]; [lia|].
  rewrite (take_S_r _ _ _ Hb), <-matching_take, length_take. case_decide as Hc.
  - rewrite Hb. cbn [mbind option_bind]. do 2 f_equal.
    assert (matching d t < budget) by lia. rewrite Nat.min_l by lia.
    rewrite (take_ge (_ ++ _)); [done|]. rewrite length_app, length_take. simpl. lia.
  - assert (budget ≤ matching d t) by lia. do 2 f_equal.
    rewrite take_app_le by (rewrite length_take; lia). rewrite take_take. f_equal. lia.
Qed.

Lemma dflash_walk_spec d t budget :
  length t = S (length d) →
  dflash_walk d t budget = (matching d t, take budget (take (S (matching d t)) t)).
Proof.
  intros Hl. unfold dflash_walk. pose proof (matching_le d t) as [Hd _].
  rewrite Nat.min_l by lia. destruct (lookup_lt_is_Some_2 t (matching d t)) as [b Hb]; [lia|].
  by rewrite Hb, (take_S_r _ _ _ Hb), <-matching_take.
Qed.

(** The batched walks are the row walks. *)
Definition row_walks (draft target : list (list Z)) (budgets : list nat) : list WalkResult :=
  zip_with (λ '(d, t) b, mkWalk (matching d t) (take b (take (S (matching d t)) t))) (zip draft target) budgets.

Lemma speculative_walk_batched_spec draft target budgets :
  Forall2 (λ d t, length t = S (length d)) draft target → length budgets = length draft →
  speculative_walk_batched draft target budgets =
    Some (accepted <$> row_walks draft target budgets, new_tokens <$> row_walks draft target budgets).
Proof.
  intros HF. revert budgets. induction HF as [|d t draft target Hl _ IH]; intros [|b budgets] Hb; try done.
  simpl in *. rewrite speculative_walk_spec by done. cbn [mbind option_bind]. by rewrite IH by lia.
Qed.

Lemma dflash_walk_batched_spec draft target budgets :
  Forall2 (λ d t, length t = S (length d)) draft target → length budgets = length draft →
  dflash_walk_batched draft target budgets =
    Some (accepted <$> row_walks draft target budgets, new_tokens <$> row_walks draft target budgets).
Proof.
  intros HF. revert budgets. induction HF as [|d t draft target Hl _ IH]; intros [|b budgets] Hb; try done.
  cbn [dflash_walk_batched length] in *. rewrite dflash_walk_spec by done. by rewrite IH by lia.
Qed.

(** A target row that is not longer than the drafts is an index out of range, where the
    comment of [speculative_walk] promises a safe accept count; the DFlash walk has one. *)
Lemma short_target_panics : speculative_walk [1; 2]%Z [1]%Z 4 = None ∧ dflash_walk [1; 2]%Z [1]%Z 4 = (1, [1; 1]%Z).
Proof. done. Qed.

(** ** Greedy continuations *)

Section greedy.
Context (tok : list Z → Z) (eos : list Z).

(** At most [n] tokens after [ctx], ending with a stop token if there is one. *)
Fixpoint greedy_tokens (ctx : list Z) (n : nat) : list Z :=
  match n with
  | 0 => []
  | S n => tok ctx :: if decide (tok ctx ∈ eos) then [] else greedy_tokens (ctx ++ [tok ctx]) n
  end.

(** Every token of [w] is the choice after the ones before it. *)
Definition chain (ctx w : list Z) : Prop := ∀ i, i < length w → w !! i = Some (tok (ctx ++ take i w)).

(** Up to and including the first stop token. *)
Fixpoint through_eos (w : list Z) : list Z :=
  match w with [] => [] | t :: w => t :: if decide (t ∈ eos) then [] else through_eos w end.

Definition has_eos (w : list Z) : bool := existsb (λ t, bool_decide (t ∈ eos)) w.

Lemma chain_cons ctx t w : chain ctx (t :: w) ↔ t = tok ctx ∧ chain (ctx ++ [t]) w.
Proof.
  split.
  - intros H. split.
    + specialize (H 0 ltac:(simpl; lia)). simpl in H. rewrite app_nil_r in H. congruence.
    + intros i Hi. specialize (H (S i) ltac:(simpl; lia)). simpl in H. by rewrite H, <-(assoc_L app).
  - intros [-> H] [|i] Hi; simpl in *; [by rewrite app_nil_r|]. rewrite H by lia. by rewrite <-(assoc_L app).
Qed.

(** A chain is what greedy decoding produces. *)
Lemma greedy_chain w : ∀ ctx n,
  chain ctx w → length w ≤ n →
  greedy_tokens ctx n = through_eos w ++ (if has_eos w then [] else greedy_tokens (ctx ++ w) (n - length w)).
Proof.
  induction w as [|t w IH]; intros ctx n Hc Hn; simpl; [by rewrite app_nil_r, Nat.sub_0_r|].
  apply chain_cons in Hc as [-> Hc]. destruct n as [|n]; [simpl in Hn; lia|]. simpl.
  case_decide as He.
  - by rewrite bool_decide_eq_true_2 by done.
  - rewrite bool_decide_eq_false_2 by done. simpl. f_equal.
    rewrite (IH _ _ Hc) by (simpl in Hn; lia). by rewrite <-(assoc_L app).
Qed.

Lemma chain_take ctx w k : chain ctx w → chain ctx (take k w).
Proof.
  intros H i Hi. rewrite length_take in Hi. rewrite lookup_take_lt by lia. rewrite H by lia.
  by rewrite take_take, Nat.min_l by lia.
Qed.

(** What the target chooses along the drafts is a chain as far as the drafts are right,
    and one token further. *)
Lemma verify_chain ctx drafts target :
  (∀ i, i ≤ length drafts → target !! i = Some (tok (ctx ++ take i drafts))) → length target = S (length drafts) →
  chain ctx (take (S (matching drafts target)) target).
Proof.
  intros Ht Hl i Hi. pose proof (matching_le drafts target) as [Hd _].
  rewrite length_take in Hi. rewrite lookup_take_lt by lia. rewrite Ht by lia. do 3 f_equal.
  rewrite take_take, Nat.min_l by lia.
  pose proof (f_equal (take i) (matching_take drafts target)) as Hm. by rewrite !take_take, Nat.min_l in Hm by lia.
Qed.

Lemma length_greedy ctx n : length (greedy_tokens ctx n) ≤ n.
Proof. revert ctx. induction n as [|n IH]; intros ctx; simpl; [lia|]. case_decide; simpl; [lia|]. specialize (IH (ctx ++ [tok ctx])). lia. Qed.

Lemma through_eos_none w : has_eos w = false → through_eos w = w.
Proof.
  induction w as [|t w IH]; simpl; [done|]. case_decide as He.
  - by rewrite bool_decide_eq_true_2 by done.
  - rewrite bool_decide_eq_false_2 by done. simpl. intros ?. by rewrite IH.
Qed.

Lemma length_through_eos w : length (through_eos w) ≤ length w.
Proof. induction w as [|t w IH]; simpl; [lia|]. case_decide; simpl; lia. Qed.

Lemma through_eos_prefix w : through_eos w `prefix_of` w.
Proof. induction w as [|t w IH]; simpl; [done|]. case_decide; apply prefix_cons; [apply prefix_nil|done]. Qed.

End greedy.

(** ** The block-size controller *)

Definition MIN_HISTORY_FOR_EXPANSION : nat := 8.
Definition RECENT_HISTORY : nat := 32.

(** [accept_lens] are averages over the rows of a round: exact rationals here, and the
    hit rate [hits / len < 0.65] is compared by cross-multiplication, which agrees with the
    rounded quotients for windows of at most 32 rounds. *)
Definition effective_mtp_block_size (requested configured : nat) (accept_lens : list Q) (remaining : nat) : nat :=
  let block_total := requested `min` remaining in
  let configured := configured `min` block_total in
  if decide (block_total ≤ configured ∨ configured ≤ 1) then block_total
  else if decide (length accept_lens < MIN_HISTORY_FOR_EXPANSION) then configured
  else
    let recent := drop (length accept_lens - RECENT_HISTORY) accept_lens in
    let hits := length (filter (λ a, Qle_bool (inject_Z (Z.of_nat (configured - 1))) a = true) recent) in
    if decide (hits * 20 < 13 * length recent) then configured else block_total.

Lemma block_size_bounds requested configured accept_lens remaining :
  2 ≤ requested → 2 ≤ configured → 2 ≤ remaining →
  2 ≤ effective_mtp_block_size requested configured accept_lens remaining ≤ requested `min` remaining.
Proof. intros. unfold effective_mtp_block_size. repeat case_decide; lia. Qed.

(** It expands past the configured depth only on the evidence of the recent rounds. *)
Lemma block_size_expands requested configured accept_lens remaining :
  configured < effective_mtp_block_size requested configured accept_lens remaining → 2 ≤ configured →
  8 ≤ length accept_lens ∧
  let recent := drop (length accept_lens - 32) accept_lens in
  13 * length recent ≤
    20 * length (filter (λ a, Qle_bool (inject_Z (Z.of_nat (configured - 1))) a = true) recent).
Proof.
  intros He Hc. unfold effective_mtp_block_size, MIN_HISTORY_FOR_EXPANSION, RECENT_HISTORY in *.
  case_decide as H1; [lia|].
  assert (configured `min` (requested `min` remaining) = configured) as Hcf.
  { destruct (decide (configured ≤ requested `min` remaining)); [lia|]. exfalso. apply H1. lia. }
  rewrite Hcf in He. case_decide as H2; [lia|]. case_decide as H3; [lia|]. split; [lia|]. simpl in *. lia.
Qed.
