(* ===== verification/SpecMtp.v ===== *)
(** * Multi-token prediction, one sequence

    [core/speculative/mtp/generator.rs] and the traits it drives,
    [core/speculative/mtp/target.rs] and [core/drafter/mod.rs].  The target model and the
    drafter are interfaces, [MtpTarget] and [Drafter], with the operations the loop calls;
    both are stateful (caches behind a [RefCell], a boxed drafter).  Wall-clock timings and
    log lines are left out of the diagnostics.  [None] is a panic.

    [MtpLaws] is the contract of the trait's comments: verification returns the target's
    choice after every prefix of its input, finalizing leaves the caches with the accepted
    part.  The drafter has no laws: the output cannot depend on it. *)

From Stdlib Require Import QArith.
From S2P Require Import Prelude Sampling SpecWalk.
Open Scope nat_scope.

(** ** Interfaces *)

(** [A] are arrays, [LP] log-probability records. *)
Record MtpVerifyOutput (A : Type) := mkVerify {
  next_hidden : A;
  next_shared_kv : list A;
  vo_kv_offset : nat;
  bonus_position : nat
}.
Arguments mkVerify {_} _ _ _ _.
Arguments next_hidden {_} _.
Arguments next_shared_kv {_} _.
Arguments vo_kv_offset {_} _.
Arguments bonus_position {_} _.

Record VerifyForwardOutput (C LP : Type) := mkForward {
  target_tokens : list Z;
  target_logprobs : option (list LP);
  captured : C
}.
Arguments mkForward {_ _} _ _ _.
Arguments target_tokens {_ _} _.
Arguments target_logprobs {_ _} _.
Arguments captured {_ _} _.

(** [T]: the state of the target; [C]: what a verification captures for its second phase;
    the [bool] is [logprobs_config.enabled]. *)
Class MtpTarget (T A C LP : Type) := {
  prefill_and_seed : list Z → SamplingConfig → list Z → bool → T → T * (Z * MtpVerifyOutput A * option LP);
  verify_forward : list Z → SamplingConfig → bool → T → T * VerifyForwardOutput C LP;
  verify_finalize : nat → nat → C → T → T * MtpVerifyOutput A;
  target_eos_token_ids : list Z
}.

Inductive DrafterError := DraftFailed.

Class Drafter (D A : Type) := {
  draft_block : Z → A → nat → SamplingConfig → D → D * (DrafterError + list Z);
  set_shared_kv : list A → nat → nat → nat → D → D * (DrafterError + ());
  configured_block_size : D → option nat;
  prefer_requested_block_size : D → bool
}.

(** ** Diagnostics *)

Record MtpRoundDiagnostics := mkDiag {
  rounds : nat;
  proposed_tokens : nat;
  accepted_draft_tokens : nat;
  emitted_from_verify_tokens : nat;
  zero_accept_rounds : nat;
  partial_accept_rounds : nat;
  full_accept_rounds : nat
}.

Definition new_diagnostics : MtpRoundDiagnostics := mkDiag 0 0 0 0 0 0 0.

Definition record_round (proposed acc emitted : nat) (d : MtpRoundDiagnostics) : MtpRoundDiagnostics :=
  mkDiag (rounds d + 1) (proposed_tokens d + proposed) (accepted_draft_tokens d + acc `min` proposed)
         (emitted_from_verify_tokens d + emitted)
         (zero_accept_rounds d + if decide (acc = 0) then 1 else 0)
         (partial_accept_rounds d + if decide (acc = 0) then 0 else if decide (proposed ≤ acc) then 0 else 1)
         (full_accept_rounds d + if decide (acc = 0) then 0 else if decide (proposed ≤ acc) then 1 else 0).

Record MtpAcceptanceSummary := mkSummary { s_rounds : nat; s_proposed : nat; s_accepted : nat }.

Definition summary (d : MtpRoundDiagnostics) : MtpAcceptanceSummary :=
  mkSummary (rounds d) (proposed_tokens d) (accepted_draft_tokens d).

Section mtp.
Context {T A C LP D : Type} `{!MtpTarget T A C LP, !Drafter D A}.

(** ** The generator *)

Record MtpGenerator := mkMtp {
  target : T;
  drafter : D;
  block_size : nat;
  mtp_configured_block_size : nat;
  mtp_prefer_requested : bool;
  last_acceptance : option MtpAcceptanceSummary
}.

Definition mtp_new (t : T) (d : D) (bs : nat) : option MtpGenerator :=
  if decide (2 ≤ bs)
  then Some (mkMtp t d bs (default bs (configured_block_size d) `max` 2) (prefer_requested_block_size d) None)
  else None.

(** The variables of [generate]. *)
Record mtp_run := mkRun {
  r_target : T;
  r_drafter : D;
  emitted : list Z;
  logprobs : list (option LP);
  bonus : Z;
  verify_out : MtpVerifyOutput A;
  accept_lens : list Q;
  diagnostics : MtpRoundDiagnostics
}.

Definition set_shared_kv_from_verify (vo : MtpVerifyOutput A) (d : D) : D :=
  (set_shared_kv (next_shared_kv vo) (vo_kv_offset vo) (bonus_position vo) 0 d).1.

Section generate.
Context (g : MtpGenerator) (max_tokens : nat) (sampling : SamplingConfig) (cancel : nat → bool) (lp_enabled : bool) (eos : list Z).

(** Push the new tokens one by one; [true] when the generation is over. *)
Fixpoint emit_tokens (i : nat) (toks : list Z) (lps : option (list LP)) (em : list Z) (lgp : list (option LP)) :
    bool * (list Z * list (option LP)) :=
  match toks with
  | [] => (false, (em, lgp))
  | t :: toks =>
    let em := em ++ [t] in
    let lgp := if lp_enabled then lgp ++ [v ← lps; v !! i] else lgp in
    if decide (t ∈ eos) then (true, (em, lgp))
    else if decide (max_tokens ≤ length em) then (true, (em, lgp))
    else emit_tokens (S i) toks lps em lgp
  end.

Definition round_block_size (r : mtp_run) : nat :=
  let remaining := max_tokens - length (emitted r) + 1 in
  if mtp_prefer_requested g then block_size g `min` remaining
  else effective_mtp_block_size (block_size g) (mtp_configured_block_size g) (accept_lens r) remaining.

(** One round: [true] when the loop ends. *)
Definition mtp_round (n : nat) (r : mtp_run) : option (bool * mtp_run) :=
  if decide (max_tokens ≤ length (emitted r)) then Some (true, r)
  else if cancel n then Some (true, r)
  else
    let bs := round_block_size r in
    if decide (bs ≤ 1) then Some (true, r)
    else
      match draft_block (bonus r) (next_hidden (verify_out r)) bs sampling (r_drafter r) with
      | (d, inl _) =>
        Some (true, mkRun (r_target r) d (emitted r) (logprobs r) (bonus r) (verify_out r) (accept_lens r) (diagnostics r))
      | (d, inr draft_tokens) =>
        let actual_bs := length draft_tokens + 1 in
        let '(t, out) := verify_forward (bonus r :: draft_tokens) sampling lp_enabled (r_target r) in
        walk ← speculative_walk draft_tokens (target_tokens out) (max_tokens - length (emitted r));
        let diag := record_round (length draft_tokens) (accepted walk) (length (new_tokens walk)) (diagnostics r) in
        let lens := accept_lens r ++ [inject_Z (Z.of_nat (accepted walk))] in
        let '(t, vo) := verify_finalize (accepted walk) actual_bs (captured out) t in
        let '(over, (em, lgp)) := emit_tokens 0 (new_tokens walk) (target_logprobs out) (emitted r) (logprobs r) in
        if over then Some (true, mkRun t d em lgp (bonus r) vo lens diag)
        else match last em with
             | None => Some (true, mkRun t d em lgp (bonus r) vo lens diag)
             | Some b => Some (false, mkRun t (set_shared_kv_from_verify vo d) em lgp b vo lens diag)
             end
      end.

Fixpoint round_loop (fuel n : nat) (r : mtp_run) : option mtp_run :=
  match fuel with
  | 0 => None
  | S fuel => '(over, r) ← mtp_round n r; if over : bool then Some r else round_loop fuel (S n) r
  end.

End generate.

(** The state afterwards, the tokens and their log-probabilities. *)
Definition mtp_generate (g : MtpGenerator) (prompt : list Z) (max_tokens : nat) (sampling : SamplingConfig)
    (token_history : list Z) (cancel : nat → bool) (lp_enabled : bool) :
    option (MtpGenerator * list Z * list (option LP)) :=
  if decide (prompt = []) then None
  else
    let g := mkMtp (target g) (drafter g) (block_size g) (mtp_configured_block_size g) (mtp_prefer_requested g) None in
    let eos := merged_eos_token_ids target_eos_token_ids (stop_token_ids sampling) in
    if decide (max_tokens = 0) then Some (g, [], [])
    else
      let '(t, (first, vo, lp)) := prefill_and_seed prompt sampling token_history lp_enabled (target g) in
      let lgp := if lp_enabled then [lp] else [] in
      let done t d diag :=
        mkMtp t d (block_size g) (mtp_configured_block_size g) (mtp_prefer_requested g) (Some (summary diag)) in
      if decide (first ∈ eos ∨ max_tokens = 1)
      then Some (done t (drafter g) new_diagnostics, [first], lgp)
      else
        let d := set_shared_kv_from_verify vo (drafter g) in
        r ← round_loop g max_tokens sampling cancel lp_enabled eos max_tokens 0
              (mkRun t d [first] lgp first vo [] new_diagnostics);
        Some (done (r_target r) (r_drafter r) (diagnostics r), emitted r, logprobs r).

(** ** The contract of a target *)

(** [reads t ctx]: the caches of [t] hold [ctx].  [first] is the choice after the prompt
    with the penalties of the history, [tok] the choice at a verified position, [lp] its
    log-probabilities. *)
Record MtpLaws (sampling : SamplingConfig) (fresh : T → Prop) (reads : T → list Z → Prop)
    (first : list Z → list Z → Z) (tok : list Z → Z) (lp : list Z → LP) : Prop := mkLaws {
  law_prefill : ∀ t prompt h en, fresh t → prompt ≠ [] →
    reads (prefill_and_seed prompt sampling h en t).1 prompt ∧
    (prefill_and_seed prompt sampling h en t).2.1.1 = first prompt h ∧
    (en = true → (prefill_and_seed prompt sampling h en t).2.2 = Some (lp prompt));
  law_forward : ∀ t ctx input en, reads t ctx → input ≠ [] →
    let r := verify_forward input sampling en t in
    target_tokens r.2 = (λ i, tok (ctx ++ take (S i) input)) <$> seq 0 (length input) ∧
    target_logprobs r.2 = (if en then Some ((λ i, lp (ctx ++ take (S i) input)) <$> seq 0 (length input)) else None) ∧
    ∀ acc, acc < length input → reads (verify_finalize acc (length input) (captured r.2) r.1).1 (ctx ++ take (S acc) input)
}.

Section correct.
Context (sampling : SamplingConfig) (fresh : T → Prop) (reads : T → list Z → Prop)
        (first : list Z → list Z → Z) (tok : list Z → Z) (lp : list Z → LP)
        (laws : MtpLaws sampling fresh reads first tok lp).
Context (g : MtpGenerator) (max_tokens : nat) (cancel : nat → bool) (en : bool) (eos prompt : list Z).

(** The log-probabilities that go with the tokens after the first. *)
Definition lps_of (toks : list Z) : list (option LP) :=
  if en then (λ i, Some (lp (prompt ++ take i toks))) <$> seq 0 (length toks) else [].

Lemma lps_of_snoc toks t :
  lps_of (toks ++ [t]) = lps_of toks ++ (if en then [Some (lp (prompt ++ toks))] else []).
Proof.
  unfold lps_of. destruct en; [|done]. rewrite length_app, seq_app, fmap_app. simpl. f_equal.
  - apply list_fmap_ext. intros i x Hx. apply lookup_seq in Hx as [-> Hx]. simpl. by rewrite take_app_le by lia.
  - by rewrite take_app_length.
Qed.

Lemma emit_tokens_spec lps w : ∀ i em,
  (∀ j, j < length w → lps !! (i + j) = Some (lp (prompt ++ em ++ take j w))) →
  length em + length w ≤ max_tokens →
  let em' := em ++ through_eos eos w in
  emit_tokens max_tokens en eos i w (if en then Some lps else None) em (lps_of em) =
    (has_eos eos w || (negb (bool_decide (w = [])) && bool_decide (max_tokens ≤ length em')), (em', lps_of em')).
Proof.
  induction w as [|t w IH]; intros i em Hlp Hlen; cbn [emit_tokens through_eos has_eos existsb]; [by rewrite app_nil_r|].
  replace (if en then _ else lps_of em) with (lps_of (em ++ [t])).
  2: { rewrite lps_of_snoc. destruct en; [|by rewrite app_nil_r]. simpl.
       specialize (Hlp 0 ltac:(simpl; lia)). rewrite Nat.add_0_r, app_nil_r in Hlp. simpl in Hlp. by rewrite Hlp. }
  case_decide as He; [by rewrite bool_decide_eq_true_2 by done|]. rewrite (bool_decide_eq_false_2 (t ∈ eos)) by done. cbn [orb].
  simpl in Hlen. case_decide as Hm; rewrite length_app in Hm; simpl in Hm.
  - destruct w; [|simpl in Hlen; lia]. simpl. rewrite length_app. simpl. by rewrite bool_decide_eq_true_2 by lia.
  - rewrite (IH (S i) (em ++ [t])).
    + rewrite <-(assoc_L app). simpl. f_equal. f_equal. destruct (bool_decide (w = [])) eqn:Ew; [|done].
      apply bool_decide_eq_true in Ew as ->. simpl. rewrite length_app. simpl. by rewrite bool_decide_eq_false_2 by lia.
    + intros j Hj. specialize (Hlp (S j) ltac:(simpl; lia)). rewrite Nat.add_succ_r in Hlp. simpl in *.
      by rewrite Hlp, <-(assoc_L app).
    + rewrite length_app. simpl. lia.
Qed.

(** What is still to come after [em]. *)
Definition rest (em : list Z) : list Z := greedy_tokens tok eos (prompt ++ em) (max_tokens - length em).

Definition mtp_inv (r : mtp_run) : Prop :=
  ∃ em, emitted r = em ++ [bonus r] ∧ reads (r_target r) (prompt ++ em) ∧ logprobs r = lps_of (emitted r) ∧
        length (emitted r) ≤ max_tokens.

(** The drafter answers, and the request is not cancelled. *)
Definition drafts_ok : Prop :=
  (∀ b h bs d e d', draft_block b h bs sampling d ≠ (d', inl e)) ∧ ∀ n, cancel n = false.

Definition diag_inv (r : mtp_run) : Prop :=
  let d := diagnostics r in
  zero_accept_rounds d + partial_accept_rounds d + full_accept_rounds d = rounds d ∧
  accepted_draft_tokens d ≤ proposed_tokens d ∧ length (emitted r) ≤ 1 + emitted_from_verify_tokens d.

Lemma record_round_inv p a e d :
  zero_accept_rounds d + partial_accept_rounds d + full_accept_rounds d = rounds d → accepted_draft_tokens d ≤ proposed_tokens d →
  let d' := record_round p a e d in
  zero_accept_rounds d' + partial_accept_rounds d' + full_accept_rounds d' = rounds d' ∧
  accepted_draft_tokens d' ≤ proposed_tokens d'.
Proof. intros. unfold record_round. simpl. repeat case_decide; lia. Qed.

Lemma block_size_ok r :
  2 ≤ block_size g → 2 ≤ mtp_configured_block_size g → length (emitted r) < max_tokens →
  2 ≤ round_block_size g max_tokens r.
Proof.
  intros. unfold round_block_size. case_match; [lia|].
  pose proof (block_size_bounds (block_size g) (mtp_configured_block_size g) (accept_lens r)
                (max_tokens - length (emitted r) + 1)). lia.
Qed.

(** One round.  Either it ends the loop, with the greedy output or because the request was
    cancelled or the drafter failed, or it emits at least one token of that output. *)
Lemma mtp_round_spec n r :
  2 ≤ block_size g → 2 ≤ mtp_configured_block_size g → mtp_inv r → diag_inv r →
  ∃ over r', mtp_round g max_tokens sampling cancel en eos n r = Some (over, r') ∧
    (if over : bool
     then emitted r' `prefix_of` emitted r ++ rest (emitted r) ∧ emitted r `prefix_of` emitted r' ∧
          logprobs r' = lps_of (emitted r') ∧ diag_inv r' ∧
          (drafts_ok → emitted r' = emitted r ++ rest (emitted r))
     else mtp_inv r' ∧ diag_inv r' ∧ emitted r' ++ rest (emitted r') = emitted r ++ rest (emitted r) ∧
          emitted r `prefix_of` emitted r' ∧ length (emitted r) < length (emitted r')).
Proof.
  intros Hbs Hcb (em & Hem & Hr & Hlg & Hmax) Hdg. unfold mtp_round. case_decide as Hfull.
  { exists true, r. split; [done|]. assert (rest (emitted r) = []) as ->.
    { unfold rest. by replace (max_tokens - length (emitted r)) with 0 by lia. }
    by rewrite app_nil_r. }
  destruct (cancel n) eqn:Ec.
  { exists true, r. split; [done|]. split_and!; try done; [by apply prefix_app_r|apply Hdg..|].
    intros [_ Hc]. by rewrite Hc in Ec. }
  pose proof (block_size_ok r Hbs Hcb ltac:(lia)) as Hb. rewrite decide_False by lia.
  destruct (draft_block _ _ _ _ _) as [d [e|drafts]] eqn:Ed.
  { eexists true, _. split; [done|]. simpl. split_and!; try done; [by apply prefix_app_r|apply Hdg..|].
    intros [Hd _]. by apply Hd in Ed. }
  destruct (law_forward _ _ _ _ _ _ laws (r_target r) (prompt ++ em) (bonus r :: drafts) en Hr ltac:(done)) as (Ht & Hlps & Hfin).
  destruct (verify_forward _ _ _ _) as [t out]. cbn [fst snd length] in Ht, Hlps, Hfin.
  set (vs := target_tokens out) in *.
  assert (Hlen : length vs = S (length drafts)) by (by rewrite Ht, length_fmap, length_seq).
  assert (Hvs : ∀ i, i ≤ length drafts → vs !! i = Some (tok ((prompt ++ emitted r) ++ take i drafts))).
  { intros i Hi. rewrite Ht, list_lookup_fmap, lookup_seq_lt by lia. simpl.
    rewrite Hem, <-!(assoc_L app). done. }
  rewrite speculative_walk_spec by done. cbn [mbind option_bind accepted new_tokens].
  set (acc := matching drafts vs). pose proof (matching_le drafts vs) as [Hacc _]. fold acc in Hacc.
  set (budget := max_tokens - length (emitted r)). set (w := take budget (take (S acc) vs)).
  pose proof (chain_take tok (prompt ++ emitted r) _ budget (verify_chain tok (prompt ++ emitted r) drafts vs Hvs Hlen)) as Hch.
  fold acc w in Hch.
  assert (Hwl : length w = budget `min` S acc) by (unfold w; rewrite !length_take; lia).
  assert (Hwne : w ≠ []) by (intros ->; simpl in Hwl; lia).
  specialize (Hfin acc ltac:(lia)). rewrite Nat.add_1_r.
  destruct (verify_finalize acc (S (length drafts)) (captured out) t) as [t' vo]. simpl in Hfin.
  set (lps := (λ i, lp ((prompt ++ em) ++ bonus r :: take i drafts)) <$> seq 0 (S (length drafts))).
  assert (Hls : ∀ j, j < length w → lps !! (0 + j) = Some (lp (prompt ++ emitted r ++ take j w))).
  { intros j Hj. unfold lps. rewrite list_lookup_fmap, lookup_seq_lt by lia. simpl. do 2 f_equal.
    rewrite Hem, <-!(assoc_L app). simpl. do 3 f_equal. unfold w. rewrite !take_take.
    rewrite !Nat.min_l by lia. pose proof (f_equal (take j) (matching_take drafts vs)) as Hmt. fold acc in Hmt.
    by rewrite !take_take, Nat.min_l in Hmt by lia. }
  rewrite Hlps. change (if en then Some _ else None) with (if en then Some lps else None).
  rewrite Hlg, (emit_tokens_spec lps w 0 (emitted r) Hls) by lia.
  rewrite (bool_decide_eq_false_2 (w = [])) by done. cbn [negb andb].
  pose proof (length_through_eos eos w) as Htw.
  assert (Hrest : rest (emitted r) = through_eos eos w ++
            (if has_eos eos w then [] else greedy_tokens tok eos ((prompt ++ emitted r) ++ w) (budget - length w))).
  { unfold rest. apply greedy_chain; [done|lia]. }
  destruct (record_round_inv (length drafts) acc (length w) (diagnostics r)) as [D1 D2]; [apply Hdg..|].
  assert (D3 : length (emitted r ++ through_eos eos w) ≤
               1 + emitted_from_verify_tokens (record_round (length drafts) acc (length w) (diagnostics r))).
  { rewrite length_app. simpl. destruct Hdg as (_ & _ & ?). lia. }
  destruct (has_eos eos w) eqn:Eeos; cbn [orb].
  { eexists true, _. split; [done|]. simpl. rewrite Hrest, app_nil_r. split_and!; try done. by apply prefix_app_r. }
  rewrite (through_eos_none eos w Eeos) in *. rewrite length_app in D3 |- *.
  destruct (decide (max_tokens ≤ length (emitted r) + length w)) as [Hm|Hm].
  { rewrite bool_decide_eq_true_2 by done. eexists true, _. split; [done|]. simpl.
    rewrite Hrest. replace (budget - length w) with 0 by lia. simpl. rewrite app_nil_r.
    split; [done|]. split; [by apply prefix_app_r|]. split; [done|]. split; [|done].
    split; [exact D1|]. split; [exact D2|]. cbn [emitted diagnostics]. by rewrite length_app. }
  rewrite bool_decide_eq_false_2 by done.
  assert (length w = S acc) as Hws by lia.
  assert (w = take (S acc) vs) as Hwt by (unfold w; apply take_ge; rewrite length_take; lia).
  destruct (lookup_lt_is_Some_2 vs acc) as [b Hb']; [lia|].
  assert (w = take acc drafts ++ [b]) as Hwb
    by (rewrite Hwt, (take_S_r _ _ _ Hb'); unfold acc; by rewrite matching_take).
  assert ((emitted r ++ take acc drafts) ++ [b] = emitted r ++ w) as Hew by (by rewrite Hwb, (assoc_L app)).
  rewrite <-Hew, last_snoc. eexists false, _. split; [done|]. split_and!.
  - exists (emitted r ++ take acc drafts). simpl. rewrite !length_app, length_take. simpl. split_and!; try done; [|lia].
    rewrite Hem, <-!(assoc_L app). simpl in Hfin. by rewrite <-(assoc_L app) in Hfin.
  - split_and!; simpl; rewrite <-?Hwb; [exact D1|exact D2|]. rewrite Hew, length_app. exact D3.
  - simpl. rewrite Hew, Hrest, <-(assoc_L app). do 2 f_equal. unfold rest. rewrite length_app, (assoc_L app). f_equal. lia.
  - simpl. rewrite Hew. by apply prefix_app_r.
  - simpl. rewrite Hew, length_app. lia.
Qed.

Lemma round_loop_spec fuel : ∀ n r,
  2 ≤ block_size g → 2 ≤ mtp_configured_block_size g → mtp_inv r → diag_inv r →
  max_tokens - length (emitted r) < fuel →
  ∃ r', round_loop g max_tokens sampling cancel en eos fuel n r = Some r' ∧
    emitted r' `prefix_of` emitted r ++ rest (emitted r) ∧ emitted r `prefix_of` emitted r' ∧
    logprobs r' = lps_of (emitted r') ∧ diag_inv r' ∧ (drafts_ok → emitted r' = emitted r ++ rest (emitted r)).
Proof.
  induction fuel as [|fuel IH]; intros n r Hbs Hcb Hi Hd Hf; [lia|]. cbn [round_loop].
  destruct (mtp_round_spec n r Hbs Hcb Hi Hd) as (over & r1 & -> & Hr1). cbn [mbind option_bind].
  destruct over; [eexists; split; [done|]; exact Hr1|].
  destruct Hr1 as (Hi1 & Hd1 & Htot & Hpre & Hlt). pose proof Hi1 as (em1 & _ & _ & _ & Hm1).
  destruct (IH (S n) r1 Hbs Hcb Hi1 Hd1) as (r' & E & Hp & Hp' & Hl & Hdg & Hok); [lia|].
  exists r'. rewrite Htot in Hp, Hok. split_and!; [done|done| |done|done|done].
  by etrans; [|exact Hp'].
Qed.

End correct.
End mtp.

(** What a generation is: the first token, then greedy decoding. *)
Definition mtp_output (first : list Z → list Z → Z) (tok : list Z → Z) (eos prompt history : list Z) (max_tokens : nat) : list Z :=
  match max_tokens with
  | 0 => []
  | S n => first prompt history ::
             if decide (first prompt history ∈ eos) then [] else greedy_tokens tok eos (prompt ++ [first prompt history]) n
  end.

(** C29. Multi-token prediction is exact for one sequence.  For every drafter, block size
    and acceptance history, [MtpGenerator::generate] terminates; its output is the target's
    greedy decoding up to a stop token and the budget, or, when the request is cancelled or
    the drafter fails, a prefix of it that has at least the first token.  The
    log-probabilities are those of the emitted tokens, one each, and the acceptance summary
    counts no more accepted drafts than proposed ones. *)
Theorem mtp_exact {T A C LP D} `{!MtpTarget T A C LP, !Drafter D A}
    (sampling : SamplingConfig) (fresh : T → Prop) (reads : T → list Z → Prop) first tok lp
    (t : T) (d : D) bs g prompt max_tokens history cancel en :
  MtpLaws sampling fresh reads first tok lp → fresh t → mtp_new t d bs = Some g → prompt ≠ [] →
  let out := mtp_output first tok (merged_eos_token_ids target_eos_token_ids (stop_token_ids sampling)) prompt history max_tokens in
  ∃ g' toks lgp,
    mtp_generate g prompt max_tokens sampling history cancel en = Some (g', toks, lgp) ∧
    toks `prefix_of` out ∧ (0 < max_tokens → toks ≠ []) ∧ length toks ≤ max_tokens ∧
    lgp = lps_of lp en prompt toks ∧
    (drafts_ok sampling cancel → toks = out) ∧
    (∀ s, last_acceptance g' = Some s → s_accepted s ≤ s_proposed s).
Proof.
  intros Hl Hf Hg Hp. set (eos := merged_eos_token_ids _ _). intros out.
  unfold mtp_new in Hg. case_decide as Hbs; [|done]. injection Hg as <-. unfold mtp_generate.
  rewrite decide_False by done. cbn [target drafter block_size mtp_configured_block_size mtp_prefer_requested].
  fold eos. destruct max_tokens as [|mx].
  { eexists _, [], []. split; [done|]. split_and!; try done; [lia|]. unfold lps_of. by destruct en. }
  rewrite decide_False by done.
  destruct (law_prefill _ _ _ _ _ _ Hl t prompt history en Hf Hp) as (Hr & Hb & Hlp).
  destruct (prefill_and_seed prompt sampling history en t) as [t1 [[b vo] l]]. simpl in Hr, Hb, Hlp. subst b.
  set (b := first prompt history) in *.
  assert ((if en then [l] else []) = lps_of lp en prompt [b]) as Hlps.
  { unfold lps_of. destruct en; [|done]. rewrite Hlp by done. simpl. by rewrite app_nil_r. }
  rewrite Hlps. destruct (decide (b ∈ eos ∨ S mx = 1)) as [Hs|Hs].
  { eexists _, [b], _. split; [done|].
    assert (out = [b]) as ->.
    { unfold out, mtp_output. fold b. case_decide; [done|]. by destruct Hs as [|[= ->]]. }
    split_and!; try done; [simpl; lia|]. intros s [= <-]. simpl. lia. }
  set (g := mkMtp t d bs _ _ None). set (r0 := mkRun t1 _ _ _ _ _ _ _).
  destruct (round_loop_spec sampling fresh reads first tok lp Hl g (S mx) cancel en eos prompt (S mx) 0 r0)
    as (r & E & H1 & H2 & H3 & H4 & H5).
  - done.
  - simpl. lia.
  - exists []. simpl. rewrite app_nil_r. split_and!; try done; lia.
  - split_and!; simpl; lia.
  - simpl. lia.
  - assert (emitted r0 ++ rest tok (S mx) eos prompt (emitted r0) = out) as Hout.
    { unfold out, mtp_output, rest, r0. simpl. fold b. rewrite Nat.sub_0_r. by rewrite decide_False by naive_solver. }
    rewrite Hout in H1, H5. rewrite E. cbn [mbind option_bind]. eexists _, _, _. split; [done|].
    split_and!; try done.
    + intros _ Hn. rewrite Hn in H2. simpl in H2. by apply prefix_nil_inv in H2.
    + apply prefix_length in H1. pose proof (length_greedy tok eos (prompt ++ [b]) mx) as Hlg.
      assert (length out ≤ S mx); [|lia]. unfold out, mtp_output. fold b. simpl. case_decide; simpl; lia.
    + intros s [= <-]. simpl. apply H4.
Qed.

(** An instance: the target's state is its context, the drafter repeats a guess. *)
Definition tok_by_three (ctx : list Z) : Z := ((default 0 (last ctx) + 3) mod 11)%Z.

Global Instance context_target : MtpTarget (list Z) () nat Z := {|
  prefill_and_seed prompt _ _ _ _ := (prompt, (tok_by_three prompt, mkVerify tt [] (length prompt) (length prompt),
                                               Some (default 0%Z (last prompt))));
  verify_forward input _ en ctx :=
    (ctx ++ input,
     mkForward ((λ i, tok_by_three (ctx ++ take (S i) input)) <$> seq 0 (length input))
       (if en then Some ((λ i, default 0%Z (last (ctx ++ take (S i) input))) <$> seq 0 (length input)) else None)
       (length ctx));
  verify_finalize acc _ pre ctx := (take (pre + S acc) ctx, mkVerify tt [] (pre + S acc) (pre + S acc));
  target_eos_token_ids := [10%Z]
|}.

Global Instance guess_drafter : Drafter () () := {|
  draft_block b _ bs _ d := (d, inr (take (bs - 1) [(b + 3) mod 11; (b + 6) mod 11; 7]%Z));
  set_shared_kv _ _ _ _ d := (d, inr tt);
  configured_block_size _ := Some 4;
  prefer_requested_block_size _ := false
|}.

Lemma context_target_laws sampling :
  MtpLaws (T := list Z) (A := ()) (C := nat) sampling (λ _, True) eq (λ p _, tok_by_three p) tok_by_three (λ ctx, default 0%Z (last ctx)).
Proof.
  split; [by intros; split_and!|]. intros t ctx input en -> Hi r. subst r. split_and!; [done|done|].
  intros acc Ha. cbn [verify_forward verify_finalize context_target captured fst snd].
  rewrite take_app_ge by lia. f_equal. f_equal. lia.
Qed.

Lemma mtp_exact_witness :
  ∃ g g' toks lgp, mtp_new (T := list Z) [] () 4 = Some g ∧
    mtp_generate g [1; 2]%Z 9 greedy [] (λ _, false) true = Some (g', toks, lgp) ∧
    toks = [5; 8; 0; 3; 6; 9; 1; 4; 7]%Z ∧ last_acceptance g' = Some (mkSummary 3 8 6).
Proof.
  assert (mtp_new (T := list Z) (A := ()) (D := ()) [] () 4 = Some (mkMtp [] () 4 4 false None)) as Hn by reflexivity.
  destruct (mtp_exact (T := list Z) (A := ()) (C := nat) (D := ()) greedy (λ _, True) eq (λ p _, tok_by_three p) tok_by_three
              (λ ctx, default 0%Z (last ctx)) [] () 4 (mkMtp [] () 4 4 false None) [1; 2]%Z 9 [] (λ _, false) true
              (context_target_laws greedy) I Hn ltac:(discriminate)) as (g' & toks & lgp & E & _ & _ & _ & _ & Hok & _).
  exists (mkMtp [] () 4 4 false None), g', toks, lgp. split; [reflexivity|]. split; [exact E|]. split.
  - rewrite Hok; [vm_compute; reflexivity|]. split; [|reflexivity]. intros b h bs d e d' H. discriminate H.
  - vm_compute in E. injection E as <- <- <-. reflexivity.
Defined.

(** A request that ends at its first token leaves a summary of no rounds, where the
    comment of [last_acceptance] promises none. *)
Lemma summary_without_rounds :
  (λ '(g, _, _), last_acceptance g) <$>
    mtp_generate (T := list Z) (mkMtp [] () 4 4 false None) [1; 2]%Z 1 greedy [] (λ _, false) false =
  Some (Some (mkSummary 0 0 0)).
Proof. reflexivity. Qed.
