(* ===== verification/SpecMtpBatch.v ===== *)
(** * Multi-token prediction, several sequences

    [core/speculative/mtp/round_loop_batched.rs].  The per-row vectors of the loop
    (tokens, accept counts, finished flags, bonus tokens) are one list of row records.  An
    error is returned with [?]; its text is a constructor.  The loop has fuel
    [max_new_tokens + 1]: every round adds a token to every active row. *)

From Stdlib Require Import QArith.
From S2P Require Import Prelude Sampling SpecWalk SpecMtp.
Open Scope nat_scope.

Record MtpBatchedVerifyOutput (A : Type) := mkBatchVerify {
  b_next_hidden : A;
  b_next_shared_kv : list A;
  kv_offset_per_row : list nat;
  bonus_position_per_row : list nat;
  kv_valid_len_per_row : list nat;
  left_padding_per_row : list nat
}.
Arguments mkBatchVerify {_} _ _ _ _ _ _.
Arguments b_next_hidden {_} _.
Arguments b_next_shared_kv {_} _.
Arguments kv_offset_per_row {_} _.
Arguments bonus_position_per_row {_} _.
Arguments kv_valid_len_per_row {_} _.
Arguments left_padding_per_row {_} _.

Inductive BatchError :=
  | NoRows
  | EmptyPrompt (r : nat)
  | BonusCount (got expected : nat)
  | DraftRowCount (got expected : nat)
  | DraftRowLength (r got expected : nat)
  | TargetRowCount (got expected : nat)
  | HookFailed.

Class MtpBatchedTarget (T A C : Type) := {
  prefill_and_seed_batched : list (list Z) → SamplingConfig → T → T * outcome BatchError (list Z * MtpBatchedVerifyOutput A);
  verify_forward_batched : list (list Z) → SamplingConfig → T → T * outcome BatchError (list (list Z) * C);
  verify_finalize_batched : list nat → nat → C → T → T * outcome BatchError (MtpBatchedVerifyOutput A);
  batched_eos_token_ids : list Z
}.

Class BatchedDrafter (D A : Type) := {
  draft_block_batched : list Z → A → nat → SamplingConfig → D → D * outcome BatchError (list (list Z));
  set_shared_kv_batched : list A → list nat → list nat → list nat → list nat → D → D * outcome BatchError ();
  b_configured_block_size : D → option nat;
  b_prefer_requested_block_size : D → bool
}.

Record batch_row := mkRow {
  row_tokens : list Z;
  row_accepts : list nat;
  row_finished : bool;
  row_bonus : Z
}.

Section batch.
Context {T A C D : Type} `{!MtpBatchedTarget T A C, !BatchedDrafter D A}.

Record MtpBatchedGenerator := mkBatchGen {
  bg_target : T;
  bg_drafter : D;
  bg_block_size : nat;
  bg_configured : nat;
  bg_prefer : bool
}.

Definition batched_new (t : T) (d : D) (bs : nat) : option MtpBatchedGenerator :=
  if decide (2 ≤ bs)
  then Some (mkBatchGen t d bs (default bs (b_configured_block_size d) `max` 2) (b_prefer_requested_block_size d))
  else None.

Record batch_run := mkBatchRun {
  br_target : T;
  br_drafter : D;
  br_rows : list batch_row;
  br_out : MtpBatchedVerifyOutput A;
  br_adaptive : list Q
}.

Definition rebind_drafter_from_seed (vo : MtpBatchedVerifyOutput A) (d : D) : D * outcome BatchError () :=
  set_shared_kv_batched (b_next_shared_kv vo) (kv_offset_per_row vo) (bonus_position_per_row vo)
    (kv_valid_len_per_row vo) (left_padding_per_row vo) d.

Definition all_finished (rows : list batch_row) : bool := forallb row_finished rows.

Definition active (rows : list batch_row) : list batch_row := filter (λ r, row_finished r = false) rows.

Section run.
Context (g : MtpBatchedGenerator) (max_new_tokens : nat) (sampler : SamplingConfig) (eos : list Z).

(** [iter().min().unwrap_or(1)] over the active rows. *)
Definition remaining_min (rows : list batch_row) : nat :=
  match (λ r, (max_new_tokens - length (row_tokens r) + 1) `max` 1) <$> active rows with
  | [] => 1
  | x :: l => foldl Nat.min x l
  end.

Definition batch_block_size (rows : list batch_row) (adaptive : list Q) : nat :=
  if bg_prefer g then bg_block_size g `min` remaining_min rows
  else effective_mtp_block_size (bg_block_size g) (bg_configured g) adaptive (remaining_min rows).

Definition row_budget (r : batch_row) : nat := if row_finished r then 0 else max_new_tokens - length (row_tokens r).

(** The emission of one row: the tokens pushed and whether a stop token was. *)
Fixpoint emit_row (toks em : list Z) : bool * list Z :=
  match toks with
  | [] => (false, em)
  | t :: toks =>
    let em := em ++ [t] in
    if decide (t ∈ eos) then (true, em)
    else if decide (max_new_tokens ≤ length em) then (false, em) else emit_row toks em
  end.

(** A row after its walk: accept count, emission unless frozen, bonus. *)
Definition step_row (r : batch_row) (w : WalkResult) : batch_row :=
  let accepts := row_accepts r ++ [accepted w] in
  let bonus := default (row_bonus r) (last (new_tokens w)) in
  if row_finished r then mkRow (row_tokens r) accepts true bonus
  else
    let '(hit, em) := emit_row (new_tokens w) (row_tokens r) in
    mkRow em accepts (hit || bool_decide (max_new_tokens ≤ length em)) bonus.

(** The average the block-size controller records. *)
Definition round_average (rows : list batch_row) (accs : list nat) : list Q :=
  let pairs := filter (λ p, row_finished p.1 = false) (zip rows accs) in
  if decide (0 < length pairs)
  then [inject_Z (Z.of_nat (sum_list (snd <$> pairs))) / inject_Z (Z.of_nat (length pairs))]%Q else [].

Fixpoint check_lengths (r expected : nat) (rows : list (list Z)) : outcome BatchError () :=
  match rows with
  | [] => Ok tt
  | row :: rows => if decide (length row = expected) then check_lengths (S r) expected rows
                   else Err (DraftRowLength r (length row) expected)
  end.

(** One round: [true] when the loop ends. *)
Definition batch_round (s : batch_run) : outcome BatchError (bool * batch_run) :=
  let rows := br_rows s in
  if all_finished rows then Ok (true, s)
  else
    let bs := batch_block_size rows (br_adaptive s) in
    if decide (bs ≤ 1) then Ok (true, s)
    else
      let '(d, drafted) := draft_block_batched (row_bonus <$> rows) (b_next_hidden (br_out s)) bs sampler (br_drafter s) in
      drafts ← drafted;
      _ ← ensure (length drafts = length rows) (DraftRowCount (length drafts) (length rows));
      _ ← check_lengths 0 (bs - 1) drafts;
      let input := zip_with (λ r draft, row_bonus r :: draft) rows drafts in
      let '(t, forwarded) := verify_forward_batched input sampler (br_target s) in
      '(targets, cap) ← forwarded;
      _ ← ensure (length targets = length rows) (TargetRowCount (length targets) (length rows));
      match speculative_walk_batched drafts targets (row_budget <$> rows) with
      | None => Panic
      | Some (accs, news) =>
        let adaptive := br_adaptive s ++ round_average rows accs in
        let rows' := zip_with step_row rows (zip_with mkWalk accs news) in
        let '(t, finalized) := verify_finalize_batched accs bs cap t in
        vo ← finalized;
        if all_finished rows' then Ok (true, mkBatchRun t d rows' vo adaptive)
        else
          let '(d, bound) := rebind_drafter_from_seed vo d in
          _ ← bound;
          Ok (false, mkBatchRun t d rows' vo adaptive)
      end.

Fixpoint batch_loop (fuel : nat) (s : batch_run) : option (outcome BatchError batch_run) :=
  match fuel with
  | 0 => None
  | S fuel => match batch_round s with
              | Ok (true, s) => Some (Ok s)
              | Ok (false, s) => batch_loop fuel s
              | Err e => Some (Err e)
              | Panic => Some Panic
              end
  end.

End run.

Fixpoint check_prompts (r : nat) (prompts : list (list Z)) : outcome BatchError () :=
  match prompts with
  | [] => Ok tt
  | p :: prompts => if decide (p = []) then Err (EmptyPrompt r) else check_prompts (S r) prompts
  end.

(** The rows of the batch, or [None] out of fuel. *)
Definition run_batched (g : MtpBatchedGenerator) (prompts : list (list Z)) (sampler : SamplingConfig) (max_new_tokens : nat) :
    option (outcome BatchError (list batch_row)) :=
  if decide (prompts = []) then Some (Err NoRows)
  else match check_prompts 0 prompts with
  | Err e => Some (Err e)
  | Panic => Some Panic
  | Ok _ =>
    let eos := merged_eos_token_ids batched_eos_token_ids (stop_token_ids sampler) in
    match prefill_and_seed_batched prompts sampler (bg_target g) with
    | (_, Err e) => Some (Err e)
    | (_, Panic) => Some Panic
    | (t, Ok (firsts, vo)) =>
      if decide (length firsts = length prompts) then
        let rows := map (λ b, mkRow [b] [] (bool_decide (b ∈ eos) || bool_decide (max_new_tokens ≤ 1)) b) firsts in
        if all_finished rows then Some (Ok rows)
        else match rebind_drafter_from_seed vo (bg_drafter g) with
        | (_, Err e) => Some (Err e)
        | (_, Panic) => Some Panic
        | (d, Ok _) =>
          match batch_loop g max_new_tokens sampler eos (max_new_tokens + 1) (mkBatchRun t d rows vo []) with
          | None => None
          | Some (Ok s) => Some (Ok (br_rows s))
          | Some (Err e) => Some (Err e)
          | Some Panic => Some Panic
          end
        end
      else Some (Err (BonusCount (length firsts) (length prompts)))
    end
  end.

(** ** The contract of a batched target *)

Definition row_outputs (tok : list Z → Z) (ctx input : list Z) : list Z :=
  (λ i, tok (ctx ++ take (S i) input)) <$> seq 0 (length input).

(** Rows do not influence each other; [reads t ctxs]: the caches hold [ctxs], row by row. *)
Record BatchLaws (sampler : SamplingConfig) (fresh : T → Prop) (reads : T → list (list Z) → Prop)
    (first tok : list Z → Z) : Prop := mkBatchLaws {
  blaw_prefill : ∀ t prompts, fresh t → Forall (λ p, p ≠ []) prompts →
    ∃ t' vo, prefill_and_seed_batched prompts sampler t = (t', Ok (first <$> prompts, vo)) ∧ reads t' prompts;
  blaw_verify : ∀ t ctxs inputs bs, reads t ctxs → length inputs = length ctxs → 0 < bs → Forall (λ i, length i = bs) inputs →
    ∃ t' cap, verify_forward_batched inputs sampler t = (t', Ok (zip_with (row_outputs tok) ctxs inputs, cap)) ∧
      ∀ accs, length accs = length ctxs → Forall (λ a, a < bs) accs →
        ∃ t'' vo, verify_finalize_batched accs bs cap t' = (t'', Ok vo) ∧
                  reads t'' (zip_with (λ ctx '(input, a), ctx ++ take (S a) input) ctxs (zip inputs accs))
}.

(** A drafter that answers with rows of the right shape. *)
Definition batch_drafts_ok (sampler : SamplingConfig) : Prop :=
  (∀ bonuses h bs d, ∃ d' drafts, draft_block_batched bonuses h bs sampler d = (d', Ok drafts) ∧
     length drafts = length bonuses ∧ Forall (λ r, length r = bs - 1) drafts) ∧
  (∀ kv o p v l d, ∃ d', set_shared_kv_batched kv o p v l d = (d', Ok tt)).

Section correct.
Context (sampler : SamplingConfig) (fresh : T → Prop) (reads : T → list (list Z) → Prop) (first tok : list Z → Z)
        (laws : BatchLaws sampler fresh reads first tok) (drafts : batch_drafts_ok sampler).
Context (g : MtpBatchedGenerator) (max_new_tokens : nat) (eos : list Z).

Abbreviation output p := (mtp_output (λ p _, first p) tok eos p [] (max_new_tokens `max` 1)).

(** A row against its prompt and the context its caches hold. *)
Definition row_inv (n : nat) (p ctx : list Z) (r : batch_row) : Prop :=
  if row_finished r then row_tokens r = output p
  else (∃ em, row_tokens r = em ++ [row_bonus r] ∧ ctx = p ++ em) ∧
       row_tokens r ++ rest tok max_new_tokens eos p (row_tokens r) = output p ∧
       n < length (row_tokens r) < max_new_tokens.

Lemma emit_row_spec w : ∀ em,
  length em + length w ≤ max_new_tokens →
  emit_row max_new_tokens eos w em = (has_eos eos w, em ++ through_eos eos w).
Proof.
  induction w as [|t w IH]; intros em Hl; cbn [emit_row through_eos has_eos existsb]; [by rewrite app_nil_r|].
  simpl in Hl. case_decide as He; [by rewrite bool_decide_eq_true_2 by done|].
  rewrite bool_decide_eq_false_2 by done. cbn [orb].
  case_decide as Hm; rewrite length_app in Hm; simpl in Hm.
  - destruct w; [done|simpl in Hl; lia].
  - rewrite IH by (rewrite length_app; simpl; lia). by rewrite <-(assoc_L app).
Qed.

(** One row through one round. *)
Lemma step_row_inv n p ctx r draft :
  row_inv n p ctx r →
  let target := row_outputs tok ctx (row_bonus r :: draft) in
  let w := mkWalk (matching draft target) (take (row_budget max_new_tokens r) (take (S (matching draft target)) target)) in
  row_inv (S n) p (ctx ++ take (S (accepted w)) (row_bonus r :: draft)) (step_row max_new_tokens eos r w).
Proof.
  intros Hi target w. unfold row_inv, step_row, row_budget in *. destruct (row_finished r) eqn:Ef; [done|].
  destruct Hi as ((em & Hem & ->) & Hout & Hn).
  set (m := matching draft target) in *. cbn [accepted new_tokens w].
  assert (Htl : length target = S (length draft)).
  { unfold target, row_outputs. by rewrite length_fmap, length_seq. }
  assert (Ht : ∀ i, i ≤ length draft → target !! i = Some (tok ((p ++ row_tokens r) ++ take i draft))).
  { intros i Hi. unfold target, row_outputs. rewrite list_lookup_fmap, lookup_seq_lt by (simpl; lia). simpl.
    do 2 f_equal. by rewrite Hem, <-!(assoc_L app). }
  set (budget := max_new_tokens - length (row_tokens r)) in *.
  pose proof (matching_le draft target) as [Hmd _]. fold m in Hmd.
  pose proof (chain_take tok (p ++ row_tokens r) _ budget (verify_chain tok _ draft target Ht Htl)) as Hch.
  fold m in Hch. set (nw := take budget (take (S m) target)) in *.
  assert (Hwl : length nw = budget `min` S m) by (unfold nw; rewrite !length_take; lia).
  rewrite emit_row_spec by lia. cbn [row_finished row_tokens row_bonus].
  assert (Hrest : rest tok max_new_tokens eos p (row_tokens r) = through_eos eos nw ++
     (if has_eos eos nw then [] else greedy_tokens tok eos ((p ++ row_tokens r) ++ nw) (budget - length nw))).
  { unfold rest. apply greedy_chain; [done|lia]. }
  destruct (has_eos eos nw) eqn:Ee; cbn [orb].
  { rewrite <-Hout, Hrest, app_nil_r. done. }
  rewrite (through_eos_none eos nw Ee) in *. rewrite length_app.
  destruct (decide (max_new_tokens ≤ length (row_tokens r) + length nw)) as [Hm|Hm].
  { rewrite bool_decide_eq_true_2 by done. rewrite <-Hout, Hrest.
    replace (budget - length nw) with 0 by lia. simpl. by rewrite app_nil_r. }
  rewrite bool_decide_eq_false_2 by done.
  assert (nw = take (S m) target) as Hnt by (unfold nw; apply take_ge; rewrite length_take; lia).
  destruct (lookup_lt_is_Some_2 target m) as [b Hb]; [lia|].
  assert (nw = take m draft ++ [b]) as Hnb by (rewrite Hnt, (take_S_r _ _ _ Hb); unfold m; by rewrite matching_take).
  assert (last nw = Some b) as -> by (by rewrite Hnb, last_snoc). cbn [default]. split_and!.
  - exists (row_tokens r ++ take m draft). split; [by rewrite Hnb, (assoc_L app)|].
    cbn [take]. by rewrite Hem, <-!(assoc_L app).
  - rewrite <-Hout, Hrest, <-(assoc_L app). do 2 f_equal. unfold rest. rewrite length_app, (assoc_L app). f_equal. lia.
  - lia.
  - lia.
Qed.

Definition batch_inv (n : nat) (prompts : list (list Z)) (s : batch_run) : Prop :=
  ∃ ctxs, reads (br_target s) ctxs ∧ length ctxs = length prompts ∧ length (br_rows s) = length prompts ∧
    ∀ i p ctx r, prompts !! i = Some p → ctxs !! i = Some ctx → br_rows s !! i = Some r → row_inv n p ctx r.

Lemma foldl_min_ge (k : nat) l : ∀ x, k ≤ x → Forall (λ y, k ≤ y) l → k ≤ foldl Nat.min x l.
Proof. induction l as [|y l IH]; intros x Hx; [done|]. intros [? ?]%Forall_cons. simpl. apply IH; [lia|done]. Qed.

Lemma remaining_min_ge rows :
  all_finished rows = false → (∀ r, r ∈ rows → row_finished r = false → length (row_tokens r) < max_new_tokens) →
  2 ≤ remaining_min max_new_tokens rows.
Proof.
  intros Hf Hr. unfold remaining_min.
  assert (Forall (λ y, 2 ≤ y) ((λ r, (max_new_tokens - length (row_tokens r) + 1) `max` 1) <$> active rows)) as HF.
  { apply Forall_fmap, Forall_forall. intros r Hin. apply list_elem_of_filter in Hin as [Hnf Hin].
    specialize (Hr r Hin Hnf). simpl. lia. }
  destruct (active rows) as [|r l] eqn:Ea.
  - exfalso. assert (all_finished rows = true) as Ht; [|congruence]. apply forallb_forall. intros r Hin.
    destruct (row_finished r) eqn:E; [done|]. exfalso. apply (not_elem_of_nil r). rewrite <-Ea.
    apply list_elem_of_filter. split; [done|]. by apply list_elem_of_In.
  - simpl in *. apply Forall_cons in HF as [? ?]. by apply foldl_min_ge.
Qed.

Lemma batch_block_size_ge rows adaptive :
  2 ≤ bg_block_size g → 2 ≤ bg_configured g → 2 ≤ remaining_min max_new_tokens rows →
  2 ≤ batch_block_size g max_new_tokens rows adaptive.
Proof.
  intros. unfold batch_block_size. case_match; [lia|].
  by apply (block_size_bounds (bg_block_size g) (bg_configured g) adaptive (remaining_min max_new_tokens rows)).
Qed.

Lemma check_lengths_ok rows k r : Forall (λ l, length l = k) rows → check_lengths r k rows = Ok tt.
Proof. intros H. revert r. induction H; intros r; simpl; [done|]. by rewrite decide_True. Qed.

Lemma zip_walks ws : zip_with mkWalk (accepted <$> ws) (new_tokens <$> ws) = ws.
Proof. induction ws as [|[a n] ws IH]; [done|]. csimpl. by rewrite IH. Qed.

Lemma lookup_row_walks draft target budgets i d t b :
  draft !! i = Some d → target !! i = Some t → budgets !! i = Some b →
  row_walks draft target budgets !! i = Some (mkWalk (matching d t) (take b (take (S (matching d t)) t))).
Proof.
  intros Hd Ht Hb. unfold row_walks. apply lookup_zip_with_Some. exists (d, t), b. split_and!; [done| |done].
  apply lookup_zip_with_Some. by exists d, t.
Qed.

Lemma length_row_walks draft target budgets :
  length target = length draft → length budgets = length draft → length (row_walks draft target budgets) = length draft.
Proof. intros Ht Hb. unfold row_walks. rewrite length_zip_with, length_zip_with. lia. Qed.

(** The contexts the caches hold after a round. *)
Definition next_contexts (ctxs inputs : list (list Z)) (accs : list nat) : list (list Z) :=
  zip_with (λ ctx '(input, a), ctx ++ take (S a) input) ctxs (zip inputs accs).

(** All rows through one round: drafts of the common length, the target's choices along
    them, the walk. *)
Lemma rows_round n prompts ctxs rows drs k :
  length ctxs = length prompts → length rows = length prompts → length drs = length rows →
  Forall (λ d, length d = k) drs →
  (∀ i p ctx r, prompts !! i = Some p → ctxs !! i = Some ctx → rows !! i = Some r → row_inv n p ctx r) →
  let inputs := zip_with (λ r draft, row_bonus r :: draft) rows drs in
  let targets := zip_with (row_outputs tok) ctxs inputs in
  let ws := row_walks drs targets (row_budget max_new_tokens <$> rows) in
  length inputs = length rows ∧ length targets = length rows ∧ length ws = length rows ∧
  Forall (λ i, length i = S k) inputs ∧ Forall2 (λ d t, length t = S (length d)) drs targets ∧
  Forall (λ a, a < S k) (accepted <$> ws) ∧
  length (next_contexts ctxs inputs (accepted <$> ws)) = length prompts ∧
  ∀ i p ctx r, prompts !! i = Some p → next_contexts ctxs inputs (accepted <$> ws) !! i = Some ctx →
    zip_with (step_row max_new_tokens eos) rows ws !! i = Some r → row_inv (S n) p ctx r.
Proof.
  intros Hc Hr Hd Hk Hi inputs targets ws.
  assert (length inputs = length rows) as Hil by (unfold inputs; rewrite length_zip_with; lia).
  assert (length targets = length rows) as Htl by (unfold targets; rewrite length_zip_with; lia).
  assert (length ws = length rows) as Hwl by (unfold ws; rewrite length_row_walks; rewrite ?length_fmap; lia).
  assert (∀ i draft target, drs !! i = Some draft → targets !! i = Some target →
            ∃ ctx r, ctxs !! i = Some ctx ∧ rows !! i = Some r ∧ target = row_outputs tok ctx (row_bonus r :: draft)) as Hrow.
  { intros i draft target Hdi Hti. apply lookup_zip_with_Some in Hti as (ctx & inp & -> & Hci & Hii).
    apply lookup_zip_with_Some in Hii as (r & d & -> & Hri & Hdi'). simplify_eq. eauto. }
  split_and!; try done.
  - apply Forall_lookup. intros i x (r & d & -> & _ & Hdi)%lookup_zip_with_Some.
    rewrite Forall_lookup in Hk. simpl. by rewrite (Hk _ _ Hdi).
  - apply Forall2_same_length_lookup. split; [lia|]. intros i d t Hdi Hti.
    destruct (Hrow i d t Hdi Hti) as (ctx & r & _ & _ & ->). unfold row_outputs. by rewrite length_fmap, length_seq.
  - apply Forall_fmap, Forall_lookup. intros i w Hw. unfold ws, row_walks in Hw.
    apply lookup_zip_with_Some in Hw as ([d t] & b & -> & Hz & _). apply lookup_zip_with_Some in Hz as (? & ? & [= <- <-] & Hdi & _).
    simpl. rewrite Forall_lookup in Hk. pose proof (matching_le d t). rewrite (Hk _ _ Hdi) in *. lia.
  - unfold next_contexts. rewrite !length_zip_with, length_fmap. lia.
  - intros i p ctx' r' Hp Hctx Hr'. apply lookup_zip_with_Some in Hr' as (r & w & -> & Hri & Hwi).
    destruct (lookup_lt_is_Some_2 drs i) as [d Hdi]; [apply lookup_lt_Some in Hri; lia|].
    destruct (lookup_lt_is_Some_2 targets i) as [t Hti]; [apply lookup_lt_Some in Hri; lia|].
    assert (Hw := lookup_row_walks drs targets (row_budget max_new_tokens <$> rows) i d t (row_budget max_new_tokens r) Hdi Hti
                    ltac:(by rewrite list_lookup_fmap, Hri)). fold ws in Hw. rewrite Hw in Hwi. injection Hwi as <-.
    destruct (Hrow i d t Hdi Hti) as (ctx & r2 & Hci & Hri2 & Et). simplify_eq.
    apply lookup_zip_with_Some in Hctx as (ctx2 & [inp a] & -> & Hci2 & Hz).
    apply lookup_zip_with_Some in Hz as (? & ? & [= <- <-] & Hii & Ha).
    rewrite list_lookup_fmap, Hw in Ha. injection Ha as <-.
    apply lookup_zip_with_Some in Hii as (? & ? & -> & ? & ?). simplify_eq.
    by eapply step_row_inv, (Hi i).
Qed.

(** Every row of [s] has its output. *)
Definition rows_done (prompts : list (list Z)) (rows : list batch_row) : Prop :=
  Forall2 (λ p r, row_tokens r = output p) prompts rows.

Lemma rows_done_tokens prompts rows : rows_done prompts rows → row_tokens <$> rows = (λ p, output p) <$> prompts.
Proof. intros HF. induction HF; [done|]. rewrite !fmap_cons. by f_equal. Qed.

Lemma finished_done n prompts s : batch_inv n prompts s → all_finished (br_rows s) = true → rows_done prompts (br_rows s).
Proof.
  intros (ctxs & _ & Hc & Hr & Hi) Hf. apply Forall2_same_length_lookup. split; [done|].
  intros i p r Hp Hri. destruct (lookup_lt_is_Some_2 ctxs i) as [ctx Hci]; [apply lookup_lt_Some in Hp; lia|].
  specialize (Hi i p ctx r Hp Hci Hri). unfold row_inv in Hi.
  rewrite (proj1 (forallb_forall _ _) Hf r) in Hi; [done|].
  by eapply list_elem_of_In, list_elem_of_lookup_2.
Qed.

Lemma batch_round_spec n prompts s :
  2 ≤ bg_block_size g → 2 ≤ bg_configured g → batch_inv n prompts s →
  ∃ over s', batch_round g max_new_tokens sampler eos s = Ok (over, s') ∧
    (if over : bool then rows_done prompts (br_rows s') else batch_inv (S n) prompts s' ∧ all_finished (br_rows s') = false).
Proof.
  intros Hbs Hcb Hinv. pose proof Hinv as (ctxs & Hrd & Hc & Hr & Hi). unfold batch_round.
  destruct (all_finished (br_rows s)) eqn:Ef; [eexists true, s; eauto using finished_done|].
  assert (2 ≤ remaining_min max_new_tokens (br_rows s)) as Hrem.
  { apply remaining_min_ge; [done|]. intros r [i Hri]%list_elem_of_lookup Hnf. pose proof (lookup_lt_Some _ _ _ Hri) as Hlt.
    destruct (lookup_lt_is_Some_2 ctxs i) as [ctx Hci]; [lia|]. destruct (lookup_lt_is_Some_2 prompts i) as [p Hp]; [lia|].
    specialize (Hi i p ctx r Hp Hci Hri). unfold row_inv in Hi. rewrite Hnf in Hi. lia. }
  pose proof (batch_block_size_ge (br_rows s) (br_adaptive s) Hbs Hcb Hrem) as Hb. rewrite decide_False by lia.
  set (bs := batch_block_size _ _ _ _) in *. destruct drafts as [Hdraft Hbind].
  destruct (Hdraft (row_bonus <$> br_rows s) (b_next_hidden (br_out s)) bs (br_drafter s)) as (d & drs & -> & Hdl & Hdk).
  rewrite length_fmap in Hdl. cbn [mbind outcome_bind]. unfold ensure. rewrite decide_True by done. cbn [mbind outcome_bind].
  rewrite check_lengths_ok by done. cbn [mbind outcome_bind].
  destruct (rows_round n prompts ctxs (br_rows s) drs (bs - 1) Hc Hr Hdl Hdk Hi) as (Hin & Htl & Hwl & Hik & Htk & Hak & Hnl & Hni).
  set (inputs := zip_with (λ r draft, row_bonus r :: draft) (br_rows s) drs) in *.
  replace (S (bs - 1)) with bs in * by lia.
  destruct (blaw_verify _ _ _ _ _ laws (br_target s) ctxs inputs bs Hrd ltac:(lia) ltac:(lia) Hik) as (t & cap & -> & Hfin).
  set (targets := zip_with (row_outputs tok) ctxs inputs) in *. cbn [mbind outcome_bind]. rewrite decide_True by done. cbn [mbind outcome_bind].
  rewrite speculative_walk_batched_spec by (rewrite ?length_fmap; done). rewrite zip_walks.
  set (ws := row_walks _ _ _) in *.
  destruct (Hfin (accepted <$> ws)) as (t' & vo & -> & Hrd'); [rewrite length_fmap; lia|done|]. cbn [mbind outcome_bind].
  set (rows' := zip_with (step_row max_new_tokens eos) (br_rows s) ws) in *.
  set (adaptive := br_adaptive s ++ _).
  assert (∀ d, batch_inv (S n) prompts (mkBatchRun t' d rows' vo adaptive)) as Hinv'.
  { intros d'. exists (next_contexts ctxs inputs (accepted <$> ws)). cbn [br_target br_rows]. split_and!; try done.
    unfold rows'. rewrite length_zip_with. lia. }
  destruct (all_finished rows') eqn:Ef'.
  - eexists true, _. split; [done|]. by apply (finished_done (S n)).
  - destruct (Hbind (b_next_shared_kv vo) (kv_offset_per_row vo) (bonus_position_per_row vo)
                (kv_valid_len_per_row vo) (left_padding_per_row vo) d) as [d' Hd'].
    unfold rebind_drafter_from_seed. rewrite Hd'. cbn [mbind outcome_bind]. eexists false, _. eauto.
Qed.

(** Every round gives every unfinished row a token. *)
Lemma batch_loop_spec fuel : ∀ n prompts s,
  2 ≤ bg_block_size g → 2 ≤ bg_configured g → batch_inv n prompts s → max_new_tokens ≤ S fuel + n →
  ∃ s', batch_loop g max_new_tokens sampler eos (S fuel) s = Some (Ok s') ∧ rows_done prompts (br_rows s').
Proof.
  induction fuel as [|fuel IH]; intros n prompts s Hbs Hcb Hi Hf; cbn [batch_loop];
    destruct (batch_round_spec n prompts s Hbs Hcb Hi) as (over & s1 & E & H1); rewrite E;
    (destruct over; [by exists s1|]); destruct H1 as [H1 Hnf]; [|apply (IH (S n)); try done; lia].
  exfalso. enough (all_finished (br_rows s1) = true) by congruence.
  apply forallb_forall. intros r [i Hri]%list_elem_of_In%list_elem_of_lookup. destruct H1 as (ctxs & _ & Hc & Hr & Hi1).
  pose proof (lookup_lt_Some _ _ _ Hri) as Hlt.
  destruct (lookup_lt_is_Some_2 ctxs i) as [ctx Hci]; [lia|]. destruct (lookup_lt_is_Some_2 prompts i) as [p Hp]; [lia|].
  specialize (Hi1 i p ctx r Hp Hci Hri). unfold row_inv in Hi1. destruct (row_finished r); [done|lia].
Qed.

End correct.
End batch.

Lemma check_prompts_ok prompts : ∀ r, Forall (λ p, p ≠ []) prompts → check_prompts r prompts = Ok tt.
Proof. induction prompts as [|p prompts IH]; intros r H; simpl; [done|]. inv H. by rewrite decide_False, IH. Qed.

(** C15. Multi-token prediction is exact for a batch.  Rows of different lengths share the
    rounds and their block size, stop at different times and keep being drafted and
    verified after they stop.  For every drafter that answers with rows of the right
    shape, [run_batched] terminates without an error, and the tokens of every row are the
    target's greedy decoding of that row's prompt alone, up to a stop token and the budget.
    A budget of zero is treated as one. *)
Theorem mtp_batch_exact {T A C D} `{!MtpBatchedTarget T A C, !BatchedDrafter D A}
    (sampler : SamplingConfig) (fresh : T → Prop) (reads : T → list (list Z) → Prop) first tok
    (t : T) (d : D) bs g prompts max_new_tokens :
  BatchLaws sampler fresh reads first tok → batch_drafts_ok (D := D) (A := A) sampler →
  fresh t → batched_new t d bs = Some g → prompts ≠ [] → Forall (λ p, p ≠ []) prompts →
  ∃ rows, run_batched g prompts sampler max_new_tokens = Some (Ok rows) ∧
    row_tokens <$> rows =
      (λ p, mtp_output (λ p _, first p) tok (merged_eos_token_ids batched_eos_token_ids (stop_token_ids sampler))
              p [] (max_new_tokens `max` 1)) <$> prompts.
Proof.
  intros Hl Hd Hf Hg Hne Hp. unfold batched_new in Hg. case_decide as Hbs; [|done]. injection Hg as <-.
  unfold run_batched. rewrite decide_False by done. rewrite check_prompts_ok by done. cbn [bg_target bg_drafter].
  destruct (blaw_prefill _ _ _ _ _ Hl t prompts Hf Hp) as (t1 & vo & -> & Hr).
  rewrite decide_True by (by rewrite length_fmap). set (eos := merged_eos_token_ids _ _).
  set (g := mkBatchGen t d bs _ _). set (rows := map _ _).
  assert (∀ d, batch_inv reads first tok max_new_tokens eos 0 prompts (mkBatchRun (T := T) (D := D) t1 d rows vo [])) as Hinv.
  { intros d'. exists prompts. cbn [br_target br_rows]. split_and!; try done; [unfold rows; by rewrite length_map, length_fmap|].
    intros i p ctx r Hpi Hci Hri. rewrite Hpi in Hci. injection Hci as <-. unfold rows in Hri. 
    change (map ?f ?l) with (f <$> l) in Hri. rewrite !list_lookup_fmap, Hpi in Hri.
    injection Hri as <-. unfold row_inv. cbn [row_finished row_tokens row_bonus].
    destruct (decide (first p ∈ eos)) as [He|He].
    { rewrite (bool_decide_eq_true_2 (_ ∈ _)) by done. simpl. destruct (max_new_tokens `max` 1) eqn:Em; [lia|].
      simpl. by rewrite decide_True. }
    rewrite (bool_decide_eq_false_2 (_ ∈ _)) by done. cbn [orb]. destruct (decide (max_new_tokens ≤ 1)) as [Hm|Hm];
      [rewrite bool_decide_eq_true_2 by done|rewrite bool_decide_eq_false_2 by done].
    { replace (max_new_tokens `max` 1) with 1 by lia. simpl. by destruct (decide _). }
    split_and!; [exists []; by rewrite app_nil_r| |simpl; lia..].
    replace (max_new_tokens `max` 1) with (S (max_new_tokens - 1)) by lia. simpl. unfold rest. by rewrite decide_False. }
  destruct (all_finished rows) eqn:Ef.
  { eexists. split; [done|]. apply rows_done_tokens. exact (finished_done reads first tok max_new_tokens eos 0 prompts _ (Hinv d) Ef). }
  unfold rebind_drafter_from_seed. destruct (proj2 Hd (b_next_shared_kv vo) (kv_offset_per_row vo)
    (bonus_position_per_row vo) (kv_valid_len_per_row vo) (left_padding_per_row vo) d) as [d' ->].
  destruct (batch_loop_spec sampler fresh reads first tok Hl Hd g max_new_tokens eos max_new_tokens 0 prompts
              (mkBatchRun t1 d' rows vo [])) as (s & E & Hs); [done|simpl; lia|done|lia|].
  rewrite Nat.add_1_r, E. eexists. split; [done|]. by apply rows_done_tokens.
Qed.

(** An instance: the caches are the contexts, the drafter guesses two tokens ahead. *)
Global Instance context_batched_target : MtpBatchedTarget (list (list Z)) () (list (list Z)) := {|
  prefill_and_seed_batched prompts _ _ := (prompts, Ok (tok_by_three <$> prompts, mkBatchVerify tt [] [] [] [] []));
  verify_forward_batched inputs _ ctxs := (ctxs, Ok (zip_with (row_outputs tok_by_three) ctxs inputs, inputs));
  verify_finalize_batched accs _ inputs ctxs :=
    (zip_with (λ ctx '(input, a), ctx ++ take (S a) input) ctxs (zip inputs accs), Ok (mkBatchVerify tt [] [] [] [] []));
  batched_eos_token_ids := [10%Z]
|}.

Global Instance guess_batched_drafter : BatchedDrafter () () := {|
  draft_block_batched bonuses _ bs _ d :=
    (d, Ok ((λ b, take (bs - 1) ([(b + 3) mod 11; (b + 6) mod 11]%Z ++ replicate bs 7%Z)) <$> bonuses));
  set_shared_kv_batched _ _ _ _ _ d := (d, Ok tt);
  b_configured_block_size _ := Some 4;
  b_prefer_requested_block_size _ := false
|}.

Lemma context_batched_laws sampler :
  BatchLaws (T := list (list Z)) (A := ()) (C := list (list Z)) sampler (λ _, True) eq tok_by_three tok_by_three.
Proof.
  split; [intros t prompts _ _; by eexists _, _|]. intros t ctxs inputs bs -> Hl Hb HF. eexists _, _. split; [done|].
  intros accs _ _. by eexists _, _.
Qed.

Lemma guess_batched_ok sampler : batch_drafts_ok (D := ()) (A := ()) sampler.
Proof.
  split; [|intros; by eexists]. intros bonuses h bs d. eexists _, _. split; [done|]. rewrite length_fmap. split; [done|].
  apply Forall_fmap, Forall_forall. intros b _. cbn [compose]. rewrite length_take, length_app, length_replicate. simpl. lia.
Qed.

Lemma mtp_batch_exact_witness :
  ∃ g rows, batched_new (T := list (list Z)) [] () 4 = Some g ∧
    run_batched g [[1; 2]; [1]; [3; 4; 4]]%Z greedy 9 = Some (Ok rows) ∧
    row_tokens <$> rows = [[5; 8; 0; 3; 6; 9; 1; 4; 7]; [4; 7; 10]; [7; 10]]%Z ∧
    row_accepts <$> rows = [[2; 2; 2]; [2; 2; 2]; [2; 2; 2]].
Proof.
  assert (batched_new (T := list (list Z)) (A := ()) (D := ()) [] () 4 = Some (mkBatchGen [] () 4 4 false)) as Hn by reflexivity.
  destruct (mtp_batch_exact (T := list (list Z)) (A := ()) (C := list (list Z)) (D := ()) greedy (λ _, True) eq
              tok_by_three tok_by_three [] () 4 (mkBatchGen [] () 4 4 false) [[1; 2]; [1]; [3; 4; 4]]%Z 9
              (context_batched_laws greedy) (guess_batched_ok greedy) I Hn ltac:(discriminate) ltac:(by repeat constructor))
    as (rows & E & Ht).
  exists (mkBatchGen [] () 4 4 false), rows. split; [reflexivity|]. split; [exact E|]. split.
  - rewrite Ht. vm_compute. reflexivity.
  - vm_compute in E. injection E as <-. vm_compute. reflexivity.
Defined.

(** A budget of zero still emits the first token of every row, where one sequence emits
    nothing. *)
Lemma batch_of_no_budget :
  (λ r, match r with Ok rows => row_tokens <$> rows | _ => [] end) <$>
    run_batched (T := list (list Z)) (mkBatchGen [] () 4 4 false) [[1; 2]]%Z greedy 0 = Some [[5%Z]] ∧
  (λ '(_, toks, _), toks) <$>
    mtp_generate (T := list Z) (mkMtp [] () 4 4 false None) [1; 2]%Z 0 greedy [] (λ _, false) false = Some [].
Proof. done. Qed.
