(* ===== verification/KvSerde.v ===== *)
(** * The cache payload of a prefill/decode handoff

    [distributed/kv_cache_serde/types.rs], [serialize.rs] and [deserialize.rs]: the plain
    data a prefill node sends for one sequence, its frame, and the checks the decode node
    makes before it touches its cache pool. Also the sampling parameters that travel with
    it ([disaggregated/serving_protocol.rs]).

    The metadata of a frame is JSON written and read by the [serde_json] crate, the
    interface [CacheJson]. Bytes and [u64] identifiers are [N], [usize] is [nat] and
    [i32] is [Z]. Error messages are kept as constructors. *)

From Stdlib Require Import SpecFloat.
From S2P Require Import Prelude Bytes WireHeader Mlx PagedPool CachePool Sampling.

Definition CACHE_FORMAT_VERSION_V1 : N := 1.
Definition CACHE_FORMAT_VERSION_V2 : N := 2.
Definition CACHE_FORMAT_VERSION : N := CACHE_FORMAT_VERSION_V2.

(** ** Data *)

Inductive CacheType := CtStandard | CtRotating | CtChunked.

Definition cache_type_to_u8 (t : CacheType) : N :=
  match t with CtStandard => 0 | CtRotating => 1 | CtChunked => 2 end.

Inductive SerializableSequenceBackend := SerDense | SerPaged | SerModelOwned.

Global Instance SerializableSequenceBackend_eq_dec : EqDecision SerializableSequenceBackend.
Proof. solve_decision. Defined.

Definition backend_from_runtime (b : SequenceStateBackend) : SerializableSequenceBackend :=
  match b with DenseKvCache => SerDense | PagedKvCache => SerPaged | ModelOwned => SerModelOwned end.

Record SerializablePagedLayerState := mkSLayer {
  sl_block_ids : list N;
  sl_len : nat;
  sl_logical_start : nat;
}.

Definition layer_from_runtime (s : PagedLayerState) : SerializablePagedLayerState :=
  mkSLayer (block_ids s) (len s) (logical_start s).

Definition layer_to_runtime (s : SerializablePagedLayerState) : PagedLayerState :=
  mkLayerState (sl_block_ids s) (sl_len s) (sl_logical_start s `min` sl_len s).

Record SerializablePagedSequenceState := mkSPaged {
  sp_block_size : nat;
  sp_bytes_per_block : list nat;
  sp_layers : list SerializablePagedLayerState;
}.

Definition paged_from_runtime (st : PagedSequenceState) (lay : PagedKvLayout) : SerializablePagedSequenceState :=
  mkSPaged (seq_block_size st) (bytes_per_block lay) (layer_from_runtime <$> layers st).

Record RawTensorData := mkRaw { rt_data : list N; rt_shape : list Z; rt_dtype : Z }.

Record SerializableCacheEntry := mkEntry { en_keys : option RawTensorData; en_values : option RawTensorData }.

Record SerializablePagedBlock := mkSBlock {
  sb_block_id : N;
  sb_layer_idx : nat;
  sb_keys : RawTensorData;
  sb_values : RawTensorData;
}.

Record CacheMetadata := mkCacheMeta {
  cm_prompt_len : nat;
  cm_current_offset : Z;
  cm_num_layers : nat;
  cm_layer_offsets : list Z;
  cm_max_size : option Z;
  cm_layer_indices : option (list Z);
  cm_chunk_size : option Z;
  cm_start_positions : option (list Z);
}.

Record SerializableSamplingState := mkSSampling {
  ss_temperature : spec_float;
  ss_top_k : Z;
  ss_top_p : spec_float;
  ss_min_p : spec_float;
  ss_seed : option N;
  ss_repetition_penalty : spec_float;
  ss_dry_multiplier : spec_float;
  ss_dry_base : spec_float;
  ss_dry_allowed_length : nat;
  ss_dry_penalty_last_n : nat;
  ss_dry_sequence_breakers : list Z;
  ss_frequency_penalty : spec_float;
  ss_presence_penalty : spec_float;
  ss_stop_token_ids : list Z;
}.

Record SerializableCacheState := mkCacheState {
  cs_cache_type : CacheType;
  cs_entries : list SerializableCacheEntry;
  cs_metadata : CacheMetadata;
  cs_sampling_state : option SerializableSamplingState;
  cs_token_history : list Z;
  cs_generated_tokens : list Z;
  cs_sequence_id : N;
  cs_sequence_backend : SerializableSequenceBackend;
  cs_paged_state : option SerializablePagedSequenceState;
  cs_paged_blocks : list SerializablePagedBlock;
}.

Record CacheIngestLimits := mkLimits {
  max_frame_bytes : N;
  max_paged_blocks : N;
  max_block_slab_bytes : N;
}.

(** [16 << 30], [1 << 20] and [64 << 20]. *)
Definition default_limits : CacheIngestLimits := mkLimits 17179869184 1048576 67108864.

Record ExpectedBlockGeometry := mkGeometry {
  eg_num_layers : nat;
  eg_block_size : nat;
  eg_n_kv_heads : Z;
  eg_head_dim : Z;
  eg_dtype : Z;
}.

Definition expected_slab_shape (g : ExpectedBlockGeometry) : list Z :=
  [i32 (eg_block_size g); eg_n_kv_heads g; eg_head_dim g].

(** ** Errors *)

Inductive serde_error :=
  | JsonWrite | MetadataTooLong | TooManyLayers
  | FrameTooLarge (n limit : N) | BufferTooShort (n : N) | BadVersion (v : N) | UnknownCacheType (v : N)
  | MetadataLimit (n limit : N) | ShortForJson (need got : N) | JsonRead
  | HeaderLayers (header json : nat) | MetadataLayers (header meta : nat)
  | BadLayout (e : pool_error) | PagedLayerCount (state layout : nat)
  | StartPastLen (layer : nat) | TooFewBlocks (layer got required : nat)
  | NegativeDim (axis : nat) | UnknownMlxDtype (d : Z) | TensorOverflow | ByteOverflow
  | TensorSize (expected got : N) | MlxConstruct
  | EntryCount (state caches : nat) | HalfEntry (layer : nat)
  | PagedBlocksLimit (n limit : N) | SlabTooLarge (i : nat) | BlockLayerRange (i : nat)
  | SlabShape (i : nat) | SlabDtype (i : nat) | TwoLayers (b : N) (l l' : nat)
  | MissingPagedState | ContentsOnOtherLayer (b : N) (l l' : nat) | NoContents (b : N) (l : nat)
  | EmptyBlockTable | NoBlockContents (n : nat) | OrphanContents (b : N)
  | PagedIntoNonPaged | SerdeNotFound (id : N) | PoolSays (e : cache_error) | NotHandoffFrame.

Abbreviation serde := (outcome serde_error).

(** ** Paged metadata *)

Definition paged_layout_of (s : SerializablePagedSequenceState) : serde PagedKvLayout :=
  match layout_new (sp_block_size s) (sp_bytes_per_block s) with
  | Ok lay => Ok lay | Err e => Err (BadLayout e) | Panic => Panic end.

Fixpoint validate_layers (bs : nat) (l : nat) (ls : list SerializablePagedLayerState) : serde () :=
  match ls with
  | [] => Ok tt
  | s :: ls' =>
    _ ← ensure (¬ sl_len s < sl_logical_start s) (StartPastLen l);
    let required_blocks := div_ceil (sl_len s) bs in
    _ ← ensure (¬ length (sl_block_ids s) < required_blocks)
          (TooFewBlocks l (length (sl_block_ids s)) required_blocks);
    validate_layers bs (S l) ls'
  end.

Definition paged_validate (s : SerializablePagedSequenceState) : serde () :=
  lay ← paged_layout_of s;
  _ ← ensure (length (sp_layers s) = num_layers lay) (PagedLayerCount (length (sp_layers s)) (num_layers lay));
  validate_layers (block_size lay) 0 (sp_layers s).

Definition paged_to_runtime (s : SerializablePagedSequenceState) : serde PagedSequenceState :=
  _ ← paged_validate s;
  Ok (mkSeqState (sp_block_size s) (layer_to_runtime <$> sp_layers s)).

(** ** Tensors *)

Definition mlx_dtype_element_size (d : Z) : serde N :=
  if decide (d ∈ [0; 1; 5]%Z) then Ok 1%N else
  if decide (d ∈ [2; 6; 9; 12]%Z) then Ok 2%N else
  if decide (d ∈ [3; 7; 10]%Z) then Ok 4%N else
  if decide (d ∈ [4; 8; 11; 13]%Z) then Ok 8%N else Err (UnknownMlxDtype d).

Fixpoint check_dims (i : nat) (shape : list Z) : serde () :=
  match shape with
  | [] => Ok tt
  | d :: r => _ ← ensure (¬ (d < 0)%Z) (NegativeDim i); check_dims (S i) r
  end.

Definition validate_raw_tensor (t : RawTensorData) : serde () :=
  _ ← check_dims 0 (rt_shape t);
  element_size ← mlx_dtype_element_size (rt_dtype t);
  num_elements ← ok_or_err (checked_product (Z.to_N <$> rt_shape t)) TensorOverflow;
  expected_bytes ← ok_or_err (checked_mul_u64 num_elements element_size) ByteOverflow;
  ensure (N.of_nat (length (rt_data t)) = expected_bytes)
    (TensorSize expected_bytes (N.of_nat (length (rt_data t)))).

(** ** Frames *)

(** [serde_json::to_vec] and [from_slice] at [SerializableCacheState]. *)
Class CacheJson := {
  cache_to_vec : SerializableCacheState → option (list N);
  cache_from_slice : list N → option SerializableCacheState;
}.

Definition presence (e : SerializableCacheEntry) : N :=
  match en_keys e, en_values e with Some _, Some _ => 1 | _, _ => 0 end.

Definition try_u32 (n : nat) (e : serde_error) : serde N :=
  if (N.of_nat n <=? u32_max)%N then Ok (N.of_nat n) else Err e.

Definition cache_type_try_from (v : N) : serde CacheType :=
  match v with
  | 0 => Ok CtStandard | 1 => Ok CtRotating | 2 => Ok CtChunked | _ => Err (UnknownCacheType v)
  end%N.

Section frames.
Context {J : CacheJson}.

Definition serialize_cache_state (s : SerializableCacheState) : serde (list N) :=
  metadata_json ← ok_or_err (cache_to_vec s) JsonWrite;
  metadata_len ← try_u32 (length metadata_json) MetadataTooLong;
  num_layers ← try_u32 (length (cs_entries s)) TooManyLayers;
  Ok ([CACHE_FORMAT_VERSION; cache_type_to_u8 (cs_cache_type s)]
      ++ to_le_bytes 4 num_layers ++ to_le_bytes 4 metadata_len ++ metadata_json
      ++ (presence <$> cs_entries s)).

Definition deserialize_cache_state_with_limits (buf : list N) (limits : CacheIngestLimits) :
    serde SerializableCacheState :=
  let n := N.of_nat (length buf) in
  _ ← ensure (n ≤ max_frame_bytes limits)%N (FrameTooLarge n (max_frame_bytes limits));
  _ ← ensure (10 ≤ n)%N (BufferTooShort n);
  version ← at_ 0 buf;
  _ ← ensure (version = CACHE_FORMAT_VERSION_V1 ∨ version = CACHE_FORMAT_VERSION) (BadVersion version);
  t ← at_ 1 buf;
  _cache_type ← cache_type_try_from t;
  layers_bytes ← sub_ 2 6 buf;
  let num_layers := N.to_nat (from_le_bytes layers_bytes) in
  len_bytes ← sub_ 6 10 buf;
  let metadata_len := from_le_bytes len_bytes in
  _ ← ensure (metadata_len ≤ max_frame_bytes limits)%N (MetadataLimit metadata_len (max_frame_bytes limits));
  let metadata_end := (10 + metadata_len)%N in
  _ ← ensure (metadata_end ≤ n)%N (ShortForJson metadata_end n);
  json ← sub_ 10 (N.to_nat metadata_end) buf;
  s ← ok_or_err (cache_from_slice json) JsonRead;
  _ ← ensure (length (cs_entries s) = num_layers) (HeaderLayers num_layers (length (cs_entries s)));
  _ ← ensure (cm_num_layers (cs_metadata s) = num_layers) (MetadataLayers num_layers (cm_num_layers (cs_metadata s)));
  _ ← (match cs_paged_state s with Some ps => paged_validate ps | None => Ok tt end);
  Ok s.

Definition deserialize_cache_state (buf : list N) : serde SerializableCacheState :=
  deserialize_cache_state_with_limits buf default_limits.
End frames.

(** ** Checking a paged payload *)

Definition check_slabs (limits : CacheIngestLimits) (i : nat) (b : SerializablePagedBlock) : serde () :=
  check_all (λ slab, ensure (N.of_nat (length (rt_data slab)) ≤ max_block_slab_bytes limits)%N (SlabTooLarge i))
    [sb_keys b; sb_values b].

Definition check_geometry (g : ExpectedBlockGeometry) (i : nat) (b : SerializablePagedBlock) : serde () :=
  check_all (λ slab, _ ← ensure (rt_shape slab = expected_slab_shape g) (SlabShape i);
                     ensure (rt_dtype slab = eg_dtype g) (SlabDtype i))
    [sb_keys b; sb_values b].

(** The loop over the transferred blocks; [m] is [block_layer]. *)
Fixpoint index_blocks (limits : CacheIngestLimits) (expected : option ExpectedBlockGeometry) (n : option nat)
    (i : nat) (bs : list SerializablePagedBlock) (m : gmap N nat) : serde (gmap N nat) :=
  match bs with
  | [] => Ok m
  | b :: bs' =>
    _ ← check_slabs limits i b;
    _ ← (match n with Some n => ensure (sb_layer_idx b < n) (BlockLayerRange i) | None => Ok tt end);
    _ ← (match expected with Some g => check_geometry g i b | None => Ok tt end);
    _ ← (match m !! sb_block_id b with
         | Some prev => ensure (prev = sb_layer_idx b) (TwoLayers (sb_block_id b) prev (sb_layer_idx b))
         | None => Ok tt
         end);
    index_blocks limits expected n (S i) bs' (<[sb_block_id b := sb_layer_idx b]> m)
  end.

Definition check_entry (has_blocks : bool) (m : gmap N nat) (l : nat) (b : N) : serde () :=
  if has_blocks then
    match m !! b with
    | Some l' => ensure (l' = l) (ContentsOnOtherLayer b l l')
    | None => Err (NoContents b l)
    end
  else Ok tt.

Fixpoint check_tables (has_blocks : bool) (m : gmap N nat) (l : nat) (ls : list SerializablePagedLayerState) : serde () :=
  match ls with
  | [] => Ok tt
  | s :: ls' => _ ← check_all (check_entry has_blocks m l) (sl_block_ids s); check_tables has_blocks m (S l) ls'
  end.

Definition is_paged_payload (s : SerializableCacheState) : bool :=
  bool_decide (cs_sequence_backend s = SerPaged) || bool_decide (is_Some (cs_paged_state s))
  || negb (bool_decide (length (cs_paged_blocks s) = 0)).

Definition validate_paged_payload (s : SerializableCacheState) (limits : CacheIngestLimits)
    (expected : option ExpectedBlockGeometry) : serde () :=
  if negb (is_paged_payload s) then Ok tt else
  let count := N.of_nat (length (cs_paged_blocks s)) in
  _ ← ensure (count ≤ max_paged_blocks limits)%N (PagedBlocksLimit count (max_paged_blocks limits));
  let num_layers := match expected with
                    | Some g => Some (eg_num_layers g)
                    | None => length ∘ sp_layers <$> cs_paged_state s
                    end in
  block_layer ← index_blocks limits expected num_layers 0 (cs_paged_blocks s) ∅;
  ps ← ok_or_err (cs_paged_state s) MissingPagedState;
  let has_blocks := negb (bool_decide (length (cs_paged_blocks s) = 0)) in
  let referenced := sp_layers ps ≫= sl_block_ids in
  _ ← check_tables has_blocks block_layer 0 (sp_layers ps);
  _ ← ensure (length referenced ≠ 0) EmptyBlockTable;
  _ ← ensure (has_blocks = true) (NoBlockContents (length referenced));
  check_all (λ b, ensure (sb_block_id b ∈ referenced) (OrphanContents (sb_block_id b))) (cs_paged_blocks s).

(** ** Sampling parameters *)

Definition sampling_to_serializable (c : SamplingConfig) : SerializableSamplingState :=
  mkSSampling (temperature c) (top_k c) (top_p c) (min_p c) (seed c) (repetition_penalty c)
    (dry_multiplier c) (dry_base c) (dry_allowed_length c) (dry_penalty_last_n c) (dry_sequence_breakers c)
    (frequency_penalty c) (presence_penalty c) (stop_token_ids c).

Definition sampling_from_serializable (s : SerializableSamplingState) : SamplingConfig :=
  mkSampling (ss_temperature s) (ss_top_k s) (ss_top_p s) (ss_min_p s) (ss_seed s) (ss_repetition_penalty s)
    (ss_dry_multiplier s) (ss_dry_base s) (ss_dry_allowed_length s) (ss_dry_penalty_last_n s)
    (ss_dry_sequence_breakers s) (ss_frequency_penalty s) (ss_presence_penalty s) (ss_stop_token_ids s) bias_empty.

(** JSON has no number for an infinity or a NaN. *)
Definition finite_f32 (f : spec_float) : bool :=
  match f with S754_zero _ | S754_finite _ _ _ => true | _ => false end.

Definition finite_sampling (x : SerializableSamplingState) : Prop :=
  Forall (λ f, finite_f32 f = true)
    [ss_temperature x; ss_top_p x; ss_min_p x; ss_repetition_penalty x; ss_dry_multiplier x; ss_dry_base x;
     ss_frequency_penalty x; ss_presence_penalty x].

(** ** What the checks accept *)

Lemma check_dims_ok i shape : check_dims i shape = Ok tt ↔ Forall (λ d, 0 ≤ d)%Z shape.
Proof.
  revert i. induction shape as [|d r IH]; intros i; [done|]. cbn [check_dims].
  rewrite ensure_bind, IH, Forall_cons. intuition lia.
Qed.

(** A tensor passes exactly when its bytes are the elements its shape and type promise. *)
Lemma validate_raw_tensor_ok t :
  validate_raw_tensor t = Ok tt ↔
  Forall (λ d, 0 ≤ d)%Z (rt_shape t) ∧ ∃ n e, mlx_dtype_element_size (rt_dtype t) = Ok e ∧
    checked_product (Z.to_N <$> rt_shape t) = Some n ∧ checked_mul_u64 n e = Some (N.of_nat (length (rt_data t))).
Proof.
  unfold validate_raw_tensor. rewrite bind_unit_ok, check_dims_ok, outcome_bind_ok. f_equiv. split.
  - intros (e & He & Hr). apply ok_or_err_bind in Hr as (n & Hn & Hr). apply ok_or_err_bind in Hr as (k & Hk & Hr).
    apply ensure_ok in Hr. subst k. by exists n, e.
  - intros (n & e & He & Hn & Hk). exists e. split; [done|]. rewrite Hn. cbn. rewrite Hk. cbn. by apply ensure_ok.
Qed.

Lemma validate_raw_tensor_no_panic t : validate_raw_tensor t ≠ Panic.
Proof.
  unfold validate_raw_tensor. apply bind_no_panic.
  - generalize 0. induction (rt_shape t) as [|d r IH]; intros i; [done|]. cbn [check_dims].
    by apply ensure_bind_no_panic.
  - intros _. apply bind_no_panic; [by unfold mlx_dtype_element_size; repeat case_decide|]. intros e.
    apply bind_no_panic; [apply ok_or_err_no_panic|]. intros n.
    apply bind_no_panic; [apply ok_or_err_no_panic|]. intros k. apply ensure_no_panic.
Qed.

(** The layers of a valid table: the live window starts within the length, and the blocks
    cover the length. *)
Definition layer_valid (bs : nat) (s : SerializablePagedLayerState) : Prop :=
  sl_logical_start s ≤ sl_len s ∧ div_ceil (sl_len s) bs ≤ length (sl_block_ids s).

Lemma validate_layers_ok bs l ls : validate_layers bs l ls = Ok tt ↔ Forall (layer_valid bs) ls.
Proof.
  revert l. induction ls as [|s ls IH]; intros l; [done|]. cbn [validate_layers].
  rewrite !ensure_bind, IH, Forall_cons. unfold layer_valid. intuition lia.
Qed.

Lemma validate_layers_no_panic bs l ls : validate_layers bs l ls ≠ Panic.
Proof.
  revert l. induction ls as [|s ls IH]; intros l; [done|]. cbn [validate_layers].
  apply ensure_bind_no_panic. intros _. by apply ensure_bind_no_panic.
Qed.

Lemma layout_new_no_panic bs bytes : layout_new bs bytes ≠ Panic.
Proof. unfold layout_new, new_with_mode. by repeat case_match. Qed.

Lemma paged_validate_no_panic s : paged_validate s ≠ Panic.
Proof.
  unfold paged_validate, paged_layout_of. pose proof (layout_new_no_panic (sp_block_size s) (sp_bytes_per_block s)).
  destruct (layout_new _ _) as [lay| |]; [|done|done]. apply ensure_bind_no_panic. intros _.
  apply validate_layers_no_panic.
Qed.

(** The layout a payload describes: its own block size, one layer per byte count. *)
Lemma layout_new_Ok bs bytes lay : layout_new bs bytes = Ok lay →
  block_size lay = bs ∧ num_layers lay = length bytes ∧ 0 < bs.
Proof.
  unfold layout_new, new_with_mode. cbn [is_turbo]. case_decide; [done|]. case_decide; [done|].
  case_match; [by case_match|]. cbn. intros [= <-]. cbn. lia.
Qed.

Lemma layer_to_runtime_valid bs s : layer_valid bs s →
  layer_to_runtime s = mkLayerState (sl_block_ids s) (sl_len s) (sl_logical_start s).
Proof. intros [H _]. unfold layer_to_runtime. by rewrite Nat.min_l. Qed.

(** A table that was taken from a running sequence comes back as it was. *)
Lemma paged_to_from_runtime st lay :
  paged_validate (paged_from_runtime st lay) = Ok tt →
  paged_to_runtime (paged_from_runtime st lay) = Ok st.
Proof.
  intros Hv. unfold paged_to_runtime. rewrite Hv. cbn [mbind outcome_bind]. f_equal.
  unfold paged_validate in Hv. apply outcome_bind_ok in Hv as (lay' & _ & Hv). apply ensure_bind in Hv as [_ Hv].
  apply validate_layers_ok in Hv. cbn in *. destruct st as [bs ls]. cbn in *. f_equal.
  clear -Hv. induction ls as [|s ls IH]; [done|]. cbn in *. inversion Hv; subst. f_equal; [|by apply IH].
  erewrite layer_to_runtime_valid by done. by destruct s.
Qed.

(** ** Which payloads pass *)

(** A transferred block within the limits and of the decode model's geometry. *)
Record block_ok (limits : CacheIngestLimits) (expected : option ExpectedBlockGeometry) (n : option nat)
    (b : SerializablePagedBlock) : Prop := {
  bo_slabs : Forall (λ t, N.of_nat (length (rt_data t)) ≤ max_block_slab_bytes limits)%N [sb_keys b; sb_values b];
  bo_layer k : n = Some k → sb_layer_idx b < k;
  bo_geometry g : expected = Some g →
    Forall (λ t, rt_shape t = expected_slab_shape g ∧ rt_dtype t = eg_dtype g) [sb_keys b; sb_values b];
}.

Definition layers_expected (s : SerializableCacheState) (expected : option ExpectedBlockGeometry) : option nat :=
  match expected with
  | Some g => Some (eg_num_layers g)
  | None => length ∘ sp_layers <$> cs_paged_state s
  end.

Record payload_ok (s : SerializableCacheState) (limits : CacheIngestLimits)
    (expected : option ExpectedBlockGeometry) (ps : SerializablePagedSequenceState) : Prop := {
  po_state : cs_paged_state s = Some ps;
  po_some : cs_paged_blocks s ≠ [];
  po_count : (N.of_nat (length (cs_paged_blocks s)) ≤ max_paged_blocks limits)%N;
  po_blocks : Forall (block_ok limits expected (layers_expected s expected)) (cs_paged_blocks s);
  po_unique b b' : b ∈ cs_paged_blocks s → b' ∈ cs_paged_blocks s → sb_block_id b = sb_block_id b' →
    sb_layer_idx b = sb_layer_idx b';
  po_contents l ls id : sp_layers ps !! l = Some ls → id ∈ sl_block_ids ls →
    ∃ b, b ∈ cs_paged_blocks s ∧ sb_block_id b = id ∧ sb_layer_idx b = l;
  po_referenced b : b ∈ cs_paged_blocks s →
    ∃ ls, sp_layers ps !! sb_layer_idx b = Some ls ∧ sb_block_id b ∈ sl_block_ids ls;
}.

Lemma check_slabs_ok limits i b : check_slabs limits i b = Ok tt ↔
  Forall (λ t, N.of_nat (length (rt_data t)) ≤ max_block_slab_bytes limits)%N [sb_keys b; sb_values b].
Proof. unfold check_slabs. rewrite check_all_ok. apply Forall_iff. intros t. apply ensure_ok. Qed.

Lemma check_geometry_ok g i b : check_geometry g i b = Ok tt ↔
  Forall (λ t, rt_shape t = expected_slab_shape g ∧ rt_dtype t = eg_dtype g) [sb_keys b; sb_values b].
Proof.
  unfold check_geometry. rewrite check_all_ok. apply Forall_iff. intros t. by rewrite ensure_bind, ensure_ok.
Qed.

(** [m'] is [m] with the layers of the blocks [bs], which agree with it and among
    themselves. *)
Record indexed (bs : list SerializablePagedBlock) (m m' : gmap N nat) : Prop := {
  ix_new b : b ∈ bs → m' !! sb_block_id b = Some (sb_layer_idx b);
  ix_old id : (∀ b, b ∈ bs → sb_block_id b ≠ id) → m' !! id = m !! id;
  ix_agree id l : m !! id = Some l → m' !! id = Some l;
}.

Lemma index_blocks_ok limits expected n bs : ∀ i m m',
  index_blocks limits expected n i bs m = Ok m' ↔ Forall (block_ok limits expected n) bs ∧
    m' = foldl (λ m b, <[sb_block_id b := sb_layer_idx b]> m) m bs ∧ indexed bs m m'.
Proof.
  induction bs as [|b bs IH]; intros i m m'; cbn [index_blocks foldl].
  { split; [intros [= <-]; split_and!; [done|done|split; set_solver]|]. by intros (_ & -> & _). }
  rewrite !bind_unit_ok, IH, check_slabs_ok, (Forall_cons (block_ok limits expected n)).
  set (m1 := <[sb_block_id b := sb_layer_idx b]> m).
  assert ((match m !! sb_block_id b with
    | Some prev => ensure (prev = sb_layer_idx b) (TwoLayers (sb_block_id b) prev (sb_layer_idx b))
    | None => Ok tt end = Ok tt) ↔ ∀ l, m !! sb_block_id b = Some l → l = sb_layer_idx b) as ->.
  { destruct (m !! sb_block_id b) as [l|]; [rewrite ensure_ok|]; naive_solver. }
  assert ((match n with Some n => ensure (sb_layer_idx b < n) (BlockLayerRange i) | None => Ok tt end = Ok tt) ↔
    ∀ k, n = Some k → sb_layer_idx b < k) as -> by (destruct n; [rewrite ensure_ok|]; naive_solver).
  assert ((match expected with Some g => check_geometry g i b | None => Ok tt end = Ok tt) ↔
    ∀ g, expected = Some g → Forall (λ t, rt_shape t = expected_slab_shape g ∧ rt_dtype t = eg_dtype g) [sb_keys b; sb_values b]) as ->
    by (destruct expected; [rewrite check_geometry_ok|]; naive_solver).
  split.
  - intros (H1 & H2 & H3 & H4 & H5 & H6 & [I1 I2 I3]). split; [by split; [split|]|]. split; [done|]. split.
    + intros b' [->|Hb']%elem_of_cons; [|by apply I1]. apply I3. apply lookup_insert_eq.
    + intros id Hid. rewrite I2 by set_solver. unfold m1. apply lookup_insert_ne. set_solver.
    + intros id l Hl. apply I3. unfold m1. destruct (decide (id = sb_block_id b)) as [->|Hne].
      * rewrite lookup_insert_eq. by rewrite (H4 l Hl).
      * by rewrite lookup_insert_ne.
  - intros ([[H1 H2 H3] H5] & H6 & [I1 I2 I3]). split_and!; try done.
    + intros l Hl. apply I3 in Hl. rewrite I1 in Hl by left. congruence.
    + split.
      * intros b' Hb'. apply I1. by right.
      * intros id Hid. destruct (decide (id = sb_block_id b)) as [->|Hne].
        -- rewrite I1 by left. unfold m1. by rewrite lookup_insert_eq.
        -- rewrite I2; [unfold m1; by rewrite lookup_insert_ne|]. set_solver.
      * intros id l. unfold m1. destruct (decide (id = sb_block_id b)) as [->|Hne].
        -- rewrite lookup_insert_eq. intros [= <-]. apply I1. by left.
        -- rewrite lookup_insert_ne by done. apply I3.
Qed.

(** Blocks that agree on their layers are indexed. *)
Lemma indexed_agree bs : ∀ m,
  (∀ b b', b ∈ bs → b' ∈ bs → sb_block_id b = sb_block_id b' → sb_layer_idx b = sb_layer_idx b') →
  (∀ b l, b ∈ bs → m !! sb_block_id b = Some l → l = sb_layer_idx b) →
  indexed bs m (foldl (λ m b, <[sb_block_id b := sb_layer_idx b]> m) m bs).
Proof.
  induction bs as [|b bs IH]; intros m Hu Hm; cbn [foldl]; [split; set_solver|].
  destruct (IH (<[sb_block_id b := sb_layer_idx b]> m)) as [I1 I2 I3].
  - intros b1 b2 H1 H2. apply Hu; by right.
  - intros b' l Hb'. rewrite lookup_insert. case_decide as He; [|apply Hm; by right].
    intros [= <-]. apply Hu; [by left|by right|done].
  - split.
    + intros b' [->|Hb']%elem_of_cons; [|by apply I1]. apply I3. apply lookup_insert_eq.
    + intros id Hid. rewrite I2 by set_solver. apply lookup_insert_ne. set_solver.
    + intros id l Hl. apply I3. rewrite lookup_insert. case_decide as He; [|done]. subst id.
      by rewrite (Hm b l) by (done || by left).
Qed.

Lemma check_tables_ok m ls : ∀ l, check_tables true m l ls = Ok tt ↔
  ∀ k s id, ls !! k = Some s → id ∈ sl_block_ids s → m !! id = Some (l + k).
Proof.
  induction ls as [|s ls IH]; intros l; cbn [check_tables]; [done|].
  rewrite bind_unit_ok, check_all_ok, IH, Forall_forall. split.
  - intros [H1 H2] [|k] s' id Hs Hid; cbn in Hs; simplify_eq.
    + specialize (H1 id Hid). cbn in H1. destruct (m !! id) as [l'|]; [|done]. apply ensure_ok in H1. f_equal. lia.
    + rewrite (H2 k s' id) by done. f_equal. lia.
  - intros H. split.
    + intros id Hid. cbn. rewrite (H 0 s id) by done. apply ensure_ok. lia.
    + intros k s' id Hs Hid. rewrite (H (S k) s' id) by done. f_equal. lia.
Qed.

Lemma elem_of_tables (ls : list SerializablePagedLayerState) id :
  id ∈ ls ≫= sl_block_ids ↔ ∃ l s, ls !! l = Some s ∧ id ∈ sl_block_ids s.
Proof.
  rewrite list_elem_of_bind. split.
  - intros (s & Hid & [l Hl]%list_elem_of_lookup_1). by exists l, s.
  - intros (l & s & Hl & Hid). exists s. split; [done|]. by eapply list_elem_of_lookup_2.
Qed.

(** The acceptance condition, spelled out. A block id may be sent several times, as long as
    every copy names the same layer. *)
Lemma validate_paged_payload_ok s limits expected :
  validate_paged_payload s limits expected = Ok tt ↔
  is_paged_payload s = false ∨ ∃ ps, payload_ok s limits expected ps.
Proof.
  unfold validate_paged_payload. destruct (is_paged_payload s) eqn:Hp; cbn [negb]; [|by split; [left|]].
  fold (layers_expected s expected). rewrite ensure_bind, outcome_bind_ok. split.
  - intros (Hc & m & Hm & Hr). right. apply index_blocks_ok in Hm as (Hb & _ & [I1 I2 I3]).
    apply ok_or_err_bind in Hr as (ps & Hps & Hr). exists ps.
    apply bind_unit_ok in Hr as [Ht Hr]. apply ensure_bind in Hr as [_ Hr].
    apply ensure_bind in Hr as [Hh Hr]. rewrite Hh in Ht. pose proof (proj1 (check_tables_ok _ _ _) Ht) as HT.
    apply check_all_ok in Hr. rewrite Forall_forall in Hr.
    split; try done.
    + intros E. by rewrite E in Hh.
    + intros b b' H1 H2 E. apply I1 in H1, H2. rewrite E in H1. congruence.
    + intros l ls id Hls Hid. specialize (HT l ls id Hls Hid). cbn in HT.
      destruct (decide (Exists (λ b, sb_block_id b = id) (cs_paged_blocks s))) as [Hx|Hx].
      * apply Exists_exists in Hx as (b & Hb' & <-). exists b. rewrite I1 in HT by done. naive_solver.
      * exfalso. rewrite I2 in HT; [done|]. intros b Hb' E. apply Hx, Exists_exists. by exists b.
    + intros b Hbb. specialize (Hr b Hbb). apply ensure_ok, elem_of_tables in Hr as (l & ls & Hl & Hid).
      specialize (HT l ls _ Hl Hid). rewrite I1 in HT by done. injection HT as HT. rewrite HT. by exists ls.
  - intros [?|(ps & [P1 P2 P3 P4 P5 P6 P7])]; [done|]. split; [done|].
    exists (foldl (λ m b, <[sb_block_id b := sb_layer_idx b]> m) ∅ (cs_paged_blocks s)).
    pose proof (indexed_agree (cs_paged_blocks s) ∅ P5 ltac:(by intros b l _; rewrite lookup_empty)) as Hix.
    split; [by apply index_blocks_ok|]. rewrite P1. cbn [ok_or_err mbind outcome_bind].
    assert (negb (bool_decide (length (cs_paged_blocks s) = 0)) = true) as ->.
    { rewrite bool_decide_eq_false_2; [done|]. by destruct (cs_paged_blocks s). }
    apply bind_unit_ok. split.
    { apply check_tables_ok. intros k ls id Hk Hid. destruct (P6 k ls id Hk Hid) as (b & Hb & <- & <-).
      by rewrite (ix_new _ _ _ Hix b Hb). }
    assert (∀ b, b ∈ cs_paged_blocks s → sb_block_id b ∈ sp_layers ps ≫= sl_block_ids) as Href.
    { intros b Hb. destruct (P7 b Hb) as (ls & Hl & Hid). apply elem_of_tables. eauto. }
    rewrite !ensure_bind. split_and!; [|done|].
    + destruct (cs_paged_blocks s) as [|b bs]; [done|]. specialize (Href b ltac:(by left)).
      destruct (sp_layers ps ≫= sl_block_ids); [by apply not_elem_of_nil in Href|done].
    + apply check_all_ok, Forall_forall. intros b Hb. apply ensure_ok. by apply Href.
Qed.

Lemma index_blocks_no_panic limits expected n bs : ∀ i m, index_blocks limits expected n i bs m ≠ Panic.
Proof.
  induction bs as [|b bs IH]; intros i m; [done|]. cbn [index_blocks].
  apply bind_no_panic; [apply check_all_no_panic; intros; apply ensure_no_panic|]. intros _.
  apply bind_no_panic; [destruct n; [apply ensure_no_panic|done]|]. intros _.
  apply bind_no_panic.
  { destruct expected; [|done]. apply check_all_no_panic. intros t. apply ensure_bind_no_panic. intros _.
    apply ensure_no_panic. }
  intros _. apply bind_no_panic; [destruct (m !! _); [apply ensure_no_panic|done]|]. intros _. apply IH.
Qed.

Lemma check_tables_no_panic h m ls : ∀ l, check_tables h m l ls ≠ Panic.
Proof.
  induction ls as [|s ls IH]; intros l; [done|]. cbn [check_tables]. apply bind_no_panic; [|by intros _].
  apply check_all_no_panic. intros id. unfold check_entry. destruct h; [|done].
  destruct (m !! id); [apply ensure_no_panic|done].
Qed.

Lemma validate_paged_payload_no_panic s limits expected : validate_paged_payload s limits expected ≠ Panic.
Proof.
  unfold validate_paged_payload. destruct (negb _); [done|]. apply ensure_bind_no_panic. intros _.
  apply bind_no_panic; [apply index_blocks_no_panic|]. intros m.
  apply bind_no_panic; [apply ok_or_err_no_panic|]. intros ps.
  apply bind_no_panic; [apply check_tables_no_panic|]. intros _.
  apply ensure_bind_no_panic. intros _. apply ensure_bind_no_panic. intros _.
  apply check_all_no_panic. intros b. apply ensure_no_panic.
Qed.

(** ** Frames *)

(** A state a node may send: the layer counts agree and its table, if any, is valid. *)
Record sendable (s : SerializableCacheState) : Prop := {
  sd_layers : cm_num_layers (cs_metadata s) = length (cs_entries s);
  sd_paged ps : cs_paged_state s = Some ps → paged_validate ps = Ok tt;
}.

Section frame_lemmas.
Context {J : CacheJson}.

Lemma serialize_cache_state_Ok s j :
  cache_to_vec s = Some j → (N.of_nat (length j) ≤ u32_max)%N → (N.of_nat (length (cs_entries s)) ≤ u32_max)%N →
  serialize_cache_state s = Ok ([CACHE_FORMAT_VERSION; cache_type_to_u8 (cs_cache_type s)]
    ++ to_le_bytes 4 (N.of_nat (length (cs_entries s))) ++ to_le_bytes 4 (N.of_nat (length j)) ++ j
    ++ (presence <$> cs_entries s)).
Proof.
  intros Hj Hl Hn. unfold serialize_cache_state. rewrite Hj. cbn [ok_or_err mbind outcome_bind].
  unfold try_u32. rewrite (proj2 (N.leb_le _ _) Hl). cbn [mbind outcome_bind].
  by rewrite (proj2 (N.leb_le _ _) Hn).
Qed.

(** Reading back a frame, whatever follows it. *)
Lemma deserialize_frame s j rest limits (n := length (cs_entries s))
    (f := [CACHE_FORMAT_VERSION; cache_type_to_u8 (cs_cache_type s)] ++ to_le_bytes 4 (N.of_nat n)
          ++ to_le_bytes 4 (N.of_nat (length j)) ++ j ++ rest) :
  cache_from_slice j = Some s → sendable s → (N.of_nat (length j) ≤ u32_max)%N → (N.of_nat n ≤ u32_max)%N →
  (N.of_nat (length f) ≤ max_frame_bytes limits)%N → deserialize_cache_state_with_limits f limits = Ok s.
Proof.
  intros Hj [Hm Hps] Hlj Hln Hlim.
  assert (length f = 10 + length j + length rest) as Elen.
  { unfold f. rewrite !length_app, !length_to_le_bytes. cbn. lia. }
  assert (∀ k, (k ≤ u32_max → k < 256 ^ N.of_nat 4)%N) as Hu by (intros k; unfold u32_max; cbn; lia).
  unfold deserialize_cache_state_with_limits.
  apply ensure_bind. split; [done|]. apply ensure_bind. split; [lia|].
  apply outcome_bind_ok. exists CACHE_FORMAT_VERSION. split; [done|].
  apply ensure_bind. split; [by right|].
  apply outcome_bind_ok. exists (cache_type_to_u8 (cs_cache_type s)). split; [done|].
  apply outcome_bind_ok. exists (cs_cache_type s). split; [by destruct (cs_cache_type s)|].
  apply outcome_bind_ok. exists (to_le_bytes 4 (N.of_nat n)). split; [by apply (sub_app [_; _])|].
  apply outcome_bind_ok. exists (to_le_bytes 4 (N.of_nat (length j))). split.
  { unfold f. rewrite app_assoc. apply sub_app; done. }
  rewrite !from_to_le_bytes by (by apply Hu).
  apply ensure_bind. split; [lia|]. apply ensure_bind. split; [lia|].
  apply outcome_bind_ok. exists j. split.
  { unfold f. rewrite (app_assoc [_; _]), (app_assoc ([_; _] ++ _)). apply sub_app; [done|cbn; lia]. }
  apply ok_or_err_bind. exists s. split; [done|]. rewrite Nat2N.id.
  apply ensure_bind. split; [done|]. apply ensure_bind. split; [done|].
  apply bind_unit_ok. split; [|done]. destruct (cs_paged_state s); [by apply Hps|done].
Qed.

Lemma deserialize_no_panic buf limits : deserialize_cache_state_with_limits buf limits ≠ Panic.
Proof.
  unfold deserialize_cache_state_with_limits. apply ensure_bind_no_panic. intros _.
  apply ensure_bind_no_panic. intros Hlen.
  destruct (at_in_range (E := serde_error) 0 buf ltac:(lia)) as [v ->]. cbn [mbind outcome_bind].
  apply ensure_bind_no_panic. intros _.
  destruct (at_in_range (E := serde_error) 1 buf ltac:(lia)) as [t ->]. cbn [mbind outcome_bind].
  apply bind_no_panic; [unfold cache_type_try_from; by repeat case_match|]. intros _.
  destruct (sub_in_range (E := serde_error) 2 6 buf ltac:(lia)) as (x & -> & _). cbn [mbind outcome_bind].
  destruct (sub_in_range (E := serde_error) 6 10 buf ltac:(lia)) as (y & -> & _). cbn [mbind outcome_bind].
  apply ensure_bind_no_panic. intros _. apply ensure_bind_no_panic. intros Hend.
  destruct (sub_in_range (E := serde_error) 10 (N.to_nat (10 + from_le_bytes y)) buf ltac:(lia)) as (z & -> & _).
  cbn [mbind outcome_bind]. apply bind_no_panic; [apply ok_or_err_no_panic|]. intros s.
  apply ensure_bind_no_panic. intros _. apply ensure_bind_no_panic. intros _.
  apply bind_no_panic; [|done]. destruct (cs_paged_state s); [apply paged_validate_no_panic|done].
Qed.
End frame_lemmas.

(** ** Payloads as numbers

    An encoding of payloads for concrete runs. *)
Fixpoint pos_bits (p : positive) : list N :=
  match p with xH => [] | xO p => 0%N :: pos_bits p | xI p => 1%N :: pos_bits p end.
Fixpoint bits_pos (bs : list N) : positive :=
  match bs with [] => xH | b :: bs => if decide (b = 0%N) then xO (bits_pos bs) else xI (bits_pos bs) end.

Lemma bits_pos_bits p : bits_pos (pos_bits p) = p.
Proof. induction p; cbn; by rewrite ?IHp. Qed.

Global Instance CacheType_eq : EqDecision CacheType.
Proof. solve_decision. Defined.
Global Instance spec_float_eq : EqDecision spec_float.
Proof. solve_decision. Defined.
Global Instance SLayer_eq : EqDecision SerializablePagedLayerState.
Proof. solve_decision. Defined.
Global Instance SPaged_eq : EqDecision SerializablePagedSequenceState.
Proof. solve_decision. Defined.
Global Instance Raw_eq : EqDecision RawTensorData.
Proof. solve_decision. Defined.
Global Instance Entry_eq : EqDecision SerializableCacheEntry.
Proof. solve_decision. Defined.
Global Instance SBlock_eq : EqDecision SerializablePagedBlock.
Proof. solve_decision. Defined.
Global Instance CMeta_eq : EqDecision CacheMetadata.
Proof. solve_decision. Defined.
Global Instance SSampling_eq : EqDecision SerializableSamplingState.
Proof. solve_decision. Defined.
Global Instance CState_eq : EqDecision SerializableCacheState.
Proof. solve_decision. Defined.

Global Instance CacheType_countable : Countable CacheType.
Proof.
  apply (inj_countable' cache_type_to_u8 (λ n, match n with 0 => CtStandard | 1 => CtRotating | _ => CtChunked end)%N).
  by intros [].
Defined.
Global Instance Backend_countable : Countable SerializableSequenceBackend.
Proof.
  apply (inj_countable' (λ b, match b with SerDense => 0 | SerPaged => 1 | SerModelOwned => 2 end)%N
    (λ n, match n with 0 => SerDense | 1 => SerPaged | _ => SerModelOwned end)%N).
  by intros [].
Defined.
Global Instance spec_float_countable : Countable spec_float.
Proof.
  apply (inj_countable'
    (λ f, match f with S754_zero b => inl (inl b) | S754_infinity b => inl (inr b) | S754_nan => inr (inl ())
          | S754_finite b m e => inr (inr (b, m, e)) end)
    (λ x : (bool + bool) + (() + bool * positive * Z), match x with inl (inl b) => S754_zero b | inl (inr b) => S754_infinity b | inr (inl _) => S754_nan
          | inr (inr (b, m, e)) => S754_finite b m e end)).
  by intros [].
Defined.
Global Instance SLayer_countable : Countable SerializablePagedLayerState.
Proof.
  apply (inj_countable' (λ x, (sl_block_ids x, sl_len x, sl_logical_start x)) (λ '(a, b, c), mkSLayer a b c)). by intros [].
Defined.
Global Instance SPaged_countable : Countable SerializablePagedSequenceState.
Proof.
  apply (inj_countable' (λ x, (sp_block_size x, sp_bytes_per_block x, sp_layers x)) (λ '(a, b, c), mkSPaged a b c)). by intros [].
Defined.
Global Instance Raw_countable : Countable RawTensorData.
Proof. apply (inj_countable' (λ x, (rt_data x, rt_shape x, rt_dtype x)) (λ '(a, b, c), mkRaw a b c)). by intros []. Defined.
Global Instance Entry_countable : Countable SerializableCacheEntry.
Proof. apply (inj_countable' (λ x, (en_keys x, en_values x)) (λ '(a, b), mkEntry a b)). by intros []. Defined.
Global Instance SBlock_countable : Countable SerializablePagedBlock.
Proof.
  apply (inj_countable' (λ x, (sb_block_id x, sb_layer_idx x, sb_keys x, sb_values x)) (λ '(a, b, c, d), mkSBlock a b c d)).
  by intros [].
Defined.
Global Instance CMeta_countable : Countable CacheMetadata.
Proof.
  apply (inj_countable' (λ x, (cm_prompt_len x, cm_current_offset x, cm_num_layers x, cm_layer_offsets x, cm_max_size x,
    cm_layer_indices x, cm_chunk_size x, cm_start_positions x)) (λ '(a, b, c, d, e, f, g, h), mkCacheMeta a b c d e f g h)).
  by intros [].
Defined.
Global Instance SSampling_countable : Countable SerializableSamplingState.
Proof.
  apply (inj_countable' (λ x, (ss_temperature x, ss_top_k x, ss_top_p x, ss_min_p x, ss_seed x, ss_repetition_penalty x,
    (ss_dry_multiplier x, ss_dry_base x, ss_dry_allowed_length x, ss_dry_penalty_last_n x, ss_dry_sequence_breakers x),
    ss_frequency_penalty x, ss_presence_penalty x, ss_stop_token_ids x))
    (λ '(a, b, c, d, e, f, (g, h, i, j, k), l, m, n), mkSSampling a b c d e f g h i j k l m n)).
  by intros [].
Defined.
Global Instance CState_countable : Countable SerializableCacheState.
Proof.
  apply (inj_countable' (λ x, (cs_cache_type x, cs_entries x, cs_metadata x, cs_sampling_state x, cs_token_history x,
    (cs_generated_tokens x, cs_sequence_id x, cs_sequence_backend x, cs_paged_state x, cs_paged_blocks x)))
    (λ '(a, b, c, d, e, (f, g, h, i, j)), mkCacheState a b c d e f g h i j)).
  by intros [].
Defined.
