(* ===== verification/KvHandoff.v ===== *)
(** * Handing a sequence over to a decode node

    [distributed/kv_cache_serde/serialize.rs] and [deserialize.rs] (extracting a sequence
    from a cache pool, restoring it into one) and [distributed/disaggregated/handoff_impl.rs]
    (the frame a prefill node sends and what the decode node does with it).

    The bytes of a tensor are the library's ([MlxBytes]); the fields of a [KVCache] that the
    dense entries read and write are an interface of that object ([KvFields]). *)

From S2P Require Import Prelude Bytes Mlx PagedPool CachePool KvSerde.

(** [array_to_raw_bytes]: the evaluated, contiguous bytes of an array. [from_bytes]: an array
    over given bytes. *)
Class MlxBytes {X : Mlx} := {
  array_to_raw_bytes : MlxArray → list N;
  from_bytes : list N → list Z → Z → option MlxArray;
}.

Class KvFields {X : Mlx} {KH : KvHandles} := {
  cache_keys : KVCache → option MlxArray;
  cache_values : KVCache → option MlxArray;
  cache_offset : KVCache → Z;
  cache_live_start : KVCache → Z;
  with_kv : option MlxArray → option MlxArray → Z → KVCache → KVCache;
}.

Inductive TransportMessage :=
  | TensorData (tensor_id : string) (shape : list nat) (data : list N)
  | Control (operation : string) (payload : list N).

Definition HANDOFF_TENSOR_ID : string := "kv-cache-handoff".

Section handoff.
Context {X : Mlx} {XB : MlxBytes} {KH : KvHandles} {KF : KvFields} {J : CacheJson}.

(** ** The sending side *)

Definition cache_live_len (c : KVCache) : Z := (cache_offset c - cache_live_start c)%Z.

Definition extract_mlx_array_data (a : MlxArray) : RawTensorData :=
  mkRaw (array_to_raw_bytes a) (array_shape a) (array_dtype a).

(** The filled part of a buffer; [shape[i]] panics when the rank is too small. *)
Definition filled_part (live_len : Z) (a : MlxArray) : serde MlxArray :=
  let s := array_shape a in
  match s !! 0, s !! 1, s !! 3 with
  | Some s0, Some s1, Some s3 => Ok (slice a [0; 0; 0; 0]%Z [s0; s1; live_len; s3])
  | _, _, _ => Panic
  end.

Definition extract_kv_cache_entry (c : KVCache) : serde SerializableCacheEntry :=
  match cache_keys c, cache_values c with
  | Some keys, Some values =>
    if decide (0 < cache_live_len c)%Z then
      filled_k ← filled_part (cache_live_len c) keys;
      filled_v ← filled_part (cache_live_len c) values;
      Ok (mkEntry (Some (extract_mlx_array_data filled_k)) (Some (extract_mlx_array_data filled_v)))
    else Ok (mkEntry None None)
  | _, _ => Ok (mkEntry None None)
  end.

(** [id] is the set's own [seq_id], the key it has in the pool. *)
Definition serialize_sequence_cache_set (id : N) (s : SequenceCacheSet)
    (sampling : option SerializableSamplingState) (token_history : list Z) : serde SerializableCacheState :=
  entries ← mapM (M := serde) extract_kv_cache_entry (caches s);
  Ok (mkCacheState CtStandard entries
        (mkCacheMeta (prompt_len s) (current_offset s) (length (caches s)) (cache_live_len <$> caches s)
           None None None None)
        sampling token_history [] id (backend_from_runtime (backend s))
        (st ← paged s; lay ← paged_layout s; Some (paged_from_runtime st lay))
        []).

Definition serialize_block (ct : BlockContents) : SerializablePagedBlock :=
  mkSBlock (origin_block ct) (origin_layer ct) (extract_mlx_array_data (content_keys ct))
    (extract_mlx_array_data (content_values ct)).

Definition with_paged_blocks (bs : list SerializablePagedBlock) (s : SerializableCacheState) : SerializableCacheState :=
  mkCacheState (cs_cache_type s) (cs_entries s) (cs_metadata s) (cs_sampling_state s) (cs_token_history s)
    (cs_generated_tokens s) (cs_sequence_id s) (cs_sequence_backend s) (cs_paged_state s) bs.

Definition with_generated (g : list Z) (s : SerializableCacheState) : SerializableCacheState :=
  mkCacheState (cs_cache_type s) (cs_entries s) (cs_metadata s) (cs_sampling_state s) (cs_token_history s)
    g (cs_sequence_id s) (cs_sequence_backend s) (cs_paged_state s) (cs_paged_blocks s).

(** [map_err(anyhow::Error::msg)]. *)
Definition from_pool {A} (r : outcome cache_error A) : serde A :=
  match r with Ok a => Ok a | Err e => Err (PoolSays e) | Panic => Panic end.

Definition serialize_cache_pool_sequence (c : CachePool) (id : N) (sampling : option SerializableSamplingState)
    (token_history : list Z) : serde SerializableCacheState :=
  cache_set ← ok_or_err (active c !! id) (SerdeNotFound id);
  state ← serialize_sequence_cache_set id cache_set sampling token_history;
  contents ← from_pool (extract_paged_blocks id c);
  Ok (with_paged_blocks (serialize_block <$> contents) state).

Definition extract_sequence_handoff (c : CachePool) (id : N) (sampling : option SerializableSamplingState)
    (token_history generated_tokens : list Z) : serde (list N) :=
  state ← serialize_cache_pool_sequence c id sampling token_history;
  serialize_cache_state (with_generated generated_tokens state).

(** ** The receiving side *)

Definition reconstruct_mlx_array (t : RawTensorData) : serde MlxArray :=
  _ ← validate_raw_tensor t;
  ok_or_err (from_bytes (rt_data t) (rt_shape t) (rt_dtype t)) MlxConstruct.

Definition restore_entry (offsets : list Z) (i : nat) (e : SerializableCacheEntry) (c : KVCache) : serde KVCache :=
  match en_keys e, en_values e with
  | Some keys, Some values =>
    k ← reconstruct_mlx_array keys;
    v ← reconstruct_mlx_array values;
    Ok (with_kv (Some k) (Some v) (default 0%Z (offsets !! i)) c)
  | None, None => Ok (with_kv None None 0 c)
  | _, _ => Err (HalfEntry i)
  end.

(** The layers before one that fails keep what they were given. *)
Fixpoint restore_entries (offsets : list Z) (i : nat) (es : list SerializableCacheEntry) (cs : list KVCache) :
    list KVCache * serde () :=
  match es, cs with
  | e :: es', c :: cs' =>
    match restore_entry offsets i e c with
    | Ok c' => let '(rest, r) := restore_entries offsets (S i) es' cs' in (c' :: rest, r)
    | Err x => (c :: cs', Err x)
    | Panic => (c :: cs', Panic)
    end
  | _, _ => (cs, Ok tt)
  end.

Definition restore_into_kv_caches (state : SerializableCacheState) : M (list KVCache) serde_error () := λ cs,
  if decide (length (cs_entries state) ≠ length cs)
  then (cs, Err (EntryCount (length (cs_entries state)) (length cs)))
  else restore_entries (cm_layer_offsets (cs_metadata state)) 0 (cs_entries state) cs.

Definition set_progress (m : CacheMetadata) (s : SequenceCacheSet) : SequenceCacheSet :=
  mkSet (backend s) (caches s) (paged s) (cm_prompt_len m) (cm_current_offset m) (paged_layout s).

(** The dense part of both restores, on one cache set. *)
Definition restore_dense (state : SerializableCacheState) (skip : bool) : M SequenceCacheSet serde_error () := λ s,
  let '(cs, r) :=
    if negb skip && (negb (bool_decide (length (cs_entries state) = 0)) || negb (bool_decide (length (caches s) = 0)))
    then restore_into_kv_caches state (caches s) else (caches s, Ok tt) in
  match r with
  | Ok _ => (set_progress (cs_metadata state) (set_caches cs s), Ok tt)
  | _ => (set_caches cs s, r)
  end.

Definition restore_into_sequence_cache_set (state : SerializableCacheState) : M SequenceCacheSet serde_error () :=
  _ ← restore_dense state false;
  s ← get;
  match cs_paged_state state, backend s with
  | Some serialized, PagedKvCache =>
    runtime ← lift (paged_to_runtime serialized);
    modify (set_paged (Some runtime))
  | Some _, _ => throw PagedIntoNonPaged
  | None, PagedKvCache =>
    if decide (cs_sequence_backend state = SerPaged) then throw MissingPagedState else mret tt
  | None, _ => mret tt
  end.

Definition reconstruct_block (b : SerializablePagedBlock) : serde BlockContents :=
  keys ← reconstruct_mlx_array (sb_keys b);
  values ← reconstruct_mlx_array (sb_values b);
  Ok (mkContents (sb_block_id b) (sb_layer_idx b) keys values).

(** A cache pool operation, its error as a message. *)
Definition on_cache_pool {A} (m : M CachePool cache_error A) : M CachePool serde_error A := λ c,
  let '(c', r) := m c in (c', from_pool r).

(** [if let Some(set) = cache_pool.get_mut(id)], with [f] run on the set in place. *)
Definition on_sequence (id : N) (f : M SequenceCacheSet serde_error ()) : M CachePool serde_error () := λ c,
  match active c !! id with
  | None => (c, Err (SerdeNotFound id))
  | Some s => let '(s', r) := f s in (with_active (<[id := s']> (active c)) c, r)
  end.

Definition restore_into_cache_pool_sequence_anchored (state : SerializableCacheState) (id : N)
    (limits : CacheIngestLimits) (expected : option ExpectedBlockGeometry) : M CachePool serde_error () :=
  _ ← lift (validate_paged_payload state limits expected);
  let content_path := negb (bool_decide (length (cs_paged_blocks state) = 0)) in
  _ ← on_sequence id (restore_dense state content_path);
  if content_path then
    serialized ← ok_or (cs_paged_state state) MissingPagedState;
    runtime ← lift (paged_to_runtime serialized);
    contents ← lift (mapM (M := serde) reconstruct_block (cs_paged_blocks state));
    on_cache_pool (restore_paged_state_with_contents id runtime contents)
  else
    match cs_paged_state state with
    | Some serialized =>
      runtime ← lift (paged_to_runtime serialized);
      on_cache_pool (restore_paged_state id runtime)
    | None => if decide (cs_sequence_backend state = SerPaged) then throw MissingPagedState else mret tt
    end.

Definition restore_into_cache_pool_sequence (state : SerializableCacheState) (id : N) : M CachePool serde_error () :=
  restore_into_cache_pool_sequence_anchored state id default_limits None.

Definition handoff_paged_layout (num_layers block_size : nat) : serde SequenceStateLayout :=
  match uniform num_layers block_size block_size with
  | Ok lay => Ok (paged_kv_cache lay)
  | Err e => Err (BadLayout e)
  | Panic => Panic
  end.

(** [num_layers] is [model.num_layers()]. *)
Definition ingest_sequence_handoff_state (model : LanguageModel) (num_layers : nat) (state : SerializableCacheState)
    (limits : CacheIngestLimits) (geometry : ExpectedBlockGeometry) (block_size : nat) : M CachePool serde_error N :=
  layout ← lift (handoff_paged_layout num_layers block_size);
  seq_id ← on_cache_pool (allocate_with_layout model (Some layout));
  _ ← on_err (restore_into_cache_pool_sequence_anchored state seq_id limits (Some geometry))
        (λ e, _ ← on_cache_pool (release seq_id); throw e);
  mret seq_id.

Definition ingest_sequence_handoff (model : LanguageModel) (num_layers : nat) (bytes : list N)
    (limits : CacheIngestLimits) (geometry : ExpectedBlockGeometry) (block_size : nat) : M CachePool serde_error N :=
  state ← lift (deserialize_cache_state_with_limits bytes limits);
  ingest_sequence_handoff_state model num_layers state limits geometry block_size.
End handoff.

(** ** The byte bridge *)

(** What [send_handoff_payload] passes to the transport. *)
Definition handoff_message (payload : list N) : TransportMessage :=
  TensorData HANDOFF_TENSOR_ID [length payload] payload.

(** What [recv_handoff_payload] makes of the next message. *)
Definition handoff_payload (m : TransportMessage) : serde (list N) :=
  match m with
  | TensorData tensor_id _ data => if decide (tensor_id = HANDOFF_TENSOR_ID) then Ok data else Err NotHandoffFrame
  | Control _ _ => Err NotHandoffFrame
  end.
