(* ===== verification/KvIngest.v ===== *)
(** * Restoring and ingesting a handed-over sequence

    Block contents written onto fresh blocks of a pool, and what the ingestion of a frame leaves
    behind in every case. *)

From S2P Require Import Prelude Bytes Mlx PagedPool PagedPoolInv PagedPoolData PagedPrefill PagedContract.
From S2P Require Import CachePool CachePoolInv KvSerde KvHandoff.

(** * Restoring transferred blocks

    [CachePool::restore_paged_state_with_contents] (cache.rs) and the block pool operations it
    is made of: every transferred slab gets a fresh block that holds it, a failure gives all of
    them back, and no other sequence's data changes. *)

Section restore.
Context {X : Mlx} {XL : MlxLaws X}.
Implicit Types (p : PagedBlockPool) (own : list N) (ct : BlockContents).

(** ** One block *)

(** A slab of [n] slots, of either side. *)
Record slab_args (k v : MlxArray) (n h d dt : Z) : Prop := {
  sa_k : array_shape k = [n; h; d];
  sa_v : array_shape v = [n; h; d];
  sa_kt : array_dtype k = dt;
  sa_vt : array_dtype v = dt;
  sa_nonneg : (0 ≤ n ∧ 0 ≤ h ∧ 0 ≤ d)%Z;
}.

(** Layer [l] takes slabs of this geometry. *)
Definition fits p (l : nat) (h d dt : Z) : Prop := ∃ s, stores p !! l = Some s ∧ accepts s h d dt.

Definition block_fits p (l : nat) (n h d dt : Z) : Prop :=
  (0 < n ≤ Z.of_nat (bs_of p))%Z ∧ fits p l h d dt.

(** Block [b] of layer [l] has the slabs [arg] in its first [n] slots. *)
Record placed p (l : nat) (b : N) (arg : side → MlxArray) (n h d dt : Z) : Prop := {
  pl_on : on_layer p l b;
  pl_row : has_row p l b;
  pl_geom : geom_is p l h d dt;
  pl_cell c slot hh dd : slot < bs_of p → (Z.of_nat slot < n)%Z → (0 ≤ hh < h)%Z → (0 ≤ dd < d)%Z →
    pcell c p l b slot hh dd = Some (block_elem (arg c) (Z.of_nat slot) hh dd);
}.

(** What a step of the restore leaves alone: the data and the registry entries of the blocks
    [own], the budget, and the layers' geometries. *)
Record undisturbed p p' own : Prop := {
  ud_data : preserved p p' (λ b _, b ∈ own);
  ud_layers : layers_kept p p' (λ b, b ∈ own);
  ud_budget : block_budget p' = block_budget p;
}.

Lemma undisturbed_refl p own : undisturbed p p own.
Proof. split; [apply preserved_refl|by intros ? ? ?|done]. Qed.

Lemma undisturbed_trans p1 p2 p3 o1 o2 own :
  undisturbed p1 p2 o1 → undisturbed p2 p3 o2 → (∀ b, b ∈ own → b ∈ o1 ∧ b ∈ o2) → undisturbed p1 p3 own.
Proof.
  intros [A1 A2 A3] [B1 B2 B3] Hsub. split.
  - eapply preserved_trans; [exact A1|exact B1|]. intros b t Hb. by apply Hsub.
  - intros l b Hb Hl. destruct (Hsub b Hb). apply B2; [done|]. by apply A2.
  - congruence.
Qed.

Lemma kept_undisturbed p p' own : kept p p' own → undisturbed p p' own.
Proof.
  intros Hk. split; [by apply kept_preserved| |apply Hk].
  intros l b _ Hl. destruct Hk as (_ & _ & Hs & _). unfold on_layer in *. by rewrite (Hs b).
Qed.

Lemma placed_undisturbed p p' own l b arg n h d dt :
  placed p l b arg n h d dt → undisturbed p p' own → b ∈ own → placed p' l b arg n h d dt.
Proof.
  intros [P1 P2 P3 P4] [U1 U2 U3] Hb. split.
  - by apply U2.
  - by apply (pr_row _ _ _ U1 l b 0).
  - by apply U1.
  - intros c slot hh dd Hs Hn Hh Hd. assert (bs_of p' = bs_of p) as Ebs by (unfold bs_of; by rewrite (pr_layout _ _ _ U1)).
    rewrite Ebs in Hs. rewrite (pr_cell _ _ _ U1); [by apply P4|done|done|]. exists h, d, dt. done.
Qed.

(** Geometries are only ever fixed, and only to what is written. *)
Definition fits_kept p p' (h d dt : Z) : Prop := ∀ l, fits p l h d dt → fits p' l h d dt.

Lemma same_storage_accepts s s' h d dt : same_storage s s' → accepts s h d dt → accepts s' h d dt.
Proof.
  intros (_ & _ & E & _) [H|(m & Hm & Hr)]; [left; congruence|]. right. exists m. by rewrite E.
Qed.

Lemma same_slabs_accepts s s' h d dt : same_slabs s s' → accepts s h d dt → accepts s' h d dt.
Proof.
  intros (_ & _ & E) [H|(m & Hm & Hr)]; [left; congruence|]. right. exists m. by rewrite E.
Qed.

Lemma kept_fits p p' own h d dt : kept p p' own → fits_kept p p' h d dt.
Proof.
  intros (_ & _ & _ & Hs) l (s & Hl & Ha). destruct (Hs l s Hl) as (s' & Hl' & Hss & _). exists s'.
  split; [done|]. by eapply same_slabs_accepts.
Qed.

(** The checks of [write_block] before the slot range, for slabs of rank three. *)
Ltac enter_write p Hi Hrec Ks Vs Hbs :=
  unfold write_block, validate_layer, known_block, guard_m;
  unfold mbind at 1, M_bind at 1, mbind at 1, M_bind at 1, get at 1;
  rewrite bool_decide_eq_false_2 by (rewrite <- (pi_layers _ _ Hi); lia); cbn [negb mret M_ret];
  unfold mbind at 1, M_bind at 1, mbind at 1, M_bind at 1, get at 1;
  rewrite bool_decide_eq_true_2 by (rewrite Hrec; by eexists); cbn [mret M_ret];
  unfold normalize_block; rewrite Ks, Vs; unfold mbind, M_bind, lift; cbn;
  rewrite decide_False by (intros Hx; by apply Hx); rewrite decide_False by (intros Hx; apply Hx; congruence);
  fold (bs_of p); rewrite (i32_small _ Hbs); change (i32 0) with 0%Z.

(** [write_block] into a block that is owned: the slabs, or an error that changes nothing. *)
Lemma write_slab b l k v n h d dt p own :
  pool_inv p own → b ∈ own → on_layer p l b → small (bs_of p) → slab_args k v n h d dt →
  ∃ p' r, write_block b l 0 k v p = (p', r) ∧
  match r with
  | Ok _ => pool_inv p' own ∧ same_registry p p' ∧ placed p' l b (side_arg k v) n h d dt ∧
      preserved p p' (λ b' _, b' ≠ b) ∧ fits_kept p p' h d dt
  | Err _ => p' = p ∧ ¬ block_fits p l n h d dt
  | Panic => False
  end.
Proof.
  intros Hi Hb Hl Hbs [Ks Vs Kt Vt (Hn & Hh & Hd)].
  destruct (on_layer_record p own l b Hi Hb Hl) as (cnt & Hrec & Hcnt & Hlt).
  destruct (lookup_lt_is_Some_2 (stores p) l Hlt) as [s Hs].
  destruct (decide (0 < n ≤ Z.of_nat (bs_of p))%Z) as [Hfit|Hfit].
  2: { exists p, (Err SlotRange). split; [|split; [done|by intros [? _]]].
       enter_write p Hi Hrec Ks Vs Hbs. by rewrite decide_True by lia. }
  assert (Decision (accepts s h d dt)) as Hdec.
  { unfold accepts. destruct (pool_meta s) as [m|] eqn:Em; [|left; by left].
    destruct (decide (n_kv_heads m = h ∧ head_dim m = d ∧ dtype m = dt)) as [E|E].
    - left. right. exists m. naive_solver.
    - right. intros [?|(m' & Hm' & Hx)]; [done|]. naive_solver. }
  destruct (decide (accepts s h d dt)) as [Hacc|Hacc].
  - destruct (write_block_spec b l 0 k v n h d p own s) as (p' & s' & Hrun & Hi' & Hreg & Hst & Hbw);
      [done|done|by eauto|done|by right|by right|congruence|lia|done|done|unfold bs_of in *; lia|by rewrite Kt|].
    exists p', (Ok tt). rewrite Kt in Hbw. split; [done|].
    destruct (written_preserved p p' l s s' _ _ _ _ _ _ _ Hs Hreg Hst Hacc Hbw) as (Hpr & Hgeom & Hrow & Hcell).
    pose proof Hreg as (E1 & _ & E3 & _). assert (bs_of p' = bs_of p) as Ebs by (unfold bs_of; by rewrite E1).
    split_and!; try done.
    + split; try done; [unfold on_layer in *; by rewrite E3|].
      intros c slot hh dd Hsl Hsn Hhh Hdd. rewrite Hcell by (done || unfold bs_of in *; lia). by rewrite Z.sub_0_r.
    + eapply preserved_weaken; [exact Hpr|]. naive_solver.
    + intros l0 (s0 & Hs0 & Ha0). destruct (decide (l0 = l)) as [->|Hne].
      * exists s'. rewrite Hst. split; [by apply list_lookup_insert_eq|]. right.
        destruct Hgeom as (s1 & Hs1 & Hg1). rewrite Hst, list_lookup_insert_eq in Hs1 by done. by injection Hs1 as <-.
      * exists s0. by rewrite Hst, list_lookup_insert_ne.
  - assert (∃ m, pool_meta s = Some m ∧ ¬ (n_kv_heads m = h ∧ head_dim m = d ∧ dtype m = dt)) as (m & Hm & Hne).
    { destruct (pool_meta s) as [m|] eqn:Em; [|destruct Hacc; by left]. exists m. split; [done|].
      intros Hx. apply Hacc. right. exists m. naive_solver. }
    exists p, (Err LayerGeometry). split.
    2: { split; [done|]. intros [_ (s0 & Hs0 & Ha)]. rewrite Hs in Hs0. by injection Hs0 as <-. }
    enter_write p Hi Hrec Ks Vs Hbs. rewrite decide_False by lia.
    unfold store, index, mbind, M_bind, get. rewrite Hs. cbn. rewrite Hm, Kt.
    rewrite decide_True; [done|]. destruct (decide (n_kv_heads m = h)), (decide (head_dim m = d)); naive_solver.
Qed.

Lemma acquire_and_write_spec l k v n h d dt p own :
  pool_inv p own → (N.of_nat (S (length own)) < u32_max)%N → small (bs_of p) → slab_args k v n h d dt →
  ∃ p' r, acquire_and_write_block l k v p = (p', r) ∧ undisturbed p p' own ∧
  match r with
  | Ok b => pool_inv p' (b :: own) ∧ b ∉ own ∧ placed p' l b (side_arg k v) n h d dt ∧ fits_kept p p' h d dt
  | Err _ => pool_inv p' own ∧ (is_Some (block_budget p) ∨ ¬ block_fits p l n h d dt)
  | Panic => False
  end.
Proof.
  intros Hi Hsm Hbs Ha. unfold acquire_and_write_block.
  pose proof (acquire_block_spec l p own Hi Hsm) as Hacq.
  unfold mbind at 1, M_bind at 1. destruct (acquire_block l p) as [p1 [b|e|]]; [| |done].
  2: { destruct Hacq as [-> Herr]. exists p, (Err e). split_and!; [done|apply undisturbed_refl|done|].
       destruct Herr as [[Hge _]|(s & max & _ & _ & -> & _)]; [right|left; by eexists].
       intros [_ (s & Hs & _)]. apply lookup_lt_Some in Hs. rewrite (pi_layers _ _ Hi) in Hs. lia. }
  destruct Hacq as (Hi1 & Hb & E1 & E2 & E3 & _ & Hst & Hnr).
  assert (same_stores p p1) as Hss by done.
  assert (bs_of p1 = bs_of p) as Ebs by (unfold bs_of; by rewrite E1).
  assert (on_layer p1 l b) as Hon by (unfold on_layer; by rewrite E3, lookup_insert_eq).
  assert (layers_kept p p1 (λ b', b' ∈ own)) as Hlk.
  { intros l' b' Hb' Hl'. unfold on_layer in *. rewrite E3, lookup_insert_ne; [done|]. by intros ->. }
  assert (undisturbed p p1 own) as Hu1 by (split; [by apply same_stores_preserved|done|done]).
  assert (∀ l0, fits p l0 h d dt → fits p1 l0 h d dt) as Hf1.
  { intros l0 (s & Hs & Hacc). destruct (Hst l0 s Hs) as (s1 & Hs1 & Hsame). exists s1. split; [done|].
    by eapply same_storage_accepts. }
  destruct (write_slab b l k v n h d dt p1 (b :: own) Hi1 ltac:(by left) Hon ltac:(by rewrite Ebs) Ha)
    as (p2 & r & Hrun & Hres).
  unfold mbind, M_bind, on_err. rewrite Hrun. destruct r as [[]|e|]; [| |done].
  - destruct Hres as (Hi2 & (F1 & F2 & F3 & F4 & F5) & Hpl & Hpr & Hfk). exists p2, (Ok b). split; [done|]. split.
    + eapply undisturbed_trans; [exact Hu1| |intros b' Hb'; split; exact Hb'].
      split; [eapply preserved_weaken; [exact Hpr|]; by intros b' t Hb' ->| |done].
      intros l' b' Hb' Hl'. unfold on_layer in *. by rewrite F3.
    + split_and!; try done. intros l0 Hl0. by apply Hfk, Hf1.
  - destruct Hres as [-> Hno].
    destruct (release_block_spec b p1 own Hi1) as (p3 & Hrel & Hi3 & Hk3).
    assert (kept p1 p3 own) as Hk by done. unfold ignore. rewrite Hrel. exists p3, (Err e).
    split; [done|]. split.
    + eapply undisturbed_trans; [exact Hu1|by apply kept_undisturbed|]. by intros b' Hb'.
    + split; [done|]. right. intros [Hn Hf]. apply Hno. split; [by rewrite Ebs|]. by apply Hf1.
Qed.

(** ** All of them *)

(** A transferred block whose slabs have the given geometry. *)
Definition ct_args (n h d dt : Z) ct : Prop := slab_args (content_keys ct) (content_values ct) n h d dt.

Definition ct_placed p (n h d dt : Z) ct (b : N) : Prop :=
  placed p (origin_layer ct) b (side_arg (content_keys ct) (content_values ct)) n h d dt.

(** The map from the origin's blocks to the fresh ones. *)
Definition block_map (m : gmap N N) (cts : list BlockContents) (fresh : list N) : gmap N N :=
  foldl (λ m x, <[origin_block x.1 := x.2]> m) m (zip cts fresh).

Lemma materialize_spec n h d dt cts : ∀ acq m p own,
  pool_inv p (acq ++ own) → (N.of_nat (length cts + length (acq ++ own)) < u32_max)%N → small (bs_of p) →
  Forall (ct_args n h d dt) cts →
  ∃ p' r, materialize cts acq m p = (p', r) ∧
  match r with
  | Ok (acq', m') => ∃ fresh, acq' = acq ++ fresh ∧ m' = block_map m cts fresh ∧
      Forall2 (ct_placed p' n h d dt) cts fresh ∧ NoDup fresh ∧ (∀ b, b ∈ fresh → b ∉ acq ++ own) ∧
      pool_inv p' (fresh ++ acq ++ own) ∧ undisturbed p p' (acq ++ own)
  | Err _ => pool_inv p' own ∧ undisturbed p p' own ∧
      (is_Some (block_budget p) ∨ ¬ Forall (λ ct, block_fits p (origin_layer ct) n h d dt) cts)
  | Panic => False
  end.
Proof.
  induction cts as [|ct cts IH]; intros acq m p own Hi Hsm Hbs Hall.
  { exists p, (Ok (acq, m)). split; [done|]. exists []. rewrite app_nil_r.
    split_and!; try done; [constructor|by intros b ?%not_elem_of_nil|apply undisturbed_refl]. }
  apply Forall_cons in Hall as [Hct Hall]. cbn [materialize length] in *.
  destruct (acquire_and_write_spec (origin_layer ct) (content_keys ct) (content_values ct) n h d dt p (acq ++ own) Hi
    ltac:(lia) Hbs Hct) as (p1 & r & Hrun & Hu1 & Hres).
  unfold mbind at 1, M_bind at 1, on_err. rewrite Hrun. destruct r as [b|e|]; [| |done].
  2: { destruct Hres as [Hi1 Herr]. destruct (release_all_spec acq own p1 Hi1) as (p2 & Hrel & Hi2 & Hk2).
       unfold mbind, M_bind. rewrite Hrel. exists p2, (Err e). split; [done|]. split_and!; [done| |].
       - eapply undisturbed_trans; [exact Hu1|by apply kept_undisturbed|]. set_solver.
       - destruct Herr as [?|Hno]; [by left|right]. by intros [? _]%Forall_cons. }
  destruct Hres as (Hi1 & Hb & Hpl & Hfk).
  assert (bs_of p1 = bs_of p) as Ebs by (unfold bs_of; by rewrite (pr_layout _ _ _ (ud_data _ _ _ Hu1))).
  assert (pool_inv p1 ((acq ++ [b]) ++ own)) as Hi1'.
  { eapply pool_inv_proper; [|exact Hi1]. rewrite <- app_assoc. by rewrite Permutation_middle. }
  destruct (IH (acq ++ [b]) (<[origin_block ct := b]> m) p1 own Hi1') as (p' & r & Hrun' & Hres);
    [rewrite !length_app in *; cbn; lia|by rewrite Ebs|done|].
  exists p', r. split; [exact Hrun'|]. destruct r as [[acq' m']|e|]; [| |done].
  - destruct Hres as (fresh & -> & -> & Hpls & Hnd & Hfr & Hi' & Hu').
    assert (pool_inv p' ((b :: fresh) ++ acq ++ own)) as Hi''.
    { eapply pool_inv_proper; [|exact Hi']. rewrite <- app_assoc. cbn. by rewrite !Permutation_middle. }
    exists (b :: fresh). rewrite <- app_assoc. split_and!; try done.
    + constructor; [|done]. eapply placed_undisturbed; [exact Hpl|exact Hu'|]. set_solver.
    + constructor; [|done]. intros Hin. apply (Hfr b Hin). set_solver.
    + intros b' [->|Hb']%elem_of_cons; [done|]. specialize (Hfr b' Hb'). set_solver.
    + eapply undisturbed_trans; [exact Hu1|exact Hu'|]. set_solver.
  - destruct Hres as (Hi' & Hu' & Herr). split_and!; [done| |].
    + eapply undisturbed_trans; [exact Hu1|exact Hu'|]. set_solver.
    + rewrite (ud_budget _ _ _ Hu1) in Herr. destruct Herr as [?|Hno]; [by left|right].
      intros [_ Hf]%Forall_cons. apply Hno. eapply Forall_impl; [exact Hf|]. intros ct' [Hn' Hf'].
      split; [by rewrite Ebs|by apply Hfk].
Qed.

(** ** The sequence *)

Context {KH : KvHandles}.
Implicit Types (c : CachePool) (s : SequenceCacheSet).

(** The sequence is pool-backed and the table has its block size and layers. *)
Record restorable s (restored : PagedSequenceState) (lay : PagedKvLayout) : Prop := {
  re_backend : backend s = PagedKvCache;
  re_backed : forallb is_paged_backed (caches s) = true;
  re_layout : paged_layout s = Some lay;
  re_bs : seq_block_size restored = block_size lay;
  re_layers : length (layers restored) = num_layers lay;
}.

Lemma restore_checks_spec id restored c s :
  active c !! id = Some s →
  ∃ r, restore_checks true id restored c = (c, r) ∧
  match r with
  | Ok lay => restorable s restored lay
  | Err _ => ¬ ∃ lay, restorable s restored lay
  | Panic => False
  end.
Proof.
  intros Hs. unfold restore_checks. rewrite get_bind, ok_or_bind, Hs, guard_bind.
  destruct (decide (backend s = PagedKvCache)) as [Hb|Hb].
  2: { rewrite bool_decide_eq_false_2 by done. eexists. split; [done|]. by intros (lay & [? _ _ _ _]). }
  rewrite bool_decide_eq_true_2 by done. cbn [negb orb]. rewrite guard_bind.
  destruct (forallb is_paged_backed (caches s)) eqn:Hf.
  2: { eexists. split; [done|]. intros (lay & [_ ? _ _ _]). congruence. }
  rewrite ok_or_bind. destruct (paged_layout s) as [lay|] eqn:Hl.
  2: { eexists. split; [done|]. intros (lay & [_ _ ? _ _]). congruence. }
  destruct (decide (seq_block_size restored = block_size lay)) as [Hbs|Hbs].
  2: { rewrite decide_True by done. eexists. split; [done|]. intros (lay' & [_ _ ? ? _]). congruence. }
  rewrite decide_False by (intros Hx; by apply Hx).
  destruct (decide (length (layers restored) = num_layers lay)) as [Hn|Hn].
  2: { rewrite decide_True by done. eexists. split; [done|]. intros (lay' & [_ _ ? _ ?]). congruence. }
  rewrite decide_False by (intros Hx; by apply Hx). eexists. split; [done|]. by split.
Qed.

Definition with_table (restored : PagedSequenceState) (ls : list PagedLayerState) s : SequenceCacheSet :=
  set_caches (zip_offsets ((λ x, i32 (len x)) <$> ls) (caches s))
    (set_paged (Some (mkSeqState (seq_block_size restored) ls)) s).

(** The cache pool outside the sequence [id] and the block pool. *)
Definition same_around (id : N) c c' : Prop :=
  next_id c' = next_id c ∧ max_sequences c' = max_sequences c ∧ detached c' = detached c ∧
  paged_block_budget c' = paged_block_budget c ∧ ∃ s', active c' = <[id := s']> (active c).

Definition covered (restored : PagedSequenceState) (cts : list BlockContents) : Prop :=
  ∀ b, b ∈ ids restored → ∃ ct, ct ∈ cts ∧ origin_block ct = b.

(** After the sequence's own blocks went back: an empty table, the references of the others. *)
Lemma drop_table c ext id s st0 p :
  cp_inv c ext → active c !! id = Some s → paged s = Some st0 → ids st0 = [] → paged_pool c = Some p →
  ∃ p1 st1, release_sequence (p, st0) = ((p1, st1), Ok tt) ∧ kept p p1 (refs c ext) ∧
    let c1 := with_active (<[id := set_paged (Some st1) s]> (active c)) (with_pool (Some p1) c) in
    cp_inv c1 ext ∧ refs c1 ext ≡ₚ refs c ext ∧ pool_inv p1 (refs c ext).
Proof.
  intros Hc Hs Hst Hids Hp.
  pose proof (refs_active c ext id s Hs) as Hrefs. unfold seq_refs in Hrefs at 1. rewrite Hst, Hids in Hrefs. cbn in Hrefs.
  pose proof (ci_pool _ _ Hc) as Hi. rewrite Hp in Hi.
  destruct (release_sequence_spec (refs c ext) p st0) as (p1 & st1 & Hrel & Hi1 & Hk & Hids1 & _).
  { by rewrite Hids. }
  exists p1, st1. split; [done|]. split; [done|]. cbn zeta. split_and!.
  - apply update_sequence_inv; try done; [by rewrite Hids1, <- Hrefs|rewrite Hids1; constructor].
  - rewrite refs_update. unfold seq_refs at 1. cbn. rewrite Hids1. cbn. by rewrite Hrefs.
  - done.
Qed.

Lemma remap_no_panic m ls : mapM (M := outcome cache_error) (remap_layer m) ls ≠ Panic.
Proof.
  induction ls as [|l ls IH]; [done|]. cbn. apply bind_no_panic.
  - unfold remap_layer. apply bind_no_panic; [|done]. induction (block_ids l) as [|b bs IHb]; [done|]. cbn.
    apply bind_no_panic; [unfold remap_block; by destruct (m !! b)|]. intros b'. by apply bind_no_panic.
  - intros l'. by apply bind_no_panic.
Qed.

Lemma block_map_covers cts : ∀ m fresh, length fresh = length cts →
  (∀ b, is_Some (m !! b) ∨ (∃ ct, ct ∈ cts ∧ origin_block ct = b) → is_Some (block_map m cts fresh !! b)).
Proof.
  induction cts as [|ct cts IH]; intros m [|f fresh] Hlen b Hb; try done; cbn in Hlen.
  - destruct Hb as [?|(ct & ?%not_elem_of_nil & _)]; done.
  - apply IH; [lia|]. destruct Hb as [Hb|(ct' & [->|Hin]%elem_of_cons & <-)].
    + left. rewrite lookup_insert. case_decide; by eauto.
    + left. rewrite lookup_insert_eq. by eauto.
    + right. eauto.
Qed.

Lemma remap_covered m ls :
  (∀ b, b ∈ ls ≫= block_ids → is_Some (m !! b)) → ∃ ls', mapM (M := outcome cache_error) (remap_layer m) ls = Ok ls'.
Proof.
  induction ls as [|l ls IH]; intros Hb; [by eexists|]. cbn.
  assert (∃ bs, mapM (M := outcome cache_error) (remap_block m) (block_ids l) = Ok bs) as [bs Hbs].
  { assert (∀ b, b ∈ block_ids l → is_Some (m !! b)) as Hl by (intros b ?; apply Hb; cbn; set_solver). clear -Hl.
    induction (block_ids l) as [|b bs IHb]; [by eexists|]. cbn. destruct (Hl b ltac:(by left)) as [f Hf].
    assert (remap_block m b = Ok f) as -> by (unfold remap_block; by rewrite Hf). cbn. destruct IHb as [bs' ->]; [intros; apply Hl; by right|]. by eexists. }
  assert (remap_layer m l = Ok (mkLayerState bs (len l) (logical_start l))) as -> by (unfold remap_layer; by rewrite Hbs).
  cbn. destruct IH as [ls' ->]; [intros b ?; apply Hb; cbn; set_solver|].
  by eexists.
Qed.

(** The whole restore on a sequence that holds nothing yet. *)
Lemma restore_contents_spec id restored cts n h d dt c ext s st0 p :
  cp_inv c ext → active c !! id = Some s → paged s = Some st0 → ids st0 = [] → paged_pool c = Some p →
  room c ext (length cts) → small (bs_of p) → Forall (ct_args n h d dt) cts →
  ∃ c' r p', restore_paged_state_with_contents id restored cts c = (c', r) ∧ paged_pool c' = Some p' ∧
    undisturbed p p' (refs c ext) ∧ same_around id c c' ∧
  match r with
  | Ok _ => ∃ fresh ls, active c' = <[id := with_table restored ls s]> (active c) ∧
      mapM (M := outcome cache_error) (remap_layer (block_map ∅ cts fresh)) (layers restored) = Ok ls ∧
      Forall2 (ct_placed p' n h d dt) cts fresh ∧ NoDup fresh ∧ (∀ b, b ∈ fresh → b ∉ refs c ext) ∧
      pool_inv p' (fresh ++ refs c ext) ∧ restorable s restored (layout p)
  | Err _ => cp_inv c' ext ∧ (is_Some (block_budget p) ∨
      ¬ (restorable s restored (layout p) ∧ Forall (λ ct, block_fits p (origin_layer ct) n h d dt) cts ∧
         covered restored cts))
  | Panic => False
  end.
Proof.
  intros Hc Hs Hst Hids Hp Hroom Hbs Hcts. unfold restore_paged_state_with_contents.
  destruct (restore_checks_spec id restored c s Hs) as (r0 & Hr0 & Hres0).
  assert (same_around id c c) as Hsame0 by (split_and!; try done; exists s; by rewrite insert_id).
  unfold mbind at 1, M_bind at 1. rewrite Hr0. destruct r0 as [lay|e|]; [| |done].
  2: { exists c, (Err e), p. split_and!; try done; [apply undisturbed_refl|]. right. intros [? _]. by apply Hres0; eexists. }
  unfold mbind at 1, M_bind at 1. unfold ensure_paged_pool at 1. rewrite get_bind, Hp.
  destruct (decide (layout p = lay)) as [<-|Hlay].
  2: { rewrite decide_True by done. exists c, (Err LayoutMismatch), p. split_and!; try done; [apply undisturbed_refl|].
       right. intros ([_ _ E _ _] & _). rewrite (re_layout _ _ _ Hres0) in E. by injection E. }
  rewrite decide_False by (intros Hx; by apply Hx). cbn [mret M_ret]. rewrite get_bind, ok_or_bind, Hs.
  destruct (drop_table c ext id s st0 p Hc Hs Hst Hids Hp) as (p1 & st1 & Hrel & Hk1 & Hc1 & Hrefs1 & Hi1).
  pose proof (kept_undisturbed _ _ _ Hk1) as Hu1.
  unfold mbind at 1, M_bind at 1. rewrite Hst, Hp, Hrel. cbn [lift_pool].
  set (c1 := with_active _ _) in *.
  assert (same_around id c c1) as Hsame1 by (split_and!; try done; by eexists).
  assert (bs_of p1 = bs_of p) as Ebs by (unfold bs_of; by rewrite (pr_layout _ _ _ (ud_data _ _ _ Hu1))).
  destruct (materialize_spec n h d dt cts [] ∅ p1 (refs c ext) Hi1) as (p2 & r2 & Hrun2 & Hres2);
    [unfold room in Hroom; cbn; lia|by rewrite Ebs|done|].
  unfold mbind at 1, M_bind at 1, on_paged_pool at 1. cbn [paged_pool c1 with_active with_pool]. rewrite Hrun2.
  fold c1. change (with_pool (Some p2) (with_active _ _)) with (with_pool (Some p2) c1).
  assert (∀ q, pool_inv q (refs c ext) → cp_inv (with_pool (Some q) c1) ext) as Hcq.
  { intros q Hq. apply (with_pool_inv c1 ext); [done|by rewrite Hrefs1|apply Hc1]. }
  destruct r2 as [[acq m]|e|]; [| |done]; cbn [lift_pool].
  2: { destruct Hres2 as (Hi2 & Hu2 & Herr). exists (with_pool (Some p2) c1), (Err (PoolError e)), p2.
       split_and!; try done.
       - eapply undisturbed_trans; [exact Hu1|exact Hu2|]. by intros b.
       - by apply Hcq.
       - rewrite (ud_budget _ _ _ Hu1) in Herr. destruct Herr as [?|Hno]; [by left|right]. intros (_ & Hf & _).
         apply Hno. eapply Forall_impl; [exact Hf|]. intros ct [Hn Hft]. split; [by rewrite Ebs|].
         by eapply kept_fits. }
  destruct Hres2 as (fresh & -> & -> & Hpl & Hnd & Hfr & Hi2 & Hu2). cbn [app] in *.
  assert (undisturbed p p2 (refs c ext)) as Hu12 by (eapply undisturbed_trans; [exact Hu1|exact Hu2|]; by intros b).
  set (m := block_map ∅ cts fresh) in *. pose proof (remap_no_panic m (layers restored)) as Hnp.
  destruct (mapM (remap_layer m) (layers restored)) as [ls|e|] eqn:Hmap; [| |done].
  2: { destruct (release_all_spec fresh (refs c ext) p2 Hi2) as (p3 & Hrel3 & Hi3 & Hk3).
       unfold mbind at 1, M_bind at 1, on_paged_pool at 1, mbind at 1, M_bind at 1. cbn [paged_pool with_pool].
       rewrite Hrel3. cbn [lift_pool]. exists (with_pool (Some p3) c1), (Err e), p3. split_and!; try done.
       - eapply undisturbed_trans; [exact Hu12|by apply kept_undisturbed|]. by intros b.
       - by apply Hcq.
       - right. intros (_ & _ & Hcov). destruct (remap_covered m (layers restored)) as (ls & E); [|congruence].
         intros b Hb. apply block_map_covers; [by symmetry; eapply Forall2_length|]. right. by apply Hcov. }
  unfold mbind at 1, M_bind at 1. cbn [mret M_ret]. rewrite get_bind, ok_or_bind.
  cbn [active with_pool c1 with_active]. rewrite lookup_insert_eq. cbn [set_paged paged].
  rewrite decide_False by done.
  exists (with_active (<[id := with_table restored ls s]> (active c)) (with_pool (Some p2) c)), (Ok tt), p2.
  split; [unfold insert_active, modify, c1, with_active, with_pool; cbn; by rewrite insert_insert_eq|].
  split; [done|]. split; [done|]. split; [split_and!; try done; by eexists|]. exists fresh, ls. done.
Qed.

(** ** The new table *)

(** Each entry of [l'] is what [m] makes of the entry of [l]. *)
Record remapped (m : gmap N N) (l l' : PagedLayerState) : Prop := {
  rm_ids : Forall2 (λ b f, m !! b = Some f) (block_ids l) (block_ids l');
  rm_len : len l' = len l;
  rm_start : logical_start l' = logical_start l;
}.

Lemma mapM_outcome_ok {E A B} (f : A → outcome E B) l l' :
  mapM (M := outcome E) f l = Ok l' ↔ Forall2 (λ x y, f x = Ok y) l l'.
Proof.
  revert l'. induction l as [|x l IH]; intros l'; cbn.
  - split; [by intros [= <-]|]. by inversion 1.
  - rewrite outcome_bind_ok. split.
    + intros (y & Hy & Hr). apply outcome_bind_ok in Hr as (k & Hk & [= <-]). constructor; [done|]. by apply IH.
    + inversion 1 as [|? y ? k Hy Hk]; subst. exists y. split; [done|]. apply IH in Hk. by rewrite Hk.
Qed.

Lemma remap_layers_ok m ls ls' :
  mapM (M := outcome cache_error) (remap_layer m) ls = Ok ls' ↔ Forall2 (remapped m) ls ls'.
Proof.
  rewrite mapM_outcome_ok. assert (∀ l l', remap_layer m l = Ok l' ↔ remapped m l l') as Heq;
    [|split; intros H; (eapply Forall2_impl; [exact H|]); intros; by apply Heq].
  intros l l'. unfold remap_layer. rewrite outcome_bind_ok. split.
  - intros (bs & Hbs & [= <-]). apply mapM_outcome_ok in Hbs. split; [|done|done]. cbn.
    eapply Forall2_impl; [exact Hbs|]. intros b f. unfold remap_block. destruct (m !! b); naive_solver.
  - intros [H1 H2 H3]. exists (block_ids l'). split; [|destruct l'; cbn in *; by subst].
    apply mapM_outcome_ok. eapply Forall2_impl; [exact H1|]. intros b f Hf. unfold remap_block. by rewrite Hf.
Qed.

Lemma remapped_ids m ls ls' :
  Forall2 (remapped m) ls ls' → Forall2 (λ b f, m !! b = Some f) (ls ≫= block_ids) (ls' ≫= block_ids).
Proof. induction 1 as [|l l' ls ls' [H _ _] _ IH]; cbn; [constructor|]. by apply Forall2_app. Qed.

Lemma block_map_not_in cts : ∀ m fresh b, b ∉ (origin_block <$> cts) → block_map m cts fresh !! b = m !! b.
Proof.
  induction cts as [|ct cts IH]; intros m [|f fresh] b Hb; try done. cbn in Hb.
  apply not_elem_of_cons in Hb as [Hne Hb]. unfold block_map in *. cbn. rewrite IH by done. by apply lookup_insert_ne.
Qed.

(** Distinct origins: the map sends each to its fresh block. *)
Lemma block_map_lookup cts : ∀ m fresh, NoDup (origin_block <$> cts) → length fresh = length cts →
  Forall2 (λ ct f, block_map m cts fresh !! origin_block ct = Some f) cts fresh.
Proof.
  induction cts as [|ct cts IH]; intros m [|f fresh] Hnd Hlen; try done.
  cbn in Hnd, Hlen. apply NoDup_cons in Hnd as [Hni Hnd].
  constructor; [|by apply (IH (<[origin_block ct := f]> m)); [|lia]].
  change (block_map m (ct :: cts) (f :: fresh)) with (block_map (<[origin_block ct := f]> m) cts fresh).
  rewrite block_map_not_in by done. apply lookup_insert_eq.
Qed.

Lemma Forall2_lookup_map (m : gmap N N) (bs fs : list N) :
  Forall2 (λ b f, m !! b = Some f) bs fs → fs = omap (λ b, m !! b) bs.
Proof. induction 1 as [|b f bs fs H _ IH]; [done|]. cbn. rewrite H. by f_equal. Qed.

(** Distinct transferred blocks, referenced once each: the new table is the fresh blocks. *)
Lemma fresh_table restored cts fresh ls :
  NoDup (origin_block <$> cts) → ids restored ≡ₚ origin_block <$> cts → length fresh = length cts →
  Forall2 (remapped (block_map ∅ cts fresh)) (layers restored) ls → ls ≫= block_ids ≡ₚ fresh.
Proof.
  intros Hnd Hp Hlen Hrm. pose proof (Forall2_lookup_map _ _ _ (remapped_ids _ _ _ Hrm)) as ->.
  change (layers restored ≫= block_ids) with (ids restored). rewrite Hp.
  pose proof (block_map_lookup cts ∅ fresh Hnd Hlen) as Hl.
  assert (Forall2 (λ b f, block_map ∅ cts fresh !! b = Some f) (origin_block <$> cts) fresh) as Hf
    by (by apply Forall2_fmap_l).
  by rewrite <- (Forall2_lookup_map _ _ _ Hf).
Qed.

(** The accounting after a successful restore. *)
Lemma restored_inv id restored cts fresh ls c ext s st0 p p' c' :
  cp_inv c ext → active c !! id = Some s → paged s = Some st0 → ids st0 = [] → paged_pool c = Some p →
  paged_pool c' = Some p' → same_around id c c' → active c' = <[id := with_table restored ls s]> (active c) →
  Forall2 (remapped (block_map ∅ cts fresh)) (layers restored) ls → length fresh = length cts →
  NoDup (origin_block <$> cts) → ids restored ≡ₚ origin_block <$> cts →
  NoDup fresh → pool_inv p' (fresh ++ refs c ext) → cp_inv c' ext.
Proof.
  intros Hc Hs Hst Hids Hp Hp' (E1 & E2 & E3 & E4 & _) Hact Hrm Hlen Hnd Hperm Hndf Hi.
  pose proof (fresh_table restored cts fresh ls Hnd Hperm Hlen Hrm) as Htab.
  pose proof (refs_active c ext id s Hs) as Hrefs. unfold seq_refs in Hrefs at 1. rewrite Hst, Hids in Hrefs. cbn in Hrefs.
  assert (refs c' ext ≡ₚ fresh ++ refs c ext) as Hrefs'.
  { unfold refs at 1. rewrite Hact, E3, map_refs_update, Hrefs. unfold seq_refs at 1, ids. cbn. rewrite Htab.
    by rewrite <- app_assoc. }
  split.
  - rewrite Hp'. by rewrite Hrefs'.
  - intros id' s' st' Hs' Hst'. rewrite Hact, lookup_insert in Hs'. case_decide as Heq; [|by eapply (ci_seqs _ _ Hc)].
    injection Hs' as <-. injection Hst' as <-. unfold ids. cbn. by rewrite Htab.
  - intros id' s' lay' Hs' Hl'. rewrite Hact, lookup_insert in Hs'. case_decide as Heq; [|by eapply (ci_layouts _ _ Hc)].
    injection Hs' as <-. by eapply (ci_layouts _ _ Hc).
  - rewrite E3. apply Hc.
  - apply Hc.
  - intros id'. rewrite Hact, E1, lookup_insert. case_decide as Heq; [|by apply Hc]. intros _. subst id'.
    apply (ci_active_ids _ _ Hc). by eexists.
  - rewrite E3, E1. apply Hc.
Qed.
End restore.

(** * Ingesting a handoff

    What [ingest_sequence_handoff] does to a decode node's cache pool, for any bytes a peer
    may send: it never panics, a rejected frame leaves the sequences and the block accounting
    as they were, and the data of the node's own sequences is never touched. *)

(** What the library documents of the bytes of an array: as many as its elements have, and an
    array built over them has the same elements. *)
Class MlxBytesLaws (X : Mlx) (XB : MlxBytes) : Prop := {
  from_bytes_shape b s t a : from_bytes b s t = Some a → array_shape a = s;
  from_bytes_dtype b s t a : from_bytes b s t = Some a → array_dtype a = t;
  raw_bytes_length a e : mlx_dtype_element_size (array_dtype a) = Ok e → Forall (λ d, 0 ≤ d)%Z (array_shape a) →
    Z.of_nat (length (array_to_raw_bytes a)) = (size_of (array_shape a) * Z.of_N e)%Z;
  from_raw_bytes a e : mlx_dtype_element_size (array_dtype a) = Ok e → Forall (λ d, 0 ≤ d)%Z (array_shape a) →
    ∃ a', from_bytes (array_to_raw_bytes a) (array_shape a) (array_dtype a) = Some a' ∧
      ∀ idx, in_shape (array_shape a) idx → elem a' idx = elem a idx;
}.

Section ingest.
Context {X : Mlx} {XL : MlxLaws X} {XB : MlxBytes} {XBL : MlxBytesLaws X XB}.
Context {KH : KvHandles} {KF : KvFields} {J : CacheJson}.
Implicit Types (c : CachePool) (s : SequenceCacheSet) (p : PagedBlockPool).

(** ** Tensors *)

Lemma reconstruct_no_panic t : reconstruct_mlx_array t ≠ Panic.
Proof. apply bind_no_panic; [apply validate_raw_tensor_no_panic|]. intros _. apply ok_or_err_no_panic. Qed.

Lemma reconstruct_Ok t a : reconstruct_mlx_array t = Ok a →
  array_shape a = rt_shape t ∧ array_dtype a = rt_dtype t ∧ Forall (λ d, 0 ≤ d)%Z (rt_shape t).
Proof.
  unfold reconstruct_mlx_array. rewrite bind_unit_ok. intros [Hv Ha]. apply validate_raw_tensor_ok in Hv as [Hs _].
  destruct (from_bytes _ _ _) as [a'|] eqn:E; [|done]. injection Ha as <-.
  split_and!; [by eapply from_bytes_shape|by eapply from_bytes_dtype|done].
Qed.

Lemma reconstruct_blocks_no_panic bs : mapM (M := serde) reconstruct_block bs ≠ Panic.
Proof.
  induction bs as [|b bs IH]; [done|]. cbn. apply bind_no_panic; [|intros ct; by apply bind_no_panic].
  unfold reconstruct_block. apply bind_no_panic; [apply reconstruct_no_panic|]. intros k.
  apply bind_no_panic; [apply reconstruct_no_panic|done].
Qed.

(** Blocks of the expected geometry are reconstructed as slabs of it. *)
Lemma reconstruct_blocks_args limits g n bs cts :
  Forall (block_ok limits (Some g) n) bs → mapM (M := serde) reconstruct_block bs = Ok cts →
  Forall (ct_args (i32 (eg_block_size g)) (eg_n_kv_heads g) (eg_head_dim g) (eg_dtype g)) cts ∧
  origin_block <$> cts = sb_block_id <$> bs ∧ origin_layer <$> cts = sb_layer_idx <$> bs.
Proof.
  rewrite mapM_outcome_ok. intros Hok H2. induction H2 as [|b ct bs cts Hb _ IH]; [done|].
  apply Forall_cons in Hok as [[_ _ Hg] Hok]. destruct (IH Hok) as (I1 & I2 & I3).
  unfold reconstruct_block in Hb. apply outcome_bind_ok in Hb as (k & Hk & Hb).
  apply outcome_bind_ok in Hb as (v & Hv & [= <-]). apply reconstruct_Ok in Hk as (K1 & K2 & K3), Hv as (V1 & V2 & _).
  specialize (Hg g eq_refl). apply Forall_cons in Hg as [[G1 G2] Hg]. apply Forall_cons in Hg as [[G3 G4] _].
  split_and!; [|cbn; by f_equal|cbn; by f_equal]. constructor; [|done]. rewrite G1 in K3.
  apply Forall_cons in K3 as [? K3]. apply Forall_cons in K3 as [? K3]. apply Forall_cons in K3 as [? _].
  unfold expected_slab_shape in *. split; cbn; [congruence..|done].
Qed.

(** ** The dense part *)

Lemma restore_entries_no_panic offsets es : ∀ i cs, (restore_entries offsets i es cs).2 ≠ Panic.
Proof.
  induction es as [|e es IH]; intros i [|c cs]; try done. cbn.
  assert (restore_entry offsets i e c ≠ Panic) as Hnp.
  { unfold restore_entry. destruct (en_keys e), (en_values e); try done.
    apply bind_no_panic; [apply reconstruct_no_panic|]. intros k.
    apply bind_no_panic; [apply reconstruct_no_panic|done]. }
  destruct (restore_entry offsets i e c) as [c'| |]; try done. specialize (IH (S i) cs).
  by destruct (restore_entries offsets (S i) es cs).
Qed.

(** The dense restore changes caches and counters, never the table. *)
Lemma restore_dense_spec state skip s :
  ∃ s' r, restore_dense state skip s = (s', r) ∧ r ≠ Panic ∧ paged s' = paged s ∧ paged_layout s' = paged_layout s ∧
    backend s' = backend s ∧ (skip = true → r = Ok tt ∧ s' = set_progress (cs_metadata state) s).
Proof.
  unfold restore_dense. destruct skip; cbn [negb andb].
  { eexists _, _. split; [done|]. by split_and!. }
  match goal with |- context [match ?x with (_, _) => _ end] => set (run := x) end.
  assert (run.2 ≠ Panic) as Hnp.
  { unfold run. case_match; [|done]. unfold restore_into_kv_caches.
    destruct (decide _); [done|apply restore_entries_no_panic]. }
  destruct run as [cs [[]| |]]; [| |done]; (eexists _, _; split; [done|]; by split_and!).
Qed.

Lemma same_table_inv c ext id s s' :
  cp_inv c ext → active c !! id = Some s → paged s' = paged s → paged_layout s' = paged_layout s →
  let c' := with_active (<[id := s']> (active c)) c in cp_inv c' ext ∧ refs c' ext ≡ₚ refs c ext.
Proof.
  intros Hc Hs Hp Hl c'. assert (refs c' ext ≡ₚ refs c ext) as Hrefs.
  { rewrite (refs_active c ext id s Hs). unfold refs, c'. cbn [active with_active detached].
    rewrite map_refs_update. unfold seq_refs at 1 3. rewrite Hp. by rewrite <- app_assoc. }
  split; [|done]. destruct Hc as [C1 C2 C3 C4 C5 C6 C7]. split; cbn [paged_pool active detached next_id with_active c']; try done.
  - destruct (paged_pool c) as [p|]; [by rewrite Hrefs|]. apply Permutation_nil. rewrite C1 in Hrefs. by symmetry.
  - intros id' s0 st Hs0 Hst. rewrite lookup_insert in Hs0. case_decide; [|by eapply C2].
    injection Hs0 as <-. eapply C2; [exact Hs|congruence].
  - intros id' s0 lay Hs0 Hlay. rewrite lookup_insert in Hs0. case_decide; [|by eapply C3].
    injection Hs0 as <-. eapply C3; [exact Hs|congruence].
  - intros id'. rewrite lookup_insert. case_decide as E; [|by apply C6]. intros _. subst id'. apply C6. by eexists.
Qed.

(** ** Allocation and release *)

(** The sequence a paged allocation creates. *)
Definition fresh_set (model : LanguageModel) (lay : PagedKvLayout) : SequenceCacheSet :=
  with_backend PagedKvCache
    (if pool_backed model lay then new_paged <$> seq 0 (num_layers lay) else make_caches model)
    (Some (sequence_new lay)) (Some lay).

Lemma ids_sequence_new lay : ids (sequence_new lay) = [].
Proof. unfold ids, sequence_new. cbn. by induction (num_layers lay). Qed.

Lemma allocate_paged model lay c ext :
  cp_inv c ext → ids_left c → 0 < block_size lay →
  ∃ c' r, allocate_with_layout model (Some (paged_kv_cache lay)) c = (c', r) ∧ cp_inv c' ext ∧
    next_id c' = (next_id c + 1)%N ∧ detached c' = detached c ∧ paged_block_budget c' = paged_block_budget c ∧
    match r with
    | Ok id => id = next_id c ∧ active c !! id = None ∧ active c' = <[id := fresh_set model lay]> (active c) ∧
        paged_pool c' = Some (ensured_pool lay (paged_block_budget c) (paged_pool c)) ∧
        layout (ensured_pool lay (paged_block_budget c) (paged_pool c)) = lay
    | Err _ => active c' = active c ∧ paged_pool c' = paged_pool c ∧ ∃ p, paged_pool c = Some p ∧ layout p ≠ lay
    | Panic => False
    end.
Proof.
  intros Hc Hleft Hbs.
  destruct (allocate_inv model (Some (paged_kv_cache lay)) c ext Hc Hleft) as (c' & r & Hrun & Hc' & Hres).
  { intros lay' [= <-]. done. }
  exists c', r. split; [done|]. split; [done|]. revert Hrun Hres. unfold allocate_with_layout. cbn [default].
  rewrite get_bind, decide_False by (by intros [? _]). unfold mbind at 1, M_bind at 1. rewrite (fresh_id_eq c Hleft).
  cbn [id layout_backend paged_kv_cache layout_paged]. rewrite M_bind_assoc, ok_or_bind, M_bind_assoc.
  set (c1 := with_next (next_id c + 1) c). unfold mbind at 1, M_bind at 1. unfold ensure_paged_pool.
  rewrite get_bind. change (paged_pool c1) with (paged_pool c). unfold ensured_pool.
  destruct (paged_pool c) as [p|] eqn:Hp.
  - destruct (decide (layout p = lay)) as [El|El].
    + rewrite decide_False by (intros Hx; by apply Hx). cbn. intros [= <- <-] (_ & Hn & _).
      split_and!; try done.
    + rewrite decide_True by done. cbn. intros [= <- <-] _. split_and!; try done. by eexists.
  - cbn. intros [= <- <-] (_ & Hn & _). by split_and!.
Qed.

(** Releasing a sequence leaves the blocks of the others alone. *)
Lemma release_undisturbed id c ext p :
  cp_inv c ext → paged_pool c = Some p →
  ∃ c' p', release id c = (c', Ok tt) ∧ cp_inv c' ext ∧ active c' = delete id (active c) ∧
    detached c' = detached c ∧ next_id c' = next_id c ∧ paged_pool c' = Some p' ∧ undisturbed p p' (refs c' ext).
Proof.
  intros Hc Hp. destruct (release_inv id c ext Hc) as (c' & Hrun & Hc' & Hact). exists c'.
  revert Hrun. unfold release. rewrite get_bind. destruct (active c !! id) as [s|] eqn:Hs.
  2: { intros [= <-]. exists p. split_and!; try done. apply undisturbed_refl. }
  pose proof (refs_active c ext id s Hs) as Hrefs.
  unfold mbind at 1, M_bind at 1, put at 1. rewrite Hp. destruct (paged s) as [st|] eqn:Hst.
  2: { intros [= <-]. exists p. split_and!; try done. apply undisturbed_refl. }
  pose proof (ci_pool _ _ Hc) as Hi. rewrite Hp, Hrefs in Hi. unfold seq_refs in Hi at 1. rewrite Hst in Hi.
  destruct (release_sequence_spec _ p st Hi) as (p1 & st1 & Hrel & _ & Hk & _ & _).
  rewrite Hrel, modify_bind. intros [= <-]. exists p1. split_and!; try done. by apply kept_undisturbed.
Qed.

(** ** Restoring into a fresh sequence *)

(** A payload with contents that the receiver can build: its table and its blocks. *)
Record decoded (state : SerializableCacheState) limits g (restored : PagedSequenceState) (cts : list BlockContents) :
    Prop := {
  dc_paged : ∃ ps, payload_ok state limits (Some g) ps ∧ paged_to_runtime ps = Ok restored;
  dc_blocks : mapM (M := serde) reconstruct_block (cs_paged_blocks state) = Ok cts;
}.

Abbreviation g_placed g p := (ct_placed p (i32 (eg_block_size g)) (eg_n_kv_heads g) (eg_head_dim g) (eg_dtype g)).
Abbreviation g_fits g p := (λ ct, block_fits p (origin_layer ct) (i32 (eg_block_size g)) (eg_n_kv_heads g) (eg_head_dim g) (eg_dtype g)).

(** The sequence [id] of [c'] is [s] with the transferred table over fresh blocks that hold
    the transferred slabs. *)
Record contents_restored (id : N) g (m : CacheMetadata) restored cts c ext s p c' p' : Prop := {
  cr_table : ∃ fresh ls, active c' = <[id := with_table restored ls (set_progress m s)]> (active c) ∧
    Forall2 (remapped (block_map ∅ cts fresh)) (layers restored) ls ∧
    Forall2 (g_placed g p') cts fresh ∧ NoDup fresh ∧ (∀ b, b ∈ fresh → b ∉ refs c ext) ∧
    pool_inv p' (fresh ++ refs c ext);
  cr_restorable : restorable s restored (layout p);
  cr_inv : NoDup (origin_block <$> cts) → ids restored ≡ₚ origin_block <$> cts → cp_inv c' ext;
}.

Lemma is_paged_contents state : cs_paged_blocks state ≠ [] → is_paged_payload state = true.
Proof.
  intros H. unfold is_paged_payload. rewrite (bool_decide_eq_false_2 (length _ = 0)) by (by destruct (cs_paged_blocks state)).
  apply orb_true_r.
Qed.

(** The content path, after the dense part. *)
Lemma restore_content_path state id limits g c ext s st0 p ps :
  cp_inv c ext → active c !! id = Some s → paged s = Some st0 → ids st0 = [] → paged_pool c = Some p →
  room c ext (N.to_nat (max_paged_blocks limits)) → small (bs_of p) → payload_ok state limits (Some g) ps →
  ∃ c' r p', (serialized ← ok_or (cs_paged_state state) MissingPagedState;
              runtime ← lift (paged_to_runtime serialized);
              contents ← lift (mapM (M := serde) reconstruct_block (cs_paged_blocks state));
              on_cache_pool (restore_paged_state_with_contents id runtime contents))
      (with_active (<[id := set_progress (cs_metadata state) s]> (active c)) c) = (c', r) ∧ paged_pool c' = Some p' ∧
    undisturbed p p' (refs c ext) ∧ same_around id c c' ∧
  match r with
  | Ok _ => ∃ restored cts, decoded state limits g restored cts ∧
      contents_restored id g (cs_metadata state) restored cts c ext s p c' p'
  | Err _ => cp_inv c' ext ∧ ∀ restored cts, decoded state limits g restored cts →
      restorable s restored (layout p) → Forall (g_fits g p) cts → covered restored cts → is_Some (block_budget p)
  | Panic => False
  end.
Proof.
  intros Hc Hs Hst Hids Hp Hroom Hbs Hok. set (m := cs_metadata state). set (s1 := set_progress m s).
  destruct (same_table_inv c ext id s s1 Hc Hs eq_refl eq_refl) as [Hc1 Hrefs1].
  set (c1 := with_active (<[id := s1]> (active c)) c) in *.
  assert (same_around id c c1) as Hsame1 by (split_and!; try done; by eexists).
  rewrite ok_or_bind, (po_state _ _ _ _ Hok). unfold mbind at 1, M_bind at 1, lift at 1.
  destruct (paged_to_runtime ps) as [restored|e|] eqn:Hrt.
  2: { exists c1, (Err e), p. split_and!; try done; [apply undisturbed_refl|].
       intros restored cts [(ps' & Hps' & Hrt') _]. pose proof (po_state _ _ _ _ Hok). pose proof (po_state _ _ _ _ Hps').
       congruence. }
  2: { unfold paged_to_runtime in Hrt. destruct (paged_validate ps) eqn:Hv; [done|done|].
       by apply paged_validate_no_panic in Hv. }
  unfold mbind at 1, M_bind at 1, lift at 1. pose proof (reconstruct_blocks_no_panic (cs_paged_blocks state)) as Hnp.
  destruct (mapM reconstruct_block (cs_paged_blocks state)) as [cts|e|] eqn:Hm; [| |done].
  2: { exists c1, (Err e), p. split_and!; try done; [apply undisturbed_refl|].
       intros restored' cts [_ Hm']. congruence. }
  destruct (reconstruct_blocks_args limits g _ _ cts (po_blocks _ _ _ _ Hok) Hm) as (Hargs & Hbid & Hlid).
  assert (decoded state limits g restored cts) as Hdec by (split; [by exists ps|done]).
  assert (active c1 !! id = Some s1) as Hs1 by apply lookup_insert_eq.
  pose proof (po_count _ _ _ _ Hok) as Hcount.
  assert (length cts = length (cs_paged_blocks state)) as Hlen
    by (apply (f_equal length) in Hbid; by rewrite !length_fmap in Hbid).
  destruct (restore_contents_spec id restored cts (i32 (eg_block_size g)) (eg_n_kv_heads g) (eg_head_dim g) (eg_dtype g)
    c1 ext s1 st0 p Hc1 Hs1 Hst Hids Hp) as (c' & r & p' & Hrun & Hp' & Hu & Hsame & Hres); [|done|exact Hargs|].
  { unfold room in *. rewrite Hrefs1. lia. }
  assert (undisturbed p p' (refs c ext)) as Hu'.
  { eapply undisturbed_trans; [exact Hu|apply undisturbed_refl|]. intros b Hb. by rewrite Hrefs1. }
  assert (same_around id c c') as Hsame'.
  { destruct Hsame as (? & ? & ? & ? & s' & Hact). split_and!; try done. exists s'. rewrite Hact.
    unfold c1. cbn. by rewrite insert_insert_eq. }
  unfold on_cache_pool. rewrite Hrun. destruct r as [[]|e|]; [| |done]; cbn [from_pool].
  - destruct Hres as (fresh & ls & Hact & Hmap & Hpl & Hnd & Hfr & Hi & Hre). apply remap_layers_ok in Hmap.
    eexists _, _, p'. do 4 (split; [done|]). exists restored, cts. split; [done|]. split.
    + exists fresh, ls. split_and!; try done.
      * rewrite Hact. unfold c1. cbn. by rewrite insert_insert_eq.
      * intros b Hb. rewrite <- Hrefs1. by apply Hfr.
      * by rewrite <- Hrefs1.
    + destruct Hre as [R1 R2 R3 R4 R5]. by split.
    + intros Hnb Hperm. eapply (restored_inv id restored cts fresh ls c1 ext s1); try done.
      symmetry. by eapply Forall2_length.
  - destruct Hres as [Hc' Herr]. eexists _, _, p'. do 5 (split; [done|]).
    intros restored' cts' [(ps' & Hps' & Hrt') Hm'] Hre Hf Hcov.
    pose proof (po_state _ _ _ _ Hps') as E. rewrite (po_state _ _ _ _ Hok) in E. injection E as <-.
    rewrite Hrt in Hrt'. injection Hrt' as <-. rewrite Hm in Hm'. injection Hm' as <-.
    destruct Herr as [?|Hno]; [done|]. destruct Hno. split_and!; try done.
    destruct Hre as [R1 R2 R3 R4 R5]. by split.
Qed.

(** Any payload, restored into a sequence that holds nothing. *)
Lemma restore_anchored_spec state id limits g c ext s st0 p :
  cp_inv c ext → active c !! id = Some s → paged s = Some st0 → ids st0 = [] → paged_pool c = Some p →
  room c ext (N.to_nat (max_paged_blocks limits)) → small (bs_of p) →
  ∃ c' r p', restore_into_cache_pool_sequence_anchored state id limits (Some g) c = (c', r) ∧ paged_pool c' = Some p' ∧
    undisturbed p p' (refs c ext) ∧ same_around id c c' ∧
  match r with
  | Ok _ => (is_paged_payload state = false ∧ p' = p ∧ cp_inv c' ext ∧ ∃ s', active c' = <[id := s']> (active c) ∧ paged s' = paged s) ∨
      ∃ restored cts, decoded state limits g restored cts ∧
        contents_restored id g (cs_metadata state) restored cts c ext s p c' p'
  | Err _ => cp_inv c' ext ∧ ∀ restored cts, decoded state limits g restored cts →
      restorable s restored (layout p) → Forall (g_fits g p) cts → covered restored cts → is_Some (block_budget p)
  | Panic => False
  end.
Proof.
  intros Hc Hs Hst Hids Hp Hroom Hbs. unfold restore_into_cache_pool_sequence_anchored.
  assert (same_around id c c) as Hsame0 by (split_and!; try done; exists s; by rewrite insert_id).
  unfold mbind at 1, M_bind at 1, lift at 1.
  pose proof (validate_paged_payload_no_panic state limits (Some g)) as Hnp.
  destruct (validate_paged_payload state limits (Some g)) as [[]|e|] eqn:Hv; [| |done].
  2: { exists c, (Err e), p. split_and!; try done; [apply undisturbed_refl|].
       intros restored cts [(ps & Hps & _) _]. exfalso.
       rewrite (proj2 (validate_paged_payload_ok state limits (Some g))) in Hv; [done|]. right. eauto. }
  set (content := negb _).
  destruct (restore_dense_spec state content s) as (s1 & r1 & Hrun1 & Hr1 & E1 & E2 & E3 & Hskip).
  unfold mbind at 1, M_bind at 1, on_sequence at 1. rewrite Hs, Hrun1.
  apply validate_paged_payload_ok in Hv as [Hno|(ps & Hok)].
  - destruct (same_table_inv c ext id s s1 Hc Hs E1 E2) as [Hc1 Hrefs1].
    set (c1 := with_active (<[id := s1]> (active c)) c) in *.
    assert (same_around id c c1) as Hsame1 by (split_and!; try done; by eexists).
    destruct r1 as [[]|e|]; [| |done].
    2: { exists c1, (Err e), p. split_and!; try done; [apply undisturbed_refl|].
         intros restored cts [(ps & [_ Hne _ _ _ _ _] & _) _]. apply is_paged_contents in Hne. congruence. }
    pose proof Hno as Hdense. unfold is_paged_payload in Hno. apply orb_false_iff in Hno as [Hno Hnb]. apply orb_false_iff in Hno as [Hno1 Hno2].
    apply bool_decide_eq_false in Hno1, Hno2. change (content = false) in Hnb. rewrite Hnb.
    destruct (cs_paged_state state) as [ps|]; [destruct Hno2; by eexists|]. rewrite decide_False by done.
    exists c1, (Ok tt), p. split_and!; try done; [apply undisturbed_refl|]. left. split_and!; try done. by exists s1.
  - assert (content = true) as Ec.
    { unfold content. rewrite bool_decide_eq_false_2; [done|]. pose proof (po_some _ _ _ _ Hok).
      by destruct (cs_paged_blocks state). }
    destruct (Hskip Ec) as [-> ->]. rewrite Ec.
    destruct (restore_content_path state id limits g c ext s st0 p ps Hc Hs Hst Hids Hp Hroom Hbs Hok)
      as (c' & r & p' & Hrun & Hp' & Hu & Hsame & Hres).
    exists c', r, p'. split; [exact Hrun|]. do 3 (split; [done|]). destruct r; [by right|done|done].
Qed.

(** ** Ingesting *)

Lemma uniform_Ok n bs lay : uniform n bs bs = Ok lay →
  num_layers lay = n ∧ block_size lay = bs ∧ cache_mode lay = Fp16 ∧ 0 < bs ∧ 0 < n.
Proof.
  unfold uniform, layout_new, new_with_mode. destruct (decide (n = 0)); [done|]. destruct (decide (bs = 0)); [done|].
  destruct (decide _); [done|]. destruct (find_bytes _ _) as [[]|]; [done|]. cbn. intros [= <-]. cbn.
  rewrite length_replicate. split_and!; try done; lia.
Qed.

Lemma handoff_layout_spec n bs :
  match handoff_paged_layout n bs with
  | Ok lay => ∃ k, lay = paged_kv_cache k ∧ uniform n bs bs = Ok k
  | Err _ => ∀ k, uniform n bs bs ≠ Ok k
  | Panic => False
  end.
Proof.
  unfold handoff_paged_layout. destruct (uniform n bs bs) as [k|e|] eqn:E; [by eexists|done|].
  unfold uniform in E. destruct (decide (n = 0)); [done|]. by apply layout_new_no_panic in E.
Qed.

Lemma refs_fresh_set model lay c c1 ext id :
  active c !! id = None → active c1 = <[id := fresh_set model lay]> (active c) → detached c1 = detached c →
  refs c1 ext ≡ₚ refs c ext.
Proof.
  intros Hn Ha Hd. unfold refs. rewrite Ha, Hd, map_refs_insert by done.
  change (seq_refs (fresh_set model lay)) with (ids (sequence_new lay)). by rewrite ids_sequence_new.
Qed.

(** The pool a decode node has once it is asked to ingest. *)
Definition ingest_pool c (lay : PagedKvLayout) : PagedBlockPool :=
  ensured_pool lay (paged_block_budget c) (paged_pool c).

Record ingested (model : LanguageModel) (n bs : nat) state limits g c ext c' (id : N) : Prop := {
  in_id : id = next_id c;
  in_new : active c !! id = None;
  in_result : ∃ lay p', uniform n bs bs = Ok lay ∧ layout (ingest_pool c lay) = lay ∧ paged_pool c' = Some p' ∧
    undisturbed (ingest_pool c lay) p' (refs c ext) ∧
    ((is_paged_payload state = false ∧ cp_inv c' ext ∧
        ∃ s', active c' = <[id := s']> (active c) ∧ paged s' = Some (sequence_new lay)) ∨
     ∃ restored cts, decoded state limits g restored cts ∧
       contents_restored id g (cs_metadata state) restored cts c ext (fresh_set model lay) (ingest_pool c lay) c' p');
}.

Record refused (model : LanguageModel) (n bs : nat) state limits g c ext c' : Prop := {
  rf_active : active c' = active c;
  rf_inv : cp_inv c' ext;
  rf_pool p : paged_pool c = Some p → ∃ p', paged_pool c' = Some p' ∧ undisturbed p p' (refs c ext);
  rf_why lay restored cts : uniform n bs bs = Ok lay → layout (ingest_pool c lay) = lay →
    decoded state limits g restored cts → restorable (fresh_set model lay) restored lay →
    Forall (g_fits g (ingest_pool c lay)) cts → covered restored cts → is_Some (block_budget (ingest_pool c lay));
}.

Lemma ingest_state_spec model n state limits g bs c ext :
  cp_inv c ext → ids_left c → room c ext (N.to_nat (max_paged_blocks limits)) → small bs →
  ∃ c' r, ingest_sequence_handoff_state model n state limits g bs c = (c', r) ∧ detached c' = detached c ∧
  match r with
  | Ok id => ingested model n bs state limits g c ext c' id
  | Err _ => refused model n bs state limits g c ext c'
  | Panic => False
  end.
Proof.
  intros Hc Hleft Hroom Hbs. unfold ingest_sequence_handoff_state.
  pose proof (handoff_layout_spec n bs) as Hlay. unfold mbind at 1, M_bind at 1, lift at 1.
  destruct (handoff_paged_layout n bs) as [sl|e|]; [| |done].
  2: { exists c, (Err e). split_and!; try done. split; try done; [|by intros lay ? ? H; destruct (Hlay lay)].
       intros p Hp. exists p. split; [done|]. apply undisturbed_refl. }
  destruct Hlay as (lay & -> & Hlay). destruct (uniform_Ok n bs lay Hlay) as (L1 & L2 & L3 & L4 & L5).
  destruct (allocate_paged model lay c ext Hc Hleft ltac:(lia)) as (c1 & r1 & Hrun1 & Hc1 & N1 & D1 & B1 & Hres1).
  unfold mbind at 1, M_bind at 1, on_cache_pool at 1. rewrite Hrun1. destruct r1 as [id|e|]; [| |done]; cbn [from_pool].
  2: { destruct Hres1 as (A1 & P1 & p & Hp & Hne). exists c1, (Err (PoolSays e)). split_and!; try done. split; try done.
       - intros p0 Hp0. exists p0. rewrite P1. split; [done|]. apply undisturbed_refl.
       - intros lay' ? ? Hlay' Hl. rewrite Hlay in Hlay'. injection Hlay' as <-. unfold ingest_pool, ensured_pool in Hl.
         by rewrite Hp in Hl. }
  destruct Hres1 as (Eid & Hnone & A1 & P1 & Hl1). fold (ingest_pool c lay) in P1, Hl1.
  set (p := ingest_pool c lay) in *. pose proof (refs_fresh_set model lay c c1 ext id Hnone A1 D1) as Hrefs1.
  assert (active c1 !! id = Some (fresh_set model lay)) as Hs1 by (rewrite A1; apply lookup_insert_eq).
  destruct (restore_anchored_spec state id limits g c1 ext (fresh_set model lay) (sequence_new lay) p Hc1 Hs1 eq_refl
    (ids_sequence_new lay) P1) as (c2 & r2 & p2 & Hrun2 & P2 & Hu2 & Hsame2 & Hres2).
  { unfold room in *. by rewrite Hrefs1. }
  { unfold bs_of. by rewrite Hl1, L2. }
  assert (undisturbed p p2 (refs c ext)) as Hu.
  { eapply undisturbed_trans; [exact Hu2|apply undisturbed_refl|]. intros b Hb. by rewrite Hrefs1. }
  destruct Hsame2 as (N2 & M2 & D2 & B2 & s2 & A2).
  unfold mbind, M_bind, on_err. rewrite Hrun2. destruct r2 as [[]|e|]; [| |done].
  - exists c2, (Ok id). split; [done|]. split; [congruence|]. split; [done|done|]. exists lay, p2.
    do 4 (split; [done|]). destruct Hres2 as [(H1 & -> & H3 & s' & H4 & H5)|(restored & cts & Hdec & [Htab Hre Hinv])].
    + left. do 2 (split; [done|]). exists s'. split; [|by rewrite H5]. rewrite H4, A1. by rewrite insert_insert_eq.
    + right. exists restored, cts. split; [done|]. split; [|done|done].
      destruct Htab as (fresh & ls & T1 & T2 & T3 & T4 & T5 & T6). exists fresh, ls.
      rewrite T1, A1, insert_insert_eq. split_and!; try done.
      * intros b Hb. rewrite <- Hrefs1. by apply T5.
      * by rewrite <- Hrefs1.
  - destruct Hres2 as [Hc2 Hwhy]. unfold on_cache_pool.
    destruct (release_undisturbed id c2 ext p2 Hc2 P2) as (c3 & p3 & Hrun3 & Hc3 & A3 & D3 & N3 & P3 & Hu3).
    rewrite Hrun3. exists c3, (Err e). split; [done|]. split; [congruence|].
    assert (active c3 = active c) as A.
    { rewrite A3, A2, A1, !delete_insert_eq. by apply delete_id. }
    assert (refs c3 ext = refs c ext) as Hrefs3 by (unfold refs; by rewrite A, D3, D2, D1). split; try done.
    + intros p0 Hp0. exists p3. split; [done|]. assert (p = p0) as <- by (unfold p, ingest_pool, ensured_pool; by rewrite Hp0).
      eapply undisturbed_trans; [exact Hu|exact Hu3|]. rewrite Hrefs3. done.
    + intros lay' restored cts Hlay' Hl Hdec Hre. rewrite Hlay in Hlay'. injection Hlay' as <-. apply Hwhy; [done|].
      by rewrite Hl1.
Qed.
End ingest.
