(* ===== verification/KvHandoffProps.v ===== *)
(** * A handoff carries the sequence over

    The prefill node's frame, ingested by a decode node, gives a sequence that holds the same
    keys and values ([handoff_preserves_sequence]); whatever else is sent, the decode node's
    accounting and its other sequences are safe ([ingest_untrusted_frame]). *)

From Stdlib Require Import SpecFloat.
From S2P Require Import Prelude Bytes WireHeader Mlx PagedPool PagedPoolInv PagedPoolData PagedPrefill PagedContract.
From S2P Require Import CachePool CachePoolInv CacheSystem KvSerde KvHandoff KvIngest.

(** No block is sent twice and none is referenced twice. *)
Definition distinct_blocks (state : SerializableCacheState) : Prop :=
  NoDup (sb_block_id <$> cs_paged_blocks state) ∧
  ∀ ps, cs_paged_state state = Some ps → NoDup (sp_layers ps ≫= sl_block_ids).

Section safety.
Context {X : Mlx} {XL : MlxLaws X} {XB : MlxBytes} {XBL : MlxBytesLaws X XB}.
Context {KH : KvHandles} {KF : KvFields} {J : CacheJson}.

Lemma runtime_ids ps restored : paged_to_runtime ps = Ok restored → ids restored = sp_layers ps ≫= sl_block_ids.
Proof.
  unfold paged_to_runtime. rewrite bind_unit_ok. intros [_ [= <-]]. unfold ids. cbn.
  induction (sp_layers ps) as [|l ls IH]; [done|]. cbn. by rewrite IH.
Qed.

Lemma decoded_ids state limits g restored cts :
  decoded state limits g restored cts → origin_block <$> cts = sb_block_id <$> cs_paged_blocks state.
Proof. intros [(ps & Hok & _) Hm]. by eapply reconstruct_blocks_args; [apply Hok|]. Qed.

(** Distinct blocks: the table is the transferred blocks, each once. *)
Lemma decoded_distinct state limits g restored cts :
  decoded state limits g restored cts → distinct_blocks state →
  NoDup (origin_block <$> cts) ∧ ids restored ≡ₚ origin_block <$> cts.
Proof.
  intros Hdec [Hnd1 Hnd2]. rewrite (decoded_ids _ _ _ _ _ Hdec). destruct Hdec as [(ps & Hok & Hrt) _].
  split; [done|]. rewrite (runtime_ids _ _ Hrt). specialize (Hnd2 ps (po_state _ _ _ _ Hok)).
  apply NoDup_Permutation; [done|done|]. intros b. rewrite elem_of_tables, list_elem_of_fmap. split.
  - intros (l & ls & Hl & Hb). destruct (po_contents _ _ _ _ Hok l ls b Hl Hb) as (blk & Hin & <- & _). eauto.
  - intros (blk & -> & Hin). destruct (po_referenced _ _ _ _ Hok blk Hin) as (ls & Hl & Hb). eauto.
Qed.

(** C10. A decode node with room for the blocks its limits allow, given any bytes at all: the
    ingestion does not panic. A refused frame leaves the active sequences as they were and the
    block accounting exact; an accepted one adds one sequence under a fresh id. In both cases the
    parked sets and every block in use before keep their place and contents. After an accepted
    frame the accounting is exact when the payload sends and references no block twice. *)
Theorem ingest_untrusted_frame model n bytes limits g bs c ext :
  cp_inv c ext → ids_left c → room c ext (N.to_nat (max_paged_blocks limits)) → small bs →
  ∃ c' r, ingest_sequence_handoff model n bytes limits g bs c = (c', r) ∧ detached c' = detached c ∧
    (∀ p, paged_pool c = Some p → ∃ p', paged_pool c' = Some p' ∧ undisturbed p p' (refs c ext)) ∧
  match r with
  | Ok id => id = next_id c ∧ active c !! id = None ∧ (∃ s, active c' = <[id := s]> (active c)) ∧
      ∃ state, deserialize_cache_state_with_limits bytes limits = Ok state ∧
        (distinct_blocks state → cp_inv c' ext)
  | Err _ => active c' = active c ∧ cp_inv c' ext
  | Panic => False
  end.
Proof.
  intros Hc Hleft Hroom Hbs. unfold ingest_sequence_handoff, mbind, M_bind, lift.
  pose proof (deserialize_no_panic bytes limits) as Hnp.
  destruct (deserialize_cache_state_with_limits bytes limits) as [state|e|]; [| |done].
  2: { exists c, (Err e). split_and!; try done. intros p Hp. exists p. split; [done|apply undisturbed_refl]. }
  destruct (ingest_state_spec model n state limits g bs c ext Hc Hleft Hroom Hbs) as (c' & r & Hrun & Hd & Hres).
  exists c', r. split; [exact Hrun|]. split; [done|]. destruct r as [id|e|]; [| |done].
  - destruct Hres as [H1 H2 (lay & p' & H3 & H4 & H5 & H6 & H7)]. split.
    { intros p Hp. exists p'. split; [done|]. unfold ingest_pool, ensured_pool in H6. by rewrite Hp in H6. }
    split_and!; try done.
    + destruct H7 as [(_ & _ & s & Hs & _)|(restored & cts & _ & [(fresh & ls & Hs & _) _ _])]; by eexists.
    + exists state. split; [done|]. intros Hdist.
      destruct H7 as [(_ & Hc' & _)|(restored & cts & Hdec & [_ _ Hinv])]; [done|].
      apply Hinv; by eapply decoded_distinct.
  - destruct Hres as [H1 H2 H3 _]. done.
Qed.
End safety.

(** ** The sending side *)

Section extract.
Context {X : Mlx} {XL : MlxLaws X}.
Implicit Types (p : PagedBlockPool).

(** The contents read for block [b] of layer [l]. *)
Record describes p (H D dt : Z) (x : nat * N) (ct : BlockContents) : Prop := {
  de_block : origin_block ct = x.2;
  de_layer : origin_layer ct = x.1;
  de_args : ct_args (Z.of_nat (bs_of p)) H D dt ct;
  de_cells c slot h d : slot < bs_of p → (0 ≤ h < H)%Z → (0 ≤ d < D)%Z →
    Some (block_elem (side_arg (content_keys ct) (content_values ct) c) (Z.of_nat slot) h d) = pcell c p x.1 x.2 slot h d;
}.

Definition readable p (H D dt : Z) (l : nat) (b : N) : Prop := has_row p l b ∧ geom_is p l H D dt.

Lemma read_contents b l p own H D dt :
  pool_inv p own → readable p H D dt l b → small (bs_of p) → (0 ≤ H)%Z → (0 ≤ D)%Z →
  ∃ k v, read_block_contents b l p = (p, Ok (k, v)) ∧ describes p H D dt (l, b) (mkContents b l k v).
Proof.
  intros Hi [(s & Hs & [row Hr]) (s' & Hs' & m & Hm & E1 & E2 & E3)] Hbs HH HD. rewrite Hs in Hs'. injection Hs' as <-.
  subst H D dt. destruct (read_row_spec b l p own s m row Hi Hs Hm Hr Hbs HH HD) as (k & v & Hread & Harg).
  exists k, v. pose proof (lookup_lt_Some _ _ _ Hs) as Hlt. rewrite (pi_layers _ _ Hi) in Hlt. split.
  - unfold read_block_contents. by rewrite (M_bind_eq _ _ _ _ _ (validate_layer_ok l p Hlt)).
  - destruct (Harg K) as (K1 & K2 & _). destruct (Harg V) as (V1 & V2 & _). split; try done.
    + split; try done. split_and!; lia.
    + intros c slot h d Hs' Hh Hd. by apply (Harg c).
Qed.

Lemma read_blocks_spec l p own H D dt : pool_inv p own → small (bs_of p) → (0 ≤ H)%Z → (0 ≤ D)%Z →
  ∀ bs seen, Forall (readable p H D dt l) bs → NoDup bs → (∀ b, b ∈ bs → b ∉ seen) →
  ∃ cts seen', read_blocks bs l seen p = Ok (cts, seen') ∧ Forall2 (describes p H D dt) ((l,.) <$> bs) cts ∧
    ∀ b, b ∈ seen' ↔ b ∈ bs ∨ b ∈ seen.
Proof.
  intros Hi Hsm HH HD. induction bs as [|b bs IH]; intros seen Hall Hnd Hdis.
  { exists [], seen. split_and!; [done|constructor|set_solver]. }
  apply Forall_cons in Hall as [Hb Hall]. apply NoDup_cons in Hnd as [Hnb Hnd]. cbn [read_blocks].
  rewrite decide_False by (apply Hdis; by left).
  destruct (read_contents b l p own H D dt Hi Hb Hsm HH HD) as (k & v & -> & Hd).
  destruct (IH ({[b]} ∪ seen) Hall Hnd) as (cts & seen' & -> & Hcts & Hseen); [set_solver|].
  eexists _, _. split; [done|]. split; [by constructor|]. intros b'. rewrite Hseen. set_solver.
Qed.

(** The entries of a block table, with their layers. *)
Fixpoint table_from (l : nat) (ls : list PagedLayerState) : list (nat * N) :=
  match ls with [] => [] | s :: ls' => ((l,.) <$> block_ids s) ++ table_from (S l) ls' end.

Lemma table_from_ids l ls : snd <$> table_from l ls = ls ≫= block_ids.
Proof.
  revert l. induction ls as [|s ls IH]; intros l; [done|]. cbn. rewrite fmap_app, IH. f_equal.
  induction (block_ids s) as [|b bs IHb]; [done|]. cbn. by rewrite IHb.
Qed.

Lemma elem_of_table_from l ls k b :
  (k, b) ∈ table_from l ls ↔ ∃ i s, k = l + i ∧ ls !! i = Some s ∧ b ∈ block_ids s.
Proof.
  revert l. induction ls as [|s ls IH]; intros l; cbn; [set_solver|].
  rewrite elem_of_app, list_elem_of_fmap, IH. split.
  - intros [(b' & [= -> ->] & Hb)|(i & s' & -> & Hs & Hb)]; [exists 0, s|exists (S i), s']; split_and!; try done; lia.
  - intros ([|i] & s' & -> & Hs & Hb); cbn in Hs; simplify_eq; [left|right].
    + exists b. by rewrite Nat.add_0_r.
    + exists i, s'. split_and!; try done. lia.
Qed.

Lemma read_layers_spec p own H D dt : pool_inv p own → small (bs_of p) → (0 ≤ H)%Z → (0 ≤ D)%Z →
  ∀ ls l seen, (∀ k b, (k, b) ∈ table_from l ls → readable p H D dt k b) → NoDup (ls ≫= block_ids) →
  (∀ b, b ∈ ls ≫= block_ids → b ∉ seen) →
  ∃ cts, read_layers ls l seen p = Ok cts ∧ Forall2 (describes p H D dt) (table_from l ls) cts.
Proof.
  intros Hi Hsm HH HD. induction ls as [|s ls IH]; intros l seen Hall Hnd Hdis; [by exists []|].
  cbn [read_layers table_from] in *. cbn in Hnd, Hdis. apply NoDup_app in Hnd as (Hnd1 & Hdj & Hnd2).
  destruct (read_blocks_spec l p own H D dt Hi Hsm HH HD (block_ids s) seen) as (here & seen' & -> & Hh & Hseen).
  - apply Forall_forall. intros b Hb. apply Hall. apply elem_of_app. left. apply list_elem_of_fmap. by exists b.
  - done.
  - intros b Hb. apply Hdis. set_solver.
  - cbn [mbind outcome_bind]. destruct (IH (S l) seen') as (rest & -> & Hrest).
    + intros k b Hb. apply Hall. set_solver.
    + done.
    + intros b Hb. rewrite Hseen. intros [Hb'|Hb']; [by eapply Hdj|]. eapply Hdis; [|exact Hb']. set_solver.
    + eexists. split; [done|]. by apply Forall2_app.
Qed.
End extract.

(** ** Slabs on the wire *)

Section wire.
Context {X : Mlx} {XL : MlxLaws X} {XB : MlxBytes} {XBL : MlxBytesLaws X XB}.

Lemma checked_product_3 (a b c : N) :
  (0 < a → 0 < b → 0 < c → a * b * c ≤ u64_max → checked_product [a; b; c] = Some (a * b * c))%N.
Proof.
  intros Ha Hb Hc Hle. assert (∀ x y, (x * y ≤ u64_max)%N → checked_mul_u64 x y = Some (x * y)%N) as Hm.
  { intros x y Hxy. unfold checked_mul_u64. by rewrite (proj2 (N.leb_le _ _) Hxy). }
  assert (a * 1 * 1 ≤ a * b * c ∧ a * b * 1 ≤ a * b * c)%N as [H1 H2].
  { split; repeat apply N.mul_le_mono; lia. }
  unfold checked_product. cbn [foldl mbind option_bind]. rewrite N.mul_1_r in H1, H2.
  rewrite (Hm 1%N a) by lia. cbn [mbind option_bind]. rewrite N.mul_1_l, (Hm a b) by lia. cbn [mbind option_bind].
  by apply Hm.
Qed.

Lemma element_size_pos t e : mlx_dtype_element_size t = Ok e → (0 < e)%N.
Proof. unfold mlx_dtype_element_size. repeat (destruct (decide _); [by intros [= <-]|]). done. Qed.

(** A slab is read back from its bytes with the same shape, type and elements. *)
Lemma raw_roundtrip a n h d dt e :
  array_shape a = [n; h; d] → array_dtype a = dt → mlx_dtype_element_size dt = Ok e →
  (0 < n)%Z → (0 < h)%Z → (0 < d)%Z → (n * h * d * Z.of_N e ≤ Z.of_N u64_max)%Z →
  Z.of_nat (length (rt_data (extract_mlx_array_data a))) = (n * h * d * Z.of_N e)%Z ∧
  ∃ a', reconstruct_mlx_array (extract_mlx_array_data a) = Ok a' ∧ array_shape a' = [n; h; d] ∧ array_dtype a' = dt ∧
    ∀ i hh dd, (0 ≤ i < n)%Z → (0 ≤ hh < h)%Z → (0 ≤ dd < d)%Z → block_elem a' i hh dd = block_elem a i hh dd.
Proof.
  intros Hs Ht He Hn Hh Hd Hle. pose proof (element_size_pos _ _ He) as Hpos.
  assert (Forall (λ d, 0 ≤ d)%Z (array_shape a)) as Hnn by (rewrite Hs; repeat constructor; lia).
  assert (mlx_dtype_element_size (array_dtype a) = Ok e) as He' by (by rewrite Ht).
  pose proof (raw_bytes_length a e He' Hnn) as Hlen. rewrite Hs in Hlen. unfold size_of in Hlen. cbn [foldr] in Hlen.
  rewrite Z.mul_1_r, !Z.mul_assoc in Hlen. cbn [extract_mlx_array_data rt_data]. split; [done|].
  destruct (from_raw_bytes a e He' Hnn) as (a' & Hf & Hel). exists a'.
  assert (array_shape a' = [n; h; d]) as Hs' by (rewrite <- Hs; by eapply from_bytes_shape).
  split_and!; [|done|rewrite <- Ht; by eapply from_bytes_dtype|].
  - unfold reconstruct_mlx_array. apply bind_unit_ok. split; [|cbn; by rewrite Hf].
    apply validate_raw_tensor_ok. cbn. split; [done|]. exists (Z.to_N n * Z.to_N h * Z.to_N d)%N, e. split; [done|].
    rewrite Hs. cbn [fmap list_fmap]. set (k := (Z.to_N n * Z.to_N h * Z.to_N d)%N).
    assert (Z.of_N (k * e) = n * h * d * Z.of_N e)%Z as Ek by (unfold k; rewrite !N2Z.inj_mul, !Z2N.id by lia; done).
    assert (k * 1 ≤ k * e)%N as Hk by (apply N.mul_le_mono; lia).
    split; [apply checked_product_3; fold k; lia|]. unfold checked_mul_u64.
    rewrite (proj2 (N.leb_le _ _)) by lia. f_equal. lia.
  - intros i hh dd Hi Hhh Hdd. unfold block_elem. rewrite Hs, Hs'. apply Hel. rewrite Hs. shape_tac.
Qed.

(** [ct'] is [ct] as the receiver builds it. *)
Record carried (n h d dt : Z) (ct ct' : BlockContents) : Prop := {
  ca_block : origin_block ct' = origin_block ct;
  ca_layer : origin_layer ct' = origin_layer ct;
  ca_args : ct_args n h d dt ct';
  ca_elems c i hh dd : (0 ≤ i < n)%Z → (0 ≤ hh < h)%Z → (0 ≤ dd < d)%Z →
    block_elem (side_arg (content_keys ct') (content_values ct') c) i hh dd =
    block_elem (side_arg (content_keys ct) (content_values ct) c) i hh dd;
}.

Lemma block_roundtrip ct n h d dt e :
  ct_args n h d dt ct → mlx_dtype_element_size dt = Ok e →
  (0 < n)%Z → (0 < h)%Z → (0 < d)%Z → (n * h * d * Z.of_N e ≤ Z.of_N u64_max)%Z →
  ∃ ct', reconstruct_block (serialize_block ct) = Ok ct' ∧ carried n h d dt ct ct'.
Proof.
  intros [K1 V1 K2 V2 Hnn] He Hn Hh Hd Hle.
  destruct (raw_roundtrip (content_keys ct) n h d dt e) as (_ & k & Hk & K3 & K4 & K5); try done.
  destruct (raw_roundtrip (content_values ct) n h d dt e) as (_ & v & Hv & V3 & V4 & V5); try done.
  exists (mkContents (origin_block ct) (origin_layer ct) k v). split.
  - unfold reconstruct_block. cbn [serialize_block sb_keys sb_values sb_block_id sb_layer_idx]. rewrite Hk. cbn [mbind outcome_bind]. by rewrite Hv.
  - split; try done. intros [] i hh dd ? ? ?; cbn; [by apply K5|by apply V5].
Qed.

Lemma blocks_roundtrip n h d dt e cts :
  Forall (ct_args n h d dt) cts → mlx_dtype_element_size dt = Ok e →
  (0 < n)%Z → (0 < h)%Z → (0 < d)%Z → (n * h * d * Z.of_N e ≤ Z.of_N u64_max)%Z →
  ∃ cts', mapM (M := serde) reconstruct_block (serialize_block <$> cts) = Ok cts' ∧ Forall2 (carried n h d dt) cts cts'.
Proof.
  intros Hall He Hn Hh Hd Hle. induction Hall as [|ct cts Hct _ IH]; [exists []; by split; [|constructor]|].
  destruct IH as (cts' & Hm & Hc). destruct (block_roundtrip ct n h d dt e) as (ct' & Hr & Hct'); try done.
  exists (ct' :: cts'). rewrite mapM_outcome_ok in Hm |- *. by split; constructor.
Qed.
End wire.

(** ** From node to node *)

(** [serde_json] reads back what it wrote, numbers that JSON cannot carry apart (a float that
    is not finite is written as [null]). *)
Class CacheJsonLaws (J : CacheJson) : Prop := {
  json_roundtrip s j : (∀ x, cs_sampling_state s = Some x → finite_sampling x) →
    cache_to_vec s = Some j → cache_from_slice j = Some s;
}.

Section handover.
Context {X : Mlx} {XL : MlxLaws X} {XB : MlxBytes} {XBL : MlxBytesLaws X XB}.
Context {KH : KvHandles} {KF : KvFields} {J : CacheJson} {JL : CacheJsonLaws J}.
Implicit Types (c : CachePool) (s : SequenceCacheSet) (p : PagedBlockPool).

(** A finished prefill: sequence [id] of [c] has the table [st], each of whose layers holds
    tokens of one geometry. Pool-backed caches have no buffers of their own. *)
Record prefilled c ext (id : N) s st p (H D dt : Z) (kv : nat → side → nat → Z → Z → elt) : Prop := {
  pf_inv : cp_inv c ext;
  pf_seq : active c !! id = Some s;
  pf_backend : backend s = PagedKvCache;
  pf_paged : paged s = Some st;
  pf_backed : forallb is_paged_backed (caches s) = true;
  pf_buffers : Forall (λ k, cache_keys k = None) (caches s);
  pf_pool : paged_pool c = Some p;
  pf_layout : paged_layout s = Some (layout p);
  pf_valid : ∃ bytes, layout_new (seq_block_size st) bytes = Ok (layout p);
  pf_layers : length (layers st) = num_layers (layout p);
  pf_some : layers st ≠ [];
  pf_holds l ls : layers st !! l = Some ls →
    0 < len ls ∧ logical_start ls ≤ len ls ∧ ∃ own, holds p st l ls own H D dt (kv l);
  pf_small : small (bs_of p);
  pf_dims : (0 < H ∧ 0 < D)%Z;
}.

(** The state that is sent. *)
Definition sent_state (id : N) s st (lay : PagedKvLayout) sampling (hist gen : list Z) (cts : list BlockContents) :
    SerializableCacheState :=
  mkCacheState CtStandard ((λ _, mkEntry None None) <$> caches s)
    (mkCacheMeta (prompt_len s) (current_offset s) (length (caches s)) (cache_live_len <$> caches s) None None None None)
    sampling hist gen id SerPaged (Some (paged_from_runtime st lay)) (serialize_block <$> cts).

Lemma prefilled_bs c ext id s st p H D dt kv :
  prefilled c ext id s st p H D dt kv → seq_block_size st = bs_of p ∧ 0 < bs_of p.
Proof.
  intros Hp. destruct (pf_valid _ _ _ _ _ _ _ _ _ _ Hp) as (bytes & Hb). apply layout_new_Ok in Hb as (E & _ & Hpos).
  unfold bs_of. by rewrite E.
Qed.

Lemma prefilled_ids c ext id s st p H D dt kv : prefilled c ext id s st p H D dt kv → NoDup (ids st).
Proof. intros Hp. eapply (ci_seqs _ _ (pf_inv _ _ _ _ _ _ _ _ _ _ Hp)); apply Hp. Qed.

Lemma prefilled_readable c ext id s st p H D dt kv k b :
  prefilled c ext id s st p H D dt kv → (k, b) ∈ table_from 0 (layers st) → readable p H D dt k b.
Proof.
  intros Hp (i & ls & -> & Hl & Hb)%elem_of_table_from. cbn. destruct (pf_holds _ _ _ _ _ _ _ _ _ _ Hp i ls Hl)
    as (_ & _ & own & Hh). apply list_elem_of_lookup_1 in Hb as [j Hj].
  destruct (ho_rows _ _ _ _ _ _ _ _ _ Hh j) as (b' & Hb' & Hr); [by eapply lookup_lt_Some|].
  rewrite Hj in Hb'. injection Hb' as <-. split; [done|]. eapply ready_geom; [apply Hh|done].
Qed.

Lemma extract_entries_none cs : Forall (λ k, cache_keys k = None) cs →
  mapM (M := serde) extract_kv_cache_entry cs = Ok ((λ _, mkEntry None None) <$> cs).
Proof.
  intros H. apply mapM_outcome_ok. induction H as [|k cs Hk _ IH]; constructor; [|done].
  unfold extract_kv_cache_entry. by rewrite Hk.
Qed.

Lemma extract_state c ext id s st p H D dt kv sampling hist :
  prefilled c ext id s st p H D dt kv →
  ∃ cts, serialize_cache_pool_sequence c id sampling hist = Ok (sent_state id s st (layout p) sampling hist [] cts) ∧
    Forall2 (describes p H D dt) (table_from 0 (layers st)) cts.
Proof.
  intros Hp. pose proof (pf_inv _ _ _ _ _ _ _ _ _ _ Hp) as Hc. pose proof (ci_pool _ _ Hc) as Hi.
  rewrite (pf_pool _ _ _ _ _ _ _ _ _ _ Hp) in Hi. pose proof (pf_dims _ _ _ _ _ _ _ _ _ _ Hp) as [HH HD].
  destruct (read_layers_spec p _ H D dt Hi (pf_small _ _ _ _ _ _ _ _ _ _ Hp) ltac:(lia) ltac:(lia) (layers st) 0 ∅)
    as (cts & Hread & Hd).
  - intros k b. by eapply prefilled_readable.
  - by eapply prefilled_ids.
  - set_solver.
  - exists cts. split; [|done]. unfold serialize_cache_pool_sequence, extract_paged_blocks, serialize_sequence_cache_set.
    rewrite (pf_seq _ _ _ _ _ _ _ _ _ _ Hp). cbn [ok_or_err mbind outcome_bind].
    rewrite (extract_entries_none _ (pf_buffers _ _ _ _ _ _ _ _ _ _ Hp)). cbn [mbind outcome_bind].
    rewrite (pf_paged _ _ _ _ _ _ _ _ _ _ Hp), decide_False by (intros Hx; apply Hx; apply Hp).
    rewrite (pf_backed _ _ _ _ _ _ _ _ _ _ Hp), (pf_pool _ _ _ _ _ _ _ _ _ _ Hp), Hread. cbn [negb lift_pool from_pool].
    rewrite (pf_layout _ _ _ _ _ _ _ _ _ _ Hp), (pf_backend _ _ _ _ _ _ _ _ _ _ Hp). done.
Qed.

Lemma layout_new_bytes bs bytes lay : layout_new bs bytes = Ok lay → bytes_per_block lay = bytes.
Proof.
  unfold layout_new, new_with_mode. destruct (decide (bs = 0)); [done|]. destruct (decide (bytes = [])); [done|].
  destruct (find_bytes _ _) as [[]|]; [done|]. cbn. by intros [= <-].
Qed.

Lemma sent_valid c ext id s st p H D dt kv :
  prefilled c ext id s st p H D dt kv → paged_validate (paged_from_runtime st (layout p)) = Ok tt.
Proof.
  intros Hp. destruct (pf_valid _ _ _ _ _ _ _ _ _ _ Hp) as (bytes & Hb). destruct (prefilled_bs _ _ _ _ _ _ _ _ _ _ Hp) as [E _].
  unfold paged_validate, paged_layout_of. cbn. rewrite (layout_new_bytes _ _ _ Hb), Hb. cbn [mbind outcome_bind].
  apply ensure_bind. rewrite length_fmap. split; [apply Hp|]. apply validate_layers_ok, Forall_fmap, Forall_lookup.
  intros l ls Hl. destruct (pf_holds _ _ _ _ _ _ _ _ _ _ Hp l ls Hl) as (_ & Hs & own & Hh). split; cbn; [done|].
  rewrite (ho_cover _ _ _ _ _ _ _ _ _ Hh). done.
Qed.

(** A decode node that can take such a sequence: a dense-natural model of as many layers, a
    pool of that layout whose geometry is the model's or not yet fixed, and limits that the
    sequence is within. [e] is the size of an element. *)
Record decode_ready c ext (model : LanguageModel) limits st (bs : nat) (H D dt : Z) (e : N) lay : Prop := {
  dr_inv : cp_inv c ext;
  dr_ids : ids_left c;
  dr_room : room c ext (N.to_nat (max_paged_blocks limits));
  dr_model : layout_backend (sequence_state_layout model) = DenseKvCache;
  dr_handles i : is_paged_backed (new_paged i) = true;
  dr_layout : uniform (length (layers st)) bs bs = Ok lay;
  dr_same : layout (ingest_pool c lay) = lay;
  dr_fits l : l < length (layers st) → fits (ingest_pool c lay) l H D dt;
  dr_blocks : (N.of_nat (length (ids st)) ≤ max_paged_blocks limits)%N;
  dr_dtype : mlx_dtype_element_size dt = Ok e;
  dr_slab : (Z.of_nat bs * H * D * Z.of_N e ≤ Z.of_N (max_block_slab_bytes limits))%Z;
  dr_usize : (max_block_slab_bytes limits ≤ u64_max)%N;
}.

Definition model_geometry st (bs : nat) (H D dt : Z) : ExpectedBlockGeometry :=
  mkGeometry (length (layers st)) bs H D dt.

Lemma describes_ids p H D dt st cts :
  Forall2 (describes p H D dt) (table_from 0 (layers st)) cts → origin_block <$> cts = ids st.
Proof.
  intros Hd. unfold ids. rewrite <- (table_from_ids 0). induction Hd as [|x ct t cts [E _ _ _] _ IH]; [done|]. cbn.
  by rewrite E, IH.
Qed.

Lemma elem_of_contents p H D dt st cts ct :
  Forall2 (describes p H D dt) (table_from 0 (layers st)) cts → ct ∈ cts →
  ∃ ls, layers st !! origin_layer ct = Some ls ∧ origin_block ct ∈ block_ids ls ∧ ct_args (Z.of_nat (bs_of p)) H D dt ct.
Proof.
  intros Hd [i Hi]%list_elem_of_lookup_1. destruct (Forall2_lookup_r _ _ _ _ _ Hd Hi) as ([k b] & Hx & [E1 E2 Ha _]).
  apply list_elem_of_lookup_2, elem_of_table_from in Hx as (j & ls & -> & Hl & Hb). cbn in E1, E2.
  exists ls. by rewrite E1, E2.
Qed.

Lemma elem_of_table_contents p H D dt st cts l ls b :
  Forall2 (describes p H D dt) (table_from 0 (layers st)) cts → layers st !! l = Some ls → b ∈ block_ids ls →
  ∃ i ct, cts !! i = Some ct ∧ describes p H D dt (l, b) ct.
Proof.
  intros Hd Hl Hb. assert ((l, b) ∈ table_from 0 (layers st)) as Hx by (apply elem_of_table_from; eauto).
  apply list_elem_of_lookup_1 in Hx as [i Hi]. destruct (Forall2_lookup_l _ _ _ _ _ Hd Hi) as (ct & Hct & Hdes). eauto.
Qed.

Section both.
Context (c1 c2 : CachePool) (ext1 ext2 : list DetachedPagedCacheSet) (id : N) (s : SequenceCacheSet)
  (st : PagedSequenceState) (p : PagedBlockPool) (H D dt : Z) (kv : nat → side → nat → Z → Z → elt)
  (model : LanguageModel) (limits : CacheIngestLimits) (e : N) (lay : PagedKvLayout).
Local Abbreviation bs := (bs_of p).
Context (HP : prefilled c1 ext1 id s st p H D dt kv) (HD : decode_ready c2 ext2 model limits st bs H D dt e lay).

Lemma both_bounds : (0 < Z.of_nat bs)%Z ∧ small bs ∧ (0 < H)%Z ∧ (0 < D)%Z ∧
  (Z.of_nat bs * H * D * Z.of_N e ≤ Z.of_N u64_max)%Z.
Proof.
  destruct (prefilled_bs _ _ _ _ _ _ _ _ _ _ HP) as [_ Hpos]. pose proof (pf_dims _ _ _ _ _ _ _ _ _ _ HP) as [? ?].
  pose proof (dr_slab _ _ _ _ _ _ _ _ _ _ _ HD). pose proof (dr_usize _ _ _ _ _ _ _ _ _ _ _ HD).
  split_and!; [lia|apply HP|done|done|]. lia.
Qed.

Lemma sent_payload_ok sampling hist gen cts :
  Forall2 (describes p H D dt) (table_from 0 (layers st)) cts →
  payload_ok (sent_state id s st (layout p) sampling hist gen cts) limits (Some (model_geometry st bs H D dt))
    (paged_from_runtime st (layout p)).
Proof.
  intros Hd. pose proof (describes_ids _ _ _ _ _ _ Hd) as Hids. destruct both_bounds as (Hbs & Hsm & HH & HD0 & Hle).
  assert (length cts = length (ids st)) as Hlen by (rewrite <- Hids; by rewrite length_fmap).
  split; cbn [sent_state cs_paged_state cs_paged_blocks].
  - done.
  - pose proof (pf_some _ _ _ _ _ _ _ _ _ _ HP) as Hne. destruct (layers st) as [|ls0 r] eqn:El; [done|].
    destruct (pf_holds _ _ _ _ _ _ _ _ _ _ HP 0 ls0) as (Hl0 & _ & own & Hh); [by rewrite El|].
    pose proof (ho_cover _ _ _ _ _ _ _ _ _ Hh) as Hcov. pose proof (div_lt_ceil 0 (len ls0) (bs_of p) ltac:(lia) Hl0).
    destruct (block_ids ls0) as [|b ?] eqn:Eb; [cbn in Hcov; lia|].
    intros E. destruct cts; [|done]. unfold ids in Hlen. rewrite El in Hlen. cbn in Hlen. rewrite Eb in Hlen. done.
  - rewrite length_fmap, Hlen. apply HD.
  - apply Forall_fmap, Forall_forall. intros ct Hct.
    destruct (elem_of_contents _ _ _ _ _ _ _ Hd Hct) as (ls & Hl & _ & [K1 V1 K2 V2 _]). split; cbn.
    + destruct (raw_roundtrip (content_keys ct) _ _ _ _ _ K1 K2 (dr_dtype _ _ _ _ _ _ _ _ _ _ _ HD) Hbs HH HD0 Hle) as [Hk _].
      destruct (raw_roundtrip (content_values ct) _ _ _ _ _ V1 V2 (dr_dtype _ _ _ _ _ _ _ _ _ _ _ HD) Hbs HH HD0 Hle) as [Hv _].
      cbn in Hk, Hv. pose proof (dr_slab _ _ _ _ _ _ _ _ _ _ _ HD). repeat constructor; cbn; lia.
    + intros k [= <-]. by eapply lookup_lt_Some.
    + intros g [= <-]. unfold expected_slab_shape. cbn. rewrite (i32_small _ Hsm). repeat constructor; cbn; congruence.
  - intros b b' (ct & -> & Hct)%list_elem_of_fmap (ct' & -> & Hct')%list_elem_of_fmap. cbn. intros E.
    apply list_elem_of_lookup_1 in Hct as [i Hi], Hct' as [j Hj].
    assert (i = j) as <-; [|congruence]. pose proof (prefilled_ids _ _ _ _ _ _ _ _ _ _ HP) as Hnd. rewrite <- Hids in Hnd.
    eapply NoDup_lookup; [exact Hnd| |]; rewrite list_lookup_fmap; [by rewrite Hi|rewrite Hj; cbn; by rewrite E].
  - intros l sl b. cbn. rewrite list_lookup_fmap. intros (ls & Hl & ->)%fmap_Some. cbn. intros Hb.
    destruct (elem_of_table_contents _ _ _ _ _ _ _ _ _ Hd Hl Hb) as (i & ct & Hct & [E1 E2 _ _]).
    exists (serialize_block ct). split; [apply list_elem_of_fmap; exists ct; split; [done|by eapply list_elem_of_lookup_2]|done].
  - intros b (ct & -> & Hct)%list_elem_of_fmap. destruct (elem_of_contents _ _ _ _ _ _ _ Hd Hct) as (ls & Hl & Hb & _).
    exists (layer_from_runtime ls). cbn. by rewrite list_lookup_fmap, Hl.
Qed.

(** What the decode node makes of the payload. *)
Lemma sent_decoded sampling hist gen cts :
  Forall2 (describes p H D dt) (table_from 0 (layers st)) cts →
  ∃ cts', decoded (sent_state id s st (layout p) sampling hist gen cts) limits (model_geometry st bs H D dt) st cts' ∧
    Forall2 (carried (Z.of_nat bs) H D dt) cts cts'.
Proof.
  intros Hd. destruct both_bounds as (Hbs & Hsm & HH & HD0 & Hle).
  destruct (blocks_roundtrip (Z.of_nat bs) H D dt e cts) as (cts' & Hm & Hc); try done.
  { apply Forall_forall. intros ct Hct. by destruct (elem_of_contents _ _ _ _ _ _ _ Hd Hct) as (ls & _ & _ & ?). }
  { apply HD. }
  exists cts'. split; [|done]. split; [|done]. exists (paged_from_runtime st (layout p)).
  split; [by apply sent_payload_ok|]. apply paged_to_from_runtime. by eapply sent_valid.
Qed.

(** The fresh block that stands for block [b] of layer [l] holds what [b] holds. *)
Lemma moved_block cts cts' fresh p' l ls (b f : N) :
  Forall2 (describes p H D dt) (table_from 0 (layers st)) cts → Forall2 (carried (Z.of_nat bs) H D dt) cts cts' →
  Forall2 (ct_placed p' (i32 bs) H D dt) cts' fresh → bs_of p' = bs →
  layers st !! l = Some ls → b ∈ block_ids ls → block_map ∅ cts' fresh !! b = Some f →
  f ∈ fresh ∧ on_layer p' l f ∧ has_row p' l f ∧ geom_is p' l H D dt ∧
  ∀ (c : side) slot h d, slot < bs → (0 ≤ h < H)%Z → (0 ≤ d < D)%Z → pcell c p' l f slot h d = pcell c p l b slot h d.
Proof.
  intros Hd Hc Hpl Ebs Hl Hb Hf. destruct both_bounds as (Hbs & Hsm & HH & HD0 & _).
  destruct (elem_of_table_contents _ _ _ _ _ _ _ _ _ Hd Hl Hb) as (i & ct & Hi & Hdes).
  destruct (Forall2_lookup_l _ _ _ _ _ Hc Hi) as (ct' & Hi' & Hcar).
  destruct (Forall2_lookup_l _ _ _ _ _ Hpl Hi') as (f' & Hf' & [P1 P2 P3 P4]).
  assert (NoDup (origin_block <$> cts')) as Hnd.
  { replace (origin_block <$> cts') with (ids st); [by eapply prefilled_ids|]. rewrite <- (describes_ids _ _ _ _ _ _ Hd).
    clear -Hc. induction Hc as [|x y ? ? [E _ _ _] _ IH]; [done|]. cbn. by rewrite E, IH. }
  pose proof (block_map_lookup cts' ∅ fresh Hnd (eq_sym (Forall2_length _ _ _ Hpl))) as Hbm.
  pose proof (Forall2_lookup_lr _ _ _ _ _ _ Hbm Hi' Hf') as Hm. cbn beta in Hm. rewrite (ca_block _ _ _ _ _ _ Hcar), (de_block _ _ _ _ _ _ Hdes) in Hm.
  cbn in Hm. rewrite Hf in Hm. injection Hm as <-. rewrite (ca_layer _ _ _ _ _ _ Hcar), (de_layer _ _ _ _ _ _ Hdes) in *.
  cbn in *. split_and!; try done; [by eapply list_elem_of_lookup_2|].
  intros c slot h d Hs Hh Hdd. rewrite P4 by (rewrite ?Ebs, ?(i32_small _ Hsm); done || lia).
  rewrite (ca_elems _ _ _ _ _ _ Hcar) by (done || lia). by apply (de_cells _ _ _ _ _ _ Hdes).
Qed.

Lemma moved_layer cts cts' fresh ls' p' own l l0 l1 :
  Forall2 (describes p H D dt) (table_from 0 (layers st)) cts → Forall2 (carried (Z.of_nat bs) H D dt) cts cts' →
  Forall2 (ct_placed p' (i32 bs) H D dt) cts' fresh → bs_of p' = bs →
  Forall2 (remapped (block_map ∅ cts' fresh)) (layers st) ls' →
  pool_inv p' (ids (mkSeqState (seq_block_size st) ls') ++ own) → NoDup (ids (mkSeqState (seq_block_size st) ls')) →
  layers st !! l = Some l0 → ls' !! l = Some l1 →
  holds p' (mkSeqState (seq_block_size st) ls') l l1 own H D dt (kv l).
Proof.
  intros Hd Hc Hpl Ebs Hrm Hi Hnd Hl0 Hl1. pose proof (Forall2_lookup_lr _ _ _ _ _ _ Hrm Hl0 Hl1) as [R1 R2 R3].
  destruct (pf_holds _ _ _ _ _ _ _ _ _ _ HP l l0 Hl0) as (Hpos & _ & own0 & Hh).
  assert (∀ j f, block_ids l1 !! j = Some f → ∃ b, block_ids l0 !! j = Some b ∧ on_layer p' l f ∧ has_row p' l f ∧
    geom_is p' l H D dt ∧ ∀ (c : side) slot h d, slot < bs → (0 ≤ h < H)%Z → (0 ≤ d < D)%Z →
      pcell c p' l f slot h d = pcell c p l b slot h d) as Hblk.
  { intros j f Hj. destruct (Forall2_lookup_r _ _ _ _ _ R1 Hj) as (b & Hb & Hm). exists b. split; [done|].
    eapply (moved_block cts cts' fresh p' l l0 b f); try done. by eapply list_elem_of_lookup_2. }
  assert (length (block_ids l1) = length (block_ids l0)) as Hlen by (symmetry; by eapply Forall2_length).
  assert (NoDup (block_ids l1)) as Hnd1.
  { unfold ids in Hnd. cbn in Hnd. clear -Hnd Hl1. revert l Hl1. induction ls' as [|x r IH]; intros [|l] Hl; try done; cbn in *; simplify_eq.
    - by apply NoDup_app in Hnd as (? & _ & _).
    - apply NoDup_app in Hnd as (_ & _ & Hnd). by eapply IH. }
  split.
  - split; try done.
    + intros f [j Hj]%list_elem_of_lookup_1. by destruct (Hblk j f Hj) as (b & _ & ? & _).
    + intros f [j Hj]%list_elem_of_lookup_1 _. by destruct (Hblk j f Hj) as (b & _ & _ & ? & _).
    + destruct (block_ids l1) as [|f r] eqn:El.
      { rewrite (ho_cover _ _ _ _ _ _ _ _ _ Hh) in Hlen. destruct both_bounds as (Hbs & _).
        pose proof (div_lt_ceil 0 (len l0) bs ltac:(lia) Hpos). cbn in Hlen. lia. }
      destruct (Hblk 0 f eq_refl) as (b & _ & _ & _ & (sx & Hsx & Hg) & _). exists sx. split; [done|by right].
  - rewrite Hlen, R2, Ebs. apply Hh.
  - intros j [f Hj]%lookup_lt_is_Some_2. exists f. split; [done|]. by destruct (Hblk j f Hj) as (b & _ & _ & ? & _).
  - intros c t h d Ht Hhh Hdd. rewrite R2 in Ht. rewrite <- (ho_cells _ _ _ _ _ _ _ _ _ Hh c t h d Ht Hhh Hdd). unfold tcell. rewrite Ebs.
    destruct both_bounds as (Hbs & _).
    assert (t `div` bs < length (block_ids l1)) as Hj.
    { rewrite Hlen, (ho_cover _ _ _ _ _ _ _ _ _ Hh). apply div_lt_ceil; [lia|done]. }
    apply lookup_lt_is_Some_2 in Hj as [f Hj]. destruct (Hblk _ f Hj) as (b & Hb & _ & _ & _ & Hcell). rewrite Hj, Hb. cbn.
    apply Hcell; [|done|done]. apply Nat.mod_upper_bound. lia.
Qed.

Lemma sent_state_ingested state cts cts' frame :
  state = sent_state id s st (layout p) (cs_sampling_state state) (cs_token_history state) (cs_generated_tokens state) cts →
  Forall2 (describes p H D dt) (table_from 0 (layers st)) cts →
  decoded state limits (model_geometry st bs H D dt) st cts' → Forall2 (carried (Z.of_nat bs) H D dt) cts cts' →
  deserialize_cache_state_with_limits frame limits = Ok state →
  ∃ c' r, ingest_sequence_handoff model (length (layers st)) frame limits (model_geometry st bs H D dt) bs c2 = (c', r) ∧
    cp_inv c' ext2 ∧ detached c' = detached c2 ∧
    match r with
    | Ok id' => active c2 !! id' = None ∧ ∃ s' st' p', active c' = <[id' := s']> (active c2) ∧ paged s' = Some st' ∧
        paged_pool c' = Some p' ∧ prompt_len s' = prompt_len s ∧ current_offset s' = current_offset s ∧
        caches s' = zip_offsets ((λ x, i32 (len x)) <$> layers st) (new_paged <$> seq 0 (length (layers st))) ∧
        ∀ l ls, layers st !! l = Some ls → ∃ ls', layers st' !! l = Some ls' ∧ len ls' = len ls ∧
          logical_start ls' = logical_start ls ∧ holds p' st' l ls' (refs c2 ext2) H D dt (kv l)
    | Err _ => active c' = active c2 ∧ is_Some (block_budget (ingest_pool c2 lay))
    | Panic => False
    end.
Proof.
  intros Est Hd Hdec Hc Hframe. destruct both_bounds as (Hbs & Hsm & HH & HD0 & Hle).
  pose proof (dr_layout _ _ _ _ _ _ _ _ _ _ _ HD) as Hlay. pose proof (dr_same _ _ _ _ _ _ _ _ _ _ _ HD) as Hsame.
  destruct (uniform_Ok _ _ _ Hlay) as (L1 & L2 & L3 & L4 & L5).
  assert (origin_block <$> cts' = ids st) as Hids.
  { rewrite <- (describes_ids _ _ _ _ _ _ Hd). clear -Hc. induction Hc as [|x y ? ? [E _ _ _] _ IH]; [done|]. cbn. by rewrite E, IH. }
  assert (NoDup (origin_block <$> cts')) as Hnd by (rewrite Hids; by eapply prefilled_ids).
  assert (fresh_set model lay = with_backend PagedKvCache (new_paged <$> seq 0 (length (layers st)))
    (Some (sequence_new lay)) (Some lay)) as Efs.
  { unfold fresh_set, pool_backed. rewrite (bool_decide_eq_true_2 _ (dr_model _ _ _ _ _ _ _ _ _ _ _ HD)), (bool_decide_eq_true_2 _ L3), L1. done. }
  unfold ingest_sequence_handoff, mbind, M_bind, lift. rewrite Hframe.
  destruct (ingest_state_spec model (length (layers st)) state limits (model_geometry st bs H D dt) bs c2 ext2
    (dr_inv _ _ _ _ _ _ _ _ _ _ _ HD) (dr_ids _ _ _ _ _ _ _ _ _ _ _ HD) (dr_room _ _ _ _ _ _ _ _ _ _ _ HD) Hsm)
    as (c' & r & Hrun & Hdet & Hres).
  exists c', r. split; [exact Hrun|]. destruct r as [id'|err|]; [| |done].
  - destruct Hres as [_ Hnone (lay' & p' & Hl' & _ & Hp' & Hu & Hres)]. rewrite Hlay in Hl'. injection Hl' as <-.
    destruct Hres as [(Hno & _)|(restored & cts0 & Hdec0 & [Htab Hre Hinv])].
    { exfalso. rewrite Est in Hno. rewrite is_paged_contents in Hno; [done|]. by eapply sent_payload_ok. }
    assert (restored = st ∧ cts0 = cts') as [-> ->].
    { destruct Hdec as [(ps & A1 & A2) A3], Hdec0 as [(ps0 & B1 & B2) B3]. pose proof (po_state _ _ _ _ A1) as E1.
      rewrite (po_state _ _ _ _ B1) in E1. injection E1 as ->. rewrite A2 in B2. rewrite A3 in B3. by simplify_eq. }
    specialize (Hinv Hnd ltac:(by rewrite Hids)). destruct Htab as (fresh & ls' & T1 & T2 & T3 & T4 & T5 & T6).
    split; [done|]. split; [done|]. split; [done|].
    assert (bs_of p' = bs) as Ebs.
    { unfold bs_of. rewrite (pr_layout _ _ _ (ud_data _ _ _ Hu)), Hsame. exact L2. }
    pose proof (fresh_table st cts' fresh ls' Hnd ltac:(by rewrite Hids) (eq_sym (Forall2_length _ _ _ T3)) T2) as Htab.
    assert (Forall2 (λ x y, len y = len x) (layers st) ls') as Hlens by (eapply Forall2_impl; [exact T2|]; by intros x y []).
    eexists _, _, p'. split; [exact T1|]. split; [done|]. split; [done|].
    rewrite Est. cbn [sent_state cs_metadata]. split; [done|]. split; [done|]. split.
    { rewrite Efs. cbn. f_equal. clear -Hlens. induction Hlens as [|x y ? ? E _ IH]; [done|]. cbn. by rewrite E, IH. }
    intros l l0 Hl. destruct (Forall2_lookup_l _ _ _ _ _ T2 Hl) as (l1 & Hl1 & [R1 R2 R3]). exists l1.
    split_and!; try done. eapply (moved_layer cts cts' fresh ls' p'); try done; unfold ids; cbn; by rewrite Htab.
  - destruct Hres as [Hact Hinv _ Hwhy]. split; [done|]. split; [done|]. split; [done|].
    apply (Hwhy lay st cts' Hlay Hsame Hdec).
    + rewrite Efs. split; cbn; try done; [|by rewrite L2; eapply prefilled_bs].
      apply forallb_forall. intros k Hk%list_elem_of_In%list_elem_of_fmap. destruct Hk as (i & -> & _). apply HD.
    + apply Forall_forall. intros ct' [i Hi]%list_elem_of_lookup_1.
      destruct (Forall2_lookup_r _ _ _ _ _ Hc Hi) as (ct & Hct & Hcar).
      destruct (elem_of_contents _ _ _ _ _ _ _ Hd (list_elem_of_lookup_2 _ _ _ Hct)) as (ls & Hl & _).
      split; [|rewrite (ca_layer _ _ _ _ _ _ Hcar); apply HD; by eapply lookup_lt_Some].
      assert (bs_of (ingest_pool c2 lay) = bs) as -> by (unfold bs_of at 1; by rewrite Hsame).
      cbn. rewrite (i32_small _ Hsm). lia.
    + intros b Hb. rewrite <- Hids in Hb. apply list_elem_of_fmap in Hb as (ct & -> & Hct). eauto.
Qed.

(** C9. A finished prefill handed over to a decode node of the same model: the frame can be
    refused only by the JSON encoder or because a length exceeds the header's 32 bits, and a
    frame within the receiver's limit is ingested without a panic. The new sequence has the
    prompt length and offset of the old one, caches at the offsets of its layers, and in every
    layer the same number of tokens, the same window and, at every position, the keys and values
    the prefill wrote. A refusal needs a block budget on the receiving pool and changes no
    sequence; the accounting is exact either way. *)
Theorem handoff_preserves_sequence sampling hist gen :
  (∀ x, sampling = Some x → finite_sampling x) →
  match extract_sequence_handoff c1 id sampling hist gen with
  | Ok frame => (N.of_nat (length frame) ≤ max_frame_bytes limits)%N →
    ∃ c' r, ingest_sequence_handoff model (length (layers st)) frame limits (model_geometry st bs H D dt) bs c2 = (c', r) ∧
      cp_inv c' ext2 ∧ detached c' = detached c2 ∧
      match r with
      | Ok id' => active c2 !! id' = None ∧ ∃ s' st' p', active c' = <[id' := s']> (active c2) ∧ paged s' = Some st' ∧
          paged_pool c' = Some p' ∧ prompt_len s' = prompt_len s ∧ current_offset s' = current_offset s ∧
          caches s' = zip_offsets ((λ x, i32 (len x)) <$> layers st) (new_paged <$> seq 0 (length (layers st))) ∧
          ∀ l ls, layers st !! l = Some ls → ∃ ls', layers st' !! l = Some ls' ∧ len ls' = len ls ∧
            logical_start ls' = logical_start ls ∧ holds p' st' l ls' (refs c2 ext2) H D dt (kv l)
      | Err _ => active c' = active c2 ∧ is_Some (block_budget (ingest_pool c2 lay))
      | Panic => False
      end
  | Err e => e = JsonWrite ∨ e = MetadataTooLong ∨ e = TooManyLayers
  | Panic => False
  end.
Proof.
  intros Hfin. unfold extract_sequence_handoff.
  destruct (extract_state c1 ext1 id s st p H D dt kv sampling hist HP) as (cts & -> & Hd). cbn [mbind outcome_bind].
  set (state := with_generated gen _).
  assert (state = sent_state id s st (layout p) sampling hist gen cts) as Est by done. clearbody state.
  destruct (cache_to_vec state) as [j|] eqn:Hj; [|unfold serialize_cache_state; rewrite Hj; by left].
  destruct (decide (N.of_nat (length j) ≤ u32_max)%N) as [Hlj|Hlj].
  2: { unfold serialize_cache_state, try_u32. rewrite Hj. cbn [ok_or_err mbind outcome_bind].
       destruct (N.leb_spec (N.of_nat (length j)) u32_max); [done|]. by right; left. }
  destruct (decide (N.of_nat (length (cs_entries state)) ≤ u32_max)%N) as [Hln|Hln].
  2: { unfold serialize_cache_state, try_u32. rewrite Hj. cbn [ok_or_err mbind outcome_bind].
       rewrite (proj2 (N.leb_le _ _) Hlj). cbn [mbind outcome_bind]. 
       destruct (N.leb_spec (N.of_nat (length (cs_entries state))) u32_max); [done|]. by right; right. }
  rewrite (serialize_cache_state_Ok state j Hj Hlj Hln). intros Hframe.
  assert (cache_from_slice j = Some state) as Hback.
  { apply json_roundtrip; [|done]. intros x. rewrite Est. cbn. apply Hfin. }
  assert (sendable state) as Hsend.
  { rewrite Est. split; cbn; [by rewrite length_fmap|]. intros ps [= <-]. by eapply sent_valid. }
  destruct (sent_decoded sampling hist gen cts Hd) as (cts' & Hdec & Hc). rewrite <- Est in Hdec.
  eapply (sent_state_ingested state cts cts'); try done; [by rewrite Est at 1; rewrite Est|].
  by apply deserialize_frame.
Qed.
End both.
End handover.

(** ** Sampling parameters *)

(** The configuration that arrives is the one that was sent, without its token bias; a node
    that composes its own bias gets what it would have composed at home. *)
Lemma sampling_carried c cached :
  Sampling.token_bias c = Sampling.bias_empty →
  Sampling.compose_sampling cached (sampling_from_serializable (sampling_to_serializable c)) =
  Sampling.compose_sampling cached c.
Proof. intros E. destruct c. cbn in E. subst. done. Qed.

(** ** Runs *)

(** An element type of [e] cells: the code of the element, then padding. Cells are wide
    enough for the unbounded elements of the array instance. *)
Definition cell_width (t : Z) : nat := match mlx_dtype_element_size t with Ok e => N.to_nat e | _ => 1 end.
Definition code (z : Z) : N := N.pos (countable.encode z).
Definition uncode (n : N) : Z := match n with N0 => 0%Z | N.pos p => default 0%Z (countable.decode p) end.

Definition wide_raw (a : Array) : list N :=
  (λ i, if decide (i `mod` cell_width (arr_dtype a) = 0)
        then code (arr_get a (unlinear (arr_shape a) (Z.of_nat (i `div` cell_width (arr_dtype a))))) else 0%N)
    <$> seq 0 (Z.to_nat (size_of (arr_shape a)) * cell_width (arr_dtype a)).

Definition wide_from (b : list N) (s : list Z) (t : Z) : option Array :=
  Some (mkArray s t (λ idx, uncode (default 0%N (b !! (Z.to_nat (linear s idx) * cell_width t))))).

Definition wide_bytes : MlxBytes (X := arrays) := {|
  array_to_raw_bytes := wide_raw : @MlxArray arrays → list N;
  from_bytes := wide_from : list N → list Z → Z → option (@MlxArray arrays);
|}.

Lemma uncode_code z : uncode (code z) = z.
Proof. unfold uncode, code. by rewrite countable.decode_encode. Qed.

Lemma wide_bytes_laws : MlxBytesLaws arrays wide_bytes.
Proof.
  split; cbn.
  - by intros b s t a [= <-].
  - by intros b s t a [= <-].
  - intros a e He Hnn. unfold wide_raw. rewrite length_fmap, length_seq. unfold cell_width. rewrite He.
    pose proof (size_of_nonneg _ Hnn). by rewrite Nat2Z.inj_mul, Z2Nat.id, N_nat_Z by done.
  - intros a e He Hnn. eexists. split; [done|]. cbn. intros idx Hidx. pose proof (linear_range _ _ Hidx) as Hr.
    assert (0 < cell_width (arr_dtype a)) as Hw.
    { unfold cell_width. rewrite He. apply element_size_pos in He. lia. }
    unfold wide_raw. rewrite list_lookup_fmap, lookup_seq_lt by nia. cbn.
    rewrite Nat.Div0.mod_mul, decide_True, Nat.div_mul, Z2Nat.id by (done || lia). rewrite uncode_code.
    by rewrite unlinear_linear.
Qed.

(** JSON, as the bits of a number that stands for the state. *)
Definition number_json : CacheJson := {|
  cache_to_vec s := Some (pos_bits (countable.encode s));
  cache_from_slice b := countable.decode (bits_pos b);
|}.

Lemma number_json_laws : CacheJsonLaws number_json.
Proof. split. cbn. intros s j _ [= <-]. by rewrite bits_pos_bits, countable.decode_encode. Qed.

(** Pool-backed caches that carry their offset only. *)
Definition offset_fields : KvFields (X := arrays) (KH := offset_handles) := {|
  cache_keys := (λ _, None) : @KVCache offset_handles → option (@MlxArray arrays);
  cache_values := (λ _, None) : @KVCache offset_handles → option (@MlxArray arrays);
  cache_offset := (λ z, z) : @KVCache offset_handles → Z;
  cache_live_start := (λ _, 0%Z) : @KVCache offset_handles → Z;
  with_kv := (λ _ _ o _, o) : option (@MlxArray arrays) → option (@MlxArray arrays) → Z → @KVCache offset_handles → @KVCache offset_handles;
|}.

Section runs.
Existing Instance arrays.
Existing Instance arrays_laws.
Existing Instance wide_bytes.
Existing Instance wide_bytes_laws.
Existing Instance offset_handles.
Existing Instance offset_fields.
Existing Instance number_json.
Existing Instance number_json_laws.

Definition decode_node : CachePool := cache_pool_new 4.
Definition decode_layout : PagedKvLayout := mkLayout 1 2 [2] Fp16 [].
Definition decode_limits : CacheIngestLimits := mkLimits 100000 16 64.

Lemma example_prefilled :
  prefilled example_cache [] 0 (one_set example_write.2 example_layout) example_write.2 example_write.1 1 1 9 (λ _, example_kv).
Proof.
  destruct example_written as (Hh & Hlen & Hls & Hlay).
  split.
  - exact example_cache_inv.
  - apply lookup_singleton_eq.
  - reflexivity.
  - reflexivity.
  - reflexivity.
  - by repeat constructor.
  - reflexivity.
  - rewrite Hlay. reflexivity.
  - rewrite Hlay. exists [64]. vm_compute. reflexivity.
  - rewrite Hlay. vm_compute. reflexivity.
  - vm_compute. discriminate.
  - intros [|l] ls Hl; [|by vm_compute in Hl; destruct l]. assert (ls = example_layer) as ->.
    { unfold example_layer. by rewrite Hl. }
    rewrite Hlen, Hls. split_and!; [lia|lia|]. by exists [].
  - unfold bs_of. by rewrite Hlay.
  - lia.
Qed.

Lemma example_decode_ready :
  decode_ready decode_node [] example_model decode_limits example_write.2 (bs_of example_write.1) 1 1 9 2 decode_layout.
Proof.
  destruct example_written as (_ & _ & _ & Hlay). assert (bs_of example_write.1 = 2) as -> by (unfold bs_of; by rewrite Hlay).
  split.
  - apply cache_pool_new_inv.
  - reflexivity.
  - vm_compute. reflexivity.
  - reflexivity.
  - reflexivity.
  - vm_compute. reflexivity.
  - reflexivity.
  - intros l Hl. assert (l = 0) as -> by (vm_compute in Hl; lia). exists empty_layer_pool. split; [reflexivity|by left].
  - vm_compute. discriminate.
  - reflexivity.
  - cbn. lia.
  - vm_compute. discriminate.
Qed.

(** The three tokens of the example go from one node to the other. *)
Lemma handoff_preserves_sequence_witness :
  ∃ frame c' s' st' p' ls', extract_sequence_handoff example_cache 0 None [1; 2; 3]%Z [4]%Z = Ok frame ∧
    ingest_sequence_handoff example_model (length (layers example_write.2)) frame decode_limits
      (model_geometry example_write.2 (bs_of example_write.1) 1 1 9) (bs_of example_write.1) decode_node = (c', Ok 0%N) ∧
    active c' !! 0%N = Some s' ∧ paged s' = Some st' ∧ paged_pool c' = Some p' ∧ layers st' !! 0 = Some ls' ∧
    len ls' = 3 ∧ holds p' st' 0 ls' [] 1 1 9 example_kv.
Proof.
  pose proof (handoff_preserves_sequence example_cache decode_node [] [] 0 (one_set example_write.2 example_layout)
    example_write.2 example_write.1 1 1 9 (λ _, example_kv) example_model decode_limits 2 decode_layout
    example_prefilled example_decode_ready None [1; 2; 3]%Z [4]%Z ltac:(intros x Hx; discriminate Hx)) as Hh.
  assert (match extract_sequence_handoff example_cache 0 None [1; 2; 3]%Z [4]%Z with
          | Ok f => (N.of_nat (length f) <=? 100000)%N && match (ingest_sequence_handoff example_model (length (layers example_write.2)) f decode_limits
              (model_geometry example_write.2 (bs_of example_write.1) 1 1 9) (bs_of example_write.1) decode_node).2 with
              | Ok id => bool_decide (id = 0%N) | _ => false end
          | _ => false end = true) as Hok by vm_refl.
  destruct (extract_sequence_handoff example_cache 0 None [1; 2; 3]%Z [4]%Z) as [frame| |]; [|discriminate Hok|discriminate Hok].
  apply andb_prop in Hok as [Hlen Hok]. destruct (Hh ltac:(by apply N.leb_le)) as (c' & r & Hrun & _ & _ & Hres).
  rewrite Hrun in Hok. destruct r as [id| |]; [|discriminate Hok|discriminate Hok]. apply bool_decide_eq_true in Hok. subst id.
  destruct Hres as (_ & s' & st' & p' & Hact & Hst & Hp & _ & _ & _ & Hl).
  destruct (Hl 0 example_layer) as (ls' & Hls' & Hlen' & _ & Hholds); [vm_compute; reflexivity|].
  exists frame, c', s', st', p', ls'. split; [reflexivity|]. split; [exact Hrun|].
  split; [rewrite Hact; apply lookup_insert_eq|]. split; [exact Hst|]. split; [exact Hp|]. split; [exact Hls'|].
  split; [rewrite Hlen'; apply example_written|exact Hholds].
Defined.

(** A frame of another version, sent to the node that holds the example sequence. *)
Lemma ingest_untrusted_frame_witness :
  ∃ c' e, ingest_sequence_handoff example_model 1 (9 :: replicate 12 0)%N decode_limits (mkGeometry 1 2 1 1 9) 2 example_cache =
    (c', Err e) ∧ active c' = active example_cache ∧ cp_inv c' [].
Proof.
  destruct (ingest_untrusted_frame example_model 1 (9 :: replicate 12 0)%N decode_limits (mkGeometry 1 2 1 1 9) 2 example_cache [])
    as (c' & r & Hrun & _ & _ & Hres).
  - exact example_cache_inv.
  - unfold ids_left. cbn. lia.
  - unfold room. unfold example_cache. rewrite one_sequence_refs. vm_compute. reflexivity.
  - vm_compute. discriminate.
  - destruct r as [id|e|].
    + assert (is_ok (ingest_sequence_handoff example_model 1 (9 :: replicate 12 0)%N decode_limits (mkGeometry 1 2 1 1 9) 2
        example_cache).2 = false) as Hno by vm_refl. rewrite Hrun in Hno. discriminate Hno.
    + exists c', e. split; [exact Hrun|exact Hres].
    + destruct Hres.
Defined.

(** ** What the checks let through *)

Definition example_sent : SerializableCacheState :=
  match serialize_cache_pool_sequence example_cache 0 None [] with Ok s => s | _ =>
    mkCacheState CtStandard [] (mkCacheMeta 0 0 0 [] None None None None) None [] [] 0 SerDense None [] end.

(** Every block sent twice. *)
Definition sent_twice : SerializableCacheState :=
  with_paged_blocks (cs_paged_blocks example_sent ++ cs_paged_blocks example_sent) example_sent.

(** The first block of the table in both places, and only that one sent. *)
Definition aliased_table : SerializableCacheState :=
  mkCacheState CtStandard (cs_entries example_sent) (cs_metadata example_sent) None [] [] 0 SerPaged
    ((λ ps, mkSPaged (sp_block_size ps) (sp_bytes_per_block ps)
              ((λ l, mkSLayer (match sl_block_ids l with b :: _ => [b; b] | [] => [] end) (sl_len l) (sl_logical_start l)) <$> sp_layers ps))
      <$> cs_paged_state example_sent) (take 1 (cs_paged_blocks example_sent)).

(** A payload without any paged part. *)
Definition dense_payload : SerializableCacheState :=
  mkCacheState CtStandard (cs_entries example_sent) (cs_metadata example_sent) None [] [] 0 SerDense None [].

(** The blocks in use and the references of the tables, after a payload was ingested by an
    empty node. *)
Definition after_ingest (state : SerializableCacheState) : option (nat * list N) :=
  let '(c, r) := ingest_sequence_handoff_state example_model 1 state decode_limits (mkGeometry 1 2 1 1 9) 2 decode_node in
  match r, paged_pool c with Ok _, Some p => Some (live_block_count p, refs c []) | _, _ => None end.

(** Three payloads that are accepted. With blocks sent twice, two of the four acquired blocks
    belong to no table: nothing will ever release them. With an aliased table, one block with
    one reference stands in the table twice, so that releasing the sequence fails at its second
    release and a write to one slot shows in the other. A dense payload gives a pool-backed sequence
    with an empty table. *)
Lemma ingest_accepts_ambiguous_payloads :
  after_ingest example_sent = Some (2, [0; 1]%N) ∧
  after_ingest sent_twice = Some (4, [2; 3]%N) ∧
  after_ingest aliased_table = Some (1, [0; 0]%N) ∧
  after_ingest dense_payload = Some (0, []).
Proof. split_and!; vm_refl. Qed.
End runs.
