(* ===== verification/DisaggServe.v ===== *)
(** * Serving a request on two nodes

    [distributed/disaggregated/serving_protocol.rs], [stream_bridge.rs], [coordinator.rs]
    and the result driver of [server/router_front.rs]: a router sends a request to a prefill
    node, which returns the first token and hands the sequence to a decode node, which
    streams the rest back to the router.

    The batch scheduler a node drives is the interface [ServingScheduler]; the JSON of the
    control frames is the interface [Json]; parsing a socket address is the argument
    [parse_addr]. A transport send succeeds or fails as [delivered] says. Messages a node
    has sent are kept in its outbox, failed ones marked. *)

From S2P Require Import Prelude Sampling KvSerde KvHandoff.

(** ** Control frames *)

Definition OP_PREFILL_REQUEST : string := "serve.prefill_request".
Definition OP_DECODE_META : string := "serve.decode_meta".
Definition OP_RESULT : string := "serve.result".

Record PrefillRequestFrame := mkPrefillFrame {
  pf_request_id : N;
  pf_prompt_tokens : list Z;
  pf_sampling : SerializableSamplingState;
  pf_max_tokens : N;
  pf_reply_to : string;
  pf_decode_target : option string;
}.

Record DecodeMetaFrame := mkDecodeMeta {
  dm_request_id : N;
  dm_max_tokens : N;
  dm_sampling : SerializableSamplingState;
  dm_reply_to : string;
}.

Inductive ResultPhase := FirstToken | Continuation.

Record ResultFrame := mkResult {
  rf_request_id : N;
  rf_phase : ResultPhase;
  rf_tokens : list string;
  rf_start_sequence : N;
  rf_done : bool;
  rf_error : option string;
  rf_generated_tokens : option N;
}.

(** [serde_json::to_vec] and [from_slice] at a frame type. *)
Class Json (F : Type) := {
  to_vec : F → option (list N);
  from_slice : list N → option F;
}.

(** [OPERATION] of the macro [json_control_frame]. *)
Class ControlFrame (F : Type) := OPERATION : string.
#[global] Instance PrefillRequestFrame_op : ControlFrame PrefillRequestFrame := OP_PREFILL_REQUEST.
#[global] Instance DecodeMetaFrame_op : ControlFrame DecodeMetaFrame := OP_DECODE_META.
#[global] Instance ResultFrame_op : ControlFrame ResultFrame := OP_RESULT.
Arguments OPERATION F {_}.

Inductive serve_error :=
  | BadJson | NotControl (tensor_id : string) | SendFailed (addr : string)
  | PrefillError | IngestError | HandoffClosed | NotHandoff (e : serde_error) | StillDecoding.

Abbreviation served := (outcome serve_error).

Definition frame_encode {F} `{!Json F, !ControlFrame F} (f : F) : served TransportMessage :=
  j ← ok_or_err (to_vec f) BadJson; Ok (Control (OPERATION F) j).

Definition frame_decode {F} `{!Json F} (payload : list N) : served F := ok_or_err (from_slice payload) BadJson.

Definition control_parts (m : TransportMessage) : served (string * list N) :=
  match m with
  | Control operation payload => Ok (operation, payload)
  | TensorData tensor_id _ _ => Err (NotControl tensor_id)
  end.

(** ** The stream bridge *)

Module StreamBridge.

Inductive StreamPhase := WaitingForPrefill | HandoffToDecode | Decoding | Complete.

#[global] Instance StreamPhase_eq_dec : EqDecision StreamPhase.
Proof. solve_decision. Defined.

Inductive TokenSource := FromPrefill | FromDecode | Local.

Record TokenEvent := mkToken {
  token_id : Z;
  text : string;
  sequence_number : N;
  source : TokenSource;
  is_final : bool;
}.

Record StreamBridge := mkBridge {
  phase : StreamPhase;
  last_emitted_seq : N;
  first_token_at : option nat;
  handoff_started_at : option nat;
  tokens_emitted : N;
  is_finalized : bool;
  created_at : nat;
  handoff_timeout : nat;
}.

Inductive StreamBridgeError :=
  | InvalidPhaseTransition (from expected : StreamPhase)
  | SequenceGap (expected got : N).

Definition bridge_new (now timeout : nat) : StreamBridge := mkBridge WaitingForPrefill 0 None None 0 false now timeout.

Definition submit_first_token (now : nat) (t : TokenEvent) : M StreamBridge StreamBridgeError () :=
  b ← get;
  if decide (phase b ≠ WaitingForPrefill) then throw (InvalidPhaseTransition (phase b) WaitingForPrefill)
  else if decide (sequence_number t ≠ 0%N) then throw (SequenceGap 0 (sequence_number t))
  else put (mkBridge HandoffToDecode 0 (Some now) (Some now) (as_u64 (tokens_emitted b + 1)) (is_finalized b)
              (created_at b) (handoff_timeout b)).

Definition start_decode_stream : M StreamBridge StreamBridgeError () :=
  b ← get;
  if decide (phase b ≠ HandoffToDecode) then throw (InvalidPhaseTransition (phase b) HandoffToDecode)
  else put (mkBridge Decoding (last_emitted_seq b) (first_token_at b) (handoff_started_at b) (tokens_emitted b)
              (is_finalized b) (created_at b) (handoff_timeout b)).

Definition submit_decode_token (t : TokenEvent) : M StreamBridge StreamBridgeError () :=
  b ← get;
  if decide (phase b ≠ Decoding) then throw (InvalidPhaseTransition (phase b) Decoding)
  else
    let expected_seq := (last_emitted_seq b + 1)%N in
    if decide (sequence_number t ≠ expected_seq) then throw (SequenceGap expected_seq (sequence_number t))
    else put (mkBridge (phase b) (sequence_number t) (first_token_at b) (handoff_started_at b)
                (as_u64 (tokens_emitted b + 1)) (is_finalized b) (created_at b) (handoff_timeout b)).

(** The flag is taken first; only the caller that took it writes the phase. *)
Definition finalize (b : StreamBridge) : StreamBridge * bool :=
  if is_finalized b then (b, false)
  else (mkBridge Complete (last_emitted_seq b) (first_token_at b) (handoff_started_at b) (tokens_emitted b) true
          (created_at b) (handoff_timeout b), true).

Definition is_handoff_timed_out (now : nat) (b : StreamBridge) : bool :=
  if decide (phase b ≠ HandoffToDecode) then false
  else match handoff_started_at b with Some t => bool_decide (handoff_timeout b < now - t) | None => false end.

Definition time_to_first_token (b : StreamBridge) : option nat := (λ t, t - created_at b) <$> first_token_at b.

End StreamBridge.
Import StreamBridge.

(** ** Draining a generation channel *)

(** Of a finished generation the token count is kept. *)
Inductive GenerateEvent :=
  | EvToken (t : string)
  | EvTokenWithLogprobs (t : string)
  | EvDone (completion_tokens : N)
  | EvError (e : string).

Record DrainedGeneration := mkDrained {
  dg_tokens : list string;
  dg_done : bool;
  dg_error : option string;
  dg_completion_tokens : option N;
}.

Definition drain_event (d : DrainedGeneration) (e : GenerateEvent) : DrainedGeneration :=
  match e with
  | EvToken t | EvTokenWithLogprobs t => mkDrained (dg_tokens d ++ [t]) (dg_done d) (dg_error d) (dg_completion_tokens d)
  | EvDone n => mkDrained (dg_tokens d) true (dg_error d) (Some n)
  | EvError e => mkDrained (dg_tokens d) (dg_done d) (Some e) (dg_completion_tokens d)
  end.

Definition drain_generation_events (es : list GenerateEvent) : DrainedGeneration :=
  foldl drain_event (mkDrained [] false None None) es.

(** ** The nodes *)

(** What the role loops call of the batch scheduler, with the events a call sends to the
    request's channel. Ingesting sends nothing. *)
Class ServingScheduler (Sch : Type) := {
  prefill_text_request_for_handoff :
    list Z → SamplingConfig → N → Sch → Sch * list GenerateEvent * served (option (list N));
  ingest_handoff_as_active : list N → N → SamplingConfig → Sch → Sch * served N;
  decode_handoff_step : Sch → Sch * list GenerateEvent * bool;
}.

Record Sent := mkSent { to_addr : string; message : TransportMessage; arrived : bool }.

Record Node (Sch : Type) := mkNode { scheduler : Sch; outbox : list Sent }.
Arguments mkNode {_} _ _.
Arguments scheduler {_} _.
Arguments outbox {_} _.

Inductive DecodeTargetDecision := Allow | AllowUnchecked | Reject.

Section roles.
Context {Sch : Type} `{!ServingScheduler Sch}.
Context `{!Json PrefillRequestFrame, !Json DecodeMetaFrame, !Json ResultFrame}.
Context {SocketAddr : Type} `{!EqDecision SocketAddr} (parse_addr : string → option SocketAddr).
(** [e.to_string()], and whether the [k]-th send of a node goes through. *)
Context (error_text : serve_error → string) (delivered : nat → string → TransportMessage → bool).

Definition send (addr : string) (m : TransportMessage) : M (Node Sch) serve_error () := λ n,
  let ok := delivered (length (outbox n)) addr m in
  (mkNode (scheduler n) (outbox n ++ [mkSent addr m ok]), if ok then Ok tt else Err (SendFailed addr)).

Definition on_scheduler {A} (f : Sch → Sch * list GenerateEvent * A) :
    M (Node Sch) serve_error (list GenerateEvent * A) := λ n,
  let '(s, es, a) := f (scheduler n) in (mkNode s (outbox n), Ok (es, a)).

Definition decide_target (peers : list SocketAddr) (decode_target : string) : DecodeTargetDecision :=
  if decide (peers = []) then AllowUnchecked
  else match parse_addr decode_target with
       | Some addr => if decide (addr ∈ peers) then Allow else Reject
       | None => Reject
       end.

(** The result frame that ends a request with an error. *)
Definition error_result (id : N) (e : string) : ResultFrame := mkResult id Continuation [] 0 true (Some e) None.

Definition forward_handoff_to (decode_peer : string) (meta : DecodeMetaFrame) (bytes : list N) :
    M (Node Sch) serve_error () :=
  m ← lift (frame_encode meta);
  _ ← send decode_peer m;
  send decode_peer (handoff_message bytes).

(** The handoff part of a prefill request: the decode node and what is sent to it. *)
Definition hand_off (peer : string) (allowlist : list SocketAddr) (request : PrefillRequestFrame) (bytes : list N) :
    M (Node Sch) serve_error () :=
  let target := a ← pf_decode_target request; if decide (a = EmptyString) then None else Some a in
  match target, (match target with Some t => decide_target allowlist t | None => AllowUnchecked end) with
  | Some t, Reject =>
    m ← lift (frame_encode (error_result (pf_request_id request)
          ("decode_target " +:+ t +:+ " is not in this prefill node's decode allowlist; rejecting the KV handoff")));
    ignore (send (pf_reply_to request) m)
  | _, _ =>
    let decode_peer := default peer target in
    let meta := mkDecodeMeta (pf_request_id request) (pf_max_tokens request) (pf_sampling request) (pf_reply_to request) in
    on_err (forward_handoff_to decode_peer meta bytes) (λ e,
      m ← lift (frame_encode (error_result (pf_request_id request)
            ("decode handoff to " +:+ decode_peer +:+ " failed: " +:+ error_text e)));
      ignore (send (pf_reply_to request) m))
  end.

(** One prefill request. *)
Definition serve_prefill (peer : string) (allowlist : list SocketAddr) (request : PrefillRequestFrame) :
    M (Node Sch) serve_error () :=
  x ← on_scheduler (prefill_text_request_for_handoff (pf_prompt_tokens request)
        (sampling_from_serializable (pf_sampling request)) (pf_max_tokens request));
  let '(es, r) := x in
  frame ← lift r;
  let drained := drain_generation_events es in
  let first_result :=
    mkResult (pf_request_id request) FirstToken (dg_tokens drained) 0
      (dg_done drained || bool_decide (frame = None)) (dg_error drained)
      (Some (default 1%N (dg_completion_tokens drained))) in
  m ← lift (frame_encode first_result);
  n ← get;
  let '(n', sent) := send (pf_reply_to request) m n in
  _ ← put n';
  match sent, frame with
  | Ok _, Some bytes => hand_off peer allowlist request bytes
  | _, _ => mret tt
  end.

(** [run_prefill_role_networked]: the messages that arrive until the channel closes. *)
Fixpoint prefill_role (peer : string) (allowlist : list SocketAddr) (inbox : list TransportMessage) :
    M (Node Sch) serve_error () :=
  match inbox with
  | [] => mret tt
  | m :: rest =>
    match control_parts m with
    | Ok (operation, payload) =>
      if decide (operation = OPERATION PrefillRequestFrame) then
        request ← lift (frame_decode payload);
        _ ← serve_prefill peer allowlist request;
        prefill_role peer allowlist rest
      else prefill_role peer allowlist rest
    | _ => prefill_role peer allowlist rest
    end
  end.

(** The frame of one tick, if it produced something; returns the next sequence number. *)
Definition ship_tick (meta : DecodeMetaFrame) (next_sequence : N) (drained : DrainedGeneration) : M (Node Sch) serve_error N :=
  if decide (dg_tokens drained = [] ∧ dg_error drained = None) then mret next_sequence
  else
    m ← lift (frame_encode (mkResult (dm_request_id meta) Continuation (dg_tokens drained) next_sequence false
                              (dg_error drained) None));
    _ ← send (dm_reply_to meta) m;
    mret (next_sequence + N.of_nat (length (dg_tokens drained)))%N.

(** The inner loop of the decode role: a frame per tick that produced something. Returns the
    next sequence number and the count the worker reported. *)
Fixpoint stream_ticks (fuel : nat) (meta : DecodeMetaFrame) (next_sequence : N) (decode_generated : option N) :
    M (Node Sch) serve_error (N * option N) :=
  match fuel with
  | 0 => throw StillDecoding
  | S fuel' =>
    x ← on_scheduler decode_handoff_step;
    let '(es, active) := x in
    let drained := drain_generation_events es in
    let decode_generated := match dg_completion_tokens drained with Some n => Some n | None => decode_generated end in
    next ← ship_tick meta next_sequence drained;
    if (active : bool) then stream_ticks fuel' meta next decode_generated else mret (next, decode_generated)
  end.

(** One handoff. The last drain is of a channel that no step has written to since. *)
Definition serve_decode (fuel : nat) (meta : DecodeMetaFrame) (bytes : list N) : M (Node Sch) serve_error () :=
  _ ← (λ n, let '(s, r) := ingest_handoff_as_active bytes (dm_max_tokens meta)
                             (sampling_from_serializable (dm_sampling meta)) (scheduler n) in
            (mkNode s (outbox n), r));
  y ← stream_ticks fuel meta 1 None;
  let '(_, decode_generated) := y in
  m ← lift (frame_encode (mkResult (dm_request_id meta) Continuation [] 0 true None decode_generated));
  send (dm_reply_to meta) m.

(** [run_decode_role_networked] *)
Fixpoint decode_role (fuel : nat) (inbox : list TransportMessage) : M (Node Sch) serve_error () :=
  match inbox with
  | [] => mret tt
  | m :: rest =>
    match control_parts m with
    | Ok (operation, payload) =>
      if decide (operation = OPERATION DecodeMetaFrame) then
        meta ← lift (frame_decode payload);
        match rest with
        | [] => throw HandoffClosed
        | kv :: rest' =>
          bytes ← lift (match handoff_payload kv with Ok b => Ok b | Err e => Err (NotHandoff e) | Panic => Panic end);
          _ ← serve_decode fuel meta bytes;
          decode_role fuel rest'
        end
      else decode_role fuel rest
    | _ => decode_role fuel rest
    end
  end.
End roles.

(** ** The router: driving a result *)

Inductive drive_error :=
  | FirstTimeout | FirstClosed | PrefillNodeError (e : string)
  | DecodeTimeout | DecodeClosed | DecodeNodeError (e : string)
  | BudgetExceeded (max_tokens : N) | OutOfOrder (expected got : N) | BridgeError (e : StreamBridgeError).

(** What follows the frames that arrive: the next wait times out, or the channel is closed. *)
Inductive RxEnd := RxTimeout | RxClosed.

(** The state of a drive: the bridge, the pieces given to [on_token] and the token count. *)
Record Drive := mkDrive { bridge : StreamBridge; emitted : list string; generated_tokens : option N }.

Definition drive_new (now timeout : nat) : Drive := mkDrive (bridge_new now timeout) [] None.

Definition on_bridge (m : M StreamBridge StreamBridgeError ()) : M Drive drive_error () := λ d,
  let '(b, r) := m (bridge d) in
  (mkDrive b (emitted d) (generated_tokens d), match r with Ok _ => Ok tt | Err e => Err (BridgeError e) | Panic => Panic end).

Definition on_token (t : string) : M Drive drive_error () :=
  modify (λ d, mkDrive (bridge d) (emitted d ++ [t]) (generated_tokens d)).

Definition add_count (c : option N) : M Drive drive_error () :=
  modify (λ d, mkDrive (bridge d) (emitted d)
    (match c with Some n => Some (saturating_add_u64 (default 0%N (generated_tokens d)) n) | None => generated_tokens d end)).

Definition finalize_bridge : M Drive drive_error () :=
  modify (λ d, mkDrive (finalize (bridge d)).1 (emitted d) (generated_tokens d)).

Fixpoint submit_tokens (seq : N) (ts : list string) : M Drive drive_error N :=
  match ts with
  | [] => mret seq
  | t :: ts' =>
    _ ← on_bridge (submit_decode_token (mkToken 0 t seq FromDecode false));
    _ ← on_token t;
    submit_tokens (seq + 1)%N ts'
  end.

Fixpoint drive_continuation (max_tokens : N) (ending : RxEnd) (seq : N) (rx : list ResultFrame) : M Drive drive_error () :=
  match rx with
  | [] => throw (match ending with RxTimeout => DecodeTimeout | RxClosed => DecodeClosed end)
  | cont :: rx' =>
    _ ← (match rf_error cont with Some e => throw (DecodeNodeError e) | None => mret tt end);
    _ ← add_count (rf_generated_tokens cont);
    _ ← guard_m (negb (max_tokens <? seq)%N) (BudgetExceeded max_tokens);
    _ ← guard_m (bool_decide (rf_start_sequence cont = 0 ∨ rf_start_sequence cont = seq)%N)
          (OutOfOrder seq (rf_start_sequence cont));
    seq' ← submit_tokens seq (rf_tokens cont);
    if rf_done cont then mret tt else drive_continuation max_tokens ending seq' rx'
  end.

(** Returns the summed token count, the field of [HandoffOutcome]. *)
Definition drive_handoff_result (now : nat) (max_tokens : N) (ending : RxEnd) (rx : list ResultFrame) :
    M Drive drive_error (option N) :=
  match rx with
  | [] => throw (match ending with RxTimeout => FirstTimeout | RxClosed => FirstClosed end)
  | first :: rx' =>
    _ ← (match rf_error first with Some e => throw (PrefillNodeError e) | None => mret tt end);
    _ ← add_count (rf_generated_tokens first);
    _ ← (match rf_tokens first with
         | text :: _ => _ ← on_bridge (submit_first_token now (mkToken 0 text 0 FromPrefill false)); on_token text
         | [] => mret tt
         end);
    _ ← (if rf_done first then mret tt
         else _ ← on_bridge start_decode_stream; drive_continuation max_tokens ending 1 rx');
    _ ← finalize_bridge;
    d ← get;
    mret (generated_tokens d)
  end.

Definition resolve_completion_tokens (outcome : option N) (frame_counted max_tokens : N) : N :=
  match outcome with Some n => N.min n max_tokens | None => N.min frame_counted max_tokens end.

Definition finish_reason (completion_tokens max_tokens : N) : string :=
  if (max_tokens <=? completion_tokens)%N then "length" else "stop".

(** The demultiplexer: the results for one request among the messages that arrive. *)
Definition results_for `{!Json ResultFrame} (id : N) (ms : list TransportMessage) : list ResultFrame :=
  omap (λ m, match control_parts m with
             | Ok (op, payload) =>
               if decide (op = OPERATION ResultFrame)
               then f ← from_slice payload; if decide (rf_request_id f = id) then Some f else None
               else None
             | _ => None
             end) ms.

(** ** Driving: what arrives is what is shown *)

Lemma on_bridge_run m d b r :
  m (bridge d) = (b, r) → on_bridge m d =
    (mkDrive b (emitted d) (generated_tokens d), match r with Ok _ => Ok tt | Err e => Err (BridgeError e) | Panic => Panic end).
Proof. unfold on_bridge. by intros ->. Qed.

(** A bridge in the decode phase whose next sequence number is [seq]. *)
Record decoding (b : StreamBridge) (seq : N) : Prop := {
  dc_phase : phase b = Decoding;
  dc_seq : (last_emitted_seq b + 1 = seq)%N;
}.

(** Two drives that differ by pieces shown in between. *)
Record shown (d d' : Drive) (ts : list string) : Prop := {
  sh_emitted : emitted d' = emitted d ++ ts;
  sh_count : tokens_emitted (bridge d') = as_u64 (tokens_emitted (bridge d) + N.of_nat (length ts));
  sh_final : is_finalized (bridge d') = is_finalized (bridge d);
}.

Lemma submit_tokens_spec ts : ∀ seq d,
  decoding (bridge d) seq → (tokens_emitted (bridge d) < 2 ^ 64)%N →
  ∃ d', submit_tokens seq ts d = (d', Ok (seq + N.of_nat (length ts))%N) ∧
    decoding (bridge d') (seq + N.of_nat (length ts)) ∧ shown d d' ts ∧ generated_tokens d' = generated_tokens d.
Proof.
  induction ts as [|t ts IH]; intros seq d [Hp Hs] Hlt; cbn [submit_tokens].
  - exists d. rewrite N.add_0_r. split_and!; [done|by split| |done]. split; [by rewrite app_nil_r| |done].
    rewrite N.add_0_r. unfold as_u64. by rewrite N.mod_small.
  - assert (submit_decode_token (mkToken 0 t seq FromDecode false) (bridge d) =
      (mkBridge Decoding seq (first_token_at (bridge d)) (handoff_started_at (bridge d))
         (as_u64 (tokens_emitted (bridge d) + 1)) (is_finalized (bridge d)) (created_at (bridge d)) (handoff_timeout (bridge d)), Ok tt)) as E.
    { unfold submit_decode_token. rewrite get_bind. rewrite decide_False by (rewrite Hp; auto). cbn zeta.
      rewrite decide_False by (cbn; rewrite Hs; auto). by rewrite Hp. }
    rewrite (M_bind_eq _ _ _ _ _ (on_bridge_run _ _ _ _ E)). unfold on_token. rewrite modify_bind. cbn [bridge emitted generated_tokens].
    match goal with |- context [submit_tokens _ _ ?d0] => destruct (IH (seq + 1)%N d0) as (d' & -> & Hd & [H1 H2 H3] & H4) end.
    { by split. }
    { cbn. unfold as_u64. apply N.mod_lt. done. }
    exists d'. cbn [length]. replace (seq + N.of_nat (S (length ts)))%N with (seq + 1 + N.of_nat (length ts))%N by lia.
    split_and!; try done. split; cbn in *; [by rewrite H1, <- app_assoc| |done].
    rewrite H2, as_u64_plus. f_equal. lia.
Qed.

(** Continuation frames up to the one that ends the stream. *)
Fixpoint cont_ok (max_tokens seq : N) (body : list ResultFrame) : Prop :=
  match body with
  | [] => False
  | f :: body' =>
    rf_error f = None ∧ (seq ≤ max_tokens)%N ∧ (rf_start_sequence f = 0 ∨ rf_start_sequence f = seq)%N ∧
    if rf_done f then body' = [] else cont_ok max_tokens (seq + N.of_nat (length (rf_tokens f))) body'
  end.

Definition stream_ok (max_tokens : N) (first : ResultFrame) (body : list ResultFrame) : Prop :=
  rf_error first = None ∧
  if rf_done first then body = [] else rf_tokens first ≠ [] ∧ cont_ok max_tokens 1 body.

Definition stream_pieces (first : ResultFrame) (body : list ResultFrame) : list string :=
  take 1 (rf_tokens first) ++ (body ≫= rf_tokens).

Definition count_step (c : option N) (f : ResultFrame) : option N :=
  match rf_generated_tokens f with Some n => Some (saturating_add_u64 (default 0%N c) n) | None => c end.

Definition stream_count (fs : list ResultFrame) : option N := foldl count_step None fs.

(** The part of a drive after the first frame. *)
Lemma drive_continuation_spec max_tokens ending rx : ∀ seq d,
  decoding (bridge d) seq → (tokens_emitted (bridge d) < 2 ^ 64)%N →
  ∃ d' r ts, drive_continuation max_tokens ending seq rx d = (d', r) ∧ shown d d' ts ∧ ts `prefix_of` (rx ≫= rf_tokens) ∧
    match r with
    | Ok _ => ∃ body rest, rx = body ++ rest ∧ cont_ok max_tokens seq body ∧ ts = body ≫= rf_tokens ∧
        generated_tokens d' = foldl count_step (generated_tokens d) body
    | Err e => (∀ b, e ≠ BridgeError b) ∧ ∀ body rest, rx = body ++ rest → ¬ cont_ok max_tokens seq body
    | Panic => False
    end.
Proof.
  induction rx as [|f rx IH]; intros seq d Hd Hlt; cbn [drive_continuation].
  { eexists d, _, []. split; [done|]. split.
    { split; [by rewrite app_nil_r| |done]. rewrite N.add_0_r. unfold as_u64. by rewrite N.mod_small. }
    split; [done|]. cbn. split; [by intros b; destruct ending|]. intros [] ?; [auto|done]. }
  assert (∀ d0, bridge d0 = bridge d → emitted d0 = emitted d → shown d d0 []) as Hnil.
  { intros d0 E1 E2. split; rewrite ?E1, ?E2; [by rewrite app_nil_r| |done]. rewrite N.add_0_r. unfold as_u64. by rewrite N.mod_small. }
  destruct (rf_error f) as [e|] eqn:Ee.
  { eexists d, _, []. split; [done|]. split; [by apply Hnil|]. split; [apply prefix_nil|]. cbn.
    split; [done|]. intros [|f' body] rest E; [auto|]. injection E as <- ->. cbn. rewrite Ee. by intros [? _]. }
  assert (∀ B (k : () → M Drive drive_error B) s, (mret tt ≫= k) s = k tt s) as Hret by done.
  rewrite Hret. unfold add_count. rewrite modify_bind, guard_bind. cbn [bridge emitted generated_tokens].
  destruct (N.ltb_spec max_tokens seq) as [Hb|Hb]; cbn [negb].
  { eexists _, _, []. split; [done|]. split; [by apply Hnil|]. split; [apply prefix_nil|]. cbn.
    split; [done|]. intros [|f' body] rest E; [auto|]. injection E as <- ->. cbn. intros (_ & ? & _). lia. }
  rewrite guard_bind. case_bool_decide as Hs.
  2: { eexists _, _, []. split; [done|]. split; [by apply Hnil|]. split; [apply prefix_nil|]. cbn.
       split; [done|]. intros [|f' body] rest E; [auto|]. injection E as <- ->. cbn. by intros (_ & _ & ? & _). }
  match goal with |- context [(submit_tokens _ _ ≫= _) ?d0] =>
    destruct (submit_tokens_spec (rf_tokens f) seq d0 Hd Hlt) as (d1 & Hrun & Hd1 & [S1 S2 S3] & S4) end.
  rewrite (M_bind_eq _ _ _ _ _ Hrun). cbn [bridge emitted generated_tokens] in S1, S2, S3, S4.
  destruct (rf_done f) eqn:Ed.
  { eexists d1, _, (rf_tokens f). split; [done|]. split; [by split|]. split; [by apply prefix_app_r|]. cbn.
    exists [f], rx. split; [done|]. cbn. rewrite Ee, Ed, app_nil_r. split_and!; try done; lia. }
  destruct (IH (seq + N.of_nat (length (rf_tokens f)))%N d1 Hd1) as (d' & r & ts & -> & [T1 T2 T3] & Hpre & Hr).
  { rewrite S2. unfold as_u64. apply N.mod_lt. done. }
  eexists d', r, (rf_tokens f ++ ts). split; [done|]. split.
  { split; [by rewrite T1, S1, <- app_assoc| |congruence]. rewrite T2, S2, as_u64_plus, length_app, Nat2N.inj_add. f_equal. lia. }
  split; [cbn; by apply prefix_app|]. destruct r as [u|e|]; [| |done].
  - destruct Hr as (body & rest & -> & Hok & -> & Hg). exists (f :: body), rest. cbn. rewrite Ee, Ed.
    split_and!; try done. by rewrite Hg, S4.
  - destruct Hr as [He Hr]. split; [done|]. intros [|f' body] rest E; [auto|]. injection E as <- E. cbn. rewrite Ed.
    intros (_ & _ & _ & Hok). by eapply Hr.
Qed.

Lemma cont_ok_unique max_tokens seq b1 : ∀ b2 r1 r2,
  cont_ok max_tokens seq b1 → cont_ok max_tokens seq b2 → b1 ++ r1 = b2 ++ r2 → b1 = b2.
Proof.
  revert seq. induction b1 as [|f b1 IH]; intros seq [|f' b2] r1 r2; try done. cbn. intros (_ & _ & _ & H1) (_ & _ & _ & H2) E.
  injection E as <- E. destruct (rf_done f); [by subst|]. f_equal. by eapply IH.
Qed.

(** Everything that could be shown. *)
Definition arrived_pieces (rx : list ResultFrame) : list string :=
  match rx with [] => [] | first :: rx' => stream_pieces first rx' end.

(** The request that the bridge refuses: a first frame without text that does not end the stream. *)
Definition silent_start (rx : list ResultFrame) : Prop :=
  ∃ first rx', rx = first :: rx' ∧ rf_error first = None ∧ rf_tokens first = [] ∧ rf_done first = false.

(** What a finished drive guarantees. *)
Definition drive_result (max_tokens : N) (rx : list ResultFrame) (d : Drive) (r : outcome drive_error (option N)) : Prop :=
  emitted d `prefix_of` arrived_pieces rx ∧
  tokens_emitted (bridge d) = as_u64 (N.of_nat (length (emitted d))) ∧
  match r with
  | Ok n => is_finalized (bridge d) = true ∧ ∃ first body rest, rx = first :: body ++ rest ∧ stream_ok max_tokens first body ∧
      emitted d = stream_pieces first body ∧ n = stream_count (first :: body)
  | Err e => is_finalized (bridge d) = false ∧
      (∀ first body rest, rx = first :: body ++ rest → ¬ stream_ok max_tokens first body) ∧
      ((∃ b, e = BridgeError b) ↔ silent_start rx)
  | Panic => False
  end.

Lemma mret_bind {S E A B} (a : A) (k : A → M S E B) s : (mret a ≫= k) s = k a s.
Proof. done. Qed.

Lemma lift_ok_bind {S E A B} (a : A) (k : A → M S E B) s : (lift (Ok a) ≫= k) s = k a s.
Proof. done. Qed.

Section drive.
Context (now timeout : nat) (max_tokens : N) (ending : RxEnd).
Local Abbreviation run rx := (drive_handoff_result now max_tokens ending rx (drive_new now timeout)).

Lemma drive_failed first rx e : rf_error first = Some e →
  ∃ d r, run (first :: rx) = (d, r) ∧ drive_result max_tokens (first :: rx) d r.
Proof.
  intros Ee. cbn [drive_handoff_result]. rewrite Ee.
  eexists _, _. split; [done|]. split; [apply prefix_nil|]. split; [done|]. cbn. split; [done|]. split.
  - intros f body rest E. injection E as <- E. unfold stream_ok. rewrite Ee. by intros [? _].
  - split; [by intros [b Hb]|]. intros (f & rx' & E & He & _). congruence.
Qed.

Lemma drive_silent first rx : rf_error first = None → rf_tokens first = [] →
  ∃ d r, run (first :: rx) = (d, r) ∧ drive_result max_tokens (first :: rx) d r.
Proof.
  intros Ee Et. cbn [drive_handoff_result]. rewrite Ee, Et, mret_bind. unfold add_count at 1. rewrite modify_bind, mret_bind.
  cbn [bridge emitted generated_tokens drive_new]. destruct (rf_done first) eqn:Ed.
  - rewrite mret_bind. eexists _, _. split; [done|]. split; [apply prefix_nil|]. split; [done|]. cbn.
    split; [done|]. exists first, [], rx. unfold stream_ok, stream_pieces, stream_count, count_step. rewrite Ee, Ed, Et.
    by destruct (rf_generated_tokens first).
  - eexists _, _. split; [done|]. split; [apply prefix_nil|]. split; [done|]. cbn. split; [done|]. split.
    + intros f body rest E. injection E as <- E. unfold stream_ok. rewrite Ed, Et. by intros (_ & ? & _).
    + split; [intros _; by exists first, rx|by eexists].
Qed.

(** A first frame with text leaves the rest to the continuation. *)
Lemma drive_text first rx text more : rf_error first = None → rf_tokens first = text :: more →
  let g := count_step None first in
  run (first :: rx) =
  (if rf_done first
   then (mkDrive (finalize (mkBridge HandoffToDecode 0 (Some now) (Some now) 1 false now timeout)).1 [text] g, Ok g)
   else match drive_continuation max_tokens ending 1 rx
               (mkDrive (mkBridge Decoding 0 (Some now) (Some now) 1 false now timeout) [text] g) with
        | (d, Ok _) => let d' := mkDrive (finalize (bridge d)).1 (emitted d) (generated_tokens d) in (d', Ok (generated_tokens d))
        | (d, Err e) => (d, Err e)
        | (d, Panic) => (d, Panic)
        end).
Proof.
  intros Ee Et g. cbn [drive_handoff_result]. rewrite Ee, Et, mret_bind. unfold add_count at 1. rewrite modify_bind, M_bind_assoc.
  assert (match rf_generated_tokens first with
          | Some n => Some (saturating_add_u64 (default 0%N (generated_tokens (drive_new now timeout))) n)
          | None => generated_tokens (drive_new now timeout) end = g) as -> by done.
  assert (submit_first_token now (mkToken 0 text 0 FromPrefill false) (bridge_new now timeout) =
    (mkBridge HandoffToDecode 0 (Some now) (Some now) 1 false now timeout, Ok tt)) as E1 by reflexivity.
  match goal with |- context [(on_bridge ?m ≫= _) ?d0] => rewrite (M_bind_eq _ _ _ _ _ (on_bridge_run m d0 _ _ E1)) end.
  unfold on_token at 1. rewrite modify_bind. cbn [bridge emitted generated_tokens app drive_new].
  destruct (rf_done first); [done|]. rewrite M_bind_assoc.
  assert (start_decode_stream (mkBridge HandoffToDecode 0 (Some now) (Some now) 1 false now timeout) =
    (mkBridge Decoding 0 (Some now) (Some now) 1 false now timeout, Ok tt)) as E2 by reflexivity.
  match goal with |- context [(on_bridge ?m ≫= _) ?d0] => rewrite (M_bind_eq _ _ _ _ _ (on_bridge_run m d0 _ _ E2)) end.
  unfold mbind at 1, M_bind at 1. by destruct (drive_continuation _ _ _ _ _) as [d [u|e|]].
Qed.

Lemma drive_spec rx : ∃ d r, run rx = (d, r) ∧ drive_result max_tokens rx d r.
Proof.
  destruct rx as [|first rx].
  { eexists _, _. do 3 (split; [done|]). cbn.
    split; [done|]. split; [by intros ? ? ?|]. split; [by intros [b Hb]; destruct ending|by intros (? & ? & ? & _)]. }
  destruct (rf_error first) as [e|] eqn:Ee; [by eapply drive_failed|].
  destruct (rf_tokens first) as [|text more] eqn:Et; [by apply drive_silent|].
  rewrite (drive_text first rx text more Ee Et). cbn zeta. destruct (rf_done first) eqn:Ed.
  { eexists _, _. split; [done|]. split.
    { cbn. unfold stream_pieces. rewrite Et. cbn. by apply (prefix_cons_alt text), prefix_nil. }
    split; [done|]. cbn. split; [done|]. exists first, [], rx. unfold stream_ok, stream_pieces. by rewrite Ee, Ed, Et. }
  set (d0 := mkDrive _ [text] _).
  destruct (drive_continuation_spec max_tokens ending rx 1 d0) as (d' & r & ts & -> & [S1 S2 S3] & Hpre & Hr); [by split|done|].
  cbn in S1, S2, S3. assert (emitted d' `prefix_of` arrived_pieces (first :: rx)) as Hp.
  { cbn. rewrite S1. unfold stream_pieces. rewrite Et. cbn. by apply prefix_cons. }
  assert (tokens_emitted (bridge d') = as_u64 (N.of_nat (length (emitted d')))) as Hc by (rewrite S2, S1; f_equal; cbn; lia).
  destruct r as [u|e|]; [| |done].
  - destruct Hr as (body & rest & -> & Hok & -> & Hg). eexists _, _. split; [done|]. split; [done|].
    split; [cbn; unfold finalize; by rewrite S3|]. split; [cbn; unfold finalize; by rewrite S3|].
    exists first, body, rest. unfold stream_ok, stream_pieces, stream_count. rewrite Ee, Ed, Et. cbn. rewrite S1, Hg. by split_and!.
  - destruct Hr as [Hb Hr]. eexists _, _. split; [done|]. split; [done|]. split; [done|]. split; [done|]. split.
    + intros f body rest E. injection E as <- E. unfold stream_ok. rewrite Ed. intros (_ & _ & Hok). by eapply Hr.
    + split; [intros [b ->]; by destruct (Hb b)|]. intros (f & rx' & E & _ & Ht & _). injection E as <- <-. congruence.
Qed.

Lemma stream_ok_unique first b1 b2 r1 r2 :
  stream_ok max_tokens first b1 → stream_ok max_tokens first b2 → b1 ++ r1 = b2 ++ r2 → b1 = b2.
Proof.
  unfold stream_ok. destruct (rf_done first); [by intros [_ ->] [_ ->]|]. intros (_ & _ & H1) (_ & _ & H2). by eapply cont_ok_unique.
Qed.

(** A well-formed stream is accepted and shown in full. *)
Lemma drive_accepts first body rest :
  stream_ok max_tokens first body →
  ∃ d, run (first :: body ++ rest) = (d, Ok (stream_count (first :: body))) ∧ emitted d = stream_pieces first body ∧
    is_finalized (bridge d) = true.
Proof.
  intros Hok. destruct (drive_spec (first :: body ++ rest)) as (d & r & Hrun & _ & _ & Hr). destruct r as [n|e|]; [| |done].
  - destruct Hr as (Hf & f & b & rs & E & Hok' & He & ->). injection E as <- E. exists d.
    pose proof (stream_ok_unique first body b rest rs Hok Hok' E) as <-. done.
  - destruct Hr as (_ & Hno & _). by destruct (Hno first body rest eq_refl).
Qed.
End drive.

(** C16. Whatever frames arrive for a request, the driver does not panic and shows, in order and
    without gaps, an initial part of the text they carry (of the first frame one piece), with the
    bridge counting exactly the pieces shown. It succeeds exactly when an initial part of the
    frames is a well-formed stream: no error, a first frame with text or the end of the stream,
    continuation frames with the expected sequence numbers that start within the token budget,
    and an end; then all of it is shown, the bridge is finalized and the outcome is the sum of
    the reported counts. The bridge refuses a stream exactly when its first frame has no text and
    does not end it. *)
Theorem drive_handoff_exact now timeout max_tokens ending rx :
  ∃ d r, drive_handoff_result now max_tokens ending rx (drive_new now timeout) = (d, r) ∧
    emitted d `prefix_of` arrived_pieces rx ∧
    tokens_emitted (bridge d) = as_u64 (N.of_nat (length (emitted d))) ∧
    (∀ first body rest, rx = first :: body ++ rest → stream_ok max_tokens first body →
       r = Ok (stream_count (first :: body)) ∧ emitted d = stream_pieces first body ∧ is_finalized (bridge d) = true) ∧
    (∀ n, r = Ok n → ∃ first body rest, rx = first :: body ++ rest ∧ stream_ok max_tokens first body) ∧
    ((∃ b, r = Err (BridgeError b)) ↔ silent_start rx) ∧ r ≠ Panic.
Proof.
  destruct (drive_spec now timeout max_tokens ending rx) as (d & r & Hrun & Hp & Hc & Hr). exists d, r. split; [done|].
  split; [done|]. split; [done|]. split.
  { intros first body rest -> Hok. destruct (drive_accepts now timeout max_tokens ending first body rest Hok) as (d' & Hrun' & ? & ?).
    rewrite Hrun in Hrun'. by simplify_eq. }
  destruct r as [n|e|]; [| |done]; (split; [|split; [|done]]).
  - intros ? _. destruct Hr as (_ & f & b & rs & ? & ? & _). eauto.
  - split; [by intros [? ?]|]. intros (f & rx' & -> & _ & Ht & Hd). destruct Hr as (_ & f' & b & rs & E & [_ Hok] & _).
    injection E as <- _. rewrite Hd in Hok. by destruct Hok.
  - done.
  - destruct Hr as (_ & _ & <-). split; intros [b Hb]; [exists b; congruence|exists b; by rewrite Hb].
Qed.

(** ** What the driver lets through *)

Definition piece_frame (phase : ResultPhase) (ts : list string) (start : N) (last : bool) : ResultFrame :=
  mkResult 7 phase ts start last None None.

(** Frames without text do not advance the sequence number: however many arrive, the token
    budget never ends the request. One frame can carry any number of pieces past the budget.
    The phase of a frame is not looked at: a continuation that overtakes the first token is
    shown as the first token, without its other pieces. *)
Lemma drive_budget_limits :
  (∀ n, (drive_handoff_result 0 2 RxTimeout (piece_frame FirstToken ["a"] 0 false :: replicate n (piece_frame Continuation [] 0 false))
           (drive_new 0 9)).2 = Err DecodeTimeout) ∧
  emitted (drive_handoff_result 0 2 RxTimeout
    [piece_frame FirstToken ["a"] 0 false; piece_frame Continuation ["b"; "c"; "d"; "e"] 1 true] (drive_new 0 9)).1 =
    ["a"; "b"; "c"; "d"; "e"] ∧
  (let '(d, r) := drive_handoff_result 0 9 RxTimeout
     [piece_frame Continuation ["b"; "c"] 1 false; piece_frame FirstToken ["a"] 0 false; piece_frame Continuation [] 0 true]
     (drive_new 0 9) in (emitted d, r)) = (["b"; "a"], Ok None).
Proof.
  split; [|split; vm_refl]. intros n. rewrite (drive_text _ _ _ _ _ _ "a" []) by done. cbn [rf_done piece_frame].
  set (d := mkDrive _ _ _). assert (decoding (bridge d) 1) as Hd by (by split). assert (generated_tokens d = None) as Hg by done.
  clearbody d. revert d Hd Hg. induction n as [|n IH]; intros d Hd Hg; [done|]. cbn [replicate drive_continuation].
  apply (IH (mkDrive (bridge d) (emitted d) (generated_tokens d))); [by destruct d|done].
Qed.

(** ** Serving requests end to end *)

(** [serde_json] reads back the frames it wrote, of which JSON can carry [P]. *)
Class JsonLaws {F} (J : Json F) (P : F → Prop) : Prop := {
  json_writes f : is_Some (to_vec f);
  json_reads f j : P f → to_vec f = Some j → from_slice j = Some f;
}.

Section serving.
Context {Sch : Type} `{!ServingScheduler Sch}.
Context {JP : Json PrefillRequestFrame} {JM : Json DecodeMetaFrame} {JR : Json ResultFrame}.
Context {LP : JsonLaws JP (λ f, finite_sampling (pf_sampling f))} {LM : JsonLaws JM (λ f, finite_sampling (dm_sampling f))}
  {LR : JsonLaws JR (λ _, True)}.

(** The text of the events, the count of the last [Done]. *)
Definition piece (e : GenerateEvent) : option string :=
  match e with EvToken t | EvTokenWithLogprobs t => Some t | _ => None end.
Definition reported (e : GenerateEvent) : option N := match e with EvDone n => Some n | _ => None end.
Definition no_error (e : GenerateEvent) : Prop := match e with EvError _ => False | _ => True end.

Lemma drain_events_spec es : Forall no_error es →
  drain_generation_events es =
    mkDrained (omap piece es) (bool_decide (omap reported es ≠ [])) None (last (omap reported es)).
Proof.
  intros H. unfold drain_generation_events.
  assert (∀ d, dg_error d = None → foldl drain_event d es =
    mkDrained (dg_tokens d ++ omap piece es) (dg_done d || bool_decide (omap reported es ≠ [])) None
      (match last (omap reported es) with Some n => Some n | None => dg_completion_tokens d end)) as Hd.
  { induction H as [|e es He _ IH]; intros d Hde.
    - cbn. destruct d as [t dn er c]. cbn in *. subst. by rewrite app_nil_r, orb_false_r.
    - destruct e as [t|t|n|x]; [| | |done]; cbn; rewrite IH by done; cbn.
      + by rewrite <- app_assoc.
      + by rewrite <- app_assoc.
      + rewrite orb_true_r, last_cons. by destruct (last (omap reported es)). }
  rewrite Hd by done. cbn. by destruct (last (omap reported es)).
Qed.
(** A request and what the workers make of it: the events of its prefill and, when it goes on,
    the payload handed over and the events of each decode tick. *)
Record Rest := mkRest { rest_kv : list N; rest_ticks : list (list GenerateEvent) }.
Record Job := mkJob { job_request : PrefillRequestFrame; job_first : list GenerateEvent; job_rest : option Rest }.

Definition job_id (j : Job) : N := pf_request_id (job_request j).
Definition job_ticks (j : Job) : list (list GenerateEvent) := from_option rest_ticks [] (job_rest j).

(** What a single node would have shown and counted. *)
Definition job_pieces (j : Job) : list string := omap piece (job_first j) ++ (job_ticks j ≫= omap piece).
Definition job_count (j : Job) : N :=
  (default 1 (last (omap reported (job_first j))) + default 0 (last (job_ticks j ≫= omap reported)))%N.

(** A request of the router at [r] for the decode node [d], served without an error event: a
    prefill produces at most one piece of text, and one when the request goes on; the pieces are
    at most as many as the tokens asked for. *)
Record job_ok (r d : string) (j : Job) : Prop := {
  jo_reply : pf_reply_to (job_request j) = r;
  jo_target : pf_decode_target (job_request j) = Some d;
  jo_sampling : finite_sampling (pf_sampling (job_request j));
  jo_first : Forall no_error (job_first j);
  jo_one : length (omap piece (job_first j)) ≤ 1;
  jo_goes_on rest : job_rest j = Some rest →
    omap piece (job_first j) ≠ [] ∧ omap reported (job_first j) = [] ∧ Forall (Forall no_error) (rest_ticks rest);
  jo_budget : (N.of_nat (length (job_pieces j)) ≤ pf_max_tokens (job_request j))%N;
  jo_count : (job_count j ≤ u64_max)%N;
}.

Inductive prefills : Sch → list Job → Sch → Prop :=
  | prefills_nil s : prefills s [] s
  | prefills_cons s s' s'' j js :
    prefill_text_request_for_handoff (pf_prompt_tokens (job_request j))
      (sampling_from_serializable (pf_sampling (job_request j))) (pf_max_tokens (job_request j)) s =
      (s', job_first j, Ok (rest_kv <$> job_rest j)) →
    prefills s' js s'' → prefills s (j :: js) s''.

Inductive ticks : Sch → list (list GenerateEvent) → Sch → Prop :=
  | ticks_last s s' es : decode_handoff_step s = (s', es, false) → ticks s [es] s'
  | ticks_more s s' s'' es ess : decode_handoff_step s = (s', es, true) → ticks s' ess s'' → ticks s (es :: ess) s''.

Inductive decodes : Sch → list Job → Sch → Prop :=
  | decodes_nil s : decodes s [] s
  | decodes_skip s s' j js : job_rest j = None → decodes s js s' → decodes s (j :: js) s'
  | decodes_cons s s1 s2 s' j js rest id :
    job_rest j = Some rest →
    ingest_handoff_as_active (rest_kv rest) (pf_max_tokens (job_request j))
      (sampling_from_serializable (pf_sampling (job_request j))) s = (s1, Ok id) →
    ticks s1 (rest_ticks rest) s2 → decodes s2 js s' → decodes s (j :: js) s'.

(** A frame on the wire. *)
Definition wire {F} `{!Json F, !ControlFrame F} (f : F) : TransportMessage := Control (OPERATION F) (default [] (to_vec f)).

Lemma encode_wire {F} {J : Json F} `{!ControlFrame F} {P} `{!JsonLaws J P} (f : F) : frame_encode f = Ok (wire f).
Proof. unfold frame_encode, wire. destruct (json_writes f) as [j Hj]. by rewrite Hj. Qed.

Lemma decode_wire {F} {J : Json F} `{!ControlFrame F} {P} `{!JsonLaws J P} (f : F) : P f → from_slice (default [] (to_vec f)) = Some f.
Proof. destruct (json_writes f) as [j Hj]. rewrite Hj. intros Hf. by eapply json_reads. Qed.

Definition job_meta (j : Job) : DecodeMetaFrame :=
  mkDecodeMeta (job_id j) (pf_max_tokens (job_request j)) (pf_sampling (job_request j)) (pf_reply_to (job_request j)).

Definition first_frame (j : Job) : ResultFrame :=
  mkResult (job_id j) FirstToken (omap piece (job_first j)) 0
    (bool_decide (omap reported (job_first j) ≠ []) || bool_decide (rest_kv <$> job_rest j = None)) None
    (Some (default 1%N (last (omap reported (job_first j))))).

(** The continuation: a frame per tick that has text, then the end. *)
Fixpoint tick_frames (id seq : N) (ess : list (list GenerateEvent)) : list ResultFrame :=
  match ess with
  | [] => []
  | es :: ess' =>
    (if decide (omap piece es = []) then [] else [mkResult id Continuation (omap piece es) seq false None None]) ++
    tick_frames id (seq + N.of_nat (length (omap piece es))) ess'
  end.

Definition last_frame (j : Job) : ResultFrame :=
  mkResult (job_id j) Continuation [] 0 true None (last (job_ticks j ≫= omap reported)).

Definition handoff_messages (j : Job) : list TransportMessage :=
  match job_rest j with Some rest => [wire (job_meta j); handoff_message (rest_kv rest)] | None => [] end.

Definition continuation (j : Job) : list ResultFrame :=
  match job_rest j with Some rest => tick_frames (job_id j) 1 (rest_ticks rest) ++ [last_frame j] | None => [] end.

Lemma tick_frames_ok id max_tokens (tail : ResultFrame) ess : ∀ seq,
  rf_error tail = None → rf_start_sequence tail = 0%N → rf_done tail = true →
  (seq + N.of_nat (length (ess ≫= omap piece)) ≤ max_tokens)%N →
  cont_ok max_tokens seq (tick_frames id seq ess ++ [tail]).
Proof.
  induction ess as [|es ess IH]; intros seq He Hs Hd Hle; cbn in *.
  - rewrite Hd. split_and!; try done; [lia|by left].
  - rewrite length_app in Hle. destruct (decide _) as [E|E].
    + rewrite E in Hle |- *. cbn [length app] in Hle |- *. rewrite N.add_0_r. apply IH; try done.
    + cbn. split_and!; try done; [lia|by right|]. apply IH; try done. lia.
Qed.

Lemma tick_frames_pieces id ess : ∀ seq, (tick_frames id seq ess ≫= rf_tokens) = ess ≫= omap piece.
Proof.
  induction ess as [|es ess IH]; intros seq; [done|]. cbn. rewrite bind_app, IH. f_equal.
  destruct (decide _) as [E|E]; cbn; [by rewrite E|by rewrite app_nil_r].
Qed.

Lemma tick_frames_count id c ess : ∀ seq, foldl count_step c (tick_frames id seq ess) = c.
Proof. induction ess as [|es ess IH]; intros seq; [done|]. cbn. rewrite foldl_app. destruct (decide _); apply IH. Qed.

Lemma tick_frames_id id seq ess : Forall (λ f, rf_request_id f = id) (tick_frames id seq ess).
Proof.
  revert seq. induction ess as [|es ess IH]; intros seq; [constructor|]. cbn. apply Forall_app. split; [|apply IH].
  destruct (decide _); [constructor|by repeat constructor].
Qed.

(** The frames of a job are a well-formed stream with the text and the count of the job. *)
Lemma job_stream r d j : job_ok r d j →
  stream_ok (pf_max_tokens (job_request j)) (first_frame j) (continuation j) ∧
  stream_pieces (first_frame j) (continuation j) = job_pieces j ∧
  stream_count (first_frame j :: continuation j) = Some (job_count j).
Proof.
  intros Hj. pose proof (jo_one _ _ _ Hj) as H1. pose proof (jo_budget _ _ _ Hj) as Hb. pose proof (jo_count _ _ _ Hj) as Hc.
  unfold stream_ok, stream_pieces, stream_count, continuation, job_pieces, job_count, job_ticks, last_frame, job_ticks in *.
  cbn [first_frame rf_error rf_done rf_tokens rf_generated_tokens count_step]. rewrite take_ge by done.
  destruct (job_rest j) as [rest|] eqn:Er; cbn [from_option] in *.
  - destruct (jo_goes_on _ _ _ Hj rest Er) as (Hp & Hr & Hn). rewrite Hr, (bool_decide_eq_false_2 ([] ≠ [])) by auto. cbn [orb].
    rewrite (bool_decide_eq_false_2 (_ = None)) by done. split; [|split].
    + split; [done|]. split; [done|]. apply tick_frames_ok; try done. rewrite length_app in Hb.
      destruct (omap piece (job_first j)); [done|]. cbn in Hb. lia.
    + rewrite bind_app, tick_frames_pieces. cbn. by rewrite !app_nil_r.
    + cbn. rewrite foldl_app, tick_frames_count. unfold count_step. rewrite Hr in Hc |- *. cbn in Hc |- *.
      destruct (last (rest_ticks _ ≫= _)) as [n|]; cbn in *; f_equal; unfold saturating_add_u64, u64_max in *; lia.
  - rewrite (bool_decide_eq_true_2 (_ = None)) by done. rewrite orb_true_r. split; [done|]. split; [done|]. cbn in *. f_equal.
    unfold saturating_add_u64. lia.
Qed.

Lemma results_for_wire id fs : results_for id (wire <$> fs) = filter (λ f, rf_request_id f = id) fs.
Proof.
  unfold results_for. induction fs as [|f fs IH]; [done|]. cbn [fmap list_fmap omap list_omap control_parts wire].
  rewrite decide_True by done. rewrite (decode_wire (P := λ _, True)) by done. cbn [mbind option_bind]. rewrite filter_cons, IH.
  by destruct (decide _).
Qed.

Section nodes.
Context {SocketAddr : Type} `{!EqDecision SocketAddr} (parse_addr : string → option SocketAddr).
Context (error_text : serve_error → string) (delivered : nat → string → TransportMessage → bool).
Context (Hdelivered : ∀ k a m, delivered k a m = true).
Local Abbreviation node := (Node Sch).
Local Abbreviation post a m := (mkSent a m true).

Lemma send_ok a m (n : node) : send delivered a m n = (mkNode (scheduler n) (outbox n ++ [post a m]), Ok tt).
Proof. unfold send. by rewrite Hdelivered. Qed.

Definition prefill_out (r d : string) (j : Job) : list Sent :=
  ((λ m, post r m) <$> [wire (first_frame j)]) ++ ((λ m, post d m) <$> handoff_messages j).

Lemma serve_prefill_job r d peer allowlist j s s' out :
  job_ok r d j → d ≠ EmptyString → decide_target parse_addr allowlist d ≠ Reject →
  prefill_text_request_for_handoff (pf_prompt_tokens (job_request j))
    (sampling_from_serializable (pf_sampling (job_request j))) (pf_max_tokens (job_request j)) s =
    (s', job_first j, Ok (rest_kv <$> job_rest j)) →
  serve_prefill parse_addr error_text delivered peer allowlist (job_request j) (mkNode s out) =
    (mkNode s' (out ++ prefill_out r d j), Ok tt).
Proof.
  intros Hj Hd Ha Hrun. unfold serve_prefill, on_scheduler. unfold mbind at 1, M_bind at 1. cbn [scheduler outbox]. rewrite Hrun.
  rewrite lift_ok_bind, (drain_events_spec _ (jo_first _ _ _ Hj)). cbn [dg_tokens dg_done dg_error dg_completion_tokens].
  fold (job_id j). fold (first_frame j). rewrite (encode_wire (P := λ _, True)), lift_ok_bind.
  rewrite get_bind, send_ok, (jo_reply _ _ _ Hj). unfold put, mbind at 1, M_bind at 1. cbn [scheduler outbox].
  unfold prefill_out, handoff_messages. destruct (job_rest j) as [rest|]; cbn [fmap option_fmap option_map]; [|done].
  unfold hand_off. rewrite (jo_target _ _ _ Hj). cbn [mbind option_bind]. rewrite decide_False by done.
  destruct (decide_target parse_addr allowlist d) eqn:E; [| |done]; unfold on_err, forward_handoff_to;
    rewrite (encode_wire (P := λ f, finite_sampling (dm_sampling f))); unfold lift, mbind, M_bind; cbn [default];
    rewrite !send_ok; cbn [scheduler outbox]; rewrite <- !app_assoc; cbn [app fmap list_fmap]; by rewrite <- (jo_reply _ _ _ Hj).
Qed.

Lemma prefill_role_jobs r d peer allowlist js : ∀ s s' out,
  d ≠ EmptyString → decide_target parse_addr allowlist d ≠ Reject → Forall (job_ok r d) js → prefills s js s' →
  prefill_role parse_addr error_text delivered peer allowlist (wire ∘ job_request <$> js) (mkNode s out) =
    (mkNode s' (out ++ (js ≫= prefill_out r d)), Ok tt).
Proof.
  induction js as [|j js IH]; intros s s' out Hd Ha Hjs Hp; inversion Hp; subst; [by rewrite app_nil_r|].
  apply Forall_cons in Hjs as [Hj Hjs]. cbn [fmap list_fmap prefill_role control_parts wire compose]. rewrite decide_True by done.
  unfold frame_decode. rewrite (decode_wire (P := λ f, finite_sampling (pf_sampling f))) by apply Hj.
  cbn [ok_or_err]. rewrite lift_ok_bind.
  rewrite (M_bind_eq _ _ _ _ _ (serve_prefill_job r d peer allowlist j s s'0 out Hj Hd Ha ltac:(done))).
  rewrite (IH s'0 s') by done. cbn. by rewrite <- app_assoc.
Qed.

Lemma stream_ticks_spec fuel j ess : ∀ s s' next g out,
  length ess ≤ fuel → Forall (Forall no_error) ess → ticks s ess s' →
  stream_ticks delivered fuel (job_meta j) next g (mkNode s out) =
    (mkNode s' (out ++ ((λ f, post (pf_reply_to (job_request j)) (wire f)) <$> tick_frames (job_id j) next ess)),
     Ok (next + N.of_nat (length (ess ≫= omap piece)), from_option Some g (last (ess ≫= omap reported)))%N).
Proof.
  revert fuel. induction ess as [|es ess IH]; intros fuel s s' next g out Hf Hn Ht; [inversion Ht|].
  apply Forall_cons in Hn as [He Hn]. destruct fuel as [|fuel]; [cbn in Hf; lia|]. cbn [stream_ticks].
  assert (∃ s1 active, decode_handoff_step s = (s1, es, active) ∧
    (active = false ∧ ess = [] ∧ s' = s1 ∨ active = true ∧ ticks s1 ess s')) as (s1 & active & Hstep & Hrest).
  { inversion Ht; subst; eexists _, _; eauto 6. }
  unfold on_scheduler. unfold mbind at 1, M_bind at 1. cbn [scheduler outbox]. rewrite Hstep, (drain_events_spec es He).
  cbn [dg_tokens dg_done dg_error dg_completion_tokens]. set (g' := match last (omap reported es) with Some n => Some n | None => g end).
  set (out' := out ++ ((λ f, post (pf_reply_to (job_request j)) (wire f)) <$>
    (if decide (omap piece es = []) then [] else [mkResult (job_id j) Continuation (omap piece es) next false None None]))).
  assert (ship_tick delivered (job_meta j) next
    (mkDrained (omap piece es) (bool_decide (omap reported es ≠ [])) None (last (omap reported es))) (mkNode s1 out) =
    (mkNode s1 out', Ok (next + N.of_nat (length (omap piece es)))%N)) as Hship.
  { unfold ship_tick, out'. cbn [dg_tokens dg_error]. destruct (decide (omap piece es = [])) as [E|E].
    - rewrite decide_True by done. rewrite E. cbn. by rewrite app_nil_r, N.add_0_r.
    - rewrite decide_False by (by intros [? _]). by rewrite (encode_wire (P := λ _, True)), lift_ok_bind, (M_bind_eq _ _ _ _ _ (send_ok _ _ _)). }
  rewrite (M_bind_eq _ _ _ _ _ Hship). destruct Hrest as [(-> & -> & ->)|(-> & Hrest)].
  - unfold mret, M_ret. cbn. rewrite !app_nil_r. unfold g'. by destruct (last (omap reported es)).
  - rewrite (IH fuel s1 s') by (done || (cbn in Hf; lia)). cbn [tick_frames]. rewrite fmap_app, app_assoc. cbn [mbind list_bind].
    rewrite length_app, Nat2N.inj_add, N.add_assoc. do 3 f_equal. rewrite last_app. unfold g'.
    by destruct (last (ess ≫= omap reported)), (last (omap reported es)).
Qed.

Lemma ticks_nonempty s ess s' : ticks s ess s' → ess ≠ [].
Proof. by intros []. Qed.

Lemma serve_decode_job fuel r d j rest s s1 s2 id out :
  job_ok r d j → job_rest j = Some rest → length (rest_ticks rest) ≤ fuel →
  ingest_handoff_as_active (rest_kv rest) (pf_max_tokens (job_request j))
    (sampling_from_serializable (pf_sampling (job_request j))) s = (s1, Ok id) →
  ticks s1 (rest_ticks rest) s2 →
  serve_decode delivered fuel (job_meta j) (rest_kv rest) (mkNode s out) =
    (mkNode s2 (out ++ ((λ f, post r (wire f)) <$> continuation j)), Ok tt).
Proof.
  intros Hj Hr Hf Hin Ht. destruct (jo_goes_on _ _ _ Hj rest Hr) as (_ & _ & Hn).
  unfold serve_decode. unfold mbind at 1, M_bind at 1. cbn [scheduler outbox dm_max_tokens dm_sampling job_meta]. rewrite Hin.
  rewrite (M_bind_eq _ _ _ _ _ (stream_ticks_spec fuel j (rest_ticks rest) s1 s2 1 None out Hf Hn Ht)).
  rewrite (encode_wire (P := λ _, True)), lift_ok_bind, send_ok. cbn [scheduler outbox]. unfold continuation. rewrite Hr.
  rewrite fmap_app, app_assoc, (jo_reply _ _ _ Hj). cbn [dm_reply_to job_meta]. rewrite (jo_reply _ _ _ Hj).
  unfold last_frame, job_ticks. rewrite Hr. cbn [from_option fmap list_fmap dm_request_id]. do 6 f_equal.
  by destruct (last _).
Qed.

Lemma decode_role_jobs fuel r d js : ∀ s s' out,
  Forall (job_ok r d) js → Forall (λ j, length (job_ticks j) ≤ fuel) js → decodes s js s' →
  decode_role delivered fuel (js ≫= handoff_messages) (mkNode s out) =
    (mkNode s' (out ++ ((λ f, post r (wire f)) <$> (js ≫= continuation))), Ok tt).
Proof.
  induction js as [|j js IH]; intros s s' out Hjs Hf Hd; inversion Hd; subst; [by rewrite app_nil_r| |];
    apply Forall_cons in Hjs as [Hj Hjs]; apply Forall_cons in Hf as [Hfj Hf]; cbn [mbind list_bind];
    unfold handoff_messages at 1, continuation at 1;
    match goal with H : job_rest j = _ |- _ => rename H into Hr end.
  - rewrite Hr. cbn [app]. by apply IH.
  - rewrite Hr. cbn [app decode_role control_parts wire]. rewrite decide_True by done. unfold frame_decode.
    rewrite (decode_wire (P := λ f, finite_sampling (dm_sampling f))) by apply Hj. cbn [ok_or_err]. rewrite lift_ok_bind.
    unfold handoff_message at 1. cbn [handoff_payload]. rewrite decide_True by done. rewrite lift_ok_bind.
    unfold job_ticks in Hfj. rewrite Hr in Hfj. cbn in Hfj.
    rewrite (M_bind_eq _ _ _ _ _ (serve_decode_job fuel r d j rest s s1 s2 id out Hj Hr Hfj ltac:(done) ltac:(done))).
    rewrite (IH s2 s') by done. unfold continuation at 1. by rewrite Hr, !fmap_app, !app_assoc.
Qed.
End nodes.

(** The messages a node sent to an address. *)
Definition inbox_of (a : string) (sent : list Sent) : list TransportMessage :=
  message <$> filter (λ x, to_addr x = a ∧ arrived x = true) sent.

Lemma inbox_of_app a xs ys : inbox_of a (xs ++ ys) = inbox_of a xs ++ inbox_of a ys.
Proof. unfold inbox_of. by rewrite filter_app, fmap_app. Qed.

Lemma inbox_of_posts a b (ms : list TransportMessage) :
  inbox_of a ((λ m, mkSent b m true) <$> ms) = if decide (b = a) then ms else [].
Proof.
  unfold inbox_of. induction ms as [|m ms IH]; [by destruct (decide _)|]. cbn [fmap list_fmap]. rewrite filter_cons.
  destruct (decide (b = a)) as [E|E].
  - rewrite decide_True by done. cbn. by rewrite IH.
  - rewrite decide_False by (by intros [? _]). done.
Qed.

Lemma inbox_of_prefill r d js : r ≠ d →
  inbox_of d (js ≫= prefill_out r d) = js ≫= handoff_messages ∧
  inbox_of r (js ≫= prefill_out r d) = wire ∘ first_frame <$> js.
Proof.
  intros Hne. induction js as [|j js [IH1 IH2]]; [done|]. cbn [mbind list_bind]. rewrite !inbox_of_app.
  cbn [mbind list_bind] in IH1, IH2. rewrite IH1, IH2. unfold prefill_out. rewrite !inbox_of_app, !inbox_of_posts.
  rewrite (decide_False (P := r = d)), (decide_True (P := d = d)), (decide_True (P := r = r)), (decide_False (P := d = r)) by done.
  by rewrite app_nil_r.
Qed.

Lemma filter_first_frames j js : NoDup (job_id <$> js) → j ∈ js →
  filter (λ f, rf_request_id f = job_id j) (first_frame <$> js) = [first_frame j].
Proof.
  intros Hnd Hin. induction js as [|j' js IH]; [by apply not_elem_of_nil in Hin|]. cbn in Hnd. rewrite fmap_cons, filter_cons.
  apply NoDup_cons in Hnd as [Hni Hnd]. cbn [rf_request_id first_frame]. apply elem_of_cons in Hin as [<-|Hin].
  - rewrite decide_True by done. f_equal. apply filter_none, Forall_fmap, Forall_forall. intros j' Hj'. cbn. intros E.
    apply Hni. rewrite <- E. by apply list_elem_of_fmap_2.
  - rewrite decide_False; [by apply IH|]. intros E. apply Hni. rewrite E. by apply list_elem_of_fmap_2.
Qed.

Lemma continuation_id j : Forall (λ f, rf_request_id f = job_id j) (continuation j).
Proof.
  unfold continuation. destruct (job_rest j); [|constructor]. apply Forall_app. split; [apply tick_frames_id|by repeat constructor].
Qed.

Lemma filter_continuations j js : NoDup (job_id <$> js) → j ∈ js →
  filter (λ f, rf_request_id f = job_id j) (js ≫= continuation) = continuation j.
Proof.
  intros Hnd Hin.
  assert (∀ j' js', (∀ x, x ∈ js' → job_id x ≠ job_id j') → filter (λ f, rf_request_id f = job_id j') (js' ≫= continuation) = []) as Hno.
  { intros j' js' H. apply filter_none, Forall_bind, Forall_forall. intros x Hx. eapply Forall_impl; [apply continuation_id|].
    cbn. intros f -> E. by eapply H. }
  induction js as [|j' js IH]; [by apply not_elem_of_nil in Hin|]. cbn in Hnd. cbn [mbind list_bind]. rewrite filter_app.
  apply NoDup_cons in Hnd as [Hni Hnd]. apply elem_of_cons in Hin as [<-|Hin].
  - rewrite (filter_all _ (continuation j) (continuation_id j)), Hno, app_nil_r; [done|].
    intros x Hx E. apply Hni. rewrite <- E. by apply list_elem_of_fmap_2.
  - rewrite IH by done. rewrite filter_none; [done|]. eapply Forall_impl; [apply continuation_id|]. cbn. intros f -> E.
    apply Hni. rewrite E. by apply list_elem_of_fmap_2.
Qed.

(** C11. Requests with distinct ids that one router sends to one prefill node, which hands them to
    one decode node, at another address that the allowlist accepts, all with their messages
    delivered and in order (the fuel of the decode loop covers the ticks of each request). Suppose that the
    two schedulers report no error event; that a prefill gives at most one piece of text, and
    gives one, with no token count, when its request goes on to the decode node (the stream bridge
    refuses the request otherwise); that a request has no more pieces than the tokens it asked
    for; and that counts fit in 64 bits and sampling parameters are finite. Then both role loops
    serve all requests without an error, and the router shows for each of them exactly the text
    pieces of the prefill followed by those of every decode tick, in order, with nothing lost,
    repeated or mixed up between requests; the stream is ended, and the token count it reports is
    the sum of the workers' counts. *)
Theorem disaggregated_stream_exact {SocketAddr} `{!EqDecision SocketAddr} (parse_addr : string → option SocketAddr)
    error_text delivered peer allowlist fuel r d js sP sP' sD sD' now timeout ending :
  (∀ k a m, delivered k a m = true) → r ≠ d → d ≠ EmptyString → decide_target parse_addr allowlist d ≠ Reject →
  Forall (job_ok r d) js → NoDup (job_id <$> js) → prefills sP js sP' → decodes sD js sD' →
  Forall (λ j, length (job_ticks j) ≤ fuel) js →
  ∃ outP outD,
    prefill_role parse_addr error_text delivered peer allowlist (wire ∘ job_request <$> js) (mkNode sP []) = (mkNode sP' outP, Ok tt) ∧
    decode_role delivered fuel (inbox_of d outP) (mkNode sD []) = (mkNode sD' outD, Ok tt) ∧
    ∀ j, j ∈ js → ∃ dr,
      drive_handoff_result now (pf_max_tokens (job_request j)) ending
        (results_for (job_id j) (inbox_of r outP) ++ results_for (job_id j) (inbox_of r outD)) (drive_new now timeout) =
        (dr, Ok (Some (job_count j))) ∧
      emitted dr = job_pieces j ∧ is_finalized (bridge dr) = true.
Proof.
  intros Hdel Hne Hd Ha Hjs Hnd HP HD Hf. eexists _, _.
  split; [by apply (prefill_role_jobs parse_addr error_text delivered Hdel r d)|].
  destruct (inbox_of_prefill r d js Hne) as [E1 E2]. cbn [app]. rewrite E1, E2.
  split; [by apply (decode_role_jobs delivered Hdel fuel r d)|]. intros j Hj. cbn [app].
  assert (((λ f, mkSent r (wire f) true) <$> (js ≫= continuation)) = ((λ m, mkSent r m true) <$> (wire <$> (js ≫= continuation)))) as ->
    by (by rewrite <- list_fmap_compose).
  rewrite inbox_of_posts, decide_True, (list_fmap_compose first_frame wire), !results_for_wire by done.
  rewrite (filter_first_frames j js Hnd Hj), (filter_continuations j js Hnd Hj). cbn [app].
  rewrite Forall_forall in Hjs. destruct (job_stream r d j (Hjs j Hj)) as (Hok & Hp & Hc).
  destruct (drive_accepts now timeout _ ending (first_frame j) (continuation j) [] Hok) as (dr & Hrun & He & Hfin).
  rewrite app_nil_r in Hrun. exists dr. by rewrite Hrun, Hc, He, Hp.
Qed.
End serving.

(** ** What stops a node *)

(** One message can end a role loop with an error, and every later request with it: two handoffs
    whose metadata arrive before their payloads, or a request frame that is not readable. *)
Lemma role_loops_stop {Sch} `{!ServingScheduler Sch} {JM : Json DecodeMetaFrame} {JP : Json PrefillRequestFrame} {JR : Json ResultFrame}
    {P} `{!JsonLaws JM P} {SocketAddr} `{!EqDecision SocketAddr} (parse_addr : string → option SocketAddr)
    error_text delivered fuel peer allowlist (m1 m2 : DecodeMetaFrame) payload rest (n : Node Sch) :
  P m1 → from_slice (F := PrefillRequestFrame) payload = None →
  decode_role delivered fuel (wire m1 :: wire m2 :: rest) n = (n, Err (NotHandoff NotHandoffFrame)) ∧
  prefill_role parse_addr error_text delivered peer allowlist (Control OP_PREFILL_REQUEST payload :: rest) n = (n, Err BadJson).
Proof.
  intros Hm Hp. split.
  - cbn [decode_role wire control_parts]. rewrite decide_True by done. unfold frame_decode. by rewrite (decode_wire (P := P)).
  - cbn [prefill_role control_parts]. rewrite decide_True by done. unfold frame_decode. by rewrite Hp.
Qed.

(** ** A run *)

Global Instance ResultPhase_eq_dec : EqDecision ResultPhase.
Proof. solve_decision. Defined.
Global Instance ResultPhase_countable : Countable ResultPhase.
Proof.
  apply (inj_countable' (λ p, match p with FirstToken => true | Continuation => false end)
    (λ b : bool, if b then FirstToken else Continuation)). by intros [].
Defined.
Global Instance ResultFrame_eq_dec : EqDecision ResultFrame.
Proof. solve_decision. Defined.
Global Instance ResultFrame_countable : Countable ResultFrame.
Proof.
  apply (inj_countable' (λ f, (rf_request_id f, rf_phase f, rf_tokens f, rf_start_sequence f, rf_done f, rf_error f, rf_generated_tokens f))
    (λ '(a, b, c, d, e, f, g), mkResult a b c d e f g)). by intros [].
Defined.
Global Instance DecodeMetaFrame_eq_dec : EqDecision DecodeMetaFrame.
Proof. solve_decision. Defined.
Global Instance DecodeMetaFrame_countable : Countable DecodeMetaFrame.
Proof.
  apply (inj_countable' (λ f, (dm_request_id f, dm_max_tokens f, dm_sampling f, dm_reply_to f)) (λ '(a, b, c, d), mkDecodeMeta a b c d)).
  by intros [].
Defined.
Global Instance PrefillRequestFrame_eq_dec : EqDecision PrefillRequestFrame.
Proof. solve_decision. Defined.
Global Instance PrefillRequestFrame_countable : Countable PrefillRequestFrame.
Proof.
  apply (inj_countable' (λ f, (pf_request_id f, pf_prompt_tokens f, pf_sampling f, pf_max_tokens f, pf_reply_to f, pf_decode_target f))
    (λ '(a, b, c, d, e, f), mkPrefillFrame a b c d e f)). by intros [].
Defined.

Definition bits_json {F} `{Countable F} : Json F := {|
  to_vec f := Some (pos_bits (countable.encode f));
  from_slice b := countable.decode (bits_pos b);
|}.

Lemma bits_json_laws {F} `{Countable F} (P : F → Prop) : JsonLaws bits_json P.
Proof. split; cbn; [by eexists|]. intros f j _ [= <-]. by rewrite bits_pos_bits, countable.decode_encode. Qed.

(** A scheduler that answers the prompt [[1]] with three tokens and any other with one. *)
Definition script : ServingScheduler nat := {|
  prefill_text_request_for_handoff prompt _ _ s :=
    if decide (prompt = [1]%Z) then (s, [EvToken "a"], Ok (Some [9%N])) else (s, [EvToken "x"; EvDone 1], Ok None);
  ingest_handoff_as_active _ _ _ _ := (2, Ok 0%N);
  decode_handoff_step s :=
    match s with S (S k) => (1, [EvToken "b"], true) | _ => (0, [EvTokenWithLogprobs "c"; EvDone 2], false) end;
|}.

Section run.
Existing Instance script.
Existing Instance bits_json.
Existing Instance bits_json_laws.

Definition plain_request (id : N) (prompt : list Z) : PrefillRequestFrame :=
  mkPrefillFrame id prompt (sampling_to_serializable greedy) 3 "router:1" (Some "decode:1").
Definition long_job : Job := mkJob (plain_request 1 [1]%Z) [EvToken "a"] (Some (mkRest [9%N] [[EvToken "b"]; [EvTokenWithLogprobs "c"; EvDone 2]])).
Definition short_job : Job := mkJob (plain_request 2 [5]%Z) [EvToken "x"; EvDone 1] None.

Lemma example_jobs : Forall (job_ok "router:1" "decode:1") [long_job; short_job].
Proof.
  assert (finite_sampling (sampling_to_serializable greedy)) as Hfin by (by repeat constructor).
  repeat apply Forall_cons_2; [| |apply Forall_nil_2]; split; try done; try (by repeat constructor); cbn; try lia.
  intros rest [= <-]. split_and!; [done|done|by repeat constructor].
Qed.

Lemma disaggregated_stream_exact_witness :
  ∃ outP outD,
    prefill_role Some (λ _, "") (λ _ _ _, true) "" [] [wire (plain_request 1 [1]%Z); wire (plain_request 2 [5]%Z)] (mkNode 0 []) =
      (mkNode 0 outP, Ok tt) ∧
    decode_role (λ _ _ _, true) 2 (inbox_of "decode:1" outP) (mkNode 0 []) = (mkNode 0 outD, Ok tt) ∧
    ∃ dr, drive_handoff_result 0 3 RxClosed
        (results_for 1 (inbox_of "router:1" outP) ++ results_for 1 (inbox_of "router:1" outD)) (drive_new 0 9) = (dr, Ok (Some 3%N)) ∧
      emitted dr = ["a"; "b"; "c"].
Proof.
  destruct (disaggregated_stream_exact Some (λ _, "") (λ _ _ _, true) "" [] 2 "router:1" "decode:1" [long_job; short_job]
    0 0 0 0 0 9 RxClosed) as (outP & outD & HP & HD & Hall).
  - done.
  - done.
  - done.
  - done.
  - exact example_jobs.
  - apply (bool_decide_unpack _). vm_compute. exact I.
  - repeat econstructor.
  - eapply decodes_cons; [done|done| |by apply decodes_skip; [|constructor]]. by eapply ticks_more; [|apply ticks_last].
  - repeat constructor.
  - exists outP, outD. split; [exact HP|]. split; [exact HD|]. destruct (Hall long_job) as (dr & Hrun & He & _); [by left|].
    exists dr. split; [exact Hrun|exact He].
Defined.
End run.
