(* ===== verification/DisaggRouter.v ===== *)
(** * The router of disaggregated serving

    [distributed/disaggregated/request_router.rs] (the request router: node selection, request
    phases, re-routing after a node failure, purging) and the dispatch of
    [server/router_front.rs] (selection with fall-back, sending with fail-over, health checks).

    The registry, the metrics and the load levels are shared with other tasks: between two
    operations they may be replaced. A [HashMap] is iterated in any order ([StringOrder]); time
    is a number of clock ticks; counters wrap at 64 bits. *)

From S2P Require Import Prelude StableSort Sampling ClusterConfig ClusterNodes ClusterMonitor ClusterRouting ClusterScheduler.
From S2P Require Import KvSerde KvHandoff DisaggServe.

(** ** Configuration and requests *)

Inductive DisaggRoutingStrategy := RoundRobin | LeastLoaded | MemoryAware | PromptLengthAware.

Record RouterConfig := mkRouterConfig {
  prefill_queue_capacity : nat;
  decode_queue_capacity : nat;
  prefill_strategy : DisaggRoutingStrategy;
  decode_strategy : DisaggRoutingStrategy;
  phase_timeout : nat;
  request_timeout : nat;
  long_prompt_threshold : nat;
  max_tracked_requests : nat;
  auto_purge_age : nat;
}.

(** Durations in seconds. *)
Definition default_router_config : RouterConfig := mkRouterConfig 256 256 LeastLoaded MemoryAware 60 300 2048 10000 60.

Inductive RequestPhase :=
  | Queued
  | Prefilling (node_id : string)
  | TransferringCache (from_node to_node : string)
  | Decoding (node_id : string)
  | Completed
  | Failed (reason : string).

#[global] Instance RequestPhase_eq_dec : EqDecision RequestPhase.
Proof. solve_decision. Defined.

Definition is_terminal (p : RequestPhase) : bool := match p with Completed | Failed _ => true | _ => false end.
Definition is_queued (p : RequestPhase) : bool := match p with Queued => true | _ => false end.

Record TrackedRequest := mkTracked {
  request_id : string;
  phase : RequestPhase;
  prefill_node : option string;
  decode_node : option string;
  created_at : nat;
  phase_started_at : nat;
  prompt_len : nat;
  retry_count : N;
}.

Definition tracked_new (now : nat) (id : string) (prompt_len : nat) : TrackedRequest :=
  mkTracked id Queued None None now now prompt_len 0.

Inductive BackpressureAction := Accept | Queue | RejectRequest (reason : string).

Record NodeLoadInfo := mkLoadInfo {
  li_node_id : string;
  li_role : NodeRole;
  li_active_requests : N;
  li_memory_used : N;
  li_memory_total : N;
  li_online : bool;
  li_load_level : option LoadLevel;
}.

(** [saturating_sub] *)
Definition free_memory (n : NodeLoadInfo) : N := (li_memory_total n - li_memory_used n)%N.

Record RequestRouter := mkRouter {
  config : RouterConfig;
  registry : NodeRegistry;
  cluster_metrics : gmap string NodeMetrics;
  backpressure : BackpressureMonitor;
  requests : gmap string TrackedRequest;
  prefill_rr_counter : N;
  decode_rr_counter : N;
  total_requests : N;
  total_completed : N;
  total_failed : N;
  routing_decisions : N;
  failure_events : N;
  rerouted_requests : N;
  rejected_requests : N;
}.

Definition router_new (c : RouterConfig) (g : NodeRegistry) (ms : gmap string NodeMetrics) (b : BackpressureMonitor) : RequestRouter :=
  mkRouter c g ms b ∅ 0 0 0 0 0 0 0 0 0.

Inductive route_error :=
  | QueueAtCapacity | AllBusy | NoPrefillRegistered | NoUsablePrefill
  | NoDecodeRegistered | NoUsableDecode | NotTracked (id : string).

(** ** Updates *)

Definition with_requests (f : gmap string TrackedRequest → gmap string TrackedRequest) (r : RequestRouter) : RequestRouter :=
  mkRouter (config r) (registry r) (cluster_metrics r) (backpressure r) (f (requests r)) (prefill_rr_counter r)
    (decode_rr_counter r) (total_requests r) (total_completed r) (total_failed r) (routing_decisions r)
    (failure_events r) (rerouted_requests r) (rejected_requests r).

Definition with_registry (g : NodeRegistry) (r : RequestRouter) : RequestRouter :=
  mkRouter (config r) g (cluster_metrics r) (backpressure r) (requests r) (prefill_rr_counter r)
    (decode_rr_counter r) (total_requests r) (total_completed r) (total_failed r) (routing_decisions r)
    (failure_events r) (rerouted_requests r) (rejected_requests r).

(** Counters: round-robin (prefill, decode), requests, completed, failed, decisions, failure
    events, rerouted, rejected. *)
Record Bumps := mkBumps {
  b_prefill_rr : N; b_decode_rr : N; b_requests : N; b_completed : N; b_failed : N; b_decisions : N;
  b_failures : N; b_rerouted : N; b_rejected : N;
}.

Definition bump (b : Bumps) (r : RequestRouter) : RequestRouter :=
  mkRouter (config r) (registry r) (cluster_metrics r) (backpressure r) (requests r)
    (as_u64 (prefill_rr_counter r + b_prefill_rr b)) (as_u64 (decode_rr_counter r + b_decode_rr b))
    (as_u64 (total_requests r + b_requests b)) (as_u64 (total_completed r + b_completed b))
    (as_u64 (total_failed r + b_failed b)) (as_u64 (routing_decisions r + b_decisions b))
    (as_u64 (failure_events r + b_failures b)) (as_u64 (rerouted_requests r + b_rerouted b))
    (as_u64 (rejected_requests r + b_rejected b)).

Definition set_phase (now : nat) (p : RequestPhase) (t : TrackedRequest) : TrackedRequest :=
  mkTracked (request_id t) p (prefill_node t) (decode_node t) (created_at t) now (prompt_len t) (retry_count t).

(** ** Selection *)

(** [min_by_key] returns the first minimum, [max_by_key] the last maximum. *)
Definition at_most {A} (f : A → N) : relation A := λ a b, (f a ≤ f b)%N.
#[global] Instance at_most_dec {A} (f : A → N) a b : Decision (at_most f a b).
Proof. unfold at_most. apply _. Defined.
Definition above {A} (f : A → N) : relation A := λ a b, (f b < f a)%N.
#[global] Instance above_dec {A} (f : A → N) a b : Decision (above f a b).
Proof. unfold above. apply _. Defined.

Definition min_by_key {A} (f : A → N) (l : list A) : option A := min_by (at_most f) l.
Definition max_by_key {A} (f : A → N) (l : list A) : option A := min_by (above f) l.

Definition usable (n : NodeLoadInfo) : Prop := li_online n = true ∧ li_load_level n ≠ Some Critical.
#[global] Instance usable_dec n : Decision (usable n).
Proof. unfold usable. apply _. Defined.

Section router.
Context `{O : StringOrder}.

Definition get_load_infos_for_roles (roles : list NodeRole) (r : RequestRouter) : list NodeLoadInfo :=
  (λ n, let c := node_config n in
        let m := cluster_metrics r !! node_id c in
        mkLoadInfo (node_id c) (role c) (from_option active_requests 0%N m) (from_option memory_used_bytes 0%N m)
          (from_option memory_total_bytes 0%N m) (bool_decide (node_status n = Online)) (get_load_level (node_id c) (backpressure r))) <$>
  filter (λ n, role (node_config n) ∈ roles) (all_nodes (registry r)).

Definition get_prefill_load_infos : RequestRouter → list NodeLoadInfo := get_load_infos_for_roles [Prefill; Hybrid].
Definition get_decode_load_infos : RequestRouter → list NodeLoadInfo := get_load_infos_for_roles [Decode; Hybrid].

(** [online[counter.fetch_add(1) % online.len()]] *)
Definition at_turn (counter : N) (online : list NodeLoadInfo) : option NodeLoadInfo :=
  online !! (N.to_nat counter `mod` length online).

Definition select_prefill_node (candidates : list NodeLoadInfo) (len : nat) : M RequestRouter route_error string :=
  let online := filter usable candidates in
  if decide (online = []) then throw NoUsablePrefill
  else
    r ← get;
    match prefill_strategy (config r) with
    | RoundRobin =>
      _ ← modify (bump (mkBumps 1 0 0 0 0 0 0 0 0));
      n ← index (at_turn (prefill_rr_counter r) online); mret (li_node_id n)
    | LeastLoaded => n ← index (min_by_key li_active_requests online); mret (li_node_id n)
    | MemoryAware => n ← index (max_by_key free_memory online); mret (li_node_id n)
    | PromptLengthAware =>
      if decide (long_prompt_threshold (config r) ≤ len)
      then n ← index (max_by_key free_memory online); mret (li_node_id n)
      else n ← index (min_by_key li_active_requests online); mret (li_node_id n)
    end.

Definition select_decode_node (candidates : list NodeLoadInfo) : M RequestRouter route_error string :=
  let online := filter usable candidates in
  if decide (online = []) then throw NoUsableDecode
  else
    r ← get;
    match decode_strategy (config r) with
    | RoundRobin =>
      _ ← modify (bump (mkBumps 0 1 0 0 0 0 0 0 0));
      n ← index (at_turn (decode_rr_counter r) online); mret (li_node_id n)
    | LeastLoaded => n ← index (min_by_key li_active_requests online); mret (li_node_id n)
    | MemoryAware | PromptLengthAware => n ← index (max_by_key free_memory online); mret (li_node_id n)
    end.

(** ** Admission and routing *)

Definition queued (m : gmap string TrackedRequest) : nat := size (filter (λ x, is_queued (phase x.2) = true) m).

Definition apply_backpressure (r : RequestRouter) : RequestRouter * BackpressureAction :=
  if decide (prefill_queue_capacity (config r) ≤ queued (requests r))
  then (bump (mkBumps 0 0 0 0 0 0 0 0 1) r, RejectRequest "prefill queue at capacity")
  else if decide (Exists usable (get_prefill_load_infos r)) then (r, Accept) else (r, Queue).

(** Terminal entries are dropped from the given age on. *)
Definition kept (now age : nat) (t : TrackedRequest) : bool := if is_terminal (phase t) then now - created_at t <? age else true.

Definition purge (now age : nat) : gmap string TrackedRequest → gmap string TrackedRequest :=
  filter (λ x, kept now age x.2 = true).

Definition maybe_auto_purge (now : nat) (c : RouterConfig) (m : gmap string TrackedRequest) : gmap string TrackedRequest :=
  let max := max_tracked_requests c in
  if decide (max = 0 ∨ size m ≤ max) then m else purge now (auto_purge_age c) m.

Definition route_to_prefill (now : nat) (id : string) (len : nat) : M RequestRouter route_error string :=
  _ ← modify (bump (mkBumps 0 0 1 0 0 0 0 0 0));
  r ← get;
  if decide (prefill_queue_capacity (config r) ≤ queued (requests r)) then
    _ ← modify (bump (mkBumps 0 0 0 0 0 0 0 0 1)); throw QueueAtCapacity
  else
    let prefill_nodes := get_prefill_load_infos r in
    if decide (¬ Exists usable prefill_nodes) then
      _ ← modify (with_requests (λ m, maybe_auto_purge now (config r) (<[id := tracked_new now id len]> m))); throw AllBusy
    else if decide (prefill_nodes = []) then throw NoPrefillRegistered
    else
      selected ← select_prefill_node prefill_nodes len;
      _ ← modify (bump (mkBumps 0 0 0 0 0 1 0 0 0));
      _ ← modify (with_requests (λ m, maybe_auto_purge now (config r)
            (<[id := mkTracked id (Prefilling selected) (Some selected) None now now len 0]> m)));
      mret selected.

(** [route_to_decode] selects before it takes the lock on the requests: two steps. *)
Definition decode_select : M RequestRouter route_error string :=
  r ← get;
  let decode_nodes := get_decode_load_infos r in
  if decide (decode_nodes = []) then throw NoDecodeRegistered
  else selected ← select_decode_node decode_nodes; _ ← modify (bump (mkBumps 0 0 0 0 0 1 0 0 0)); mret selected.

Definition decode_commit (now : nat) (id selected : string) : M RequestRouter route_error () := λ r,
  match requests r !! id with
  | Some t =>
    let t' := mkTracked (request_id t) (TransferringCache (default "unknown" (prefill_node t)) selected) (prefill_node t)
                (Some selected) (created_at t) now (prompt_len t) (retry_count t) in
    (with_requests <[id := t']> r, Ok tt)
  | None => (r, Err (NotTracked id))
  end.

Definition route_to_decode (now : nat) (id : string) : M RequestRouter route_error string :=
  selected ← decode_select; _ ← decode_commit now id selected; mret selected.

(** ** Phases *)

Definition update_phase (now : nat) (id : string) (p : RequestPhase) (r : RequestRouter) : RequestRouter * bool :=
  match requests r !! id with
  | Some t =>
    if is_terminal (phase t) then (r, false)
    else
      let r := match p with
               | Completed => bump (mkBumps 0 0 0 1 0 0 0 0 0) r
               | Failed _ => bump (mkBumps 0 0 0 0 1 0 0 0 0) r
               | _ => r
               end in
      (with_requests <[id := set_phase now p t]> r, true)
  | None => (r, false)
  end.

Definition mark_decoding (now : nat) (id node : string) := update_phase now id (Decoding node).
Definition mark_completed (now : nat) (id : string) := update_phase now id Completed.
Definition mark_failed (now : nat) (id reason : string) := update_phase now id (Failed reason).

(** ** Node failure *)

Definition affected_by (failed : string) (p : RequestPhase) : bool :=
  match p with
  | Prefilling n | Decoding n => bool_decide (n = failed)
  | TransferringCache a b => bool_decide (a = failed) || bool_decide (b = failed)
  | _ => false
  end.

Definition candidates (role : NodeRole) (failed : string) (r : RequestRouter) : list string :=
  (λ n, node_id (node_config n)) <$>
  filter (λ n, node_status n = Online ∧ node_id (node_config n) ≠ failed ∧
               is_critical (node_id (node_config n)) (backpressure r) = false)
    (nodes_with_role role (registry r) ++ nodes_with_role Hybrid (registry r)).

(** The variables of the loop. *)
Record Reroute := mkReroute { rr_requests : gmap string TrackedRequest; rr_prefill : nat; rr_decode : nat; rr_rerouted : nat; rr_failed : nat }.

Definition retried (now : nat) (p : RequestPhase) (pn dn : option string) (t : TrackedRequest) : TrackedRequest :=
  mkTracked (request_id t) p pn dn (created_at t) now (prompt_len t) (as_u32 (retry_count t + 1)).

(** [c[k % c.len()]] of a list that is not empty. *)
Definition turn (k : nat) (c : list string) : option string := c !! (k `mod` length c).

Definition reroute_one (now : nat) (failed : string) (prefill decode : list string) (x : Reroute) (key : string) : Reroute :=
  match rr_requests x !! key with
  | None => x
  | Some t =>
    match phase t with
    | Prefilling _ =>
      match turn (rr_prefill x) prefill with
      | Some alt => mkReroute (<[key := retried now (Prefilling alt) (Some alt) (decode_node t) t]> (rr_requests x))
                      (S (rr_prefill x)) (rr_decode x) (S (rr_rerouted x)) (rr_failed x)
      | None => mkReroute (<[key := retried now Queued (prefill_node t) (decode_node t) t]> (rr_requests x))
                  (rr_prefill x) (rr_decode x) (S (rr_rerouted x)) (rr_failed x)
      end
    | TransferringCache _ _ =>
      match turn (rr_prefill x) prefill with
      | Some alt => mkReroute (<[key := retried now (Prefilling alt) (Some alt) None t]> (rr_requests x))
                      (S (rr_prefill x)) (rr_decode x) (S (rr_rerouted x)) (rr_failed x)
      | None => mkReroute (<[key := retried now Queued None None t]> (rr_requests x))
                  (rr_prefill x) (rr_decode x) (S (rr_rerouted x)) (rr_failed x)
      end
    | Decoding _ =>
      match turn (rr_decode x) decode with
      | Some alt => mkReroute (<[key := retried now (Decoding alt) (prefill_node t) (Some alt) t]> (rr_requests x))
                      (rr_prefill x) (S (rr_decode x)) (S (rr_rerouted x)) (rr_failed x)
      | None =>
        mkReroute (<[key := mkTracked (request_id t) (Failed ("node " +:+ failed +:+ " failed; no alternative decode node"))
                              (prefill_node t) (decode_node t) (created_at t) (phase_started_at t) (prompt_len t) (retry_count t)]>
                     (rr_requests x))
          (rr_prefill x) (rr_decode x) (rr_rerouted x) (S (rr_failed x))
      end
    | _ => x
    end
  end.

Definition affected (failed : string) (m : gmap string TrackedRequest) : list string :=
  fst <$> filter (λ x, is_terminal (phase x.2) = false ∧ affected_by failed (phase x.2) = true) (str_iter m).

Definition handle_node_failure (now : nat) (failed : string) (r : RequestRouter) : RequestRouter * (nat * nat) :=
  let r := bump (mkBumps 0 0 0 0 0 0 1 0 0) r in
  let x := foldl (reroute_one now failed (candidates Prefill failed r) (candidates Decode failed r))
             (mkReroute (requests r) 0 0 0 0) (affected failed (requests r)) in
  (bump (mkBumps 0 0 0 0 (N.of_nat (rr_failed x)) 0 0 (N.of_nat (rr_rerouted x)) 0) (with_requests (λ _, rr_requests x) r),
   (rr_rerouted x, rr_failed x)).

(** ** Queries and purging *)

Definition get_phase (id : string) (r : RequestRouter) : option RequestPhase := phase <$> requests r !! id.

(** The requests in each phase that is not terminal, and the snapshot of the metrics. *)
Inductive PhaseKey := KQueued | KPrefilling | KTransferring | KDecoding.

#[global] Instance PhaseKey_eq_dec : EqDecision PhaseKey.
Proof. solve_decision. Defined.

Definition phase_key (p : RequestPhase) : option PhaseKey :=
  match p with
  | Queued => Some KQueued
  | Prefilling _ => Some KPrefilling
  | TransferringCache _ _ => Some KTransferring
  | Decoding _ => Some KDecoding
  | _ => None
  end.

Definition phase_counts (r : RequestRouter) (k : PhaseKey) : nat :=
  size (filter (λ x, is_terminal (phase x.2) = false ∧ phase_key (phase x.2) = Some k) (requests r)).

Record RouterMetrics := mkRouterMetrics {
  m_total_requests : N; m_total_completed : N; m_total_failed : N;
  prefill_queue_depth : nat; decode_queue_depth : nat; active_prefills : nat; active_decodes : nat;
  m_routing_decisions : N; m_failure_events : N; m_rerouted_requests : N; m_rejected_requests : N;
}.

Definition metrics (r : RequestRouter) : RouterMetrics :=
  mkRouterMetrics (total_requests r) (total_completed r) (total_failed r) (phase_counts r KQueued) (phase_counts r KTransferring)
    (phase_counts r KPrefilling) (phase_counts r KDecoding) (routing_decisions r) (failure_events r) (rerouted_requests r)
    (rejected_requests r).

Definition collect_timed_out (now : nat) (r : RequestRouter) : list string :=
  (λ x : string * TrackedRequest, request_id x.2) <$>
  filter (λ x, is_terminal (phase x.2) = false ∧
               (phase_timeout (config r) < now - phase_started_at x.2 ∨ request_timeout (config r) < now - created_at x.2))
    (str_iter (requests r)).

Definition purge_terminal (now max_age : nat) (r : RequestRouter) : RequestRouter * nat :=
  let r' := with_requests (purge now max_age) r in (r', size (requests r) - size (requests r')).
End router.

(** ** The front end *)

(** The registry is shared with the router: one copy, in [router]. [pending] has the ids with a
    result channel. *)
Record RouterState := mkFront {
  pending : gset N;
  next_id : N;
  reply_to : string;
  router : RequestRouter;
  prefill_fallback : list string;
  prefill_hits : gmap string N;
  decode_hits : gmap string N;
}.

Record PrefillTarget := mkPrefillTarget { pt_node_id : option string; pt_addr : string }.
Record DecodeTarget := mkDecodeTarget { dt_node_id : string; dt_addr : string }.

Definition with_router (f : RequestRouter → RequestRouter) (s : RouterState) : RouterState :=
  mkFront (pending s) (next_id s) (reply_to s) (f (router s)) (prefill_fallback s) (prefill_hits s) (decode_hits s).
Definition with_pending (f : gset N → gset N) (s : RouterState) : RouterState :=
  mkFront (f (pending s)) (next_id s) (reply_to s) (router s) (prefill_fallback s) (prefill_hits s) (decode_hits s).
Definition hit_prefill (id : string) (s : RouterState) : RouterState :=
  mkFront (pending s) (next_id s) (reply_to s) (router s) (prefill_fallback s)
    (<[id := as_u64 (default 0%N (prefill_hits s !! id) + 1)]> (prefill_hits s)) (decode_hits s).
Definition hit_decode (id : string) (s : RouterState) : RouterState :=
  mkFront (pending s) (next_id s) (reply_to s) (router s) (prefill_fallback s) (prefill_hits s)
    (<[id := as_u64 (default 0%N (decode_hits s !! id) + 1)]> (decode_hits s)).

Inductive front_error :=
  | NotInRegistry (id : string) | NoPrefillNode | NoHealthyPrefill (e : route_error)
  | Tokenize | EncodeFrame | NoHealthyAfter (attempts : nat) | NoRetry (e : front_error) | OutOfFuel.

(** [RequestId::from_string] *)
Definition request_id_from_string (id : string) : option string :=
  if decide (id = EmptyString ∨ 256 < String.length id) then None else Some id.

(** A run of a handler: the state it shares with the other tasks, and what it has sent. *)
Record Run := mkRun { front : RouterState; sends : list (string * bool) }.

Definition on_front (f : RouterState → RouterState) (x : Run) : Run := mkRun (f (front x)) (sends x).

Section front.
Context `{O : StringOrder} `{!Json PrefillRequestFrame}.

(** [RouterState::build]: all peers are online from the start, both strategies are round robins. *)
Definition router_peers (prefill_peers decode_peers : list string) : list NodeConfig :=
  imap (λ i a, ClusterConfig.mkNode ("prefill-" +:+ pretty i) a Prefill None None (mkResources 0 0)) prefill_peers ++
  imap (λ i a, ClusterConfig.mkNode ("decode-" +:+ pretty i) a Decode None None (mkResources 0 0)) decode_peers.

Definition front_config : RouterConfig :=
  let d := default_router_config in
  mkRouterConfig (prefill_queue_capacity d) (decode_queue_capacity d) RoundRobin RoundRobin (phase_timeout d) (request_timeout d)
    (long_prompt_threshold d) (max_tracked_requests d) (auto_purge_age d).

Definition build (prefill_peers decode_peers : list string) (reply_to : string) : RouterState :=
  let ns := router_peers prefill_peers decode_peers in
  let registry := from_config (mkConfig (mkMeta "mlxcel-router" 1 1 Tcp) ns) "router" in
  let registry := foldl (λ g n, (set_node_status (node_id n) Online g).1) registry ns in
  mkFront ∅ 1 reply_to (router_new front_config registry ∅ (mkMonitor default_bp_config ∅)) prefill_peers ∅ ∅.

Definition select_prefill (now : nat) (rid : string) (len : nat) (allow_fallback : bool) : M RouterState front_error PrefillTarget := λ s,
  let '(r, res) := route_to_prefill now rid len (router s) in
  (with_router (λ _, r) s,
   match res with
   | Ok id =>
     match get_node id (registry r) with
     | Some n => Ok (mkPrefillTarget (Some id) (address (node_config n)))
     | None => Err (NotInRegistry id)
     end
   | Err e =>
     if allow_fallback then
       match head (prefill_fallback s) with Some a => Ok (mkPrefillTarget None a) | None => Err NoPrefillNode end
     else Err (NoHealthyPrefill e)
   | Panic => Panic
   end).

Definition select_decode (now : nat) (rid : string) (s : RouterState) : RouterState * option DecodeTarget :=
  let '(r, res) := route_to_decode now rid (router s) in
  (with_router (λ _, r) s,
   match res with Ok id => n ← get_node id (registry r); Some (mkDecodeTarget id (address (node_config n))) | _ => None end).

Definition finalize_request (now : nat) (response_id : string) (completed : bool) (s : RouterState) : RouterState :=
  match request_id_from_string response_id with
  | None => s
  | Some rid => with_router (λ r, if completed then (mark_completed now rid r).1 else (mark_failed now rid "router request failed" r).1) s
  end.

(** [set_node_status(Unreachable)] and [handle_node_failure] *)
Definition mark_down (now : nat) (id : string) : RouterState → RouterState :=
  with_router (λ r, (handle_node_failure now id (with_registry (set_node_status id Unreachable (registry r)).1 r)).1).

(** Removes the channel and finishes the request. *)
Definition abandon (now : nat) (request_id : N) (response_id : string) (s : RouterState) : RouterState :=
  finalize_request now response_id false (with_pending (.∖ {[request_id]}) s).

(** The environment of a dispatch: whether the transport accepts the [k]-th send, what the other
    tasks do meanwhile, and the clock after it. *)
Context (accepts : nat → string → TransportMessage → bool) (others : nat → RouterState → RouterState) (clock : nat → nat).

Fixpoint send_loop (fuel attempt max_attempts : nat) (frame : PrefillRequestFrame) (rid response_id : string) (len : nat)
    (prefill : PrefillTarget) : M Run front_error (PrefillTarget * nat) :=
  match fuel with
  | 0 => throw OutOfFuel
  | S fuel =>
    match frame_encode frame with
    | Ok encoded =>
      let ok := accepts attempt (pt_addr prefill) encoded in
      _ ← modify (λ x, mkRun (others attempt (front x)) (sends x ++ [(pt_addr prefill, ok)]));
      let now := clock attempt in
      if ok then mret (prefill, now)
      else
        _ ← modify (on_front (match pt_node_id prefill with Some id => mark_down now id | None => id end));
        if decide (max_attempts ≤ S attempt) then
          _ ← modify (on_front (abandon now (pf_request_id frame) response_id)); throw (NoHealthyAfter (S attempt))
        else λ x,
          match select_prefill now rid len false (front x) with
          | (s, Ok next) => send_loop fuel (S attempt) max_attempts frame rid response_id len next (mkRun s (sends x))
          | (s, Err e) => (mkRun (abandon now (pf_request_id frame) response_id s) (sends x), Err (NoRetry e))
          | (s, Panic) => (mkRun s (sends x), Panic)
          end
    | _ => _ ← modify (on_front (abandon (clock attempt) (pf_request_id frame) response_id)); throw EncodeFrame
    end
  end.

(** [start_handoff]; [fresh] is the id drawn when the response id is none. *)
Definition start_handoff (now : nat) (encode : string → bool → option (list N)) (fresh : string) (prompt : string) (request_id : N)
    (response_id : string) (sampling : SamplingConfig) (max_tokens : N) : M Run front_error nat := λ x,
  match encode prompt (negb (String.prefix "<bos>" prompt) && negb (String.prefix "<s>" prompt)) with
  | None => (x, Err Tokenize)
  | Some toks =>
    let token_ids := (λ t, as_i32 (Z.of_N t)) <$> toks in
    let prompt_tokens := length token_ids in
    let rid := default fresh (request_id_from_string response_id) in
    match select_prefill now rid prompt_tokens true (front x) with
    | (s, Ok prefill) =>
      let '(s, decode) := select_decode now rid s in
      let s := with_pending (λ p, p ∪ {[request_id]}) s in
      let frame := mkPrefillFrame request_id token_ids (sampling_to_serializable sampling) max_tokens (reply_to s) (dt_addr <$> decode) in
      let max_attempts := length (nodes_with_role Prefill (registry (router s))) `max` 1 in
      (sent ← send_loop max_attempts 0 max_attempts frame rid response_id prompt_tokens prefill;
       _ ← modify (on_front (match pt_node_id (fst sent) with Some id => hit_prefill id | None => id end));
       _ ← modify (on_front (match decode with
                             | Some d => λ s, with_router (λ r, (mark_decoding (snd sent) rid (dt_node_id d) r).1) (hit_decode (dt_node_id d) s)
                             | None => id
                             end));
       mret prompt_tokens) (mkRun s (sends x))
    | (s, Err e) => (mkRun s (sends x), Err e)
    | (s, Panic) => (mkRun s (sends x), Panic)
    end
  end.

(** The probe of the [k]-th node of the snapshot a health cycle works on. No lock is held while
    the connection is awaited, nor between the status change and the re-routing: the other tasks
    may run at both places. The branch depends on the status in the snapshot, not on the
    current one. *)
Definition set_status (id : string) (st : NodeStatus) : RouterState → RouterState :=
  with_router (λ r, with_registry (set_node_status id st (registry r)).1 r).

Definition fail_over (now : nat) (id : string) : RouterState → RouterState :=
  with_router (λ r, (handle_node_failure now id r).1).

Definition probe (alive : nat → string → bool) (k : nat) (s : RouterState) (n : RegisteredNode) : RouterState :=
  let id := node_id (node_config n) in
  let s := others (2 * k) s in
  match alive k (address (node_config n)), node_status n with
  | false, Online => fail_over (clock k) id (others (2 * k + 1) (set_status id Unreachable s))
  | true, Unreachable => set_status id Online s
  | _, _ => s
  end.

Fixpoint probe_all (alive : nat → string → bool) (k : nat) (s : RouterState) (ns : list RegisteredNode) : RouterState :=
  match ns with
  | [] => s
  | n :: ns => probe_all alive (S k) (probe alive k s n) ns
  end.

(** A cycle: the nodes of the snapshot one after the other, then the purge. *)
Definition health_cycle (alive : nat → string → bool) (s : RouterState) : RouterState :=
  let ns := all_nodes (registry (router s)) in
  with_router (λ r, (purge_terminal (clock (length ns)) (auto_purge_age (config r)) r).1) (probe_all alive 0 s ns).
End front.

(** ** Shares of a round robin *)

Lemma count_residues c n i : i < c →
  length (filter (λ k, k `mod` c = i) (seq 0 n)) = n `div` c + (if decide (i < n `mod` c) then 1 else 0).
Proof.
  intros Hi. induction n as [|n IH].
  { rewrite Nat.Div0.div_0_l, Nat.Div0.mod_0_l. by rewrite decide_False by lia. }
  rewrite seq_S, filter_app, length_app, IH, filter_cons, filter_nil. cbn [plus].
  pose proof (Nat.div_mod_eq n c) as En. pose proof (Nat.mod_upper_bound n c ltac:(lia)) as Hm.
  destruct (decide (S (n `mod` c) = c)) as [Ec|Ec].
  - assert (S n `div` c = S (n `div` c) ∧ S n `mod` c = 0) as [-> ->].
    { assert (S n = S (n `div` c) * c + 0) as E by nia. split.
      - symmetry. apply (Nat.div_unique _ _ _ 0); lia.
      - symmetry. apply (Nat.mod_unique _ _ (S (n `div` c))); lia. }
    repeat destruct (decide _); cbn; lia.
  - assert (S n `div` c = n `div` c ∧ S n `mod` c = S (n `mod` c)) as [-> ->].
    { split.
      - symmetry. apply (Nat.div_unique _ _ _ (S (n `mod` c))); lia.
      - symmetry. apply (Nat.mod_unique _ _ (n `div` c)); lia. }
    repeat destruct (decide _); cbn; lia.
Qed.

Lemma filter_by_index {A} (Q : A → Prop) (R : nat → Prop) `{!∀ x, Decision (Q x), !∀ k, Decision (R k)} (l : list A) : ∀ k0,
  (∀ j x, l !! j = Some x → Q x ↔ R (k0 + j)) → length (filter Q l) = length (filter R (seq k0 (length l))).
Proof.
  induction l as [|x l IH]; intros k0 Hix; [done|]. cbn [length seq]. rewrite !filter_cons.
  assert (Q x ↔ R k0) as Hx by (rewrite (Hix 0 x) by done; by rewrite Nat.add_0_r).
  assert (length (filter Q l) = length (filter R (seq (S k0) (length l)))) as E.
  { apply IH. intros j y Hj. rewrite (Hix (S j) y) by done. by rewrite Nat.add_succ_r. }
  destruct (decide (Q x)), (decide (R k0)); cbn; tauto || lia.
Qed.

(** ** Node failure *)

Section failure.
Context `{O : StringOrder}.
Context (now : nat) (failed : string) (P D : list string).
Local Abbreviation step := (reroute_one now failed P D).

(** What becomes of a request when its turn has the numbers [kp] and [kd]. *)
Definition reassign (kp kd : nat) (t : TrackedRequest) : TrackedRequest :=
  match phase t with
  | Prefilling _ =>
    match turn kp P with
    | Some alt => retried now (Prefilling alt) (Some alt) (decode_node t) t
    | None => retried now Queued (prefill_node t) (decode_node t) t
    end
  | TransferringCache _ _ =>
    match turn kp P with
    | Some alt => retried now (Prefilling alt) (Some alt) None t
    | None => retried now Queued None None t
    end
  | Decoding _ =>
    match turn kd D with
    | Some alt => retried now (Decoding alt) (prefill_node t) (Some alt) t
    | None => mkTracked (request_id t) (Failed ("node " +:+ failed +:+ " failed; no alternative decode node"))
                (prefill_node t) (decode_node t) (created_at t) (phase_started_at t) (prompt_len t) (retry_count t)
    end
  | _ => t
  end.

Definition to_prefill (p : RequestPhase) : bool := match p with Prefilling _ | TransferringCache _ _ => true | _ => false end.
Definition to_decode (p : RequestPhase) : bool := match p with Decoding _ => true | _ => false end.

Lemma turn_nil k : turn k [] = None.
Proof. done. Qed.

Lemma turn_Some k c : c ≠ [] → is_Some (turn k c).
Proof. intros Hc. apply lookup_lt_is_Some. apply Nat.mod_upper_bound. by destruct c. Qed.

Lemma step_eq x key t : rr_requests x !! key = Some t → to_prefill (phase t) || to_decode (phase t) = true →
  step x key = mkReroute (<[key := reassign (rr_prefill x) (rr_decode x) t]> (rr_requests x))
    (rr_prefill x + (if to_prefill (phase t) && bool_decide (P ≠ []) then 1 else 0))
    (rr_decode x + (if to_decode (phase t) && bool_decide (D ≠ []) then 1 else 0))
    (rr_rerouted x + (if to_decode (phase t) && bool_decide (D = []) then 0 else 1))
    (rr_failed x + (if to_decode (phase t) && bool_decide (D = []) then 1 else 0)).
Proof.
  intros Hx. unfold reroute_one, reassign. rewrite Hx. destruct (phase t); cbn; try done; intros _.
  - destruct P as [|a P']; cbn; [rewrite Nat.add_0_r; f_equal; lia|].
    destruct (turn_Some (rr_prefill x) (a :: P') ltac:(done)) as [alt ->]. f_equal; lia.
  - destruct P as [|a P']; cbn; [rewrite Nat.add_0_r; f_equal; lia|].
    destruct (turn_Some (rr_prefill x) (a :: P') ltac:(done)) as [alt ->]. f_equal; lia.
  - destruct D as [|a D']; cbn; [f_equal; lia|].
    destruct (turn_Some (rr_decode x) (a :: D') ltac:(done)) as [alt ->]. f_equal; lia.
Qed.

Lemma step_untouched x key k : k ≠ key → rr_requests (step x key) !! k = rr_requests x !! k.
Proof.
  intros Hk. unfold reroute_one. destruct (rr_requests x !! key) as [t|]; [|done].
  destruct (phase t); try done; destruct (turn _ _); cbn; by rewrite lookup_insert_ne.
Qed.

Lemma fold_untouched keys : ∀ x k, k ∉ keys → rr_requests (foldl step x keys) !! k = rr_requests x !! k.
Proof.
  induction keys as [|key keys IH]; intros x k Hk; [done|]. cbn. apply not_elem_of_cons in Hk as [? Hk].
  rewrite IH by done. by apply step_untouched.
Qed.

(** Requests that [m] has in a phase that is re-routed. *)
Definition moving (m : gmap string TrackedRequest) (keys : list string) : Prop :=
  NoDup keys ∧ ∀ k, k ∈ keys → ∃ t, m !! k = Some t ∧ to_prefill (phase t) || to_decode (phase t) = true.

Definition in_phase (f : RequestPhase → bool) (m : gmap string TrackedRequest) (k : string) : bool :=
  from_option (f ∘ phase) false (m !! k).

Lemma fold_counters m keys : ∀ x, moving m keys → (∀ k, k ∈ keys → rr_requests x !! k = m !! k) →
  let x' := foldl step x keys in
  let np := length (filter (λ k, in_phase to_prefill m k = true) keys) in
  let nd := length (filter (λ k, in_phase to_decode m k = true) keys) in
  rr_prefill x' = rr_prefill x + (if decide (P = []) then 0 else np) ∧
  rr_decode x' = rr_decode x + (if decide (D = []) then 0 else nd) ∧
  rr_rerouted x' = rr_rerouted x + np + (if decide (D = []) then 0 else nd) ∧
  rr_failed x' = rr_failed x + (if decide (D = []) then nd else 0).
Proof.
  induction keys as [|k keys IH]; intros x [Hnd Hm] Hx.
  { cbn. repeat destruct (decide _); lia. }
  cbn zeta. cbn [foldl].
  apply NoDup_cons in Hnd as [Hni Hnd]. destruct (Hm k) as (t & Ht & Hph); [by left|].
  assert (rr_requests x !! k = Some t) as Hxk by (rewrite Hx by (by left); done).
  rewrite (step_eq x k t Hxk Hph).
  match goal with |- context [foldl step ?x1 keys] => destruct (IH x1) as (E1 & E2 & E3 & E4) end.
  { split; [done|]. intros k' Hk'. apply Hm. by right. }
  { intros k' Hk'. cbn. rewrite lookup_insert_ne by (by intros ->). apply Hx. by right. }
  cbn [rr_prefill rr_decode rr_rerouted rr_failed] in *. rewrite E1, E2, E3, E4, !filter_cons.
  assert (in_phase to_prefill m k = to_prefill (phase t) ∧ in_phase to_decode m k = to_decode (phase t)) as [-> ->]
    by (unfold in_phase; by rewrite Ht).
  destruct (phase t); try done; cbn; destruct (decide (P = [])) as [->|HP]; destruct (decide (D = [])) as [->|HD]; cbn;
    rewrite ?(bool_decide_eq_true_2 (P ≠ [])), ?(bool_decide_eq_true_2 (D ≠ [])), ?(bool_decide_eq_false_2 (D = [])) by done;
    repeat first [rewrite decide_True by done|rewrite decide_False by done]; cbn; split_and!; lia.
Qed.

(** The request of key [k] gets the turn of its place among those of its kind. *)
Lemma fold_lookup m l1 k l2 t : moving m (l1 ++ k :: l2) → m !! k = Some t →
  rr_requests (foldl step (mkReroute m 0 0 0 0) (l1 ++ k :: l2)) !! k =
    Some (reassign (length (filter (λ k, in_phase to_prefill m k = true) l1)) (length (filter (λ k, in_phase to_decode m k = true) l1)) t).
Proof.
  intros [Hnd Hm] Ht. apply NoDup_app in Hnd as (Hnd1 & Hdis & Hnd2). apply NoDup_cons in Hnd2 as [Hni Hnd2].
  assert (k ∉ l1) as Hk1 by (intros Hk; apply (Hdis k Hk); by left).
  assert (moving m l1) as Hm1 by (split; [done|]; intros k' Hk'; apply Hm, elem_of_app; by left).
  rewrite foldl_app. cbn [foldl]. rewrite fold_untouched by done.
  destruct (fold_counters m l1 (mkReroute m 0 0 0 0) Hm1 ltac:(done)) as (E1 & E2 & _). cbn [rr_prefill rr_decode plus] in E1, E2.
  assert (rr_requests (foldl step (mkReroute m 0 0 0 0) l1) !! k = Some t) as Hx by (by rewrite fold_untouched).
  destruct (Hm k) as (t0 & Ht0 & Hph); [apply elem_of_app; right; by left|]. rewrite Ht in Ht0. injection Ht0 as <-.
  rewrite (step_eq _ k t Hx Hph). cbn. rewrite lookup_insert_eq, E1, E2. f_equal. unfold reassign.
  destruct (phase t); try done; [destruct (decide (P = [])) as [->|]|destruct (decide (P = [])) as [->|]|destruct (decide (D = [])) as [->|]];
    by rewrite ?turn_nil.
Qed.
End failure.

Lemma filter_lookup {A} (Q : A → Prop) `{!∀ x, Decision (Q x)} (l : list A) : ∀ j x, filter Q l !! j = Some x →
  Q x ∧ ∃ l1 l2, l = l1 ++ x :: l2 ∧ length (filter Q l1) = j.
Proof.
  intros j x Hj. split; [by apply list_elem_of_lookup_2, list_elem_of_filter in Hj as [? _]|]. revert j x Hj.
  induction l as [|y l IH]; intros j x Hj; [done|]. rewrite filter_cons in Hj. destruct (decide (Q y)) as [Hy|Hy].
  - destruct j as [|j]; [injection Hj as ->; by exists [], l|].
    destruct (IH j x Hj) as (l1 & l2 & -> & <-). exists (y :: l1), l2. by rewrite filter_cons_True.
  - destruct (IH j x Hj) as (l1 & l2 & -> & <-). exists (y :: l1), l2. by rewrite filter_cons_False.
Qed.

Lemma filter_ext_in {A} (Q R : A → Prop) `{!∀ x, Decision (Q x), !∀ x, Decision (R x)} (l : list A) :
  (∀ x, x ∈ l → Q x ↔ R x) → filter Q l = filter R l.
Proof.
  induction l as [|x l IH]; intros Hl; [done|]. rewrite !filter_cons, IH by (intros y Hy; apply Hl; by right).
  assert (Q x ↔ R x) by (apply Hl; by left). destruct (decide (Q x)), (decide (R x)); tauto.
Qed.

Section correct.
Context `{O : StringOrder}.

Lemma size_filter_iter {V} (m : gmap string V) (Q : string * V → Prop) `{!∀ x, Decision (Q x)} :
  size (filter Q m) = length (filter Q (str_iter m)).
Proof.
  rewrite map_filter_alt, map_size_list_to_map; [by rewrite <-str_iter_perm|].
  eapply sublist_NoDup; [|apply fmap_sublist, sublist_filter]. apply NoDup_fst_map_to_list.
Qed.

(** The requests that are moved. *)
Definition hit (failed : string) (t : TrackedRequest) : bool := negb (is_terminal (phase t)) && affected_by failed (phase t).

Lemma hit_moves failed t : hit failed t = true → to_prefill (phase t) || to_decode (phase t) = true.
Proof. unfold hit. by destruct (phase t). Qed.

Lemma elem_of_affected failed m k : k ∈ affected failed m ↔ ∃ t, m !! k = Some t ∧ hit failed t = true.
Proof.
  unfold affected, hit. rewrite list_elem_of_fmap. split.
  - intros ([k' t] & -> & [[H1 H2] Hin]%list_elem_of_filter). apply elem_of_str_iter in Hin. exists t. cbn in *. by rewrite H1, H2.
  - intros (t & Ht & [H1 H2]%andb_true_iff). exists (k, t). split; [done|]. apply list_elem_of_filter.
    rewrite elem_of_str_iter. by rewrite negb_true_iff in H1.
Qed.

Lemma affected_moving failed m : moving m (affected failed m).
Proof.
  split.
  - eapply sublist_NoDup; [|apply fmap_sublist, sublist_filter]. apply str_iter_NoDup.
  - intros k (t & Ht & Hh)%elem_of_affected. exists t. split; [done|]. by eapply hit_moves.
Qed.

(** Counting on the map is counting on the list of the keys. *)
Lemma size_affected failed (m : gmap string TrackedRequest) (R : string → Prop) `{!∀ k, Decision (R k)} :
  size (filter (λ x, hit failed x.2 = true ∧ R x.1) m) = length (filter R (affected failed m)).
Proof.
  rewrite size_filter_iter. unfold affected. induction (str_iter m) as [|[k t] l IH]; [done|].
  rewrite !filter_cons. cbn [fst snd].
  assert (hit failed t = true ↔ is_terminal (phase t) = false ∧ affected_by failed (phase t) = true) as Hh.
  { unfold hit. by rewrite andb_true_iff, negb_true_iff. }
  destruct (decide (is_terminal _ = false ∧ _)) as [Ht|Ht].
  - rewrite fmap_cons, filter_cons. cbn [fst]. destruct (decide (R k)) as [HR|HR].
    + rewrite decide_True by tauto. cbn [length]. by rewrite IH.
    + rewrite decide_False by tauto. by rewrite IH.
  - rewrite decide_False by tauto. by rewrite IH.
Qed.

Lemma candidates_spec x failed r : registry_wf (registry r) → ∀ id, id ∈ candidates x failed r ↔
  ∃ n, nodes (registry r) !! id = Some n ∧ node_status n = Online ∧ role (node_config n) ∈ [x; Hybrid] ∧ id ≠ failed ∧
    is_critical id (backpressure r) = false.
Proof.
  intros Hwf id. unfold candidates, nodes_with_role, all_nodes. rewrite list_elem_of_fmap. split.
  - intros (n & -> & [(H1 & H2 & H3) Hn]%list_elem_of_filter). rewrite elem_of_app, !list_elem_of_filter in Hn.
    assert (role (node_config n) ∈ [x; Hybrid] ∧ n ∈ (str_iter (nodes (registry r))).*2) as [Hr Hin].
    { destruct Hn as [[-> ?]|[-> ?]]; split; try done; [by left|right; by left]. }
    apply list_elem_of_fmap in Hin as ([i n'] & -> & Hin). apply elem_of_str_iter in Hin. cbn in *.
    rewrite (Hwf _ _ Hin) in *. by exists n'.
  - intros (n & Hn & H1 & Hr & H2 & H3). exists n. pose proof (Hwf _ _ Hn) as Hid. cbn in Hid. split; [done|].
    apply list_elem_of_filter. rewrite Hid. split; [done|]. rewrite elem_of_app, !list_elem_of_filter.
    assert (n ∈ (str_iter (nodes (registry r))).*2).
    { apply list_elem_of_fmap. exists (id, n). by rewrite elem_of_str_iter. }
    rewrite !elem_of_cons in Hr. destruct Hr as [Hr|[Hr|Hr%elem_of_nil]]; [by left|by right|done].
Qed.

Lemma candidates_NoDup x failed r : x ≠ Hybrid → registry_wf (registry r) → NoDup (candidates x failed r).
Proof.
  intros Hx Hwf. unfold candidates.
  assert ((λ n, node_id (node_config n)) <$> all_nodes (registry r) = (str_iter (nodes (registry r))).*1) as E.
  { unfold all_nodes. rewrite <-list_fmap_compose. apply Forall_fmap_ext, Forall_forall. intros [i n] Hin%elem_of_str_iter.
    exact (Hwf _ _ Hin). }
  assert (NoDup ((λ n, node_id (node_config n)) <$> all_nodes (registry r))) as Hnd by (rewrite E; apply str_iter_NoDup).
  apply NoDup_fmap_2_strong.
  - intros n1 n2 [_ H1]%list_elem_of_filter [_ H2]%list_elem_of_filter Heq.
    assert (∀ n, n ∈ nodes_with_role x (registry r) ++ nodes_with_role Hybrid (registry r) → n ∈ all_nodes (registry r)) as Hin.
    { intros n [[_ ?]%list_elem_of_filter|[_ ?]%list_elem_of_filter]%elem_of_app; done. }
    apply Hin, list_elem_of_lookup in H1 as [i Hi]. apply Hin, list_elem_of_lookup in H2 as [j Hj].
    assert (i = j) as ->; [|by rewrite Hi in Hj; injection Hj].
    eapply (NoDup_lookup _ i j); [exact Hnd|by rewrite list_lookup_fmap, Hi|rewrite list_lookup_fmap, Hj; cbn; by f_equal].
  - apply NoDup_filter, NoDup_app. apply NoDup_fmap_1 in Hnd. split_and!; try by apply NoDup_filter.
    intros n [H1 _]%list_elem_of_filter [H2 _]%list_elem_of_filter. congruence.
Qed.

(** Keys that take their turns in a list of candidates share it evenly. *)
Lemma share_of (keys c : list string) (f : string → bool) (newp : string → option RequestPhase) (mk : string → RequestPhase) i id :
  Inj (=) (=) mk → NoDup c → c !! i = Some id →
  (∀ j k, filter (λ k, f k = true) keys !! j = Some k → newp k = mk <$> turn j c) →
  (∀ k, k ∈ keys → f k = false → newp k ≠ Some (mk id)) →
  let n := length (filter (λ k, f k = true) keys) in
  length (filter (λ k, newp k = Some (mk id)) keys) = n `div` length c + (if decide (i < n `mod` length c) then 1 else 0).
Proof.
  intros Hinj Hnd Hi Hturn Hout n.
  assert (i < length c) as Hlt by (by eapply lookup_lt_Some).
  rewrite <-(count_residues (length c) n i Hlt). unfold n.
  rewrite <-(filter_by_index (λ k, newp k = Some (mk id)) _ (filter (λ k, f k = true) keys) 0).
  - rewrite list_filter_filter. f_equal. apply filter_ext_in. intros k Hk.
    destruct (f k) eqn:E; [tauto|]. specialize (Hout k Hk E). naive_solver.
  - intros j k Hj. rewrite (Hturn j k Hj). unfold turn. cbn [plus]. split.
    + intros (alt & Halt & [= <-%Hinj])%fmap_Some. by eapply NoDup_lookup.
    + intros ->. by rewrite Hi.
Qed.

Definition no_alternative (failed : string) : RequestPhase := Failed ("node " +:+ failed +:+ " failed; no alternative decode node").

(** What the failure of its node makes of a request: it starts over on another prefill node,
    or waits, or continues on another decode node, or fails. *)
Definition moved_ok (now : nat) (failed : string) (P D : list string) (t t' : TrackedRequest) : Prop :=
  request_id t' = request_id t ∧ created_at t' = created_at t ∧ prompt_len t' = prompt_len t ∧
  match phase t with
  | Prefilling _ | TransferringCache _ _ =>
    phase_started_at t' = now ∧ retry_count t' = as_u32 (retry_count t + 1) ∧
    (if decide (P = []) then phase t' = Queued
     else ∃ alt, alt ∈ P ∧ phase t' = Prefilling alt ∧ prefill_node t' = Some alt) ∧
    decode_node t' = (match phase t with Prefilling _ => decode_node t | _ => None end)
  | Decoding _ =>
    prefill_node t' = prefill_node t ∧
    if decide (D = []) then phase t' = no_alternative failed ∧ retry_count t' = retry_count t ∧ decode_node t' = decode_node t
    else phase_started_at t' = now ∧ retry_count t' = as_u32 (retry_count t + 1) ∧
         ∃ alt, alt ∈ D ∧ phase t' = Decoding alt ∧ decode_node t' = Some alt
  | _ => False
  end.

Lemma turn_elem k c alt : turn k c = Some alt → alt ∈ c.
Proof. apply list_elem_of_lookup_2. Qed.

Lemma reassign_ok now failed P D kp kd t : hit failed t = true → moved_ok now failed P D t (reassign now failed P D kp kd t).
Proof.
  intros Hh%hit_moves. unfold moved_ok, reassign. destruct (phase t); try done; cbn.
  - destruct (decide (P = [])) as [->|HP]; [by rewrite turn_nil|].
    destruct (turn_Some kp P HP) as [alt Ealt]. rewrite Ealt. cbn. split_and!; try done. exists alt. eauto using turn_elem.
  - destruct (decide (P = [])) as [->|HP]; [by rewrite turn_nil|].
    destruct (turn_Some kp P HP) as [alt Ealt]. rewrite Ealt. cbn. split_and!; try done. exists alt. eauto using turn_elem.
  - destruct (decide (D = [])) as [->|HD]; [by rewrite turn_nil|].
    destruct (turn_Some kd D HD) as [alt Ealt]. rewrite Ealt. cbn. split_and!; try done. exists alt. eauto using turn_elem.
Qed.

(** Another node that can take over: online, of the role or hybrid, not in a critical state. *)
Definition alternative (x : NodeRole) (failed : string) (r : RequestRouter) (id : string) : Prop :=
  ∃ n, nodes (registry r) !! id = Some n ∧ node_status n = Online ∧ role (node_config n) ∈ [x; Hybrid] ∧ id ≠ failed ∧
    is_critical id (backpressure r) = false.

Section loop.
Context (now : nat) (failed : string) (r : RequestRouter) (Hwf : registry_wf (registry r)).
Local Abbreviation m := (requests r).
Local Abbreviation P := (candidates Prefill failed r).
Local Abbreviation D := (candidates Decode failed r).
Local Abbreviation keys := (affected failed m).
Local Abbreviation x' := (foldl (reroute_one now failed P D) (mkReroute m 0 0 0 0) keys).
Local Abbreviation new_phase := (λ k, phase <$> rr_requests x' !! k).

Lemma loop_place k t (l1 l2 : list string) : keys = l1 ++ k :: l2 → m !! k = Some t →
  rr_requests x' !! k = Some (reassign now failed P D (length (filter (λ k, in_phase to_prefill m k = true) l1))
                                (length (filter (λ k, in_phase to_decode m k = true) l1)) t).
Proof. intros E Ht. pose proof (affected_moving failed m) as Hm. rewrite E in *. by apply fold_lookup. Qed.

Lemma loop_requests id :
  match m !! id with
  | None => rr_requests x' !! id = None
  | Some t => if hit failed t then ∃ t', rr_requests x' !! id = Some t' ∧ moved_ok now failed P D t t'
              else rr_requests x' !! id = Some t
  end.
Proof.
  destruct (m !! id) as [t|] eqn:Ht.
  - destruct (hit failed t) eqn:Hh.
    + assert (id ∈ keys) as (l1 & l2 & E)%list_elem_of_split by (apply elem_of_affected; eauto).
      rewrite (loop_place id t l1 l2 E Ht). eexists. split; [done|]. by apply reassign_ok.
    + rewrite fold_untouched; [done|]. intros (t' & Ht' & Hh')%elem_of_affected. congruence.
  - rewrite fold_untouched; [done|]. intros (t' & Ht' & _)%elem_of_affected. congruence.
Qed.

Lemma loop_leaves_failed id t' : rr_requests x' !! id = Some t' → hit failed t' = false.
Proof.
  intros Ht'. pose proof (loop_requests id) as H. destruct (m !! id) as [t|]; [|congruence].
  destruct (hit failed t) eqn:Hh; [|congruence]. destruct H as (t2 & E & _ & _ & _ & H). rewrite Ht' in E. injection E as <-.
  assert (∀ x alt, alt ∈ candidates x failed r → bool_decide (alt = failed) = false) as Hne.
  { intros x alt (n & _ & _ & _ & ? & _)%candidates_spec; [|done]. by apply bool_decide_eq_false_2. }
  unfold hit. destruct (phase t); try done.
  - destruct H as (_ & _ & H & _). destruct (decide (P = [])); [by rewrite H|].
    destruct H as (alt & Halt & -> & _). cbn. by rewrite (Hne _ _ Halt).
  - destruct H as (_ & _ & H & _). destruct (decide (P = [])); [by rewrite H|].
    destruct H as (alt & Halt & -> & _). cbn. by rewrite (Hne _ _ Halt).
  - destruct H as [_ H]. destruct (decide (D = [])); [by destruct H as [-> _]|].
    destruct H as (_ & _ & alt & Halt & -> & _). cbn. by rewrite (Hne _ _ Halt).
Qed.

Lemma kind_in_phase f k : in_phase f m k = true ↔ ∃ t, m !! k = Some t ∧ f (phase t) = true.
Proof. unfold in_phase. destruct (m !! k); cbn; naive_solver. Qed.

Lemma share_kind f mk x i id : Inj (=) (=) mk → x ≠ Hybrid → candidates x failed r !! i = Some id →
  (∀ t l1, f (phase t) = true →
     Some (phase (reassign now failed P D (length (filter (λ k, in_phase to_prefill m k = true) l1))
                    (length (filter (λ k, in_phase to_decode m k = true) l1)) t)) =
     mk <$> turn (length (filter (λ k, in_phase f m k = true) l1)) (candidates x failed r)) →
  (∀ t kp kd, hit failed t = true → f (phase t) = false → phase (reassign now failed P D kp kd t) ≠ mk id) →
  let n := length (filter (λ k, in_phase f m k = true) keys) in
  let c := length (candidates x failed r) in
  length (filter (λ k, new_phase k = Some (mk id)) keys) = n `div` c + (if decide (i < n `mod` c) then 1 else 0).
Proof.
  intros Hinj Hx Hi Hin Hout. apply share_of; [done|by apply candidates_NoDup|done|..].
  - intros j k [(t & Ht & Hf)%kind_in_phase (l1 & l2 & E & <-)]%filter_lookup. rewrite (loop_place k t l1 l2 E Ht). by apply Hin.
  - intros k Hk Hf. pose proof Hk as (t & Ht & Hh)%elem_of_affected. apply list_elem_of_split in Hk as (l1 & l2 & E).
    rewrite (loop_place k t l1 l2 E Ht). intros [=Heq]. unfold in_phase in Hf. rewrite Ht in Hf. by eapply Hout.
Qed.

Lemma share_prefill id i : P !! i = Some id →
  let n := length (filter (λ k, in_phase to_prefill m k = true) keys) in
  length (filter (λ k, new_phase k = Some (Prefilling id)) keys) = n `div` length P + (if decide (i < n `mod` length P) then 1 else 0).
Proof.
  intros Hi. apply share_kind; [by intros ?? [=]|done|done|..]; unfold reassign.
  - intros t l1 Hf.
    destruct (turn_Some (length (filter (λ k, in_phase to_prefill m k = true) l1)) P) as [alt ->]; [by intros E; rewrite E in Hi|].
    by destruct (phase t).
  - intros t kp kd Hh%hit_moves Hf. destruct (phase t); try done. by destruct (turn _ _).
Qed.

Lemma share_decode id i : D !! i = Some id →
  let n := length (filter (λ k, in_phase to_decode m k = true) keys) in
  length (filter (λ k, new_phase k = Some (Decoding id)) keys) = n `div` length D + (if decide (i < n `mod` length D) then 1 else 0).
Proof.
  intros Hi. apply share_kind; [by intros ?? [=]|done|done|..]; unfold reassign.
  - intros t l1 Hf.
    destruct (turn_Some (length (filter (λ k, in_phase to_decode m k = true) l1)) D) as [alt ->]; [by intros E; rewrite E in Hi|].
    by destruct (phase t).
  - intros t kp kd Hh%hit_moves Hf. destruct (phase t); try done; by destruct (turn _ _).
Qed.

(** The requests that are moved from one kind of phase. *)
Definition moving_from (f : RequestPhase → bool) : nat := size (filter (λ x, hit failed x.2 = true ∧ f (phase x.2) = true) m).

Lemma moving_from_eq f : moving_from f = length (filter (λ k, in_phase f m k = true) keys).
Proof.
  rewrite <-size_affected. unfold moving_from. f_equal. apply map_filter_ext. intros k t Ht. cbn. unfold in_phase. by rewrite Ht.
Qed.
End loop.

Lemma one_or_the_other (a b : nat) (Q : Prop) `{!Decision Q} : a = b + (if decide Q then 1 else 0) → a = b ∨ a = S b.
Proof. destruct (decide Q); lia. Qed.

(** C19. [handle_node_failure] re-routes exactly the requests the failed node served. Every
    other request, and every finished one, is as before, and no request is added or dropped. A
    request in prefill or in transfer starts over on another prefill (or hybrid) node that is
    online and not critical, or waits if there is none; one in decoding continues on another
    decode (or hybrid) node, or fails if there is none. Afterwards no unfinished request names
    the failed node; the returned numbers and the counters are exact; and the requests are
    spread evenly: no candidate gets more than one above another. *)
Theorem handle_node_failure_correct now failed r : registry_wf (registry r) →
  let P := candidates Prefill failed r in
  let D := candidates Decode failed r in
  let '(r', (rerouted, gone)) := handle_node_failure now failed r in
  let landed p := size (filter (λ x, hit failed x.2 = true ∧ get_phase x.1 r' = Some p) (requests r)) in
  let np := moving_from failed r to_prefill in
  let nd := moving_from failed r to_decode in
  (∀ id, (id ∈ P ↔ alternative Prefill failed r id) ∧ (id ∈ D ↔ alternative Decode failed r id)) ∧
  (∀ id, match requests r !! id with
         | None => requests r' !! id = None
         | Some t => if hit failed t then ∃ t', requests r' !! id = Some t' ∧ moved_ok now failed P D t t'
                     else requests r' !! id = Some t
         end) ∧
  (∀ id t', requests r' !! id = Some t' → hit failed t' = false) ∧
  rerouted = np + (if decide (D = []) then 0 else nd) ∧ gone = (if decide (D = []) then nd else 0) ∧
  (∀ id, id ∈ P → landed (Prefilling id) = np `div` length P ∨ landed (Prefilling id) = S (np `div` length P)) ∧
  (∀ id, id ∈ D → landed (Decoding id) = nd `div` length D ∨ landed (Decoding id) = S (nd `div` length D)) ∧
  failure_events r' = as_u64 (failure_events r + 1) ∧
  rerouted_requests r' = as_u64 (rerouted_requests r + N.of_nat rerouted) ∧
  total_failed r' = as_u64 (total_failed r + N.of_nat gone).
Proof.
  intros Hwf P D.
  unfold handle_node_failure. change (candidates Prefill failed (bump _ r)) with P. change (candidates Decode failed (bump _ r)) with D.
  change (requests (bump _ r)) with (requests r).
  pose proof (fold_counters now failed P D (requests r) _ (mkReroute (requests r) 0 0 0 0) (affected_moving failed (requests r)) ltac:(done))
    as (_ & _ & E3 & E4). cbn [rr_rerouted rr_failed plus] in E3, E4. rewrite <-(moving_from_eq failed r to_prefill) in E3. rewrite <-(moving_from_eq failed r to_decode) in E3, E4.
  cbv zeta. split_and!.
  - intros id. split; by apply candidates_spec.
  - apply loop_requests.
  - by apply loop_leaves_failed.
  - exact E3.
  - exact E4.
  - intros id [i Hi]%list_elem_of_lookup. eapply one_or_the_other.
    etrans; [exact (size_affected failed (requests r) (λ k, get_phase k _ = Some (Prefilling id)))|].
    rewrite moving_from_eq. exact (share_prefill now failed r Hwf id i Hi).
  - intros id [i Hi]%list_elem_of_lookup. eapply one_or_the_other.
    etrans; [exact (size_affected failed (requests r) (λ k, get_phase k _ = Some (Decoding id)))|].
    rewrite moving_from_eq. exact (share_decode now failed r Hwf id i Hi).
  - cbn. rewrite N.add_0_r. unfold as_u64. by rewrite N.Div0.mod_mod.
  - cbn. rewrite N.add_0_r. unfold as_u64. by rewrite N.Div0.add_mod_idemp_l.
  - cbn. rewrite N.add_0_r. unfold as_u64. by rewrite N.Div0.add_mod_idemp_l.
Qed.
End correct.

(** ** Routing *)

(** The preference of a strategy among the usable nodes; [long] tells whether the prompt counts
    as long. *)
Definition prefers (s : DisaggRoutingStrategy) (long : bool) (counter : N) (online : list NodeLoadInfo) (n : NodeLoadInfo) : Prop :=
  match s, long with
  | RoundRobin, _ => at_turn counter online = Some n
  | LeastLoaded, _ | PromptLengthAware, false => ∀ n', n' ∈ online → (li_active_requests n ≤ li_active_requests n')%N
  | MemoryAware, _ | PromptLengthAware, true => ∀ n', n' ∈ online → (free_memory n' ≤ free_memory n)%N
  end.

Lemma at_turn_Some k (l : list NodeLoadInfo) : l ≠ [] → ∃ n, at_turn k l = Some n ∧ n ∈ l.
Proof.
  intros Hl. destruct (lookup_lt_is_Some_2 l (N.to_nat k `mod` length l)) as [n Hn].
  { apply Nat.mod_upper_bound. by destruct l. }
  exists n. split; [done|]. by eapply list_elem_of_lookup_2.
Qed.

(** A fold that keeps the better of two elements ends with a best one. *)
Lemma min_by_best {A} (R le : relation A) `{!∀ a b, Decision (R a b), !PreOrder le} (l : list A) :
  (∀ a b, R a b → le a b) → (∀ a b, ¬ R a b → le b a) → l ≠ [] → ∃ n, min_by R l = Some n ∧ n ∈ l ∧ ∀ n', n' ∈ l → le n n'.
Proof.
  intros H1 H2 Hl. destruct l as [|x l]; [done|]. clear Hl. cbn. eexists; split; [done|]. revert x.
  induction l as [|y l IH]; intros x; cbn [foldl].
  { split; [by left|]. intros n' ->%list_elem_of_singleton. reflexivity. }
  set (z := if decide (R x y) then x else y). destruct (IH z) as [Hin Hle].
  assert ((z = x ∨ z = y) ∧ le z x ∧ le z y) as (Hz & Hzx & Hzy).
  { unfold z. destruct (decide (R x y)); split_and!; auto; reflexivity. }
  set (w := foldl _ _ _) in *. split.
  - apply elem_of_cons in Hin as [Ew|Hw]; [|by do 2 right]. rewrite Ew. destruct Hz as [->| ->]; [by left|right; by left].
  - assert (le w z) by (apply Hle; by left). intros n' [->|[->|Hn']%elem_of_cons]%elem_of_cons; [by etrans|by etrans|].
    apply Hle. by right.
Qed.

Lemma min_by_key_Some {A} (f : A → N) l : l ≠ [] → ∃ n, min_by_key f l = Some n ∧ n ∈ l ∧ ∀ n', n' ∈ l → (f n ≤ f n')%N.
Proof.
  assert (PreOrder (λ a b, (f a ≤ f b)%N)) by (split; [intros ?; lia|intros ???; lia]).
  apply (min_by_best (at_most f) (λ a b, (f a ≤ f b)%N)); unfold at_most; intros; lia.
Qed.

Lemma max_by_key_Some {A} (f : A → N) l : l ≠ [] → ∃ n, max_by_key f l = Some n ∧ n ∈ l ∧ ∀ n', n' ∈ l → (f n' ≤ f n)%N.
Proof.
  assert (PreOrder (λ a b, (f b ≤ f a)%N)) by (split; [intros ?; lia|intros ???; lia]).
  apply (min_by_best (above f) (λ a b, (f b ≤ f a)%N)); unfold above; intros; lia.
Qed.

Section routing.
Context `{O : StringOrder}.

(** The router after a selection: only a round robin counts. *)
Definition selected_from (prefill : bool) (s : DisaggRoutingStrategy) (r : RequestRouter) : RequestRouter :=
  match s with RoundRobin => bump (if prefill then mkBumps 1 0 0 0 0 0 0 0 0 else mkBumps 0 1 0 0 0 0 0 0 0) r | _ => r end.

Lemma select_prefill_node_spec nodes len r : filter usable nodes ≠ [] →
  ∃ n, select_prefill_node nodes len r = (selected_from true (prefill_strategy (config r)) r, Ok (li_node_id n)) ∧
    n ∈ filter usable nodes ∧
    prefers (prefill_strategy (config r)) (bool_decide (long_prompt_threshold (config r) ≤ len)) (prefill_rr_counter r) (filter usable nodes) n.
Proof.
  intros Hl. unfold select_prefill_node. rewrite decide_False by done. rewrite get_bind.
  pose proof (min_by_key_Some li_active_requests _ Hl) as (a & Ea & Hina & Ha).
  pose proof (max_by_key_Some free_memory _ Hl) as (b & Eb & Hinb & Hb).
  destruct (prefill_strategy (config r)); cbn [selected_from prefers].
  - destruct (at_turn_Some (prefill_rr_counter r) _ Hl) as (n & En & Hn). rewrite modify_bind, En. by exists n.
  - rewrite Ea. by exists a.
  - rewrite Eb. by exists b.
  - destruct (decide (long_prompt_threshold (config r) ≤ len)) as [H|H].
    + rewrite bool_decide_eq_true_2, Eb by done. by exists b.
    + rewrite bool_decide_eq_false_2, Ea by done. by exists a.
Qed.

Lemma select_decode_node_spec nodes r : filter usable nodes ≠ [] →
  ∃ n, select_decode_node nodes r = (selected_from false (decode_strategy (config r)) r, Ok (li_node_id n)) ∧
    n ∈ filter usable nodes ∧ prefers (decode_strategy (config r)) true (decode_rr_counter r) (filter usable nodes) n.
Proof.
  intros Hl. unfold select_decode_node. rewrite decide_False by done. rewrite get_bind.
  pose proof (min_by_key_Some li_active_requests _ Hl) as (a & Ea & Hina & Ha).
  pose proof (max_by_key_Some free_memory _ Hl) as (b & Eb & Hinb & Hb).
  destruct (decode_strategy (config r)); cbn [selected_from prefers].
  - destruct (at_turn_Some (decode_rr_counter r) _ Hl) as (n & En & Hn). rewrite modify_bind, En. by exists n.
  - rewrite Ea. by exists a.
  - rewrite Eb. by exists b.
  - rewrite Eb. by exists b.
Qed.

(** ** Tracking *)

Lemma purge_lookup now age (m : gmap string TrackedRequest) id :
  purge now age m !! id = (m !! id) ≫= λ t, if kept now age t then Some t else None.
Proof.
  unfold purge. destruct (m !! id) as [t|] eqn:E; cbn.
  - destruct (kept now age t) eqn:Ek; [by rewrite map_lookup_filter_Some|]. apply map_lookup_filter_None. right.
    intros t' Ht' Hk. rewrite E in Ht'. injection Ht' as ->. cbn in Hk. congruence.
  - apply map_lookup_filter_None. by left.
Qed.

(** What tracking a request does to the table: the entry is there, and the others are, except
    terminal ones of the purge age when the table is above its limit. *)
Definition tracked_in (now : nat) (c : RouterConfig) (id : string) (t : TrackedRequest) (m m' : gmap string TrackedRequest) : Prop :=
  m' !! id = Some t ∧
  ∀ id', id' ≠ id → m' !! id' = m !! id' ∨
    (m' !! id' = None ∧ ∃ t', m !! id' = Some t' ∧ is_terminal (phase t') = true ∧ auto_purge_age c ≤ now - created_at t' ∧
     max_tracked_requests c ≠ 0 ∧ max_tracked_requests c < size (<[id := t]> m)).

Lemma track_spec now c id t m : is_terminal (phase t) = false → tracked_in now c id t m (maybe_auto_purge now c (<[id := t]> m)).
Proof.
  intros Ht. unfold maybe_auto_purge. destruct (decide _) as [H|H].
  { split; [apply lookup_insert_eq|]. intros id' Hne. left. by rewrite lookup_insert_ne. }
  split.
  - rewrite purge_lookup, lookup_insert_eq. cbn. unfold kept. by rewrite Ht.
  - intros id' Hne. rewrite purge_lookup, lookup_insert_ne by done. destruct (m !! id') as [t'|] eqn:E; cbn; [|by left].
    destruct (kept now (auto_purge_age c) t') eqn:Ek; [by left|]. right. split; [done|]. exists t'. unfold kept in Ek.
    destruct (is_terminal (phase t')); [|done]. apply Nat.ltb_ge in Ek. split_and!; (done || lia).
Qed.

(** Only a queued entry that is new makes the queue longer. *)
Lemma queued_insert id t m : queued (<[id := t]> m) ≤ (if is_queued (phase t) then 1 else 0) + queued m.
Proof.
  unfold queued. destruct (is_queued (phase t)) eqn:E.
  - rewrite map_filter_insert_True by done. rewrite map_size_insert. destruct (_ !! id); cbn; lia.
  - rewrite map_filter_insert_False by (cbn; by rewrite E). cbn. apply map_subseteq_size, map_filter_subseteq_mono, delete_subseteq.
Qed.

Lemma queued_purge now c m : queued (maybe_auto_purge now c m) ≤ queued m.
Proof.
  unfold maybe_auto_purge. destruct (decide _); [done|]. apply map_subseteq_size, map_filter_subseteq_mono, map_filter_subseteq.
Qed.

Lemma queued_track now c id t m :
  queued (maybe_auto_purge now c (<[id := t]> m)) ≤ (if is_queued (phase t) then 1 else 0) + queued m.
Proof. etrans; [apply queued_purge|apply queued_insert]. Qed.

Lemma selected_from_frame prefill s r : let r' := selected_from prefill s r in
  requests r' = requests r ∧ config r' = config r ∧ registry r' = registry r ∧ backpressure r' = backpressure r ∧
  as_u64 (total_requests r') = as_u64 (total_requests r).
Proof. destruct s, prefill; cbn -[as_u64]; split_and!; try done; by rewrite N.add_0_r, as_u64_mod. Qed.

(** [route_to_prefill] on every path: a request is refused, with the table unchanged, when
    the queue of waiting requests is full; it waits when no prefill-capable node is online and
    below the critical load; otherwise it goes to such a node, the one the strategy prefers (the
    turn of a round robin, the fewest active requests, the most free memory, and by the length
    of the prompt one or the other), and is tracked there. Other requests are left alone, except
    old finished ones above the table's limit. The queue never grows past its capacity, and the
    other errors of the code and its indexing cannot happen. *)
Lemma route_to_prefill_spec now id len r :
  let c := config r in
  let online := filter usable (get_prefill_load_infos r) in
  let '(r', res) := route_to_prefill now id len r in
  queued (requests r') ≤ queued (requests r) `max` prefill_queue_capacity c ∧
  total_requests r' = as_u64 (total_requests r + 1) ∧ config r' = c ∧ registry r' = registry r ∧ backpressure r' = backpressure r ∧
  match res with
  | Ok sel =>
    queued (requests r) < prefill_queue_capacity c ∧ queued (requests r') ≤ queued (requests r) ∧
    (∃ n, n ∈ online ∧ li_node_id n = sel ∧
          prefers (prefill_strategy c) (bool_decide (long_prompt_threshold c ≤ len)) (as_u64 (prefill_rr_counter r)) online n) ∧
    tracked_in now c id (mkTracked id (Prefilling sel) (Some sel) None now now len 0) (requests r) (requests r')
  | Err QueueAtCapacity =>
    prefill_queue_capacity c ≤ queued (requests r) ∧ requests r' = requests r ∧ rejected_requests r' = as_u64 (rejected_requests r + 1)
  | Err AllBusy =>
    queued (requests r) < prefill_queue_capacity c ∧ online = [] ∧ tracked_in now c id (tracked_new now id len) (requests r) (requests r')
  | _ => False
  end.
Proof.
  intros c online. unfold route_to_prefill. rewrite modify_bind, get_bind.
  set (r1 := bump _ r). change (queued (requests r1)) with (queued (requests r)). change (config r1) with c.
  change (get_prefill_load_infos r1) with (get_prefill_load_infos r).
  destruct (decide (prefill_queue_capacity c ≤ queued (requests r))) as [Hcap|Hcap].
  { rewrite modify_bind. cbn -[as_u64]. rewrite !as_u64_plus, !N.add_0_r. split_and!; (done || lia). }
  destruct (decide (¬ Exists usable (get_prefill_load_infos r))) as [Hno|Hyes].
  { rewrite modify_bind. cbn -[as_u64]. pose proof (queued_track now c id (tracked_new now id len) (requests r)) as Hq. cbn in Hq.
    split_and!; try (done || lia).
    - apply filter_none. by apply Forall_Exists_neg.
    - by apply track_spec. }
  apply dec_stable in Hyes. rewrite decide_False by (intros E; rewrite E in Hyes; by apply Exists_nil in Hyes).
  destruct (select_prefill_node_spec (get_prefill_load_infos r) len r1) as (n & En & Hin & Hbest).
  { intros E. apply Exists_exists in Hyes as (x & Hx & Hu). apply (not_elem_of_nil x). rewrite <-E. by apply list_elem_of_filter. }
  rewrite (M_bind_eq _ _ _ _ _ En), modify_bind, modify_bind. cbn [mret M_ret].
  pose proof (queued_track now c id (mkTracked id (Prefilling (li_node_id n)) (Some (li_node_id n)) None now now len 0) (requests r)) as Hq.
  destruct (selected_from_frame true (prefill_strategy (config r)) r1) as (F1 & F2 & F3 & F4 & F5). cbn in Hq. cbn -[as_u64 selected_from].
  rewrite F1, F2, F3, F4, N.add_0_r, F5. cbn -[as_u64]. split_and!; try (done || lia).
  - apply as_u64_mod.
  - exists n. split_and!; [done..|]. by rewrite <-(N.add_0_r (prefill_rr_counter r)).
  - by apply track_spec.
Qed.
End routing.

(** ** Nodes that go down *)

Section down.
Context `{O : StringOrder}.

Lemma set_node_status_wf id st g : registry_wf g → registry_wf (set_node_status id st g).1.
Proof.
  intros Hwf. unfold set_node_status. destruct (nodes g !! id) as [n|] eqn:E; [|done].
  apply map_Forall_insert_2; [|done]. exact (Hwf _ _ E).
Qed.

Lemma set_node_status_alter id st g :
  nodes (set_node_status id st g).1 = alter (λ n, mkRegistered (node_config n) st) id (nodes g).
Proof.
  unfold set_node_status. destruct (nodes g !! id) as [n|] eqn:E; cbn.
  - apply map_eq. intros i. destruct (decide (i = id)) as [->|Hne].
    + by rewrite lookup_insert_eq, lookup_alter_eq, E.
    + by rewrite lookup_insert_ne, lookup_alter_ne.
  - apply map_eq. intros i. destruct (decide (i = id)) as [->|Hne]; [by rewrite lookup_alter_eq, E|by rewrite lookup_alter_ne].
Qed.

Lemma mark_down_registry now id s : registry (router (mark_down now id s)) = (set_node_status id Unreachable (registry (router s))).1.
Proof. done. Qed.

(** The table after the fail-over of a node. *)
Lemma fail_over_requests now id s : ∀ k,
  match requests (router s) !! k with
  | None => requests (router (fail_over now id s)) !! k = None
  | Some t => if hit id t
              then ∃ t', requests (router (fail_over now id s)) !! k = Some t' ∧
                moved_ok now id (candidates Prefill id (router s)) (candidates Decode id (router s)) t t'
              else requests (router (fail_over now id s)) !! k = Some t
  end.
Proof. exact (loop_requests now id (router s)). Qed.

Lemma mark_down_requests now id s : registry_wf (registry (router s)) →
  let r := with_registry (set_node_status id Unreachable (registry (router s))).1 (router s) in
  ∀ k, match requests (router s) !! k with
       | None => requests (router (mark_down now id s)) !! k = None
       | Some t => if hit id t
                   then ∃ t', requests (router (mark_down now id s)) !! k = Some t' ∧
                     moved_ok now id (candidates Prefill id r) (candidates Decode id r) t t'
                   else requests (router (mark_down now id s)) !! k = Some t
       end.
Proof. intros Hwf r. exact (loop_requests now id r). Qed.

(** No unfinished request names [d]. *)
Definition clear_of (d : string) (s : RouterState) : Prop := ∀ k t, requests (router s) !! k = Some t → hit d t = false.

Definition offline (d : string) (s : RouterState) : Prop :=
  ∀ n, nodes (registry (router s)) !! d = Some n → node_status n ≠ Online.

(** A fail-over clears the failed node, and names no other node that is not online. *)
Lemma fail_over_leaves now id s d : registry_wf (registry (router s)) → d = id ∨ offline d s ∧ clear_of d s →
  clear_of d (fail_over now id s).
Proof.
  intros Hwf Hd k t Ht. destruct (decide (d = id)) as [->|Hne]; [exact (loop_leaves_failed now id (router s) Hwf k t Ht)|].
  destruct Hd as [|[Hoff Hd]]; [done|].
  pose proof (fail_over_requests now id s k) as Hk. destruct (requests (router s) !! k) as [t0|] eqn:E0; [|congruence].
  destruct (hit id t0) eqn:Hh; [|rewrite Ht in Hk; injection Hk as ->; by eapply Hd].
  destruct Hk as (t' & Ht' & _ & _ & _ & Hm). rewrite Ht in Ht'. injection Ht' as <-.
  assert (∀ x alt, alt ∈ candidates x id (router s) → bool_decide (alt = d) = false) as Halt.
  { intros x alt (n & Hn & Hon & _)%candidates_spec; [|done]. apply bool_decide_eq_false_2. intros ->. by eapply Hoff. }
  unfold hit. destruct (phase t0); try done.
  - destruct Hm as (_ & _ & H & _). destruct (decide _); [by rewrite H|]. destruct H as (alt & Hin & -> & _). cbn. by rewrite (Halt _ _ Hin).
  - destruct Hm as (_ & _ & H & _). destruct (decide _); [by rewrite H|]. destruct H as (alt & Hin & -> & _). cbn. by rewrite (Halt _ _ Hin).
  - destruct Hm as [_ H]. destruct (decide _); [by destruct H as [-> _]|].
    destruct H as (_ & _ & alt & Hin & -> & _). cbn. by rewrite (Halt _ _ Hin).
Qed.

(** What one probe makes of a node. *)
Definition probed (alive : string → bool) (n : RegisteredNode) : RegisteredNode :=
  mkRegistered (node_config n)
    (match alive (address (node_config n)), node_status n with
     | false, Online => Unreachable
     | true, Unreachable => Online
     | _, st => st
     end).

Definition found_dead (alive : string → bool) (n : RegisteredNode) : bool :=
  negb (alive (address (node_config n))) && bool_decide (node_status n = Online).

Lemma found_dead_iff alive n : found_dead alive n = true ↔ alive (address (node_config n)) = false ∧ node_status n = Online.
Proof. unfold found_dead. by rewrite andb_true_iff, negb_true_iff, bool_decide_eq_true. Qed.

(** What the other tasks do to the registry: they take nodes down, as a failed send does; only
    the health monitor brings one up. *)
Definition only_down (f : RouterState → RouterState) : Prop := ∀ s id,
  match nodes (registry (router s)) !! id, nodes (registry (router (f s))) !! id with
  | Some n, Some n' => node_config n' = node_config n ∧ (node_status n' = node_status n ∨ node_status n' = Unreachable)
  | None, None => True
  | _, _ => False
  end.

(** They hand no request to a node that is not online. *)
Definition names_online (f : RouterState → RouterState) : Prop := ∀ s d,
  registry_wf (registry (router s)) → offline d (f s) → clear_of d s → clear_of d (f s).

Lemma only_down_id : only_down id.
Proof. intros s i. cbn. destruct (nodes (registry (router s)) !! i); auto. Qed.

Lemma only_down_back f s id n' : only_down f → nodes (registry (router (f s))) !! id = Some n' →
  ∃ n, nodes (registry (router s)) !! id = Some n ∧ node_config n' = node_config n ∧
    (node_status n' = node_status n ∨ node_status n' = Unreachable).
Proof.
  intros Hf Hn'. specialize (Hf s id). rewrite Hn' in Hf. destruct (nodes (registry (router s)) !! id) as [n|]; [|done]. by exists n.
Qed.

Lemma only_down_wf f s : only_down f → registry_wf (registry (router s)) → registry_wf (registry (router (f s))).
Proof. intros Hf Hwf i n' Hi. destruct (only_down_back f s i n' Hf Hi) as (n & Hn & -> & _). exact (Hwf _ _ Hn). Qed.

Lemma lookup_set_status id st s i : nodes (registry (router (set_status id st s))) !! i =
  (if decide (i = id) then (λ n, mkRegistered (node_config n) st) <$> nodes (registry (router s)) !! i
   else nodes (registry (router s)) !! i).
Proof.
  cbn. rewrite set_node_status_alter. destruct (decide (i = id)) as [->|]; [apply lookup_alter_eq|by apply lookup_alter_ne].
Qed.

(** What a failed send does satisfies both. *)
Lemma mark_down_only_down now id : only_down (mark_down now id).
Proof.
  intros s i. change (nodes (registry (router (mark_down now id s)))) with (nodes (registry (router (set_status id Unreachable s)))).
  rewrite lookup_set_status. destruct (decide (i = id)); destruct (nodes (registry (router s)) !! i); cbn; auto.
Qed.

Lemma mark_down_names_online now id : names_online (mark_down now id).
Proof.
  intros s d Hwf Hoff Hd. change (mark_down now id s) with (fail_over now id (set_status id Unreachable s)).
  apply fail_over_leaves; [by apply set_node_status_wf|]. right. split; [exact Hoff|exact Hd].
Qed.

(** So does the routing of a request to a prefill node. *)
Lemma select_prefill_names_online now rid len fb : names_online (λ s, (select_prefill now rid len fb s).1).
Proof.
  intros s d Hwf Hoff Hd k t. unfold select_prefill in *. pose proof (route_to_prefill_spec now rid len (router s)) as H.
  destruct (route_to_prefill now rid len (router s)) as [r' res]. destruct H as (_ & _ & _ & Hreg & _ & H). cbn in *.
  assert (∀ t0, tracked_in now (config (router s)) rid t0 (requests (router s)) (requests r') → hit d t0 = false →
            requests r' !! k = Some t → hit d t = false) as Htr.
  { intros t0 [H1 H2] Ht0 Ht. destruct (decide (k = rid)) as [->|Hk]; [congruence|].
    destruct (H2 k Hk) as [E|[E _]]; [|congruence]. rewrite E in Ht. by eapply Hd. }
  destruct res as [sel|[]|]; try done.
  - destruct H as (_ & _ & (i & Hi & <- & _) & Ht). apply (Htr _ Ht). unfold hit. cbn. apply bool_decide_eq_false_2. intros E.
    apply list_elem_of_filter in Hi as [[Hon _] Hi]. unfold get_prefill_load_infos, get_load_infos_for_roles in Hi.
    apply list_elem_of_fmap in Hi as (n & -> & [_ Hn]%list_elem_of_filter). cbn in *.
    apply list_elem_of_fmap in Hn as ([j n'] & -> & Hn%elem_of_str_iter). pose proof (Hwf _ _ Hn) as Ej. cbn in *.
    apply (Hoff n'); [cbn; rewrite Hreg, <-E, Ej; exact Hn|by apply bool_decide_eq_true in Hon].
  - destruct H as (_ & -> & _). apply Hd.
  - destruct H as (_ & _ & Ht). by apply (Htr _ Ht).
Qed.

(** The nodes of the snapshot: each under its own id, and none twice. *)
Definition snapshot (g : gmap string RegisteredNode) (ns : list RegisteredNode) : Prop :=
  (∀ n, n ∈ ns ↔ g !! node_id (node_config n) = Some n) ∧ NoDup ((λ n, node_id (node_config n)) <$> ns).

Lemma snapshot_cut g l1 n l2 : snapshot g (l1 ++ n :: l2) →
  g !! node_id (node_config n) = Some n ∧ n ∉ l1 ∧ ∀ n2, n2 ∈ l1 → node_id (node_config n2) ≠ node_id (node_config n).
Proof.
  intros [Hin Hnd]. rewrite fmap_app, fmap_cons in Hnd. apply NoDup_app in Hnd as (_ & Hdis & _).
  assert (∀ n2, n2 ∈ l1 → node_id (node_config n2) ≠ node_id (node_config n)) as Hne.
  { intros n2 Hn2 E. apply (Hdis (node_id (node_config n))); [|by left]. rewrite <-E. by apply (list_elem_of_fmap_2 (λ n, node_id (node_config n))). }
  split_and!; [apply Hin; set_solver|intros H; by apply (Hne n H)|done].
Qed.

Section cycle.
Context (others : nat → RouterState → RouterState) (clock : nat → nat) (alive : nat → string → bool).
Context (Hdown : ∀ k, only_down (others k)).

(** The registry of a cycle on the snapshot [g] that has probed the nodes [l]: every node is as
    its probe, or the snapshot, has it, unless another task took it down. *)
Record cycle_inv (g : gmap string RegisteredNode) (l : list RegisteredNode) (s : RouterState) : Prop := {
  ci_wf : registry_wf (registry (router s));
  ci_dom : ∀ id, is_Some (nodes (registry (router s)) !! id) ↔ is_Some (g !! id);
  ci_probed : ∀ k n n', l !! k = Some n → nodes (registry (router s)) !! node_id (node_config n) = Some n' →
    node_config n' = node_config n ∧ (node_status n' = node_status (probed (alive k) n) ∨ node_status n' = Unreachable);
  ci_rest : ∀ n n', n ∉ l → g !! node_id (node_config n) = Some n → nodes (registry (router s)) !! node_id (node_config n) = Some n' →
    node_config n' = node_config n ∧ (node_status n' = node_status n ∨ node_status n' = Unreachable);
}.

Lemma others_inv f g l s : only_down f → cycle_inv g l s → cycle_inv g l (f s).
Proof.
  intros Hf [Hwf Hdom Hp Hr]. split.
  - by apply only_down_wf.
  - intros id. rewrite <-Hdom. specialize (Hf s id).
    destruct (nodes (registry (router s)) !! id), (nodes (registry (router (f s))) !! id); try done; split; by intros [].
  - intros k n n' Hk Hn'. destruct (only_down_back f s _ n' Hf Hn') as (n0 & Hn0 & -> & Hst).
    destruct (Hp k n n0 Hk Hn0) as [? ?]. destruct Hst as [->| ->]; auto.
  - intros n n' Hni Hg Hn'. destruct (only_down_back f s _ n' Hf Hn') as (n0 & Hn0 & -> & Hst).
    destruct (Hr n n0 Hni Hg Hn0) as [? ?]. destruct Hst as [->| ->]; auto.
Qed.

(** Writing the status that the probe of [n] shows. *)
Lemma status_inv g l s n : let id := node_id (node_config n) in
  g !! id = Some n → n ∉ l → (∀ n2, n2 ∈ l → node_id (node_config n2) ≠ id) → cycle_inv g l s →
  node_status n ≠ node_status (probed (alive (length l)) n) →
  cycle_inv g (l ++ [n]) (set_status id (node_status (probed (alive (length l)) n)) s).
Proof.
  intros id Hg Hni Hne [Hwf Hdom Hp Hr] Hch. split.
  - by apply set_node_status_wf.
  - intros i. rewrite lookup_set_status, <-Hdom. by destruct (decide _); [rewrite fmap_is_Some|].
  - intros k n2 n' [Hk|(Hk & E)]%lookup_snoc_Some Hn'; rewrite lookup_set_status in Hn'.
    + rewrite decide_False in Hn' by (eapply Hne, list_elem_of_lookup_2, Hk). apply (Hp k n2 n'); [apply Hk|done].
    + subst. rewrite decide_True in Hn' by done. apply fmap_Some in Hn' as (n0 & Hn0 & ->).
      destruct (Hr n2 n0 Hni Hg Hn0) as [E _]. cbn. auto.
  - intros n2 n' Hn2 Hg2 Hn'. rewrite lookup_set_status in Hn'. destruct (decide _) as [E|_].
    + exfalso. apply Hn2, elem_of_app. right. apply list_elem_of_singleton. rewrite E in Hg2. unfold id in *. congruence.
    + apply (Hr n2 n'); [set_solver|done|done].
Qed.

Lemma skip_inv g l s n : let id := node_id (node_config n) in
  g !! id = Some n → n ∉ l → cycle_inv g l s → node_status (probed (alive (length l)) n) = node_status n → cycle_inv g (l ++ [n]) s.
Proof.
  intros id Hg Hni [Hwf Hdom Hp Hr] Hch. split; [done|done|..].
  - intros k n2 n' [[_ Hk]|(-> & <-)]%lookup_snoc_Some Hn'; [by apply (Hp k)|]. rewrite Hch. by apply Hr.
  - intros n2 n' Hn2. apply Hr. set_solver.
Qed.

Lemma probe_inv g l s n : let id := node_id (node_config n) in
  g !! id = Some n → n ∉ l → (∀ n2, n2 ∈ l → node_id (node_config n2) ≠ id) → cycle_inv g l s →
  cycle_inv g (l ++ [n]) (probe others clock alive (length l) s n).
Proof.
  intros id Hg Hni Hne Hinv. apply (others_inv _ _ _ _ (Hdown (2 * length l))) in Hinv. unfold probe. fold id.
  pose proof (status_inv g l (others (2 * length l) s) n Hg Hni Hne Hinv) as Hset.
  pose proof (skip_inv g l (others (2 * length l) s) n Hg Hni Hinv) as Hskip. fold id in Hset.
  unfold probed in Hset, Hskip. cbn [node_status] in Hset, Hskip.
  destruct (alive (length l) (address (node_config n))), (node_status n); try (by apply Hskip); try (by apply Hset).
  specialize (Hset ltac:(done)). apply (others_inv _ _ _ _ (Hdown (2 * length l + 1))) in Hset. destruct Hset as [H1 H2 H3 H4]. by split.
Qed.

Lemma probe_all_app l1 : ∀ l2 k s, probe_all others clock alive k s (l1 ++ l2) =
  probe_all others clock alive (k + length l1) (probe_all others clock alive k s l1) l2.
Proof.
  induction l1 as [|n l1 IH]; intros l2 k s; cbn; [by rewrite Nat.add_0_r|]. by rewrite IH, Nat.add_succ_r.
Qed.

Lemma cycle_prefix g s l1 : cycle_inv g [] s → ∀ l2, snapshot g (l1 ++ l2) → cycle_inv g l1 (probe_all others clock alive 0 s l1).
Proof.
  intros H0. induction l1 as [|n l1 IH] using rev_ind; intros l2 Hs; [done|]. rewrite probe_all_app. cbn.
  rewrite <-app_assoc in Hs. destruct (snapshot_cut g l1 n l2 Hs) as (Hg & Hni & Hne). apply probe_inv; [done..|]. by apply (IH (n :: l2)).
Qed.

(** Once its fail-over is done, no unfinished request names a node found dead. *)
Lemma probe_clears g l s n : cycle_inv g l s → g !! node_id (node_config n) = Some n → n ∉ l →
  (∀ n2, n2 ∈ l → node_id (node_config n2) ≠ node_id (node_config n)) →
  found_dead (alive (length l)) n = true → clear_of (node_id (node_config n)) (probe others clock alive (length l) s n).
Proof.
  intros Hinv Hg Hni Hne [H1 H2]%found_dead_iff. pose proof (probe_inv g l s n Hg Hni Hne Hinv) as [Hwf _ _ _].
  unfold probe in *. rewrite H1, H2 in *. apply fail_over_leaves; [exact Hwf|by left].
Qed.

(** It stays so while the other tasks hand out nodes that are online. *)
Lemma probe_keeps_clear g l s n d : (∀ k, names_online (others k)) → cycle_inv g l s → g !! node_id (node_config n) = Some n → n ∉ l →
  (∀ n2, n2 ∈ l → node_id (node_config n2) ≠ node_id (node_config n)) → d ≠ node_id (node_config n) →
  (∀ n', nodes (registry (router s)) !! d = Some n' → node_status n' = Unreachable) →
  clear_of d s → clear_of d (probe others clock alive (length l) s n).
Proof.
  intros Hnames Hinv Hg Hni Hne Hd Hun Hclear.
  assert (∀ f s, only_down f → (∀ n', nodes (registry (router s)) !! d = Some n' → node_status n' = Unreachable) →
            ∀ n', nodes (registry (router (f s))) !! d = Some n' → node_status n' = Unreachable) as Hstay.
  { intros f s0 Hf Hun0 n' Hn'. destruct (only_down_back f s0 d n' Hf Hn') as (n0 & Hn0 & _ & [->| ->]); [by apply (Hun0 n0)|done]. }
  assert (∀ s, (∀ n', nodes (registry (router s)) !! d = Some n' → node_status n' = Unreachable) → offline d s) as Hoff.
  { intros s0 Hun0 n' Hn' Hon. by rewrite (Hun0 n' Hn') in Hon. }
  assert (∀ f s, only_down f → names_online f → registry_wf (registry (router s)) →
            (∀ n', nodes (registry (router s)) !! d = Some n' → node_status n' = Unreachable) → clear_of d s → clear_of d (f s)) as Hstep.
  { intros f s0 Hf Hn0 Hwf0 Hun0 Hc0. apply Hn0; [done| |done]. by apply Hoff, Hstay. }
  pose proof (Hstay _ _ (Hdown (2 * length l)) Hun) as Hun1.
  pose proof (Hstep _ _ (Hdown (2 * length l)) (Hnames _) (ci_wf _ _ _ Hinv) Hun Hclear) as Hc1.
  pose proof (only_down_wf _ _ (Hdown (2 * length l)) (ci_wf _ _ _ Hinv)) as Hwf1. unfold probe.
  destruct (alive (length l) (address (node_config n))), (node_status n); try exact Hc1.
  set (s1 := set_status _ Unreachable _).
  assert (registry_wf (registry (router s1))) as Hwf2 by by apply set_node_status_wf.
  assert (∀ n', nodes (registry (router s1)) !! d = Some n' → node_status n' = Unreachable) as Hun2.
  { intros n'. unfold s1. rewrite lookup_set_status, decide_False by done. apply Hun1. }
  apply fail_over_leaves; [by apply only_down_wf|]. right. split; [by apply Hoff, Hstay|]. by apply Hstep.
Qed.

Lemma stays_clear g s l n l2 : ∀ l3 k, (∀ k, names_online (others k)) → cycle_inv g [] s → snapshot g (l ++ l2 ++ l3) →
  l !! k = Some n → found_dead (alive k) n = true →
  clear_of (node_id (node_config n)) (probe_all others clock alive 0 s l) →
  clear_of (node_id (node_config n)) (probe_all others clock alive 0 s (l ++ l2)).
Proof.
  induction l2 as [|n2 l2 IH] using rev_ind; intros l3 k Hnames H0 Hs Hk Hdead Hc; [by rewrite app_nil_r|].
  rewrite app_assoc, probe_all_app. cbn [plus probe_all]. rewrite <-app_assoc in Hs. cbn [app] in Hs.
  assert (snapshot g ((l ++ l2) ++ n2 :: l3)) as Hs2 by by rewrite <-app_assoc.
  destruct (snapshot_cut g _ n2 l3 Hs2) as (Hg2 & Hni2 & Hne2). pose proof (cycle_prefix g s _ H0 _ Hs2) as Hinv2.
  apply (probe_keeps_clear g); try done.
  - intros Ed. apply (Hne2 n); [|done]. apply elem_of_app. left. by eapply list_elem_of_lookup_2.
  - intros n' Hn'. destruct (ci_probed _ _ _ Hinv2 k n n') as [_ [Hst|Hst]]; [by apply lookup_app_l_Some|done| |done].
    rewrite Hst. apply found_dead_iff in Hdead as [D1 D2]. unfold probed. cbn. by rewrite D1, D2.
  - by apply (IH (n2 :: l3) k).
Qed.

(** A request that nobody else touches and that names no node found dead. *)
Lemma probe_keeps_request s n k key t : (∀ j s, requests (router (others j s)) !! key = requests (router s) !! key) →
  (found_dead (alive k) n = true → hit (node_id (node_config n)) t = false) →
  requests (router s) !! key = Some t → requests (router (probe others clock alive k s n)) !! key = Some t.
Proof.
  intros Hkey Hh Ht. assert (requests (router (others (2 * k) s)) !! key = Some t) as Ht1 by by rewrite Hkey. unfold probe.
  destruct (alive k (address (node_config n))) eqn:E1, (node_status n) eqn:E2; try exact Ht1.
  set (s1 := others (2 * k + 1) _). assert (requests (router s1) !! key = Some t) as Ht2 by (unfold s1; rewrite Hkey; exact Ht1).
  pose proof (fail_over_requests (clock k) (node_id (node_config n)) s1 key) as Hk. rewrite Ht2 in Hk.
  rewrite Hh in Hk; [done|]. by apply found_dead_iff.
Qed.
End cycle.

Lemma all_nodes_snapshot g : registry_wf g → snapshot (nodes g) (all_nodes g).
Proof.
  intros Hwf. unfold snapshot, all_nodes. split.
  - intros n. rewrite list_elem_of_fmap. split.
    + intros ([i n'] & -> & Hi%elem_of_str_iter). cbn. pose proof (Hwf _ _ Hi) as E. cbn in E. by rewrite E.
    + intros Hn. exists (node_id (node_config n), n). by rewrite elem_of_str_iter.
  - rewrite <-list_fmap_compose. pose proof (str_iter_NoDup (nodes g)) as Hnd.
    assert ((λ x : string * RegisteredNode, node_id (node_config x.2)) <$> str_iter (nodes g) = (str_iter (nodes g)).*1) as E; [|by rewrite <-E in Hnd].
    apply list_fmap_ext. intros i [k n] Hi. apply list_elem_of_lookup_2, elem_of_str_iter in Hi. exact (Hwf _ _ Hi).
Qed.

(** C20. A health cycle, with the other tasks running whenever a connection is awaited and
    between the two steps that take a node down, over a registry that files every node under its
    id. Let the other tasks change the registry only by taking nodes down ([only_down], as a failed
    send does). Then, for the node at each place of
    the snapshot: its configuration is kept, and at the end of the cycle its status is the one
    the probe showed (unreachable if it was online and did not answer, online if it was
    unreachable and answered, and otherwise that of the snapshot) unless it has been taken down
    since; right after the fail-over of a node that did not answer no unfinished request names
    it; and none does at the end of the cycle either, although requests are re-routed to nodes
    found dead later in it, provided that the other tasks hand requests only to nodes that are
    online ([names_online]). A request that the other tasks leave alone and that names no node
    found dead is as before, unless it is an old finished one. Without [names_online] a stale
    hand-out can name the dead node again ([stale_decode_target]). *)
Theorem health_cycle_correct others clock alive s : registry_wf (registry (router s)) → (∀ k, only_down (others k)) →
  let ns := all_nodes (registry (router s)) in
  let s' := health_cycle others clock alive s in
  (∀ l1 n l2, ns = l1 ++ n :: l2 → let id := node_id (node_config n) in let k := length l1 in
     (∃ n', nodes (registry (router s')) !! id = Some n' ∧ node_config n' = node_config n ∧
        (node_status n' = node_status (probed (alive k) n) ∨ node_status n' = Unreachable)) ∧
     (found_dead (alive k) n = true →
        clear_of id (probe_all others clock alive 0 s (l1 ++ [n])) ∧ ((∀ j, names_online (others j)) → clear_of id s'))) ∧
  (∀ key t, requests (router s) !! key = Some t → (∀ j s, requests (router (others j s)) !! key = requests (router s) !! key) →
     (∀ l1 n l2, ns = l1 ++ n :: l2 → found_dead (alive (length l1)) n = true → hit (node_id (node_config n)) t = false) →
     kept (clock (length ns)) (auto_purge_age (config (router s'))) t = true → requests (router s') !! key = Some t).
Proof.
  intros Hwf Hdown ns s'. pose proof (all_nodes_snapshot _ Hwf) as Hs. fold ns in Hs. set (g := nodes (registry (router s))) in *.
  assert (cycle_inv alive g [] s) as H0.
  { split; [done|done|done|]. intros n n' _ Hg Hn'. unfold g in Hg. rewrite Hn' in Hg. injection Hg as ->. auto. }
  set (s1 := probe_all others clock alive 0 s ns).
  assert (registry (router s') = registry (router s1)) as Hreg by done.
  assert (∀ d, clear_of d s1 → clear_of d s') as Hpurge.
  { intros d Hd k t. cbn. rewrite purge_lookup. intros (t0 & Ht0 & Hk)%bind_Some. destruct (kept _ _ _); [|done].
    injection Hk as <-. by eapply Hd. }
  split.
  - intros l1 n l2 E id k. assert (snapshot g (l1 ++ n :: l2)) as Hs1 by by rewrite <-E.
    destruct (snapshot_cut g l1 n l2 Hs1) as (Hg & Hni & Hne). split.
    + destruct (cycle_prefix others clock alive Hdown g s ns H0 [] ltac:(by rewrite app_nil_r)) as [_ Hdom Hp _]. rewrite Hreg.
      destruct (proj2 (Hdom id)) as [n' Hn']; [by exists n|]. exists n'. split; [done|]. apply (Hp k n n'); [|done].
      rewrite E. by apply list_lookup_middle.
    + intros Hdead. pose proof (cycle_prefix others clock alive Hdown g s l1 H0 _ Hs1) as Hinv1.
      assert (clear_of id (probe_all others clock alive 0 s (l1 ++ [n]))) as Hc.
      { rewrite probe_all_app. cbn. by eapply probe_clears. }
      split; [done|]. intros Hnames. apply Hpurge. unfold s1. rewrite E.
      change (n :: l2) with ([n] ++ l2). rewrite app_assoc. apply (stays_clear others clock alive Hdown g s _ n l2 [] k); try done.
      * by rewrite app_nil_r, <-app_assoc.
      * by apply list_lookup_middle.
  - intros key t Ht Hkey Hsafe Hkeep.
    change (purge (clock (length ns)) (auto_purge_age (config (router s1))) (requests (router s1)) !! key = Some t). rewrite purge_lookup.
    assert (requests (router s1) !! key = Some t) as ->; [|cbn; change (config (router s')) with (config (router s1)) in Hkeep; by rewrite Hkeep].
    assert (∀ l2 l1 s0, ns = l1 ++ l2 → requests (router s0) !! key = Some t →
              requests (router (probe_all others clock alive (length l1) s0 l2)) !! key = Some t) as Hgo; [|by apply (Hgo ns [] s)].
    induction l2 as [|n l2 IH]; intros l1 s0 E Ht0; [done|]. cbn [probe_all].
    replace (S (length l1)) with (length (l1 ++ [n])) by (rewrite length_app; cbn; lia).
    apply IH; [by rewrite <-app_assoc|]. apply probe_keeps_request; [done| |done]. by apply (Hsafe l1 n l2).
Qed.
End down.

(** ** Dispatch *)

Section dispatch.
Context `{O : StringOrder}.

Lemma is_critical_level id b : is_critical id b = false ↔ get_load_level id b ≠ Some Critical.
Proof.
  unfold is_critical. destruct (get_load_level id b) as [l|]; [|by split].
  rewrite bool_decide_eq_false. split; [by intros ? [= ->]|by intros H ->].
Qed.

(** The nodes a request can be routed to. *)
Definition can_prefill (r : RequestRouter) (id : string) (n : RegisteredNode) : Prop :=
  nodes (registry r) !! id = Some n ∧ node_status n = Online ∧ role (node_config n) ∈ [Prefill; Hybrid] ∧
  is_critical id (backpressure r) = false.

Lemma load_infos_spec r id : registry_wf (registry r) →
  (∃ i, i ∈ filter usable (get_prefill_load_infos r) ∧ li_node_id i = id) ↔ ∃ n, can_prefill r id n.
Proof.
  intros Hwf. unfold get_prefill_load_infos, get_load_infos_for_roles, can_prefill. split.
  - intros (i & [[Hon Hlev] (n & -> & [Hrole Hn]%list_elem_of_filter)%list_elem_of_fmap]%list_elem_of_filter & <-). cbn in *.
    apply list_elem_of_fmap in Hn as ([k n'] & -> & Hn). apply elem_of_str_iter in Hn. cbn in *. pose proof (Hwf _ _ Hn) as E. cbn in E.
    rewrite E in *. apply bool_decide_eq_true in Hon. exists n'. by rewrite is_critical_level.
  - intros (n & Hn & Hon & Hrole & Hcrit). pose proof (Hwf _ _ Hn) as E. cbn in E. rewrite is_critical_level in Hcrit.
    eexists. rewrite list_elem_of_filter, list_elem_of_fmap. split; [split; [|exists n; split; [done|]]|].
    + split; [by apply bool_decide_eq_true|]. cbn. by rewrite E.
    + apply list_elem_of_filter. split; [done|]. apply list_elem_of_fmap. exists (id, n). by rewrite elem_of_str_iter.
    + done.
Qed.

(** A request is routed if there is room and a node that can take it. *)
Lemma select_prefill_routes now rid len fb s id n : registry_wf (registry (router s)) → can_prefill (router s) id n →
  queued (requests (router s)) < prefill_queue_capacity (config (router s)) →
  ∃ r' id' n', select_prefill now rid len fb s = (with_router (λ _, r') s, Ok (mkPrefillTarget (Some id') (address (node_config n')))) ∧
    can_prefill (router s) id' n' ∧
    registry r' = registry (router s) ∧ backpressure r' = backpressure (router s) ∧ config r' = config (router s) ∧
    queued (requests r') ≤ queued (requests (router s)).
Proof.
  intros Hwf Hcan Hq. unfold select_prefill. pose proof (route_to_prefill_spec now rid len (router s)) as H.
  destruct (route_to_prefill now rid len (router s)) as [r' res]. destruct H as (_ & _ & Hc & Hr & Hb & H).
  destruct (proj2 (load_infos_spec (router s) id Hwf) (ex_intro _ n Hcan)) as (i & Hi & _).
  destruct res as [sel|[]|]; try done.
  - destruct H as (_ & Hle & (i' & Hi' & Hsel & _) & _).
    destruct (proj1 (load_infos_spec (router s) sel Hwf)) as (n' & Hn'); [by exists i'|].
    exists r', sel, n'. unfold get_node. rewrite Hr. pose proof Hn' as (-> & _). done.
  - lia.
  - destruct H as (_ & E & _). rewrite E in Hi. by apply elem_of_nil in Hi.
Qed.

Lemma select_decode_frame now rid s :
  ∃ r', (select_decode now rid s).1 = with_router (λ _, r') s ∧
    registry r' = registry (router s) ∧ backpressure r' = backpressure (router s) ∧ config r' = config (router s) ∧
    queued (requests r') ≤ queued (requests (router s)).
Proof.
  unfold select_decode, route_to_decode.
  assert (∃ r1 res, decode_select (router s) = (r1, res) ∧ registry r1 = registry (router s) ∧ backpressure r1 = backpressure (router s) ∧
            config r1 = config (router s) ∧ requests r1 = requests (router s)) as (r1 & res & E & F1 & F2 & F3 & F4).
  { unfold decode_select. rewrite get_bind. destruct (decide _); [by eexists _, _|].
    destruct (decide (filter usable (get_decode_load_infos (router s)) = [])) as [E|E].
    - unfold select_decode_node. rewrite decide_True by done. by eexists _, _.
    - destruct (select_decode_node_spec _ (router s) E) as (n1 & En & _). rewrite (M_bind_eq _ _ _ _ _ En), modify_bind.
      destruct (selected_from_frame false (decode_strategy (config (router s))) (router s)) as (G1 & G2 & G3 & G4 & _).
      eexists _, _. split; [done|]. cbn. by rewrite G1, G2, G3, G4. }
  unfold mbind, M_bind. rewrite E. destruct res as [sel|e|]; [|by exists r1; rewrite F4..].
  unfold decode_commit. destruct (requests r1 !! rid) as [t|] eqn:Et; cbn; eexists; (split; [done|]); cbn; [|by rewrite F4].
  split_and!; try done. rewrite <-F4. apply queued_insert.
Qed.

(** Nodes that a failing send can still take down. *)
Definition prefill_up (g : NodeRegistry) : nat :=
  size (filter (λ x, role (node_config x.2) = Prefill ∧ node_status x.2 = Online) (nodes g)).

(** A node that is taken down is one less, whatever else goes down. *)
Lemma prefill_up_less f s id n : only_down f → nodes (registry (router s)) !! id = Some n → role (node_config n) = Prefill →
  node_status n = Online →
  prefill_up (set_node_status id Unreachable (registry (router (f s)))).1 < prefill_up (registry (router s)).
Proof.
  intros Hf Hn Hr Hs. unfold prefill_up. set (m1 := filter _ (nodes (registry (router s)))).
  assert (m1 !! id = Some n) as H1 by (by apply map_lookup_filter_Some).
  apply Nat.le_lt_trans with (size (delete id m1)).
  2: { rewrite map_size_delete_Some by done. assert (size m1 ≠ 0) by (intros E%map_size_empty_inv; by rewrite E in H1). lia. }
  apply map_subseteq_size, map_subseteq_spec. intros i n' [Hi [Hri Hsi]]%map_lookup_filter_Some. cbn in Hri, Hsi.
  rewrite set_node_status_alter in Hi. destruct (decide (i = id)) as [->|Hne].
  { rewrite lookup_alter_eq in Hi. apply fmap_Some in Hi as (n0 & _ & ->). done. }
  rewrite lookup_alter_ne in Hi by done. rewrite lookup_delete_ne by done.
  destruct (only_down_back f s i n' Hf Hi) as (n0 & Hn0 & Hc & [Hst|Hst]); [|congruence].
  apply map_lookup_filter_Some. cbn. destruct n', n0. cbn in *. by subst.
Qed.

Lemma prefill_up_le g : prefill_up g ≤ length (nodes_with_role Prefill g).
Proof.
  unfold prefill_up, nodes_with_role, all_nodes. rewrite size_filter_iter. induction (str_iter (nodes g)) as [|[i n] l IH]; [done|].
  rewrite fmap_cons, !filter_cons. cbn [snd]. destruct (decide (role (node_config n) = Prefill ∧ _)) as [[Hr _]|_].
  - rewrite decide_True by done. cbn. lia.
  - destruct (decide _); cbn; lia.
Qed.

(** With another node to go to, nobody has to wait. *)
Lemma queued_mark_down now id s alt : registry_wf (registry (router s)) → alt ≠ id → (∃ n, can_prefill (router s) alt n) →
  queued (requests (router (mark_down now id s))) ≤ queued (requests (router s)).
Proof.
  intros Hwf Hne (n & Hn & Hon & Hrole & Hcrit). apply map_subseteq_size, map_subseteq_spec. intros k t Ht.
  apply map_lookup_filter_Some in Ht as [Ht Hq]. apply map_lookup_filter_Some. split; [|done]. cbn in Hq.
  pose proof (mark_down_requests now id s Hwf k) as Hk. destruct (requests (router s) !! k) as [t0|]; [|congruence].
  destruct (hit id t0); [|congruence]. destruct Hk as (t' & Ht' & _ & _ & _ & Hm). rewrite Ht in Ht'. injection Ht' as <-. exfalso.
  set (r := with_registry _ _) in *.
  assert (alt ∈ candidates Prefill id r) as Halt.
  { apply candidates_spec; [by apply set_node_status_wf|]. exists n. cbn. rewrite set_node_status_alter, lookup_alter_ne by done. done. }
  destruct (phase t0); try done.
  - destruct Hm as (_ & _ & H & _). destruct (decide _) as [E|_]; [by rewrite E in Halt; apply elem_of_nil in Halt|].
    destruct H as (a & _ & H & _). by rewrite H in Hq.
  - destruct Hm as (_ & _ & H & _). destruct (decide _) as [E|_]; [by rewrite E in Halt; apply elem_of_nil in Halt|].
    destruct H as (a & _ & H & _). by rewrite H in Hq.
  - destruct Hm as [_ H]. destruct (decide _) as [_|_]; [destruct H as [H _]; by rewrite H in Hq|].
    destruct H as (_ & _ & a & _ & H & _). by rewrite H in Hq.
Qed.

Section delivery.
Context `{!Json PrefillRequestFrame}.
Context (accepts : nat → string → TransportMessage → bool) (others : nat → RouterState → RouterState) (clock : nat → nat).

(** While a request is dispatched the other tasks may track, finish and purge requests and take
    nodes down, as long as there is room in the queue and the node [gid] stays usable. No node
    comes back online meanwhile. *)
Record tolerant (gid : string) : Prop := {
  to_down : ∀ k, only_down (others k);
  to_good : ∀ k s n, can_prefill (router s) gid n → can_prefill (router (others k s)) gid n;
  to_config : ∀ k s, config (router (others k s)) = config (router s);
  to_room : ∀ k s, queued (requests (router s)) < prefill_queue_capacity (config (router s)) →
    queued (requests (router (others k s))) < prefill_queue_capacity (config (router s));
}.

(** A front end with room in the queue and a prefill node, [gid], that takes requests. *)
Record ready (gid : string) (s : RouterState) : Prop := {
  rd_wf : registry_wf (registry (router s));
  rd_roles : map_Forall (λ _ n, role (node_config n) ≠ Hybrid) (nodes (registry (router s)));
  rd_good : ∃ n, can_prefill (router s) gid n ∧ ∀ k msg, accepts k (address (node_config n)) msg = true;
  rd_room : queued (requests (router s)) < prefill_queue_capacity (config (router s));
}.

Lemma ready_frame gid s s' : ready gid s → registry (router s') = registry (router s) → backpressure (router s') = backpressure (router s) →
  config (router s') = config (router s) → queued (requests (router s')) < prefill_queue_capacity (config (router s)) → ready gid s'.
Proof.
  intros [H1 H2 (n & H3 & H4) H5] E1 E2 E3 Hq. split; [by rewrite E1|by rewrite E1| |by rewrite E3].
  exists n. unfold can_prefill in *. by rewrite E1, E2.
Qed.

Lemma ready_others gid k s : tolerant gid → ready gid s → ready gid (others k s).
Proof.
  intros [T1 T2 T3 T4] [H1 H2 (n & H3 & H4) H5]. split.
  - by apply only_down_wf.
  - intros i n' Hi. destruct (only_down_back _ _ _ _ (T1 k) Hi) as (n0 & Hn0 & -> & _). exact (H2 _ _ Hn0).
  - exists n. split; [by apply T2|done].
  - rewrite T3. by apply T4.
Qed.

Lemma ready_mark_down gid now id s : ready gid s → gid ≠ id → ready gid (mark_down now id s).
Proof.
  intros [H1 H2 (n & H3 & H4) H5] Hne. split.
  - by apply set_node_status_wf.
  - rewrite mark_down_registry, set_node_status_alter. intros i n' Hi. destruct (decide (i = id)) as [->|Hi'].
    + rewrite lookup_alter_eq in Hi. apply fmap_Some in Hi as (n0 & Hn0 & ->). exact (H2 _ _ Hn0).
    + rewrite lookup_alter_ne in Hi by done. exact (H2 _ _ Hi).
  - exists n. split; [|done]. destruct H3 as (Hn & Hrest). unfold can_prefill. rewrite mark_down_registry, set_node_status_alter.
    rewrite lookup_alter_ne by done. done.
  - eapply Nat.le_lt_trans; [by eapply queued_mark_down; eauto|done].
Qed.

Lemma can_prefill_role s gid id n : ready gid s → can_prefill (router s) id n → role (node_config n) = Prefill.
Proof.
  intros [_ H2 _ _] (Hn & _ & Hr & _). specialize (H2 _ _ Hn). cbn in H2. set_solver.
Qed.

Lemma prefill_up_pos s gid : ready gid s → 0 < prefill_up (registry (router s)).
Proof.
  intros Hr. pose proof Hr as [_ _ (n & Hc & _) _]. pose proof (can_prefill_role _ _ _ _ Hr Hc) as Hrole. destruct Hc as (Hn & Hs & _).
  pose proof (prefill_up_less id s gid n only_down_id Hn Hrole Hs). lia.
Qed.

Lemma send_loop_delivers gid frame msg rid response_id len max_attempts : frame_encode frame = Ok msg → tolerant gid →
  ∀ fuel attempt x id n, ready gid (front x) → can_prefill (router (front x)) id n →
  prefill_up (registry (router (front x))) ≤ fuel → prefill_up (registry (router (front x))) + attempt ≤ max_attempts →
  ∃ x' p t tried, send_loop accepts others clock fuel attempt max_attempts frame rid response_id len
      (mkPrefillTarget (Some id) (address (node_config n))) x = (x', Ok (p, t)) ∧
    sends x' = sends x ++ tried ++ [(pt_addr p, true)] ∧ Forall (λ y, y.2 = false) tried ∧
    length tried < prefill_up (registry (router (front x))).
Proof.
  intros Henc Hq. induction fuel as [|fuel IH]; intros attempt x id n Hr Hc Hfuel Hmax.
  { pose proof (prefill_up_pos _ _ Hr). lia. }
  pose proof (prefill_up_pos _ _ Hr) as Hpos. cbn [send_loop pt_addr]. rewrite Henc. rewrite modify_bind.
  pose proof (ready_others gid attempt (front x) Hq Hr) as Hr1.
  destruct (accepts attempt (address (node_config n)) msg) eqn:Eok.
  { eexists _, _, _, []. split; [done|]. cbn. split_and!; [done|constructor|lia]. }
  assert (gid ≠ id) as Hne.
  { intros ->. destruct Hr as [_ _ (n' & Hc' & Hacc) _]. destruct Hc as (Hn & _), Hc' as (Hn' & _). congruence. }
  rewrite modify_bind. unfold on_front. cbn [pt_node_id front sends].
  pose proof (ready_mark_down gid (clock attempt) id _ Hr1 Hne) as Hr2. set (s2 := mark_down _ _ _) in *.
  assert (prefill_up (registry (router s2)) < prefill_up (registry (router (front x)))) as Hup.
  { unfold s2. rewrite mark_down_registry. pose proof (can_prefill_role _ _ _ _ Hr Hc). destruct Hc as (Hn & Hs & _).
    by eapply prefill_up_less; [apply Hq|..]. }
  pose proof (prefill_up_pos _ _ Hr2) as Hpos2. rewrite decide_False by lia.
  pose proof Hr2 as [Hwf2 _ (n2 & Hc2 & _) Hroom2].
  destruct (select_prefill_routes (clock attempt) rid len false s2 gid n2 Hwf2 Hc2 Hroom2) as (r3 & id3 & n3 & E3 & Hc3 & F1 & F2 & F3 & F4).
  cbn [front sends]. rewrite E3.
  destruct (IH (S attempt) (mkRun (with_router (λ _, r3) s2) (sends x ++ [(address (node_config n), false)])) id3 n3)
    as (x' & p & t & tried & Ex & Es & Hf & Hl); cbn [front router with_router].
  - eapply ready_frame; [exact Hr2|done..|]. eapply Nat.le_lt_trans; [exact F4|exact Hroom2].
  - unfold can_prefill in *. cbn. by rewrite F1, F2.
  - rewrite F1. lia.
  - rewrite F1. lia.
  - rewrite Ex. exists x', p, t, ((address (node_config n), false) :: tried). split_and!; [done| |by constructor|].
    + rewrite Es. cbn. by rewrite <-app_assoc.
    + cbn in *. rewrite F1 in Hl. lia.
Qed.

(** C17. Fail-over is complete. Let a prefill node be online, below the critical load and accept
    what is sent to it, and let there be room in the queue. Then a request is dispatched: every
    send that fails takes its node out of the choice, there are as many attempts as prefill
    nodes, and so the request reaches a node that accepts it, however many others are down
    without the router knowing. All sends but the last one failed. Meanwhile the other tasks may
    do what they like with requests and take other nodes down, as long as that node stays usable
    and there is room in the queue; but no node comes back online and the configuration stays
    ([tolerant]). The registry files every node under its id. No node is
    hybrid, as in every registry the front end builds ([build_roles]): hybrid nodes are chosen
    but not counted among the attempts ([hybrid_nodes_use_up_attempts]). The prompt and the frame
    can be encoded. *)
Theorem start_handoff_delivers gid now encode fresh prompt request_id response_id sampling max_tokens x :
  tolerant gid → ready gid (front x) → (∀ f : PrefillRequestFrame, is_Some (to_vec f)) →
  (∀ special, is_Some (encode prompt special)) →
  ∃ x' n tried a,
    start_handoff accepts others clock now encode fresh prompt request_id response_id sampling max_tokens x = (x', Ok n) ∧
    sends x' = sends x ++ tried ++ [(a, true)] ∧ Forall (λ y, y.2 = false) tried ∧
    length tried < length (nodes_with_role Prefill (registry (router (front x)))).
Proof.
  intros Hq Hr Hjson Henc. unfold start_handoff.
  destruct (Henc (negb (String.prefix "<bos>" prompt) && negb (String.prefix "<s>" prompt))) as [toks ->].
  set (rid := default fresh _). set (len := length _). pose proof Hr as [Hwf _ (n & Hc & _) Hroom].
  destruct (select_prefill_routes now rid len true (front x) gid n Hwf Hc Hroom) as (r1 & id1 & n1 & E1 & Hc1 & F1 & F2 & F3 & F4).
  rewrite E1. cbv beta iota zeta. destruct (select_decode_frame now rid (with_router (λ _, r1) (front x))) as (r2 & E2 & G1 & G2 & G3 & G4).
  destruct (select_decode now rid (with_router (λ _, r1) (front x))) as [s2 dec]. cbn [fst] in E2. subst s2.
  cbn [router with_router] in G1, G2, G3, G4. set (s3 := with_pending _ _).
  assert (registry (router s3) = registry (router (front x))) as H1 by (cbn; congruence).
  assert (backpressure (router s3) = backpressure (router (front x))) as H2 by (cbn; congruence).
  assert (ready gid s3) as Hr3.
  { eapply ready_frame; [exact Hr|done|done|cbn; congruence|]. cbn. lia. }
  set (frame := mkPrefillFrame _ _ _ _ _ _). destruct (Hjson frame) as [j Hj].
  assert (frame_encode frame = Ok (Control (OPERATION PrefillRequestFrame) j)) as Hfe by (unfold frame_encode; by rewrite Hj).
  set (mx := Nat.max _ 1). pose proof (prefill_up_le (registry (router s3))) as Hle.
  destruct (send_loop_delivers gid frame _ rid response_id len mx Hfe Hq mx 0 (mkRun s3 (sends x)) id1 n1)
    as (x' & p & t & tried & Ex & Es & Hf & Hl); cbn [front] in *.
  - done.
  - unfold can_prefill in *. by rewrite H1, H2.
  - lia.
  - lia.
  - rewrite (M_bind_eq _ _ _ _ _ Ex), !modify_bind. eexists _, _, tried, (pt_addr p). split; [done|]. cbn [on_front sends].
    rewrite Es. split_and!; [done|done|]. rewrite <-H1. lia.
Qed.

(** The request of a response is not left behind unfinished. *)
Definition finished (response_id : string) (s : RouterState) : Prop :=
  ∀ rid t, request_id_from_string response_id = Some rid → requests (router s) !! rid = Some t → is_terminal (phase t) = true.

Lemma abandon_spec now request_id response_id s : let s' := abandon now request_id response_id s in
  request_id ∉ pending s' ∧ finished response_id s'.
Proof.
  unfold abandon, finalize_request, finished. destruct (request_id_from_string response_id) as [rid|] eqn:E; cbn.
  - split; [set_solver|]. intros ? t [= <-]. unfold mark_failed, update_phase.
    destruct (requests (router s) !! rid) as [t0|] eqn:Et; cbn; [|congruence].
    destruct (is_terminal (phase t0)) eqn:Eterm; cbn; [congruence|]. rewrite lookup_insert_eq. by intros [= <-].
  - split; [set_solver|done].
Qed.

Definition selection_error (e : front_error) : Prop :=
  match e with NotInRegistry _ | NoPrefillNode | NoHealthyPrefill _ => True | _ => False end.
Definition sending_error (e : front_error) : Prop :=
  match e with EncodeFrame | NoHealthyAfter _ | NoRetry _ => True | _ => False end.

Lemma select_prefill_frame now rid len fb s : let '(s', res) := select_prefill now rid len fb s in
  pending s' = pending s ∧ registry (router s') = registry (router s) ∧
  match res with Ok _ => True | Err e => selection_error e | Panic => False end.
Proof.
  unfold select_prefill. pose proof (route_to_prefill_spec now rid len (router s)) as H.
  destruct (route_to_prefill now rid len (router s)) as [r' res]. destruct H as (_ & _ & _ & Hr & _ & H). split_and!; [done|done|].
  destruct res as [sel|e|]; [by destruct (get_node _ _)| |done]. destruct fb; [by destruct (head _)|done].
Qed.

Section clean.
Context (frame : PrefillRequestFrame) (rid response_id : string) (len : nat).
Local Abbreviation request_id := (pf_request_id frame).
Context (Hothers : ∀ k s, request_id ∈ pending (others k s) ↔ request_id ∈ pending s).

Definition failed_sends (l : list (string * bool)) : Prop := Forall (λ y, y.2 = false) l.

(** The outcomes of the loop. *)
Definition loop_ok (fuel : nat) (x : Run) (y : Run * outcome front_error (PrefillTarget * nat)) : Prop :=
  ∃ tried, sends (fst y) = sends x ++ tried ∧ length tried ≤ fuel ∧
  match snd y with
  | Ok (p, _) => (request_id ∈ pending (front (fst y)) ↔ request_id ∈ pending (front x)) ∧
                 ∃ fails, tried = fails ++ [(pt_addr p, true)] ∧ failed_sends fails
  | Err e => request_id ∉ pending (front (fst y)) ∧ failed_sends tried ∧ finished response_id (front (fst y)) ∧ sending_error e
  | Panic => False
  end.

Lemma send_loop_clean max_attempts : ∀ fuel attempt x p, 0 < fuel → fuel + attempt = max_attempts →
  loop_ok fuel x (send_loop accepts others clock fuel attempt max_attempts frame rid response_id len p x).
Proof.
  induction fuel as [|fuel IH]; intros attempt x p Hpos Hmax; [lia|]. cbn [send_loop].
  destruct (frame_encode frame) as [msg|e|].
  2-3: rewrite modify_bind; destruct (abandon_spec (clock attempt) request_id response_id (front x)) as [H1 H2];
    exists []; cbn [fst snd sends on_front throw front]; rewrite app_nil_r; split_and!; (done || cbn; lia || by constructor).
  rewrite modify_bind. destruct (accepts attempt (pt_addr p) msg).
  { exists [(pt_addr p, true)]. cbn [fst snd mret M_ret sends front]. split_and!; [done|cbn; lia|apply Hothers|].
    exists []. split; [done|constructor]. }
  rewrite modify_bind. cbn [front sends on_front].
  set (s1 := match pt_node_id p with Some id => mark_down (clock attempt) id | None => id end (others attempt (front x))).
  destruct (decide (max_attempts ≤ S attempt)) as [Hlast|Hmore].
  { rewrite modify_bind. destruct (abandon_spec (clock attempt) request_id response_id s1) as [H1 H2].
    exists [(pt_addr p, false)]. cbn [fst snd throw sends front on_front]. split_and!; (done || cbn; lia || by repeat constructor). }
  unfold on_front. cbn [front sends]. fold s1.
  assert (request_id ∈ pending s1 ↔ request_id ∈ pending (front x)) as Hs1.
  { etrans; [|apply (Hothers attempt)]. unfold s1. destruct (pt_node_id p); reflexivity. }
  pose proof (select_prefill_frame (clock attempt) rid len false s1) as Hf.
  destruct (select_prefill (clock attempt) rid len false s1) as [s2 [next|e|]]; destruct Hf as (Hp & _ & Hnp); [| |done].
  - destruct (IH (S attempt) (mkRun s2 (sends x ++ [(pt_addr p, false)])) next ltac:(lia) ltac:(lia)) as (tried & E & Hl & H).
    exists ((pt_addr p, false) :: tried). cbn [sends front] in *. rewrite E, <-app_assoc. split_and!; [done|cbn; lia|].
    destruct (snd _) as [[q ?]|e|]; [|destruct H as (? & ? & ? & ?); split_and!; (done || by constructor)|done].
    destruct H as (Hin & fails & -> & Hfs). split; [by rewrite Hin, Hp|]. exists ((pt_addr p, false) :: fails).
    split; [done|by constructor].
  - destruct (abandon_spec (clock attempt) request_id response_id s2) as [H1 H2].
    exists [(pt_addr p, false)]. cbn [fst snd sends front]. split_and!; (done || cbn; lia || by repeat constructor).
Qed.
End clean.

(** C18. [start_handoff] whatever the network and the other tasks do: it tries at most as many
    sends as there are prefill nodes (at least one), never fails for want of fuel, and never
    panics. When it succeeds, its last send was accepted, every earlier one failed, and the
    channel of the request is registered. When it fails, no send was accepted, no channel stays
    behind, and once a node was selected the tracked request is finished as well. *)
Theorem start_handoff_clean now encode fresh prompt request_id response_id sampling max_tokens x :
  (∀ k s, request_id ∈ pending (others k s) ↔ request_id ∈ pending s) → request_id ∉ pending (front x) →
  let '(x', res) := start_handoff accepts others clock now encode fresh prompt request_id response_id sampling max_tokens x in
  ∃ tried, sends x' = sends x ++ tried ∧ length tried ≤ length (nodes_with_role Prefill (registry (router (front x)))) `max` 1 ∧
  match res with
  | Ok n => request_id ∈ pending (front x') ∧ ∃ fails a, tried = fails ++ [(a, true)] ∧ failed_sends fails
  | Err e =>
    request_id ∉ pending (front x') ∧ failed_sends tried ∧
    match e with
    | Tokenize | NoPrefillNode | NotInRegistry _ | NoHealthyPrefill _ => tried = []
    | OutOfFuel => False
    | _ => finished response_id (front x')
    end
  | Panic => False
  end.
Proof.
  intros Hothers Hfresh. unfold start_handoff. destruct (encode prompt _) as [toks|].
  2: { exists []. rewrite app_nil_r. split_and!; (done || cbn; lia || by constructor). }
  set (rid := default fresh _). set (len := length _).
  pose proof (select_prefill_frame now rid len true (front x)) as Hf.
  destruct (select_prefill now rid len true (front x)) as [s1 [p|e|]] eqn:Esel; destruct Hf as (Hp & Hreg & Hnp); [| |done].
  2: { exists []. cbn [sends front]. rewrite app_nil_r, Hp. split_and!; [done|cbn; lia|done|constructor|by destruct e]. }
  destruct (select_decode_frame now rid s1) as (r2 & E2 & G1 & _).
  destruct (select_decode now rid s1) as [s2 dec]. cbn [fst] in E2. subst s2.
  set (s3 := with_pending _ _). set (frame := mkPrefillFrame _ _ _ _ _ _). set (mx := Nat.max _ 1).
  assert (mx = length (nodes_with_role Prefill (registry (router (front x)))) `max` 1) as <-.
  { unfold mx. cbn. by rewrite G1, Hreg. }
  destruct (send_loop_clean frame rid response_id len Hothers mx mx 0 (mkRun s3 (sends x)) p ltac:(lia) ltac:(lia)) as (tried & E & Hl & H).
  unfold mbind, M_bind. destruct (send_loop _ _ _ _ _ _ _ _ _ _ _ _) as [x' [[q t]|e|]]; cbn [fst snd front sends] in *; [| |done].
  - exists tried. cbn. split_and!; [done|done|..].
    + assert (request_id ∈ pending (front x')) as Hin by (apply H; cbn; set_solver). by destruct dec, (pt_node_id q).
    + destruct H as (_ & fails & ? & ?). by exists fails, (pt_addr q).
  - exists tried. destruct H as (H1 & H2 & H3 & H4). split_and!; try done. by destruct e.
Qed.
End delivery.
End dispatch.

(** ** Instances *)

Lemma build_wf p d a : registry_wf (registry (router (build p d a))).
Proof.
  assert (∀ l g, registry_wf g → registry_wf (foldl (λ g n, (set_node_status (node_id n) Online g).1) g l)) as H.
  { intros l. induction l as [|n l IH]; intros g Hg; [exact Hg|]. cbn. apply IH. by apply set_node_status_wf. }
  apply H, from_config_wf.
Qed.

Lemma build_roles p d a : map_Forall (λ _ n, role (node_config n) ≠ Hybrid) (nodes (registry (router (build p d a)))).
Proof.
  set (ok := λ (g : NodeRegistry), map_Forall (λ _ n, role (node_config n) ≠ Hybrid) (nodes g)).
  assert (∀ id st g, ok g → ok (set_node_status id st g).1) as Hset.
  { intros id st g Hg i n'. rewrite set_node_status_alter. destruct (decide (i = id)) as [->|Hne].
    - rewrite lookup_alter_eq. intros (n & Hn & ->)%fmap_Some. exact (Hg _ _ Hn).
    - rewrite lookup_alter_ne by done. apply Hg. }
  assert (∀ l g, ok g → ok (foldl (λ g n, (set_node_status (node_id n) Online g).1) g l)) as H.
  { intros l. induction l as [|n l IH]; intros g Hg; [exact Hg|]. cbn. by apply IH, Hset. }
  apply H. unfold from_config. cbn [cfg_nodes cluster].
  assert (Forall (λ n, role n ≠ Hybrid) (router_peers p d)) as Hp.
  { apply Forall_app. split; apply Forall_lookup; intros i n Hi; rewrite list_lookup_imap in Hi; apply fmap_Some in Hi as (x & _ & ->); done. }
  assert (ok (mkRegistry (mkMeta "mlxcel-router" 1 1 Tcp) ∅ "router")) as H0 by apply map_Forall_empty.
  revert H0. generalize (mkRegistry (mkMeta "mlxcel-router" 1 1 Tcp) ∅ "router").
  induction Hp as [|n l Hn _ IH]; intros g Hg; [exact Hg|]. cbn [foldl]. apply IH. unfold ok, upsert_node. cbn.
  by apply map_Forall_insert_2.
Qed.

Definition demo : RouterState :=
  with_router (with_requests (λ _,
    {[ "a" := mkTracked "a" (Prefilling "prefill-0") (Some "prefill-0") None 1 1 5 0;
       "b" := mkTracked "b" (TransferringCache "prefill-0" "decode-0") (Some "prefill-0") (Some "decode-0") 1 2 7 0;
       "c" := mkTracked "c" (Decoding "decode-0") (Some "prefill-1") (Some "decode-0") 1 3 9 0 ]}))
    (build ["10.0.0.1:1"; "10.0.0.2:1"; "10.0.0.3:1"] ["10.0.1.1:1"] "10.0.2.1:1").

Lemma handle_node_failure_correct_witness :
  let '(r', n) := handle_node_failure (O := gmap_order) 9 "prefill-0" (router demo) in
  n = (2, 0) ∧ (∀ id t, requests r' !! id = Some t → hit "prefill-0" t = false).
Proof.
  pose proof (handle_node_failure_correct (O := gmap_order) 9 "prefill-0" (router demo) (build_wf _ _ _)) as H.
  assert ((handle_node_failure (O := gmap_order) 9 "prefill-0" (router demo)).2 = (2, 0)) as E by (vm_compute; reflexivity).
  destruct (handle_node_failure _ _ _) as [r' [a b]]. cbn in E. injection E as -> ->. split; [done|]. apply H.
Defined.

(** The second prefill node and the decode node are down; a failed send takes the first prefill
    node down while the monitor waits. *)
Definition two_down (_ : nat) (a : string) : bool := negb (String.eqb a "10.0.0.2:1") && negb (String.eqb a "10.0.1.1:1").
Definition one_failed_send (k : nat) : RouterState → RouterState :=
  if decide (k = 3) then mark_down (O := gmap_order) 5 "prefill-0" else id.

Lemma one_failed_send_down k : only_down (one_failed_send k).
Proof.
  unfold one_failed_send. destruct (decide (k = 3)); [apply mark_down_only_down|apply only_down_id].
Qed.

Lemma one_failed_send_online k : names_online (one_failed_send k).
Proof. unfold one_failed_send. destruct (decide (k = 3)); [apply mark_down_names_online|]. by intros s d _ _. Qed.

Lemma health_cycle_correct_witness :
  let s' := health_cycle (O := gmap_order) one_failed_send id two_down demo in
  clear_of "decode-0" s' ∧ node_status <$> nodes (registry (router s')) !! "decode-0" = Some Unreachable.
Proof.
  intros s'. destruct (health_cycle_correct (O := gmap_order) one_failed_send id two_down demo (build_wf _ _ _) one_failed_send_down) as (H1 & _).
  set (ns := all_nodes (O := gmap_order) (registry (router demo))) in *.
  set (n := mkRegistered (ClusterConfig.mkNode "decode-0" "10.0.1.1:1" Decode None None (mkResources 0 0)) Online).
  assert (ns !! 0 = Some n) as E by (vm_compute; reflexivity).
  destruct (H1 (take 0 ns) n (drop 1 ns)) as ((n' & Hn' & _ & Hst) & Hc); [symmetry; by apply take_drop_middle|].
  split; [apply Hc; [reflexivity|apply one_failed_send_online]|].
  unfold s'. change "decode-0" with (node_id (node_config n)). rewrite Hn'. cbn. by destruct Hst as [-> | ->].
Defined.

(** A decode node is chosen, found dead and cleared by the monitor, and then named again by the
    hand-over that had chosen it: nothing looks at its status. *)
Example stale_decode_target :
  let s1 := health_cycle (O := gmap_order) (λ _, id) id two_down demo in
  let s2 := with_router (λ r, (mark_decoding 9 "a" "decode-0" r).1) s1 in
  map_Forall (λ _ t, hit "decode-0" t = false) (requests (router s1)) ∧
  node_status <$> nodes (registry (router s2)) !! "decode-0" = Some Unreachable ∧
  phase <$> requests (router s2) !! "a" = Some (Decoding "decode-0").
Proof. cbv zeta. split_and!; [apply (bool_decide_unpack _)|..]; vm_compute; done. Qed.

(** Only the third prefill node accepts a request. *)
Definition toy_json : Json PrefillRequestFrame := {| to_vec _ := Some []; from_slice _ := None |}.
Definition third_accepts (_ : nat) (a : string) (_ : TransportMessage) : bool := String.eqb a "10.0.0.3:1".
Definition toy_encode (_ : string) (_ : bool) : option (list N) := Some [1; 2]%N.

(** Hybrid nodes are not among the attempts: with one prefill node, which would accept, and
    a hybrid node that is chosen first and refuses, the only attempt is used up. *)
Definition with_hybrid : RouterState :=
  let s := build ["10.0.0.3:1"] [] "10.0.2.1:1" in
  with_router (λ r, with_registry (upsert_node (ClusterConfig.mkNode "hybrid-0" "10.0.0.9:1" Hybrid None None (mkResources 0 0)) Online (registry r)) r) s.

Example hybrid_nodes_use_up_attempts :
  let '(x', r) := start_handoff (O := gmap_order) (Json0 := toy_json) third_accepts (λ _ s, s) id 7 toy_encode "f" "hi" 1 "chatcmpl-1"
                    Sampling.greedy 16 (mkRun with_hybrid []) in
  r = Err (NoHealthyAfter 1) ∧ sends x' = [("10.0.0.9:1", false)] ∧ third_accepts 0 "10.0.0.3:1" (Control "" []) = true.
Proof. vm_compute. auto. Qed.

Lemma start_handoff_delivers_witness : ∃ x' n tried a,
  start_handoff (O := gmap_order) (Json0 := toy_json) third_accepts (λ _ s, s) id 7 toy_encode "f" "hi" 1 "chatcmpl-1" Sampling.greedy 16
    (mkRun demo []) = (x', Ok n) ∧
  sends x' = tried ++ [(a, true)] ∧ length tried < 3.
Proof.
  destruct (start_handoff_delivers (O := gmap_order) (Json0 := toy_json) third_accepts (λ _ s, s) id "prefill-2" 7 toy_encode "f" "hi" 1
              "chatcmpl-1" Sampling.greedy 16 (mkRun demo [])) as (x' & n & tried & a & E & Hs & _ & Hl).
  - split; try done. intros _. apply only_down_id.
  - split; [apply build_wf|apply build_roles| |vm_compute; lia].
    exists (mkRegistered (ClusterConfig.mkNode "prefill-2" "10.0.0.3:1" Prefill None None (mkResources 0 0)) Online).
    split; [|done]. split_and!; [vm_compute; reflexivity|done|by left|vm_compute; reflexivity].
  - by eexists.
  - by eexists.
  - exists x', n, tried, a. split_and!; [done|done|]. exact Hl.
Defined.

Lemma start_handoff_clean_witness :
  let '(x', res) := start_handoff (O := gmap_order) (Json0 := toy_json) (λ _ _ _, false) (λ _ s, s) id 7 toy_encode "f" "hi" 1 "chatcmpl-1"
                      Sampling.greedy 16 (mkRun demo []) in
  length (sends x') ≤ 3 ∧ res = Err (NoHealthyAfter 3) ∧ finished "chatcmpl-1" (front x').
Proof.
  pose proof (start_handoff_clean (O := gmap_order) (Json0 := toy_json) (λ _ _ _, false) (λ _ s, s) id 7 toy_encode "f" "hi" 1 "chatcmpl-1"
                Sampling.greedy 16 (mkRun demo []) (λ _ _, reflexivity _) ltac:(vm_compute; done)) as H.
  assert ((start_handoff (O := gmap_order) (Json0 := toy_json) (λ _ _ _, false) (λ _ s, s) id 7 toy_encode "f" "hi" 1 "chatcmpl-1"
             Sampling.greedy 16 (mkRun demo [])).2 = Err (NoHealthyAfter 3)) as E by (vm_compute; reflexivity).
  destruct (start_handoff _ _ _ _ _ _ _ _ _ _ _ _) as [x' res]. cbn in E. subst res. destruct H as (tried & Hs & Hl & _ & _ & Hf).
  split_and!; [|done|done]. rewrite Hs. exact Hl.
Defined.
