(* ===== verification/PipeCache.v ===== *)
(** * The cache manager of a pipeline

    [distributed/pipeline/cache_manager.rs]: every stage of a pipeline accounts for the KV cache
    of its own layers; admission, eviction and offsets are coordinated over all stages.

    Sizes are 64-bit and wrap; a layer range is not empty (validated). One reading of the clock
    is used per operation. A [HashMap] over sequence ids is iterated in the order of [IdOrder],
    any permutation. Fractions are IEEE doubles. *)

From Stdlib Require Import SpecFloat.
From S2P Require Import Prelude StableSort.

(** ** Configuration *)

Record PipelineCacheConfig := mkCacheConfig {
  stage_index : N;
  num_stages : N;
  layer_start : N;
  layer_end : N;
  max_sequences : nat;
  memory_budget_bytes : N;
  bytes_per_layer_per_token : N;
  pressure_threshold : spec_float;
}.

Inductive cache_error :=
  | TooFewStages | StageOutOfRange | EmptyLayerRange | NoSequences | NoBudget | NoBytesPerToken | BadThreshold
  | NotFound (sequence_id stage : N) | NoManagers.

Definition f64_of_N (n : N) : spec_float := binary_normalize 53 1024 (Z.of_N n) 0 false.

Definition num_layers (c : PipelineCacheConfig) : N := (layer_end c - layer_start c)%N.

Definition mul_u64 (a b : N) : N := as_u64 (a * b).

Definition estimate_memory (c : PipelineCacheConfig) (num_tokens : N) : N :=
  mul_u64 (mul_u64 (num_layers c) num_tokens) (bytes_per_layer_per_token c).

Definition config_validate (c : PipelineCacheConfig) : outcome cache_error () :=
  _ ← ensure (2 ≤ num_stages c)%N TooFewStages;
  _ ← ensure (stage_index c < num_stages c)%N StageOutOfRange;
  _ ← ensure (layer_start c < layer_end c)%N EmptyLayerRange;
  _ ← ensure (0 < max_sequences c) NoSequences;
  _ ← ensure (0 < memory_budget_bytes c)%N NoBudget;
  _ ← ensure (0 < bytes_per_layer_per_token c)%N NoBytesPerToken;
  ensure (SFleb (f64_of_N 0) (pressure_threshold c) = true ∧ SFleb (pressure_threshold c) (f64_of_N 1) = true) BadThreshold.

(** ** Allocations and messages *)

Record StageCacheAllocation := mkAllocation {
  sequence_id : N;
  a_layer_start : N;
  a_layer_end : N;
  allocated_memory_bytes : N;
  current_offset : N;
  prompt_len : N;
  created_at : nat;
  last_accessed : nat;
}.

Definition update_offset (now : nat) (new_offset bytes_per : N) (a : StageCacheAllocation) : StageCacheAllocation :=
  mkAllocation (sequence_id a) (a_layer_start a) (a_layer_end a)
    (mul_u64 (mul_u64 (a_layer_end a - a_layer_start a) new_offset) bytes_per) new_offset (prompt_len a) (created_at a) now.

Definition touch (now : nat) (a : StageCacheAllocation) : StageCacheAllocation :=
  mkAllocation (sequence_id a) (a_layer_start a) (a_layer_end a) (allocated_memory_bytes a) (current_offset a) (prompt_len a)
    (created_at a) now.

Record CacheAdmissionRequest := mkAdmission { rq_sequence_id : N; rq_prompt_len : N; estimated_max_tokens : N }.

Definition admission_new (id prompt_len : N) : CacheAdmissionRequest := mkAdmission id prompt_len 0.

Definition with_estimated_max_tokens (q : CacheAdmissionRequest) (n : N) : CacheAdmissionRequest :=
  mkAdmission (rq_sequence_id q) (rq_prompt_len q) n.

Definition effective_tokens (q : CacheAdmissionRequest) : N :=
  if decide (0 < estimated_max_tokens q)%N then as_u64 (rq_prompt_len q + estimated_max_tokens q) else rq_prompt_len q.

Inductive RejectionReason :=
  | MaxSequencesReached
  | InsufficientMemory (required_bytes available_bytes : N)
  | AlreadyCached
  | RejectedByStage (stage_index : N).

Definition metric_label (r : RejectionReason) : string :=
  match r with
  | MaxSequencesReached => "sequence_cap"
  | InsufficientMemory _ _ => "memory"
  | AlreadyCached => "already_cached"
  | RejectedByStage _ => "rejected_by_stage"
  end.

(** [Admitted] and [Rejected] *)
Inductive AdmissionDecision := IsAdmitted | Rejected (r : RejectionReason).

Record AdmissionDiagnostic := mkDiagnostic {
  d_stage_index : N; d_reason : RejectionReason; d_used_memory_bytes : N; d_budget_bytes : N; d_active_sequences : nat;
}.

Inductive EvictionReason := EvictMemoryPressure | SequenceComplete | ExplicitRequest | Preemption.

Record EvictionEvent := mkEviction { ev_sequence_id : N; initiating_stage : N; ev_reason : EvictionReason }.

Inductive PreemptionReason := MemoryPressure | AdmissionRequired.

Record PreemptionSignal := mkSignal {
  sig_sequence_ids : list N; source_stage : N; sig_usage : spec_float; sig_reason : PreemptionReason;
}.

Inductive PreemptionPolicy := LRU | Shortest | Longest.

Record CacheMetadataSync := mkSync {
  sy_sequence_id : N; sy_current_offset : N; sy_prompt_len : N; is_active : bool; sy_source_stage : N;
}.

(** ** The manager of one stage *)

Record PipelineCacheManager := mkManager {
  config : PipelineCacheConfig;
  allocations : gmap N StageCacheAllocation;
  used_memory_bytes : N;
  preemption_policy : PreemptionPolicy;
}.

Definition manager_new (c : PipelineCacheConfig) : outcome cache_error PipelineCacheManager :=
  _ ← config_validate c; Ok (mkManager c ∅ 0 LRU).

Definition with_preemption_policy (p : PreemptionPolicy) (m : PipelineCacheManager) : PipelineCacheManager :=
  mkManager (config m) (allocations m) (used_memory_bytes m) p.

Definition with_allocations (al : gmap N StageCacheAllocation) (used : N) (m : PipelineCacheManager) : PipelineCacheManager :=
  mkManager (config m) al used (preemption_policy m).

Definition active_sequences (m : PipelineCacheManager) : nat := size (allocations m).

(** [saturating_sub] *)
Definition available_memory (m : PipelineCacheManager) : N := (memory_budget_bytes (config m) - used_memory_bytes m)%N.

Definition memory_usage_fraction (m : PipelineCacheManager) : spec_float :=
  if decide (memory_budget_bytes (config m) = 0%N) then f64_of_N 1
  else SFdiv 53 1024 (f64_of_N (used_memory_bytes m)) (f64_of_N (memory_budget_bytes (config m))).

Definition is_under_pressure (m : PipelineCacheManager) : bool := SFleb (pressure_threshold (config m)) (memory_usage_fraction m).

(** The checks of an admission, in their order. *)
Definition admission_check (q : CacheAdmissionRequest) (m : PipelineCacheManager) : option RejectionReason :=
  if decide (is_Some (allocations m !! rq_sequence_id q)) then Some AlreadyCached
  else if decide (max_sequences (config m) ≤ size (allocations m)) then Some MaxSequencesReached
  else
    let required := estimate_memory (config m) (effective_tokens q) in
    let available := available_memory m in
    if decide (available < required)%N then Some (InsufficientMemory required available) else None.

Definition new_allocation (now : nat) (q : CacheAdmissionRequest) (c : PipelineCacheConfig) : StageCacheAllocation :=
  mkAllocation (rq_sequence_id q) (layer_start c) (layer_end c) (estimate_memory c (rq_prompt_len q)) (rq_prompt_len q) (rq_prompt_len q)
    now now.

Definition request_admission (now : nat) (q : CacheAdmissionRequest) (m : PipelineCacheManager) : PipelineCacheManager * AdmissionDecision :=
  match admission_check q m with
  | Some r => (m, Rejected r)
  | None =>
    let a := new_allocation now q (config m) in
    (with_allocations (<[rq_sequence_id q := a]> (allocations m)) (as_u64 (used_memory_bytes m + allocated_memory_bytes a)) m, IsAdmitted)
  end.

(** Removes an allocation and its memory, with [saturating_sub]. *)
Definition drop_allocation (id : N) (a : StageCacheAllocation) (m : PipelineCacheManager) : PipelineCacheManager :=
  with_allocations (delete id (allocations m)) (used_memory_bytes m - allocated_memory_bytes a)%N m.

Definition evict (id : N) (reason : EvictionReason) : M PipelineCacheManager cache_error EvictionEvent := λ m,
  match allocations m !! id with
  | Some a => (drop_allocation id a m, Ok (mkEviction id (stage_index (config m)) reason))
  | None => (m, Err (NotFound id (stage_index (config m))))
  end.

Definition apply_eviction_broadcast (e : EvictionEvent) (m : PipelineCacheManager) : PipelineCacheManager :=
  match allocations m !! ev_sequence_id e with
  | Some a => drop_allocation (ev_sequence_id e) a m
  | None => m
  end.

Definition apply_metadata_sync (now : nat) (sy : CacheMetadataSync) : M PipelineCacheManager cache_error () :=
  m ← get;
  if negb (is_active sy) then
    if decide (is_Some (allocations m !! sy_sequence_id sy)) then _ ← evict (sy_sequence_id sy) SequenceComplete; mret tt
    else mret tt
  else
    match allocations m !! sy_sequence_id sy with
    | Some a =>
      let a' := update_offset now (sy_current_offset sy) (bytes_per_layer_per_token (config m)) a in
      put (with_allocations (<[sy_sequence_id sy := a']> (allocations m))
             (saturating_add_u64 (used_memory_bytes m - allocated_memory_bytes a)%N (allocated_memory_bytes a')) m)
    | None => mret tt
    end.

Definition generate_metadata_sync (id : N) (m : PipelineCacheManager) : option CacheMetadataSync :=
  a ← allocations m !! id; Some (mkSync id (current_offset a) (prompt_len a) true (stage_index (config m))).

Class IdOrder := {
  id_iter {V} : gmap N V → list (N * V);
  id_iter_perm {V} (m : gmap N V) : id_iter m ≡ₚ map_to_list m;
}.

(** The order of eviction of a policy: [sort_by_key] is stable. *)
Definition evict_before (p : PreemptionPolicy) : relation StageCacheAllocation := λ a b,
  match p with
  | LRU => last_accessed a ≤ last_accessed b
  | Shortest => (current_offset a ≤ current_offset b)%N
  | Longest => (current_offset b ≤ current_offset a)%N
  end.

#[global] Instance evict_before_dec p a b : Decision (evict_before p a b).
Proof. unfold evict_before. destruct p; apply _. Defined.

Section pressure.
Context `{O : IdOrder}.

Definition select_eviction_candidates (m : PipelineCacheManager) : list N :=
  sequence_id <$> sort_by (evict_before (preemption_policy m)) (id_iter (allocations m)).*2.

Definition check_memory_pressure (m : PipelineCacheManager) : option PreemptionSignal :=
  if negb (is_under_pressure m) then None
  else match select_eviction_candidates m with
       | [] => None
       | ids => Some (mkSignal ids (stage_index (config m)) (memory_usage_fraction m) MemoryPressure)
       end.

(** [max_by]: the last of the greatest; floats that do not compare count as equal. *)
Definition more_urgent (a b : PreemptionSignal) : PreemptionSignal :=
  match SFcompare (sig_usage a) (sig_usage b) with Some Gt => a | _ => b end.

Definition check_pipeline_pressure (ms : list PipelineCacheManager) : option PreemptionSignal :=
  match omap check_memory_pressure ms with [] => None | s :: l => Some (foldl more_urgent s l) end.
End pressure.

(** ** Coordination *)

(** The first stage that rejects. *)
Fixpoint first_rejection (q : CacheAdmissionRequest) (ms : list PipelineCacheManager) : option (PipelineCacheManager * RejectionReason) :=
  match ms with
  | [] => None
  | m :: ms' => match admission_check q m with Some r => Some (m, r) | None => first_rejection q ms' end
  end.

Definition commit_admission (now : nat) (q : CacheAdmissionRequest) (ms : list PipelineCacheManager) : list PipelineCacheManager :=
  (λ m, (request_admission now q m).1) <$> ms.

Definition coordinated_admission (now : nat) (q : CacheAdmissionRequest) : M (list PipelineCacheManager) cache_error AdmissionDecision :=
  ms ← get;
  _ ← guard_m (negb (bool_decide (ms = []))) NoManagers;
  match first_rejection q ms with
  | Some (_, r) => mret (Rejected r)
  | None => _ ← put (commit_admission now q ms); mret IsAdmitted
  end.

Definition coordinated_admission_with_attribution (now : nat) (q : CacheAdmissionRequest) :
    M (list PipelineCacheManager) cache_error (option AdmissionDiagnostic) :=
  ms ← get;
  _ ← guard_m (negb (bool_decide (ms = []))) NoManagers;
  match first_rejection q ms with
  | Some (m, r) =>
    mret (Some (mkDiagnostic (stage_index (config m)) r (used_memory_bytes m) (memory_budget_bytes (config m)) (size (allocations m))))
  | None => _ ← put (commit_admission now q ms); mret None
  end.

Definition broadcast_eviction (id stage : N) (reason : EvictionReason) (ms : list PipelineCacheManager) :
    list PipelineCacheManager * EvictionEvent :=
  let e := mkEviction id stage reason in (apply_eviction_broadcast e <$> ms, e).

(** Applies a message to every stage but its source; stops at an error. *)
Fixpoint sync_metadata (now : nat) (sy : CacheMetadataSync) (ms : list PipelineCacheManager) :
    list PipelineCacheManager * outcome cache_error () :=
  match ms with
  | [] => ([], Ok tt)
  | m :: ms' =>
    if decide (stage_index (config m) = sy_source_stage sy) then
      let '(ms'', r) := sync_metadata now sy ms' in (m :: ms'', r)
    else
      match apply_metadata_sync now sy m with
      | (m', Ok _) => let '(ms'', r) := sync_metadata now sy ms' in (m' :: ms'', r)
      | (m', r) => (m' :: ms', r)
      end
  end.

Record PpTpCoord := mkCoord { co_stage : N; co_rank : N }.

Inductive PpTpAdmissionOutcome := GridAdmitted | GridRejected (at_ : PpTpCoord) (reason : RejectionReason).

Fixpoint first_grid_rejection (q : CacheAdmissionRequest) (ms : list (PpTpCoord * PipelineCacheManager)) : option (PpTpCoord * RejectionReason) :=
  match ms with
  | [] => None
  | (co, m) :: ms' => match admission_check q m with Some r => Some (co, r) | None => first_grid_rejection q ms' end
  end.

Definition coordinated_2d_admission (now : nat) (q : CacheAdmissionRequest) :
    M (list (PpTpCoord * PipelineCacheManager)) cache_error PpTpAdmissionOutcome :=
  ms ← get;
  _ ← guard_m (negb (bool_decide (ms = []))) NoManagers;
  match first_grid_rejection q ms with
  | Some (co, r) => mret (GridRejected co r)
  | None => _ ← put (prod_map id (λ m, (request_admission now q m).1) <$> ms); mret GridAdmitted
  end.

Definition broadcast_2d_eviction (id : N) (initiating : PpTpCoord) (reason : EvictionReason) (ms : list (PpTpCoord * PipelineCacheManager)) :
    list (PpTpCoord * PipelineCacheManager) * EvictionEvent :=
  let e := mkEviction id (co_stage initiating) reason in (prod_map Datatypes.id (apply_eviction_broadcast e) <$> ms, e).

(** ** Memory *)

Definition sum_memory (al : gmap N StageCacheAllocation) : N := map_fold (λ _ a s, (allocated_memory_bytes a + s)%N) 0%N al.

Lemma sum_memory_insert id a al : al !! id = None → sum_memory (<[id := a]> al) = (allocated_memory_bytes a + sum_memory al)%N.
Proof. intros H. unfold sum_memory. rewrite map_fold_insert_L; [done|intros; lia|done]. Qed.

Lemma sum_memory_delete id a al : al !! id = Some a → sum_memory al = (allocated_memory_bytes a + sum_memory (delete id al))%N.
Proof. intros H. unfold sum_memory. rewrite (map_fold_delete_L _ _ id a al); [done|intros; lia|done]. Qed.

Lemma sum_memory_bound B al : map_Forall (λ _ a, (allocated_memory_bytes a ≤ B)%N) al → (sum_memory al ≤ N.of_nat (size al) * B)%N.
Proof.
  induction al as [|id a al Hid IH] using map_ind; [by intros _|].
  intros [Ha Hal]%map_Forall_insert; [|done]. rewrite sum_memory_insert, map_size_insert_None by done.
  specialize (IH Hal). cbn in Ha. lia.
Qed.

Section sizes.
Context (T : N).

(** Memory of [n] tokens on a stage, without wrap-around. *)
Definition exact_memory (c : PipelineCacheConfig) (n : N) : N := (num_layers c * n * bytes_per_layer_per_token c)%N.

(** Sequences of at most [T] tokens cannot make the counters of the stage overflow. *)
Record roomy (c : PipelineCacheConfig) : Prop := {
  ro_some : 0 < max_sequences c;
  ro_bytes : (0 < bytes_per_layer_per_token c)%N;
  ro_all : (N.of_nat (max_sequences c) * exact_memory c T ≤ u64_max)%N;
}.

Lemma exact_memory_mono c n n' : (n ≤ n')%N → (exact_memory c n ≤ exact_memory c n')%N.
Proof. intros H. unfold exact_memory. apply N.mul_le_mono_r, N.mul_le_mono_l, H. Qed.

Lemma roomy_one c n : roomy c → (n ≤ T)%N → (exact_memory c n ≤ u64_max)%N.
Proof.
  intros [H1 _ H2] Hn. pose proof (exact_memory_mono c n T Hn). assert (1 ≤ N.of_nat (max_sequences c))%N by lia.
  etrans; [done|]. etrans; [|exact H2]. nia.
Qed.

Lemma mul_exact a b : (a * b ≤ u64_max)%N → mul_u64 a b = (a * b)%N.
Proof. intros H. unfold mul_u64, as_u64. apply N.mod_small. unfold u64_max in H. lia. Qed.

Lemma layers_tokens_exact l n b : (0 < b)%N → (l * n * b ≤ u64_max)%N → mul_u64 (mul_u64 l n) b = (l * n * b)%N.
Proof. intros Hb H. rewrite (mul_exact l n) by nia. by apply mul_exact. Qed.

Lemma estimate_exact c n : roomy c → (n ≤ T)%N → estimate_memory c n = exact_memory c n.
Proof. intros Hc Hn. apply layers_tokens_exact; [apply Hc|]. by apply roomy_one. Qed.

(** What a manager keeps. *)
Record alloc_ok (c : PipelineCacheConfig) (id : N) (a : StageCacheAllocation) : Prop := {
  ao_id : sequence_id a = id;
  ao_layers : a_layer_start a = layer_start c ∧ a_layer_end a = layer_end c;
  ao_offset : (current_offset a ≤ T)%N;
  ao_memory : allocated_memory_bytes a = exact_memory c (current_offset a);
}.

Record manager_ok (m : PipelineCacheManager) : Prop := {
  mo_roomy : roomy (config m);
  mo_used : used_memory_bytes m = sum_memory (allocations m);
  mo_allocs : map_Forall (alloc_ok (config m)) (allocations m);
  mo_size : size (allocations m) ≤ max_sequences (config m);
}.

Lemma sum_bound c al : map_Forall (alloc_ok c) al → (sum_memory al ≤ N.of_nat (size al) * exact_memory c T)%N.
Proof.
  intros H. apply sum_memory_bound. intros id a Ha. destruct (H id a Ha) as [_ _ Ho ->]. by apply exact_memory_mono.
Qed.

Definition request_ok (q : CacheAdmissionRequest) : Prop := (rq_prompt_len q + estimated_max_tokens q ≤ T)%N.

Lemma effective_exact q : (T ≤ u64_max)%N → request_ok q → (rq_prompt_len q ≤ effective_tokens q ≤ T)%N.
Proof.
  unfold request_ok, effective_tokens. intros HT Hq. destruct (decide _); [|lia].
  unfold as_u64. rewrite N.mod_small by (unfold u64_max in HT; lia). lia.
Qed.

Lemma admission_ok now q m : (T ≤ u64_max)%N → manager_ok m → request_ok q → admission_check q m = None →
  let m' := (request_admission now q m).1 in
  (request_admission now q m).2 = IsAdmitted ∧ manager_ok m' ∧ (used_memory_bytes m' ≤ used_memory_bytes m `max` memory_budget_bytes (config m))%N ∧
  allocations m' = <[rq_sequence_id q := new_allocation now q (config m)]> (allocations m) ∧ config m' = config m.
Proof.
  intros HT Hm Hq Hc m'. unfold m', request_admission. rewrite Hc. unfold admission_check in Hc.
  destruct (decide (is_Some _)) as [|Hnone]; [done|]. destruct (decide (_ ≤ _)) as [|Hsize]; [done|].
  destruct (decide (_ < _)%N) as [|Hmem]; [done|]. apply eq_None_not_Some in Hnone.
  pose proof (effective_exact q HT Hq) as [Heff1 Heff2]. pose proof Hm as [Hr Hu Ha _].
  rewrite (estimate_exact _ _ Hr Heff2) in Hmem. unfold available_memory in Hmem.
  assert (estimate_memory (config m) (rq_prompt_len q) = exact_memory (config m) (rq_prompt_len q)) as He.
  { apply estimate_exact; [done|lia]. }
  pose proof (exact_memory_mono (config m) _ _ Heff1) as Hmono.
  assert (map_Forall (alloc_ok (config m)) (<[rq_sequence_id q := new_allocation now q (config m)]> (allocations m))) as Hall.
  { apply map_Forall_insert_2; [|done]. split; [done|done|cbn; lia|done]. }
  assert (size (<[rq_sequence_id q := new_allocation now q (config m)]> (allocations m)) ≤ max_sequences (config m)) as Hsz.
  { rewrite map_size_insert_None by done. lia. }
  pose proof (sum_bound _ _ Hall) as Hb. rewrite sum_memory_insert in Hb by done.
  assert (as_u64 (used_memory_bytes m + exact_memory (config m) (rq_prompt_len q)) =
          (used_memory_bytes m + exact_memory (config m) (rq_prompt_len q))%N) as Hadd.
  { unfold as_u64. apply N.mod_small. destruct Hr as [_ _ Hr]. cbn in Hb. rewrite He in Hb. unfold u64_max in Hr. nia. }
  split_and!; [done| | |done|done].
  - split; [done| |done|done]. cbn. rewrite He, Hadd, sum_memory_insert by done. cbn. rewrite He. lia.
  - cbn. rewrite He, Hadd. lia.
Qed.

Lemma drop_ok id a m : manager_ok m → allocations m !! id = Some a → manager_ok (drop_allocation id a m).
Proof.
  intros [Hr Hu Ha Hs] Hid. split; [done| | |].
  - cbn. rewrite Hu, (sum_memory_delete _ _ _ Hid). lia.
  - by apply map_Forall_delete.
  - cbn. rewrite map_size_delete_Some by eauto. lia.
Qed.

Lemma eviction_ok e m : manager_ok m →
  manager_ok (apply_eviction_broadcast e m) ∧ allocations (apply_eviction_broadcast e m) = delete (ev_sequence_id e) (allocations m).
Proof.
  intros Hm. unfold apply_eviction_broadcast. destruct (allocations m !! ev_sequence_id e) as [a|] eqn:E.
  - split; [by apply drop_ok|done].
  - split; [done|]. symmetry. by apply delete_id.
Qed.

(** A message of an active sequence sets its offset and the memory that goes with it. *)
Lemma sync_ok now sy m : manager_ok m → is_active sy = true → (sy_current_offset sy ≤ T)%N →
  ∃ m', apply_metadata_sync now sy m = (m', Ok tt) ∧ manager_ok m' ∧ config m' = config m ∧
    allocations m' = alter (update_offset now (sy_current_offset sy) (bytes_per_layer_per_token (config m))) (sy_sequence_id sy) (allocations m).
Proof.
  intros Hm Hact Ho. unfold apply_metadata_sync. rewrite get_bind, Hact. cbn [negb].
  destruct (allocations m !! sy_sequence_id sy) as [a|] eqn:E.
  2: { exists m. split_and!; [done|done|done|]. symmetry. apply map_eq. intros i. destruct (decide (i = sy_sequence_id sy)) as [->|Hi].
       - by rewrite lookup_alter_eq, E.
       - by rewrite lookup_alter_ne. }
  set (a' := update_offset _ _ _ a). eexists. split; [done|]. pose proof Hm as [Hr Hu Ha Hs].
  destruct (Ha _ _ E) as [A1 [A2 A3] A4 A5].
  assert (allocated_memory_bytes a' = exact_memory (config m) (sy_current_offset sy)) as Hmem.
  { cbn. rewrite A2, A3. apply layers_tokens_exact; [apply Hr|]. by apply roomy_one. }
  assert (map_Forall (alloc_ok (config m)) (<[sy_sequence_id sy := a']> (allocations m))) as Hall.
  { apply map_Forall_insert_2; [|done]. split; [exact A1|split; [exact A2|exact A3]|exact Ho|exact Hmem]. }
  assert (size (<[sy_sequence_id sy := a']> (allocations m)) = size (allocations m)) as Hsz by (by rewrite map_size_insert_Some by eauto).
  pose proof (sum_bound _ _ Hall) as Hb.
  assert (sum_memory (<[sy_sequence_id sy := a']> (allocations m)) =
          (allocated_memory_bytes a' + sum_memory (delete (sy_sequence_id sy) (allocations m)))%N) as Hsum.
  { rewrite <-insert_delete_eq, sum_memory_insert; [done|]. apply lookup_delete_eq. }
  split_and!; [|done|].
  - split; [done| |exact Hall|cbn; by rewrite Hsz]. cbn [used_memory_bytes with_allocations allocations]. rewrite Hsum.
    rewrite Hu, (sum_memory_delete _ _ _ E). unfold saturating_add_u64.
    assert (sum_memory (<[sy_sequence_id sy := a']> (allocations m)) ≤ u64_max)%N as Hle.
    { etrans; [exact Hb|]. rewrite Hsz. destruct Hr as [_ _ Hr]. etrans; [|exact Hr]. apply N.mul_le_mono_r. lia. }
    rewrite Hsum in Hle. lia.
  - cbn. apply map_eq. intros i. destruct (decide (i = sy_sequence_id sy)) as [->|Hi].
    + by rewrite lookup_insert_eq, lookup_alter_eq, E.
    + by rewrite lookup_insert_ne, lookup_alter_ne.
Qed.

(** ** The stages together *)

(** All stages hold the sequences of [P], with their prompt lengths. *)
Definition coherent (P : gmap N N) (ms : list PipelineCacheManager) : Prop :=
  Forall (λ m, manager_ok m ∧ prompt_len <$> allocations m = P) ms.

Lemma first_rejection_None q ms : first_rejection q ms = None ↔ Forall (λ m, admission_check q m = None) ms.
Proof.
  induction ms as [|m ms IH]; cbn; [by split|]. rewrite Forall_cons. destruct (admission_check q m); [naive_solver|]. naive_solver.
Qed.

Lemma commit_coherent now q P ms : (T ≤ u64_max)%N → request_ok q → coherent P ms → first_rejection q ms = None →
  coherent (<[rq_sequence_id q := rq_prompt_len q]> P) (commit_admission now q ms).
Proof.
  intros HT Hq Hc Hn%first_rejection_None. apply Forall_fmap. unfold coherent in Hc. rewrite Forall_forall in Hc, Hn. apply Forall_forall. intros m Hm.
  destruct (Hc m Hm) as [Hok HP]. destruct (admission_ok now q m HT Hok Hq (Hn m Hm)) as (_ & H1 & _ & H2 & _).
  split; [done|]. cbn. rewrite H2, fmap_insert, HP. done.
Qed.

Lemma eviction_coherent e P ms : coherent P ms → coherent (delete (ev_sequence_id e) P) (apply_eviction_broadcast e <$> ms).
Proof.
  intros Hc. apply Forall_fmap. eapply Forall_impl; [exact Hc|]. intros m [Hm HP]. destruct (eviction_ok e m Hm) as [H1 H2].
  split; [done|]. cbn. by rewrite H2, fmap_delete, HP.
Qed.

Lemma sync_coherent now sy P ms : is_active sy = true → (sy_current_offset sy ≤ T)%N → coherent P ms →
  coherent P (sync_metadata now sy ms).1 ∧ (sync_metadata now sy ms).2 = Ok tt.
Proof.
  intros Hact Ho. induction 1 as [|m ms [Hm HP] Hms IH]; cbn [sync_metadata]; [by split; [constructor|]|].
  destruct (sync_metadata now sy ms) as [ms' r]. cbn in IH. destruct IH as [IH1 IH2].
  destruct (decide _) as [Hsrc|Hsrc]; [by split; [constructor|]|].
  destruct (sync_ok now sy m Hm Hact Ho) as (m' & -> & Hm' & _ & Hal). split; [|done]. constructor; [|done]. split; [done|].
  rewrite Hal, <-HP. apply map_eq. intros i. rewrite !lookup_fmap. destruct (decide (i = sy_sequence_id sy)) as [->|Hi].
  - rewrite lookup_alter_eq. by destruct (allocations m !! _).
  - by rewrite lookup_alter_ne.
Qed.
End sizes.

(** ** Admission *)

Lemma first_rejection_Some q ms m r : first_rejection q ms = Some (m, r) →
  ∃ ms1 ms2, ms = ms1 ++ m :: ms2 ∧ Forall (λ m, admission_check q m = None) ms1 ∧ admission_check q m = Some r.
Proof.
  induction ms as [|m0 ms IH]; [done|]. cbn. destruct (admission_check q m0) as [r0|] eqn:E.
  - intros [= -> ->]. by exists [], ms.
  - intros (ms1 & ms2 & -> & H1 & H2)%IH. exists (m0 :: ms1), ms2. split_and!; [done|by constructor|done].
Qed.

Lemma request_admission_accepts now q m : admission_check q m = None → (request_admission now q m).2 = IsAdmitted.
Proof. intros H. unfold request_admission. by rewrite H. Qed.

(** All stages take a sequence, or none does and the answer is that of the first one that refuses. *)
Definition all_or_none (now : nat) (q : CacheAdmissionRequest) (ms ms' : list PipelineCacheManager) (r : outcome cache_error AdmissionDecision) : Prop :=
  match r with
  | Ok IsAdmitted => ms ≠ [] ∧ Forall2 (λ m m', request_admission now q m = (m', IsAdmitted)) ms ms'
  | Ok (Rejected x) => ms' = ms ∧ ∃ ms1 m ms2, ms = ms1 ++ m :: ms2 ∧ Forall (λ m, admission_check q m = None) ms1 ∧ admission_check q m = Some x
  | Err e => ms = [] ∧ ms' = ms ∧ e = NoManagers
  | Panic => False
  end.

Lemma coordinated_admission_spec now q ms :
  let '(ms', r) := coordinated_admission now q ms in all_or_none now q ms ms' r.
Proof.
  unfold coordinated_admission. rewrite get_bind, guard_bind. destruct (bool_decide (ms = [])) eqn:E; cbn [negb].
  { by apply bool_decide_eq_true in E. }
  apply bool_decide_eq_false in E. destruct (first_rejection q ms) as [[m x]|] eqn:Ef.
  - split; [done|]. apply first_rejection_Some in Ef as (ms1 & ms2 & ? & ? & ?). by exists ms1, m, ms2.
  - split; [done|]. apply first_rejection_None in Ef. unfold commit_admission. apply Forall2_fmap_r, Forall_Forall2_diag.
    eapply Forall_impl; [exact Ef|]. intros m Hm. cbn in Hm. pose proof (request_admission_accepts now q m Hm) as H.
    cbn. by destruct (request_admission now q m) as [m' d]; cbn in *; rewrite H.
Qed.

(** The variant with a diagnosis decides the same; its report describes the stage that refused. *)
Lemma attribution_agrees now q ms :
  let '(ms', r) := coordinated_admission now q ms in
  let '(ms2, r2) := coordinated_admission_with_attribution now q ms in
  ms2 = ms' ∧
  match r2 with
  | Ok None => r = Ok IsAdmitted
  | Ok (Some d) => r = Ok (Rejected (d_reason d)) ∧
      ∃ m, m ∈ ms ∧ admission_check q m = Some (d_reason d) ∧ d_stage_index d = stage_index (config m) ∧
        d_used_memory_bytes d = used_memory_bytes m ∧ d_budget_bytes d = memory_budget_bytes (config m) ∧ d_active_sequences d = active_sequences m
  | Err e => r = Err e
  | Panic => False
  end.
Proof.
  unfold coordinated_admission, coordinated_admission_with_attribution. rewrite !get_bind, !guard_bind.
  destruct (bool_decide (ms = [])); cbn [negb]; [done|]. destruct (first_rejection q ms) as [[m x]|] eqn:Ef; [|done]. cbn.
  split_and!; [done|done|]. apply first_rejection_Some in Ef as (ms1 & ms2 & -> & _ & H). exists m. split_and!; try done. set_solver.
Qed.

(** So does the grid of stages and ranks. *)
Lemma grid_agrees now q (ms : list (PpTpCoord * PipelineCacheManager)) :
  let '(ms', r) := coordinated_admission now q ms.*2 in
  let '(ms2, r2) := coordinated_2d_admission now q ms in
  ms2.*1 = ms.*1 ∧ ms2.*2 = ms' ∧
  match r2 with
  | Ok GridAdmitted => r = Ok IsAdmitted
  | Ok (GridRejected co x) => r = Ok (Rejected x) ∧ ∃ m, (co, m) ∈ ms ∧ admission_check q m = Some x
  | Err e => r = Err e
  | Panic => False
  end.
Proof.
  unfold coordinated_admission, coordinated_2d_admission. rewrite !get_bind, !guard_bind.
  rewrite (bool_decide_ext (ms.*2 = []) (ms = [])) by (by destruct ms).
  destruct (bool_decide (ms = [])); cbn [negb]; [done|].
  assert (match first_grid_rejection q ms with
          | Some (co, x) => ∃ m, (co, m) ∈ ms ∧ admission_check q m = Some x ∧ first_rejection q ms.*2 = Some (m, x)
          | None => first_rejection q ms.*2 = None
          end) as H.
  { induction ms as [|[co m] ms IH]; [done|]. cbn. destruct (admission_check q m) as [x|] eqn:E; [exists m; split_and!; [by left|done..]|].
    destruct (first_grid_rejection q ms) as [[co' x]|]; [|done]. destruct IH as (m' & H1 & H2 & H3). exists m'. split_and!; [by right|done..]. }
  destruct (first_grid_rejection q ms) as [[co x]|].
  - destruct H as (m & Hin & Hx & ->). cbn. split_and!; [done|done|done|]. by exists m.
  - rewrite H. cbn. unfold commit_admission. split_and!; [| |done].
    + rewrite <-list_fmap_compose. apply list_fmap_ext. by intros ? [] ?.
    + rewrite <-!list_fmap_compose. apply list_fmap_ext. by intros ? [] ?.
Qed.

(** ** Runs *)

Inductive pipe_op :=
  | PAdmit (now : nat) (q : CacheAdmissionRequest)
  | PAdmitReport (now : nat) (q : CacheAdmissionRequest)
  | PEvict (id stage : N) (reason : EvictionReason)
  | PSync (now : nat) (sy : CacheMetadataSync).

Definition pipe_step (ms : list PipelineCacheManager) (op : pipe_op) : list PipelineCacheManager :=
  match op with
  | PAdmit now q => (coordinated_admission now q ms).1
  | PAdmitReport now q => (coordinated_admission_with_attribution now q ms).1
  | PEvict id stage reason => (broadcast_eviction id stage reason ms).1
  | PSync now sy => (sync_metadata now sy ms).1
  end.

(** Sequences of at most [T] tokens; the messages are about active ones, as [generate_metadata_sync] writes them. *)
Definition op_ok (T : N) (op : pipe_op) : Prop :=
  match op with
  | PAdmit _ q | PAdmitReport _ q => request_ok T q
  | PEvict _ _ _ => True
  | PSync _ sy => is_active sy = true ∧ (sy_current_offset sy ≤ T)%N
  end.

Lemma pipe_step_coherent T P ms op : (T ≤ u64_max)%N → op_ok T op → coherent T P ms → ∃ P', coherent T P' (pipe_step ms op).
Proof.
  intros HT Hop Hc.
  assert (∀ now q, request_ok T q → ∃ P', coherent T P' (coordinated_admission now q ms).1) as Hadmit.
  { intros now q Hq. unfold coordinated_admission. rewrite get_bind, guard_bind. destruct (negb _); [|by exists P].
    destruct (first_rejection q ms) as [[m x]|] eqn:Ef; [by exists P|]. eexists. by eapply commit_coherent. }
  destruct op as [now q|now q|id stage reason|now sy]; cbn [pipe_step op_ok] in *.
  - by apply Hadmit.
  - destruct (Hadmit now q Hop) as [P' HP']. exists P'. pose proof (attribution_agrees now q ms) as H.
    destruct (coordinated_admission now q ms), (coordinated_admission_with_attribution now q ms). destruct H as [-> _]. done.
  - eexists. exact (eviction_coherent T (mkEviction id stage reason) P ms Hc).
  - exists P. destruct Hop as [Hact Ho]. exact (proj1 (sync_coherent T now sy P ms Hact Ho Hc)).
Qed.

Lemma config_after now q m : config (request_admission now q m).1 = config m.
Proof. unfold request_admission. by destruct (admission_check q m). Qed.

Lemma sync_config now sy m : config (apply_metadata_sync now sy m).1 = config m.
Proof.
  unfold apply_metadata_sync. rewrite get_bind. destruct (is_active sy); cbn [negb].
  - by destruct (allocations m !! _).
  - destruct (decide _); [|done]. unfold evict, mbind, M_bind. by destruct (allocations m !! _).
Qed.

Lemma fmap_config (f : PipelineCacheManager → PipelineCacheManager) (ms : list PipelineCacheManager) : (∀ m, config (f m) = config m) → config <$> (f <$> ms) = config <$> ms.
Proof. intros Hf. rewrite <-list_fmap_compose. apply list_fmap_ext. intros i m _. apply Hf. Qed.

Lemma sync_metadata_config now sy ms : config <$> (sync_metadata now sy ms).1 = config <$> ms.
Proof.
  induction ms as [|m ms IH]; [done|]. cbn [sync_metadata]. pose proof (sync_config now sy m) as Hm.
  destruct (sync_metadata now sy ms) as [ms' r']. destruct (apply_metadata_sync now sy m) as [m' r]. cbn in *.
  destruct (decide _); cbn; [by rewrite IH|]. destruct r; cbn; by rewrite ?Hm, ?IH.
Qed.

Lemma pipe_step_config ms op : config <$> pipe_step ms op = config <$> ms.
Proof.
  assert (∀ now q, config <$> (coordinated_admission now q ms).1 = config <$> ms) as Hadmit.
  { intros now q. unfold coordinated_admission. rewrite get_bind, guard_bind. destruct (negb _); [|done].
    destruct (first_rejection q ms) as [[m x]|]; [done|]. apply fmap_config, config_after. }
  destruct op as [now q|now q|id stage reason|now sy]; cbn [pipe_step].
  - apply Hadmit.
  - pose proof (attribution_agrees now q ms) as H. rewrite <-(Hadmit now q).
    destruct (coordinated_admission now q ms), (coordinated_admission_with_attribution now q ms). by destruct H as [-> _].
  - apply fmap_config. intros m. unfold apply_eviction_broadcast. by destruct (allocations m !! _).
  - apply sync_metadata_config.
Qed.

Lemma manager_new_ok T c m : manager_new c = Ok m → (N.of_nat (max_sequences c) * exact_memory c T ≤ u64_max)%N →
  manager_ok T m ∧ allocations m = ∅ ∧ config m = c.
Proof.
  unfold manager_new, config_validate. intros ([] & Hv & [= <-])%outcome_bind_ok Hroom.
  apply ensure_bind in Hv as [_ Hv]. apply ensure_bind in Hv as [_ Hv]. apply ensure_bind in Hv as [_ Hv].
  apply ensure_bind in Hv as [H1 Hv]. apply ensure_bind in Hv as [_ Hv]. apply ensure_bind in Hv as [H2 _].
  split_and!; [|done|done]. split; [by split|done|apply map_Forall_empty|].
  change (size (∅ : gmap N StageCacheAllocation) ≤ max_sequences c). rewrite map_size_empty. lia.
Qed.

(** C21. The stages of a pipeline stay in step. From fresh managers, after any admissions, evictions
    and offset messages about sequences of at most [T] tokens, where the memory of the largest
    allowed set of such sequences fits 64 bits: every stage holds the same sequences with the same
    prompt lengths, at most its maximum; the memory it has in use is exactly that of its layers for
    the tokens each sequence has there; and the next request is admitted by all stages, each of
    which then is within its budget or no worse than before, or by none, with the reason of the
    first stage that refuses. *)
Theorem pipeline_cache_coherent T cs ms ops : (T ≤ u64_max)%N → Forall2 (λ c m, manager_new c = Ok m) cs ms →
  Forall (λ c, (N.of_nat (max_sequences c) * exact_memory c T ≤ u64_max)%N) cs → Forall (op_ok T) ops →
  let ms' := foldl pipe_step ms ops in
  config <$> ms' = cs ∧
  (∃ P : gmap N N, Forall (λ m, prompt_len <$> allocations m = P) ms') ∧
  Forall (λ m, active_sequences m ≤ max_sequences (config m) ∧ used_memory_bytes m = sum_memory (allocations m) ∧
               map_Forall (λ id a, sequence_id a = id ∧ (current_offset a ≤ T)%N ∧
                                   allocated_memory_bytes a = exact_memory (config m) (current_offset a)) (allocations m)) ms' ∧
  ∀ now q, request_ok T q →
    let '(ms'', r) := coordinated_admission now q ms' in
    all_or_none now q ms' ms'' r ∧
    (r = Ok IsAdmitted → Forall2 (λ m m', used_memory_bytes m' ≤ used_memory_bytes m `max` memory_budget_bytes (config m))%N ms' ms'').
Proof.
  intros HT Hnew Hroom Hops ms'.
  assert (config <$> ms' = cs) as Hcfg.
  { assert (config <$> ms = cs) as <-.
    { clear -Hnew Hroom. revert Hroom. induction Hnew as [|c m cs ms H _ IH]; [done|]. intros [Hc Hroom]%Forall_cons. cbn.
      rewrite (IH Hroom). by destruct (manager_new_ok T c m H Hc) as (_ & _ & ->). }
    unfold ms'. clear. revert ms. induction ops as [|op ops IH]; intros ms; [done|]. cbn. by rewrite IH, pipe_step_config. }
  assert (∃ P, coherent T P ms') as [P HP].
  { assert (coherent T ∅ ms) as H0.
    { clear -Hnew Hroom. revert Hroom. induction Hnew as [|c m cs ms H _ IH]; [by constructor|]. intros [Hc Hroom]%Forall_cons.
      constructor; [|by apply IH]. destruct (manager_new_ok T c m H Hc) as (Hm & He & _). split; [done|]. by rewrite He, fmap_empty. }
    unfold ms'. clear -H0 HT Hops. revert ms H0. generalize (∅ : gmap N N) as P. induction Hops as [|op ops Hop _ IH]; intros P ms H0; [by exists P|].
    cbn. destruct (pipe_step_coherent T P ms op HT Hop H0) as [P' HP']. by eapply IH. }
  split_and!; [done| | |].
  - exists P. eapply Forall_impl; [exact HP|]. by intros m [_ ?].
  - eapply Forall_impl; [exact HP|]. intros m [[_ Hu Ha Hs] _]. split_and!; [done|done|]. eapply map_Forall_impl; [exact Ha|].
    by intros id a [? _ ? ?].
  - intros now q Hq. pose proof (coordinated_admission_spec now q ms') as H. destruct (coordinated_admission now q ms') as [ms'' r].
    split; [done|]. intros ->. destruct H as [_ H]. clear -H HP HT Hq. unfold coherent in HP. revert HP.
    induction H as [|m m' l l' Hm _ IH]; [done|]. intros [[Hok _] HP]%Forall_cons. constructor; [|by apply IH].
    assert (admission_check q m = None) as Hc.
    { unfold request_admission in Hm. by destruct (admission_check q m). }
    destruct (admission_ok T now q m HT Hok Hq Hc) as (_ & _ & Hb & _). by rewrite Hm in Hb.
Qed.

(** Two stages; the second can hold two sequences. *)
Definition demo_stage (i layers : N) (seqs : nat) : PipelineCacheConfig :=
  mkCacheConfig i 2 (10 * i) (10 * i + layers) seqs 1000 2 (f64_of_N 1).

Definition demo_managers : list PipelineCacheManager := (λ c, mkManager c ∅ 0 LRU) <$> [demo_stage 0 3 4; demo_stage 1 5 2].

Lemma pipeline_cache_coherent_witness :
  let ops := [PAdmit 1 (mkAdmission 7 4 6); PAdmitReport 2 (mkAdmission 8 3 0); PSync 3 (mkSync 7 9 4 true 0); PEvict 8 1 ExplicitRequest;
              PAdmit 4 (mkAdmission 9 2 0); PAdmit 5 (mkAdmission 5 1 0)] in
  let ms := foldl pipe_step demo_managers ops in
  (used_memory_bytes <$> ms = [36; 110]%N) ∧ ∃ P : gmap N N, Forall (λ m, prompt_len <$> allocations m = P) ms.
Proof.
  intros ops ms.
  destruct (pipeline_cache_coherent 50 [demo_stage 0 3 4; demo_stage 1 5 2] demo_managers ops) as (_ & HP & _).
  - by vm_compute.
  - repeat constructor.
  - repeat constructor; by vm_compute.
  - repeat constructor; by vm_compute.
  - split; [vm_compute; reflexivity|exact HP].
Defined.

(** ** Preemption *)

#[global] Instance evict_before_total p : Total (evict_before p).
Proof. intros a b. destruct p; cbn; lia. Qed.

#[global] Instance evict_before_trans p : Transitive (evict_before p).
Proof. intros a b c. destruct p; cbn; lia. Qed.

(** A signal names every sequence of the stage once, in the order of the policy. *)
Lemma memory_pressure_spec `{O : IdOrder} m :
  map_Forall (λ id a, sequence_id a = id) (allocations m) →
  match check_memory_pressure m with
  | None => is_under_pressure m = false ∨ allocations m = ∅
  | Some s => is_under_pressure m = true ∧ source_stage s = stage_index (config m) ∧ sig_usage s = memory_usage_fraction m ∧
      ∃ l, sig_sequence_ids s = sequence_id <$> l ∧ Sorted (evict_before (preemption_policy m)) l ∧
        l ≡ₚ (map_to_list (allocations m)).*2 ∧ NoDup (sig_sequence_ids s)
  end.
Proof.
  intros Hid. unfold check_memory_pressure, select_eviction_candidates. destruct (is_under_pressure m); cbn [negb]; [|by left].
  set (l := sort_by _ _). assert (l ≡ₚ (map_to_list (allocations m)).*2) as Hl by (unfold l; by rewrite sort_by_perm, id_iter_perm).
  assert (NoDup (sequence_id <$> l)) as Hnd.
  { rewrite Hl, <-list_fmap_compose. rewrite (list_fmap_ext _ fst); [apply NoDup_fst_map_to_list|].
    intros i [k a] Hi%list_elem_of_lookup_2. apply elem_of_map_to_list in Hi. exact (Hid _ _ Hi). }
  destruct (sequence_id <$> l) as [|x ids] eqn:E.
  - right. destruct l; [|done]. apply map_to_list_empty_iff. by apply Permutation_nil, fmap_nil_inv in Hl.
  - split_and!; [done|done|done|]. exists l. split_and!; [done|apply sort_by_sorted, _|done|done].
Qed.

(** ** Limits *)

(** An admission checks the memory of the whole generation and books that of the prompt, so
    admitted sequences that stay within their announced lengths outgrow the budget; and the
    message that ends a sequence leaves it on the stage that sent it. *)
Lemma admission_books_prompt :
  let c := mkCacheConfig 1 2 0 1 4 100 1 (f64_of_N 1) in
  let m := mkManager c ∅ 0 LRU in
  let take_in n ms := (coordinated_admission 0 (mkAdmission n 10 40) ms).1 in
  let grow n ms := (sync_metadata 1 (mkSync n 50 10 true 0) ms).1 in
  let ms := grow 3%N (grow 2%N (grow 1%N (take_in 3%N (take_in 2%N (take_in 1%N [m]))))) in
  (used_memory_bytes <$> ms) = [150]%N ∧
  let ms2 := (sync_metadata 2 (mkSync 1 50 10 false 1) (take_in 1%N [m; mkManager (demo_stage 0 3 4) ∅ 0 LRU])).1 in
  (active_sequences <$> ms2) = [1; 0].
Proof. by vm_compute. Qed.
